(* ===== verification/_CoqProject ===== *)
-Q . S2P
Prelude.v
Text.v
Utf8.v
Net.v
Units.v
Float.v
Json.v
Access.v
Limiter.v
AcmeBudget.v
Privacy.v
Der.v
CertStore.v
CertStoreLaws.v
Outbound.v
OutboundLaws.v
Budget.v
BudgetRedis.v
ProxyProtocol.v
Health.v
Http.v
Pool.v
PoolOrder.v
PoolLaws.v
PoolConfig.v
Failover.v
ClientCert.v
ClientCertLaws.v
Auth.v
KeyVault.v
Llm.v
LlmGate.v
Forwarding.v
ForwardingLaws.v
Cors.v
Waf.v
Dlp.v
DlpLaws.v
Alert.v
Telemetry.v
Shipping.v
Metrics.v
CspSink.v
MaskLaws.v
StreamInspect.v
Pipeline.v
PipelineLaws.v
Boot.v
BootLaws.v
ControlPlane.v
ControlPlaneLaws.v
Reporting.v
Reload.v
ManagedEdge.v
Serve.v
ServeLaws.v
UnknownKeys.v
Redirect.v
UpstreamTls.v
Worker.v
Accounting.v
AccountingLaws.v
Checking.v
Disk.v
SelfSigned.v
Cli.v
Acme.v
AcmeLaws.v
Supervisor.v
Exposition.v
OtlpMetrics.v
OtlpLaws.v
OtlpRegistry.v
Doctor.v
Load.v
Startup.v
DoctorLaws.v
Ner.v
