(* ===== verification/Prelude.v ===== *)
(** * EdgeGuard (eggrd): a verification development

    EdgeGuard is a reverse proxy that stands in front of one application.  A connection is accepted
    (possibly with a PROXY header naming the client), a request is read, and [handle_inner] of
    [src/src/proxy.rs] takes it through a fixed sequence of controls: client address, IP lists, rate
    limit, authentication, method list, request inspection (WAF, DLP), the LLM gateway (key vault, price
    policy, hard budgets), a pool of upstream targets, and on the way back response hardening, CORS, DLP
    again and metering.  This library models those controls as executable functions, one file per
    component, and proves what each promises; the last files compose them.

    ** Conventions

    - Numbers of the source are [Z], kept at their width where it matters: [wrap], [sat_add], [as_i64],
      [in_u] below.  The release profile does not check overflow, so plain arithmetic wraps.
    - A [&str], [String] or [&[u8]] is the list of its bytes ([bytes]).  [Text] and [Utf8] hold the
      functions of [str] the sources call; where a source iterates over characters but only tests ASCII
      ones, the model iterates over bytes.
    - Fallible code returns [result], with the static text of the message; [let?] and [ensure] below read
      like [?] and [ensure!].  A panic is [None] of a partial function (slicing off a character boundary).
    - Time is an argument (nanoseconds of the monotonic clock, or unix seconds, as the source has it);
      random identifiers and store answers are functions of a call counter.
    - Third-party code is a section variable: regular expressions, [serde_json], [base64], [argon2],
      [jsonwebtoken], [rustls], [time], header value checks of the [http] crate, the standard hasher.  A
      theorem that needs something of one says so as a hypothesis and has a witness with a concrete one.
    - Loops that are not structural take fuel equal to the length of what they consume; each has a lemma
      that more fuel changes nothing ([Der.each_fuel] and the like), or consumes its input
      structurally after a change of shape that is stated where it is made.
    - Logging, metrics counters and tracing spans are left out of handlers unless a decision depends on
      them.

    ** Files

    Foundations: [Prelude] (integers, results, iterators, byte strings), [Text], [Utf8], [Net] (addresses
    and their text), [Units] (sizes, rates, durations of [config.rs]), [Float] (the [f64] operations in
    use), [Http] (the header map).

    Connections: [ProxyProtocol] ([proxy_protocol.rs]: both header versions, incremental reading, whom a
    header is believed from).

    Admission: [Access] ([access.rs]), [Limiter] ([limiter.rs]: GCRA, the in-process and the Redis
    script), [Auth] ([auth.rs]), [ClientCert] and [ClientCertLaws] ([client_auth.rs],
    [client_cert_header.rs]), [Der] (the DER walker of [certstore.rs]).

    Inspection: [Waf] ([waf.rs]), [Dlp], [DlpLaws], [MaskLaws] ([dlp.rs] and the streaming scanners of
    [proxy.rs]), [StreamInspect] ([stream_inspect.rs] and the streamed upload),
    [Cors] ([cors.rs]).

    LLM gateway: [Budget], [BudgetRedis] ([budget.rs]), [KeyVault] ([keyvault.rs]), [Llm] ([llm.rs]),
    [LlmGate] (their composition in [proxy.rs]).

    Upstreams: [Health], [Pool], [PoolOrder], [PoolLaws], [PoolConfig] ([pool.rs]), [Failover]
    ([send_to_pool], [upstream.rs]), [Forwarding], [ForwardingLaws] (the forwarding and hardening parts
    of [proxy.rs]).

    The request as a whole: [Pipeline], [PipelineLaws] ([handle_inner] of [proxy.rs] from the client's
    address to the answer), [Accounting], [AccountingLaws] (what an exchange leaves behind: counters,
    access line, settlement, for buffered and streamed bodies), [Privacy]
    ([accesslog.rs], [redact.rs]), [Telemetry] ([telemetry.rs]), [Shipping]
    ([logship.rs]), [Metrics] ([metrics.rs]), [CspSink] ([csp_sink.rs]),
    [Alert] ([alert.rs]).

    Listeners: [Serve], [ServeLaws] ([serve.rs]: accepting, limits, the preface, draining), [Redirect]
    (the plain-HTTP listener of [tls.rs]).

    Outbound: [Outbound], [OutboundLaws] ([outbound.rs]), [UpstreamTls] ([upstream.rs]: verification and
    client certificates per upstream), [Checking] (the health-check loop of [pool.rs]).

    Configuration and control: [UnknownKeys] ([unknown_keys.rs]), [Boot], [BootLaws]
    (building a runtime, [lib.rs] and [proxy.rs]), [ControlPlane], [ControlPlaneLaws], [Reporting]
    ([cp.rs], [policy.rs]), [Reload] ([reload.rs]), [ManagedEdge] (their composition), [Json] (a
    [serde_json] value).

    Certificates: [CertStore], [CertStoreLaws] ([certstore.rs]), [Disk] ([std::fs] with faults),
    [SelfSigned] ([selfsigned.rs]), [Acme], [AcmeLaws] ([acme.rs], [acme_dns.rs]: an
    order, its challenges and its cleanup).

    The process: [Load] ([Config::load] of [config.rs] and the defaults of every section), [Cli] (the
    command line of [main.rs], [generate.rs], [scaffold.rs]), [Doctor] ([doctor.rs]: the whole lint),
    [Startup] (the steps of [run] that can end it, and [run_doctor]), [DoctorLaws] (the two compared),
    [Supervisor] ([supervisor.rs]).

    Metrics on the wire: [Exposition] (every family [render] writes), [OtlpMetrics], [OtlpLaws],
    [OtlpRegistry] ([otlp_metrics.rs]: the same registry as an OTLP request).

    Entity recognition: [Ner] ([edgeguard-ner]).

    The worker: [Worker] ([worker/src/lib.rs]).

    ACME: [AcmeBudget] ([acme_budget.rs], and the decision to send an order in [acme.rs]).

    ** What is proved

    - Money and rate: a budget admits what fits under its limit over any interleaving of requests, and is passed
      only by settles above their holds ([Budget.budget_hard_cap]); reserving refines an all-or-nothing ledger, settling is exact and idempotent, over Redis too
      however its answers are lost; an LLM request whose
      exchange is settled is charged what its response reported ([LlmGate.llm_charge_exact]), the
      reported usage does not depend on frame boundaries, and its cost is exact; the limiter admits at
      most its burst and rate over any window and its two backends agree; certificate orders stay within
      the issuance limits.
    - Identity: a PROXY header, a forwarded client certificate, an [X-Forwarded-For] entry and an
      [X-Forwarded-Client-Cert] are believed only from whom the configuration trusts; authentication is
      equivalent to a relation of granting credentials; a vault key resolves to its one entry.
    - Content: redaction leaves nothing that was flagged, masking text without a placeholder round-trips through any chunking of the
      reply, a blocked response is withheld (a declined upgrade aside), a blocking signature does not pass a streamed upload, CORS opens responses to the allowed
      origins only, hop-by-hop headers are stripped and cookies hardened.
    - Availability: a request to a pool reaches a target that accepts connections; the order of targets
      is complete, fair by weight, and stable under hashing (a least-connections pick can panic when the
      counts it reads change under it, [PoolOrder.least_conn_panics]); the last target in rotation is never ejected.
    - Parsers: PROXY headers, sticky cookies, XFCC values and the ASCII names of certificates are read back from an
      encoder; reads are bounded.
    - Composition: a request reaches an upstream only after every control has let it pass, refusals cost
      nothing, each header sent upstream is the edge's or the client's as stated, and every request whose answer
      runs to its end is counted once, charged once and leaves one line ([PipelineLaws], [AccountingLaws];
      a client that leaves while its reservation is committed is the exception they describe).
    - Certificates: a pair reaches the disk whole or not at all whatever calls fail; renewal meets its
      deadline; an ACME order asks before it spends, is answerable for every challenge it calls ready,
      and leaves no token, listener or confirmed record behind however it ends.
    - Managed mode: an edge runs and reports the policy it was given, resumes a cached one after a restart, keeps
      each figure of usage in one place until the process ends, and picks up every file edit that raises
      an event while it watches.
    - Operation: slow clients are closed in time (later by one timeout when a drain begins first), a drain waits for every connection and ends, health
      checks keep coming, records are shipped or counted as dropped, credentials leave only over TLS.
    - The worker hardens and authenticates as the proxy with the same settings, text cookies and all.
    - The process: loading a configuration drops nothing the environment asks for, the defaults start,
      arguments are all accounted for, files that are there are not written over, doctor says of a start
      what the start does, up to named settings, and the supervisor starts an application only when what is
      left in the groups of earlier ones was killed.
    - What is pushed over OTLP is what a scrape of the same registry reads; the spans of a scan are the
      maximal runs of its tokens.

    ** Bounds and hypotheses

    [Budget.calm] fixes a stretch of time in which no counter expires (the code refreshes them to twice
    the window) and in which counters stay below 2^62, so the [i64] arithmetic of a settle is exact.
    [Limiter] theorems take instants of one monotonic clock.  DER lengths are bounded by 2^32, as the
    walker reads at most four length bytes.  The overlap of streamed inspection bounds the length of the
    signatures that are sure to be seen, as documented in the source.

    ** Not modelled

    What is printed for a person (help, hints, the wording of findings and of log lines), the JSON of the
    status endpoints, the derived [Deserialize] of the configuration and its replay by the key tracker of
    [unknown_keys.rs] (generated code over [serde]), the rustls and [reqwest] adapters ([tls.rs], the
    connectors of [upstream.rs], verifier and resolver implementations, body and stream wrappers), the
    timer task that posts metrics, file watching, and the Windows variants of the supervisor: glue around
    libraries, which keeps no state of its own.
*)

From Stdlib Require Export ZArith Lia.
From Stdlib Require Ascii String.
From stdpp Require Export base tactics numbers list gmap fin_maps.
Export (notations) Ascii String.

(** Everything in the development that is a number of the source is a [Z]. *)
#[global] Open Scope Z_scope.

(** ** Machine integers *)

(** The values of an unsigned [w]-bit type. *)
Definition in_u (w z : Z) : Prop := 0 <= z < 2 ^ w.

#[global] Instance in_u_dec w z : Decision (in_u w z).
Proof. unfold in_u. apply _. Defined.

(** Release builds wrap: the crate's release profile does not set [overflow-checks]. *)
Definition wrap (w z : Z) : Z := z mod 2 ^ w.
Definition sat_add (w a b : Z) : Z := Z.min (2 ^ w - 1) (a + b).
Definition sat_sub (a b : Z) : Z := Z.max 0 (a - b).
Definition sat_mul (w a b : Z) : Z := Z.min (2 ^ w - 1) (a * b).
Definition checked_mul (w a b : Z) : option Z :=
  if a * b <? 2 ^ w then Some (a * b) else None.

(** [x as i64] of an integer: the two's complement value of its low 64 bits. *)
Definition as_i64 (z : Z) : Z :=
  let u := z mod 2 ^ 64 in if u <? 2 ^ 63 then u else u - 2 ^ 64.

Lemma wrap_small w z : in_u w z -> wrap w z = z.
Proof. intros H. apply Z.mod_small. exact H. Qed.

Lemma wrap_range w z : 0 <= w -> in_u w (wrap w z).
Proof. intros Hw. apply Z.mod_pos_bound. apply Z.pow_pos_nonneg; lia. Qed.

Lemma as_i64_small z : 0 <= z < 2 ^ 63 -> as_i64 z = z.
Proof.
  intros H. unfold as_i64. rewrite Z.mod_small by lia.
  destruct (Z.ltb_spec z (2 ^ 63)); lia.
Qed.

Lemma as_i64_signed z : - 2 ^ 63 <= z < 2 ^ 63 -> as_i64 z = z.
Proof.
  intros H. destruct (Z.le_gt_cases 0 z); [apply as_i64_small; lia|].
  unfold as_i64. rewrite <- (Z.mod_add _ 1) by lia. rewrite Z.mod_small by lia.
  destruct (Z.ltb_spec (z + 1 * 2 ^ 64) (2 ^ 63)); lia.
Qed.

(** Case analysis on every boolean comparison of [Z] in sight, then [lia]. *)
Ltac zcase :=
  repeat match goal with
  | |- context [?a <? ?b] => destruct (Z.ltb_spec a b)
  | |- context [?a <=? ?b] => destruct (Z.leb_spec a b)
  | |- context [?a =? ?b] => destruct (Z.eqb_spec a b)
  | H : context [?a <? ?b] |- _ => destruct (Z.ltb_spec a b)
  | H : context [?a <=? ?b] |- _ => destruct (Z.leb_spec a b)
  | H : context [?a =? ?b] |- _ => destruct (Z.eqb_spec a b)
  end.

(** ** Fallible code *)

(** [anyhow::Result]: the error is the static text of its message; what the source interpolates
    into it is left out. *)
Inductive result (A : Type) : Type :=
| Ok (a : A)
| Err (e : String.string).
Arguments Ok {A} a.
Arguments Err {A} e%_string.

Definition rbind {A B} (r : result A) (k : A -> result B) : result B :=
  match r with Ok a => k a | Err e => Err e end.

(** [.ok_or(..)?] / [.with_context(..)?] on an option. *)
Definition ok_or {A} (o : option A) (e : String.string) : result A :=
  match o with Some a => Ok a | None => Err e end.
Arguments ok_or {A} o e%_string.

Definition rok {A} (r : result A) : option A :=
  match r with Ok a => Some a | Err _ => None end.

Declare Scope edge_scope.
Delimit Scope edge_scope with edge.
Notation "'let?' x := e 'in' k" := (rbind e (fun x => k))
  (at level 10, x name, e at level 100, k at level 200) : edge_scope.
Notation "'ensure' b 'else' m ; k" := (if b then k else Err m)
  (at level 10, b at level 100, m at level 0, k at level 200) : edge_scope.
#[global] Open Scope edge_scope.

Lemma rbind_Ok {A B} (r : result A) (k : A -> result B) b :
  rbind r k = Ok b -> exists a, r = Ok a /\ k a = Ok b.
Proof. destruct r as [a|]; simpl; [eauto | done]. Qed.

(** Opens a successful run of fallible code: each [let?] gives its value, each [ensure] its condition. *)
Ltac run_inv H :=
  repeat match type of H with
  | rbind _ _ = Ok _ =>
      let a := fresh "v" in let Ha := fresh "Hv" in apply rbind_Ok in H as (a & Ha & H)
  | (if ?b then _ else Err _) = Ok _ =>
      let E := fresh "He" in destruct b eqn:E; [|discriminate H]
  | Ok _ = Ok _ => injection H as H
  | Err _ = Ok _ => discriminate H
  end.

(** [iter().map(f).collect::<Result<Vec<_>>>()]: the first error wins. *)
Fixpoint collect {A B} (f : A -> result B) (l : list A) : result (list B) :=
  match l with
  | [] => Ok []
  | a :: l =>
      match f a with
      | Err e => Err e
      | Ok b => match collect f l with Err e => Err e | Ok bs => Ok (b :: bs) end
      end
  end.

Lemma collect_Ok {A B} (f : A -> result B) l bs :
  collect f l = Ok bs <-> Forall2 (fun a b => f a = Ok b) l bs.
Proof.
  revert bs. induction l as [|a l IH]; intros bs; simpl.
  - split; [intros [= <-]; constructor | intros H; inversion H; reflexivity].
  - split.
    + destruct (f a) as [b|] eqn:Hf; [|discriminate].
      destruct (collect f l) as [bs'|] eqn:Hc; [|discriminate].
      intros [= <-]. constructor; [done | by apply IH].
    + intros H. inversion H as [|? b ? bs' Hab Hrest]; subst. rewrite Hab.
      by rewrite (proj2 (IH bs') Hrest).
Qed.

Lemma Forall2_in_l {A B} (R : A -> B -> Prop) l k x :
  Forall2 R l k -> x ∈ l -> exists y, y ∈ k /\ R x y.
Proof.
  induction 1 as [|a b l k Hab _ IH]; intros Hx; [by apply elem_of_nil in Hx|].
  apply elem_of_cons in Hx as [->|Hx]; [exists b; split; [left | done]|].
  destruct (IH Hx) as (y & Hy & HR). exists y. split; [by right | done].
Qed.

Lemma Forall2_in_r {A B} (R : A -> B -> Prop) l k y :
  Forall2 R l k -> y ∈ k -> exists x, x ∈ l /\ R x y.
Proof. intros H Hy. apply (Forall2_in_l (flip R) k l); [by apply Forall2_flip | done]. Qed.

(** ** Iterators *)

(** [Iterator::max_by_key]: the last of the elements with the greatest key. *)
Definition max_by_key {A} (f : A -> Z) (l : list A) : option A :=
  fold_left (fun best x =>
    match best with
    | None => Some x
    | Some y => if f y <=? f x then Some x else Some y
    end) l None.

Lemma max_by_key_fold {A} (f : A -> Z) l b r :
  fold_left (fun best x =>
    match best with
    | None => Some x
    | Some y => if f y <=? f x then Some x else Some y
    end) l (Some b) = Some r ->
  (r = b \/ r ∈ l) /\ f b <= f r /\ Forall (fun x => f x <= f r) l.
Proof.
  revert b. induction l as [|x l IH]; intros b; simpl.
  - intros [= <-]. split; [by left|]. split; [lia | constructor].
  - rewrite elem_of_cons. destruct (Z.leb_spec (f b) (f x)); intros H'; apply IH in H'.
    + destruct H' as ([->|Hin] & Hle & HF); (split; [tauto|]); (split; [lia|]);
        constructor; (lia || done).
    + destruct H' as ([->|Hin] & Hle & HF); (split; [tauto|]); (split; [lia|]);
        constructor; (lia || done).
Qed.

Lemma max_by_key_Some {A} (f : A -> Z) l r :
  max_by_key f l = Some r -> r ∈ l /\ Forall (fun x => f x <= f r) l.
Proof.
  destruct l as [|b l]; [done|]. unfold max_by_key. cbn [fold_left].
  intros (Hin & Hb & HF)%max_by_key_fold. rewrite elem_of_cons.
  split; [tauto|]. by constructor.
Qed.

Lemma max_by_key_None {A} (f : A -> Z) l : max_by_key f l = None <-> l = [].
Proof.
  destruct l as [|b l]; [done|]. unfold max_by_key. cbn [fold_left].
  split; [|done]. generalize b. induction l as [|x l IH]; intros c; simpl; [done|].
  case_match; intros H'; by apply IH in H'.
Qed.

(** ** Byte strings *)

(** A [&str], [String] or [&[u8]] is the list of its bytes, each a [Z]. *)
Abbreviation bytes := (list Z).

Definition lit (s : String.string) : bytes :=
  map (fun a => Z.of_N (Ascii.N_of_ascii a)) (String.list_ascii_of_string s).
Arguments lit s%_string.

Definition beq (a b : bytes) : bool := bool_decide (a = b).

Lemma beq_true a b : beq a b = true <-> a = b.
Proof. apply bool_decide_eq_true. Qed.

Lemma beq_false a b : beq a b = false <-> a <> b.
Proof. unfold beq. apply bool_decide_eq_false. Qed.

Lemma beq_refl a : beq a a = true.
Proof. by apply beq_true. Qed.

Definition len (s : bytes) : Z := Z.of_nat (length s).

Lemma len_nonneg s : 0 <= len s.
Proof. unfold len. lia. Qed.

Lemma len_app a b : len (a ++ b) = len a + len b.
Proof. unfold len. rewrite length_app. lia. Qed.

(** [str::strip_prefix]. *)
Fixpoint strip_prefix (p s : bytes) : option bytes :=
  match p, s with
  | [], _ => Some s
  | a :: p, b :: s => if a =? b then strip_prefix p s else None
  | _ :: _, [] => None
  end.

Definition starts_with (s p : bytes) : bool :=
  match strip_prefix p s with Some _ => true | None => false end.

Definition strip_suffix (p s : bytes) : option bytes :=
  match strip_prefix (rev p) (rev s) with Some r => Some (rev r) | None => None end.

Definition ends_with (s p : bytes) : bool :=
  match strip_suffix p s with Some _ => true | None => false end.

Lemma strip_prefix_Some p s r : strip_prefix p s = Some r <-> s = p ++ r.
Proof.
  revert s. induction p as [|a p IH]; intros s; simpl.
  - split; [intros [= ->]; done | intros ->; done].
  - destruct s as [|b s]; [split; discriminate|].
    destruct (Z.eqb_spec a b) as [->|Hne]; [rewrite IH|]; split; congruence.
Qed.

Lemma strip_suffix_Some p s r : strip_suffix p s = Some r <-> s = r ++ p.
Proof.
  unfold strip_suffix. destruct (strip_prefix (rev p) (rev s)) as [r'|] eqn:H.
  - apply strip_prefix_Some in H. apply (f_equal (@rev Z)) in H.
    rewrite rev_app_distr, !rev_involutive in H. subst s. split.
    + by intros [= ->].
    + intros Heq. apply (inj (.++ p)) in Heq. by subst.
  - split; [discriminate|]. intros ->. rewrite rev_app_distr in H.
    by rewrite (proj2 (strip_prefix_Some _ _ _) eq_refl) in H.
Qed.

Lemma starts_with_true s p : starts_with s p = true <-> exists r, s = p ++ r.
Proof.
  unfold starts_with. destruct (strip_prefix p s) as [r|] eqn:H.
  - apply strip_prefix_Some in H. split; [eauto | done].
  - split; [done|]. intros [r Hr]. apply strip_prefix_Some in Hr. congruence.
Qed.

Lemma ends_with_true s p : ends_with s p = true <-> exists r, s = r ++ p.
Proof.
  unfold ends_with. destruct (strip_suffix p s) as [r|] eqn:H.
  - apply strip_suffix_Some in H. split; [eauto | done].
  - split; [done|]. intros [r Hr]. apply strip_suffix_Some in Hr. congruence.
Qed.

(** [str::split_once] on a one-byte character. *)
Fixpoint split_once (c : Z) (s : bytes) : option (bytes * bytes) :=
  match s with
  | [] => None
  | x :: s =>
      if x =? c then Some ([], s)
      else match split_once c s with Some (a, b) => Some (x :: a, b) | None => None end
  end.

Definition rsplit_once (c : Z) (s : bytes) : option (bytes * bytes) :=
  match split_once c (rev s) with Some (a, b) => Some (rev b, rev a) | None => None end.

(** [str::split] on a one-byte character: never empty. *)
Fixpoint split_on (c : Z) (s : bytes) : list bytes :=
  match s with
  | [] => [[]]
  | x :: s =>
      if x =? c then [] :: split_on c s
      else match split_on c s with
           | [] => [[x]]
           | p :: ps => (x :: p) :: ps
           end
  end.

(** [[..].join(sep)]. *)
Fixpoint join (sep : bytes) (l : list bytes) : bytes :=
  match l with
  | [] => []
  | [a] => a
  | a :: l => a ++ sep ++ join sep l
  end.

Lemma split_once_Some c s a b :
  split_once c s = Some (a, b) <-> s = a ++ c :: b /\ c ∉ a.
Proof.
  revert a b. induction s as [|x s IH]; intros a b; simpl.
  - split; [done|]. intros [H _]. by destruct a.
  - destruct (Z.eqb_spec x c) as [->|Hne].
    + split.
      * intros [= <- <-]. split; [done | apply not_elem_of_nil].
      * intros [H Hn]. destruct a as [|y a]; [simpl in H; congruence|].
        apply not_elem_of_cons in Hn as [Hn _]. simpl in H. congruence.
    + destruct (split_once c s) as [[a' b']|] eqn:Hs.
      * destruct (proj1 (IH a' b') eq_refl) as [-> Hn']. split.
        { intros [= <- <-]. split; [done|]. apply not_elem_of_cons. done. }
        intros [H Hn]. destruct a as [|y a]; [simpl in H; congruence|].
        simpl in H. injection H as <- H. apply not_elem_of_cons in Hn as [_ Hn].
        assert (Some (a', b') = Some (a, b)) as [= -> ->]; [|done].
        apply IH. done.
      * split; [done|]. intros [H Hn]. destruct a as [|y a]; [simpl in H; congruence|].
        simpl in H. injection H as <- H. apply not_elem_of_cons in Hn as [_ Hn].
        by pose proof (proj2 (IH a b) (conj H Hn)).
Qed.

Lemma split_once_None c s : split_once c s = None <-> c ∉ s.
Proof.
  induction s as [|x s IH]; simpl.
  - split; [intros _; apply not_elem_of_nil | done].
  - rewrite not_elem_of_cons. destruct (Z.eqb_spec x c) as [->|Hne]; [intuition congruence|].
    destruct (split_once c s) as [[a b]|]; intuition congruence.
Qed.

Lemma split_on_none c s : c ∉ s -> split_on c s = [s].
Proof.
  induction s as [|x s IH]; intros H; simpl; [done|].
  apply not_elem_of_cons in H as [H1 H2]. destruct (Z.eqb_spec x c); [congruence|].
  by rewrite IH.
Qed.

Lemma split_on_app c a s : c ∉ a -> split_on c (a ++ c :: s) = a :: split_on c s.
Proof.
  induction a as [|x a IH]; intros H; simpl.
  - by rewrite Z.eqb_refl.
  - apply not_elem_of_cons in H as [H1 H2]. destruct (Z.eqb_spec x c); [congruence|].
    by rewrite IH.
Qed.

Lemma split_on_nonempty c s : split_on c s <> [].
Proof. destruct s; simpl; [done|]. repeat case_match; done. Qed.

(** Splitting then joining gives the text back. *)
Lemma join_split_on c s : join [c] (split_on c s) = s.
Proof.
  induction s as [|x s IH]; simpl; [done|].
  pose proof (split_on_nonempty c s) as Hne.
  destruct (Z.eqb_spec x c) as [->|].
  - destruct (split_on c s); [done|]. simpl. simpl in IH. by rewrite IH.
  - destruct (split_on c s) as [|p ps] eqn:Hs; [done|].
    destruct ps; simpl in IH |- *; rewrite <- IH; done.
Qed.
