(* ===== verification/Text.v ===== *)
(** * Text: the functions of [str] and the integer parsers the crate calls

    [str::trim], [to_ascii_lowercase], [FromStr] of the unsigned integers and the decimal and
    hexadecimal [Display] of them, on byte strings.  Every component file uses these. *)

From Stdlib Require Sorted.
From S2P Require Import Prelude.

(** ** Whitespace *)

(** The UTF-8 encodings of the Unicode [White_Space] characters, which [str::trim] removes.  No
    encoding is a proper prefix or suffix of another character's, so trimming by encoding is
    trimming by character on valid UTF-8. *)
Definition ws_encodings : list bytes :=
  [[9]; [10]; [11]; [12]; [13]; [32]; [194; 133]; [194; 160]; [225; 154; 128];
   [226; 128; 128]; [226; 128; 129]; [226; 128; 130]; [226; 128; 131]; [226; 128; 132];
   [226; 128; 133]; [226; 128; 134]; [226; 128; 135]; [226; 128; 136]; [226; 128; 137];
   [226; 128; 138]; [226; 128; 168]; [226; 128; 169]; [226; 128; 175]; [226; 129; 159];
   [227; 128; 128]].

Fixpoint strip_any (pats : list bytes) (s : bytes) : option bytes :=
  match pats with
  | [] => None
  | p :: pats => match strip_prefix p s with Some r => Some r | None => strip_any pats s end
  end.

(** Every encoding is at least one byte, so [length s] rounds are enough. *)
Fixpoint trim_go (pats : list bytes) (fuel : nat) (s : bytes) : bytes :=
  match fuel with
  | O => s
  | S fuel => match strip_any pats s with Some r => trim_go pats fuel r | None => s end
  end.

Definition trim_start (s : bytes) : bytes := trim_go ws_encodings (length s) s.
Definition trim_end (s : bytes) : bytes :=
  rev (trim_go (map (@rev Z) ws_encodings) (length s) (rev s)).
Definition trim (s : bytes) : bytes := trim_end (trim_start s).

(** [str::trim_end_matches] and [trim_start_matches] on a one-byte character. *)
Fixpoint drop_while (f : Z -> bool) (s : bytes) : bytes :=
  match s with
  | [] => []
  | x :: s' => if f x then drop_while f s' else s
  end.
Definition trim_start_matches (c : Z) (s : bytes) : bytes := drop_while (Z.eqb c) s.
Definition trim_end_matches (c : Z) (s : bytes) : bytes := rev (drop_while (Z.eqb c) (rev s)).

(** ** ASCII case *)

Definition is_upper (c : Z) : bool := (65 <=? c) && (c <=? 90).
Definition is_lower (c : Z) : bool := (97 <=? c) && (c <=? 122).
Definition is_digit (c : Z) : bool := (48 <=? c) && (c <=? 57).
Definition is_alpha (c : Z) : bool := is_upper c || is_lower c.
Definition is_alnum (c : Z) : bool := is_alpha c || is_digit c.

Definition lower_byte (c : Z) : Z := if is_upper c then c + 32 else c.
Definition to_ascii_lowercase (s : bytes) : bytes := map lower_byte s.
Definition eq_ignore_ascii_case (a b : bytes) : bool :=
  beq (to_ascii_lowercase a) (to_ascii_lowercase b).

Lemma lower_byte_idemp c : lower_byte (lower_byte c) = lower_byte c.
Proof.
  unfold lower_byte. destruct (is_upper c) eqn:E; [|by rewrite E].
  revert E. unfold is_upper. zcase; simpl; try done; lia.
Qed.

Lemma to_ascii_lowercase_idemp s : to_ascii_lowercase (to_ascii_lowercase s) = to_ascii_lowercase s.
Proof. unfold to_ascii_lowercase. rewrite map_map. apply map_ext. apply lower_byte_idemp. Qed.

(** ** Numbers *)

Definition digit_val (c : Z) : option Z := if is_digit c then Some (c - 48) else None.

(** [char::to_digit(16)]. *)
Definition hex_val (c : Z) : option Z :=
  if is_digit c then Some (c - 48)
  else if (97 <=? c) && (c <=? 102) then Some (c - 87)
  else if (65 <=? c) && (c <=? 70) then Some (c - 55)
  else None.

Fixpoint digits_go (acc : Z) (s : bytes) : option Z :=
  match s with
  | [] => Some acc
  | c :: s => match digit_val c with Some d => digits_go (acc * 10 + d) s | None => None end
  end.

(** [<uN as FromStr>::from_str]: an optional [+], at least one digit, in range.  The value only
    grows as digits are read, so comparing the final one with the bound is what the checked
    arithmetic of the library does. *)
Definition parse_uint (w : Z) (s : bytes) : option Z :=
  let ds := match s with c :: r => if c =? 43 then r else s | [] => s end in
  match ds with
  | [] => None
  | _ => match digits_go 0 ds with
         | Some n => if n <? 2 ^ w then Some n else None
         | None => None
         end
  end.

Fixpoint radix_go (r : Z) (digit : Z -> Z) (fuel : nat) (z : Z) (acc : bytes) : bytes :=
  match fuel with
  | O => acc
  | S fuel =>
      let acc := digit (z mod r) :: acc in
      if z / r =? 0 then acc else radix_go r digit fuel (z / r) acc
  end.

Definition dec_digit (d : Z) : Z := 48 + d.
Definition hex_digit (d : Z) : Z := if d <? 10 then 48 + d else 87 + d.

(** [format!("{}", n)] and [format!("{:x}", n)] of an unsigned [n].  A number has at most
    [log2 n + 1] digits in any radix, so the fuel is enough. *)
Definition dec (z : Z) : bytes := radix_go 10 dec_digit (S (Z.to_nat (Z.log2 z))) z [].
Definition hex (z : Z) : bytes := radix_go 16 hex_digit (S (Z.to_nat (Z.log2 z))) z [].

Lemma digits_go_app acc a b :
  digits_go acc (a ++ b) =
  match digits_go acc a with Some n => digits_go n b | None => None end.
Proof.
  revert acc. induction a as [|c a IH]; intros acc; simpl; [done|].
  destruct (digit_val c); [apply IH | done].
Qed.

Lemma digit_val_dec d : 0 <= d < 10 -> digit_val (dec_digit d) = Some d.
Proof.
  intros H. unfold digit_val, dec_digit, is_digit. zcase; simpl; try lia. f_equal. lia.
Qed.

Lemma div_log2 z : 10 <= z -> Z.log2 (z / 10) < Z.log2 z.
Proof.
  intros H. assert (0 < z / 10) by (apply Z.div_str_pos; lia).
  assert (Z.log2 (z / 10) <= Z.log2 (z / 2)) by
    (apply Z.log2_le_mono, Z.div_le_compat_l; lia).
  assert (Z.log2 (z / 2) = Z.log2 z - 1); [|lia].
  rewrite <- Z.div2_div, Z.div2_spec, Z.log2_shiftr by lia.
  assert (0 < Z.log2 z) by (apply Z.log2_pos; lia). lia.
Qed.

Lemma dec_digits_go fuel z acc k :
  0 <= z -> (Z.to_nat (Z.log2 z) < fuel)%nat ->
  exists m, digits_go k (radix_go 10 dec_digit fuel z acc) = digits_go (k * m + z) acc
            /\ (0 < m).
Proof.
  revert z acc k. induction fuel as [|fuel IH]; intros z acc k Hz Hf; [lia|].
  simpl. pose proof (Z.mod_pos_bound z 10 ltac:(lia)) as Hm.
  pose proof (Z.div_mod z 10 ltac:(lia)) as Hd.
  destruct (Z.eqb_spec (z / 10) 0) as [H0|H0].
  - exists 10. split; [|lia]. simpl. rewrite digit_val_dec by lia. f_equal. lia.
  - assert (10 <= z) by (apply Z.nlt_ge; intros ?; rewrite Z.div_small in H0; lia).
    pose proof (div_log2 z ltac:(lia)).
    destruct (IH (z / 10) (dec_digit (z mod 10) :: acc) k) as [m [Hgo Hpos]].
    { apply Z.div_pos; lia. }
    { pose proof (Z.log2_nonneg (z / 10)). pose proof (Z.log2_nonneg z). lia. }
    exists (m * 10). split; [|lia]. rewrite Hgo. simpl. rewrite digit_val_dec by lia.
    f_equal. lia.
Qed.

Lemma digits_go_dec z : 0 <= z -> digits_go 0 (dec z) = Some z.
Proof.
  intros Hz. unfold dec.
  destruct (dec_digits_go (S (Z.to_nat (Z.log2 z))) z [] 0 Hz ltac:(lia)) as [m [-> _]].
  simpl. by rewrite Z.mul_0_l.
Qed.

Lemma radix_go_digits r digit fuel z acc (P : Z -> Prop) :
  0 < r -> (forall d, 0 <= d < r -> P (digit d)) -> Forall P acc ->
  Forall P (radix_go r digit fuel z acc).
Proof.
  intros Hr HP. revert z acc. induction fuel as [|fuel IH]; intros z acc Hacc; simpl; [done|].
  assert (Forall P (digit (z mod r) :: acc)).
  { constructor; [|done]. apply HP, Z.mod_pos_bound. lia. }
  destruct (z / r =? 0); [done | by apply IH].
Qed.

Lemma dec_digits z : Forall (fun c => is_digit c = true) (dec z).
Proof.
  apply radix_go_digits; [lia| |constructor].
  intros d Hd. unfold is_digit, dec_digit. zcase; simpl; lia.
Qed.

Lemma radix_go_nonempty r digit fuel z acc :
  radix_go r digit (S fuel) z acc <> [].
Proof.
  revert z acc. induction fuel as [|fuel IH]; intros z acc.
  - simpl. by case_match.
  - change (radix_go r digit (S (S fuel)) z acc) with
      (if z / r =? 0 then digit (z mod r) :: acc
       else radix_go r digit (S fuel) (z / r) (digit (z mod r) :: acc)).
    case_match; [done | apply IH].
Qed.

(** Printing then parsing an unsigned integer gives it back. *)
(** A number below [10 ^ k] prints in at most [k] digits. *)
Lemma length_radix_go digit fuel z acc k :
  0 <= z < 10 ^ Z.of_nat (S k) ->
  (length (radix_go 10 digit fuel z acc) <= S k + length acc)%nat.
Proof.
  revert z acc k. induction fuel as [|fuel IH]; intros z acc k Hz; cbn [radix_go]; [lia|].
  destruct (Z.eqb_spec (z / 10) 0) as [|Hne]; [simpl; lia|]. destruct k as [|k].
  - change (10 ^ Z.of_nat 1) with 10 in Hz. rewrite Z.div_small in Hne; lia.
  - etransitivity; [apply (IH _ _ k)|simpl; lia].
    rewrite (Nat2Z.inj_succ (S k)), Z.pow_succ_r in Hz by lia.
    split; [apply Z.div_pos; lia | apply Z.div_lt_upper_bound; lia].
Qed.

Lemma length_dec z k : 0 <= z < 10 ^ Z.of_nat (S k) -> (length (dec z) <= S k)%nat.
Proof. intros H. unfold dec. etransitivity; [by apply (length_radix_go _ _ _ _ k) | simpl; lia]. Qed.

Lemma parse_uint_dec w z : in_u w z -> parse_uint w (dec z) = Some z.
Proof.
  intros [H1 H2]. unfold parse_uint.
  pose proof (digits_go_dec z H1) as Hd. pose proof (dec_digits z) as HF.
  pose proof (radix_go_nonempty 10 dec_digit (Z.to_nat (Z.log2 z)) z []) as Hne.
  fold (dec z) in Hne.
  destruct (dec z) as [|c r] eqn:Hdec; [done|].
  inversion HF as [|? ? Hc ?]; subst.
  destruct (Z.eqb_spec c 43) as [->|]; [discriminate|].
  rewrite Hd. destruct (Z.ltb_spec z (2 ^ w)); [done|lia].
Qed.

Lemma parse_uint_range w s n : parse_uint w s = Some n -> in_u w n.
Proof.
  unfold parse_uint. set (ds := match s with [] => s | _ => _ end). clearbody ds.
  assert (Hgo : forall l acc m, 0 <= acc -> digits_go acc l = Some m -> 0 <= m).
  { induction l as [|c l IH]; intros acc m Ha; simpl; [intros [= <-]; done|].
    unfold digit_val, is_digit. zcase; simpl; try done. apply IH. lia. }
  destruct ds as [|c r]; [done|].
  destruct (digits_go 0 (c :: r)) as [m|] eqn:Hm; [|done].
  destruct (Z.ltb_spec m (2 ^ w)); [|done]. intros [= <-].
  split; [by apply (Hgo _ 0 m ltac:(lia) Hm) | done].
Qed.

(** ** Sorting and deduplicating texts *)

(** The order of [str]: bytewise, a prefix first. *)
Fixpoint bytes_leb (a b : bytes) : bool :=
  match a, b with
  | [], _ => true
  | _ :: _, [] => false
  | x :: a, y :: b => if x <? y then true else if x =? y then bytes_leb a b else false
  end.

Fixpoint insert_sorted (x : bytes) (l : list bytes) : list bytes :=
  match l with
  | [] => [x]
  | y :: l' => if bytes_leb x y then x :: l else y :: insert_sorted x l'
  end.

(** [slice::sort]: the order is total, so the sorted list is unique. *)
Fixpoint sort_bytes (l : list bytes) : list bytes :=
  match l with [] => [] | x :: l => insert_sorted x (sort_bytes l) end.

(** [Vec::dedup]: consecutive equal elements become one. *)
Fixpoint dedup (l : list bytes) : list bytes :=
  match l with
  | [] => []
  | x :: l' => match dedup l' with
               | [] => [x]
               | y :: r => if beq x y then y :: r else x :: y :: r
               end
  end.

Lemma bytes_leb_total a b : bytes_leb a b = true \/ bytes_leb b a = true.
Proof.
  revert b. induction a as [|x a IH]; intros [|y b]; simpl; auto.
  specialize (IH b). zcase; subst; try tauto; lia.
Qed.

Lemma bytes_leb_antisym a b : bytes_leb a b = true -> bytes_leb b a = true -> a = b.
Proof.
  revert b. induction a as [|x a IH]; intros [|y b]; simpl; try done.
  zcase; subst; try done; try lia. intros H1 H2. f_equal. by apply IH.
Qed.

Lemma bytes_leb_trans a b c :
  bytes_leb a b = true -> bytes_leb b c = true -> bytes_leb a c = true.
Proof.
  revert b c. induction a as [|x a IH]; intros [|y b] [|z c]; simpl; try done.
  zcase; subst; try done; try lia. apply IH.
Qed.

Definition sorted_le (l : list bytes) : Prop := Sorted.StronglySorted (fun a b => bytes_leb a b = true) l.
Definition sorted_lt (l : list bytes) : Prop :=
  Sorted.StronglySorted (fun a b => bytes_leb a b = true /\ a <> b) l.

Lemma elem_of_insert_sorted x y l : y ∈ insert_sorted x l <-> y = x \/ y ∈ l.
Proof.
  induction l as [|z l IH]; simpl; [by rewrite list_elem_of_singleton, elem_of_nil; tauto|].
  destruct (bytes_leb x z); rewrite !elem_of_cons; [tauto|]. rewrite IH. tauto.
Qed.

Lemma elem_of_sort_bytes y l : y ∈ sort_bytes l <-> y ∈ l.
Proof.
  induction l as [|x l IH]; simpl; [done|].
  rewrite elem_of_insert_sorted, elem_of_cons, IH. done.
Qed.

Lemma insert_sorted_sorted x l : sorted_le l -> sorted_le (insert_sorted x l).
Proof.
  induction 1 as [|y l Hl IH Hy]; simpl; [repeat constructor|].
  destruct (bytes_leb x y) eqn:Hxy.
  - constructor; [by constructor|]. constructor; [done|].
    eapply Forall_impl; [exact Hy|]. intros z Hz. by apply (bytes_leb_trans x y z).
  - constructor; [done|]. apply Forall_forall. intros z [->|Hz]%elem_of_insert_sorted.
    + destruct (bytes_leb_total x y); congruence.
    + rewrite Forall_forall in Hy. by apply Hy.
Qed.

Lemma sort_bytes_sorted l : sorted_le (sort_bytes l).
Proof. induction l as [|x l IH]; simpl; [constructor | by apply insert_sorted_sorted]. Qed.

Lemma elem_of_dedup y l : y ∈ dedup l <-> y ∈ l.
Proof.
  induction l as [|x l IH]; simpl; [done|]. rewrite elem_of_cons, <- IH.
  destruct (dedup l) as [|z r]; [by rewrite list_elem_of_singleton, elem_of_nil; tauto|].
  destruct (beq x z) eqn:E; rewrite !elem_of_cons; [|tauto]. apply beq_true in E as ->. tauto.
Qed.

Lemma dedup_sorted l : sorted_le l -> sorted_lt (dedup l).
Proof.
  induction 1 as [|x l Hl IH Hx]; simpl; [constructor|].
  assert (Hle : forall y, y ∈ dedup l -> bytes_leb x y = true).
  { intros y Hy. rewrite elem_of_dedup in Hy. rewrite Forall_forall in Hx. by apply Hx. }
  destruct (dedup l) as [|z r]; [repeat constructor|].
  destruct (beq x z) eqn:E; [done|]. constructor; [done|].
  assert (x <> z) by (intros ->; by rewrite beq_refl in E).
  inversion IH as [|? ? _ Hz]; subst. apply Forall_forall. intros y Hy.
  split; [by apply Hle|]. intros ->. apply elem_of_cons in Hy as [->|Hy]; [done|].
  rewrite Forall_forall in Hz. destruct (Hz y Hy) as [Hzy Hne].
  apply Hne, bytes_leb_antisym; [done|]. apply Hle. left.
Qed.

(** Strictly sorted lists with the same elements are the same list. *)
Lemma sorted_lt_unique l k : sorted_lt l -> sorted_lt k -> (forall x, x ∈ l <-> x ∈ k) -> l = k.
Proof.
  intros Hl. revert k. induction Hl as [|x l Hl IH Hx]; intros k Hk Heq.
  - destruct k as [|y k]; [done|]. exfalso. eapply not_elem_of_nil, Heq. left.
  - destruct k as [|y k]; [exfalso; eapply not_elem_of_nil, Heq; left|].
    inversion Hk as [|? ? Hk' Hy]; subst. rewrite Forall_forall in Hx, Hy.
    assert (x = y) as ->.
    { destruct (decide (x = y)) as [|Hne]; [done|].
      pose proof (proj1 (Heq x) ltac:(left)) as [?|Hxk]%elem_of_cons; [done|].
      pose proof (proj2 (Heq y) ltac:(left)) as [?|Hyl]%elem_of_cons; [congruence|].
      apply bytes_leb_antisym; [apply (Hx y Hyl) | apply (Hy x Hxk)]. }
    f_equal. apply IH; [done|]. intros z. specialize (Heq z). rewrite !elem_of_cons in Heq.
    split; intros Hz.
    + destruct (proj1 Heq ltac:(by right)) as [->|]; [|done]. by destruct (Hx y Hz).
    + destruct (proj2 Heq ltac:(by right)) as [->|]; [|done]. by destruct (Hy y Hz).
Qed.

(** Sorting and deduplicating depends only on the set of texts. *)
Lemma sort_dedup_set l k :
  (forall x, x ∈ l <-> x ∈ k) -> dedup (sort_bytes l) = dedup (sort_bytes k).
Proof.
  intros Heq. apply sorted_lt_unique; [apply dedup_sorted, sort_bytes_sorted..|].
  intros x. by rewrite !elem_of_dedup, !elem_of_sort_bytes.
Qed.

Lemma sorted_lt_NoDup l : sorted_lt l -> NoDup l.
Proof.
  induction 1 as [|x l Hl IH Hx]; constructor; [|done].
  intros Hin. rewrite Forall_forall in Hx. by destruct (Hx x Hin).
Qed.

(** ** Characters *)

(** The number of bytes of the UTF-8 character that starts with this byte. *)
Definition char_len (c : Z) : nat :=
  if c <? 192 then 1 else if c <? 224 then 2 else if c <? 240 then 3 else 4.

(** [str::chars], each character as its encoding.  A character has at least one byte, so [length s]
    rounds are enough. *)
Fixpoint chars_go (fuel : nat) (s : bytes) : list bytes :=
  match fuel, s with
  | S fuel, c :: _ => take (char_len c) s :: chars_go fuel (drop (char_len c) s)
  | _, _ => []
  end.
Definition chars (s : bytes) : list bytes := chars_go (length s) s.

(** [char::is_control] (category Cc: U+0000-001F, U+007F-009F). *)
Definition is_control (ch : bytes) : bool :=
  match ch with
  | [c] => (c <? 32) || (c =? 127)
  | [a; b] => (a =? 194) && (128 <=? b) && (b <? 160)
  | _ => false
  end.

(** [std::str::from_utf8] succeeds exactly on well-formed UTF-8: the leading byte fixes the length and
    the range of the second byte, every further byte is a continuation.  Each round consumes at least
    one byte, so [length s] rounds are enough. *)
Definition is_cont (c : Z) : bool := (128 <=? c) && (c <=? 191).

Definition utf8_char (s : bytes) : option bytes :=
  match s with
  | a :: r =>
      if a <? 128 then Some r
      else match r with
      | b :: r =>
          if (194 <=? a) && (a <=? 223) then if is_cont b then Some r else None
          else match r with
          | c :: r =>
              if (224 <=? a) && (a <=? 239) then
                if ((if a =? 224 then 160 else 128) <=? b) && (b <=? (if a =? 237 then 159 else 191))
                   && is_cont c then Some r else None
              else match r with
              | d :: r =>
                  if (240 <=? a) && (a <=? 244)
                     && ((if a =? 240 then 144 else 128) <=? b) && (b <=? (if a =? 244 then 143 else 191))
                     && is_cont c && is_cont d then Some r else None
              | [] => None
              end
          | [] => None
          end
      | [] => None
      end
  | [] => None
  end.

Fixpoint utf8_go (fuel : nat) (s : bytes) : bool :=
  match s, fuel with
  | [], _ => true
  | _, O => false
  | _, S fuel => match utf8_char s with Some r => utf8_go fuel r | None => false end
  end.

Definition from_utf8_ok (s : bytes) : bool := utf8_go (length s) s.

Lemma ascii_utf8_ok s : Forall (fun c => c < 128) s -> from_utf8_ok s = true.
Proof.
  unfold from_utf8_ok. induction 1 as [|c s Hc _ IH]; [done|]. simpl.
  destruct (Z.ltb_spec c 128); [done | lia].
Qed.

(** [u8::is_ascii_graphic]. *)
Definition is_graphic (c : Z) : bool := (33 <=? c) && (c <=? 126).

(** Text that starts and ends with a visible character has nothing to trim. *)
Lemma strip_any_graphic pats c s :
  Forall (fun p => match p with a :: _ => a <> c | [] => False end) pats -> strip_any pats (c :: s) = None.
Proof.
  induction 1 as [|p pats Hp _ IH]; [done|]. simpl. destruct p as [|a p]; [done|]. simpl.
  destruct (Z.eqb_spec a c); done.
Qed.

Lemma ws_not_graphic c : is_graphic c = true ->
  Forall (fun p => match p with a :: _ => a <> c | [] => False end) ws_encodings
  /\ Forall (fun p => match p with a :: _ => a <> c | [] => False end) (map (@rev Z) ws_encodings).
Proof.
  unfold is_graphic. rewrite andb_true_iff, !Z.leb_le. intros Hc.
  split; unfold ws_encodings; cbn [map rev app]; repeat constructor; lia.
Qed.

Lemma trim_go_graphic pats fuel c s :
  Forall (fun p => match p with a :: _ => a <> c | [] => False end) pats ->
  trim_go pats fuel (c :: s) = c :: s.
Proof. intros H. destruct fuel; simpl; [done|]. by rewrite strip_any_graphic. Qed.

Lemma trim_graphic c m d :
  is_graphic c = true -> is_graphic d = true -> trim (c :: m ++ [d]) = c :: m ++ [d].
Proof.
  intros Hc Hd. unfold trim, trim_start. rewrite trim_go_graphic by by apply ws_not_graphic.
  unfold trim_end. replace (rev (c :: m ++ [d])) with (d :: rev (c :: m))
    by (cbn [rev]; by rewrite rev_app_distr).
  rewrite trim_go_graphic by by apply ws_not_graphic. cbn [rev]. by rewrite rev_app_distr, rev_involutive.
Qed.

(** ** Trimming twice *)

Lemma strip_any_app pats s r t : strip_any pats s = Some r -> exists r', strip_any pats (s ++ t) = Some r'.
Proof.
  induction pats as [|p pats IH]; [done|]. cbn. destruct (strip_prefix p s) as [q|] eqn:Hp.
  - intros _. apply strip_prefix_Some in Hp as ->. rewrite <- app_assoc. rewrite (proj2 (strip_prefix_Some p _ (q ++ t)) eq_refl). eauto.
  - intros Hr. destruct (strip_prefix p (s ++ t)); eauto.
Qed.

Lemma strip_any_shorter pats s r : Forall (fun p => p <> []) pats -> strip_any pats s = Some r -> (length r < length s)%nat.
Proof.
  induction 1 as [|p pats Hp _ IH]; [done|]. cbn. destruct (strip_prefix p s) as [q|] eqn:Hq; [|done].
  intros [= <-]. apply strip_prefix_Some in Hq as ->. rewrite length_app. destruct p; cbn; [done | lia].
Qed.

Lemma trim_go_done pats fuel s : Forall (fun p => p <> []) pats -> (length s <= fuel)%nat -> strip_any pats (trim_go pats fuel s) = None.
Proof.
  intros Hp. revert s. induction fuel as [|fuel IH]; intros s Hl; cbn; destruct (strip_any pats s) as [r|] eqn:Hr; try done;
    apply strip_any_shorter in Hr; [lia | done | apply IH; lia | done].
Qed.

Lemma trim_go_stop pats fuel s : strip_any pats s = None -> trim_go pats fuel s = s.
Proof. destruct fuel; cbn; [done|]. by intros ->. Qed.

Lemma ws_nonempty : Forall (fun p : bytes => p <> []) ws_encodings /\ Forall (fun p : bytes => p <> []) (map (@rev Z) ws_encodings).
Proof. split; repeat constructor; discriminate. Qed.

Lemma trim_go_suffix pats fuel s : exists p, s = p ++ trim_go pats fuel s.
Proof.
  revert s. induction fuel as [|fuel IH]; intros s; cbn; [by exists []|]. destruct (strip_any pats s) as [r|] eqn:Hr; [|by exists []].
  assert (exists p, s = p ++ r) as [p ->].
  { clear IH. induction pats as [|q pats IH]; [done|]. cbn in Hr. destruct (strip_prefix q s) as [u|] eqn:Hu; [|by apply IH].
    injection Hr as ->. apply strip_prefix_Some in Hu. eauto. }
  destruct (IH r) as [u Hu]. exists (p ++ u). by rewrite <- app_assoc, <- Hu.
Qed.

Lemma trim_idem s : trim (trim s) = trim s.
Proof.
  destruct ws_nonempty as [H1 H2]. unfold trim at 1.
  assert (Hs : strip_any ws_encodings (trim s) = None).
  { unfold trim, trim_end. set (t := trim_start s).
    assert (Ht : strip_any ws_encodings t = None) by (by apply trim_go_done).
    destruct (trim_go_suffix (map (@rev Z) ws_encodings) (length t) (rev t)) as [p Hp].
    set (u := trim_go _ _ _) in *. assert (Hu : t = rev u ++ rev p) by (by rewrite <- rev_app_distr, <- Hp, rev_involutive).
    destruct (strip_any ws_encodings (rev u)) as [r|] eqn:Hr; [|done].
    destruct (strip_any_app _ _ _ (rev p) Hr) as [r' Hr']. congruence. }
  replace (trim_start (trim s)) with (trim s) by (symmetry; by apply trim_go_stop).
  unfold trim, trim_end. rewrite rev_involutive, trim_go_stop; [done|]. apply trim_go_done; [done|]. by rewrite length_rev.
Qed.

(** Lines, each with its end. *)
Lemma split_lines ls : Forall (fun l => 10 ∉ l) ls -> split_on 10 (concat (map (fun l => l ++ [10]) ls)) = ls ++ [[]].
Proof.
  induction 1 as [|l ls Hl _ IH]; cbn [map concat]; [done|]. rewrite <- app_assoc. cbn [app]. by rewrite split_on_app, IH.
Qed.
