(* ===== verification/Utf8.v ===== *)
(** * Utf8: text as the sources slice, search and repair it

    [String::from_utf8_lossy], [Utf8Error::valid_up_to], [str::is_char_boundary], slicing (which panics
    off a boundary), and the substring searches [find] and [rfind], with the lemmas the components that
    work on streamed text share. *)

From S2P Require Import Prelude Text.

(** ** Searching *)

(** [s.find(p)]: the first index at which [p] occurs. *)
Fixpoint find_sub (p s : bytes) : option nat :=
  if starts_with s p then Some 0%nat
  else match s with
       | [] => None
       | _ :: s => match find_sub p s with Some i => Some (S i) | None => None end
       end.

(** [s.rfind(p)]: the last one. *)
Fixpoint rfind_sub (p s : bytes) : option nat :=
  match s with
  | [] => if starts_with s p then Some 0%nat else None
  | _ :: s' =>
      match rfind_sub p s' with
      | Some i => Some (S i)
      | None => if starts_with s p then Some 0%nat else None
      end
  end.

Lemma find_sub_starts p s : starts_with s p = true -> find_sub p s = Some 0%nat.
Proof. intros H. destruct s; cbn [find_sub]; by rewrite H. Qed.

Lemma find_sub_cons p c s : starts_with (c :: s) p = false ->
  find_sub p (c :: s) = match find_sub p s with Some i => Some (S i) | None => None end.
Proof. intros H. cbn [find_sub]. by rewrite H. Qed.

(** A byte is found where it first occurs. *)
Lemma find_sub_byte c a r : c ∉ a -> find_sub [c] (a ++ c :: r) = Some (length a).
Proof.
  induction a as [|x a IH]; intros Hn; cbn [app length].
  - apply find_sub_starts. apply starts_with_true. by exists r.
  - apply not_elem_of_cons in Hn as [Hne Hn]. rewrite find_sub_cons; [by rewrite IH|].
    destruct (starts_with (x :: a ++ c :: r) [c]) eqn:E; [|done].
    apply starts_with_true in E as [? [= ? _]]. congruence.
Qed.

Lemma find_sub_byte_none c s : find_sub [c] s = None <-> c ∉ s.
Proof.
  induction s as [|x s IH]; [by split; [intros _; apply not_elem_of_nil|]|].
  cbn [find_sub]. destruct (starts_with (x :: s) [c]) eqn:E.
  - apply starts_with_true in E as [r [= -> _]]. split; [done|]. intros H. exfalso. apply H. left.
  - assert (x <> c). { intros ->. rewrite (proj2 (starts_with_true (c :: s) [c])) in E; [done|]. by exists s. }
    rewrite not_elem_of_cons, <- IH. destruct (find_sub [c] s); split; naive_solver.
Qed.

(** What is not found does not occur. *)
Lemma find_sub_none p s i r : find_sub p s = None -> (i <= length s)%nat -> drop i s = p ++ r -> False.
Proof.
  revert i. induction s as [|c s IH]; intros i H Hi Hd; cbn [find_sub] in H.
  - rewrite drop_nil in Hd. by rewrite (proj2 (starts_with_true _ _)) in H by eauto.
  - destruct (starts_with (c :: s) p) eqn:E; [done|]. destruct (find_sub p s) eqn:Es; [done|].
    destruct i as [|i]; [by rewrite (proj2 (starts_with_true _ _)) in E by eauto|]. apply (IH i); [done | simpl in Hi; lia | done].
Qed.

Lemma rfind_sub_Some p s i : rfind_sub p s = Some i -> exists r, drop i s = p ++ r.
Proof.
  revert i. induction s as [|c s IH]; intros i; cbn [rfind_sub].
  - destruct (starts_with [] p) eqn:E; [|done]. intros [= <-]. by apply starts_with_true.
  - destruct (rfind_sub p s) as [j|].
    + intros [= <-]. by apply IH.
    + destruct (starts_with (c :: s) p) eqn:E; [|done]. intros [= <-]. by apply starts_with_true.
Qed.

(** The last occurrence is no earlier than any other. *)
Lemma rfind_sub_last p s i r : drop i s = p ++ r -> (i <= length s)%nat ->
  exists j, rfind_sub p s = Some j /\ (i <= j)%nat.
Proof.
  revert i. induction s as [|c s IH]; intros i Hd Hi; cbn [rfind_sub].
  - rewrite drop_nil in Hd. simpl in Hi. replace i with 0%nat by lia.
    rewrite (proj2 (starts_with_true [] p)); [eauto | by exists r].
  - destruct i as [|i].
    + destruct (rfind_sub p s) as [j|]; [by exists (S j); split; [|lia]|].
      simpl in Hd. rewrite (proj2 (starts_with_true (c :: s) p)); [eauto | by exists r].
    + simpl in Hd, Hi. destruct (IH i Hd ltac:(lia)) as (j & -> & ?). exists (S j). split; [done | lia].
Qed.

(** ** Character boundaries *)

(** [s.is_char_boundary(i)]: the end, or a byte that does not continue a character. *)
Definition is_char_boundary (s : bytes) (i : nat) : bool :=
  if (i =? 0)%nat then true
  else match s !! i with
       | Some c => negb (is_cont c)
       | None => (i =? length s)%nat
       end.

(** [&s[a..b]]; [None] is the panic. *)
Definition slice (s : bytes) (a b : nat) : option bytes :=
  if (a <=? b)%nat && (b <=? length s)%nat && is_char_boundary s a && is_char_boundary s b
  then Some (take (b - a) (drop a s)) else None.

Lemma slice_Some s a b : (a <= b <= length s)%nat -> is_char_boundary s a = true ->
  is_char_boundary s b = true -> slice s a b = Some (take (b - a) (drop a s)).
Proof.
  intros [Hab Hb] Ha' Hb'. unfold slice. rewrite Ha', Hb'.
  destruct (Nat.leb_spec a b); [|lia]. destruct (Nat.leb_spec b (length s)); [done | lia].
Qed.

Lemma boundary_end s : is_char_boundary s (length s) = true.
Proof.
  unfold is_char_boundary. destruct (Nat.eqb_spec (length s) 0); [done|].
  rewrite lookup_ge_None_2 by lia. apply Nat.eqb_refl.
Qed.

(** ** Decoding *)

(** [from_utf8(s).map_or_else(|e| e.valid_up_to(), str::len)]: the bytes before the first ill-formed
    character.  A character takes at least one byte, so [length s] rounds are enough. *)
Fixpoint valid_go (fuel : nat) (s : bytes) : nat :=
  match fuel with
  | O => 0%nat
  | S fuel =>
      match utf8_char s with
      | Some r => (length s - length r + valid_go fuel r)%nat
      | None => 0%nat
      end
  end.
Definition valid_up_to (s : bytes) : nat := valid_go (length s) s.

(** The length of the ill-formed sequence at the head of [s]: the longest start of a character, at least
    one byte. *)
Definition bad_len (s : bytes) : nat :=
  match s with
  | a :: b :: r =>
      let second := ((if a =? 224 then 160 else if a =? 240 then 144 else 128) <=? b)
                    && (b <=? (if a =? 237 then 159 else if a =? 244 then 143 else 191)) in
      if (224 <=? a) && (a <=? 244) && second then
        match r with
        | c :: _ => if (240 <=? a) && is_cont c then 3%nat else 2%nat
        | [] => 2%nat
        end
      else 1%nat
  | _ => 1%nat
  end.

(** U+FFFD. *)
Definition REPLACEMENT : bytes := [239; 191; 189].

Fixpoint lossy_go (fuel : nat) (s : bytes) : bytes :=
  match fuel, s with
  | S fuel, _ :: _ =>
      match utf8_char s with
      | Some r => take (length s - length r) s ++ lossy_go fuel r
      | None => REPLACEMENT ++ lossy_go fuel (drop (bad_len s) s)
      end
  | _, _ => []
  end.
Definition from_utf8_lossy (s : bytes) : bytes := lossy_go (length s) s.

Example lossy_split_char : from_utf8_lossy [97; 195] = [97; 239; 191; 189].
Proof. reflexivity. Qed.

Example lossy_truncated : from_utf8_lossy [240; 159; 146; 65] = REPLACEMENT ++ [65].
Proof. reflexivity. Qed.

(** ** Well-formed text *)

(** The first character of well-formed text: its bytes, of which only the first can be ASCII. *)
Lemma utf8_char_split s r : utf8_char s = Some r ->
  exists c cs, s = (c :: cs) ++ r /\ Forall (fun b => is_cont b = true) cs /\ is_cont c = false
    /\ forall t, utf8_char ((c :: cs) ++ t) = Some t.
Proof.
  assert (Hlow : forall c, c < 128 -> is_cont c = false) by (intros c ?; unfold is_cont; zcase; lia || done).
  assert (Hhigh : forall lo hi c, 192 <= lo -> (lo <=? c) && (c <=? hi) = true -> is_cont c = false).
  { intros lo hi c ?. rewrite andb_true_iff, !Z.leb_le. unfold is_cont. intros [? ?].
    rewrite andb_false_iff, !Z.leb_gt. lia. }
  assert (Hsec : forall lo hi b, 128 <= lo -> hi <= 191 -> (lo <=? b) && (b <=? hi) = true -> is_cont b = true).
  { intros lo hi b ? ?. unfold is_cont. rewrite !andb_true_iff, !Z.leb_le. lia. }
  destruct s as [|a s]; [done|]. cbn [utf8_char]. destruct (Z.ltb_spec a 128) as [Ha|Ha].
  { intros [= <-]. exists a, []. split; [done|]. split; [constructor|]. split; [by apply Hlow|].
    intros t. cbn [app utf8_char]. by rewrite (proj2 (Z.ltb_lt a 128) Ha). }
  apply Z.ltb_ge in Ha as Ha'.
  destruct s as [|b s]; [done|]. destruct ((194 <=? a) && (a <=? 223)) eqn:E2.
  { destruct (is_cont b) eqn:Eb; [|done]. intros [= <-]. exists a, [b].
    split; [done|]. split; [by repeat constructor|]. split; [by eapply Hhigh, E2|].
    intros t. cbn [app utf8_char]. by rewrite Ha', E2, Eb. }
  destruct s as [|c s]; [done|]. destruct ((224 <=? a) && (a <=? 239)) eqn:E3.
  { destruct (_ && _ && is_cont c) eqn:Eb; [|done]. intros [= <-]. exists a, [b; c].
    split; [done|]. split; [|split; [by eapply Hhigh, E3|]].
    - apply andb_true_iff in Eb as [Eb Ec]. repeat constructor; [|done].
      apply (Hsec (if a =? 224 then 160 else 128) (if a =? 237 then 159 else 191)); [destruct (a =? 224); lia | destruct (a =? 237); lia | done].
    - intros t. cbn [app utf8_char]. by rewrite Ha', E2, E3, Eb. }
  destruct s as [|d s]; [done|].
  destruct (_ && is_cont d) eqn:Eb; [|done]. intros [= <-]. exists a, [b; c; d].
  split; [done|]. split; [|split].
  - repeat (apply andb_true_iff in Eb as [Eb ?]). repeat constructor; [|done | done].
    apply (Hsec (if a =? 240 then 144 else 128) (if a =? 244 then 143 else 191));
      [destruct (a =? 240); lia | destruct (a =? 244); lia|]. by apply andb_true_iff.
  - repeat (apply andb_true_iff in Eb as [Eb ?]). apply (Hhigh 240 244); [lia|]. by apply andb_true_iff.
  - intros t. cbn [app utf8_char]. by rewrite Ha', E2, E3, Eb.
Qed.

Lemma utf8_char_app s t r : utf8_char s = Some r -> utf8_char (s ++ t) = Some (r ++ t).
Proof. intros (c & cs & -> & _ & _ & H)%utf8_char_split. rewrite <- app_assoc. apply H. Qed.

Inductive utf8 : bytes -> Prop :=
| utf8_nil : utf8 []
| utf8_cons s r : utf8_char s = Some r -> utf8 r -> utf8 s.

Lemma utf8_char_shorter s r : utf8_char s = Some r -> (length r < length s)%nat.
Proof. intros (c & cs & -> & _)%utf8_char_split. rewrite length_app. simpl. lia. Qed.

Lemma from_utf8_ok_iff s : from_utf8_ok s = true <-> utf8 s.
Proof.
  unfold from_utf8_ok.
  assert (H : forall fuel s, (length s <= fuel)%nat -> utf8_go fuel s = true <-> utf8 s).
  { clear s. induction fuel as [|fuel IH]; intros s Hs.
    - destruct s; [|simpl in Hs; lia]. split; [constructor | done].
    - destruct s as [|a s]; [split; [constructor | done]|]. cbn [utf8_go].
      destruct (utf8_char (a :: s)) as [r|] eqn:E.
      + pose proof (utf8_char_shorter _ _ E). rewrite IH by lia. split; [by econstructor|].
        inversion_clear 1; congruence.
      + split; [done|]. inversion_clear 1; congruence. }
  by apply H.
Qed.

Lemma utf8_app a b : utf8 a -> utf8 b -> utf8 (a ++ b).
Proof.
  induction 1 as [|s r Hc _ IH]; [done|]. intros Hb. apply (utf8_cons _ (r ++ b)); [|auto].
  by apply utf8_char_app.
Qed.

Lemma utf8_app_r a b : utf8 a -> utf8 (a ++ b) -> utf8 b.
Proof.
  induction 1 as [|s r Hc _ IH]; [done|]. intros Hab. apply IH.
  inversion Hab as [E|s' r' Hc' Hr' E].
  - destruct s; [done|]. done.
  - rewrite (utf8_char_app _ _ _ Hc) in Hc'. by simplify_eq.
Qed.

(** An ASCII byte of well-formed text is a whole character, so the text splits there. *)
Lemma utf8_split_ascii a c b : c < 128 -> utf8 (a ++ c :: b) -> utf8 a /\ utf8 (c :: b).
Proof.
  intros Hc. remember (a ++ c :: b) as s eqn:E. intros Hu. revert a E.
  induction Hu as [|s r Hs Hr IH]; intros a E; [by destruct a|].
  destruct a as [|x a].
  - split; [constructor|]. simpl in E. subst s. by econstructor.
  - destruct (utf8_char_split _ _ Hs) as (y & cs & E' & Hcs & _ & Hl). rewrite E' in E. clear E' Hs.
    cbn [app] in E. injection E as -> H.
    assert (Ha : exists a', a = cs ++ a' /\ r = a' ++ c :: b).
    { clear -Hcs Hc H. revert a H. induction Hcs as [|z cs Hz _ IH]; intros a H; [by exists a|].
      destruct a as [|w a]; cbn [app] in H; injection H as -> H.
      - unfold is_cont in Hz. apply andb_true_iff in Hz as [Hz _]. apply Z.leb_le in Hz. lia.
      - destruct (IH a H) as (a' & -> & ->). by exists a'. }
    destruct Ha as (a' & -> & ->). destruct (IH a' eq_refl) as [Ha' ?]. split; [|done].
    apply (utf8_cons _ a'); [|done]. apply Hl.
Qed.

(** A valid start of the text and the rest, which does not start with a character. *)
Lemma valid_up_to_spec s : (valid_up_to s <= length s)%nat /\ utf8 (take (valid_up_to s) s)
  /\ utf8_char (drop (valid_up_to s) s) = None.
Proof.
  unfold valid_up_to.
  assert (H : forall fuel s, (length s <= fuel)%nat ->
    (valid_go fuel s <= length s)%nat /\ utf8 (take (valid_go fuel s) s) /\ utf8_char (drop (valid_go fuel s) s) = None).
  { clear s. induction fuel as [|fuel IH]; intros s Hs; cbn [valid_go].
    - destruct s; [|simpl in Hs; lia]. repeat split; [done | constructor].
    - destruct (utf8_char s) as [r|] eqn:E; [|repeat split; [lia | constructor | done]].
      pose proof (utf8_char_shorter _ _ E). destruct (IH r ltac:(lia)) as (Hle & Hu & Hn).
      destruct (utf8_char_split _ _ E) as (c & cs & -> & _ & _ & Hl).
      rewrite length_app in *. rewrite Nat.add_sub. rewrite take_app_add, drop_app_add.
      repeat split; [lia | | done]. apply (utf8_cons _ (take (valid_go fuel r) r)); [apply Hl | done]. }
  by apply H.
Qed.

Lemma valid_up_to_all s : utf8 s -> valid_up_to s = length s.
Proof.
  intros Hu. destruct (valid_up_to_spec s) as (Hle & Ht & Hn).
  rewrite <- (take_drop (valid_up_to s) s) in Hu. apply utf8_app_r in Hu; [|done].
  inversion Hu as [E|? ? E]; [|congruence]. assert (length (drop (valid_up_to s) s) = 0%nat) by (by rewrite <- E).
  rewrite length_drop in *. lia.
Qed.

(** Decoding well-formed text changes nothing. *)
Lemma from_utf8_lossy_id s : utf8 s -> from_utf8_lossy s = s.
Proof.
  unfold from_utf8_lossy. intros Hu.
  assert (H : forall fuel, (length s <= fuel)%nat -> lossy_go fuel s = s); [|by apply H].
  induction Hu as [|s r Hc _ IH]; intros fuel Hf; [by destruct fuel|].
  pose proof (utf8_char_shorter _ _ Hc). destruct fuel; [lia|]. cbn [lossy_go]. rewrite Hc.
  destruct (utf8_char_split _ _ Hc) as (c & cs & -> & _). cbn [app]. rewrite app_comm_cons.
  rewrite IH by lia. rewrite length_app, Nat.add_sub, take_app_length. done.
Qed.

Lemma ascii_utf8 s : Forall (fun c => c < 128) s -> utf8 s.
Proof. intros H. by apply from_utf8_ok_iff, ascii_utf8_ok. Qed.

(** Text cut at a character boundary is text on both sides. *)
Lemma utf8_split_boundary s i : utf8 s -> (i <= length s)%nat -> is_char_boundary s i = true ->
  utf8 (take i s) /\ utf8 (drop i s).
Proof.
  intros Hu. revert i. induction Hu as [|s r Hc Hr IH]; intros i Hi Hb.
  { rewrite take_nil, drop_nil. split; constructor. }
  destruct (decide (i = 0%nat)) as [->|Hi0]; [split; [constructor|]; by econstructor|].
  destruct (utf8_char_split _ _ Hc) as (c & cs & -> & Hcs & _ & Hl). rewrite length_app in Hi.
  destruct (decide (i < length (c :: cs))%nat) as [Hlt|Hge].
  - exfalso. unfold is_char_boundary in Hb. destruct (Nat.eqb_spec i 0); [done|].
    destruct i as [|i]; [done|]. cbn [length] in Hlt.
    destruct (lookup_lt_is_Some_2 cs i ltac:(lia)) as [d Hd].
    assert (Hd' : ((c :: cs) ++ r) !! S i = Some d) by (cbn [app]; by rewrite lookup_cons, lookup_app_l by lia).
    rewrite Hd' in Hb.
    rewrite Forall_lookup in Hcs. by rewrite (Hcs i d Hd) in Hb.
  - assert (Hb' : is_char_boundary r (i - length (c :: cs)) = true).
    { unfold is_char_boundary in *. destruct (Nat.eqb_spec i 0); [done|]. rewrite lookup_app_r in Hb by lia.
      destruct (Nat.eqb_spec (i - length (c :: cs)) 0); [done|]. destruct (r !! _); [done|].
      apply Nat.eqb_eq in Hb. rewrite length_app in Hb. apply Nat.eqb_eq. lia. }
    destruct (IH (i - length (c :: cs))%nat ltac:(lia) Hb') as [H1 H2].
    rewrite take_app_ge, drop_app_ge by lia. split; [|done].
    apply (utf8_cons _ (take (i - length (c :: cs)) r)); [apply Hl | done].
Qed.

(** ** Decoding around an ASCII byte *)

Lemma ascii_not_cont c : c < 128 -> is_cont c = false.
Proof. intros H. unfold is_cont. destruct (Z.leb_spec 128 c); [lia | done]. Qed.

Lemma bad_len_pos s : (1 <= bad_len s)%nat.
Proof. unfold bad_len. destruct s as [|a [|b r]]; [lia.. |]. destruct (_ && _); [|lia]. destruct r; [lia|]. destruct (_ && _); lia. Qed.

Lemma bad_len_le x a : (bad_len (x :: a) <= length (x :: a))%nat.
Proof.
  unfold bad_len. destruct a as [|b r]; [done|]. cbn [length]. destruct (_ && _); [|lia]. destruct r; [done|].
  cbn [length]. destruct (_ && _); lia.
Qed.

(** An ASCII byte ends whatever precedes it: it is never part of a character or of an ill-formed
    sequence. *)
Lemma utf8_char_before_ascii a x c b : c < 128 ->
  match utf8_char (x :: a) with
  | Some r => utf8_char ((x :: a) ++ c :: b) = Some (r ++ c :: b)
  | None => utf8_char ((x :: a) ++ c :: b) = None /\ bad_len ((x :: a) ++ c :: b) = bad_len (x :: a)
            /\ (bad_len (x :: a) <= length (x :: a))%nat
  end.
Proof.
  intros Hc. destruct (utf8_char (x :: a)) as [r|] eqn:E; [by apply utf8_char_app|].
  apply ascii_not_cont in Hc as Hcc. revert E. cbn [app utf8_char]. destruct (x <? 128) eqn:Ex; [done|].
  assert (Hsec : forall lo hi, 128 <= lo -> (lo <=? c) && (c <=? hi) = false).
  { intros lo hi ?. destruct (Z.leb_spec lo c); [lia | done]. }
  destruct a as [|y a]; cbn [app].
  { intros _. rewrite Hcc. split; [|split; [|apply bad_len_le]].
    - destruct (_ && (x <=? 223)); [done|]. destruct b as [|c' b]; [done|].
      destruct (_ && (x <=? 239)).
      { rewrite Hsec by (destruct (x =? 224); lia). done. }
      destruct b as [|d b]; [done|]. rewrite <- (andb_assoc _ ((if x =? 240 then 144 else 128) <=? c)).
      rewrite Hsec by (destruct (x =? 240); lia). by rewrite andb_false_r.
    - unfold bad_len. cbv zeta. rewrite Hsec by (destruct (x =? 224), (x =? 240); lia).
      by rewrite andb_false_r. }
  destruct ((194 <=? x) && (x <=? 223)) eqn:E2.
  { destruct (is_cont y) eqn:Ey; [done|]. intros _. split; [done|]. apply andb_true_iff in E2 as [_ Hx%Z.leb_le].
    unfold bad_len. destruct (Z.leb_spec 224 x); [lia|]. cbn [andb]. split; [done|]. simpl. lia. }
  destruct a as [|z a]; cbn [app].
  { intros _. rewrite Hcc. split; [|split; [|apply bad_len_le]].
    - rewrite !andb_false_r. destruct (_ && (x <=? 239)); [done|]. destruct b as [|d b]; [done|].
      by rewrite ?andb_false_r.
    - unfold bad_len. rewrite Hcc, andb_false_r. done. }
  destruct ((224 <=? x) && (x <=? 239)) eqn:E3.
  { destruct (_ && is_cont z) eqn:Ez; [done|]. intros _. split; [done|]. split; [done | apply bad_len_le]. }
  destruct a as [|w a]; cbn [app].
  { intros _. rewrite Hcc, andb_false_r. split; [done|]. split; [done | apply bad_len_le]. }
  destruct (_ && is_cont w) eqn:Ew; [done|]. intros _. split; [done|]. split; [done | apply bad_len_le].
Qed.

Lemma lossy_go_fuel fuel s : (length s <= fuel)%nat -> lossy_go fuel s = from_utf8_lossy s.
Proof.
  assert (H : forall n s f1 f2, (length s <= n)%nat -> (length s <= f1)%nat -> (length s <= f2)%nat ->
            lossy_go f1 s = lossy_go f2 s); [|unfold from_utf8_lossy; intros; by eapply H].
  clear. induction n as [|n IH]; intros s f1 f2 Hn H1 H2.
  - destruct s; [|simpl in Hn; lia]. by destruct f1, f2.
  - destruct s as [|c s]; [by destruct f1, f2|]. destruct f1 as [|f1]; [simpl in H1; lia|].
    destruct f2 as [|f2]; [simpl in H2; lia|]. cbn [lossy_go]. destruct (utf8_char (c :: s)) as [r|] eqn:E.
    + apply utf8_char_shorter in E. f_equal. apply IH; simpl in *; lia.
    + f_equal. pose proof (bad_len_pos (c :: s)). apply IH; rewrite length_drop; cbn [length] in *; lia.
Qed.

(** One step of the decoding. *)
Lemma from_utf8_lossy_cons c s : from_utf8_lossy (c :: s) =
  match utf8_char (c :: s) with
  | Some r => take (length (c :: s) - length r) (c :: s) ++ from_utf8_lossy r
  | None => REPLACEMENT ++ from_utf8_lossy (drop (bad_len (c :: s)) (c :: s))
  end.
Proof.
  unfold from_utf8_lossy at 1. cbn [length lossy_go]. destruct (utf8_char (c :: s)) as [r|] eqn:E.
  - apply utf8_char_shorter in E. rewrite lossy_go_fuel; [done | simpl in E; lia].
  - pose proof (bad_len_pos (c :: s)). rewrite lossy_go_fuel; [done | rewrite length_drop; cbn [length]; lia].
Qed.

(** Text is decoded the same on both sides of an ASCII byte, whatever surrounds it. *)
Lemma lossy_split_ascii a c b : c < 128 ->
  from_utf8_lossy (a ++ c :: b) = from_utf8_lossy a ++ c :: from_utf8_lossy b.
Proof.
  intros Hc. remember (length a) as n eqn:Hn. revert a Hn. induction n as [n IH] using lt_wf_ind. intros a ->.
  destruct a as [|x a].
  - cbn [app]. rewrite from_utf8_lossy_cons. cbn [utf8_char]. destruct (Z.ltb_spec c 128); [|lia].
    cbn [length]. replace (S (length b) - length b)%nat with 1%nat by lia. done.
  - pose proof (utf8_char_before_ascii a x c b Hc) as H. cbn [app] in *. rewrite !from_utf8_lossy_cons.
    destruct (utf8_char (x :: a)) as [r|] eqn:E.
    + pose proof (utf8_char_shorter _ _ E). destruct (utf8_char_split _ _ E) as (y & cs & Ey & _).
      rewrite H. rewrite (IH (length r)) by (done || lia). rewrite app_comm_cons, Ey, <- (app_assoc (y :: cs)).
      rewrite !length_app, !Nat.add_sub, !take_app_length. by rewrite <- app_assoc.
    + destruct H as (-> & -> & Hl). rewrite app_comm_cons, drop_app_le by done.
      rewrite (IH (length (drop (bad_len (x :: a)) (x :: a)))); [by rewrite <- app_assoc | | done].
      rewrite length_drop. pose proof (bad_len_pos (x :: a)). cbn [length]. lia.
Qed.

(** An ASCII string in the bytes is in the text. *)
Lemma lossy_ascii_infix a s b : s <> [] -> Forall (fun c => c < 128) s ->
  exists x y, from_utf8_lossy (a ++ s ++ b) = x ++ s ++ y.
Proof.
  intros Hne Hs. revert a Hne. induction Hs as [|c s Hc Hs IH]; intros a Hne; [done|]. cbn [app].
  rewrite lossy_split_ascii by done. destruct s as [|d s].
  - exists (from_utf8_lossy a), (from_utf8_lossy b). done.
  - exists (from_utf8_lossy a). clear IH Hne.
    assert (H : forall s, Forall (fun c => c < 128) s -> from_utf8_lossy (s ++ b) = s ++ from_utf8_lossy b).
    { clear. induction 1 as [|c s Hc _ IH]; [done|]. cbn [app]. pose proof (lossy_split_ascii [] c (s ++ b) Hc) as E.
      cbn [app] in E. rewrite E, IH. done. }
    exists (from_utf8_lossy b). by rewrite (H (d :: s)).
Qed.
