(* ===== verification/Net.v ===== *)
(** * Net: IP addresses as [std::net] has them

    [IpAddr] with its [FromStr] (the grammar of the standard library: no leading zeros in an IPv4
    octet, one [::] in an IPv6 address, an embedded IPv4 tail), its [Display] and
    [to_canonical].  Addresses are kept as the unsigned integer of their bits, which is how
    [crate::access] uses them. *)

From S2P Require Import Prelude Text.

Inductive IpAddr : Type :=
| V4 (bits : Z)
| V6 (bits : Z).

#[global] Instance IpAddr_eq_dec : EqDecision IpAddr.
Proof. solve_decision. Defined.

#[global] Instance IpAddr_countable : Countable IpAddr.
Proof.
  refine (inj_countable' (fun ip => match ip with V4 z => inl z | V6 z => inr z end)
            (fun s => match s with inl z => V4 z | inr z => V6 z end) _).
  by intros [].
Qed.

Definition ip_ok (ip : IpAddr) : Prop :=
  match ip with V4 z => in_u 32 z | V6 z => in_u 128 z end.

Definition is_ipv4 (ip : IpAddr) : bool := match ip with V4 _ => true | V6 _ => false end.

Record SocketAddr : Type := mkSocketAddr { sa_ip : IpAddr; sa_port : Z }.

#[global] Instance SocketAddr_eq_dec : EqDecision SocketAddr.
Proof. solve_decision. Defined.

(** [IpAddr::to_canonical]: an IPv4-mapped IPv6 address ([::ffff:a.b.c.d]) becomes the IPv4 one. *)
Definition to_canonical (ip : IpAddr) : IpAddr :=
  match ip with
  | V4 z => V4 z
  | V6 z => if Z.shiftr z 32 =? 65535 then V4 (z mod 2 ^ 32) else V6 z
  end.

(** ** Big-endian bytes *)

Fixpoint be_bytes_go (acc : Z) (l : bytes) : Z :=
  match l with [] => acc | b :: l => be_bytes_go (acc * 256 + b) l end.

(** [u16::from_be_bytes], [Ipv4Addr::new], [Ipv6Addr::from(octets)]. *)
Definition from_be_bytes (l : bytes) : Z := be_bytes_go 0 l.

Fixpoint to_be_bytes (n : nat) (z : Z) : bytes :=
  match n with
  | O => []
  | S n => to_be_bytes n (z / 256) ++ [z mod 256]
  end.

Lemma be_bytes_go_app acc a b : be_bytes_go acc (a ++ b) = be_bytes_go (be_bytes_go acc a) b.
Proof. revert acc. induction a as [|x a IH]; intros acc; simpl; [done | apply IH]. Qed.

Lemma from_to_be_bytes n z : 0 <= z < 256 ^ Z.of_nat n -> from_be_bytes (to_be_bytes n z) = z.
Proof.
  unfold from_be_bytes. revert z. induction n as [|n IH]; intros z Hz.
  - simpl in *. lia.
  - cbn [to_be_bytes]. rewrite be_bytes_go_app, IH.
    + simpl. pose proof (Z.div_mod z 256 ltac:(lia)). lia.
    + rewrite Nat2Z.inj_succ, Z.pow_succ_r in Hz by lia. split.
      * apply Z.div_pos; lia.
      * apply Z.div_lt_upper_bound; lia.
Qed.

Lemma length_to_be_bytes n z : length (to_be_bytes n z) = n.
Proof. revert z. induction n as [|n IH]; intros z; simpl; [done|]. rewrite length_app, IH. simpl. lia. Qed.

(** ** The address parser *)

(** [Parser::read_number]: up to [max] digits of radix [r]; more than that is a failure, not a stop. *)
Fixpoint read_digits (value : Z -> option Z) (r : Z) (s : bytes) (acc : Z) (count : nat)
    : Z * nat * bytes :=
  match s with
  | [] => (acc, count, s)
  | c :: s' =>
      match value c with
      | Some d => read_digits value r s' (acc * r + d) (S count)
      | None => (acc, count, s)
      end
  end.

Definition read_number (value : Z -> option Z) (r : Z) (max : nat) (allow_zero_prefix : bool)
    (bound : Z) (s : bytes) : option (Z * bytes) :=
  let '(n, count, rest) := read_digits value r s 0 0 in
  let leading_zero := match s with c :: _ => c =? 48 | [] => false end in
  if (max <? count)%nat then None
  else if (count =? 0)%nat then None
  else if negb allow_zero_prefix && leading_zero && (1 <? count)%nat then None
  else if n <? bound then Some (n, rest) else None.

Definition read_given_char (c : Z) (s : bytes) : option bytes :=
  match s with x :: r => if x =? c then Some r else None | [] => None end.

(** [Parser::read_separator]: the separator comes before every group but the first. *)
Definition read_separator {A} (sep : Z) (i : nat) (p : bytes -> option (A * bytes)) (s : bytes)
    : option (A * bytes) :=
  match i with
  | O => p s
  | S _ => match read_given_char sep s with Some r => p r | None => None end
  end.

Definition read_octet : bytes -> option (Z * bytes) := read_number digit_val 10 3 false 256.

Definition read_ipv4_addr (s : bytes) : option (Z * bytes) :=
  match read_separator 46 0 read_octet s with
  | Some (a, s) =>
    match read_separator 46 1 read_octet s with
    | Some (b, s) =>
      match read_separator 46 2 read_octet s with
      | Some (c, s) =>
        match read_separator 46 3 read_octet s with
        | Some (d, s) => Some (from_be_bytes [a; b; c; d], s)
        | None => None
        end
      | None => None
      end
    | None => None
    end
  | None => None
  end.

Definition read_group : bytes -> option (Z * bytes) := read_number hex_val 16 4 true 65536.

(** The inner [read_groups]: up to [left] more groups, the next one at index [i]; returns the
    groups read, whether an embedded IPv4 tail ended them, and the rest. *)
Fixpoint read_groups (left : nat) (i : nat) (s : bytes) : list Z * bool * bytes :=
  match left with
  | O => ([], false, s)
  | S left' =>
      let v4 := match left' with
                | O => None
                | S _ => read_separator 58 i read_ipv4_addr s
                end in
      match v4 with
      | Some (a, r) => ([a / 65536; a mod 65536], true, r)
      | None =>
          match read_separator 58 i read_group s with
          | Some (g, r) =>
              let '(gs, e, r') := read_groups left' (S i) r in (g :: gs, e, r')
          | None => ([], false, s)
          end
      end
  end.

Fixpoint groups_value (acc : Z) (gs : list Z) : Z :=
  match gs with [] => acc | g :: gs => groups_value (acc * 65536 + g) gs end.

Definition read_ipv6_addr (s : bytes) : option (Z * bytes) :=
  let '(head, head_ipv4, r) := read_groups 8 0 s in
  if (length head =? 8)%nat then Some (groups_value 0 head, r)
  else if head_ipv4 then None
  else match read_given_char 58 r with
       | None => None
       | Some r =>
         match read_given_char 58 r with
         | None => None
         | Some r =>
             let '(tail, _, r) := read_groups (8 - (length head + 1)) 0 r in
             Some (groups_value 0
                     (head ++ replicate (8 - length head - length tail) 0 ++ tail), r)
         end
       end.

(** [<IpAddr as FromStr>::from_str]: the whole text must be read. *)
Definition parse_ip (s : bytes) : option IpAddr :=
  match read_ipv4_addr s with
  | Some (z, []) => Some (V4 z)
  | Some (_, _ :: _) => None
  | None => match read_ipv6_addr s with
            | Some (z, []) => Some (V6 z)
            | _ => None
            end
  end.

(** ** Display *)

Definition show_ipv4 (z : Z) : bytes := join [46] (map dec (to_be_bytes 4 z)).

Fixpoint segments (n : nat) (z : Z) : list Z :=
  match n with O => [] | S n => segments n (z / 65536) ++ [z mod 65536] end.

(** The longest run of zero segments, the first of equals: [(start, len)]. *)
Fixpoint longest_zero_run (gs : list Z) (i : nat) (cur best : nat * nat) : nat * nat :=
  match gs with
  | [] => best
  | g :: gs =>
      if g =? 0 then
        let cur := if (cur.2 =? 0)%nat then (i, 1%nat) else (cur.1, S cur.2) in
        longest_zero_run gs (S i) cur (if (best.2 <? cur.2)%nat then cur else best)
      else longest_zero_run gs (S i) (0%nat, 0%nat) best
  end.

Definition show_groups (gs : list Z) : bytes := join [58] (map hex gs).

Definition show_ipv6 (z : Z) : bytes :=
  if Z.shiftr z 32 =? 65535 then lit "::ffff:" ++ show_ipv4 (z mod 2 ^ 32)
  else
    let gs := segments 8 z in
    let '(start, n) := longest_zero_run gs 0 (0%nat, 0%nat) (0%nat, 0%nat) in
    if (1 <? n)%nat then show_groups (take start gs) ++ [58; 58] ++ show_groups (drop (start + n) gs)
    else show_groups gs.

Definition show_ip (ip : IpAddr) : bytes :=
  match ip with V4 z => show_ipv4 z | V6 z => show_ipv6 z end.

Example parse_ip_v4 : parse_ip (lit "203.0.113.7") = Some (V4 3405803783).
Proof. vm_compute. reflexivity. Qed.
Example parse_ip_octal : parse_ip (lit "10.01.2.3") = None.
Proof. vm_compute. reflexivity. Qed.
Example parse_ip_v6 :
  parse_ip (lit "2001:db8::1") = Some (V6 42540766411282592856903984951653826561).
Proof. vm_compute. reflexivity. Qed.
Example parse_show_v6 :
  parse_ip (show_ip (V6 42540766411282592856903984951653826561))
  = Some (V6 42540766411282592856903984951653826561).
Proof. vm_compute. reflexivity. Qed.
Example parse_ip_mapped : parse_ip (lit "::ffff:1.2.3.4") = Some (V6 281470698652420).
Proof. vm_compute. reflexivity. Qed.

(** ** Facts about the parser *)

Lemma be_bytes_go_range l acc :
  0 <= acc -> Forall (in_u 8) l ->
  0 <= be_bytes_go acc l < (acc + 1) * 256 ^ Z.of_nat (length l).
Proof.
  revert acc. induction l as [|b l IH]; intros acc Ha Hl; cbn [be_bytes_go length].
  - simpl. lia.
  - inversion Hl as [|? ? [Hb1 Hb2] Hl']; subst. change (2 ^ 8) with 256 in Hb2.
    rewrite Nat2Z.inj_succ, Z.pow_succ_r by lia.
    pose proof (IH (acc * 256 + b) ltac:(lia) Hl').
    assert (0 < 256 ^ Z.of_nat (length l)) by (apply Z.pow_pos_nonneg; lia). nia.
Qed.

Lemma from_be_bytes_range l :
  Forall (in_u 8) l -> 0 <= from_be_bytes l < 256 ^ Z.of_nat (length l).
Proof. intros H. pose proof (be_bytes_go_range l 0 ltac:(lia) H). unfold from_be_bytes. lia. Qed.

Lemma groups_value_range l acc :
  0 <= acc -> Forall (in_u 16) l ->
  0 <= groups_value acc l < (acc + 1) * 65536 ^ Z.of_nat (length l).
Proof.
  revert acc. induction l as [|b l IH]; intros acc Ha Hl; cbn [groups_value length].
  - simpl. lia.
  - inversion Hl as [|? ? [Hb1 Hb2] Hl']; subst. change (2 ^ 16) with 65536 in Hb2.
    rewrite Nat2Z.inj_succ, Z.pow_succ_r by lia.
    pose proof (IH (acc * 65536 + b) ltac:(lia) Hl').
    assert (0 < 65536 ^ Z.of_nat (length l)) by (apply Z.pow_pos_nonneg; lia). nia.
Qed.

Lemma read_digits_nonneg value r s acc n m k rest :
  0 <= r -> 0 <= acc -> (forall c d, value c = Some d -> 0 <= d) ->
  read_digits value r s acc n = (m, k, rest) -> 0 <= m.
Proof.
  intros Hr Ha Hv. revert acc n Ha. induction s as [|c s IH]; intros acc n Ha; simpl.
  - intros [= <- _ _]. done.
  - destruct (value c) as [d|] eqn:Hc; [|intros [= <- _ _]; done].
    apply IH. specialize (Hv c d Hc). nia.
Qed.

Lemma digit_val_nonneg c d : digit_val c = Some d -> 0 <= d.
Proof. unfold digit_val, is_digit. zcase; simpl; naive_solver lia. Qed.

Lemma hex_val_nonneg c d : hex_val c = Some d -> 0 <= d.
Proof. unfold hex_val, is_digit. zcase; simpl; naive_solver lia. Qed.

Lemma read_number_range value r max az bound s n rest :
  0 <= r -> (forall c d, value c = Some d -> 0 <= d) ->
  read_number value r max az bound s = Some (n, rest) -> 0 <= n < bound.
Proof.
  intros Hr Hv. unfold read_number.
  destruct (read_digits value r s 0 0) as [[m k] r'] eqn:Hd.
  pose proof (read_digits_nonneg value r s 0 0 m k r' Hr (Z.le_refl 0) Hv Hd).
  destruct (max <? k)%nat; [done|]. destruct (k =? 0)%nat; [done|].
  destruct (negb az && _ && _); [done|].
  destruct (Z.ltb_spec m bound); [|done]. intros [= <- <-]. lia.
Qed.

Lemma read_octet_range s n rest : read_octet s = Some (n, rest) -> in_u 8 n.
Proof. apply read_number_range; [lia | apply digit_val_nonneg]. Qed.

Lemma read_group_range s n rest : read_group s = Some (n, rest) -> in_u 16 n.
Proof. apply read_number_range; [lia | apply hex_val_nonneg]. Qed.

Lemma read_separator_inner {A} sep i (p : bytes -> option (A * bytes)) s a r :
  read_separator sep i p s = Some (a, r) -> exists s', p s' = Some (a, r).
Proof. destruct i; simpl; [eauto|]. destruct (read_given_char sep s); [eauto | done]. Qed.

Lemma read_ipv4_addr_range s z rest : read_ipv4_addr s = Some (z, rest) -> in_u 32 z.
Proof.
  unfold read_ipv4_addr. intros H.
  repeat match type of H with
  | match ?x with _ => _ end = _ => destruct x as [[? ?]|] eqn:?; [|discriminate]
  end.
  injection H as <- <-.
  repeat match goal with
  | H : read_separator _ _ read_octet _ = Some _ |- _ =>
      apply read_separator_inner in H as [? ?%read_octet_range]
  end.
  apply (from_be_bytes_range [_; _; _; _]). repeat (constructor; [assumption|]). constructor.
Qed.

Lemma read_groups_range left i s gs e r :
  read_groups left i s = (gs, e, r) -> Forall (in_u 16) gs /\ (length gs <= left)%nat.
Proof.
  revert i s gs e r. induction left as [|left IH]; intros i s gs e r; cbn [read_groups].
  - intros [= <- <- <-]. by split; [constructor | simpl].
  - destruct left as [|left'].
    + destruct (read_separator 58 i read_group s) as [[g r']|] eqn:Hg.
      * cbn. intros [= <- <- <-]. apply read_separator_inner in Hg as [? ?%read_group_range].
        split; [by apply Forall_singleton | simpl; lia].
      * intros [= <- <- <-]. split; [constructor | simpl; lia].
    + destruct (read_separator 58 i read_ipv4_addr s) as [[a r']|] eqn:Ha.
      * intros [= <- <- <-].
        apply read_separator_inner in Ha as [? [Hr1 Hr2]%read_ipv4_addr_range].
        split; [|simpl; lia]. change (2 ^ 32) with (65536 * 65536) in Hr2.
        constructor; [|constructor; [|constructor]].
        -- split; [apply Z.div_pos; lia | apply Z.div_lt_upper_bound; lia].
        -- apply Z.mod_pos_bound. lia.
      * destruct (read_separator 58 i read_group s) as [[g r']|] eqn:Hg.
        -- destruct (read_groups (S left') (S i) r') as [[gs' e'] r''] eqn:Hgs.
           intros [= <- <- <-]. apply IH in Hgs as [HF Hl].
           apply read_separator_inner in Hg as [? ?%read_group_range].
           split; [by constructor | simpl; lia].
        -- intros [= <- <- <-]. split; [constructor | simpl; lia].
Qed.

Lemma Forall_replicate_zero n : Forall (in_u 16) (replicate n 0).
Proof. apply Forall_replicate. by vm_compute. Qed.

Lemma read_ipv6_addr_range s z rest : read_ipv6_addr s = Some (z, rest) -> in_u 128 z.
Proof.
  unfold read_ipv6_addr.
  destruct (read_groups 8 0 s) as [[hd e] r] eqn:Hh. apply read_groups_range in Hh as [HF Hl].
  destruct (Nat.eqb_spec (length hd) 8) as [H8|H8].
  - intros [= <- <-]. pose proof (groups_value_range hd 0 ltac:(lia) HF) as Hv.
    rewrite H8 in Hv. exact Hv.
  - destruct e; [done|]. destruct (read_given_char 58 r) as [r1|]; [|done].
    destruct (read_given_char 58 r1) as [r2|]; [|done].
    destruct (read_groups (8 - (length hd + 1)) 0 r2) as [[tl e'] r3] eqn:Ht.
    apply read_groups_range in Ht as [HFt Hlt]. intros [= <- <-].
    pose proof (groups_value_range (hd ++ replicate (8 - length hd - length tl) 0 ++ tl) 0
      ltac:(lia)) as Hv.
    rewrite !length_app, length_replicate in Hv.
    replace (length hd + (8 - length hd - length tl + length tl))%nat with 8%nat in Hv by lia.
    apply Hv. rewrite !Forall_app. eauto using Forall_replicate_zero.
Qed.

(** A parsed address is in the range of its family. *)
Lemma parse_ip_ok s ip : parse_ip s = Some ip -> ip_ok ip.
Proof.
  unfold parse_ip. destruct (read_ipv4_addr s) as [[z r]|] eqn:H4.
  - destruct r; [|done]. intros [= <-]. by eapply read_ipv4_addr_range.
  - destruct (read_ipv6_addr s) as [[z r]|] eqn:H6; [|done].
    destruct r; [|done]. intros [= <-]. by eapply read_ipv6_addr_range.
Qed.

Lemma to_canonical_ok ip : ip_ok ip -> ip_ok (to_canonical ip).
Proof.
  destruct ip as [z|z]; [exact id|]. unfold to_canonical.
  destruct (Z.shiftr z 32 =? 65535); [intros _ | exact id].
  apply (Z.mod_pos_bound z (2 ^ 32)). lia.
Qed.

(** Reading the digits of a printed number back, whatever follows them. *)
Definition no_digit_ahead (rest : bytes) : Prop :=
  match rest with [] => True | c :: _ => digit_val c = None end.

Lemma read_digits_app ds rest acc n m :
  digits_go acc ds = Some m -> no_digit_ahead rest ->
  read_digits digit_val 10 (ds ++ rest) acc n = (m, (n + length ds)%nat, rest).
Proof.
  revert acc n. induction ds as [|c ds IH]; intros acc n Hd Hr; simpl in *.
  - injection Hd as <-. rewrite Nat.add_0_r. destruct rest as [|c rest]; simpl in *; [done|].
    by rewrite Hr.
  - destruct (digit_val c) as [d|]; [|done]. rewrite (IH _ (S n) Hd Hr). do 2 f_equal. lia.
Qed.

Definition octet_text_ok (a : Z) : bool :=
  let d := dec a in
  negb (3 <? length d)%nat && negb (length d =? 0)%nat
  && negb (match d with c :: _ => c =? 48 | [] => false end && (1 <? length d)%nat).

Lemma octet_text_all a : 0 <= a < 256 -> octet_text_ok a = true.
Proof.
  intros Ha. assert (HF : forallb octet_text_ok (seqZ 0 256) = true) by (vm_compute; reflexivity).
  rewrite forallb_forall in HF. apply HF. apply list_elem_of_In, elem_of_seqZ. lia.
Qed.

Lemma read_octet_dec a rest :
  0 <= a < 256 -> no_digit_ahead rest -> read_octet (dec a ++ rest) = Some (a, rest).
Proof.
  intros Ha Hr. unfold read_octet, read_number.
  rewrite (read_digits_app (dec a) rest 0 0 a (digits_go_dec a ltac:(lia)) Hr).
  pose proof (octet_text_all a Ha) as Hok. unfold octet_text_ok in Hok.
  apply andb_true_iff in Hok as [Hok H3]. apply andb_true_iff in Hok as [H1 H2].
  rewrite Nat.add_0_l. apply negb_true_iff in H1, H2, H3. rewrite H1, H2.
  assert (Hne : dec a <> []) by (intros E; rewrite E in H2; done).
  destruct (dec a) as [|c d]; [done|]. simpl app. cbn [negb andb] in *. rewrite H3.
  destruct (Z.ltb_spec a 256); [done | lia].
Qed.

(** An IPv4 address printed and parsed is the address, with anything but a digit after it left
    unread. *)
Lemma read_show_ipv4 z rest :
  in_u 32 z -> no_digit_ahead rest -> read_ipv4_addr (show_ipv4 z ++ rest) = Some (z, rest).
Proof.
  intros Hz Hr. assert (Hb : from_be_bytes (to_be_bytes 4 z) = z).
  { apply from_to_be_bytes. exact Hz. }
  revert Hb. unfold show_ipv4. cbn [to_be_bytes app map join].
  set (a := z / 256 / 256 / 256 mod 256). set (b := z / 256 / 256 mod 256).
  set (c := z / 256 mod 256). set (d := z mod 256). intros Hb.
  assert (Ha : forall x, 0 <= x mod 256 < 256) by (intros; apply Z.mod_pos_bound; lia).
  unfold read_ipv4_addr. cbn [read_separator].
  do 3 (rewrite <- app_assoc, read_octet_dec by (apply Ha || done);
        cbn [app read_given_char Z.eqb Pos.eqb]).
  rewrite read_octet_dec by (apply Ha || done). by rewrite Hb.
Qed.

Lemma parse_show_ipv4 z : in_u 32 z -> parse_ip (show_ip (V4 z)) = Some (V4 z).
Proof.
  intros Hz. unfold parse_ip, show_ip.
  pose proof (read_show_ipv4 z [] Hz I) as H. rewrite app_nil_r in H. by rewrite H.
Qed.

(** ** Socket addresses *)

(** [<SocketAddr as FromStr>], whose port and scope have no digit limit: the address it names. *)
Definition read_port (s : bytes) : option (Z * bytes) :=
  match read_given_char 58 s with
  | Some s => read_number digit_val 10 (length s) true 65536 s
  | None => None
  end.

Definition read_scope (s : bytes) : bytes :=
  match read_given_char 37 s with
  | Some r => match read_number digit_val 10 (length r) true (2 ^ 32) r with Some (_, r) => r | None => s end
  | None => s
  end.

Definition parse_socket (s : bytes) : option SocketAddr :=
  let v4 := match read_ipv4_addr s with
            | Some (z, r) => match read_port r with Some (p, []) => Some (mkSocketAddr (V4 z) p) | _ => None end
            | None => None
            end in
  match v4 with
  | Some a => Some a
  | None =>
      match read_given_char 91 s with
      | None => None
      | Some s =>
          match read_ipv6_addr s with
          | None => None
          | Some (z, r) =>
              match read_given_char 93 (read_scope r) with
              | None => None
              | Some r => match read_port r with Some (p, []) => Some (mkSocketAddr (V6 z) p) | _ => None end
              end
          end
      end
  end.

Example parse_socket_v6 : parse_socket (lit "[2001:db8::1]:5678") <> None.
Proof. vm_compute. congruence. Qed.
Example parse_socket_v4 : parse_socket (lit "1.2.3.4:05678") = Some (mkSocketAddr (V4 16909060) 5678).
Proof. vm_compute. reflexivity. Qed.
