(* ===== verification/Units.v ===== *)
(** * Units: sizes, rates, durations and host:port in the configuration
    ([parse_size], [parse_rate], [parse_duration], [parse_host_port] of [src/src/config.rs])

    A [Duration] is its number of nanoseconds. *)

From S2P Require Import Prelude Text.

(** ** [std::time::Duration] *)

Definition Duration : Type := Z.
Definition from_secs (s : Z) : Duration := s * 1000000000.
Definition from_millis (ms : Z) : Duration := ms * 1000000.
Definition as_micros (d : Duration) : Z := d / 1000.
Definition as_millis (d : Duration) : Z := d / 1000000.
Definition as_secs (d : Duration) : Z := d / 1000000000.

(** ** The parsers *)

(** The suffixes of a size, in the order they are tried, with their multipliers. *)
Definition size_units : list (bytes * Z) :=
  [(lit "GiB", 1024 * 1024 * 1024); (lit "MiB", 1024 * 1024); (lit "KiB", 1024);
   (lit "GB", 1000000000); (lit "MB", 1000000); (lit "KB", 1000); (lit "B", 1)].

Fixpoint split_unit (units : list (bytes * Z)) (s : bytes) : bytes * Z :=
  match units with
  | [] => (s, 1)
  | (u, m) :: units =>
      match strip_suffix u s with Some n => (n, m) | None => split_unit units s end
  end.

(** [usize] is 64 bits on every target the crate ships for. *)
Definition parse_size (s : bytes) : result Z :=
  let s := trim s in
  let '(num, mult) := split_unit size_units s in
  let? n := ok_or (parse_uint 64 (trim num)) "invalid size" in
  ok_or (checked_mul 64 n mult) "size too large".

Definition rate_unit (unit : bytes) : option Duration :=
  if beq unit (lit "s") || beq unit (lit "sec") || beq unit (lit "second") then Some (from_secs 1)
  else if beq unit (lit "m") || beq unit (lit "min") || beq unit (lit "minute")
  then Some (from_secs 60)
  else if beq unit (lit "h") || beq unit (lit "hour") then Some (from_secs 3600)
  else None.

Definition parse_rate (s : bytes) : result (Z * Duration) :=
  match split_once 47 s with
  | None => Err "invalid rate (expected N/unit)"
  | Some (n, unit) =>
      let? count := ok_or (parse_uint 32 (trim n)) "invalid rate count" in
      let? period := ok_or (rate_unit (trim unit)) "unsupported rate unit" in
      Ok (count, period)
  end.

Definition parse_scaled (n : bytes) (mult : Z) : result Duration :=
  let? v := ok_or (parse_uint 64 (trim n)) "invalid duration" in
  let? secs := ok_or (checked_mul 64 v mult) "duration too large" in
  Ok (from_secs secs).

Definition parse_duration (s : bytes) : result Duration :=
  let s := trim s in
  match strip_suffix (lit "ms") s with
  | Some n =>
      let? ms := ok_or (parse_uint 64 (trim n)) "invalid duration" in Ok (from_millis ms)
  | None =>
  match strip_suffix (lit "s") s with
  | Some n =>
      let? secs := ok_or (parse_uint 64 (trim n)) "invalid duration" in Ok (from_secs secs)
  | None =>
  match strip_suffix (lit "m") s with
  | Some n => parse_scaled n 60
  | None =>
  match strip_suffix (lit "h") s with
  | Some n => parse_scaled n 3600
  | None =>
  match strip_suffix (lit "d") s with
  | Some n => parse_scaled n 86400
  | None =>
      let? secs := ok_or (parse_uint 64 s) "invalid duration" in Ok (from_secs secs)
  end end end end end.

(** [rest.split('/').next()] and [authority.rsplit('@').next()]. *)
Definition before_first (c : Z) (s : bytes) : bytes :=
  match split_once c s with Some (a, _) => a | None => s end.
Definition after_last (c : Z) (s : bytes) : bytes :=
  match rsplit_once c s with Some (_, b) => b | None => s end.

Definition parse_host_port (url : bytes) : option (bytes * Z) :=
  let '(default_port, rest) :=
    match strip_prefix (lit "http://") url with
    | Some r => (80, r)
    | None => match strip_prefix (lit "https://") url with
              | Some r => (443, r)
              | None => (80, url)
              end
    end in
  let authority := after_last 64 (before_first 47 rest) in
  match authority with
  | [] => None
  | c :: after =>
      if c =? 91 then
        match split_once 93 after with
        | None => None
        | Some (host, tail) =>
            match strip_prefix [58] tail with
            | Some p => match parse_uint 16 p with Some n => Some (host, n) | None => None end
            | None => Some (host, default_port)
            end
        end
      else
        match rsplit_once 58 authority with
        | Some ([], _) => None
        | Some (host, port) =>
            match parse_uint 16 port with Some n => Some (host, n) | None => None end
        | None => Some (authority, default_port)
        end
  end.

Example parse_size_mib : parse_size (lit " 2MiB ") = Ok 2097152.
Proof. vm_compute. reflexivity. Qed.
Example parse_rate_min : parse_rate (lit "60/min") = Ok (60, from_secs 60).
Proof. vm_compute. reflexivity. Qed.
Example parse_duration_ms : parse_duration (lit "500ms") = Ok 500000000.
Proof. vm_compute. reflexivity. Qed.
Example parse_host_port_v6 : parse_host_port (lit "https://u:p@[::1]:3000/x") = Some (lit "::1", 3000).
Proof. vm_compute. reflexivity. Qed.

(** ** Bounds *)

(** A parsed duration is a number of nanoseconds below [2^64] seconds. *)
Lemma parse_duration_range s d : parse_duration s = Ok d -> 0 <= d < 2 ^ 64 * 1000000000.
Proof.
  assert (Hu : forall t n, parse_uint 64 t = Some n -> 0 <= n < 2 ^ 64).
  { intros t n Hn. by apply parse_uint_range in Hn. }
  assert (Hs : forall n m d, 0 <= m -> parse_scaled n m = Ok d -> 0 <= d < 2 ^ 64 * 1000000000).
  { intros n m d' Hm. unfold parse_scaled, ok_or, checked_mul, from_secs.
    destruct (parse_uint 64 (trim n)) as [v|] eqn:Hv; [|done]. apply Hu in Hv. simpl.
    destruct (Z.ltb_spec (v * m) (2 ^ 64)); [|done]. intros [= <-]. nia. }
  unfold parse_duration, ok_or, from_secs, from_millis.
  destruct (strip_suffix (lit "ms") (trim s)) as [n|].
  { destruct (parse_uint 64 (trim n)) as [v|] eqn:Hv; [|done]. apply Hu in Hv.
    intros [= <-]. lia. }
  destruct (strip_suffix (lit "s") (trim s)) as [n|].
  { destruct (parse_uint 64 (trim n)) as [v|] eqn:Hv; [|done]. apply Hu in Hv.
    intros [= <-]. lia. }
  destruct (strip_suffix (lit "m") (trim s)) as [n|]; [by apply Hs|].
  destruct (strip_suffix (lit "h") (trim s)) as [n|]; [by apply Hs|].
  destruct (strip_suffix (lit "d") (trim s)) as [n|]; [by apply Hs|].
  destruct (parse_uint 64 (trim s)) as [v|] eqn:Hv; [|done]. apply Hu in Hv.
  intros [= <-]. lia.
Qed.

Lemma parse_rate_range s n p :
  parse_rate s = Ok (n, p) -> in_u 32 n /\ (p = from_secs 1 \/ p = from_secs 60 \/ p = from_secs 3600).
Proof.
  unfold parse_rate. destruct (split_once 47 s) as [[a u]|]; [|done]. unfold ok_or.
  destruct (parse_uint 32 (trim a)) as [c|] eqn:Hc; [|done]. simpl.
  destruct (rate_unit (trim u)) as [q|] eqn:Hq; [|done]. intros [= -> ->].
  split; [by apply parse_uint_range in Hc|].
  revert Hq. unfold rate_unit. repeat case_match; intros [= <-]; tauto.
Qed.
