(* ===== verification/Float.v ===== *)
(** * Float: the [f64] operations the crate uses

    IEEE 754 binary64 through the Standard Library's executable specification ([SpecFloat]): integer
    conversions, multiplication, division, [round] and the saturating cast to [u64]. *)

From Stdlib Require Import SpecFloat.
From S2P Require Import Prelude.

Definition f64 : Type := spec_float.

Definition f64_of_Z (z : Z) : f64 := binary_normalize 53 1024 z 0 false.
Definition f64_mul (x y : f64) : f64 := SFmul 53 1024 x y.
Definition f64_div (x y : f64) : f64 := SFdiv 53 1024 x y.
Definition f64_add (x y : f64) : f64 := SFadd 53 1024 x y.
Definition f64_ltb (x y : f64) : bool := SFltb x y.
Definition f64_leb (x y : f64) : bool := SFleb x y.

Definition f64_zero : f64 := S754_zero false.

Definition is_finite (x : f64) : bool :=
  match x with S754_zero _ | S754_finite _ _ _ => true | _ => false end.

(** [Duration::as_secs_f64], of a number of nanoseconds. *)
Definition as_secs_f64 (d : Z) : f64 :=
  f64_add (f64_of_Z (d / 1000000000)) (f64_div (f64_of_Z (d mod 1000000000)) (f64_of_Z 1000000000)).

(** The integer nearest to [m * 2^e], halves away from zero ([f64::round]). *)
Definition round_mag (m : positive) (e : Z) : Z :=
  if 0 <=? e then Zpos m * 2 ^ e else (Zpos m + 2 ^ (- e - 1)) / 2 ^ (- e).

(** [x.round() as u64]: the cast saturates, and sends NaN to 0. *)
Definition round_as_u64 (x : f64) : Z :=
  match x with
  | S754_zero _ | S754_nan => 0
  | S754_infinity s => if s then 0 else 2 ^ 64 - 1
  | S754_finite true _ _ => 0
  | S754_finite false m e => Z.min (2 ^ 64 - 1) (round_mag m e)
  end.

Lemma round_as_u64_range x : in_u 64 (round_as_u64 x).
Proof.
  destruct x as [s|s| |[|] m e]; simpl; try (split; [lia | reflexivity]).
  - destruct s; split; lia.
  - unfold in_u, round_mag. assert (0 <= (if 0 <=? e then Zpos m * 2 ^ e else (Zpos m + 2 ^ (- e - 1)) / 2 ^ (- e))).
    { destruct (Z.leb_spec 0 e).
      - pose proof (Z.pow_nonneg 2 e ltac:(lia)). nia.
      - apply Z.div_pos; [pose proof (Z.pow_nonneg 2 (- e - 1) ltac:(lia)); lia | apply Z.pow_pos_nonneg; lia]. }
    lia.
Qed.

Example round_half : round_as_u64 (f64_div (f64_of_Z 5) (f64_of_Z 2)) = 3.
Proof. vm_compute. reflexivity. Qed.
