(* ===== verification/Json.v ===== *)
(** * Json: a [serde_json::Value]

    As the sources build and read it; the members of an object in the order they were set, each key once. *)

From S2P Require Import Prelude Float.

Inductive Json : Type :=
| JNull | JBool (b : bool) | JInt (z : Z) | JDouble (x : f64) | JStr (s : bytes)
| JArr (l : list Json) | JObj (members : list (bytes * Json)).

(** [Map::get]. *)
Definition find_member (k : bytes) (ms : list (bytes * Json)) : option Json :=
  snd <$> List.find (fun '(n, _) => beq n k) ms.

(** [Value::get] with a string: nothing but an object has members. *)
Definition member (k : bytes) (j : Json) : option Json :=
  match j with JObj ms => find_member k ms | _ => None end.

Definition as_object (j : Json) : option (list (bytes * Json)) :=
  match j with JObj ms => Some ms | _ => None end.

Definition as_str (j : Json) : option bytes :=
  match j with JStr s => Some s | _ => None end.
