(* ===== verification/Access.v ===== *)
(** * Access: IP allow/deny lists with CIDR matching ([src/src/access.rs])

    [Cidr] with its parser, [contains] and [overlaps]; [AccessPolicy] with [build] and [allowed].
    The specification is [covers]: an address belongs to a rule when it has the rule's family and
    the same high [prefix] bits. *)

From S2P Require Import Prelude Text Net.

Inductive Cidr : Type :=
| CidrV4 (base prefix : Z)
| CidrV6 (base prefix : Z).

Definition mask_v4 (prefix : Z) : Z :=
  if prefix =? 0 then 0 else wrap 32 (Z.shiftl (2 ^ 32 - 1) (32 - prefix)).

Definition mask_v6 (prefix : Z) : Z :=
  if prefix =? 0 then 0 else wrap 128 (Z.shiftl (2 ^ 128 - 1) (128 - prefix)).

(** [p.parse::<u8>().ok().filter(|p| *p <= max)], with the full length when there is no prefix. *)
Definition parse_prefix (max : Z) (prefix_part : option bytes) : option Z :=
  match prefix_part with
  | None => Some max
  | Some p => match parse_uint 8 p with
              | Some n => if n <=? max then Some n else None
              | None => None
              end
  end.

(** The two address families' arms of [Cidr::parse]. *)
Definition parse_parts (addr_part : bytes) (prefix_part : option bytes) : result Cidr :=
  match parse_ip addr_part with
  | None => Err "invalid IP/CIDR address"
  | Some (V4 v4) =>
      let? prefix := ok_or (parse_prefix 32 prefix_part) "invalid IPv4 CIDR prefix" in
      Ok (CidrV4 (Z.land v4 (mask_v4 prefix)) prefix)
  | Some (V6 v6) =>
      let? prefix := ok_or (parse_prefix 128 prefix_part) "invalid IPv6 CIDR prefix" in
      Ok (CidrV6 (Z.land v6 (mask_v6 prefix)) prefix)
  end.

Definition parse (s : bytes) : result Cidr :=
  let s := trim s in
  match split_once 47 s with
  | Some (a, p) => parse_parts a (Some p)
  | None => parse_parts s None
  end.

Definition is_everything (c : Cidr) : bool :=
  match c with CidrV4 _ prefix | CidrV6 _ prefix => prefix =? 0 end.

Definition overlaps (self other : Cidr) : bool :=
  match self, other with
  | CidrV4 a p, CidrV4 b q =>
      let mask := mask_v4 (Z.min p q) in Z.land a mask =? Z.land b mask
  | CidrV6 a p, CidrV6 b q =>
      let mask := mask_v6 (Z.min p q) in Z.land a mask =? Z.land b mask
  | _, _ => false
  end.

Definition contains (c : Cidr) (ip : IpAddr) : bool :=
  match c, ip with
  | CidrV4 base prefix, V4 v4 => Z.land v4 (mask_v4 prefix) =? base
  | CidrV6 base prefix, V6 v6 => Z.land v6 (mask_v6 prefix) =? base
  | _, _ => false
  end.

Record AccessCfg : Type := mkAccessCfg { cfg_allow : list bytes; cfg_deny : list bytes }.
Record AccessPolicy : Type := mkAccessPolicy { allow : list Cidr; deny : list Cidr }.

Definition is_nil {A} (l : list A) : bool := match l with [] => true | _ => false end.

Definition build (cfg : AccessCfg) : result (option AccessPolicy) :=
  if is_nil (cfg_allow cfg) && is_nil (cfg_deny cfg) then Ok None
  else
    let? allow := collect parse (cfg_allow cfg) in
    let? deny := collect parse (cfg_deny cfg) in
    Ok (Some (mkAccessPolicy allow deny)).

Definition allowed (p : AccessPolicy) (ip : IpAddr) : bool :=
  if existsb (fun c => contains c ip) (deny p) then false
  else if is_nil (allow p) then true
  else existsb (fun c => contains c ip) (allow p).

(** ** Specification *)

(** [ip]'s high [p] of [w] bits are those of [base]. *)
Definition same_prefix (w p base ip : Z) : Prop := Z.shiftr ip (w - p) = Z.shiftr base (w - p).

Definition covers (c : Cidr) (ip : IpAddr) : Prop :=
  match c, ip with
  | CidrV4 base p, V4 z => same_prefix 32 p base z
  | CidrV6 base p, V6 z => same_prefix 128 p base z
  | _, _ => False
  end.

(** What [parse] establishes: a prefix in range and no host bit below it. *)
Definition cidr_wf (w p base : Z) : Prop :=
  0 <= p <= w /\ in_u w base /\ base mod 2 ^ (w - p) = 0.

Definition cidr_ok (c : Cidr) : Prop :=
  match c with CidrV4 b p => cidr_wf 32 p b | CidrV6 b p => cidr_wf 128 p b end.

(** ** Masks *)

Definition mask (w p : Z) : Z := if p =? 0 then 0 else wrap w (Z.shiftl (2 ^ w - 1) (w - p)).

Lemma mask_v4_eq p : mask_v4 p = mask 32 p.
Proof. reflexivity. Qed.
Lemma mask_v6_eq p : mask_v6 p = mask 128 p.
Proof. reflexivity. Qed.

Lemma testbit_mask w p i :
  0 <= p <= w -> 0 <= i -> Z.testbit (mask w p) i = (w - p <=? i) && (i <? w).
Proof.
  intros Hp Hi. unfold mask. destruct (Z.eqb_spec p 0) as [->|Hne].
  - rewrite Z.bits_0. zcase; simpl; lia.
  - unfold wrap. rewrite <- Z.land_ones, Z.land_spec, Z.shiftl_spec by lia.
    replace (2 ^ w - 1) with (Z.ones w) by (rewrite Z.ones_equiv; lia).
    rewrite (Z.testbit_ones w i) by lia.
    destruct (Z.leb_spec (w - p) i).
    + rewrite Z.testbit_ones by lia. zcase; simpl; lia.
    + rewrite Z.testbit_neg_r by lia. done.
Qed.

(** Masking to a prefix clears the host bits. *)
Lemma land_mask w p z :
  0 <= p <= w -> in_u w z -> Z.land z (mask w p) = Z.shiftl (Z.shiftr z (w - p)) (w - p).
Proof.
  intros Hp [Hz1 Hz2]. apply Z.bits_inj'. intros i Hi.
  rewrite Z.land_spec, testbit_mask, Z.shiftl_spec by lia.
  destruct (Z.leb_spec (w - p) i).
  - rewrite Z.shiftr_spec by lia. replace (i - (w - p) + (w - p)) with i by lia.
    destruct (Z.ltb_spec i w); [by rewrite andb_true_r|]. simpl. rewrite andb_false_r.
    destruct (Z.eq_dec z 0) as [->|]; [by rewrite Z.bits_0|].
    symmetry. apply Z.bits_above_log2; [done|]. apply Z.log2_lt_pow2; [lia|].
    apply Z.lt_le_trans with (2 ^ w); [done|]. apply Z.pow_le_mono_r; lia.
  - simpl. rewrite andb_false_r, (Z.testbit_neg_r _ (i - (w - p))) by lia. done.
Qed.

Lemma land_mask_range w p z : 0 <= w -> 0 <= p <= w -> in_u w z -> in_u w (Z.land z (mask w p)).
Proof.
  intros Hw Hp Hz. rewrite land_mask by done. destruct Hz as [H1 H2].
  rewrite Z.shiftl_mul_pow2, Z.shiftr_div_pow2 by lia.
  assert (0 < 2 ^ (w - p)) by (apply Z.pow_pos_nonneg; lia).
  pose proof (Z.div_mod z (2 ^ (w - p)) ltac:(lia)).
  pose proof (Z.mod_pos_bound z (2 ^ (w - p)) ltac:(lia)).
  assert (0 <= z / 2 ^ (w - p)) by (apply Z.div_pos; lia). unfold in_u. nia.
Qed.

Lemma shiftl_inj n a b : 0 <= n -> Z.shiftl a n = Z.shiftl b n -> a = b.
Proof.
  intros Hn. rewrite !Z.shiftl_mul_pow2 by done.
  assert (0 < 2 ^ n) by (apply Z.pow_pos_nonneg; lia). apply Z.mul_cancel_r. lia.
Qed.

Lemma shiftr_shiftl_back n a : 0 <= n -> Z.shiftr (Z.shiftl a n) n = a.
Proof. intros Hn. rewrite Z.shiftr_shiftl_l by done. by rewrite Z.sub_diag, Z.shiftl_0_r. Qed.

Lemma masked_wf w p z : 0 <= w -> 0 <= p <= w -> in_u w z -> cidr_wf w p (Z.land z (mask w p)).
Proof.
  intros Hw Hp Hz. split; [done|]. split; [by apply land_mask_range|].
  rewrite land_mask, Z.shiftl_mul_pow2 by (done || lia). apply Z.mod_mul.
  apply Z.pow_nonzero; lia.
Qed.

Lemma wf_shiftl w p b : cidr_wf w p b -> b = Z.shiftl (Z.shiftr b (w - p)) (w - p).
Proof.
  intros (Hp & Hb & Hm). rewrite Z.shiftl_mul_pow2, Z.shiftr_div_pow2 by lia.
  assert (0 < 2 ^ (w - p)) by (apply Z.pow_pos_nonneg; lia).
  pose proof (Z.div_mod b (2 ^ (w - p)) ltac:(lia)). lia.
Qed.

(** The code's test is equality of the high bits. *)
Lemma masked_eq_iff w p b z :
  cidr_wf w p b -> in_u w z -> Z.land z (mask w p) = b <-> same_prefix w p b z.
Proof.
  intros Hwf Hz. pose proof Hwf as (Hp & _ & _). unfold same_prefix.
  rewrite land_mask by done. rewrite (wf_shiftl w p b Hwf) at 1. split.
  - apply shiftl_inj. lia.
  - by intros ->.
Qed.

(** Sharing a longer prefix is sharing every shorter one. *)
Lemma same_prefix_weaken w p q a b :
  0 <= q <= p -> p <= w -> same_prefix w p a b -> same_prefix w q a b.
Proof.
  intros Hq Hp. unfold same_prefix. replace (w - q) with ((w - p) + (p - q)) by lia.
  rewrite <- !Z.shiftr_shiftr by lia. congruence.
Qed.

Lemma masks_meet w p q a b :
  0 <= q <= p -> cidr_wf w p a -> cidr_wf w q b ->
  Z.land a (mask w q) = Z.land b (mask w q)
  <-> exists z, in_u w z /\ same_prefix w p a z /\ same_prefix w q b z.
Proof.
  intros Hqp Ha Hb. pose proof Ha as (Hp & Hza & _). pose proof Hb as (Hq & Hzb & _).
  rewrite !land_mask by done. split.
  - intros Heq. apply shiftl_inj in Heq; [|lia]. exists a. done.
  - intros (z & Hz & H1 & H2). f_equal.
    apply (same_prefix_weaken w p q) in H1; [|lia..]. unfold same_prefix in *. congruence.
Qed.

(** ** Correctness *)

Lemma parse_prefix_range max pre n :
  0 <= max -> parse_prefix max pre = Some n -> 0 <= n <= max.
Proof.
  intros Hm. unfold parse_prefix. destruct pre as [pt|]; [|intros [= <-]; lia].
  destruct (parse_uint 8 pt) as [m|] eqn:Hp; [|done]. apply parse_uint_range in Hp as [H0 _].
  destruct (Z.leb_spec m max); [|done]. intros [= <-]. lia.
Qed.

Lemma parse_parts_ok addr pre c : parse_parts addr pre = Ok c -> cidr_ok c.
Proof.
  unfold parse_parts.
  destruct (parse_ip addr) as [[v|v]|] eqn:Hip; [| |done]; apply parse_ip_ok in Hip; unfold ok_or.
  - destruct (parse_prefix 32 pre) as [n|] eqn:Hn; [|done]. intros [= <-].
    rewrite mask_v4_eq. apply masked_wf; [lia | by apply (parse_prefix_range 32 pre) | exact Hip].
  - destruct (parse_prefix 128 pre) as [n|] eqn:Hn; [|done]. intros [= <-].
    rewrite mask_v6_eq. apply masked_wf; [lia | by apply (parse_prefix_range 128 pre) | exact Hip].
Qed.

Lemma parse_cidr_ok s c : parse s = Ok c -> cidr_ok c.
Proof. unfold parse. destruct (split_once 47 (trim s)) as [[a p]|]; apply parse_parts_ok. Qed.

Lemma contains_covers c ip :
  cidr_ok c -> ip_ok ip -> contains c ip = true <-> covers c ip.
Proof.
  intros Hc Hip. destruct c as [b p|b p], ip as [z|z]; simpl; try done;
    rewrite Z.eqb_eq; [rewrite mask_v4_eq | rewrite mask_v6_eq]; by apply masked_eq_iff.
Qed.

(** The symmetric form, for the two orders of the prefixes. *)
Lemma masks_meet_min w p q a b :
  cidr_wf w p a -> cidr_wf w q b ->
  Z.land a (mask w (Z.min p q)) = Z.land b (mask w (Z.min p q))
  <-> exists z, in_u w z /\ same_prefix w p a z /\ same_prefix w q b z.
Proof.
  intros Ha Hb. pose proof Ha as (Hp & _). pose proof Hb as (Hq & _).
  destruct (Z.le_ge_cases q p).
  - rewrite Z.min_r by lia. apply masks_meet; [lia | done..].
  - rewrite Z.min_l by lia. rewrite (symmetry_iff (=)), (masks_meet w q p b a) by (lia || done).
    split; intros (z & ? & ? & ?); exists z; done.
Qed.

(** [contains] on a rule that came out of [Cidr::parse] is the CIDR relation: the address has
    the rule's family and agrees with its base on the high [prefix] bits. *)
Theorem cidr_contains_correct s c ip :
  parse s = Ok c -> ip_ok ip -> contains c ip = true <-> covers c ip.
Proof. intros Hs. apply contains_covers. by eapply parse_cidr_ok. Qed.

Lemma cidr_contains_correct_witness :
  contains (CidrV4 167772160 8) (V4 167838211) = true
  /\ covers (CidrV4 167772160 8) (V4 167838211).
Proof.
  assert (H : contains (CidrV4 167772160 8) (V4 167838211) = true) by (vm_compute; reflexivity).
  split; [exact H|].
  apply (cidr_contains_correct (lit " 10.1.2.3/8 ") (CidrV4 167772160 8) (V4 167838211)).
  - vm_compute. reflexivity.
  - split; [lia | reflexivity].
  - exact H.
Defined.

(** [overlaps] on parsed rules decides whether some address belongs to both. *)
Theorem cidr_overlaps_correct s t c d :
  parse s = Ok c -> parse t = Ok d ->
  overlaps c d = true <-> exists ip, ip_ok ip /\ contains c ip = true /\ contains d ip = true.
Proof.
  intros Hc%parse_cidr_ok Hd%parse_cidr_ok.
  destruct c as [a p|a p], d as [b q|b q]; cbn [overlaps].
  2, 3: split; [done | intros ([z|z] & _ & [=] & [=])].
  - rewrite Z.eqb_eq, mask_v4_eq, masks_meet_min by done. split.
    + intros (z & Hz & H1 & H2). exists (V4 z).
      rewrite !contains_covers by done. done.
    + intros ([z|z] & Hz & H1 & H2); [|done]. exists z.
      rewrite contains_covers in H1, H2 by done. done.
  - rewrite Z.eqb_eq, mask_v6_eq, masks_meet_min by done. split.
    + intros (z & Hz & H1 & H2). exists (V6 z).
      rewrite !contains_covers by done. done.
    + intros ([z|z] & Hz & H1 & H2); [done|]. exists z.
      rewrite contains_covers in H1, H2 by done. done.
Qed.

Lemma cidr_overlaps_correct_witness :
  exists ip, ip_ok ip /\ contains (CidrV4 167772160 8) ip = true
             /\ contains (CidrV4 167837696 16) ip = true.
Proof.
  apply (cidr_overlaps_correct (lit "10.0.0.0/8") (lit "10.1.0.0/16")); vm_compute; reflexivity.
Defined.

(** ** The policy *)

(** The entry [s] of the config names a range that covers [ip]. *)
Definition entry_covers (ip : IpAddr) (s : bytes) : Prop := exists c, parse s = Ok c /\ covers c ip.

Lemma existsb_contains l cs ip :
  ip_ok ip -> collect parse l = Ok cs ->
  existsb (fun c => contains c ip) cs = true <-> Exists (entry_covers ip) l.
Proof.
  intros Hip HF%collect_Ok. rewrite existsb_exists, Exists_exists.
  setoid_rewrite list_elem_of_In. split.
  - intros (c & Hin & Hc). apply list_elem_of_In in Hin.
    destruct (Forall2_in_r _ _ _ _ HF Hin) as (s & Hs & Hp).
    exists s. split; [by apply list_elem_of_In|]. exists c.
    split; [done|]. apply contains_covers; [by eapply parse_cidr_ok | done | done].
  - intros (s & Hin & c & Hp & Hc). apply list_elem_of_In in Hin.
    destruct (Forall2_in_l _ _ _ _ HF Hin) as (c' & Hc' & Hp').
    assert (c' = c) as -> by congruence. exists c.
    split; [by apply list_elem_of_In|]. apply contains_covers; [by eapply parse_cidr_ok | done..].
Qed.

(** The policy built from a config admits an address exactly when no [deny] entry covers it
    and, unless [allow] is empty, some [allow] entry does. *)
Theorem access_allowed_correct cfg p ip :
  build cfg = Ok (Some p) -> ip_ok ip ->
  allowed p ip = true <->
  ~ Exists (entry_covers ip) (cfg_deny cfg)
  /\ (cfg_allow cfg = [] \/ Exists (entry_covers ip) (cfg_allow cfg)).
Proof.
  unfold build. intros Hb Hip. destruct (is_nil _ && is_nil _); [done|].
  destruct (collect parse (cfg_allow cfg)) as [al|] eqn:Ha; [|done].
  destruct (collect parse (cfg_deny cfg)) as [de|] eqn:Hd; [|done].
  injection Hb as <-. unfold allowed. cbn [allow deny].
  rewrite <- (existsb_contains _ _ _ Hip Ha), <- (existsb_contains _ _ _ Hip Hd).
  assert (Hn : cfg_allow cfg = [] <-> is_nil al = true).
  { apply collect_Ok in Ha. inversion Ha; naive_solver. }
  rewrite Hn. destruct (existsb _ de), (is_nil al), (existsb _ al); naive_solver.
Qed.

Lemma access_allowed_correct_witness :
  let cfg := mkAccessCfg [lit "10.0.0.0/8"] [lit "10.1.0.0/16"] in
  ~ Exists (entry_covers (V4 167772161)) (cfg_deny cfg)
  /\ (cfg_allow cfg = [] \/ Exists (entry_covers (V4 167772161)) (cfg_allow cfg)).
Proof.
  intros cfg.
  apply (access_allowed_correct cfg (mkAccessPolicy [CidrV4 167772160 8] [CidrV4 167837696 16])).
  - vm_compute. reflexivity.
  - split; [lia | reflexivity].
  - vm_compute. reflexivity.
Defined.

(** [build] fails exactly when an entry does not parse, and gives no policy exactly when both
    lists are empty: a typo never silently drops a rule. *)
Theorem access_build_total cfg :
  match build cfg with
  | Err _ => Exists (fun s => exists e, parse s = Err e) (cfg_allow cfg ++ cfg_deny cfg)
  | Ok None => cfg_allow cfg = [] /\ cfg_deny cfg = []
  | Ok (Some p) => Forall2 (fun s c => parse s = Ok c) (cfg_allow cfg) (allow p)
                   /\ Forall2 (fun s c => parse s = Ok c) (cfg_deny cfg) (deny p)
  end.
Proof.
  assert (Hc : forall l e, collect parse l = Err e -> Exists (fun s => exists e, parse s = Err e) l).
  { induction l as [|s l IH]; intros e; simpl; [done|].
    destruct (parse s) eqn:Hs; [|intros _; left; eauto].
    destruct (collect parse l) as [|e']; [done|]. intros _. right. by apply (IH e'). }
  unfold build. destruct (is_nil _ && is_nil _) eqn:Hn.
  - destruct (cfg_allow cfg), (cfg_deny cfg); done.
  - destruct (collect parse (cfg_allow cfg)) as [al|e] eqn:Ha; simpl.
    + destruct (collect parse (cfg_deny cfg)) as [de|e] eqn:Hd; simpl.
      * by split; apply collect_Ok.
      * apply Exists_app. right. by apply (Hc _ e).
    + apply Exists_app. left. by apply (Hc _ e).
Qed.
