(* ===== verification/Limiter.v ===== *)
(** * Limiter: GCRA rate limiting over a shared store ([src/src/limiter.rs])

    [Gcra] and the pure decision [gcra_admit]; the two stores, the in-process map and the Redis
    Lua script, behind one interface ([Store], with its laws [StoreLaws]); and
    [DistributedLimiter], whose theorems are proved against the interface.

    The effective theoretical arrival time of a key at time [t], [eff], is the abstract state both
    stores implement: an absent, expired or past entry all mean [t]. *)

From S2P Require Import Prelude Text Net Units.

Inductive StoreMode : Type := Local | Memory | Redis.

Definition StoreMode_parse (s : bytes) : result StoreMode :=
  let s := to_ascii_lowercase (trim s) in
  if beq s (lit "local") || beq s (lit "governor") || beq s [] then Ok Local
  else if beq s (lit "memory") || beq s (lit "in-memory") then Ok Memory
  else if beq s (lit "redis") then Ok Redis
  else Err "invalid ratelimit.store".

Definition is_distributed (m : StoreMode) : bool :=
  match m with Memory | Redis => true | Local => false end.

Record Gcra : Type := mkGcra { emission_interval : Z; tolerance : Z }.

Definition from_parts (count : Z) (period : Duration) (burst : Z) : result Gcra :=
  ensure (0 <? count) else "rate count must be > 0";
  ensure (0 <? burst) else "burst must be > 0";
  let period_us := wrap 64 (as_micros period) in
  let emission_interval := period_us / count in
  ensure (0 <? emission_interval) else "rate is too high to represent";
  Ok (mkGcra emission_interval (sat_mul 64 emission_interval burst)).

(** [stored_tat.unwrap_or(now).max(now)]. *)
Definition clamp_tat (stored_tat : option Z) (now : Z) : Z := Z.max (default now stored_tat) now.

Definition next_admit_at (g : Gcra) (stored_tat : option Z) (now : Z) : Z :=
  sat_sub (sat_add 64 (clamp_tat stored_tat now) (emission_interval g)) (tolerance g).

Definition burst (g : Gcra) : Z := tolerance g / Z.max (emission_interval g) 1.

Definition remaining (g : Gcra) (stored_tat : option Z) (now : Z) : Z :=
  let tat := clamp_tat stored_tat now in
  let spent := (tat - now) / Z.max (emission_interval g) 1 in
  sat_sub (burst g) spent.

Definition from_rate (rate : bytes) (burst : Z) : result Gcra :=
  let? cp := parse_rate rate in
  let '(count, period) := cp in
  ensure (0 <? count) else "rate count must be > 0";
  ensure (0 <? burst) else "burst must be > 0";
  let period_us := wrap 64 (as_micros period) in
  let emission_interval := period_us / count in
  ensure (0 <? emission_interval) else "rate too high for a usable sub-microsecond interval";
  Ok (mkGcra emission_interval (sat_mul 64 emission_interval burst)).

Definition gcra_admit (stored_tat : option Z) (now : Z) (g : Gcra) : option Z :=
  let tat := clamp_tat stored_tat now in
  let new_tat := wrap 64 (tat + emission_interval g) in
  let allow_at := sat_sub new_tat (tolerance g) in
  if now <? allow_at then None else Some new_tat.

(** ** The stores *)

(** What a shared-state store does: one atomic admission, [Err] on a store failure. *)
Class Store (S : Type) : Type := {
  store_admit : S -> bytes -> Gcra -> Z -> result bool * S;
  eff : S -> bytes -> Z -> Z
}.

(** [MemoryStore]: key to TAT, in microseconds. *)
Abbreviation MemoryStore := (gmap bytes Z).

Definition memory_admit (m : MemoryStore) (key : bytes) (g : Gcra) (now : Z) : bool * MemoryStore :=
  match gcra_admit (m !! key) now g with
  | Some new_tat => (true, <[key := new_tat]> m)
  | None => (false, m)
  end.

#[global] Instance memory_store : Store MemoryStore := {
  store_admit m key g now := let '(b, m') := memory_admit m key g now in (Ok b, m');
  eff m key t := clamp_tat (m !! key) t
}.

(** The two Redis commands the script uses, at a server time in microseconds. *)
Class RedisKV (K : Type) : Type := {
  redis_get : K -> Z -> bytes -> option Z;
  redis_set_px : K -> Z -> bytes -> Z -> Z -> K
}.

(** What Redis documents of them: [SET k v PX ttl] makes [k] read as [v] until [ttl] milliseconds
    have passed and as missing from then on, and changes no other key. *)
Class RedisLaws (K : Type) `{RedisKV K} : Prop := {
  redis_get_set_eq : forall s now k v ttl t, 0 < ttl -> now <= t ->
    redis_get (redis_set_px s now k v ttl) t k = if t <? now + 1000 * ttl then Some v else None;
  redis_get_set_ne : forall s now k k' v ttl t, k <> k' -> now <= t ->
    redis_get (redis_set_px s now k v ttl) t k' = redis_get s t k'
}.

(** [GCRA_LUA].  Lua numbers are doubles; the script's integers are exact below [2^53]. *)
Definition gcra_lua {K} `{RedisKV K} (s : K) (key : bytes) (now interval tolerance : Z) : Z * K :=
  let tat := match redis_get s now key with
             | None => now
             | Some tat => if tat <? now then now else tat
             end in
  let new_tat := tat + interval in
  let allow_at := new_tat - tolerance in
  if now <? allow_at then (0, s)
  else
    let ttl_ms := - ((- (new_tat - now)) / 1000) in
    let ttl_ms := if ttl_ms <? 1 then 1 else ttl_ms in
    (1, redis_set_px s now key new_tat ttl_ms).

(** The connection of a [RedisStore]: working, down (the script does not run), or lost after the
    script ran and before its reply arrived. *)
Inductive Link : Type := Up | Down | ReplyLost.

Record RedisStore (K : Type) : Type := mkRedisStore { rs_kv : K; rs_link : Link }.
Arguments mkRedisStore {K}.
Arguments rs_kv {K}.
Arguments rs_link {K}.

(** [now] is the caller's clock, which the script is passed; it also times the key's expiry, which the
    server's own clock does: the two are taken to be the same, as the module asks of its replicas. *)
Definition redis_admit {K} `{RedisKV K} (s : RedisStore K) (key : bytes) (g : Gcra) (now : Z)
    : result bool * RedisStore K :=
  match rs_link s with
  | Down => (Err "connecting to redis rate-limit store", s)
  | link =>
      let '(admitted, kv) := gcra_lua (rs_kv s) key now (emission_interval g) (tolerance g) in
      let s' := mkRedisStore kv link in
      match link with
      | Up => (Ok (admitted =? 1), s')
      | _ => (Err "evaluating redis GCRA script", s')
      end
  end.

#[global] Instance redis_store {K} `{RedisKV K} : Store (RedisStore K) := {
  store_admit := redis_admit;
  eff s key t := clamp_tat (redis_get (rs_kv s) t key) t
}.

(** ** The distributed limiter *)

Inductive Admit : Type := Allowed | Limited (scope : bytes) | Error.

#[global] Instance Admit_eq_dec : EqDecision Admit.
Proof. solve_decision. Defined.

Record RouteGcra : Type := mkRouteGcra { rg_prefix : bytes; rg_gcra : Gcra }.

Record DistributedLimiter (S : Type) : Type := mkLimiter {
  store : S;
  key_prefix : bytes;
  fail_open : bool;
  global : Gcra;
  routes : list RouteGcra;
  per_key : option Gcra
}.
Arguments mkLimiter {S}.
Arguments store {S}.
Arguments key_prefix {S}.
Arguments fail_open {S}.
Arguments global {S}.
Arguments routes {S}.
Arguments per_key {S}.

Record RouteRateLimit : Type := mkRouteRateLimit { rr_path : bytes; rr_rate : bytes; rr_burst : Z }.
Record RateLimitCfg : Type := mkRateLimitCfg {
  rl_rate : bytes; rl_burst : Z; rl_routes : list RouteRateLimit;
  rl_per_key_enabled : bool; rl_per_key_rate : bytes; rl_per_key_burst : Z;
  rl_redis_prefix : bytes; rl_fail_open : bool
}.

(** [DistributedLimiter::build], with the store the mode chose already opened. *)
Definition limiter_build {S} (rl : RateLimitCfg) (store : S) : result (DistributedLimiter S) :=
  let? global := from_rate (rl_rate rl) (rl_burst rl) in
  let? routes := collect (fun route =>
      ensure (negb (beq (rr_path route) [])) else "ratelimit.routes[].path must not be empty";
      let? g := from_rate (rr_rate route) (rr_burst route) in
      Ok (mkRouteGcra (rr_path route) g)) (rl_routes rl) in
  let? per_key :=
    if rl_per_key_enabled rl then
      let? g := from_rate (rl_per_key_rate rl) (rl_per_key_burst rl) in Ok (Some g)
    else Ok None in
  Ok (mkLimiter store (rl_redis_prefix rl) (rl_fail_open rl) global routes per_key).

Definition set_store {S} (l : DistributedLimiter S) (s : S) : DistributedLimiter S :=
  mkLimiter s (key_prefix l) (fail_open l) (global l) (routes l) (per_key l).

Section Operations.
Context {S : Type} `{Store S}.

Definition limiter_admit (l : DistributedLimiter S) (key : bytes) (g : Gcra) (now : Z)
    (scope : bytes) : Admit * DistributedLimiter S :=
  let '(r, s) := store_admit (store l) key g now in
  let verdict := match r with
                 | Ok true => Allowed
                 | Ok false => Limited scope
                 | Err _ => if fail_open l then Allowed else Error
                 end in
  (verdict, set_store l s).

Definition longest_route_gcra (l : DistributedLimiter S) (path : bytes) : option RouteGcra :=
  max_by_key (fun r => len (rg_prefix r))
    (List.filter (fun r => starts_with path (rg_prefix r)) (routes l)).

Definition route_key (l : DistributedLimiter S) (prefix : bytes) (ip : IpAddr) : bytes :=
  key_prefix l ++ lit ":route:" ++ prefix ++ lit ":" ++ show_ip ip.
Definition ip_key (l : DistributedLimiter S) (ip : IpAddr) : bytes :=
  key_prefix l ++ lit ":ip:" ++ show_ip ip.
Definition principal_key (l : DistributedLimiter S) (principal : bytes) : bytes :=
  key_prefix l ++ lit ":key:" ++ principal.

Definition check_ip_route (l : DistributedLimiter S) (ip : IpAddr) (path : bytes) (now : Z)
    : Admit * DistributedLimiter S :=
  match longest_route_gcra l path with
  | Some route =>
      limiter_admit l (route_key l (rg_prefix route) ip) (rg_gcra route) now (lit "route")
  | None => limiter_admit l (ip_key l ip) (global l) now (lit "ip")
  end.

Definition check_key (l : DistributedLimiter S) (principal : bytes) (now : Z)
    : Admit * DistributedLimiter S :=
  match per_key l with
  | Some g => limiter_admit l (principal_key l principal) g now (lit "key")
  | None => (Allowed, l)
  end.
End Operations.

(** ** The decision *)

(** A usable limit: what [from_rate] and [from_parts] produce. *)
Definition gcra_ok (g : Gcra) : Prop :=
  0 < emission_interval g /\ emission_interval g <= tolerance g.

(** The arithmetic of one admission neither wraps at 64 bits nor leaves the integers a double
    represents: the microsecond clock does so until the year 2255. *)
Definition fits (tat now : Z) (g : Gcra) : Prop := 0 <= now /\ now <= tat /\ tat + emission_interval g < 2 ^ 53.

Lemma clamp_ge st now : now <= clamp_tat st now.
Proof. unfold clamp_tat. lia. Qed.

Lemma clamp_clamp st t t' : t <= t' -> clamp_tat (Some (clamp_tat st t)) t' = clamp_tat st t'.
Proof. unfold clamp_tat. destruct st; simpl; lia. Qed.

Lemma gcra_admit_clamped st now g :
  gcra_admit (Some (clamp_tat st now)) now g = gcra_admit st now g.
Proof. unfold gcra_admit. by rewrite clamp_clamp by lia. Qed.

(** Without overflow the decision is: store_admit when [tat + interval - tolerance <= now]. *)
Lemma gcra_admit_iff tat now g new :
  gcra_ok g -> fits tat now g ->
  gcra_admit (Some tat) now g = Some new <->
  new = tat + emission_interval g /\ new - tolerance g <= now.
Proof.
  intros [Hi Ht] (Hn & Hle & Hf). unfold gcra_admit, clamp_tat, sat_sub. simpl.
  rewrite (Z.max_l tat now) by lia. rewrite wrap_small by (unfold in_u; lia).
  destruct (Z.ltb_spec now (Z.max 0 (tat + emission_interval g - tolerance g))).
  - split; [done | intros [-> ?]; lia].
  - split; [intros [= <-]; lia | by intros [-> _]].
Qed.

Lemma gcra_admit_None tat now g :
  gcra_ok g -> fits tat now g ->
  gcra_admit (Some tat) now g = None <-> now < tat + emission_interval g - tolerance g.
Proof.
  intros Hg Hf. destruct (gcra_admit (Some tat) now g) as [new|] eqn:Ha.
  - apply gcra_admit_iff in Ha as [-> Ha]; [|done..]. split; [done | lia].
  - split; [|done]. intros _. apply Z.nle_gt. intros Hle.
    assert (Hc : gcra_admit (Some tat) now g = Some (tat + emission_interval g)).
    { apply gcra_admit_iff; [done..|]. split; [done | lia]. }
    congruence.
Qed.

(** A bucket refuses only when its TAT is more than the tolerance, less one interval, ahead. *)
Lemma gcra_refuses_iff st t g :
  gcra_ok g -> fits (clamp_tat st t) t g ->
  gcra_admit st t g = None <-> exists v, st = Some v /\ t < v + emission_interval g - tolerance g.
Proof.
  intros Hg Hf. rewrite <- gcra_admit_clamped, gcra_admit_None by done. destruct Hg as [Hi Ht].
  unfold clamp_tat. destruct st as [v|]; simpl; split.
  - intros H. exists v. split; [done | lia].
  - intros (v' & [= <-] & H). lia.
  - lia.
  - by intros (v' & ? & _).
Qed.

Lemma gcra_build_ok e b : 0 < e < 2 ^ 64 -> 0 < b -> gcra_ok (mkGcra e (sat_mul 64 e b)).
Proof. intros He Hb. unfold gcra_ok, sat_mul. simpl. nia. Qed.

Lemma div_interval_range p c : 0 < c -> 0 < wrap 64 p / c -> 0 < wrap 64 p / c < 2 ^ 64.
Proof.
  intros Hc H0. split; [done|]. pose proof (wrap_range 64 p ltac:(lia)) as [? ?].
  apply Z.le_lt_trans with (wrap 64 p); [|done]. apply Z.div_le_upper_bound; nia.
Qed.

Lemma from_parts_ok count period b g : from_parts count period b = Ok g -> gcra_ok g.
Proof.
  unfold from_parts. zcase; try done. intros [= <-].
  apply gcra_build_ok; [by apply div_interval_range | done].
Qed.

Lemma from_rate_ok rate b g : from_rate rate b = Ok g -> gcra_ok g.
Proof.
  unfold from_rate. destruct (parse_rate rate) as [[c p]|]; [|done]. simpl. zcase; try done.
  intros [= <-]. apply gcra_build_ok; [by apply div_interval_range | done].
Qed.

(** [next_admit_at] is the exact earliest instant: from [now] on, a request is admitted at [t]
    if and only if [t] is not before it, so retrying at it always succeeds and never sooner. *)
Theorem next_admit_at_exact g st now t :
  gcra_ok g -> 0 <= now <= t -> fits (clamp_tat st t) t g ->
  (exists new, gcra_admit st t g = Some new) <-> next_admit_at g st now <= t.
Proof.
  intros Hg Ht Hf. rewrite <- gcra_admit_clamped.
  assert (Hb : clamp_tat st now <= clamp_tat st t) by (unfold clamp_tat; destruct st; simpl; lia).
  assert (Hn : next_admit_at g st now
               = Z.max 0 (clamp_tat st now + emission_interval g - tolerance g)).
  { unfold next_admit_at, sat_sub, sat_add. destruct Hf as (_ & _ & Hf). destruct Hg. lia. }
  rewrite Hn. setoid_rewrite gcra_admit_iff; [|done..]. destruct Hg as [Hi Htol]. split.
  - intros (new & -> & Hle). lia.
  - intros Hle. eexists. split; [done|]. unfold clamp_tat in *. destruct st; simpl in *; lia.
Qed.

Lemma next_admit_at_exact_witness :
  exists new, gcra_admit (Some 60) 50 (mkGcra 10 20) = Some new.
Proof.
  apply (next_admit_at_exact (mkGcra 10 20) (Some 60) 5 50); vm_compute; repeat split; congruence.
Defined.

(** Once a bucket admits, it keeps admitting until something is taken from it. *)
Lemma gcra_admit_later g st now now' new :
  gcra_ok g -> 0 <= now <= now' -> fits (clamp_tat st now') now' g ->
  gcra_admit st now g = Some new -> exists new', gcra_admit st now' g = Some new'.
Proof.
  intros Hg Ht Hf Ha. rewrite <- gcra_admit_clamped in Ha |- *.
  assert (Hle : clamp_tat st now <= clamp_tat st now') by (unfold clamp_tat; destruct st; simpl; lia).
  apply gcra_admit_iff in Ha as [-> Ha]; [|done|].
  - eexists. apply gcra_admit_iff; [done..|]. split; [done|]. destruct Hg.
    unfold clamp_tat in *. destruct st; simpl in *; lia.
  - pose proof (clamp_ge st now). destruct Hf as (? & ? & ?). unfold fits. lia.
Qed.

(** [n] admissions in a row at one instant, as a bucket with this TAT would take them. *)
Fixpoint admits_now (g : Gcra) (tat now : Z) (n : nat) : bool :=
  match n with
  | O => true
  | S n => match gcra_admit (Some tat) now g with
           | Some new => admits_now g new now n
           | None => false
           end
  end.

Lemma admits_now_iff g tat now n :
  gcra_ok g -> 0 <= now -> now <= tat -> tat + emission_interval g * Z.of_nat n < 2 ^ 53 ->
  admits_now g tat now n = true <->
  n = O \/ tat + emission_interval g * Z.of_nat n - tolerance g <= now.
Proof.
  intros Hg Hnow. revert tat. induction n as [|n IH]; intros tat Hle Hfit.
  - simpl. split; [by left | done].
  - destruct Hg as [Hi Htol]. rewrite Nat2Z.inj_succ in *. cbn [admits_now].
    assert (Hf : fits tat now g) by (unfold fits; nia).
    destruct (gcra_admit (Some tat) now g) as [new|] eqn:Ha.
    + apply gcra_admit_iff in Ha as [-> Ha]; [|done..].
      rewrite IH by nia. split.
      * intros [->|H']; right; nia.
      * intros [?|H']; [done|]. right. nia.
    + apply gcra_admit_None in Ha; [|done..]. split; [done|]. intros [?|H']; [done|nia].
Qed.

(** [remaining] brackets the admissions the bucket really has left at [now]: it is never too
    low, at most one too high, and exact when a whole number of intervals is spent. *)
Theorem remaining_bounds g st now n :
  gcra_ok g -> tolerance g = emission_interval g * burst g -> 0 <= now ->
  clamp_tat st now + emission_interval g * Z.of_nat n < 2 ^ 53 ->
  (admits_now g (clamp_tat st now) now n = true -> Z.of_nat n <= remaining g st now)
  /\ (Z.of_nat n <= remaining g st now - 1 -> admits_now g (clamp_tat st now) now n = true)
  /\ ((clamp_tat st now - now) mod emission_interval g = 0 -> Z.of_nat n <= remaining g st now ->
      admits_now g (clamp_tat st now) now n = true).
Proof.
  intros Hg Hb Hnow Hfit. pose proof (clamp_ge st now) as Hge.
  rewrite !admits_now_iff by done. destruct Hg as [Hi Htol].
  unfold remaining, sat_sub. rewrite (Z.max_l (emission_interval g) 1) by lia.
  set (e := emission_interval g) in *. set (d := clamp_tat st now - now).
  pose proof (Z.div_mod d e ltac:(lia)) as Hd. pose proof (Z.mod_pos_bound d e Hi) as Hm.
  set (q := d / e) in *. set (r := d mod e) in *. rewrite Hb.
  assert (Hq : 0 <= q) by (apply Z.div_pos; lia).
  assert (Hbu : 0 < burst g) by nia.
  split; [|split].
  - intros [->|H']; [lia|].
    assert (Z.of_nat n <= burst g - q) by nia. lia.
  - intros H'. destruct n as [|n']; [by left | right]. assert (Z.of_nat (S n') <= burst g - q - 1) by lia. nia.
  - intros Hr H'. destruct n as [|n']; [by left | right].
    assert (Z.of_nat (S n') <= burst g - q) by lia. nia.
Qed.

Lemma remaining_bounds_witness :
  (admits_now (mkGcra 10 30) 20 10 2 = true -> 2 <= 2)
  /\ (2 <= 2 - 1 -> admits_now (mkGcra 10 30) 20 10 2 = true)
  /\ ((20 - 10) mod 10 = 0 -> 2 <= 2 -> admits_now (mkGcra 10 30) 20 10 2 = true).
Proof.
  apply (remaining_bounds (mkGcra 10 30) (Some 20) 10 2); vm_compute; repeat split; congruence.
Defined.

(** The upper bound is attained: half an interval after its last admission, a bucket with a burst of
    one reports one admission remaining and refuses it. *)
Example remaining_overstates :
  remaining (mkGcra 10 10) (Some 15) 10 = 1 /\ gcra_admit (Some 15) 10 (mkGcra 10 10) = None.
Proof. split; reflexivity. Qed.

(** ** The laws of a store *)

Section Laws.
Context {S : Type} `{Store S}.

(** From [now] on, [key]'s TAT is [new] and no other key has moved. *)
Definition moved (s s' : S) (key : bytes) (new now : Z) : Prop :=
  forall k t, now <= t -> eff s' k t = if decide (k = key) then Z.max new t else eff s k t.
Definition unmoved (s s' : S) (now : Z) : Prop := forall k t, now <= t -> eff s' k t = eff s k t.
End Laws.

(** What a store promises its client: an admission is the GCRA decision on the key's effective TAT,
    a rejection changes nothing, a failure either changed nothing or was an admission whose answer
    was lost; no other key moves. *)
Class StoreLaws (S : Type) `{Store S} : Prop := {
  eff_ge : forall s k t, t <= eff s k t;
  admit_frame : forall s k k' g now t, k' <> k -> now <= t ->
    eff (store_admit s k g now).2 k' t = eff s k' t;
  admit_law : forall s k g now, gcra_ok g -> fits (eff s k now) now g ->
    match store_admit s k g now with
    | (Ok true, s') => exists new, gcra_admit (Some (eff s k now)) now g = Some new /\ moved s s' k new now
    | (Ok false, s') => gcra_admit (Some (eff s k now)) now g = None /\ unmoved s s' now
    | (Err _, s') => unmoved s s' now \/
        exists new, gcra_admit (Some (eff s k now)) now g = Some new /\ moved s s' k new now
    end
}.

#[global] Instance memory_laws : StoreLaws MemoryStore.
Proof.
  split.
  - intros s k t. apply clamp_ge.
  - intros s k k' g now t Hk Ht. simpl. unfold memory_admit.
    destruct (gcra_admit (s !! k) now g); simpl; [|done]. by rewrite lookup_insert_ne.
  - intros s k g now Hg Hf. simpl. rewrite gcra_admit_clamped. unfold memory_admit.
    destruct (gcra_admit (s !! k) now g) as [new|]; [|done].
    exists new. split; [done|]. intros k' t Ht. simpl. rewrite lookup_insert.
    case_decide as E; subst; [by rewrite decide_True | by rewrite decide_False].
Qed.

(** ** The Redis script implements the store *)

Section RedisScript.
Context {K : Type} `{RL : RedisLaws K}.

(** The script's own clamping is [eff]. *)
Lemma lua_tat (s : K) key now :
  match redis_get s now key with
  | None => now
  | Some tat => if tat <? now then now else tat
  end = clamp_tat (redis_get s now key) now.
Proof. unfold clamp_tat. destruct (redis_get s now key); simpl; zcase; lia. Qed.

(** The TTL covers the TAT: when the key has expired, its TAT is in the past anyway. *)
Lemma lua_ttl_covers new now :
  now <= new ->
  let ttl := if - ((- (new - now)) / 1000) <? 1 then 1 else - ((- (new - now)) / 1000) in
  0 < ttl /\ new <= now + 1000 * ttl.
Proof.
  intros Hn. simpl. pose proof (Z.div_mod (- (new - now)) 1000 ltac:(lia)).
  pose proof (Z.mod_pos_bound (- (new - now)) 1000 ltac:(lia)). zcase; lia.
Qed.

Lemma gcra_lua_spec (s : K) key now g :
  gcra_ok g -> fits (clamp_tat (redis_get s now key) now) now g ->
  match gcra_admit (Some (clamp_tat (redis_get s now key) now)) now g with
  | None => gcra_lua s key now (emission_interval g) (tolerance g) = (0, s)
  | Some new => exists s', gcra_lua s key now (emission_interval g) (tolerance g) = (1, s')
      /\ forall k t, now <= t -> clamp_tat (redis_get s' t k) t
         = if decide (k = key) then Z.max new t else clamp_tat (redis_get s t k) t
  end.
Proof.
  intros Hg Hf. unfold gcra_lua. rewrite lua_tat.
  set (tat := clamp_tat (redis_get s now key) now) in *.
  destruct (gcra_admit (Some tat) now g) as [new|] eqn:Ha.
  - apply gcra_admit_iff in Ha as [Hnew Hle]; [|done..]. rewrite <- Hnew.
    destruct (Z.ltb_spec now (new - tolerance g)); [lia|].
    destruct (lua_ttl_covers new now) as [Hpos Hcov].
    { destruct Hg, Hf as (? & ? & ?). lia. }
    eexists. split; [done|]. intros k t Ht. case_decide as E.
    + subst k. rewrite redis_get_set_eq by done. unfold clamp_tat.
      match goal with |- context [t <? ?b] => destruct (Z.ltb_spec t b) end; simpl; lia.
    + by rewrite redis_get_set_ne.
  - apply gcra_admit_None in Ha; [|done..].
    destruct (Z.ltb_spec now (tat + emission_interval g - tolerance g)); [done|lia].
Qed.

Lemma gcra_lua_frame (s : K) k k' now i tol t :
  k' <> k -> now <= t -> redis_get (gcra_lua s k now i tol).2 t k' = redis_get s t k'.
Proof.
  intros Hk Ht. unfold gcra_lua. destruct (now <? _); simpl; [done|]. by rewrite redis_get_set_ne.
Qed.

#[export] Instance redis_laws : StoreLaws (RedisStore K).
Proof.
  split.
  - intros s k t. apply clamp_ge.
  - intros s k k' g now t Hk Ht. simpl. unfold redis_admit.
    pose proof (gcra_lua_frame (rs_kv s) k k' now (emission_interval g) (tolerance g) t Hk Ht).
    destruct (rs_link s); simpl; [|done|]; destruct (gcra_lua _ _ _ _ _); simpl in *; congruence.
  - intros s k g now Hg Hf. pose proof (gcra_lua_spec (rs_kv s) k now g Hg Hf) as Hspec.
    simpl. unfold redis_admit. simpl in Hf.
    destruct (gcra_admit _ now g) as [new|] eqn:Ha.
    + destruct Hspec as (s' & Hlua & Hmv).
      destruct (rs_link s); [|by left|]; rewrite Hlua; simpl; eauto.
    + destruct (rs_link s); [|by left|]; rewrite Hspec; simpl; [done | by left].
Qed.
End RedisScript.

(** A model of the two commands, which shows the laws can hold: each key with its value and the
    time it expires. *)
#[global] Instance kv_redis : RedisKV (gmap bytes (Z * Z)) := {
  redis_get m t k := match m !! k with
                     | Some (v, exp) => if t <? exp then Some v else None
                     | None => None
                     end;
  redis_set_px m now k v ttl := <[k := (v, now + 1000 * ttl)]> m
}.

#[global] Instance kv_redis_laws : RedisLaws (gmap bytes (Z * Z)).
Proof.
  split.
  - intros s now k v ttl t _ _. simpl. by rewrite lookup_insert_eq.
  - intros s now k k' v ttl t Hk _. simpl. by rewrite lookup_insert_ne.
Qed.

(** ** The rate bound *)

Record Req : Type := mkReq { rq_key : bytes; rq_gcra : Gcra; rq_now : Z }.

Section Trace.
Context {S : Type} `{SL : StoreLaws S}.

(** A sequence of admissions against one store, with each one's answer. *)
Fixpoint run (s : S) (reqs : list Req) : list (result bool) :=
  match reqs with
  | [] => []
  | r :: reqs =>
      let '(b, s') := store_admit s (rq_key r) (rq_gcra r) (rq_now r) in b :: run s' reqs
  end.

Fixpoint run_state (s : S) (reqs : list Req) : S :=
  match reqs with
  | [] => s
  | r :: reqs => run_state (store_admit s (rq_key r) (rq_gcra r) (rq_now r)).2 reqs
  end.

Lemma run_app s r1 r2 : run s (r1 ++ r2) = run s r1 ++ run (run_state s r1) r2.
Proof.
  revert s. induction r1 as [|r r1 IH]; intros s; simpl; [done|].
  destruct (store_admit s (rq_key r) (rq_gcra r) (rq_now r)). simpl. by rewrite IH.
Qed.

Lemma length_run s reqs : length (run s reqs) = length reqs.
Proof.
  revert s. induction reqs as [|r reqs IH]; intros s; simpl; [done|].
  destruct (store_admit _ _ _ _). simpl. by rewrite IH.
Qed.

(** Requests for [k] admitted in the window [[a, a + T]]. *)
Definition counted (k : bytes) (a T : Z) (r : Req) (b : result bool) : bool :=
  bool_decide (rq_key r = k) && (a <=? rq_now r) && (rq_now r <=? a + T)
  && match b with Ok true => true | _ => false end.

Fixpoint admitted_in (k : bytes) (a T : Z) (reqs : list Req) (bs : list (result bool)) : Z :=
  match reqs, bs with
  | r :: reqs, b :: bs => (if counted k a T r b then 1 else 0) + admitted_in k a T reqs bs
  | _, _ => 0
  end.

Lemma admitted_in_nonneg k a T rs bs : 0 <= admitted_in k a T rs bs.
Proof.
  revert bs. induction rs as [|r rs IH]; intros [|b bs]; simpl; try lia.
  specialize (IH bs). case_match; lia.
Qed.

Lemma admitted_in_app k a T r1 r2 b1 b2 :
  length r1 = length b1 ->
  admitted_in k a T (r1 ++ r2) (b1 ++ b2) = admitted_in k a T r1 b1 + admitted_in k a T r2 b2.
Proof.
  revert b1. induction r1 as [|r r1 IH]; intros [|b b1] Hl; simpl in *; try lia.
  rewrite IH by lia. lia.
Qed.

(** Times do not decrease along the trace, from [t0] to at most [hi]. *)
Fixpoint ordered (t0 hi : Z) (reqs : list Req) : Prop :=
  match reqs with
  | [] => True
  | r :: reqs => t0 <= rq_now r <= hi /\ ordered (rq_now r) hi reqs
  end.

(** The key's TAT never runs further ahead than [b] (or the present). *)
Definition ahead_by (s : S) (k : bytes) (now b : Z) : Prop :=
  forall t, now <= t -> eff s k t <= Z.max t b.
(** The key's TAT is at least [b]. *)
Definition at_least (s : S) (k : bytes) (now b : Z) : Prop :=
  forall t, now <= t -> b <= eff s k t.

(** The bound's invariant after [n] counted admissions. *)
Definition rate_inv (g : Gcra) (k : bytes) (a hi : Z) (s : S) (now n : Z) : Prop :=
  ahead_by s k now (hi + tolerance g) /\ 0 <= n
  /\ (n = 0 \/ at_least s k now (a + n * emission_interval g)).

Lemma rate_inv_kept g k a hi s s' t0 now n :
  t0 <= now -> (forall t, now <= t -> eff s' k t = eff s k t) ->
  rate_inv g k a hi s t0 n -> rate_inv g k a hi s' now n.
Proof.
  intros Ht Heq (Hah & Hn & Hat). split; [|split; [done|]].
  - intros t Hle. rewrite Heq by done. apply Hah. lia.
  - destruct Hat as [->|Hat]; [by left | right]. intros t Hle. rewrite Heq by done. apply Hat. lia.
Qed.

Lemma rate_inv_moved g k a hi s s' t0 now new n m :
  gcra_ok g -> fits (eff s k now) now g -> t0 <= now <= hi ->
  gcra_admit (Some (eff s k now)) now g = Some new -> moved s s' k new now ->
  rate_inv g k a hi s t0 n -> 0 <= m -> (m = 0 \/ a + m * emission_interval g <= new) ->
  rate_inv g k a hi s' now m.
Proof.
  intros Hg Hf Ht Ha Hmv (Hah & Hn & Hat) Hm Hge.
  apply gcra_admit_iff in Ha as [Hnew Hle]; [|done..]. split; [|split; [done|]].
  - intros t Hl. rewrite Hmv, decide_True by done. lia.
  - destruct Hge as [->|Hge]; [by left | right]. intros t Hl. rewrite Hmv, decide_True by done. lia.
Qed.

(** An admission in the window moves the key's TAT one interval further from its start. *)
Lemma rate_inv_low g k a hi s t0 now n :
  rate_inv g k a hi s t0 n -> t0 <= now -> n = 0 /\ now < a \/ a + n * emission_interval g <= eff s k now.
Proof.
  intros (_ & _ & Hat) Ht. pose proof (eff_ge s k now).
  destruct Hat as [->|Hat]; [destruct (Z.lt_ge_cases now a); [by left | right; lia]|].
  right. by apply Hat.
Qed.

Lemma rate_inv_fits g k a hi s t0 now n :
  gcra_ok g -> 0 <= t0 -> hi + tolerance g + emission_interval g < 2 ^ 53 ->
  rate_inv g k a hi s t0 n -> t0 <= now <= hi -> fits (eff s k now) now g.
Proof.
  intros [Hi Htol] H0 Hhi (Hah & _) Ht. pose proof (eff_ge s k now).
  specialize (Hah now ltac:(lia)). unfold fits. lia.
Qed.

Lemma rate_step g k a T hi s t0 n r b s' :
  gcra_ok g -> 0 <= t0 -> hi + tolerance g + emission_interval g < 2 ^ 53 ->
  (rq_key r = k -> rq_gcra r = g) -> t0 <= rq_now r <= hi ->
  store_admit s (rq_key r) (rq_gcra r) (rq_now r) = (b, s') ->
  rate_inv g k a hi s t0 n ->
  let n' := n + (if counted k a T r b then 1 else 0) in
  rate_inv g k a hi s' (rq_now r) n'
  /\ (counted k a T r b = true -> n' * emission_interval g <= T + tolerance g).
Proof.
  intros Hg H0 Hhi Hgr Ht Ha Hinv. unfold counted.
  destruct (decide (rq_key r = k)) as [Ek|Ek]; last first.
  { rewrite bool_decide_eq_false_2 by done. cbn. rewrite Z.add_0_r. split; [|done].
    apply (rate_inv_kept g k a hi s s' t0); [lia | | done]. intros t Hle.
    pose proof (admit_frame s (rq_key r) k (rq_gcra r) (rq_now r) t (not_eq_sym Ek) Hle) as Hfr.
    by rewrite Ha in Hfr. }
  rewrite (Hgr Ek), Ek in Ha. rewrite bool_decide_eq_true_2 by done. cbn [andb].
  pose proof (rate_inv_fits g k a hi s t0 (rq_now r) n Hg H0 Hhi Hinv Ht) as Hf.
  pose proof (rate_inv_low g k a hi s t0 (rq_now r) n Hinv ltac:(lia)) as Hlow.
  pose proof (admit_law s k g (rq_now r) Hg Hf) as Hlaw. rewrite Ha in Hlaw.
  pose proof (fun new => rate_inv_moved g k a hi s s' t0 (rq_now r) new n) as Hmoved.
  pose proof Hinv as (_ & Hn & _). pose proof Hg as [Hi _].
  assert (Hrest : b <> Ok true -> rate_inv g k a hi s' (rq_now r) n).
  { intros Hb. assert (Hcase : unmoved s s' (rq_now r) \/
      exists new, gcra_admit (Some (eff s k (rq_now r))) (rq_now r) g = Some new
                  /\ moved s s' k new (rq_now r)) by (destruct b as [[|]|]; tauto).
    destruct Hcase as [Hun|(new & Hnew & Hmv)].
    - apply (rate_inv_kept g k a hi s s' t0); [lia | | done]. intros t Hle. by apply Hun.
    - apply (Hmoved new n); try done.
      apply gcra_admit_iff in Hnew as [Hne _]; [|done..]. lia. }
  destruct b as [[|]|].
  2, 3: rewrite andb_false_r; cbn; rewrite Z.add_0_r; split; [by apply Hrest | done].
  destruct Hlaw as (new & Hnew & Hmv). specialize (Hmoved new).
  pose proof Hnew as [Hne Hle]%gcra_admit_iff; [|done..].
  destruct (Z.leb_spec a (rq_now r)), (Z.leb_spec (rq_now r) (a + T)); cbn [andb];
    (split; [apply Hmoved; try done; try lia; nia | try done; intros _; nia]).
Qed.

Lemma run_bound g k a T hi reqs s t0 n :
  gcra_ok g -> 0 <= t0 -> hi + tolerance g + emission_interval g < 2 ^ 53 ->
  Forall (fun r => rq_key r = k -> rq_gcra r = g) reqs ->
  ordered t0 hi reqs -> rate_inv g k a hi s t0 n ->
  admitted_in k a T reqs (run s reqs) = 0 \/
  (n + admitted_in k a T reqs (run s reqs)) * emission_interval g <= T + tolerance g.
Proof.
  intros Hg Ht0 Hhi. revert s t0 n Ht0.
  induction reqs as [|r reqs IH]; intros s t0 n Ht0 Hgs Hord Hinv; [by left|].
  inversion Hgs as [|? ? Hgr Hgs']; subst. destruct Hord as [Hr Hord]. cbn [run].
  destruct (store_admit s (rq_key r) (rq_gcra r) (rq_now r)) as [b s'] eqn:Ha. cbn [admitted_in].
  destruct (rate_step g k a T hi s t0 n r b s') as [Hinv' Hc]; [done..|].
  destruct (IH s' (rq_now r) (n + if counted k a T r b then 1 else 0)) as [Hz|Hb];
    [lia | done.. | |]; destruct (counted k a T r b).
  - right. rewrite Hz. specialize (Hc eq_refl). lia.
  - left. lia.
  - right. lia.
  - right. lia.
Qed.
End Trace.

Lemma count_bound n b T e : 0 < e -> n * e <= T + e * b -> n <= b + T / e.
Proof. intros He Hle. assert (n - b <= T / e) by (apply Z.div_le_lower_bound; lia). lia. Qed.

(** The rate limit holds for every store that keeps the laws: whatever requests for other keys
    are interleaved, and even when the store loses replies, at most [burst + T / interval] requests
    of one key are admitted in any window of [T] microseconds. *)
Theorem gcra_rate_bound (S : Type) `{StoreLaws S} g k a T hi reqs (s : S) t0 :
  gcra_ok g -> tolerance g = emission_interval g * burst g ->
  0 <= t0 -> hi + tolerance g + emission_interval g < 2 ^ 53 ->
  Forall (fun r => rq_key r = k -> rq_gcra r = g) reqs -> ordered t0 hi reqs ->
  ahead_by s k t0 (hi + tolerance g) -> 0 <= T ->
  admitted_in k a T reqs (run s reqs) <= burst g + T / emission_interval g.
Proof.
  intros Hg Hb Ht0 Hhi Hgs Hord Hah HT. pose proof Hg as [Hi Htol].
  pose proof (Z.div_pos T (emission_interval g) HT Hi).
  destruct (run_bound g k a T hi reqs s t0 0) as [->|Hle]; try done.
  { split; [done|]. split; [lia | by left]. }
  - nia.
  - apply count_bound; lia.
Qed.

Lemma gcra_rate_bound_witness :
  admitted_in (lit "k") 0 10
    (map (mkReq (lit "k") (mkGcra 10 20)) [0; 1; 2; 10; 11])
    (run (mkRedisStore (∅ : gmap bytes (Z * Z)) Up)
       (map (mkReq (lit "k") (mkGcra 10 20)) [0; 1; 2; 10; 11])) <= 2 + 10 / 10.
Proof.
  apply (gcra_rate_bound _ (mkGcra 10 20) _ 0 10 100 _ _ 0);
    try (vm_compute; repeat split; congruence).
  - repeat constructor.
  - intros t Ht. change (Z.max t t <= Z.max t 120). lia.
Defined.

(** ** The backends agree *)

Section Agree.
Context {K : Type} `{RL : RedisLaws K}.

Definition sim (m : MemoryStore) (kv : K) (now B : Z) : Prop :=
  forall k t, now <= t -> eff m k t = clamp_tat (redis_get kv t k) t /\ eff m k t <= Z.max t B.

Lemma sim_step m kv t0 B k g now :
  gcra_ok g -> 0 <= t0 <= now -> now + tolerance g <= B -> B + emission_interval g < 2 ^ 53 ->
  sim m kv t0 B ->
  exists b m' kv', store_admit m k g now = (Ok b, m')
    /\ store_admit (mkRedisStore kv Up) k g now = (Ok b, mkRedisStore kv' Up) /\ sim m' kv' now B.
Proof.
  intros Hg Ht HB HB' Hsim. destruct (Hsim k now ltac:(lia)) as [Heq Hle].
  assert (Hf : fits (eff m k now) now g).
  { pose proof (eff_ge m k now). pose proof Hg as [Hi Htol]. unfold fits. lia. }
  pose proof Hf as Hf'. rewrite Heq in Hf'.
  pose proof (gcra_lua_spec kv k now g Hg Hf') as Hlua.
  simpl store_admit. unfold memory_admit, redis_admit. cbn [rs_link rs_kv].
  rewrite <- Heq in Hlua. cbn [eff memory_store] in Hlua. rewrite gcra_admit_clamped in Hlua.
  destruct (gcra_admit (m !! k) now g) as [new|] eqn:Ha.
  - destruct Hlua as (kv' & -> & Hmv). eexists true, _, kv'. split; [done|]. split; [done|].
    intros k' t Hl. rewrite Hmv by done. simpl. rewrite lookup_insert.
    rewrite <- gcra_admit_clamped in Ha. apply gcra_admit_iff in Ha as [_ Hnew]; [|done..].
    case_decide; subst.
    + rewrite decide_True by done. unfold clamp_tat. simpl. lia.
    + rewrite decide_False by done. apply Hsim. lia.
  - rewrite Hlua. eexists false, _, kv. split; [done|]. split; [done|].
    intros k' t Hl. apply Hsim. lia.
Qed.
End Agree.

(** The Redis script and the in-process map answer every sequence of requests alike: the
    script's TTL never drops a TAT that still matters. *)
Theorem backends_agree (K : Type) `{RedisLaws K} (m : MemoryStore) (kv : K) t0 hi B reqs :
  0 <= t0 -> ordered t0 hi reqs ->
  Forall (fun r => gcra_ok (rq_gcra r) /\ hi + tolerance (rq_gcra r) <= B
                   /\ B + emission_interval (rq_gcra r) < 2 ^ 53) reqs ->
  sim m kv t0 B ->
  run m reqs = run (mkRedisStore kv Up) reqs.
Proof.
  revert m kv t0. induction reqs as [|r reqs IH]; intros m kv t0 Ht0 Hord HF Hsim; [done|].
  inversion HF as [|? ? (Hg & HB & HB') HF']; subst. destruct Hord as [Hr Hord].
  destruct (sim_step m kv t0 B (rq_key r) (rq_gcra r) (rq_now r)) as (b & m' & kv' & H1 & H2 & Hs);
    [done | lia | lia | done | done |].
  cbn [run]. rewrite H1, H2. f_equal. apply (IH m' kv' (rq_now r)); [lia | done..].
Qed.

Lemma backends_agree_witness :
  run (∅ : MemoryStore) (map (mkReq (lit "k") (mkGcra 10 20)) [0; 1; 2; 10; 5000])
  = run (mkRedisStore (∅ : gmap bytes (Z * Z)) Up)
      (map (mkReq (lit "k") (mkGcra 10 20)) [0; 1; 2; 10; 5000]).
Proof.
  apply (backends_agree _ _ _ 0 9000 10000).
  - lia.
  - vm_compute. repeat split; congruence.
  - repeat constructor; simpl; lia.
  - intros k t Ht. cbn [eff memory_store redis_get kv_redis]. rewrite !lookup_empty.
    unfold clamp_tat. cbn. lia.
Defined.

(** ** The limiter over the store *)

Section LimiterTrace.
Context {S : Type} `{SL : StoreLaws S}.

Inductive Call : Type :=
| CheckIp (ip : IpAddr) (path : bytes) (now : Z)
| CheckKey (principal : bytes) (now : Z).

Definition do_call (l : DistributedLimiter S) (c : Call) : Admit * DistributedLimiter S :=
  match c with
  | CheckIp ip path now => check_ip_route l ip path now
  | CheckKey p now => check_key l p now
  end.

Fixpoint run_calls (l : DistributedLimiter S) (cs : list Call) : list Admit :=
  match cs with
  | [] => []
  | c :: cs => let '(v, l') := do_call l c in v :: run_calls l' cs
  end.

(** The store request a call makes, if any: it depends on the limits only, not on the store. *)
Definition call_req (l : DistributedLimiter S) (c : Call) : option Req :=
  match c with
  | CheckIp ip path now =>
      Some (match longest_route_gcra l path with
            | Some r => mkReq (route_key l (rg_prefix r) ip) (rg_gcra r) now
            | None => mkReq (ip_key l ip) (global l) now
            end)
  | CheckKey p now =>
      match per_key l with Some g => Some (mkReq (principal_key l p) g now) | None => None end
  end.

Definition reqs_of (l : DistributedLimiter S) (cs : list Call) : list Req := omap (call_req l) cs.

(** Calls of client [ip] under the global limit that were allowed in the window. *)
Definition ip_counted (l : DistributedLimiter S) (ip : IpAddr) (a T : Z) (c : Call) (v : Admit)
    : bool :=
  match c with
  | CheckIp ip' path now =>
      bool_decide (ip' = ip) && (a <=? now) && (now <=? a + T)
      && match longest_route_gcra l path with None => true | Some _ => false end
      && bool_decide (v = Allowed)
  | CheckKey _ _ => false
  end.

Fixpoint ip_allowed_in (l : DistributedLimiter S) ip a T (cs : list Call) (vs : list Admit) : Z :=
  match cs, vs with
  | c :: cs, v :: vs => (if ip_counted l ip a T c v then 1 else 0) + ip_allowed_in l ip a T cs vs
  | _, _ => 0
  end.

(** Keys of different limits never collide: the text after the prefix differs. *)
Lemma route_key_not_ip (l : DistributedLimiter S) p ip ip' : route_key l p ip <> ip_key l ip'.
Proof. unfold route_key, ip_key. intros H'. by apply (inj (key_prefix l ++.)) in H'. Qed.

Lemma principal_key_not_ip (l : DistributedLimiter S) p ip' : principal_key l p <> ip_key l ip'.
Proof. unfold principal_key, ip_key. intros H'. by apply (inj (key_prefix l ++.)) in H'. Qed.

Lemma call_req_ip_key l c r ip :
  call_req l c = Some r -> rq_key r = ip_key l ip -> rq_gcra r = global l.
Proof.
  destruct c as [ip' path now|p now]; simpl.
  - intros [= <-]. destruct (longest_route_gcra l path); simpl; [|done].
    by intros H'%route_key_not_ip.
  - destruct (per_key l); [|done]. intros [= <-]. by intros H'%principal_key_not_ip.
Qed.

Lemma limiter_admit_store l key g now scope :
  let '(v, l') := limiter_admit l key g now scope in
  let '(b, s') := store_admit (store l) key g now in
  l' = set_store l s' /\ (fail_open l = false -> v = Allowed -> b = Ok true).
Proof.
  unfold limiter_admit. destruct (store_admit (store l) key g now) as [b s'].
  split; [done|]. intros Hfo. rewrite Hfo. by destruct b as [[|]|].
Qed.

Lemma do_call_req l c :
  match call_req l c with
  | None => do_call l c = (Allowed, l)
  | Some r => let '(v, l') := do_call l c in
              let '(b, s') := store_admit (store l) (rq_key r) (rq_gcra r) (rq_now r) in
              l' = set_store l s' /\ (fail_open l = false -> v = Allowed -> b = Ok true)
  end.
Proof.
  destruct c as [ip path now|p now]; simpl.
  - unfold check_ip_route. destruct (longest_route_gcra l path); apply limiter_admit_store.
  - unfold check_key. destruct (per_key l); [apply limiter_admit_store | done].
Qed.

Lemma ip_counted_counted l ip a T c v r b :
  call_req l c = Some r -> (v = Allowed -> b = Ok true) ->
  ip_counted l ip a T c v = true -> counted (ip_key l ip) a T r b = true.
Proof.
  destruct c as [ip' path now|p now]; simpl; [|done]. intros [= <-] Hv.
  rewrite !andb_true_iff, !bool_decide_eq_true. intros [[[[-> Ha] Hb] Hr] Hallow].
  destruct (longest_route_gcra l path); [done|]. unfold counted. simpl.
  by rewrite bool_decide_eq_true_2, Ha, Hb, (Hv Hallow).
Qed.

Lemma ip_allowed_set l s ip a T cs vs :
  ip_allowed_in (set_store l s) ip a T cs vs = ip_allowed_in l ip a T cs vs.
Proof.
  revert vs. induction cs as [|c cs IH]; intros [|v vs]; simpl; try done. by rewrite IH.
Qed.

Lemma ip_allowed_le l ip a T cs :
  fail_open l = false ->
  ip_allowed_in l ip a T cs (run_calls l cs)
  <= admitted_in (ip_key l ip) a T (reqs_of l cs) (run (store l) (reqs_of l cs)).
Proof.
  revert l. induction cs as [|c cs IH]; intros l Hfo; [by simpl|].
  cbn [run_calls]. pose proof (do_call_req l c) as Hdo.
  unfold reqs_of. cbn [omap list_omap]. fold (reqs_of l cs).
  destruct (call_req l c) as [r|] eqn:Hr.
  - destruct (do_call l c) as [v l']. cbn [run].
    destruct (store_admit (store l) (rq_key r) (rq_gcra r) (rq_now r)) as [b s'].
    destruct Hdo as [-> Hv]. cbn [ip_allowed_in admitted_in].
    specialize (IH (set_store l s') Hfo).
    change (reqs_of (set_store l s') cs) with (reqs_of l cs) in IH.
    change (store (set_store l s')) with s' in IH.
    change (ip_key (set_store l s') ip) with (ip_key l ip) in IH.
    rewrite ip_allowed_set in IH.
    destruct (ip_counted l ip a T c v) eqn:Hc.
    + rewrite (ip_counted_counted l ip a T c v r b Hr (Hv Hfo) Hc). lia.
    + case_match; lia.
  - rewrite Hdo. cbn [ip_allowed_in]. specialize (IH l Hfo).
    assert (Hc : ip_counted l ip a T c Allowed = false).
    { destruct c; simpl in *; [discriminate | done]. }
    rewrite Hc. lia.
Qed.
End LimiterTrace.

(** C40.  The limiter over any lawful store, failing closed: the requests of one client IP that match
    no route override and are answered [Allowed] stay within the global limit in every window,
    whatever other clients, routes and principals do in between. *)
Theorem limiter_ip_bound (S : Type) `{StoreLaws S} (l : DistributedLimiter S) ip a T hi t0 cs :
  fail_open l = false -> gcra_ok (global l) ->
  tolerance (global l) = emission_interval (global l) * burst (global l) ->
  0 <= t0 -> hi + tolerance (global l) + emission_interval (global l) < 2 ^ 53 ->
  ordered t0 hi (reqs_of l cs) ->
  ahead_by (store l) (ip_key l ip) t0 (hi + tolerance (global l)) -> 0 <= T ->
  ip_allowed_in l ip a T cs (run_calls l cs)
  <= burst (global l) + T / emission_interval (global l).
Proof.
  intros Hfo Hg Hb Ht0 Hhi Hord Hah HT.
  etransitivity; [by apply ip_allowed_le|].
  assert (Hrun := run_bound (global l) (ip_key l ip) a T hi (reqs_of l cs) (store l) t0 0).
  destruct Hrun as [->|Hle]; try done.
  - apply Forall_forall. intros r Hr. apply list_elem_of_omap in Hr as (c & _ & Hc).
    by apply (call_req_ip_key l c).
  - split; [done|]. split; [lia | by left].
  - pose proof Hg as [Hi Htol]. pose proof (Z.div_pos T _ HT Hi). nia.
  - pose proof Hg as [Hi _]. apply count_bound; lia.
Qed.

Lemma limiter_ip_bound_witness :
  let l := mkLimiter (∅ : MemoryStore) (lit "eg") false (mkGcra 10 20) [] None in
  let cs := [CheckIp (V4 1) (lit "/") 0; CheckIp (V4 2) (lit "/") 1; CheckIp (V4 1) (lit "/") 2] in
  ip_allowed_in l (V4 1) 0 5 cs (run_calls l cs) <= 2 + 5 / 10.
Proof.
  intros l cs. apply (limiter_ip_bound _ l (V4 1) 0 5 100 0 cs);
    try (vm_compute; repeat split; congruence).
  intros t Ht. change (Z.max t t <= Z.max t 120). lia.
Defined.
