(* ===== verification/AcmeBudget.v ===== *)
(** * AcmeBudget: the ACME issuance ledger ([src/src/acme_budget.rs]) and the decision to send an
    order ([check_budget] of [src/src/acme.rs])

    The ledger keeps one GCRA bucket per CA limit and key on disk.  The main theorem composes
    [check_budget] over restarts: the orders sent for one identifier set stay within the CA's
    published limit in every window. *)

From S2P Require Import Prelude Text Net Units Limiter.

Inductive Bucket : Type := Orders | RegisteredDomain | IdentifierSet.

#[global] Instance Bucket_eq_dec : EqDecision Bucket.
Proof. solve_decision. Defined.

Definition label (b : Bucket) : bytes :=
  match b with
  | Orders => lit "orders"
  | RegisteredDomain => lit "registered_domain"
  | IdentifierSet => lit "identifier_set"
  end.

Inductive Decision : Type := Allow | Defer (bucket : Bucket) (retry_at_unix : Z).

Record CaProfile : Type := mkCaProfile {
  name : bytes; orders : Gcra; registered_domain : Gcra; identifier_set : Gcra
}.

Definition lets_encrypt : result CaProfile :=
  let? o := from_parts 300 (from_secs (3 * 3600)) 300 in
  let? r := from_parts 50 (from_secs (7 * 86400)) 50 in
  let? i := from_parts 5 (from_secs (7 * 86400)) 5 in
  Ok (mkCaProfile (lit "letsencrypt") o r i).

(** [url.split_once("://").map(|(_, r)| r).unwrap_or(url)]. *)
Fixpoint after_scheme (s : bytes) : option bytes :=
  match strip_prefix (lit "://") s with
  | Some r => Some r
  | None => match s with [] => None | _ :: s => after_scheme s end
  end.

Definition for_directory (url : bytes) : option CaProfile :=
  let host := before_first 47 (default url (after_scheme url)) in
  if ends_with host (lit "letsencrypt.org") then rok lets_encrypt else None.

Definition gcra (p : CaProfile) (b : Bucket) : Gcra :=
  match b with
  | Orders => orders p
  | RegisteredDomain => registered_domain p
  | IdentifierSet => identifier_set p
  end.

(** [s.trim().trim_end_matches('.').to_ascii_lowercase()]. *)
Definition normal_host (host : bytes) : bytes :=
  to_ascii_lowercase (trim_end_matches 46 (trim host)).

Definition group_key (host : bytes) : bytes :=
  let h := normal_host host in
  if beq h [] || (match parse_ip h with Some _ => true | None => false end) then h
  else
    let labels := split_on 46 h in
    if (length labels <=? 2)%nat then h
    else join [46] (drop (length labels - 2) labels).

Definition identifier_set_key (domains : list bytes) : bytes :=
  join [44] (dedup (sort_bytes (List.filter (fun s => negb (beq s [])) (map normal_host domains)))).

(** The ledger in memory; its file holds the same map. *)
Record IssuanceBudget : Type := mkBudget { profile : CaProfile; tats : gmap bytes Z }.

(** [load]: an absent or unparseable file is an empty ledger. *)
Definition load (directory_url : bytes) (file : option (gmap bytes Z)) : option IssuanceBudget :=
  match for_directory directory_url with
  | Some p => Some (mkBudget p (default ∅ file))
  | None => None
  end.

Definition key (b : Bucket) (k : bytes) : bytes := label b ++ lit ":" ++ k.

Definition keys_for (domains : list bytes) : list (Bucket * bytes) :=
  [(Orders, lit "account"); (IdentifierSet, identifier_set_key domains)]
  ++ map (fun g => (RegisteredDomain, g)) (dedup (sort_bytes (map group_key domains))).

(** [(now_unix.max(0) as u64).saturating_mul(1_000_000)]. *)
Definition to_micros (now_unix : Z) : Z := sat_mul 64 (Z.max now_unix 0) 1000000.

Fixpoint check_go (b : IssuanceBudget) (now_us : Z) (ks : list (Bucket * bytes)) : Decision :=
  match ks with
  | [] => Allow
  | (bucket, k) :: ks =>
      let g := gcra (profile b) bucket in
      let stored := tats b !! key bucket k in
      match gcra_admit stored now_us g with
      | None => Defer bucket (as_i64 (next_admit_at g stored now_us / 1000000))
      | Some _ => check_go b now_us ks
      end
  end.

Definition check (b : IssuanceBudget) (domains : list bytes) (now_unix : Z) : Decision :=
  check_go b (to_micros now_unix) (keys_for domains).

Definition debit_one (p : CaProfile) (now_us : Z) (m : gmap bytes Z) (bk : Bucket * bytes)
    : gmap bytes Z :=
  let '(bucket, k) := bk in
  match gcra_admit (m !! key bucket k) now_us (gcra p bucket) with
  | Some new_tat => <[key bucket k := new_tat]> m
  | None => m
  end.

(** [debit]: the ledger after it, and the file after [persist] (unchanged if writing it fails). *)
Definition debit (b : IssuanceBudget) (domains : list bytes) (now_unix : Z) (persist_ok : bool)
    (file : option (gmap bytes Z)) : result unit * IssuanceBudget * option (gmap bytes Z) :=
  let m := fold_left (debit_one (profile b) (to_micros now_unix)) (keys_for domains) (tats b) in
  if persist_ok then (Ok tt, mkBudget (profile b) m, Some m)
  else (Err "writing the issuance ledger", mkBudget (profile b) m, file).

Definition remaining_for (b : IssuanceBudget) (domains : list bytes) (now_unix : Z)
    : list (Bucket * bytes * Z) :=
  map (fun bk => let '(bucket, k) := bk in
         (bucket, k, remaining (gcra (profile b) bucket) (tats b !! key bucket k)
                       (to_micros now_unix))) (keys_for domains).

Definition limit (b : IssuanceBudget) (bucket : Bucket) : Z := burst (gcra (profile b) bucket).

(** FNV-1a over the bytes, and its 16 hex digits. *)
Definition fnv1a (s : bytes) : Z :=
  fold_left (fun h b => wrap 64 (Z.lxor h b * 1099511628211)) s 14695981039346656037.

Fixpoint hex_padded (n : nat) (z : Z) : bytes :=
  match n with O => [] | S n => hex_padded n (z / 16) ++ [hex_digit (z mod 16)] end.

Definition short_hash (s : bytes) : bytes := hex_padded 16 (fnv1a s).

(** [s.replace('\\', "\\\\").replace('"', "\\\"")] in one pass: neither replacement makes new text
    the other one would replace. *)
Definition escape_label (s : bytes) : bytes :=
  flat_map (fun c => if c =? 92 then [92; 92] else if c =? 34 then [92; 34] else [c]) s.

(** ** The decision to send an order *)

Inductive LeaseVerdict : Type :=
| Granted (lease_id : bytes)
| LeaseDeferred (bucket key : bytes) (retry_at_unix : Z)
| Unmanaged.

Inductive DeferSource : Type := Fleet | LocalLedger.

Inductive Issuance : Type := Issued | Deferred (bucket key : bytes) (retry_at_unix : Z) (source : DeferSource).

Record AcmeCfg : Type := mkAcmeCfg {
  directory_url : bytes; domains : list bytes; budget_enabled : bool
}.

Inductive BudgetVerdict : Type :=
| SendOrder (lease : option bytes)
| Refuse (i : Issuance).

(** [check_budget]: the control plane's answer ([None] when there is no client), the clock at the
    check and at the debit, whether the ledger could be written, and the ledger's file before and
    after. *)
Definition check_budget (acme : AcmeCfg) (cp : option (result LeaseVerdict)) (now now' : Z)
    (persist_ok : bool) (file : option (gmap bytes Z)) : BudgetVerdict * option (gmap bytes Z) :=
  let local :=
    if negb (budget_enabled acme) then (SendOrder None, file)
    else
      match load (directory_url acme) file with
      | None => (SendOrder None, file)
      | Some b =>
          match check b (domains acme) now with
          | Defer bucket retry_at_unix =>
              (Refuse (Deferred (label bucket) [] retry_at_unix LocalLedger), file)
          | Allow =>
              let '(_, _, file') := debit b (domains acme) now' persist_ok file in
              (SendOrder None, file')
          end
      end in
  match cp with
  | Some (Ok (Granted lease_id)) => (SendOrder (Some lease_id), file)
  | Some (Ok (LeaseDeferred bucket key retry_at_unix)) =>
      (Refuse (Deferred bucket key retry_at_unix Fleet), file)
  | Some (Ok Unmanaged) | Some (Err _) | None => local
  end.

(** ** Keys *)

(** The identifier-set bucket depends on the set of names only: writing the same domains in
    another order, with repeats, other case, surrounding space or trailing dots is the same key. *)
Theorem identifier_set_key_set d1 d2 :
  (forall h, h <> [] -> h ∈ map normal_host d1 <-> h ∈ map normal_host d2) ->
  identifier_set_key d1 = identifier_set_key d2.
Proof.
  intros Heq. unfold identifier_set_key. f_equal. apply sort_dedup_set. intros h.
  rewrite !list_elem_of_In, !filter_In, <- !list_elem_of_In.
  destruct (decide (h = [])) as [->|Hne]; [by rewrite beq_refl; naive_solver|].
  rewrite (Heq h Hne). done.
Qed.

Lemma identifier_set_key_set_witness :
  identifier_set_key [lit "A.example.com"; lit "b.example.com"]
  = identifier_set_key [lit "b.example.com."; lit " a.example.com"; lit "B.example.com"].
Proof.
  apply identifier_set_key_set. intros h _. vm_compute. set_solver.
Defined.

Lemma NoDup_keys_for domains : NoDup (keys_for domains).
Proof.
  unfold keys_for. apply NoDup_app. split; [|split].
  - apply NoDup_cons. split; [set_solver|]. apply NoDup_singleton.
  - intros [b k] Hin (g & [= -> ->] & _)%list_elem_of_fmap. set_solver.
  - apply NoDup_fmap_2; [intros x y [= ->]; done|].
    apply sorted_lt_NoDup, dedup_sorted, sort_bytes_sorted.
Qed.

Lemma key_inj b k b' k' : key b k = key b' k' -> (b, k) = (b', k').
Proof.
  unfold key. destruct b, b'; cbn; intros [=]; subst; done.
Qed.

(** ** The CA's limit is never exceeded *)

(** Let's Encrypt's limits in microseconds: 1 per 36 s up to 300, 1 per 3.36 h up to 50, 1 per
    33.6 h up to 5. *)
Definition le_profile : CaProfile :=
  mkCaProfile (lit "letsencrypt") (mkGcra 36000000 10800000000)
    (mkGcra 12096000000 604800000000) (mkGcra 120960000000 604800000000).

Lemma for_directory_le url p : for_directory url = Some p -> p = le_profile.
Proof.
  unfold for_directory. destruct (ends_with _ _); [|done].
  assert (Hle : rok lets_encrypt = Some le_profile) by (vm_compute; reflexivity).
  rewrite Hle. by intros [= <-].
Qed.

Lemma le_gcra_ok b : gcra_ok (gcra le_profile b).
Proof. destruct b; split; simpl; lia. Qed.

Lemma le_gcra_bounds b :
  tolerance (gcra le_profile b) <= 604800000000 /\ emission_interval (gcra le_profile b) <= 120960000000.
Proof. destruct b; simpl; lia. Qed.

Definition req_of (now_us : Z) (bk : Bucket * bytes) : Req :=
  mkReq (key bk.1 bk.2) (gcra le_profile bk.1) now_us.

(** Debiting is running the store's admissions. *)
Lemma debit_run_state (now_us : Z) (ks : list (Bucket * bytes)) (m : gmap bytes Z) :
  fold_left (debit_one le_profile now_us) ks m = run_state m (map (req_of now_us) ks).
Proof.
  revert m. induction ks as [|[b k] ks IH]; intros m; simpl; [done|]. rewrite IH. f_equal.
  unfold memory_admit. by destruct (gcra_admit (m !! key b k) now_us (gcra le_profile b)).
Qed.

(** Distinct keys: each bucket is asked about the ledger as it was. *)
Lemma run_all_admitted (now_us : Z) (ks : list (Bucket * bytes)) (m : gmap bytes Z) :
  NoDup ks ->
  Forall (fun bk => exists new, gcra_admit (m !! key bk.1 bk.2) now_us (gcra le_profile bk.1) = Some new) ks ->
  run m (map (req_of now_us) ks) = replicate (length ks) (Ok true).
Proof.
  intros Hnd. revert m. induction Hnd as [|[b k] ks Hin Hnd IH]; intros m HF; [done|].
  inversion HF as [|? ? [new Hnew] HF']; subst. simpl in *. unfold memory_admit. rewrite Hnew. f_equal.
  apply IH. rewrite Forall_forall in HF' |- *. intros [b' k'] Hin'. simpl.
  rewrite lookup_insert_ne; [by apply (HF' (b', k'))|].
  intros Heq%key_inj. simplify_eq. contradiction.
Qed.

Lemma check_go_allow b now_us ks :
  check_go b now_us ks = Allow ->
  Forall (fun bk => exists new, gcra_admit (tats b !! key bk.1 bk.2) now_us (gcra (profile b) bk.1) = Some new) ks.
Proof.
  induction ks as [|[bk k] ks IH]; simpl; [constructor|].
  destruct (gcra_admit _ _ _) eqn:Ha; [|done]. intros H. constructor; [by eexists | by apply IH].
Qed.

(** No bucket's TAT runs further ahead than [B]. *)
Definition ledger_ok (m : gmap bytes Z) (now B : Z) : Prop := forall k, ahead_by m k now B.

Lemma ledger_ok_later (m : gmap bytes Z) (now now' B : Z) : now <= now' -> ledger_ok m now B -> ledger_ok m now' B.
Proof. intros Hn Hm k t Ht. apply Hm. lia. Qed.

Lemma ledger_ok_run (m : gmap bytes Z) (t0 now : Z) (ks : list (Bucket * bytes)) (B : Z) :
  0 <= t0 <= now -> now + 604800000000 <= B -> B + 120960000000 < 2 ^ 53 ->
  ledger_ok m t0 B -> ledger_ok (run_state m (map (req_of now) ks)) now B.
Proof.
  intros Ht HB HB' Hm. assert (Hm' : ledger_ok m now B) by (apply (ledger_ok_later m t0); [lia | done]).
  clear Hm. revert m Hm'. induction ks as [|[b k] ks IH]; intros m Hm; simpl; [done|].
  apply IH. pose proof (le_gcra_ok b) as Hg. pose proof (le_gcra_bounds b) as [Hb1 Hb2].
  intros k' t Hle. unfold memory_admit. specialize (Hm k now ltac:(lia)) as Hk.
  destruct (gcra_admit (m !! key b k) now (gcra le_profile b)) as [new|] eqn:Ha; [|by apply Hm].
  simpl. rewrite lookup_insert. case_decide; [|by apply Hm].
  rewrite <- gcra_admit_clamped in Ha. specialize (Hm (key b k) now ltac:(lia)) as Hf.
  simpl in Hf. apply gcra_admit_iff in Ha as [_ Ha]; [|done|].
  - unfold clamp_tat. simpl. lia.
  - pose proof (clamp_ge (m !! key b k) now). unfold fits. lia.
Qed.

(** One call of [check_budget] whose ledger is the authority: the ledger is enabled, the CA is
    known and the control plane did not decide. *)
Record Attempt : Type := mkAttempt {
  at_acme : AcmeCfg; at_cp : option (result LeaseVerdict); at_now : Z; at_now' : Z
}.

Definition ledger_decides (a : Attempt) : bool :=
  budget_enabled (at_acme a)
  && match for_directory (directory_url (at_acme a)) with Some _ => true | None => false end
  && match at_cp a with Some (Ok Unmanaged) | Some (Err _) | None => true | _ => false end.

Definition attempt (a : Attempt) (file : option (gmap bytes Z))
    : BudgetVerdict * option (gmap bytes Z) :=
  check_budget (at_acme a) (at_cp a) (at_now a) (at_now' a) true file.

(** Every restart reloads the file the previous attempt left. *)
Fixpoint attempts (l : list Attempt) (file : option (gmap bytes Z)) : list BudgetVerdict :=
  match l with
  | [] => []
  | a :: l => let '(v, file') := attempt a file in v :: attempts l file'
  end.

Definition order_counted (K : bytes) (lo T : Z) (a : Attempt) (v : BudgetVerdict) : bool :=
  ledger_decides a && bool_decide (identifier_set_key (domains (at_acme a)) = K)
  && (lo <=? to_micros (at_now' a)) && (to_micros (at_now' a) <=? lo + T)
  && match v with SendOrder _ => true | Refuse _ => false end.

Fixpoint orders_in (K : bytes) (lo T : Z) (l : list Attempt) (vs : list BudgetVerdict) : Z :=
  match l, vs with
  | a :: l, v :: vs => (if order_counted K lo T a v then 1 else 0) + orders_in K lo T l vs
  | _, _ => 0
  end.

Fixpoint clock_ordered (t0 hi : Z) (l : list Attempt) : Prop :=
  match l with
  | [] => True
  | a :: l => t0 <= at_now a <= at_now' a /\ at_now' a <= hi /\ clock_ordered (at_now' a) hi l
  end.

(** The store requests an attempt makes. *)
Definition attempt_reqs (a : Attempt) (file : option (gmap bytes Z)) : list Req :=
  if ledger_decides a then
    match check (mkBudget le_profile (default ∅ file)) (domains (at_acme a)) (at_now a) with
    | Allow => map (req_of (to_micros (at_now' a))) (keys_for (domains (at_acme a)))
    | Defer _ _ => []
    end
  else [].

Fixpoint all_reqs (l : list Attempt) (file : option (gmap bytes Z)) : list Req :=
  match l with
  | [] => []
  | a :: l => attempt_reqs a file ++ all_reqs l (attempt a file).2
  end.

Lemma debit_le (m : gmap bytes Z) (ds : list bytes) (now : Z) (file : option (gmap bytes Z)) :
  let m' := run_state m (map (req_of (to_micros now)) (keys_for ds)) in
  debit (mkBudget le_profile m) ds now true file = (Ok tt, mkBudget le_profile m', Some m').
Proof. unfold debit. cbn [profile tats]. by rewrite debit_run_state. Qed.

Lemma ledger_decides_inv (a : Attempt) (file : option (gmap bytes Z)) :
  match ledger_decides a with
  | true => attempt a file =
      match check (mkBudget le_profile (default ∅ file)) (domains (at_acme a)) (at_now a) with
      | Allow => (SendOrder None, Some (run_state (default ∅ file)
                    (map (req_of (to_micros (at_now' a))) (keys_for (domains (at_acme a))))))
      | Defer b r => (Refuse (Deferred (label b) [] r LocalLedger), file)
      end
  | false => (attempt a file).2 = file
  end.
Proof.
  unfold attempt, ledger_decides, check_budget, load.
  destruct (budget_enabled (at_acme a)); cbn [negb andb].
  - destruct (for_directory (directory_url (at_acme a))) as [p|] eqn:Hp; cbn [andb].
    + apply for_directory_le in Hp as ->. rewrite debit_le.
      by destruct (at_cp a) as [[[]|]|].
    + by destruct (at_cp a) as [[[]|]|].
  - by destruct (at_cp a) as [[[]|]|].
Qed.

Lemma attempt_file (a : Attempt) (file : option (gmap bytes Z)) :
  default ∅ (attempt a file).2 = run_state (default ∅ file) (attempt_reqs a file).
Proof.
  pose proof (ledger_decides_inv a file) as H. unfold attempt_reqs.
  destruct (ledger_decides a); [|by rewrite H]. rewrite H. by destruct (check _ _ _).
Qed.

Lemma to_micros_mono t t' : t <= t' -> to_micros t <= to_micros t'.
Proof. unfold to_micros, sat_mul. lia. Qed.

Lemma to_micros_nonneg t : 0 <= to_micros t.
Proof. unfold to_micros, sat_mul. lia. Qed.

(** An order sent under the ledger was admitted by every bucket. *)
Lemma attempt_admitted (a : Attempt) (file : option (gmap bytes Z)) (t0 B : Z) :
  t0 <= at_now a <= at_now' a -> ledger_ok (default ∅ file) (to_micros t0) B ->
  to_micros (at_now' a) + 604800000000 <= B -> B + 120960000000 < 2 ^ 53 ->
  run (default ∅ file) (attempt_reqs a file) = replicate (length (attempt_reqs a file)) (Ok true).
Proof.
  intros Ht Hm HB HB'. unfold attempt_reqs. destruct (ledger_decides a); [|done].
  destruct (check _ _ _) eqn:Hc; [|done]. rewrite length_map.
  apply run_all_admitted; [apply NoDup_keys_for|]. apply check_go_allow in Hc. simpl in Hc.
  eapply Forall_impl; [exact Hc|]. intros [b k] [new Hnew]. simpl in *.
  pose proof (le_gcra_ok b) as Hg. pose proof (le_gcra_bounds b) as [Hb1 Hb2].
  pose proof (to_micros_nonneg (at_now a)). pose proof (to_micros_mono (at_now a) (at_now' a) ltac:(lia)).
  pose proof (to_micros_mono t0 (at_now a) ltac:(lia)).
  apply (gcra_admit_later _ _ (to_micros (at_now a)) _ new); try done.
  specialize (Hm (key b k) (to_micros (at_now' a)) ltac:(lia)). simpl in Hm.
  pose proof (clamp_ge (default ∅ file !! key b k) (to_micros (at_now' a))). unfold fits. lia.
Qed.

Lemma admitted_in_all (K : bytes) (lo T : Z) (rs : list Req) :
  admitted_in K lo T rs (replicate (length rs) (Ok true))
  >= if existsb (fun r => counted K lo T r (Ok true)) rs then 1 else 0.
Proof.
  induction rs as [|r rs IH]; simpl; [lia|].
  pose proof (admitted_in_nonneg K lo T rs (replicate (length rs) (Ok true))).
  destruct (counted K lo T r (Ok true)); simpl; [lia|]. exact IH.
Qed.

Lemma order_counted_req (K : bytes) (lo T : Z) (a : Attempt) (file : option (gmap bytes Z)) :
  order_counted K lo T a (attempt a file).1 = true ->
  existsb (fun r => counted (key IdentifierSet K) lo T r (Ok true)) (attempt_reqs a file) = true.
Proof.
  unfold order_counted. rewrite !andb_true_iff, bool_decide_eq_true. intros [[[[Hd HK] Hlo] Hhi] Hv].
  pose proof (ledger_decides_inv a file) as Hat. unfold attempt_reqs. rewrite Hd in *.
  rewrite Hat in Hv. destruct (check _ _ _); [|done].
  apply existsb_exists. exists (req_of (to_micros (at_now' a)) (IdentifierSet, K)). split.
  - apply in_map. rewrite <- HK. right. by left.
  - unfold counted, req_of. cbn [rq_key rq_now fst snd]. by rewrite bool_decide_eq_true_2, Hlo, Hhi.
Qed.

Lemma orders_le_admitted (K : bytes) (lo T hi B : Z) (l : list Attempt) :
  forall (file : option (gmap bytes Z)) (t0 : Z),
  clock_ordered t0 hi l -> ledger_ok (default ∅ file) (to_micros t0) B ->
  to_micros hi + 604800000000 <= B -> B + 120960000000 < 2 ^ 53 ->
  orders_in K lo T l (attempts l file)
  <= admitted_in (key IdentifierSet K) lo T (all_reqs l file) (run (default ∅ file) (all_reqs l file)).
Proof.
  induction l as [|a l IH]; intros file t0 Hord Hm HB HB'; [done|].
  destruct Hord as (Ht & Hhi & Hord). cbn [attempts all_reqs].
  pose proof (to_micros_mono (at_now' a) hi Hhi) as Hmh.
  pose proof (attempt_admitted a file t0 B Ht Hm ltac:(lia) HB') as Hadm.
  rewrite run_app, admitted_in_app by (by rewrite length_run).
  pose proof (admitted_in_all (key IdentifierSet K) lo T (attempt_reqs a file)) as Hall.
  rewrite <- Hadm in Hall. pose proof (order_counted_req K lo T a file) as Hoc.
  pose proof (attempt_file a file) as Hfile.
  destruct (attempt a file) as [v file']. cbn [orders_in fst snd] in *. rewrite <- Hfile.
  assert (Hm' : ledger_ok (default ∅ file') (to_micros (at_now' a)) B).
  { rewrite Hfile. unfold attempt_reqs. pose proof (to_micros_nonneg t0).
    pose proof (to_micros_mono t0 (at_now' a) ltac:(lia)).
    assert (Hsame : ledger_ok (default ∅ file) (to_micros (at_now' a)) B)
      by (by apply (ledger_ok_later _ (to_micros t0))).
    destruct (ledger_decides a); [|exact Hsame]. destruct (check _ _ _); [|exact Hsame].
    apply (ledger_ok_run _ (to_micros t0)); [lia | lia | done | done]. }
  specialize (IH file' (at_now' a) Hord Hm' HB HB').
  destruct (order_counted K lo T a v); [rewrite (Hoc eq_refl) in Hall; lia|].
  pose proof (admitted_in_nonneg (key IdentifierSet K) lo T (attempt_reqs a file)
    (run (default ∅ file) (attempt_reqs a file))). lia.
Qed.

Lemma all_reqs_ordered (l : list Attempt) :
  forall (file : option (gmap bytes Z)) (t0 hi : Z),
  clock_ordered t0 hi l -> ordered (to_micros t0) (to_micros hi) (all_reqs l file).
Proof.
  assert (Hcat : forall u (ks : list (Bucket * bytes)) t h rest,
    t <= u <= h -> ordered u h rest -> ordered t h (map (req_of u) ks ++ rest) \/
    (ks = [] /\ ordered u h rest)).
  { intros u ks. induction ks as [|bk ks IHk]; intros t h rest Ht Hr; [by right|]. left. simpl.
    split; [done|]. destruct (IHk u h rest ltac:(lia) Hr) as [?|[-> ?]]; done. }
  assert (Hweak : forall rs t u h, t <= u -> ordered u h rs -> ordered t h rs).
  { intros [|r rs] t u h Ht; simpl; [done|]. intros [? ?]. split; [lia | done]. }
  induction l as [|a l IH]; intros file t0 hi Hord; [done|]. destruct Hord as (Ht & Hhi & Hord).
  cbn [all_reqs]. specialize (IH (attempt a file).2 (at_now' a) hi Hord).
  pose proof (to_micros_mono t0 (at_now' a) ltac:(lia)). pose proof (to_micros_mono _ _ Hhi).
  unfold attempt_reqs. destruct (ledger_decides a); [destruct (check _ _ _)|];
    try (by apply (Hweak _ _ (to_micros (at_now' a)))).
  destruct (Hcat (to_micros (at_now' a)) (keys_for (domains (at_acme a))) (to_micros t0)
    (to_micros hi) (all_reqs l (attempt a file).2)) as [?|[Hk _]]; [lia | done | done | done].
Qed.

(** Whatever a crash-restart loop does, the orders [check_budget] lets through for one identifier
    set under this edge's own ledger stay within the CA's limit (5 per 7 days, refilling one per
    33.6 hours) in every window, as long as the ledger file can be written. *)
Theorem acme_orders_bound (K : bytes) (lo T hi t0 : Z) (l : list Attempt) (file : option (gmap bytes Z)) :
  clock_ordered t0 hi l -> 0 <= t0 -> 0 <= T ->
  ledger_ok (default ∅ file) (to_micros t0) (to_micros hi + 604800000000) ->
  to_micros hi + 604800000000 + 120960000000 < 2 ^ 53 ->
  orders_in K lo T l (attempts l file) <= 5 + T / 120960000000.
Proof.
  intros Hord Ht0 HT Hm HB.
  etransitivity; [apply (orders_le_admitted K lo T hi _ l file t0 Hord Hm); lia|].
  pose proof (run_bound (gcra le_profile IdentifierSet) (key IdentifierSet K) lo T (to_micros hi)
    (all_reqs l file) (default ∅ file) (to_micros t0) 0 (le_gcra_ok IdentifierSet)
    (to_micros_nonneg t0)) as Hrun.
  pose proof (Z.div_pos T 120960000000 HT ltac:(lia)).
  destruct Hrun as [->|Hle]; simpl in *; try lia.
  - clear -l. generalize file. induction l as [|a l IH]; intros f; [constructor|].
    cbn [all_reqs]. apply Forall_app. split; [|apply IH]. unfold attempt_reqs.
    destruct (ledger_decides a); [|constructor]. destruct (check _ _ _); [|constructor].
    apply Forall_forall. intros r (bk & -> & _)%list_elem_of_fmap. unfold req_of.
    cbn [rq_key rq_gcra]. intros [= -> _]%key_inj. done.
  - by apply all_reqs_ordered.
  - split; [apply Hm|]. split; [lia | by left].
  - apply (count_bound _ 5 T 120960000000); lia.
Qed.

Lemma acme_orders_bound_witness :
  let acme := mkAcmeCfg (lit "https://acme-v02.api.letsencrypt.org/directory")
                [lit "a.example.com"] true in
  let l := map (fun t => mkAttempt acme None t t) [100; 101; 102; 103; 104; 105; 106] in
  orders_in (lit "a.example.com") 0 200000000 l (attempts l None) <= 5 + 200000000 / 120960000000.
Proof.
  intros acme l. apply (acme_orders_bound _ 0 200000000 1000 0 l None).
  - vm_compute. repeat split; congruence.
  - lia.
  - lia.
  - intros k t Ht. cbn [eff memory_store default from_option]. rewrite lookup_empty.
    unfold clamp_tat. cbn. lia.
  - vm_compute. reflexivity.
Defined.

(** The ledger really fills up: the sixth order of a restart loop is deferred. *)
Example restart_loop_is_deferred :
  let acme := mkAcmeCfg (lit "https://acme-v02.api.letsencrypt.org/directory")
                [lit "a.example.com"] true in
  attempts (map (fun t => mkAttempt acme None t t) [100; 101; 102; 103; 104; 105]) None
  = replicate 5 (SendOrder None)
    ++ [Refuse (Deferred (lit "identifier_set") [] 121060 LocalLedger)].
Proof. vm_compute. reflexivity. Qed.

(** ** The retry time *)

(** Every TAT is a whole number of seconds: orders are timed in seconds and the intervals are whole
    seconds. *)
Definition whole_seconds (m : gmap bytes Z) : Prop :=
  map_Forall (fun _ tat => tat mod 1000000 = 0 /\ 0 <= tat < 2 ^ 52) m.

Lemma le_gcra_whole b :
  emission_interval (gcra le_profile b) mod 1000000 = 0 /\ tolerance (gcra le_profile b) mod 1000000 = 0.
Proof. by destruct b. Qed.

Lemma retry_arith g v now :
  gcra_ok g -> emission_interval g mod 1000000 = 0 -> tolerance g mod 1000000 = 0 ->
  v mod 1000000 = 0 -> 0 <= v < 2 ^ 52 -> 0 <= now -> emission_interval g < 2 ^ 40 ->
  now < v + emission_interval g - tolerance g ->
  let retry := as_i64 (next_admit_at g (Some v) now / 1000000) in
  retry * 1000000 = v + emission_interval g - tolerance g /\ 0 <= retry < 2 ^ 33.
Proof.
  intros [Hi Htol] H1 H2 H3 Hv Hnow Hsm Hlt. cbn zeta. unfold next_admit_at, clamp_tat, sat_add, sat_sub.
  change (default now (Some v)) with v. rewrite (Z.max_l v now) by lia.
  rewrite (Z.min_r (2 ^ 64 - 1)) by lia. rewrite (Z.max_r 0) by lia.
  set (x := v + emission_interval g - tolerance g) in *.
  assert (Hx : x mod 1000000 = 0).
  { unfold x. rewrite Zminus_mod, Zplus_mod, H1, H2, H3. reflexivity. }
  pose proof (Z.div_mod x 1000000 ltac:(lia)). rewrite as_i64_small; lia.
Qed.

(** A deferral's [retry_at_unix] is exact: the bucket that refused the order refuses it at every
    second before, and admits it at that second. *)
Theorem defer_retry_exact (b : IssuanceBudget) (ds : list bytes) (now : Z) (bucket : Bucket) (retry : Z) :
  profile b = le_profile -> whole_seconds (tats b) -> 0 <= now < 2 ^ 32 ->
  check b ds now = Defer bucket retry ->
  exists k, (bucket, k) ∈ keys_for ds /\ now < retry
    /\ forall t, now <= t <= retry ->
       gcra_admit (tats b !! key bucket k) (to_micros t) (gcra le_profile bucket) = None <-> t < retry.
Proof.
  intros Hp Hw Hnow. unfold check. generalize (keys_for ds) as ks.
  induction ks as [|[b' k] ks IH]; cbn [check_go]; [done|]. rewrite Hp.
  destruct (gcra_admit (tats b !! key b' k) (to_micros now) (gcra le_profile b')) eqn:Ha.
  { intros H. destruct (IH H) as (k' & Hin & Hr). exists k'. split; [by right | done]. }
  intros [= <- <-]. exists k. split; [left|].
  pose proof (le_gcra_ok b') as Hg. pose proof (le_gcra_bounds b') as [Hb1 Hb2].
  pose proof (le_gcra_whole b') as [Hm1 Hm2]. set (g := gcra le_profile b') in *.
  assert (Hus : forall t, 0 <= t < 2 ^ 33 -> to_micros t = t * 1000000)
    by (intros; unfold to_micros, sat_mul; lia).
  assert (Hfit : forall t, 0 <= t * 1000000 < 2 ^ 52 -> fits (clamp_tat (tats b !! key b' k) (t * 1000000)) (t * 1000000) g).
  { intros t Ht. unfold fits, clamp_tat. destruct (tats b !! key b' k) as [v|] eqn:Hv; simpl; [|lia].
    destruct (Hw _ _ Hv). lia. }
  rewrite Hus, gcra_refuses_iff in Ha by (lia || done || (apply Hfit; lia)).
  destruct Ha as (v & Hv & Hlt). destruct (Hw _ _ Hv) as [Hvm Hvr]. rewrite Hv, Hus by lia.
  pose proof (retry_arith g v (now * 1000000) Hg Hm1 Hm2 Hvm Hvr ltac:(lia) ltac:(lia) Hlt) as Hret.
  cbn zeta in Hret. destruct Hret as [Hret Hrr]. destruct Hg as [Hi Htol].
  set (retry := as_i64 _) in *. split; [lia|]. intros t Ht. rewrite Hus by lia.
  rewrite <- Hv, gcra_refuses_iff by (done || (apply Hfit; lia)). rewrite Hv. split.
  - intros (v' & [= <-] & Hl). lia.
  - intros Hl. exists v. split; [done | lia].
Qed.

Lemma defer_retry_exact_witness :
  let m := <[lit "identifier_set:a" := 700000000000]> (∅ : gmap bytes Z) in
  exists k, (IdentifierSet, k) ∈ keys_for [lit "a"] /\ 100 < 216160
    /\ forall t, 100 <= t <= 216160 ->
       gcra_admit (m !! key IdentifierSet k) (to_micros t) (gcra le_profile IdentifierSet) = None
       <-> t < 216160.
Proof.
  intros m. apply (defer_retry_exact (mkBudget le_profile m) [lit "a"] 100 IdentifierSet 216160).
  - reflexivity.
  - apply map_Forall_insert_2; [done|]. apply map_Forall_empty.
  - lia.
  - vm_compute. reflexivity.
Defined.
