(* ===== verification/Privacy.v ===== *)
(** * Privacy: keeping credentials out of what the edge writes ([src/src/accesslog.rs], [src/src/redact.rs])

    What the access log records of a request's target, its caller and its user agent; what is printed of a
    text that may quote a URL with credentials; and the log's timestamps ([rfc3339] of [proxy.rs]).
    [None] stands for the panic of slicing a string inside a character. *)

From S2P Require Import Prelude Text Utf8.

(** ** Who called *)

Inductive PrincipalLogMode : Type := PFull | PHash | POff.

Definition hex2 (b : Z) : bytes := [hex_digit (b / 16); hex_digit (b mod 16)].

(** [sha256] is [ring::digest]. *)
Definition principal_apply (sha256 : bytes -> bytes) (m : PrincipalLogMode) (name : bytes) : option bytes :=
  match m with
  | PFull => Some name
  | PHash => Some (lit "sha256:" ++ concat (map hex2 (take 8 (sha256 name))))
  | POff => None
  end.

Definition USER_AGENT_MAX : nat := 256.

(** [while !text.is_char_boundary(end)]: index 0 is a boundary. *)
Fixpoint boundary_at_or_before (text : bytes) (i : nat) : nat :=
  match i with
  | O => 0%nat
  | S less => if is_char_boundary text i then i else boundary_at_or_before text less
  end.

Definition user_agent (raw : bytes) : bytes :=
  let text := from_utf8_lossy raw in
  if (length text <=? USER_AGENT_MAX)%nat then text
  else take (boundary_at_or_before text USER_AGENT_MAX) text.

(** ** The target of a request *)

Inductive QueryLogMode : Type := QRedact | QDrop | QFull.

Definition SENSITIVE_KEYS : list bytes :=
  [lit "key"; lit "token"; lit "secret"; lit "password"; lit "passwd"; lit "pwd"; lit "auth"; lit "credential";
   lit "session"; lit "sig"; lit "signature"; lit "code"; lit "state"; lit "nonce"; lit "assertion"; lit "email";
   lit "phone"; lit "ssn"].

Definition REDACTED : bytes := lit "<redacted>".

Fixpoint hex_digits (acc : Z) (s : bytes) : option Z :=
  match s with
  | [] => Some acc
  | c :: s => match hex_val c with Some d => hex_digits (acc * 16 + d) s | None => None end
  end.

(** [u8::from_str_radix(_, 16)], which takes a leading [+]; two characters cannot overflow. *)
Definition from_str_radix16 (s : bytes) : option Z :=
  match (match s with c :: r => if c =? 43 then r else s | [] => s end) with
  | [] => None
  | ds => hex_digits 0 ds
  end.

(** The loop of [decode_component], on what is left of the component. *)
Fixpoint decode_go (fuel : nat) (s : bytes) : option bytes :=
  match fuel, s with
  | O, _ | _, [] => Some []
  | S fuel, c :: r =>
      let keep b r := match decode_go fuel r with Some out => Some (b :: out) | None => None end in
      if (c =? 37) && (2 <=? length r)%nat then
        match slice r 0 2 with
        | None => None
        | Some two => match from_str_radix16 two with Some b => keep b (drop 2 r) | None => keep 37 r end
        end
      else if c =? 43 then keep 32 r
      else keep c r
  end.

Definition contains (p s : bytes) : bool := match find_sub p s with Some _ => true | None => false end.

Definition decode_component (s : bytes) : option bytes :=
  if negb (contains [37] s) && negb (contains [43] s) then Some s
  else match decode_go (length s) s with Some out => Some (from_utf8_lossy out) | None => None end.

Definition raw_key_is_sensitive (key : bytes) (extra : list bytes) : bool :=
  let lower := to_ascii_lowercase key in
  existsb (fun k => contains k lower) SENSITIVE_KEYS
  || existsb (fun k => negb (beq k []) && contains (to_ascii_lowercase k) lower) extra.

Definition key_is_sensitive (key : bytes) (extra : list bytes) : option bool :=
  if raw_key_is_sensitive key extra then Some true
  else match decode_component key with Some d => Some (raw_key_is_sensitive d extra) | None => None end.

Definition token_byte (b : Z) : bool := is_alnum b || (b =? 45) || (b =? 95).

Definition looks_like_jwt (value : bytes) : bool :=
  match split_on 46 value with
  | [h; p; s] =>
      starts_with h (lit "eyJ") && (8 <=? length h)%nat && negb (beq p []) && negb (beq s [])
      && forallb (forallb token_byte) [h; p; s]
  | _ => false
  end.

Definition raw_value_looks_like_a_credential (value : bytes) : bool :=
  looks_like_jwt value
  || (24 <=? length value)%nat && forallb token_byte value && existsb is_digit value.

Definition value_looks_like_a_credential (value : bytes) : option bool :=
  if raw_value_looks_like_a_credential value then Some true
  else match decode_component value with Some d => Some (raw_value_looks_like_a_credential d) | None => None end.

(** One pair of the query, as written to the log. *)
Definition sanitize_pair (extra : list bytes) (pair : bytes) : option bytes :=
  match split_once 61 pair with
  | None => Some pair
  | Some (k, v) =>
      if beq v [] then Some (k ++ [61])
      else match key_is_sensitive k extra with
           | None => None
           | Some true => Some (k ++ [61] ++ REDACTED)
           | Some false =>
               match value_looks_like_a_credential v with
               | None => None
               | Some true => Some (k ++ [61] ++ REDACTED)
               | Some false => Some (k ++ [61] ++ v)
               end
           end
  end.

Definition sanitize_target (target : bytes) (mode : QueryLogMode) (extra : list bytes) : option bytes :=
  match mode with
  | QFull => Some target
  | _ =>
      match split_once 63 target with
      | None => Some target
      | Some (path, query) =>
          match mode with
          | QDrop => Some (path ++ lit "?<dropped>")
          | _ => pairs ← mapM (sanitize_pair extra) (split_on 38 query); Some (path ++ [63] ++ join [38] pairs)
          end
      end
  end.

(** ** Texts that quote URLs *)

Definition SCHEME_SEP : bytes := lit "://".

(** [s.find(char::is_whitespace)]. *)
Fixpoint find_ws (s : bytes) : option nat :=
  match s with
  | [] => None
  | _ :: r =>
      match strip_any ws_encodings s with
      | Some _ => Some 0%nat
      | None => match find_ws r with Some i => Some (S i) | None => None end
      end
  end.

Definition ws_end (s : bytes) : nat := default (length s) (find_ws s).

(** Where the URL whose [://] has just been read ends. *)
Definition url_end (tail : bytes) : nat :=
  let e := ws_end tail in
  if contains [64] (take e tail) then e
  else
    let line_end := default (length tail) (find_sub [10] tail) in
    let stop := match find_sub SCHEME_SEP (take (line_end - e) (drop e tail)) with
                | Some i => (e + i)%nat
                | None => line_end
                end in
    match find_sub [64] (take (stop - e) (drop e tail)) with
    | Some i => (e + i + ws_end (drop (e + i) tail))%nat
    | None => e
    end.

(** The URL's own text, its credentials hidden. *)
Definition hide_run (run : bytes) : bytes :=
  match rfind_sub [64] run with Some i => lit "***" ++ drop i run | None => run end.

Fixpoint userinfo_go (fuel : nat) (rest : bytes) : bytes :=
  match fuel with
  | O => rest
  | S fuel =>
      match find_sub SCHEME_SEP rest with
      | None => rest
      | Some at_ =>
          let tail := drop (at_ + 3) rest in
          let e := url_end tail in
          take (at_ + 3) rest ++ hide_run (take e tail) ++ userinfo_go fuel (drop e tail)
      end
  end.

(** Every round takes at least the separator, so [length text] rounds are enough. *)
Definition userinfo (text : bytes) : bytes :=
  if negb (contains SCHEME_SEP text) || negb (contains [64] text) then text
  else userinfo_go (length text) text.

(** ** Timestamps *)

(** Days since the epoch to year, month and day. *)
Definition civil_of_days (days : Z) : Z * Z * Z :=
  let z := days + 719468 in
  let era := z / 146097 in
  let doe := z mod 146097 in
  let yoe := (doe - doe / 1460 + doe / 36524 - doe / 146096) / 365 in
  let y := yoe + era * 400 in
  let doy := doe - (365 * yoe + yoe / 4 - yoe / 100) in
  let mp := (5 * doy + 2) / 153 in
  let d := doy - (153 * mp + 2) / 5 + 1 in
  let m := if mp <? 10 then mp + 3 else mp - 9 in
  let y := if m <=? 2 then y + 1 else y in
  (y, m, d).

(** [{:0w}]: at least [w] characters, zeros after the sign. *)
Definition pad0 (w : nat) (z : Z) : bytes :=
  let s := dec (Z.abs z) in
  let sign := if z <? 0 then [45] else [] in
  sign ++ replicate (w - length s - length sign) 48 ++ s.

Definition rfc3339 (secs : Z) : bytes :=
  let tod := secs mod 86400 in
  let '(y, m, d) := civil_of_days (secs / 86400) in
  pad0 4 y ++ [45] ++ pad0 2 m ++ [45] ++ pad0 2 d ++ [84] ++ pad0 2 (tod / 3600) ++ [58]
  ++ pad0 2 (tod mod 3600 / 60) ++ [58] ++ pad0 2 (tod mod 60) ++ [90].

(** ** Laws: what is written does not depend on what must not be (theorems about [Privacy]) *)

(** Where a text is cut. *)
Lemma cut_at_boundary s i : is_char_boundary s (boundary_at_or_before s i) = true
  /\ (boundary_at_or_before s i <= i)%nat.
Proof.
  induction i as [|i [IH1 IH2]]; cbn [boundary_at_or_before]; [done|].
  destruct (is_char_boundary s (S i)) eqn:E; [done|]. split; [done | lia].
Qed.

(** ** The access log *)

Lemma split_on_join c l : l <> [] -> Forall (fun x => c ∉ x) l -> split_on c (join [c] l) = l.
Proof.
  induction l as [|a l IH]; [done|]. intros _ Hall. apply Forall_cons in Hall as [Ha Hl].
  destruct l as [|b l]; [by apply split_on_none|].
  change (join [c] (a :: b :: l)) with (a ++ c :: join [c] (b :: l)). rewrite split_on_app by done. by rewrite IH.
Qed.

Lemma mapM_pieces (f : bytes -> option bytes) l k :
  mapM f (l ++ k) = (a ← mapM f l; b ← mapM f k; Some (a ++ b)).
Proof.
  induction l as [|x l IH]; cbn [app mapM].
  - cbn. by destruct (mapM f k).
  - destruct (f x); cbn; [|done]. rewrite IH. destruct (mapM f l); cbn; [|done]. by destruct (mapM f k).
Qed.

(** The value is withheld: its name says so, or its shape. *)
Definition withheld_value (extra : list bytes) (k v : bytes) : Prop :=
  key_is_sensitive k extra = Some true
  \/ key_is_sensitive k extra = Some false /\ value_looks_like_a_credential v = Some true.

Lemma sanitize_pair_withheld extra k v :
  61 ∉ k -> v <> [] -> withheld_value extra k v -> sanitize_pair extra (k ++ 61 :: v) = Some (k ++ [61] ++ REDACTED).
Proof.
  intros Hk Hv Hw. unfold sanitize_pair. rewrite (proj2 (split_once_Some 61 _ k v)) by done.
  destruct (beq v []) eqn:E; [by apply beq_true in E|].
  by destruct Hw as [->|[-> ->]].
Qed.

(** A request target with the parameter [k = v] among others. *)
Definition target_with (path : bytes) (before : list bytes) (k v : bytes) (after : list bytes) : bytes :=
  path ++ 63 :: join [38] (before ++ (k ++ 61 :: v) :: after).

Definition no_amp (l : list bytes) : Prop := Forall (fun x => 38 ∉ x) l.

Lemma split_target path before k v after :
  63 ∉ path -> no_amp before -> no_amp after -> 38 ∉ k -> 38 ∉ v ->
  split_once 63 (target_with path before k v after) = Some (path, join [38] (before ++ (k ++ 61 :: v) :: after))
  /\ split_on 38 (join [38] (before ++ (k ++ 61 :: v) :: after)) = before ++ (k ++ 61 :: v) :: after.
Proof.
  intros Hp Hb Ha Hk Hv. split; [by apply split_once_Some|]. apply split_on_join; [by destruct before|].
  apply Forall_app. split; [done|]. constructor; [|done]. rewrite elem_of_app, elem_of_cons. naive_solver.
Qed.

(** The log line of a request does not depend on a withheld value, not even on its length: whatever the
    other parameters, two requests that differ in it alone are written alike, and by its name only. *)
Theorem withheld_values_not_logged path before k v v' after mode extra :
  mode <> QFull -> 63 ∉ path -> no_amp before -> no_amp after -> 38 ∉ k -> 61 ∉ k ->
  38 ∉ v -> 38 ∉ v' -> v <> [] -> v' <> [] -> withheld_value extra k v -> withheld_value extra k v' ->
  sanitize_target (target_with path before k v after) mode extra
  = sanitize_target (target_with path before k v' after) mode extra
  /\ (mode = QRedact -> forall out, sanitize_target (target_with path before k v after) mode extra = Some out ->
      exists a b, out = path ++ 63 :: join [38] (a ++ (k ++ [61] ++ REDACTED) :: b)
                  /\ mapM (sanitize_pair extra) before = Some a /\ mapM (sanitize_pair extra) after = Some b).
Proof.
  intros Hm Hp Hb Ha Hk Hk' Hv Hv' Hne Hne' Hw Hw'.
  destruct (split_target path before k v after) as [E1 E2]; [done..|].
  destruct (split_target path before k v' after) as [F1 F2]; [done..|].
  unfold sanitize_target. rewrite E1, F1, E2, F2.
  assert (Hmap : forall x, 61 ∉ k -> x <> [] -> withheld_value extra k x ->
    mapM (sanitize_pair extra) (before ++ (k ++ 61 :: x) :: after)
    = (a ← mapM (sanitize_pair extra) before; b ← mapM (sanitize_pair extra) after;
       Some (a ++ (k ++ [61] ++ REDACTED) :: b))).
  { intros x H1 H2 H3. rewrite mapM_pieces. cbn [mapM]. rewrite (sanitize_pair_withheld extra k x) by done.
    destruct (mapM (sanitize_pair extra) before); cbn; [|done]. by destruct (mapM (sanitize_pair extra) after). }
  rewrite !Hmap by done. split; [by destruct mode|].
  intros -> out. destruct (mapM _ before) as [a|]; [|done]. destruct (mapM _ after) as [b|]; [|done].
  cbn [mbind option_bind]. intros [= <-]. by exists a, b.
Qed.

Lemma withheld_values_not_logged_witness :
  sanitize_target (target_with (lit "/login") [lit "page=2"] (lit "%74oken") (lit "s3cret") [lit "debug"]) QRedact []
  = sanitize_target (target_with (lit "/login") [lit "page=2"] (lit "%74oken") (lit "x") [lit "debug"]) QRedact []
  /\ sanitize_target (target_with (lit "/login") [lit "page=2"] (lit "%74oken") (lit "x") [lit "debug"]) QRedact []
     = Some (lit "/login?page=2&%74oken=<redacted>&debug").
Proof.
  split; [|vm_compute; reflexivity].
  apply (withheld_values_not_logged (lit "/login") [lit "page=2"] (lit "%74oken") (lit "s3cret") (lit "x") [lit "debug"]
    QRedact []); try discriminate; try (apply (bool_decide_unpack _); vm_compute; exact I);
    left; vm_compute; reflexivity.
Defined.

(** The log is written for every target in ASCII. *)
Lemma slice_ascii r : Forall (fun c => c < 128) r -> (2 <= length r)%nat -> slice r 0 2 <> None.
Proof.
  intros Ha Hl. rewrite slice_Some; [done|lia|done|]. unfold is_char_boundary. cbn [Nat.eqb].
  destruct (r !! 2%nat) as [c|] eqn:E.
  - apply Forall_lookup_1 with (i := 2%nat) (x := c) in Ha; [|done]. unfold is_cont. by destruct (Z.leb_spec 128 c); [lia|].
  - apply lookup_ge_None in E. by replace (length r) with 2%nat by lia.
Qed.

Lemma decode_go_ascii fuel : forall s, Forall (fun c => c < 128) s -> decode_go fuel s <> None.
Proof.
  induction fuel as [|fuel IH]; intros s Hs; [done|]. destruct s as [|c r]; [done|]. cbn [decode_go].
  apply Forall_cons in Hs as [Hc Hr].
  assert (Hk : forall b x, Forall (fun c => c < 128) x ->
    match decode_go fuel x with Some out => Some (b :: out) | None => None end <> None).
  { intros b x Hx. specialize (IH x Hx). by destruct (decode_go fuel x). }
  destruct ((c =? 37) && (2 <=? length r)%nat) eqn:E.
  - apply andb_true_iff in E as [_ E]. apply Nat.leb_le in E.
    destruct (slice r 0 2) eqn:Es; [|by destruct (slice_ascii r Hr E)].
    destruct (from_str_radix16 _); apply Hk; [by apply Forall_drop|done].
  - destruct (c =? 43); by apply Hk.
Qed.

Lemma decode_component_ascii s : Forall (fun c => c < 128) s -> decode_component s <> None.
Proof.
  intros H. unfold decode_component. destruct (_ && _); [done|]. pose proof (decode_go_ascii (length s) s H).
  by destruct (decode_go _ _).
Qed.

Lemma sanitize_pair_ascii extra p : Forall (fun c => c < 128) p -> sanitize_pair extra p <> None.
Proof.
  intros Hp. unfold sanitize_pair. destruct (split_once 61 p) as [[k v]|] eqn:E; [|done].
  apply split_once_Some in E as [-> _]. apply Forall_app in Hp as [Hk Hv]. apply Forall_cons in Hv as [_ Hv].
  destruct (beq v []); [done|].
  unfold key_is_sensitive, value_looks_like_a_credential.
  pose proof (decode_component_ascii k Hk). pose proof (decode_component_ascii v Hv).
  destruct (raw_key_is_sensitive k extra); [done|]. destruct (decode_component k) as [dk|]; [|done].
  destruct (raw_key_is_sensitive dk extra); [done|]. destruct (raw_value_looks_like_a_credential v); [done|].
  destruct (decode_component v) as [dv|]; [|done]. by destruct (raw_value_looks_like_a_credential dv).
Qed.

(** In ASCII, which is all a well-formed target needs, no target keeps its line from being written. *)
Theorem ascii_targets_logged target mode extra :
  Forall (fun c => c < 128) target -> sanitize_target target mode extra <> None.
Proof.
  intros Ht. unfold sanitize_target. destruct mode; [|destruct (split_once 63 target) as [[? ?]|]; done|done].
  destruct (split_once 63 target) as [[path query]|] eqn:E; [|done].
  apply split_once_Some in E as [-> _]. apply Forall_app in Ht as [_ Hq]. apply Forall_cons in Hq as [_ Hq].
  assert (Hall : Forall (Forall (fun c => c < 128)) (split_on 38 query)).
  { clear path. induction query as [|x q IH]; [by repeat constructor|]. apply Forall_cons in Hq as [Hx Hq].
    specialize (IH Hq). cbn [split_on]. destruct (x =? 38); [by repeat constructor|].
    destruct (split_on 38 q) as [|p ps]; [by repeat constructor|]. apply Forall_cons in IH as [? ?].
    by repeat constructor. }
  destruct (mapM (sanitize_pair extra) (split_on 38 query)) eqn:Em; [done|].
  exfalso. revert Em. induction Hall as [|p ps Hp _ IH]; [done|]. cbn [mapM].
  pose proof (sanitize_pair_ascii extra p Hp). destruct (sanitize_pair extra p); [|done]. cbn.
  by destruct (mapM (sanitize_pair extra) ps).
Qed.

(** An escape that ends inside a longer character: the slice panics, and the request is not served. *)
Example percent_before_wide_character :
  sanitize_target (lit "/?q=%" ++ [226; 130; 172]) QRedact [] = None.
Proof. vm_compute. reflexivity. Qed.

(** ** The calendar *)

(** The Gregorian calendar, a day at a time. *)
Definition leap (y : Z) : bool := (y mod 4 =? 0) && (negb (y mod 100 =? 0) || (y mod 400 =? 0)).

Definition days_in_month (lp : bool) (m : Z) : Z :=
  if m =? 2 then if lp then 29 else 28
  else if (m =? 4) || (m =? 6) || (m =? 9) || (m =? 11) then 30 else 31.

Definition next_day (lp : bool) (date : Z * Z * Z) : Z * Z * Z :=
  let '(y, m, d) := date in
  if d <? days_in_month lp m then (y, m, d + 1)
  else if m <? 12 then (y, m + 1, 1) else (y + 1, 1, 1).

Lemma leap_period y e : leap (y + e * 400) = leap y.
Proof.
  unfold leap. replace (e * 400) with (e * 100 * 4) at 1 by lia. rewrite Z.mod_add by lia.
  replace (e * 400) with (e * 4 * 100) at 1 by lia. rewrite Z.mod_add by lia. by rewrite Z.mod_add by lia.
Qed.

(** The days of the years before [y], counted from March; and the year the source computes. *)
Definition year_start (y : Z) : Z := 365 * y + y / 4 - y / 100.
Definition corrected (doe : Z) : Z := doe - doe / 1460 + doe / 36524 - doe / 146096.

(** Every number below [n], checked. *)
Lemma check_below (P : Z -> bool) n :
  forallb (fun k => P (Z.of_nat k)) (seq 0 n) = true -> forall z, 0 <= z < Z.of_nat n -> P z = true.
Proof.
  intros H z Hz. rewrite forallb_forall in H. specialize (H (Z.to_nat z)).
  rewrite Z2Nat.id in H by lia. apply H, in_seq. lia.
Qed.

Lemma corrected_step d : 0 <= d -> d + 1 < 146097 -> corrected d <= corrected (d + 1).
Proof. intros H1 H2. unfold corrected. Z.to_euclidean_division_equations. lia. Qed.

Lemma corrected_mono d e : 0 <= d -> d <= e -> e < 146097 -> corrected d <= corrected e.
Proof.
  intros H0 Hd. pattern e. apply Zlt_lower_bound_ind with (z := d); [|done].
  intros x IH Hx Hm. destruct (Z.eq_dec d x) as [->|Hne]; [lia|].
  specialize (IH (x - 1)). pose proof (corrected_step (x - 1)). replace (x - 1 + 1) with x in * by lia. lia.
Qed.

Definition year_fits (y : Z) : bool :=
  (365 * y <=? corrected (year_start y))
  && ((y =? 399) || (corrected (year_start (y + 1) - 1) <? 365 * (y + 1))) && (year_start y <? 146096)
  && (bool_decide (leap (y + 1) = (year_start (if y =? 399 then 400 else y + 1) - year_start y + (if y =? 399 then 1 else 0) =? 366)))
  && (365 <=? year_start (y + 1) - year_start y).

Lemma year_fits_all y : 0 <= y < 400 -> year_fits y = true.
Proof. apply (check_below year_fits 400). vm_compute. reflexivity. Qed.

Lemma year_of_era doe :
  0 <= doe < 146097 ->
  let y := corrected doe / 365 in
  0 <= y < 400 /\ year_start y <= doe /\ (y < 399 -> doe < year_start (y + 1)).
Proof.
  intros Hd y.
  assert (Hy : 0 <= y < 400).
  { pose proof (corrected_mono 0 doe ltac:(lia) ltac:(lia) ltac:(lia)) as H0.
    pose proof (corrected_mono doe 146096 ltac:(lia) ltac:(lia) ltac:(lia)) as H1.
    change (corrected 0) with 0 in H0. change (corrected 146096) with 145999 in H1. unfold y. split; [apply Z.div_pos; lia|].
    apply Z.div_lt_upper_bound; lia. }
  split; [done|].
  assert (Hfit : forall k, 0 <= k < 400 -> 365 * k <= corrected (year_start k) /\ year_start k < 146096
                 /\ (k < 399 -> corrected (year_start (k + 1) - 1) < 365 * (k + 1))).
  { intros k Hk. pose proof (year_fits_all k Hk) as Hf. unfold year_fits in Hf. rewrite !andb_true_iff in Hf.
    destruct Hf as [[[[H1 H2] H3] _] _]. split_and!; [lia|lia|]. intros Hlt. apply orb_true_iff in H2 as [H2|H2]; lia. }
  assert (Hs : forall k, 0 <= k -> 0 <= year_start k) by (intros k Hk; unfold year_start; Z.to_euclidean_division_equations; lia).
  assert (H365 : 365 * y <= corrected doe < 365 * (y + 1)) by (unfold y; pose proof (Z.div_mod (corrected doe) 365); pose proof (Z.mod_pos_bound (corrected doe) 365); lia).
  split.
  - destruct (Z.le_gt_cases (year_start y) doe) as [|Hgt]; [done|]. exfalso.
    destruct (Z.eq_dec y 0) as [E|Hne]; [rewrite E in Hgt; change (year_start 0) with 0 in Hgt; lia|].
    destruct (Hfit (y - 1) ltac:(lia)) as (_ & _ & Hlast). specialize (Hlast ltac:(lia)).
    replace (y - 1 + 1) with y in Hlast by lia. destruct (Hfit y Hy) as (_ & Hb & _).
    pose proof (corrected_mono doe (year_start y - 1) ltac:(lia) ltac:(lia) ltac:(lia)). lia.
  - intros Hlt. destruct (Z.lt_ge_cases doe (year_start (y + 1))) as [|Hge]; [done|]. exfalso.
    destruct (Hfit (y + 1) ltac:(lia)) as (Hb & _ & _).
    pose proof (corrected_mono (year_start (y + 1)) doe (Hs (y + 1) ltac:(lia)) ltac:(lia) ltac:(lia)). lia.
Qed.

(** Month and day of the [doy]-th day from the first of March; months count on into the next year. *)
Definition month_day (doy : Z) : Z * Z :=
  let mp := (5 * doy + 2) / 153 in (if mp <? 10 then mp + 3 else mp - 9, doy - (153 * mp + 2) / 5 + 1).

Definition in_march_year (y doy : Z) : Z * Z * Z :=
  let '(m, d) := month_day doy in (if m <=? 2 then y + 1 else y, m, d).

(** The first 364 days of the year from March do not depend on its length; then come the end of February
    and, in a leap year, the leap day. *)
Definition next_in_year (doy : Z) : bool :=
  forallb (fun lp => bool_decide (next_day lp (in_march_year 0 doy) = in_march_year 0 (doy + 1))) [true; false].

Lemma in_march_year_shift y doy : in_march_year y doy = let '(y', m, d) := in_march_year 0 doy in (y + y', m, d).
Proof. unfold in_march_year. destruct (month_day doy) as [m d]. destruct (m <=? 2); by rewrite ?Z.add_0_r. Qed.

Lemma next_day_shift lp y date :
  next_day lp (let '(y', m, d) := date in (y + y', m, d)) = let '(y', m, d) := next_day lp date in (y + y', m, d).
Proof.
  destruct date as [[y' m] d]. cbn. destruct (d <? _); [done|]. destruct (m <? 12); [done|]. by rewrite Z.add_assoc.
Qed.

Lemma next_within lp y doy : 0 <= doy < 364 -> next_day lp (in_march_year y doy) = in_march_year y (doy + 1).
Proof.
  intros Hd. assert (H : next_in_year doy = true) by (apply (check_below next_in_year 364); [vm_compute; reflexivity|done]).
  unfold next_in_year in H. cbn [forallb] in H. rewrite !andb_true_iff, !bool_decide_eq_true in H.
  rewrite !(in_march_year_shift y), next_day_shift. destruct lp; destruct H as (H1 & H2 & _); by rewrite ?H1, ?H2.
Qed.

Lemma next_at_end lp y : next_day lp (in_march_year y 364) = if lp then in_march_year y 365 else in_march_year (y + 1) 0.
Proof. by destruct lp. Qed.
Lemma next_after_leap_day y : next_day true (in_march_year y 365) = in_march_year (y + 1) 0.
Proof. done. Qed.

(** The year a date is in, for the rule of the leap day. *)
Definition year_of (date : Z * Z * Z) : Z := date.1.1.

Lemma civil_split days : let z := days + 719468 in
  civil_of_days days = in_march_year (corrected (z mod 146097) / 365 + z / 146097 * 400)
                         (z mod 146097 - year_start (corrected (z mod 146097) / 365)).
Proof.
  intros z. unfold civil_of_days, in_march_year, month_day. fold z. fold (corrected (z mod 146097)).
  set (y := corrected (z mod 146097) / 365). fold (year_start y). done.
Qed.

Lemma leap_only_in_february lp lp' y doy : 0 <= doy < 364 -> next_day lp (in_march_year y doy) = next_day lp' (in_march_year y doy).
Proof. intros H. by rewrite !next_within. Qed.

(** The year the source finds for [doe], and the day in it, when its bounds are known. *)
Lemma year_unique doe y : 0 <= doe < 146097 -> 0 <= y < 400 -> year_start y <= doe ->
  (y < 399 -> doe < year_start (y + 1)) -> corrected doe / 365 = y.
Proof.
  intros Hd Hy Hlo Hhi. destruct (year_of_era doe Hd) as (Hy' & Hlo' & Hhi'). set (y' := corrected doe / 365) in *.
  assert (Hmono : forall a b, a < b -> year_start (a + 1) <= year_start b).
  { intros a b Hab. unfold year_start. Z.to_euclidean_division_equations. lia. }
  destruct (Z.lt_total y y') as [Hlt|[->|Hlt]]; [|done|].
  - pose proof (Hmono y y' Hlt). specialize (Hhi ltac:(lia)). lia.
  - pose proof (Hmono y' y Hlt). specialize (Hhi' ltac:(lia)). lia.
Qed.

(** The length of the year from March [y] of an era. *)
Lemma year_length y : 0 <= y < 400 ->
  let n := if y =? 399 then 366 else year_start (y + 1) - year_start y in
  n = if leap (y + 1) then 366 else 365.
Proof.
  intros Hy n. pose proof (year_fits_all y Hy) as Hf. unfold year_fits in Hf. rewrite !andb_true_iff in Hf.
  destruct Hf as [[_ H4] H5]. apply bool_decide_eq_true in H4. unfold n.
  destruct (Z.eqb_spec y 399) as [->|Hne]; [done|]. rewrite Z.add_0_r in H4. rewrite H4.
  assert (year_start (y + 1) - year_start y <= 366) by (unfold year_start; Z.to_euclidean_division_equations; lia).
  destruct (Z.eqb_spec (year_start (y + 1) - year_start y) 366); lia.
Qed.

(** A date from March [y] of era [q]: the next day, whether or not the year ends. *)
Lemma march_next y q doy : 0 <= y < 400 -> 0 <= doy < (if leap (y + 1) then 366 else 365) ->
  let date := in_march_year (y + q * 400) doy in
  next_day (leap (year_of date)) date
  = if doy + 1 <? (if leap (y + 1) then 366 else 365) then in_march_year (y + q * 400) (doy + 1)
    else in_march_year (y + q * 400 + 1) 0.
Proof.
  intros Hy Hd date. unfold date. destruct (Z.lt_ge_cases doy 364) as [Hlt|Hge].
  - rewrite next_within by lia. destruct (Z.ltb_spec (doy + 1) (if leap (y + 1) then 366 else 365)); [done|].
    destruct (leap (y + 1)); lia.
  - assert (Hyr : leap (y + q * 400 + 1) = leap (y + 1)) by (rewrite <- (leap_period (y + 1) q); f_equal; lia).
    assert (Hof : forall k, k = 364 \/ k = 365 -> leap (year_of (in_march_year (y + q * 400) k)) = leap (y + 1))
      by (intros k [-> | ->]; exact Hyr).
    destruct (leap (y + 1)) eqn:El.
    + assert (doy = 364 \/ doy = 365) as [-> | ->] by lia; rewrite Hof by lia; done.
    + assert (doy = 364) as -> by lia. by rewrite Hof by lia.
Qed.

(** The dates of the log are those of the calendar: the epoch is the first of January 1970, and each day's
    date is the day after the previous one's, in every century, before the epoch too. *)
Theorem log_dates_follow_calendar days :
  civil_of_days 0 = (1970, 1, 1)
  /\ civil_of_days (days + 1) = next_day (leap (year_of (civil_of_days days))) (civil_of_days days).
Proof.
  split; [reflexivity|]. rewrite !civil_split. set (z := days + 719468).
  replace (days + 1 + 719468) with (z + 1) by lia.
  pose proof (Z.mod_pos_bound z 146097 ltac:(lia)) as Hd. pose proof (Z.div_mod z 146097 ltac:(lia)) as Hz.
  set (doe := z mod 146097) in *. set (q := z / 146097) in *.
  destruct (year_of_era doe Hd) as (Hy & Hlo & Hhi). set (y := corrected doe / 365) in *.
  pose proof (year_length y Hy) as Hlen. cbn zeta in Hlen.
  assert (Hdoy : 0 <= doe - year_start y < (if leap (y + 1) then 366 else 365)).
  { rewrite <- Hlen. destruct (Z.eqb_spec y 399) as [Hy9|Hy9]; [|lia].
    rewrite Hy9 in *. change (year_start 399) with 145731 in *. lia. }
  rewrite march_next by done. rewrite <- Hlen.
  destruct (Z.eq_dec doe 146096) as [Hlast|Hlast].
  - assert (Hy9 : y = 399).
    { unfold y. rewrite Hlast. reflexivity. }
    replace ((z + 1) mod 146097) with 0 by (apply (Z.mod_unique _ _ (q + 1)); lia).
    replace ((z + 1) / 146097) with (q + 1) by (apply (Z.div_unique _ _ _ 0); lia).
    rewrite Hlast, Hy9. cbn [Z.eqb Pos.eqb]. change (year_start 399) with 145731. cbn [Z.sub Z.add Z.ltb].
    f_equal. change (corrected 0 / 365) with 0. lia.
  - replace ((z + 1) mod 146097) with (doe + 1) by (apply (Z.mod_unique _ _ q); lia).
    replace ((z + 1) / 146097) with q by (apply (Z.div_unique _ _ _ (doe + 1)); lia).
    destruct (Z.ltb_spec (doe - year_start y + 1) (if y =? 399 then 366 else year_start (y + 1) - year_start y)) as [Hin|Hout].
    + rewrite (year_unique (doe + 1) y); [f_equal; lia|lia|done|lia|]. intros Hlt.
      destruct (Z.eqb_spec y 399); lia.
    + destruct (Z.eqb_spec y 399) as [Hy9|Hy9].
      { exfalso. rewrite Hy9 in *. change (year_start 399) with 145731 in *. lia. }
      assert (Hnext : doe + 1 = year_start (y + 1)) by lia.
      rewrite (year_unique (doe + 1) (y + 1)); [|lia|lia|lia|].
      * rewrite Hnext, Z.sub_diag. f_equal. lia.
      * intros Hlt. pose proof (year_fits_all (y + 1) ltac:(lia)) as Hf. unfold year_fits in Hf.
        rewrite !andb_true_iff in Hf. lia.
Qed.

(** ** Credentials in URLs *)

(** No white space holds one of the characters that delimit a URL's credentials. *)
Definition delim (z : Z) : Prop := z = 58 \/ z = 47 \/ z = 64.

Lemma ws_no_delim p z : p ∈ ws_encodings -> delim z -> p <> [] /\ z ∉ p.
Proof.
  intros Hp. revert z.
  assert (H : p <> [] /\ 58 ∉ p /\ 47 ∉ p /\ 64 ∉ p).
  { revert p Hp. apply Forall_forall. apply (bool_decide_unpack _). vm_compute. exact I. }
  intros z [-> | [-> | ->]]; tauto.
Qed.

Definition found {A} (o : option A) : bool := match o with Some _ => true | None => false end.

Lemma strip_prefix_before_delim p x z s : z ∉ p -> found (strip_prefix p (x ++ z :: s)) = found (strip_prefix p x).
Proof.
  revert x. induction p as [|a p IH]; intros x Hz; [by destruct x|].
  apply not_elem_of_cons in Hz as [Hne Hz]. destruct x as [|b x]; cbn [app strip_prefix].
  - destruct (Z.eqb_spec a z); [congruence|done].
  - destruct (a =? b); [by apply IH|done].
Qed.

Definition at_ws (s : bytes) : bool := found (strip_any ws_encodings s).

Lemma at_ws_before_delim x z s : delim z -> at_ws (x ++ z :: s) = at_ws x.
Proof.
  intros Hz. unfold at_ws.
  assert (H : forall p, p ∈ ws_encodings -> z ∉ p) by (intros p Hp; by apply (ws_no_delim p z)).
  revert H. generalize ws_encodings. intros pats. induction pats as [|p pats IH]; intros H; [done|]. cbn [strip_any].
  pose proof (strip_prefix_before_delim p x z s (H p ltac:(left))) as Hp.
  destruct (strip_prefix p (x ++ z :: s)), (strip_prefix p x); try done. apply IH. intros q Hq. apply H. by right.
Qed.

Lemma find_ws_cons a s : find_ws (a :: s) = if at_ws (a :: s) then Some 0%nat else S <$> find_ws s.
Proof. cbn [find_ws]. unfold at_ws. destruct (strip_any ws_encodings (a :: s)); [done|]. cbn. by destruct (find_ws s). Qed.

Lemma find_ws_delim z s : delim z -> find_ws (z :: s) = S <$> find_ws s.
Proof. intros Hz. rewrite find_ws_cons. change (z :: s) with ([] ++ z :: s). by rewrite at_ws_before_delim. Qed.

Lemma find_ws_app x z s : delim z ->
  find_ws (x ++ z :: s) = match find_ws x with Some i => Some i | None => Nat.add (length x) <$> find_ws (z :: s) end.
Proof.
  intros Hz. induction x as [|a x IH].
  { change (find_ws (z :: s) = Nat.add 0 <$> find_ws (z :: s)). by destruct (find_ws (z :: s)). }
  change ((a :: x) ++ z :: s) with (a :: (x ++ z :: s)).
  rewrite (find_ws_cons a (x ++ z :: s)), (find_ws_cons a x).
  change (a :: (x ++ z :: s)) with ((a :: x) ++ z :: s). rewrite at_ws_before_delim by done.
  destruct (at_ws (a :: x)); [done|]. rewrite IH. destruct (find_ws x); [done|]. by destruct (find_ws (z :: s)).
Qed.

Lemma find_ws_lt s i : find_ws s = Some i -> (i < length s)%nat.
Proof.
  revert i. induction s as [|a s IH]; intros i; [done|]. rewrite find_ws_cons. cbn [length].
  destruct (at_ws (a :: s)); [intros [= <-]; lia|]. destruct (find_ws s) as [j|]; [|done]. cbn. intros [= <-].
  specialize (IH j eq_refl). lia.
Qed.

(** Searching in a text that goes on. *)
Lemma find_sub_len p s i : find_sub p s = Some i -> (i + length p <= length s)%nat.
Proof.
  revert i. induction s as [|a s IH]; intros i; cbn [find_sub].
  - destruct (starts_with [] p) eqn:E; [|done]. apply starts_with_true in E as [r Hr]. intros [= <-].
    apply (f_equal length) in Hr. rewrite length_app in Hr. simpl in *. lia.
  - destruct (starts_with (a :: s) p) eqn:E.
    + apply starts_with_true in E as [r Hr]. intros [= <-]. rewrite Hr, length_app. lia.
    + destruct (find_sub p s) as [j|]; [|done]. intros [= <-]. specialize (IH j eq_refl). simpl. lia.
Qed.

Lemma starts_with_long u y p : (length p <= length u)%nat -> starts_with (u ++ y) p = starts_with u p.
Proof.
  intros Hl. apply eq_true_iff_eq. rewrite !starts_with_true. split; intros [r Hr].
  - exists (drop (length p) u). pose proof (f_equal (take (length p)) Hr) as Ht.
    rewrite take_app_length, take_app_le in Ht by done. rewrite <- Ht at 1. by rewrite take_drop.
  - exists (r ++ y). rewrite Hr. by rewrite app_assoc.
Qed.

Lemma find_sub_app p x y i : find_sub p x = Some i -> find_sub p (x ++ y) = Some i.
Proof.
  revert i. induction x as [|a x IH]; intros i Hi; pose proof (find_sub_len _ _ _ Hi) as Hl.
  - cbn [find_sub] in Hi. destruct (starts_with [] p) eqn:E; [|done]. injection Hi as <-.
    apply find_sub_starts. rewrite starts_with_long; [done|lia].
  - cbn [find_sub] in Hi. destruct (starts_with (a :: x) p) eqn:E.
    + injection Hi as <-. apply find_sub_starts. rewrite starts_with_long; [done|lia].
    + destruct (find_sub p x) as [j|]; [|done]. injection Hi as <-.
      change ((a :: x) ++ y) with (a :: (x ++ y)). rewrite find_sub_cons; [by rewrite (IH j eq_refl)|].
      change (a :: (x ++ y)) with ((a :: x) ++ y). rewrite starts_with_long; [done|lia].
Qed.

(** A separator cannot begin before the text it follows has ended. *)
Lemma find_sep_app u w : find_sub SCHEME_SEP u = None -> find_sub SCHEME_SEP (u ++ SCHEME_SEP ++ w) = Some (length u).
Proof.
  induction u as [|a u IH]; intros Hu; [apply find_sub_starts, starts_with_true; by exists w|].
  cbn [find_sub] in Hu. destruct (starts_with (a :: u) SCHEME_SEP) eqn:E; [done|].
  destruct (find_sub SCHEME_SEP u); [done|]. cbn [app length]. rewrite find_sub_cons; [by rewrite IH|].
  destruct (starts_with (a :: u ++ SCHEME_SEP ++ w) SCHEME_SEP) eqn:E2; [|done].
  apply starts_with_true in E2 as [r Hr]. change SCHEME_SEP with [58; 47; 47] in *. injection Hr as -> Hr.
  destruct u as [|b [|c u]]; cbn in Hr; [discriminate|by injection Hr as -> ?|]. injection Hr as -> -> _.
  by rewrite (proj2 (starts_with_true (58 :: 47 :: 47 :: u) [58; 47; 47])) in E; [|exists u].
Qed.

(** What [find_sub] finds of one byte is that byte. *)
Lemma find_byte_lookup z s i : find_sub [z] s = Some i -> s !! i = Some z.
Proof.
  revert i. induction s as [|a s IH]; intros i; [done|]. cbn [find_sub].
  destruct (starts_with (a :: s) [z]) eqn:E; [apply starts_with_true in E as [r [= -> _]]; by intros [= <-]|].
  destruct (find_sub [z] s) as [j|]; [|done]. intros [= <-]. by apply IH.
Qed.

Lemma contains_byte z s : contains [z] s = bool_decide (z ∈ s).
Proof.
  unfold contains. destruct (find_sub [z] s) as [i|] eqn:E.
  - rewrite bool_decide_true; [done|]. by eapply list_elem_of_lookup_2, find_byte_lookup.
  - apply find_sub_byte_none in E. by rewrite bool_decide_false.
Qed.

Section Hide.
Context (rest : bytes).

(** A text in which a URL with the credentials [c] follows [x]. *)
Definition url_text (x c : bytes) : bytes := x ++ SCHEME_SEP ++ c ++ 64 :: rest.

Definition no_ws (c : bytes) : Prop := find_ws c = None.

(** Where the URL that [c] belongs to ends, when it is the last one. *)
Definition past (x c : bytes) : nat := (length x + (length c + (4 + ws_end rest)))%nat.

Lemma find_ws_credentials c : no_ws c -> find_ws (c ++ 64 :: rest) = (fun i => length c + S i)%nat <$> find_ws rest.
Proof.
  intros Hc. rewrite find_ws_app by (right; by right). rewrite Hc, find_ws_delim by (right; by right).
  by destruct (find_ws rest).
Qed.

Lemma find_ws_url x c : no_ws c ->
  find_ws (url_text x c) = match find_ws x with
                           | Some e => Some e
                           | None => (fun i => length x + (length c + (4 + i)))%nat <$> find_ws rest
                           end.
Proof.
  intros Hc. unfold url_text. change (SCHEME_SEP ++ c ++ 64 :: rest) with (58 :: 47 :: 47 :: (c ++ 64 :: rest)).
  rewrite find_ws_app by by left. destruct (find_ws x); [done|].
  rewrite (find_ws_delim 58) by by left. rewrite !(find_ws_delim 47) by (right; by left).
  rewrite find_ws_credentials by done. destruct (find_ws rest); [|done]. cbn. f_equal. lia.
Qed.

Lemma length_url x c : length (url_text x c) = (length x + (length c + (4 + length rest)))%nat.
Proof. unfold url_text. change SCHEME_SEP with [58; 47; 47]. rewrite !length_app. cbn [length]. lia. Qed.

Lemma ws_end_url x c : no_ws c -> ws_end (url_text x c) = match find_ws x with Some e => e | None => past x c end.
Proof.
  intros Hc. unfold ws_end at 1. rewrite find_ws_url, length_url by done. destruct (find_ws x); [done|].
  unfold past, ws_end. by destruct (find_ws rest).
Qed.

Lemma take_url x c e : (e <= length x)%nat -> take e (url_text x c) = take e x.
Proof. intros He. unfold url_text. by apply take_app_le. Qed.
Lemma drop_url x c e : (e <= length x)%nat -> drop e (url_text x c) = url_text (drop e x) c.
Proof. intros He. unfold url_text. by apply drop_app_le. Qed.

Lemma take_past x c : take (past x c) (url_text x c) = (x ++ SCHEME_SEP ++ c) ++ 64 :: take (ws_end rest) rest.
Proof.
  unfold url_text, past. rewrite !app_assoc. rewrite take_app_ge; rewrite !length_app; change (length SCHEME_SEP) with 3%nat; [|lia].
  f_equal. replace (_ - _)%nat with (S (ws_end rest)) by lia. done.
Qed.
Lemma drop_past x c : drop (past x c) (url_text x c) = drop (ws_end rest) rest.
Proof.
  unfold url_text, past. rewrite !app_assoc. rewrite drop_app_ge; rewrite !length_app; change (length SCHEME_SEP) with 3%nat; [|lia].
  by replace (_ - _)%nat with (S (ws_end rest)) by lia.
Qed.

(** Where a URL that starts before ends, when it ends before the credentials. *)
Definition line_stop (x : bytes) (e : nat) : nat :=
  match find_sub [10] x with
  | Some n => match find_sub SCHEME_SEP (take (n - e) (drop e x)) with Some i => (e + i)%nat | None => n end
  | None => match find_sub SCHEME_SEP (drop e x) with Some i => (e + i)%nat | None => length x end
  end.

Definition url_cut (x : bytes) : option nat :=
  match find_ws x with
  | None => None
  | Some e =>
      if contains [64] (take e x) then Some e
      else match find_sub [64] (take (line_stop x e - e) (drop e x)) with
           | Some i => match find_ws (drop (e + i) x) with Some j => Some (e + i + j)%nat | None => None end
           | None => Some e
           end
  end.

Lemma find_newline_late x c : no_ws c -> find_sub [10] x = None ->
  (length x + 3 <= default (length (url_text x c)) (find_sub [10%Z] (url_text x c)))%nat.
Proof.
  intros Hc Hx. destruct (find_sub [10] (url_text x c)) as [n|] eqn:E; cbn [default from_option]; [|rewrite length_url; lia].
  apply find_byte_lookup in E. destruct (Nat.le_gt_cases (length x + 3) n) as [|Hlt]; [done|]. exfalso.
  apply find_sub_byte_none in Hx. unfold url_text in E. rewrite app_assoc in E.
  rewrite lookup_app_l in E by (rewrite length_app; change (length SCHEME_SEP) with 3%nat; lia).
  apply list_elem_of_lookup_2, elem_of_app in E as [?|E]; [done|]. revert E.
  change SCHEME_SEP with [58; 47; 47]. rewrite !elem_of_cons. intros [|[|[|?%not_elem_of_nil]]]; done.
Qed.

(** The stop is decided before the credentials. *)
Lemma line_stop_url x c e : no_ws c -> (e <= length x)%nat -> (forall n, find_sub [10] x = Some n -> (e <= n)%nat) ->
  let line_end := default (length (url_text x c)) (find_sub [10] (url_text x c)) in
  match find_sub SCHEME_SEP (take (line_end - e) (drop e (url_text x c))) with Some i => (e + i)%nat | None => line_end end
  = line_stop x e /\ (line_stop x e <= length x)%nat.
Proof.
  intros Hc He Hn line_end. unfold line_stop.
  destruct (find_sub [10] x) as [n|] eqn:Ex.
  - specialize (Hn n eq_refl). pose proof (find_sub_len _ _ _ Ex) as Hl. cbn [length] in Hl.
    assert (line_end = n) as -> by (unfold line_end, url_text; by rewrite (find_sub_app _ _ _ _ Ex)).
    rewrite drop_url by done. rewrite take_url by (rewrite length_drop; lia). split; [done|].
    destruct (find_sub SCHEME_SEP (take (n - e) (drop e x))) as [i|] eqn:Ei; [|lia].
    apply find_sub_len in Ei. rewrite length_take, length_drop in Ei. lia.
  - pose proof (find_newline_late x c Hc Ex) as Hle. fold line_end in Hle.
    rewrite drop_url by done.
    assert (exists w, take (line_end - e) (url_text (drop e x) c) = drop e x ++ SCHEME_SEP ++ w) as (w & ->).
    { unfold url_text. rewrite app_assoc, take_app_ge by (rewrite length_app, length_drop; change (length SCHEME_SEP) with 3%nat; lia).
      eexists. by rewrite <- app_assoc. }
    destruct (find_sub SCHEME_SEP (drop e x)) as [i|] eqn:Ei.
    + rewrite (find_sub_app _ _ _ _ Ei). split; [done|]. apply find_sub_len in Ei. rewrite length_drop in Ei. lia.
    + rewrite find_sep_app by done. rewrite length_drop. lia.
Qed.

Lemma newline_is_ws x e n : find_ws x = Some e -> find_sub [10] x = Some n -> (e <= n)%nat.
Proof.
  revert e n. induction x as [|a x IH]; intros e n; [done|]. rewrite find_ws_cons.
  destruct (at_ws (a :: x)) eqn:Ea; [intros [= <-]; lia|]. destruct (find_ws x) as [e'|]; [|done]. cbn [fmap option_fmap option_map].
  intros [= <-]. cbn [find_sub]. destruct (starts_with (a :: x) [10]) eqn:Es.
  - apply starts_with_true in Es as [r [= -> ->]]. by vm_compute in Ea.
  - destruct (find_sub [10] x) as [n'|]; [|done]. intros [= <-]. specialize (IH e' n' eq_refl eq_refl). lia.
Qed.

Lemma url_end_url x c : no_ws c ->
  url_end (url_text x c) = match url_cut x with Some e => e | None => past x c end
  /\ (forall e, url_cut x = Some e -> e <= length x)%nat.
Proof.
  intros Hc. unfold url_end, url_cut. rewrite ws_end_url by done. destruct (find_ws x) as [e|] eqn:Ex.
  - pose proof (find_ws_lt _ _ Ex) as He. rewrite take_url by lia.
    destruct (contains [64] (take e x)); [split; [done|]; intros ? [= <-]; lia|].
    destruct (line_stop_url x c e Hc ltac:(lia) (fun n => newline_is_ws x e n Ex)) as [Hs Hle].
    cbn zeta in Hs. rewrite Hs. rewrite drop_url by lia. rewrite take_url by (rewrite length_drop; lia).
    destruct (find_sub [64] (take (line_stop x e - e) (drop e x))) as [i|] eqn:Ei; [|split; [done|]; intros ? [= <-]; lia].
    apply find_sub_len in Ei. rewrite length_take, length_drop in Ei. cbn [length] in Ei.
    rewrite drop_url by lia. rewrite ws_end_url by done.
    destruct (find_ws (drop (e + i) x)) as [j|] eqn:Ej.
    + split; [done|]. intros ? [= <-]. apply find_ws_lt in Ej. rewrite length_drop in Ej. lia.
    + split; [|done]. unfold past. rewrite length_drop. lia.
  - split; [|done]. rewrite take_past, contains_byte, bool_decide_true; [done|].
    rewrite elem_of_app. right. left.
Qed.

(** What is shown of a URL depends on what follows its last at-sign only. *)
Lemma hide_run_after u v : hide_run (u ++ 64 :: v) = hide_run (64 :: v).
Proof.
  assert (Hr : rfind_sub [64] (64 :: v) <> None).
  { cbn [rfind_sub]. destruct (rfind_sub [64] v); [done|].
    by rewrite (proj2 (starts_with_true (64 :: v) [64])) by by exists v. }
  unfold hide_run.
  assert (H : rfind_sub [64] (u ++ 64 :: v) = Nat.add (length u) <$> rfind_sub [64] (64 :: v)).
  { revert Hr. generalize (64 :: v). intros w Hr. induction u as [|a u IH]; cbn [app rfind_sub length].
    - by destruct (rfind_sub [64] w).
    - rewrite IH. by destruct (rfind_sub [64] w). }
  rewrite H. destruct (rfind_sub [64] (64 :: v)) as [i|]; [|done]. cbn [fmap option_fmap option_map].
  f_equal. rewrite drop_app_ge by lia. f_equal. lia.
Qed.
End Hide.

(** The rounds suffice. *)
Lemma userinfo_go_fuel n : forall m s, (length s <= n)%nat -> (length s <= m)%nat -> userinfo_go n s = userinfo_go m s.
Proof.
  assert (Hnil : forall m, userinfo_go m [] = []) by by intros [|m].
  induction n as [|n IH]; intros m s Hn Hm.
  - destruct s; [|simpl in Hn; lia]. by rewrite Hnil.
  - destruct m as [|m]; [destruct s; [|simpl in Hm; lia]; by rewrite Hnil|]. cbn [userinfo_go].
    destruct (find_sub SCHEME_SEP s) as [a|] eqn:E; [|done]. apply find_sub_len in E. change (length SCHEME_SEP) with 3%nat in E.
    do 2 f_equal. apply IH; rewrite !length_drop; lia.
Qed.

Lemma userinfo_go_hides rest c c' : no_ws c -> no_ws c' -> forall k pre n m, (length pre <= k)%nat ->
  (length (url_text rest pre c) <= n)%nat -> (length (url_text rest pre c') <= m)%nat ->
  userinfo_go n (url_text rest pre c) = userinfo_go m (url_text rest pre c').
Proof.
  intros Hc Hc' k. induction k as [k IH] using lt_wf_ind. intros pre n m Hk Hn Hm.
  pose proof (length_url rest pre c) as Hl. pose proof (length_url rest pre c') as Hl'.
  destruct n as [|n]; [lia|]. destruct m as [|m]; [lia|]. cbn [userinfo_go].
  destruct (find_sub SCHEME_SEP pre) as [a|] eqn:Ea.
  - pose proof (find_sub_len _ _ _ Ea) as Hla. change (length SCHEME_SEP) with 3%nat in Hla.
    assert (Hf : forall c, find_sub SCHEME_SEP (url_text rest pre c) = Some a) by (intros d; by apply find_sub_app).
    rewrite !Hf, (take_url rest pre c), (take_url rest pre c'), (drop_url rest pre c), (drop_url rest pre c') by lia.
    assert (exists x, drop (a + 3) pre = x /\ length x <= length pre - 3)%nat as (x & -> & Hx)
      by (eexists; split; [done|]; rewrite length_drop; lia).
    destruct (url_end_url rest x c Hc) as [Hu Hle]. destruct (url_end_url rest x c' Hc') as [Hu' _]. rewrite Hu, Hu'.
    destruct (url_cut x) as [e|].
    + specialize (Hle e eq_refl). rewrite !take_url, !drop_url by done. do 2 f_equal.
      apply (IH (length (drop e x))); rewrite ?length_url, ?length_drop in *; lia.
    + rewrite !take_past, !drop_past. rewrite !(hide_run_after (x ++ _)). do 2 f_equal.
      apply userinfo_go_fuel; rewrite length_drop; lia.
  - assert (Hf : forall c, find_sub SCHEME_SEP (url_text rest pre c) = Some (length pre)) by (intros d; by apply find_sep_app).
    assert (Ht : forall d, take (length pre + 3) (url_text rest pre d) = pre ++ SCHEME_SEP).
    { intros d. unfold url_text. rewrite app_assoc. apply take_app_length'. by rewrite length_app. }
    assert (Hd : forall d, drop (length pre + 3) (url_text rest pre d) = d ++ 64 :: rest).
    { intros d. unfold url_text. rewrite app_assoc. apply drop_app_length'. by rewrite length_app. }
    assert (He : forall d, no_ws d -> url_end (d ++ 64 :: rest) = (length d + S (ws_end rest))%nat).
    { intros d Hd'. assert (Hw : ws_end (d ++ 64 :: rest) = (length d + S (ws_end rest))%nat).
      { unfold ws_end. rewrite find_ws_credentials, length_app by done. cbn [length]. by destruct (find_ws rest). }
      unfold url_end. rewrite Hw, contains_byte, bool_decide_true; [done|].
      rewrite take_app_ge by lia. rewrite elem_of_app. right. replace (_ - _)%nat with (S (ws_end rest)) by lia. left. }
    rewrite !Hf, !Ht, !Hd, !He by done.
    assert (Hrun : forall d, take (length d + S (ws_end rest)) (d ++ 64 :: rest) = d ++ 64 :: take (ws_end rest) rest).
    { intros d. rewrite take_app_ge by lia. replace (_ - _)%nat with (S (ws_end rest)) by lia. done. }
    assert (Hdr : forall d, drop (length d + S (ws_end rest)) (d ++ 64 :: rest) = drop (ws_end rest) rest).
    { intros d. rewrite drop_app_ge by lia. by replace (_ - _)%nat with (S (ws_end rest)) by lia. }
    rewrite !Hrun, !Hdr, !(hide_run_after c), !(hide_run_after c'). do 2 f_equal.
    apply userinfo_go_fuel; rewrite length_drop; lia.
Qed.

(** What the edge prints of a text does not depend on the credentials of a URL in it: wherever the URL
    stands, and whatever else the text holds, two passwords without white space are printed alike. *)
Theorem credentials_not_printed pre c c' rest :
  no_ws c -> no_ws c' ->
  userinfo (pre ++ lit "://" ++ c ++ lit "@" ++ rest) = userinfo (pre ++ lit "://" ++ c' ++ lit "@" ++ rest).
Proof.
  intros Hc Hc'. change (lit "@" ++ rest) with (64 :: rest).
  assert (Hu : forall d, userinfo (url_text rest pre d) = userinfo_go (length (url_text rest pre d)) (url_text rest pre d)).
  { intros d. unfold userinfo. rewrite contains_byte, bool_decide_true.
    2: { unfold url_text. rewrite !elem_of_app. do 3 right. left. }
    unfold contains. destruct (find_sub SCHEME_SEP (url_text rest pre d)) eqn:E; [done|]. exfalso.
    eapply (find_sub_none _ _ (length pre)); [exact E| |unfold url_text; by rewrite drop_app_length].
    rewrite length_url. lia. }
  change (userinfo (url_text rest pre c) = userinfo (url_text rest pre c')). rewrite !Hu.
  by apply (userinfo_go_hides rest c c' Hc Hc' (length pre)).
Qed.

Lemma credentials_not_printed_witness :
  userinfo (lit "cannot reach redis" ++ lit "://" ++ lit "user:p@ss;1" ++ lit "@" ++ lit "cache:6379 (see http://x)")
  = userinfo (lit "cannot reach redis" ++ lit "://" ++ lit "x" ++ lit "@" ++ lit "cache:6379 (see http://x)")
  /\ userinfo (lit "cannot reach redis://x@cache:6379 (see http://x)") = lit "cannot reach redis://***@cache:6379 (see http://x)".
Proof.
  split; [|vm_compute; reflexivity].
  apply (credentials_not_printed (lit "cannot reach redis") (lit "user:p@ss;1") (lit "x") (lit "cache:6379 (see http://x)"));
    vm_compute; reflexivity.
Defined.
