(* ===== verification/Der.v ===== *)
(** * Der: the DER walker of [src/src/certstore.rs] ([mod der])

    One TLV at a time ([read], [expect]), then the fields of a certificate ([parse]), of a revocation
    list ([crl]) and the names a certificate is issued to ([names]).  The [time] and [base64] crates are
    parameters.  A [while !x.is_empty()] loop over TLVs is [each], whose fuel is the length of what is
    left: every [read] consumes at least two bytes ([each_fuel]). *)

From S2P Require Import Prelude Text.

Definition SEQUENCE : Z := 48.
Definition INTEGER : Z := 2.
Definition UTC_TIME : Z := 23.
Definition GENERALIZED_TIME : Z := 24.
Definition EXPLICIT_0 : Z := 160.
Definition OID : Z := 6.

Record Tlv : Type := mkTlv { tag : Z; value : bytes; whole : bytes; rest : bytes }.

(** The bytes of a long-form length, most significant first. *)
Definition be_len (l : bytes) : Z := fold_left (fun acc b => Z.lor (wrap 64 (Z.shiftl acc 8)) b) l 0.

Definition read (input : bytes) : result Tlv :=
  match input with
  | t :: first :: _ =>
      let? lh :=
        (if first <? 128 then Ok (first, 2)
         else
           let n := Z.land first 127 in
           ensure ((1 <=? n) && (n <=? 4)) else "unsupported DER length encoding";
           ensure (2 + n <=? len input) else "truncated DER length";
           Ok (be_len (take (Z.to_nat n) (drop 2 input)), 2 + n)) in
      let header := lh.2 in
      let end_ := header + lh.1 in
      ensure (end_ <? 2 ^ 64) else "DER length overflow";
      ensure (end_ <=? len input) else "DER value runs past the end of its container";
      Ok (mkTlv t (drop (Z.to_nat header) (take (Z.to_nat end_) input))
            (take (Z.to_nat end_) input) (drop (Z.to_nat end_) input))
  | _ => Err "truncated DER"
  end.

Definition expect (input : bytes) (t : Z) : result Tlv :=
  let? tlv := read input in
  ensure (tag tlv =? t) else "unexpected DER tag";
  Ok tlv.

(** [while !x.is_empty() { let t = read(x)?; x = t.rest; .. }]: the body goes on ([inl]) or leaves the
    loop ([inr]). *)
Fixpoint each {A} (body : Tlv -> A -> result (A + A)) (fuel : nat) (input : bytes) (acc : A) : result A :=
  match input, fuel with
  | [], _ => Ok acc
  | _, O => Err "out of fuel"
  | _, S fuel =>
      let? t := read input in
      let? r := body t acc in
      match r with inl acc => each body fuel (rest t) acc | inr acc => Ok acc end
  end.

Definition each_tlv {A} (body : Tlv -> A -> result (A + A)) (input : bytes) (acc : A) : result A :=
  each body (length input) input acc.

(** [while matches!(cur.first(), Some(0x81 | 0x82 | 0xa1 | 0xa2))]. *)
Fixpoint skip_unique_ids (fuel : nat) (cur : bytes) : result bytes :=
  match cur, fuel with
  | c :: _, S fuel =>
      if (c =? 129) || (c =? 130) || (c =? 161) || (c =? 162)
      then let? t := read cur in skip_unique_ids fuel (rest t)
      else Ok cur
  | _, _ => Ok cur
  end.

Definition first_is (cur : bytes) (t : Z) : bool := match cur with c :: _ => c =? t | [] => false end.

(** The [extnValue] of the extension [oid], reading from just after [subject]. *)
Definition extension (after_subject oid : bytes) : result (option bytes) :=
  let? spki := expect after_subject SEQUENCE in
  let? cur := skip_unique_ids (length (rest spki)) (rest spki) in
  if negb (first_is cur 163) then Ok None
  else
    let? wrapper := read cur in
    let? exts := expect (value wrapper) SEQUENCE in
    each_tlv (fun ext _ =>
      ensure (tag ext =? SEQUENCE) else "unexpected DER tag";
      let? id := expect (value ext) OID in
      if negb (beq (value id) oid) then Ok (inl None)
      else
        let? r := (if first_is (rest id) 1 then let? b := read (rest id) in Ok (rest b)
                   else Ok (rest id)) in
        let? v := expect r 4 in
        Ok (inr (Some (value v)))) (value exts) None.

Definition AKI_OID : bytes := [85; 29; 35].
Definition CN_OID : bytes := [85; 4; 3].
Definition SAN_OID : bytes := [85; 29; 17].

Definition authority_key_id (after_subject : bytes) : result (option bytes) :=
  let? ext := extension after_subject AKI_OID in
  match ext with
  | None => Ok None
  | Some v =>
      let? aki := expect v SEQUENCE in
      if first_is (value aki) 128 then let? k := read (value aki) in Ok (Some (value k)) else Ok None
  end.

(** A directory-string value as text. *)
Definition text (v : Tlv) : option bytes :=
  if ((tag v =? 12) || (tag v =? 19) || (tag v =? 22)) && from_utf8_ok (value v) && negb (beq (value v) [])
  then Some (value v) else None.

Record CertNames : Type := mkNames {
  common_name : option bytes; dns : list bytes; uris : list bytes; emails : list bytes
}.
Definition no_names : CertNames := mkNames None [] [] [].

Definition is_ascii (s : bytes) : bool := forallb (fun c => c <? 128) s.

(** The fields up to [subject]: serial, issuer, validity, subject. *)
Definition tbs_fields (der : bytes) : result (Tlv * Tlv * Tlv * Tlv) :=
  let? cert := expect der SEQUENCE in
  let? tbs := expect (value cert) SEQUENCE in
  let? cur := (if first_is (value tbs) EXPLICIT_0 then let? v := read (value tbs) in Ok (rest v)
               else Ok (value tbs)) in
  let? serial := expect cur INTEGER in
  let? sig := expect (rest serial) SEQUENCE in
  let? issuer := expect (rest sig) SEQUENCE in
  let? validity := expect (rest issuer) SEQUENCE in
  let? subject := expect (rest validity) SEQUENCE in
  Ok (serial, issuer, validity, subject).

(** The first common name that is text ([break 'rdns]). *)
Definition subject_cn (subject : bytes) : result (option bytes) :=
  each_tlv (fun rdn _ =>
    ensure (tag rdn =? 49) else "unexpected DER tag";
    let? cn := each_tlv (fun atv _ =>
      ensure (tag atv =? SEQUENCE) else "unexpected DER tag";
      let? kind := expect (value atv) OID in
      if beq (value kind) CN_OID then
        let? v := read (rest kind) in
        match text v with Some n => Ok (inr (Some n)) | None => Ok (inl None) end
      else Ok (inl None)) (value rdn) None in
    match cn with Some n => Ok (inr (Some n)) | None => Ok (inl None) end) subject None.

Definition general_name (name : Tlv) (ns : CertNames) : result (CertNames + CertNames) :=
  let v := value name in
  Ok (inl
    (if negb (from_utf8_ok v && is_ascii v && negb (beq v [])) then ns
     else if tag name =? 130 then mkNames (common_name ns) (dns ns ++ [to_ascii_lowercase v]) (uris ns) (emails ns)
     else if tag name =? 134 then mkNames (common_name ns) (dns ns) (uris ns ++ [v]) (emails ns)
     else if tag name =? 129 then mkNames (common_name ns) (dns ns) (uris ns) (emails ns ++ [to_ascii_lowercase v])
     else ns)).

Definition names (der : bytes) : result CertNames :=
  let? fs := tbs_fields der in
  let '(_, _, _, subject) := fs in
  let? cn := subject_cn (value subject) in
  let? san := extension (rest subject) SAN_OID in
  match san with
  | None => Ok (mkNames cn [] [] [])
  | Some s =>
      let? gns := expect s SEQUENCE in
      each_tlv general_name (value gns) (mkNames cn [] [] [])
  end.

(** [num::<T>]: digits only, and at most [max]. *)
Definition num (max : Z) (s : bytes) : result Z :=
  ensure (forallb is_digit s) else "non-digit";
  match parse_uint 64 s with
  | Some n => ensure (n <=? max) else "number out of range"; Ok n
  | None => Err "number out of range"
  end.

Record AriId : Type := mkAriId { aki : bytes; ari_serial : bytes }.
Record CertInfo : Type := mkCertInfo {
  not_before : Z; not_after : Z; serial : bytes; self_issued : bool; ari_id : option AriId
}.
Record CrlInfo : Type := mkCrlInfo { this_update : Z; next_update : option Z }.

Definition stale (c : CrlInfo) (now : Z) : bool :=
  match next_update c with Some t => t <=? now | None => false end.

(** [format!("{b:02x}")] of every byte. *)
Definition hex2 (s : bytes) : bytes := concat (map (fun b => [hex_digit (b / 16); hex_digit (b mod 16)]) s).

Section Fields.
Context {Date Time : Type}.
Variable from_calendar_date : Z -> Z -> Z -> option Date.   (** [time::Date::from_calendar_date] *)
Variable from_hms : Z -> Z -> Z -> option Time.             (** [time::Time::from_hms] *)
Variable unix_timestamp : Date -> Time -> Z.                (** [assume_utc().unix_timestamp()] *)
Variable b64url : bytes -> bytes.                           (** [URL_SAFE_NO_PAD.encode] *)

Definition time_to_unix (t : Z) (v : bytes) : result Z :=
  ensure (is_ascii v) else "certificate time is not ASCII";
  let? yr :=
    (if t =? UTC_TIME then
       ensure (len v =? 13) else "malformed UTCTime";
       let? yy := num (2 ^ 31 - 1) (take 2 v) in
       Ok (if 50 <=? yy then 1900 + yy else 2000 + yy, drop 2 v)
     else if t =? GENERALIZED_TIME then
       ensure (len v =? 15) else "malformed GeneralizedTime";
       let? y := num (2 ^ 31 - 1) (take 4 v) in
       Ok (y, drop 4 v)
     else Err "unexpected time tag") in
  let r := yr.2 in
  ensure (ends_with r [90]) else "certificate time is not UTC";
  let field i := num 255 (take 2 (drop i r)) in
  let? month := field 0%nat in
  ensure ((1 <=? month) && (month <=? 12)) else "bad month";
  let? day := field 2%nat in
  let? date := ok_or (from_calendar_date yr.1 month day) "bad date" in
  let? h := field 4%nat in
  let? m := field 6%nat in
  let? s := field 8%nat in
  let? clock := ok_or (from_hms h m s) "bad time of day" in
  Ok (unix_timestamp date clock).

Definition parse (der : bytes) : result CertInfo :=
  let? fs := tbs_fields der in
  let '(sn, issuer, validity, subject) := fs in
  let? nb := read (value validity) in
  let? na := read (rest nb) in
  let ari := match authority_key_id (rest subject) with
             | Ok (Some k) => Some (mkAriId (b64url k) (b64url (value sn)))
             | _ => None
             end in
  let? before := time_to_unix (tag nb) (value nb) in
  let? after := time_to_unix (tag na) (value na) in
  Ok (mkCertInfo before after (hex2 (value sn)) (beq (whole issuer) (whole subject)) ari).

Definition crl (der : bytes) : result CrlInfo :=
  let? lst := expect der SEQUENCE in
  let? tbs := expect (value lst) SEQUENCE in
  let? cur := (if first_is (value tbs) INTEGER then let? v := read (value tbs) in Ok (rest v)
               else Ok (value tbs)) in
  let? sig := expect cur SEQUENCE in
  let? issuer := expect (rest sig) SEQUENCE in
  let? this := read (rest issuer) in
  let? next := match read (rest this) with
               | Ok n => if (tag n =? UTC_TIME) || (tag n =? GENERALIZED_TIME)
                         then let? t := time_to_unix (tag n) (value n) in Ok (Some t)
                         else Ok None
               | Err _ => Ok None
               end in
  let? at_ := time_to_unix (tag this) (value this) in
  Ok (mkCrlInfo at_ next).
End Fields.

(** ** Laws: what the DER walker reads

    A definite-length encoder and the certificates it writes: [read] gives back what was encoded and
    never reads past it, loops over TLVs end, and [names] finds the names of an encoded certificate. *)

(** ** One TLV *)

Definition enc_len (n : Z) : bytes :=
  if n <? 128 then [n]
  else if n <? 2 ^ 8 then [129; n]
  else if n <? 2 ^ 16 then [130; n / 2 ^ 8; n mod 2 ^ 8]
  else if n <? 2 ^ 24 then [131; n / 2 ^ 16; (n / 2 ^ 8) mod 2 ^ 8; n mod 2 ^ 8]
  else [132; n / 2 ^ 24; (n / 2 ^ 16) mod 2 ^ 8; (n / 2 ^ 8) mod 2 ^ 8; n mod 2 ^ 8].

Definition enc (t : Z) (v : bytes) : bytes := t :: enc_len (len v) ++ v.

Lemma be_step acc b : 0 <= acc < 2 ^ 56 -> 0 <= b < 2 ^ 8 ->
  Z.lor (wrap 64 (Z.shiftl acc 8)) b = acc * 2 ^ 8 + b.
Proof.
  intros Ha Hb. rewrite Z.shiftl_mul_pow2, wrap_small by (unfold in_u; lia).
  enough (Z.land (acc * 2 ^ 8) b = 0) as H by (rewrite <- Z.add_lor_land, H; lia).
  apply Z.bits_inj'. intros i Hi. rewrite Z.land_spec, Z.bits_0, <- Z.shiftl_mul_pow2, Z.shiftl_spec by lia.
  destruct (Z.lt_ge_cases i 8); [by rewrite Z.testbit_neg_r by lia|].
  destruct (Z.eq_dec b 0) as [->|]; [by rewrite Z.bits_0, andb_false_r|].
  rewrite (Z.bits_above_log2 b), andb_false_r; [done|lia|].
  apply Z.log2_lt_pow2; [lia|]. apply Z.lt_le_trans with (2 ^ 8); [lia|]. apply Z.pow_le_mono_r; lia.
Qed.

(** What [read] answers once the header has given the length [n] and its own size [h]. *)
Definition body_at (t : Z) (input : bytes) (h n : Z) : result Tlv :=
  ensure (h + n <=? len input) else "DER value runs past the end of its container";
  Ok (mkTlv t (drop (Z.to_nat h) (take (Z.to_nat (h + n)) input))
        (take (Z.to_nat (h + n)) input) (drop (Z.to_nat (h + n)) input)).

Lemma read_short t n tl : 0 <= n < 128 -> read (t :: n :: tl) = body_at t (t :: n :: tl) 2 n.
Proof.
  intros Hn. unfold read, body_at. replace (n <? 128) with true by (symmetry; apply Z.ltb_lt; lia).
  cbn [rbind fst snd]. by replace (2 + n <? 2 ^ 64) with true by (symmetry; apply Z.ltb_lt; lia).
Qed.

Lemma read_long t k hs tl :
  1 <= k <= 4 -> len hs = k -> 0 <= be_len hs < 2 ^ 32 ->
  read (t :: 128 + k :: hs ++ tl) = body_at t (t :: 128 + k :: hs ++ tl) (2 + k) (be_len hs).
Proof.
  intros Hk Hl Hb. unfold read, body_at. pose proof (len_nonneg tl).
  replace (128 + k <? 128) with false by (symmetry; apply Z.ltb_ge; lia).
  replace (Z.land (128 + k) 127) with k.
  2:{ assert (k = 1 \/ k = 2 \/ k = 3 \/ k = 4) as [->|[->|[->| ->]]] by lia; reflexivity. }
  replace (1 <=? k) with true by (symmetry; apply Z.leb_le; lia).
  replace (k <=? 4) with true by (symmetry; apply Z.leb_le; lia). cbn [andb].
  replace (2 + k <=? len (t :: 128 + k :: hs ++ tl)) with true.
  2:{ symmetry. apply Z.leb_le. unfold len in *. simpl length. rewrite length_app. lia. }
  cbn [rbind]. replace (take (Z.to_nat k) (drop 2 (t :: 128 + k :: hs ++ tl))) with hs.
  2:{ change (drop 2 (t :: 128 + k :: hs ++ tl)) with (hs ++ tl). rewrite take_app_length'; [done|].
      unfold len in Hl. lia. }
  cbn [fst snd]. by replace (2 + k + be_len hs <? 2 ^ 64) with true by (symmetry; apply Z.ltb_lt; lia).
Qed.

Lemma enc_len_range n : 0 <= n < 2 ^ 32 -> 1 <= len (enc_len n) <= 5.
Proof. intros Hn. unfold enc_len, len. repeat case_match; simpl length; lia. Qed.

Lemma be_cons a b l : 0 <= a < 2 ^ 56 -> 0 <= b < 2 ^ 8 ->
  fold_left (fun acc b => Z.lor (wrap 64 (Z.shiftl acc 8)) b) (b :: l) a
  = fold_left (fun acc b => Z.lor (wrap 64 (Z.shiftl acc 8)) b) l (a * 2 ^ 8 + b).
Proof. intros Ha Hb. cbn [fold_left]. by rewrite be_step. Qed.

(** Evaluates a long-form length of known bytes. *)
Ltac be := unfold be_len; repeat (rewrite be_cons by lia); cbn [fold_left]; lia.

Lemma read_header t n tl :
  0 <= n < 2 ^ 32 ->
  read (t :: enc_len n ++ tl) = body_at t (t :: enc_len n ++ tl) (1 + len (enc_len n)) n.
Proof.
  intros Hn. unfold enc_len.
  assert (Hb : forall k, 0 <= (n / 2 ^ k) mod 2 ^ 8 < 2 ^ 8) by (intros k; apply Z.mod_pos_bound; lia).
  assert (H0 : 0 <= n mod 2 ^ 8 < 2 ^ 8) by (apply Z.mod_pos_bound; lia).
  assert (E1 : n = 2 ^ 8 * (n / 2 ^ 8) + n mod 2 ^ 8) by (apply Z.div_mod; lia).
  assert (E2 : n / 2 ^ 8 = 2 ^ 8 * (n / 2 ^ 16) + (n / 2 ^ 8) mod 2 ^ 8)
    by (change (2 ^ 16) with (2 ^ 8 * 2 ^ 8); rewrite <- Z.div_div by lia; apply Z.div_mod; lia).
  assert (E3 : n / 2 ^ 16 = 2 ^ 8 * (n / 2 ^ 24) + (n / 2 ^ 16) mod 2 ^ 8)
    by (change (2 ^ 24) with (2 ^ 16 * 2 ^ 8); rewrite <- (Z.div_div n (2 ^ 16)) by lia; apply Z.div_mod; lia).
  pose proof (Hb 8). pose proof (Hb 16). clear Hb.
  assert (0 <= n / 2 ^ 24) by (apply Z.div_pos; lia).
  destruct (Z.ltb_spec n 128); [apply read_short; lia|].
  destruct (Z.ltb_spec n (2 ^ 8)).
  { pose proof (read_long t 1 [n] tl) as H'. replace (be_len [n]) with n in H' by be. apply H'; [lia|done|lia]. }
  destruct (Z.ltb_spec n (2 ^ 16)).
  { pose proof (read_long t 2 [n / 2 ^ 8; n mod 2 ^ 8] tl) as H'.
    replace (be_len _) with n in H' by be. apply H'; [lia|done|lia]. }
  destruct (Z.ltb_spec n (2 ^ 24)).
  { pose proof (read_long t 3 [n / 2 ^ 16; (n / 2 ^ 8) mod 2 ^ 8; n mod 2 ^ 8] tl) as H'.
    replace (be_len _) with n in H' by be. apply H'; [lia|done|lia]. }
  pose proof (read_long t 4 [n / 2 ^ 24; (n / 2 ^ 16) mod 2 ^ 8; (n / 2 ^ 8) mod 2 ^ 8; n mod 2 ^ 8] tl) as H'.
  replace (be_len _) with n in H' by be. apply H'; [lia|done|lia].
Qed.

Lemma read_enc t v r : len v < 2 ^ 32 -> read (enc t v ++ r) = Ok (mkTlv t v (enc t v) r).
Proof.
  intros Hv. pose proof (len_nonneg v). unfold enc. cbn [app]. rewrite <- app_assoc.
  rewrite read_header by lia. unfold body_at. pose proof (enc_len_range (len v) ltac:(lia)).
  set (h := enc_len (len v)) in *. pose proof (len_nonneg r).
  assert (Hl : len (t :: h ++ v ++ r) = 1 + len h + len v + len r)
    by (unfold len; simpl length; rewrite !length_app; lia).
  rewrite Hl. replace (1 + len h + len v <=? 1 + len h + len v + len r) with true by (symmetry; apply Z.leb_le; lia).
  replace (t :: h ++ v ++ r) with ((t :: h ++ v) ++ r) by (cbn [app]; by rewrite app_assoc).
  assert (He : Z.to_nat (1 + len h + len v) = length (t :: h ++ v))
    by (unfold len; simpl length; rewrite length_app; lia).
  rewrite He, take_app_length, drop_app_length. do 2 f_equal.
  change (t :: h ++ v) with ((t :: h) ++ v). rewrite drop_app_length'; [done|]. unfold len. simpl length. lia.
Qed.

Lemma expect_enc t v r : len v < 2 ^ 32 -> expect (enc t v ++ r) t = Ok (mkTlv t v (enc t v) r).
Proof. intros Hv. unfold expect. rewrite read_enc by done. cbn [rbind tag]. by rewrite Z.eqb_refl. Qed.

(** Whatever the bytes, a TLV that is read is a prefix of them, at least two bytes long, and its value
    the end of that prefix. *)
Definition octets (s : bytes) : Prop := Forall (fun b => 0 <= b < 2 ^ 8) s.

Lemma octets_app a b : octets (a ++ b) <-> octets a /\ octets b.
Proof. apply Forall_app. Qed.

Lemma be_len_nonneg l : octets l -> 0 <= be_len l.
Proof.
  unfold be_len. intros Hl. assert (G : forall a, 0 <= a ->
    0 <= fold_left (fun acc b => Z.lor (wrap 64 (Z.shiftl acc 8)) b) l a); [|by apply G].
  induction Hl as [|b l Hb Hl IH]; intros a Ha; [done|]. cbn [fold_left].
  apply IH. apply Z.lor_nonneg. split; [|lia]. apply (wrap_range 64). lia.
Qed.

Lemma read_prefix input t :
  octets input -> read input = Ok t ->
  input = whole t ++ rest t /\ (2 <= length (whole t))%nat
  /\ exists h, whole t = h ++ value t /\ head h = Some (tag t).
Proof.
  unfold read. destruct input as [|a [|b tl]]; [done..|]. intros Hoct H. run_inv H. subst t.
  cbn [whole rest value tag]. destruct v as [n h]. cbn [fst snd] in *. set (input := a :: b :: tl) in *.
  assert (Hh : 2 <= h /\ 0 <= n).
  { assert (Hb : octets (b :: tl)) by (apply Forall_cons in Hoct; apply Hoct).
    apply Forall_cons in Hb as [Hb Htl]. destruct (Z.ltb_spec b 128); [injection Hv as <- <-; lia|].
    run_inv Hv. subst n h. apply andb_true_iff in He1 as [He1 _]. apply Z.leb_le in He1.
    split; [lia|]. apply be_len_nonneg. by apply Forall_take. }
  apply Z.leb_le in He0. unfold len in He0. split; [by rewrite take_drop|].
  split; [rewrite length_take; lia|].
  exists (take (Z.to_nat h) (take (Z.to_nat (h + n)) input)). split; [by rewrite take_drop|].
  rewrite take_take. replace (Z.to_nat h `min` Z.to_nat (h + n))%nat with (S (pred (Z.to_nat h))) by lia. done.
Qed.

Lemma read_octets input t : octets input -> read input = Ok t -> octets (value t) /\ octets (rest t).
Proof.
  intros Ho Hr. destruct (read_prefix _ _ Ho Hr) as (E & _ & h & Ew & _). rewrite E, Ew in Ho.
  rewrite !octets_app in Ho. tauto.
Qed.

(** Fuel beyond the length of the input changes nothing: the loops of the walker end. *)
Lemma each_fuel {A} (body : Tlv -> A -> result (A + A)) input acc n :
  octets input -> (length input <= n)%nat -> each body n input acc = each_tlv body input acc.
Proof.
  unfold each_tlv. revert input acc n. assert (H : forall k input acc n m, octets input ->
    (length input <= k)%nat -> (length input <= n)%nat -> (length input <= m)%nat ->
    each body n input acc = each body m input acc); [|intros; eauto].
  induction k as [|k IH]; intros [|c input] acc n m Ho Hk Hn Hm; try (simpl in *; lia).
  1,2: by destruct n, m.
  destruct n as [|n], m as [|m]; try (simpl in *; lia). cbn [each].
  destruct (read (c :: input)) as [t|] eqn:Hr; [|done]. cbn [rbind].
  destruct (body t acc) as [[a|a]|]; [|done..]. cbn [rbind].
  destruct (read_prefix _ _ Ho Hr) as (E & H2 & _). pose proof (read_octets _ _ Ho Hr) as [_ Ho'].
  assert (length (c :: input) = length (whole t) + length (rest t))%nat by (rewrite E at 1; apply length_app).
  simpl in *. apply IH; (done || lia).
Qed.

(** ** Runs of TLVs *)

Definition encs (l : list (Z * bytes)) : bytes := concat (map (fun p => enc p.1 p.2) l).

(** A list of items, each short enough to encode. *)
Definition fits (l : list (Z * bytes)) : Prop := Forall (fun p => len p.2 < 2 ^ 32) l.

Fixpoint run {A} (body : Tlv -> A -> result (A + A)) (items : list (Z * bytes)) (acc : A) : result A :=
  match items with
  | [] => Ok acc
  | (t, v) :: items =>
      let? r := body (mkTlv t v (enc t v) (encs items)) acc in
      match r with inl acc => run body items acc | inr acc => Ok acc end
  end.

Lemma each_encs {A} (body : Tlv -> A -> result (A + A)) items acc :
  fits items -> each_tlv body (encs items) acc = run body items acc.
Proof.
  unfold each_tlv. intros Hf. assert (G : forall n, (length (encs items) <= n)%nat ->
    each body n (encs items) acc = run body items acc); [|by apply G].
  revert acc. induction Hf as [|[t v] items Hv Hf IH]; intros acc n Hn; [by destruct n|].
  cbn [run]. unfold encs in *. cbn [map concat fst snd] in *. change (concat (map _ items)) with (encs items) in *.
  assert (Hl : (length (enc t v ++ encs items) = S (length (enc_len (len v) ++ v ++ encs items)))%nat)
    by (unfold enc; cbn [app]; by rewrite <- app_assoc).
  destruct n as [|n]; [lia|]. assert (Hn' : (length (encs items) <= n)%nat)
    by (rewrite Hl, !length_app in Hn; lia).
  pose proof (read_enc t v (encs items) Hv) as Hr.
  destruct (enc t v ++ encs items) as [|c tl] eqn:E; [done|]. cbn [each]. rewrite Hr. cbn [rbind].
  destruct (body _ acc) as [[a|a]|]; [|done..]. cbn [rbind rest]. by apply IH.
Qed.

(** ** Names *)

(** The names a list of [GeneralName]s holds, of one kind. *)
Definition of_kind (t : Z) (l : list (Z * bytes)) : list bytes :=
  map snd (List.filter (fun p => (p.1 =? t) && (from_utf8_ok p.2 && is_ascii p.2 && negb (beq p.2 []))) l).

Lemma run_general_names l ns :
  run general_name l ns
  = Ok (mkNames (common_name ns) (dns ns ++ map to_ascii_lowercase (of_kind 130 l)) (uris ns ++ of_kind 134 l)
          (emails ns ++ map to_ascii_lowercase (of_kind 129 l))).
Proof.
  revert ns. induction l as [|[t v] l IH]; intros ns; [cbn; rewrite !app_nil_r; by destruct ns|].
  cbn [run general_name rbind tag value]. rewrite IH. unfold of_kind. cbn [List.filter fst snd].
  destruct (from_utf8_ok v && is_ascii v && negb (beq v [])); cbn [negb].
  2: by rewrite !andb_false_r.
  rewrite !andb_true_r. destruct (Z.eqb_spec t 130) as [->|].
  { cbn. by rewrite <- app_assoc. }
  destruct (Z.eqb_spec t 134) as [->|]; [cbn; by rewrite <- app_assoc|].
  destruct (Z.eqb_spec t 129) as [->|]; [cbn; by rewrite <- app_assoc|]. done.
Qed.

(** ** Certificates *)

(** The parts of a certificate the walker looks at; the others are opaque contents. *)
Record Cert : Type := mkCert {
  c_version : option bytes; c_serial : bytes; c_sig : bytes; c_issuer : bytes; c_validity : bytes;
  c_subject : list (list (bytes * (Z * bytes)));     (** attribute type, value *)
  c_spki : bytes;
  c_exts : list (bytes * option bytes * bytes);      (** type, [critical], value *)
  c_tail : bytes
}.

Definition atv_item (a : bytes * (Z * bytes)) : Z * bytes := (SEQUENCE, enc OID a.1 ++ enc a.2.1 a.2.2).
Definition rdn_item (r : list (bytes * (Z * bytes))) : Z * bytes := (49, encs (map atv_item r)).
Definition ext_item (e : bytes * option bytes * bytes) : Z * bytes :=
  (SEQUENCE, enc OID e.1.1 ++ match e.1.2 with Some b => enc 1 b | None => [] end ++ enc 4 e.2).

Definition enc_exts (l : list (bytes * option bytes * bytes)) : bytes :=
  match l with [] => [] | _ => enc 163 (enc SEQUENCE (encs (map ext_item l))) end.

Definition enc_tbs (c : Cert) : bytes :=
  match c_version c with Some v => enc EXPLICIT_0 v | None => [] end
  ++ enc INTEGER (c_serial c) ++ enc SEQUENCE (c_sig c) ++ enc SEQUENCE (c_issuer c)
  ++ enc SEQUENCE (c_validity c) ++ enc SEQUENCE (encs (map rdn_item (c_subject c)))
  ++ enc SEQUENCE (c_spki c) ++ enc_exts (c_exts c).

Definition enc_cert (c : Cert) : bytes := enc SEQUENCE (enc SEQUENCE (enc_tbs c) ++ c_tail c).

(** The first common name that is text; the value of the first extension of a type. *)
Definition cn_of (a : bytes * (Z * bytes)) : option bytes :=
  if beq a.1 CN_OID then text (mkTlv a.2.1 a.2.2 [] []) else None.
Definition cert_cn (c : Cert) : option bytes := head (omap cn_of (concat (c_subject c))).
Definition ext_of (oid : bytes) (l : list (bytes * option bytes * bytes)) : option bytes :=
  head (omap (fun e => if beq e.1.1 oid then Some e.2 else None) l).

Lemma len_enc t v : len v <= len (enc t v).
Proof. unfold enc, len. simpl length. rewrite length_app. lia. Qed.

Lemma fits_encs l n : len (encs l) < n -> n <= 2 ^ 32 -> fits l.
Proof.
  intros Hl Hn. apply Forall_forall. intros p Hp. apply list_elem_of_split in Hp as (a & b & ->).
  unfold encs in Hl. rewrite map_app, concat_app in Hl. cbn [map concat] in Hl. rewrite !len_app in Hl.
  pose proof (len_enc p.1 p.2). pose proof (len_nonneg (concat (map (fun p => enc p.1 p.2) a))).
  pose proof (len_nonneg (concat (map (fun p => enc p.1 p.2) b))). lia.
Qed.

Lemma text_whole t v w r : text (mkTlv t v w r) = text (mkTlv t v [] []).
Proof. done. Qed.

(** The attributes of one name component, then all of them. *)
Definition atv_body (atv : Tlv) (_ : option bytes) : result (option bytes + option bytes) :=
  ensure (tag atv =? SEQUENCE) else "unexpected DER tag";
  let? kind := expect (value atv) OID in
  if beq (value kind) CN_OID then
    let? v := read (rest kind) in
    match text v with Some n => Ok (inr (Some n)) | None => Ok (inl None) end
  else Ok (inl None).

Lemma run_atvs l :
  fits (map atv_item l) -> run atv_body (map atv_item l) None = Ok (head (omap cn_of l)).
Proof.
  induction l as [|[oid [t v]] l IH]; [done|]. unfold fits. cbn [map]. rewrite Forall_cons. intros [Hs Hl].
  cbn [run atv_item fst snd] in *. rewrite len_app in Hs. pose proof (len_enc OID oid). pose proof (len_enc t v).
  pose proof (len_nonneg (enc OID oid)). pose proof (len_nonneg (enc t v)).
  unfold atv_body at 1. cbn [tag value]. rewrite Z.eqb_refl, expect_enc by lia. cbn [rbind value rest].
  cbn [omap list_omap]. unfold cn_of at 1. cbn [fst snd].
  destruct (beq oid CN_OID); [|cbn [rbind]; by apply IH].
  pose proof (read_enc t v [] ltac:(lia)) as Hr. rewrite app_nil_r in Hr. rewrite Hr. cbn [rbind].
  rewrite text_whole. destruct (text _); cbn [rbind]; [done|]. by apply IH.
Qed.

Lemma subject_cn_encs l :
  len (encs (map rdn_item l)) < 2 ^ 32 -> subject_cn (encs (map rdn_item l)) = Ok (head (omap cn_of (concat l))).
Proof.
  intros Hl. unfold subject_cn. rewrite each_encs by (by eapply fits_encs).
  assert (Hf : fits (map rdn_item l)) by (by eapply fits_encs). clear Hl.
  induction l as [|r l IH]; [done|]. unfold fits in Hf. cbn [map] in *. apply Forall_cons in Hf as [Hr Hf].
  cbn [run rdn_item fst snd] in *. cbn [tag value]. change (49 =? 49) with true. cbn iota.
  change (each_tlv _ (encs (map atv_item r)) None) with (each_tlv atv_body (encs (map atv_item r)) None).
  assert (Ha : fits (map atv_item r)) by (eapply fits_encs; [exact Hr | done]).
  rewrite each_encs, run_atvs by done. cbn [rbind concat]. rewrite omap_app.
  destruct (omap cn_of r) as [|n ns]; [|done]. cbn [head rbind app]. by apply IH.
Qed.

Definition ext_body (oid : bytes) (ext : Tlv) (_ : option bytes) : result (option bytes + option bytes) :=
  ensure (tag ext =? SEQUENCE) else "unexpected DER tag";
  let? id := expect (value ext) OID in
  if negb (beq (value id) oid) then Ok (inl None)
  else
    let? r := (if first_is (rest id) 1 then let? b := read (rest id) in Ok (rest b) else Ok (rest id)) in
    let? v := expect r 4 in
    Ok (inr (Some (value v))).

Lemma run_exts oid l :
  fits (map ext_item l) -> run (ext_body oid) (map ext_item l) None = Ok (ext_of oid l).
Proof.
  induction l as [|[[id crit] v] l IH]; [done|]. unfold fits. cbn [map]. rewrite Forall_cons. intros [Hs Hl].
  cbn [run ext_item fst snd] in *. set (cb := match crit with Some b => enc 1 b | None => [] end) in *.
  rewrite !len_app in Hs. pose proof (len_enc OID id). pose proof (len_enc 4 v).
  pose proof (len_nonneg (enc OID id)). pose proof (len_nonneg (enc 4 v)). pose proof (len_nonneg cb).
  unfold ext_body at 1. cbn [tag value]. rewrite Z.eqb_refl, expect_enc by lia. cbn [rbind value rest].
  unfold ext_of. cbn [omap list_omap fst snd]. destruct (beq id oid); cbn [negb]; [|by apply IH].
  pose proof (expect_enc 4 v [] ltac:(lia)) as He. rewrite app_nil_r in He.
  destruct crit as [b|]; subst cb.
  - cbn [enc app first_is]. change (1 =? 1) with true. cbn iota. pose proof (len_enc 1 b).
    change (1 :: (enc_len (len b) ++ b) ++ enc 4 v) with (enc 1 b ++ enc 4 v).
    rewrite read_enc by lia. cbn [rbind rest]. by rewrite He.
  - cbn [app]. change (first_is (enc 4 v) 1) with false. cbn [rbind]. by rewrite He.
Qed.

(** The fields up to the subject, whatever their contents. *)
Lemma tbs_fields_enc c :
  len (enc_cert c) < 2 ^ 32 ->
  exists sn issuer validity subject,
    tbs_fields (enc_cert c) = Ok (sn, issuer, validity, subject)
    /\ value sn = c_serial c /\ value validity = c_validity c
    /\ value subject = encs (map rdn_item (c_subject c))
    /\ rest subject = enc SEQUENCE (c_spki c) ++ enc_exts (c_exts c).
Proof.
  intros Hl. unfold tbs_fields, enc_cert in *. pose proof (len_enc SEQUENCE (enc SEQUENCE (enc_tbs c) ++ c_tail c)) as H1.
  rewrite len_app in H1. pose proof (len_enc SEQUENCE (enc_tbs c)) as H2. pose proof (len_nonneg (c_tail c)).
  rewrite <- (app_nil_r (enc SEQUENCE (enc SEQUENCE (enc_tbs c) ++ c_tail c))).
  rewrite expect_enc by (rewrite len_app; lia). cbn [rbind value]. rewrite expect_enc by lia. cbn [rbind value].
  assert (Ht : len (enc_tbs c) < 2 ^ 32) by lia. clear Hl H1 H2.
  unfold enc_tbs in *. set (subj := encs (map rdn_item (c_subject c))) in *. set (exts := enc_exts (c_exts c)) in *.
  set (vs := match c_version c with Some v => enc EXPLICIT_0 v | None => [] end) in *.
  rewrite !len_app in Ht.
  pose proof (len_enc INTEGER (c_serial c)). pose proof (len_enc SEQUENCE (c_sig c)).
  pose proof (len_enc SEQUENCE (c_issuer c)). pose proof (len_enc SEQUENCE (c_validity c)).
  pose proof (len_enc SEQUENCE subj). pose proof (len_nonneg exts). pose proof (len_nonneg vs).
  pose proof (len_nonneg (enc SEQUENCE (c_spki c))). pose proof (len_nonneg (c_serial c)).
  pose proof (len_nonneg (c_sig c)). pose proof (len_nonneg (c_issuer c)). pose proof (len_nonneg (c_validity c)).
  pose proof (len_nonneg subj).
  assert (Hv : (if first_is (vs ++ enc INTEGER (c_serial c) ++ enc SEQUENCE (c_sig c) ++ enc SEQUENCE (c_issuer c)
                  ++ enc SEQUENCE (c_validity c) ++ enc SEQUENCE subj ++ enc SEQUENCE (c_spki c) ++ exts) EXPLICIT_0
                then let? v := read (vs ++ enc INTEGER (c_serial c) ++ enc SEQUENCE (c_sig c) ++ enc SEQUENCE (c_issuer c)
                  ++ enc SEQUENCE (c_validity c) ++ enc SEQUENCE subj ++ enc SEQUENCE (c_spki c) ++ exts) in Ok (rest v)
                else Ok (vs ++ enc INTEGER (c_serial c) ++ enc SEQUENCE (c_sig c) ++ enc SEQUENCE (c_issuer c)
                  ++ enc SEQUENCE (c_validity c) ++ enc SEQUENCE subj ++ enc SEQUENCE (c_spki c) ++ exts))
               = Ok (enc INTEGER (c_serial c) ++ enc SEQUENCE (c_sig c) ++ enc SEQUENCE (c_issuer c)
                  ++ enc SEQUENCE (c_validity c) ++ enc SEQUENCE subj ++ enc SEQUENCE (c_spki c) ++ exts)).
  { subst vs. destruct (c_version c) as [v|]; [|done]. pose proof (len_enc EXPLICIT_0 v).
    rewrite read_enc by lia. done. }
  rewrite Hv. cbn [rbind].
  do 5 (rewrite expect_enc by lia; cbn [rbind rest]).
  eexists _, _, _, _. split; [reflexivity|]. done.
Qed.

Lemma extension_enc spki exts oid :
  len (enc SEQUENCE spki ++ enc_exts exts) < 2 ^ 32 ->
  extension (enc SEQUENCE spki ++ enc_exts exts) oid = Ok (ext_of oid exts).
Proof.
  intros Hl. rewrite len_app in Hl. pose proof (len_enc SEQUENCE spki). pose proof (len_nonneg (enc_exts exts)).
  pose proof (len_nonneg (enc SEQUENCE spki)).
  unfold extension. rewrite expect_enc by lia. cbn [rbind rest]. destruct exts as [|e exts]; [done|].
  cbn [enc_exts] in *. set (es := encs (map ext_item (e :: exts))) in *.
  pose proof (len_enc 163 (enc SEQUENCE es)). pose proof (len_enc SEQUENCE es).
  assert (Hs : skip_unique_ids (length (enc 163 (enc SEQUENCE es))) (enc 163 (enc SEQUENCE es))
               = Ok (enc 163 (enc SEQUENCE es))) by done.
  rewrite Hs. cbn [rbind]. change (first_is (enc 163 (enc SEQUENCE es)) 163) with true. cbn [negb].
  rewrite <- (app_nil_r (enc 163 (enc SEQUENCE es))), read_enc by lia. cbn [rbind value].
  rewrite <- (app_nil_r (enc SEQUENCE es)), expect_enc by lia. cbn [rbind value].
  change (each_tlv _ es None) with (each_tlv (ext_body oid) es None).
  assert (Hf : fits (map ext_item (e :: exts))) by (eapply (fits_encs _ (2 ^ 32)); [unfold es in *; lia | lia]).
  unfold es. by rewrite each_encs, run_exts.
Qed.

(** C33.  What is read of an encoded certificate's names, whatever its other fields and extensions.  Its
    common name is the first textual one of its subject.  Of its subject alternative names (the first such
    extension, critical or not, whatever stands around it) it keeps every ASCII DNS name and email in lower
    case and every ASCII URI as written, each kind in order, and leaves out names of other kinds (addresses
    among them) and those that are not ASCII.  A certificate without that extension has its common name
    alone. *)
Theorem cert_names_round_trip (c : Cert) (san : option (list (Z * bytes))) :
  len (enc_cert c) < 2 ^ 32 -> ext_of SAN_OID (c_exts c) = (fun gns => enc SEQUENCE (encs gns)) <$> san ->
  len (encs (default [] san)) < 2 ^ 32 ->
  let gns := default [] san in
  names (enc_cert c)
  = Ok (mkNames (cert_cn c) (map to_ascii_lowercase (of_kind 130 gns)) (of_kind 134 gns)
          (map to_ascii_lowercase (of_kind 129 gns))).
Proof.
  intros Hl Hsan Hg. destruct (tbs_fields_enc c Hl) as (sn & iss & va & su & Hf & _ & _ & Hsu & Hre).
  unfold names. rewrite Hf. cbn [rbind]. rewrite Hsu, Hre.
  assert (Hlen : len (encs (map rdn_item (c_subject c))) + len (enc SEQUENCE (c_spki c) ++ enc_exts (c_exts c)) < 2 ^ 32).
  { unfold enc_cert in Hl. pose proof (len_enc SEQUENCE (enc SEQUENCE (enc_tbs c) ++ c_tail c)) as H1.
    rewrite len_app in H1. pose proof (len_enc SEQUENCE (enc_tbs c)) as H2. pose proof (len_nonneg (c_tail c)).
    assert (H3 : len (enc_tbs c) = len (enc_tbs c)) by done. unfold enc_tbs in H3 at 1.
    rewrite !len_app in H3. rewrite len_app.
    pose proof (len_enc SEQUENCE (encs (map rdn_item (c_subject c)))).
    repeat match goal with H : context [len (enc ?t (?f c))] |- _ =>
      lazymatch goal with H' : 0 <= len (enc t (f c)) |- _ => fail | _ => pose proof (len_nonneg (enc t (f c))) end end.
    destruct (c_version c) as [v|]; [pose proof (len_nonneg (enc EXPLICIT_0 v))|change (len []) with 0 in *]; lia. }
  pose proof (len_nonneg (encs (map rdn_item (c_subject c)))).
  pose proof (len_nonneg (enc SEQUENCE (c_spki c) ++ enc_exts (c_exts c))).
  rewrite subject_cn_encs by lia. cbn [rbind]. rewrite extension_enc, Hsan by lia.
  destruct san as [gns|]; cbn [rbind fmap option_fmap option_map default from_option id]; [|done].
  rewrite <- (app_nil_r (enc SEQUENCE (encs gns))), expect_enc by done. cbn [rbind value].
  rewrite each_encs by (by eapply fits_encs). rewrite run_general_names. done.
Qed.

(** A certificate with a version, a critical extension before its alternative names, and names of
    four kinds. *)
Definition demo_names : list (Z * bytes) :=
  [(130, lit "API.example.com"); (134, lit "spiffe://td/Web"); (135, [10; 0; 0; 1]); (129, lit "A@b.c")].
Definition demo_cert : Cert :=
  mkCert (Some [2; 1; 2]) [7] [6; 0] [] [] [[([85; 4; 10], (12, lit "Acme"))]; [(CN_OID, (12, lit "web"))]] [3; 0]
    [([85; 29; 15], Some [255], [3; 2; 5; 160]); (SAN_OID, None, enc SEQUENCE (encs demo_names))] [48; 0].

(** One that names its subject only. *)
Definition plain_cert : Cert :=
  mkCert (Some [2; 1; 2]) [7] [6; 0] [] [] [[(CN_OID, (12, lit "web"))]] [3; 0] [([85; 29; 15], Some [255], [3; 2; 5; 160])] [48; 0].

Lemma cert_names_round_trip_witness :
  names (enc_cert demo_cert)
  = Ok (mkNames (cert_cn demo_cert) (map to_ascii_lowercase (of_kind 130 demo_names)) (of_kind 134 demo_names)
          (map to_ascii_lowercase (of_kind 129 demo_names)))
  /\ names (enc_cert plain_cert) = Ok (mkNames (cert_cn plain_cert) [] [] []).
Proof.
  split; [apply (cert_names_round_trip demo_cert (Some demo_names)) | apply (cert_names_round_trip plain_cert None)]; reflexivity.
Defined.

Example demo_cert_names :
  names (enc_cert demo_cert) = Ok (mkNames (Some (lit "web")) [lit "api.example.com"] [lit "spiffe://td/Web"] [lit "a@b.c"]).
Proof. vm_compute. reflexivity. Qed.
