(* ===== verification/CertStore.v ===== *)
(** * CertStore: the certificate a listener serves, its renewal, and the choice by server name
    ([src/src/certstore.rs])

    [CertStore] with its reload, the renewal schedule (the two-thirds rule, the CA's renewal window, the
    back-off), [Renewer::check] and one round of [maintain], and [SniResolver].  What is on disk, what
    the CA answers and what issuing does are arguments; the walls of the clock are unix seconds. *)

From S2P Require Import Prelude Text Units Utf8 Der.

Inductive CertSource : Type := Acme | SelfSigned | File.

Definition CertSource_from_cfg (acme_enabled self_signed : bool) : CertSource :=
  if acme_enabled then Acme else if self_signed then SelfSigned else File.

(** The chain being served, and what its leaf says. *)
Record Live : Type := mkLive { chain : list bytes; live_info : CertInfo }.

Inductive RenewSource : Type := RAcme | RSelfSigned.
Inductive RenewOutcome : Type := ROk | RFailed | RDeferred.
#[global] Instance RenewSource_eq_dec : EqDecision RenewSource.
Proof. solve_decision. Defined.
#[global] Instance RenewOutcome_eq_dec : EqDecision RenewOutcome.
Proof. solve_decision. Defined.

Record AriCache : Type := mkAri { ari_for : bytes; renew_at : option Z; refetch_at : Z }.

Record CertStore : Type := mkCertStore {
  live : Live; reloads_swapped : Z; reloads_rejected : Z;
  renewals : RenewSource * RenewOutcome -> Z; last_renewal : option (Z * RenewSource * RenewOutcome);
  ari : option AriCache
}.

Definition set_live (s : CertStore) (l : Live) : CertStore :=
  mkCertStore l (reloads_swapped s + 1) (reloads_rejected s) (renewals s) (last_renewal s) (ari s).
Definition count_rejected (s : CertStore) : CertStore :=
  mkCertStore (live s) (reloads_swapped s) (reloads_rejected s + 1) (renewals s) (last_renewal s) (ari s).
Definition set_ari (s : CertStore) (a : AriCache) : CertStore :=
  mkCertStore (live s) (reloads_swapped s) (reloads_rejected s) (renewals s) (last_renewal s) (Some a).

Definition days_left (i : CertInfo) (now : Z) : Z := (not_after i - now) / 86400.

(** [i64] division truncates; a positive lifetime makes it the floor. *)
Definition renewal_due (not_before not_after now : Z) : bool :=
  let lifetime := not_after - not_before in
  if lifetime <=? 0 then true else not_before + lifetime / 3 * 2 <=? now.

Inductive Reload : Type := Unchanged | Swapped.

(** [CertStore::load]; [disk] is what [load_pair] finds. *)
Definition store_load (disk : result Live) : result CertStore :=
  let? l := disk in Ok (mkCertStore l 0 0 (fun _ => 0) None None).

Definition reload (s : CertStore) (disk : result Live) : result Reload * CertStore :=
  match disk with
  | Err e => (Err e, count_rejected s)
  | Ok next =>
      if bool_decide (chain next = chain (live s)) then (Ok Unchanged, s)
      else (Ok Swapped, set_live s next)
  end.

Definition record_renewal (s : CertStore) (now : Z) (src : RenewSource) (o : RenewOutcome) : CertStore :=
  mkCertStore (live s) (reloads_swapped s) (reloads_rejected s)
    (fun k => if bool_decide (k = (src, o)) then renewals s k + 1 else renewals s k)
    (Some (now, src, o)) (ari s).

(** ** The CA's renewal window *)

Definition ARI_MIN_RECHECK_SECS : Z := 3600.
Definition ARI_MAX_RECHECK_SECS : Z := 86400.

Definition ari_recheck_secs (retry_after : Z) : Z :=
  Z.min (Z.max retry_after ARI_MIN_RECHECK_SECS) ARI_MAX_RECHECK_SECS.

Definition fnv1a (s : bytes) : Z :=
  fold_left (fun h b => wrap 64 (Z.lxor h b * 1099511628211)) s 14695981039346656037.

Definition ari_renew_at (start end_ : Z) (serial : bytes) : Z :=
  if end_ <=? start then start
  else start + fnv1a serial mod (end_ - start + 1).

(** [CertStore::ari_renew_at]. *)
Definition store_ari_renew_at (s : CertStore) : option Z :=
  match ari s with
  | Some c => if beq (ari_for c) (serial (live_info (live s))) then renew_at c else None
  | None => None
  end.

(** What the CA answers about a certificate: a window with its [Retry-After], none, or an error. *)
Inductive AriAnswer : Type := Window (start end_ retry_after : Z) | NoWindow | AriFailed.

Definition ari_window (s : CertStore) (info : CertInfo) (now : Z) (answer : AriAnswer) : option Z * CertStore :=
  match ari_id info with
  | None => (None, s)
  | Some _ =>
      let previous := match ari s with
                      | Some c => if beq (ari_for c) (serial info) then Some c else None
                      | None => None
                      end in
      let ask :=
        let '(at_, wait) :=
          match answer with
          | Window start end_ retry => (Some (ari_renew_at start end_ (serial info)), retry)
          | NoWindow => (None, ARI_MAX_RECHECK_SECS)
          | AriFailed => (match previous with Some c => renew_at c | None => None end, ARI_MIN_RECHECK_SECS)
          end in
        (at_, set_ari s (mkAri (serial info) at_ (now + ari_recheck_secs wait))) in
      match previous with
      | Some c => if now <? refetch_at c then (renew_at c, s) else ask
      | None => ask
      end
  end.

(** ** Renewal *)

Inductive RenewPlan : Type := PAcme | PSelfSigned | PNone.
#[global] Instance RenewPlan_eq_dec : EqDecision RenewPlan.
Proof. solve_decision. Defined.

Definition RenewPlan_from_cfg (acme_enabled acme_renew self_signed self_signed_renew : bool) : RenewPlan :=
  if acme_enabled && acme_renew then PAcme
  else if negb acme_enabled && self_signed && self_signed_renew then PSelfSigned
  else PNone.

Inductive Check : Type := NotDue | Renewed | CDeferred | Unrenewable.

(** What issuing over ACME ends in; [Issued] has written the files. *)
Inductive Issuance : Type := Issued | IssuanceDeferred | IssuanceFailed.

(** [Renewer::check]: [issue] and [generate] are what the two ways of renewing would end in, [disk] what
    the files hold after. *)
Definition check (plan : RenewPlan) (ari_on : bool) (s : CertStore) (now : Z) (answer : AriAnswer)
    (issue : Issuance) (generate : result unit) (disk : result Live) : result Check * CertStore :=
  let info := live_info (live s) in
  let two_thirds := renewal_due (not_before info) (not_after info) now in
  let '(ari_at, s) := if bool_decide (plan = PAcme) && ari_on then ari_window s info now answer else (None, s) in
  let ari_due := match ari_at with Some t => t <=? now | None => false end in
  if negb two_thirds && negb ari_due then (Ok NotDue, s)
  else
    match plan with
    | PAcme =>
        match issue with
        | Issued =>
            match reload s disk with
            | (Err e, s) => (Err e, s)
            | (Ok _, s) => (Ok Renewed, record_renewal s now RAcme ROk)
            end
        | IssuanceDeferred => (Ok CDeferred, record_renewal s now RAcme RDeferred)
        | IssuanceFailed => (Err "ACME", record_renewal s now RAcme RFailed)
        end
    | PSelfSigned =>
        if negb (self_issued info) then (Ok Unrenewable, s)
        else
          match generate with
          | Err e => (Err e, record_renewal s now RSelfSigned RFailed)
          | Ok _ =>
              match reload s disk with
              | (Err e, s) => (Err e, record_renewal s now RSelfSigned RFailed)
              | (Ok _, s) => (Ok Renewed, record_renewal s now RSelfSigned ROk)
              end
          end
    | PNone => (Ok Unrenewable, s)
    end.

(** ** The maintenance loop *)

Definition URGENT_DAYS : Z := 7.
Definition CHECK_EVERY : Z := 3600.
Definition CHECK_JITTER_SECS : Z := 600.
Definition MAX_BACKOFF : Z := 43200.

Definition should_warn_unrenewable (already_warned : bool) (days : Z) : bool := negb already_warned || (days <? URGENT_DAYS).

(** Seconds; [failures] is a [u32]. *)
Definition backoff (failures : Z) : Z :=
  Z.min (300 * 2 ^ Z.min (sat_sub failures 1) 16) MAX_BACKOFF.

(** [jitter] is below [CHECK_JITTER_SECS]. *)
Definition next_wait (failures jitter : Z) : Z := if failures =? 0 then CHECK_EVERY + jitter else backoff failures.

(** The loop's own state: consecutive failures, and whether it warned of an unrenewable certificate. *)
Record Maintain : Type := mkMaintain { failures : Z; warned : bool }.

(** What [maintain] makes of one check: its state after, and whether it warns. *)
Definition after_check (m : Maintain) (r : result Check) (days : Z) : Maintain * bool :=
  match r with
  | Ok (NotDue | Renewed) => (mkMaintain 0 false, false)
  | Ok CDeferred => (mkMaintain (sat_add 32 (failures m) 1) (warned m), false)
  | Ok Unrenewable =>
      let w := should_warn_unrenewable (warned m) days in
      (mkMaintain (failures m) (warned m || w), w)
  | Err _ => (mkMaintain (sat_add 32 (failures m) 1) (warned m), false)
  end.

(** One round: reload what is on disk, check, and the wait before the next. *)
Definition round (plan : RenewPlan) (ari_on : bool) (s : CertStore) (m : Maintain) (now jitter : Z)
    (disk0 : result Live) (answer : AriAnswer) (issue : Issuance) (generate : result unit) (disk : result Live)
    : result Check * CertStore * Maintain * bool * Z :=
  let '(_, s) := reload s disk0 in
  let '(r, s) := check plan ari_on s now answer issue generate disk in
  let '(m, w) := after_check m r (days_left (live_info (live s)) now) in
  (r, s, m, w, next_wait (failures m) jitter).

(** What a round meets: the jitter drawn, how long the round itself takes, the CA's answer, what issuing
    and generating at a given moment end in, and the pair they write. *)
Record World : Type := mkWorld {
  w_jitter : Z; w_elapsed : Z; w_answer : AriAnswer; w_issue : Z -> Issuance; w_generate : Z -> result unit;
  w_written : Live
}.

(** [maintain], until the worlds run out: the checks with their times.  [files] is what is on disk. *)
Fixpoint maintain (plan : RenewPlan) (ari_on : bool) (ws : list World) (s : CertStore) (m : Maintain)
    (files : result Live) (now : Z) : list (Z * result Check) :=
  match ws with
  | [] => []
  | w :: ws =>
      let '(r, s, m, _, wait) :=
        round plan ari_on s m now (w_jitter w) files (w_answer w) (w_issue w now) (w_generate w now)
          (Ok (w_written w)) in
      let files := match r with Ok Renewed => Ok (w_written w) | _ => files end in
      (now, r) :: maintain plan ari_on ws s m files (now + w_elapsed w + wait)
  end.

(** ** Server names *)

Inductive SniHost : Type := Exact (h : bytes) | Wildcard (suffix : bytes).

Definition parse_sni_host (raw : bytes) : result SniHost :=
  let h := to_ascii_lowercase (trim_end_matches 46 (trim raw)) in
  match strip_prefix (lit "*.") h with
  | Some suffix =>
      ensure (negb (beq suffix []) && negb (existsb (Z.eqb 42) suffix) && existsb (Z.eqb 46) suffix)
        else "a wildcard must be `*.` followed by a domain with at least two labels";
      Ok (Wildcard ([46] ++ suffix))
  | None =>
      ensure (negb (beq h []) && negb (existsb (Z.eqb 42) h)) else "use an exact name or a leading `*.` wildcard";
      Ok (Exact h)
  end.

Section Sni.
Context {Store : Type}.

(** An extra pair and the names it serves. *)
Record SniCert : Type := mkSniCert { hosts : list bytes; sni_store : Store }.

Record SniResolver : Type := mkResolver {
  default_store : Store; sni_certs : list SniCert; exact : gmap bytes nat; wildcard : list (bytes * nat)
}.

(** One host of the certificate [i]. *)
Definition add_host (i : nat) (raw : bytes) (st : gmap bytes nat * list (bytes * nat))
    : result (gmap bytes nat * list (bytes * nat)) :=
  let '(ex, wi) := st in
  let? host := parse_sni_host raw in
  match host with
  | Wildcard key =>
      ensure (negb (existsb (fun w => beq w.1 key) wi)) else "host is claimed by two certificates";
      Ok (ex, wi ++ [(key, i)])
  | Exact h =>
      match ex !! h with
      | Some _ => Err "host is claimed by two certificates"
      | None => Ok (<[h := i]> ex, wi)
      end
  end.

Fixpoint add_hosts (i : nat) (hs : list bytes) (st : gmap bytes nat * list (bytes * nat))
    : result (gmap bytes nat * list (bytes * nat)) :=
  match hs with
  | [] => Ok st
  | h :: hs => let? st := add_host i h st in add_hosts i hs st
  end.

Fixpoint add_certs (i : nat) (cs : list SniCert) (st : gmap bytes nat * list (bytes * nat))
    : result (gmap bytes nat * list (bytes * nat)) :=
  match cs with
  | [] => Ok st
  | c :: cs =>
      ensure (match hosts c with [] => false | _ => true end) else "`hosts` is empty";
      let? st := add_hosts i (hosts c) st in add_certs (S i) cs st
  end.

Definition sni_new (dflt : Store) (cs : list SniCert) : result SniResolver :=
  let? st := add_certs 0 cs (∅, []) in
  Ok (mkResolver dflt cs st.1 st.2).

(** The store of certificate [i]; an index of the table is one of the list. *)
Definition store_at (r : SniResolver) (i : nat) : Store :=
  match sni_certs r !! i with Some c => sni_store c | None => default_store r end.

Definition select (r : SniResolver) (server_name : option bytes) : Store :=
  match server_name with
  | None => default_store r
  | Some n =>
      let name := to_ascii_lowercase (trim_end_matches 46 n) in
      match exact r !! name with
      | Some i => store_at r i
      | None =>
          match find_sub [46] name with
          | Some dot =>
              match List.find (fun w => beq w.1 (drop dot name)) (wildcard r) with
              | Some (_, i) => store_at r i
              | None => default_store r
              end
          | None => default_store r
          end
      end
  end.
End Sni.
