(* ===== verification/CertStoreLaws.v ===== *)
(** * CertStoreLaws: which certificate a client is shown, and that renewing it neither loses it nor comes
    too late (theorems about [CertStore]) *)

From S2P Require Import Prelude Text Units Utf8 Der CertStore.

(** ** Choosing by server name *)

Section Sni.
Context {Store : Type}.
Implicit Types (cs : list (SniCert (Store := Store))) (c : SniCert (Store := Store)).

(** Some host of the certificate is the pattern [p]. *)
Definition serves (p : SniHost) c : Prop := exists raw, raw ∈ hosts c /\ parse_sni_host raw = Ok p.

(** The name a client asks for, and the only wildcard that covers it. *)
Definition sni_name (n : bytes) : bytes := to_ascii_lowercase (trim_end_matches 46 n).
Definition sni_wildcard (n : bytes) : option SniHost :=
  match find_sub [46] (sni_name n) with Some dot => Some (Wildcard (drop dot (sni_name n))) | None => None end.

(** What the tables hold for a pattern. *)
Definition owner (p : SniHost) (st : gmap bytes nat * list (bytes * nat)) : option nat :=
  match p with
  | Exact h => st.1 !! h
  | Wildcard k => match List.find (fun w => beq w.1 k) st.2 with Some w => Some w.2 | None => None end
  end.

Lemma find_app_w (k : bytes) (l : list (bytes * nat)) (x : bytes * nat) :
  List.find (fun w => beq w.1 k) (l ++ [x])
  = match List.find (fun w => beq w.1 k) l with
    | Some w => Some w
    | None => if beq x.1 k then Some x else None
    end.
Proof. induction l as [|y l IH]; cbn; [done|]. destruct (beq y.1 k); [done|exact IH]. Qed.

Lemma find_none_w (k : bytes) (l : list (bytes * nat)) :
  existsb (fun w => beq w.1 k) l = false -> List.find (fun w => beq w.1 k) l = None.
Proof. induction l as [|y l IH]; cbn; [done|]. destruct (beq y.1 k); [done|exact IH]. Qed.

(** Adding a host gives it to the certificate, when nobody owns it, and changes nothing else. *)
Lemma add_host_owner i raw st st' :
  add_host i raw st = Ok st' ->
  exists q, parse_sni_host raw = Ok q /\ owner q st = None /\ owner q st' = Some i
            /\ forall p, p <> q -> owner p st' = owner p st.
Proof.
  destruct st as [ex wi]. unfold add_host.
  destruct (parse_sni_host raw) as [q|e] eqn:Hp; cbn [rbind]; [|discriminate].
  intros H. exists q. split; [done|]. destruct q as [h|k].
  - destruct (ex !! h) eqn:He; [discriminate|]. injection H as <-. cbn.
    rewrite lookup_insert_eq. split_and!; [done|done|].
    intros [h'|k'] Hne; cbn; [|done]. rewrite lookup_insert_ne; [done|congruence].
  - destruct (existsb (fun w => beq w.1 k) wi) eqn:He; cbn in H; [discriminate|]. injection H as <-. cbn.
    rewrite (find_none_w _ _ He), find_app_w, (find_none_w _ _ He). cbn.
    rewrite beq_refl. split_and!; [done|done|].
    intros [h'|k'] Hne; cbn; [done|]. rewrite find_app_w. cbn.
    destruct (List.find (fun w => beq w.1 k') wi); [done|].
    destruct (beq k k') eqn:Hk; [|done]. apply beq_true in Hk. congruence.
Qed.

(** Adding hosts only adds owners, all of them [i], for exactly the patterns of the hosts. *)
Lemma add_hosts_owner i hs : forall st st',
  add_hosts i hs st = Ok st' ->
  forall p, (exists raw, raw ∈ hs /\ parse_sni_host raw = Ok p) /\ owner p st = None /\ owner p st' = Some i
            \/ ~ (exists raw, raw ∈ hs /\ parse_sni_host raw = Ok p) /\ owner p st' = owner p st.
Proof.
  induction hs as [|raw hs IH]; intros st st'; cbn [add_hosts].
  - intros [= <-] p. right. split; [|done]. intros (? & Hin & _). by apply not_elem_of_nil in Hin.
  - destruct (add_host i raw st) as [st1|e] eqn:Ha; cbn [rbind]; [|discriminate]. intros H p.
    destruct (add_host_owner _ _ _ _ Ha) as (q & Hq & Hn & Hs & Ho).
    specialize (IH _ _ H p).
    assert (p = q \/ p <> q) as [->|Hne].
    { destruct p as [a|a], q as [b|b]; try (right; discriminate); destruct (decide (a = b)); subst;
        (left; reflexivity) || (right; congruence). }
    + left. destruct IH as [(_ & Hbad & _)|[_ Heq]]; [congruence|].
      split_and!; [exists raw; split; [left|done]|done|congruence].
    + rewrite (Ho p Hne) in IH. destruct IH as [(Hex & H1 & H2)|[Hno H1]].
      * left. split_and!; [|done|done]. destruct Hex as (r & Hr & Hpr). exists r. split; [by right|done].
      * right. split; [|done]. intros (r & Hr & Hpr).
        apply elem_of_cons in Hr as [->|Hr]; [congruence|]. apply Hno. by exists r.
Qed.

(** The tables after all certificates: each pattern belongs to the one certificate that serves it. *)
Lemma add_certs_owner cs : forall i st st',
  add_certs i cs st = Ok st' ->
  forall p, match owner p st' with
            | Some j => owner p st = Some j /\ ~ (exists k c, cs !! k = Some c /\ serves p c)
                        \/ owner p st = None /\ exists k c, j = (i + k)%nat /\ cs !! k = Some c /\ serves p c
                           /\ forall k' c', cs !! k' = Some c' -> serves p c' -> k' = k
            | None => owner p st = None /\ ~ exists k c, cs !! k = Some c /\ serves p c
            end.
Proof.
  induction cs as [|c cs IH]; intros i st st'; cbn [add_certs].
  - intros [= <-] p. destruct (owner p st); [left|]; (split; [done|]); intros (k & c & Hk & _); by destruct k.
  - destruct (match hosts c with [] => false | _ => true end); cbn; [|discriminate].
    destruct (add_hosts i (hosts c) st) as [st1|e] eqn:Ha; cbn [rbind]; [|discriminate].
    intros H p. specialize (IH _ _ _ H p). pose proof (add_hosts_owner _ _ _ _ Ha p) as Hp.
    fold (serves p c) in Hp.
    assert (Hcons : (exists k d, (c :: cs) !! k = Some d /\ serves p d)
                    <-> serves p c \/ exists k d, cs !! k = Some d /\ serves p d).
    { split.
      - intros ([|k] & d & Hk & Hs); cbn in Hk; [injection Hk as <-; by left|right; by exists k, d].
      - intros [Hs|(k & d & Hk & Hs)]; [by exists 0%nat, c|by exists (S k), d]. }
    destruct Hp as [(Hs & Hn & H1)|[Hs H1]].
    + rewrite H1 in IH. destruct (owner p st') as [j|]; [|by destruct IH].
      destruct IH as [[Hj Hno]|[? _]]; [|done]. injection Hj as <-.
      right. split; [done|]. exists 0%nat, c. split_and!; [lia|done|done|].
      intros [|k'] c' Hk' Hs'; [done|]. destruct Hno. by exists k', c'.
    + rewrite H1 in IH. destruct (owner p st') as [j|].
      * destruct IH as [[Hj Hno]|(Hn & k & d & -> & Hk & Hd & Hu)].
        -- left. split; [done|]. rewrite Hcons. tauto.
        -- right. split; [done|]. exists (S k), d. split_and!; [lia|done|done|].
           intros [|k'] c' Hk' Hs'; cbn in Hk'; [by injection Hk' as <-|]. by rewrite (Hu k' c' Hk' Hs').
      * destruct IH as [Hn Hno]. split; [done|]. rewrite Hcons. tauto.
Qed.

(** The pattern as the resolver's tables hold it. *)
Lemma sni_owner dflt cs r p :
  sni_new dflt cs = Ok r ->
  match owner p (exact r, wildcard r) with
  | Some j => exists c, cs !! j = Some c /\ serves p c /\ store_at r j = sni_store c
                        /\ forall k c', cs !! k = Some c' -> serves p c' -> k = j
  | None => ~ exists c, c ∈ cs /\ serves p c
  end.
Proof.
  unfold sni_new. destruct (add_certs 0 cs (∅, [])) as [st|e] eqn:H; cbn [rbind]; [|discriminate].
  intros [= <-]. cbn [exact wildcard]. pose proof (add_certs_owner _ _ _ _ H p) as Hp.
  replace (st.1, st.2) with st by by destruct st.
  assert (Hnone : owner p (∅ : gmap bytes nat, []) = None) by by destruct p.
  rewrite Hnone in Hp. destruct (owner p st) as [j|].
  - destruct Hp as [[? _]|(_ & k & c & -> & Hk & Hs & Hu)]; [done|]. exists c. cbn [Nat.add].
    split_and!; [done|done| |intros; by eapply Hu]. unfold store_at. cbn [sni_certs]. by rewrite Hk.
  - destruct Hp as [_ Hno]. intros (c & Hin & Hs). apply list_elem_of_lookup in Hin as (k & Hk).
    apply Hno. by exists k, c.
Qed.

(** A client that asks for a name is shown the certificate configured for exactly that name, in any case
    and with or without the final dot; else the one configured for the wildcard one label up; else the
    default, also shown to a client that asks for no name.  No name is served by two certificates. *)
Theorem sni_select_exact dflt cs r n :
  sni_new dflt cs = Ok r ->
  select r None = dflt
  /\ (forall i j c c' p, cs !! i = Some c -> cs !! j = Some c' -> serves p c -> serves p c' -> i = j)
  /\ (forall c, c ∈ cs -> serves (Exact (sni_name n)) c -> select r (Some n) = sni_store c)
  /\ ((forall c, c ∈ cs -> ~ serves (Exact (sni_name n)) c) ->
      (forall c w, sni_wildcard n = Some w -> c ∈ cs -> serves w c -> select r (Some n) = sni_store c)
      /\ ((forall c w, sni_wildcard n = Some w -> c ∈ cs -> ~ serves w c) -> select r (Some n) = dflt)).
Proof.
  intros H. pose proof (sni_owner _ _ _ (Exact (sni_name n)) H) as He. cbn [owner fst] in He.
  assert (Hdef : default_store r = dflt).
  { unfold sni_new in H. destruct (add_certs 0 cs (∅, [])); cbn [rbind] in H; [by injection H as <-|done]. }
  split_and!.
  - done.
  - intros i j c c' p Hi Hj Hs Hs'. pose proof (sni_owner _ _ _ p H) as Hp.
    destruct (owner p _) as [o|].
    + destruct Hp as (? & _ & _ & _ & Hu). by rewrite (Hu i c), (Hu j c').
    + destruct Hp. exists c. split; [by eapply list_elem_of_lookup_2|done].
  - intros c Hin Hs. unfold select. fold (sni_name n). destruct (exact r !! sni_name n) as [j|].
    + destruct He as (d & Hj & Hd & -> & Hu). apply list_elem_of_lookup in Hin as (k & Hk).
      pose proof (Hu k c Hk Hs). subst k. congruence.
    + destruct He. by exists c.
  - intros Hno. unfold select, sni_wildcard. fold (sni_name n).
    destruct (exact r !! sni_name n) as [j|].
    { destruct He as (d & Hj & Hd & _). destruct (Hno d); [by eapply list_elem_of_lookup_2|done]. }
    destruct (find_sub [46] (sni_name n)) as [dot|]; [|split; [done|by intros _]].
    pose proof (sni_owner _ _ _ (Wildcard (drop dot (sni_name n))) H) as Hw. cbn [owner snd] in Hw.
    destruct (List.find _ (wildcard r)) as [[k j]|]; cbn [snd] in Hw.
    + destruct Hw as (d & Hj & Hd & -> & Hu). split.
      * intros c w [= <-] Hin Hs. apply list_elem_of_lookup in Hin as (i & Hi).
        pose proof (Hu i c Hi Hs). subst i. congruence.
      * intros Hn. destruct (Hn d _ eq_refl); [by eapply list_elem_of_lookup_2|done].
    + split; [|by intros _]. intros c w [= <-] Hin Hs. destruct Hw. by exists c.
Qed.
End Sni.

Definition sni_demo : list (SniCert (Store := nat)) :=
  [mkSniCert [lit "api.example.com"; lit "*.Example.com."] 1%nat; mkSniCert [lit "example.com"] 2%nat].

Lemma sni_select_exact_witness :
  exists r, sni_new 0%nat sni_demo = Ok r
    /\ select r (Some (lit "API.example.com.")) = 1%nat
    /\ select r (Some (lit "www.example.com")) = 1%nat
    /\ select r (Some (lit "a.b.example.com")) = 0%nat
    /\ select r (Some (lit "example.com")) = 2%nat.
Proof.
  destruct (sni_new 0%nat sni_demo) as [r|e] eqn:H; [|vm_compute in H; discriminate].
  exists r. split; [done|].
  destruct (sni_select_exact 0%nat sni_demo r (lit "example.com") H) as (_ & _ & He & _).
  vm_compute in H. injection H as <-. split_and!; [vm_compute; reflexivity..|].
  apply (He (mkSniCert [lit "example.com"] 2%nat)); [right; left|].
  exists (lit "example.com"). split; [left|vm_compute; reflexivity].
Defined.

(** ** Renewing *)

(** The two-thirds point of a certificate's life. *)
Definition renewal_point (i : CertInfo) : Z := not_before i + (not_after i - not_before i) / 3 * 2.

Lemma renewal_due_spec nb na now :
  nb < na -> renewal_due nb na now = true <-> nb + (na - nb) / 3 * 2 <= now.
Proof. intros H. unfold renewal_due. destruct (Z.leb_spec (na - nb) 0); [lia|]. apply Z.leb_le. Qed.

(** At the two-thirds point a third of the lifetime is left, at least. *)
Lemma third_left i : not_before i < not_after i -> (not_after i - not_before i) / 3 <= not_after i - renewal_point i.
Proof. intros H. unfold renewal_point. pose proof (Z.mul_div_le (not_after i - not_before i) 3). lia. Qed.

Lemma fnv1a_range s : 0 <= fnv1a s < 2 ^ 64.
Proof.
  unfold fnv1a.
  enough (forall h, 0 <= h < 2 ^ 64 ->
    0 <= fold_left (fun h b => wrap 64 (Z.lxor h b * 1099511628211)) s h < 2 ^ 64) as He by (apply He; lia).
  induction s as [|b s IH]; intros h Hh; cbn [fold_left]; [done|]. apply IH, wrap_range. lia.
Qed.

(** The chosen moment lies in the window the CA gave. *)
Lemma ari_renew_at_in_window a b s : a <= b -> a <= ari_renew_at a b s <= b.
Proof.
  intros H. unfold ari_renew_at. destruct (Z.leb_spec b a); [lia|].
  pose proof (Z.mod_pos_bound (fnv1a s) (b - a + 1)). lia.
Qed.

Lemma backoff_range f : 0 <= f -> 300 <= backoff f <= 43200.
Proof.
  intros H. unfold backoff, MAX_BACKOFF, sat_sub.
  assert (1 <= 2 ^ Z.min (Z.max 0 (f - 1)) 16); [|lia].
  change 1 with (2 ^ 0). apply Z.pow_le_mono_r; lia.
Qed.

Lemma next_wait_range f j : 0 <= f -> 0 <= j < CHECK_JITTER_SECS -> 300 <= next_wait f j <= 43200.
Proof.
  intros Hf Hj. unfold next_wait, CHECK_EVERY, CHECK_JITTER_SECS in *.
  destruct (f =? 0); [lia|by apply backoff_range].
Qed.

(** Nothing but the cache of the CA's window changes while it is read. *)
Lemma ari_window_live s i now a : live (ari_window s i now a).2 = live s.
Proof.
  unfold ari_window. destruct (ari_id i); [|done].
  destruct (match ari s with Some c => _ | None => None end) as [c|]; [destruct (now <? refetch_at c)|];
    destruct a; done.
Qed.

Lemma reload_live s d :
  live (reload s d).2 = match d with Ok l => if bool_decide (chain l = chain (live s)) then live s else l | Err _ => live s end.
Proof. unfold reload. destruct d as [l|]; [|done]. by case_bool_decide. Qed.

Lemma reload_chain s l : chain (live (reload s (Ok l)).2) = chain l.
Proof. rewrite reload_live. by case_bool_decide. Qed.

(** What [check] does when the CA answered [at_] and the store is [s'] after asking. *)
Lemma check_cases plan ari_on s now answer issue generate disk :
  exists at_ s', live s' = live s
    /\ (at_, s') = (if bool_decide (plan = PAcme) && ari_on then ari_window s (live_info (live s)) now answer else (None, s))
    /\ let due := renewal_due (not_before (live_info (live s))) (not_after (live_info (live s))) now
                  || match at_ with Some t => t <=? now | None => false end in
       let '(r, s'') := check plan ari_on s now answer issue generate disk in
       if due then
         match plan with
         | PAcme => match issue, disk with
                    | Issued, Ok _ => r = Ok Renewed /\ live s'' = live (reload s' disk).2
                    | Issued, Err _ => (exists e, r = Err e) /\ live s'' = live s
                    | IssuanceDeferred, _ => r = Ok CDeferred /\ live s'' = live s
                    | IssuanceFailed, _ => (exists e, r = Err e) /\ live s'' = live s
                    end
         | PSelfSigned =>
             if self_issued (live_info (live s)) then
               match generate, disk with
               | Ok _, Ok _ => r = Ok Renewed /\ live s'' = live (reload s' disk).2
               | _, _ => (exists e, r = Err e) /\ live s'' = live s
               end
             else r = Ok Unrenewable /\ live s'' = live s
         | PNone => r = Ok Unrenewable /\ live s'' = live s
         end
       else r = Ok NotDue /\ live s'' = live s.
Proof.
  unfold check.
  destruct (if bool_decide (plan = PAcme) && ari_on then _ else _) as [at_ s'] eqn:E.
  assert (Hl : live s' = live s).
  { destruct (_ && _); [|by injection E as _ <-].
    pose proof (ari_window_live s (live_info (live s)) now answer) as H. by rewrite E in H. }
  exists at_, s'. split; [done|]. split; [done|]. cbn zeta. rewrite <- negb_orb. destruct (renewal_due _ _ _ || _); cbn [negb].
  - destruct plan; cbn [negb].
    + destruct issue; cbn [record_renewal live]; [|by eauto..].
      unfold reload. destruct disk as [l|]; [destruct (bool_decide (chain l = chain (live s'))); done|]. cbn. by eauto.
    + destruct (self_issued _); cbn [negb]; [|done].
      destruct generate as [|]; cbn [record_renewal live]; [|by eauto].
      unfold reload. destruct disk as [l|]; [destruct (bool_decide (chain l = chain (live s'))); done|]. cbn. by eauto.
    + done.
  - done.
Qed.

(** A check replaces the served certificate only by what renewing wrote, and only when it reports it:
    deferred, failed and rejected renewals leave it.  The self-signed plan never overwrites a certificate
    somebody else issued.  From the two-thirds point on every check is due, whatever the CA says about its
    window, and without a window none is due earlier. *)
Theorem check_keeps_serving plan ari_on s now answer issue generate disk r s' :
  check plan ari_on s now answer issue generate disk = (r, s') ->
  (r <> Ok Renewed -> live s' = live s)
  /\ (r = Ok Renewed -> exists l, disk = Ok l /\ chain (live s') = chain l)
  /\ (plan = PSelfSigned -> self_issued (live_info (live s)) = false -> live s' = live s)
  /\ (not_before (live_info (live s)) < not_after (live_info (live s)) ->
      (renewal_point (live_info (live s)) <= now -> r <> Ok NotDue)
      /\ (plan <> PAcme \/ ari_on = false -> now < renewal_point (live_info (live s)) -> r = Ok NotDue)).
Proof.
  intros H.
  destruct (check_cases plan ari_on s now answer issue generate disk) as (at_ & s1 & Hl & Hat & Hc).
  rewrite H in Hc. cbn zeta in Hc.
  split_and!.
  - intros Hr. destruct (renewal_due _ _ _ || _); [|tauto]. destruct plan; [destruct issue, disk|destruct (self_issued _);
      [destruct generate, disk|]|]; tauto.
  - intros ->. destruct (renewal_due _ _ _ || _); [|by destruct Hc].
    destruct plan; [destruct issue, disk|destruct (self_issued _); [destruct generate, disk|]|];
      try (destruct Hc as [[? ?] ?]; discriminate); try (destruct Hc; discriminate);
      destruct Hc as [_ ->]; eexists; (split; [done|apply reload_chain]).
  - intros -> Hs. rewrite Hs in Hc. destruct (renewal_due _ _ _ || _); tauto.
  - intros Hlt. pose proof (renewal_due_spec _ _ now Hlt) as Hd. fold (renewal_point (live_info (live s))) in Hd. split.
    + intros Hn. rewrite (proj2 Hd Hn) in Hc. cbn [orb] in Hc.
      intros ->. destruct plan; [destruct issue, disk|destruct (self_issued _); [destruct generate, disk|]|];
      try (destruct Hc as [[? ?] ?]; discriminate); destruct Hc; discriminate.
    + intros Hp Hn. destruct (renewal_due _ _ _); [lia|]. cbn [orb] in Hc.
      assert (bool_decide (plan = PAcme) && ari_on = false) as Hf.
      { destruct Hp as [Hp| ->]; [by rewrite bool_decide_false|by rewrite andb_false_r]. }
      rewrite Hf in Hat. injection Hat as -> ->. tauto.
Qed.

Section Deadline.
Context (plan : RenewPlan) (ari_on : bool) (E : Z) (l : Live).
Let T : Z := renewal_point (live_info l).

(** From the two-thirds point on, renewing works; a round takes at most [E] seconds. *)
Definition world_ok (w : World) : Prop :=
  0 <= w_jitter w < CHECK_JITTER_SECS /\ 0 <= w_elapsed w <= E
  /\ forall t, renewal_point (live_info l) <= t -> w_issue w t = Issued /\ w_generate w t = Ok tt.

(** The plan renews certificates such as this one. *)
Definition plan_renews : Prop := plan = PAcme \/ plan = PSelfSigned /\ self_issued (live_info l) = true.

Lemma after_check_failures m r days : 0 <= failures m -> 0 <= failures (after_check m r days).1.
Proof. intros H. destruct r as [[]|]; cbn; unfold sat_add; lia. Qed.

Lemma reload_same s : live s = l -> reload s (Ok l) = (Ok Unchanged, s).
Proof. intros <-. unfold reload. by rewrite bool_decide_true. Qed.

(** One check of the certificate [l]: it is renewed, or it was not due yet and nothing changed. *)
Lemma check_progress s now w :
  plan_renews -> not_before (live_info l) < not_after (live_info l) -> world_ok w -> live s = l ->
  let '(r, s') := check plan ari_on s now (w_answer w) (w_issue w now) (w_generate w now) (Ok (w_written w)) in
  r = Ok Renewed \/ r <> Ok Renewed /\ now < T /\ live s' = l.
Proof.
  intros Hp Hlt (_ & _ & Hw) Hl.
  destruct (check_cases plan ari_on s now (w_answer w) (w_issue w now) (w_generate w now) (Ok (w_written w)))
    as (at_ & s1 & Hl1 & _ & Hc).
  destruct (check _ _ _ _ _ _ _ _) as [r s']. cbn zeta in Hc. rewrite Hl in Hc.
  destruct (Z.le_gt_cases T now) as [Hn|Hn].
  - left. specialize (Hw now Hn) as [Hi Hg]. rewrite Hi, Hg, (proj2 (renewal_due_spec _ _ now Hlt) Hn) in Hc.
    cbn [orb] in Hc. destruct Hp as [-> | [-> Hs]]; [by destruct Hc|]. rewrite Hs in Hc. by destruct Hc.
  - destruct (renewal_due _ _ _ || _).
    + destruct plan; [destruct (w_issue w now)|destruct (self_issued (live_info l)); [destruct (w_generate w now)|]|];
        destruct Hc as [Hr Hs]; try (by left);
        (right; split_and!; [destruct Hr; subst r; discriminate|done|congruence]) ||
        (right; split_and!; [subst r; discriminate|done|congruence]).
    + destruct Hc as [-> Hs]. right. by split_and!.
Qed.

(** One round from the certificate [l]: renewed, or still [l] and the wait is bounded. *)
Lemma round_progress s m now w :
  plan_renews -> not_before (live_info l) < not_after (live_info l) -> world_ok w -> live s = l -> 0 <= failures m ->
  let '(r, s', m', _, wait) :=
    round plan ari_on s m now (w_jitter w) (Ok l) (w_answer w) (w_issue w now) (w_generate w now) (Ok (w_written w)) in
  r = Ok Renewed \/ r <> Ok Renewed /\ now < T /\ live s' = l /\ 0 <= failures m' /\ wait <= 43200.
Proof.
  intros Hp Hlt Hw Hl Hm. pose proof (check_progress s now w Hp Hlt Hw Hl) as Hc.
  unfold round. rewrite (reload_same _ Hl).
  destruct (check _ _ _ _ _ _ _ _) as [r s'].
  pose proof (after_check_failures m r (days_left (live_info (live s')) now) Hm) as Hf.
  destruct (after_check m r _) as [m' wn]. cbn [fst] in Hf.
  destruct Hc as [Hc|(Hr & Hn & Hs)]; [by left|right]. split_and!; try done.
  apply next_wait_range; [done|apply Hw].
Qed.

Lemma maintain_deadline ws : forall s m now,
  plan_renews -> not_before (live_info l) < not_after (live_info l) -> Forall world_ok ws -> live s = l ->
  0 <= failures m -> now <= T + (43200 + E) ->
  (exists t r, (t, r) ∈ maintain plan ari_on ws s m (Ok l) now /\ T <= t) ->
  exists t, (t, Ok Renewed) ∈ maintain plan ari_on ws s m (Ok l) now /\ t <= T + (43200 + E).
Proof.
  induction ws as [|w ws IH]; intros s m now Hp Hlt Hws Hl Hm Hnow (t & r & Hin & Ht); cbn [maintain] in *.
  { by apply not_elem_of_nil in Hin. }
  apply Forall_cons in Hws as [Hw Hws].
  pose proof (round_progress s m now w Hp Hlt Hw Hl Hm) as Hr.
  destruct (round _ _ _ _ _ _ _ _ _ _ _) as [[[[r1 s1] m1] wn] wait].
  destruct Hr as [->|(Hr & Hn & Hs & Hm1 & Hwait)].
  - exists now. split; [left|done].
  - replace (match r1 with Ok Renewed => Ok (w_written w) | _ => Ok l end) with (Ok l : result Live) in *
      by (destruct r1 as [[]|]; done).
    apply elem_of_cons in Hin as [[= -> ->]|Hin]; [lia|].
    destruct (IH s1 m1 (now + w_elapsed w + wait) Hp Hlt Hws Hs Hm1) as (t' & Hin' & Ht').
    + destruct Hw as (_ & ? & _). lia.
    + by exists t, r.
    + exists t'. split; [by right|done].
Qed.
End Deadline.

(** C34.  When renewing works from the two-thirds point on, the certificate is renewed within twelve hours and
    one round of it, whatever earlier attempts made of the back-off and whatever the CA's window says; at
    least a third of its lifetime, less that delay, is then left.  The run of [maintain] need only reach
    the two-thirds point. *)
Theorem renewal_meets_deadline plan ari_on E ws s m now :
  let i := live_info (live s) in
  plan_renews plan (live s) -> not_before i < not_after i -> Forall (world_ok E (live s)) ws ->
  0 <= failures m -> now <= renewal_point i ->
  (exists t r, (t, r) ∈ maintain plan ari_on ws s m (Ok (live s)) now /\ renewal_point i <= t) ->
  exists t, (t, Ok Renewed) ∈ maintain plan ari_on ws s m (Ok (live s)) now
            /\ t <= renewal_point i + 43200 + E
            /\ (not_after i - not_before i) / 3 - 43200 - E <= not_after i - t.
Proof.
  intros i Hp Hlt Hws Hm Hnow Hex. subst i.
  assert (0 <= E) as HE.
  { destruct Hex as (t & r & Hin & _). destruct ws as [|w ws]; [by apply not_elem_of_nil in Hin|].
    apply Forall_cons in Hws as [(_ & ? & _) _]. lia. }
  destruct (maintain_deadline plan ari_on E (live s) ws s m now Hp Hlt Hws eq_refl Hm) as (t & Hin & Ht);
    [lia|done|].
  exists t. pose proof (third_left _ Hlt). split_and!; [done|lia|lia].
Qed.

(** A certificate of ninety days: the CA is down for the attempts the early window asks for, and well
    again on the sixtieth day. *)
Definition demo_info (nb na : Z) (self : bool) : CertInfo := mkCertInfo nb na (lit "01") self (Some (mkAriId (lit "k") (lit "01"))).
Definition demo_store (nb na : Z) (self : bool) : CertStore :=
  mkCertStore (mkLive [[1]] (demo_info nb na self)) 0 0 (fun _ => 0) None None.
Definition demo_world (T : Z) : World :=
  mkWorld 5 60 (Window (T - 100000) (T - 100000) 7200) (fun t => if t <? T then IssuanceFailed else Issued)
    (fun _ => Ok tt) (mkLive [[2]] (demo_info T (T + 7776000) false)).

Lemma renewal_meets_deadline_witness :
  let s := demo_store 0 7776000 false in
  exists t, (t, Ok Renewed) ∈ maintain PAcme true (repeat (demo_world 5184000) 12) s (mkMaintain 0 false)
                                (Ok (live s)) 5080000
            /\ t <= 5184000 + 43200 + 60 /\ 7776000 / 3 - 43200 - 60 <= 7776000 - t.
Proof.
  intros s.
  apply (renewal_meets_deadline PAcme true 60 (repeat (demo_world 5184000) 12) s (mkMaintain 0 false) 5080000).
  - by left.
  - vm_compute. reflexivity.
  - apply Forall_forall. intros w Hw. apply list_elem_of_In, repeat_spec in Hw as ->.
    unfold world_ok, CHECK_JITTER_SECS. cbn. split_and!; try lia. intros t Ht.
    change (renewal_point (demo_info 0 7776000 false)) with 5184000 in Ht.
    split; [|done]. by destruct (Z.ltb_spec t 5184000); [lia|].
  - done.
  - vm_compute. discriminate.
  - exists 5207570, (Ok Renewed). split; [|vm_compute; discriminate].
    apply (list_elem_of_lookup_2 _ 11). vm_compute. reflexivity.
Defined.

Lemma check_keeps_serving_witness :
  let s := demo_store 0 7776000 false in
  live (check PSelfSigned true s 7000000 NoWindow Issued (Ok tt) (Ok (mkLive [[3]] (demo_info 0 1 true)))).2 = live s.
Proof.
  intros s. set (d := Ok (mkLive [[3]] (demo_info 0 1 true))).
  destruct (check PSelfSigned true s 7000000 NoWindow Issued (Ok tt) d) as [r s'] eqn:H.
  exact (proj1 (proj2 (proj2 (check_keeps_serving _ _ _ _ _ _ _ _ r s' H))) eq_refl eq_refl).
Defined.

(** A renewed pair that cannot be loaded is a failed renewal; over ACME it is not recorded as one, while
    for a self-signed certificate it is. *)
Example acme_reload_failure_unrecorded :
  let s := demo_store 0 7776000 true in
  let after plan := (check plan false s 7000000 NoWindow Issued (Ok tt) (Err "bad key")) in
  (after PAcme).1 = Err "bad key" /\ last_renewal (after PAcme).2 = None
  /\ renewals (after PAcme).2 (RAcme, RFailed) = 0
  /\ (after PSelfSigned).1 = Err "bad key" /\ renewals (after PSelfSigned).2 (RSelfSigned, RFailed) = 1.
Proof. vm_compute. auto. Qed.

(** [reload] counts what it does, and keeps serving what it served when the files are bad. *)
Lemma reload_counts s d :
  let '(r, s') := reload s d in
  match r with
  | Ok Unchanged => s' = s
  | Ok Swapped => d = Ok (live s') /\ chain (live s') <> chain (live s) /\ reloads_swapped s' = reloads_swapped s + 1
  | Err _ => live s' = live s /\ reloads_rejected s' = reloads_rejected s + 1
  end.
Proof. unfold reload. destruct d as [l|e]; [|done]. by case_bool_decide. Qed.
