(* ===== verification/Outbound.v ===== *)
(** * Outbound: how the edge reaches what it calls itself ([src/src/outbound.rs])

    Each client is set up from its section's [OutboundCfg], with [\[outbound\]] for the keys the section
    leaves empty: the CAs it trusts, the certificate it presents, the proxy it goes through.  Client
    certificates live in one registry for the process, one store per file pair, with a claim for each
    client that presents it. *)

From S2P Require Import Prelude Text Utf8 CertStore Privacy.

Record OutboundDefaultsCfg : Type := mkDefaults {
  d_extra_ca_path : bytes; d_client_cert_path : bytes; d_client_key_path : bytes; d_proxy : bytes;
  d_ca_path : bytes                                     (** read only to be refused *)
}.

Record OutboundCfg : Type := mkOutboundCfg {
  o_ca_path : bytes; o_client_cert_path : bytes; o_client_key_path : bytes; o_proxy : bytes;
  o_defaults : OutboundDefaultsCfg
}.

Definition is_empty (s : bytes) : bool := beq s [].

Definition defaults_is_empty (d : OutboundDefaultsCfg) : bool :=
  is_empty (d_extra_ca_path d) && is_empty (d_client_cert_path d) && is_empty (d_client_key_path d)
  && is_empty (trim (d_proxy d)) && is_empty (d_ca_path d).

Definition is_https (url : bytes) : bool := starts_with (trim url) (lit "https://").

(** ** Settings *)

Inductive Origin : Type := OSection | OOutbound.
Inductive Trust : Type := Public | PublicAnd (extra : bytes) | Only (ca_path : bytes).
Inductive PublicRoots : Type := Bundled | System.

#[global] Instance Origin_eq_dec : EqDecision Origin.
Proof. solve_decision. Defined.
#[global] Instance Trust_eq_dec : EqDecision Trust.
Proof. solve_decision. Defined.
#[global] Instance PublicRoots_eq_dec : EqDecision PublicRoots.
Proof. solve_decision. Defined.

(** [Origin::key]: the setting as an error names it. *)
Definition origin_key (o : Origin) (what key : bytes) : bytes :=
  match o with
  | OSection => what ++ lit "." ++ key
  | OOutbound => lit "outbound." ++ key ++ lit " (inherited by " ++ what ++ lit ")"
  end.

Definition label_for (t : Trust) (public : PublicRoots) : bytes :=
  match t, public with
  | Public, Bundled => lit "public"
  | Public, System => lit "system"
  | PublicAnd _, Bundled => lit "public+extra_ca_path"
  | PublicAnd _, System => lit "system+extra_ca_path"
  | Only _, _ => lit "ca_path"
  end.

Definition label (t : Trust) : bytes := label_for t Bundled.

Record Settings : Type := mkSettings {
  trust : Trust; identity_files : option (bytes * bytes * Origin); proxy : bytes * Origin
}.

#[global] Instance Settings_eq_dec : EqDecision Settings.
Proof. solve_decision. Defined.

(** [Settings::of]. *)
Definition settings_of (cfg : OutboundCfg) (url : bytes) : Settings :=
  let d := o_defaults cfg in
  let https := is_https url in
  mkSettings
    (if negb (is_empty (o_ca_path cfg)) then Only (o_ca_path cfg)
     else if https && negb (is_empty (d_extra_ca_path d)) then PublicAnd (d_extra_ca_path d)
     else Public)
    (if negb (is_empty (o_client_cert_path cfg)) || negb (is_empty (o_client_key_path cfg)) then
       Some (o_client_cert_path cfg, o_client_key_path cfg, OSection)
     else if https && negb (is_empty (d_client_cert_path d)) then
       Some (d_client_cert_path d, d_client_key_path d, OOutbound)
     else None)
    (if is_empty (trim (o_proxy cfg)) then (d_proxy d, OOutbound) else (o_proxy cfg, OSection)).

Definition inherited (s : Settings) : list bytes :=
  (match trust s with PublicAnd _ => [lit "extra_ca_path"] | _ => [] end)
  ++ (match identity_files s with Some (_, _, OOutbound) => [lit "client_cert_path"] | _ => [] end)
  ++ (if bool_decide ((proxy s).2 = OOutbound) && negb (is_empty (trim (proxy s).1)) then [lit "proxy"] else []).

Definition would_inherit_tls (cfg : OutboundCfg) : bool :=
  negb (bool_decide (settings_of cfg (lit "https://") = settings_of cfg (lit "http://"))).

(** One section's client, as [Config::outbound_clients] lists it. *)
Record OutboundClient : Type := mkOutboundClient {
  oc_section : bytes; oc_enabled : bool; oc_url : bytes; oc_outbound : OutboundCfg
}.

Definition inheritors (clients : list OutboundClient) : list (bytes * list bytes) :=
  List.filter (fun '(_, keys) => negb (Nat.eqb (length keys) 0))
    (map (fun c => (oc_section c, inherited (settings_of (oc_outbound c) (oc_url c))))
       (List.filter oc_enabled clients)).

(** ** Proxies *)

Inductive ProxyRoute : Type := Environment | Direct | Via (url : bytes).

Definition redact_proxy (raw : bytes) : bytes :=
  let raw := trim raw in
  if negb (contains SCHEME_SEP raw) && contains [64] raw then lit "<redacted>" else userinfo raw.

Section Proxy.
(** [reqwest::Url::parse]: the scheme, and whether there is a host; [reqwest::Proxy::all] accepts. *)
Variable url_parse : bytes -> option (bytes * bool).
Variable proxy_all : bytes -> bool.

Definition parse_proxy (raw : bytes) : result ProxyRoute :=
  let raw := trim raw in
  if beq raw [] then Ok Environment
  else if beq raw (lit "none") then Ok Direct
  else
    let? u := ok_or (url_parse raw) "proxy: not a URL" in
    ensure (beq u.1 (lit "http")) else "expected an http:// proxy URL (a CONNECT proxy), or none";
    ensure u.2 else "the proxy has no host";
    ensure (proxy_all raw) else "proxy";
    Ok (Via raw).
End Proxy.

(** ** The registry of client certificates *)

(** A store is an [Arc]: the registry and the clients hold its location in [loaded]. *)
Record Identities : Type := mkIdentities {
  loaded : list CertStore; stores : gmap (bytes * bytes) nat; claims : gmap Z (bytes * bytes * bytes);
  next_claim : Z; on_new : bool;
  told : list nat                                       (** the calls of the [on_new] closure, in order *)
}.

Definition no_identities : Identities := mkIdentities [] ∅ ∅ 0 false [].

(** A client's hold: the store it presents, and its claim. *)
Record ClientIdentity : Type := mkClientIdentity { ci_store : nat; ci_claim : Z }.

Record InUse : Type := mkInUse { iu_store : nat; used_by : list bytes }.

Section Identity.
(** What [load_pair] finds in the two files. *)
Variable load_pair : bytes -> bytes -> result Live.

(** The store of a pair, loaded the first time. *)
Definition store_for (cert_path key_path : bytes) (st : Identities) : result (nat * Identities) :=
  match stores st !! (cert_path, key_path) with
  | Some s => Ok (s, st)
  | None =>
      let? s := store_load (load_pair cert_path key_path) in
      let loc := length (loaded st) in
      Ok (loc, mkIdentities (loaded st ++ [s]) (<[(cert_path, key_path) := loc]> (stores st)) (claims st)
                 (next_claim st) (on_new st) (if on_new st then told st ++ [loc] else told st))
  end.

Definition identity (cert_path key_path used_by : bytes) (st : Identities)
    : result (option ClientIdentity) * Identities :=
  if negb (Bool.eqb (is_empty cert_path) (is_empty key_path)) then
    (Err "cert_path and key_path must be set together", st)
  else if is_empty cert_path then (Ok None, st)
  else
    match store_for cert_path key_path st with
    | Err e => (Err e, st)
    | Ok (s, st) =>
        let id := next_claim st in
        (Ok (Some (mkClientIdentity s id)),
         mkIdentities (loaded st) (stores st) (<[id := (cert_path, key_path, used_by)]> (claims st))
           (wrap 64 (id + 1)) (on_new st) (told st))
    end.

(** [Claim::drop]. *)
Definition release (id : Z) (st : Identities) : Identities :=
  mkIdentities (loaded st) (stores st) (delete id (claims st)) (next_claim st) (on_new st) (told st).

(** [watch_identities]. *)
Definition watch_identities (st : Identities) : Identities :=
  mkIdentities (loaded st) (stores st) (claims st) (next_claim st) true
    (told st ++ map snd (map_to_list (stores st))).

(** [String]'s order on the two paths. *)
Definition pair_leb (a b : bytes * bytes) : bool :=
  if beq a.1 b.1 then bytes_leb a.2 b.2 else bytes_leb a.1 b.1.

Fixpoint insert_pair (x : bytes * bytes) (l : list (bytes * bytes)) : list (bytes * bytes) :=
  match l with
  | [] => [x]
  | y :: l' => if bool_decide (x = y) then l else if pair_leb x y then x :: l else y :: insert_pair x l'
  end.

(** The keys of [by_pair], in order. *)
Definition claimed_pairs (st : Identities) : list (bytes * bytes) :=
  fold_right (fun '(_, (p, _)) l => insert_pair p l) [] (map_to_list (claims st)).

Definition users_of (pair : bytes * bytes) (st : Identities) : list bytes :=
  dedup (sort_bytes (map (fun '(_, (_, user)) => user)
    (List.filter (fun '(_, (p, _)) => bool_decide (p = pair)) (map_to_list (claims st))))).

Definition in_use (st : Identities) : list InUse :=
  omap (fun pair => s ← stores st !! pair; Some (mkInUse s (users_of pair st))) (claimed_pairs st).
End Identity.

(** ** Building a client *)

Section Builder.
(** Files and PEM; a certificate [RootCertStore::add] takes; the bundled roots; the platform verifier. *)
Variable fs : bytes -> option bytes.
Variable pem_certs : bytes -> option (list bytes).
Variable usable_ca : bytes -> bool.
Variable bundled : list bytes.
Variable platform_verifier : list bytes -> bool.
Variable url_parse : bytes -> option (bytes * bool).
Variable proxy_all : bytes -> bool.
Variable load_pair : bytes -> bytes -> result Live.

(** [tls::load_certs]. *)
Definition load_certs (path : bytes) : result (list bytes) :=
  let? b := ok_or (fs path) "opening certificate file" in
  let? cs := ok_or (pem_certs b) "parsing certificates" in
  ensure (negb (Nat.eqb (length cs) 0)) else "no certificates found";
  Ok cs.

Definition add_cas (rs : list bytes) (ca_path : bytes) : result (list bytes) :=
  let? cs := load_certs ca_path in
  ensure (forallb usable_ca cs) else "not a usable CA certificate";
  Ok (rs ++ cs).

Definition roots (ca_path : bytes) : result (list bytes) :=
  if is_empty ca_path then Ok bundled else add_cas [] ca_path.

Definition public_and (extra : bytes) : result (list bytes) :=
  let? rs := roots [] in add_cas rs extra.

Inductive Verify : Type := Roots (cas : list bytes) | Verifier_ (extra : list bytes).

Definition trust_roots (t : Trust) : result (list bytes) :=
  match t with
  | Public => roots []
  | Only ca_path => roots ca_path
  | PublicAnd extra => public_and extra
  end.

Definition system_verify (extra : list bytes) : result Verify :=
  ensure (platform_verifier extra) else "loading the operating system's trust store";
  Ok (Verifier_ extra).

(** [Trust::verify]. *)
Definition verify (t : Trust) (public : PublicRoots) : result Verify :=
  match t, public with
  | Public, System => system_verify []
  | PublicAnd extra, System => let? cs := load_certs extra in system_verify cs
  | _, _ => let? rs := trust_roots t in Ok (Roots rs)
  end.

(** What [client_config_verifying] sets that matters here: the check of the server, the certificate, and
    whether sessions are resumed. *)
Record TlsConfig : Type := mkTls { tc_verify : Verify; tc_identity : option ClientIdentity; tc_resumption : bool }.

Definition client_config_verifying (v : Verify) (i : option ClientIdentity) : TlsConfig :=
  mkTls v i (match i with Some _ => false | None => true end).

(** The builder's calls: [use_preconfigured_tls], [pool_max_idle_per_host(0)], and the proxy. *)
Record ClientBuilder : Type := mkBuilder { cb_tls : option TlsConfig; cb_pooled : bool; cb_proxy : ProxyRoute }.

Definition check_own (cfg : OutboundCfg) (url : bytes) : result unit :=
  ensure (negb (negb (is_empty (o_ca_path cfg)) || negb (is_empty (o_client_cert_path cfg))) || is_https url)
    else "ca_path / client_cert_path are set but the URL is not https://";
  ensure (Bool.eqb (is_empty (o_client_cert_path cfg)) (is_empty (o_client_key_path cfg)))
    else "client_cert_path and client_key_path must be set together";
  Ok tt.

(** [builder_trusting] once the identity is known. *)
Definition builder_with (s : Settings) (public : PublicRoots) (i : option ClientIdentity)
    : result (ClientBuilder * option nat) :=
  let? tls := (if negb (bool_decide (trust s = Public)) || match i with Some _ => true | None => false end
                  || bool_decide (public = System) then
                 let? v := verify (trust s) public in Ok (Some (client_config_verifying v i))
               else Ok None) in
  let? route := parse_proxy url_parse proxy_all (proxy s).1 in
  Ok (mkBuilder tls (match i with Some _ => false | None => true end) route, ci_store <$> i).

(** A client that fails to build drops its identity, and with it the claim. *)
Definition builder_trusting (cfg : OutboundCfg) (what url : bytes) (public : PublicRoots) (st : Identities)
    : result (ClientBuilder * option nat) * Identities :=
  match check_own cfg url with
  | Err e => (Err e, st)
  | Ok _ =>
      let s := settings_of cfg url in
      let '(ri, st) := match identity_files s with
                       | Some (cert, key, _) => identity load_pair cert key what st
                       | None => (Ok None, st)
                       end in
      match ri with
      | Err e => (Err e, st)
      | Ok i =>
          match builder_with s public i with
          | Err e => (Err e, match i with Some c => release (ci_claim c) st | None => st end)
          | Ok b => (Ok b, st)
          end
      end
  end.

Definition builder (cfg : OutboundCfg) (what url : bytes) (st : Identities) :=
  builder_trusting cfg what url Bundled st.

Definition check_defaults (d : OutboundDefaultsCfg) : result unit :=
  ensure (is_empty (d_ca_path d)) else "outbound.ca_path is not a setting";
  ensure (Bool.eqb (is_empty (d_client_cert_path d)) (is_empty (d_client_key_path d)))
    else "outbound.client_cert_path and client_key_path must be set together";
  let? _ := (if is_empty (d_extra_ca_path d) then Ok tt
             else let? _ := public_and (d_extra_ca_path d) in Ok tt) in
  let? _ := (if is_empty (d_client_cert_path d) then Ok tt
             else let? _ := store_load (load_pair (d_client_cert_path d) (d_client_key_path d)) in Ok tt) in
  let? _ := parse_proxy url_parse proxy_all (d_proxy d) in
  Ok tt.
End Builder.
