(* ===== verification/OutboundLaws.v ===== *)
(** * OutboundLaws: what the edge's own clients promise

    A client presents a certificate, or trusts a CA of its own, only over TLS, and one that presents a
    certificate opens every connection afresh, so a rotation reaches it.  The registry reports exactly the
    certificates some live client presents, by whom, and hands every store to the watcher once. *)

From S2P Require Import Prelude Text Utf8 Der CertStore Privacy Outbound.

(** ** Settings *)

Lemma is_empty_true s : is_empty s = true <-> s = [].
Proof. unfold is_empty. apply beq_true. Qed.

Lemma settings_tls cfg url : check_own cfg url = Ok tt -> is_https url = false ->
  trust (settings_of cfg url) = Public /\ identity_files (settings_of cfg url) = None.
Proof.
  unfold check_own. intros H Hh. unfold settings_of. rewrite Hh in *. cbn [trust identity_files].
  destruct (is_empty (o_ca_path cfg)), (is_empty (o_client_cert_path cfg)), (is_empty (o_client_key_path cfg));
    cbn in H |- *; try discriminate H; done.
Qed.

(** An identity is never half from the section and half from [[outbound]]. *)
Lemma settings_pair cfg url c k o : identity_files (settings_of cfg url) = Some (c, k, o) ->
  (c, k) = match o with
           | OSection => (o_client_cert_path cfg, o_client_key_path cfg)
           | OOutbound => (d_client_cert_path (o_defaults cfg), d_client_key_path (o_defaults cfg))
           end.
Proof. unfold settings_of. cbn [identity_files]. intros H. repeat case_match; simplify_eq; done. Qed.

(** ** The order of pairs *)

Lemma pair_leb_total a b : pair_leb a b = true \/ pair_leb b a = true.
Proof.
  unfold pair_leb. destruct (decide (a.1 = b.1)) as [E|E].
  - rewrite <- E, !beq_refl. apply bytes_leb_total.
  - assert (beq a.1 b.1 = false /\ beq b.1 a.1 = false) as [-> ->]
      by (split; apply bool_decide_eq_false; congruence).
    apply bytes_leb_total.
Qed.

Lemma pair_leb_antisym a b : pair_leb a b = true -> pair_leb b a = true -> a = b.
Proof.
  unfold pair_leb. destruct (decide (a.1 = b.1)) as [E|E].
  - rewrite E, !beq_refl. intros H1 H2. destruct a, b; cbn in *. f_equal; [done|]. by apply bytes_leb_antisym.
  - assert (beq a.1 b.1 = false /\ beq b.1 a.1 = false) as [-> ->]
      by (split; apply bool_decide_eq_false; congruence).
    intros H1 H2. destruct E. by apply bytes_leb_antisym.
Qed.

Lemma pair_leb_trans a b c : pair_leb a b = true -> pair_leb b c = true -> pair_leb a c = true.
Proof.
  unfold pair_leb, beq. intros H1 H2. repeat case_bool_decide; try congruence.
  - by eapply bytes_leb_trans.
  - assert (b.1 = a.1) by (apply bytes_leb_antisym; congruence). congruence.
  - by eapply bytes_leb_trans.
Qed.

Definition pairs_sorted : list (bytes * bytes) -> Prop :=
  Sorted.StronglySorted (fun a b => a <> b /\ pair_leb a b = true).

Lemma elem_of_insert_pair x y l : y ∈ insert_pair x l <-> y = x \/ y ∈ l.
Proof.
  induction l as [|z l IH]; cbn [insert_pair]; [set_solver|].
  case_bool_decide as E; [subst; set_solver|]. destruct (pair_leb x z); rewrite !elem_of_cons; [done|].
  rewrite IH. tauto.
Qed.

Lemma insert_pair_sorted x l : pairs_sorted l -> pairs_sorted (insert_pair x l).
Proof.
  induction 1 as [|z l Hl IH Hz]; cbn [insert_pair]; [repeat constructor|].
  case_bool_decide as E; [by constructor|]. destruct (pair_leb x z) eqn:Hle.
  - constructor; [by constructor|]. constructor; [done|]. rewrite Forall_forall in Hz |- *.
    intros y Hy. destruct (Hz y Hy) as [Hne Hzy]. split; [|by eapply pair_leb_trans].
    intros <-. apply E. by apply pair_leb_antisym.
  - constructor; [done|]. rewrite Forall_forall in Hz |- *. intros y [->|Hy]%elem_of_insert_pair; [|auto].
    split; [congruence|]. destruct (pair_leb_total x z); congruence.
Qed.

Lemma pairs_sorted_NoDup l : pairs_sorted l -> NoDup l.
Proof.
  induction 1 as [|z l Hl IH Hz]; constructor; [|done]. intros Hin.
  rewrite Forall_forall in Hz. by destruct (Hz z Hin).
Qed.

Lemma claimed_pairs_sorted st : pairs_sorted (claimed_pairs st).
Proof.
  unfold claimed_pairs. induction (map_to_list (claims st)) as [|[i [p u]] l IH]; [constructor|].
  by apply insert_pair_sorted.
Qed.

Lemma elem_of_claimed_pairs p st :
  p ∈ claimed_pairs st <-> exists i u, (i, (p, u)) ∈ map_to_list (claims st).
Proof.
  unfold claimed_pairs. induction (map_to_list (claims st)) as [|[i [q u]] l IH]; cbn [fold_right].
  - set_solver.
  - rewrite elem_of_insert_pair, IH. set_solver.
Qed.

Lemma elem_of_users_of u p st : u ∈ users_of p st <-> exists i, (i, (p, u)) ∈ map_to_list (claims st).
Proof.
  unfold users_of. rewrite elem_of_dedup, elem_of_sort_bytes, list_elem_of_In, in_map_iff. split.
  - intros ([i [q v]] & <- & Hf). apply filter_In in Hf as [Hin Hq].
    apply bool_decide_eq_true in Hq as ->. exists i. by apply list_elem_of_In.
  - intros [i Hi]. exists (i, (p, u)). split; [done|]. apply filter_In.
    split; [by apply list_elem_of_In|]. by apply bool_decide_eq_true.
Qed.

Section Laws.
Variable fs : bytes -> option bytes.
Variable pem_certs : bytes -> option (list bytes).
Variable usable_ca : bytes -> bool.
Variable bundled : list bytes.
Variable platform_verifier : list bytes -> bool.
Variable url_parse : bytes -> option (bytes * bool).
Variable proxy_all : bytes -> bool.
Variable load_pair : bytes -> bytes -> result Live.

Abbreviation build_client :=
  (builder_trusting fs pem_certs usable_ca bundled platform_verifier url_parse proxy_all load_pair).
Abbreviation build_with := (builder_with fs pem_certs usable_ca bundled platform_verifier url_parse proxy_all).

Lemma builder_trusting_Ok cfg what url public st b so st' :
  build_client cfg what url public st = (Ok (b, so), st') ->
  check_own cfg url = Ok tt /\
  exists i, build_with (settings_of cfg url) public i = Ok (b, so)
    /\ match identity_files (settings_of cfg url) with
       | Some (c, k, _) => identity load_pair c k what st = (Ok i, st')
       | None => i = None /\ st' = st
       end.
Proof.
  unfold builder_trusting. destruct (check_own cfg url) as [[]|] eqn:Hc; [|intros [=]].
  destruct (identity_files (settings_of cfg url)) as [[[c k] o]|].
  - destruct (identity load_pair c k what st) as [[i|e] st1]; [|intros [=]].
    destruct (build_with (settings_of cfg url) public i) eqn:Hw; intros [= -> ->]. eauto.
  - destruct (build_with (settings_of cfg url) public None) eqn:Hw; intros [= -> ->]. eauto 6.
Qed.

Lemma builder_with_Ok s public i b so : build_with s public i = Ok (b, so) ->
  so = ci_store <$> i
  /\ parse_proxy url_parse proxy_all (proxy s).1 = Ok (cb_proxy b)
  /\ cb_pooled b = match i with Some _ => false | None => true end
  /\ match cb_tls b with
     | Some t => verify fs pem_certs usable_ca bundled platform_verifier (trust s) public = Ok (tc_verify t)
                 /\ tc_identity t = i /\ tc_resumption t = match i with Some _ => false | None => true end
     | None => trust s = Public /\ i = None /\ public = Bundled
     end.
Proof.
  unfold builder_with. intros H.
  destruct (negb (bool_decide (trust s = Public)) || match i with Some _ => true | None => false end
            || bool_decide (public = System)) eqn:Hn; run_inv H; subst b so; cbn.
  - run_inv Hv. subst. cbn. split_and!; auto.
  - run_inv Hv. subst. apply orb_false_iff in Hn as [[Ht Hi]%orb_false_iff Hp].
    apply negb_false_iff, bool_decide_eq_true in Ht. destruct i; [discriminate|]. cbn.
    apply bool_decide_eq_false in Hp. destruct public; split_and!; done.
Qed.

Lemma parse_proxy_http raw u : parse_proxy url_parse proxy_all raw = Ok (Via u) ->
  url_parse u = Some (lit "http", true).
Proof.
  unfold parse_proxy. intros H. repeat case_match; run_inv H; simplify_eq.
  destruct (url_parse (trim raw)) as [[sch host]|]; simplify_eq/=. by apply beq_true in He as ->.
Qed.

(** A client of the edge sends its certificate, and trusts anything but the public roots, only where its
    URL is [https://]; one that presents a certificate neither resumes a session nor keeps a connection, so
    the next request presents what the store holds then; and a proxy of its own is a plain [http://] one. *)
Theorem credentials_only_over_tls cfg what url public st b so st' :
  build_client cfg what url public st = (Ok (b, so), st') ->
  (so <> None \/ trust (settings_of cfg url) <> Public -> is_https url = true)
  /\ (so <> None -> cb_pooled b = false /\ exists t, cb_tls b = Some t /\ tc_resumption t = false
                    /\ (ci_store <$> tc_identity t) = so)
  /\ (forall u, cb_proxy b = Via u -> url_parse u = Some (lit "http", true)).
Proof.
  intros H. apply builder_trusting_Ok in H as (Hc & i & Hw & Hi).
  apply builder_with_Ok in Hw as (-> & Hp & Hpool & Ht). split_and!.
  - destruct (is_https url) eqn:Hh; [done|]. destruct (settings_tls _ _ Hc Hh) as [Htr Hid].
    rewrite Htr, Hid in *. destruct Hi as [-> _]. naive_solver.
  - destruct i as [c|]; [|done]. intros _. split; [done|].
    destruct (cb_tls b) as [t|]; [|naive_solver]. destruct Ht as (_ & Hid & Hr).
    exists t. by rewrite Hid, Hr.
  - intros u Hu. rewrite Hu in Hp. by apply parse_proxy_http in Hp.
Qed.

End Laws.

(** ** The registry *)

Section Registry.
Variable load_pair : bytes -> bytes -> result Live.

(** A client that is alive: its hold on a store, the files it named, and the section it is for. *)
Record Holder : Type := mkHolder { h_identity : ClientIdentity; h_pair : bytes * bytes; h_user : bytes }.

(** The process: clients take certificates and go; [main] starts the watch once. *)
Inductive reach : Identities -> list Holder -> Prop :=
| reach_start : reach no_identities []
| reach_take st hs c k u ci st' :
    reach st hs -> next_claim st + 1 < 2 ^ 64 -> identity load_pair c k u st = (Ok (Some ci), st') ->
    reach st' (mkHolder ci (c, k) u :: hs)
| reach_refused st hs c k u r st' :
    reach st hs -> identity load_pair c k u st = (r, st') ->
    match r with Ok (Some _) => False | _ => True end -> reach st' hs
| reach_drop st hs1 h hs2 :
    reach st (hs1 ++ h :: hs2) -> reach (release (ci_claim (h_identity h)) st) (hs1 ++ hs2)
| reach_watch st hs : reach st hs -> on_new st = false -> reach (watch_identities st) hs.

Definition claim_of (h : Holder) : Z * (bytes * bytes * bytes) := (ci_claim (h_identity h), (h_pair h, h_user h)).

(** Every store has one pair and every location one store; claims are the holders'. *)
Record registry_ok (st : Identities) (hs : list Holder) : Prop := {
  ro_claims : map_to_list (claims st) ≡ₚ map claim_of hs;
  ro_next : Forall (fun h => 0 <= ci_claim (h_identity h) < next_claim st) hs;
  ro_count : 0 <= next_claim st;
  ro_store : Forall (fun h => stores st !! h_pair h = Some (ci_store (h_identity h))) hs;
  ro_locs : map snd (map_to_list (stores st)) ≡ₚ seq 0 (length (loaded st));
  ro_told : told st ≡ₚ if on_new st then seq 0 (length (loaded st)) else []
}.

Lemma store_for_ok st hs c k s st1 : registry_ok st hs -> store_for load_pair c k st = Ok (s, st1) ->
  registry_ok st1 hs /\ stores st1 !! (c, k) = Some s
  /\ next_claim st1 = next_claim st /\ claims st1 = claims st.
Proof.
  intros Ho. unfold store_for. destruct (stores st !! (c, k)) as [l|] eqn:Hl; [intros [= <- <-]; done|].
  intros H. run_inv H. simplify_eq. cbn. rewrite lookup_insert_eq. split_and!; try done.
  destruct Ho as [Hc Hn Hz Hs Hlo Ht]. split; cbn; try done.
  - eapply Forall_impl; [exact Hs|]. cbn. intros h Hh. rewrite lookup_insert_ne; [done|congruence].
  - rewrite map_to_list_insert by done. cbn. rewrite Hlo, length_app, seq_app. cbn.
    by rewrite Permutation_cons_append.
  - rewrite length_app, seq_app. cbn. destruct (on_new st); by rewrite Ht.
Qed.

Lemma identity_refused c k u st r st' : identity load_pair c k u st = (r, st') ->
  match r with Ok (Some _) => False | _ => True end -> st' = st.
Proof. unfold identity. intros H Hr. repeat case_match; simplify_eq; done. Qed.

Lemma identity_taken st hs c k u ci st' : registry_ok st hs -> next_claim st + 1 < 2 ^ 64 ->
  identity load_pair c k u st = (Ok (Some ci), st') -> registry_ok st' (mkHolder ci (c, k) u :: hs).
Proof.
  intros Ho Hb. unfold identity. destruct (negb _); [done|]. destruct (is_empty c); [done|].
  destruct (store_for load_pair c k st) as [[s i]|] eqn:Hst; [|done].
  intros [= <- <-]. destruct (store_for_ok _ _ _ _ _ _ Ho Hst) as ([Hc Hn Hz Hs Hlo Ht] & Hk & Hnx & _).
  rewrite wrap_small by (unfold in_u; lia).
  assert (Hfresh : claims i !! next_claim i = None).
  { apply eq_None_not_Some. intros [v Hv%elem_of_map_to_list]. rewrite Hc in Hv.
    apply list_elem_of_In, in_map_iff in Hv as (h & [= Hid _] & Hin%list_elem_of_In).
    rewrite Forall_forall in Hn. specialize (Hn h Hin). lia. }
  split; cbn.
  - rewrite map_to_list_insert by done. cbn. by rewrite Hc.
  - constructor; cbn; [lia|]. eapply Forall_impl; [exact Hn|]. cbn. lia.
  - lia.
  - constructor; cbn; [done|]. done.
  - done.
  - done.
Qed.

Lemma release_ok st hs1 h hs2 : registry_ok st (hs1 ++ h :: hs2) ->
  registry_ok (release (ci_claim (h_identity h)) st) (hs1 ++ hs2).
Proof.
  intros [Hc Hn Hz Hs Hlo Ht]. split; cbn; try done.
  - assert (Hin : (ci_claim (h_identity h), (h_pair h, h_user h)) ∈ map_to_list (claims st)).
    { rewrite Hc, map_app. cbn. set_solver. }
    apply elem_of_map_to_list in Hin.
    apply (Permutation_cons_inv (a := claim_of h)). unfold claim_of at 1.
    rewrite map_to_list_delete by done. rewrite Hc, !map_app. cbn. by rewrite Permutation_middle.
  - rewrite Forall_app, Forall_cons in Hn. rewrite Forall_app. naive_solver.
  - rewrite Forall_app, Forall_cons in Hs. rewrite Forall_app. naive_solver.
Qed.

Lemma reach_ok st hs : reach st hs -> registry_ok st hs.
Proof.
  induction 1 as [|st hs c k u ci st' _ IH Hb Hi|st hs c k u r st' _ IH Hi Hr|st hs1 h hs2 _ IH|st hs _ IH Hw].
  - by split.
  - by eapply identity_taken.
  - by rewrite (identity_refused _ _ _ _ _ _ Hi Hr).
  - by apply release_ok.
  - destruct IH as [Hc Hn Hz Hs Hlo Ht]. split; cbn; try done.
    rewrite Hw in Ht. by rewrite Ht, Hlo.
Qed.

Lemma elem_of_claims st hs p u : registry_ok st hs ->
  (exists i, (i, (p, u)) ∈ map_to_list (claims st)) <-> exists h, h ∈ hs /\ h_pair h = p /\ h_user h = u.
Proof.
  intros Ho. setoid_rewrite (ro_claims _ _ Ho). split.
  - intros [i Hi]. apply list_elem_of_In, in_map_iff in Hi as (h & [= <- <- <-] & Hin).
    exists h. by rewrite list_elem_of_In.
  - intros (h & Hh & <- & <-). exists (ci_claim (h_identity h)).
    apply list_elem_of_In, in_map_iff. exists h. by rewrite <- list_elem_of_In.
Qed.

Lemma store_injective st hs p q l : registry_ok st hs ->
  stores st !! p = Some l -> stores st !! q = Some l -> p = q.
Proof.
  intros Ho Hp Hq. assert (Hnd : NoDup (map snd (map_to_list (stores st)))).
  { rewrite (ro_locs _ _ Ho). apply NoDup_seq. }
  apply elem_of_map_to_list, list_elem_of_lookup in Hp as [i Hi].
  apply elem_of_map_to_list, list_elem_of_lookup in Hq as [j Hj].
  assert (i = j) as <- by (eapply NoDup_lookup; [exact Hnd| |]; by rewrite list_lookup_fmap, ?Hi, ?Hj).
  congruence.
Qed.

(** In any run of the process, the registry lists each client certificate some live client presents, once,
    with exactly the sections presenting it; and from the start of the watch on, each store a client holds
    has been given to the watcher, once. *)
Theorem in_use_is_what_clients_present st hs : reach st hs ->
  NoDup (map iu_store (in_use st))
  /\ (forall s u, (exists i, i ∈ in_use st /\ iu_store i = s /\ u ∈ used_by i)
                 <-> exists h, h ∈ hs /\ ci_store (h_identity h) = s /\ h_user h = u)
  /\ (on_new st = true -> NoDup (told st) /\ forall h, h ∈ hs -> ci_store (h_identity h) ∈ told st).
Proof.
  intros Hr%reach_ok. split_and!.
  - unfold in_use. pose proof (pairs_sorted_NoDup _ (claimed_pairs_sorted st)) as Hnd.
    induction Hnd as [|p l Hp Hnd IH]; cbn; [constructor|].
    destruct (stores st !! p) as [s|] eqn:Hs; cbn; [|done]. constructor; [|done].
    rewrite list_elem_of_In, in_map_iff. intros (i & Hi & Hin%list_elem_of_In).
    apply list_elem_of_omap in Hin as (q & Hq & Hqi). destruct (stores st !! q) as [s'|] eqn:Hs'; simplify_eq/=.
    by rewrite (store_injective _ _ _ _ _ Hr Hs Hs') in Hp.
  - intros s u. split.
    + intros (i & Hi & <- & Hu). apply list_elem_of_omap in Hi as (p & Hp & Hpi).
      destruct (stores st !! p) as [s|] eqn:Hs; simplify_eq/=.
      apply elem_of_users_of, (elem_of_claims _ _ _ _ Hr) in Hu as (h & Hh & <- & <-).
      exists h. split_and!; try done. pose proof (proj1 (Forall_forall _ _) (ro_store _ _ Hr) _ Hh). congruence.
    + intros (h & Hh & <- & <-).
      pose proof (proj1 (Forall_forall _ _) (ro_store _ _ Hr) _ Hh) as Hs. cbn in Hs.
      destruct (proj2 (elem_of_claims _ _ (h_pair h) (h_user h) Hr)) as [i Hi]; [by exists h|].
      exists (mkInUse (ci_store (h_identity h)) (users_of (h_pair h) st)). split_and!; [|done|].
      * apply list_elem_of_omap. exists (h_pair h). rewrite Hs. split; [|done].
        apply elem_of_claimed_pairs. eauto.
      * cbn. apply elem_of_users_of. eauto.
  - intros Hw. pose proof (ro_told _ _ Hr) as Ht. rewrite Hw in Ht. split.
    + rewrite Ht. apply NoDup_seq.
    + intros h Hh. rewrite Ht, <- (ro_locs _ _ Hr).
      pose proof (proj1 (Forall_forall _ _) (ro_store _ _ Hr) _ Hh) as Hs. cbn in Hs.
      apply elem_of_map_to_list in Hs. apply list_elem_of_In, in_map_iff.
      exists (h_pair h, ci_store (h_identity h)). by rewrite <- list_elem_of_In.
Qed.
End Registry.

(** ** Witnesses *)

Definition sample_live : Live := mkLive [[1]] (mkCertInfo 0 1000 (lit "01") false None).
Definition sample_pair (c k : bytes) : result Live :=
  if beq c (lit "/c.pem") then Ok sample_live else Err "opening certificate file".
Definition sample_defaults : OutboundDefaultsCfg :=
  mkDefaults [] (lit "/c.pem") (lit "/k.pem") (lit "http://egress:3128") [].
Definition sample_url_parse (u : bytes) : option (bytes * bool) :=
  if starts_with u (lit "http://") then Some (lit "http", true) else None.

Lemma credentials_only_over_tls_witness : exists b st',
  is_https (lit "https://logs.example") = true
  /\ builder_trusting (fun _ => None) (fun _ => None) (fun _ => true) [] (fun _ => true) sample_url_parse
       (fun _ => true) sample_pair (mkOutboundCfg [] [] [] [] sample_defaults) (lit "log.ship")
       (lit "https://logs.example") Bundled no_identities = (Ok (b, Some 0%nat), st')
  /\ cb_pooled b = false.
Proof.
  eexists _, _. split; [reflexivity|]. split; [vm_compute; reflexivity|].
  refine (proj1 (proj1 (proj2 (credentials_only_over_tls (fun _ => None) (fun _ => None) (fun _ => true) []
    (fun _ => true) sample_url_parse (fun _ => true) sample_pair
    (mkOutboundCfg [] [] [] [] sample_defaults) (lit "log.ship") (lit "https://logs.example") Bundled
    no_identities _ (Some 0%nat) _ _)) _)); [vm_compute; reflexivity | discriminate].
Defined.

Definition taken (st : Identities) : Identities :=
  (identity sample_pair (lit "/c.pem") (lit "/k.pem") (lit "log.ship") st).2.

Lemma in_use_is_what_clients_present_witness :
  in_use (watch_identities (taken no_identities)) = [mkInUse 0 [lit "log.ship"]]
  /\ told (watch_identities (taken no_identities)) = [0%nat]
  /\ NoDup (map iu_store (in_use (watch_identities (taken no_identities)))).
Proof.
  split; [vm_compute; reflexivity|]. split; [vm_compute; reflexivity|].
  refine (proj1 (in_use_is_what_clients_present sample_pair _
    [mkHolder (mkClientIdentity 0 0) (lit "/c.pem", lit "/k.pem") (lit "log.ship")] _)).
  apply reach_watch; [|reflexivity].
  eapply reach_take; [apply reach_start | reflexivity | vm_compute; reflexivity].
Defined.
