(* ===== verification/Budget.v ===== *)
(** * Budget: LLM hard budgets, reserve and reconcile ([src/src/budget.rs])

    The in-process store ([MemoryStore]) with its expiring counters and settle markers, and
    [BudgetEngine], whose [reserve] holds an estimate against every budget and rolls back on the first
    refusal.  Instants are nanoseconds of the monotonic clock. *)

From S2P Require Import Prelude Text Units Float Limiter.

Inductive BudgetUnit : Type := Tokens | UsdMicros.

Definition BudgetUnit_parse (s : bytes) : result BudgetUnit :=
  let s := to_ascii_lowercase (trim s) in
  if beq s (lit "tokens") || beq s (lit "token") || beq s [] then Ok Tokens
  else if beq s (lit "usd") || beq s (lit "usd_micros") || beq s (lit "cost") then Ok UsdMicros
  else Err "invalid llm budget unit".

Inductive BudgetScope : Type := Global | PerKey | PerModel | PerTeam | PerClaim.

Definition BudgetScope_parse (s : bytes) : result BudgetScope :=
  let s := to_ascii_lowercase (trim s) in
  if beq s (lit "global") || beq s [] then Ok Global
  else if beq s (lit "key") || beq s (lit "per_key") || beq s (lit "per-key") then Ok PerKey
  else if beq s (lit "model") || beq s (lit "per_model") || beq s (lit "per-model") then Ok PerModel
  else if beq s (lit "team") || beq s (lit "per_team") || beq s (lit "per-team") || beq s (lit "tag")
  then Ok PerTeam
  else if starts_with s (lit "claim:") then Ok PerClaim
  else Err "invalid llm budget scope".

Definition scope_label (s : BudgetScope) : bytes :=
  match s with
  | Global => lit "global" | PerKey => lit "key" | PerModel => lit "model"
  | PerTeam => lit "team" | PerClaim => lit "claim"
  end.

(** What the code distinguishes of a JSON value; a number is its printed text. *)
Inductive Json : Type :=
| JString (s : bytes) | JNumber (text : bytes) | JBool (b : bool) | JArray (items : list Json) | JOther.

Definition CLAIM_KEY_MAX : nat := 200.

(** [claim_key]: the claims are their lookup by name ([None] for a value that is not an object). *)
Definition claim_key (claims : option (bytes -> option Json)) (name : bytes) : bytes :=
  match match claims with Some c => c name | None => None end with
  | Some (JArray _ | JOther) | None => lit "_none"
  | Some v =>
      let value := match v with
                   | JString s => s
                   | JNumber n => n
                   | JBool b => if b then lit "true" else lit "false"
                   | JArray _ | JOther => []
                   end in
      concat (take CLAIM_KEY_MAX
        (map (fun c => if beq c [58] || is_control c then [95] else c) (chars value)))
  end.

Record Budget : Type := mkBudget {
  b_name : bytes; b_scope : BudgetScope; b_claim : option bytes; b_unit : BudgetUnit;
  b_limit : Z; b_window_secs : Z
}.

Record BudgetCfg : Type := mkBudgetCfg {
  bc_name : bytes; bc_scope : bytes; bc_unit : bytes; bc_limit : f64; bc_window : bytes
}.

Definition budget_build (cfg : BudgetCfg) : result Budget :=
  ensure (negb (beq (trim (bc_name cfg)) [])) else "llm budget name must not be empty";
  let? unit := BudgetUnit_parse (bc_unit cfg) in
  let? scope := BudgetScope_parse (bc_scope cfg) in
  let? claim :=
    match scope with
    | PerClaim =>
        let name := trim (drop 6 (trim (bc_scope cfg))) in
        ensure (negb (beq name [])) else "llm budget scope names no claim"; Ok (Some name)
    | _ => Ok None
    end in
  let? window := parse_duration (bc_window cfg) in
  let window_secs := as_secs window in
  ensure (0 <? window_secs) else "llm budget window must be > 0";
  ensure (is_finite (bc_limit cfg) && f64_ltb f64_zero (bc_limit cfg))
    else "llm budget limit must be > 0";
  let limit := match unit with
               | Tokens => round_as_u64 (bc_limit cfg)
               | UsdMicros => round_as_u64 (f64_mul (bc_limit cfg) (f64_of_Z 1000000))
               end in
  ensure (0 <? limit) else "llm budget limit rounds to zero";
  Ok (mkBudget (bc_name cfg) scope claim unit limit window_secs).

Record Dims : Type := mkDims {
  principal : option bytes; model : bytes; team : option bytes;
  claims : option (bytes -> option Json)
}.

Definition budget_key (b : Budget) (prefix : bytes) (dims : Dims) (now_secs : Z) : bytes :=
  let dim := match b_scope b with
             | Global => lit "_"
             | PerKey => default (lit "_anon") (principal dims)
             | PerModel => model dims
             | PerTeam => default (lit "_none") (team dims)
             | PerClaim => claim_key (claims dims) (default [] (b_claim b))
             end in
  prefix ++ lit ":budget:" ++ b_name b ++ lit ":" ++ dim ++ lit ":" ++ dec (now_secs / b_window_secs b).

Definition amount (b : Budget) (tokens cost_micros : Z) : Z :=
  match b_unit b with Tokens => tokens | UsdMicros => cost_micros end.

Definition ttl_ms (b : Budget) : Z := Z.max (sat_mul 64 (b_window_secs b) 2000) 1.

Definition would_reserve (used amount limit : Z) : bool := sat_add 64 used amount <=? limit.

Record ReserveOutcome : Type := mkOutcome { admitted : bool; used_after : Z }.

(** ** The in-process store *)

Record MemoryStore : Type := mkStore {
  used : gmap bytes (Z * Z);      (** counter and expiry *)
  settled : gmap bytes Z          (** settle marker and its expiry *)
}.

Definition MARKER_TTL_MS : Z := 300000.

(** [map.retain(|_, (_, exp)| *exp > now)]. *)
Definition live (now : Z) (m : gmap bytes (Z * Z)) : gmap bytes (Z * Z) :=
  filter (fun kv => now < kv.2.2) m.

Definition counter (m : gmap bytes (Z * Z)) (key : bytes) : Z :=
  match m !! key with Some (v, _) => v | None => 0 end.

Definition mem_reserve (s : MemoryStore) (now : Z) (key : bytes) (amount limit ttl_ms : Z)
    : ReserveOutcome * MemoryStore :=
  let expires := now + from_millis ttl_ms in
  let map := live now (used s) in
  let u := counter map key in
  if would_reserve u amount limit then
    let used_after := sat_add 64 u amount in
    (mkOutcome true used_after, mkStore (<[key := (used_after, expires)]> map) (settled s))
  else (mkOutcome false u, mkStore map (settled s)).

Definition mem_reconcile (s : MemoryStore) (now : Z) (key : bytes) (delta ttl_ms : Z)
    (marker : bytes) : MemoryStore :=
  let seen := filter (fun kv => now < kv.2) (settled s) in
  match seen !! marker with
  | Some _ => mkStore (used s) seen
  | None =>
      let seen := <[marker := now + from_millis MARKER_TTL_MS]> seen in
      let expires := now + from_millis ttl_ms in
      let map := live now (used s) in
      let u := as_i64 (counter map key) in
      let next := Z.max (as_i64 (u + delta)) 0 in
      mkStore (<[key := (next, expires)]> map) seen
  end.

(** ** The engine *)

(** What a budget store does, at an instant: [Err] is a store failure; [bs_reconcile] answers whether
    the settle reached the store. *)
Class BStore (S : Type) : Type := {
  bs_reserve : S -> Z -> bytes -> Z -> Z -> Z -> result ReserveOutcome * S;
  bs_reconcile : S -> Z -> bytes -> Z -> Z -> bytes -> bool * S
}.

#[global] Instance memory_bstore : BStore MemoryStore := {
  bs_reserve s now key amount limit ttl :=
    let '(o, s') := mem_reserve s now key amount limit ttl in (Ok o, s');
  bs_reconcile s now key delta ttl marker := (true, mem_reconcile s now key delta ttl marker)
}.

Record Spend : Type := mkSpend { tokens : Z; cost_micros : Z }.

Record Observation : Type := mkObservation { o_name : bytes; consumed_ratio : f64 }.

Definition ratio (used limit : Z) : f64 :=
  if limit =? 0 then f64_zero else f64_div (f64_of_Z used) (f64_of_Z limit).

Record Denial : Type := mkDenial {
  d_name : bytes; d_scope : BudgetScope; d_unit : BudgetUnit; d_rollback_failures : nat
}.

(** [(store key, reserved amount, budget index)]. *)
Abbreviation Hold := (bytes * Z * nat)%type.

Record Reservation : Type := mkReservation {
  r_id : bytes; held : list Hold; observations : list Observation; r_rollback_failures : nat
}.

Inductive Reserved : Type :=
| ROk (r : Reservation)
| RDenied (d : Denial)
| RError (rollback_failures : nat).

Record BudgetEngine : Type := mkEngine {
  budgets : list Budget; prefix : bytes; engine_fail_open : bool
}.

(** [BudgetEngine::build], with the store it selects: [Local] and [Memory] are the in-process store,
    [Redis] needs a URL that [redis::Client::open] (a parameter) accepts. *)
Definition engine_build (client_open : bytes -> bool) (cfgs : list BudgetCfg)
    (store redis_url redis_prefix : bytes) (fail_open : bool)
    : result (option (BudgetEngine * StoreMode)) :=
  match cfgs with
  | [] => Ok None
  | _ =>
      let? mode := StoreMode_parse store in
      let? _ := match mode with
                | Limiter.Redis =>
                    ensure (negb (beq (trim redis_url) [])) else "llm.redis_url is required when llm.store = redis";
                    ensure (client_open redis_url) else "opening redis client (llm.redis_url)";
                    Ok tt
                | _ => Ok tt
                end in
      let? bs := collect budget_build cfgs in
      let p := if beq (trim redis_prefix) [] then lit "edgeguard" else redis_prefix in
      Ok (Some (mkEngine bs p fail_open, mode))
  end.

Section Engine.
Context {S : Type} `{BStore S}.
(** The instant of the [n]-th store call and the [n]-th UUID drawn. *)
Variable clk : nat -> Z.
Variable uid : nat -> bytes.

Definition hold_ttl (e : BudgetEngine) (idx : nat) : Z :=
  match budgets e !! idx with Some b => ttl_ms b | None => 1 end.

Fixpoint rollback (e : BudgetEngine) (l : list Hold) (s : S) (n : nat) : nat * S * nat :=
  match l with
  | [] => (0%nat, s, n)
  | (key, amount, idx) :: l =>
      let marker := key ++ lit ":rb:" ++ uid n in
      let '(ok, s') := bs_reconcile s (clk n) key (as_i64 (- as_i64 amount)) (hold_ttl e idx) marker in
      let '(failures, s'', n') := rollback e l s' (Datatypes.S n) in
      ((if ok then failures else Datatypes.S failures), s'', n')
  end.

Fixpoint reserve_go (e : BudgetEngine) (dims : Dims) (estimate : Spend) (now : Z)
    (bs : list Budget) (idx : nat) (hs : list Hold) (obs : list Observation) (s : S) (n : nat)
    : Reserved * S * nat :=
  match bs with
  | [] => (ROk (mkReservation (uid n) hs obs 0), s, Datatypes.S n)
  | b :: bs =>
      let a := amount b (tokens estimate) (cost_micros estimate) in
      if a =? 0 then reserve_go e dims estimate now bs (Datatypes.S idx) hs obs s n
      else
        let key := budget_key b (prefix e) dims now in
        match bs_reserve s (clk n) key a (b_limit b) (ttl_ms b) with
        | (Ok o, s') =>
            if admitted o then
              reserve_go e dims estimate now bs (Datatypes.S idx) (hs ++ [(key, a, idx)])
                (obs ++ [mkObservation (b_name b) (ratio (used_after o) (b_limit b))])
                s' (Datatypes.S n)
            else
              let '(f, s'', n') := rollback e hs s' (Datatypes.S n) in
              (RDenied (mkDenial (b_name b) (b_scope b) (b_unit b) f), s'', n')
        | (Err _, s') =>
            let '(f, s'', n') := rollback e hs s' (Datatypes.S n) in
            if engine_fail_open e then (ROk (mkReservation [] [] [] f), s'', n')
            else (RError f, s'', n')
        end
  end.

Definition reserve (e : BudgetEngine) (dims : Dims) (estimate : Spend) (now : Z) (s : S) (n : nat)
    : Reserved * S * nat :=
  reserve_go e dims estimate now (budgets e) 0 [] [] s n.

Fixpoint reconcile_go (e : BudgetEngine) (id : bytes) (actual : Spend) (l : list Hold) (s : S)
    (n : nat) : nat * S * nat :=
  match l with
  | [] => (0%nat, s, n)
  | (key, reserved, idx) :: l =>
      let actual_amount := match budgets e !! idx with
                           | Some b => amount b (tokens actual) (cost_micros actual)
                           | None => 0
                           end in
      let delta := as_i64 (as_i64 actual_amount - as_i64 reserved) in
      if delta =? 0 then reconcile_go e id actual l s n
      else
        let marker := key ++ lit ":s:" ++ id in
        let '(ok, s') := bs_reconcile s (clk n) key delta (hold_ttl e idx) marker in
        let '(failures, s'', n') := reconcile_go e id actual l s' (Datatypes.S n) in
        ((if ok then failures else Datatypes.S failures), s'', n')
  end.

Definition reconcile (e : BudgetEngine) (r : Reservation) (actual : Spend) (s : S) (n : nat)
    : nat * S * nat := reconcile_go e (r_id r) actual (held r) s n.

Definition release (e : BudgetEngine) (r : Reservation) (s : S) (n : nat) : nat * S * nat :=
  reconcile e r (mkSpend 0 0) s n.
End Engine.

(** ** The store's counters *)

(** The counter of [key] as the store reads it at [now]. *)
Definition value (s : MemoryStore) (now : Z) (key : bytes) : Z := counter (live now (used s)) key.

Lemma lookup_live (m : gmap bytes (Z * Z)) (now : Z) (key : bytes) :
  live now m !! key = match m !! key with
                      | Some (v, e) => if now <? e then Some (v, e) else None
                      | None => None
                      end.
Proof.
  unfold live. rewrite map_lookup_filter. destruct (m !! key) as [[v e]|]; simpl; [|done].
  destruct (Z.ltb_spec now e).
  - by rewrite option_guard_True.
  - by rewrite option_guard_False by (simpl; lia).
Qed.

(** A retained map reads the same from its time on. *)
Lemma counter_live_live (m : gmap bytes (Z * Z)) (now t : Z) (key : bytes) :
  now <= t -> counter (live t (live now m)) key = counter (live t m) key.
Proof.
  intros Ht. unfold counter. rewrite !lookup_live.
  destruct (m !! key) as [[v e]|]; [|done]. zcase; simpl; zcase; try done; lia.
Qed.

Lemma value_insert (m : gmap bytes (Z * Z)) st (now t : Z) (key k : bytes) (v e : Z) :
  now <= t -> t < e ->
  value (mkStore (<[key := (v, e)]> (live now m)) st) t k
  = if decide (k = key) then v else value (mkStore m st) t k.
Proof.
  intros Ht He. unfold value. simpl. unfold counter at 1. rewrite lookup_live, lookup_insert.
  destruct (decide (key = k)) as [->|Hne].
  - rewrite decide_True by done. destruct (Z.ltb_spec t e); [done | lia].
  - rewrite decide_False by congruence. rewrite <- (counter_live_live m now t k Ht).
    unfold counter. by rewrite (lookup_live (live now m)).
Qed.

(** [would_reserve] and the store together: a reservation is admitted exactly when it fits under
    the limit, the counter then holds the sum, and no other counter changes; a denial changes no
    counter. *)
Theorem mem_reserve_correct (s : MemoryStore) (now : Z) (key : bytes) (a limit ttl : Z) :
  in_u 64 limit -> 0 <= value s now key -> 0 <= a -> 0 < ttl -> limit < 2 ^ 64 - 1 ->
  let '(o, s') := mem_reserve s now key a limit ttl in
  (admitted o = true <-> value s now key + a <= limit)
  /\ forall t k, now <= t < now + from_millis ttl ->
     value s' t k = if admitted o && bool_decide (k = key) then value s now key + a
                    else value s t k.
Proof.
  intros Hl Hv Ha Httl Hmax. unfold mem_reserve, would_reserve. fold (value s now key).
  assert (Hsat : sat_add 64 (value s now key) a <= limit <-> value s now key + a <= limit)
    by (unfold sat_add; lia).
  destruct (Z.leb_spec (sat_add 64 (value s now key) a) limit) as [Hle|Hgt]; simpl.
  - split; [split; [intros _; by apply Hsat | done]|]. intros t k Ht.
    rewrite value_insert by lia. unfold sat_add.
    destruct (decide (k = key)); [rewrite bool_decide_eq_true_2 by done | rewrite bool_decide_eq_false_2 by done].
    + apply Hsat in Hle. lia.
    + done.
  - split; [split; [done | intros; lia]|]. intros t k Ht. unfold value. simpl.
    apply counter_live_live. lia.
Qed.

Lemma mem_reserve_correct_witness :
  let s := mkStore ∅ ∅ in
  let '(o, s') := mem_reserve s 0 (lit "k") 60 100 1000 in
  (admitted o = true <-> value s 0 (lit "k") + 60 <= 100)
  /\ forall t k, 0 <= t < 0 + from_millis 1000 ->
     value s' t k = if admitted o && bool_decide (k = lit "k") then value s 0 (lit "k") + 60
                    else value s t k.
Proof.
  apply (mem_reserve_correct (mkStore ∅ ∅) 0 (lit "k") 60 100 1000);
    vm_compute; repeat split; congruence.
Defined.

(** ** A quiet stretch of time

    Within [[t0, t1]] no counter expires: what was live at [t0] stays live past [t1], and every
    refreshed expiry falls after [t1].  The engine's windows are minutes to days and its calls
    milliseconds apart, and every expiry is at least two windows away. *)

Section Quiet.
Variables t0 t1 : Z.
Hypothesis Ht01 : t0 <= t1.

Definition Quiet (s : MemoryStore) : Prop :=
  forall k v e, used s !! k = Some (v, e) -> e <= t0 \/ t1 < e.

Definition in_stretch (now ttl : Z) : Prop := t0 <= now <= t1 /\ t1 < now + from_millis ttl.

(** The counter of [key] during the stretch. *)
Definition val (s : MemoryStore) (key : bytes) : Z := value s t0 key.

Lemma quiet_value s t k : Quiet s -> t0 <= t <= t1 -> value s t k = val s k.
Proof using Ht01.
  intros Hq Ht. unfold val, value, counter. rewrite !lookup_live.
  destruct (used s !! k) as [[v e]|] eqn:Hk; [|done].
  destruct (Hq k v e Hk); zcase; done || lia.
Qed.

Lemma quiet_live s t m : Quiet s -> Quiet (mkStore (live t (used s)) m).
Proof using.
  intros Hq k v e. simpl. rewrite lookup_live. destruct (used s !! k) as [[v' e']|] eqn:Hk; [|done].
  case_match; [|done]. intros [= <- <-]. by apply (Hq k v').
Qed.

Lemma quiet_insert s t m key v e :
  Quiet s -> t1 < e -> Quiet (mkStore (<[key := (v, e)]> (live t (used s))) m).
Proof using.
  intros Hq He k v' e'. simpl. destruct (decide (key = k)) as [->|Hne].
  - rewrite lookup_insert_eq. intros [= <- <-]. by right.
  - rewrite lookup_insert_ne by done. apply (quiet_live s t m Hq).
Qed.

Lemma val_insert s t m key v e k :
  Quiet s -> t0 <= t <= t1 -> t1 < e ->
  val (mkStore (<[key := (v, e)]> (live t (used s))) m) k = if decide (k = key) then v else val s k.
Proof using Ht01.
  intros Hq Ht He. rewrite <- (quiet_value _ t k (quiet_insert s t m key v e Hq He) Ht).
  rewrite value_insert by lia. destruct (decide (k = key)); [done|].
  rewrite <- (quiet_value s t k Hq Ht). done.
Qed.

Lemma reserve_val s now key a limit ttl :
  Quiet s -> in_stretch now ttl -> 0 <= val s key -> 0 <= a -> 0 <= limit < 2 ^ 63 ->
  let '(o, s') := mem_reserve s now key a limit ttl in
  Quiet s' /\ settled s' = settled s
  /\ admitted o = (val s key + a <=? limit)
  /\ forall k, val s' k = if admitted o && bool_decide (k = key) then val s key + a else val s k.
Proof using Ht01.
  intros Hq [Hnow Hexp] Hv Ha Hl. unfold mem_reserve, would_reserve. fold (value s now key).
  rewrite (quiet_value s now key Hq Hnow).
  assert (Hsat : (sat_add 64 (val s key) a <=? limit) = (val s key + a <=? limit))
    by (unfold sat_add; zcase; done || lia).
  rewrite Hsat. destruct (Z.leb_spec (val s key + a) limit) as [Hle|Hgt]; simpl.
  - split; [by apply quiet_insert|]. split; [done|]. split; [done|]. intros k.
    rewrite val_insert by done. unfold sat_add.
    destruct (decide (k = key)); [rewrite bool_decide_eq_true_2 by done; lia|].
    by rewrite bool_decide_eq_false_2 by done.
  - split; [by apply quiet_live|]. split; [done|]. split; [done|]. intros k.
    rewrite <- (quiet_value _ now k (quiet_live s now _ Hq) Hnow), <- (quiet_value s now k Hq Hnow).
    unfold value. simpl. apply counter_live_live. lia.
Qed.

(** A settle under a fresh marker applies its delta once, floored at zero. *)
Lemma reconcile_val s now key delta ttl marker :
  Quiet s -> in_stretch now ttl -> settled s !! marker = None ->
  0 <= val s key < 2 ^ 63 -> - 2 ^ 63 <= val s key + delta < 2 ^ 63 ->
  let s' := mem_reconcile s now key delta ttl marker in
  Quiet s'
  /\ (forall k, val s' k = if decide (k = key) then Z.max (val s key + delta) 0 else val s k)
  /\ (forall m, m <> marker -> settled s !! m = None -> settled s' !! m = None)
  /\ (forall m e, m <> marker -> settled s !! m = Some e -> now < e -> settled s' !! m = Some e)
  /\ settled s' !! marker = Some (now + from_millis MARKER_TTL_MS).
Proof using Ht01.
  intros Hq [Hnow Hexp] Hm Hv Hd. unfold mem_reconcile.
  rewrite map_lookup_filter_None_2 by by left.
  fold (value s now key). rewrite (quiet_value s now key Hq Hnow).
  rewrite (as_i64_small (val s key)) by lia.
  rewrite as_i64_signed by lia. split; [by apply quiet_insert|]. split.
  - intros k. by apply val_insert.
  - split; [|split; [|apply lookup_insert_eq]]; intros m; simpl.
    + intros Hne Hnone. rewrite lookup_insert_ne by done. apply map_lookup_filter_None_2. by left.
    + intros e Hne Hs He. rewrite lookup_insert_ne by done. by apply map_lookup_filter_Some_2.
Qed.

(** A settle whose marker is still there changes no counter. *)
Lemma reconcile_repeat s now key delta ttl marker e :
  Quiet s -> t0 <= now <= t1 -> settled s !! marker = Some e -> now < e ->
  let s' := mem_reconcile s now key delta ttl marker in
  Quiet s' /\ used s' = used s
  /\ (forall m e', settled s !! m = Some e' -> now < e' -> settled s' !! m = Some e').
Proof using Ht01.
  intros Hq Hnow Hm He. unfold mem_reconcile.
  assert (Hf : filter (fun kv : bytes * Z => now < kv.2) (settled s) !! marker = Some e)
    by (apply map_lookup_filter_Some_2; done).
  rewrite Hf. simpl. repeat split; try done.
  intros m e' Hs He'. by apply map_lookup_filter_Some_2.
Qed.
End Quiet.

(** ** What the engine promises

    The abstract ledger: a balance per key, and a list of charges taken all together or not at all. *)

Definition ledger : Type := bytes -> Z.

Definition credit (c : ledger) (key : bytes) (a : Z) : ledger :=
  fun k => if decide (k = key) then c key + a else c k.

Fixpoint ledger_charge (c : ledger) (l : list (Hold * Z)) : option ledger :=
  match l with
  | [] => Some c
  | ((key, a, _), limit) :: l =>
      if c key + a <=? limit then ledger_charge (credit c key a) l else None
  end.

(** The charges of a request: one per budget whose unit it spends, under the budget's limit. *)
Fixpoint charges (p : bytes) (dims : Dims) (estimate : Spend) (now : Z) (bs : list Budget) (idx : nat)
    : list (Hold * Z) :=
  match bs with
  | [] => []
  | b :: bs =>
      let a := amount b (tokens estimate) (cost_micros estimate) in
      let rest := charges p dims estimate now bs (S idx) in
      if a =? 0 then rest else ((budget_key b p dims now, a, idx), b_limit b) :: rest
  end.

(** What the holds [l] put on the counter [k]. *)
Definition on_key (f : Hold -> Z) (l : list Hold) (k : bytes) : Z :=
  foldr (fun h acc => (if decide (k = h.1.1) then f h else 0) + acc) 0 l.

Definition hold_amount (h : Hold) : Z := h.1.2.

Lemma on_key_cons f key a idx l k :
  on_key f ((key, a, idx) :: l) k = (if decide (k = key) then f (key, a, idx) else 0) + on_key f l k.
Proof. done. Qed.

Lemma on_key_app f l1 l2 k : on_key f (l1 ++ l2) k = on_key f l1 k + on_key f l2 k.
Proof. induction l1 as [|h l1 IH]; simpl; [done|]. rewrite IH. lia. Qed.

Lemma on_key_nonneg f l k : Forall (fun h => 0 <= f h) l -> 0 <= on_key f l k.
Proof. induction 1; simpl; [done|]. case_match; lia. Qed.

Lemma on_key_le f l k :
  Forall (fun h => 0 <= f h) l -> on_key f l k <= foldr (fun h acc => f h + acc) 0 l.
Proof. unfold on_key. induction 1; simpl; [done|]. case_match; lia. Qed.

Lemma on_key_absent f l k : k ∉ map (fun h : Hold => h.1.1) l -> on_key f l k = 0.
Proof.
  induction l as [|h l IH]; simpl; [done|]. intros [Hne Hn]%not_elem_of_cons.
  rewrite decide_False by done. by rewrite IH.
Qed.

Section EngineLaws.
Variables t0 t1 : Z.
Hypothesis Ht01 : t0 <= t1.
Variable clk : nat -> Z.
Variable uid : nat -> bytes.
Hypothesis Hclk : forall n, t0 <= clk n <= t1.
(** UUIDs are 36 characters, and never drawn twice. *)
Hypothesis Huid_len : forall n, length (uid n) = 36%nat.
Hypothesis Huid_inj : forall n m, uid n = uid m -> n = m.

Abbreviation qval := (val t0).

Definition fresh_rb (s : MemoryStore) (n : nat) : Prop :=
  forall key m, (n <= m)%nat -> settled s !! (key ++ lit ":rb:" ++ uid m) = None.

Definition long_ttl (e : BudgetEngine) : Prop :=
  Forall (fun b => t1 < t0 + from_millis (ttl_ms b)) (budgets e).

Definition hold_ok (e : BudgetEngine) (h : Hold) : Prop :=
  0 < hold_amount h < 2 ^ 63 /\ (h.2 < length (budgets e))%nat.

Lemma on_key_held e l k : Forall (hold_ok e) l -> 0 <= on_key hold_amount l k.
Proof using. intros H. apply on_key_nonneg. eapply Forall_impl; [exact H|]. intros h [? _]. lia. Qed.

Lemma rb_marker_inj key n key' m :
  key ++ lit ":rb:" ++ uid n = key' ++ lit ":rb:" ++ uid m -> n = m.
Proof using Huid_len Huid_inj.
  rewrite !app_assoc. intros [_ H]%app_inj_2; [by apply Huid_inj|]. by rewrite !Huid_len.
Qed.

Lemma hold_ttl_long e h : long_ttl e -> hold_ok e h -> forall n, in_stretch t0 t1 (clk n) (hold_ttl e h.2).
Proof using Hclk.
  intros Hl [_ Hh] n. split; [done|]. unfold hold_ttl.
  destruct (lookup_lt_is_Some_2 _ _ Hh) as [b Hb]. rewrite Hb.
  pose proof (proj1 (Forall_lookup _ _) Hl _ _ Hb) as Hlb. simpl in Hlb.
  specialize (Hclk n). lia.
Qed.

Lemma fresh_rb_S s n : fresh_rb s n -> fresh_rb s (S n).
Proof using. intros H k m Hm. apply H. lia. Qed.

(** Rolling back takes exactly what was held off every counter. *)
Lemma rollback_val e l s n :
  long_ttl e -> Forall (hold_ok e) l -> Quiet t0 t1 s -> fresh_rb s n ->
  (forall k, on_key hold_amount l k <= qval s k < 2 ^ 63) ->
  let '(f, s', n') := rollback clk uid e l s n in
  f = 0%nat /\ Quiet t0 t1 s' /\ forall k, qval s' k = qval s k - on_key hold_amount l k.
Proof using Huid_len Huid_inj Ht01 Hclk.
  intros Hl. revert s n. induction l as [|[[key a] idx] l IH]; intros s n Hok Hq Hf Hv; simpl.
  - split; [done|]. split; [done|]. intros. lia.
  - apply Forall_cons in Hok as [Hh Hok].
    assert (Hpos : forall k, 0 <= on_key hold_amount l k).
    { intros k. by apply (on_key_held e). }
    assert (Ha : 0 < a < 2 ^ 63) by exact (proj1 Hh).
    pose proof (Hpos key). pose proof (Hv key) as Hvk.
    rewrite on_key_cons, decide_True in Hvk by done. change (hold_amount _) with a in Hvk.
    rewrite (as_i64_small a), (as_i64_signed (- a)) by lia.
    pose proof (reconcile_val t0 t1 Ht01 s (clk n) key (- a) (hold_ttl e idx) (key ++ lit ":rb:" ++ uid n)
      Hq (hold_ttl_long e (key, a, idx) Hl Hh n) (Hf key n (Nat.le_refl n)) ltac:(lia) ltac:(lia)) as Hr.
    cbn zeta in Hr. destruct Hr as (Hq' & Hval & Hset & _).
    set (s1 := mem_reconcile s _ _ _ _ _) in *.
    assert (Hf1 : fresh_rb s1 (S n)).
    { intros k m Hm. apply Hset; [|apply Hf; lia]. intros Heq%rb_marker_inj. lia. }
    specialize (IH s1 (S n) Hok Hq' Hf1). destruct (rollback clk uid e l s1 (S n)) as [[f s'] n'].
    destruct IH as (-> & Hq2 & Hval2).
    { intros k. rewrite Hval. pose proof (Hv k) as Hk. rewrite on_key_cons in Hk.
      change (hold_amount (key, a, idx)) with a in Hk. pose proof (Hpos k).
      destruct (decide (k = key)) as [->|]; lia. }
    split; [done|]. split; [done|]. intros k. rewrite Hval2, Hval.
    change (hold_amount (key, a, idx)) with a.
    destruct (decide (k = key)) as [->|]; lia.
Qed.

Definition limits_ok (e : BudgetEngine) : Prop := Forall (fun b => 0 < b_limit b < 2 ^ 63) (budgets e).

Lemma charge_positive b est : in_u 64 (tokens est) -> in_u 64 (cost_micros est) ->
  0 <= amount b (tokens est) (cost_micros est).
Proof using. unfold in_u, amount. destruct (b_unit b); lia. Qed.

(** The loop of [reserve], with [hs] already held over the opening balances [c0]. *)
Lemma reserve_go_refines e dims est now c0 bs pre hs obs s n c :
  long_ttl e -> limits_ok e -> in_u 64 (tokens est) -> in_u 64 (cost_micros est) ->
  budgets e = pre ++ bs ->
  Forall (hold_ok e) hs -> Quiet t0 t1 s -> fresh_rb s n ->
  (forall k, 0 <= c0 k) ->
  (forall k, qval s k = c0 k + on_key hold_amount hs k /\ qval s k < 2 ^ 63) ->
  (forall k, qval s k = c k) ->
  let '(r, s', _) := reserve_go clk uid e dims est now bs (length pre) hs obs s n in
  Quiet t0 t1 s' /\
  match r, ledger_charge c (charges (prefix e) dims est now bs (length pre)) with
  | ROk res, Some c' => (forall k, qval s' k = c' k /\ qval s' k < 2 ^ 63)
      /\ held res = hs ++ map fst (charges (prefix e) dims est now bs (length pre))
      /\ Forall (hold_ok e) (held res) /\ settled s' = settled s
      /\ (forall k, qval s' k = c0 k + on_key hold_amount (held res) k)
  | RDenied d, None => (forall k, qval s' k = c0 k) /\ d_rollback_failures d = 0%nat
  | _, _ => False
  end.
Proof using Huid_len Huid_inj Ht01 Hclk.
  intros Hl Hlim Htk Hcm. revert pre hs obs s n c.
  induction bs as [|b bs IH]; intros pre hs obs s n c Hbs Hok Hq Hf Hc0 Hv Hc; cbn [reserve_go charges].
  - split; [done|]. cbn [ledger_charge held map]. rewrite app_nil_r.
    repeat split; (apply Hc || apply Hv || done).
  - pose proof (charge_positive b est Htk Hcm) as Ha.
    set (a := amount b _ _) in *.
    assert (Hbs' : budgets e = (pre ++ [b]) ++ bs) by by rewrite <- app_assoc.
    assert (Hlen : S (length pre) = length (pre ++ [b])) by (rewrite length_app; simpl; lia).
    destruct (Z.eqb_spec a 0) as [H0|H0].
    { rewrite Hlen. by apply IH. }
    set (key := budget_key b (prefix e) dims now).
    assert (Hb : b ∈ budgets e) by (rewrite Hbs; apply elem_of_app; right; left).
    assert (Hlb : 0 < b_limit b < 2 ^ 63) by (unfold limits_ok in Hlim; rewrite Forall_forall in Hlim; auto).
    assert (Hst : in_stretch t0 t1 (clk n) (ttl_ms b)).
    { split; [done|]. unfold long_ttl in Hl. rewrite Forall_forall in Hl. specialize (Hl b Hb).
      simpl in Hl. specialize (Hclk n). lia. }
    assert (Hsum : forall k, 0 <= on_key hold_amount hs k).
    { intros k. by apply (on_key_held e). }
    assert (Hvk : 0 <= qval s key) by (pose proof (Hv key); pose proof (Hc0 key); pose proof (Hsum key); lia).
    pose proof (reserve_val t0 t1 Ht01 s (clk n) key a (b_limit b) (ttl_ms b) Hq Hst Hvk Ha ltac:(lia)) as Hr.
    cbn [bs_reserve memory_bstore]. destruct (mem_reserve s (clk n) key a (b_limit b) (ttl_ms b)) as [o s'].
    destruct Hr as (Hq' & Hset & Hadm & Hval). cbn [ledger_charge]. rewrite <- (Hc key), <- Hadm.
    assert (Hf' : fresh_rb s' (S n)) by (intros k m Hm; rewrite Hset; apply Hf; lia).
    destruct (admitted o) eqn:Eadm.
    + symmetry in Hadm. apply Z.leb_le in Hadm.
      assert (Hok' : Forall (hold_ok e) (hs ++ [(key, a, length pre)])).
      { apply Forall_app. split; [done|]. constructor; [|done]. split; [cbn; lia|].
        rewrite Hbs, length_app. simpl. lia. }
      assert (Hval' : forall k, qval s' k = if decide (k = key) then qval s key + a else qval s k).
      { intros k. rewrite Hval. simpl. destruct (decide (k = key)).
        - by rewrite bool_decide_eq_true_2. - by rewrite bool_decide_eq_false_2. }
      assert (Hv' : forall k, qval s' k = c0 k + on_key hold_amount (hs ++ [(key, a, length pre)]) k
                              /\ qval s' k < 2 ^ 63).
      { intros k. rewrite Hval', on_key_app, on_key_cons. change (hold_amount _) with a.
        change (on_key hold_amount [] k) with 0. pose proof (Hv k).
        destruct (decide (k = key)) as [->|]; lia. }
      assert (Hc' : forall k, qval s' k = credit c key a k).
      { intros k. rewrite Hval'. unfold credit. destruct (decide (k = key)) as [->|]; by rewrite Hc. }
      pose proof (IH (pre ++ [b]) (hs ++ [(key, a, length pre)])
        (obs ++ [mkObservation (b_name b) (ratio (used_after o) (b_limit b))]) s' (S n) (credit c key a)
        Hbs' Hok' Hq' Hf' Hc0 Hv' Hc') as HIH.
      rewrite <- Hlen in HIH. destruct (reserve_go _ _ _ _ _ _ _ _ _ _ _) as [[r s2] n2].
      destruct HIH as [Hq2 HIH]. split; [done|]. cbn [map fst].
      destruct r as [res|d|]; [| |done]; destruct (ledger_charge (credit c key a) _); try done.
      rewrite <- app_assoc in HIH. by rewrite Hset in HIH.
    + assert (Hval' : forall k, qval s' k = qval s k) by (intros k; by rewrite Hval).
      pose proof (rollback_val e hs s' (S n) Hl Hok Hq' Hf') as Hrb.
      destruct (rollback clk uid e hs s' (S n)) as [[f s2] n2].
      destruct Hrb as (-> & Hq2 & Hv2).
      { intros k. rewrite Hval'. pose proof (Hv k). pose proof (Hc0 k). lia. }
      split; [done|]. split; [|done]. intros k. rewrite Hv2, Hval'. pose proof (Hv k). lia.
Qed.
(** The engine's [reserve] is the ledger's all-or-nothing charge: it succeeds exactly when every charge
    fits in turn, and a denial leaves every balance where it was. *)
Definition reserve_spec (e : BudgetEngine) (dims : Dims) (est : Spend) (now : Z) (s : MemoryStore)
    (r : Reserved) (s' : MemoryStore) : Prop :=
  match r, ledger_charge (qval s) (charges (prefix e) dims est now (budgets e) 0) with
  | ROk res, Some c => (forall k, qval s' k = c k)
      /\ held res = map fst (charges (prefix e) dims est now (budgets e) 0)
  | RDenied d, None => (forall k, qval s' k = qval s k) /\ d_rollback_failures d = 0%nat
  | _, _ => False
  end.

Definition settle_marker (id : bytes) (h : Hold) : bytes := h.1.1 ++ lit ":s:" ++ id.

(** What [h]'s budget is really charged, and what the settle of [h] adds to its counter. *)
Definition actual_amount (e : BudgetEngine) (actual : Spend) (h : Hold) : Z :=
  match budgets e !! h.2 with
  | Some b => amount b (tokens actual) (cost_micros actual)
  | None => 0
  end.

Definition settle_delta (e : BudgetEngine) (actual : Spend) (h : Hold) : Z :=
  actual_amount e actual h - hold_amount h.

Definition actual_ok (actual : Spend) : Prop :=
  0 <= tokens actual < 2 ^ 62 /\ 0 <= cost_micros actual < 2 ^ 62.

Lemma actual_amount_range e actual h : actual_ok actual -> 0 <= actual_amount e actual h < 2 ^ 62.
Proof using.
  intros [H1 H2]. unfold actual_amount, amount. case_match; [|lia]. case_match; lia.
Qed.

(** The delta the code computes in [i64]. *)
Lemma settle_delta_i64 e actual h :
  actual_ok actual -> hold_ok e h ->
  as_i64 (as_i64 (actual_amount e actual h) - as_i64 (hold_amount h)) = settle_delta e actual h.
Proof using.
  intros Ha [Hh _]. pose proof (actual_amount_range e actual h Ha). unfold settle_delta.
  rewrite (as_i64_small (hold_amount h)), (as_i64_small (actual_amount e actual h)), as_i64_signed by lia.
  done.
Qed.

(** The markers of a settle: none is there yet, or every one that its deltas need is there. *)
Definition settle_fresh (id : bytes) (l : list Hold) (s : MemoryStore) : Prop :=
  Forall (fun h => settled s !! settle_marker id h = None) l.

Definition settle_done (e : BudgetEngine) (actual : Spend) (id : bytes) (l : list Hold) (s : MemoryStore)
    : Prop :=
  Forall (fun h => settle_delta e actual h <> 0 ->
                   exists t, t1 < t /\ settled s !! settle_marker id h = Some t) l.

Lemma settle_marker_inj id h h' : settle_marker id h = settle_marker id h' -> h.1.1 = h'.1.1.
Proof using. unfold settle_marker. apply (inj (.++ (lit ":s:" ++ id))). Qed.

Lemma reconcile_go_cons (e : BudgetEngine) (id : bytes) (actual : Spend) (h : Hold) (l : list Hold)
    (s : MemoryStore) n :
  actual_ok actual -> hold_ok e h ->
  reconcile_go clk e id actual (h :: l) s n
  = if settle_delta e actual h =? 0 then reconcile_go clk e id actual l s n
  else reconcile_go clk e id actual l
         (mem_reconcile s (clk n) h.1.1 (settle_delta e actual h) (hold_ttl e h.2) (settle_marker id h)) (S n).
Proof using.
  intros Ha Hh. rewrite <- (settle_delta_i64 e actual h Ha Hh). destruct h as [[key a] idx].
  cbn [reconcile_go]. unfold actual_amount, hold_amount, settle_marker. cbn [fst snd].
  case_match; [done|]. cbn [bs_reconcile memory_bstore]. by destruct (reconcile_go _ _ _ _ _ _ _) as [[? ?] ?].
Qed.

(** What a settle to [actual] starts from: holds on distinct counters, still on them, and no marker
    yet. *)
Record settle_pre (e : BudgetEngine) (id : bytes) (actual : Spend) (l : list Hold) (s : MemoryStore)
    : Prop := {
  sp_ok : Forall (hold_ok e) l;
  sp_nodup : NoDup (map (fun h : Hold => h.1.1) l);
  sp_quiet : Quiet t0 t1 s;
  sp_fresh : settle_fresh id l s;
  sp_held : forall k, on_key hold_amount l k <= qval s k;
  sp_range : forall k, qval s k + on_key (actual_amount e actual) l k < 2 ^ 62
}.

Lemma on_key_uncons f h l k : on_key f (h :: l) k = on_key f [h] k + on_key f l k.
Proof using. unfold on_key. simpl. lia. Qed.

Lemma on_key_one f h k : on_key f [h] k = if decide (k = h.1.1) then f h else 0.
Proof using. unfold on_key. simpl. lia. Qed.

Lemma on_key_actual e actual l k : actual_ok actual -> 0 <= on_key (actual_amount e actual) l k.
Proof using. intros H. apply on_key_nonneg, Forall_forall. intros h _. by apply actual_amount_range. Qed.

Lemma settle_pre_tail e id actual h l s : actual_ok actual -> settle_pre e id actual (h :: l) s ->
  settle_pre e id actual l s /\ hold_ok e h /\ h.1.1 ∉ map (fun h : Hold => h.1.1) l
  /\ settle_marker id h ∉ map (settle_marker id) l /\ hold_amount h <= qval s h.1.1.
Proof using.
  intros Ha [[Hh Hok]%Forall_cons Hnd Hq [Hf Hfr]%Forall_cons Hr Hr'].
  cbn [map] in Hnd. apply NoDup_cons in Hnd as [Hnin Hnd]. pose proof (proj1 Hh).
  pose proof (actual_amount_range e actual h Ha).
  split; [split; try done|split; [done|split; [done|split]]].
  - intros k. specialize (Hr k). rewrite on_key_uncons, on_key_one in Hr. case_match; lia.
  - intros k. specialize (Hr' k). rewrite on_key_uncons, on_key_one in Hr'. case_match; lia.
  - intros (h' & Heq & Hh')%list_elem_of_fmap. apply Hnin. rewrite (settle_marker_inj _ _ _ Heq).
    exact (list_elem_of_fmap_2 (fun h : Hold => h.1.1) l h' Hh').
  - specialize (Hr h.1.1). rewrite on_key_uncons, on_key_one, decide_True in Hr by done.
    pose proof (on_key_held e l h.1.1 Hok). lia.
Qed.

(** One settle of the loop. *)
Lemma settle_step e id actual h l s n :
  long_ttl e -> t1 < t0 + from_millis MARKER_TTL_MS -> actual_ok actual ->
  settle_pre e id actual (h :: l) s ->
  let s' := mem_reconcile s (clk n) h.1.1 (settle_delta e actual h) (hold_ttl e h.2) (settle_marker id h) in
  settle_pre e id actual l s'
  /\ (forall k, qval s' k = qval s k + on_key (settle_delta e actual) [h] k)
  /\ (forall m t, m <> settle_marker id h -> settled s !! m = Some t -> t1 < t -> settled s' !! m = Some t)
  /\ exists t, t1 < t /\ settled s' !! settle_marker id h = Some t.
Proof using Ht01 Hclk.
  intros Hl Hmk Ha Hpre s'.
  destruct (settle_pre_tail _ _ _ _ _ _ Ha Hpre) as (Hpre' & Hh & Hnin & Hnm & Hle).
  destruct Hpre as [_ _ Hq [Hf Hfr]%Forall_cons _ Hr].
  pose proof (actual_amount_range e actual h Ha). pose proof (proj1 Hh). pose proof (Hclk n).
  pose proof (Hr h.1.1) as Hrk. rewrite on_key_uncons, on_key_one, decide_True in Hrk by done.
  pose proof (on_key_actual e actual l h.1.1 Ha).
  destruct (reconcile_val t0 t1 Ht01 s (clk n) h.1.1 (settle_delta e actual h)
    (hold_ttl e h.2) (settle_marker id h) Hq (hold_ttl_long e h Hl Hh n) Hf
    ltac:(lia) ltac:(unfold settle_delta; lia)) as (Hq1 & Hv1 & Hn1 & Hs1 & Hm1).
  assert (Hval : forall k, qval s' k = qval s k + on_key (settle_delta e actual) [h] k).
  { intros k. unfold s'. rewrite Hv1, on_key_one. unfold settle_delta. case_match; subst; lia. }
  split; [split; try apply Hpre'; [done | | | ]|split; [done|split]].
  - unfold settle_fresh. rewrite Forall_forall in Hfr |- *. intros h' Hh'. apply Hn1; [|by apply Hfr].
    intros Heq. apply Hnm. rewrite <- Heq. by apply list_elem_of_fmap_2.
  - intros k. rewrite Hval, on_key_one. pose proof (sp_held _ _ _ _ _ Hpre' k).
    case_match; [subst k; rewrite (on_key_absent _ _ _ Hnin); unfold settle_delta; lia | lia].
  - intros k. rewrite Hval, on_key_one. specialize (Hr k). rewrite on_key_uncons, on_key_one in Hr.
    unfold settle_delta. case_match; lia.
  - intros m t Hne Hm Ht. apply Hs1; [done..|]. lia.
  - eexists. split; [|exact Hm1]. lia.
Qed.

(** Settling a reservation whose counters are distinct moves every counter by its delta, and leaves a
    marker for each that moved. *)
Lemma reconcile_go_val e id actual l s n :
  long_ttl e -> t1 < t0 + from_millis MARKER_TTL_MS -> actual_ok actual ->
  settle_pre e id actual l s ->
  let '(f, s', _) := reconcile_go clk e id actual l s n in
  f = 0%nat /\ Quiet t0 t1 s'
  /\ (forall k, qval s' k = qval s k + on_key (settle_delta e actual) l k)
  /\ (forall m t, m ∉ map (settle_marker id) l -> settled s !! m = Some t -> t1 < t ->
        settled s' !! m = Some t)
  /\ settle_done e actual id l s'.
Proof using Ht01 Hclk.
  intros Hl Hmk Ha. revert s n. induction l as [|h l IH]; intros s n Hpre.
  - cbn [reconcile_go]. split; [done|]. split; [apply Hpre|]. split; [intros k; cbn; lia|].
    split; [done | constructor].
  - destruct (settle_pre_tail _ _ _ _ _ _ Ha Hpre) as (Hpre' & Hh & _ & Hnm & _).
    rewrite reconcile_go_cons by done.
    destruct (Z.eqb_spec (settle_delta e actual h) 0) as [H0|H0]; cbn zeta.
    + specialize (IH s n Hpre'). destruct (reconcile_go _ _ _ _ _ _ _) as [[f s'] n'].
      destruct IH as (-> & Hq' & Hv' & Hm' & Hd'). split; [done|]. split; [done|]. split; [|split].
      * intros k. rewrite Hv', on_key_uncons, on_key_one. case_match; lia.
      * intros m t [_ Hm]%not_elem_of_cons. by apply Hm'.
      * constructor; [intros ?; done | done].
    + destruct (settle_step e id actual h l s n Hl Hmk Ha Hpre) as (Hp1 & Hv1 & Hs1 & Hm1).
      cbn zeta in *. set (s1 := mem_reconcile _ _ _ _ _ _) in *.
      specialize (IH s1 (S n) Hp1). destruct (reconcile_go _ _ _ _ _ _ _) as [[f s'] n'].
      destruct IH as (-> & Hq' & Hv' & Hm' & Hd'). split; [done|]. split; [done|]. split; [|split].
      * intros k. rewrite Hv', Hv1, (on_key_uncons _ h l). lia.
      * intros m t [Hne Hm]%not_elem_of_cons Hs Ht. apply Hm'; [done| |done]. by apply Hs1.
      * constructor; [|done]. intros _. destruct Hm1 as (t & Ht & Hst). exists t. split; [done|].
        by apply Hm'.
Qed.

(** A settle that already happened does nothing. *)
Lemma reconcile_go_done e id actual l s n :
  actual_ok actual -> Forall (hold_ok e) l -> Quiet t0 t1 s -> settle_done e actual id l s ->
  let '(f, s', _) := reconcile_go clk e id actual l s n in f = 0%nat /\ used s' = used s.
Proof using Ht01 Hclk.
  intros Ha. revert s n. induction l as [|h l IH]; intros s n Hok Hq Hd; [done|].
  apply Forall_cons in Hok as [Hh Hok]. apply Forall_cons in Hd as [Hdh Hd].
  rewrite reconcile_go_cons by done.
  destruct (Z.eqb_spec (settle_delta e actual h) 0) as [H0|H0]; cbn zeta; [by apply IH|].
  destruct (Hdh H0) as (t & Ht & Hst). pose proof (Hclk n) as Hn.
  destruct (reconcile_repeat t0 t1 Ht01 s (clk n) h.1.1 (settle_delta e actual h) (hold_ttl e h.2)
    (settle_marker id h) t Hq Hn Hst ltac:(lia)) as (Hq1 & Hu1 & Hs1).
  set (s1 := mem_reconcile _ _ _ _ _ _) in *. specialize (IH s1 (S n) Hok Hq1).
  destruct (reconcile_go _ _ _ _ _ _ _) as [[f s'] n'].
  rewrite <- Hu1. apply IH. eapply Forall_impl; [exact Hd|]. intros h' Hh' Hne.
  destruct (Hh' Hne) as (t' & Ht' & Hst'). exists t'. split; [done|]. apply Hs1; [done | lia].
Qed.
End EngineLaws.

(** ** The engine over the in-process store *)

(** The calm in which an engine works on a store [s], at its [n]-th call: no counter expires, limits
    fit [i64], UUIDs are unique, and no marker of a UUID yet to be drawn is in the store. *)
Record calm (t0 t1 : Z) (clk : nat -> Z) (uid : nat -> bytes) (e : BudgetEngine) (s : MemoryStore)
    (n : nat) : Prop := {
  calm_order : t0 <= t1;
  calm_clk : forall n, t0 <= clk n <= t1;
  calm_uid_len : forall n, length (uid n) = 36%nat;
  calm_uid_inj : forall n m, uid n = uid m -> n = m;
  calm_ttl : long_ttl t0 t1 e;
  calm_limits : limits_ok e;
  calm_quiet : Quiet t0 t1 s;
  calm_rb : fresh_rb uid s n;
  calm_val : forall k, 0 <= val t0 s k < 2 ^ 63
}.

Lemma calm_reserve t0 t1 clk uid e dims est now s n :
  calm t0 t1 clk uid e s n -> in_u 64 (tokens est) -> in_u 64 (cost_micros est) ->
  let '(r, s', _) := reserve clk uid e dims est now s n in
  Quiet t0 t1 s' /\ reserve_spec t0 e dims est now s r s'
  /\ match r with
     | ROk res => Forall (hold_ok e) (held res) /\ settled s' = settled s
                  /\ (forall k, val t0 s' k = val t0 s k + on_key hold_amount (held res) k)
     | _ => True
     end.
Proof.
  intros [H1 H2 H3 H4 H5 H6 H7 H8 H9] Ht Hc. unfold reserve, reserve_spec.
  pose proof (reserve_go_refines t0 t1 H1 clk uid H2 H3 H4 e dims est now (val t0 s) (budgets e) [] [] [] s n
    (val t0 s) H5 H6 Ht Hc eq_refl (List.Forall_nil _) H7 H8 (fun k => proj1 (H9 k))) as H.
  cbn [length app] in H. destruct (reserve_go _ _ _ _ _ _ _ _ _ _ _ _) as [[r s'] n'].
  destruct H as [Hq H]; [intros k; specialize (H9 k); cbn; lia | done |]. split; [done|].
  destruct r; [| |done]; destruct (ledger_charge _ _); try done; destruct H as (Ha & Hb).
  - split; [split; [intros k; apply Ha | apply Hb]|]. split; [apply Hb | split; [apply Hb | apply Hb]].
Qed.

(** C5.  [BudgetEngine::reserve] refines the abstract ledger: the reservation succeeds exactly when
    every charge, taken in order, fits under its budget's limit; the counters then carry exactly those
    charges and the reservation remembers each of them; otherwise the request is denied and every
    counter is back where it was, so no partial hold leaks. *)
Theorem budget_reserve_refines t0 t1 clk uid e dims est now s n :
  calm t0 t1 clk uid e s n -> in_u 64 (tokens est) -> in_u 64 (cost_micros est) ->
  let '(r, s', _) := reserve clk uid e dims est now s n in
  match r, ledger_charge (val t0 s) (charges (prefix e) dims est now (budgets e) 0) with
  | ROk res, Some c => (forall k, val t0 s' k = c k)
      /\ held res = map fst (charges (prefix e) dims est now (budgets e) 0)
  | RDenied d, None => (forall k, val t0 s' k = val t0 s k) /\ d_rollback_failures d = 0%nat
  | _, _ => False
  end.
Proof.
  intros Hc Ht Hm. pose proof (calm_reserve t0 t1 clk uid e dims est now s n Hc Ht Hm) as H.
  destruct (reserve _ _ _ _ _ _ _ _) as [[r s'] n']. apply H.
Qed.

Lemma on_key_delta e actual l k :
  on_key (settle_delta e actual) l k = on_key (actual_amount e actual) l k - on_key hold_amount l k.
Proof.
  induction l as [|h l IH]; [done|].
  rewrite !(on_key_uncons _ h l), !on_key_one, IH. unfold settle_delta. case_match; lia.
Qed.

(** Reserving and then settling, once and again. *)
Lemma reserve_then_settle t0 t1 clk uid e dims est now s n actual res s1 n1 :
  calm t0 t1 clk uid e s n -> in_u 64 (tokens est) -> in_u 64 (cost_micros est) ->
  t1 < t0 + from_millis MARKER_TTL_MS -> actual_ok actual ->
  reserve clk uid e dims est now s n = (ROk res, s1, n1) ->
  NoDup (map (fun h : Hold => h.1.1) (held res)) -> settle_fresh (r_id res) (held res) s ->
  (forall k, val t0 s1 k + on_key (actual_amount e actual) (held res) k < 2 ^ 62) ->
  let '(f, s2, n2) := reconcile clk e res actual s1 n1 in
  let '(f', s3, _) := reconcile clk e res actual s2 n2 in
  f = 0%nat /\ f' = 0%nat
  /\ (forall k, val t0 s2 k = val t0 s k + on_key (actual_amount e actual) (held res) k)
  /\ used s3 = used s2.
Proof.
  intros Hc Ht Hm Hmk Ha Hres Hnd Hfr Hhi.
  pose proof (calm_reserve t0 t1 clk uid e dims est now s n Hc Ht Hm) as H. rewrite Hres in H.
  destruct H as (Hq & _ & Hok & Hset & Hval). destruct Hc as [H1 H2 _ _ H5 _ _ _ H9]. unfold reconcile.
  assert (Hpre : settle_pre t0 t1 e (r_id res) actual (held res) s1).
  { split; try done; [unfold settle_fresh; by rewrite Hset|].
    intros k. rewrite Hval. specialize (H9 k). lia. }
  pose proof (reconcile_go_val t0 t1 H1 clk H2 e (r_id res) actual (held res) s1 n1 H5 Hmk Ha Hpre) as Hg.
  destruct (reconcile_go clk e (r_id res) actual (held res) s1 n1) as [[f s2] n2].
  destruct Hg as (-> & Hq2 & Hv2 & _ & Hd).
  pose proof (reconcile_go_done t0 t1 H1 clk H2 e (r_id res) actual (held res) s2 n2 Ha Hok Hq2 Hd) as Hg.
  destruct (reconcile_go _ _ _ _ _ s2 n2) as [[f' s3] n3]. destruct Hg as [-> Hu].
  split; [done|]. split; [done|]. split; [|done]. intros k. rewrite Hv2, Hval.
  rewrite on_key_delta. lia.
Qed.

(** A settle cut short after its first [j] holds: those are charged, the others keep their estimate. *)
Lemma reserve_then_cut t0 t1 clk uid e dims est now s n actual res s1 n1 j :
  calm t0 t1 clk uid e s n -> in_u 64 (tokens est) -> in_u 64 (cost_micros est) ->
  t1 < t0 + from_millis MARKER_TTL_MS -> actual_ok actual ->
  reserve clk uid e dims est now s n = (ROk res, s1, n1) ->
  NoDup (map (fun h : Hold => h.1.1) (held res)) -> settle_fresh (r_id res) (held res) s ->
  (forall k, val t0 s1 k + on_key (actual_amount e actual) (held res) k < 2 ^ 62) ->
  let '(f, s2, _) := reconcile_go clk e (r_id res) actual (take j (held res)) s1 n1 in
  f = 0%nat
  /\ forall k, val t0 s2 k = val t0 s k + on_key (actual_amount e actual) (take j (held res)) k
                            + on_key hold_amount (drop j (held res)) k.
Proof.
  intros Hc Ht Hm Hmk Ha Hres Hnd Hfr Hhi.
  pose proof (calm_reserve t0 t1 clk uid e dims est now s n Hc Ht Hm) as H. rewrite Hres in H.
  destruct H as (Hq & _ & Hok & Hset & Hval). destruct Hc as [H1 H2 _ _ H5 _ _ _ H9].
  rewrite <- (take_drop j (held res)) in Hok, Hnd, Hfr. apply Forall_app in Hok as [Hok1 Hok2].
  rewrite map_app in Hnd. apply NoDup_app in Hnd as [Hnd _]. apply Forall_app in Hfr as [Hfr _].
  assert (Hsum : forall f k, on_key f (held res) k = on_key f (take j (held res)) k + on_key f (drop j (held res)) k).
  { intros f k. by rewrite <- on_key_app, take_drop. }
  assert (Hpre : settle_pre t0 t1 e (r_id res) actual (take j (held res)) s1).
  { split; try done; [unfold settle_fresh; by rewrite Hset| |].
    - intros k. rewrite Hval, Hsum. pose proof (on_key_held e _ k Hok2). specialize (H9 k). lia.
    - intros k. specialize (Hhi k). rewrite Hsum in Hhi. pose proof (on_key_actual e actual (drop j (held res)) k Ha). lia. }
  pose proof (reconcile_go_val t0 t1 H1 clk H2 e (r_id res) actual _ s1 n1 H5 Hmk Ha Hpre) as Hg.
  destruct (reconcile_go clk e (r_id res) actual _ s1 n1) as [[f s2] n2]. destruct Hg as (-> & _ & Hv2 & _).
  split; [done|]. intros k. rewrite Hv2, Hval, Hsum, on_key_delta. lia.
Qed.

(** A request that was reserved and then settled to its actual usage has moved every counter by
    exactly that usage (and [release] by nothing), however wrong the estimate was; settling the same
    reservation again changes nothing. *)
Theorem budget_settle_exact t0 t1 clk uid e dims est now s n actual res s1 n1 :
  calm t0 t1 clk uid e s n -> in_u 64 (tokens est) -> in_u 64 (cost_micros est) ->
  t1 < t0 + from_millis MARKER_TTL_MS -> actual_ok actual ->
  reserve clk uid e dims est now s n = (ROk res, s1, n1) ->
  NoDup (map (fun h : Hold => h.1.1) (held res)) -> settle_fresh (r_id res) (held res) s ->
  (forall k, val t0 s1 k + on_key (actual_amount e actual) (held res) k < 2 ^ 62) ->
  let '(f, s2, n2) := reconcile clk e res actual s1 n1 in
  let '(f', s3, _) := reconcile clk e res actual s2 n2 in
  f = 0%nat /\ f' = 0%nat
  /\ (forall k, val t0 s2 k = val t0 s k + on_key (actual_amount e actual) (held res) k)
  /\ used s3 = used s2.
Proof. apply reserve_then_settle. Qed.

(** ** A concrete engine *)

Module Demo.
Definition tokens_day : Budget := mkBudget (lit "t") Global None Tokens 100 3600.
Definition usd_day : Budget := mkBudget (lit "u") Global None UsdMicros 50 3600.
Definition engine : BudgetEngine := mkEngine [tokens_day; usd_day] (lit "eg") false.
Definition dims : Dims := mkDims None (lit "m") None None.
Definition empty : MemoryStore := mkStore ∅ ∅.
Definition clk (n : nat) : Z := 0.
Definition uid (n : nat) : bytes := Z.of_nat n :: repeat 48 35.

Lemma uid_inj n m : uid n = uid m -> n = m.
Proof. unfold uid. intros [= H]. lia. Qed.

Lemma calm_empty : calm 0 0 clk uid engine empty 0.
Proof.
  split; try done.
  - exact uid_inj.
  - unfold long_ttl. repeat constructor; vm_compute; done.
  - unfold limits_ok. repeat constructor; vm_compute; done.
Qed.
End Demo.

(** The first budget admits 60 tokens, the second refuses 60 micro-dollars: the denial rolls back. *)
Lemma budget_reserve_refines_witness :
  let '(r, s', _) := reserve Demo.clk Demo.uid Demo.engine Demo.dims (mkSpend 60 60) 0 Demo.empty 0 in
  match r, ledger_charge (val 0 Demo.empty)
             (charges (prefix Demo.engine) Demo.dims (mkSpend 60 60) 0 (budgets Demo.engine) 0) with
  | ROk res, Some c => (forall k, val 0 s' k = c k)
      /\ held res = map fst (charges (prefix Demo.engine) Demo.dims (mkSpend 60 60) 0 (budgets Demo.engine) 0)
  | RDenied d, None => (forall k, val 0 s' k = val 0 Demo.empty k) /\ d_rollback_failures d = 0%nat
  | _, _ => False
  end.
Proof.
  apply (budget_reserve_refines 0 0 Demo.clk Demo.uid Demo.engine Demo.dims (mkSpend 60 60) 0 Demo.empty 0).
  - exact Demo.calm_empty.
  - vm_compute; split; congruence.
  - vm_compute; split; congruence.
Defined.

Definition demo_reserved := reserve Demo.clk Demo.uid Demo.engine Demo.dims (mkSpend 60 40) 0 Demo.empty 0.
Definition demo_res : Reservation :=
  match demo_reserved with (ROk res, _, _) => res | _ => mkReservation [] [] [] 0 end.

(** 60 tokens and 40 micro-dollars held, 25 and 90 really used. *)
Lemma budget_settle_exact_witness :
  let '(f, s2, n2) := reconcile Demo.clk Demo.engine demo_res (mkSpend 25 90) demo_reserved.1.2 demo_reserved.2 in
  let '(f', s3, _) := reconcile Demo.clk Demo.engine demo_res (mkSpend 25 90) s2 n2 in
  f = 0%nat /\ f' = 0%nat
  /\ (forall k, val 0 s2 k
                = val 0 Demo.empty k + on_key (actual_amount Demo.engine (mkSpend 25 90)) (held demo_res) k)
  /\ used s3 = used s2.
Proof.
  apply (budget_settle_exact 0 0 Demo.clk Demo.uid Demo.engine Demo.dims (mkSpend 60 40) 0 Demo.empty 0
           (mkSpend 25 90) demo_res demo_reserved.1.2 demo_reserved.2).
  - exact Demo.calm_empty.
  - vm_compute; split; congruence.
  - vm_compute; split; congruence.
  - vm_compute; congruence.
  - vm_compute; repeat split; congruence.
  - vm_compute. reflexivity.
  - apply (bool_decide_unpack _). vm_compute. exact I.
  - unfold settle_fresh. apply Forall_forall. intros h _. reflexivity.
  - intros k. pose proof (calm_reserve 0 0 Demo.clk Demo.uid Demo.engine Demo.dims (mkSpend 60 40) 0 Demo.empty 0
      Demo.calm_empty ltac:(vm_compute; split; congruence) ltac:(vm_compute; split; congruence)) as H.
    change (reserve Demo.clk Demo.uid Demo.engine Demo.dims (mkSpend 60 40) 0 Demo.empty 0)
      with demo_reserved in H.
    assert (E : demo_reserved = (ROk demo_res, demo_reserved.1.2, demo_reserved.2)) by (vm_compute; reflexivity).
    rewrite E in H. destruct H as (_ & _ & _ & _ & H). rewrite H.
    pose proof (on_key_le hold_amount (held demo_res) k ltac:(vm_compute; repeat constructor; congruence)) as H1.
    pose proof (on_key_le (actual_amount Demo.engine (mkSpend 25 90)) (held demo_res) k
      ltac:(vm_compute; repeat constructor; congruence)) as H2.
    set (x := foldr _ 0 (held demo_res)) in H1. set (y := foldr _ 0 (held demo_res)) in H2.
    vm_compute in x, y. subst x y. change (val 0 Demo.empty k) with 0. lia.
Defined.

(** ** The hard cap

    Requests race for one counter in any order.  A configuration is the store, the holds not yet
    settled ([(id, amount)]), what has been spent for good, and how much of that settles charged above
    what they held (an estimate that was too low). *)

Section HardCap.
Variables t0 t1 limit : Z.
Variable key : bytes.
Hypothesis Ht01 : t0 <= t1.
Hypothesis Hlimit : 0 <= limit < 2 ^ 63.

Record conf : Type := mkConf { c_store : MemoryStore; c_open : list (bytes * Z); c_spent : Z; c_over : Z }.

Definition marker_of (id : bytes) : bytes := key ++ lit ":s:" ++ id.

Inductive cap_step : conf -> conf -> Prop :=
(** A request reserves [a]; if admitted it holds it under a fresh id. *)
| cap_reserve s o sp ov now ttl a id out s' :
    in_stretch t0 t1 now ttl -> 0 <= a ->
    settled s !! marker_of id = None -> id ∉ map fst o ->
    mem_reserve s now key a limit ttl = (out, s') ->
    cap_step (mkConf s o sp ov) (mkConf s' (if admitted out then (id, a) :: o else o) sp ov)
(** A request settles to its actual usage, below its hold or above; the store is not called where it is
    exact.  Counters stay within an [i64]. *)
| cap_settle s o1 o2 sp ov now ttl a id actual :
    in_stretch t0 t1 now ttl -> 0 <= actual -> val t0 s key + (actual - a) < 2 ^ 63 ->
    cap_step (mkConf s (o1 ++ (id, a) :: o2) sp ov)
      (mkConf (if actual =? a then s else mem_reconcile s now key (actual - a) ttl (marker_of id)) (o1 ++ o2) (sp + actual)
         (ov + Z.max 0 (actual - a)))
(** A settle is repeated (its reply was lost). *)
| cap_retry s o sp ov now ttl delta id exp :
    in_stretch t0 t1 now ttl -> settled s !! marker_of id = Some exp -> now < exp ->
    cap_step (mkConf s o sp ov) (mkConf (mem_reconcile s now key delta ttl (marker_of id)) o sp ov)
(** Another key is charged. *)
| cap_other s o sp ov now ttl a lim k out s' :
    in_stretch t0 t1 now ttl -> k <> key -> 0 <= a ->
    mem_reserve s now k a lim ttl = (out, s') ->
    cap_step (mkConf s o sp ov) (mkConf s' o sp ov).

Definition open_total (o : list (bytes * Z)) : Z := foldr (fun h acc => h.2 + acc) 0 o.

(** The counter is what is spent plus what is held; every hold is one that can still be settled. *)
Record cap_inv (c : conf) : Prop := {
  ci_quiet : Quiet t0 t1 (c_store c);
  ci_counter : val t0 (c_store c) key = c_spent c + open_total (c_open c);
  ci_limit : val t0 (c_store c) key <= limit + c_over c;
  ci_width : val t0 (c_store c) key < 2 ^ 63;
  ci_over : 0 <= c_over c;
  ci_spent : 0 <= c_spent c;
  ci_open : Forall (fun h => 0 <= h.2 /\ settled (c_store c) !! marker_of h.1 = None) (c_open c);
  ci_ids : NoDup (map fst (c_open c))
}.

Lemma open_total_cons h o : open_total (h :: o) = h.2 + open_total o.
Proof using. done. Qed.

Lemma open_total_app o1 o2 : open_total (o1 ++ o2) = open_total o1 + open_total o2.
Proof using. induction o1 as [|h o IH]; [done|]. cbn [app]. rewrite !open_total_cons, IH. lia. Qed.

Lemma open_total_nonneg (P : bytes * Z -> Prop) o :
  Forall (fun h => 0 <= h.2 /\ P h) o -> 0 <= open_total o.
Proof using. induction 1 as [|h o [? _] _ IH]; [done|]. rewrite open_total_cons. lia. Qed.

Lemma marker_of_inj id id' : marker_of id = marker_of id' -> id = id'.
Proof using. unfold marker_of. intros H. by apply (inj (app key)), (inj (app (lit ":s:"))) in H. Qed.

(** A reservation on [k] leaves the other counters and every marker alone. *)
Lemma reserve_frame s now k a lim ttl :
  Quiet t0 t1 s -> in_stretch t0 t1 now ttl ->
  let '(_, s') := mem_reserve s now k a lim ttl in
  Quiet t0 t1 s' /\ settled s' = settled s /\ forall k', k' <> k -> val t0 s' k' = val t0 s k'.
Proof using Ht01.
  intros Hq [Hnow Hexp]. unfold mem_reserve. destruct (would_reserve _ _ _); (split; [|split; [done|]]).
  - by apply quiet_insert.
  - intros k' Hne. rewrite (val_insert t0 t1) by done. by rewrite decide_False.
  - by apply quiet_live.
  - intros k' _. rewrite <- (quiet_value t0 t1 Ht01 _ now k' (quiet_live t0 t1 s now _ Hq) Hnow),
      <- (quiet_value t0 t1 Ht01 s now k' Hq Hnow).
    unfold value. simpl. apply counter_live_live. lia.
Qed.

Lemma cap_inv_reserve s o sp ov now ttl a id out s' :
  cap_inv (mkConf s o sp ov) -> in_stretch t0 t1 now ttl -> 0 <= a ->
  settled s !! marker_of id = None -> id ∉ map fst o ->
  mem_reserve s now key a limit ttl = (out, s') ->
  cap_inv (mkConf s' (if admitted out then (id, a) :: o else o) sp ov).
Proof using Ht01 Hlimit.
  intros [Hq Hc Hl Hw Hov Hs Ho Hi] Hst Ha Hm Hid Hr. cbn [c_store c_open c_spent c_over] in *. pose proof (open_total_nonneg _ o Ho).
  pose proof (reserve_val t0 t1 Ht01 s now key a limit ttl Hq Hst ltac:(lia) Ha Hlimit) as Hv.
  rewrite Hr in Hv. destruct Hv as (Hq' & Hset & Hadm & Hv). specialize (Hv key).
  rewrite bool_decide_eq_true_2, andb_true_r in Hv by done.
  destruct (admitted out); split; cbn [c_store c_open c_spent c_over]; try rewrite Hset; try done; try lia; try (symmetry in Hadm; apply Z.leb_le in Hadm; lia).
  - rewrite Hv, open_total_cons. cbn [snd]. lia.
  - by constructor.
  - by constructor.
Qed.

(** Dropping a hold leaves the others settleable. *)
Lemma cap_open_drop s s' o1 o2 id (a : Z) :
  Forall (fun h => 0 <= h.2 /\ settled s !! marker_of h.1 = None) (o1 ++ (id, a) :: o2) -> NoDup (map fst (o1 ++ (id, a) :: o2)) ->
  (forall m, m <> marker_of id -> settled s !! m = None -> settled s' !! m = None) ->
  Forall (fun h => 0 <= h.2 /\ settled s' !! marker_of h.1 = None) (o1 ++ o2) /\ NoDup (map fst (o1 ++ o2)).
Proof using.
  intros Ho Hi Hn. rewrite map_app in Hi. cbn [map fst] in Hi.
  assert (Hi' : id ∉ map fst (o1 ++ o2) /\ NoDup (map fst (o1 ++ o2))).
  { rewrite <- Permutation_middle, NoDup_cons in Hi. by rewrite map_app. }
  destruct Hi' as [Hid Hnd]. split; [|done]. apply Forall_forall. intros h Hh.
  assert (0 <= h.2 /\ settled s !! marker_of h.1 = None) as [H1 H2].
  { apply (proj1 (Forall_forall _ _) Ho). apply elem_of_app in Hh as [Hh|Hh]; apply elem_of_app; [by left | right; by apply list_elem_of_further]. }
  split; [done|]. apply Hn; [|done]. intros Heq%marker_of_inj. apply Hid. rewrite <- Heq. by apply list_elem_of_fmap_2.
Qed.

Lemma cap_inv_settle s o1 o2 sp ov now ttl a id actual :
  cap_inv (mkConf s (o1 ++ (id, a) :: o2) sp ov) -> in_stretch t0 t1 now ttl -> 0 <= actual -> val t0 s key + (actual - a) < 2 ^ 63 ->
  cap_inv (mkConf (if actual =? a then s else mem_reconcile s now key (actual - a) ttl (marker_of id)) (o1 ++ o2) (sp + actual)
             (ov + Z.max 0 (actual - a))).
Proof using Ht01 Hlimit.
  intros [Hq Hc Hl Hw Hov Hs Ho Hi] Hst Ha Hfit. cbn [c_store c_open c_spent c_over] in *. rewrite open_total_app, open_total_cons in Hc. cbn [snd] in Hc.
  pose proof Ho as [Ho1 [[Ha0 Hm] Ho2]%Forall_cons]%Forall_app. cbn [fst snd] in Hm, Ha0.
  pose proof (open_total_nonneg _ o1 Ho1). pose proof (open_total_nonneg _ o2 Ho2).
  destruct (Z.eqb_spec actual a) as [-> | Hne].
  - destruct (cap_open_drop s s o1 o2 id a Ho Hi) as [Ho' Hi']; [done|].
    split; cbn [c_store c_open c_spent c_over]; try done; rewrite ?open_total_app; lia.
  - destruct (reconcile_val t0 t1 Ht01 s now key (actual - a) ttl (marker_of id) Hq Hst Hm ltac:(lia) ltac:(lia)) as (Hq' & Hv & Hn & _). cbn zeta in *.
    specialize (Hv key). rewrite decide_True in Hv by done. destruct (cap_open_drop s _ o1 o2 id a Ho Hi Hn) as [Ho' Hi'].
    split; cbn [c_store c_open c_spent c_over]; try done; rewrite ?Hv, ?open_total_app; lia.
Qed.

Lemma cap_inv_step c c' : cap_inv c -> cap_step c c' -> cap_inv c'.
Proof using Ht01 Hlimit.
  intros Hinv Hstep. destruct Hstep as [s o sp ov now ttl a id out s' Hst Ha Hm Hid Hr
    | s o1 o2 sp ov now ttl a id actual Hst Ha Hfit
    | s o sp ov now ttl delta id exp [Hnow _] Hm He
    | s o sp ov now ttl a lim k out s' Hst Hk Ha Hr].
  - by eapply cap_inv_reserve.
  - by apply cap_inv_settle.
  - destruct Hinv as [Hq Hc Hl Hw Hov Hs Ho Hi]. cbn [c_store c_open c_spent c_over] in *.
    destruct (reconcile_repeat t0 t1 Ht01 s now key delta ttl (marker_of id) exp Hq Hnow Hm He)
      as (Hq' & Hu & _). cbn zeta in *.
    assert (Hv : val t0 (mem_reconcile s now key delta ttl (marker_of id)) key = val t0 s key)
      by (unfold val, value; by rewrite Hu).
    split; cbn [c_store c_open c_spent c_over]; try done; try lia. eapply Forall_impl; [exact Ho|]. intros h [Hh1 Hh2]. split; [done|].
    unfold mem_reconcile. case_match; cbn; [apply map_lookup_filter_None_2; by left|].
    destruct (decide (marker_of id = marker_of h.1)) as [E|E]; [congruence|].
    rewrite lookup_insert_ne by done. apply map_lookup_filter_None_2. by left.
  - destruct Hinv as [Hq Hc Hl Hw Hov Hs Ho Hi]. cbn [c_store c_open c_spent c_over] in *.
    pose proof (reserve_frame s now k a lim ttl Hq Hst) as Hf. rewrite Hr in Hf.
    destruct Hf as (Hq' & Hset & Hv). specialize (Hv key ltac:(done)).
    split; cbn [c_store c_open c_spent c_over]; try rewrite Hset; try done; lia.
Qed.
End HardCap.

(** C1.  The budget under interleaving: whatever the order in which requests reserve, settle (below what
    they held or above it), retry a settle or charge other keys, the counter is at every moment what was
    spent plus what is still held; the next reservation is admitted exactly when it fits under the limit
    on top of that; so the counter passes the limit by no more than settles charged above their holds,
    and not at all while no estimate was too low. *)
Theorem budget_hard_cap t0 t1 limit key s0 c :
  t0 <= t1 -> 0 <= limit < 2 ^ 63 -> Quiet t0 t1 s0 -> val t0 s0 key = 0 ->
  rtc (cap_step t0 t1 limit key) (mkConf s0 [] 0 0) c ->
  val t0 (c_store c) key = c_spent c + open_total (c_open c)
  /\ (forall now ttl a, in_stretch t0 t1 now ttl -> 0 <= a ->
        admitted (mem_reserve (c_store c) now key a limit ttl).1 = (c_spent c + open_total (c_open c) + a <=? limit))
  /\ 0 <= c_spent c <= limit + c_over c /\ c_spent c + open_total (c_open c) <= limit + c_over c.
Proof.
  intros Ht Hl Hq H0 Hsteps.
  assert (Hinv : cap_inv t0 t1 limit key (mkConf s0 [] 0 0)).
  { split; cbn [c_store c_open c_spent c_over]; try done; try lia; constructor. }
  assert (Hc : cap_inv t0 t1 limit key c).
  { remember (mkConf s0 [] 0 0) as c0 eqn:E. clear E. induction Hsteps; [done|].
    apply IHHsteps. by eapply cap_inv_step. }
  destruct Hc as [Hq' Hc Hle _ Hov Hs Ho _]. pose proof (open_total_nonneg _ _ Ho). split_and!; try lia. intros now ttl a Hst Ha.
  pose proof (reserve_val t0 t1 Ht (c_store c) now key a limit ttl Hq' Hst ltac:(lia) Ha Hl) as Hr.
  destruct (mem_reserve (c_store c) now key a limit ttl) as [out s']. destruct Hr as (_ & _ & Hadm & _). cbn [fst]. by rewrite Hadm, Hc.
Qed.

(** Two requests of 60 and 40 fill a limit of 100; the first settles to 75, 15 above what it held. *)
Lemma budget_hard_cap_witness :
  exists c, c_spent c = 75 /\ open_total (c_open c) = 40 /\ c_over c = 15
    /\ val 0 (c_store c) (lit "k") = c_spent c + open_total (c_open c)
    /\ admitted (mem_reserve (c_store c) 0 (lit "k") 1 100 1000).1 = false
    /\ c_spent c + open_total (c_open c) <= 100 + c_over c.
Proof.
  set (k := lit "k").
  set (s1 := (mem_reserve (mkStore ∅ ∅) 0 k 60 100 1000).2).
  set (s2 := (mem_reserve s1 0 k 40 100 1000).2).
  set (s3 := mem_reconcile s2 0 k (75 - 60) 1000 (marker_of k (lit "a"))).
  assert (Hrun : rtc (cap_step 0 0 100 k) (mkConf (mkStore ∅ ∅) [] 0 0) (mkConf s3 [(lit "b", 40)] 75 15)).
  { apply (rtc_l _ _ (mkConf s1 [(lit "a", 60)] 0 0)).
    { apply (cap_reserve 0 0 100 k (mkStore ∅ ∅) [] 0 0 0 1000 60 (lit "a") (mkOutcome true 60) s1); try done.
      apply not_elem_of_nil. }
    apply (rtc_l _ _ (mkConf s2 [(lit "b", 40); (lit "a", 60)] 0 0)).
    { apply (cap_reserve 0 0 100 k s1 [(lit "a", 60)] 0 0 0 1000 40 (lit "b") (mkOutcome true 100) s2); try done.
      apply (bool_decide_unpack _). vm_compute. exact I. }
    apply rtc_once. apply (cap_settle 0 0 100 k s2 [(lit "b", 40)] [] 0 0 0 1000 60 (lit "a") 75); done. }
  exists (mkConf s3 [(lit "b", 40)] 75 15). do 3 (split; [reflexivity|]).
  destruct (budget_hard_cap 0 0 100 k (mkStore ∅ ∅) (mkConf s3 [(lit "b", 40)] 75 15)) as (H1 & H2 & _ & H3); [lia | lia | done | reflexivity | exact Hrun |].
  split; [exact H1|]. split; [|exact H3].
  assert (Hst : in_stretch 0 0 0 1000) by (split; [lia | reflexivity]). exact (H2 0 1000 1 Hst ltac:(lia)).
Defined.

(** Two budgets of the same name and scope share one counter and, when settled, one marker: the settle
    of the second is taken for a repeat of the first, so its over-estimate stays on the counter. *)
Example duplicate_name_drifts :
  let e := mkEngine [Demo.tokens_day; Demo.tokens_day] (lit "eg") false in
  let '(r, s1, n1) := reserve Demo.clk Demo.uid e Demo.dims (mkSpend 40 0) 0 Demo.empty 0 in
  match r with
  | ROk res =>
      let '(f, s2, _) := release Demo.clk e res s1 n1 in
      f = 0%nat /\ val 0 s2 (budget_key Demo.tokens_day (lit "eg") Demo.dims 0) = 40
  | _ => False
  end.
Proof. vm_compute. split; reflexivity. Qed.
