(* ===== verification/BudgetRedis.v ===== *)
(** * BudgetRedis: the shared budget store ([RedisStore] of [src/src/budget.rs])

    The two Lua scripts over the Redis commands they call, and the store's calls with the connections they meet: an
    answer, no connection, or an answer that is lost after the script ran.  Redis is a parameter with what it documents
    of the commands; its clock is in milliseconds. *)

From Stdlib Require Import Sorting.Sorted.
From S2P Require Import Prelude Text Units Limiter Budget.

(** ** The commands *)

Class BudgetKV (K : Type) : Type := {
  kv_get : K -> Z -> bytes -> option Z;
  kv_incrby : K -> Z -> bytes -> Z -> Z * K;
  kv_pexpire : K -> Z -> bytes -> Z -> K;
  kv_set : K -> Z -> bytes -> Z -> K;
  kv_set_nx_px : K -> Z -> bytes -> Z -> Z -> bool * K
}.

(** [INCRBY] counts a missing key as 0; [PEXPIRE] makes a key end [ttl] from now; [SET .. NX PX] writes only where there
    is nothing, and answers whether it did.  No command touches another key. *)
Class BudgetKVLaws (K : Type) `{BudgetKV K} : Prop := {
  incrby_value : forall s now k d, (kv_incrby s now k d).1 = default 0 (kv_get s now k) + d;
  incrby_same : forall s now k d, kv_get (kv_incrby s now k d).2 now k = Some (default 0 (kv_get s now k) + d);
  incrby_other : forall s now k d t k', k <> k' -> now <= t -> kv_get (kv_incrby s now k d).2 t k' = kv_get s t k';
  pexpire_same : forall s now k ttl t v, kv_get s now k = Some v -> 0 < ttl -> now <= t ->
    kv_get (kv_pexpire s now k ttl) t k = if t <? now + ttl then Some v else None;
  pexpire_other : forall s now k ttl t k', k <> k' -> now <= t -> kv_get (kv_pexpire s now k ttl) t k' = kv_get s t k';
  set_same : forall s now k v, kv_get (kv_set s now k v) now k = Some v;
  set_other : forall s now k v t k', k <> k' -> now <= t -> kv_get (kv_set s now k v) t k' = kv_get s t k';
  nx_answer : forall s now k v ttl, (kv_set_nx_px s now k v ttl).1 = match kv_get s now k with Some _ => false | None => true end;
  nx_taken : forall s now k v ttl t k' x, kv_get s now k = Some x -> now <= t -> kv_get (kv_set_nx_px s now k v ttl).2 t k' = kv_get s t k';
  nx_same : forall s now k v ttl t, kv_get s now k = None -> 0 < ttl -> now <= t ->
    kv_get (kv_set_nx_px s now k v ttl).2 t k = if t <? now + ttl then Some v else None;
  nx_other : forall s now k v ttl t k', k <> k' -> now <= t -> kv_get (kv_set_nx_px s now k v ttl).2 t k' = kv_get s t k'
}.

(** ** The scripts *)

(** [RESERVE_LUA].  Lua numbers are doubles; the script's integers are exact below [2^53]. *)
Definition reserve_lua {K} `{BudgetKV K} (s : K) (now : Z) (key : bytes) (amount limit ttl : Z) : Z * Z * K :=
  let used := default 0 (kv_get s now key) in
  if limit <? used + amount then (0, used, s)
  else let '(newv, s) := kv_incrby s now key amount in (1, newv, kv_pexpire s now key ttl).

(** [RECONCILE_LUA]. *)
Definition reconcile_lua {K} `{BudgetKV K} (s : K) (now : Z) (key marker : bytes) (delta ttl marker_ttl : Z) : Z * K :=
  let '(fresh, s) := kv_set_nx_px s now marker 1 marker_ttl in
  if negb fresh then (default 0 (kv_get s now key), s)
  else
  let '(new, s) := kv_incrby s now key delta in
  let '(new, s) := if new <? 0 then (0, kv_set s now key 0) else (new, s) in
  (new, kv_pexpire s now key ttl).

(** ** The store *)

Definition RECONCILE_ATTEMPTS : nat := 3.

Definition redis_reserve {K} `{BudgetKV K} (link : Link) (s : K) (now : Z) (key : bytes) (amount limit ttl : Z) : result ReserveOutcome * K :=
  match link with
  | Down => (Err "connecting to redis llm-budget store", s)
  | _ =>
      let '(admitted, used_after, s) := reserve_lua s now key amount limit ttl in
      match link with
      | Up => (Ok (mkOutcome (admitted =? 1) (Z.max used_after 0)), s)
      | _ => (Err "evaluating redis budget reserve script", s)
      end
  end.

(** The rounds of [retry_async] from the [i]-th on, [more] of them left after it. *)
Fixpoint retry_go {K T} (more : nat) (op : nat -> K -> result T * K) (i : nat) (s : K) : result T * K :=
  match op i s, more with
  | (Err _, s), S more => retry_go more op (S i) s
  | answer, _ => answer
  end.

Definition retry_async {K T} (attempts : nat) (op : nat -> K -> result T * K) (s : K) : result T * K :=
  retry_go (pred (Nat.max attempts 1)) op 0 s.

(** An attempt of the settle: the link it meets and its time on the server's clock. *)
Definition settle_attempt {K} `{BudgetKV K} (link : nat -> Link) (clk : nat -> Z) (key marker : bytes) (delta ttl : Z) (i : nat) (s : K)
    : result unit * K :=
  match link i with
  | Down => (Err "connecting to redis llm-budget store", s)
  | l =>
      let s := (reconcile_lua s (clk i) key marker delta ttl MARKER_TTL_MS).2 in
      match l with Up => (Ok tt, s) | _ => (Err "evaluating redis budget reconcile script", s) end
  end.

Definition redis_reconcile {K} `{BudgetKV K} (link : nat -> Link) (clk : nat -> Z) (s : K) (key : bytes) (delta ttl : Z) (marker : bytes)
    : result unit * K :=
  retry_async RECONCILE_ATTEMPTS (settle_attempt link clk key marker delta ttl) s.

(** [Result::is_ok]. *)
Definition is_ok {T} (r : result T) : bool := match r with Ok _ => true | Err _ => false end.

(** ** The scripts' effect *)

Section Laws.
Context {K : Type} `{BudgetKVLaws K}.

Definition total (s : K) (t : Z) (k : bytes) : Z := default 0 (kv_get s t k).

Lemma bumped s now k d ttl t : 0 < ttl -> now <= t ->
  kv_get (kv_pexpire (kv_incrby s now k d).2 now k ttl) t k = if t <? now + ttl then Some (total s now k + d) else None.
Proof. intros Ht Hn. apply pexpire_same; [apply incrby_same | done..]. Qed.

Lemma reserve_effect s now key a limit ttl t k : 0 < ttl -> now <= t ->
  let '(adm, after, s') := reserve_lua s now key a limit ttl in
  (adm = if total s now key + a <=? limit then 1 else 0) /\ after = (if total s now key + a <=? limit then total s now key + a else total s now key)
  /\ kv_get s' t k = if (total s now key + a <=? limit) && bool_decide (k = key) then (if t <? now + ttl then Some (total s now key + a) else None) else kv_get s t k.
Proof.
  intros Ht Hn. unfold reserve_lua. fold (total s now key). destruct (Z.ltb_spec limit (total s now key + a)) as [Hl | Hl].
  - destruct (Z.leb_spec (total s now key + a) limit); [lia|]. done.
  - destruct (Z.leb_spec (total s now key + a) limit); [|lia]. pose proof (incrby_value s now key a) as Hv. pose proof (bumped s now key a ttl t Ht Hn) as Hb.
    pose proof (fun k' Hk => incrby_other s now key a t k' Hk Hn) as Ho. destruct (kv_incrby s now key a) as [newv s'] eqn:E. cbn in Hv, Hb, Ho |- *.
    split_and!; [done | by rewrite Hv |]. case_bool_decide as Hk; [by subst|]. by rewrite pexpire_other, Ho by congruence.
Qed.

(** The first time. *)
Lemma settle_first s now key marker delta ttl mttl t k : key <> marker -> 0 < ttl -> 0 < mttl -> now <= t -> kv_get s now marker = None ->
  kv_get (reconcile_lua s now key marker delta ttl mttl).2 t k =
    if bool_decide (k = marker) then (if t <? now + mttl then Some 1 else None)
    else if bool_decide (k = key) then (if t <? now + ttl then Some (Z.max 0 (total s now key + delta)) else None)
    else kv_get s t k.
Proof.
  intros Hkm Ht Hm Hn Hnone. unfold reconcile_lua. pose proof (nx_answer s now marker 1 mttl) as Ha. rewrite Hnone in Ha.
  pose proof (fun t' => nx_same s now marker 1 mttl t' Hnone Hm) as Hs1. pose proof (fun t' k' => nx_other s now marker 1 mttl t' k') as Hs2.
  destruct (kv_set_nx_px s now marker 1 mttl) as [fresh s1] eqn:E1. cbn in Ha, Hs1, Hs2. subst fresh. cbn [negb].
  pose proof (incrby_value s1 now key delta) as Hv. pose proof (incrby_same s1 now key delta) as Hi. pose proof (fun k' Hk => incrby_other s1 now key delta t k' Hk Hn) as Ho.
  destruct (kv_incrby s1 now key delta) as [new s2] eqn:E2. cbn in Hv, Hi, Ho.
  assert (Htot : default 0 (kv_get s1 now key) = total s now key) by (unfold total; by rewrite Hs2 by (congruence || lia)). rewrite Htot in Hv, Hi.
  set (s3 := if new <? 0 then (0, kv_set s2 now key 0) else (new, s2)).
  assert (H3 : kv_get s3.2 now key = Some (Z.max 0 (total s now key + delta)) /\ forall k', k' <> key -> kv_get s3.2 t k' = kv_get s2 t k').
  { unfold s3. destruct (Z.ltb_spec new 0) as [Hneg | Hpos]; cbn.
    - split; [rewrite set_same; f_equal; lia | intros k' Hk'; apply set_other; [congruence | done]].
    - split; [rewrite Hi; f_equal; lia | done]. }
  destruct H3 as [H3 H4]. destruct s3 as [new' s3]. cbn in H3, H4 |- *. case_bool_decide as Hkm2.
  - subst k. rewrite pexpire_other, H4, Ho by (congruence || done). by apply Hs1.
  - case_bool_decide as Hk; [subst k; by apply pexpire_same|]. rewrite pexpire_other, H4, Ho by (congruence || done). apply Hs2; [congruence | done].
Qed.

(** Again, while the marker stands. *)
Lemma settle_again s now key marker delta ttl mttl t k x : kv_get s now marker = Some x -> now <= t ->
  kv_get (reconcile_lua s now key marker delta ttl mttl).2 t k = kv_get s t k.
Proof.
  intros Hx Hn. unfold reconcile_lua. pose proof (nx_answer s now marker 1 mttl) as Ha. rewrite Hx in Ha.
  pose proof (nx_taken s now marker 1 mttl t k x Hx Hn) as Hr. destruct (kv_set_nx_px s now marker 1 mttl) as [fresh s1]. cbn in Ha, Hr. subst fresh. exact Hr.
Qed.

(** ** Settling over a link that fails *)

Section Settle.
Variables (link : nat -> Link) (clk : nat -> Z) (key marker : bytes) (delta ttl : Z).

(** The first attempt that reached the server, of the [n] from [i] on. *)
Fixpoint first_run (n i : nat) : option nat :=
  match n with
  | O => None
  | S n => match link i with Down => first_run n (S i) | _ => Some i end
  end.

Abbreviation attempt := (settle_attempt link clk key marker delta ttl).

Lemma retry_ok more i s : is_ok (retry_go more attempt i s).1 = existsb (fun j => match link j with Up => true | _ => false end) (seq i (S more)).
Proof.
  revert i s. induction more as [|more IH]; intros i s; cbn -[reconcile_lua]; unfold settle_attempt at 1; destruct (link i); cbn -[reconcile_lua]; try done; apply IH.
Qed.

(** Once the marker stands, what is left of the attempts changes nothing. *)
Lemma retry_marked more i s t k : (forall j, (i <= j <= i + more)%nat -> clk j <= t /\ exists x, kv_get s (clk j) marker = Some x)
  -> (forall j j', (i <= j <= j')%nat -> (j' <= i + more)%nat -> clk j <= clk j') -> kv_get (retry_go more attempt i s).2 t k = kv_get s t k.
Proof.
  revert i s. induction more as [|more IH]; intros i s Hm Hc; cbn -[reconcile_lua]; unfold settle_attempt at 1; destruct (link i) eqn:E; cbn -[reconcile_lua]; try done;
    destruct (Hm i ltac:(lia)) as [Hi [x Hx]]; try by eapply settle_again.
  - apply IH; [intros j Hj; apply Hm; lia | intros j j' Hj Hj'; apply Hc; lia].
  - rewrite IH; [by eapply settle_again | | intros j j' Hj Hj'; apply Hc; lia]. intros j Hj. destruct (Hm j ltac:(lia)) as [Hjt Hjx].
    split; [done|]. erewrite settle_again; [exact Hjx | exact Hx | apply Hc; lia].
Qed.

Lemma retry_settles more i s t k : key <> marker -> 0 < ttl -> (forall t', kv_get s t' marker = None) ->
  (forall j j', (i <= j <= j')%nat -> (j' <= i + more)%nat -> clk j <= clk j' < clk j + MARKER_TTL_MS) -> clk (i + more) <= t ->
  kv_get (retry_go more attempt i s).2 t k =
    match first_run (S more) i with
    | None => kv_get s t k
    | Some j => kv_get (reconcile_lua s (clk j) key marker delta ttl MARKER_TTL_MS).2 t k
    end.
Proof.
  intros Hkm Httl Hnone. revert i. induction more as [|more IH]; intros i Hc Hl; cbn -[reconcile_lua]; unfold settle_attempt at 1; destruct (link i) eqn:E; cbn -[reconcile_lua]; try done.
  - apply IH; [intros j j' Hj Hj'; apply Hc; lia | by rewrite Nat.add_succ_comm].
  - apply retry_marked; [|intros j j' Hj Hj'; apply Hc; lia]. intros j Hj. split; [pose proof (Hc j (i + S more)%nat); lia|].
    exists 1. pose proof (Hc i j ltac:(lia) ltac:(lia)) as Hij. rewrite (settle_first _ _ _ _ _ _ _ _ _ Hkm Httl) by (done || lia).
    rewrite bool_decide_true by done. destruct (Z.ltb_spec (clk j) (clk i + MARKER_TTL_MS)); [done | lia].
Qed.
End Settle.

(** C29.  However the link fails, the attempts of one settle, made within the life of their marker, leave on every key what a
    single run of the script leaves when one of them reached the server, and what was there when none did; the caller is
    told of success exactly when an attempt was answered, and then the delta is in. *)
Theorem settle_once (link : nat -> Link) (clk : nat -> Z) (s : K) (key marker : bytes) (delta ttl t : Z) (k : bytes) :
  key <> marker -> 0 < ttl -> (forall t', kv_get s t' marker = None) ->
  (forall j j', (j <= j' < RECONCILE_ATTEMPTS)%nat -> clk j <= clk j' < clk j + MARKER_TTL_MS) -> clk 2%nat <= t -> k <> marker ->
  let '(answer, s') := redis_reconcile link clk s key delta ttl marker in
  kv_get s' t k =
    match first_run link RECONCILE_ATTEMPTS 0 with
    | Some j => if bool_decide (k = key) then (if t <? clk j + ttl then Some (Z.max 0 (total s (clk j) key + delta)) else None) else kv_get s t k
    | None => kv_get s t k
    end
  /\ is_ok answer = existsb (fun j => match link j with Up => true | _ => false end) (seq 0 RECONCILE_ATTEMPTS)
  /\ (is_ok answer = true -> first_run link RECONCILE_ATTEMPTS 0 <> None).
Proof.
  intros Hkm Httl Hnone Hc Ht Hk. unfold redis_reconcile, retry_async. unfold RECONCILE_ATTEMPTS in *. cbn [Nat.max pred].
  pose proof (retry_ok link clk key marker delta ttl 2 0 s) as Hok.
  pose proof (retry_settles link clk key marker delta ttl 2 0 s t k Hkm Httl Hnone) as Hs.
  destruct (retry_go 2 _ 0 s) as [answer s']. cbn [fst snd] in *. split_and!.
  - rewrite Hs; [| intros j j' Hj Hj'; apply Hc; lia | done]. destruct (first_run link 3 0) as [j|] eqn:E; [|done].
    assert (Hj : (j < 3)%nat) by (revert E; cbn; repeat case_match; intros; simplify_eq; lia).
    pose proof (Hc j 2%nat ltac:(lia)). rewrite (settle_first _ _ _ _ _ _ _ _ _ Hkm Httl) by (done || lia). by rewrite (bool_decide_false (k = marker)).
  - exact Hok.
  - rewrite Hok. cbn. repeat case_match; cbn; congruence.
Qed.
End Laws.

(** ** The two backends *)

Section Agreement.
Context {K : Type} `{BudgetKVLaws K}.
(** Which names are counters; the others are markers. *)
Variable is_counter : bytes -> bool.

Inductive StoreOp : Type :=
  | OpReserve (key : bytes) (amount limit ttl : Z)
  | OpSettle (key : bytes) (delta ttl : Z) (marker : bytes).

Definition op_charge (o : StoreOp) : Z := match o with OpReserve _ a _ _ => a | OpSettle _ d _ _ => Z.abs d end.

Definition op_ok (o : StoreOp) : Prop :=
  match o with
  | OpReserve key a limit ttl => is_counter key = true /\ 0 <= a /\ 0 <= limit < 2 ^ 53 /\ 0 < ttl
  | OpSettle key _ ttl marker => is_counter key = true /\ is_counter marker = false /\ 0 < ttl
  end.

Definition redis_op (s : K) (now : Z) (o : StoreOp) : option ReserveOutcome * K :=
  match o with
  | OpReserve key a limit ttl => let '(r, s) := redis_reserve Up s now key a limit ttl in (match r with Ok x => Some x | Err _ => None end, s)
  | OpSettle key d ttl marker => (None, (redis_reconcile (fun _ => Up) (fun _ => now) s key d ttl marker).2)
  end.

Definition memory_op (m : MemoryStore) (now : Z) (o : StoreOp) : option ReserveOutcome * MemoryStore :=
  match o with
  | OpReserve key a limit ttl => let '(r, m) := mem_reserve m (from_millis now) key a limit ttl in (Some r, m)
  | OpSettle key d ttl marker => (None, mem_reconcile m (from_millis now) key d ttl marker)
  end.

Fixpoint run_ops {S} (step : S -> Z -> StoreOp -> option ReserveOutcome * S) (s : S) (l : list (Z * StoreOp)) : list (option ReserveOutcome) * S :=
  match l with
  | [] => ([], s)
  | (now, o) :: l => let '(r, s) := step s now o in let '(rs, s) := run_ops step s l in (r :: rs, s)
  end.

(** What the two stores read alike from [from] on, with the counters under [top]. *)
Definition alike (from top : Z) (s : K) (m : MemoryStore) : Prop :=
  (forall t k, from <= t -> is_counter k = true -> kv_get s t k = fst <$> live (from_millis t) (used m) !! k)
  /\ (forall t k, from <= t -> is_counter k = false -> kv_get s t k = match settled m !! k with Some e => if from_millis t <? e then Some 1 else None | None => None end)
  /\ (forall k v e, used m !! k = Some (v, e) -> 0 <= v <= top).

Lemma millis_lt t now ttl : (from_millis t <? from_millis now + from_millis ttl) = (t <? now + ttl).
Proof. unfold from_millis. destruct (Z.ltb_spec t (now + ttl)), (Z.ltb_spec (t * 1000000) (now * 1000000 + ttl * 1000000)); lia. Qed.

Lemma alike_total from top s m now key : alike from top s m -> from <= now -> is_counter key = true ->
  total s now key = counter (live (from_millis now) (used m)) key /\ 0 <= total s now key <= Z.max 0 top.
Proof.
  intros (Hu & _ & Hb) Hn Hk. unfold total, counter. rewrite Hu by done. rewrite lookup_live.
  destruct (used m !! key) as [[v e]|] eqn:E; [|cbn; lia]. apply Hb in E. destruct (_ <? _); cbn; lia.
Qed.

(** A map retained at [now] reads the same from [now] on. *)
Lemma live_live (mm : gmap bytes (Z * Z)) now t k : now <= t -> live t (live now mm) !! k = live t mm !! k.
Proof. intros Ht. rewrite !lookup_live. destruct (mm !! k) as [[v e]|]; [|done]. zcase; cbn; zcase; try done; lia. Qed.

Lemma live_bump (mm : gmap bytes (Z * Z)) now t key v ttl k : now <= t ->
  fst <$> live (from_millis t) (<[key := (v, from_millis now + from_millis ttl)]> (live (from_millis now) mm)) !! k
  = if bool_decide (k = key) then (if t <? now + ttl then Some v else None) else fst <$> live (from_millis t) mm !! k.
Proof.
  intros Ht. case_bool_decide as Hk.
  - subst k. rewrite lookup_live, lookup_insert_eq, millis_lt. by destruct (_ <? _).
  - rewrite lookup_live, lookup_insert_ne by congruence. rewrite <- (live_live mm (from_millis now) (from_millis t)) by (unfold from_millis; lia).
    symmetry. rewrite (lookup_live (live (from_millis now) mm)). done.
Qed.

Lemma retained_bound (mm : gmap bytes (Z * Z)) now top k v e : (forall k v e, mm !! k = Some (v, e) -> 0 <= v <= top) ->
  live now mm !! k = Some (v, e) -> 0 <= v <= top.
Proof. intros Hb. rewrite lookup_live. destruct (mm !! k) as [[v' e']|] eqn:E; [|done]. destruct (_ <? _); [|done]. intros [= <- <-]. by eapply Hb. Qed.

Lemma alike_reserve from top s m now key a limit ttl : alike from top s m -> from <= now -> 0 <= top -> op_ok (OpReserve key a limit ttl) -> top + a < 2 ^ 53 ->
  (redis_op s now (OpReserve key a limit ttl)).1 = (memory_op m now (OpReserve key a limit ttl)).1
  /\ alike now (top + a) (redis_op s now (OpReserve key a limit ttl)).2 (memory_op m now (OpReserve key a limit ttl)).2.
Proof.
  intros Ha Hn Htop (Hk & Ha0 & Hl & Httl) Hs. destruct (alike_total _ _ _ _ now key Ha Hn Hk) as [Hc Hr]. destruct Ha as (Hu & Hm & Hb).
  pose proof (fun t k Ht => reserve_effect s now key a limit ttl t k Httl Ht) as He. unfold redis_op, redis_reserve.
  destruct (reserve_lua s now key a limit ttl) as [[adm after] s']. cbn -[mem_reserve]. unfold mem_reserve, would_reserve. rewrite <- Hc.
  replace (sat_add 64 (total s now key) a) with (total s now key + a) by (unfold sat_add; lia).
  destruct (He now key ltac:(lia)) as (-> & -> & _). assert (He' := fun t k Ht => proj2 (proj2 (He t k Ht))). clear He. cbv beta in He'.
  destruct (Z.leb_spec (total s now key + a) limit) as [Hfit | Hno]; cbn -[live from_millis] in He' |- *; (split; [rewrite Z.max_l by lia; done|]); split_and!; cbn -[live from_millis].
  - intros t k Ht Hck. rewrite He', live_bump by done. case_bool_decide; [done|]. apply Hu; [lia | done].
  - intros t k Ht Hck. rewrite He' by done. rewrite bool_decide_false by congruence. apply Hm; [lia | done].
  - intros k v e. destruct (decide (k = key)) as [-> | Hne]; [rewrite lookup_insert_eq; intros [= <- <-]; lia|]. rewrite lookup_insert_ne by done.
    intros E. apply (retained_bound _ _ top) in E; [lia | done].
  - intros t k Ht Hck. rewrite He', live_live by (done || unfold from_millis; lia). apply Hu; [lia | done].
  - intros t k Ht Hck. rewrite He' by done. apply Hm; [lia | done].
  - intros k v e E. apply (retained_bound _ _ top) in E; [lia | done].
Qed.

Lemma alike_marker from top s m now k : alike from top s m -> from <= now -> is_counter k = false ->
  kv_get s now k = (fun _ => 1) <$> filter (fun kv : bytes * Z => from_millis now < kv.2) (settled m) !! k.
Proof.
  intros (_ & Hm & _) Hn Hk. rewrite Hm, map_lookup_filter by done. destruct (settled m !! k) as [e|]; cbn; [|done]. destruct (Z.ltb_spec (from_millis now) e).
  - by rewrite option_guard_True.
  - by rewrite option_guard_False by (cbn; lia).
Qed.

(** The markers retained at [now], read from [now] on. *)
Lemma marks_retained (sm : gmap bytes Z) now t k : now <= t ->
  match filter (fun kv : bytes * Z => now < kv.2) sm !! k with Some e => if t <? e then Some 1 else None | None => None end
  = match sm !! k with Some e => if t <? e then Some 1 else None | None => None end.
Proof.
  intros Ht. rewrite map_lookup_filter. destruct (sm !! k) as [e|]; cbn; [|done]. destruct (decide (now < e)) as [Hl | Hl].
  - by rewrite option_guard_True.
  - rewrite option_guard_False by done. destruct (Z.ltb_spec t e); [lia | done].
Qed.

Lemma alike_settle from top s m now key d ttl marker : alike from top s m -> from <= now -> 0 <= top -> op_ok (OpSettle key d ttl marker) -> top + Z.abs d < 2 ^ 53 ->
  alike now (top + Z.abs d) (redis_op s now (OpSettle key d ttl marker)).2 (memory_op m now (OpSettle key d ttl marker)).2.
Proof.
  intros Ha Hn Htop (Hk & Hmk & Httl) Hs. destruct (alike_total _ _ _ _ now key Ha Hn Hk) as [Hc Hr]. pose proof (alike_marker _ _ _ _ now marker Ha Hn Hmk) as Hmark.
  destruct Ha as (Hu & Hm & Hb). assert (Hkm : key <> marker) by congruence. cbn -[reconcile_lua mem_reconcile from_millis live]. unfold mem_reconcile.
  destruct (filter _ (settled m) !! marker) as [e|] eqn:E; cbn in Hmark; split_and!; cbn -[reconcile_lua from_millis live].
  - intros t k Ht Hck. erewrite settle_again by done. apply Hu; [lia | done].
  - intros t k Ht Hck. erewrite settle_again by done. rewrite Hm by (done || lia). symmetry. apply marks_retained. unfold from_millis; lia.
  - intros k v e' E'. apply Hb in E'. lia.
  - intros t k Ht Hck. rewrite settle_first by done. rewrite bool_decide_false by congruence. rewrite live_bump, <- Hc by done. case_bool_decide; [|apply Hu; [lia | done]].
    rewrite (as_i64_small (total s now key)), as_i64_signed by lia. by rewrite Z.max_comm.
  - intros t k Ht Hck. rewrite settle_first by done. case_bool_decide as Hkk.
    + subst k. rewrite lookup_insert_eq, millis_lt. done.
    + rewrite bool_decide_false by congruence. rewrite lookup_insert_ne, Hm by (congruence || lia). symmetry. apply marks_retained. unfold from_millis; lia.
  - intros k v e. destruct (decide (k = key)) as [-> | Hne].
    + rewrite lookup_insert_eq. intros [= <- <-]. rewrite <- Hc, (as_i64_small (total s now key)), as_i64_signed by lia. lia.
    + rewrite lookup_insert_ne by done. intros E'. apply (retained_bound _ _ top) in E'; [lia | done].
Qed.

Lemma alike_step from top s m now o : alike from top s m -> from <= now -> 0 <= top -> op_ok o -> top + op_charge o < 2 ^ 53 ->
  (redis_op s now o).1 = (memory_op m now o).1 /\ alike now (top + op_charge o) (redis_op s now o).2 (memory_op m now o).2.
Proof.
  intros. destruct o; [by apply (alike_reserve from)|]. split; [done | by apply (alike_settle from)].
Qed.

Definition volume (l : list (Z * StoreOp)) : Z := foldr (fun o acc => op_charge o.2 + acc) 0 l.

Lemma alike_run l from top s m : alike from top s m -> 0 <= top -> StronglySorted Z.le (from :: map fst l) -> Forall (fun o => op_ok o.2) l -> top + volume l < 2 ^ 53 ->
  (run_ops redis_op s l).1 = (run_ops memory_op m l).1.
Proof.
  revert from top s m. induction l as [|[now o] l IH]; intros from top s m Ha Htop Hs Hok Hv; [done|].
  apply Forall_cons in Hok as [Ho Hok]. inversion_clear Hs as [|? ? Hs' Hf]. apply Forall_cons in Hf as [Hn _]. cbn [volume foldr snd] in Hv. fold (volume l) in Hv.
  assert (Hc : 0 <= op_charge o) by (destruct o; cbn in *; lia). assert (0 <= volume l) as Hvl.
  { clear -Hok. induction Hok as [|[t o'] l Ho' _ IH']; [done|]. cbn. fold (volume l). assert (0 <= op_charge o') by (destruct o'; cbn in *; lia). lia. }
  destruct (alike_step from top s m now o) as [Hr Ha']; [done | done | done | done | lia |].
  cbn [run_ops]. destruct (redis_op s now o) as [r s'], (memory_op m now o) as [r' m']. cbn in Hr, Ha'. subst r'.
  specialize (IH now (top + op_charge o) s' m' Ha'). destruct (run_ops redis_op s' l), (run_ops memory_op m' l). cbn in *. f_equal. apply IH; [lia | done | done | lia].
Qed.

(** The shared store is the in-process store: over a link that holds and at whole milliseconds, any sequence of reserves
    and settles answers alike on an empty Redis and on an empty [MemoryStore], as long as counters and markers have
    different names and the amounts add up to less than [2^53], where the script's numbers are exact. *)
Theorem budget_backends_agree (s : K) (l : list (Z * StoreOp)) :
  (forall t k, kv_get s t k = None) -> StronglySorted Z.le (map fst l) -> Forall (fun o => op_ok o.2) l -> volume l < 2 ^ 53 ->
  (run_ops redis_op s l).1 = (run_ops memory_op (mkStore ∅ ∅) l).1.
Proof.
  intros Hs Ht Hok Hv. destruct l as [|[now o] l]; [done|]. apply (alike_run _ now 0); [| done | | done | done].
  - split_and!; cbn -[live]; intros; rewrite ?Hs; rewrite ?lookup_live, ?lookup_empty in *; done.
  - constructor; [done|]. cbn in Ht |- *. inversion_clear Ht. constructor; [lia | done].
Qed.
End Agreement.

(** ** A Redis *)

(** Each key with its value and when it ends, if it does. *)
#[global] Instance map_kv : BudgetKV (gmap bytes (Z * option Z)) :=
  let get m t k := match m !! k with Some (v, Some e) => if t <? e then Some v else None | Some (v, None) => Some v | None => None end in
  {| kv_get := get;
     kv_incrby m now k d := let v := default 0 (get m now k) + d in
       (v, <[k := (v, match get m now k, m !! k with Some _, Some (_, e) => e | _, _ => None end)]> m);
     kv_pexpire m now k ttl := match get m now k with Some v => <[k := (v, Some (now + ttl))]> m | None => m end;
     kv_set m now k v := <[k := (v, None)]> m;
     kv_set_nx_px m now k v ttl := match get m now k with Some _ => (false, m) | None => (true, <[k := (v, Some (now + ttl))]> m) end |}.

#[global] Instance map_kv_laws : BudgetKVLaws (gmap bytes (Z * option Z)).
Proof.
  split; cbn; intros; try (by rewrite lookup_insert_eq); try (by rewrite lookup_insert_ne).
  all: repeat (case_match; simplify_eq; rewrite ?lookup_insert_eq, ?lookup_insert_ne in * by done; cbn in * ); try done; simplify_eq; try done.
Qed.

(** 700 used; the settle gives 200 back, its first answer is lost, the second attempt finds no server, the third is
    answered: 500, once. *)
Lemma settle_once_witness :
  let s : gmap bytes (Z * option Z) := {[ lit "c" := (700, Some 90000) ]} in
  let link i := match i with 0%nat => ReplyLost | 1%nat => Down | _ => Up end in
  let clk i := 10 + 25 * Z.of_nat i in
  kv_get (redis_reconcile link clk s (lit "c") (-200) 60000 (lit "c:s:1")).2 100 (lit "c") = Some 500.
Proof.
  intros s link clk. pose proof (settle_once link clk s (lit "c") (lit "c:s:1") (-200) 60000 100 (lit "c")) as H. cbv zeta in H.
  destruct (redis_reconcile link clk s (lit "c") (-200) 60000 (lit "c:s:1")) as [answer s'] eqn:E. cbn [snd].
  destruct H as [H _]; [done | lia | reflexivity | unfold clk, MARKER_TTL_MS, RECONCILE_ATTEMPTS; lia | unfold clk; lia | done | exact H].
Defined.

(** Two reserves of 600 under 1000, a settle made twice, a reserve that then fits, and one after the counter ended. *)
Definition day : list (Z * StoreOp) :=
  [(0, OpReserve (lit "c") 600 1000 5000); (10, OpReserve (lit "c") 600 1000 5000); (20, OpSettle (lit "c") (-500) 5000 (lit "c:s:1"));
   (30, OpSettle (lit "c") (-500) 5000 (lit "c:s:1")); (40, OpReserve (lit "c") 600 1000 5000); (6000, OpReserve (lit "c") 900 1000 5000)].

Lemma budget_backends_agree_witness :
  (run_ops redis_op (∅ : gmap bytes (Z * option Z)) day).1 = (run_ops memory_op (mkStore ∅ ∅) day).1
  /\ (run_ops memory_op (mkStore ∅ ∅) day).1
     = [Some (mkOutcome true 600); Some (mkOutcome false 600); None; None; Some (mkOutcome true 700); Some (mkOutcome true 900)].
Proof.
  split; [|by vm_compute]. apply (budget_backends_agree (fun k => bool_decide (k = lit "c"))); [done | | | done].
  - cbn. repeat constructor; lia.
  - repeat constructor; try lia; done.
Defined.
