(* ===== verification/ProxyProtocol.v ===== *)
(** * ProxyProtocol: the PROXY header of a connection ([src/src/proxy_protocol.rs])

    [read_header] reads just enough of a connection to tell whether it starts with a PROXY v1 or v2
    header; [accept] decides from it, and from whether the peer is a trusted balancer, which client the
    connection is served as.  A connection is the sequence of what [read] returns. *)

From S2P Require Import Prelude Text Net Access.

(** [b"\r\n\r\n\0\r\nQUIT\n"] and [b"PROXY "]. *)
Definition V2_SIG : bytes := [13; 10; 13; 10; 0; 13; 10; 81; 85; 73; 84; 10].
Definition V1_START : bytes := lit "PROXY ".
Definition V1_MAX : Z := 107.
Definition V2_MAX : Z := 4096.

Inductive Outcome : Type :=
| Proxied | Local | Missing | Direct | Untrusted | Invalid | Timeout.

Definition serves (o : Outcome) : bool :=
  match o with Proxied | Local | Missing | Direct => true | _ => false end.

Definition outcome_label (o : Outcome) : bytes :=
  match o with
  | Proxied => lit "proxied" | Local => lit "local" | Missing => lit "missing" | Direct => lit "direct"
  | Untrusted => lit "untrusted" | Invalid => lit "invalid" | Timeout => lit "timeout"
  end.

Record ProxyProtocol : Type := mkProxyProtocol { trusted : list Cidr; expect_header : bool }.

Record Accepted : Type := mkAccepted { outcome : Outcome; client : SocketAddr; rest : bytes }.

Definition from_cfg (on : bool) (trusted : list bytes) : result (option ProxyProtocol) :=
  if negb on then Ok None
  else
    ensure (negb (is_nil trusted)) else "server.proxy_protocol_trusted is required with server.proxy_protocol";
    let? cidrs := collect parse trusted in
    ensure (negb (existsb is_everything cidrs))
      else "server.proxy_protocol_trusted contains every address";
    Ok (Some (mkProxyProtocol cidrs true)).

Definition header_optional (p : ProxyProtocol) : ProxyProtocol := mkProxyProtocol (trusted p) false.

Definition trusts (p : ProxyProtocol) (peer : IpAddr) : bool :=
  let peer := to_canonical peer in existsb (fun c => contains c peer) (trusted p).

Inductive Header : Type :=
| HNone | HLocal | HProxy (client : SocketAddr) | HInvalid (why : String.string).
Arguments HInvalid why%_string.

Inductive Parse : Type := Done (h : Header) (used : nat) | NotProxy | Need.

(** [buf.windows(2).position(|w| w == b"\r\n")]. *)
Fixpoint find_crlf (s : bytes) : option nat :=
  match s with
  | a :: ((b :: _) as s') =>
      if (a =? 13) && (b =? 10) then Some 0%nat
      else match find_crlf s' with Some n => Some (S n) | None => None end
  | _ => None
  end.

Definition v1_header (fields : list bytes) : Header :=
  match fields with
  | proto :: more =>
      if beq proto (lit "UNKNOWN") then HLocal
      else if beq proto (lit "TCP4") || beq proto (lit "TCP6") then
        match more with
        | [src; _; sport; _] =>
            match parse_ip src, parse_uint 16 sport with
            | Some ip, Some port =>
                if Bool.eqb (is_ipv4 ip) (beq proto (lit "TCP4")) then HProxy (mkSocketAddr ip port)
                else HInvalid "a v1 header with a bad address or port"
            | _, _ => HInvalid "a v1 header with a bad address or port"
            end
        | _ => HInvalid "a v1 header that is not TCP4, TCP6 or UNKNOWN"
        end
      else HInvalid "a v1 header that is not TCP4, TCP6 or UNKNOWN"
  | [] => HInvalid "a v1 header that is not TCP4, TCP6 or UNKNOWN"
  end.

Definition parse_v1 (buf : bytes) : Parse :=
  match find_crlf buf with
  | None =>
      if V1_MAX <=? len buf then Done (HInvalid "a v1 header without CRLF in 107 bytes") (length buf)
      else Need
  | Some stop =>
      let used := (stop + 2)%nat in
      if V1_MAX <? Z.of_nat used then Done (HInvalid "a v1 header over 107 bytes") used
      else
        let line := drop (length V1_START) (take stop buf) in
        if from_utf8_ok line then Done (v1_header (split_on 32 line)) used
        else Done (HInvalid "a v1 header that is not ASCII") used
  end.

(** The byte at an index the code has checked to be in range. *)
Definition at_ (buf : bytes) (i : nat) : Z := nth i buf 0.

Definition v2_header (command family : Z) (addrs : bytes) : Header :=
  if command =? 0 then HLocal
  else if negb (command =? 1) then HInvalid "a v2 header with an unknown command or family"
  else if (family =? 1) && (12 <=? len addrs) then
    HProxy (mkSocketAddr (V4 (from_be_bytes (take 4 addrs))) (from_be_bytes [at_ addrs 8; at_ addrs 9]))
  else if (family =? 2) && (36 <=? len addrs) then
    HProxy (mkSocketAddr (V6 (from_be_bytes (take 16 addrs))) (from_be_bytes [at_ addrs 32; at_ addrs 33]))
  else if (family =? 0) || (family =? 3) then HLocal
  else if (family =? 1) || (family =? 2) then HInvalid "a v2 header too short for its addresses"
  else HInvalid "a v2 header with an unknown command or family".

Definition parse_v2 (buf : bytes) : Parse :=
  let used := (16 + Z.to_nat (from_be_bytes [at_ buf 14; at_ buf 15]))%nat in
  if V2_MAX <? Z.of_nat used then Done (HInvalid "a v2 header over 4096 bytes") (length buf)
  else if (length buf <? used)%nat then Need
  else
    let version := Z.shiftr (at_ buf 12) 4 in
    let command := Z.land (at_ buf 12) 15 in
    if negb (version =? 2) then Done (HInvalid "a v2 signature with another version") used
    else Done (v2_header command (Z.shiftr (at_ buf 13) 4) (drop 16 (take used buf))) used.

(** [buf[..n] == sig[..n]] for [n = buf.len().min(sig.len())]. *)
Definition agrees (buf sig : bytes) : bool :=
  let n := Nat.min (length buf) (length sig) in beq (take n buf) (take n sig).

Definition parse_buf (buf : bytes) : Parse :=
  match buf with
  | [] => Need
  | _ =>
      if agrees buf V2_SIG then
        if (length buf <? 16)%nat then Need else parse_v2 buf
      else if agrees buf V1_START then
        if (length buf <? length V1_START)%nat then Need else parse_v1 buf
      else NotProxy
  end.

(** What one [io.read(&mut chunk)] returns: some bytes (none at the end), or an error. *)
Inductive Read : Type := Chunk (b : bytes) | Failed.

Inductive ReadOutcome : Type :=
| Read_ok (h : Header) (rest : bytes) (unread : list Read)
| Read_failed (nothing_read : bool)
| Read_pending.                        (** the reads given do not decide the header *)

Fixpoint read_go (buf : bytes) (io : list Read) : ReadOutcome :=
  match parse_buf buf with
  | Done h used => Read_ok h (drop used buf) io
  | NotProxy => Read_ok HNone buf io
  | Need =>
      match io with
      | [] => Read_pending
      | Failed :: _ => Read_failed (is_nil buf)
      | Chunk [] :: io' =>
          Read_ok (if is_nil buf then HNone else HInvalid "the connection closed inside the header") [] io'
      | Chunk c :: io' => read_go (buf ++ c) io'
      end
  end.

Definition read_header (io : list Read) : ReadOutcome := read_go [] io.

Inductive AcceptOutcome : Type :=
| Accept_ok (a : Accepted) (unread : list Read)
| Accept_failed (nothing_read : bool)
| Accept_pending.

Definition accept (p : ProxyProtocol) (io : list Read) (peer : SocketAddr) : AcceptOutcome :=
  let t := trusts p (sa_ip peer) in
  match read_header io with
  | Read_failed b => Accept_failed b
  | Read_pending => Accept_pending
  | Read_ok h rest unread =>
      let refuse o := mkAccepted o peer [] in
      Accept_ok
        match h with
        | HNone => mkAccepted (if t && expect_header p then Missing else Direct) peer rest
        | HInvalid _ => if negb t then refuse Untrusted else refuse Invalid
        | HLocal => if negb t then refuse Untrusted else mkAccepted Local peer rest
        | HProxy client => if negb t then refuse Untrusted else mkAccepted Proxied client rest
        end unread
  end.

Example v1_works : read_header [Chunk (lit "PROXY TCP4 203.0.113.7 1"); Chunk (lit "0.0.0.1 51000 443" ++ [13; 10] ++ lit "GET /")]
  = Read_ok (HProxy (mkSocketAddr (V4 3405803783) 51000)) (lit "GET /") [].
Proof. vm_compute. reflexivity. Qed.

(** ** What more bytes cannot change *)

Lemma agrees_cons a b c p : agrees (a :: b) (c :: p) = (a =? c) && agrees b p.
Proof.
  unfold agrees. cbn [length Nat.min take]. apply Bool.eq_true_iff_eq.
  rewrite andb_true_iff, !beq_true, Z.eqb_eq. split; [by intros [= -> H] | intros [-> H]; by rewrite H].
Qed.

Lemma agrees_app_l b x p : agrees (b ++ x) p = true -> agrees b p = true.
Proof.
  revert p. induction b as [|a b IH]; intros [|c p]; cbn [app]; try done.
  rewrite !agrees_cons, !andb_true_iff. intros [-> H]. by apply IH in H.
Qed.

Lemma agrees_app b x p : (length p <= length b)%nat -> agrees (b ++ x) p = agrees b p.
Proof.
  revert p. induction b as [|a b IH]; intros [|c p]; cbn [app length]; try done; try lia.
  - by destruct x.
  - intros H. rewrite !agrees_cons, IH by lia. done.
Qed.

Lemma agrees_false b x p : agrees b p = false -> agrees (b ++ x) p = false.
Proof. intros H. destruct (agrees (b ++ x) p) eqn:E; [|done]. apply agrees_app_l in E. congruence. Qed.

Lemma find_crlf_cons a b s : find_crlf (a :: b :: s) =
  if (a =? 13) && (b =? 10) then Some 0%nat
  else match find_crlf (b :: s) with Some n => Some (S n) | None => None end.
Proof. done. Qed.

Lemma find_crlf_bound s n : find_crlf s = Some n -> (n + 2 <= length s)%nat.
Proof.
  revert n. induction s as [|a s IH]; [done|]. destruct s as [|b s]; [done|]. rewrite find_crlf_cons.
  destruct (_ && _); [intros n [= <-]; simpl; lia|].
  destruct (find_crlf (b :: s)) as [m|]; [|done]. intros n [= <-]. specialize (IH m eq_refl). simpl in *. lia.
Qed.

Lemma find_crlf_app s x n : find_crlf s = Some n -> find_crlf (s ++ x) = Some n.
Proof.
  revert n. induction s as [|a s IH]; [done|]. destruct s as [|b s]; [done|].
  intros n. cbn [app]. rewrite !find_crlf_cons. destruct (_ && _); [done|].
  destruct (find_crlf (b :: s)) as [m|]; [|done]. specialize (IH m eq_refl). cbn [app] in IH.
  by rewrite IH.
Qed.

(** A CRLF that only shows with more bytes ends past the ones that were there. *)
Lemma find_crlf_later s x n :
  find_crlf s = None -> find_crlf (s ++ x) = Some n -> (length s < n + 2)%nat.
Proof.
  revert n. induction s as [|a s IH]; intros n; [simpl; lia|].
  destruct s as [|b s]; [simpl; lia|]. cbn [app]. rewrite !find_crlf_cons. destruct (_ && _); [done|].
  destruct (find_crlf (b :: s)) as [m|]; [done|]. intros _.
  destruct (find_crlf (b :: s ++ x)) as [m|] eqn:E; [|done]. intros [= <-].
  specialize (IH m eq_refl E). simpl in *. lia.
Qed.

Lemma at_app b x i : (i < length b)%nat -> at_ (b ++ x) i = at_ b i.
Proof. intros H. unfold at_. by apply app_nth1. Qed.

Definition is_invalid (h : Header) : bool := match h with HInvalid _ => true | _ => false end.

(** [h'] is the same answer as [h]: equal, or both a refusal. *)
Definition same_answer (h h' : Header) (u u' : nat) : Prop :=
  (is_invalid h = true /\ is_invalid h' = true) \/ (h' = h /\ u' = u).

Lemma parse_v1_stable b x h u : parse_v1 b = Done h u ->
  exists h' u', parse_v1 (b ++ x) = Done h' u' /\ same_answer h h' u u'.
Proof.
  unfold parse_v1. destruct (find_crlf b) as [n|] eqn:E.
  - rewrite (find_crlf_app b x n E). apply find_crlf_bound in E.
    rewrite take_app_le by lia.
    intros H. exists h, u. split; [exact H | by right].
  - destruct (Z.leb_spec V1_MAX (len b)) as [Hl|]; [|done]. intros [= <- <-].
    destruct (find_crlf (b ++ x)) as [n|] eqn:E'.
    + pose proof (find_crlf_later b x n E E'). unfold len in Hl.
      destruct (Z.ltb_spec V1_MAX (Z.of_nat (n + 2))); [|lia].
      eexists _, _. split; [done | by left].
    + rewrite len_app. destruct (Z.leb_spec V1_MAX (len b + len x)); [|pose proof (len_nonneg x); lia].
      eexists _, _. split; [done | by left].
Qed.

Lemma parse_v2_stable b x h u : (16 <= length b)%nat -> parse_v2 b = Done h u ->
  exists h' u', parse_v2 (b ++ x) = Done h' u' /\ same_answer h h' u u'.
Proof.
  intros Hb. unfold parse_v2. rewrite !at_app by lia.
  set (used := (16 + Z.to_nat _)%nat). destruct (V2_MAX <? Z.of_nat used).
  { intros [= <- <-]. eexists _, _. split; [done | by left]. }
  destruct (Nat.ltb_spec (length b) used); [done|].
  destruct (Nat.ltb_spec (length (b ++ x)) used); [rewrite length_app in *; lia|].
  rewrite take_app_le by lia. intros H'. exists h, u. split; [exact H' | by right].
Qed.

Lemma parse_buf_nonempty b : b <> [] -> parse_buf b =
  if agrees b V2_SIG then if (length b <? 16)%nat then Need else parse_v2 b
  else if agrees b V1_START then if (length b <? length V1_START)%nat then Need else parse_v1 b
  else NotProxy.
Proof. by destruct b. Qed.

Lemma app_nonempty (b x : bytes) : b <> [] -> b ++ x <> [].
Proof. by destruct b. Qed.

Lemma parse_buf_stable b x h u : parse_buf b = Done h u ->
  exists h' u', parse_buf (b ++ x) = Done h' u' /\ same_answer h h' u u'.
Proof.
  destruct (decide (b = [])) as [->|Hne]; [done|].
  rewrite !parse_buf_nonempty by auto using app_nonempty.
  destruct (agrees b V2_SIG) eqn:E2.
  - destruct (Nat.ltb_spec (length b) 16); [done|].
    rewrite agrees_app, E2 by (simpl; lia).
    destruct (Nat.ltb_spec (length (b ++ x)) 16); [rewrite length_app in *; lia|].
    by apply parse_v2_stable.
  - rewrite (agrees_false b x V2_SIG E2). destruct (agrees b V1_START) eqn:E1; [|done].
    destruct (Nat.ltb_spec (length b) (length V1_START)); [done|].
    rewrite agrees_app, E1 by lia.
    destruct (Nat.ltb_spec (length (b ++ x)) (length V1_START)); [rewrite length_app in *; lia|].
    by apply parse_v1_stable.
Qed.

Lemma parse_buf_not_proxy b x : parse_buf b = NotProxy -> parse_buf (b ++ x) = NotProxy.
Proof.
  destruct (decide (b = [])) as [->|Hne]; [done|].
  rewrite !parse_buf_nonempty by auto using app_nonempty.
  destruct (agrees b V2_SIG) eqn:E2.
  - case_match; [done|]. unfold parse_v2. by repeat case_match.
  - rewrite (agrees_false b x V2_SIG E2). destruct (agrees b V1_START) eqn:E1.
    + case_match; [done|]. unfold parse_v1. by repeat case_match.
    + by rewrite (agrees_false b x V1_START E1).
Qed.

(** A complete header is never "none". *)
Lemma parse_buf_never_none b u : parse_buf b <> Done HNone u.
Proof.
  destruct (decide (b = [])) as [->|Hne]; [done|]. rewrite parse_buf_nonempty by done.
  unfold parse_v1, parse_v2, v1_header, v2_header. repeat case_match; congruence.
Qed.

(** A header takes no more bytes than were there; an undecided one is shorter than 4096. *)
Lemma parse_buf_used b h u : parse_buf b = Done h u -> (u <= length b)%nat.
Proof.
  destruct (decide (b = [])) as [->|Hne]; [done|]. rewrite parse_buf_nonempty by done. case_match.
  - case_match; [done|]. unfold parse_v2. set (used := (16 + Z.to_nat _)%nat).
    case_match; [intros [= _ <-]; done|]. destruct (Nat.ltb_spec (length b) used); [done|].
    case_match; intros [= _ <-]; done.
  - case_match; [|done]. case_match; [done|]. unfold parse_v1.
    destruct (find_crlf b) as [n|] eqn:E; [apply find_crlf_bound in E | case_match; [intros [= _ <-]; done | done]].
    repeat case_match; intros [= _ <-]; lia.
Qed.

Lemma parse_buf_need b : parse_buf b = Need -> len b < V2_MAX.
Proof.
  unfold len. destruct (decide (b = [])) as [->|Hne]; [done|]. rewrite parse_buf_nonempty by done. case_match.
  - destruct (Nat.ltb_spec (length b) 16); [unfold V2_MAX; lia|]. unfold parse_v2.
    set (used := (16 + Z.to_nat _)%nat). destruct (Z.ltb_spec V2_MAX (Z.of_nat used)); [done|].
    destruct (Nat.ltb_spec (length b) used); [lia|]. by case_match.
  - case_match; [|done]. destruct (Nat.ltb_spec (length b) (length V1_START)) as [Hl|]; [simpl in Hl; unfold V2_MAX; lia|].
    unfold parse_v1. destruct (find_crlf b); [by repeat case_match|].
    destruct (Z.leb_spec V1_MAX (len b)); [done|]. unfold len, V1_MAX, V2_MAX in *. lia.
Qed.

(** ** The reader and the decision *)

Definition sent (io : list Read) : bytes :=
  concat (map (fun r => match r with Chunk b => b | Failed => [] end) io).

(** What the whole of what a peer sent says, once it has closed. *)
Definition whole (d : bytes) : Header * bytes :=
  match parse_buf d with
  | Done h used => (h, drop used d)
  | NotProxy => (HNone, d)
  | Need => (if is_nil d then HNone else HInvalid "the connection closed inside the header", [])
  end.

Definition delivered (cs : list bytes) : list Read := map Chunk cs ++ [Chunk []].

Lemma sent_delivered cs : sent (delivered cs) = concat cs.
Proof.
  unfold sent, delivered. rewrite map_app, concat_app, map_map, map_id. simpl. by rewrite app_nil_r.
Qed.

(** The reader's answer on a stream is the answer on its bytes, however they are cut. *)
Lemma read_go_whole cs buf :
  Forall (fun c => c <> []) cs ->
  exists h rest unread, read_go buf (delivered cs) = Read_ok h rest unread
    /\ let '(h', rest') := whole (buf ++ concat cs) in
       (is_invalid h = true /\ is_invalid h' = true) \/ (h = h' /\ rest ++ sent unread = rest').
Proof.
  intros Hcs. revert buf. induction Hcs as [|c cs Hc Hcs IH]; intros buf.
  - cbn [concat]. rewrite app_nil_r. unfold whole, delivered. cbn [map app read_go].
    destruct (parse_buf buf) as [h u| |]; eexists _, _, _; (split; [done|]); right;
      cbn; rewrite ?app_nil_r; done.
  - cbn [concat]. unfold delivered. cbn [map app]. fold (delivered cs).
    assert (Hsent : forall b, b ++ sent (Chunk c :: delivered cs) = b ++ c ++ concat cs).
    { intros b. cbn. by rewrite <- (sent_delivered cs). }
    destruct (parse_buf buf) as [h u| |] eqn:Hp; cbn [read_go]; rewrite Hp.
    + pose proof (parse_buf_used _ _ _ Hp) as Hu.
      destruct (parse_buf_stable buf (c ++ concat cs) h u Hp) as (h' & u' & Hp' & Hsame).
      eexists _, _, _. split; [done|]. unfold whole. rewrite Hp'.
      destruct Hsame as [?|[-> ->]]; [by left|]. right. split; [done|].
      rewrite Hsent. by rewrite drop_app_le.
    + eexists _, _, _. split; [done|]. unfold whole. rewrite parse_buf_not_proxy by done.
      right. split; [done|]. apply Hsent.
    + destruct c as [|x c]; [done|]. rewrite app_assoc. apply IH.
Qed.

(** The bytes the reader takes off a connection are those it hands back, or a header. *)
Lemma read_go_none io buf rest unread :
  read_go buf io = Read_ok HNone rest unread -> Forall (fun r => r <> Chunk []) io ->
  rest ++ sent unread = buf ++ sent io.
Proof.
  revert buf. induction io as [|r io IH]; intros buf; cbn [read_go].
  - destruct (parse_buf buf) as [h u| |] eqn:Hp; [|intros [= <- <-]; done|done].
    intros [= -> _ _]. exfalso. revert Hp. apply parse_buf_never_none.
  - intros Hr Hio. apply Forall_cons in Hio as [Hne Hio].
    destruct (parse_buf buf) as [h u| |] eqn:Hp.
    + injection Hr as -> _ _. exfalso. revert Hp. apply parse_buf_never_none.
    + by injection Hr as <- <-.
    + destruct r as [[|x c]|]; [done| |done]. apply IH in Hr; [|done]. rewrite Hr, <- app_assoc. done.
Qed.

(** The bytes that named the client are the first the peer sent. *)
Lemma read_go_proxy io buf c r u :
  read_go buf io = Read_ok (HProxy c) r u ->
  exists b used, b ++ sent u = buf ++ sent io /\ parse_buf b = Done (HProxy c) used /\ r = drop used b.
Proof.
  revert buf. induction io as [|[[|x c0]|] io IH]; intros buf; cbn [read_go];
    destruct (parse_buf buf) as [h' u'| |] eqn:Hp; try done;
    try (intros [= -> <- <-]; exists buf, u'; done); try (by destruct (is_nil buf)).
  intros (b & used & Hb & H)%IH. exists b, used. split; [|done].
  rewrite Hb. unfold sent. cbn [map concat]. by rewrite <- app_assoc.
Qed.

(** The decision depends on the bytes a peer sends, never on how the network cuts them: two
    deliveries of the same bytes (then a close) are both decided, with the same outcome, the same client
    address and, when served, the same bytes for the protocol behind the header. *)
Theorem accept_chunking p cs1 cs2 peer :
  Forall (fun c => c <> []) cs1 -> Forall (fun c => c <> []) cs2 -> concat cs1 = concat cs2 ->
  exists a1 u1 a2 u2,
    accept p (delivered cs1) peer = Accept_ok a1 u1 /\ accept p (delivered cs2) peer = Accept_ok a2 u2
    /\ outcome a1 = outcome a2 /\ client a1 = client a2
    /\ (serves (outcome a1) = true -> rest a1 ++ sent u1 = rest a2 ++ sent u2).
Proof.
  intros H1 H2 Heq. unfold accept, read_header.
  destruct (read_go_whole cs1 [] H1) as (h1 & r1 & u1 & -> & Hw1).
  destruct (read_go_whole cs2 [] H2) as (h2 & r2 & u2 & -> & Hw2).
  cbn [app] in *. rewrite Heq in Hw1. destruct (whole (concat cs2)) as [h r].
  eexists _, u1, _, u2. split; [done|]. split; [done|].
  destruct Hw1 as [[Hi1 Hi]|[-> Hr1]], Hw2 as [[Hi2 Hi']|[-> Hr2]].
  - destruct h1, h2; try done. by destruct (trusts p (sa_ip peer)).
  - destruct h1, h; try done. by destruct (trusts p (sa_ip peer)).
  - destruct h, h2; try done. by destruct (trusts p (sa_ip peer)).
  - destruct h, (trusts p (sa_ip peer)); cbn; repeat split; congruence.
Qed.

Lemma accept_chunking_witness :
  let p := mkProxyProtocol [CidrV4 167772160 8] true in
  let peer := mkSocketAddr (V4 167772161) 40000 in
  let h := lit "PROXY TCP4 203.0.113.7 10.0.0.1 51000 443" ++ [13] in
  exists a1 u1 a2 u2,
    accept p (delivered [h; [10]; lit "GET"]) peer = Accept_ok a1 u1
    /\ accept p (delivered [h ++ [10] ++ lit "GET"]) peer = Accept_ok a2 u2
    /\ outcome a1 = outcome a2 /\ client a1 = client a2
    /\ (serves (outcome a1) = true -> rest a1 ++ sent u1 = rest a2 ++ sent u2).
Proof.
  apply (accept_chunking (mkProxyProtocol [CidrV4 167772160 8] true)
    [lit "PROXY TCP4 203.0.113.7 10.0.0.1 51000 443" ++ [13]; [10]; lit "GET"]
    [lit "PROXY TCP4 203.0.113.7 10.0.0.1 51000 443" ++ [13; 10] ++ lit "GET"]
    (mkSocketAddr (V4 167772161) 40000)).
  - repeat constructor; done.
  - repeat constructor; done.
  - vm_compute. reflexivity.
Defined.

(** C3.  Nobody but a trusted balancer chooses a client address: a connection is served as another
    address than its peer's only on a complete header from a trusted peer; an untrusted peer is served
    only as itself, and only with every byte it sent handed to the protocol untouched. *)
Theorem accept_safe p io peer a unread :
  accept p io peer = Accept_ok a unread ->
  (client a <> peer -> trusts p (sa_ip peer) = true /\ outcome a = Proxied
     /\ exists b used, b ++ sent unread = sent io
          /\ parse_buf b = Done (HProxy (client a)) used /\ rest a = drop used b)
  /\ (trusts p (sa_ip peer) = false -> serves (outcome a) = true ->
      client a = peer /\ outcome a = Direct
      /\ (Forall (fun r => r <> Chunk []) io -> rest a ++ sent unread = sent io)).
Proof.
  unfold accept, read_header. destruct (read_go [] io) as [h r u| |] eqn:Hr; [|done..].
  intros [= <- <-].
  split.
  - destruct h; cbn; destruct (trusts p (sa_ip peer)); cbn; try done.
    intros _. split; [done|]. split; [done|]. by apply (read_go_proxy io []) in Hr.
  - intros Ht. rewrite Ht. destruct h; cbn; try done. intros _. split; [done|]. split; [done|].
    intros Hio. by apply (read_go_none io []) in Hr.
Qed.

Lemma accept_safe_witness :
  let p := mkProxyProtocol [CidrV4 167772160 8] true in
  let io := [Chunk (lit "GET / HT"); Chunk (lit "TP/1.1")] in
  let peer := mkSocketAddr (V4 3405803783) 40000 in
  let a := mkAccepted Direct peer (lit "GET / HT") in
  (client a <> peer -> trusts p (sa_ip peer) = true /\ outcome a = Proxied
     /\ exists b used, b ++ sent [Chunk (lit "TP/1.1")] = sent io
          /\ parse_buf b = Done (HProxy (client a)) used /\ rest a = drop used b)
  /\ (trusts p (sa_ip peer) = false -> serves (outcome a) = true ->
      client a = peer /\ outcome a = Direct
      /\ (Forall (fun r => r <> Chunk []) io -> rest a ++ sent [Chunk (lit "TP/1.1")] = sent io)).
Proof.
  apply (accept_safe (mkProxyProtocol [CidrV4 167772160 8] true)
    [Chunk (lit "GET / HT"); Chunk (lit "TP/1.1")] (mkSocketAddr (V4 3405803783) 40000)).
  vm_compute. reflexivity.
Defined.

(** Reading is bounded and ends: with reads of at most 512 bytes the header is decided before 4608
    bytes have been taken off the connection, and a peer that has sent 4096 bytes (or closed, or
    failed) has been decided. *)
Theorem read_header_bounded io :
  Forall (fun r => match r with Chunk c => len c <= 512 | Failed => True end) io ->
  match read_header io with
  | Read_ok _ _ unread => exists pre, io = pre ++ unread /\ len (sent pre) < 4608
  | Read_failed _ => Failed ∈ io
  | Read_pending => len (sent io) < 4096 /\ Forall (fun r => exists x c, r = Chunk (x :: c)) io
  end.
Proof.
  unfold read_header. intros Hio.
  enough (Hgen : forall buf, len buf < 4608 ->
    match read_go buf io with
    | Read_ok _ _ unread => exists pre, io = pre ++ unread /\ len (buf ++ sent pre) < 4608
    | Read_failed _ => Failed ∈ io
    | Read_pending => len (buf ++ sent io) < 4096 /\ Forall (fun r => exists x c, r = Chunk (x :: c)) io
    end) by (by apply (Hgen [])).
  induction Hio as [|r io Hr Hio IH]; intros buf Hbuf; cbn [read_go].
  - destruct (parse_buf buf) eqn:Hp; [exists []; by rewrite !app_nil_r.. |].
    rewrite app_nil_r. split; [by apply parse_buf_need | constructor].
  - destruct (parse_buf buf) eqn:Hp; [exists []; rewrite app_nil_r; done.. |].
    apply parse_buf_need in Hp. destruct r as [[|x c]|].
    + exists [Chunk []]. split; [done|]. cbn. by rewrite app_nil_r.
    + specialize (IH (buf ++ x :: c)). rewrite len_app in IH. unfold V2_MAX in Hp.
      specialize (IH ltac:(lia)).
      destruct (read_go (buf ++ x :: c) io) as [h rs unread|b|].
      * destruct IH as (pre & -> & Hl). exists (Chunk (x :: c) :: pre). split; [done|].
        unfold sent. cbn [map concat]. by rewrite app_assoc.
      * by right.
      * destruct IH as [Hl HF]. split; [unfold sent; cbn [map concat]; by rewrite app_assoc|].
        constructor; [by eexists _, _ | done].
    + left.
Qed.

Lemma read_header_bounded_witness :
  exists pre, [Chunk (lit "PRO"); Chunk (lit "XZ"); Chunk (lit "more")] = pre ++ [Chunk (lit "more")]
              /\ len (sent pre) < 4608.
Proof.
  apply (read_header_bounded [Chunk (lit "PRO"); Chunk (lit "XZ"); Chunk (lit "more")]).
  repeat constructor; vm_compute; congruence.
Defined.

(** ** Round trips *)

(** The v2 header a balancer writes for a TCP connection over IPv4 or IPv6, with its TLVs. *)
Definition v2_addrs (src dst : SocketAddr) : option (Z * bytes) :=
  match sa_ip src, sa_ip dst with
  | V4 a, V4 b => Some (17, to_be_bytes 4 a ++ to_be_bytes 4 b)
  | V6 a, V6 b => Some (33, to_be_bytes 16 a ++ to_be_bytes 16 b)
  | _, _ => None
  end.

Definition v2_encode (src dst : SocketAddr) (tlvs : bytes) : option bytes :=
  match v2_addrs src dst with
  | Some (fam, addrs) =>
      let body := addrs ++ to_be_bytes 2 (sa_port src) ++ to_be_bytes 2 (sa_port dst) ++ tlvs in
      Some (V2_SIG ++ [33; fam] ++ to_be_bytes 2 (len body) ++ body)
  | None => None
  end.

Definition addr_ok (a : SocketAddr) : Prop := ip_ok (sa_ip a) /\ in_u 16 (sa_port a).

Lemma at_app_r (a b : bytes) n : at_ (a ++ b) (length a + n) = at_ b n.
Proof. unfold at_. rewrite app_nth2 by lia. f_equal. lia. Qed.

Lemma to_be_bytes_2 z : to_be_bytes 2 z = [z / 256 mod 256; z mod 256].
Proof. done. Qed.

Lemma from_be_bytes_2 z : in_u 16 z -> from_be_bytes [z / 256 mod 256; z mod 256] = z.
Proof. intros H. rewrite <- to_be_bytes_2. apply from_to_be_bytes. exact H. Qed.

Lemma v2_header_v4 body : 12 <= len body -> v2_header 1 1 body =
  HProxy (mkSocketAddr (V4 (from_be_bytes (take 4 body))) (from_be_bytes [at_ body 8; at_ body 9])).
Proof. intros H%Z.leb_le. unfold v2_header. by rewrite H. Qed.

Lemma v2_header_v6 body : 36 <= len body -> v2_header 1 2 body =
  HProxy (mkSocketAddr (V6 (from_be_bytes (take 16 body))) (from_be_bytes [at_ body 32; at_ body 33])).
Proof. intros H%Z.leb_le. unfold v2_header. by rewrite H. Qed.

(** A source address, a destination address of the same width, and the source port after them. *)
Lemma addrs_port a b n port more :
  0 <= a < 256 ^ Z.of_nat n -> in_u 16 port ->
  let body := (to_be_bytes n a ++ to_be_bytes n b) ++ to_be_bytes 2 port ++ more in
  from_be_bytes (take n body) = a /\ from_be_bytes [at_ body (n + n); at_ body (n + n + 1)] = port
  /\ Z.of_nat (n + n + 2) + len more = len body.
Proof.
  intros Ha Hp body. split; [|split].
  - unfold body. rewrite <- app_assoc, (take_app_length' _ _ n) by (by rewrite length_to_be_bytes).
    by apply from_to_be_bytes.
  - assert (Hl : (n + n)%nat = length (to_be_bytes n a ++ to_be_bytes n b))
      by (by rewrite length_app, !length_to_be_bytes).
    replace (n + n)%nat with (n + n + 0)%nat at 1 by lia. unfold body. rewrite Hl, !at_app_r, to_be_bytes_2.
    by apply from_be_bytes_2.
  - unfold body, len. rewrite !length_app, !length_to_be_bytes. lia.
Qed.

(** The body of the header, read back. *)
Lemma v2_header_body src dst fam addrs tlvs :
  addr_ok src -> v2_addrs src dst = Some (fam, addrs) ->
  v2_header 1 (Z.shiftr fam 4)
    (addrs ++ to_be_bytes 2 (sa_port src) ++ to_be_bytes 2 (sa_port dst) ++ tlvs) = HProxy src.
Proof.
  intros [Hi Hp]. unfold v2_addrs. destruct src as [[a|a] sp], dst as [[b|b] dp]; try done;
    cbn [sa_ip sa_port] in *; intros Heq; apply (inj Some) in Heq; apply pair_eq in Heq as [<- <-].
  - destruct (addrs_port a b 4 sp (to_be_bytes 2 dp ++ tlvs) Hi Hp) as (Ha & Hs & Hl).
    change (Z.shiftr 17 4) with 1. rewrite v2_header_v4.
    + cbn zeta in *. change (4 + 4 + 1)%nat with 9%nat in Hs. change (4 + 4)%nat with 8%nat in Hs.
      by rewrite Ha, Hs.
    + pose proof (len_nonneg tlvs). rewrite len_app in Hl. rewrite <- Hl. unfold len at 1.
      rewrite length_to_be_bytes. lia.
  - destruct (addrs_port a b 16 sp (to_be_bytes 2 dp ++ tlvs) Hi Hp) as (Ha & Hs & Hl).
    change (Z.shiftr 33 4) with 2. rewrite v2_header_v6.
    + cbn zeta in *. change (16 + 16 + 1)%nat with 33%nat in Hs. change (16 + 16)%nat with 32%nat in Hs.
      by rewrite Ha, Hs.
    + pose proof (len_nonneg tlvs). rewrite len_app in Hl. rewrite <- Hl. unfold len at 1.
      rewrite length_to_be_bytes. lia.
Qed.

(** A v2 header a balancer writes for a client is read back as that client, whatever follows it:
    IPv4 and IPv6, with any TLVs up to the 4096-byte limit. *)
Theorem v2_round_trip src dst tlvs h more :
  addr_ok src -> v2_encode src dst tlvs = Some h -> len h <= V2_MAX ->
  parse_buf (h ++ more) = Done (HProxy src) (length h).
Proof.
  intros Hs Henc Hmax. unfold v2_encode in Henc.
  destruct (v2_addrs src dst) as [[fam addrs]|] eqn:Ha; [|done].
  pose proof (v2_header_body src dst fam addrs tlvs Hs Ha) as Hbody.
  set (body := addrs ++ _) in *. apply (inj Some) in Henc. subst h.
  assert (Hlen : len body <= 4080).
  { revert Hmax. rewrite !len_app. unfold len at 1 2 3. rewrite length_to_be_bytes. simpl. unfold V2_MAX. lia. }
  pose proof (len_nonneg body) as Hnn.
  rewrite to_be_bytes_2. set (l1 := len body / 256 mod 256). set (l2 := len body mod 256).
  assert (Hfrom : from_be_bytes [l1; l2] = len body) by (apply from_be_bytes_2; unfold in_u; lia).
  set (pre := V2_SIG ++ [33; fam; l1; l2]).
  change (V2_SIG ++ [33; fam] ++ [l1; l2] ++ body) with (pre ++ body) in *. rewrite <- app_assoc.
  assert (Hag : agrees (pre ++ body ++ more) V2_SIG = true)
    by (rewrite agrees_app by (cbn; lia); unfold pre; by rewrite agrees_app).
  rewrite parse_buf_nonempty, Hag by done.
  destruct (Nat.ltb_spec (length (pre ++ body ++ more)) 16) as [Hlt|_]; [cbn in Hlt; lia|].
  unfold parse_v2. rewrite !at_app by (cbn; lia). 
  change (at_ pre 14) with l1. change (at_ pre 15) with l2. change (at_ pre 12) with 33.
  change (at_ pre 13) with fam. rewrite Hfrom.
  unfold V2_MAX, len in *. rewrite Nat2Z.id.
  destruct (Z.ltb_spec 4096 (Z.of_nat (16 + length body))); [lia|].
  destruct (Nat.ltb_spec (length (pre ++ body ++ more)) (16 + length body)) as [Hlt|_].
  { rewrite !length_app in Hlt. cbn in Hlt. lia. }
  change (Z.shiftr 33 4 =? 2) with true. change (Z.land 33 15) with 1. cbn [negb].
  rewrite app_assoc, take_app_length' by (rewrite length_app; done).
  rewrite drop_app_length' by done. by rewrite Hbody, length_app.
Qed.

Lemma v2_round_trip_witness :
  let src := mkSocketAddr (V4 3405803783) 51000 in
  let dst := mkSocketAddr (V4 167772161) 443 in
  exists h, v2_encode src dst [4; 0; 1; 9] = Some h
    /\ parse_buf (h ++ lit "GET") = Done (HProxy src) (length h).
Proof.
  eexists. split; [vm_compute; reflexivity|].
  apply (v2_round_trip (mkSocketAddr (V4 3405803783) 51000) (mkSocketAddr (V4 167772161) 443) [4; 0; 1; 9]);
    [repeat split; vm_compute; congruence | vm_compute; reflexivity | vm_compute; congruence].
Defined.

(** The v1 line for an IPv4 client. *)
Definition v1_encode (src dst sport dport : Z) : bytes :=
  V1_START ++ lit "TCP4" ++ [32] ++ show_ipv4 src ++ [32] ++ show_ipv4 dst ++ [32]
  ++ dec sport ++ [32] ++ dec dport ++ [13; 10].

(** Printed numbers and addresses hold no space, CR or byte past ASCII. *)
Definition plain (c : Z) : Prop := c <> 32 /\ c <> 13 /\ c < 128.

Lemma dec_plain z : Forall plain (dec z).
Proof.
  eapply Forall_impl; [apply dec_digits|]. intros c. unfold is_digit, plain. zcase; simpl; lia || done.
Qed.

Lemma show_ipv4_plain z : Forall plain (show_ipv4 z).
Proof.
  unfold show_ipv4. generalize (to_be_bytes 4 z). intros l. induction l as [|a l IH]; [constructor|].
  cbn [map join]. destruct (map dec l) as [|b m] eqn:E; [apply dec_plain|].
  apply Forall_app. split; [apply dec_plain|]. apply Forall_app. split; [|done].
  repeat constructor; done.
Qed.

Lemma plain_no_space s : Forall plain s -> 32 ∉ s.
Proof. intros H Hin. rewrite Forall_forall in H. by apply H in Hin as [? _]. Qed.

Definition no_cr (c : Z) : Prop := c <> 13 /\ c < 128.

Lemma plain_line s : Forall plain s -> Forall no_cr s.
Proof. intros H. eapply Forall_impl; [exact H|]. intros c [_ Hc]. exact Hc. Qed.

Lemma find_crlf_line s x : Forall no_cr s -> find_crlf (s ++ 13 :: 10 :: x) = Some (length s).
Proof.
  induction 1 as [|a s [Ha _] _ IH]; [done|]. cbn [app length].
  destruct s as [|b s]; cbn [app] in *; rewrite find_crlf_cons;
    (destruct (Z.eqb_spec a 13); [done|]); cbn [andb]; by rewrite IH.
Qed.

Lemma port_text_short z : in_u 16 z -> (length (dec z) <= 5)%nat.
Proof. intros [H1 H2]. apply length_dec. simpl in *. lia. Qed.

Lemma octet_text_short z : 0 <= z < 256 -> (length (dec z) <= 3)%nat.
Proof.
  intros Hz. apply octet_text_all in Hz. unfold octet_text_ok in Hz.
  destruct (Nat.ltb_spec 3 (length (dec z))); [done | lia].
Qed.

Lemma show_ipv4_short z : (length (show_ipv4 z) <= 15)%nat.
Proof.
  assert (H : forall x, (length (dec (x mod 256)) <= 3)%nat)
    by (intros x; apply octet_text_short, Z.mod_pos_bound; lia).
  change (show_ipv4 z) with (dec (z / 256 / 256 / 256 mod 256) ++ [46] ++ dec (z / 256 / 256 mod 256)
    ++ [46] ++ dec (z / 256 mod 256) ++ [46] ++ dec (z mod 256)).
  rewrite !length_app. pose proof (H (z / 256 / 256 / 256)). pose proof (H (z / 256 / 256)).
  pose proof (H (z / 256)). pose proof (H z). cbn [length]. lia.
Qed.

(** A v1 line a balancer writes for an IPv4 client is read back as that client, whatever follows
    it. *)
Theorem v1_round_trip src dst sport dport more :
  in_u 32 src -> in_u 16 sport -> in_u 16 dport ->
  let h := v1_encode src dst sport dport in
  parse_buf (h ++ more) = Done (HProxy (mkSocketAddr (V4 src) sport)) (length h).
Proof.
  intros Hs Hsp Hdp h.
  set (fields := lit "TCP4" ++ [32] ++ show_ipv4 src ++ [32] ++ show_ipv4 dst ++ [32] ++ dec sport
                 ++ [32] ++ dec dport).
  assert (Hh : h = V1_START ++ fields ++ [13; 10])
    by (unfold h, v1_encode, fields; by rewrite <- !app_assoc).
  clearbody h. subst h.
  assert (Hcr : Forall no_cr (V1_START ++ fields)).
  { unfold fields. repeat (apply Forall_app; split);
      try (apply plain_line, dec_plain || apply plain_line, show_ipv4_plain);
      apply (bool_decide_unpack _); vm_compute; exact I. }
  assert (Hsplit : split_on 32 fields
    = [lit "TCP4"; show_ipv4 src; show_ipv4 dst; dec sport; dec dport]).
  { unfold fields. cbn [app].
    rewrite (split_on_app 32 (lit "TCP4")) by (apply (bool_decide_unpack _); vm_compute; exact I).
    rewrite split_on_app by apply plain_no_space, show_ipv4_plain.
    rewrite split_on_app by apply plain_no_space, show_ipv4_plain.
    rewrite split_on_app by apply plain_no_space, dec_plain.
    by rewrite split_on_none by apply plain_no_space, dec_plain. }
  assert (Hshort : (length fields <= 49)%nat).
  { pose proof (show_ipv4_short src). pose proof (show_ipv4_short dst).
    pose proof (port_text_short sport Hsp). pose proof (port_text_short dport Hdp).
    unfold fields. rewrite !length_app. change (length (lit "TCP4")) with 4%nat. cbn [length]. lia. }
  replace ((V1_START ++ fields ++ [13; 10]) ++ more) with ((V1_START ++ fields) ++ 13 :: 10 :: more)
    by by rewrite <- !app_assoc.
  rewrite parse_buf_nonempty by done.
  assert (Hag : agrees ((V1_START ++ fields) ++ 13 :: 10 :: more) V1_START = true)
    by (rewrite <- app_assoc; by rewrite agrees_app).
  replace (agrees ((V1_START ++ fields) ++ 13 :: 10 :: more) V2_SIG) with false by done. rewrite Hag.
  destruct (Nat.ltb_spec (length ((V1_START ++ fields) ++ 13 :: 10 :: more)) (length V1_START)) as [Hlt|_];
    [rewrite !length_app in Hlt; lia|].
  unfold parse_v1. rewrite find_crlf_line by done.
  replace (V1_MAX <? Z.of_nat (length (V1_START ++ fields) + 2)) with false
    by (symmetry; apply Z.ltb_ge; rewrite length_app; change (length V1_START) with 6%nat; unfold V1_MAX; lia).
  rewrite take_app_length, drop_app_length, ascii_utf8_ok, Hsplit.
  - unfold v1_header. change (beq (lit "TCP4") (lit "UNKNOWN")) with false.
    change (beq (lit "TCP4") (lit "TCP4")) with true. cbn [orb].
    change (show_ipv4 src) with (show_ip (V4 src)). rewrite (parse_show_ipv4 src Hs), parse_uint_dec by done.
    cbn [is_ipv4 Bool.eqb]. f_equal. rewrite !length_app. cbn [length]. lia.
  - apply Forall_app in Hcr as [_ Hcr]. eapply Forall_impl; [exact Hcr|]. by intros c [_ ?].
Qed.

Lemma v1_round_trip_witness :
  parse_buf (v1_encode 3405803783 167772161 51000 443 ++ lit "GET")
  = Done (HProxy (mkSocketAddr (V4 3405803783) 51000)) (length (v1_encode 3405803783 167772161 51000 443)).
Proof.
  apply (v1_round_trip 3405803783 167772161 51000 443 (lit "GET")); vm_compute; split; congruence.
Defined.
