(* ===== verification/Health.v ===== *)
(** * Health: what a pool knows about one target ([TargetHealth] of [src/src/pool.rs])

    The lock-free record a pool keeps per target: the active checks' verdict and its streak, the passive
    counters, and the ejection window with its backoff.  Each field is an atomic of the source; each
    operation below is the source's sequence of loads and stores, run without interruption.  Times are the
    milliseconds of [now_ms]. *)

From S2P Require Import Prelude Text Units.

Record Event : Type := mkEvent { ev_at : Z; ev_ok : bool; ev_detail : bytes }.

Record TargetHealth : Type := mkHealth {
  passing : bool;
  streak : Z;
  connect_failures : Z;
  http_5xx : Z;
  in_flight : Z;
  in_a_row : Z;
  last_ejection_end : Z;
  last_ejection_ms : Z;
  ejected_until : Z;
  reason_code : Z;
  ejections_connect : Z;
  ejections_5xx : Z;
  next_check : Z;
  checking : bool;
  checks_passed : Z;
  checks_failed : Z;
  last_check : option Event;
  last_connect_error : option Event
}.

(** [store] on one field. *)
Definition set_passing (v : bool) (h : TargetHealth) : TargetHealth :=
  mkHealth v (streak h) (connect_failures h) (http_5xx h) (in_flight h) (in_a_row h) (last_ejection_end h) (last_ejection_ms h) (ejected_until h) (reason_code h) (ejections_connect h) (ejections_5xx h) (next_check h) (checking h) (checks_passed h) (checks_failed h) (last_check h) (last_connect_error h).
Definition set_streak (v : Z) (h : TargetHealth) : TargetHealth :=
  mkHealth (passing h) v (connect_failures h) (http_5xx h) (in_flight h) (in_a_row h) (last_ejection_end h) (last_ejection_ms h) (ejected_until h) (reason_code h) (ejections_connect h) (ejections_5xx h) (next_check h) (checking h) (checks_passed h) (checks_failed h) (last_check h) (last_connect_error h).
Definition set_connect_failures (v : Z) (h : TargetHealth) : TargetHealth :=
  mkHealth (passing h) (streak h) v (http_5xx h) (in_flight h) (in_a_row h) (last_ejection_end h) (last_ejection_ms h) (ejected_until h) (reason_code h) (ejections_connect h) (ejections_5xx h) (next_check h) (checking h) (checks_passed h) (checks_failed h) (last_check h) (last_connect_error h).
Definition set_http_5xx (v : Z) (h : TargetHealth) : TargetHealth :=
  mkHealth (passing h) (streak h) (connect_failures h) v (in_flight h) (in_a_row h) (last_ejection_end h) (last_ejection_ms h) (ejected_until h) (reason_code h) (ejections_connect h) (ejections_5xx h) (next_check h) (checking h) (checks_passed h) (checks_failed h) (last_check h) (last_connect_error h).
Definition set_in_flight (v : Z) (h : TargetHealth) : TargetHealth :=
  mkHealth (passing h) (streak h) (connect_failures h) (http_5xx h) v (in_a_row h) (last_ejection_end h) (last_ejection_ms h) (ejected_until h) (reason_code h) (ejections_connect h) (ejections_5xx h) (next_check h) (checking h) (checks_passed h) (checks_failed h) (last_check h) (last_connect_error h).
Definition set_in_a_row (v : Z) (h : TargetHealth) : TargetHealth :=
  mkHealth (passing h) (streak h) (connect_failures h) (http_5xx h) (in_flight h) v (last_ejection_end h) (last_ejection_ms h) (ejected_until h) (reason_code h) (ejections_connect h) (ejections_5xx h) (next_check h) (checking h) (checks_passed h) (checks_failed h) (last_check h) (last_connect_error h).
Definition set_last_ejection_end (v : Z) (h : TargetHealth) : TargetHealth :=
  mkHealth (passing h) (streak h) (connect_failures h) (http_5xx h) (in_flight h) (in_a_row h) v (last_ejection_ms h) (ejected_until h) (reason_code h) (ejections_connect h) (ejections_5xx h) (next_check h) (checking h) (checks_passed h) (checks_failed h) (last_check h) (last_connect_error h).
Definition set_last_ejection_ms (v : Z) (h : TargetHealth) : TargetHealth :=
  mkHealth (passing h) (streak h) (connect_failures h) (http_5xx h) (in_flight h) (in_a_row h) (last_ejection_end h) v (ejected_until h) (reason_code h) (ejections_connect h) (ejections_5xx h) (next_check h) (checking h) (checks_passed h) (checks_failed h) (last_check h) (last_connect_error h).
Definition set_ejected_until (v : Z) (h : TargetHealth) : TargetHealth :=
  mkHealth (passing h) (streak h) (connect_failures h) (http_5xx h) (in_flight h) (in_a_row h) (last_ejection_end h) (last_ejection_ms h) v (reason_code h) (ejections_connect h) (ejections_5xx h) (next_check h) (checking h) (checks_passed h) (checks_failed h) (last_check h) (last_connect_error h).
Definition set_reason_code (v : Z) (h : TargetHealth) : TargetHealth :=
  mkHealth (passing h) (streak h) (connect_failures h) (http_5xx h) (in_flight h) (in_a_row h) (last_ejection_end h) (last_ejection_ms h) (ejected_until h) v (ejections_connect h) (ejections_5xx h) (next_check h) (checking h) (checks_passed h) (checks_failed h) (last_check h) (last_connect_error h).
Definition set_ejections_connect (v : Z) (h : TargetHealth) : TargetHealth :=
  mkHealth (passing h) (streak h) (connect_failures h) (http_5xx h) (in_flight h) (in_a_row h) (last_ejection_end h) (last_ejection_ms h) (ejected_until h) (reason_code h) v (ejections_5xx h) (next_check h) (checking h) (checks_passed h) (checks_failed h) (last_check h) (last_connect_error h).
Definition set_ejections_5xx (v : Z) (h : TargetHealth) : TargetHealth :=
  mkHealth (passing h) (streak h) (connect_failures h) (http_5xx h) (in_flight h) (in_a_row h) (last_ejection_end h) (last_ejection_ms h) (ejected_until h) (reason_code h) (ejections_connect h) v (next_check h) (checking h) (checks_passed h) (checks_failed h) (last_check h) (last_connect_error h).
Definition set_next_check (v : Z) (h : TargetHealth) : TargetHealth :=
  mkHealth (passing h) (streak h) (connect_failures h) (http_5xx h) (in_flight h) (in_a_row h) (last_ejection_end h) (last_ejection_ms h) (ejected_until h) (reason_code h) (ejections_connect h) (ejections_5xx h) v (checking h) (checks_passed h) (checks_failed h) (last_check h) (last_connect_error h).
Definition set_checking (v : bool) (h : TargetHealth) : TargetHealth :=
  mkHealth (passing h) (streak h) (connect_failures h) (http_5xx h) (in_flight h) (in_a_row h) (last_ejection_end h) (last_ejection_ms h) (ejected_until h) (reason_code h) (ejections_connect h) (ejections_5xx h) (next_check h) v (checks_passed h) (checks_failed h) (last_check h) (last_connect_error h).
Definition set_checks_passed (v : Z) (h : TargetHealth) : TargetHealth :=
  mkHealth (passing h) (streak h) (connect_failures h) (http_5xx h) (in_flight h) (in_a_row h) (last_ejection_end h) (last_ejection_ms h) (ejected_until h) (reason_code h) (ejections_connect h) (ejections_5xx h) (next_check h) (checking h) v (checks_failed h) (last_check h) (last_connect_error h).
Definition set_checks_failed (v : Z) (h : TargetHealth) : TargetHealth :=
  mkHealth (passing h) (streak h) (connect_failures h) (http_5xx h) (in_flight h) (in_a_row h) (last_ejection_end h) (last_ejection_ms h) (ejected_until h) (reason_code h) (ejections_connect h) (ejections_5xx h) (next_check h) (checking h) (checks_passed h) v (last_check h) (last_connect_error h).
Definition set_last_check (v : option Event) (h : TargetHealth) : TargetHealth :=
  mkHealth (passing h) (streak h) (connect_failures h) (http_5xx h) (in_flight h) (in_a_row h) (last_ejection_end h) (last_ejection_ms h) (ejected_until h) (reason_code h) (ejections_connect h) (ejections_5xx h) (next_check h) (checking h) (checks_passed h) (checks_failed h) v (last_connect_error h).
Definition set_last_connect_error (v : option Event) (h : TargetHealth) : TargetHealth :=
  mkHealth (passing h) (streak h) (connect_failures h) (http_5xx h) (in_flight h) (in_a_row h) (last_ejection_end h) (last_ejection_ms h) (ejected_until h) (reason_code h) (ejections_connect h) (ejections_5xx h) (next_check h) (checking h) (checks_passed h) (checks_failed h) (last_check h) v.

Definition health_default : TargetHealth :=
  mkHealth true 0 0 0 0 0 0 0 0 0 0 0 0 false 0 0 None None.

(** [Duration::as_millis() as u64], and a [Duration]'s length in milliseconds. *)
Definition millis (d : Duration) : Z := wrap 64 (d / 1000000).

Inductive Ejection : Type := ConnectError | Http5xx.

Definition reason_code_of (e : Ejection) : Z := match e with ConnectError => 1 | Http5xx => 2 end.

Definition ejection_label (e : Ejection) : bytes :=
  match e with ConnectError => lit "connect_error" | Http5xx => lit "http_5xx" end.

Definition in_rotation (h : TargetHealth) (now : Z) : bool := passing h && (ejected_until h <=? now).

Definition ejections (h : TargetHealth) (e : Ejection) : Z :=
  match e with ConnectError => ejections_connect h | Http5xx => ejections_5xx h end.

Definition ejected_reason (h : TargetHealth) : option Ejection :=
  if reason_code h =? 1 then Some ConnectError else if reason_code h =? 2 then Some Http5xx else None.

Definition connected (h : TargetHealth) : TargetHealth :=
  if negb (connect_failures h =? 0) then set_connect_failures 0 h else h.

Definition answered_ok (h : TargetHealth) : TargetHealth :=
  let h := if negb (http_5xx h =? 0) then set_http_5xx 0 h else h in
  if negb (ejected_until h =? 0) then set_ejected_until 0 h else h.

Definition ejections_in_a_row (h : TargetHealth) (now : Z) (max : Duration) : Z :=
  let stop := last_ejection_end h in
  if (stop =? 0) || (sat_add 64 stop (millis max) <=? now) then 0 else in_a_row h.

(** Returns how many ejections in a row this makes, and its length in milliseconds. *)
Definition eject (h : TargetHealth) (now : Z) (base max : Duration) (reason : Ejection)
    : Z * Z * TargetHealth :=
  let n := if ejections_in_a_row h now max =? 0 then 1 else wrap 32 (in_a_row h + 1) in
  let h := set_in_a_row n h in
  let length := Z.min (sat_mul 64 (millis base) n) (millis max) in
  let h := set_reason_code (reason_code_of reason) h in
  let h := match reason with
           | ConnectError => set_ejections_connect (wrap 64 (ejections_connect h + 1)) h
           | Http5xx => set_ejections_5xx (wrap 64 (ejections_5xx h + 1)) h
           end in
  let h := set_last_ejection_ms length h in
  let h := set_last_ejection_end (wrap 64 (now + length)) h in
  let h := set_ejected_until (wrap 64 (now + length)) h in
  (n, length, h).

Definition health_connect_failed (h : TargetHealth) (now : Z) (eject_after : Z) (base max : Duration)
    : option (Z * Z) * TargetHealth :=
  let n := wrap 32 (connect_failures h + 1) in
  let h := set_connect_failures n h in
  if n <? eject_after then (None, h)
  else
    let h := set_connect_failures 0 h in
    let '(k, length, h) := eject h now base max ConnectError in (Some (k, length), h).

(** [claim_check]: run it now, or when it is due, or one is already running. *)
Inductive Claim : Type := Run | DueAt (t : Z) | Busy.

Definition claim_check (h : TargetHealth) (now : Z) (interval : Duration) : Claim * TargetHealth :=
  if now <? next_check h then (DueAt (next_check h), h)
  else if checking h then (Busy, set_checking true h)
  else (Run, set_next_check (wrap 64 (now + millis interval)) (set_checking true h)).

Definition checked (h : TargetHealth) (passed : bool) (healthy_after unhealthy_after : Z)
    : option bool * TargetHealth :=
  let h := if passed then set_checks_passed (wrap 64 (checks_passed h + 1)) h
           else set_checks_failed (wrap 64 (checks_failed h + 1)) h in
  if Bool.eqb (passing h) passed then (None, set_streak 0 h)
  else
    let n := wrap 32 (streak h + 1) in
    let h := set_streak n h in
    let needed := if passed then healthy_after else unhealthy_after in
    if n <? needed then (None, h)
    else (Some passed, set_passing passed (set_streak 0 h)).

(** The end of [check]: the result is recorded, the verdict updated, and the claim given back. *)
Definition check_done (h : TargetHealth) (at_secs : Z) (ok : bool) (detail : bytes)
    (healthy_after unhealthy_after : Z) : option bool * TargetHealth :=
  let h := set_last_check (Some (mkEvent at_secs ok detail)) h in
  let '(verdict, h) := checked h ok healthy_after unhealthy_after in
  (verdict, set_checking false h).

(** ** The verdict of the active checks *)

Section Verdict.
Variables healthy_after unhealthy_after : Z.
Hypothesis Hha : 0 < healthy_after < 2 ^ 32.
Hypothesis Hua : 0 < unhealthy_after < 2 ^ 32.

(** A sequence of check results, oldest first. *)
Definition checks_run (h : TargetHealth) (rs : list bool) : TargetHealth :=
  foldl (fun h r => (checked h r healthy_after unhealthy_after).2) h rs.

(** How many results that disagree with verdict [v] it takes to change it. *)
Definition needed (v : bool) : Z := if v then unhealthy_after else healthy_after.

(** [n] results of [r] in a row, somewhere in [rs]. *)
Definition has_run (n : Z) (r : bool) (rs : list bool) : Prop :=
  exists l1 l2, rs = l1 ++ replicate (Z.to_nat n) r ++ l2.

(** The results at the end of [rs] that are [r]. *)
Fixpoint trailing (r : bool) (rs : list bool) (acc : Z) : Z :=
  match rs with
  | [] => acc
  | x :: rs => trailing r rs (if Bool.eqb x r then acc + 1 else 0)
  end.

Lemma trailing_app r rs acc x :
  trailing r (rs ++ [x]) acc = if Bool.eqb x r then trailing r rs acc + 1 else 0.
Proof using. revert acc. induction rs as [|y rs IH]; intros acc; simpl; [done | apply IH]. Qed.

Lemma trailing_suffix r rs : exists l, rs = l ++ replicate (Z.to_nat (trailing r rs 0)) r /\ 0 <= trailing r rs 0.
Proof using.
  induction rs as [|x rs IH] using rev_ind; [by exists []|].
  rewrite trailing_app. destruct (Bool.eqb x r) eqn:E.
  - apply Bool.eqb_prop in E as ->. destruct IH as (l & Hl & H0). exists l.
    rewrite Z2Nat.inj_add, Nat.add_1_r, replicate_S_end by lia. split; [|lia].
    rewrite app_assoc, <- Hl. done.
  - exists (rs ++ [x]). split; [by rewrite app_nil_r | done].
Qed.

Lemma has_run_prefix n r rs x : has_run n r rs -> has_run n r (rs ++ [x]).
Proof using. intros (l1 & l2 & ->). exists l1, (l2 ++ [x]). by rewrite <- !app_assoc. Qed.

Lemma trailing_has_run n r rs : 0 <= n <= trailing r rs 0 -> has_run n r rs.
Proof using.
  intros Hn. destruct (trailing_suffix r rs) as (l & Hl & H0).
  exists (l ++ replicate (Z.to_nat (trailing r rs 0) - Z.to_nat n) r), [].
  rewrite app_nil_r, <- app_assoc, <- replicate_add, Hl at 1. do 2 f_equal. lia.
Qed.

(** While no long enough run of disagreement has come, the verdict stands and the streak counts the
    disagreement at the end. *)
Lemma checks_run_steady h v rs :
  passing h = v -> streak h = 0 -> ~ has_run (needed v) (negb v) rs ->
  passing (checks_run h rs) = v /\ streak (checks_run h rs) = trailing (negb v) rs 0
  /\ trailing (negb v) rs 0 < needed v.
Proof using Hha Hua.
  intros Hp Hs. assert (Hn : 0 < needed v < 2 ^ 32) by (by destruct v).
  induction rs as [|x rs IH] using rev_ind; intros Hno; [split; [done | split; [done | simpl; lia]]|].
  destruct IH as (IHp & IHs & IHt); [intros H; by apply Hno, has_run_prefix|].
  destruct (trailing_suffix (negb v) rs) as (_ & _ & H0).
  unfold checks_run in *. rewrite foldl_app. cbn [foldl]. set (h' := foldl _ h rs) in *.
  rewrite trailing_app. unfold checked.
  assert (Hp' : passing (if x then set_checks_passed (wrap 64 (checks_passed h' + 1)) h'
                         else set_checks_failed (wrap 64 (checks_failed h' + 1)) h') = v)
    by (by destruct x).
  rewrite Hp'. destruct (Bool.eqb v x) eqn:E.
  - apply Bool.eqb_prop in E as <-. cbn. destruct v; cbn; split; try done; split; try done; lia.
  - assert (x = negb v) as -> by (by destruct v, x). rewrite Bool.eqb_reflx.
    replace (streak _) with (trailing (negb v) rs 0) by (by destruct (negb v)).
    assert (Hlt : trailing (negb v) rs 0 + 1 < needed v).
    { destruct (Z.lt_ge_cases (trailing (negb v) rs 0 + 1) (needed v)) as [|Hge]; [done|].
      exfalso. apply Hno, trailing_has_run. rewrite trailing_app, Bool.eqb_reflx. lia. }
    rewrite wrap_small by (unfold in_u; lia).
    replace (if negb v then healthy_after else unhealthy_after) with (needed v) by (by destruct v).
    destruct (Z.ltb_spec (trailing (negb v) rs 0 + 1) (needed v)); [|lia].
    split; [destruct v; exact IHp | split; [by destruct v | done]].
Qed.

Lemma trailing_replicate r l n acc : Z.of_nat n <= trailing r (l ++ replicate n r) acc \/ acc < 0.
Proof using.
  destruct (Z.lt_ge_cases acc 0) as [|Ha]; [by right | left].
  induction n as [|n IH].
  - rewrite app_nil_r. revert acc Ha. induction l as [|x l IH]; intros acc Ha; simpl; [lia|].
    apply IH. case_match; lia.
  - rewrite replicate_S_end, app_assoc, trailing_app, Bool.eqb_reflx. lia.
Qed.

(** A run that was not there before ends the sequence. *)
Lemma has_run_new n r rs x :
  has_run n r (rs ++ [x]) -> ~ has_run n r rs -> n <= trailing r (rs ++ [x]) 0.
Proof using.
  intros (l1 & l2 & Heq) Hno. destruct l2 as [|y l2 _] using rev_ind.
  - rewrite Heq, app_nil_r. destruct (trailing_replicate r l1 (Z.to_nat n) 0); lia.
  - exfalso. apply Hno. exists l1, l2. rewrite !app_assoc in Heq. apply app_inj_tail in Heq as [-> _].
    by rewrite app_assoc.
Qed.

Lemma checks_run_app h a b : checks_run h (a ++ b) = checks_run (checks_run h a) b.
Proof using. unfold checks_run. by rewrite foldl_app. Qed.
End Verdict.

(** The verdict of the active checks has hysteresis: from a settled verdict it changes on no
    sequence of results without [unhealthy_after] failures in a row ([healthy_after] passes in a row, to
    come back), and it changes exactly when the first such run is complete. *)
Theorem verdict_hysteresis ha ua h v rs x :
  0 < ha < 2 ^ 32 -> 0 < ua < 2 ^ 32 -> passing h = v -> streak h = 0 ->
  ~ has_run (needed ha ua v) (negb v) rs ->
  passing (checks_run ha ua h rs) = v
  /\ (has_run (needed ha ua v) (negb v) (rs ++ [x]) -> passing (checks_run ha ua h (rs ++ [x])) = negb v).
Proof.
  intros Hha Hua Hp Hs Hno.
  destruct (checks_run_steady ha ua Hha Hua h v rs Hp Hs Hno) as (H1 & Hst & Hlt). split; [done|].
  intros Hrun. pose proof (has_run_new _ _ _ _ Hrun Hno) as Hge. rewrite trailing_app in Hge.
  assert (Hn : 0 < needed ha ua v < 2 ^ 32) by (by destruct v).
  destruct (Bool.eqb x (negb v)) eqn:E; [|lia]. apply Bool.eqb_prop in E as ->.
  rewrite checks_run_app. cbn [checks_run foldl]. set (h' := checks_run ha ua h rs) in *.
  unfold checked.
  assert (Hst' : streak (if negb v then set_checks_passed (wrap 64 (checks_passed h' + 1)) h'
                         else set_checks_failed (wrap 64 (checks_failed h' + 1)) h') = needed ha ua v - 1)
    by (transitivity (streak h'); [by destruct v | lia]).
  assert (Hp' : passing (if negb v then set_checks_passed (wrap 64 (checks_passed h' + 1)) h'
                         else set_checks_failed (wrap 64 (checks_failed h' + 1)) h') = v)
    by (destruct v; exact H1).
  rewrite Hp', Hst', Bool.eqb_negb2, wrap_small by (unfold in_u; lia).
  replace (if negb v then ha else ua) with (needed ha ua v) by (by destruct v).
  destruct (Z.ltb_spec (needed ha ua v - 1 + 1) (needed ha ua v)); [lia | done].
Qed.

Lemma verdict_hysteresis_witness :
  passing (checks_run 2 3 health_default [false; false; true; false; false]) = true
  /\ (has_run (needed 2 3 true) (negb true) ([false; false; true; false; false] ++ [false]) ->
      passing (checks_run 2 3 health_default ([false; false; true; false; false] ++ [false])) = negb true).
Proof.
  apply (verdict_hysteresis 2 3 health_default true [false; false; true; false; false] false);
    [lia | lia | reflexivity | reflexivity |].
  intros (l1 & l2 & H).
  destruct l1 as [|a [|b [|c [|d [|e l1]]]]]; simpl in H; try discriminate H;
    apply (f_equal length) in H; simpl in H; rewrite ?length_app in H; simpl in H; lia.
Defined.

(** ** Ejection *)

(** [base], [max] as [from_route] lets them in: a positive base no longer than [max]. *)
Definition eject_cfg_ok (base max : Duration) : Prop :=
  0 < millis base <= millis max /\ millis max < 2 ^ 62.

(** An ejected target is out of rotation for exactly the length [eject] returns, which is [base]
    times its ejections in a row, at least [base] and at most [max]; a further ejection within [max] of
    the last one's end counts one more in a row and is never shorter. *)
Theorem eject_backoff h now base max reason :
  eject_cfg_ok base max -> 0 < now < 2 ^ 62 -> 0 <= in_a_row h < 2 ^ 32 - 2 ->
  let '(n, len1, h1) := eject h now base max reason in
  len1 = Z.min (millis base * n) (millis max) /\ millis base <= len1 <= millis max
  /\ (forall t, in_rotation h1 t = passing h && (now + len1 <=? t))
  /\ ejected_reason h1 = Some reason /\ ejections h1 reason = wrap 64 (ejections h reason + 1)
  /\ forall now2 reason2, now + len1 <= now2 < now + len1 + millis max ->
     let '(n2, len2, _) := eject h1 now2 base max reason2 in n2 = n + 1 /\ len1 <= len2.
Proof.
  intros [Hb Hm] Hnow Hr. unfold eject at 1.
  set (n := if ejections_in_a_row h now max =? 0 then 1 else wrap 32 (in_a_row h + 1)).
  assert (Hn : 1 <= n < 2 ^ 32 - 1).
  { unfold n. case_match; [lia|]. rewrite wrap_small by (unfold in_u; lia).
    assert (in_a_row h <> 0); [|lia]. intros H0. apply Z.eqb_neq in H.
    apply H. unfold ejections_in_a_row. by case_match. }
  assert (Hlen : Z.min (sat_mul 64 (millis base) n) (millis max) = Z.min (millis base * n) (millis max))
    by (unfold sat_mul; lia).
  cbn zeta beta iota. rewrite Hlen. set (len1 := Z.min (millis base * n) (millis max)).
  assert (Hl : millis base <= len1 <= millis max) by (unfold len1; nia).
  assert (Hw : wrap 64 (now + len1) = now + len1) by (apply wrap_small; unfold in_u; lia).
  rewrite !Hw. split; [done|]. split; [done|]. split; [by destruct reason|].
  split; [by destruct reason|]. split; [by destruct reason|].
  intros now2 reason2 H2. unfold eject, ejections_in_a_row.
  set (h1 := set_ejected_until _ _).
  assert (He : last_ejection_end h1 = now + len1) by (by destruct reason).
  assert (Hi : in_a_row h1 = n) by (by destruct reason). rewrite He, Hi.
  replace (now + len1 =? 0) with false by (symmetry; apply Z.eqb_neq; lia).
  replace (sat_add 64 (now + len1) (millis max) <=? now2) with false
    by (symmetry; apply Z.leb_gt; unfold sat_add; lia).
  cbn [orb]. replace (n =? 0) with false by (symmetry; apply Z.eqb_neq; lia).
  rewrite wrap_small by (unfold in_u; lia). split; [done|].
  unfold len1, sat_mul. nia.
Qed.

Lemma eject_backoff_witness :
  let '(n, len1, h1) := eject health_default 1000 (from_secs 10) (from_secs 300) Http5xx in
  len1 = Z.min (millis (from_secs 10) * n) (millis (from_secs 300))
  /\ millis (from_secs 10) <= len1 <= millis (from_secs 300)
  /\ (forall t, in_rotation h1 t = passing health_default && (1000 + len1 <=? t))
  /\ ejected_reason h1 = Some Http5xx /\ ejections h1 Http5xx = wrap 64 (ejections health_default Http5xx + 1)
  /\ forall now2 reason2, 1000 + len1 <= now2 < 1000 + len1 + millis (from_secs 300) ->
     let '(n2, len2, _) := eject h1 now2 (from_secs 10) (from_secs 300) reason2 in n2 = n + 1 /\ len1 <= len2.
Proof.
  apply (eject_backoff health_default 1000 (from_secs 10) (from_secs 300) Http5xx);
    vm_compute; repeat split; congruence.
Defined.
