(* ===== verification/Http.v ===== *)
(** * Http: the header map the components read and write

    [http::HeaderMap] as the ordered list of its entries; names are lower case, as that type keeps them.
    Only what the sources observe of it is modelled: the values of a name in order, insertion, appending,
    removal. *)

From S2P Require Import Prelude Text.

Definition Headers : Type := list (bytes * bytes).

Definition named (n : bytes) (e : bytes * bytes) : bool := beq e.1 n.

(** [get_all], [get], [contains_key]. *)
Definition get_all (h : Headers) (n : bytes) : list bytes := map snd (List.filter (named n) h).
Definition get (h : Headers) (n : bytes) : option bytes := head (get_all h n).
Definition contains_key (h : Headers) (n : bytes) : bool := existsb (named n) h.

(** [remove] drops every value; [insert] replaces them all by one; [append] adds one. *)
Definition remove (h : Headers) (n : bytes) : Headers := List.filter (fun e => negb (named n e)) h.
Definition append (h : Headers) (n v : bytes) : Headers := h ++ [(n, v)].
Definition insert_h (h : Headers) (n v : bytes) : Headers := append (remove h n) n v.

Lemma named_true n e : named n e = true <-> e.1 = n.
Proof. apply beq_true. Qed.

Lemma get_all_app h k n : get_all (h ++ k) n = get_all h n ++ get_all k n.
Proof. unfold get_all. by rewrite List.filter_app, map_app. Qed.

Lemma get_all_remove h n m : get_all (remove h n) m = if decide (m = n) then [] else get_all h m.
Proof.
  unfold get_all, remove. induction h as [|e h IH]; simpl; [by case_match|].
  unfold named at 2. destruct (decide (m = n)) as [->|Hne].
  - destruct (beq e.1 n) eqn:E; simpl; [done|]. unfold named. by rewrite E.
  - destruct (beq e.1 n) eqn:E; simpl.
    + rewrite IH. unfold named at 2. apply beq_true in E as ->.
      destruct (beq n m) eqn:E2; [apply beq_true in E2; congruence | done].
    + destruct (named m e); simpl; congruence.
Qed.

Lemma get_all_insert h n v m : get_all (insert_h h n v) m = if decide (m = n) then [v] else get_all h m.
Proof.
  unfold insert_h, append. rewrite get_all_app, get_all_remove. unfold get_all. simpl.
  unfold named. simpl. destruct (decide (m = n)) as [->|Hne]; [by rewrite beq_refl|].
  destruct (beq n m) eqn:E; [apply beq_true in E; congruence|]. by rewrite app_nil_r.
Qed.

Lemma get_all_append h n v m : get_all (append h n v) m = get_all h m ++ (if decide (m = n) then [v] else []).
Proof.
  unfold append. rewrite get_all_app. f_equal. unfold get_all. cbn. unfold named. cbn.
  destruct (decide (m = n)) as [->|Hne]; [by rewrite beq_refl|].
  destruct (beq n m) eqn:E; [by apply beq_true in E|done].
Qed.
