(* ===== verification/Pool.v ===== *)
(** * Pool: which upstream takes a request, and what its answers do ([src/src/pool.rs])

    A pool's targets share health records through [Arc]s: a target holds the location of its record in a
    heap, so the sharing that a reload can introduce is in the model.  [order_for] ranks the targets,
    [answered] and [connect_failed] feed the passive health, and the sticky cookie keeps a client on its
    target. *)

From S2P Require Import Prelude Text Net Units Float Http Health.

Inductive Balance : Type := Priority | RoundRobin | LeastConn | Hash.

#[global] Instance Balance_eq_dec : EqDecision Balance.
Proof. solve_decision. Defined.

Definition balance_label (b : Balance) : bytes :=
  match b with
  | Priority => lit "priority" | RoundRobin => lit "round_robin"
  | LeastConn => lit "least_conn" | Hash => lit "hash"
  end.

Record Target : Type := mkTarget {
  base : bytes; t_label : bytes; backup : bool; weight : Z; id : Z;
  health : nat;                                         (** the location of its [TargetHealth] *)
  check_host : option bytes
}.

#[global] Instance Target_eq_dec : EqDecision Target.
Proof. solve_decision. Defined.

Inductive HashOn : Type :=
| ClientIp | Path | OnHeader (name : bytes) | OnCookie (name : bytes) | OnQuery (name : bytes).

Record Sticky : Type := mkSticky {
  s_name : bytes; s_path : bytes; s_max_age : option Duration; s_strip : bool
}.

Record Affinity : Type := mkAffinity { key : option Z; stuck : option Z }.

Inductive CheckKind : Type := CheckHttp | CheckTcp.

Inductive BodyMatch : Type := BodyText (t : bytes) | BodyRegex (pattern : bytes).

Record HealthCheck : Type := mkHealthCheck {
  hc_kind : CheckKind; hc_path : bytes; hc_interval : Duration; hc_timeout : Duration;
  healthy_after : Z; unhealthy_after : Z; expect_status : bytes; expect : list (Z * Z);
  expect_body : bytes; expect_body_regex : bytes; hc_body : option BodyMatch;
  hc_method : bytes; hc_headers : Headers; header_names : list bytes;
  hc_port : option Z; hc_scheme : option bytes
}.

Record Pool : Type := mkPool {
  route : bytes; targets : list Target; managed : bool; balance : Balance;
  health_check : option HealthCheck; eject_after : Z; eject_for : Duration;
  eject_for_max : Duration; eject_after_5xx : Z; hash_on : option HashOn; sticky : option Sticky
}.

(** The health records, by location. *)
Abbreviation heap := (list TargetHealth).

Definition health_of (hp : heap) (t : Target) : TargetHealth := default health_default (hp !! health t).

Definition update_health (f : TargetHealth -> TargetHealth) (t : Target) (hp : heap) : heap :=
  alter f (health t) hp.

(** ** Hashing *)

Definition mix (h : Z) : Z :=
  let h := Z.lxor h (Z.shiftr h 33) in
  let h := wrap 64 (h * 18397679294719823053) in
  let h := Z.lxor h (Z.shiftr h 33) in
  let h := wrap 64 (h * 14181476777654086739) in
  Z.lxor h (Z.shiftr h 33).

Definition hash64 (s : bytes) : Z :=
  mix (foldl (fun h b => wrap 64 (Z.lxor h b * 1099511628211)) 14695981039346656037 s).

(** [f64::to_bits]. *)
Definition to_bits (x : f64) : Z :=
  match x with
  | SpecFloat.S754_zero s => if s then 2 ^ 63 else 0
  | SpecFloat.S754_infinity s => (if s then 2 ^ 63 else 0) + 2047 * 2 ^ 52
  | SpecFloat.S754_nan => 4095 * 2 ^ 51
  | SpecFloat.S754_finite s m e =>
      (if s then 2 ^ 63 else 0)
      + (if Zpos m <? 2 ^ 52 then Zpos m else (e + 1075) * 2 ^ 52 + (Zpos m - 2 ^ 52))
  end.

Definition f64_opp (x : f64) : f64 := SpecFloat.SFopp x.

(** [f64::ln] is the platform's; its precision is unspecified. *)
Definition score (ln : f64 -> f64) (key : Z) (t : Target) : f64 :=
  let u := f64_div (f64_of_Z (Z.shiftr (mix (Z.lxor key (id t))) 12)) (f64_of_Z (2 ^ 52)) in
  f64_div (f64_opp (f64_of_Z (weight t))) (ln u).

(** ** What a request brings to the pick *)

(** [is_cookie_name]: an RFC 6265 token, visible ASCII without separators. *)
Definition is_cookie_name (name : bytes) : bool :=
  negb (beq name [])
  && forallb (fun b => is_graphic b
       && negb (existsb (Z.eqb b) [40; 41; 60; 62; 64; 44; 59; 58; 92; 34; 47; 91; 93; 63; 61; 123; 125])) name.


Section Affinity.
(** [HeaderValue::to_str] accepts this value. *)
Variable to_str_ok : bytes -> bool.

Definition cookie_value (name pair : bytes) : option bytes :=
  match split_once 61 (trim pair) with
  | Some (n, v) => if beq n name && negb (beq v []) then Some v else None
  | None => None
  end.

Definition cookies (headers : Headers) (name : bytes) : list bytes :=
  omap (cookie_value name)
    (concat (map (split_on 59) (List.filter to_str_ok (get_all headers (lit "cookie"))))).

Definition query_param (query name : bytes) : option bytes :=
  match List.find (fun '(n, _) => beq n name) (omap (split_once 61) (split_on 38 query)) with
  | Some (_, v) => if beq v [] then None else Some v
  | None => None
  end.

(** [u64::from_str_radix(v, 16).ok()]. *)
Fixpoint hex_go (acc : Z) (s : bytes) : option Z :=
  match s with
  | [] => Some acc
  | c :: s =>
      match hex_val c with
      | Some d => let acc := acc * 16 + d in if acc <? 2 ^ 64 then hex_go acc s else None
      | None => None
      end
  end.

Definition parse_hex_u64 (s : bytes) : option Z :=
  let ds := match s with c :: r => if c =? 43 then r else s | [] => s end in
  match ds with [] => None | _ => hex_go 0 ds end.

Definition octets (ip : IpAddr) : bytes :=
  match ip with V4 z => to_be_bytes 4 z | V6 z => to_be_bytes 16 z end.

Definition affinity (p : Pool) (headers : Headers) (path : bytes) (query : option bytes)
    (client : IpAddr) : Affinity :=
  let key :=
    match hash_on p with
    | None => None
    | Some ClientIp => Some (hash64 (octets (to_canonical client)))
    | Some Path => Some (hash64 path)
    | Some (OnQuery name) =>
        match query with
        | Some q => match query_param q name with Some v => Some (hash64 v) | None => None end
        | None => None
        end
    | Some (OnHeader name) =>
        match get headers name with
        | Some v => if beq v [] then None else Some (hash64 v)
        | None => None
        end
    | Some (OnCookie name) =>
        match head (cookies headers name) with Some v => Some (hash64 v) | None => None end
    end in
  let stuck :=
    match sticky p with
    | None => None
    | Some s => List.find (fun i => existsb (fun t => id t =? i) (targets p))
                  (omap parse_hex_u64 (cookies headers (s_name s)))
    end in
  mkAffinity key stuck.
End Affinity.

(** ** The order a request tries the targets in *)

(** [(0..)..enumerate().filter(..)]: the indices of the elements that satisfy [f]. *)
Definition indices {A} (f : A -> bool) (l : list A) : list nat :=
  map fst (List.filter (fun '(_, x) => f x) (zip (seq 0 (length l)) l)).

Definition min_Z (l : list Z) : option Z :=
  match l with [] => None | x :: l => Some (fold_left Z.min l x) end.

(** One pass of [weighted_turn]'s loop per distinct weight: [length tier] passes are enough. *)
Fixpoint weighted_go (ws : list Z) (fuel : nat) (k done : Z) : option nat :=
  match fuel with
  | O => None
  | S fuel =>
      let taking := List.filter (fun w => done <? w) ws in
      let count := Z.of_nat (length taking) in
      match min_Z taking with
      | None => None
      | Some next =>
          let span := (next - done) * count in
          if k <? span then indices (fun w => done <? w) ws !! Z.to_nat (k mod count)
          else weighted_go ws fuel (k - span) next
      end
  end.

(** [None] is a panic. *)
Definition weighted_turn (tier : list Target) (turn : Z) : option nat :=
  let ws := map weight tier in
  let total := foldr Z.add 0 ws in
  if total =? 0 then None
  else weighted_go ws (S (length ws)) (turn mod total) 0.

(** [(in flight + 1, weight)]: below [2^32] and at most [2^32], so the cross products fit a [u64]. *)
Definition load (hp : heap) (t : Target) : Z * Z := (in_flight (health_of hp t) + 1, weight t).

Definition lighter (x y : Z * Z) : bool := x.1 * y.2 <=? y.1 * x.2.

(** [Iterator::min_by]: the first of the least. *)
Definition min_load (l : list (Z * Z)) : option (Z * Z) :=
  match l with
  | [] => None
  | x :: l => Some (fold_left (fun best y => if lighter best y then best else y) l x)
  end.

(** [least_loaded] goes over its tier three times, for the least load, for how many have it, and for the one whose
    turn it is, and loads every count anew each time: other requests start and finish in between.  Within a pass each
    count is loaded once, so a heap per pass is what it sees. *)
Record Reads : Type := mkReads { r_min : heap; r_count : heap; r_nth : heap }.

(** Nothing happened in between. *)
Definition still (hp : heap) : Reads := mkReads hp hp hp.

(** [None]: none has the least load any more, and [turn % count] divides by zero. *)
Definition least_loaded (rd : Reads) (tier : list Target) (turn : Z) : option nat :=
  match min_load (map (load (r_min rd)) tier) with
  | None => None
  | Some (best_n, best_w) =>
      let tied hp t := let '(n, w) := load hp t in n * best_w =? best_n * w in
      let count := Z.of_nat (length (indices (tied (r_count rd)) tier)) in
      if count =? 0 then None
      else Some (default 0%nat (indices (tied (r_nth rd)) tier !! Z.to_nat (turn mod count)))
  end.

Definition rotate_left {A} (k : nat) (l : list A) : list A := drop k l ++ take k l.

(** [sort_by_cached_key] with [Reverse]: a stable sort, greatest first. *)
Fixpoint insert_desc {A} (f : A -> Z) (x : A) (l : list A) : list A :=
  match l with
  | [] => [x]
  | y :: l' => if f y <=? f x then x :: l else y :: insert_desc f x l'
  end.
Definition sort_desc {A} (f : A -> Z) (l : list A) : list A := foldr (insert_desc f) [] l.

Section Order.
Variable ln : f64 -> f64.

Definition order_tier (p : Pool) (rd : Reads) (key : option Z) (turn : Z) (tier : list Target)
    : option (list Target) :=
  match key with
  | Some k => Some (sort_desc (fun t => to_bits (score ln k t)) tier)
  | None =>
      match tier with
      | [] => Some []
      | _ =>
          match (match balance p with
                 | LeastConn => least_loaded rd tier turn
                 | _ => weighted_turn tier turn
                 end) with
          | Some k => Some (rotate_left k tier)
          | None => None
          end
      end
  end.

Definition tier_of (p : Pool) (hp : heap) (now : Z) (in_rotation_only b : bool) : list Target :=
  List.filter (fun t => Bool.eqb (backup t) b
                        && (negb in_rotation_only || in_rotation (health_of hp t) now)) (targets p).

(** [rd]: what is loaded to order the main targets ([false]) and the backups. *)
Definition tiers (p : Pool) (hp : heap) (rd : bool -> Reads) (now : Z) (key : option Z) (turn : Z) (in_rotation_only : bool)
    : option (list Target) :=
  match order_tier p (rd false) key turn (tier_of p hp now in_rotation_only false),
        order_tier p (rd true) key turn (tier_of p hp now in_rotation_only true) with
  | Some a, Some b => Some (a ++ b)
  | _, _ => None
  end.

(** [position], [remove] and [insert(0, _)] of the sticky target, never a backup ahead of one that is
    not. *)
Definition stick (stuck : option Z) (out : list Target) : list Target :=
  match stuck with
  | None => out
  | Some i =>
      match list_find (fun t => id t = i) out, out with
      | Some (k, t), first :: _ =>
          if Bool.eqb (backup t) (backup first) then t :: delete k out else out
      | _, _ => out
      end
  end.

(** The order, and the pool's turn after it; [hp] is what is loaded for the rotation, [rd] for the loads of each pass
    over the tiers (in rotation only, or all). *)
Definition order_for (p : Pool) (hp : heap) (rd : bool -> bool -> Reads) (now turn : Z) (a : Affinity) : option (list Target) * Z :=
  if negb (managed p) then (Some (targets p), turn)
  else
    let key := match key a with
               | Some k => if decide (balance p = Hash) then Some k else None
               | None => None
               end in
    let '(mine, turn') :=
      match balance p, key with
      | Priority, _ => (0, turn)
      | Hash, Some _ => (0, turn)
      | _, _ => (turn, wrap 64 (turn + 1))
      end in
    let up := tiers p hp (rd true) now key mine true in
    let out := match up with
               | Some [] => tiers p hp (rd false) now key mine false
               | _ => up
               end in
    (match out with Some l => Some (stick (stuck a) l) | None => None end, turn').
End Order.

(** ** What answers and failures do *)

Definition any_in_rotation (p : Pool) (hp : heap) (now : Z) : bool :=
  negb (managed p) || existsb (fun t => in_rotation (health_of hp t) now) (targets p).

(** [start], and the drop of what it returns. *)
Definition start (p : Pool) (t : Target) (hp : heap) : bool * heap :=
  match balance p with
  | LeastConn => (true, update_health (fun h => set_in_flight (wrap 32 (in_flight h + 1)) h) t hp)
  | _ => (false, hp)
  end.

Definition drop_in_flight (t : Target) (hp : heap) : heap :=
  update_health (fun h => set_in_flight (wrap 32 (in_flight h - 1)) h) t hp.

Definition answered (p : Pool) (t : Target) (status now : Z) (hp : heap) : heap :=
  if negb (managed p) then hp
  else
    let hp := update_health connected t hp in
    if status <? 500 then update_health answered_ok t hp
    else if eject_after_5xx p =? 0 then hp
    else
      let n := wrap 32 (http_5xx (health_of hp t) + 1) in
      let hp := update_health (set_http_5xx n) t hp in
      if n <? eject_after_5xx p then hp
      else if negb (in_rotation (health_of hp t) now) then hp
      else if negb (existsb (fun o => negb (Nat.eqb (health o) (health t))
                                      && in_rotation (health_of hp o) now) (targets p)) then hp
      else
        let hp := update_health (set_http_5xx 0) t hp in
        update_health (fun h => (eject h now (eject_for p) (eject_for_max p) Http5xx).2) t hp.

Definition pool_connect_failed (p : Pool) (t : Target) (error : bytes) (at_secs now : Z) (hp : heap)
    : heap :=
  if negb (managed p) then hp
  else
    let hp := update_health (set_last_connect_error (Some (mkEvent at_secs false error))) t hp in
    if eject_after p =? 0 then hp
    else update_health
           (fun h => (health_connect_failed h now (eject_after p) (eject_for p) (eject_for_max p)).2) t hp.

Definition state (p : Pool) (hp : heap) (now : Z) : bytes :=
  let up b := existsb (fun t => Bool.eqb (backup t) b && in_rotation (health_of hp t) now) (targets p) in
  if negb (managed p) || up false then lit "normal"
  else if up true then lit "backup"
  else lit "all_out".

(** A reload: the new pool's targets take over the records of the old pool's with the same base URL. *)
Fixpoint carry_targets (checks : bool) (old : list Target) (ts : list Target) (hp : heap)
    : list Target * heap :=
  match ts with
  | [] => ([], hp)
  | t :: ts =>
      let '(t', hp) :=
        match List.find (fun o => beq (base o) (base t)) old with
        | Some o =>
            let t' := mkTarget (base t) (t_label t) (backup t) (weight t) (id t) (health o) (check_host t) in
            (t', if checks then hp
                 else update_health (fun h => set_streak 0 (set_passing true h)) t' hp)
        | None => (t, hp)
        end in
      let '(ts', hp) := carry_targets checks old ts hp in (t' :: ts', hp)
  end.

Definition carry_health_from (p old : Pool) (hp : heap) : Pool * heap :=
  if negb (managed p && managed old) then (p, hp)
  else
    let checks := match health_check p with Some _ => true | None => false end in
    let '(ts, hp) := carry_targets checks (targets old) (targets p) hp in
    (mkPool (route p) ts (managed p) (balance p) (health_check p) (eject_after p) (eject_for p)
       (eject_for_max p) (eject_after_5xx p) (hash_on p) (sticky p), hp).

(** ** The sticky cookie *)

Fixpoint hex_pad (n : nat) (z : Z) : bytes :=
  match n with O => [] | S n => hex_pad n (z / 16) ++ [hex_digit (z mod 16)] end.

Section StickyCookie.
(** [HeaderValue::from_str] and [from_bytes] accept this value. *)
Variable value_ok : bytes -> bool.

Definition sticky_cookie (p : Pool) (a : Affinity) (t : Target) : option bytes :=
  match sticky p with
  | None => None
  | Some s =>
      if decide (stuck a = Some (id t)) then None
      else
        let max_age := match s_max_age s with
                       | Some d => lit "; Max-Age=" ++ dec (as_secs d)
                       | None => []
                       end in
        let v := s_name s ++ [61] ++ hex_pad 16 (id t) ++ lit "; Path=" ++ s_path s ++ max_age
                 ++ lit "; HttpOnly; SameSite=Lax" in
        if value_ok v then Some v else None
  end.

(** [<[u8]>::trim_ascii]: [u8::is_ascii_whitespace] is space, tab, LF, FF and CR. *)
Definition ascii_ws (c : Z) : bool := (c =? 32) || (c =? 9) || (c =? 10) || (c =? 12) || (c =? 13).
Definition trim_ascii (s : bytes) : bytes := rev (drop_while ascii_ws (rev (drop_while ascii_ws s))).

Definition is_ours (name pair : bytes) : bool :=
  match strip_prefix name pair with
  | Some (c :: _) => c =? 61
  | _ => false
  end.

Definition cookie_pairs (headers : Headers) : list bytes :=
  List.filter (fun p => negb (beq p []))
    (map trim_ascii (concat (map (split_on 59) (get_all headers (lit "cookie"))))).

Definition strip_sticky_cookie (p : Pool) (headers : Headers) : Headers :=
  match sticky p with
  | Some s =>
      if negb (s_strip s) then headers
      else
        let pairs := cookie_pairs headers in
        if negb (existsb (is_ours (s_name s)) pairs) then headers
        else
          let headers := remove headers (lit "cookie") in
          let kept := List.filter (fun p => negb (is_ours (s_name s) p)) pairs in
          match kept with
          | [] => headers
          | _ =>
              let v := join (lit "; ") kept in
              if value_ok v then insert_h headers (lit "cookie") v else headers
          end
  | None => headers
  end.
End StickyCookie.

(** ** One active HTTP check *)

Definition passes (hc : HealthCheck) (status : Z) : bool :=
  existsb (fun '(lo, hi) => (lo <=? status) && (status <=? hi)) (expect hc).

Definition CHECK_BODY_LIMIT : nat := Z.to_nat 65536.

(** [s.windows(n).any(|w| w == t)] for [n = t.len()], which is not zero. *)
Fixpoint contains_text (t s : bytes) : bool :=
  starts_with s t || match s with [] => false | _ :: s => contains_text t s end.

(** The rest of the body: its frames in order; a frame that is not data, or the stream's failure. *)
Inductive Frame : Type := Data (d : bytes) | Trailers | FrameFailed.

Section Check.
(** [regex::bytes::Regex::is_match] of a pattern on a body. *)
Variable is_match : bytes -> bytes -> bool.

Fixpoint check_body_go (want : BodyMatch) (seen : bytes) (frames : list Frame) : bool :=
  let finish := match want with BodyRegex re => is_match re seen | BodyText _ => false end in
  if (CHECK_BODY_LIMIT <=? length seen)%nat then finish
  else match frames with
  | [] => finish
  | FrameFailed :: _ => false
  | Trailers :: frames => check_body_go want seen frames
  | Data d :: frames =>
      let before := length seen in
      let seen := take CHECK_BODY_LIMIT (seen ++ d) in
      match want with
      | BodyText t =>
          let from := (before - (length t - 1))%nat in
          if contains_text t (drop from seen) then true else check_body_go want seen frames
      | BodyRegex _ => check_body_go want seen frames
      end
  end.

(** [check_http]: [None] for a request that got no answer. *)
Definition check_http (hc : HealthCheck) (answer : option (Z * list Frame)) : bool :=
  match answer with
  | None => false
  | Some (status, frames) =>
      if negb (passes hc status) then false
      else match hc_body hc with
           | None => true
           | Some want => check_body_go want [] frames
           end
  end.
End Check.
