(* ===== verification/PoolOrder.v ===== *)
(** * PoolOrder: the order a request tries a pool's targets in

    [weighted_turn] against the interleaved schedule it stands for, [least_loaded] against the least
    ratio, and [order_for] as a whole: a permutation of the targets in rotation (of all of them when none
    is), main targets before backups, or none when the counts change under a
    least-connections pick; under hashing a target that leaves rotation moves nobody else. *)

From S2P Require Import Prelude Text Net Units Float Http Health Pool.

(** ** Interleaved weighted round-robin *)

(** Round [r]: one turn to each target whose weight is over [r], in order. *)
Definition round (ws : list Z) (r : Z) : list nat := indices (fun w => r <? w) ws.

(** A cycle: the rounds below [top], from [lo] on. *)
Definition rounds (ws : list Z) (lo top : Z) : list nat := concat (map (round ws) (seqZ lo (top - lo))).

Definition top_weight (ws : list Z) : Z := foldr Z.max 0 ws.

Definition schedule (ws : list Z) : list nat := rounds ws 0 (top_weight ws).

Lemma top_weight_ge ws w : w ∈ ws -> w <= top_weight ws.
Proof.
  induction ws as [|x ws IH]; [by intros H%elem_of_nil|]. intros [->|H]%elem_of_cons; simpl; [lia|].
  specialize (IH H). lia.
Qed.

Lemma top_weight_nonneg ws : 0 <= top_weight ws.
Proof. induction ws; simpl; lia. Qed.

Lemma indices_cons {A} (f : A -> bool) x l :
  indices f (x :: l) = (if f x then [0%nat] else []) ++ map S (indices f l).
Proof.
  unfold indices. cbn [length seq zip List.filter].
  assert (Hs : forall n, map fst (List.filter (fun '(_, y) => f y) (zip (seq (S n) (length l)) l))
            = map S (map fst (List.filter (fun '(_, y) => f y) (zip (seq n (length l)) l)))).
  { induction l as [|y l IH]; intros n; [done|]. cbn [length seq zip_with List.filter].
    destruct (f y); cbn [map fst]; by rewrite IH. }
  destruct (f x); cbn [map fst app]; by rewrite Hs.
Qed.

Lemma elem_of_indices {A} (f : A -> bool) l i :
  i ∈ indices f l <-> exists x, l !! i = Some x /\ f x = true.
Proof.
  revert i. induction l as [|x l IH]; intros i.
  - split; [by intros ?%elem_of_nil | by intros (? & ? & _)].
  - rewrite indices_cons, elem_of_app, list_elem_of_fmap. split.
    + intros [H|(j & -> & Hj)].
      * destruct (f x) eqn:E; [|by apply elem_of_nil in H]. apply list_elem_of_singleton in H as ->. eauto.
      * apply IH in Hj. exact Hj.
    + intros (y & Hy & Hf). destruct i as [|i]; simpl in Hy.
      * injection Hy as ->. rewrite Hf. left. by left.
      * right. exists i. split; [done|]. apply IH. eauto.
Qed.

Lemma NoDup_indices {A} (f : A -> bool) l : NoDup (indices f l).
Proof.
  induction l as [|x l IH]; [constructor|]. rewrite indices_cons.
  destruct (f x); simpl; [constructor|]; [|by apply NoDup_fmap_2; [apply _|]..].
  intros (j & ? & _)%list_elem_of_fmap. lia.
Qed.

Lemma length_indices {A} (f : A -> bool) l : length (indices f l) = length (List.filter f l).
Proof.
  induction l as [|x l IH]; [done|]. rewrite indices_cons, length_app, length_map, IH. simpl.
  by destruct (f x).
Qed.

(** The weights over [done] are those over any [r] below the next weight. *)
Lemma indices_ext {A} (f g : A -> bool) l : (forall x, x ∈ l -> f x = g x) -> indices f l = indices g l.
Proof.
  induction l as [|x l IH]; intros H; [done|]. rewrite !indices_cons, H by left.
  rewrite IH; [done|]. intros y Hy. apply H. by right.
Qed.

Lemma min_Z_spec l m : min_Z l = Some m -> m ∈ l /\ forall x, x ∈ l -> m <= x.
Proof.
  destruct l as [|a l]; [done|]. cbn [min_Z]. intros [= <-].
  revert a. induction l as [|b l IH]; intros a; simpl.
  - split; [left | intros x [->|H%elem_of_nil]%elem_of_cons; [lia | done]].
  - destruct (IH (Z.min a b)) as [Hin Hle]. split.
    + rewrite elem_of_cons in Hin. rewrite !elem_of_cons.
      destruct Hin as [->|?]; [|tauto]. destruct (Z.min_spec a b) as [[_ ->]|[_ ->]]; tauto.
    + intros x Hx. assert (Hm : fold_left Z.min l (Z.min a b) <= Z.min a b) by (apply Hle; left).
      apply elem_of_cons in Hx as [->|Hx]; [lia|].
      apply elem_of_cons in Hx as [->|Hx]; [lia|]. apply Hle. by right.
Qed.

Lemma round_same ws done next r :
  min_Z (List.filter (fun w => done <? w) ws) = Some next -> done <= r < next -> round ws r = round ws done.
Proof.
  intros [_ Hle]%min_Z_spec Hr. apply indices_ext. intros w Hw.
  destruct (Z.ltb_spec done w) as [Hd|]; destruct (Z.ltb_spec r w); try done; try lia.
  specialize (Hle w). rewrite list_elem_of_In, filter_In, <- list_elem_of_In in Hle.
  specialize (Hle (conj Hw (proj2 (Z.ltb_lt _ _) Hd))). lia.
Qed.

Lemma rounds_cut ws lo mid top :
  lo <= mid <= top -> rounds ws lo top = rounds ws lo mid ++ rounds ws mid top.
Proof.
  intros H. unfold rounds. rewrite <- concat_app, <- map_app. do 2 f_equal.
  replace (top - lo) with ((mid - lo) + (top - mid)) by lia.
  rewrite seqZ_app by lia. do 2 f_equal. lia.
Qed.

Lemma rounds_repeat ws done next :
  min_Z (List.filter (fun w => done <? w) ws) = Some next -> done <= next ->
  rounds ws done next = concat (replicate (Z.to_nat (next - done)) (round ws done)).
Proof.
  intros Hm Hle. unfold rounds. f_equal.
  apply (list_eq_same_length _ _ (Z.to_nat (next - done)));
    [by rewrite length_replicate | by rewrite length_map, length_seqZ|].
  intros i x y Hi Hx Hy. apply lookup_replicate in Hy as [-> _].
  rewrite list_lookup_fmap in Hx.
  destruct (seqZ done (next - done) !! i) as [r|] eqn:E; [|done]. simpl in Hx. injection Hx as <-.
  apply lookup_seqZ in E as [-> Hi']. apply (round_same ws done next); [done | lia].
Qed.

Lemma lookup_concat_replicate {A} (l : list A) n k :
  (k < n * length l)%nat -> concat (replicate n l) !! k = l !! (k mod length l)%nat.
Proof.
  revert k. induction n as [|n IH]; intros k Hk; [lia|]. cbn [replicate concat].
  destruct (Nat.lt_ge_cases k (length l)).
  - rewrite lookup_app_l by done. by rewrite Nat.mod_small.
  - rewrite lookup_app_r by done. rewrite IH by lia. f_equal.
    rewrite <- (Nat.Div0.mod_add (k - length l) 1), Nat.mul_1_l. f_equal. lia.
Qed.

Lemma length_rounds_repeat {A} (l : list A) n : length (concat (replicate n l)) = (n * length l)%nat.
Proof. induction n as [|n IH]; [done|]. cbn [replicate concat]. rewrite length_app, IH. lia. Qed.

Lemma rounds_nonempty ws done top k :
  (k < length (rounds ws done top))%nat -> exists w, w ∈ ws /\ done < w.
Proof.
  intros Hk. destruct (lookup_lt_is_Some_2 _ _ Hk) as [i Hi].
  apply list_elem_of_lookup_2 in Hi. unfold rounds in Hi.
  apply list_elem_of_In, in_concat in Hi as (l & Hl & Hi). rewrite <- list_elem_of_In in Hl. rewrite <- list_elem_of_In in Hi.
  apply list_elem_of_fmap in Hl as (r & -> & Hr). apply elem_of_seqZ in Hr.
  apply elem_of_indices in Hi as (w & Hw & Hlt%Z.ltb_lt). exists w.
  split; [by eapply list_elem_of_lookup_2 | lia].
Qed.

(** Taking the next round's weights leaves fewer targets than before. *)
Lemma filter_shrinks ws done next :
  min_Z (List.filter (fun w => (done <? w)%Z) ws) = Some next ->
  (length (List.filter (fun w => (next <? w)%Z) ws) < length (List.filter (fun w => (done <? w)%Z) ws))%nat
  /\ done < next.
Proof.
  intros [Hin _]%min_Z_spec. rewrite list_elem_of_In, filter_In, Z.ltb_lt in Hin. destruct Hin as [Hin Hlt].
  split; [|done]. clear -Hin Hlt. induction ws as [|w ws IH]; [by destruct Hin|]. simpl.
  assert (Hle : (length (List.filter (fun w => (next <? w)%Z) ws) <= length (List.filter (fun w => (done <? w)%Z) ws))%nat).
  { clear -Hlt. induction ws as [|w ws IH]; [done|]. simpl. zcase; simpl; lia. }
  destruct Hin as [->|Hin]; [|specialize (IH Hin)]; zcase; simpl; lia.
Qed.

Lemma weighted_go_rounds ws fuel k done :
  0 <= k -> (Z.to_nat k < length (rounds ws done (top_weight ws)))%nat ->
  (length (List.filter (fun w => (done <? w)%Z) ws) < fuel)%nat ->
  weighted_go ws fuel k done = rounds ws done (top_weight ws) !! Z.to_nat k.
Proof.
  revert k done. induction fuel as [|fuel IH]; intros k done Hk Hlen Hf; [lia|]. cbn [weighted_go].
  destruct (min_Z (List.filter (fun w => done <? w) ws)) as [next|] eqn:Hm.
  - destruct (filter_shrinks ws done next Hm) as [Hsh Hlt].
    assert (Htop : next <= top_weight ws).
    { apply top_weight_ge. apply min_Z_spec in Hm as [Hin _].
      rewrite list_elem_of_In, filter_In, <- list_elem_of_In in Hin. tauto. }
    rewrite (rounds_cut ws done next) in Hlen |- * by lia.
    rewrite (rounds_repeat ws done next Hm) in Hlen |- * by lia.
    assert (Hc : length (round ws done) = length (List.filter (fun w => done <? w) ws))
      by apply length_indices.
    rewrite length_app, length_rounds_repeat, Hc in Hlen.
    set (c := length (List.filter (fun w => done <? w) ws)) in *.
    destruct (Z.ltb_spec k ((next - done) * Z.of_nat c)) as [Hlo|Hhi].
    + rewrite lookup_app_l, lookup_concat_replicate by (rewrite ?length_rounds_repeat, Hc; nia).
      rewrite Hc. unfold round. f_equal. rewrite Z2Nat.inj_mod, Nat2Z.id by lia. done.
    + rewrite lookup_app_r by (rewrite length_rounds_repeat, Hc; nia).
      rewrite length_rounds_repeat, Hc, IH; [f_equal; nia|nia|nia|lia].
  - exfalso. destruct (rounds_nonempty _ _ _ _ Hlen) as (w & Hw & Hlt).
    destruct (List.filter (fun w => done <? w) ws) as [|x l] eqn:E; [|done].
    assert (Hin : In w (List.filter (fun w => done <? w) ws))
      by (apply filter_In; split; [by apply list_elem_of_In | by apply Z.ltb_lt]).
    by rewrite E in Hin.
Qed.

(** How often target [i] comes in some rounds: once in each below its weight. *)
Definition turns_of (i : nat) (l : list nat) : Z := Z.of_nat (count_occ Nat.eq_dec l i).

Lemma turns_of_app i a b : turns_of i (a ++ b) = turns_of i a + turns_of i b.
Proof. unfold turns_of. rewrite count_occ_app. lia. Qed.

Lemma turns_of_round ws r i w : ws !! i = Some w -> turns_of i (round ws r) = if r <? w then 1 else 0.
Proof.
  intros Hw. unfold turns_of. destruct (Z.ltb_spec r w) as [H|H].
  - assert (Hin : i ∈ round ws r) by (apply elem_of_indices; exists w; split; [done | by apply Z.ltb_lt]).
    pose proof (NoDup_indices (fun w => r <? w) ws) as Hnd. apply NoDup_ListNoDup in Hnd.
    rewrite (NoDup_count_occ Nat.eq_dec) in Hnd. specialize (Hnd i).
    apply list_elem_of_In, (count_occ_In Nat.eq_dec) in Hin. unfold round in *. lia.
  - rewrite (proj1 (count_occ_not_In Nat.eq_dec _ _)); [done|]. rewrite <- list_elem_of_In.
    intros (x & Hx & Hlt%Z.ltb_lt)%elem_of_indices. rewrite Hw in Hx. injection Hx as <-. lia.
Qed.

Lemma seqZ_one m : seqZ (0 + m) 1 = [m].
Proof. reflexivity. Qed.

Lemma turns_of_rounds ws i w n :
  ws !! i = Some w -> 0 <= w -> turns_of i (concat (map (round ws) (seqZ 0 (Z.of_nat n)))) = Z.min w (Z.of_nat n).
Proof.
  intros Hw H0. induction n as [|n IH]; [change (0 = Z.min w 0); lia|].
  rewrite Nat2Z.inj_succ, <- Z.add_1_r, seqZ_app by lia. rewrite map_app, concat_app, turns_of_app, IH.
  rewrite seqZ_one. cbn [map concat].
  rewrite app_nil_r, (turns_of_round ws _ i w Hw). zcase; lia.
Qed.

Lemma turns_of_schedule ws i w : ws !! i = Some w -> 0 <= w -> turns_of i (schedule ws) = w.
Proof.
  intros Hw H0. assert (Ht : w <= top_weight ws) by by eapply top_weight_ge, list_elem_of_lookup_2.
  unfold schedule, rounds.
  replace (top_weight ws - 0) with (Z.of_nat (Z.to_nat (top_weight ws))) by lia.
  rewrite (turns_of_rounds ws i w) by done. lia.
Qed.

(** A cycle has as many turns as the weights add up to. *)
Lemma length_schedule ws : Forall (fun w => 0 <= w) ws -> Z.of_nat (length (schedule ws)) = foldr Z.add 0 ws.
Proof.
  intros HF. unfold schedule, rounds.
  assert (Hgen : forall n, Z.of_nat (length (concat (map (round ws) (seqZ 0 (Z.of_nat n)))))
                  = foldr Z.add 0 (map (fun w => Z.min w (Z.of_nat n)) ws)).
  { induction n as [|n IH].
    - transitivity 0; [done|]. clear -HF. induction HF as [|w ws Hw HF IH]; [done|].
      cbn [map foldr]. rewrite <- IH. lia.
    - rewrite Nat2Z.inj_succ, <- Z.add_1_r, seqZ_app by lia. rewrite map_app, concat_app, length_app.
      rewrite seqZ_one. cbn [map concat].
      rewrite app_nil_r, Nat2Z.inj_add, IH. unfold round. rewrite length_indices.
      clear -HF. induction HF as [|w ws Hw HF IH]; [done|]. cbn [List.filter map foldr].
      destruct (Z.ltb_spec (Z.of_nat n) w); cbn [length] in *; lia. }
  pose proof (top_weight_nonneg ws).
  replace (top_weight ws - 0) with (Z.of_nat (Z.to_nat (top_weight ws))) by lia. rewrite Hgen.
  f_equal. rewrite <- (map_id ws) at 2. apply map_ext_in. intros w Hw%list_elem_of_In%top_weight_ge. lia.
Qed.

Lemma total_positive (tier : list Target) :
  Forall (fun t => 0 < weight t) tier -> tier <> [] -> 0 < foldr Z.add 0 (map weight tier).
Proof.
  intros HF Hne. destruct HF as [|t tier Ht HF]; [done|]. cbn [map foldr].
  assert (0 <= foldr Z.add 0 (map weight tier)); [|lia].
  clear -HF. induction HF as [|t tier Ht HF IH]; cbn [map foldr]; lia.
Qed.

Lemma weights_nonneg (tier : list Target) :
  Forall (fun t => 0 < weight t) tier -> Forall (fun w => 0 <= w) (map weight tier).
Proof. intros HF. apply Forall_map. eapply Forall_impl; [exact HF|]. simpl. lia. Qed.

Lemma elem_of_schedule ws i : i ∈ schedule ws -> (i < length ws)%nat.
Proof.
  unfold schedule, rounds. intros Hi.
  apply list_elem_of_In, in_concat in Hi as (l & Hl & Hi). rewrite <- list_elem_of_In in Hl. rewrite <- list_elem_of_In in Hi.
  apply list_elem_of_fmap in Hl as (r & -> & _). apply elem_of_indices in Hi as (w & Hw & _).
  by apply lookup_lt_Some in Hw.
Qed.

Lemma weighted_turn_schedule (tier : list Target) turn :
  Forall (fun t => 0 < weight t) tier -> tier <> [] -> 0 <= turn ->
  let ws := map weight tier in
  exists i, weighted_turn tier turn = Some i /\ (i < length tier)%nat
    /\ schedule ws !! Z.to_nat (turn mod foldr Z.add 0 ws) = Some i.
Proof.
  intros HF Hne Ht ws. pose proof (total_positive tier HF Hne) as Hpos. fold ws in Hpos.
  pose proof (length_schedule ws (weights_nonneg tier HF)) as Hlen.
  unfold weighted_turn. fold ws. set (total := foldr Z.add 0 ws) in *.
  destruct (Z.eqb_spec total 0); [lia|]. pose proof (Z.mod_pos_bound turn total Hpos) as Hk.
  assert (Hlt : (Z.to_nat (turn mod total) < length (schedule ws))%nat) by lia.
  destruct (lookup_lt_is_Some_2 _ _ Hlt) as [i Hi]. exists i. split; [|split; [|done]].
  - rewrite weighted_go_rounds; [done | lia | done |].
    pose proof (List.filter_length_le (fun w => 0 <? w) ws). lia.
  - apply list_elem_of_lookup_2, elem_of_schedule in Hi. unfold ws in Hi. by rewrite length_map in Hi.
Qed.

(** Weighted round-robin is exact: the turn a request takes falls where the interleaved schedule
    says (round [r] gives one turn to each target of weight over [r], in order), never out of the tier,
    and every cycle gives each target exactly its weight's share. *)
Theorem weighted_turn_fair (tier : list Target) :
  Forall (fun t => 0 < weight t) tier -> tier <> [] ->
  let ws := map weight tier in
  let total := foldr Z.add 0 ws in
  Z.of_nat (length (schedule ws)) = total
  /\ (forall turn, 0 <= turn -> exists i, weighted_turn tier turn = Some i /\ (i < length tier)%nat
        /\ schedule ws !! Z.to_nat (turn mod total) = Some i)
  /\ (forall i t, tier !! i = Some t -> turns_of i (schedule ws) = weight t).
Proof.
  intros HF Hne ws total. split; [apply length_schedule; by apply weights_nonneg|]. split.
  - intros turn. by apply weighted_turn_schedule.
  - intros i t Hi. apply turns_of_schedule.
    + unfold ws. by rewrite list_lookup_fmap, Hi.
    + apply (Forall_lookup_1 _ _ _ _ HF) in Hi. lia.
Qed.

Definition demo_target (i w : Z) (b : bool) : Target := mkTarget [i] [i] b w i (Z.to_nat i) None.
Definition demo_tier : list Target := [demo_target 0 3 false; demo_target 1 1 false; demo_target 2 2 false].

Lemma weighted_turn_fair_witness :
  let ws := map weight demo_tier in
  let total := foldr Z.add 0 ws in
  Z.of_nat (length (schedule ws)) = total
  /\ (forall turn, 0 <= turn -> exists i, weighted_turn demo_tier turn = Some i
        /\ (i < length demo_tier)%nat /\ schedule ws !! Z.to_nat (turn mod total) = Some i)
  /\ (forall i t, demo_tier !! i = Some t -> turns_of i (schedule ws) = weight t).
Proof. apply (weighted_turn_fair demo_tier); [repeat constructor; vm_compute; congruence | done]. Defined.

(** Weights 3, 1, 2 go a, b, c, a, c, a. *)
Example interleaved : schedule [3; 1; 2] = [0; 1; 2; 0; 2; 0]%nat.
Proof. vm_compute. reflexivity. Qed.

(** ** Least connections *)

Lemma frac_trans (x y z : Z * Z) :
  0 < x.2 -> 0 < y.2 -> 0 < z.2 -> x.1 * y.2 <= y.1 * x.2 -> y.1 * z.2 <= z.1 * y.2 ->
  x.1 * z.2 <= z.1 * x.2.
Proof.
  destruct x as [a b], y as [c d], z as [e f]. simpl. intros Hb Hd Hf H1 H2.
  apply (Zmult_le_reg_r _ _ d); [lia|].
  assert (a * d * f <= c * b * f) by nia. assert (c * f * b <= e * d * b) by nia. lia.
Qed.

Lemma min_load_spec l b :
  Forall (fun x => 0 < x.2) l -> min_load l = Some b ->
  b ∈ l /\ forall x, x ∈ l -> b.1 * x.2 <= x.1 * b.2.
Proof.
  destruct l as [|a l]; [done|]. cbn [min_load]. intros HF [= <-].
  revert a HF. induction l as [|c l IH]; intros a HF; cbn [fold_left].
  - split; [left|]. intros x [->|H%elem_of_nil]%elem_of_cons; [lia | done].
  - apply Forall_cons in HF as [Ha [Hc HF]%Forall_cons].
    set (m := if lighter a c then a else c).
    assert (Hm : m = a \/ m = c) by (unfold m; case_match; tauto).
    assert (Hma : m.1 * a.2 <= a.1 * m.2 /\ m.1 * c.2 <= c.1 * m.2).
    { unfold m, lighter. destruct (Z.leb_spec (a.1 * c.2) (c.1 * a.2)); lia. }
    assert (Hm0 : 0 < m.2) by (destruct Hm as [-> | ->]; done).
    destruct (IH m) as [Hin Hle]; [by constructor|]. set (b := fold_left _ l m) in *.
    assert (Hb0 : 0 < b.2).
    { apply elem_of_cons in Hin as [->|Hin]; [done|]. rewrite Forall_forall in HF. by apply HF. }
    assert (Hbm : b.1 * m.2 <= m.1 * b.2) by (apply Hle; left).
    split; [rewrite !elem_of_cons in *; destruct Hm as [-> | ->]; tauto|].
    intros x [->|[->|Hx]%elem_of_cons]%elem_of_cons; [eapply (frac_trans b m a); tauto | eapply (frac_trans b m c); tauto |].
    apply Hle. by right.
Qed.

Lemma lookup_indices {A} (f : A -> bool) l k i :
  indices f l !! k = Some i -> exists x, l !! i = Some x /\ f x = true.
Proof. intros H. by apply elem_of_indices, (list_elem_of_lookup_2 _ k). Qed.

Lemma indices_in {A} (f : A -> bool) l x : x ∈ l -> f x = true -> indices f l <> [].
Proof.
  intros Hx Hf. apply list_elem_of_lookup in Hx as [i Hi].
  assert (i ∈ indices f l) by (apply elem_of_indices; eauto). by destruct (indices f l); [apply not_elem_of_nil in H|].
Qed.

(** The least load is somewhere, and whoever has it is tied. *)
Lemma min_load_tied hp tier : tier <> [] -> Forall (fun t => 0 < weight t) tier ->
  exists bn bw, min_load (map (load hp) tier) = Some (bn, bw) /\ 0 < bw
  /\ indices (fun t => let '(n, w) := load hp t in n * bw =? bn * w) tier <> []
  /\ forall o, o ∈ tier -> bn * weight o <= (in_flight (health_of hp o) + 1) * bw.
Proof.
  intros Hne HF. assert (HF' : Forall (fun x => 0 < x.2) (map (load hp) tier)) by (apply Forall_map; exact HF).
  destruct (min_load (map (load hp) tier)) as [[bn bw]|] eqn:Hm; [|by destruct tier].
  destruct (min_load_spec _ _ HF' Hm) as [Hin Hle]. cbn [fst snd] in Hle. exists bn, bw.
  assert (Hbw : 0 < bw) by (rewrite Forall_forall in HF'; apply (HF' _ Hin)). split_and!; [done | done | |].
  - apply list_elem_of_fmap in Hin as (t & Heq & Hin). eapply (indices_in _ tier t Hin). cbv beta. rewrite <- Heq. apply Z.eqb_eq. lia.
  - intros o Ho. specialize (Hle (load hp o) ltac:(by apply list_elem_of_fmap_2)). cbn in Hle. lia.
Qed.

(** Every count of [tier] is the same when the ties are counted as when the least load was found. *)
Definition steady (rd : Reads) (tier : list Target) : Prop :=
  forall t, t ∈ tier -> in_flight (health_of (r_count rd) t) = in_flight (health_of (r_min rd) t).

Lemma least_loaded_steady rd tier turn : tier <> [] -> Forall (fun t => 0 < weight t) tier -> steady rd tier ->
  exists i, least_loaded rd tier turn = Some i.
Proof.
  intros Hne HF Hst. unfold least_loaded. destruct (min_load_tied (r_min rd) tier Hne HF) as (bn & bw & -> & _ & Hi & _).
  rewrite (indices_ext _ (fun t => let '(n, w) := load (r_min rd) t in n * bw =? bn * w)); [|intros t Ht; unfold load; by rewrite (Hst t Ht)].
  destruct (Z.eqb_spec (Z.of_nat (length (indices (fun t => let '(n, w) := load (r_min rd) t in n * bw =? bn * w) tier))) 0) as [E|E]; [|by eexists].
  destruct (indices _ tier); [done | simpl in E; lia].
Qed.

(** [least_loaded] picks a target with the least [(in flight + 1) / weight] of its tier, in any
    turn, when no count changes under it. *)
Theorem least_loaded_least hp tier turn :
  tier <> [] -> Forall (fun t => 0 < weight t) tier -> 0 <= turn ->
  exists i t, least_loaded (still hp) tier turn = Some i /\ tier !! i = Some t
    /\ forall o, o ∈ tier ->
       (in_flight (health_of hp t) + 1) * weight o <= (in_flight (health_of hp o) + 1) * weight t.
Proof.
  intros Hne HF Ht. unfold least_loaded, still. cbn [r_min r_count r_nth]. destruct (min_load_tied hp tier Hne HF) as (bn & bw & -> & Hbw & Hi & Hle).
  set (ties := indices _ tier) in *.
  assert (Hc : 0 < Z.of_nat (length ties)) by (destruct ties; [done | simpl; lia]).
  destruct (Z.eqb_spec (Z.of_nat (length ties)) 0); [lia|].
  pose proof (Z.mod_pos_bound turn _ Hc) as Hk.
  destruct (lookup_lt_is_Some_2 ties (Z.to_nat (turn mod Z.of_nat (length ties)))) as [i Hi']; [lia|].
  rewrite Hi'. destruct (lookup_indices _ _ _ _ Hi') as (t & Hit & Htied). exists i, t.
  split; [done|]. split; [done|]. intros o Ho. specialize (Hle o Ho).
  assert (Heq : (in_flight (health_of hp t) + 1) * bw = bn * weight t) by (apply Z.eqb_eq; exact Htied).
  assert (Hwt : 0 < weight t) by (by apply (Forall_lookup_1 _ _ _ _ HF Hit)).
  assert (Hwo : 0 < weight o) by (rewrite Forall_forall in HF; by apply HF).
  apply (Zmult_le_reg_r _ _ bw); [lia|]. nia.
Qed.

Lemma least_loaded_least_witness :
  let hp := [set_in_flight 3 health_default; set_in_flight 1 health_default; set_in_flight 1 health_default] in
  exists i t, least_loaded (still hp) demo_tier 0 = Some i /\ demo_tier !! i = Some t
    /\ forall o, o ∈ demo_tier ->
       (in_flight (health_of hp t) + 1) * weight o <= (in_flight (health_of hp o) + 1) * weight t.
Proof.
  apply (least_loaded_least [set_in_flight 3 health_default; set_in_flight 1 health_default;
           set_in_flight 1 health_default] demo_tier 0);
    [done | repeat constructor; vm_compute; congruence | lia].
Defined.

(** ** The whole order *)

Lemma rotate_left_perm {A} k (l : list A) : rotate_left k l ≡ₚ l.
Proof. unfold rotate_left. by rewrite Permutation_app_comm, take_drop. Qed.

Lemma insert_desc_perm {A} (f : A -> Z) x l : insert_desc f x l ≡ₚ x :: l.
Proof.
  induction l as [|y l IH]; simpl; [done|]. case_match; [done|]. rewrite IH. by rewrite Permutation_swap.
Qed.

Lemma sort_desc_perm {A} (f : A -> Z) l : sort_desc f l ≡ₚ l.
Proof. induction l as [|x l IH]; simpl; [done|]. by rewrite insert_desc_perm, IH. Qed.

(** The only way to a panic: counts that change while a least-connections pool reads them. *)
Definition undisturbed (p : Pool) (rd : Reads) (tier : list Target) : Prop := balance p = LeastConn -> steady rd tier.

Lemma order_tier_perm ln p rd key turn tier l : order_tier ln p rd key turn tier = Some l -> l ≡ₚ tier.
Proof.
  unfold order_tier. destruct key as [k|]; [intros [= <-]; apply sort_desc_perm|]. destruct tier as [|t tier]; [by intros [= <-]|].
  case_match; [|done]. intros [= <-]. apply rotate_left_perm.
Qed.

Lemma order_tier_some ln p rd key turn tier : Forall (fun t => 0 < weight t) tier -> 0 <= turn -> undisturbed p rd tier ->
  exists l, order_tier ln p rd key turn tier = Some l.
Proof.
  intros HF Ht Hu. unfold order_tier. destruct key as [k|]; [by eexists|]. destruct tier as [|t tier]; [by eexists|]. set (tr := t :: tier) in *.
  destruct (weighted_turn_schedule tr turn HF ltac:(done) Ht) as (i & Hi & _).
  destruct (balance p) eqn:Hb; try (rewrite Hi; by eexists).
  destruct (least_loaded_steady rd tr turn ltac:(done) HF (Hu Hb)) as [j Hj]. rewrite Hj. by eexists.
Qed.

(** Main targets first, then backups. *)
Definition tiered (l : list Target) : Prop :=
  exists main bk, l = main ++ bk /\ Forall (fun t => backup t = false) main
                  /\ Forall (fun t => backup t = true) bk.

Lemma tier_of_backup p hp now only b : Forall (fun t => backup t = b) (tier_of p hp now only b).
Proof.
  apply Forall_forall. intros t Ht. unfold tier_of in Ht.
  apply list_elem_of_In, filter_In in Ht as [_ Ht]. apply andb_true_iff in Ht as [Ht _].
  by apply Bool.eqb_prop.
Qed.

Definition eligible (hp : heap) (now : Z) (only : bool) (t : Target) : bool :=
  negb only || in_rotation (health_of hp t) now.

(** The two tiers together are the targets that pass the filter. *)
Lemma tiers_filter p hp now only :
  tier_of p hp now only false ++ tier_of p hp now only true
  ≡ₚ List.filter (eligible hp now only) (targets p).
Proof.
  unfold tier_of. induction (targets p) as [|t ts IH]; [done|]. cbn [List.filter].
  unfold eligible at 1. destruct (negb only || in_rotation (health_of hp t) now); cbn [andb];
    rewrite ?andb_true_r, ?andb_false_r; [|done].
  destruct (backup t); cbn [Bool.eqb app].
  - rewrite <- Permutation_middle. by constructor.
  - by constructor.
Qed.

Lemma Forall_filter {A} (P : A -> Prop) f l : Forall P l -> Forall P (List.filter f l).
Proof. induction 1; simpl; [constructor|]. case_match; [by constructor | done]. Qed.

Lemma tiers_spec ln p hp rd now key turn only l : tiers ln p hp rd now key turn only = Some l ->
  tiered l /\ l ≡ₚ List.filter (eligible hp now only) (targets p).
Proof.
  unfold tiers. destruct (order_tier ln p (rd false) _ _ _) as [a|] eqn:Ea; [|done]. destruct (order_tier ln p (rd true) _ _ _) as [b|] eqn:Eb; [|done].
  intros [= <-]. apply order_tier_perm in Ea, Eb. split.
  - exists a, b. split; [done|]. rewrite Ea, Eb. split; apply tier_of_backup.
  - by rewrite Ea, Eb, tiers_filter.
Qed.

Lemma steady_tier p rd hp now only b : undisturbed p rd (targets p) -> undisturbed p rd (tier_of p hp now only b).
Proof. intros Hu Hb t Ht. apply (Hu Hb). unfold tier_of in Ht. by apply list_elem_of_In, filter_In in Ht as [?%list_elem_of_In _]. Qed.

Lemma tiers_some ln p hp rd now key turn only :
  Forall (fun t => 0 < weight t) (targets p) -> 0 <= turn -> (forall b, undisturbed p (rd b) (targets p)) ->
  exists l, tiers ln p hp rd now key turn only = Some l.
Proof.
  intros HF Ht Hu. unfold tiers.
  destruct (order_tier_some ln p (rd false) key turn (tier_of p hp now only false)) as [a ->]; [by apply Forall_filter | done | by apply steady_tier|].
  destruct (order_tier_some ln p (rd true) key turn (tier_of p hp now only true)) as [b ->]; [by apply Forall_filter | done | by apply steady_tier|]. by eexists.
Qed.

Lemma stick_perm s l : stick s l ≡ₚ l.
Proof.
  unfold stick. destruct s as [i|]; [|done]. destruct (list_find _ l) as [[k t]|] eqn:E; [|done].
  destruct l as [|x l]; [done|]. case_match; [|done].
  apply list_find_Some in E as (Hk & _). by rewrite <- delete_Permutation by done.
Qed.

Lemma delete_app_lt {A} k (a b : list A) : (k < length a)%nat -> delete k (a ++ b) = delete k a ++ b.
Proof.
  revert k. induction a as [|x a IH]; intros [|k]; simpl; try done; try lia.
  intros Hk. f_equal. apply IH. lia.
Qed.

Lemma stick_tiered s l : tiered l -> tiered (stick s l).
Proof.
  intros (main & bk & -> & Hm & Hb). unfold stick. destruct s as [i|]; [|by exists main, bk].
  destruct (list_find _ (main ++ bk)) as [[k t]|] eqn:E; [|by exists main, bk].
  apply list_find_Some in E as (Hk & _). destruct main as [|x main]; cbn [app].
  - destruct bk as [|y bk]; [by exists [], []|]. case_match; [|by exists [], (y :: bk)].
    exists [], (t :: delete k (y :: bk)). split; [done|]. split; [done|].
    constructor; [by apply (Forall_lookup_1 _ _ _ _ Hb Hk) | by apply Forall_delete].
  - case_match; [|by exists (x :: main), bk].
    assert (Hx : backup x = false) by (by apply Forall_cons in Hm as [? _]).
    assert (Ht : backup t = false) by (rewrite <- Hx; by apply Bool.eqb_prop).
    assert (Hlt : (k < length (x :: main))%nat).
    { destruct (Nat.lt_ge_cases k (length (x :: main))) as [|Hge]; [done|]. exfalso.
      rewrite lookup_app_r in Hk by done. apply (Forall_lookup_1 _ _ _ _ Hb) in Hk. congruence. }
    exists (t :: delete k (x :: main)), bk.
    split; [|split; [constructor; [done | by apply Forall_delete] | done]].
    cbn [app]. f_equal. change (x :: main ++ bk) with ((x :: main) ++ bk). by apply delete_app_lt.
Qed.

(** The candidates: the targets in rotation, or every target when none is. *)
Definition candidates (p : Pool) (hp : heap) (now : Z) : list Target :=
  match List.filter (fun t => in_rotation (health_of hp t) now) (targets p) with
  | [] => targets p
  | up => up
  end.

Definition chosen_turn (p : Pool) (k : option Z) (turn : Z) : Z :=
  match balance p, k with Priority, _ => 0 | Hash, Some _ => 0 | _, _ => turn end.

Definition hash_key (p : Pool) (a : Affinity) : option Z :=
  match key a with Some k => if decide (balance p = Hash) then Some k else None | None => None end.

Lemma order_for_managed ln p hp rd now turn a : managed p = true ->
  (order_for ln p hp rd now turn a).1 =
  let k := hash_key p a in
  match (match tiers ln p hp (rd true) now k (chosen_turn p k turn) true with
         | Some [] => tiers ln p hp (rd false) now k (chosen_turn p k turn) false
         | up => up
         end) with
  | Some l => Some (stick (stuck a) l)
  | None => None
  end.
Proof.
  intros Hm. unfold order_for. rewrite Hm. cbn [negb].
  change (match key a with Some k => if decide (balance p = Hash) then Some k else None | None => None end)
    with (hash_key p a). unfold chosen_turn.
  destruct (hash_key p a), (balance p); cbn [fst]; by destruct (tiers _ _ _ _ _ _ _ true) as [[|? ?]|].
Qed.

(** The order before the sticky target is moved. *)
Lemma order_for_unstuck ln p hp rd now turn a out : managed p = true -> (order_for ln p hp rd now turn a).1 = Some out ->
  exists l, out = stick (stuck a) l /\ tiered l /\ l ≡ₚ candidates p hp now.
Proof.
  intros Hm. rewrite order_for_managed by done. cbn zeta.
  destruct (tiers ln p hp (rd true) now _ _ true) as [l|] eqn:E; [|done]. apply tiers_spec in E as [Hl Hp].
  unfold candidates. change (eligible hp now true) with (fun t => in_rotation (health_of hp t) now) in Hp.
  destruct l as [|x l].
  - destruct (tiers ln p hp (rd false) now _ _ false) as [l'|] eqn:E'; [|done]. apply tiers_spec in E' as [Hl' Hp']. intros [= <-].
    apply Permutation_nil_l in Hp. rewrite <- Hp. exists l'. split_and!; [done | done |].
    rewrite Hp'. clear. induction (targets p) as [|t ts IH]; [done|]. simpl. by constructor.
  - intros [= <-]. exists (x :: l). split_and!; [done | done |].
    destruct (List.filter (fun t => in_rotation (health_of hp t) now) (targets p)); [|done].
    symmetry in Hp. by apply Permutation_nil_cons in Hp.
Qed.

Lemma order_for_some ln p hp rd now turn a : managed p = true -> Forall (fun t => 0 < weight t) (targets p) -> 0 <= turn ->
  (forall o b, undisturbed p (rd o b) (targets p)) -> exists out, (order_for ln p hp rd now turn a).1 = Some out.
Proof.
  intros Hm HF Ht Hu. rewrite order_for_managed by done. cbn zeta.
  assert (Ht' : 0 <= chosen_turn p (hash_key p a) turn) by (unfold chosen_turn; repeat case_match; lia).
  destruct (tiers_some ln p hp (rd true) now (hash_key p a) _ true HF Ht' (Hu true)) as [l ->].
  destruct (tiers_some ln p hp (rd false) now (hash_key p a) _ false HF Ht' (Hu false)) as [l' ->]. destruct l; by eexists.
Qed.

(** C4.  Whatever the balance, key or cookie, and whatever other requests do meanwhile: the order of a managed pool,
    when there is one, is a permutation of the targets in rotation (of all of them when none is in rotation, so a request
    is never left without a target), with every main target before every backup.  There is one unless the pool balances
    by least connections and an in-flight count changed between two loads; then there may be none: the pick panics. *)
Theorem order_for_complete ln p hp rd now turn a :
  managed p = true -> Forall (fun t => 0 < weight t) (targets p) -> 0 <= turn ->
  (forall out, (order_for ln p hp rd now turn a).1 = Some out -> out ≡ₚ candidates p hp now /\ tiered out)
  /\ ((forall o b, undisturbed p (rd o b) (targets p)) -> exists out, (order_for ln p hp rd now turn a).1 = Some out).
Proof.
  intros Hm HF Ht. split; [|by apply order_for_some].
  intros out (l & -> & Htl & Hp)%order_for_unstuck; [|done]. split; [by rewrite stick_perm | by apply stick_tiered].
Qed.

Definition demo_pool : Pool :=
  mkPool (lit "/api") (demo_tier ++ [demo_target 3 1 true]) true RoundRobin None 3 (from_secs 10)
    (from_secs 300) 5 None None.
Definition demo_heap : heap :=
  [health_default; set_passing false health_default; health_default; health_default].

Lemma order_for_complete_witness :
  exists l, (order_for (fun x => x) demo_pool demo_heap (fun _ _ => still demo_heap) 100 7 (mkAffinity None (Some 2))).1 = Some l
    /\ l ≡ₚ candidates demo_pool demo_heap 100 /\ tiered l.
Proof.
  destruct (order_for_complete (fun x => x) demo_pool demo_heap (fun _ _ => still demo_heap) 100 7 (mkAffinity None (Some 2))) as [H1 H2];
    [reflexivity | repeat constructor; vm_compute; congruence | lia |].
  destruct H2 as [out Ho]; [intros o b Hb; discriminate Hb|]. exists out. split; [exact Ho | exact (H1 out Ho)].
Defined.

(** A least-connections pool with one target in rotation and one request on it that ends between the first pass and the
    second: nobody has the least load any more. *)
Example least_conn_panics :
  let p := mkPool (lit "/api") [demo_target 0 1 false; demo_target 1 1 false] true LeastConn None 3 (from_secs 10) (from_secs 300) 5 None None in
  let hp n := [set_in_flight n health_default; set_passing false health_default] in
  (order_for (fun x => x) p (hp 1) (fun _ _ => mkReads (hp 1) (hp 0) (hp 0)) 100 7 (mkAffinity None None)).1 = None.
Proof. vm_compute. reflexivity. Qed.

(** ** Hashing *)

Definition desc {A} (f : A -> Z) (l : list A) : Prop := Sorted.StronglySorted (fun a b => f b <= f a) l.

Lemma insert_desc_sorted {A} (f : A -> Z) x l : desc f l -> desc f (insert_desc f x l).
Proof.
  induction 1 as [|y l Hl IH Hy]; simpl; [repeat constructor|].
  destruct (Z.leb_spec (f y) (f x)).
  - constructor; [by constructor|]. constructor; [done|]. eapply Forall_impl; [exact Hy|]. simpl. lia.
  - constructor; [done|]. rewrite (insert_desc_perm f x l). constructor; [lia | done].
Qed.

Lemma sort_desc_sorted {A} (f : A -> Z) l : desc f (sort_desc f l).
Proof. induction l as [|x l IH]; simpl; [constructor | by apply insert_desc_sorted]. Qed.

Lemma insert_desc_first {A} (f : A -> Z) x l :
  Forall (fun y => f y <= f x) l -> insert_desc f x l = x :: l.
Proof. destruct 1 as [|y l Hy _]; simpl; [done|]. by apply Z.leb_le in Hy as ->. Qed.

Lemma insert_desc_filter {A} (f : A -> Z) (P : A -> bool) x l : desc f l ->
  List.filter P (insert_desc f x l)
  = if P x then insert_desc f x (List.filter P l) else List.filter P l.
Proof.
  induction 1 as [|y l Hl IH Hy]; simpl; [by case_match|].
  destruct (Z.leb_spec (f y) (f x)) as [Hle|Hgt]; simpl.
  - destruct (P x) eqn:Ex; [|done]. destruct (P y) eqn:Ey; simpl.
    + apply Z.leb_le in Hle. by rewrite Hle.
    + rewrite insert_desc_first; [done|]. apply Forall_filter. eapply Forall_impl; [exact Hy|]. simpl. lia.
  - destruct (P y) eqn:Ey; rewrite IH; destruct (P x) eqn:Ex; simpl; try done.
    destruct (Z.leb_spec (f y) (f x)); [lia | done].
Qed.

(** Sorting is stable under removal. *)
Lemma sort_desc_filter {A} (f : A -> Z) (P : A -> bool) l :
  sort_desc f (List.filter P l) = List.filter P (sort_desc f l).
Proof.
  induction l as [|x l IH]; [done|]. cbn [List.filter sort_desc foldr].
  change (foldr (insert_desc f) [] l) with (sort_desc f l).
  rewrite insert_desc_filter by apply sort_desc_sorted. destruct (P x); cbn [sort_desc foldr]; [|done].
  change (foldr (insert_desc f) [] (List.filter P l)) with (sort_desc f (List.filter P l)). by rewrite IH.
Qed.

Lemma filter_filter {A} (f g : A -> bool) l :
  List.filter f (List.filter g l) = List.filter (fun x => f x && g x) l.
Proof.
  induction l as [|x l IH]; [done|]. simpl. destruct (g x) eqn:Eg; simpl.
  - rewrite andb_true_r. destruct (f x); by rewrite IH.
  - by rewrite andb_false_r.
Qed.

(** Rendezvous hashing moves only what it must: when one target leaves rotation (and another is
    still in it), every request's order is what it was with that target taken out, so the requests of the
    others stay where they were. *)
Theorem hash_minimal_disruption ln p hp hp' rd rd' now turn turn' k x :
  managed p = true -> balance p = Hash ->
  (forall t, t ∈ targets p -> in_rotation (health_of hp' t) now
                              = negb (bool_decide (t = x)) && in_rotation (health_of hp t) now) ->
  existsb (fun t => in_rotation (health_of hp' t) now) (targets p) = true ->
  exists l, (order_for ln p hp rd now turn (mkAffinity (Some k) None)).1 = Some l
    /\ (order_for ln p hp' rd' now turn' (mkAffinity (Some k) None)).1
       = Some (List.filter (fun t => negb (bool_decide (t = x))) l).
Proof.
  intros Hm Hb Hrot Hsome. rewrite !order_for_managed by done. cbn zeta.
  unfold hash_key, tiers, order_tier. cbn [key stuck stick]. rewrite decide_True by done.
  set (sc := sort_desc (fun t => to_bits (score ln k t))).
  set (P := fun t => negb (bool_decide (t = x))).
  assert (Ht : forall b, tier_of p hp' now true b = List.filter P (tier_of p hp now true b)).
  { intros b. unfold tier_of. rewrite filter_filter. apply filter_ext_in. intros t Hin%list_elem_of_In.
    rewrite (Hrot t Hin). unfold P. cbn [negb orb]. destruct (Bool.eqb (backup t) b); cbn [andb];
    by rewrite ?andb_false_r. }
  rewrite !Ht. unfold sc. rewrite !sort_desc_filter. fold sc. rewrite <- List.filter_app.
  set (l := sc (tier_of p hp now true false) ++ sc (tier_of p hp now true true)).
  assert (Hne : List.filter P l <> []).
  { intros Hnil. apply existsb_exists in Hsome as (t & Hin & Hr). rewrite <- list_elem_of_In in Hin.
    rewrite (Hrot t Hin) in Hr. apply andb_true_iff in Hr as [HP Hr].
    assert (Hl : t ∈ l).
    { unfold l, sc. rewrite !sort_desc_perm, tiers_filter. apply list_elem_of_In, filter_In.
      split; [by apply list_elem_of_In | done]. }
    assert (Hf : In t (List.filter P l)) by (apply filter_In; split; [by apply list_elem_of_In | done]).
    by rewrite Hnil in Hf. }
  exists l. split.
  - destruct l as [|y l]; [done|]. done.
  - destruct (List.filter P l); [done|]. done.
Qed.

Definition hash_pool : Pool :=
  mkPool (lit "/api") demo_tier true Hash None 3 (from_secs 10) (from_secs 300) 5 (Some ClientIp) None.

Lemma hash_minimal_disruption_witness :
  exists l, (order_for (fun x => x) hash_pool [] (fun _ _ => still []) 100 0 (mkAffinity (Some 77) None)).1 = Some l
    /\ (order_for (fun x => x) hash_pool demo_heap (fun _ _ => still []) 100 0 (mkAffinity (Some 77) None)).1
       = Some (List.filter (fun t => negb (bool_decide (t = demo_target 1 1 false))) l).
Proof.
  apply (hash_minimal_disruption (fun x => x) hash_pool [] demo_heap (fun _ _ => still []) (fun _ _ => still []) 100 0 0 77 (demo_target 1 1 false));
    [reflexivity | reflexivity | | reflexivity].
  intros t Ht. apply list_elem_of_In in Ht.
  repeat (destruct Ht as [<-|Ht]; [vm_compute; reflexivity|]). destruct Ht.
Defined.
