(* ===== verification/PoolLaws.v ===== *)
(** * PoolLaws: passive health, sticky cookies and the body check of a pool

    [answered] never empties the rotation; the sticky cookie brings a client back to its target and can be
    stripped from what the upstream sees; the incremental search of a check's body is a search of the
    whole. *)

From S2P Require Import Prelude Text Net Units Float Http Health Pool PoolOrder.

(** ** Passive health *)

(** Every target's record is in the heap. *)
Definition heap_ok (p : Pool) (hp : heap) : Prop :=
  Forall (fun t => (health t < length hp)%nat) (targets p).

Lemma length_update_health f t hp : length (update_health f t hp) = length hp.
Proof. apply length_alter. Qed.

Lemma health_of_update f t o hp : (health t < length hp)%nat ->
  health_of (update_health f t hp) o
  = if decide (health o = health t) then f (health_of hp t) else health_of hp o.
Proof.
  intros Ht. unfold health_of, update_health. destruct (decide (health o = health t)) as [E|E].
  - rewrite E, list_lookup_alter_eq. destruct (lookup_lt_is_Some_2 _ _ Ht) as [h ->]. done.
  - by rewrite list_lookup_alter_ne.
Qed.

Lemma update_keeps_rotation f t hp now o : (health t < length hp)%nat ->
  (in_rotation (health_of hp t) now = true -> in_rotation (f (health_of hp t)) now = true) ->
  in_rotation (health_of hp o) now = true -> in_rotation (health_of (update_health f t hp) o) now = true.
Proof.
  intros Ht Hf Ho. rewrite health_of_update by done. case_decide as E; [|done].
  apply Hf. unfold health_of in *. by rewrite <- E.
Qed.

Lemma connected_rotation h now : in_rotation (connected h) now = in_rotation h now.
Proof. unfold connected. by case_match. Qed.

Lemma answered_ok_rotation h now : 0 <= now -> in_rotation h now = true -> in_rotation (answered_ok h) now = true.
Proof.
  intros H0. unfold answered_ok, in_rotation. rewrite !andb_true_iff, !Z.leb_le.
  destruct (negb (http_5xx h =? 0)); cbn [set_http_5xx ejected_until]; case_match; cbn; intuition lia.
Qed.

(** Nobody leaves rotation. *)
Definition all_stay (hp hp' : heap) (now : Z) : Prop :=
  forall o, in_rotation (health_of hp o) now = true -> in_rotation (health_of hp' o) now = true.

Lemma all_stay_update f t hp now : (health t < length hp)%nat ->
  (in_rotation (health_of hp t) now = true -> in_rotation (f (health_of hp t)) now = true) ->
  all_stay hp (update_health f t hp) now.
Proof. intros Ht Hf o. by apply update_keeps_rotation. Qed.

Lemma all_stay_trans hp1 hp2 hp3 now :
  all_stay hp1 hp2 now -> all_stay hp2 hp3 now -> all_stay hp1 hp3 now.
Proof. unfold all_stay. auto. Qed.

Lemma all_stay_any p hp hp' now :
  all_stay hp hp' now -> any_in_rotation p hp now = true -> any_in_rotation p hp' now = true.
Proof.
  intros Hs. unfold any_in_rotation. rewrite !orb_true_iff, !existsb_exists.
  intros [?|(o & Ho & Hr)]; [by left|]. right. exists o. auto.
Qed.

(** What [answered] does: nobody leaves, or [t] does, on enough [5xx] and with another in rotation. *)
Lemma answered_cases p t status now hp :
  managed p = true -> (health t < length hp)%nat -> 0 <= now -> 0 <= http_5xx (health_of hp t) < 2 ^ 32 - 1 ->
  let hp' := answered p t status now hp in
  all_stay hp hp' now
  \/ (500 <= status /\ eject_after_5xx p <> 0 /\ eject_after_5xx p <= http_5xx (health_of hp t) + 1
      /\ (forall o, health o <> health t -> health_of hp' o = health_of hp o)
      /\ exists o, o ∈ targets p /\ health o <> health t /\ in_rotation (health_of hp o) now = true).
Proof.
  intros Hm Ht H0 H5. unfold answered. rewrite Hm. cbn [negb]. cbn zeta.
  assert (S1 : all_stay hp (update_health connected t hp) now)
    by (apply all_stay_update; [done|]; by rewrite connected_rotation).
  set (hp1 := update_health connected t hp) in *.
  assert (Ht1 : (health t < length hp1)%nat) by (unfold hp1; by rewrite length_update_health).
  destruct (Z.ltb_spec status 500).
  { left. eapply all_stay_trans; [exact S1|]. apply all_stay_update; [done|]. by apply answered_ok_rotation. }
  destruct (Z.eqb_spec (eject_after_5xx p) 0) as [|Hcfg]; [by left|].
  assert (Hn : http_5xx (health_of hp1 t) = http_5xx (health_of hp t)).
  { unfold hp1. rewrite health_of_update, decide_True by done. unfold connected. by case_match. }
  rewrite Hn, wrap_small by (unfold in_u; lia). set (n := http_5xx (health_of hp t) + 1).
  assert (S2 : all_stay hp (update_health (set_http_5xx n) t hp1) now)
    by (eapply all_stay_trans; [exact S1 | by apply all_stay_update]).
  set (hp2 := update_health (set_http_5xx n) t hp1) in *.
  destruct (Z.ltb_spec n (eject_after_5xx p)); [by left|].
  destruct (negb (in_rotation (health_of hp2 t) now)); [by left|].
  destruct (existsb _ (targets p)) eqn:Eo; cbn [negb]; [|by left]. right.
  assert (Hsame : forall o, health o <> health t -> health_of hp2 o = health_of hp o).
  { intros o Ho. unfold hp2, hp1. by rewrite !health_of_update, !decide_False by (rewrite ?length_update_health; done). }
  split; [done|]. split; [done|]. split; [unfold n in *; lia|]. split.
  - intros o Ho.
    rewrite !health_of_update, !decide_False by (unfold hp2; rewrite ?length_update_health; done). by apply Hsame.
  - apply existsb_exists in Eo as (o & Ho & [Hne Hr]%andb_true_iff). exists o.
    apply negb_true_iff, Nat.eqb_neq in Hne. rewrite Hsame in Hr by done.
    split; [by apply list_elem_of_In | done].
Qed.

(** An answer never empties the rotation: whatever a target answers, if some target was in rotation
    one still is, so a [5xx] ejection never takes the last one; and a target leaves rotation on an answer
    only when that completes [eject_after_5xx] [5xx] answers in a row. *)
Theorem answered_keeps_rotation p t status now hp :
  managed p = true -> (health t < length hp)%nat -> 0 <= now -> 0 <= http_5xx (health_of hp t) < 2 ^ 32 - 1 ->
  let hp' := answered p t status now hp in
  (any_in_rotation p hp now = true -> any_in_rotation p hp' now = true)
  /\ (forall o, in_rotation (health_of hp o) now = true -> in_rotation (health_of hp' o) now = false ->
      health o = health t /\ 500 <= status /\ eject_after_5xx p <> 0
      /\ eject_after_5xx p <= http_5xx (health_of hp t) + 1).
Proof.
  intros Hm Ht H0 H5. pose proof (answered_cases p t status now hp Hm Ht H0 H5) as Hc.
  cbn zeta in *. set (hp' := answered p t status now hp) in *.
  destruct Hc as [Hs|(H1 & H2 & H3 & Hsame & o & Ho & Hne & Hr)].
  - split; [by apply all_stay_any|]. intros o Hr1 Hr2. apply Hs in Hr1. congruence.
  - split.
    + intros _. unfold any_in_rotation. apply orb_true_iff. right. apply existsb_exists. exists o.
      split; [by apply list_elem_of_In | by rewrite Hsame].
    + intros o' Hr1 Hr2. destruct (decide (health o' = health t)) as [->|E]; [done|].
      rewrite Hsame in Hr2 by done. congruence.
Qed.

Lemma answered_keeps_rotation_witness :
  let hp := [set_http_5xx 4 health_default; health_default; set_passing false health_default; set_passing false health_default] in
  let t := demo_target 0 3 false in
  let hp' := answered demo_pool t 503 100 hp in
  (any_in_rotation demo_pool hp 100 = true -> any_in_rotation demo_pool hp' 100 = true)
  /\ (forall o, in_rotation (health_of hp o) 100 = true -> in_rotation (health_of hp' o) 100 = false ->
      health o = health t /\ 500 <= 503 /\ eject_after_5xx demo_pool <> 0
      /\ eject_after_5xx demo_pool <= http_5xx (health_of hp t) + 1).
Proof.
  apply (answered_keeps_rotation demo_pool (demo_target 0 3 false) 503 100
    [set_http_5xx 4 health_default; health_default; set_passing false health_default; set_passing false health_default]);
    [reflexivity | vm_compute; lia | lia | vm_compute; split; congruence].
Defined.

(** ** The search of a check's body *)

Lemma contains_text_true t s : contains_text t s = true <-> exists a b, s = a ++ t ++ b.
Proof.
  induction s as [|x s IH]; cbn [contains_text]; rewrite orb_true_iff, starts_with_true.
  - split.
    + intros [[r Hr]|?]; [|done]. exists [], r. done.
    + intros (a & b & H). left. destruct a; [|done]. simpl in H. by exists b.
  - rewrite IH. split.
    + intros [[r Hr]|(a & b & ->)]; [by exists [], r | by exists (x :: a), b].
    + intros ([|y a] & b & H); simpl in H; [left; by exists b|]. injection H as -> ->. right. by exists a, b.
Qed.

(** Text that is new in [s ++ d] reaches past [s], so the search may start [|t| - 1] bytes before its
    end. *)
Lemma contains_text_new t s d :
  t <> [] -> contains_text t s = false ->
  contains_text t (drop (length s - (length t - 1)) (s ++ d)) = contains_text t (s ++ d).
Proof.
  intros Hne Hno. apply Bool.eq_true_iff_eq. rewrite !contains_text_true. split.
  - intros (a & b & H). exists (take (length s - (length t - 1)) (s ++ d) ++ a), b.
    rewrite <- app_assoc, <- H. by rewrite take_drop.
  - intros (a & b & H).
    destruct (Nat.le_gt_cases (length s - (length t - 1)) (length a)) as [Hle|Hgt].
    + exists (drop (length s - (length t - 1)) a), b. rewrite H. by rewrite drop_app_le.
    + exfalso. assert (Hin : contains_text t s = true); [|congruence].
      apply contains_text_true. exists a, (take (length s - length (a ++ t)) b).
      assert (Hs : s = take (length s) (a ++ t ++ b)) by (rewrite <- H; by rewrite take_app_length).
      rewrite Hs at 1. rewrite app_assoc, take_app_ge, app_assoc; [done|].
      rewrite length_app. destruct t; [done|]. simpl in *. lia.
Qed.

Lemma take_take_app {A} n (a b : list A) : take n (take n a ++ b) = take n (a ++ b).
Proof.
  destruct (Nat.le_gt_cases (length a) n).
  - by rewrite (take_ge a).
  - rewrite !take_app_le by (rewrite ?length_take; lia). by rewrite take_idemp.
Qed.

Lemma check_text_go is_match t seen ds :
  t <> [] -> contains_text t seen = false -> (length seen <= CHECK_BODY_LIMIT)%nat ->
  check_body_go is_match (BodyText t) seen (map Data ds)
  = contains_text t (take CHECK_BODY_LIMIT (seen ++ concat ds)).
Proof.
  intros Hne. revert seen. induction ds as [|d ds IH]; intros seen Hno Hlen; cbn [map check_body_go concat].
  - rewrite app_nil_r, take_ge by done. by destruct (CHECK_BODY_LIMIT <=? length seen)%nat.
  - destruct (Nat.leb_spec CHECK_BODY_LIMIT (length seen)).
    + rewrite take_app_le, take_ge by lia. done.
    + set (seen' := take CHECK_BODY_LIMIT (seen ++ d)).
      assert (Hs : seen' = seen ++ take (CHECK_BODY_LIMIT - length seen) d)
        by (unfold seen'; by rewrite take_app_ge by lia).
      rewrite Hs at 1. rewrite contains_text_new by done. rewrite <- Hs.
      assert (Hw : take CHECK_BODY_LIMIT (seen ++ d ++ concat ds) = take CHECK_BODY_LIMIT (seen' ++ concat ds))
        by (unfold seen'; by rewrite take_take_app, <- app_assoc).
      rewrite Hw. destruct (contains_text t seen') eqn:E.
      * symmetry. apply contains_text_true in E as (a & b & E). apply contains_text_true.
        exists a, (b ++ take (CHECK_BODY_LIMIT - length seen') (concat ds)).
        rewrite take_app_ge by (unfold seen'; rewrite length_take; lia). rewrite E, <- !app_assoc. done.
      * apply IH; [done|]. unfold seen'. rewrite length_take. lia.
Qed.

(** A check that expects a text passes exactly when the status is expected and the text is in the
    first 64 KiB of the body, however the body is framed and although only the end of what has arrived is
    searched each time. *)
Theorem check_http_text is_match hc t status ds :
  hc_body hc = Some (BodyText t) -> t <> [] ->
  check_http is_match hc (Some (status, map Data ds)) = true
  <-> passes hc status = true /\ exists a b, take CHECK_BODY_LIMIT (concat ds) = a ++ t ++ b.
Proof.
  intros Hb Hne. unfold check_http. rewrite Hb. destruct (passes hc status); cbn [negb]; [|by split; [|intros [? _]]].
  rewrite check_text_go; [|done | |unfold CHECK_BODY_LIMIT; simpl; lia].
  - cbn [app]. rewrite contains_text_true. tauto.
  - destruct (contains_text t []) eqn:E; [|done]. apply contains_text_true in E as (a & b & E).
    destruct a; [|done]. destruct t; done.
Qed.

Definition demo_check : HealthCheck :=
  mkHealthCheck CheckHttp (lit "/healthz") (from_secs 5) (from_secs 2) 2 2 (lit "200-299") [(200, 299)]
    (lit "ready") [] (Some (BodyText (lit "ready"))) (lit "GET") [] [] None None.

Lemma check_http_text_witness :
  check_http (fun _ _ => false) demo_check (Some (200, map Data [lit "rea"; lit "dy"])) = true
  <-> passes demo_check 200 = true
      /\ exists a b, take CHECK_BODY_LIMIT (concat [lit "rea"; lit "dy"]) = a ++ lit "ready" ++ b.
Proof.
  apply (check_http_text (fun _ _ => false) demo_check (lit "ready") 200 [lit "rea"; lit "dy"]); done.
Defined.

(** ** The sticky cookie comes back *)

Lemma hex_val_digit d : 0 <= d < 16 -> hex_val (hex_digit d) = Some d /\ is_graphic (hex_digit d) = true
  /\ hex_digit d <> 43 /\ hex_digit d <> 59 /\ hex_digit d <> 61.
Proof.
  intros H. assert (HF : forallb (fun d => bool_decide (hex_val (hex_digit d) = Some d) && is_graphic (hex_digit d)
      && negb (hex_digit d =? 43) && negb (hex_digit d =? 59) && negb (hex_digit d =? 61)) (seqZ 0 16) = true)
    by (vm_compute; reflexivity).
  rewrite forallb_forall in HF. specialize (HF d). rewrite <- list_elem_of_In, elem_of_seqZ in HF.
  specialize (HF ltac:(lia)). rewrite !andb_true_iff, !negb_true_iff, !Z.eqb_neq, bool_decide_eq_true in HF. tauto.
Qed.

Lemma hex_go_app acc a b : hex_go acc (a ++ b) = match hex_go acc a with Some n => hex_go n b | None => None end.
Proof.
  revert acc. induction a as [|c a IH]; intros acc; simpl; [done|]. destruct (hex_val c); [|done].
  case_match; [apply IH | done].
Qed.

Lemma hex_go_pad n z : (n <= 16)%nat -> 0 <= z < 16 ^ Z.of_nat n -> hex_go 0 (hex_pad n z) = Some z.
Proof.
  revert z. induction n as [|n IH]; intros z Hn Hz; cbn [hex_pad].
  - simpl in Hz. simpl. f_equal. lia.
  - rewrite Nat2Z.inj_succ, Z.pow_succ_r in Hz by lia.
    pose proof (Z.div_mod z 16 ltac:(lia)). pose proof (Z.mod_pos_bound z 16 ltac:(lia)).
    rewrite hex_go_app, IH by lia. simpl. destruct (hex_val_digit (z mod 16)) as [-> _]; [done|].
    assert (16 ^ Z.of_nat n <= 16 ^ 15) by (apply Z.pow_le_mono_r; lia).
    assert (Hlt : z < 2 ^ 64) by (change (2 ^ 64) with (16 * 16 ^ 15); lia).
    replace (z / 16 * 16 + z mod 16) with z by lia. destruct (Z.ltb_spec z (2 ^ 64)); [done | lia].
Qed.

Lemma hex_pad_digits n z : Forall (fun c => is_graphic c = true /\ c <> 43 /\ c <> 59 /\ c <> 61) (hex_pad n z).
Proof.
  revert z. induction n as [|n IH]; intros z; [constructor|]. cbn [hex_pad]. apply Forall_app.
  split; [done|]. constructor; [|done].
  destruct (hex_val_digit (z mod 16)) as (_ & H1 & H2); [apply Z.mod_pos_bound; lia | tauto].
Qed.

Lemma parse_hex_pad z : in_u 64 z -> parse_hex_u64 (hex_pad 16 z) = Some z.
Proof.
  intros Hz. unfold parse_hex_u64. pose proof (hex_pad_digits 16 z) as HF.
  pose proof (hex_go_pad 16 z ltac:(lia) Hz) as Hg.
  destruct (hex_pad 16 z) as [|c r] eqn:E; [|].
  - apply (f_equal length) in E. cbn [hex_pad] in E. rewrite length_app in E. simpl in E. lia.
  - apply Forall_cons in HF as [(_ & Hc & _) _]. destruct (Z.eqb_spec c 43); done.
Qed.

Lemma cookie_name_chars name : is_cookie_name name = true ->
  name <> [] /\ Forall (fun c => is_graphic c = true /\ c <> 59 /\ c <> 61) name.
Proof.
  unfold is_cookie_name. rewrite andb_true_iff, negb_true_iff. intros [Hne HF]. split.
  - intros ->. by rewrite beq_refl in Hne.
  - rewrite forallb_forall in HF. apply Forall_forall. intros c Hc%list_elem_of_In%HF.
    apply andb_true_iff in Hc as [Hg Hs]. split; [done|]. split; intros ->; vm_compute in Hs; done.
Qed.

(** The pair a client sends back: the cookie's name and value, before its attributes. *)
Definition sticky_pair (s : Sticky) (t : Target) : bytes := s_name s ++ [61] ++ hex_pad 16 (id t).

Lemma last_graphic n z : exists m d, hex_pad (S n) z = m ++ [d] /\ is_graphic d = true.
Proof.
  cbn [hex_pad]. eexists _, _. split; [done|].
  apply hex_val_digit, Z.mod_pos_bound. lia.
Qed.

Lemma cookie_value_pair s t : is_cookie_name (s_name s) = true ->
  cookie_value (s_name s) (sticky_pair s t) = Some (hex_pad 16 (id t)).
Proof.
  intros [Hne HF]%cookie_name_chars. unfold cookie_value.
  assert (Htrim : trim (sticky_pair s t) = sticky_pair s t).
  { unfold sticky_pair. destruct (last_graphic 15 (id t)) as (m & d & -> & Hd).
    destruct (s_name s) as [|c r]; [done|]. apply Forall_cons in HF as [[Hc _] _]. cbn [app].
    replace (c :: r ++ 61 :: m ++ [d]) with (c :: (r ++ 61 :: m) ++ [d]) by by rewrite <- app_assoc.
    by apply trim_graphic. }
  rewrite Htrim. unfold sticky_pair. cbn [app].
  assert (Hs : split_once 61 (s_name s ++ 61 :: hex_pad 16 (id t)) = Some (s_name s, hex_pad 16 (id t))).
  { apply split_once_Some. split; [done|]. intros Hin. rewrite Forall_forall in HF. by apply HF in Hin as (_ & _ & ?). }
  rewrite Hs, beq_refl. destruct (beq (hex_pad 16 (id t)) []) eqn:E; [|done].
  apply beq_true, (f_equal length) in E. cbn [hex_pad] in E. rewrite length_app in E. simpl in E. lia.
Qed.

Lemma sticky_pair_no_semicolon s t : is_cookie_name (s_name s) = true -> 59 ∉ sticky_pair s t.
Proof.
  intros [_ HF]%cookie_name_chars Hin. unfold sticky_pair in Hin.
  apply elem_of_app in Hin as [Hin|[Hin|Hin]%elem_of_app].
  - rewrite Forall_forall in HF. by apply HF in Hin as (_ & ? & _).
  - by apply list_elem_of_singleton in Hin.
  - pose proof (hex_pad_digits 16 (id t)) as H. rewrite Forall_forall in H. by apply H in Hin as (_ & _ & ? & _).
Qed.

Lemma cookies_pair to_str_ok s t others :
  is_cookie_name (s_name s) = true -> to_str_ok (sticky_pair s t) = true ->
  cookies to_str_ok ((lit "cookie", sticky_pair s t) :: others) (s_name s)
  = hex_pad 16 (id t) :: cookies to_str_ok others (s_name s).
Proof.
  intros Hn Hok. unfold cookies, get_all. cbn [List.filter]. unfold named at 1. cbn [fst].
  rewrite beq_refl. cbn [map snd List.filter]. rewrite Hok. cbn [map concat].
  rewrite split_on_none by by apply sticky_pair_no_semicolon. cbn [app]. unfold omap. cbn [list_omap].
  by rewrite cookie_value_pair.
Qed.

Lemma stick_first l t :
  t ∈ l -> tiered l -> (forall o, o ∈ l -> id o = id t -> o = t) ->
  (backup t = false \/ Forall (fun o => backup o = true) l) -> head (stick (Some (id t)) l) = Some t.
Proof.
  intros Hin (main & bk & -> & Hm & Hb) Huniq Htier. unfold stick.
  destruct (list_find (fun o => id o = id t) (main ++ bk)) as [[k o]|] eqn:E.
  - apply list_find_Some in E as (Hk & Hid & _).
    assert (o = t) as -> by (apply Huniq; [by eapply list_elem_of_lookup_2 | done]).
    destruct main as [|x main]; cbn [app].
    + destruct bk as [|y bk]; [by apply elem_of_nil in Hin|].
      assert (backup t = true) as -> by (rewrite Forall_forall in Hb; by apply Hb).
      apply Forall_cons in Hb as [-> _]. done.
    + apply Forall_cons in Hm as [Hx Hm]. rewrite Hx.
      destruct Htier as [->|Hall]; [done|]. cbn [app] in Hall. apply Forall_cons in Hall as [Hx' _]. congruence.
  - apply list_find_None in E. rewrite Forall_forall in E. by apply E in Hin.
Qed.

(** The sticky cookie works end to end: the cookie the edge sets after [t] answered starts with the
    pair [name=id]; a client that sends that pair first has its next request go to [t] first, as long as
    [t] is a candidate and is not a backup behind a main target. *)
Theorem sticky_round_trip to_str_ok value_ok ln p s a t v hp rd now turn others path query client :
  managed p = true -> Forall (fun t => 0 < weight t) (targets p) -> 0 <= turn ->
  sticky p = Some s -> is_cookie_name (s_name s) = true -> to_str_ok (sticky_pair s t) = true ->
  in_u 64 (id t) -> t ∈ candidates p hp now -> t ∈ targets p ->
  (forall o, o ∈ candidates p hp now -> id o = id t -> o = t) ->
  (backup t = false \/ Forall (fun o => backup o = true) (candidates p hp now)) ->
  sticky_cookie value_ok p a t = Some v ->
  starts_with v (sticky_pair s t) = true
  /\ let req := affinity to_str_ok p ((lit "cookie", sticky_pair s t) :: others) path query client in
     stuck req = Some (id t)
     /\ forall l, (order_for ln p hp rd now turn req).1 = Some l -> head l = Some t.
Proof.
  intros Hm HF Ht Hs Hn Hok Hid Hc Htg Huniq Htier Hv. split.
  - unfold sticky_cookie in Hv. rewrite Hs in Hv. case_decide; [done|]. case_match; [|done].
    injection Hv as <-. apply starts_with_true. unfold sticky_pair. eexists. by rewrite <- !app_assoc.
  - intros req.
    assert (Hst : stuck req = Some (id t)).
    { unfold req, affinity. rewrite Hs. cbn [stuck]. rewrite cookies_pair by done. unfold omap. cbn [list_omap].
      rewrite parse_hex_pad by done. cbn [List.find].
      replace (existsb (fun o => id o =? id t) (targets p)) with true; [done|]. symmetry.
      apply existsb_exists. exists t. split; [by apply list_elem_of_In | apply Z.eqb_refl]. }
    split; [done|].
    intros out (l & -> & Htl & Hp)%order_for_unstuck; [|done]. rewrite Hst. apply stick_first; [by rewrite Hp | done | |].
    + intros o Ho. apply Huniq. by rewrite <- Hp.
    + destruct Htier as [?|Hall]; [by left | right; by rewrite Hp].
Qed.

Definition sticky_pool : Pool :=
  mkPool (lit "/api") (demo_tier ++ [demo_target 3 1 true]) true RoundRobin None 3 (from_secs 10)
    (from_secs 300) 5 None (Some (mkSticky (lit "eg_sticky") (lit "/api") None true)).

Lemma sticky_round_trip_witness :
  let s := mkSticky (lit "eg_sticky") (lit "/api") None true in
  let t := demo_target 2 2 false in
  let v := sticky_pair s t ++ lit "; Path=/api; HttpOnly; SameSite=Lax" in
  starts_with v (sticky_pair s t) = true
  /\ let req := affinity (fun _ => true) sticky_pool [(lit "cookie", sticky_pair s t)] (lit "/") None (V4 0) in
     stuck req = Some (id t)
     /\ forall l, (order_for (fun x => x) sticky_pool demo_heap (fun _ _ => still []) 100 0 req).1 = Some l -> head l = Some t.
Proof.
  apply (sticky_round_trip (fun _ => true) (fun _ => true) (fun x => x) sticky_pool
    (mkSticky (lit "eg_sticky") (lit "/api") None true) (mkAffinity None None) (demo_target 2 2 false)
    (sticky_pair (mkSticky (lit "eg_sticky") (lit "/api") None true) (demo_target 2 2 false)
       ++ lit "; Path=/api; HttpOnly; SameSite=Lax") demo_heap (fun _ _ => still []) 100 0 [] (lit "/") None (V4 0)).
  - reflexivity.
  - repeat constructor; vm_compute; congruence.
  - lia.
  - reflexivity.
  - reflexivity.
  - reflexivity.
  - vm_compute; split; congruence.
  - apply (bool_decide_unpack _). vm_compute. exact I.
  - apply (bool_decide_unpack _). vm_compute. exact I.
  - intros o Ho. apply list_elem_of_In in Ho.
    repeat (destruct Ho as [<-|Ho]; [vm_compute; congruence|]). destruct Ho.
  - left. reflexivity.
  - vm_compute. reflexivity.
Defined.

(** ** Stripping the sticky cookie *)

Definition head_ok (s : bytes) : Prop := match s with c :: _ => ascii_ws c = false | [] => True end.
Definition trimmed (s : bytes) : Prop := head_ok s /\ head_ok (rev s).

Lemma drop_while_split f s : exists p, s = p ++ drop_while f s.
Proof.
  induction s as [|c s [p IH]]; [by exists []|]. simpl. destruct (f c); [|by exists []].
  exists (c :: p). simpl. by rewrite <- IH.
Qed.

Lemma drop_while_head s : head_ok (drop_while ascii_ws s).
Proof. induction s as [|c s IH]; simpl; [done|]. destruct (ascii_ws c) eqn:E; [done | exact E]. Qed.

Lemma drop_while_ok s : head_ok s -> drop_while ascii_ws s = s.
Proof. destruct s as [|c s]; simpl; [done|]. by intros ->. Qed.

Lemma trim_ascii_trimmed s : trimmed (trim_ascii s).
Proof.
  unfold trim_ascii. set (y := drop_while ascii_ws s). split; [|rewrite rev_involutive; apply drop_while_head].
  destruct (drop_while_split ascii_ws (rev y)) as [p Hp]. apply (f_equal (@rev Z)) in Hp.
  rewrite rev_involutive, rev_app_distr in Hp.
  assert (Hy : head_ok y) by apply drop_while_head. rewrite Hp in Hy.
  destruct (rev (drop_while ascii_ws (rev y))) as [|c z]; [done|]. exact Hy.
Qed.

Lemma trim_ascii_id s : trimmed s -> trim_ascii s = s.
Proof.
  intros [H1 H2]. unfold trim_ascii. rewrite (drop_while_ok s H1), (drop_while_ok _ H2). apply rev_involutive.
Qed.

Lemma trim_ascii_space s : trimmed s -> trim_ascii (32 :: s) = s.
Proof. intros H. by apply trim_ascii_id in H. Qed.

Lemma trim_ascii_sub c s : c ∈ trim_ascii s -> c ∈ s.
Proof.
  unfold trim_ascii. intros H. destruct (drop_while_split ascii_ws s) as [p Hp].
  set (y := drop_while ascii_ws s) in *. destruct (drop_while_split ascii_ws (rev y)) as [q Hq].
  rewrite Hp, elem_of_app. right. rewrite <- (rev_involutive y), Hq, rev_app_distr, elem_of_app. by left.
Qed.

Lemma split_on_pieces c s x : x ∈ split_on c s -> c ∉ x.
Proof.
  revert x. induction s as [|a s IH]; intros x; simpl.
  - intros ->%list_elem_of_singleton. apply not_elem_of_nil.
  - destruct (Z.eqb_spec a c) as [->|Hne].
    + intros [->|Hx]%elem_of_cons; [apply not_elem_of_nil | by apply IH].
    + destruct (split_on c s) as [|q qs] eqn:E.
      * intros ->%list_elem_of_singleton. intros ?%list_elem_of_singleton. congruence.
      * intros [->|Hx]%elem_of_cons; [|apply IH; by right].
        intros [->|Hc]%elem_of_cons; [done|]. by apply (IH q); [left|].
Qed.

Lemma split_join_pairs l : l <> [] -> Forall (fun x => 59 ∉ x) l ->
  map trim_ascii (split_on 59 (join (lit "; ") l)) = match l with [] => [] | x :: r => trim_ascii x :: map (fun x => trim_ascii (32 :: x)) r end.
Proof.
  intros Hne HF. destruct HF as [|x r Hx HF]; [done|]. clear Hne. revert x Hx.
  induction HF as [|y r Hy HF IH]; intros x Hx.
  - cbn [join]. by rewrite split_on_none.
  - change (join (lit "; ") (x :: y :: r)) with (x ++ 59 :: 32 :: join (lit "; ") (y :: r)).
    rewrite split_on_app by done. cbn [map]. f_equal.
    assert (H32 : 32 :: join (lit "; ") (y :: r) = join (lit "; ") ((32 :: y) :: r)) by (by destruct r).
    rewrite H32, (IH (32 :: y)); [done|]. apply not_elem_of_cons. split; [lia | done].
Qed.

Definition pair_ok (x : bytes) : Prop := x <> [] /\ trimmed x /\ 59 ∉ x.

Lemma cookie_pairs_ok headers : Forall pair_ok (cookie_pairs headers).
Proof.
  apply Forall_forall. intros x Hx. unfold cookie_pairs in Hx.
  apply list_elem_of_In, filter_In in Hx as [Hx Hne]. apply list_elem_of_In in Hx.
  apply list_elem_of_fmap in Hx as (y & -> & Hy).
  apply list_elem_of_In, in_concat in Hy as (l & Hl & Hy). apply list_elem_of_In in Hl. apply list_elem_of_In in Hy.
  apply list_elem_of_fmap in Hl as (v & -> & _).
  split; [intros E; by rewrite E in Hne|]. split; [apply trim_ascii_trimmed|].
  intros Hc%trim_ascii_sub. by apply split_on_pieces in Hy.
Qed.

Lemma cookie_pairs_of_all headers :
  cookie_pairs headers = List.filter (fun p => negb (beq p []))
    (map trim_ascii (concat (map (split_on 59) (get_all headers (lit "cookie"))))).
Proof. done. Qed.

(** What was joined comes apart into the same pairs. *)
Lemma cookie_pairs_join headers l :
  get_all headers (lit "cookie") = [join (lit "; ") l] -> l <> [] -> Forall pair_ok l -> cookie_pairs headers = l.
Proof.
  intros Hg Hne HF. rewrite cookie_pairs_of_all, Hg. cbn [map concat]. rewrite app_nil_r, split_join_pairs.
  - assert (Hmap : match l with [] => [] | x :: r => trim_ascii x :: map (fun x => trim_ascii (32 :: x)) r end = l).
    { destruct HF as [|x r (_ & Hx & _) HF]; [done|]. rewrite trim_ascii_id by done. f_equal.
      clear -HF. induction HF as [|y r (_ & Hy & _) HF IH]; [done|]. cbn [map]. by rewrite trim_ascii_space, IH. }
    rewrite Hmap. clear -HF. induction HF as [|x r (Hx & _) HF IH]; [done|]. cbn [List.filter].
    destruct (beq x []) eqn:E; [by apply beq_true in E|]. cbn [negb]. by rewrite IH.
  - done.
  - eapply Forall_impl; [exact HF|]. by intros x (_ & _ & ?).
Qed.

(** [strip_sticky_cookie] takes the sticky cookie, and nothing else, out of what the upstream sees:
    the client's other cookies are left, in order, and every header but [Cookie] is untouched. *)
Theorem strip_sticky_exact value_ok p s headers :
  sticky p = Some s -> s_strip s = true ->
  (forall l, value_ok (join (lit "; ") l) = true) ->
  let headers' := strip_sticky_cookie value_ok p headers in
  cookie_pairs headers' = List.filter (fun x => negb (is_ours (s_name s) x)) (cookie_pairs headers)
  /\ forall n, n <> lit "cookie" -> get_all headers' n = get_all headers n.
Proof.
  intros Hs Hstrip Hok. unfold strip_sticky_cookie. rewrite Hs, Hstrip. cbn [negb]. cbn zeta.
  set (ours := is_ours (s_name s)).
  destruct (existsb ours (cookie_pairs headers)) eqn:E; cbn [negb].
  - pose proof (cookie_pairs_ok headers) as HF.
    apply (Forall_filter _ (fun x => negb (ours x))) in HF.
    destruct (List.filter (fun x => negb (ours x)) (cookie_pairs headers)) as [|x kept] eqn:Ek.
    + split; [unfold cookie_pairs; by rewrite get_all_remove, decide_True|].
      intros n Hn. by rewrite get_all_remove, decide_False.
    + rewrite Hok. split.
      * apply cookie_pairs_join; [|done | done]. by rewrite get_all_insert, decide_True.
      * intros n Hn. rewrite get_all_insert, decide_False by done. by rewrite get_all_remove, decide_False.
  - split; [|done]. rewrite <- Bool.not_true_iff_false, existsb_exists in E.
    assert (H : forall x, x ∈ cookie_pairs headers -> ours x = false).
    { intros x Hx%list_elem_of_In. destruct (ours x) eqn:Eo; [|done]. exfalso. eauto. }
    induction (cookie_pairs headers) as [|x l IH]; [done|]. cbn [List.filter]. rewrite H by left. cbn [negb].
    f_equal. apply IH; [|intros y Hy; apply H; by right]. intros (y & Hy & Ho). apply E. exists y. split; [by right | done].
Qed.

Lemma strip_sticky_exact_witness :
  let s := mkSticky (lit "eg_sticky") (lit "/api") None true in
  let headers := [(lit "cookie", lit "a=1; eg_sticky=00; b=2"); (lit "host", lit "h")] in
  let headers' := strip_sticky_cookie (fun _ => true) sticky_pool headers in
  cookie_pairs headers' = List.filter (fun x => negb (is_ours (s_name s) x)) (cookie_pairs headers)
  /\ forall n, n <> lit "cookie" -> get_all headers' n = get_all headers n.
Proof.
  apply (strip_sticky_exact (fun _ => true) sticky_pool (mkSticky (lit "eg_sticky") (lit "/api") None true)
    [(lit "cookie", lit "a=1; eg_sticky=00; b=2"); (lit "host", lit "h")]); reflexivity.
Defined.
