(* ===== verification/PoolConfig.v ===== *)
(** * PoolConfig: an [[upstreams]] entry compiled into a pool ([Pool::from_route], [src/src/pool.rs])

    Every check the source makes, in its order.  What it calls of other crates is a parameter: parsing a
    URI, a header name, a header value, a method, a regular expression. *)

From S2P Require Import Prelude Text Net Units Http Health Pool.

Record Uri : Type := mkUri {
  u_scheme : option bytes; u_authority : option bytes; u_host : option bytes; u_port : option Z;
  u_path : bytes
}.

Record TargetCfg : Type := mkTargetCfg {
  tc_url : bytes; tc_weight : option Z; tc_check_host : option bytes
}.

Record HealthCheckCfg : Type := mkHealthCheckCfg {
  hk_kind : bytes; hk_path : bytes; hk_interval : bytes; hk_timeout : bytes; hk_healthy_after : Z;
  hk_unhealthy_after : Z; hk_expect_status : bytes; hk_expect_body : bytes; hk_expect_body_regex : bytes;
  hk_method : bytes; hk_headers : list (bytes * bytes); hk_port : Z; hk_scheme : bytes
}.

#[global] Instance HealthCheckCfg_eq_dec : EqDecision HealthCheckCfg.
Proof. solve_decision. Defined.

Definition HealthCheckCfg_default : HealthCheckCfg :=
  mkHealthCheckCfg (lit "http") [] (lit "5s") (lit "2s") 2 2 (lit "200-399") [] [] (lit "GET") [] 0 [].

Record UpstreamRoute : Type := mkUpstreamRoute {
  ur_path : bytes; ur_target : bytes; ur_targets : list TargetCfg; ur_balance : bytes; ur_hash_on : bytes;
  ur_sticky_cookie : bytes; ur_sticky_cookie_max_age : bytes; ur_sticky_cookie_strip : bool;
  ur_backup : list TargetCfg; ur_health_check : HealthCheckCfg; ur_eject_after : Z; ur_eject_for : bytes;
  ur_eject_for_max : bytes; ur_eject_after_5xx : Z
}.

Definition is_empty (s : bytes) : bool := beq s [].

Definition upper_byte (c : Z) : Z := if is_lower c then c - 32 else c.
Definition to_ascii_uppercase (s : bytes) : bytes := map upper_byte s.

Section Config.
Variable parse_uri : bytes -> option Uri.             (** [http::Uri], [str::parse] *)
Variable header_name : bytes -> option bytes.         (** [HeaderName::from_bytes] *)
Variable header_value_ok : bytes -> bool.             (** [HeaderValue::from_str] *)
Variable method_of : bytes -> option bytes.           (** [Method::from_bytes] *)
Variable regex_ok : bytes -> bool.                    (** [regex::bytes::Regex::new] *)
Variable version : bytes.                             (** [CARGO_PKG_VERSION] *)

Definition check_url (url : bytes) : result unit :=
  match parse_uri url with
  | None => Err "not a URL"
  | Some u =>
      ensure (match u_scheme u with Some s => beq s (lit "http") || beq s (lit "https") | None => false end)
        else "must start with http:// or https://";
      ensure (match u_host u with Some _ => true | None => false end) else "has no host";
      Ok tt
  end.

(** [str::find] of a string. *)
Fixpoint find_text (t s : bytes) : option nat :=
  if starts_with s t then Some 0%nat
  else match s with
       | [] => None
       | _ :: s => match find_text t s with Some n => Some (S n) | None => None end
       end.

Definition without_userinfo (url : bytes) : bytes :=
  match parse_uri url with
  | None => url
  | Some u =>
      match u_authority u with
      | None => url
      | Some authority =>
          match rsplit_once 64 authority with
          | None => url
          | Some (_, after) =>
              match find_text authority url with
              | None => url
              | Some start => take start url ++ after ++ drop (start + length authority) url
              end
          end
      end
  end.

Definition upstream_for_log (base : bytes) : bytes :=
  match parse_uri base with
  | Some u =>
      let scheme := default (lit "http") (u_scheme u) in
      let host := default [] (u_host u) in
      let port := default (if beq scheme (lit "https") then 443 else 80) (u_port u) in
      scheme ++ lit "://" ++ host ++ lit ":" ++ dec port
  | None => []
  end.

Definition target_urls (url : bytes) : bytes * bytes :=
  let configured := trim_end_matches 47 url in (configured, without_userinfo configured).

(** [target]: its record is allocated at [loc]. *)
Definition target (loc : nat) (url : bytes) (bk : bool) : Target :=
  let '(configured, base) := target_urls url in
  mkTarget base (upstream_for_log base) bk 1 (hash64 configured) loc None.

Definition single (loc : nat) (route base : bytes) : Pool :=
  mkPool route [target loc base false] false Priority None 0 0 0 0 None None.

Definition HashOn_parse (text : bytes) : result HashOn :=
  match split_once 58 text with
  | None =>
      if beq text (lit "client_ip") then Ok ClientIp
      else if beq text (lit "path") then Ok Path
      else Err "expected client_ip, path, header:<name>, cookie:<name> or query:<name>"
  | Some (kind, name) =>
      if beq kind (lit "header") then
        match header_name name with Some n => Ok (OnHeader n) | None => Err "not a header name" end
      else if beq kind (lit "cookie") then
        if is_cookie_name name then Ok (OnCookie name) else Err "not a cookie name"
      else if beq kind (lit "query") then
        if negb (is_empty name)
           && forallb (fun b => is_graphic b && negb (existsb (Z.eqb b) [38; 61; 35; 37; 43])) name
        then Ok (OnQuery name) else Err "not a query parameter name this matches as sent"
      else Err "expected client_ip, path, header:<name>, cookie:<name> or query:<name>"
  end.

(** [let code = |s| ..] of [parse_statuses]. *)
Definition status_code (s : bytes) : result Z :=
  match parse_uint 16 s with
  | Some c => if (100 <=? c) && (c <=? 599) then Ok c else Err "not an HTTP status (100-599)"
  | None => Err "not an HTTP status (100-599)"
  end.

Definition status_range (part : bytes) : result (Z * Z) :=
  let part := trim part in
  match strip_suffix (lit "xx") part with
  | Some class => let? d := status_code (class ++ lit "00") in Ok (d, d + 99)
  | None =>
      match split_once 45 part with
      | Some (lo, hi) =>
          let? l := status_code (trim lo) in
          let? h := status_code (trim hi) in
          ensure (l <=? h) else "runs backwards";
          Ok (l, h)
      | None => let? c := status_code part in Ok (c, c)
      end
  end.

Definition parse_statuses (text : bytes) : result (list (Z * Z)) := collect status_range (split_on 44 text).

Definition check_body (hc : HealthCheckCfg) : result (option BodyMatch) :=
  match is_empty (hk_expect_body hc), is_empty (hk_expect_body_regex hc) with
  | true, true => Ok None
  | false, true => Ok (Some (BodyText (hk_expect_body hc)))
  | true, false =>
      if regex_ok (hk_expect_body_regex hc) then Ok (Some (BodyRegex (hk_expect_body_regex hc)))
      else Err "health_check.expect_body_regex"
  | false, false => Err "set health_check.expect_body or expect_body_regex, not both"
  end.

Definition check_method (hc : HealthCheckCfg) : result bytes :=
  let text := to_ascii_uppercase (trim (hk_method hc)) in
  match method_of text with
  | Some m =>
      ensure (negb (is_empty text)) else "health_check.method is not a method";
      ensure (negb (beq m (lit "CONNECT"))) else "health_check.method = CONNECT asks for a tunnel";
      ensure (negb (beq m (lit "HEAD")) || (is_empty (hk_expect_body hc) && is_empty (hk_expect_body_regex hc)))
        else "health_check.method = HEAD gets no body";
      Ok m
  | None => Err "health_check.method is not a method"
  end.

Definition CHECK_HEADERS_REFUSED : list bytes :=
  [lit "connection"; lit "content-length"; lit "keep-alive"; lit "proxy-connection"; lit "te";
   lit "trailer"; lit "transfer-encoding"; lit "upgrade"; lit "expect"].

Fixpoint check_headers_go (l : list (bytes * bytes)) (headers : Headers) : result Headers :=
  match l with
  | [] => Ok headers
  | (name, value) :: l =>
      match header_name (trim name) with
      | None => Err "health_check.headers: not a header name"
      | Some h =>
          ensure (negb (existsb (beq h) CHECK_HEADERS_REFUSED))
            else "health_check.headers: describes a body or a connection";
          ensure (header_value_ok value) else "health_check.headers: not a header value";
          check_headers_go l (append headers h value)
      end
  end.

Definition check_headers (hc : HealthCheckCfg) : result Headers :=
  let? headers := check_headers_go (hk_headers hc) [] in
  Ok (if contains_key headers (lit "user-agent") then headers
      else insert_h headers (lit "user-agent") (lit "edgeguard-health-check/" ++ version)).

(** [<Ipv6Addr as FromStr>] and [<Ipv4Addr as FromStr>] succeed. *)
Definition is_ipv6_text (s : bytes) : bool := match read_ipv6_addr s with Some (_, []) => true | _ => false end.
Definition is_ipv4_text (s : bytes) : bool := match read_ipv4_addr s with Some (_, []) => true | _ => false end.

Definition host_label_ok (label : bytes) : bool :=
  negb (is_empty label) && (len label <=? 63) && negb (starts_with label [45]) && negb (ends_with label [45])
  && forallb (fun b => is_alnum b || (b =? 45) || (b =? 95)) label.

Definition host_name_ok (h : bytes) : bool :=
  (len h <=? 253) && forallb host_label_ok (split_on 46 (default h (strip_suffix [46] h))).

Definition parse_check_host (raw : bytes) : result bytes :=
  let host := trim raw in
  let bracketed := match strip_prefix [91] host with Some h => strip_suffix [93] h | None => None end in
  let v6 := default host bracketed in
  if is_ipv6_text v6 then Ok ([91] ++ v6 ++ [93])
  else
    ensure (match bracketed with None => true | Some _ => false end && (is_ipv4_text host || host_name_ok host))
      else "not a host name or IP address";
    Ok host.

(** [let duration = |name, value| ..]. *)
Definition positive_duration (value : bytes) : result Duration :=
  let? d := parse_duration value in
  ensure (negb (d =? 0)) else "must be more than 0";
  Ok d.

Definition parse_balance (s : bytes) : result Balance :=
  if beq s (lit "priority") then Ok Priority
  else if beq s (lit "round_robin") then Ok RoundRobin
  else if beq s (lit "least_conn") then Ok LeastConn
  else if beq s (lit "hash") then Ok Hash
  else Err "balance: expected priority, round_robin, least_conn or hash".

Definition hash_on_of (b : Balance) (on : bytes) : result (option HashOn) :=
  match b, is_empty on with
  | Hash, true => Ok (Some ClientIp)
  | Hash, false => let? h := HashOn_parse on in Ok (Some h)
  | _, true => Ok None
  | _, false => Err "hash_on needs balance = hash"
  end.

Definition sticky_of (cfg : UpstreamRoute) : result (option Sticky) :=
  let name := ur_sticky_cookie cfg in
  if is_empty name then
    ensure (negb (negb (is_empty (ur_sticky_cookie_max_age cfg)) || ur_sticky_cookie_strip cfg))
      else "needs sticky_cookie";
    Ok None
  else
    ensure (is_cookie_name name) else "sticky_cookie is not a cookie name";
    ensure (forallb (fun b => is_graphic b && negb (b =? 59)) (ur_path cfg))
      else "sticky_cookie needs a path that can be a cookie's Path";
    let? max_age :=
      if is_empty (ur_sticky_cookie_max_age cfg) then Ok None
      else
        let? d := parse_duration (ur_sticky_cookie_max_age cfg) in
        ensure (0 <? as_secs d) else "sticky_cookie_max_age must be at least 1s";
        Ok (Some d) in
    Ok (Some (mkSticky name (ur_path cfg) max_age (ur_sticky_cookie_strip cfg))).

(** One entry of the loop over [targets] then [backup]. *)
Definition add_target (n0 : nat) (b : Balance) (ts : list Target) (entry : TargetCfg) (bk : bool)
    : result (list Target) :=
  let? _ := check_url (tc_url entry) in
  let t := target (n0 + length ts) (tc_url entry) bk in
  ensure (negb (existsb (fun o => id o =? id t) ts)) else "lists a target twice";
  let? w := match tc_weight entry with
            | None => Ok (weight t)
            | Some w =>
                ensure (negb (bool_decide (b = Priority))) else "weights only apply to round_robin, least_conn or hash";
                ensure (0 <? w) else "weight 0";
                Ok w
            end in
  let? h := match tc_check_host entry with
            | None => Ok None
            | Some raw => let? h := parse_check_host raw in Ok (Some h)
            end in
  Ok (ts ++ [mkTarget (base t) (t_label t) (backup t) w (id t) (health t) h]).

Fixpoint add_targets (n0 : nat) (b : Balance) (ts : list Target) (l : list (TargetCfg * bool))
    : result (list Target) :=
  match l with
  | [] => Ok ts
  | (entry, bk) :: l => let? ts' := add_target n0 b ts entry bk in add_targets n0 b ts' l
  end.

Definition http_only (hc : HealthCheckCfg) : bool :=
  negb (is_empty (hk_expect_body hc)) || negb (is_empty (hk_expect_body_regex hc))
  || negb (beq (trim (hk_method hc)) (lit "GET")) || negb (match hk_headers hc with [] => true | _ => false end)
  || negb (is_empty (hk_scheme hc)).

Definition health_check_of (hc : HealthCheckCfg) : result (option HealthCheck) :=
  let? kind := if beq (hk_kind hc) (lit "http") then Ok CheckHttp
               else if beq (hk_kind hc) (lit "tcp") then Ok CheckTcp
               else Err "health_check.type: expected http or tcp" in
  let? _ :=
    match kind with
    | CheckTcp =>
        ensure (negb (negb (is_empty (hk_path hc)) || negb (beq (hk_expect_status hc) (lit "200-399")) || http_only hc))
          else "does nothing with type = tcp, which only connects";
        Ok tt
    | CheckHttp => Ok tt
    end in
  match kind, is_empty (hk_path hc) with
  | CheckHttp, true =>
      ensure (negb (http_only hc || negb (hk_port hc =? 0))) else "needs health_check.path";
      Ok None
  | _, _ =>
      ensure (match kind with CheckTcp => true | CheckHttp => starts_with (hk_path hc) [47] end)
        else "health_check.path must start with /";
      ensure ((0 <? hk_healthy_after hc) && (0 <? hk_unhealthy_after hc))
        else "health_check.healthy_after and unhealthy_after must be at least 1";
      let? interval := positive_duration (hk_interval hc) in
      let? timeout := positive_duration (hk_timeout hc) in
      let? expect := parse_statuses (hk_expect_status hc) in
      let? body := check_body hc in
      let? method := check_method hc in
      let? headers := check_headers hc in
      let? scheme := let s := trim (hk_scheme hc) in
        if is_empty s then Ok None
        else if beq s (lit "http") then Ok (Some (lit "http"))
        else if beq s (lit "https") then Ok (Some (lit "https"))
        else Err "health_check.scheme: expected http or https" in
      Ok (Some (mkHealthCheck kind (hk_path hc) interval timeout (hk_healthy_after hc) (hk_unhealthy_after hc)
        (hk_expect_status hc) expect (hk_expect_body hc) (hk_expect_body_regex hc) body method headers
        (dedup (sort_bytes (map (fun '(n, _) => to_ascii_lowercase (trim n)) (hk_headers hc))))
        (if hk_port hc =? 0 then None else Some (hk_port hc)) scheme))
  end.

Definition eject_window (cfg : UpstreamRoute) : result (Duration * Duration) :=
  if (ur_eject_after cfg =? 0) && (ur_eject_after_5xx cfg =? 0) then Ok (0, 0)
  else
    let? b := positive_duration (ur_eject_for cfg) in
    let? m := if is_empty (ur_eject_for_max cfg) then Ok (Z.max b (from_secs 300))
              else
                let? m := positive_duration (ur_eject_for_max cfg) in
                ensure (b <=? m) else "eject_for_max is shorter than eject_for";
                Ok m in
    Ok (b, m).

(** Settings that need a pool. *)
Definition pool_only (cfg : UpstreamRoute) : bool :=
  negb (bool_decide (ur_health_check cfg = HealthCheckCfg_default))
  || negb (match ur_backup cfg with [] => true | _ => false end) || negb (beq (ur_balance cfg) (lit "priority"))
  || negb (ur_eject_after_5xx cfg =? 0) || negb (is_empty (ur_hash_on cfg)) || negb (is_empty (ur_sticky_cookie cfg))
  || negb (is_empty (ur_sticky_cookie_max_age cfg)) || ur_sticky_cookie_strip cfg.

Definition no_targets (cfg : UpstreamRoute) : bool := match ur_targets cfg with [] => true | _ => false end.

(** [n0] is where the pool's health records are allocated. *)
Definition from_route (n0 : nat) (cfg : UpstreamRoute) (route : bytes) : result Pool :=
  ensure (is_empty (ur_target cfg) || no_targets cfg) else "sets both target and targets";
  if no_targets cfg then
    ensure (negb (is_empty (ur_target cfg))) else "upstreams[].target must not be empty";
    let? _ := check_url (ur_target cfg) in
    ensure (negb (pool_only cfg)) else "needs a pool; write targets";
    Ok (single n0 route (ur_target cfg))
  else
    let? b := parse_balance (ur_balance cfg) in
    let? on := hash_on_of b (ur_hash_on cfg) in
    let? st := sticky_of cfg in
    let? ts := add_targets n0 b [] (map (fun e => (e, false)) (ur_targets cfg)
                                    ++ map (fun e => (e, true)) (ur_backup cfg)) in
    let? hc := health_check_of (ur_health_check cfg) in
    ensure (negb (existsb (fun t => match check_host t with Some _ => true | None => false end) ts)
            || match hc with Some _ => true | None => false end)
      else "check_host, but the pool has no active health check";
    let? w := eject_window cfg in
    Ok (mkPool route ts true b hc (ur_eject_after cfg) w.1 w.2 (ur_eject_after_5xx cfg) on st).

(** ** What a compiled pool can rely on *)

(** The targets of a pool: positive weights, distinct ids, and a record each. *)
Record targets_ok (n0 : nat) (ts : list Target) : Prop := {
  to_weights : Forall (fun t => 0 < weight t) ts;
  to_ids : NoDup (map id ts);
  to_records : map health ts = seq n0 (length ts)
}.

Lemma add_target_ok n0 b ts entry bk ts' :
  targets_ok n0 ts -> add_target n0 b ts entry bk = Ok ts' ->
  targets_ok n0 ts' /\ length ts' = S (length ts).
Proof using.
  intros [Hw Hi Hr] H. unfold add_target in H. run_inv H. subst ts'.
  set (t := target _ _ _) in *. rewrite length_app, Nat.add_1_r. split; [|done].
  assert (Hw1 : 0 < v0).
  { destruct (tc_weight entry) as [w|]; run_inv Hv0; subst; [by apply Z.ltb_lt|].
    change (0 < 1). lia. }
  assert (Hh : health t = (n0 + length ts)%nat) by done.
  split.
  - apply Forall_app. split; [done|]. by constructor.
  - rewrite map_app. apply NoDup_app. split; [done|]. split; [|apply NoDup_singleton].
    intros i Hin Hin'. cbn in Hin'. apply list_elem_of_singleton in Hin' as ->.
    apply list_elem_of_fmap in Hin as (o & Ho & Hin).
    apply negb_true_iff in He. rewrite <- Bool.not_true_iff_false, existsb_exists in He. apply He.
    exists o. split; [by apply list_elem_of_In | by apply Z.eqb_eq].
  - rewrite map_app, Hr, length_app. cbn [map health length]. rewrite Nat.add_1_r, seq_S. done.
Qed.

Lemma add_targets_ok n0 b ts l ts' :
  targets_ok n0 ts -> add_targets n0 b ts l = Ok ts' ->
  targets_ok n0 ts' /\ length ts' = (length ts + length l)%nat.
Proof using.
  revert ts. induction l as [|[entry bk] l IH]; intros ts Hok H; cbn [add_targets] in H.
  - injection H as <-. split; [done | simpl; lia].
  - run_inv H. destruct (add_target_ok _ _ _ _ _ _ Hok Hv) as [Hok' Hlen].
    destruct (IH _ Hok' H) as [? ->]. split; [done | simpl; lia].
Qed.

Lemma eject_window_ok cfg w : eject_window cfg = Ok w ->
  ur_eject_after cfg <> 0 \/ ur_eject_after_5xx cfg <> 0 -> 0 < w.1 <= w.2.
Proof using.
  clear parse_uri header_name header_value_ok method_of regex_ok version.
  intros H Hon. unfold eject_window in H.
  destruct (_ && _) eqn:E; [apply andb_true_iff in E as [E1%Z.eqb_eq E2%Z.eqb_eq]; tauto|].
  assert (Hpos : forall s d, positive_duration s = Ok d -> 0 < d).
  { intros s d Hd. unfold positive_duration in Hd. run_inv Hd. subst.
    apply parse_duration_range in Hv. apply negb_true_iff, Z.eqb_neq in He. lia. }
  run_inv H. subst w. apply Hpos in Hv. cbn [fst snd].
  destruct (is_empty (ur_eject_for_max cfg)); run_inv Hv0; subst v0; [lia|]. apply Z.leb_le in He. lia.
Qed.

Lemma check_body_text hc t : check_body hc = Ok (Some (BodyText t)) -> t <> [].
Proof using.
  unfold check_body, is_empty. destruct (beq (hk_expect_body hc) []) eqn:Eb, (beq (hk_expect_body_regex hc) []);
    try destruct (regex_ok _); intros [= <-]. intros Hn. by rewrite Hn in Eb.
Qed.

Lemma health_check_of_ok hc h : health_check_of hc = Ok (Some h) ->
  0 < healthy_after h /\ 0 < unhealthy_after h /\ (forall t, hc_body h = Some (BodyText t) -> t <> []).
Proof using.
  unfold health_check_of. intros H. apply rbind_Ok in H as (kind & _ & H). apply rbind_Ok in H as (u & _ & H).
  assert (Hgen : forall b, (0 <? hk_healthy_after hc) && (0 <? hk_unhealthy_after hc) = true ->
    check_body hc = Ok b ->
    0 < hk_healthy_after hc /\ 0 < hk_unhealthy_after hc /\ (forall t, b = Some (BodyText t) -> t <> [])).
  { intros b [H1%Z.ltb_lt H2%Z.ltb_lt]%andb_true_iff Hb. split; [done|]. split; [done|].
    intros t ->. by eapply check_body_text. }
  destruct kind, (is_empty (hk_path hc)); run_inv H; try discriminate H; subst h;
    cbn [healthy_after unhealthy_after hc_body]; by apply Hgen.
Qed.

Lemma sticky_of_ok cfg s : sticky_of cfg = Ok (Some s) -> is_cookie_name (s_name s) = true.
Proof using. unfold sticky_of. intros H. destruct (is_empty _); run_inv H; subst; done. Qed.
End Config.

(** What [from_route] guarantees of a pool. *)
Record pool_valid (n0 : nat) (p : Pool) : Prop := {
  pv_targets : targets p <> [];
  pv_ok : targets_ok n0 (targets p);
  pv_eject : managed p = true -> eject_after p <> 0 \/ eject_after_5xx p <> 0 -> 0 < eject_for p <= eject_for_max p;
  pv_checks : forall h, health_check p = Some h -> managed p = true /\ 0 < healthy_after h /\ 0 < unhealthy_after h
                /\ (forall t, hc_body h = Some (BodyText t) -> t <> []);
  pv_hash : (match hash_on p with Some _ => true | None => false end) = bool_decide (balance p = Hash);
  pv_sticky : forall s, sticky p = Some s -> managed p = true /\ is_cookie_name (s_name s) = true
}.

(** Configuration errors are caught when it is loaded: a pool [from_route] lets in has a target,
    positive weights, distinct target ids and health records, an ejection length within its maximum,
    check thresholds of at least one, a non-empty text to look for, a hash key exactly when it hashes, and
    a cookie name that can be one. *)
Theorem from_route_valid parse_uri header_name header_value_ok method_of regex_ok version n0 cfg route p :
  from_route parse_uri header_name header_value_ok method_of regex_ok version n0 cfg route = Ok p ->
  pool_valid n0 p.
Proof.
  intros H. unfold from_route in H. destruct (_ || _); [|discriminate H].
  destruct (no_targets cfg) eqn:Et.
  - run_inv H. subst p. split; try done.
    split; cbn; [constructor; [cbn; lia | constructor] | apply NoDup_singleton | done].
  - run_inv H. subst p.
    assert (H0 : targets_ok n0 []) by (split; cbn; try constructor).
    destruct (add_targets_ok _ _ _ _ _ _ H0 Hv2) as [Hok Hlen].
    split; cbn [targets managed eject_for eject_for_max eject_after eject_after_5xx health_check hash_on balance sticky].
    + intros ->. rewrite length_app, !length_map in Hlen. unfold no_targets in Et.
      destruct (ur_targets cfg); [done|]. simpl in Hlen. lia.
    + done.
    + intros _. by apply eject_window_ok.
    + intros h ->. split; [done|]. by eapply health_check_of_ok.
    + unfold hash_on_of in Hv0. destruct v, (is_empty (ur_hash_on cfg)); run_inv Hv0; subst; try done;
        injection Hv0 as <-; done.
    + intros s ->. split; [done|]. by apply (sticky_of_ok cfg).
Qed.

(** A parameter for the witness: a URI is ["http://"] and a host. *)
Definition toy_uri (s : bytes) : option Uri :=
  match strip_prefix (lit "http://") s with
  | Some h => Some (mkUri (Some (lit "http")) (Some h) (Some h) None [])
  | None => None
  end.

Definition demo_route : UpstreamRoute :=
  mkUpstreamRoute (lit "/api") [] [mkTargetCfg (lit "http://a/") (Some 3) None; mkTargetCfg (lit "http://b") None None]
    (lit "hash") [] (lit "eg") [] true [mkTargetCfg (lit "http://c") None None]
    (mkHealthCheckCfg (lit "http") (lit "/healthz") (lit "5s") (lit "2s") 2 3 (lit "2xx, 301-302") (lit "ok") [] (lit "get") [] 0 [])
    3 (lit "10s") [] 5.

Lemma from_route_valid_witness :
  exists p, from_route toy_uri Some (fun _ => true) Some (fun _ => true) (lit "1.0") 7 demo_route (lit "/api") = Ok p
    /\ pool_valid 7 p.
Proof.
  eexists. split; [vm_compute; reflexivity|].
  apply (from_route_valid toy_uri Some (fun _ => true) Some (fun _ => true) (lit "1.0") 7 demo_route (lit "/api")).
  vm_compute. reflexivity.
Defined.

(** Two targets that differ only in their credentials are two targets with a record each, until a reload:
    both then take over the record of the first of them. *)
Example reload_merges_health :
  let a := mkTarget (lit "http://app") [] false 1 1 0 None in
  let b := mkTarget (lit "http://app") [] false 1 2 1 None in
  let a' := mkTarget (lit "http://app") [] false 1 1 2 None in
  let b' := mkTarget (lit "http://app") [] false 1 2 3 None in
  let pool ts := mkPool [] ts true Priority None 3 0 0 0 None None in
  map health (targets (carry_health_from (pool [a'; b']) (pool [a; b]) (replicate 4 health_default)).1)
  = [0; 0]%nat.
Proof. vm_compute. reflexivity. Qed.
