(* ===== verification/Failover.v ===== *)
(** * Failover: sending one request to a pool ([send_to_pool] of [src/src/proxy.rs], [src/src/upstream.rs])

    The targets are tried in order while the connection cannot be made; nothing is sent twice.  What the
    network does is an input: the outcome of each attempt, in order. *)

From S2P Require Import Prelude Text Units Http Health Pool PoolLaws.

Inductive UpstreamResult : Type := UOk | UHttp5xx | UConnectError | UTlsError | UTimeout | UReset | UError.

#[global] Instance UpstreamResult_eq_dec : EqDecision UpstreamResult.
Proof. solve_decision. Defined.

Definition upstream_label (r : UpstreamResult) : bytes :=
  match r with
  | UOk => lit "ok" | UHttp5xx => lit "http_5xx" | UConnectError => lit "connect_error"
  | UTlsError => lit "tls_error" | UTimeout => lit "timeout" | UReset => lit "reset" | UError => lit "error"
  end.

Definition from_status (status : Z) : UpstreamResult := if 500 <=? status then UHttp5xx else UOk.

(** One error of a chain of sources: which of the types [classify] looks for it is, and what it says. *)
Record ErrorLink : Type := mkErrorLink {
  is_rustls : bool;                 (** a [rustls::Error] *)
  io_inner_rustls : bool;           (** an [io::Error] around one *)
  io_reset : bool;                  (** an [io::Error] of a reset kind *)
  client_connect : bool;            (** the client's error, [is_connect] *)
  hyper_reset : bool                (** a [hyper::Error], incomplete or cancelled *)
}.

Fixpoint classify_go (chain : list ErrorLink) (connect reset : bool) : UpstreamResult :=
  match chain with
  | [] => if connect then UConnectError else if reset then UReset else UError
  | e :: chain =>
      if is_rustls e then UTlsError
      else if io_inner_rustls e then UTlsError
      else classify_go chain (connect || client_connect e) (reset || io_reset e || hyper_reset e)
  end.
Definition classify (chain : list ErrorLink) : UpstreamResult := classify_go chain false false.

(** What one attempt comes to. *)
Inductive Attempt : Type := Elapsed | Answered (status : Z) | Failed (chain : list ErrorLink).

(** Nothing reached the upstream. *)
Definition never_connected (a : Attempt) : bool :=
  match a with
  | Failed chain => bool_decide (classify chain = UConnectError) || bool_decide (classify chain = UTlsError)
  | _ => false
  end.

Record Sent : Type := mkSent { s_target : Target; s_result : Attempt; s_in_flight : bool }.

Section Send.
Variable send : nat -> Target -> Attempt.      (** the outcome of attempt [i] *)
Variable again : Target -> bool.               (** the request can be built for this target again *)
Variable now at_secs : nat -> Z.               (** the clocks at attempt [i] *)
Variable error_chain : list ErrorLink -> bytes.

(** The loop, from attempt [i]; [counted] is what the abandoned attempts added to the upstream series. *)
Fixpoint send_go (p : Pool) (tries : list Target) (i : nat) (hp : heap) (counted : list (bytes * UpstreamResult))
    : option (Sent * heap * list (bytes * UpstreamResult)) :=
  match tries with
  | [] => None
  | target :: rest =>
      let '(fl, hp) := start p target hp in
      let result := send i target in
      match result with
      | Elapsed => Some (mkSent target result fl, hp, counted)
      | Answered status => Some (mkSent target result fl, answered p target status (now i) hp, counted)
      | Failed chain =>
          let cls := classify chain in
          if never_connected result then
            let hp := pool_connect_failed p target (error_chain chain) (at_secs i) (now i) hp in
            match rest with
            | next :: _ =>
                if again next then
                  (* [in_flight] goes out of scope *)
                  let hp := if fl then drop_in_flight target hp else hp in
                  send_go p rest (S i) hp (counted ++ [(t_label target, cls)])
                else Some (mkSent target result fl, hp, counted)
            | [] => Some (mkSent target result fl, hp, counted)
            end
          else Some (mkSent target result fl, hp, counted)
      end
  end.

(** [None] is the panic of [tries[0]] on an empty list. *)
Definition send_to_pool (p : Pool) (tries : list Target) (hp : heap) : option (Sent * heap * list (bytes * UpstreamResult)) :=
  send_go p tries 0 hp [].

(** ** Laws *)

(** Health operations that leave the in-flight count alone. *)
Definition keeps_in_flight (f : TargetHealth -> TargetHealth) : Prop := forall h, in_flight (f h) = in_flight h.

Lemma update_in_flight f t o hp : keeps_in_flight f -> (health t < length hp)%nat ->
  in_flight (health_of (update_health f t hp) o) = in_flight (health_of hp o).
Proof.
  intros Hf Ht. rewrite health_of_update by done. case_decide as E; [|done]. rewrite Hf.
  unfold health_of. by rewrite E.
Qed.

Lemma keeps_eject n b m r : keeps_in_flight (fun h => (eject h n b m r).2).
Proof. intros h. unfold eject. by destruct r. Qed.

Lemma keeps_connected : keeps_in_flight connected.
Proof. intros h. unfold connected. by case_match. Qed.

Lemma keeps_answered_ok : keeps_in_flight answered_ok.
Proof. intros h. unfold answered_ok. by repeat case_match. Qed.

Lemma answered_in_flight p t status n o hp : (health t < length hp)%nat ->
  in_flight (health_of (answered p t status n hp) o) = in_flight (health_of hp o)
  /\ length (answered p t status n hp) = length hp.
Proof.
  intros Ht. unfold answered. destruct (managed p); [|done]. cbn [negb].
  repeat case_match; rewrite ?length_update_health; (split; [|done]);
    repeat (rewrite update_in_flight; [|first [apply keeps_eject | apply keeps_connected | apply keeps_answered_ok | done] | by rewrite ?length_update_health]); done.
Qed.

Lemma connect_failed_in_flight p t err s n o hp : (health t < length hp)%nat ->
  in_flight (health_of (pool_connect_failed p t err s n hp) o) = in_flight (health_of hp o)
  /\ length (pool_connect_failed p t err s n hp) = length hp.
Proof.
  intros Ht. unfold pool_connect_failed. destruct (managed p); [|done]. cbn [negb].
  assert (Hk : keeps_in_flight (fun h => (health_connect_failed h n (eject_after p) (eject_for p) (eject_for_max p)).2)).
  { intros h. unfold health_connect_failed. case_match; [done|]. destruct (eject _ _ _ _ _) as [[k l] h'] eqn:E.
    cbn [snd]. pose proof (keeps_eject n (eject_for p) (eject_for_max p) ConnectError
      (set_connect_failures 0 (set_connect_failures (wrap 32 (connect_failures h + 1)) h))) as Hj.
    cbv beta in Hj. by rewrite E in Hj. }
  case_match; rewrite ?length_update_health; (split; [|done]);
    repeat (rewrite update_in_flight; [|first [apply Hk | done] | by rewrite ?length_update_health]); done.
Qed.

(** The counts are [u32]s. *)
Definition counts_ok (hp : heap) : Prop := Forall (fun h => in_u 32 (in_flight h)) hp.

Definition one_if (b : bool) : Z := if b then 1 else 0.

Lemma start_in_flight p t o hp : (health t < length hp)%nat ->
  let '(fl, hp') := start p t hp in
  fl = bool_decide (balance p = LeastConn) /\ length hp' = length hp
  /\ in_flight (health_of hp' o)
     = if decide (health o = health t) then if fl then wrap 32 (in_flight (health_of hp t) + 1) else in_flight (health_of hp t)
       else in_flight (health_of hp o).
Proof.
  intros Ht. unfold start. destruct (balance p) eqn:Eb; cbv beta iota zeta.
  1,2,4: split; [done|]; split; [done|]; case_decide as E; [|done]; unfold health_of; by rewrite E.
  split; [done|]. split; [apply length_update_health|]. rewrite health_of_update by done. by case_decide.
Qed.

(** Counting an attempt in and out leaves every count as it was. *)
Lemma in_u_mod z : in_u 32 z -> wrap 32 (wrap 32 (z + 1) - 1) = z.
Proof.
  unfold in_u, wrap. intros H. rewrite Zminus_mod_idemp_l. replace (z + 1 - 1) with z by lia. by apply Z.mod_small.
Qed.

Lemma counts_ok_lookup hp t : counts_ok hp -> in_u 32 (in_flight (health_of hp t)).
Proof.
  intros H. unfold health_of. destruct (hp !! health t) as [h|] eqn:E; [|done].
  unfold counts_ok in H. rewrite Forall_lookup in H. by apply (H _ _ E).
Qed.

(** The heaps of the loop differ from the first only in what is in flight, and only where it is. *)
Definition same_counts (hp hp' : heap) : Prop :=
  length hp' = length hp /\ forall o, in_flight (health_of hp' o) = in_flight (health_of hp o).

(** An abandoned attempt leaves the counts as they were. *)
Lemma abandoned_counts p t err s n hp : (health t < length hp)%nat -> counts_ok hp ->
  let '(fl, hp1) := start p t hp in
  let hp2 := pool_connect_failed p t err s n hp1 in
  same_counts hp (if fl then drop_in_flight t hp2 else hp2).
Proof.
  intros Ht Hc. pose proof (fun o => start_in_flight p t o hp Ht) as Hs. destruct (start p t hp) as [fl hp1].
  cbv zeta. destruct (Hs t) as (Hfl & Hl & _).
  assert (Ht1 : (health t < length hp1)%nat) by (by rewrite Hl).
  pose proof (fun o => connect_failed_in_flight p t err s n o hp1 Ht1) as Hf.
  destruct (Hf t) as [_ Hl2]. set (hp2 := pool_connect_failed p t err s n hp1) in *. clearbody hp2.
  assert (Ht2 : (health t < length hp2)%nat) by (by rewrite Hl2).
  unfold same_counts. destruct fl.
  - unfold drop_in_flight. rewrite length_update_health. split; [congruence|]. intros o.
    rewrite health_of_update by done. destruct (Hf o) as [Hfo _]. destruct (Hf t) as [Hft _].
    destruct (Hs o) as (_ & _ & Hso). destruct (Hs t) as (_ & _ & Hst). rewrite decide_True in Hst by done.
    destruct (decide (health o = health t)) as [E|E].
    + cbn [in_flight set_in_flight]. rewrite Hft, Hst. rewrite in_u_mod by (by apply counts_ok_lookup).
      unfold health_of. by rewrite E.
    + by rewrite Hfo, Hso.
  - split; [congruence|]. intros o. destruct (Hf o) as [Hfo _]. destruct (Hs o) as (_ & _ & Hso).
    rewrite Hfo, Hso. destruct (decide (health o = health t)) as [E|E]; [|reflexivity]. unfold health_of. by rewrite E.
Qed.

Lemma same_counts_ok hp hp' : same_counts hp hp' -> counts_ok hp -> counts_ok hp'.
Proof.
  intros [Hl H] Hc. unfold counts_ok. apply Forall_lookup. intros i h Hi.
  specialize (H (mkTarget [] [] false 0 0 i None)). unfold health_of in H. cbn [health] in H. rewrite Hi in H. simpl in H.
  rewrite H. destruct (hp !! i) as [h'|] eqn:E; [|done]. unfold counts_ok in Hc. rewrite Forall_lookup in Hc. by apply (Hc _ _ E).
Qed.

(** What [send_go] comes to, from attempt [i]. *)
Definition ends_at (p : Pool) (tries : list Target) (i : nat) (hp : heap) (counted : list (bytes * UpstreamResult))
    (k : nat) (t : Target) (r : Sent * heap * list (bytes * UpstreamResult)) : Prop :=
  let '(sent, hp', counted') := r in
  tries !! k = Some t /\ sent = mkSent t (send (i + k) t) (bool_decide (balance p = LeastConn))
  /\ (forall j u, (j < k)%nat -> tries !! j = Some u -> never_connected (send (i + j) u) = true)
  /\ (never_connected (send (i + k) t) = true -> forall u, tries !! S k = Some u -> again u = false)
  /\ map fst counted' = map fst counted ++ map t_label (take k tries)
  /\ forall o, in_flight (health_of hp' o)
       = if bool_decide (balance p = LeastConn) && bool_decide (health o = health t)
         then wrap 32 (in_flight (health_of hp o) + 1) else in_flight (health_of hp o).

Lemma ends_here p t rest i hp counted hp' fl :
  (health t < length hp)%nat -> start p t hp = (fl, hp') ->
  (never_connected (send i t) = true -> forall u, rest !! 0%nat = Some u -> again u = false) ->
  forall hp'', (forall o, in_flight (health_of hp'' o) = in_flight (health_of hp' o)) ->
  ends_at p (t :: rest) i hp counted 0 t (mkSent t (send i t) fl, hp'', counted).
Proof.
  intros Ht Hs Hag hp'' Hsame. unfold ends_at. rewrite Nat.add_0_r.
  pose proof (fun o => start_in_flight p t o hp Ht) as Hst. rewrite Hs in Hst. destruct (Hst t) as (-> & _ & _).
  split; [done|]. split; [done|]. split; [lia|]. split; [done|]. split; [by rewrite app_nil_r|].
  intros o. rewrite Hsame. destruct (Hst o) as (_ & _ & ->).
  destruct (bool_decide (balance p = LeastConn)); cbn [andb]; case_decide as E.
  - rewrite bool_decide_eq_true_2 by done. unfold health_of. by rewrite E.
  - by rewrite bool_decide_eq_false_2.
  - unfold health_of. by rewrite E.
  - done.
Qed.

Lemma send_go_ends p tries i hp counted : tries <> [] -> Forall (fun t => (health t < length hp)%nat) tries -> counts_ok hp ->
  exists k t r, send_go p tries i hp counted = Some r /\ ends_at p tries i hp counted k t r.
Proof.
  revert i hp counted. induction tries as [|t rest IH]; intros i hp counted Hne Hin Hc; [done|].
  inversion_clear Hin as [|? ? Ht Hrest]. cbn [send_go].
  pose proof (fun err s n => abandoned_counts p t err s n hp Ht Hc) as Hab.
  pose proof (start_in_flight p t t hp Ht) as Hst0.
  destruct (start p t hp) as [fl hp1] eqn:Es. destruct Hst0 as (Hfl & Hl1 & _).
  assert (Ht1 : (health t < length hp1)%nat) by (by rewrite Hl1).
  pose proof (ends_here p t rest i hp counted hp1 fl Ht Es) as Hhere.
  destruct (send i t) as [|status|chain] eqn:Er.
  - exists 0%nat, t. eexists. split; [done|]. by apply Hhere.
  - exists 0%nat, t. eexists. split; [done|]. apply Hhere; [done|]. intros o. by apply answered_in_flight.
  - destruct (never_connected (Failed chain)) eqn:En; [|exists 0%nat, t; eexists; split; [done|]; by apply Hhere].
    destruct rest as [|u rest].
    { exists 0%nat, t. eexists. split; [done|]. apply Hhere; [done|]. intros o. by apply connect_failed_in_flight. }
    destruct (again u) eqn:Ea.
    2: { exists 0%nat, t. eexists. split; [done|]. apply Hhere; [by intros _ ? [= <-]|].
         intros o. by apply connect_failed_in_flight. }
    specialize (Hab (error_chain chain) (at_secs i) (now i)). cbv zeta in Hab.
    set (hp2 := if fl then _ else _) in Hab |- *.
    destruct (IH (S i) hp2 (counted ++ [(t_label t, classify chain)])) as (k & t' & r & Hr & He); [done| | |].
    { destruct Hab as [Hl _]. by rewrite Hl. }
    { by eapply same_counts_ok. }
    exists (S k), t', r. split; [done|]. destruct r as [[sent hp'] c']. destruct He as (H1 & H2 & H3 & H4 & H5 & H6).
    unfold ends_at. replace (i + S k)%nat with (S i + k)%nat by lia. split; [done|]. split; [done|].
    split; [|split; [done|split]].
    + intros [|j] w Hj Hw; [injection Hw as <-; by rewrite Nat.add_0_r, Er|].
      replace (i + S j)%nat with (S i + j)%nat by lia. apply H3; [lia | done].
    + rewrite H5, map_app, <- app_assoc. done.
    + intros o. rewrite H6. destruct Hab as [_ Hsame]. by rewrite !Hsame.
Qed.

(** C21.  A request is sent until a target can be reached, and reaches at most one: sending to a
    non-empty list of targets ends at some target; every target before it could not be connected to and
    was counted once; it is the first that could be connected to, unless the request cannot be built
    again; and afterwards exactly the attempt that is reported is in flight. *)
Theorem failover_reaches p tries hp :
  tries <> [] -> Forall (fun t => (health t < length hp)%nat) tries -> counts_ok hp ->
  exists k t sent hp' counted,
    send_to_pool p tries hp = Some (sent, hp', counted)
    /\ tries !! k = Some t /\ s_target sent = t /\ s_result sent = send k t
    /\ (forall j u, (j < k)%nat -> tries !! j = Some u -> never_connected (send j u) = true)
    /\ ((forall u, again u = true) -> (exists j u, tries !! j = Some u /\ never_connected (send j u) = false) ->
        never_connected (s_result sent) = false)
    /\ map fst counted = map t_label (take k tries)
    /\ forall o, in_flight (health_of hp' o)
         = if bool_decide (balance p = LeastConn) && bool_decide (health o = health t)
           then wrap 32 (in_flight (health_of hp o) + 1) else in_flight (health_of hp o).
Proof.
  intros Hne Hin Hc. destruct (send_go_ends p tries 0 hp [] Hne Hin Hc) as (k & t & [[sent hp'] c'] & Hr & He).
  destruct He as (H1 & -> & H3 & H4 & H5 & H6). exists k, t. eexists _, hp', c'.
  split; [done|]. split; [done|]. split; [done|]. split; [done|]. split; [done|]. split; [|by split].
  intros Hag (j & u & Hj & Hu). cbn [s_result]. destruct (never_connected (send (0 + k) t)) eqn:En; [|done]. exfalso.
  destruct (decide (j < k)%nat) as [Hlt|Hge]; [pose proof (H3 j u Hlt Hj) as Hx; cbn [Nat.add] in Hx; congruence|].
  destruct (decide (j = k)) as [->|Hne']; [simplify_eq; cbn [Nat.add] in En; congruence|].
  destruct (lookup_lt_is_Some_2 tries (S k)) as [w Hw]; [apply lookup_lt_Some in Hj; lia|].
  specialize (H4 eq_refl w Hw). by rewrite Hag in H4.
Qed.
End Send.

Lemma failover_reaches_witness :
  let t k := mkTarget [] (lit "t") false 1 (Z.of_nat k) k None in
  let p := mkPool [] [t 0%nat; t 1%nat] true LeastConn None 3 0 0 0 None None in
  let refused := Failed [mkErrorLink false false false true false] in
  let send i (_ : Target) := match i with O => refused | _ => Answered 200 end in
  exists k u sent hp' counted,
    send_to_pool send (fun _ => true) (fun _ => 0) (fun _ => 0) (fun _ => []) p [t 0%nat; t 1%nat]
      [health_default; health_default] = Some (sent, hp', counted)
    /\ [t 0%nat; t 1%nat] !! k = Some u /\ s_target sent = u /\ never_connected (s_result sent) = false.
Proof.
  set (t k := mkTarget [] (lit "t") false 1 (Z.of_nat k) k None).
  set (send i (_ : Target) := match i with O => Failed [mkErrorLink false false false true false] | _ => Answered 200 end).
  destruct (failover_reaches send (fun _ => true) (fun _ => 0) (fun _ => 0) (fun _ => [])
    (mkPool [] [t 0%nat; t 1%nat] true LeastConn None 3 0 0 0 None None) [t 0%nat; t 1%nat]
    [health_default; health_default]) as (k & u & sent & hp' & c & H1 & H2 & H3 & _ & _ & H6 & _).
  - discriminate.
  - repeat (constructor; [simpl; lia|]). constructor.
  - repeat (constructor; [unfold in_u; simpl; lia|]). constructor.
  - exists k, u, sent, hp', c. split; [exact H1|]. split; [exact H2|]. split; [exact H3|].
    apply H6; [reflexivity|]. exists 1%nat, (t 1%nat). split; reflexivity.
Defined.
