(* ===== verification/ClientCert.v ===== *)
(** * ClientCert: what a verified client certificate says, and the certificates a load balancer forwards
    ([src/src/client_auth.rs], [src/src/client_cert_header.rs])

    The names of a certificate and the patterns they are matched by, the [X-Forwarded-Client-Cert] header
    the edge writes and the one it reads, the reloadable verifier, and [TrustedHeader], which believes a
    forwarded certificate from the load balancer only.  The [rustls], [base64], [ring] and [time] crates
    and the file system are parameters. *)

From S2P Require Import Prelude Text Utf8 Net Access Http Der.

(** ** Text helpers of the standard library *)

(** [str::replace] of one character, and of a two-byte pattern. *)
Definition replace1 (c : Z) (r s : bytes) : bytes := concat (map (fun x => if x =? c then r else [x]) s).

Fixpoint replace2 (a b : Z) (r s : bytes) : bytes :=
  match s with
  | x :: t =>
      match t with
      | y :: s' => if (x =? a) && (y =? b) then r ++ replace2 a b r s' else x :: replace2 a b r t
      | [] => [x]
      end
  | [] => []
  end.

Definition is_whitespace (ch : bytes) : bool := existsb (beq ch) ws_encodings.

(** [u8::from_str_radix(h, 16)] of two bytes: a leading [+] is accepted. *)
Definition u8_hex (a b : Z) : option Z :=
  if a =? 43 then hex_val b
  else match hex_val a, hex_val b with Some x, Some y => Some (x * 16 + y) | _, _ => None end.

(** ** Names ([client_auth.rs]) *)

Inductive Mode : Type := Off | Optional | Required.
#[global] Instance Mode_eq_dec : EqDecision Mode.
Proof. solve_decision. Defined.

Definition Mode_parse (v : bytes) : result Mode :=
  if beq v (lit "off") then Ok Off
  else if beq v (lit "optional") then Ok Optional
  else if beq v (lit "required") then Ok Required
  else Err "unknown tls.client_auth.mode (expected off|optional|required)".

Record ClientCert : Type := mkClientCert { cnames : CertNames; sha256 : bytes }.

Definition identities (c : ClientCert) : list bytes :=
  uris (cnames c) ++ dns (cnames c) ++ emails (cnames c)
  ++ match common_name (cnames c) with Some n => [n] | None => [] end.

Definition xfcc_escape (v : bytes) : bytes := replace1 34 [92; 34] (replace1 92 [92; 92] v).

Definition xfcc_pair (key v : bytes) : bytes := [59] ++ key ++ [61; 34] ++ xfcc_escape v ++ [34].

(** [ClientCert::xfcc]. *)
Definition write_xfcc (c : ClientCert) : bytes :=
  lit "Hash=" ++ sha256 c
  ++ concat (map (xfcc_pair (lit "URI")) (uris (cnames c)))
  ++ concat (map (xfcc_pair (lit "DNS")) (dns (cnames c))).

Record ForwardPolicy : Type := mkForwardPolicy { strip_inbound : bool; forward : bool }.

Definition forward_policy (mode forward_client_cert : bytes) (from_header : bool) : result ForwardPolicy :=
  let? m := Mode_parse mode in
  let on := negb (bool_decide (m = Off)) || from_header in
  let? fwd := (if beq forward_client_cert (lit "off") then Ok false
               else if beq forward_client_cert (lit "xfcc") then Ok true
               else Err "unknown tls.client_auth.forward_client_cert (expected off|xfcc)") in
  ensure (on || negb fwd) else "there is no verified certificate to forward";
  Ok (mkForwardPolicy on fwd).

Record NamePattern : Type := mkPattern { p_text : bytes; p_prefix : bool }.

Definition NamePattern_parse (raw : bytes) : result NamePattern :=
  ensure (negb (beq raw [])) else "entries must not be empty";
  let p := match strip_suffix [42] raw with
           | Some head => mkPattern head true
           | None => mkPattern raw false
           end in
  ensure (negb (existsb (Z.eqb 42) (p_text p))) else "`*` may only end an entry, as a prefix match";
  Ok p.

Definition matches_everything (p : NamePattern) : bool := p_prefix p && beq (p_text p) [].

Definition matches (p : NamePattern) (name : bytes) : bool :=
  if p_prefix p then starts_with name (p_text p) else beq name (p_text p).

Definition cert_principal (c : ClientCert) (allowed : list NamePattern) : option bytes :=
  if is_nil allowed
  then Some (default (lit "sha256:" ++ sha256 c) (head (identities c)))
  else List.find (fun n => existsb (fun p => matches p n) allowed) (identities c).

Definition XFCC_HEADER : bytes := lit "x-forwarded-client-cert".

(** [set_client_cert_header] of [proxy.rs]; [value_ok] is [HeaderValue::from_str]. *)
Definition set_client_cert_header (value_ok : bytes -> bool) (h : Headers) (p : ForwardPolicy)
    (cert : option ClientCert) : Headers :=
  let h := if strip_inbound p then remove h XFCC_HEADER else h in
  match forward p, cert with
  | true, Some c => if value_ok (write_xfcc c) then insert_h h XFCC_HEADER (write_xfcc c) else h
  | _, _ => h
  end.

(** ** Reading forwarded certificates ([client_cert_header.rs]) *)

Inductive Format : Type := Pem | DerFormat | Xfcc.
Inductive HeaderResult : Type := Accepted | UntrustedPeer | InvalidHeader | Unverified.

Fixpoint unescape (s : bytes) : result bytes :=
  match s with
  | [] => Ok []
  | c :: r =>
      if c =? 37 then
        match r with
        | a :: b :: r' =>
            let? x := ok_or (u8_hex a b) "bad URL escape" in
            let? o := unescape r' in Ok (x :: o)
        | _ => Err "bad URL escape"
        end
      else let? o := unescape r in Ok (c :: o)
  end.

Definition percent_decode (text : bytes) : result bytes :=
  if negb (existsb (Z.eqb 37) text) then Ok text
  else
    let? out := unescape text in
    ensure (from_utf8_ok out) else "not UTF-8 once URL-decoded";
    Ok out.

(** [for c in text.chars()] of [split_quoted]: the characters it tests are ASCII, so bytes do. *)
Fixpoint split_quoted_go (sep : Z) (s current : bytes) (quoted escaped : bool) : list bytes :=
  match s with
  | [] => [current]
  | c :: s =>
      if escaped then split_quoted_go sep s (current ++ [c]) quoted false
      else if (c =? 92) && quoted then split_quoted_go sep s (current ++ [c]) quoted true
      else if c =? 34 then split_quoted_go sep s (current ++ [c]) (negb quoted) false
      else if (c =? sep) && negb quoted then current :: split_quoted_go sep s [] quoted false
      else split_quoted_go sep s (current ++ [c]) quoted false
  end.

Definition split_quoted (text : bytes) (sep : Z) : list bytes := split_quoted_go sep text [] false false.

Definition unquote (value : bytes) : bytes :=
  match match strip_prefix [34] value with Some v => strip_suffix [34] v | None => None end with
  | Some inner => replace2 92 92 [92] (replace2 92 34 [34] inner)
  | None => value
  end.

(** [find_map]: the first [CN=], whatever it holds. *)
Fixpoint first_some {A B} (f : A -> option B) (l : list A) : option B :=
  match l with [] => None | a :: l => match f a with Some b => Some b | None => first_some f l end end.

Definition subject_common_name (subject : bytes) : option bytes :=
  match first_some (fun rdn => strip_prefix (lit "CN=") (trim rdn)) (split_on 44 subject) with
  | Some cn => if beq cn [] then None else Some cn
  | None => None
  end.

(** The parameters of an XFCC element so far. *)
Record XfccState : Type := mkXfcc {
  x_names : CertNames; x_hash : bytes; x_cert : option bytes; x_chain : option bytes
}.

Definition xfcc_step (st : XfccState) (pair : bytes) : XfccState :=
  match split_once 61 pair with
  | None => st
  | Some (key, v) =>
      let value := unquote (trim v) in
      let key := to_ascii_lowercase (trim key) in
      let n := x_names st in
      if beq key (lit "cert") then mkXfcc n (x_hash st) (Some value) (x_chain st)
      else if beq key (lit "chain") then mkXfcc n (x_hash st) (x_cert st) (Some value)
      else if beq key (lit "hash") then mkXfcc n (to_ascii_lowercase value) (x_cert st) (x_chain st)
      else if beq key (lit "uri") then
        mkXfcc (mkNames (common_name n) (dns n) (uris n ++ [value]) (emails n)) (x_hash st) (x_cert st) (x_chain st)
      else if beq key (lit "dns") then
        mkXfcc (mkNames (common_name n) (dns n ++ [to_ascii_lowercase value]) (uris n) (emails n))
          (x_hash st) (x_cert st) (x_chain st)
      else if beq key (lit "subject") then
        mkXfcc (mkNames (subject_common_name value) (dns n) (uris n) (emails n)) (x_hash st) (x_cert st) (x_chain st)
      else st
  end.

Inductive B64Engine : Type := STANDARD | STANDARD_NO_PAD | URL_SAFE | URL_SAFE_NO_PAD.

(** Why a trusted peer's header gave no certificate. *)
Inductive Refused : Type := RInvalid | RUnverified.

(** A certificate chain (leaf first), or what the balancer said about the certificate. *)
Inductive Forwarded : Type := Chain (leaf : bytes) (rest : list bytes) | Details (c : ClientCert).

Record TrustedCa : Type := mkTrustedCa { ca_name : bytes; ca_info : CertInfo }.
Record LoadedCrl : Type := mkLoadedCrl { crl_name : bytes; crl_info : CrlInfo }.
Record TrustInfo : Type := mkTrust { cas : list TrustedCa; crls : list LoadedCrl }.

Record TrustedClientCertHeaderCfg : Type := mkHeaderCfg {
  h_name : bytes; h_format : bytes; h_proxies : list bytes; h_proxy_names : list bytes;
  h_ca_path : bytes; h_crl_paths : list bytes
}.

Section Certificates.
Context {Date Time Verifier : Type}.
Variable from_calendar_date : Z -> Z -> Z -> option Date.
Variable from_hms : Z -> Z -> Z -> option Time.
Variable unix_timestamp : Date -> Time -> Z.
Variable b64url : bytes -> bytes.
Variable b64_decode : B64Engine -> bytes -> option bytes.      (** [Engine::decode] *)
Variable digest : bytes -> bytes.                              (** [ring::digest], SHA-256 *)
Variable header_name : bytes -> option bytes.                  (** [HeaderName::try_from] *)
Variable pem_certs : bytes -> option (list bytes).             (** [rustls_pemfile::certs] *)
Variable pem_crls : bytes -> option (list bytes).              (** [rustls_pemfile::crls] *)
Variable usable_ca : bytes -> bool.                            (** [RootCertStore::add] *)
(** [WebPkiClientVerifier::builder_with_provider(..).build()]: roots, CRLs, [allow_unauthenticated]. *)
Variable build_verifier : list bytes -> list bytes -> bool -> option Verifier.
Variable verify_client_cert : Verifier -> bytes -> list bytes -> Z -> bool.

Let cert_info (d : bytes) : result CertInfo := parse from_calendar_date from_hms unix_timestamp b64url d.
Let crl_of (d : bytes) : result CrlInfo := crl from_calendar_date from_hms unix_timestamp d.

Definition from_der (d : bytes) : ClientCert :=
  mkClientCert (match names d with Ok n => n | Err _ => no_names end) (hex2 (digest d)).

(** *** The reloadable verifier *)

Record ClientAuth : Type := mkClientAuth {
  ca_mode : Mode; ca_path : bytes; crl_paths : list bytes;
  current : Verifier; loaded : bytes; trust_info : TrustInfo
}.

(** The CRLs of one file, with their names. *)
Definition crl_entries (path : bytes) (parsed : list bytes) : list LoadedCrl :=
  omap (fun '(i, c) => match crl_of c with
                       | Ok info => Some (mkLoadedCrl (if Nat.eqb i 0 then path
                                                       else path ++ lit "#" ++ dec (Z.of_nat i + 1)) info)
                       | Err _ => None
                       end) (imap pair parsed).

Fixpoint read_crls (fs : bytes -> option bytes) (paths : list bytes) (acc : list bytes) (infos : list LoadedCrl)
    (ld : bytes) : result (list bytes * list LoadedCrl * bytes) :=
  match paths with
  | [] => Ok (acc, infos, ld)
  | path :: paths =>
      let? b := ok_or (fs path) "reading tls.client_auth.crl_paths entry" in
      let? parsed := ok_or (pem_crls b) "parsing CRLs" in
      ensure (negb (is_nil parsed)) else "no CRL found";
      read_crls fs paths (acc ++ parsed) (infos ++ crl_entries path parsed) (ld ++ b)
  end.

Definition ca_entry (d : bytes) : option TrustedCa :=
  match cert_info d with
  | Ok info =>
      Some (mkTrustedCa (match names d with
                         | Ok n => default (serial info) (common_name n)
                         | Err _ => serial info
                         end) info)
  | Err _ => None
  end.

(** [build]: each file is read once, and what was read is remembered. *)
Definition build (fs : bytes -> option bytes) (mode : Mode) (ca_path : bytes) (crl_paths : list bytes)
    : result (Verifier * bytes * TrustInfo) :=
  let? ld := ok_or (fs ca_path) "reading tls.client_auth.ca_path" in
  let? cs := ok_or (pem_certs ld) "tls.client_auth.ca_path: parsing certificates" in
  ensure (negb (is_nil cs)) else "tls.client_auth.ca_path: no certificates found";
  ensure (forallb usable_ca cs) else "tls.client_auth.ca_path: not a usable CA";
  let? rc := read_crls fs crl_paths [] [] ld in
  let '(crl_list, crl_infos, ld) := rc in
  let? v := ok_or (build_verifier cs crl_list (bool_decide (mode = Optional)))
              "building the client certificate verifier" in
  Ok (v, ld, mkTrust (omap ca_entry cs) crl_infos).

Definition client_auth_from_cfg (fs : bytes -> option bytes) (tls_enabled : bool) (mode ca_path : bytes)
    (crl_paths : list bytes) : result (option ClientAuth) :=
  let? m := Mode_parse mode in
  if bool_decide (m = Off) then Ok None
  else
    ensure tls_enabled else "tls.client_auth.mode needs [tls] enabled = true";
    ensure (negb (beq ca_path [])) else "tls.client_auth.ca_path is required";
    let? b := build fs m ca_path crl_paths in
    let '(v, ld, tr) := b in
    Ok (Some (mkClientAuth m ca_path crl_paths v ld tr)).

Definition for_header (fs : bytes -> option bytes) (ca_path : bytes) (crl_paths : list bytes) : result ClientAuth :=
  let? b := build fs Required ca_path crl_paths in
  let '(v, ld, tr) := b in
  Ok (mkClientAuth Required ca_path crl_paths v ld tr).

(** [ClientAuth::reload]: an error leaves the verifier in place. *)
Definition reload (fs : bytes -> option bytes) (a : ClientAuth) : result bool * ClientAuth :=
  match build fs (ca_mode a) (ca_path a) (crl_paths a) with
  | Err e => (Err e, a)
  | Ok (v, ld, tr) =>
      if beq (loaded a) ld then (Ok false, a)
      else (Ok true, mkClientAuth (ca_mode a) (ca_path a) (crl_paths a) v ld tr)
  end.

(** *** Certificates in a header *)

Definition BEGIN : bytes := lit "-----BEGIN CERTIFICATE-----".
Definition END_ : bytes := lit "-----END CERTIFICATE-----".

Definition der_of (text : bytes) : result bytes :=
  let compact := concat (List.filter (fun c => negb (is_whitespace c)) (chars text)) in
  ensure (negb (beq compact [])) else "empty";
  let? b := ok_or (first_some (fun e => b64_decode e compact) [STANDARD; STANDARD_NO_PAD; URL_SAFE; URL_SAFE_NO_PAD])
              "not base64" in
  match cert_info b with Ok _ => Ok b | Err _ => Err "not a DER certificate" end.

(** [while let Some(start) = rest.find(BEGIN)]; every round drops at least [BEGIN]. *)
Fixpoint pem_go (fuel : nat) (rest : bytes) (chain : list bytes) : result (list bytes) :=
  match fuel, find_sub BEGIN rest with
  | S fuel, Some start =>
      let body := drop (start + length BEGIN) rest in
      let? end_ := ok_or (find_sub END_ body) "a BEGIN CERTIFICATE without its END" in
      let? d := der_of (take end_ body) in
      pem_go fuel (drop (end_ + length END_) body) (chain ++ [d])
  | _, _ => Ok chain
  end.

Definition pem_chain (text : bytes) : result (bytes * list bytes) :=
  let? chain := pem_go (length text) text [] in
  match chain with [] => Err "no PEM certificate in it" | leaf :: rest => Ok (leaf, rest) end.

(** [xfcc]: the last element that is not blank. *)
Definition read_xfcc (text : bytes) : result Forwarded :=
  let? element := ok_or (List.find (fun e => negb (beq (trim e) [])) (rev (split_quoted text 44)))
                    "an empty X-Forwarded-Client-Cert" in
  let st := fold_left xfcc_step (split_quoted element 59) (mkXfcc no_names [] None None) in
  match match x_chain st with Some c => Some c | None => x_cert st end with
  | Some pem =>
      let? p := percent_decode pem in
      let? c := pem_chain p in
      Ok (Chain c.1 c.2)
  | None =>
      let n := x_names st in
      ensure (negb (is_nil (uris n) && is_nil (dns n) && negb (bool_decide (is_Some (common_name n)))))
        else "an XFCC element with no certificate and no names";
      Ok (Details (mkClientCert n (x_hash st)))
  end.

Record TrustedHeader : Type := mkTrustedHeader {
  th_name : bytes; format : Format; proxies : list Cidr; th_names : list NamePattern;
  verifier : option ClientAuth
}.

Definition header_from_cfg (fs : bytes -> option bytes) (cfg : TrustedClientCertHeaderCfg)
    : result (option TrustedHeader) :=
  let name := trim (h_name cfg) in
  if beq name [] then Ok None
  else
    let? name := ok_or (header_name name) "trusted_client_cert_header.name" in
    let? f := (if beq (h_format cfg) (lit "pem") then Ok Pem
               else if beq (h_format cfg) (lit "der") then Ok DerFormat
               else if beq (h_format cfg) (lit "xfcc") then Ok Xfcc
               else Err "unknown trusted_client_cert_header.format (expected pem|der|xfcc)") in
    ensure (negb (is_nil (h_proxies cfg) && is_nil (h_proxy_names cfg)))
      else "trusted_client_cert_header needs trusted_proxies or trusted_proxy_names";
    let? ns := collect NamePattern_parse (h_proxy_names cfg) in
    ensure (negb (existsb matches_everything ns))
      else "trusted_client_cert_header.trusted_proxy_names contains every certificate";
    let? ps := collect Access.parse (h_proxies cfg) in
    ensure (negb (existsb is_everything ps))
      else "trusted_client_cert_header.trusted_proxies contains every address";
    ensure (is_nil (h_crl_paths cfg) || negb (beq (h_ca_path cfg) []))
      else "trusted_client_cert_header.crl_paths needs ca_path";
    let? v := (if beq (h_ca_path cfg) [] then Ok None
               else let? a := for_header fs (h_ca_path cfg) (h_crl_paths cfg) in Ok (Some a)) in
    Ok (Some (mkTrustedHeader name f ps ns v)).

Definition trusts (t : TrustedHeader) (peer : IpAddr) (hop : option ClientCert) : bool :=
  let peer := to_canonical peer in
  let by_address := is_nil (proxies t) || existsb (fun c => contains c peer) (proxies t) in
  let by_name := is_nil (th_names t)
                 || match hop with
                    | Some cert => existsb (fun n => existsb (fun p => matches p n) (th_names t)) (identities cert)
                    | None => false
                    end in
  by_address && by_name.

(** [TrustedHeader::read], on at least one value. *)
Definition read_values (t : TrustedHeader) (values : list bytes) (now : Z) : ClientCert + Refused :=
  match values with
  | [v] =>
      let text := from_utf8_lossy v in
      let forwarded := match format t with
                       | Pem => let? p := percent_decode text in let? c := pem_chain p in Ok (Chain c.1 c.2)
                       | DerFormat => let? p := percent_decode text in let? d := der_of p in Ok (Chain d [])
                       | Xfcc => read_xfcc text
                       end in
      match forwarded with
      | Err _ => inr RInvalid
      | Ok (Chain leaf intermediates) =>
          match verifier t with
          | Some a => if verify_client_cert (current a) leaf intermediates now then inl (from_der leaf)
                      else inr RUnverified
          | None => inl (from_der leaf)
          end
      | Ok (Details cert) =>
          match verifier t with Some _ => inr RUnverified | None => inl cert end
      end
  | _ => inr RInvalid
  end.

(** The request as the handler sees it: its headers and the client certificate attached to it. *)
Record Req : Type := mkReq { r_headers : Headers; client_cert : option ClientCert }.

(** [TrustedHeader::apply], with the second of the last warning; [bool] says whether one was logged. *)
Definition apply (t : TrustedHeader) (last_warning now : Z) (peer : IpAddr) (req : Req)
    : option HeaderResult * Req * (Z * bool) :=
  let values := get_all (r_headers req) (th_name t) in
  let h := remove (r_headers req) (th_name t) in
  let trusted := trusts t peer (client_cert req) in
  let cert := if trusted then None else client_cert req in
  match values with
  | [] => (None, mkReq h cert, (last_warning, false))
  | _ =>
      if negb trusted then (Some UntrustedPeer, mkReq h cert, (last_warning, false))
      else
        match read_values t values now with
        | inl c => (Some Accepted, mkReq h (Some c), (last_warning, false))
        | inr why =>
            let r := match why with RInvalid => InvalidHeader | RUnverified => Unverified end in
            if 60 <=? now - last_warning then (Some r, mkReq h cert, (now, true))
            else (Some r, mkReq h cert, (last_warning, false))
        end
  end.
End Certificates.
