(* ===== verification/ClientCertLaws.v ===== *)
(** * ClientCertLaws: the certificate the app is told about

    The [X-Forwarded-Client-Cert] the edge writes reads back as the names it was written from; a
    forwarded certificate is believed from the configured balancer only; a failed reload keeps the
    verifier. *)

From S2P Require Import Prelude Text Utf8 Net Access Http Der ClientCert.

(** ** Escaping *)

Definition esc1 (c : Z) : bytes := if c =? 92 then [92; 92] else if c =? 34 then [92; 34] else [c].

Lemma xfcc_escape_eq v : xfcc_escape v = concat (map esc1 v).
Proof.
  unfold xfcc_escape, replace1. induction v as [|c v IH]; [done|]. cbn [map concat].
  rewrite map_app, concat_app, IH. f_equal. unfold esc1.
  destruct (Z.eqb_spec c 92) as [->|]; [done|]. cbn [map concat]. by rewrite app_nil_r.
Qed.

(** Inside quotes an escaped value is passed over whole, up to its closing quote. *)
Lemma split_escaped sep v s cur :
  split_quoted_go sep (xfcc_escape v ++ 34 :: s) cur true false
  = split_quoted_go sep s (cur ++ xfcc_escape v ++ [34]) false false.
Proof.
  rewrite xfcc_escape_eq. revert cur. induction v as [|c v IH]; intros cur; [by cbn|].
  cbn [map concat]. unfold esc1 at 1 3.
  destruct (Z.eqb_spec c 92) as [->|H92]; [|destruct (Z.eqb_spec c 34) as [->|H34]].
  - cbn. rewrite IH. by rewrite <- !app_assoc.
  - cbn. rewrite IH. by rewrite <- !app_assoc.
  - cbn [app split_quoted_go]. destruct (Z.eqb_spec c 92); [done|]. destruct (Z.eqb_spec c 34); [done|].
    rewrite andb_false_r. cbn [andb]. rewrite IH. by rewrite <- !app_assoc.
Qed.

(** Outside quotes, text with neither a quote nor the separator is passed over. *)
Definition plain (sep c : Z) : bool := negb (c =? 34) && negb (c =? sep).

Lemma split_plain sep p s cur :
  forallb (plain sep) p = true ->
  split_quoted_go sep (p ++ s) cur false false = split_quoted_go sep s (cur ++ p) false false.
Proof.
  revert cur. induction p as [|c p IH]; intros cur; [by rewrite app_nil_r|].
  cbn [forallb app split_quoted_go]. intros [H1 H2]%andb_true_iff. unfold plain in H1.
  apply andb_true_iff in H1 as [Hq Hs]. rewrite andb_false_r.
  destruct (c =? 34); [done|]. destruct (c =? sep); [done|]. cbn [andb]. rewrite IH by done.
  by rewrite <- app_assoc.
Qed.

Lemma replace2_head a b r x s : head s <> Some b -> replace2 a b r (x :: s) = x :: replace2 a b r s.
Proof.
  intros H. cbn [replace2]. destruct s as [|y s]; [done|]. destruct (Z.eqb_spec y b) as [->|]; [done|].
  by rewrite andb_false_r.
Qed.

Lemma replace2_other a b r x s : x <> a -> replace2 a b r (x :: s) = x :: replace2 a b r s.
Proof. intros H. cbn [replace2]. destruct s; [done|]. by destruct (Z.eqb_spec x a). Qed.

Lemma esc_head v : head (concat (map esc1 v)) <> Some 34.
Proof.
  destruct v as [|c v]; [done|]. cbn [map concat]. unfold esc1. destruct (Z.eqb_spec c 92); [done|].
  destruct (Z.eqb_spec c 34); cbn; congruence.
Qed.

Lemma unescape_escape v : replace2 92 92 [92] (replace2 92 34 [34] (xfcc_escape v)) = v.
Proof.
  rewrite xfcc_escape_eq.
  assert (Hm : replace2 92 34 [34] (concat (map esc1 v))
               = concat (map (fun c => if c =? 92 then [92; 92] else [c]) v)).
  { induction v as [|c v IH]; [done|]. cbn [map concat]. unfold esc1 at 1.
    destruct (Z.eqb_spec c 92) as [->|H92]; [|destruct (Z.eqb_spec c 34) as [->|H34]].
    - cbn [app]. rewrite replace2_head by done. rewrite replace2_head by apply esc_head. by rewrite IH.
    - cbn. by rewrite IH.
    - cbn [app]. rewrite replace2_other by done. by rewrite IH. }
  rewrite Hm. clear Hm. induction v as [|c v IH]; [done|]. cbn [map concat].
  destruct (Z.eqb_spec c 92) as [->|H92].
  - cbn. by rewrite IH.
  - cbn [app]. rewrite replace2_other by done. by rewrite IH.
Qed.

Lemma unquote_quoted v : unquote ([34] ++ xfcc_escape v ++ [34]) = v.
Proof.
  unfold unquote. change ([34] ++ xfcc_escape v ++ [34]) with (34 :: (xfcc_escape v ++ [34])).
  cbn [strip_prefix]. change (34 =? 34) with true. cbn iota.
  rewrite (proj2 (strip_suffix_Some _ _ _) eq_refl). apply unescape_escape.
Qed.

(** ** The header the edge writes *)

Definition bare_pair (p : bytes * bytes) : bytes := p.1 ++ [61; 34] ++ xfcc_escape p.2 ++ [34].

Definition xfcc_pairs (c : ClientCert) : list (bytes * bytes) :=
  map (pair (lit "URI")) (uris (cnames c)) ++ map (pair (lit "DNS")) (dns (cnames c)).

(** The names XFCC is written with. *)
Definition good_key (k : bytes) : Prop := k = lit "URI" \/ k = lit "DNS".

Lemma xfcc_pairs_good c : Forall (fun p => good_key p.1) (xfcc_pairs c).
Proof.
  unfold xfcc_pairs. apply Forall_app. split; apply Forall_map, Forall_forall; intros v _;
    [by left | by right].
Qed.

Lemma write_xfcc_eq c :
  write_xfcc c = (lit "Hash=" ++ sha256 c) ++ concat (map (fun p => 59 :: bare_pair p) (xfcc_pairs c)).
Proof.
  unfold write_xfcc, xfcc_pairs. rewrite map_app, concat_app, !map_map, <- app_assoc. done.
Qed.

Lemma good_key_plain sep k : good_key k -> sep = 44 \/ sep = 59 -> forallb (plain sep) (k ++ [61]) = true.
Proof. intros [->| ->] [->| ->]; reflexivity. Qed.

(** One pair, after its separator. *)
Lemma split_pair sep p s cur :
  good_key p.1 -> sep = 44 \/ sep = 59 ->
  split_quoted_go sep (bare_pair p ++ s) cur false false
  = split_quoted_go sep s (cur ++ bare_pair p) false false.
Proof.
  intros Hk Hs. unfold bare_pair. change [61; 34] with ([61] ++ [34]). rewrite <- !app_assoc.
  rewrite (app_assoc p.1), split_plain by by apply good_key_plain.
  change ([34] ++ xfcc_escape p.2 ++ [34] ++ s) with (34 :: (xfcc_escape p.2 ++ 34 :: s)).
  cbn [split_quoted_go andb]. change (34 =? 34) with true. change (34 =? 92) with false. cbn [andb negb].
  rewrite split_escaped. by rewrite <- !app_assoc.
Qed.

Lemma split_pairs59 l cur :
  Forall (fun p => good_key p.1) l ->
  split_quoted_go 59 (concat (map (fun p => 59 :: bare_pair p) l)) cur false false = cur :: map bare_pair l.
Proof.
  intros H. revert cur. induction H as [|p l Hp Hl IH]; intros cur; [done|].
  cbn [map concat app split_quoted_go]. change (59 =? 92) with false. change (59 =? 34) with false.
  change (59 =? 59) with true. cbn [andb negb]. rewrite split_pair by (done || by right).
  cbn [app]. by rewrite IH.
Qed.

Lemma split_pairs44 l cur :
  Forall (fun p => good_key p.1) l ->
  split_quoted_go 44 (concat (map (fun p => 59 :: bare_pair p) l)) cur false false
  = [cur ++ concat (map (fun p => 59 :: bare_pair p) l)].
Proof.
  intros H. revert cur. induction H as [|p l Hp Hl IH]; intros cur; [cbn; by rewrite app_nil_r|].
  cbn [map concat app split_quoted_go]. change (59 =? 92) with false. change (59 =? 34) with false.
  change (59 =? 44) with false. cbn [andb negb]. rewrite split_pair by (done || by left).
  rewrite IH. by rewrite <- !app_assoc.
Qed.

(** A lower-case fingerprint is plain text. *)
Definition lower_hex (s : bytes) : Prop := Forall (fun c => is_digit c || is_lower c = true) s.

Lemma lower_hex_plain sep s : lower_hex s -> sep = 44 \/ sep = 59 -> forallb (plain sep) (lit "Hash=" ++ s) = true.
Proof.
  intros Hs Hsep. rewrite forallb_app. replace (forallb (plain sep) (lit "Hash=")) with true
    by (destruct Hsep as [->| ->]; reflexivity).
  apply forallb_forall. intros c Hc. unfold lower_hex in Hs. rewrite Forall_forall in Hs.
  apply list_elem_of_In, Hs in Hc. revert Hc. unfold plain, is_digit, is_lower. zcase; cbn; try done; lia.
Qed.

Lemma lower_hex_id s : lower_hex s -> to_ascii_lowercase s = s.
Proof.
  induction 1 as [|c s Hc _ IH]; [done|]. cbn [to_ascii_lowercase map]. unfold to_ascii_lowercase in IH. rewrite IH.
  f_equal. revert Hc. unfold lower_byte, is_upper, is_digit, is_lower. zcase; cbn; try done; lia.
Qed.

Lemma graphic_trim s : Forall (fun c => is_graphic c = true) s -> trim s = s.
Proof.
  intros H. destruct s as [|c s]; [done|]. apply Forall_cons in H as [Hc H].
  destruct s as [|d s] using rev_ind.
  - unfold trim, trim_start, trim_end. rewrite trim_go_graphic by by apply ws_not_graphic. cbn [rev app].
    rewrite trim_go_graphic by by apply ws_not_graphic. done.
  - apply Forall_app in H as [_ Hd]. apply Forall_cons in Hd as [Hd _]. by apply trim_graphic.
Qed.

Lemma lower_hex_graphic s : lower_hex s -> Forall (fun c => is_graphic c = true) s.
Proof.
  intros H. eapply Forall_impl; [exact H|]. intros c. unfold is_graphic, is_digit, is_lower. zcase; cbn; try done; lia.
Qed.

Lemma split_first k v : (forall c, c ∈ k -> c <> 61) -> split_once 61 (k ++ 61 :: v) = Some (k, v).
Proof. intros H. apply split_once_Some. split; [done|]. intros Hin. by apply (H 61). Qed.

(** What one pair adds to the names. *)
Definition add_pair (n : CertNames) (p : bytes * bytes) : CertNames :=
  if beq p.1 (lit "URI") then mkNames (common_name n) (dns n) (uris n ++ [p.2]) (emails n)
  else mkNames (common_name n) (dns n ++ [to_ascii_lowercase p.2]) (uris n) (emails n).

Lemma xfcc_step_pair st p :
  good_key p.1 ->
  xfcc_step st (bare_pair p) = mkXfcc (add_pair (x_names st) p) (x_hash st) (x_cert st) (x_chain st).
Proof.
  intros Hk. unfold xfcc_step, bare_pair. change [61; 34] with ([61] ++ [34]). rewrite <- !app_assoc.
  change (p.1 ++ [61] ++ [34] ++ xfcc_escape p.2 ++ [34]) with (p.1 ++ 61 :: (34 :: (xfcc_escape p.2 ++ [34]))).
  rewrite split_first by (intros c Hc ->; destruct Hk as [Hk|Hk]; rewrite Hk in Hc; revert Hc;
    rewrite list_elem_of_In; vm_compute; intuition discriminate).
  rewrite trim_graphic by done. change (34 :: xfcc_escape p.2 ++ [34]) with ([34] ++ xfcc_escape p.2 ++ [34]).
  rewrite unquote_quoted. unfold add_pair. destruct Hk as [->| ->]; reflexivity.
Qed.

Lemma fold_pairs l st :
  Forall (fun p => good_key p.1) l ->
  fold_left xfcc_step (map bare_pair l) st
  = mkXfcc (fold_left add_pair l (x_names st)) (x_hash st) (x_cert st) (x_chain st).
Proof.
  intros H. revert st. induction H as [|p l Hp Hl IH]; intros st; [by destruct st|].
  cbn [map fold_left]. by rewrite xfcc_step_pair, IH.
Qed.

Lemma add_uris us n : fold_left add_pair (map (pair (lit "URI")) us) n
  = mkNames (common_name n) (dns n) (uris n ++ us) (emails n).
Proof.
  revert n. induction us as [|u us IH]; intros n; cbn [map fold_left]; [rewrite app_nil_r; by destruct n|].
  change (add_pair n (lit "URI", u)) with (mkNames (common_name n) (dns n) (uris n ++ [u]) (emails n)).
  rewrite IH. cbn [uris common_name dns emails]. by rewrite <- app_assoc.
Qed.

Lemma add_dns ds n : fold_left add_pair (map (pair (lit "DNS")) ds) n
  = mkNames (common_name n) (dns n ++ map to_ascii_lowercase ds) (uris n) (emails n).
Proof.
  revert n. induction ds as [|d ds IH]; intros n; cbn [map fold_left]; [rewrite app_nil_r; by destruct n|].
  change (add_pair n (lit "DNS", d))
    with (mkNames (common_name n) (dns n ++ [to_ascii_lowercase d]) (uris n) (emails n)).
  rewrite IH. cbn [uris common_name dns emails]. by rewrite <- app_assoc.
Qed.

(** What a reader of the written header learns: the fingerprint, the URIs and the DNS names. *)
Definition told (c : ClientCert) : ClientCert :=
  mkClientCert (mkNames None (map to_ascii_lowercase (dns (cnames c))) (uris (cnames c)) []) (sha256 c).

Lemma pairs_end l : l <> [] -> exists m, concat (map (fun p => 59 :: bare_pair p) l) = m ++ [34].
Proof.
  destruct l as [|p l _] using rev_ind; [done|]. intros _. rewrite map_app, concat_app. cbn [map concat].
  unfold bare_pair. eexists (concat (map (fun p => 59 :: bare_pair p) l) ++ 59 :: (p.1 ++ [61; 34] ++ xfcc_escape p.2)).
  rewrite app_nil_r. cbn [app]. rewrite <- app_assoc. cbn [app]. do 2 f_equal. by rewrite <- !app_assoc.
Qed.

Lemma read_write_xfcc {Date Time} fcd hms ts b64u b64d c :
  lower_hex (sha256 c) -> uris (cnames c) <> [] \/ dns (cnames c) <> [] ->
  @read_xfcc Date Time fcd hms ts b64u b64d (write_xfcc c) = Ok (Details (told c)).
Proof.
  intros Hh Hn. unfold read_xfcc, split_quoted. rewrite write_xfcc_eq.
  rewrite !split_plain by (apply lower_hex_plain; tauto). cbn [app].
  rewrite split_pairs44 by apply xfcc_pairs_good. cbn [rev app List.find].
  assert (Hp : xfcc_pairs c <> []).
  { unfold xfcc_pairs. destruct Hn; [destruct (uris (cnames c))|destruct (uris (cnames c)), (dns (cnames c))]; done. }
  destruct (pairs_end _ Hp) as [m Hm].
  assert (Ht : forall x, x = (lit "Hash=" ++ sha256 c) ++ m ++ [34] -> beq (trim x) [] = false).
  { intros x ->. change ((lit "Hash=" ++ sha256 c) ++ m ++ [34])
      with (72 :: ((lit "ash=" ++ sha256 c) ++ m ++ [34])). rewrite app_assoc, trim_graphic by done. done. }
  rewrite Hm at 1. rewrite Ht by done. cbn [negb ok_or rbind].
  rewrite split_plain by (apply lower_hex_plain; tauto). cbn [app].
  rewrite split_pairs59 by apply xfcc_pairs_good. cbn [fold_left].
  assert (H1 : xfcc_step (mkXfcc no_names [] None None) (lit "Hash=" ++ sha256 c)
               = mkXfcc no_names (sha256 c) None None).
  { unfold xfcc_step. change (lit "Hash=" ++ sha256 c) with (lit "Hash" ++ 61 :: sha256 c).
    rewrite split_first by (intros x Hx ->; revert Hx; rewrite list_elem_of_In; vm_compute; intuition discriminate).
    rewrite (graphic_trim (sha256 c)) by by apply lower_hex_graphic.
    assert (Hu : unquote (sha256 c) = sha256 c).
    { unfold unquote. destruct (sha256 c) as [|x l]; [done|]. apply Forall_cons in Hh as [Hx _]. cbn [strip_prefix].
      destruct (Z.eqb_spec 34 x) as [<-|]; [done | done]. }
    rewrite Hu, (lower_hex_id (sha256 c)) by done. done. }
  rewrite H1, fold_pairs by apply xfcc_pairs_good. cbn [x_chain x_cert x_names x_hash].
  unfold xfcc_pairs. rewrite fold_left_app, add_uris, add_dns. cbn [no_names uris dns common_name emails app].
  unfold told. destruct (uris (cnames c)); [|done]. destruct (dns (cnames c)); [|done]. by destruct Hn.
Qed.

(** With client authentication on, whatever a client sent in [X-Forwarded-Client-Cert] never reaches
    the app: it sees no such header, or exactly one that the edge wrote, and reading that one back (as
    [trusted_client_cert_header] of a next hop would) gives the fingerprint, every URI and every DNS name
    of the certificate that was verified, however many quotes, backslashes, commas or semicolons they
    contain. *)
Theorem xfcc_tells_the_truth {Date Time} fcd hms ts b64u b64d value_ok mode fwd from_header p h c :
  forward_policy mode fwd from_header = Ok p -> strip_inbound p = true -> lower_hex (sha256 c) ->
  uris (cnames c) <> [] \/ dns (cnames c) <> [] ->
  let sent := get_all (set_client_cert_header value_ok h p (Some c)) XFCC_HEADER in
  get_all (set_client_cert_header value_ok h p None) XFCC_HEADER = []
  /\ (sent = [] \/ exists v, sent = [v] /\ forward p = true
                          /\ @read_xfcc Date Time fcd hms ts b64u b64d v = Ok (Details (told c))).
Proof.
  intros Hp Hs Hh Hn. unfold set_client_cert_header. rewrite Hs. cbn zeta.
  assert (H0 : get_all (remove h XFCC_HEADER) XFCC_HEADER = []) by (rewrite get_all_remove; by rewrite decide_True).
  split; [by destruct (forward p)|]. destruct (forward p); [|by left].
  destruct (value_ok (write_xfcc c)); [|by left]. right. exists (write_xfcc c).
  rewrite get_all_insert, decide_True by done. split; [done|]. split; [done|]. by apply read_write_xfcc.
Qed.

Definition demo_client : ClientCert :=
  mkClientCert (mkNames (Some (lit "cn")) [lit "a.example"] [lit "spiffe://td/a,b;c\"] []) (lit "ab12").

Lemma xfcc_tells_the_truth_witness :
  let sent := get_all (set_client_cert_header (fun _ => true) [(XFCC_HEADER, lit "By=forged")] (mkForwardPolicy true true)
                (Some demo_client)) XFCC_HEADER in
  get_all (set_client_cert_header (fun _ => true) [(XFCC_HEADER, lit "By=forged")] (mkForwardPolicy true true) None)
    XFCC_HEADER = []
  /\ (sent = [] \/ exists v, sent = [v] /\ forward (mkForwardPolicy true true) = true
        /\ @read_xfcc unit unit (fun _ _ _ => None) (fun _ _ _ => None) (fun _ _ => 0) id (fun _ _ => None) v
            = Ok (Details (told demo_client))).
Proof.
  apply (xfcc_tells_the_truth (fun _ _ _ => None) (fun _ _ _ => None) (fun _ _ => 0) id (fun _ _ => None)
           (fun _ => true) (lit "required") (lit "xfcc") false).
  - reflexivity.
  - reflexivity.
  - apply (bool_decide_unpack _). vm_compute. exact I.
  - left. discriminate.
Defined.

(** ** Believing a forwarded certificate *)

Section Header.
Context {Date Time Verifier : Type}.
Variable from_calendar_date : Z -> Z -> Z -> option Date.
Variable from_hms : Z -> Z -> Z -> option Time.
Variable unix_timestamp : Date -> Time -> Z.
Variable b64url : bytes -> bytes.
Variable b64_decode : B64Engine -> bytes -> option bytes.
Variable digest : bytes -> bytes.
Variable header_name : bytes -> option bytes.
Variable pem_certs pem_crls : bytes -> option (list bytes).
Variable usable_ca : bytes -> bool.
Variable build_verifier : list bytes -> list bytes -> bool -> option Verifier.
Variable verify_client_cert : Verifier -> bytes -> list bytes -> Z -> bool.

Abbreviation from_cfg := (header_from_cfg from_calendar_date from_hms unix_timestamp b64url header_name
  pem_certs pem_crls usable_ca build_verifier).
Abbreviation read_header := (read_values from_calendar_date from_hms unix_timestamp b64url b64_decode digest
  verify_client_cert).
Abbreviation apply_header := (apply from_calendar_date from_hms unix_timestamp b64url b64_decode digest
  verify_client_cert).
Abbreviation reload_auth := (reload from_calendar_date from_hms unix_timestamp b64url pem_certs pem_crls usable_ca
  build_verifier).
Abbreviation build_auth := (build from_calendar_date from_hms unix_timestamp b64url pem_certs pem_crls usable_ca
  build_verifier).

(** What the configuration says of a balancer: its address is in a configured range that is not every
    address, and its own certificate has a configured name that is not every name; each if any is
    configured, and one of them is. *)
Definition is_balancer (cfg : TrustedClientCertHeaderCfg) (peer : IpAddr) (hop : option ClientCert) : Prop :=
  (h_proxies cfg <> [] \/ h_proxy_names cfg <> [])
  /\ (h_proxies cfg <> [] -> exists s c, s ∈ h_proxies cfg /\ Access.parse s = Ok c /\ is_everything c = false
                             /\ contains c (to_canonical peer) = true)
  /\ (h_proxy_names cfg <> [] -> exists s p cert n, s ∈ h_proxy_names cfg /\ NamePattern_parse s = Ok p
                             /\ matches_everything p = false /\ hop = Some cert /\ n ∈ identities cert
                             /\ matches p n = true).

Lemma is_nil_true {A} (l : list A) : is_nil l = true <-> l = [].
Proof. by destruct l. Qed.

Lemma existsb_elem {A} (f : A -> bool) l : existsb f l = true <-> exists x, x ∈ l /\ f x = true.
Proof. rewrite existsb_exists. setoid_rewrite list_elem_of_In. done. Qed.

Lemma existsb_none {A} (f : A -> bool) l x : existsb f l = false -> x ∈ l -> f x = false.
Proof.
  intros H Hx. destruct (f x) eqn:E; [|done]. exfalso. eapply not_true_iff_false; [exact H|].
  apply existsb_elem. eauto.
Qed.

Lemma trusts_balancer fs cfg (t : TrustedHeader (Verifier := Verifier)) peer hop :
  from_cfg fs cfg = Ok (Some t) -> trusts t peer hop = true -> is_balancer cfg peer hop.
Proof.
  unfold header_from_cfg. intros H. destruct (beq (trim (h_name cfg)) []); [done|]. run_inv H. subst t.
  unfold trusts. cbn [proxies th_names]. rewrite andb_true_iff, !orb_true_iff, !is_nil_true. intros [Ha Hb].
  apply negb_true_iff, andb_false_iff in He. apply negb_true_iff in He0. apply negb_true_iff in He1.
  apply collect_Ok in Hv1. apply collect_Ok in Hv2.
  split; [destruct (h_proxies cfg), (h_proxy_names cfg); (by left) || (by right) || by destruct He|]. split.
  - intros Hne. destruct Ha as [->|Ha]; [inversion Hv2; subst; congruence|].
    apply existsb_elem in Ha as (c & Hc & Hin). destruct (Forall2_in_r _ _ _ _ Hv2 Hc) as (s & Hs & Hp).
    exists s, c. split; [done|]. split; [done|]. split; [|done]. by eapply existsb_none.
  - intros Hne. destruct Hb as [->|Hb]; [inversion Hv1; subst; congruence|]. destruct hop as [cert|]; [|done].
    apply existsb_elem in Hb as (n & Hn & Hb). apply existsb_elem in Hb as (p & Hp & Hm).
    destruct (Forall2_in_r _ _ _ _ Hv1 Hp) as (s & Hs & Hps). exists s, p, cert, n.
    split; [done|]. split; [done|]. split; [by eapply existsb_none|]. done.
Qed.

(** C14.  [TrustedHeader::apply], for a header that a valid configuration describes: the header never
    reaches the app and no other header changes; from a connection that is not the configured balancer
    the request keeps exactly the certificate its own handshake presented, whatever the header held; from
    the balancer the request has the certificate of a header sent exactly once that reads (and verifies)
    as one, and otherwise none at all, never the balancer's own. *)
Theorem header_cert_unspoofable fs cfg t last now peer req :
  from_cfg fs cfg = Ok (Some t) ->
  let '(_, req', _) := apply_header t last now peer req in
  get_all (r_headers req') (th_name t) = []
  /\ (forall n, n <> th_name t -> get_all (r_headers req') n = get_all (r_headers req) n)
  /\ (~ is_balancer cfg peer (client_cert req) -> client_cert req' = client_cert req)
  /\ (trusts t peer (client_cert req) = true ->
      forall c, client_cert req' = Some c <->
        exists v, get_all (r_headers req) (th_name t) = [v] /\ read_header t [v] now = inl c).
Proof.
  intros Hcfg. pose proof (trusts_balancer fs cfg t peer (client_cert req) Hcfg) as Hbal.
  assert (Hh : get_all (remove (r_headers req) (th_name t)) (th_name t) = [])
    by (rewrite get_all_remove; by rewrite decide_True).
  assert (Ho : forall n, n <> th_name t ->
            get_all (remove (r_headers req) (th_name t)) n = get_all (r_headers req) n)
    by (intros n Hn; rewrite get_all_remove; by rewrite decide_False).
  unfold apply. destruct (get_all (r_headers req) (th_name t)) as [|v vs] eqn:Hv; cbn [r_headers client_cert].
  - split; [done|]. split; [done|]. destruct (trusts t peer (client_cert req)); [|done].
    split; [intros H; by destruct H; apply Hbal|]. intros _ c. split; [done|]. by intros (w & [=] & _).
  - destruct (trusts t peer (client_cert req)); cbn [negb r_headers client_cert]; [|done].
    destruct vs as [|w vs].
    + destruct (read_header t [v] now) as [c|why] eqn:Hr; [|destruct (60 <=? now - last)];
        cbn [r_headers client_cert];
        (split; [done|]; split; [done|]; split; [intros H; by destruct H; apply Hbal|]); intros _ c';
        (split; [|intros (w & [= <-] & Hc); rewrite Hr in Hc; (by injection Hc as ->) || done]);
        try done. intros [= <-]. eauto.
    + change (read_header t (v :: w :: vs) now) with (@inr ClientCert Refused RInvalid). cbn iota beta.
      destruct (60 <=? now - last); cbn [r_headers client_cert];
        (split; [done|]; split; [done|]; split; [intros H; by destruct H; apply Hbal|]); intros _ c';
        (split; [done | by intros (x & [=] & _)]).
Qed.

(** A reload that fails keeps the verifier; one that succeeds leaves the verifier of some state of the
    files, with the bytes of the present one. *)
Definition built (a : ClientAuth (Verifier := Verifier)) : Prop :=
  exists fs, build_auth fs (ca_mode a) (ca_path a) (crl_paths a) = Ok (current a, loaded a, trust_info a).

Theorem reload_consistent fs a r a' :
  built a -> reload_auth fs a = (r, a') ->
  built a'
  /\ match r with
     | Err _ => a' = a
     | Ok changed => exists v tr, build_auth fs (ca_mode a) (ca_path a) (crl_paths a) = Ok (v, loaded a', tr)
                     /\ (changed = true -> current a' = v /\ trust_info a' = tr)
                     /\ (changed = false -> a' = a)
     end.
Proof.
  intros Hb. unfold reload. destruct (build_auth fs _ _ _) as [[[v ld] tr]|e] eqn:E.
  - destruct (beq (loaded a) ld) eqn:Hl; intros [= <- <-].
    + apply beq_true in Hl. subst ld. split; [done|]. exists v, tr. repeat split; done.
    + split; [by exists fs|]. exists v, tr. done.
  - intros [= <- <-]. done.
Qed.
End Header.

(** A balancer at 10.0.0.5 forwards a certificate; the header is believed from it. *)
Module DemoHeader.
Definition cfg : TrustedClientCertHeaderCfg :=
  mkHeaderCfg (lit "x-cert") (lit "xfcc") [lit "10.0.0.0/8"] [] [] [].
Definition fs (_ : bytes) : option bytes := None.
Definition none3 (_ _ _ : Z) : option unit := None.
Definition ts (_ _ : unit) : Z := 0.
Definition nob64 (_ : B64Engine) (_ : bytes) : option bytes := None.
Definition nofile (_ : bytes) : option (list bytes) := None.
Definition yes (_ : bytes) : bool := true.
Definition nover (_ _ : list bytes) (_ : bool) : option unit := None.
Definition check (_ : unit) (_ : bytes) (_ : list bytes) (_ : Z) : bool := false.
Definition header : TrustedHeader (Verifier := unit) :=
  mkTrustedHeader (lit "x-cert") Xfcc [CidrV4 (10 * 2 ^ 24) 8] [] None.
Definition req : Req := mkReq [(lit "x-cert", write_xfcc demo_client)] None.
Definition peer : IpAddr := V4 (10 * 2 ^ 24 + 5).
End DemoHeader.

Lemma header_cert_unspoofable_witness :
  let '(_, req', _) := apply DemoHeader.none3 DemoHeader.none3 DemoHeader.ts id DemoHeader.nob64 id DemoHeader.check
                         DemoHeader.header 0 100 DemoHeader.peer DemoHeader.req in
  get_all (r_headers req') (th_name DemoHeader.header) = []
  /\ (forall n, n <> th_name DemoHeader.header -> get_all (r_headers req') n = get_all (r_headers DemoHeader.req) n)
  /\ (~ is_balancer DemoHeader.cfg DemoHeader.peer (client_cert DemoHeader.req) ->
       client_cert req' = client_cert DemoHeader.req)
  /\ (trusts DemoHeader.header DemoHeader.peer (client_cert DemoHeader.req) = true ->
      forall c, client_cert req' = Some c <->
        exists v, get_all (r_headers DemoHeader.req) (th_name DemoHeader.header) = [v]
          /\ read_values DemoHeader.none3 DemoHeader.none3 DemoHeader.ts id DemoHeader.nob64 id DemoHeader.check
                DemoHeader.header [v] 100 = inl c).
Proof.
  apply (header_cert_unspoofable DemoHeader.none3 DemoHeader.none3 DemoHeader.ts id DemoHeader.nob64 id Some
    DemoHeader.nofile DemoHeader.nofile DemoHeader.yes DemoHeader.nover DemoHeader.check DemoHeader.fs DemoHeader.cfg).
  vm_compute. reflexivity.
Defined.

Example demo_header_accepted :
  (apply DemoHeader.none3 DemoHeader.none3 DemoHeader.ts id DemoHeader.nob64 id DemoHeader.check
     DemoHeader.header 0 100 DemoHeader.peer DemoHeader.req).1.2 = mkReq [] (Some (told demo_client)).
Proof. vm_compute. reflexivity. Qed.

(** What the files held is remembered as one string of bytes.  A certificate that moves from the CRL
    file (where it is skipped) to the CA file leaves that string as it was, so the change is not seen:
    the reload answers that nothing changed and the new CA is not trusted. *)
Module MovedBytes.
Fixpoint blocks (kind : Z) (s : bytes) : list bytes :=
  match s with k :: b :: s => if k =? kind then [b] :: blocks kind s else blocks kind s | _ => [] end.
Definition ca : bytes := lit "ca".
Definition crl_file : bytes := lit "crl".
Definition disk (a b : bytes) (path : bytes) : option bytes :=
  if beq path ca then Some a else if beq path crl_file then Some b else None.
Definition build_here (fs : bytes -> option bytes) :=
  build DemoHeader.none3 DemoHeader.none3 DemoHeader.ts id (fun s => Some (blocks 1 s)) (fun s => Some (blocks 2 s))
    DemoHeader.yes (fun roots cs _ => Some (roots, cs)) fs Required ca [crl_file].
Definition before : bytes -> option bytes := disk [1; 10] [1; 11; 2; 20].
Definition after : bytes -> option bytes := disk [1; 10; 1; 11] [2; 20].
Definition auth : ClientAuth := mkClientAuth Required ca [crl_file] ([[10]], [[20]]) [1; 10; 1; 11; 2; 20] (mkTrust [] []).
End MovedBytes.

Example reload_misses_moved_bytes :
  MovedBytes.build_here MovedBytes.before = Ok (current MovedBytes.auth, loaded MovedBytes.auth, mkTrust [] [])
  /\ MovedBytes.build_here MovedBytes.after = Ok (([[10]; [11]], [[20]]), loaded MovedBytes.auth, mkTrust [] [])
  /\ reload DemoHeader.none3 DemoHeader.none3 DemoHeader.ts id (fun s => Some (MovedBytes.blocks 1 s))
       (fun s => Some (MovedBytes.blocks 2 s)) DemoHeader.yes (fun roots cs _ => Some (roots, cs))
       MovedBytes.after MovedBytes.auth = (Ok false, MovedBytes.auth).
Proof. vm_compute. repeat split. Qed.
