(* ===== verification/Auth.v ===== *)
(** * Auth: the authentication gate ([src/src/auth.rs])

    [AuthEngine] for every mode, the constant-time comparison, Basic and API-key credentials, JWT
    verification with its key source, and the JWKS cache.  The [argon2], [base64], [jsonwebtoken] and
    [http] crates, the standard hasher and the JWKS endpoint are parameters. *)

From S2P Require Import Prelude Text Units Http Budget Der ClientCert.

(** ** Constant-time comparison *)

(** [for i in 0..max_len]: every index of the longer input, a missing byte read as 0. *)
Definition constant_time_eq (a b : bytes) : bool :=
  let diff := Z.lxor (len a) (len b) in
  fold_left (fun diff i => Z.lor diff (Z.lxor (default 0 (a !! i)) (default 0 (b !! i))))
    (seq 0 (Nat.max (length a) (length b))) diff =? 0.

(** ** The gate *)

Definition AUTHORIZATION : bytes := lit "authorization".

(** The claims of a token: what [Value::get] finds under a name. *)
Definition Claims : Type := bytes -> option Json.

Inductive Challenge : Type := ChBasic (c : bytes) | ChBearer | ChNone.

Inductive Decision : Type :=
| Allow (principal : option bytes)
| AllowJwt (principal : option bytes) (claims : Claims)
| Deny (c : Challenge).

Inductive Algorithm : Type :=
  HS256 | HS384 | HS512 | RS256 | RS384 | RS512 | PS256 | PS384 | PS512 | ES256 | ES384 | EdDSA.
#[global] Instance Algorithm_eq_dec : EqDecision Algorithm.
Proof. solve_decision. Defined.

Definition upper_byte (c : Z) : Z := if is_lower c then c - 32 else c.

Definition algorithms : list (bytes * Algorithm) :=
  [(lit "HS256", HS256); (lit "HS384", HS384); (lit "HS512", HS512); (lit "RS256", RS256); (lit "RS384", RS384);
   (lit "RS512", RS512); (lit "PS256", PS256); (lit "PS384", PS384); (lit "PS512", PS512); (lit "ES256", ES256);
   (lit "ES384", ES384); (lit "EDDSA", EdDSA)].

Definition parse_algorithm (s : bytes) : result Algorithm :=
  match List.find (fun p => beq p.1 (map upper_byte s)) algorithms with
  | Some p => Ok p.2
  | None => Err "unsupported auth.jwt.algorithm"
  end.

(** [jsonwebtoken::Validation] as [JwtValidator::build] sets it up. *)
Record Validation : Type := mkValidation {
  v_alg : Algorithm; leeway : Z; validate_nbf : bool; v_issuer : option bytes; v_audience : option bytes
}.

Record JwtCfg : Type := mkJwtCfg {
  algorithm : bytes; secret : bytes; public_key_pem : bytes; jwks_url : bytes; jwks_cache_secs : Z;
  issuer : bytes; audience : bytes; leeway_secs : Z
}.

Record AuthCfg : Type := mkAuthCfg {
  mode : bytes; realm : bytes; users : gmap bytes bytes; api_keys : list bytes; api_key_header : bytes;
  jwt : JwtCfg; mtls_allowed : list bytes
}.

Definition subject (claims : Claims) : option bytes :=
  match claims (lit "sub") with Some (JString s) => Some s | _ => None end.

Section Auth.
Context {Key Phc : Type}.
Variable to_str_ok : bytes -> bool.                           (** [HeaderValue::to_str] *)
Variable header_name : bytes -> option bytes.                 (** [HeaderName::from_bytes] *)
Variable b64_decode : bytes -> option bytes.                  (** [STANDARD.decode] *)
Variable phc_new : bytes -> option Phc.                       (** [PasswordHash::new] *)
Variable phc_verify : Phc -> bytes -> bool.                   (** [Argon2::verify_password] *)
Variable hash_str : bytes -> Z.                               (** [DefaultHasher] of a string *)
Variable from_secret : bytes -> Key.                          (** [DecodingKey::from_secret] *)
Variable from_pem : Algorithm -> bytes -> option Key.         (** [from_rsa_pem], [from_ec_pem], [from_ed_pem] *)
Variable decode_header : bytes -> option (Algorithm * option bytes).
Variable decode : bytes -> Key -> Validation -> option Claims.

(** *** Basic and API keys *)

Definition to_str (v : bytes) : option bytes := if to_str_ok v then Some v else None.

Definition basic_credentials (h : Headers) : option (bytes * bytes) :=
  v ← get h AUTHORIZATION; auth ← to_str v; b64 ← strip_prefix (lit "Basic ") auth;
  decoded ← b64_decode (trim b64);
  if from_utf8_ok decoded then split_once 58 decoded else None.

Definition basic_username (h : Headers) : option bytes := fst <$> basic_credentials h.

Definition check_basic_auth (cfg : AuthCfg) (h : Headers) : bool :=
  match basic_credentials h with
  | None => false
  | Some (user, pass) =>
      match users cfg !! user with
      | None => false
      | Some stored =>
          if starts_with stored (lit "$argon2") then
            match phc_new stored with Some p => phc_verify p pass | None => false end
          else constant_time_eq stored pass
      end
  end.

Definition bearer_token (h : Headers) : option bytes :=
  v ← get h AUTHORIZATION; s ← to_str v; t ← strip_prefix (lit "Bearer ") s; Some (trim t).

(** [{:016x}]. *)
Definition hex16 (z : Z) : bytes := let s := hex z in replicate (16 - length s) 48 ++ s.

Definition short_id (s : bytes) : bytes := hex16 (hash_str s).

(** The key a request presents: the key's own header, or else the bearer token. *)
Definition presented_key (header : bytes) (h : Headers) : option bytes :=
  match (v ← get h header; to_str v) with
  | Some v => Some (trim v)
  | None => bearer_token h
  end.

Definition verify_api_key (keys : list bytes) (header : bytes) (h : Headers) : option bytes :=
  presented ← presented_key header h;
  k ← fold_left (fun matched key => if constant_time_eq key presented then Some key else matched) keys None;
  Some (lit "apikey:" ++ short_id k).

(** *** JWT *)

(** Keys by [kid], and when they were fetched. *)
Record CachedKeys : Type := mkCached { fetched_at : Z; by_kid : gmap bytes Key }.

Inductive KeySource : Type := Static (k : Key) | Jwks (ttl : Duration).

Record JwtValidator : Type := mkValidator { alg : Algorithm; validation : Validation; keys : KeySource }.

Definition static_key (cfg : JwtCfg) (a : Algorithm) : result Key :=
  match a with
  | HS256 | HS384 | HS512 =>
      ensure (negb (beq (secret cfg) [])) else "auth.jwt.secret is required for HS* algorithms";
      Ok (from_secret (secret cfg))
  | _ =>
      ensure (negb (beq (public_key_pem cfg) [])) else "auth.jwt.public_key_pem (or jwks_url) is required";
      ok_or (from_pem a (public_key_pem cfg)) "parsing auth.jwt.public_key_pem"
  end.

(** [client_ok]: the outbound HTTP client of the JWKS endpoint builds. *)
Definition validator_build (client_ok : bytes -> bool) (cfg : JwtCfg) : result JwtValidator :=
  let? a := parse_algorithm (algorithm cfg) in
  let v := mkValidation a (leeway_secs cfg) true
             (if beq (issuer cfg) [] then None else Some (issuer cfg))
             (if beq (audience cfg) [] then None else Some (audience cfg)) in
  let? ks := (if negb (beq (jwks_url cfg) []) then
                ensure (client_ok (jwks_url cfg)) else "building JWKS HTTP client";
                Ok (Jwks (from_secs (jwks_cache_secs cfg)))
              else let? k := static_key cfg a in Ok (Static k)) in
  Ok (mkValidator a v ks).

(** [HashMap::values().next()] when there is one key: it is that key, whatever the order. *)
Definition select_key (m : gmap bytes Key) (kid : option bytes) : option Key :=
  match kid with
  | Some k => m !! k
  | None => if Nat.eqb (size m) 1 then head (map snd (map_to_list m)) else m !! []
  end.

(** [parse_jwks] after the JSON: each key's [kid], and the key where it is usable. *)
Definition parse_jwks (set : option (list (option bytes * option Key))) : result (gmap bytes Key) :=
  let? ks := ok_or set "parsing JWKS JSON" in
  let m := fold_left (fun m jwk => match jwk.2 with
                                   | Some key => <[default [] jwk.1 := key]> m
                                   | None => m
                                   end) ks ∅ in
  ensure (negb (Nat.eqb (size m) 0)) else "JWKS contained no usable keys";
  Ok m.

Definition fresh (ttl : Duration) (c : CachedKeys) (now : Z) : bool := now - fetched_at c <=? ttl.

Definition lookup_fresh (ttl : Duration) (cache : option CachedKeys) (now : Z) (kid : option bytes) : option Key :=
  match cache with
  | Some c => if fresh ttl c now then select_key (by_kid c) kid else None
  | None => None
  end.

(** What the write lock is held across: check again, fetch, store, select.  [fetch] is what the endpoint
    answers ([None]: the request failed); the [bool] says whether it was asked. *)
Definition refresh (ttl : Duration) (cache : option CachedKeys) (now : Z) (kid : option bytes)
    (fetch : result (gmap bytes Key)) (stored_at : Z) : result Key * option CachedKeys * bool :=
  let needs_fetch := match cache with
                     | Some c => negb (fresh ttl c now) || negb (bool_decide (is_Some (select_key (by_kid c) kid)))
                     | None => true
                     end in
  let pick cache :=
    match cache with
    | Some c => match select_key (by_kid c) kid with
                | Some k => Ok k
                | None => Err "no JWKS key"
                end
    | None => Err "no JWKS key"
    end in
  if needs_fetch then
    match fetch, cache with
    | Ok m, _ => let c := Some (mkCached stored_at m) in (pick c, c, true)
    | Err _, Some _ => (pick cache, cache, true)
    | Err e, None => (Err "JWKS refresh failed and no cached keys", None, true)
    end
  else (pick cache, cache, false).

(** [key_for]: the cache as the read lock finds it, then as the write lock finds it (other requests may
    have refreshed it in between). *)
Definition key_for (ttl : Duration) (cache : option CachedKeys) (now : Z) (at_lock : option CachedKeys)
    (now_lock : Z) (kid : option bytes) (fetch : result (gmap bytes Key)) (stored_at : Z)
    : result Key * option CachedKeys * bool :=
  match lookup_fresh ttl cache now kid with
  | Some k => (Ok k, at_lock, false)
  | None => refresh ttl at_lock now_lock kid fetch stored_at
  end.

(** [verify_claims], with the cache it leaves; [jwks_key] is [key_for] at this request. *)
Definition verify_claims (v : JwtValidator) (jwks_key : option bytes -> result Key * option CachedKeys)
    (cache : option CachedKeys) (token : bytes) : result Claims * option CachedKeys :=
  match decode_header token with
  | None => (Err "malformed JWT header", cache)
  | Some hd =>
      if bool_decide (hd.1 = alg v) then
        let '(key, cache) := match keys v with Static k => (Ok k, cache) | Jwks _ => jwks_key hd.2 end in
        (let? k := key in ok_or (decode token k (validation v)) "JWT rejected", cache)
      else (Err "token alg is not the configured one", cache)
  end.

(** *** The engine *)

Inductive AuthEngine : Type :=
| Open
| Basic
| ApiKey (keys : list bytes) (header : bytes)
| Jwt (v : JwtValidator)
| Mtls (allowed : list NamePattern).

Definition auth_build (client_ok : bytes -> bool) (cfg : AuthCfg) : result AuthEngine :=
  if beq (mode cfg) (lit "none") then Ok Open
  else if beq (mode cfg) (lit "basic") then Ok Basic
  else if beq (mode cfg) (lit "apikey") then
    let? h := ok_or (header_name (api_key_header cfg)) "invalid auth.api_key_header" in
    Ok (ApiKey (api_keys cfg) h)
  else if beq (mode cfg) (lit "jwt") then
    let? v := validator_build client_ok (jwt cfg) in Ok (Jwt v)
  else if beq (mode cfg) (lit "mtls") then
    let? a := collect NamePattern_parse (mtls_allowed cfg) in Ok (Mtls a)
  else Err "unknown auth.mode (expected none|basic|apikey|jwt|mtls)".

Definition repeated (h : Headers) (name : bytes) : bool :=
  match get_all h name with _ :: _ :: _ => true | _ => false end.

Definition repeated_credential (e : AuthEngine) (h : Headers) : bool :=
  match e with
  | Basic | Jwt _ => repeated h AUTHORIZATION
  | ApiKey _ header =>
      if repeated h header then true
      else if match get h header with Some v => to_str_ok v | None => false end then false
      else repeated h AUTHORIZATION
  | Open | Mtls _ => false
  end.

Definition challenge (e : AuthEngine) (cfg : AuthCfg) : Challenge :=
  match e with
  | Basic => ChBasic (lit "Basic realm=" ++ [34] ++ realm cfg ++ [34])
  | Jwt _ => ChBearer
  | Open | ApiKey _ _ | Mtls _ => ChNone
  end.

Definition authorize_with_cert (e : AuthEngine) (cfg : AuthCfg) (h : Headers) (cert : option ClientCert)
    (jwks_key : option bytes -> result Key * option CachedKeys) (cache : option CachedKeys)
    : Decision * option CachedKeys :=
  if repeated_credential e h then (Deny (challenge e cfg), cache)
  else
    match e with
    | Open => (Allow None, cache)
    | Basic => (if check_basic_auth cfg h then Allow (basic_username h) else Deny (challenge e cfg), cache)
    | ApiKey ks header =>
        (match verify_api_key ks header h with Some p => Allow (Some p) | None => Deny ChNone end, cache)
    | Jwt v =>
        match bearer_token h with
        | Some token =>
            let '(r, cache) := verify_claims v jwks_key cache token in
            (match r with Ok claims => AllowJwt (subject claims) claims | Err _ => Deny ChBearer end, cache)
        | None => (Deny ChBearer, cache)
        end
    | Mtls allowed =>
        (match cert with
         | Some c => match cert_principal c allowed with Some p => Allow (Some p) | None => Deny ChNone end
         | None => Deny ChNone
         end, cache)
    end.
End Auth.

(** ** Comparison and keys *)

Lemma lor_fold_zero {A} (f : A -> Z) l d :
  fold_left (fun acc x => Z.lor acc (f x)) l d = 0 <-> d = 0 /\ Forall (fun x => f x = 0) l.
Proof.
  revert d. induction l as [|x l IH]; intros d; cbn [fold_left]; [by rewrite Forall_nil; tauto|].
  rewrite IH, Z.lor_eq_0_iff, Forall_cons. tauto.
Qed.

Lemma constant_time_eq_true a b : constant_time_eq a b = true <-> a = b.
Proof.
  unfold constant_time_eq. rewrite Z.eqb_eq, lor_fold_zero, Z.lxor_eq_0_iff, Forall_seq. split.
  - intros [Hl Hi]. unfold len in Hl. assert (length a = length b) as E by lia.
    apply (list_eq_same_length _ _ (length a)); [lia|lia|]. intros i x y Hlt Hx Hy.
    specialize (Hi i ltac:(lia)). cbn beta in Hi. rewrite Hx, Hy in Hi. change (Z.lxor x y = 0) in Hi. by apply Z.lxor_eq_0_iff.
  - intros ->. split; [done|]. intros i _. apply Z.lxor_nilpotent.
Qed.

Lemma last_match_key keys presented m :
  fold_left (fun matched key => if constant_time_eq key presented then Some key else matched) keys m
  = if decide (presented ∈ keys) then Some presented else m.
Proof.
  revert m. induction keys as [|k keys IH]; intros m; cbn [fold_left].
  - by rewrite decide_False by apply not_elem_of_nil.
  - rewrite IH. destruct (constant_time_eq k presented) eqn:E.
    + apply constant_time_eq_true in E as ->. rewrite (decide_True (P := presented ∈ presented :: keys)) by by left.
      by destruct (decide _).
    + assert (presented <> k) as Hne by (intros ->; by rewrite (proj2 (constant_time_eq_true k k) eq_refl) in E).
      destruct (decide (presented ∈ keys)), (decide (presented ∈ k :: keys)) as [Hin|Hin]; try done.
      * by destruct Hin; right.
      * apply elem_of_cons in Hin as [?|?]; done.
Qed.

(** ** Laws: who is let in

    The credentials that grant a request, as a relation with one rule per kind of credential, and the
    gate's agreement with it; the JWKS cache over any sequence of requests. *)

Section Laws.
Context {Key Phc : Type}.
Variable to_str_ok : bytes -> bool.
Variable b64_decode : bytes -> option bytes.
Variable phc_new : bytes -> option Phc.
Variable phc_verify : Phc -> bytes -> bool.
Variable hash_str : bytes -> Z.
Variable decode_header : bytes -> option (Algorithm * option bytes).
Variable decode : bytes -> Key -> Validation -> option Claims.

Abbreviation authorize := (authorize_with_cert to_str_ok b64_decode phc_new phc_verify hash_str decode_header decode).

(** A password against what is stored: a PHC hash verifies it, anything else equals it. *)
Definition password_ok (stored pass : bytes) : Prop :=
  if starts_with stored (lit "$argon2") then exists p, phc_new stored = Some p /\ phc_verify p pass = true
  else stored = pass.

(** The header is sent exactly once, as text. *)
Definition sole (h : Headers) (n v : bytes) : Prop := get_all h n = [v] /\ to_str_ok v = true.

(** The header is absent, or sent once and not as text. *)
Definition unreadable (h : Headers) (n : bytes) : Prop :=
  get_all h n = [] \/ exists w, get_all h n = [w] /\ to_str_ok w = false.

(** What lets a request in, and as whom. *)
Inductive grants (cfg : AuthCfg) (h : Headers) (cert : option ClientCert)
    (jwks_key : option bytes -> result Key * option (@CachedKeys Key)) : @AuthEngine Key -> Decision -> Prop :=
| g_open : grants cfg h cert jwks_key Open (Allow None)
| g_basic b64 decoded user pass stored :
    sole h AUTHORIZATION (lit "Basic " ++ b64) -> b64_decode (trim b64) = Some decoded ->
    from_utf8_ok decoded = true -> decoded = user ++ 58 :: pass -> 58 ∉ user ->
    users cfg !! user = Some stored -> password_ok stored pass ->
    grants cfg h cert jwks_key Basic (Allow (Some user))
| g_key_header ks header v :
    sole h header v -> trim v ∈ ks ->
    grants cfg h cert jwks_key (ApiKey ks header) (Allow (Some (lit "apikey:" ++ short_id hash_str (trim v))))
| g_key_bearer ks header t :
    unreadable h header -> sole h AUTHORIZATION (lit "Bearer " ++ t) -> trim t ∈ ks ->
    grants cfg h cert jwks_key (ApiKey ks header) (Allow (Some (lit "apikey:" ++ short_id hash_str (trim t))))
| g_jwt v t kid key claims :
    sole h AUTHORIZATION (lit "Bearer " ++ t) -> decode_header (trim t) = Some (alg v, kid) ->
    match keys v with Static k => k = key | Jwks _ => (jwks_key kid).1 = Ok key end ->
    decode (trim t) key (validation v) = Some claims ->
    grants cfg h cert jwks_key (Jwt v) (AllowJwt (subject claims) claims)
| g_mtls_any c :
    cert = Some c ->
    grants cfg h cert jwks_key (Mtls []) (Allow (Some (default (lit "sha256:" ++ sha256 c) (head (identities c)))))
| g_mtls_named allowed c name before after :
    cert = Some c -> identities c = before ++ name :: after ->
    (exists p, p ∈ allowed /\ matches p name = true) ->
    (forall n p, n ∈ before -> p ∈ allowed -> matches p n = false) ->
    grants cfg h cert jwks_key (Mtls allowed) (Allow (Some name)).

Lemma get_of_all h n : get h n = head (get_all h n).
Proof. done. Qed.

Lemma not_repeated h n : repeated h n = false <-> get_all h n = [] \/ exists v, get_all h n = [v].
Proof.
  unfold repeated. destruct (get_all h n) as [|v [|w vs]].
  - split; [by left | done].
  - split; [by right; exists v | done].
  - split; [done|]. intros [?|[? ?]]; done.
Qed.

Lemma sole_read h n v :
  repeated h n = false /\ (x ← get h n; to_str to_str_ok x) = Some v <-> sole h n v.
Proof.
  rewrite not_repeated, get_of_all. unfold sole, to_str. split.
  - intros [[->|[w ->]] H]; [done|]. cbn in H. destruct (to_str_ok w) eqn:E; [|done]. by injection H as ->.
  - intros [-> H]. split; [by right; exists v|]. cbn. by rewrite H.
Qed.

Lemma unreadable_read h n :
  repeated h n = false /\ (x ← get h n; to_str to_str_ok x) = None <-> unreadable h n.
Proof.
  rewrite not_repeated, get_of_all. unfold unreadable, to_str. split.
  - intros [[->|[w E]] H]; [by left|]. right. exists w. split; [done|]. rewrite E in H. cbn in H.
    by destruct (to_str_ok w).
  - intros [->|(w & -> & Hw)]; [split; [by left|done]|]. split; [by right; exists w|]. cbn. by rewrite Hw.
Qed.

Lemma bearer_sole h t :
  repeated h AUTHORIZATION = false /\ bearer_token to_str_ok h = Some t
  <-> exists u, sole h AUTHORIZATION (lit "Bearer " ++ u) /\ t = trim u.
Proof.
  assert (E : bearer_token to_str_ok h = (s ← (x ← get h AUTHORIZATION; to_str to_str_ok x);
                                         u ← strip_prefix (lit "Bearer ") s; Some (trim u))).
  { unfold bearer_token. by destruct (get h AUTHORIZATION). }
  rewrite E. split.
  - intros [Hr H]. destruct (x ← get h AUTHORIZATION; to_str to_str_ok x) as [s|] eqn:Hs; [|done].
    cbn [mbind option_bind] in H. destruct (strip_prefix (lit "Bearer ") s) as [u|] eqn:Hu; [|done].
    cbn in H. injection H as <-. apply strip_prefix_Some in Hu as ->. exists u. split; [|done].
    by apply sole_read.
  - intros (u & H & ->). apply sole_read in H as [Hr ->]. split; [done|]. cbn [mbind option_bind].
    by rewrite (proj2 (strip_prefix_Some _ _ _) eq_refl).
Qed.

Lemma basic_sole h user pass :
  repeated h AUTHORIZATION = false /\ basic_credentials to_str_ok b64_decode h = Some (user, pass)
  <-> exists b64 decoded, sole h AUTHORIZATION (lit "Basic " ++ b64) /\ b64_decode (trim b64) = Some decoded
        /\ from_utf8_ok decoded = true /\ decoded = user ++ 58 :: pass /\ 58 ∉ user.
Proof.
  assert (E : basic_credentials to_str_ok b64_decode h
              = (s ← (x ← get h AUTHORIZATION; to_str to_str_ok x); b ← strip_prefix (lit "Basic ") s;
                 d ← b64_decode (trim b); if from_utf8_ok d then split_once 58 d else None)).
  { unfold basic_credentials. by destruct (get h AUTHORIZATION). }
  rewrite E. split.
  - intros [Hr H]. destruct (x ← get h AUTHORIZATION; to_str to_str_ok x) as [s|] eqn:Hs; [|done].
    cbn [mbind option_bind] in H. destruct (strip_prefix (lit "Basic ") s) as [b|] eqn:Hb; [|done].
    cbn [mbind option_bind] in H. destruct (b64_decode (trim b)) as [d|] eqn:Hd; [|done].
    cbn [mbind option_bind] in H. destruct (from_utf8_ok d) eqn:Hu; [|done].
    apply split_once_Some in H as [-> Hn]. apply strip_prefix_Some in Hb as ->.
    exists b, (user ++ 58 :: pass). split; [by apply sole_read|]. done.
  - intros (b & d & H & Hd & Hu & -> & Hn). apply sole_read in H as [Hr ->]. split; [done|].
    cbn [mbind option_bind]. rewrite (proj2 (strip_prefix_Some _ _ _) eq_refl). cbn [mbind option_bind].
    rewrite Hd. cbn [mbind option_bind]. rewrite Hu. by apply split_once_Some.
Qed.

Lemma password_check stored pass :
  (if starts_with stored (lit "$argon2") then
     match phc_new stored with Some p => phc_verify p pass | None => false end
   else constant_time_eq stored pass) = true <-> password_ok stored pass.
Proof.
  unfold password_ok. destruct (starts_with stored (lit "$argon2")); [|apply constant_time_eq_true].
  destruct (phc_new stored) as [p|]; [|split; [done | by intros (p & [=] & _)]].
  split; [eauto|]. intros (q & [= ->] & H). done.
Qed.

(** The first name an allow list matches. *)
Lemma find_first {A} (f : A -> bool) l x :
  List.find f l = Some x <->
  exists before after, l = before ++ x :: after /\ f x = true /\ (forall y, y ∈ before -> f y = false).
Proof.
  induction l as [|a l IH]; cbn [List.find].
  - split; [done|]. intros (b & c & H & _). by destruct b.
  - destruct (f a) eqn:E.
    + split.
      * intros [= <-]. exists [], l. split; [done|]. split; [done|]. intros y []%not_elem_of_nil.
      * intros (b & c & H & Hx & Hb). destruct b as [|b bs]; [by injection H as ->|]. injection H as -> ->.
        rewrite (Hb b) in E; [done | by left].
    + rewrite IH. split.
      * intros (b & c & -> & Hx & Hb). exists (a :: b), c. split; [done|]. split; [done|].
        intros y [->|Hy]%elem_of_cons; [done | by apply Hb].
      * intros (b & c & H & Hx & Hb). destruct b as [|b bs]; [injection H as -> ->; congruence|].
        injection H as -> ->. exists bs, c. split; [done|]. split; [done|]. intros y Hy. apply Hb. by right.
Qed.

Definition allows (d : Decision) : Prop := match d with Deny _ => False | _ => True end.

Lemma allow_basic cfg h cert jk d :
  allows d ->
  ((if repeated h AUTHORIZATION then Deny (challenge (Key := Key) Basic cfg)
    else if check_basic_auth to_str_ok b64_decode phc_new phc_verify cfg h
         then Allow (basic_username to_str_ok b64_decode h) else Deny (challenge (Key := Key) Basic cfg)) = d
   <-> grants cfg h cert jk Basic d).
Proof.
  intros Hd. split.
  - intros <-. destruct (repeated h AUTHORIZATION) eqn:Hr; [done|].
    unfold check_basic_auth, basic_username in *.
    destruct (basic_credentials to_str_ok b64_decode h) as [[user pass]|] eqn:Hb; [|done].
    destruct (users cfg !! user) as [stored|] eqn:Hu; [|done]. destruct (if starts_with _ _ then _ else _) eqn:Hp; [|done].
    apply password_check in Hp. destruct (proj1 (basic_sole h user pass) (conj Hr Hb)) as (b & dd & Hs & Hd' & H8 & -> & Hn).
    cbn. by eapply g_basic.
  - intros G. inversion G; subst. destruct (proj2 (basic_sole h user pass)) as [Hr Hb]; [by eexists _, _|].
    rewrite Hr. unfold check_basic_auth, basic_username. rewrite Hb.
    match goal with H : users cfg !! user = Some _ |- _ => rewrite H end.
    match goal with H : password_ok _ _ |- _ => apply password_check in H; rewrite H end. done.
Qed.

Lemma allow_key cfg h cert jk ks header d :
  allows d ->
  ((if repeated_credential to_str_ok (Key := Key) (ApiKey ks header) h then Deny ChNone
    else match verify_api_key to_str_ok hash_str ks header h with Some p => Allow (Some p) | None => Deny ChNone end) = d
   <-> grants cfg h cert jk (ApiKey ks header) d).
Proof.
  intros Hd. cbn [repeated_credential]. unfold verify_api_key, presented_key.
  assert (Ev : match get h header with Some v => to_str_ok v | None => false end
               = bool_decide (is_Some (x ← get h header; to_str to_str_ok x))).
  { destruct (get h header) as [v|]; [|done]. cbn. unfold to_str. by destruct (to_str_ok v). }
  rewrite Ev. split.
  - intros <-. destruct (repeated h header) eqn:Hr; [done|].
    destruct (x ← get h header; to_str to_str_ok x) as [v|] eqn:Hv.
    + cbn [mbind option_bind] in *. rewrite last_match_key in *. rewrite bool_decide_true in * by eauto.
      destruct (decide (trim v ∈ ks)); [|done]. cbn. apply g_key_header; [by apply sole_read | done].
    + rewrite bool_decide_false in * by (by intros [? ?]).
      destruct (repeated h AUTHORIZATION) eqn:Ha; [done|].
      destruct (bearer_token to_str_ok h) as [t|] eqn:Ht; [|done]. cbn [mbind option_bind] in *.
      rewrite last_match_key in *. destruct (decide (t ∈ ks)); [|done]. cbn.
      destruct (proj1 (bearer_sole h t) (conj Ha Ht)) as (u & Hu & ->).
      apply g_key_bearer; [by apply unreadable_read | done | done].
  - intros G. inversion G as [ | |? ? v Hs Hin E1 E2|? ? t Hun Hs Hin E1 E2| | |]; subst.
    + apply sole_read in Hs as [-> Hv]. rewrite Hv. rewrite bool_decide_true by eauto. cbn [mbind option_bind].
      by rewrite last_match_key, decide_True.
    + apply unreadable_read in Hun as [-> Hv]. rewrite Hv. rewrite bool_decide_false by (by intros [? ?]).
      destruct (proj2 (bearer_sole h (trim t))) as [-> Ht]; [by exists t|]. rewrite Ht. cbn [mbind option_bind].
      by rewrite last_match_key, decide_True.
Qed.

Lemma allow_jwt cfg h cert jk v cache d :
  allows d ->
  ((if repeated h AUTHORIZATION then (Deny ChBearer, cache)
    else match bearer_token to_str_ok h with
         | Some token =>
             let '(r, cache) := verify_claims decode_header decode v jk cache token in
             (match r with Ok claims => AllowJwt (subject claims) claims | Err _ => Deny ChBearer end, cache)
         | None => (Deny ChBearer, cache)
         end).1 = d
   <-> grants cfg h cert jk (Jwt v) d).
Proof.
  intros Hd. unfold verify_claims. split.
  - intros <-. destruct (repeated h AUTHORIZATION) eqn:Hr; [done|].
    destruct (bearer_token to_str_ok h) as [t|] eqn:Ht; [|done].
    destruct (proj1 (bearer_sole h t) (conj Hr Ht)) as (u & Hu & ->).
    destruct (decode_header (trim u)) as [[a kid]|] eqn:Hh; [|done]. cbn [fst snd] in *.
    case_bool_decide as Ha; [|done]. subst a.
    destruct (match keys v with Static k => _ | Jwks _ => _ end) as [key c'] eqn:Hk. destruct key as [key|]; [|done].
    cbn [rbind] in *. destruct (decode (trim u) key (validation v)) as [cl|] eqn:Hc; [|done]. cbn in *.
    apply (g_jwt cfg h cert jk v u kid key cl); [done|done| |done]. destruct (keys v); [by injection Hk as -> | by rewrite Hk].
  - intros G. inversion G as [ | | | |? t kid key claims Hs Hh Hk Hc E1 E2| |]; subst.
    destruct (proj2 (bearer_sole h (trim t))) as [-> Ht]; [by exists t|]. rewrite Ht, Hh. cbn [fst snd].
    rewrite bool_decide_true by done. destruct (keys v) as [k|].
    + subst k. cbn [rbind]. by rewrite Hc.
    + destruct (jk kid) as [r c']. cbn [fst] in Hk. subst r. cbn [rbind]. by rewrite Hc.
Qed.

Lemma allow_mtls cfg h cert jk allowed d :
  allows d ->
  (match cert with
   | Some c => match cert_principal c allowed with Some p => Allow (Some p) | None => Deny ChNone end
   | None => Deny ChNone
   end = d <-> grants cfg h cert jk (Mtls allowed) d).
Proof.
  intros Hd. assert (Hf : forall c n, List.find (fun n => existsb (fun p => matches p n) allowed) (identities c) = Some n
    <-> exists b a, identities c = b ++ n :: a /\ (exists p, p ∈ allowed /\ matches p n = true)
          /\ (forall m p, m ∈ b -> p ∈ allowed -> matches p m = false)).
  { intros c n. rewrite find_first. setoid_rewrite existsb_exists. setoid_rewrite list_elem_of_In.
    split; intros (b & a & E & Hx & Hb); exists b, a; (split; [done|]); (split; [done|]).
    - intros m p Hm Hp. specialize (Hb m Hm). destruct (matches p m) eqn:E2; [|done].
      apply not_true_iff_false in Hb. destruct Hb. apply existsb_exists. eauto.
    - intros m Hm. apply not_true_iff_false. intros (p & Hp & E2)%existsb_exists.
      by rewrite (Hb m p Hm Hp) in E2. }
  unfold cert_principal. split.
  - intros <-. destruct cert as [c|]; [|done]. destruct allowed as [|p0 ps]; cbn [ClientCert.cert_principal Access.is_nil].
    + by apply g_mtls_any.
    + destruct (List.find _ (identities c)) as [n|] eqn:E; [|done]. apply Hf in E as (b & a & E & Hx & Hb).
      by eapply g_mtls_named.
  - intros G. inversion G as [ | | | | |c Hc E1 E2|? c name b a Hc Hi Hx Hb E1 E2]; subst; [done|].
    destruct allowed as [|p0 ps]; [by destruct Hx as (p & []%not_elem_of_nil & _)|]. cbn [Access.is_nil].
    by rewrite (proj2 (Hf c name)) by eauto.
Qed.

(** C13.  The gate lets a request in exactly when it carries a credential that grants it, and as the
    principal of that credential: a Basic password that is the stored one (or verifies against its hash),
    an API key that is one of the configured ones byte for byte, a bearer token whose header names the
    configured algorithm and that decodes under the configured (or the JWKS) key, or a verified client
    certificate with an allowed name; in each case the header the credential was read from was sent
    exactly once. *)
Theorem auth_grants e cfg h cert jk cache d :
  allows d -> ((authorize e cfg h cert jk cache).1 = d <-> grants cfg h cert jk e d).
Proof.
  intros Hd. unfold authorize_with_cert. destruct e as [| |ks header|v|allowed].
  - cbn. split; [intros <-; constructor | intros G; by inversion G].
  - rewrite <- (allow_basic cfg h cert jk d Hd). cbn [repeated_credential]. by destruct (repeated h AUTHORIZATION).
  - rewrite <- (allow_key cfg h cert jk ks header d Hd). by destruct (repeated_credential _ _ _).
  - exact (allow_jwt cfg h cert jk v cache d Hd).
  - rewrite <- (allow_mtls cfg h cert jk allowed d Hd). done.
Qed.
End Laws.

(** A request with the key [k1] in its own header, one of two configured. *)
Lemma auth_grants_witness :
  let keys := [lit "k0"; lit "k1"] in
  (authorize_with_cert (Key := unit) (Phc := unit) (fun _ => true) (fun _ => None) (fun _ => None) (fun _ _ => false)
     (fun _ => 7) (fun _ => None) (fun _ _ _ => None) (ApiKey keys (lit "x-api-key"))
     (mkAuthCfg (lit "apikey") [] ∅ keys [] (mkJwtCfg [] [] [] [] 0 [] [] 0) []) [(lit "x-api-key", lit " k1")] None
     (fun _ => (Err "no key", None)) None).1 = Allow (Some (lit "apikey:0000000000000007"))
  <-> grants (Key := unit) (Phc := unit) (fun _ => true) (fun _ => None) (fun _ => None) (fun _ _ => false) (fun _ => 7)
        (fun _ => None) (fun _ _ _ => None) (mkAuthCfg (lit "apikey") [] ∅ keys [] (mkJwtCfg [] [] [] [] 0 [] [] 0) [])
        [(lit "x-api-key", lit " k1")] None (fun _ => (Err "no key", None)) (ApiKey keys (lit "x-api-key"))
        (Allow (Some (lit "apikey:0000000000000007"))).
Proof. apply auth_grants. exact I. Defined.

Example demo_key_accepted :
  (authorize_with_cert (Key := unit) (Phc := unit) (fun _ => true) (fun _ => None) (fun _ => None) (fun _ _ => false)
     (fun _ => 7) (fun _ => None) (fun _ _ _ => None) (ApiKey [lit "k0"; lit "k1"] (lit "x-api-key"))
     (mkAuthCfg (lit "apikey") [] ∅ [] [] (mkJwtCfg [] [] [] [] 0 [] [] 0) []) [(lit "x-api-key", lit " k1")] None
     (fun _ => (Err "no key", None)) None).1 = Allow (Some (lit "apikey:0000000000000007")).
Proof. vm_compute. reflexivity. Qed.

(** ** The JWKS cache *)

Section Jwks.
Context {Key : Type}.
Variable ttl : Duration.

(** A request that missed the cache, as it takes the write lock: when, for which [kid], what the
    endpoint would answer it, and when that answer would be stored. *)
Record Miss : Type := mkMiss {
  at_ : Z; kid_ : option bytes; answer : result (gmap bytes Key); stored : Z
}.

(** The misses one after the other, as the lock serialises them: their answers, the cache they leave,
    and how often the endpoint was asked. *)
Fixpoint serve (cache : option CachedKeys) (l : list Miss) : list (result Key) * option CachedKeys * nat :=
  match l with
  | [] => ([], cache, 0%nat)
  | m :: l =>
      let '(r, cache, asked) := refresh ttl cache (at_ m) (kid_ m) (answer m) (stored m) in
      let '(rs, cache, n) := serve cache l in
      (r :: rs, cache, (if asked then S n else n))
  end.

Definition pick (keys : gmap bytes Key) (m : Miss) : result Key :=
  match select_key keys (kid_ m) with Some k => Ok k | None => Err "no JWKS key" end.

Lemma serve_fresh c l :
  Forall (fun m => at_ m - fetched_at c <= ttl /\ is_Some (select_key (by_kid c) (kid_ m))) l ->
  serve (Some c) l = (map (pick (by_kid c)) l, Some c, 0%nat).
Proof.
  induction 1 as [|m l [Ht Hk] Hl IH]; [done|]. cbn [serve map]. unfold refresh, fresh.
  replace (at_ m - fetched_at c <=? ttl) with true by (symmetry; by apply Z.leb_le).
  rewrite bool_decide_true by done. cbn [negb orb]. rewrite IH. unfold pick at 2. by destruct (select_key _ _).
Qed.

(** However many requests miss the JWKS cache at once, the endpoint is asked once: the first to take
    the lock fetches, every other (within the lifetime, for a key that was served) finds the keys it
    stored, and each is answered with its own key.  When every fetch fails, the keys that were cached stay
    and go on answering, however old they are. *)
Theorem jwks_single_flight c m keys l :
  answer m = Ok keys -> (at_ m - match c with Some c => fetched_at c | None => at_ m - ttl - 1 end > ttl
                         \/ forall c', c = Some c' -> select_key (by_kid c') (kid_ m) = None) ->
  Forall (fun w => at_ w - stored m <= ttl /\ is_Some (select_key keys (kid_ w))) l ->
  serve c (m :: l) = (map (pick keys) (m :: l), Some (mkCached (stored m) keys), 1%nat)
  /\ (forall old w, Forall (fun w => exists e, answer w = Err e) w ->
        (serve (Some old) w).1 = (map (pick (by_kid old)) w, Some old)).
Proof.
  intros Ha Hneed Hl. split.
  - cbn [serve]. unfold refresh.
    assert (Hf : match c with
                 | Some c => negb (fresh ttl c (at_ m)) || negb (bool_decide (is_Some (select_key (by_kid c) (kid_ m))))
                 | None => true
                 end = true).
    { destruct c as [c|]; [|done]. apply orb_true_iff. unfold fresh. destruct Hneed as [H|H].
      - left. apply negb_true_iff, Z.leb_gt. lia.
      - right. rewrite (H c eq_refl). done. }
    rewrite Hf, Ha. cbn [by_kid]. rewrite (serve_fresh (mkCached (stored m) keys) l Hl). cbn [map by_kid].
    unfold pick at 2. by destruct (select_key keys (kid_ m)).
  - intros old w Hw. induction Hw as [|x w [e He] Hw IH]; [done|]. cbn [serve map]. unfold refresh. rewrite He.
    destruct (negb (fresh ttl old (at_ x)) || _);
      (destruct (serve (Some old) w) as [[rs cc] n]; cbn [fst] in *; injection IH as -> ->;
       unfold pick; by destruct (select_key (by_kid old) (kid_ x))).
Qed.
End Jwks.

(** Three requests find no keys; the endpoint serves one key, without a [kid]. *)
Lemma jwks_single_flight_witness :
  let keys : gmap bytes Z := {[ [] := 42 ]} in
  let miss t := mkMiss t None (Ok keys) (t + 1) in
  serve 100 None [miss 0; miss 2; miss 3]
  = (map (pick keys) [miss 0; miss 2; miss 3], Some (mkCached (stored (miss 0)) keys), 1%nat)
  /\ (forall (old : @CachedKeys Z) w, Forall (fun w => exists e, answer w = Err e) w ->
        (serve 100 (Some old) w).1 = (map (pick (by_kid old)) w, Some old)).
Proof.
  apply (jwks_single_flight 100 None (mkMiss 0 None (Ok _) 1) {[ [] := 42 ]}).
  - reflexivity.
  - right. intros c' H. discriminate H.
  - repeat (apply Forall_cons; split; [split; [vm_compute; discriminate | eexists; vm_compute; reflexivity]|]).
    constructor.
Defined.
