(* ===== verification/KeyVault.v ===== *)
(** * KeyVault: virtual keys, provider keys and the models a key may reach ([src/src/keyvault.rs])

    The vault built from [[[llm.keys]]], its two lookups and the egress allow list. *)

From S2P Require Import Prelude Text Budget Auth.
From S2P Require Access.

Record KeyEntryCfg : Type := mkKeyEntryCfg {
  k_virtual_key : bytes; k_claims : list (bytes * list bytes); k_provider_key : bytes;
  k_allowed_models : list bytes; k_label : bytes
}.

Record VaultEntry : Type := mkEntry {
  virtual_key : bytes; e_claims : list (bytes * list bytes); provider_key : bytes;
  allowed_models : list bytes; label : bytes
}.

Definition model_allowed (e : VaultEntry) (model : option bytes) : bool :=
  Access.is_nil (allowed_models e)
  || match model with Some m => bool_decide (m ∈ allowed_models e) | None => false end.

Definition claim_cfg_ok (c : bytes * list bytes) : result unit :=
  ensure (negb (beq (trim c.1) []) && negb (Access.is_nil c.2)) else "a claim names at least one value";
  ensure (forallb (fun v => negb (beq v []) && negb (beq v [42])) c.2)
    else "a value is not empty, and not `*` alone";
  Ok tt.

(** One round of the loop of [build]. *)
Definition entry_of (i : nat) (k : KeyEntryCfg) (entries : list VaultEntry) : result VaultEntry :=
  ensure (beq (k_virtual_key k) [] || Access.is_nil (k_claims k)) else "sets both virtual_key and claims";
  let? _ := collect claim_cfg_ok (k_claims k) in
  ensure (negb (beq (k_virtual_key k) []) || negb (Access.is_nil (k_claims k))) else "virtual_key must not be empty";
  ensure (beq (k_virtual_key k) (trim (k_virtual_key k))) else "virtual_key must not have leading/trailing whitespace";
  ensure (negb (beq (k_provider_key k) [])) else "provider_key must not be empty";
  ensure (beq (k_provider_key k) (trim (k_provider_key k)))
    else "provider_key must not have leading/trailing whitespace";
  ensure (beq (k_virtual_key k) []
          || negb (existsb (fun e => beq (virtual_key e) (k_virtual_key k)) entries)) else "duplicate virtual_key";
  let l := if beq (trim (k_label k)) [] then lit "key" ++ dec (Z.of_nat i) else k_label k in
  Ok (mkEntry (k_virtual_key k) (k_claims k) (k_provider_key k) (k_allowed_models k) l).

Fixpoint build_go (i : nat) (ks : list KeyEntryCfg) (entries : list VaultEntry) : result (list VaultEntry) :=
  match ks with
  | [] => Ok entries
  | k :: ks => let? e := entry_of i k entries in build_go (S i) ks (entries ++ [e])
  end.

Definition vault_build (ks : list KeyEntryCfg) : result (option (list VaultEntry)) :=
  match ks with
  | [] => Ok None
  | _ => let? es := build_go 0 ks [] in Ok (Some es)
  end.

(** Every entry is compared; the last that matches is taken. *)
Definition lookup (es : list VaultEntry) (presented : bytes) : option VaultEntry :=
  fold_left (fun matched e =>
    if negb (beq (virtual_key e) []) && constant_time_eq (virtual_key e) presented then Some e else matched) es None.

Definition one_of (values : list bytes) (text : bytes) : bool :=
  existsb (fun v => match strip_suffix [42] v with
                    | Some prefix => starts_with text prefix
                    | None => beq text v
                    end) values.

Definition claim_matches (claim : option Json) (values : list bytes) : bool :=
  match claim with
  | Some (JString s) => one_of values s
  | Some (JNumber n) => one_of values n
  | Some (JBool b) => one_of values (if b then lit "true" else lit "false")
  | Some (JArray items) => existsb (fun i => match i with JString s => one_of values s | _ => false end) items
  | Some JOther | None => false
  end.

Definition lookup_claims (es : list VaultEntry) (claims : Claims) : option VaultEntry :=
  List.find (fun e => negb (Access.is_nil (e_claims e))
                      && forallb (fun c => claim_matches (claims c.1) c.2) (e_claims e)) es.

(** [check_claims_auth]: entries chosen by claims need a JWT gate pinned to an issuer and an audience. *)
Definition check_claims_auth (auth : AuthCfg) (ks : list KeyEntryCfg) : result unit :=
  if negb (existsb (fun k => negb (Access.is_nil (k_claims k))) ks) then Ok tt
  else
    ensure (beq (mode auth) (lit "jwt")) else "claims are read only of a verified JWT";
    ensure (negb (beq (trim (issuer (jwt auth))) []) && negb (beq (trim (audience (jwt auth))) []))
      else "set auth.jwt.issuer and auth.jwt.audience";
    Ok tt.

(** ** What a built vault is *)

(** Every entry is chosen by exactly one of a virtual key and claims, has a provider key without
    surrounding space, and no two entries share a virtual key. *)
Definition entry_ok (e : VaultEntry) : Prop :=
  (virtual_key e = [] <-> e_claims e <> []) /\ provider_key e <> [] /\ trim (provider_key e) = provider_key e
  /\ trim (virtual_key e) = virtual_key e.

Record vault_ok (es : list VaultEntry) : Prop := {
  vo_entries : Forall entry_ok es;
  vo_keys : forall i j a b, es !! i = Some a -> es !! j = Some b -> virtual_key a = virtual_key b ->
            virtual_key a <> [] -> i = j
}.

Lemma entry_of_ok i k es e :
  entry_of i k es = Ok e ->
  entry_ok e /\ (virtual_key e <> [] -> forall x, x ∈ es -> virtual_key x <> virtual_key e).
Proof.
  unfold entry_of. intros H. run_inv H. subst e. cbn [virtual_key].
  apply beq_true in He1, He3. split.
  - unfold entry_ok. cbn [virtual_key e_claims provider_key]. split; [|split; [|done]].
    + apply orb_true_iff in He, He0. rewrite !negb_true_iff in He0. split.
      * intros E Hc. rewrite E, Hc in He0. cbn in He0. by destruct He0.
      * intros Hne. destruct He as [He|He]; [by apply beq_true|]. by destruct (k_claims k).
    + intros E. rewrite E in He2. done.
  - intros Hne x Hx Heq. apply orb_true_iff in He4 as [He4|He4]; [by apply beq_true in He4|].
    apply negb_true_iff, not_true_iff_false in He4. apply He4, existsb_exists. exists x.
    split; [by apply list_elem_of_In|]. by apply beq_true.
Qed.

Lemma vault_ok_snoc es e :
  vault_ok es -> entry_ok e -> (virtual_key e <> [] -> forall x, x ∈ es -> virtual_key x <> virtual_key e) ->
  vault_ok (es ++ [e]).
Proof.
  intros [H1 H2] He Hn. split; [apply Forall_app; split; [done|by constructor]|].
  intros i j a b Ha Hb Heq Hne. apply lookup_app_Some in Ha as [Ha|[Hi Ha]], Hb as [Hb|[Hj Hb]].
  - by eapply H2.
  - apply list_lookup_singleton_Some in Hb as [? <-]. exfalso. apply (Hn ltac:(congruence) a); [|done].
    by eapply list_elem_of_lookup_2.
  - apply list_lookup_singleton_Some in Ha as [? <-]. exfalso. apply (Hn Hne b); [|done].
    by eapply list_elem_of_lookup_2.
  - apply list_lookup_singleton_Some in Ha as [? _], Hb as [? _]. lia.
Qed.

Lemma build_go_ok i ks es es' : vault_ok es -> build_go i ks es = Ok es' -> vault_ok es'.
Proof.
  revert i es. induction ks as [|k ks IH]; intros i es Hok H; cbn [build_go] in H; [by injection H as <-|].
  apply rbind_Ok in H as (e & He & H). apply entry_of_ok in He as [He Hn]. eapply IH; [|exact H].
  by apply vault_ok_snoc.
Qed.

Lemma vault_build_ok ks es : vault_build ks = Ok (Some es) -> vault_ok es.
Proof.
  unfold vault_build. destruct ks as [|k ks]; [done|]. intros H. run_inv H. subst v.
  eapply build_go_ok; [|exact Hv]. split; [constructor|]. intros i j a b Ha. by rewrite lookup_nil in Ha.
Qed.

Lemma lookup_fold es k m :
  fold_left (fun matched e =>
    if negb (beq (virtual_key e) []) && constant_time_eq (virtual_key e) k then Some e else matched) es m
  = match last (List.filter (fun e => negb (beq (virtual_key e) []) && beq (virtual_key e) k) es) with
    | Some e => Some e
    | None => m
    end.
Proof.
  revert m. induction es as [|e es IH]; intros m; [done|]. cbn [fold_left List.filter]. rewrite IH.
  replace (constant_time_eq (virtual_key e) k) with (beq (virtual_key e) k).
  2:{ destruct (beq (virtual_key e) k) eqn:E; symmetry.
      - apply constant_time_eq_true. by apply beq_true.
      - apply not_true_iff_false. rewrite constant_time_eq_true, <- beq_true. congruence. }
  destruct (negb _ && _); [|done]. rewrite last_cons. by destruct (last _).
Qed.

(** The vault of a valid configuration resolves a presented key to the one entry whose virtual key is
    that key byte for byte, and to nothing otherwise; an entry chosen by claims is never reached by
    presenting a key, not even the empty one, and one chosen by its key never by claims. *)
Theorem vault_lookup_exact ks es k e :
  vault_build ks = Ok (Some es) ->
  (lookup es k = Some e <-> e ∈ es /\ virtual_key e = k /\ k <> [])
  /\ (forall claims, lookup_claims es claims = Some e -> virtual_key e = []
        /\ forall c, c ∈ e_claims e -> claim_matches (claims c.1) c.2 = true).
Proof.
  intros Hb. pose proof (vault_build_ok _ _ Hb) as [Hok Hk]. rewrite Forall_forall in Hok. split.
  - unfold lookup. rewrite lookup_fold.
    set (l := List.filter _ es). assert (Hl : forall x, x ∈ l <-> x ∈ es /\ virtual_key x = k /\ k <> []).
    { intros x. unfold l. rewrite !list_elem_of_In, filter_In, andb_true_iff, negb_true_iff, beq_true.
      split.
      - intros (Hx & Hn & Hv). split; [done|]. split; [done|]. intros ->. rewrite Hv in Hn. done.
      - intros (Hx & Hv & Hn). split; [done|]. split; [|done]. apply not_true_iff_false. rewrite beq_true. congruence. }
    split.
    + destruct (last l) as [x|] eqn:E; [|done]. intros [= ->]. apply Hl. apply last_Some in E as [l' ->].
      apply elem_of_app. right. by left.
    + intros He. apply Hl in He as Hin. destruct (last l) as [x|] eqn:E.
      2:{ apply last_None in E. rewrite E in Hin. by apply not_elem_of_nil in Hin. }
      f_equal. assert (x ∈ l) as Hx by (apply last_Some in E as [l' ->]; apply elem_of_app; right; by left).
      apply Hl in Hx as (Hxe & Hxk & _). destruct He as (He & Hek & Hne).
      apply list_elem_of_lookup in Hxe as [i Hi], He as [j Hj].
      assert (i = j) as -> by (eapply Hk; [done..|congruence|congruence]). congruence.
  - intros claims Hf. apply find_some in Hf as [Hin Hc]. apply andb_true_iff in Hc as [Hn Hc].
    apply list_elem_of_In in Hin. destruct (Hok e Hin) as (Hv & _). split.
    + apply Hv. by destruct (e_claims e).
    + intros c Hcc. rewrite forallb_forall in Hc. apply Hc. by apply list_elem_of_In.
Qed.

Definition demo_keys : list KeyEntryCfg :=
  [mkKeyEntryCfg (lit "vk-a") [] (lit "sk-a") [lit "gpt-4o"] [];
   mkKeyEntryCfg [] [(lit "repository", [lit "acme/*"])] (lit "sk-ci") [] (lit "ci")].
Definition demo_vault : list VaultEntry :=
  [mkEntry (lit "vk-a") [] (lit "sk-a") [lit "gpt-4o"] (lit "key0");
   mkEntry [] [(lit "repository", [lit "acme/*"])] (lit "sk-ci") [] (lit "ci")].

Lemma vault_lookup_exact_witness :
  let e := mkEntry (lit "vk-a") [] (lit "sk-a") [lit "gpt-4o"] (lit "key0") in
  (lookup demo_vault (lit "vk-a") = Some e <-> e ∈ demo_vault /\ virtual_key e = lit "vk-a" /\ lit "vk-a" <> [])
  /\ (forall claims, lookup_claims demo_vault claims = Some e -> virtual_key e = []
        /\ forall c, c ∈ e_claims e -> claim_matches (claims c.1) c.2 = true).
Proof. apply (vault_lookup_exact demo_keys). vm_compute. reflexivity. Defined.

Example demo_claims_choose :
  lookup_claims demo_vault (fun n => if beq n (lit "repository") then Some (JString (lit "acme/web")) else None)
  = demo_vault !! 1%nat /\ lookup demo_vault [] = None.
Proof. vm_compute. split; reflexivity. Qed.
