(* ===== verification/Llm.v ===== *)
(** * Llm: token metering and pricing ([src/src/llm.rs])

    The usage object of the three APIs, the price book and the cost of a usage, model names with a
    provider prefix, the request estimate, and [StreamUsage], which reads the usage of a streamed
    response as it passes.  [serde_json] is a parameter: what it makes of a body, a frame or the start
    of a line. *)

From S2P Require Import Prelude Text Utf8 Float Http Pool.

(** ** Usage *)

Record Usage : Type := mkUsage {
  prompt_tokens : Z; completion_tokens : Z; cached_tokens : Z; reasoning_tokens : Z
}.

Record UsageWire : Type := mkWire {
  w_prompt : option Z; w_completion : option Z; w_prompt_cached : option Z; w_completion_reasoning : option Z;
  w_input : option Z; w_output : option Z; w_input_cached : option Z; w_output_reasoning : option Z;
  w_cache_read : option Z; w_cache_creation : option Z
}.
Definition empty_wire : UsageWire := mkWire None None None None None None None None None None.

Definition or_else {A} (a b : option A) : option A := match a with Some _ => a | None => b end.

Definition merged (self later : UsageWire) : UsageWire :=
  mkWire (or_else (w_prompt later) (w_prompt self)) (or_else (w_completion later) (w_completion self))
    (or_else (w_prompt_cached later) (w_prompt_cached self))
    (or_else (w_completion_reasoning later) (w_completion_reasoning self))
    (or_else (w_input later) (w_input self)) (or_else (w_output later) (w_output self))
    (or_else (w_input_cached later) (w_input_cached self))
    (or_else (w_output_reasoning later) (w_output_reasoning self))
    (or_else (w_cache_read later) (w_cache_read self)) (or_else (w_cache_creation later) (w_cache_creation self)).

Definition usage_from (w : UsageWire) : Usage :=
  let '(prompt, completion, cached, reasoning) :=
    if bool_decide (is_Some (w_prompt w)) || bool_decide (is_Some (w_completion w)) then
      (default 0 (w_prompt w), default 0 (w_completion w), default 0 (w_prompt_cached w),
       default 0 (w_completion_reasoning w))
    else
      let read := default 0 (w_cache_read w) in
      let write := default 0 (w_cache_creation w) in
      (sat_add 64 (sat_add 64 (default 0 (w_input w)) read) write, default 0 (w_output w),
       default read (w_input_cached w), default 0 (w_output_reasoning w)) in
  mkUsage prompt completion (Z.min cached prompt) (Z.min reasoning completion).

Definition usage_is_empty (u : Usage) : bool := (prompt_tokens u =? 0) && (completion_tokens u =? 0).

Definition total_tokens (u : Usage) : Z := sat_add 64 (prompt_tokens u) (completion_tokens u).

(** ** Prices *)

Inductive UnpricedPolicy : Type := Count | Block.

Definition UnpricedPolicy_parse (s : bytes) : result UnpricedPolicy :=
  let s := to_ascii_lowercase (trim s) in
  if beq s (lit "count") || beq s [] then Ok Count
  else if beq s (lit "block") || beq s (lit "reject") || beq s (lit "deny") then Ok Block
  else Err "invalid llm.on_unpriced_model (expected count|block)".

(** Micro-dollars per million tokens. *)
Record ModelRate : Type := mkRate { r_input : Z; r_output : Z; r_cached : Z; r_reasoning : Z }.

Record ModelPrice : Type := mkPrice {
  input_per_1m : f64; output_per_1m : f64; cached_per_1m : f64; reasoning_per_1m : f64
}.

Record LlmCfg : Type := mkLlmCfg {
  cfg_enabled : bool; cfg_api_style : bytes; models : gmap bytes ModelPrice; on_unpriced_model : bytes
}.

Record LlmRuntime : Type := mkRuntime {
  enabled : bool; api_style : bytes; unpriced : UnpricedPolicy; prices : gmap bytes ModelRate
}.

Definition usd_per_m_to_micros (usd : f64) : Z :=
  if negb (is_finite usd) || f64_leb usd f64_zero then 0 else round_as_u64 (f64_mul usd (f64_of_Z 1000000)).

Definition rate_of (p : ModelPrice) : ModelRate :=
  let input := usd_per_m_to_micros (input_per_1m p) in
  let output := usd_per_m_to_micros (output_per_1m p) in
  mkRate input output
    (if f64_ltb f64_zero (cached_per_1m p) then usd_per_m_to_micros (cached_per_1m p) else input)
    (if f64_ltb f64_zero (reasoning_per_1m p) then usd_per_m_to_micros (reasoning_per_1m p) else output).

Definition runtime_build (cfg : LlmCfg) : LlmRuntime :=
  mkRuntime (cfg_enabled cfg)
    (if beq (trim (cfg_api_style cfg)) [] then lit "openai" else to_ascii_lowercase (trim (cfg_api_style cfg)))
    (match UnpricedPolicy_parse (on_unpriced_model cfg) with Ok p => p | Err _ => Count end)
    (rate_of <$> models cfg).

Definition has_price_book (r : LlmRuntime) : bool := negb (bool_decide (prices r = ∅)).

Definition PROVIDER_PREFIXES : list bytes :=
  [lit "openai/"; lit "anthropic/"; lit "azure/"; lit "azure_ai/"; lit "vertex_ai/"; lit "vertex/"; lit "bedrock/";
   lit "gemini/"; lit "google/"; lit "mistral/"; lit "codestral/"; lit "cohere/"; lit "groq/"; lit "together_ai/";
   lit "together/"; lit "fireworks_ai/"; lit "fireworks/"; lit "deepseek/"; lit "xai/"; lit "perplexity/";
   lit "replicate/"; lit "anyscale/"; lit "deepinfra/"; lit "cloudflare/"; lit "watsonx/"; lit "sagemaker/";
   lit "ollama_chat/"; lit "ollama/"].

Definition strip_provider_prefix (model : bytes) : option bytes :=
  match List.find (fun p => (len p <? len model) && eq_ignore_ascii_case (take (length p) model) p)
          PROVIDER_PREFIXES with
  | Some p => Some (drop (length p) model)
  | None => None
  end.

Definition canonical_model (model : bytes) : bytes := default model (strip_provider_prefix model).

Definition resolve_rate (r : LlmRuntime) (model : bytes) : option ModelRate :=
  match prices r !! model with
  | Some rate => Some rate
  | None => match strip_provider_prefix model with Some bare => prices r !! bare | None => None end
  end.

Definition is_priced (r : LlmRuntime) (model : bytes) : bool := bool_decide (is_Some (resolve_rate r model)).

Definition reject_unpriced (r : LlmRuntime) (model : bytes) : bool :=
  match unpriced r with Block => has_price_book r && negb (is_priced r model) | Count => false end.

(** The sum is taken in [u128], which wraps. *)
Definition cost_of_rate (rate : ModelRate) (u : Usage) : Z :=
  let cached := Z.min (cached_tokens u) (prompt_tokens u) in
  let uncached_input := prompt_tokens u - cached in
  let reasoning := Z.min (reasoning_tokens u) (completion_tokens u) in
  let base_output := completion_tokens u - reasoning in
  let total := wrap 128 (wrap 128 (wrap 128 (uncached_input * r_input rate + cached * r_cached rate)
                                   + base_output * r_output rate) + reasoning * r_reasoning rate) in
  Z.min (total / 1000000) (2 ^ 64 - 1).

Definition cost_micros (r : LlmRuntime) (model : bytes) (u : Usage) : option Z :=
  match resolve_rate r model with Some rate => Some (cost_of_rate rate u) | None => None end.

(** ** Requests *)

Definition estimate_prompt_tokens (body_len : Z) : Z := body_len / 4.

Record MaxTokensField : Type := mkMaxTokens {
  max_tokens : option Z; max_completion_tokens : option Z; max_output_tokens : option Z
}.

(** One SSE event's JSON, as far as usage goes. *)
Record Frame : Type := mkFrame {
  kind : option bytes; f_usage : option UsageWire;
  message : option (option UsageWire); response : option (option UsageWire)
}.

Definition LINE_HEAD : nat := 512.
Definition LINE_TAIL : nat := 16 * 1024.

(** The line being read, whether its middle was dropped, and the usage seen so far. *)
Record StreamUsage : Type := mkStream {
  line : bytes; cut : bool; totals : option Usage; anthropic : option UsageWire
}.
Definition stream_default : StreamUsage := mkStream [] false None None.

Definition QUOTED_USAGE : bytes := 34 :: lit "usage" ++ [34].

(** The JSON of a [data:] line. *)
Definition data_payload (l : bytes) : option bytes :=
  match drop_while ascii_ws l with
  | [] => None
  | trimmed =>
      match strip_prefix (lit "data:") trimmed with
      | None => None
      | Some p =>
          let p := trim_ascii p in
          if negb (beq p []) && negb (beq p (lit "[DONE]")) then Some p else None
      end
  end.

Section Serde.
Variable parse_model_field : bytes -> option (option bytes).       (** [from_slice::<ModelField>] *)
Variable parse_max_tokens_field : bytes -> option MaxTokensField.
Variable parse_usage_field : bytes -> option (option UsageWire).   (** [from_slice::<UsageField>] *)
Variable parse_frame : bytes -> option Frame.
(** [Option::<Usage>::deserialize] of a JSON value at the start of the bytes. *)
Variable parse_usage_value : bytes -> option (option UsageWire).

Definition parse_request_model (body : bytes) : option bytes :=
  match parse_model_field body with
  | Some (Some m) => if beq (trim m) [] then None else Some m
  | _ => None
  end.

Definition parse_request_max_tokens (body : bytes) : option Z :=
  match parse_max_tokens_field body with
  | Some f => or_else (or_else (max_tokens f) (max_completion_tokens f)) (max_output_tokens f)
  | None => None
  end.

(** [map(Usage::from).filter(|u| !u.is_empty())]. *)
Definition nonempty_usage (w : option UsageWire) : option Usage :=
  match w with
  | Some w => let u := usage_from w in if usage_is_empty u then None else Some u
  | None => None
  end.

Definition parse_response_usage (body : bytes) : option Usage :=
  match parse_usage_field body with Some w => nonempty_usage w | None => None end.

Definition last_usage_object (payload : bytes) : option UsageWire :=
  match rfind_sub QUOTED_USAGE payload with
  | None => None
  | Some at_ =>
      let rest := drop_while ascii_ws (drop (at_ + length QUOTED_USAGE) payload) in
      match strip_prefix [58] rest with
      | None => None
      | Some rest => match parse_usage_value rest with Some w => w | None => None end
      end
  end.

Definition push (s : StreamUsage) (b : bytes) : StreamUsage :=
  let l := line s ++ b in
  if Nat.ltb (LINE_HEAD + LINE_TAIL) (length l) then
    mkStream (take LINE_HEAD l ++ drop (length l - LINE_TAIL) l) true (totals s) (anthropic s)
  else mkStream l (cut s) (totals s) (anthropic s).

(** What one line adds to the usage seen so far. *)
Definition read_line (l : bytes) (was_cut : bool) (tot : option Usage) (ant : option UsageWire)
    : option Usage * option UsageWire :=
  match data_payload l with
  | None => (tot, ant)
  | Some payload =>
      match find_sub QUOTED_USAGE payload with
      | None => (tot, ant)
      | Some _ =>
          match (if was_cut then None else parse_frame payload) with
          | Some f =>
              let merge w := Some (merged (default empty_wire ant) w) in
              if bool_decide (kind f = Some (lit "message_start")) then
                match message f with Some (Some w) => (tot, merge w) | _ => (tot, ant) end
              else if bool_decide (kind f = Some (lit "message_delta")) then
                match f_usage f with Some w => (tot, merge w) | None => (tot, ant) end
              else
                let wire := or_else (match response f with Some r => r | None => None end) (f_usage f) in
                (or_else (nonempty_usage wire) tot, ant)
          | None => (or_else (nonempty_usage (last_usage_object payload)) tot, ant)
          end
      end
  end.

Definition line_done (s : StreamUsage) : StreamUsage :=
  let '(tot, ant) := read_line (line s) (cut s) (totals s) (anthropic s) in mkStream [] false tot ant.

(** [feed]: everything up to a newline completes a line. *)
Fixpoint feed_go (s : StreamUsage) (cur b : bytes) : StreamUsage :=
  match b with
  | [] => push s (rev cur)
  | c :: b => if c =? 10 then feed_go (line_done (push s (rev cur))) [] b else feed_go s (c :: cur) b
  end.
Definition feed (s : StreamUsage) (b : bytes) : StreamUsage := feed_go s [] b.

Definition finish (s : StreamUsage) : option Usage :=
  let s := line_done s in or_else (totals s) (nonempty_usage (anthropic s)).

Definition parse_sse_usage (b : bytes) : option Usage := finish (feed stream_default b).
End Serde.

(** ** Laws: usage and cost

    [StreamUsage] against a reference that reads the stream line by line, whatever the frames it arrives
    in; the shape of a usage; the exact cost and when its arithmetic cannot overflow. *)

(** ** Streams *)

(** What is kept of a whole line. *)
Definition window (l : bytes) : bytes * bool :=
  if Nat.ltb (LINE_HEAD + LINE_TAIL) (length l)
  then (take LINE_HEAD l ++ drop (length l - LINE_TAIL) l, true) else (l, false).

Section Stream.
Variable parse_frame : bytes -> option Frame.
Variable parse_usage_value : bytes -> option (option UsageWire).

Abbreviation feed_all := (fold_left (feed parse_frame parse_usage_value)).
Abbreviation read_one := (read_line parse_frame parse_usage_value).

(** The reference: the lines of the whole stream, each seen through its window. *)
Definition read_lines (acc : option Usage * option UsageWire) (ls : list bytes) : option Usage * option UsageWire :=
  fold_left (fun acc l => read_one (window l).1 (window l).2 acc.1 acc.2) ls acc.

Definition stream_usage (b : bytes) : option Usage :=
  let '(tot, ant) := read_lines (None, None) (split_on 10 b) in or_else tot (nonempty_usage ant).

(** The reader's state after the lines [ls] and the unfinished line [r]. *)
Definition reads (s : StreamUsage) (acc : option Usage * option UsageWire) (r : bytes) : Prop :=
  line s = (window r).1 /\ cut s = (window r).2 /\ totals s = acc.1 /\ anthropic s = acc.2.

Lemma window_length r : (length (window r).1 <= LINE_HEAD + LINE_TAIL)%nat.
Proof.
  unfold window. destruct (Nat.ltb_spec (LINE_HEAD + LINE_TAIL) (length r)); cbn [fst]; [|lia].
  rewrite length_app, length_take, length_drop. lia.
Qed.

Lemma push_reads s acc r b : reads s acc r -> reads (push s b) acc (r ++ b).
Proof.
  intros (Hl & Hc & Ht & Ha). unfold push, reads. rewrite Hl. unfold window in *.
  destruct (Nat.ltb_spec (LINE_HEAD + LINE_TAIL) (length r)) as [Hr|Hr]; cbn [fst snd] in *.
  - replace (Nat.ltb (LINE_HEAD + LINE_TAIL) (length (r ++ b))) with true
      by (symmetry; apply Nat.ltb_lt; rewrite length_app; lia).
    set (k := take LINE_HEAD r ++ drop (length r - LINE_TAIL) r).
    assert (Hk : length k = (LINE_HEAD + LINE_TAIL)%nat)
      by (unfold k; rewrite length_app, length_take, length_drop; lia).
    destruct (Nat.ltb_spec (LINE_HEAD + LINE_TAIL) (length (k ++ b))) as [Hb|Hb]; rewrite length_app in Hb.
    + cbn [line cut totals anthropic fst snd]. split; [|done]. f_equal.
      * unfold k. rewrite <- app_assoc, !take_app_le by (rewrite ?length_take; lia). by rewrite take_take, Nat.min_id.
      * rewrite !length_app, Hk. unfold k. rewrite <- app_assoc.
        replace (LINE_HEAD + LINE_TAIL + length b - LINE_TAIL)%nat with (length (take LINE_HEAD r) + length b)%nat
          by (rewrite length_take; lia).
        rewrite drop_app_add, <- drop_app_le by lia. rewrite drop_drop. f_equal. lia.
    + assert (b = []) as -> by (destruct b; [done | cbn [length] in Hb; lia]). rewrite !app_nil_r. cbn [line cut totals anthropic].
      done.
  - destruct (Nat.ltb_spec (LINE_HEAD + LINE_TAIL) (length (r ++ b))); cbn [line cut totals anthropic fst snd]; done.
Qed.

Lemma line_done_reads s acc r :
  reads s acc r ->
  reads (line_done parse_frame parse_usage_value s) (read_one (window r).1 (window r).2 acc.1 acc.2) [].
Proof.
  intros (Hl & Hc & Ht & Ha). unfold line_done. rewrite Hl, Hc, Ht, Ha.
  destruct (read_one _ _ _ _) as [tot ant]. done.
Qed.

(** Splitting after what is already on the line. *)
Lemma split_on_acc r b :
  10 ∉ r -> split_on 10 (r ++ b) = match split_on 10 b with [] => [r] | p :: ps => (r ++ p) :: ps end.
Proof.
  induction r as [|c r IH]; intros Hr; cbn [app].
  - pose proof (split_on_nonempty 10 b). by destruct (split_on 10 b).
  - apply not_elem_of_cons in Hr as [Hne Hr]. cbn [split_on]. destruct (Z.eqb_spec c 10); [congruence|].
    rewrite IH by done. pose proof (split_on_nonempty 10 b). by destruct (split_on 10 b).
Qed.

(** Every line but the last one is finished. *)
Definition lines_after (acc : option Usage * option UsageWire) (r b : bytes)
    : (option Usage * option UsageWire) * bytes :=
  let ls := split_on 10 (r ++ b) in (read_lines acc (removelast ls), List.last ls []).

Lemma lines_after_none acc r : 10 ∉ r -> lines_after acc r [] = (acc, r).
Proof. intros Hr. unfold lines_after. rewrite app_nil_r, split_on_none by done. done. Qed.

Lemma lines_after_newline acc r b :
  10 ∉ r -> lines_after acc r (10 :: b) = lines_after (read_one (window r).1 (window r).2 acc.1 acc.2) [] b.
Proof.
  intros Hr. unfold lines_after. rewrite split_on_app by done. cbn [app].
  pose proof (split_on_nonempty 10 b). destruct (split_on 10 b) as [|p ps]; [done|]. done.
Qed.

Lemma feed_go_reads s acc r cur b :
  10 ∉ r -> 10 ∉ cur -> reads s acc r ->
  let '(acc', r') := lines_after acc (r ++ rev cur) b in
  reads (feed_go parse_frame parse_usage_value s cur b) acc' r' /\ 10 ∉ r'.
Proof.
  revert s acc r cur. induction b as [|c b IH]; intros s acc r cur Hr Hcur Hs.
  - assert (Hn : 10 ∉ r ++ rev cur) by (rewrite elem_of_app; intros [?|Hx]; [done|]; by apply list_elem_of_In, in_rev, list_elem_of_In in Hx).
    rewrite lines_after_none by done. split; [|done]. cbn [feed_go]. by apply push_reads.
  - assert (Hn : 10 ∉ r ++ rev cur) by (rewrite elem_of_app; intros [?|Hx]; [done|]; by apply list_elem_of_In, in_rev, list_elem_of_In in Hx). cbn [feed_go].
    destruct (Z.eqb_spec c 10) as [->|Hc].
    + rewrite lines_after_newline by done.
      apply (IH _ _ [] []); [apply not_elem_of_nil..|]. by apply line_done_reads, push_reads.
    + specialize (IH s acc r (c :: cur) Hr ltac:(by apply not_elem_of_cons) Hs). cbn [rev] in IH.
      unfold lines_after in *. by rewrite <- !app_assoc in *.
Qed.

Lemma feed_reads s acc r b :
  10 ∉ r -> reads s acc r ->
  let '(acc', r') := lines_after acc r b in
  reads (feed parse_frame parse_usage_value s b) acc' r' /\ 10 ∉ r'.
Proof.
  intros Hr Hs. pose proof (feed_go_reads s acc r [] b Hr (not_elem_of_nil _) Hs) as H.
  cbn [rev] in H. by rewrite app_nil_r in H.
Qed.

Lemma read_lines_app acc a b : read_lines acc (a ++ b) = read_lines (read_lines acc a) b.
Proof. apply fold_left_app. Qed.

Lemma lines_after_app acc r a b :
  10 ∉ r -> lines_after acc r (a ++ b) = let '(acc', r') := lines_after acc r a in lines_after acc' r' b.
Proof.
  intros Hr. revert acc r Hr. induction a as [|c a IH]; intros acc r Hr.
  - rewrite lines_after_none by done. done.
  - cbn [app]. destruct (Z.eqb_spec c 10) as [->|Hc].
    + rewrite !lines_after_newline by done. apply IH, not_elem_of_nil.
    + specialize (IH acc (r ++ [c])). unfold lines_after in *. rewrite <- !app_assoc in IH. cbn [app] in IH.
      apply IH. rewrite elem_of_app, list_elem_of_singleton. by intros [?|?].
Qed.

Lemma feed_all_reads l s acc r :
  10 ∉ r -> reads s acc r ->
  let '(acc', r') := lines_after acc r (concat l) in reads (feed_all l s) acc' r' /\ 10 ∉ r'.
Proof.
  revert s acc r. induction l as [|b l IH]; intros s acc r Hr Hs; cbn [concat fold_left].
  - by rewrite lines_after_none.
  - rewrite lines_after_app by done. pose proof (feed_reads s acc r b Hr Hs) as H.
    destruct (lines_after acc r b) as [acc' r']. destruct H as [Hs' Hr']. by apply IH.
Qed.

Lemma read_lines_last acc b :
  let '(acc', r') := lines_after acc [] b in
  read_lines acc (split_on 10 b) = read_one (window r').1 (window r').2 acc'.1 acc'.2.
Proof.
  unfold lines_after. cbn [app]. pose proof (split_on_nonempty 10 b) as Hne.
  rewrite (app_removelast_last [] Hne) at 1. by rewrite read_lines_app.
Qed.

Lemma stream_reads_reference l :
  finish parse_frame parse_usage_value (feed_all l stream_default) = stream_usage (concat l).
Proof.
  pose proof (feed_all_reads l stream_default (None, None) [] (not_elem_of_nil _) ltac:(done)) as H.
  pose proof (read_lines_last (None, None) (concat l)) as Hl. unfold stream_usage, finish.
  destruct (lines_after (None, None) [] (concat l)) as [acc' r']. destruct H as [(E1 & E2 & E3 & E4) _].
  unfold line_done. rewrite E1, E2, E3, E4, Hl. by destruct (read_one _ _ _ _).
Qed.

(** The usage a streamed response reports does not depend on how it was cut into frames: feeding the
    frames one by one gives what reading the whole stream line by line gives (each line seen through its
    first 512 and last 16384 bytes), which is also what the buffered path reads; and at no point does the
    reader hold more than that one line. *)
Theorem stream_usage_chunking (frames : list bytes) (n : nat) :
  finish parse_frame parse_usage_value (feed_all frames stream_default) = stream_usage (concat frames)
  /\ parse_sse_usage parse_frame parse_usage_value (concat frames) = stream_usage (concat frames)
  /\ (length (line (feed_all (take n frames) stream_default)) <= LINE_HEAD + LINE_TAIL)%nat.
Proof.
  split; [apply stream_reads_reference|]. split.
  - pose proof (stream_reads_reference [concat frames]) as H. cbn [concat] in H. by rewrite app_nil_r in H.
  - pose proof (feed_all_reads (take n frames) stream_default (None, None) [] (not_elem_of_nil _) ltac:(done)) as H.
    destruct (lines_after _ _ _) as [acc' r']. destruct H as [(-> & _) _]. apply window_length.
Qed.
End Stream.

(** ** Usage and cost *)

(** Four token counts of an upstream: machine words, the sub-counts within their parents. *)
Record usage_ok (u : Usage) : Prop := {
  uo_prompt : in_u 64 (prompt_tokens u);
  uo_completion : in_u 64 (completion_tokens u);
  uo_cached : 0 <= cached_tokens u <= prompt_tokens u;
  uo_reasoning : 0 <= reasoning_tokens u <= completion_tokens u
}.

Definition word (o : option Z) : Prop := match o with Some z => in_u 64 z | None => True end.
Definition wire_ok (w : UsageWire) : Prop :=
  word (w_prompt w) /\ word (w_completion w) /\ word (w_prompt_cached w) /\ word (w_completion_reasoning w)
  /\ word (w_input w) /\ word (w_output w) /\ word (w_input_cached w) /\ word (w_output_reasoning w)
  /\ word (w_cache_read w) /\ word (w_cache_creation w).

Lemma word_default o d : word o -> in_u 64 d -> in_u 64 (default d o).
Proof. by destruct o. Qed.

Lemma sat_add_in_u a b : in_u 64 a -> in_u 64 b -> in_u 64 (sat_add 64 a b).
Proof. unfold in_u, sat_add. lia. Qed.

Lemma word_or a b : word a -> word b -> word (or_else a b).
Proof. by destruct a. Qed.

(** Merging a later frame over an earlier one keeps the counts words. *)
Lemma merged_ok a b : wire_ok a -> wire_ok b -> wire_ok (merged a b).
Proof. unfold wire_ok, merged. cbn. intuition auto using word_or. Qed.

Lemma usage_from_ok w : wire_ok w -> usage_ok (usage_from w).
Proof.
  intros (H1 & H2 & H3 & H4 & H5 & H6 & H7 & H8 & H9 & H10). unfold usage_from.
  assert (Hz : in_u 64 0) by (split; [done | reflexivity]).
  destruct (_ || _).
  - pose proof (word_default _ 0 H1 Hz). pose proof (word_default _ 0 H2 Hz).
    pose proof (word_default _ 0 H3 Hz) as [? _]. pose proof (word_default _ 0 H4 Hz) as [? _].
    split; cbn [prompt_tokens completion_tokens cached_tokens reasoning_tokens]; try done; unfold in_u in *; lia.
  - pose proof (word_default _ 0 H9 Hz) as Hr. pose proof (word_default _ 0 H10 Hz) as Hw.
    pose proof (word_default _ 0 H5 Hz) as Hi. pose proof (word_default _ 0 H6 Hz).
    pose proof (word_default _ _ H7 Hr) as [? _]. pose proof (word_default _ 0 H8 Hz) as [? _].
    pose proof (sat_add_in_u _ _ (sat_add_in_u _ _ Hi Hr) Hw) as Hp.
    split; cbn [prompt_tokens completion_tokens cached_tokens reasoning_tokens]; try done; unfold in_u in *; lia.
Qed.

Definition rate_ok (bound : Z) (r : ModelRate) : Prop :=
  0 <= r_input r < bound /\ 0 <= r_output r < bound /\ 0 <= r_cached r < bound /\ 0 <= r_reasoning r < bound.

(** What the usage costs, in millionths of a micro-dollar: every token once, at its own rate. *)
Definition exact_cost (r : ModelRate) (u : Usage) : Z :=
  (prompt_tokens u - cached_tokens u) * r_input r + cached_tokens u * r_cached r
  + (completion_tokens u - reasoning_tokens u) * r_output r + reasoning_tokens u * r_reasoning r.

Lemma exact_cost_bound r u b :
  rate_ok b r -> usage_ok u -> 0 <= exact_cost r u <= (prompt_tokens u + completion_tokens u) * (b - 1).
Proof. intros (H1 & H2 & H3 & H4) [[? ?] [? ?] ? ?]. unfold exact_cost. nia. Qed.

(** The cost of a usage is exact: whatever wire object the upstream sent, the four dimensions are
    words with the cached part within the prompt and the reasoning part within the completion; with rates
    below 2^63 (over nine trillion dollars per million tokens) the 128-bit sum cannot wrap, and the cost
    is every token once at its own rate, rounded down to a micro-dollar and capped at the largest [u64];
    a book that sets no cached and reasoning rates prices as if the two were not told apart. *)
Theorem cost_exact (rt : LlmRuntime) (model : bytes) (w : UsageWire) (r : ModelRate) :
  wire_ok w -> resolve_rate rt model = Some r -> rate_ok (2 ^ 63) r ->
  let u := usage_from w in
  usage_ok u
  /\ cost_micros rt model u = Some (Z.min (exact_cost r u / 1000000) (2 ^ 64 - 1))
  /\ (r_cached r = r_input r -> r_reasoning r = r_output r ->
      exact_cost r u = prompt_tokens u * r_input r + completion_tokens u * r_output r).
Proof.
  intros Hw Hr Hrate u. pose proof (usage_from_ok w Hw) as Hu. fold u in Hu. split; [done|].
  pose proof (exact_cost_bound r u (2 ^ 63) Hrate Hu) as Hb. destruct Hu as [[? ?] [? ?] ? ?]. split.
  - unfold cost_micros. rewrite Hr. unfold cost_of_rate. do 2 f_equal.
    rewrite (Z.min_l (cached_tokens u)), (Z.min_l (reasoning_tokens u)) by lia.
    destruct Hrate as (H1' & H2' & H3' & H4').
    unfold exact_cost in *. set (a := (prompt_tokens u - cached_tokens u) * r_input r) in *.
    set (b := cached_tokens u * r_cached r) in *. set (c := (completion_tokens u - reasoning_tokens u) * r_output r) in *.
    set (d := reasoning_tokens u * r_reasoning r) in *.
    assert (0 <= a /\ 0 <= b /\ 0 <= c /\ 0 <= d) by (unfold a, b, c, d; repeat split; apply Z.mul_nonneg_nonneg; lia).
    assert ((prompt_tokens u + completion_tokens u) * (2 ^ 63 - 1) < 2 ^ 128) by nia.
    rewrite (wrap_small 128 (a + b)), (wrap_small 128 (a + b + c)), wrap_small by (unfold in_u; lia). done.
  - intros Hc Ho. unfold exact_cost. rewrite Hc, Ho. lia.
Qed.

(** A reasoning model: 100 prompt tokens, 40 of them cached, 50 completion tokens, 30 of them reasoning. *)
Definition demo_wire : UsageWire :=
  mkWire (Some 100) (Some 50) (Some 40) (Some 30) None None None None None None.
Definition demo_rate : ModelRate := mkRate 2500000 10000000 1250000 10000000.
Definition demo_runtime : LlmRuntime := mkRuntime true (lit "openai") Block {[ lit "gpt-4o" := demo_rate ]}.

Lemma cost_exact_witness :
  let u := usage_from demo_wire in
  usage_ok u
  /\ cost_micros demo_runtime (lit "openai/gpt-4o") u = Some (Z.min (exact_cost demo_rate u / 1000000) (2 ^ 64 - 1))
  /\ (r_cached demo_rate = r_input demo_rate -> r_reasoning demo_rate = r_output demo_rate ->
      exact_cost demo_rate u = prompt_tokens u * r_input demo_rate + completion_tokens u * r_output demo_rate).
Proof.
  apply cost_exact.
  - repeat split; vm_compute; congruence.
  - vm_compute. reflexivity.
  - repeat split; vm_compute; congruence.
Defined.

Example demo_cost : cost_micros demo_runtime (lit "openai/gpt-4o") (usage_from demo_wire) = Some 700.
Proof. vm_compute. reflexivity. Qed.

(** A bound on the rates is needed: at the largest words the sum wraps. *)
Example cost_wraps :
  let m := 2 ^ 64 - 1 in
  cost_of_rate (mkRate m m m m) (mkUsage m 3 0 0) = 18446744073709
  /\ 2 ^ 64 - 1 < exact_cost (mkRate m m m m) (mkUsage m 3 0 0) / 1000000.
Proof. vm_compute. split; reflexivity. Qed.
