(* ===== verification/LlmGate.v ===== *)
(** * LlmGate: an LLM request through the gateway ([src/src/proxy.rs], [handle_inner])

    What stands between an LLM request and its upstream, in the order the handler takes it (key vault,
    price policy, budget reservation), and the settling of the reservation when the exchange ends: on an
    error, with a buffered response, or with a streamed one, or cut short while a commit is being stored.  Composes [KeyVault], [Llm] and [Budget]. *)

From S2P Require Import Prelude Text Units Http Float Limiter Budget Auth KeyVault Llm.

Record GateCfg : Type := mkGateCfg {
  g_llm : LlmRuntime; g_vault : option (list VaultEntry); g_engine : option BudgetEngine;
  default_max_tokens : Z; team_header : bytes
}.

(** A response the handler answers itself: its status and the outcome it is counted under. *)
Record Answer : Type := mkAnswer { status : Z; outcome : bytes }.

Inductive VaultVerdict : Type := Skipped | Swapped (authorization : bytes) | VaultDenied (a : Answer).

(** The request is let through with what replaces [Authorization], its model and its reservation. *)
Inductive GateVerdict : Type :=
| Rejected (a : Answer)
| Passed (upstream_auth : option bytes) (model : option bytes) (reservation : option Reservation).

(** How the exchange with the upstream ends: it fails and the guard is dropped, the response is buffered
    ([sse]: it is an event stream), or it is streamed and these frames reached the client. *)
Inductive Exchange : Type := Failed | Buffered (sse : bool) (body : bytes) | Streamed (frames : list bytes).

(** How the request ends: its exchange is settled, or its client leaves while the commit of a buffered
    response is being stored, after that many settles. *)
Inductive Ending : Type := Ran (x : Exchange) | Left (sse : bool) (body : bytes) (settles : nat).

Section Gate.
Variable to_str_ok : bytes -> bool.
Variable value_ok : bytes -> bool.                                 (** [HeaderValue::from_str] *)
Variable parse_model_field : bytes -> option (option bytes).
Variable parse_max_tokens_field : bytes -> option MaxTokensField.
Variable parse_usage_field : bytes -> option (option UsageWire).
Variable parse_frame : bytes -> option Frame.
Variable parse_usage_value : bytes -> option (option UsageWire).

Definition llm_model (cfg : GateCfg) (body : bytes) : option bytes :=
  if enabled (g_llm cfg) || bool_decide (is_Some (g_vault cfg)) || bool_decide (is_Some (g_engine cfg))
  then parse_request_model parse_model_field body else None.

(** A virtual key, or else the verified claims of the request's JWT. *)
Definition resolve_entry (vault : list VaultEntry) (h : Headers) (claims : option Claims) : option VaultEntry :=
  match (k ← bearer_token to_str_ok h; KeyVault.lookup vault k) with
  | Some e => Some e
  | None => match claims with Some c => lookup_claims vault c | None => None end
  end.

Definition vault_gate (vault : option (list VaultEntry)) (h : Headers) (claims : option Claims)
    (model : option bytes) : VaultVerdict :=
  match vault with
  | None => Skipped
  | Some es =>
      match resolve_entry es h claims with
      | Some e =>
          if negb (model_allowed e model) then VaultDenied (mkAnswer 403 (lit "forbidden"))
          else
            let v := lit "Bearer " ++ provider_key e in
            if value_ok v then Swapped v else VaultDenied (mkAnswer 502 (lit "bad_gateway"))
      | None => VaultDenied (mkAnswer 401 (lit "unauthorized"))
      end
  end.

Definition estimate (cfg : GateCfg) (model body : bytes) : Spend :=
  let est_prompt := estimate_prompt_tokens (len body) in
  let est_completion := default (default_max_tokens cfg) (parse_request_max_tokens parse_max_tokens_field body) in
  mkSpend (sat_add 64 est_prompt est_completion)
    (default 0 (Llm.cost_micros (g_llm cfg) model (mkUsage est_prompt est_completion 0 0))).

(** The team the request is attributed to: the configured header, trimmed, if it says anything. *)
Definition team_of (cfg : GateCfg) (h : Headers) : option bytes :=
  match (v ← get h (team_header cfg); to_str to_str_ok v) with
  | Some s => if beq (trim s) [] then None else Some (trim s)
  | None => None
  end.

Definition dims_of (cfg : GateCfg) (h : Headers) (who : option bytes) (claims : option Claims) (model : bytes) : Dims :=
  mkDims who (canonical_model model) (team_of cfg h) claims.

Section Run.
Context {S : Type} `{BStore S}.
Variable clk : nat -> Z.
Variable uid : nat -> bytes.

Definition denied_status (u : BudgetUnit) : Z := match u with UsdMicros => 402 | Tokens => 429 end.

(** The price policy and the reservation, once the vault has answered. *)
Definition spend_gate (cfg : GateCfg) (h : Headers) (who : option bytes) (claims : option Claims) (body : bytes)
    (model auth : option bytes) (now : Z) (s : S) (n : nat) : GateVerdict * S * nat :=
  if match model with Some m => reject_unpriced (g_llm cfg) m | None => false end
  then (Rejected (mkAnswer 402 (lit "unpriced_model")), s, n)
  else
    match g_engine cfg, model with
    | Some e, Some m =>
        match reserve clk uid e (dims_of cfg h who claims m) (estimate cfg m body) now s n with
        | (ROk r, s', n') => (Passed auth model (Some r), s', n')
        | (RDenied d, s', n') => (Rejected (mkAnswer (denied_status (d_unit d)) (lit "over_budget")), s', n')
        | (RError _, s', n') => (Rejected (mkAnswer 503 (lit "limiter_error")), s', n')
        end
    | _, _ => (Passed auth model None, s, n)
    end.

Definition llm_gate (cfg : GateCfg) (h : Headers) (who : option bytes) (claims : option Claims) (body : bytes)
    (now : Z) (s : S) (n : nat) : GateVerdict * S * nat :=
  let model := llm_model cfg body in
  match vault_gate (g_vault cfg) h claims model with
  | VaultDenied a => (Rejected a, s, n)
  | Swapped a => spend_gate cfg h who claims body model (Some a) now s n
  | Skipped => spend_gate cfg h who claims body model None now s n
  end.

(** The usage an exchange reports, and the spend it is settled to. *)
Definition exchange_usage (x : Exchange) : option Usage :=
  match x with
  | Failed => None
  | Buffered true body => parse_sse_usage parse_frame parse_usage_value body
  | Buffered false body => parse_response_usage parse_usage_field body
  | Streamed frames => finish parse_frame parse_usage_value
                         (fold_left (feed parse_frame parse_usage_value) frames stream_default)
  end.

Definition spend_of (llm : LlmRuntime) (model : bytes) (u : option Usage) : Spend :=
  match u with
  | Some u => mkSpend (total_tokens u) (default 0 (Llm.cost_micros llm model u))
  | None => mkSpend 0 0
  end.

(** [ReservationGuard::commit], its [Drop], and [CountingBody]'s [Drop]. *)
Definition end_exchange (e : BudgetEngine) (llm : LlmRuntime) (model : bytes) (r : Reservation) (x : Exchange)
    (s : S) (n : nat) : nat * S * nat :=
  match x with
  | Failed => release clk e r s n
  | _ => reconcile clk e r (spend_of llm model (exchange_usage x)) s n
  end.

(** A request whose client left while [guard.commit(actual)] awaited the store: the handler is dropped
    with [settles] holds settled, and the guard, whose reservation [commit] took, releases nothing. *)
Definition commit_cut (e : BudgetEngine) (llm : LlmRuntime) (model : bytes) (r : Reservation) (sse : bool) (body : bytes)
    (settles : nat) (s : S) (n : nat) : nat * S * nat :=
  reconcile_go clk e (r_id r) (spend_of llm model (exchange_usage (Buffered sse body))) (take settles (held r)) s n.

Definition end_request (e : BudgetEngine) (llm : LlmRuntime) (model : bytes) (r : Reservation) (y : Ending)
    (s : S) (n : nat) : nat * S * nat :=
  match y with
  | Ran x => end_exchange e llm model r x s n
  | Left sse body settles => commit_cut e llm model r sse body settles s n
  end.
End Run.

(** The headers that go upstream, as far as the vault is concerned. *)
Definition vault_headers (h : Headers) (upstream_auth : option bytes) : Headers :=
  match upstream_auth with Some v => insert_h h AUTHORIZATION v | None => h end.
End Gate.

(** ** Laws: what an LLM request may cost and reach

    Nothing reaches the upstream past the vault, the price policy or a budget; and a request that did is
    charged, on every budget it holds an estimate of, exactly the usage its response reported, unless its
    client leaves while the commit is being stored. *)

Section Laws.
Variable to_str_ok value_ok : bytes -> bool.
Variable parse_model_field : bytes -> option (option bytes).
Variable parse_max_tokens_field : bytes -> option MaxTokensField.
Variable parse_usage_field : bytes -> option (option UsageWire).
Variable parse_frame : bytes -> option Frame.
Variable parse_usage_value : bytes -> option (option UsageWire).

Abbreviation model_of := (llm_model parse_model_field).
Abbreviation gate := (llm_gate to_str_ok value_ok parse_model_field parse_max_tokens_field).
Abbreviation estimate_of := (estimate parse_max_tokens_field).

(** What the vault asks of a request that goes on with [auth] for its [Authorization]. *)
Definition vault_passed (cfg : GateCfg) (h : Headers) (claims : option Claims) (model auth : option bytes) : Prop :=
  (forall es, g_vault cfg = Some es ->
     exists e, resolve_entry to_str_ok es h claims = Some e /\ model_allowed e model = true
               /\ get_all (vault_headers h auth) AUTHORIZATION = [lit "Bearer " ++ provider_key e])
  /\ (g_vault cfg = None -> vault_headers h auth = h).

Lemma vault_gate_spec cfg h claims model :
  match vault_gate to_str_ok value_ok (g_vault cfg) h claims model with
  | VaultDenied a => status a = 401 \/ status a = 403 \/ status a = 502
  | Swapped a => vault_passed cfg h claims model (Some a)
  | Skipped => vault_passed cfg h claims model None
  end.
Proof.
  unfold vault_gate, vault_passed. destruct (g_vault cfg) as [es|]; [|done].
  destruct (resolve_entry to_str_ok es h claims) as [e|] eqn:He; [|by left].
  destruct (model_allowed e model) eqn:Hm; cbn [negb]; [|by right; left].
  destruct (value_ok (lit "Bearer " ++ provider_key e)); [|by right; right].
  split; [|done]. intros es' [= <-]. exists e. split; [done|]. split; [done|]. cbn [vault_headers].
  rewrite get_all_insert. by rewrite decide_True.
Qed.

Definition priced (cfg : GateCfg) (model : option bytes) : Prop :=
  forall x, model = Some x -> unpriced (g_llm cfg) = Block -> has_price_book (g_llm cfg) = true ->
            is_Some (resolve_rate (g_llm cfg) x).

Definition reserved_by {S} `{BStore S} clk uid cfg h who claims body now (model : option bytes) (s : S) n r s' n' : Prop :=
  exists e x, g_engine cfg = Some e /\ model = Some x
    /\ reserve clk uid e (dims_of to_str_ok cfg h who claims x) (estimate_of cfg x body) now s n = (r, s', n').

Lemma spend_gate_spec {S} `{BStore S} clk uid cfg h who claims body model auth now (s : S) n :
  let '(v, s', n') := spend_gate to_str_ok parse_max_tokens_field clk uid cfg h who claims body model auth now s n in
  match v with
  | Passed a m r =>
      a = auth /\ m = model /\ priced cfg model
      /\ match r with
         | Some res => reserved_by clk uid cfg h who claims body now model s n (ROk res) s' n'
         | None => (g_engine cfg = None \/ model = None) /\ s' = s /\ n' = n
         end
  | Rejected a =>
      outcome a = lit "unpriced_model" /\ s' = s /\ n' = n
      \/ exists r, reserved_by clk uid cfg h who claims body now model s n r s' n'
           /\ match r with
              | ROk _ => False
              | RDenied d => a = mkAnswer (denied_status (d_unit d)) (lit "over_budget")
              | RError _ => a = mkAnswer 503 (lit "limiter_error")
              end
  end.
Proof.
  unfold spend_gate. destruct (match model with Some m => _ | None => false end) eqn:Hu; [by left|].
  assert (Hprice : priced cfg model).
  { intros x Hx Hb Hp. rewrite Hx in Hu. unfold reject_unpriced, is_priced in Hu. rewrite Hb, Hp in Hu.
    by apply negb_false_iff, bool_decide_eq_true in Hu. }
  destruct (g_engine cfg) as [e|] eqn:He; [|split; [done|]; split; [done|]; split; [done|]; split; [by left | done]].
  destruct model as [x|]; [|split; [done|]; split; [done|]; split; [done|]; split; [by right | done]].
  destruct (reserve clk uid e _ _ now s n) as [[r s'] n'] eqn:Hr. destruct r as [res|d|f].
  - split; [done|]. split; [done|]. split; [done|]. by exists e, x.
  - right. exists (RDenied d). split; [by exists e, x | done].
  - right. exists (RError f). split; [by exists e, x | done].
Qed.

(** C7.  A request passes the gateway only with every control satisfied: with a vault, an entry was
    resolved by its key or its claims, the model is on that entry's list, and the upstream is sent the
    entry's provider key and nothing of the client's [Authorization]; a model that is not in the price
    book does not pass when such models are blocked; with budgets and a known model, every budget holds
    the estimate, unless the store failed and the engine is set to fail open.  A request refused by the vault or for its model has touched no budget. *)
Theorem llm_gate_safe {S} `{BStore S} clk uid cfg h who claims body now (s : S) n :
  let '(v, s', n') := gate clk uid cfg h who claims body now s n in
  let model := model_of cfg body in
  match v with
  | Passed auth m r =>
      m = model /\ vault_passed cfg h claims model auth /\ priced cfg model
      /\ match r with
         | Some res => reserved_by clk uid cfg h who claims body now model s n (ROk res) s' n'
         | None => (g_engine cfg = None \/ model = None) /\ s' = s /\ n' = n
         end
  | Rejected a =>
      (status a = 401 \/ status a = 403 \/ status a = 502 \/ outcome a = lit "unpriced_model") /\ s' = s /\ n' = n
      \/ exists r, reserved_by clk uid cfg h who claims body now model s n r s' n'
           /\ match r with
              | ROk _ => False
              | RDenied d => a = mkAnswer (denied_status (d_unit d)) (lit "over_budget")
              | RError _ => a = mkAnswer 503 (lit "limiter_error")
              end
  end.
Proof.
  unfold llm_gate. set (model := model_of cfg body). pose proof (vault_gate_spec cfg h claims model) as Hv.
  destruct (vault_gate to_str_ok value_ok (g_vault cfg) h claims model) as [|auth|a]; [| |left; split; tauto].
  - pose proof (spend_gate_spec clk uid cfg h who claims body model None now s n) as H'.
    destruct (spend_gate _ _ _ _ _ _ _ _ _ _ _ _ _ _) as [[[a|a m r] s'] n'];
      [destruct H' as [[Ho Hs]|H']; [left; tauto | by right]|].
    destruct H' as (-> & -> & Hp & Hr). done.
  - pose proof (spend_gate_spec clk uid cfg h who claims body model (Some auth) now s n) as H'.
    destruct (spend_gate _ _ _ _ _ _ _ _ _ _ _ _ _ _) as [[[a|a m r] s'] n'];
      [destruct H' as [[Ho Hs]|H']; [left; tauto | by right]|].
    destruct H' as (-> & -> & Hp & Hr). done.
Qed.

(** ** Charging *)

(** The usage an exchange reports, read from the whole response. *)
Definition reported (x : Exchange) : option Usage :=
  match x with
  | Failed => None
  | Buffered true body => stream_usage parse_frame parse_usage_value body
  | Buffered false body => parse_response_usage parse_usage_field body
  | Streamed frames => stream_usage parse_frame parse_usage_value (concat frames)
  end.

Lemma exchange_reported x : exchange_usage parse_usage_field parse_frame parse_usage_value x = reported x.
Proof.
  destruct x as [|[|] body|frames]; [done| |done|apply stream_reads_reference]. cbn [exchange_usage reported].
  pose proof (stream_reads_reference parse_frame parse_usage_value [body]) as E. cbn [concat fold_left] in E.
  by rewrite app_nil_r in E.
Qed.

Lemma cost_in_u llm model u : in_u 64 (default 0 (Llm.cost_micros llm model u)).
Proof.
  unfold Llm.cost_micros. destruct (resolve_rate llm model) as [r|]; [|split; [done|reflexivity]].
  change (in_u 64 (cost_of_rate r u)). unfold cost_of_rate, in_u.
  match goal with |- context [wrap 128 ?z] => pose proof (wrap_range 128 z ltac:(lia)) as [Hw _]; set (w := wrap 128 z) in * end.
  pose proof (Z.div_pos w 1000000 Hw ltac:(lia)). lia.
Qed.

Lemma estimate_in_u cfg m body :
  len body < 2 ^ 64 -> in_u 64 (default_max_tokens cfg) -> word (parse_request_max_tokens parse_max_tokens_field body) ->
  in_u 64 (tokens (estimate_of cfg m body)) /\ in_u 64 (Budget.cost_micros (estimate_of cfg m body)).
Proof.
  intros Hb Hd Hw. unfold estimate. cbn [tokens Budget.cost_micros]. split; [|apply cost_in_u].
  apply sat_add_in_u; [|by apply word_default]. unfold in_u, estimate_prompt_tokens. pose proof (len_nonneg body).
  pose proof (Z.div_pos (len body) 4 ltac:(lia) ltac:(lia)). pose proof (Z.div_le_upper_bound (len body) 4 (len body) ltac:(lia) ltac:(lia)).
  lia.
Qed.

(** The exchange a request ended with, and how many of its holds were settled. *)
Definition exchange_of (y : Ending) : Exchange :=
  match y with Ran x => x | Left sse body _ => Buffered sse body end.

Definition settles_of (y : Ending) (l : list Hold) : nat :=
  match y with Ran _ => length l | Left _ _ j => j end.

(** C8.  What a request that the gateway let through is charged, over the in-process store while no counter
    expires and no two of its budgets share a counter.  It holds an estimate on exactly the budgets whose
    unit it is estimated to spend; a budget with no hold is charged nothing, whatever is reported.  When
    its exchange was settled (it failed, was buffered, or was streamed in any frames), every held counter
    has moved from where it was before the request by exactly the tokens, or the cost, that the whole
    response reported, and by nothing when it failed or reported none.  When the client left while the
    commit was being stored, this is so of the holds already settled, and every other keeps its estimate. *)
Theorem llm_charge_exact t0 t1 clk uid cfg e h who claims body now s n auth m res s1 n1 y :
  g_engine cfg = Some e -> calm t0 t1 clk uid e s n -> t1 < t0 + from_millis MARKER_TTL_MS ->
  len body < 2 ^ 64 -> in_u 64 (default_max_tokens cfg) -> word (parse_request_max_tokens parse_max_tokens_field body) ->
  gate clk uid cfg h who claims body now s n = (Passed auth (Some m) (Some res), s1, n1) ->
  let actual := spend_of (g_llm cfg) m (reported (exchange_of y)) in
  actual_ok actual -> NoDup (map (fun h : Hold => h.1.1) (held res)) -> settle_fresh (r_id res) (held res) s ->
  (forall k, val t0 s1 k + on_key (actual_amount e actual) (held res) k < 2 ^ 62) ->
  let j := settles_of y (held res) in
  let '(f, s2, _) := end_request parse_usage_field parse_frame parse_usage_value clk e (g_llm cfg) m res y s1 n1 in
  f = 0%nat
  /\ held res = map fst (charges (prefix e) (dims_of to_str_ok cfg h who claims m) (estimate_of cfg m body) now (budgets e) 0)
  /\ (forall k, val t0 s2 k = val t0 s k + on_key (actual_amount e actual) (take j (held res)) k
                             + on_key hold_amount (drop j (held res)) k)
  /\ (forall x, y = Ran x -> forall k, val t0 s2 k = val t0 s k + on_key (actual_amount e actual) (held res) k).
Proof.
  intros He Hc Hmk Hb Hd Hw Hg actual Ha Hnd Hfr Hhi j.
  assert (Hr : reserve clk uid e (dims_of to_str_ok cfg h who claims m) (estimate_of cfg m body) now s n = (ROk res, s1, n1)).
  { unfold llm_gate in Hg. destruct (vault_gate _ _ _ _ _ _); [| |done];
      match type of Hg with spend_gate _ _ _ _ _ _ _ _ _ _ ?a _ _ _ = _ =>
        pose proof (spend_gate_spec clk uid cfg h who claims body (model_of cfg body) a now s n) as Hs end;
      rewrite Hg in Hs; destruct Hs as (_ & Hm & _ & e' & x' & He' & Hx & Hr);
      rewrite He in He'; injection He' as <-; rewrite <- Hm in Hx; by injection Hx as <-. }
  destruct (estimate_in_u cfg m body Hb Hd Hw) as [Ht Hco].
  assert (Hx : end_request parse_usage_field parse_frame parse_usage_value clk e (g_llm cfg) m res y s1 n1
               = reconcile_go clk e (r_id res) actual (take j (held res)) s1 n1).
  { unfold actual, j. destruct y as [x|sse b k]; cbn [end_request settles_of exchange_of].
    - rewrite firstn_all. unfold end_exchange. rewrite exchange_reported. by destruct x.
    - unfold commit_cut. by rewrite exchange_reported. }
  rewrite Hx. pose proof (reserve_then_cut t0 t1 clk uid e _ _ now s n actual res s1 n1 j Hc Ht Hco Hmk Ha Hr Hnd Hfr Hhi) as H.
  pose proof (calm_reserve t0 t1 clk uid e (dims_of to_str_ok cfg h who claims m) (estimate_of cfg m body) now s n Hc Ht Hco) as Hh.
  rewrite Hr in Hh. destruct Hh as (_ & Hh & _). unfold reserve_spec in Hh. destruct (ledger_charge _ _); [|done].
  destruct (reconcile_go clk e _ actual _ s1 n1) as [[f s2] n2]. destruct H as [Hf Hv].
  split; [done|]. split; [apply Hh|]. split; [done|]. intros x -> k. rewrite Hv. unfold j; cbn [settles_of].
  rewrite firstn_all, skipn_all. change (on_key hold_amount [] k) with 0. lia.
Qed.
End Laws.

(** A request for a model at a micro-dollar a token, ten tokens of prompt and at most twenty of answer;
    the answer is streamed, its usage line split over two frames. *)
Module Demo.
Definition runtime : LlmRuntime :=
  mkRuntime true (lit "openai") Block {[ lit "m" := mkRate 1000000 1000000 1000000 1000000 ]}.
Definition cfg : GateCfg := mkGateCfg runtime (Some demo_vault) (Some Budget.Demo.engine) 1024 (lit "x-team").
Definition body : bytes := replicate 40 32.
Definition headers : Headers := [(AUTHORIZATION, lit "Bearer ci")].
Definition claims : Claims := fun n => if beq n (lit "repository") then Some (JString (lit "acme/web")) else None.
Definition yes (_ : bytes) : bool := true.
Definition model (_ : bytes) : option (option bytes) := Some (Some (lit "openai/m")).
Definition max (_ : bytes) : option MaxTokensField := Some (mkMaxTokens None (Some 20) None).
Definition usage (_ : bytes) : option (option UsageWire) := None.
Definition wire : UsageWire := mkWire (Some 10) (Some 15) None None None None None None None None.
Definition frame (_ : bytes) : option Frame := Some (mkFrame None (Some wire) None None).
Definition frames : list bytes := [lit "data: {" ++ take 3 QUOTED_USAGE; drop 3 QUOTED_USAGE ++ lit "}" ++ [10; 10]].
Definition passed := llm_gate yes yes model max Budget.Demo.clk Budget.Demo.uid cfg headers None (Some claims) body 0
                       Budget.Demo.empty 0.
Definition res : Reservation :=
  match passed with (Passed _ _ (Some r), _, _) => r | _ => mkReservation [] [] [] 0 end.
End Demo.

Example demo_passes : Demo.passed = (Passed (Some (lit "Bearer sk-ci")) (Some (lit "openai/m")) (Some Demo.res), Demo.passed.1.2, Demo.passed.2)
  /\ map (fun h : Hold => (h.1.2, h.2)) (held Demo.res) = [(30, 0%nat); (30, 1%nat)].
Proof. vm_compute. split; reflexivity. Qed.

(** The client of a buffered answer leaves when the first of its two holds was settled: the day's counter
    has the 25 tokens, the month's keeps the 30 of the estimate. *)
Definition demo_left : Ending := Left true (concat Demo.frames) 1.

Lemma llm_charge_exact_witness :
  let actual := spend_of Demo.runtime (lit "openai/m") (reported Demo.usage Demo.frame Demo.usage (exchange_of demo_left)) in
  let j := settles_of demo_left (held Demo.res) in
  let '(f, s2, _) := end_request Demo.usage Demo.frame Demo.usage Budget.Demo.clk Budget.Demo.engine Demo.runtime
                       (lit "openai/m") Demo.res demo_left Demo.passed.1.2 Demo.passed.2 in
  f = 0%nat
  /\ held Demo.res = map fst (charges (prefix Budget.Demo.engine)
       (dims_of Demo.yes Demo.cfg Demo.headers None (Some Demo.claims) (lit "openai/m"))
       (estimate Demo.max Demo.cfg (lit "openai/m") Demo.body) 0 (budgets Budget.Demo.engine) 0)
  /\ (forall k, val 0 s2 k = val 0 Budget.Demo.empty k
                            + on_key (actual_amount Budget.Demo.engine actual) (take j (held Demo.res)) k
                            + on_key hold_amount (drop j (held Demo.res)) k)
  /\ (forall x, demo_left = Ran x -> forall k, val 0 s2 k = val 0 Budget.Demo.empty k
                            + on_key (actual_amount Budget.Demo.engine actual) (held Demo.res) k).
Proof.
  apply (llm_charge_exact Demo.yes Demo.yes Demo.model Demo.max Demo.usage Demo.frame Demo.usage 0 0 Budget.Demo.clk
           Budget.Demo.uid Demo.cfg Budget.Demo.engine Demo.headers None (Some Demo.claims) Demo.body 0 Budget.Demo.empty 0
           (Some (lit "Bearer sk-ci")) (lit "openai/m") Demo.res Demo.passed.1.2 Demo.passed.2 demo_left).
  - reflexivity.
  - exact Budget.Demo.calm_empty.
  - vm_compute; congruence.
  - vm_compute; congruence.
  - vm_compute; split; congruence.
  - vm_compute; split; congruence.
  - vm_compute. reflexivity.
  - vm_compute; repeat split; congruence.
  - apply (bool_decide_unpack _). vm_compute. exact I.
  - unfold settle_fresh. apply Forall_forall. intros h _. reflexivity.
  - intros k. pose proof (calm_reserve 0 0 Budget.Demo.clk Budget.Demo.uid Budget.Demo.engine
      (dims_of Demo.yes Demo.cfg Demo.headers None (Some Demo.claims) (lit "openai/m"))
      (estimate Demo.max Demo.cfg (lit "openai/m") Demo.body) 0 Budget.Demo.empty 0 Budget.Demo.calm_empty
      ltac:(vm_compute; split; congruence) ltac:(vm_compute; split; congruence)) as H.
    assert (E : reserve Budget.Demo.clk Budget.Demo.uid Budget.Demo.engine
      (dims_of Demo.yes Demo.cfg Demo.headers None (Some Demo.claims) (lit "openai/m"))
      (estimate Demo.max Demo.cfg (lit "openai/m") Demo.body) 0 Budget.Demo.empty 0
      = (ROk Demo.res, Demo.passed.1.2, Demo.passed.2)) by (vm_compute; reflexivity).
    rewrite E in H. destruct H as (_ & _ & _ & _ & H). rewrite H.
    pose proof (on_key_le hold_amount (held Demo.res) k ltac:(vm_compute; repeat constructor; congruence)) as H1.
    match goal with |- context [on_key (actual_amount ?e ?a) (held Demo.res) k] =>
      pose proof (on_key_le (actual_amount e a) (held Demo.res) k ltac:(vm_compute; repeat constructor; congruence)) as H2 end.
    set (x := foldr _ 0 (held Demo.res)) in H1. set (y := foldr _ 0 (held Demo.res)) in H2.
    vm_compute in x, y. subst x y. change (val 0 Budget.Demo.empty k) with 0. lia.
Defined.

(** An estimate that rounds to no cost takes no hold, and only holds are settled: a short prompt to a
    model at two cents per million tokens costs two micro-dollars, and the cost budget is charged
    nothing, however often it is sent. *)
Module ZeroEstimate.
Definition runtime : LlmRuntime :=
  mkRuntime true (lit "openai") Count {[ lit "embed" := mkRate 20000 0 20000 0 ]}.
Definition engine : BudgetEngine := mkEngine [Budget.Demo.usd_day] (lit "eg") false.
Definition cfg : GateCfg := mkGateCfg runtime None (Some engine) 1024 (lit "x-team").
Definition body : bytes := replicate 196 32.
Definition model (_ : bytes) : option (option bytes) := Some (Some (lit "embed")).
Definition max (_ : bytes) : option MaxTokensField := Some (mkMaxTokens None None None).
Definition usage (_ : bytes) : option (option UsageWire) :=
  Some (Some (mkWire (Some 100) (Some 0) None None None None None None None None)).
Definition frame (_ : bytes) : option Frame := None.
Definition passed := llm_gate Demo.yes Demo.yes model max Budget.Demo.clk Budget.Demo.uid cfg [] None None body 0
                       Budget.Demo.empty 0.
Definition res : Reservation :=
  match passed with (Passed _ _ (Some r), _, _) => r | _ => mkReservation (lit "none") [] [] 9 end.
End ZeroEstimate.

Example zero_estimate_uncharged :
  let x := Buffered false [] in
  let llm := ZeroEstimate.runtime in
  spend_of llm (lit "embed") (reported ZeroEstimate.usage ZeroEstimate.frame ZeroEstimate.usage x) = mkSpend 100 2
  /\ (held ZeroEstimate.res, r_rollback_failures ZeroEstimate.res) = ([], 0%nat)
  /\ (end_exchange ZeroEstimate.usage ZeroEstimate.frame ZeroEstimate.usage Budget.Demo.clk ZeroEstimate.engine llm
       (lit "embed") ZeroEstimate.res x ZeroEstimate.passed.1.2 ZeroEstimate.passed.2).1.2 = Budget.Demo.empty.
Proof. vm_compute. repeat split. Qed.

(** The same request, streamed or left during its commit: the day's counter and the month's. *)
Example left_keeps_the_hold :
  let run y := (end_request Demo.usage Demo.frame Demo.usage Budget.Demo.clk Budget.Demo.engine Demo.runtime
                  (lit "openai/m") Demo.res y Demo.passed.1.2 Demo.passed.2).1.2 in
  let counters y := map (fun h : Hold => val 0 (run y) h.1.1) (held Demo.res) in
  (counters (Ran (Streamed Demo.frames)), counters demo_left, counters (Ran Failed)) = ([25; 25], [25; 30], [0; 0]).
Proof. vm_compute. reflexivity. Qed.
