(* ===== verification/Forwarding.v ===== *)
(** * Forwarding: who the client is, and what the upstream is told ([src/src/proxy.rs])

    The resolution of the client address from [X-Forwarded-For], the headers the edge removes and sets on
    the way upstream, the effective host, the hardening of responses, and the choice of a route.  What
    the header types of the [http] crate accept is a parameter. *)

From S2P Require Import Prelude Text Net Units Access Http Pool.

(** ** Routing *)

Definition path_prefix_matches (path prefix : bytes) : bool :=
  if beq prefix [47] then true
  else match strip_prefix prefix path with
       | Some r => beq r [] || ends_with prefix [47] || starts_with r [47] || starts_with r [63]
       | None => false
       end.

(** The longest matching prefix; the last of equals. *)
Definition pick_route {A} (routes : list (bytes * A)) (path : bytes) : option (bytes * A) :=
  max_by_key (fun '(prefix, _) => len prefix)
    (List.filter (fun '(prefix, _) => path_prefix_matches path prefix) routes).

Definition route_label (labels : list (bytes * bytes)) (default_label path : bytes) : bytes :=
  match pick_route labels path with Some (_, l) => l | None => default_label end.

Definition pick_upstream (routes : list (bytes * Pool)) (default_upstream : Pool) (path : bytes) : Pool :=
  match pick_route routes path with Some (_, p) => p | None => default_upstream end.

(** ** The client's address *)

Definition MAX_FORWARDED_HOPS : Z := 10.
Definition MAX_FORWARDED_WALK : nat := 32.

Inductive ForwardedFor : Type := Used | Absent | Short | Invalid | UntrustedPeer.

Inductive ForwardedHops : Type := Count (n : Z) | Auto.

Record Forwarders : Type := mkForwarders { trust : bool; hops : ForwardedHops; list_ : list Cidr }.

Record ServerCfg : Type := mkServerCfg {
  trust_forwarded_for : bool; forwarded_hops : ForwardedHops; trusted_forwarders : list bytes
}.

Definition forwarders_from_cfg (cfg : ServerCfg) : result Forwarders :=
  ensure (match forwarded_hops cfg with
          | Count n => (1 <=? n) && (n <=? MAX_FORWARDED_HOPS)
          | Auto => true
          end) else "server.forwarded_hops";
  let? cidrs := collect Access.parse (trusted_forwarders cfg) in
  ensure (negb (existsb is_everything cidrs)) else "server.trusted_forwarders contains every address";
  ensure (is_nil cidrs || trust_forwarded_for cfg)
    else "server.trusted_forwarders is set but server.trust_forwarded_for is off";
  ensure (match forwarded_hops cfg with Auto => negb (is_nil cidrs) | Count _ => true end)
    else "server.forwarded_hops = auto needs server.trusted_forwarders";
  Ok (mkForwarders (trust_forwarded_for cfg) (forwarded_hops cfg) cidrs).

Definition trusts_any_peer (f : Forwarders) : bool := trust f && is_nil (list_ f).

Definition listed (f : Forwarders) (ip : IpAddr) : bool :=
  let ip := to_canonical ip in existsb (fun c => contains c ip) (list_ f).

Definition believes (f : Forwarders) (hop : IpAddr) : bool :=
  trust f && (is_nil (list_ f) || listed f hop).

Definition parse_forwarded_ip (entry : bytes) : option IpAddr :=
  match parse_ip entry with
  | Some ip => Some (to_canonical ip)
  | None =>
      match parse_socket entry with
      | Some a => Some (to_canonical (sa_ip a))
      | None =>
          match strip_prefix [91] entry with
          | Some e =>
              match strip_suffix [93] e with
              | Some e => match parse_ip e with Some ip => Some (to_canonical ip) | None => None end
              | None => None
              end
          | None => None
          end
      end
  end.

(** The entries of the header lines, from the right: lines last to first, each split at its commas from
    its end, trimmed, the empty ones dropped. *)
Definition entries (lines : list bytes) : list bytes :=
  List.filter (fun e => negb (beq e []))
    (map trim_ascii (concat (map (fun l => rev (split_on 44 l)) (rev lines)))).

(** [std::str::from_utf8(e).ok().and_then(parse_forwarded_ip)]. *)
Definition entry_ip (e : bytes) : option IpAddr := if from_utf8_ok e then parse_forwarded_ip e else None.

Definition XFF : bytes := lit "x-forwarded-for".

Definition client_ip (headers : Headers) (peer : SocketAddr) (trust_forwarded : bool) (hops : Z)
    : IpAddr * option ForwardedFor :=
  let peer_ip := to_canonical (sa_ip peer) in
  if negb trust_forwarded then (peer_ip, None)
  else match get_all headers XFF with
  | [] => (peer_ip, Some Absent)
  | lines =>
      let hops := Z.min (Z.max hops 1) MAX_FORWARDED_HOPS in
      match entries lines !! Z.to_nat (hops - 1) with
      | None => (peer_ip, Some Short)
      | Some chosen =>
          match entry_ip chosen with
          | Some ip => (ip, Some Used)
          | None => (peer_ip, Some Invalid)
          end
      end
  end.

Fixpoint walk_go (f : Forwarders) (peer_ip : IpAddr) (es : list bytes) (walked : nat)
    (leftmost : option IpAddr) : IpAddr * option ForwardedFor :=
  match es with
  | [] => match leftmost with Some ip => (ip, Some Used) | None => (peer_ip, Some Short) end
  | e :: es =>
      if (walked =? MAX_FORWARDED_WALK)%nat then (peer_ip, Some Invalid)
      else match entry_ip e with
           | None => (peer_ip, Some Invalid)
           | Some ip => if negb (listed f ip) then (ip, Some Used)
                        else walk_go f peer_ip es (S walked) (Some ip)
           end
  end.

Definition walk (f : Forwarders) (headers : Headers) (peer : SocketAddr) : IpAddr * option ForwardedFor :=
  let peer_ip := to_canonical (sa_ip peer) in
  match get_all headers XFF with
  | [] => (peer_ip, Some Absent)
  | lines => walk_go f peer_ip (entries lines) 0 None
  end.

Definition resolve (f : Forwarders) (headers : Headers) (peer : SocketAddr) (hop : IpAddr)
    : IpAddr * option ForwardedFor :=
  if negb (trust f) then client_ip headers peer false 1
  else if negb (believes f hop) then
    (to_canonical (sa_ip peer), Some (if contains_key headers XFF then UntrustedPeer else Absent))
  else match hops f with
       | Count n => client_ip headers peer true n
       | Auto => walk f headers peer
       end.

(** ** Headers on the way upstream *)

Definition HOP_BY_HOP : list bytes :=
  [lit "connection"; lit "keep-alive"; lit "proxy-authenticate"; lit "proxy-authorization"; lit "te";
   lit "trailer"; lit "transfer-encoding"; lit "upgrade"].

Section HeaderTypes.
Variable to_str_ok : bytes -> bool.              (** [HeaderValue::to_str] *)
Variable value_ok : bytes -> bool.               (** [HeaderValue::from_str] and [from_bytes] *)
Variable header_name : bytes -> option bytes.    (** [HeaderName::from_bytes] *)

(** The names any [Connection] header lists. *)
Definition connection_named (headers : Headers) : list bytes :=
  omap (fun token => header_name (trim token))
    (concat (map (split_on 44) (List.filter to_str_ok (get_all headers (lit "connection"))))).

Definition strip_hop_by_hop (headers : Headers) : Headers :=
  let named := connection_named headers in
  foldl remove (foldl remove headers HOP_BY_HOP) named.

Definition forward_headers (from to : Headers) : Headers :=
  let to := foldl (fun to e => append to e.1 e.2) to
              (List.filter (fun e => negb (named (lit "host") e) && negb (named (lit "cookie") e)) from) in
  match get_all from (lit "cookie") with
  | [] => to
  | many =>
      let joined := join (lit "; ") many in
      if value_ok joined then insert_h to (lit "cookie") joined else to
  end.

Definition set_forwarding_headers (headers : Headers) (ip : IpAddr) (proto : bytes) (host : option bytes)
    : Headers :=
  let ip_text := show_ip ip in
  let h := if value_ok ip_text
           then insert_h (insert_h headers XFF ip_text) (lit "x-real-ip") ip_text
           else headers in
  let h := insert_h h (lit "x-forwarded-proto") proto in
  let h := remove h (lit "true-client-ip") in
  let node := match ip with V4 _ => ip_text | V6 _ => [34; 91] ++ ip_text ++ [93; 34] end in
  let fwd := lit "for=" ++ node ++ lit ";proto=" ++ proto in
  let h := if value_ok fwd then insert_h h (lit "forwarded") fwd else remove h (lit "forwarded") in
  match host with
  | Some host => if value_ok host then insert_h h (lit "x-forwarded-host") host
                 else remove h (lit "x-forwarded-host")
  | None => remove h (lit "x-forwarded-host")
  end.

(** The host a request is for.  The target's URI is given by its parts. *)
Definition effective_host (headers : Headers) (uri_host : option bytes) (uri_port : option Z)
    (uri_scheme : option bytes) : result (option bytes) :=
  let? header :=
    match get_all headers (lit "host") with
    | [] => Ok None
    | [v] => if to_str_ok v then
               let h := trim v in Ok (if beq h [] then None else Some h)
             else Err "Host is not text"
    | _ => Err "Host sent more than once"
    end in
  let authority :=
    match uri_host with
    | Some h => if beq h [] then None
                else Some (match uri_port with Some p => h ++ [58] ++ dec p | None => h end)
    | None => None
    end in
  let default_port := if bool_decide (uri_scheme = Some (lit "https")) then lit ":443" else lit ":80" in
  let bare s := to_ascii_lowercase (default s (strip_suffix default_port s)) in
  let same a h := eq_ignore_ascii_case a h || beq (bare a) (bare h) in
  match authority, header with
  | Some a, Some h => if same a h then Ok (Some h) else Err "the request target's authority and Host differ"
  | None, Some h => Ok (Some h)
  | Some a, None => Ok (Some (default a (strip_suffix default_port a)))
  | None, None => Ok None
  end.

(** [version_11]: the request is HTTP/1.1 or later. *)
Definition request_host (headers : Headers) (uri_host : option bytes) (uri_port : option Z)
    (uri_scheme : option bytes) (version_11 : bool) : result (option bytes) :=
  let? h := effective_host headers uri_host uri_port uri_scheme in
  match h with
  | None => if version_11 then Err "no host: no Host header and no authority in the target" else Ok None
  | Some h => Ok (Some h)
  end.

Definition forwarded_proto (tls_enabled trusted : bool) (headers : Headers) : bytes :=
  if tls_enabled then lit "https"
  else if trusted then
    match List.last (map Some (get_all headers (lit "x-forwarded-proto"))) None with
    | Some v =>
        if to_str_ok v then
          let p := trim (List.last (split_on 44 v) []) in
          if eq_ignore_ascii_case p (lit "https") then lit "https" else lit "http"
        else lit "http"
    | None => lit "http"
    end
  else lit "http".

(** [fresh] is the UUID drawn when the client's id is not used. *)
Definition resolve_request_id (headers : Headers) (fresh : bytes) : bytes :=
  match get headers (lit "x-request-id") with
  | Some v =>
      if to_str_ok v then
        let v := trim v in
        if negb (beq v []) && (len v <=? 128) && forallb is_graphic v then v else fresh
      else fresh
  | None => fresh
  end.

Definition is_upgrade_request (headers : Headers) : bool :=
  existsb (fun t => eq_ignore_ascii_case (trim t) (lit "upgrade"))
    (concat (map (split_on 44) (List.filter to_str_ok (get_all headers (lit "connection")))))
  && contains_key headers (lit "upgrade").

Definition is_event_stream (headers : Headers) : bool :=
  match get headers (lit "content-type") with
  | Some v => to_str_ok v && eq_ignore_ascii_case (trim (hd [] (split_on 59 v))) (lit "text/event-stream")
  | None => false
  end.

Definition header_bytes (headers : Headers) : Z := foldr (fun e acc => len e.1 + len e.2 + acc) 0 headers.

(** ** Hardening responses *)

Record HeadersCfg : Type := mkHeadersCfg {
  frame_options : bytes; referrer_policy : bytes; permissions_policy : bytes; csp : bytes;
  csp_report_uri : bytes; csp_report_only : bool; hsts : bool; strip : list bytes;
  force_secure_cookies : bool; httponly_cookies : bool; httponly_cookie_exempt : list bytes
}.

Definition HSTS_VALUE : bytes := lit "max-age=63072000; includeSubDomains".

Definition security_headers (cfg : HeadersCfg) : list (bytes * bytes) :=
  let opt name v := if beq v [] then [] else [(name, v)] in
  [(lit "X-Content-Type-Options", lit "nosniff")]
  ++ opt (lit "X-Frame-Options") (frame_options cfg)
  ++ opt (lit "Referrer-Policy") (referrer_policy cfg)
  ++ opt (lit "Permissions-Policy") (permissions_policy cfg)
  ++ (if beq (csp cfg) [] then []
      else [((if csp_report_only cfg then lit "Content-Security-Policy-Report-Only"
              else lit "Content-Security-Policy"),
             csp cfg ++ (if beq (csp_report_uri cfg) [] then [] else lit "; report-uri " ++ csp_report_uri cfg))])
  ++ (if hsts cfg then [(lit "Strict-Transport-Security", HSTS_VALUE)] else []).

(** The attribute names of a [Set-Cookie] value, after its first pair. *)
Definition cookie_attrs (cookie : bytes) : list bytes :=
  map (fun p => to_ascii_lowercase (trim (hd [] (split_on 61 (trim p))))) (tl (split_on 59 cookie)).

Definition cookie_name (cookie : bytes) : bytes := trim (hd [] (split_on 61 (hd [] (split_on 59 cookie)))).

Definition cookie_name_exempt (cookie : bytes) (exempt : list bytes) : bool :=
  existsb (fun e => beq e (cookie_name cookie)) exempt.

Definition harden_cookie (cookie : bytes) (add_httponly : bool) : bytes :=
  let attrs := cookie_attrs cookie in
  let has a := existsb (beq a) attrs in
  trim_end_matches 59 cookie
  ++ (if has (lit "secure") then [] else lit "; Secure")
  ++ (if add_httponly && negb (has (lit "httponly")) then lit "; HttpOnly" else [])
  ++ (if has (lit "samesite") then [] else lit "; SameSite=Lax").

Definition harden_one (cfg : HeadersCfg) (h : Headers) (c : bytes) : Headers :=
  if to_str_ok c then
    let add_httponly := httponly_cookies cfg && negb (cookie_name_exempt c (httponly_cookie_exempt cfg)) in
    let v := harden_cookie c add_httponly in
    if value_ok v then append h (lit "set-cookie") v else h
  else append h (lit "set-cookie") c.

Definition harden_response (cfg : HeadersCfg) (h : Headers) : Headers :=
  let h := foldl (fun h e => match header_name e.1 with
                             | Some n => if value_ok e.2 then insert_h h n e.2 else h
                             | None => h
                             end) h (security_headers cfg) in
  let h := foldl (fun h name => match header_name name with Some n => remove h n | None => h end) h (strip cfg) in
  if force_secure_cookies cfg then
    match get_all h (lit "set-cookie") with
    | [] => h
    | cookies => foldl (harden_one cfg) (remove h (lit "set-cookie")) cookies
    end
  else h.
End HeaderTypes.

(** ** Bodies that stream *)

Definition streams_request (enabled waf_reads_body dlp_scans_request llm_reads_body : bool) : bool :=
  enabled && negb waf_reads_body && negb dlp_scans_request && negb llm_reads_body.

Definition streams_any_response (enabled llm_route reversible_dlp dlp_scans_response : bool) : bool :=
  enabled && negb llm_route && negb reversible_dlp && negb dlp_scans_response.
