(* ===== verification/ForwardingLaws.v ===== *)
(** * ForwardingLaws: what a client can and cannot make the edge say

    A client cannot move the address it is served as by writing [X-Forwarded-For] entries left of its
    proxies'; every identity header the upstream sees is the edge's; hop-by-hop headers stop here; a
    hardened cookie keeps its attributes and has the ones it needs. *)

From S2P Require Import Prelude Text Net Units Access Http Pool Forwarding.

Lemma split_on_sep c a b : split_on c (a ++ c :: b) = split_on c a ++ split_on c b.
Proof.
  induction a as [|x a IH]; cbn [app split_on].
  - by rewrite Z.eqb_refl.
  - destruct (Z.eqb_spec x c) as [->|Hne]; rewrite IH; [done|].
    pose proof (split_on_nonempty c a). by destruct (split_on c a).
Qed.

(** ** Who the client is *)

Lemma entries_app a b : entries (a ++ b) = entries b ++ entries a.
Proof.
  unfold entries. rewrite rev_app_distr, map_app, concat_app, map_app. by rewrite List.filter_app.
Qed.

Lemma entries_junk j v : entries [j ++ 44 :: v] = entries [v] ++ entries [j].
Proof.
  unfold entries. cbn [rev app map concat]. rewrite !app_nil_r, split_on_sep, rev_app_distr, map_app.
  by rewrite List.filter_app.
Qed.

(** The lines a client could have sent when its proxies wrote [v :: vs]: any lines before, and anything
    before a comma in the first of theirs. *)
Definition client_tampered (v : bytes) (vs lines : list bytes) : Prop :=
  exists cs w, lines = cs ++ w :: vs /\ (w = v \/ exists j, w = j ++ 44 :: v).

Lemma tampered_entries v vs lines : client_tampered v vs lines ->
  exists extra, entries lines = entries (v :: vs) ++ extra.
Proof.
  intros (cs & w & -> & Hw). rewrite entries_app. change (w :: vs) with ([w] ++ vs). change (v :: vs) with ([v] ++ vs).
  rewrite !entries_app. destruct Hw as [->|[j ->]]; [eauto|]. rewrite entries_junk.
  exists (entries [j] ++ entries cs). by rewrite <- !app_assoc.
Qed.

Lemma walk_go_stable f peer es extra walked left ip :
  walk_go f peer es walked left = (ip, Some Used) -> listed f ip = false ->
  (forall l, left = Some l -> listed f l = true) ->
  walk_go f peer (es ++ extra) walked left = (ip, Some Used).
Proof.
  revert walked left. induction es as [|e es IH]; intros walked left; cbn [walk_go app].
  - destruct left as [l|]; [|done]. intros [= ->] Hl Hleft. rewrite Hleft in Hl by done. done.
  - case_match; [done|]. destruct (entry_ip e) as [i|]; [|done].
    destruct (listed f i) eqn:Ei; cbn [negb]; [|done]. intros Hw Hl _. apply IH; [done | done|].
    by intros l [= <-].
Qed.

(** The honest header decides the client: enough entries for the count, or an entry outside the list. *)
Definition decided (f : Forwarders) (h : Headers) (peer : SocketAddr) (es : list bytes) : Prop :=
  match hops f with
  | Count n => (Z.to_nat (Z.min (Z.max n 1) MAX_FORWARDED_HOPS - 1) < length es)%nat
  | Auto => exists ip, walk f h peer = (ip, Some Used) /\ listed f ip = false
  end.

(** C39.  [X-Forwarded-For] cannot be spoofed past the trusted proxies: when the entries they wrote decide
    the client, no line and no entry a client puts to their left changes the address the request is
    served as, nor how the metric counts it; and from a peer that is not believed the header never
    matters. *)
Theorem client_ip_unspoofable f h h' peer hop v vs :
  get_all h XFF = v :: vs -> client_tampered v vs (get_all h' XFF) ->
  decided f h peer (entries (v :: vs)) ->
  resolve f h' peer hop = resolve f h peer hop
  /\ (believes f hop = false -> (resolve f h' peer hop).1 = to_canonical (sa_ip peer)).
Proof.
  intros Hh Ht Hd.
  assert (Hne : exists x l, get_all h' XFF = x :: l).
  { destruct Ht as (cs & w & -> & _). destruct cs; simpl; eauto. }
  destruct (tampered_entries _ _ _ Ht) as [extra Hex]. destruct Hne as (x & l & Hx).
  assert (Hc : forall hd v vs, get_all hd XFF = v :: vs -> contains_key hd XFF = true).
  { intros hd a b Hg. unfold contains_key. unfold get_all in Hg.
    destruct (existsb (named XFF) hd) eqn:E; [done|].
    assert (Hf : List.filter (named XFF) hd = []).
    { clear -E. induction hd as [|e hd IH]; [done|]. simpl in *. apply orb_false_iff in E as [-> E]. auto. }
    by rewrite Hf in Hg. }
  unfold resolve. rewrite (Hc h' x l Hx), (Hc h v vs Hh).
  destruct (trust f) eqn:Etr; cbn [negb]; [|by split; [|intros _]].
  destruct (believes f hop) eqn:Eb; cbn [negb]; [split; [|done]|done].
  unfold decided in Hd. destruct (hops f) as [n|].
  - unfold client_ip. cbn [negb]. rewrite Hh, Hx, <- Hx, Hex. by rewrite lookup_app_l.
  - destruct Hd as (ip & Hw & Hl). rewrite Hw. unfold walk in *. rewrite Hh in Hw. rewrite Hx, <- Hx, Hex.
    by apply walk_go_stable.
Qed.

Lemma client_ip_unspoofable_witness :
  let f := mkForwarders true Auto [CidrV4 167772160 8] in
  let h := [(XFF, lit "203.0.113.7, 10.0.0.2")] in
  let h' := [(XFF, lit "1.1.1.1"); (XFF, lit "not an address,203.0.113.7, 10.0.0.2")] in
  let peer := mkSocketAddr (V4 167772161) 4000 in
  resolve f h' peer (V4 167772161) = resolve f h peer (V4 167772161)
  /\ (believes f (V4 167772161) = false -> (resolve f h' peer (V4 167772161)).1 = to_canonical (sa_ip peer)).
Proof.
  apply (client_ip_unspoofable (mkForwarders true Auto [CidrV4 167772160 8])
    [(XFF, lit "203.0.113.7, 10.0.0.2")]
    [(XFF, lit "1.1.1.1"); (XFF, lit "not an address,203.0.113.7, 10.0.0.2")]
    (mkSocketAddr (V4 167772161) 4000) (V4 167772161) (lit "203.0.113.7, 10.0.0.2") []).
  - reflexivity.
  - exists [lit "1.1.1.1"], (lit "not an address,203.0.113.7, 10.0.0.2"). split; [reflexivity|]. right.
    exists (lit "not an address"). reflexivity.
  - exists (V4 3405803783). split; vm_compute; reflexivity.
Defined.

(** ** What the upstream is told *)

Ltac get_all_step :=
  repeat (first [ rewrite get_all_insert | rewrite get_all_remove ]).

Definition identity_headers : list bytes :=
  [XFF; lit "x-real-ip"; lit "x-forwarded-proto"; lit "true-client-ip"; lit "forwarded"; lit "x-forwarded-host"].

Definition forwarded_value (ip : IpAddr) (proto : bytes) : bytes :=
  lit "for=" ++ (match ip with V4 _ => show_ip ip | V6 _ => [34; 91] ++ show_ip ip ++ [93; 34] end)
  ++ lit ";proto=" ++ proto.

(** Every header that names the client to the upstream is the edge's own, whatever the client sent:
    one value each for the address, the protocol and [Forwarded], the effective host or none, and no
    [True-Client-IP]; every other header passes unchanged. *)
Theorem forwarding_headers_owned value_ok headers ip proto host :
  value_ok (show_ip ip) = true -> value_ok (forwarded_value ip proto) = true ->
  let h := set_forwarding_headers value_ok headers ip proto host in
  get_all h XFF = [show_ip ip] /\ get_all h (lit "x-real-ip") = [show_ip ip]
  /\ get_all h (lit "x-forwarded-proto") = [proto] /\ get_all h (lit "true-client-ip") = []
  /\ get_all h (lit "forwarded") = [forwarded_value ip proto]
  /\ get_all h (lit "x-forwarded-host") = match host with Some x => if value_ok x then [x] else [] | None => [] end
  /\ forall n, n ∉ identity_headers -> get_all h n = get_all headers n.
Proof.
  intros Hip Hfw. unfold set_forwarding_headers. rewrite Hip. fold (forwarded_value ip proto).
  cbn zeta. rewrite Hfw.
  set (h := insert_h _ (lit "forwarded") _).
  assert (Hlast : forall n, get_all (match host with
            | Some x => if value_ok x then insert_h h (lit "x-forwarded-host") x else remove h (lit "x-forwarded-host")
            | None => remove h (lit "x-forwarded-host") end) n
          = if decide (n = lit "x-forwarded-host")
            then match host with Some x => if value_ok x then [x] else [] | None => [] end
            else get_all h n).
  { intros n. destruct host as [x|]; [destruct (value_ok x)|]; get_all_step; by case_decide. }
  rewrite !Hlast. unfold h.
  repeat split; try (get_all_step; repeat (rewrite decide_True by reflexivity || rewrite decide_False by done); reflexivity).
  intros n Hn. rewrite Hlast. unfold h. get_all_step. unfold identity_headers in Hn.
  rewrite !not_elem_of_cons in Hn. destruct Hn as (H1 & H2 & H3 & H4 & H5 & H6 & _).
  by rewrite !decide_False by done.
Qed.

Lemma forwarding_headers_owned_witness :
  let client := [(XFF, lit "6.6.6.6"); (lit "true-client-ip", lit "6.6.6.6"); (lit "accept", lit "*/*")] in
  let h := set_forwarding_headers (fun _ => true) client (V4 3405803783) (lit "https") (Some (lit "app.test")) in
  get_all h XFF = [show_ip (V4 3405803783)] /\ get_all h (lit "x-real-ip") = [show_ip (V4 3405803783)]
  /\ get_all h (lit "x-forwarded-proto") = [lit "https"] /\ get_all h (lit "true-client-ip") = []
  /\ get_all h (lit "forwarded") = [forwarded_value (V4 3405803783) (lit "https")]
  /\ get_all h (lit "x-forwarded-host") = [lit "app.test"]
  /\ forall n, n ∉ identity_headers -> get_all h n = get_all client n.
Proof.
  apply (forwarding_headers_owned (fun _ => true)
    [(XFF, lit "6.6.6.6"); (lit "true-client-ip", lit "6.6.6.6"); (lit "accept", lit "*/*")]
    (V4 3405803783) (lit "https") (Some (lit "app.test"))); reflexivity.
Defined.

(** ** Hop-by-hop headers *)

Lemma get_all_foldl_remove names h n :
  get_all (foldl remove h names) n = if decide (n ∈ names) then [] else get_all h n.
Proof.
  revert h. induction names as [|m names IH]; intros h; cbn [foldl].
  - rewrite decide_False by apply not_elem_of_nil. done.
  - rewrite IH, get_all_remove. destruct (decide (n ∈ names)) as [Hin|Hin].
    + by rewrite decide_True by (by right).
    + destruct (decide (n = m)) as [->|Hne]; [by rewrite decide_True by left|].
      rewrite decide_False; [done|]. by intros [?|?]%elem_of_cons.
Qed.

(** Nothing that belongs to one connection crosses the edge: after [strip_hop_by_hop] no hop-by-hop
    header and no header that any [Connection] line named is left, and every other header keeps its
    values. *)
Theorem hop_by_hop_stripped to_str_ok header_name headers n :
  get_all (strip_hop_by_hop to_str_ok header_name headers) n
  = if decide (n ∈ HOP_BY_HOP \/ n ∈ connection_named to_str_ok header_name headers) then []
    else get_all headers n.
Proof.
  unfold strip_hop_by_hop. rewrite !get_all_foldl_remove.
  destruct (decide (n ∈ connection_named to_str_ok header_name headers)) as [Hc|Hc].
  - by rewrite decide_True by (by right).
  - destruct (decide (n ∈ HOP_BY_HOP)) as [Hh|Hh]; [by rewrite decide_True by (by left)|].
    rewrite decide_False; [done | tauto].
Qed.

(** ** Cookies *)

Lemma trim_end_matches_split c s : exists k, s = trim_end_matches c s ++ replicate k c
  /\ forall t, trim_end_matches c s <> t ++ [c].
Proof.
  unfold trim_end_matches. remember (rev s) as r eqn:E.
  assert (s = rev r) as -> by (by rewrite E, rev_involutive). clear E. rename r into s.
  induction s as [|x s IH]; cbn [drop_while].
  - exists 0%nat. split; [done|]. intros [|? ?]; done.
  - destruct (Z.eqb_spec c x) as [->|Hne].
    + destruct IH as (k & Hk & Hn). exists (S k). split; [|done]. cbn [rev]. rewrite Hk at 1.
      rewrite <- app_assoc. f_equal. by rewrite <- replicate_S_end.
    + exists 0%nat. split; [by rewrite app_nil_r|]. intros t Ht. cbn [rev] in Ht.
      apply app_inj_tail in Ht as [_ ->]. done.
Qed.

Lemma split_on_seps c t k : split_on c (t ++ replicate k c) = split_on c t ++ replicate k [].
Proof.
  revert t. induction k as [|k IH]; intros t; [by rewrite !app_nil_r|].
  cbn [replicate]. rewrite split_on_sep.
  assert (H : split_on c (replicate k c) = replicate (S k) []).
  { clear. induction k as [|k IH]; [done|]. cbn [replicate split_on]. rewrite Z.eqb_refl. by rewrite IH. }
  by rewrite H.
Qed.

Definition attr_of (p : bytes) : bytes := to_ascii_lowercase (trim (hd [] (split_on 61 (trim p)))).

Lemma cookie_attrs_eq c : cookie_attrs c = map attr_of (tl (split_on 59 c)).
Proof. done. Qed.

Lemma attrs_app t b : cookie_attrs (t ++ 59 :: b) = cookie_attrs t ++ map attr_of (split_on 59 b).
Proof.
  rewrite !cookie_attrs_eq, split_on_sep. pose proof (split_on_nonempty 59 t) as Hne.
  destruct (split_on 59 t); [done|]. cbn [app tl]. by rewrite map_app.
Qed.

Lemma attrs_seps t k : cookie_attrs (t ++ replicate k 59) = cookie_attrs t ++ replicate k [].
Proof.
  rewrite !cookie_attrs_eq, split_on_seps. pose proof (split_on_nonempty 59 t) as Hne.
  destruct (split_on 59 t); [done|]. cbn [app tl]. rewrite map_app. f_equal.
  clear. induction k as [|k IH]; [done|]. cbn [replicate map]. by rewrite IH.
Qed.

(** The attribute a suffix such as ["; Secure"] adds, if it is added. *)
Definition added (b : bool) (s : String.string) : bytes := if b then lit s else [].

Lemma attrs_added t b s : (exists r, lit s = 59 :: r /\ 59 ∉ r) ->
  cookie_attrs (t ++ added b s) = cookie_attrs t ++ (if b then [attr_of (tl (lit s))] else []).
Proof.
  intros (r & Hs & Hr). unfold added. destruct b; [|by rewrite !app_nil_r].
  rewrite Hs, attrs_app, split_on_none by done. done.
Qed.

Definition has_attr (a : bytes) (c : bytes) : bool := existsb (beq a) (cookie_attrs c).

Lemma has_attr_true a c : has_attr a c = true <-> a ∈ cookie_attrs c.
Proof.
  unfold has_attr. rewrite existsb_exists. setoid_rewrite beq_true. setoid_rewrite <- list_elem_of_In.
  split; [by intros (x & Hx & ->) | eauto].
Qed.

Lemma harden_cookie_eq c b :
  harden_cookie c b = ((trim_end_matches 59 c ++ added (negb (has_attr (lit "secure") c)) "; Secure")
    ++ added (b && negb (has_attr (lit "httponly") c)) "; HttpOnly")
    ++ added (negb (has_attr (lit "samesite") c)) "; SameSite=Lax".
Proof.
  unfold harden_cookie, added. change (existsb (beq ?a) (cookie_attrs c)) with (has_attr a c).
  rewrite <- !app_assoc. by destruct (has_attr (lit "secure") c), (has_attr (lit "samesite") c).
Qed.

(** The attributes of a hardened cookie: what was there (but for empty ones at its end), and what was
    missing. *)
Lemma harden_attrs c b :
  cookie_attrs (harden_cookie c b) = cookie_attrs (trim_end_matches 59 c)
    ++ (if negb (has_attr (lit "secure") c) then [lit "secure"] else [])
    ++ (if b && negb (has_attr (lit "httponly") c) then [lit "httponly"] else [])
    ++ (if negb (has_attr (lit "samesite") c) then [lit "samesite"] else []).
Proof.
  rewrite harden_cookie_eq. rewrite !attrs_added.
  - rewrite <- !app_assoc. done.
  - exists (lit " Secure"). split; [done|]. apply (bool_decide_unpack _). vm_compute. exact I.
  - exists (lit " HttpOnly"). split; [done|]. apply (bool_decide_unpack _). vm_compute. exact I.
  - exists (lit " SameSite=Lax"). split; [done|]. apply (bool_decide_unpack _). vm_compute. exact I.
Qed.

Lemma trimmed_attrs c a : a <> [] -> a ∈ cookie_attrs c <-> a ∈ cookie_attrs (trim_end_matches 59 c).
Proof.
  intros Ha. destruct (trim_end_matches_split 59 c) as (k & Hk & _). rewrite Hk at 1.
  rewrite attrs_seps, elem_of_app. split; [|by left]. intros [?|H]; [done|].
  apply elem_of_replicate in H as [-> _]. done.
Qed.

Lemma has_attr_hardened c b a : a <> [] ->
  has_attr a (harden_cookie c b) = true <-> has_attr a c = true \/ a = lit "secure" \/ a = lit "samesite"
    \/ (b = true /\ a = lit "httponly").
Proof.
  intros Ha. rewrite !has_attr_true, harden_attrs, !elem_of_app, (trimmed_attrs c a Ha).
  assert (Hs : has_attr (lit "secure") c = true -> lit "secure" ∈ cookie_attrs (trim_end_matches 59 c))
    by (rewrite has_attr_true; by apply trimmed_attrs).
  assert (Hm : has_attr (lit "samesite") c = true -> lit "samesite" ∈ cookie_attrs (trim_end_matches 59 c))
    by (rewrite has_attr_true; by apply trimmed_attrs).
  assert (Ho : has_attr (lit "httponly") c = true -> lit "httponly" ∈ cookie_attrs (trim_end_matches 59 c))
    by (rewrite has_attr_true; by apply trimmed_attrs).
  destruct (has_attr (lit "secure") c), (has_attr (lit "samesite") c), (has_attr (lit "httponly") c), b;
    cbn [negb andb]; rewrite ?list_elem_of_singleton, ?elem_of_nil; naive_solver.
Qed.

Lemma harden_end c b t : harden_cookie c b <> t ++ [59].
Proof.
  rewrite harden_cookie_eq. destruct (trim_end_matches_split 59 c) as (k & _ & Hn).
  assert (Hend : forall x bb s d m, (forall t, x <> t ++ [59]) -> lit s = m ++ [d] -> d <> 59 ->
            forall t, x ++ added bb s <> t ++ [59]).
  { intros x bb s d m Hx Hs Hd t'. unfold added. destruct bb; [|rewrite app_nil_r; apply Hx].
    rewrite Hs, app_assoc. intros H%app_inj_tail. by destruct H as [_ ->]. }
  apply (Hend _ _ _ 120 (lit "; SameSite=La")); [|done | done].
  apply (Hend _ _ _ 121 (lit "; HttpOnl")); [|done | done].
  apply (Hend _ _ _ 101 (lit "; Secur")); [|done | done]. done.
Qed.

Lemma trim_end_matches_id c s : (forall t, s <> t ++ [c]) -> trim_end_matches c s = s.
Proof.
  intros H. unfold trim_end_matches. destruct s as [|d t _] using rev_ind; [done|].
  rewrite rev_app_distr. cbn [rev app drop_while]. destruct (Z.eqb_spec c d) as [->|Hne].
  - by specialize (H t).
  - cbn [rev]. by rewrite rev_involutive.
Qed.

(** Hardening a cookie only adds: the result has [Secure], a [SameSite] and, when asked,
    [HttpOnly], keeps every attribute the app set, and is a fixed point, so a response that passes two
    edges is hardened once. *)
Theorem harden_cookie_correct c b :
  (forall a, a <> [] -> has_attr a (harden_cookie c b) = true
     <-> has_attr a c = true \/ a = lit "secure" \/ a = lit "samesite" \/ (b = true /\ a = lit "httponly"))
  /\ (exists r, harden_cookie c b = trim_end_matches 59 c ++ r)
  /\ harden_cookie (harden_cookie c b) b = harden_cookie c b.
Proof.
  split; [apply has_attr_hardened|]. split.
  - rewrite harden_cookie_eq. eexists. by rewrite <- !app_assoc.
  - rewrite (harden_cookie_eq (harden_cookie c b)), trim_end_matches_id by apply harden_end.
    assert (Hs : has_attr (lit "secure") (harden_cookie c b) = true) by (apply has_attr_hardened; [done | tauto]).
    assert (Hm : has_attr (lit "samesite") (harden_cookie c b) = true) by (apply has_attr_hardened; [done | tauto]).
    assert (Ho : b && negb (has_attr (lit "httponly") (harden_cookie c b)) = false).
    { destruct b; [|done].
      assert (has_attr (lit "httponly") (harden_cookie c true) = true) as -> by (apply has_attr_hardened; [done | tauto]).
      done. }
    rewrite Hs, Hm, Ho. cbn [negb added]. by rewrite !app_nil_r.
Qed.
