(* ===== verification/Cors.v ===== *)
(** * Cors: which pages may read the edge's responses ([src/src/cors.rs])

    The policy, the answer to a preflight, the headers added to a response, and what they grant. *)

From S2P Require Import Prelude Text Units Access Http.

Definition ORIGIN : bytes := lit "origin".
Definition ALLOW_ORIGIN : bytes := lit "access-control-allow-origin".
Definition ALLOW_CREDENTIALS : bytes := lit "access-control-allow-credentials".
Definition ALLOW_METHODS : bytes := lit "access-control-allow-methods".
Definition ALLOW_HEADERS : bytes := lit "access-control-allow-headers".
Definition EXPOSE_HEADERS : bytes := lit "access-control-expose-headers".
Definition MAX_AGE : bytes := lit "access-control-max-age".
Definition REQUEST_METHOD : bytes := lit "access-control-request-method".
Definition REQUEST_HEADERS : bytes := lit "access-control-request-headers".
Definition VARY : bytes := lit "vary".

Record CorsCfg : Type := mkCorsCfg {
  enabled : bool; allow_origins : list bytes; cfg_allow_methods : list bytes; cfg_allow_headers : list bytes;
  cfg_expose_headers : list bytes; cfg_allow_credentials : bool; cfg_max_age : bytes
}.

Record CorsPolicy : Type := mkCorsPolicy {
  any_origin : bool; origins : list bytes; allow_methods : bytes; allow_headers : option bytes;
  expose_headers : option bytes; allow_credentials : bool; max_age : option bytes
}.

Definition DEFAULT_METHODS : bytes := lit "GET, POST, PUT, PATCH, DELETE, OPTIONS, HEAD".

Section Cors.
Variable value_ok : bytes -> bool.      (** [HeaderValue::from_str] *)
Variable to_str_ok : bytes -> bool.     (** [HeaderValue::to_str] *)

Definition joined (l : list bytes) : result (option bytes) :=
  if is_nil l then Ok None
  else let v := join (lit ", ") l in if value_ok v then Ok (Some v) else Err "cors: invalid header value".

Definition cors_build (cfg : CorsCfg) : result (option CorsPolicy) :=
  if negb (enabled cfg) then Ok None
  else
    ensure (negb (is_nil (allow_origins cfg))) else "cors.enabled = true requires at least one cors.allow_origins entry";
    let any := existsb (fun o => beq (trim o) [42]) (allow_origins cfg) in
    ensure (negb (any && cfg_allow_credentials cfg)) else "cors.allow_credentials cannot be combined with a * origin";
    let os := map to_ascii_lowercase (List.filter (fun o => negb (beq o [42])) (map trim (allow_origins cfg))) in
    let methods := if is_nil (cfg_allow_methods cfg) then DEFAULT_METHODS else join (lit ", ") (cfg_allow_methods cfg) in
    ensure (value_ok methods) else "cors.allow_methods has an invalid value";
    let? hs := joined (cfg_allow_headers cfg) in
    let? ex := joined (cfg_expose_headers cfg) in
    let? d := parse_duration (cfg_max_age cfg) in
    let secs := as_secs d in
    Ok (Some (mkCorsPolicy any os methods hs ex (cfg_allow_credentials cfg)
                (if 0 <? secs then Some (dec secs) else None))).

Definition allow_origin_value (p : CorsPolicy) (origin : bytes) : option bytes :=
  let origin := trim origin in
  if any_origin p then Some [42]
  else if existsb (beq (to_ascii_lowercase origin)) (origins p)
       then if value_ok origin then Some origin else None
       else None.

Definition varies_on_origin (h : Headers) : bool :=
  existsb (fun v => to_str_ok v && existsb (fun t => eq_ignore_ascii_case (trim t) ORIGIN) (split_on 44 v)) (get_all h VARY).

Definition append_vary_origin (h : Headers) : Headers :=
  if varies_on_origin h then h else append h VARY (lit "Origin").

Definition set_origin (p : CorsPolicy) (h : Headers) (allow : bytes) : Headers :=
  let h := insert_h h ALLOW_ORIGIN allow in
  let h := if allow_credentials p then insert_h h ALLOW_CREDENTIALS (lit "true") else h in
  if negb (any_origin p) then append_vary_origin h else h.

(** The answer to a preflight: its status and headers. *)
Definition preflight_response (p : CorsPolicy) (headers : Headers) : option (Z * Headers) :=
  match get headers ORIGIN with
  | None => None
  | Some origin =>
      if negb (to_str_ok origin) then None
      else match get headers REQUEST_METHOD with
      | None => None
      | Some _ =>
          Some (204,
            match allow_origin_value p origin with
            | None => []
            | Some allow =>
                let h := set_origin p [] allow in
                let h := insert_h h ALLOW_METHODS (allow_methods p) in
                let hs := match allow_headers p with
                          | Some v => Some v
                          | None => match get headers REQUEST_HEADERS with
                                    | Some v => if beq v [] then None else Some v
                                    | None => None
                                    end
                          end in
                let h := match hs with Some v => insert_h h ALLOW_HEADERS v | None => h end in
                match max_age p with Some a => insert_h h MAX_AGE a | None => h end
            end)
      end
  end.

Definition decorate_origin (p : CorsPolicy) (origin : bytes) (h : Headers) : Headers :=
  match allow_origin_value p origin with
  | None => h
  | Some allow =>
      let h := set_origin p h allow in
      match expose_headers p with Some v => insert_h h EXPOSE_HEADERS v | None => h end
  end.

Definition decorate (p : CorsPolicy) (req_headers : Headers) (h : Headers) : Headers :=
  match get req_headers ORIGIN with
  | Some o => if to_str_ok o then decorate_origin p o h else h
  | None => h
  end.
End Cors.

(** ** What the policy grants *)

Definition wildcard (cfg : CorsCfg) : bool := existsb (fun o => beq (trim o) [42]) (allow_origins cfg).

(** The origin is on the list, or the list has the wildcard. *)
Definition allowed_origin (cfg : CorsCfg) (origin : bytes) : bool :=
  wildcard cfg
  || existsb (fun o => negb (beq (trim o) [42]) && beq (to_ascii_lowercase (trim o)) (to_ascii_lowercase (trim origin)))
       (allow_origins cfg).

Section Laws.
Variable value_ok : bytes -> bool.
Variable to_str_ok : bytes -> bool.

Lemma cors_build_spec cfg p : cors_build value_ok cfg = Ok (Some p) ->
  any_origin p = wildcard cfg /\ allow_credentials p = cfg_allow_credentials cfg
  /\ wildcard cfg && cfg_allow_credentials cfg = false
  /\ origins p = map to_ascii_lowercase (List.filter (fun o => negb (beq o [42])) (map trim (allow_origins cfg))).
Proof using.
  unfold cors_build. destruct (enabled cfg); [|done]. cbn [negb]. intros H. run_inv H. subst p.
  cbn [any_origin allow_credentials origins]. fold (wildcard cfg) in *. by apply negb_true_iff in He0.
Qed.

Lemma listed_origin (os : list bytes) o :
  existsb (beq o) (map to_ascii_lowercase (List.filter (fun x => negb (beq x [42])) (map trim os)))
  = existsb (fun x => negb (beq (trim x) [42]) && beq (to_ascii_lowercase (trim x)) o) os.
Proof using.
  induction os as [|x os IH]; [done|]. cbn [map List.filter existsb]. destruct (beq (trim x) [42]) eqn:E; cbn [negb andb orb].
  - done.
  - cbn [map existsb]. rewrite IH. f_equal. unfold beq. by apply bool_decide_ext.
Qed.

Lemma allow_origin_value_spec cfg p origin : cors_build value_ok cfg = Ok (Some p) -> value_ok (trim origin) = true ->
  allow_origin_value value_ok p origin
  = if allowed_origin cfg origin then Some (if wildcard cfg then [42] else trim origin) else None.
Proof using.
  intros Hb Hv. destruct (cors_build_spec cfg p Hb) as (H1 & _ & _ & H4). unfold allow_origin_value, allowed_origin.
  rewrite H1, H4, listed_origin, Hv. by destruct (wildcard cfg).
Qed.

Lemma varies_get_all h k : get_all h VARY = get_all k VARY -> varies_on_origin to_str_ok h = varies_on_origin to_str_ok k.
Proof using. intros H. unfold varies_on_origin. by rewrite H. Qed.

(** The values of one name after [append_vary_origin]. *)
Lemma get_all_vary h n : get_all (append_vary_origin to_str_ok h) n
  = get_all h n ++ (if varies_on_origin to_str_ok h then [] else if decide (n = VARY) then [lit "Origin"] else []).
Proof using.
  unfold append_vary_origin. destruct (varies_on_origin to_str_ok h); [by rewrite app_nil_r|]. apply get_all_append.
Qed.

Lemma vary_added h : to_str_ok (lit "Origin") = true -> varies_on_origin to_str_ok (append_vary_origin to_str_ok h) = true.
Proof using.
  intros Ht. unfold append_vary_origin. destruct (varies_on_origin to_str_ok h) eqn:E; [done|].
  unfold varies_on_origin. rewrite get_all_append, decide_True by done. rewrite existsb_app. apply orb_true_iff. right.
  cbn [existsb]. rewrite Ht. vm_compute. done.
Qed.

(** The values of every name after [set_origin] and the exposed headers. *)
Lemma get_all_decorated p allow h n :
  get_all (let h := set_origin to_str_ok p h allow in
           match expose_headers p with Some v => insert_h h EXPOSE_HEADERS v | None => h end) n
  = if decide (n = EXPOSE_HEADERS) then match expose_headers p with Some v => [v] | None => get_all h n end
    else if decide (n = ALLOW_ORIGIN) then [allow]
    else if decide (n = ALLOW_CREDENTIALS) then if allow_credentials p then [lit "true"] else get_all h n
    else get_all h n
         ++ (if any_origin p || varies_on_origin to_str_ok h then [] else if decide (n = VARY) then [lit "Origin"] else []).
Proof using.
  assert (Hne : EXPOSE_HEADERS <> VARY /\ ALLOW_ORIGIN <> VARY /\ ALLOW_CREDENTIALS <> VARY
                /\ ALLOW_CREDENTIALS <> ALLOW_ORIGIN /\ EXPOSE_HEADERS <> ALLOW_ORIGIN /\ EXPOSE_HEADERS <> ALLOW_CREDENTIALS) by done.
  destruct Hne as (N1 & N2 & N3 & N4 & N5 & N6).
  cbv zeta. unfold set_origin.
  set (h1 := insert_h h ALLOW_ORIGIN allow).
  set (h2 := if allow_credentials p then insert_h h1 ALLOW_CREDENTIALS (lit "true") else h1).
  assert (H2 : forall k, get_all h2 k = if decide (k = ALLOW_CREDENTIALS) then if allow_credentials p then [lit "true"] else get_all h k
                        else if decide (k = ALLOW_ORIGIN) then [allow] else get_all h k).
  { intros k. unfold h2, h1. destruct (allow_credentials p); rewrite !get_all_insert; repeat case_decide; (done || congruence). }
  assert (Hv : varies_on_origin to_str_ok h2 = varies_on_origin to_str_ok h) by (apply varies_get_all; by rewrite H2).
  set (h3 := if negb (any_origin p) then append_vary_origin to_str_ok h2 else h2).
  assert (H3 : forall k, get_all h3 k = get_all h2 k
            ++ (if any_origin p || varies_on_origin to_str_ok h then [] else if decide (k = VARY) then [lit "Origin"] else [])).
  { intros k. unfold h3. destruct (any_origin p); cbn [negb orb]; [by rewrite app_nil_r|]. by rewrite get_all_vary, Hv. }
  clearbody h1 h2 h3. destruct (expose_headers p) as [v|]; rewrite ?get_all_insert, H3, H2.
  - destruct (decide (n = EXPOSE_HEADERS)); [done|]. destruct (decide (n = ALLOW_ORIGIN)) as [->|].
    + rewrite decide_False, decide_False by done. destruct (_ || _); by rewrite app_nil_r.
    + destruct (decide (n = ALLOW_CREDENTIALS)) as [->|]; [|done]. rewrite decide_False by done. destruct (_ || _); by rewrite app_nil_r.
  - destruct (decide (n = EXPOSE_HEADERS)) as [->|].
    + rewrite !decide_False by done. destruct (_ || _); by rewrite app_nil_r.
    + destruct (decide (n = ALLOW_ORIGIN)) as [->|].
      * rewrite decide_False, decide_False by done. destruct (_ || _); by rewrite app_nil_r.
      * destruct (decide (n = ALLOW_CREDENTIALS)) as [->|]; [|done]. rewrite decide_False by done. destruct (_ || _); by rewrite app_nil_r.
Qed.

Definition cors_names : list bytes := [ALLOW_ORIGIN; ALLOW_CREDENTIALS; EXPOSE_HEADERS; VARY].

(** A response is opened to exactly the origins the policy lists: an origin that is not allowed gets
    the response as it was; an allowed one gets itself (or the wildcard, never together with
    credentials) as the one allowed origin, and the response varies on it; decorating again changes
    nothing, and no other header is touched. *)
Theorem cors_grants cfg p origin h :
  cors_build value_ok cfg = Ok (Some p) -> value_ok (trim origin) = true -> to_str_ok (lit "Origin") = true ->
  let h' := decorate_origin value_ok to_str_ok p origin h in
  (allowed_origin cfg origin = false -> h' = h)
  /\ (allowed_origin cfg origin = true ->
        get_all h' ALLOW_ORIGIN = [if wildcard cfg then [42] else trim origin]
        /\ get_all h' ALLOW_CREDENTIALS = (if cfg_allow_credentials cfg then [lit "true"] else get_all h ALLOW_CREDENTIALS)
        /\ (wildcard cfg = true -> cfg_allow_credentials cfg = false)
        /\ (wildcard cfg = false -> varies_on_origin to_str_ok h' = true))
  /\ (forall n, get_all (decorate_origin value_ok to_str_ok p origin h') n = get_all h' n)
  /\ (forall n, n ∉ cors_names -> get_all h' n = get_all h n).
Proof using.
  intros Hb Hv Ht. cbn zeta. pose proof (allow_origin_value_spec cfg p origin Hb Hv) as Ha.
  destruct (cors_build_spec cfg p Hb) as (H1 & H2 & H3 & _). unfold decorate_origin. rewrite Ha.
  destruct (allowed_origin cfg origin); [|by repeat split].
  set (allow := if wildcard cfg then [42] else trim origin).
  set (h' := match expose_headers p with Some v => insert_h (set_origin to_str_ok p h allow) EXPOSE_HEADERS v
             | None => set_origin to_str_ok p h allow end).
  pose proof (get_all_decorated p allow h : forall n, get_all h' n = _) as Hg.
  pose proof (get_all_decorated p allow h' : forall n, _) as Hg2. cbv zeta in Hg2.
  assert (Hvary : any_origin p || varies_on_origin to_str_ok h' = true).
  { destruct (any_origin p) eqn:Eany; [done|]. cbn [orb]. unfold varies_on_origin. rewrite Hg.
    cbn [orb].
    do 3 (rewrite decide_False by done). rewrite decide_True by done.
    destruct (varies_on_origin to_str_ok h) eqn:Ev; [by rewrite app_nil_r|].
    rewrite existsb_app. apply orb_true_iff. right. cbn [existsb]. rewrite Ht. vm_compute. done. }
  clearbody h'. split; [done|]. split; [|split].
  - intros _. rewrite !Hg, <- H2. split; [done|]. split; [done|]. split.
    + intros Hw. rewrite Hw in H3. by rewrite H2.
    + intros Hw. by rewrite H1, Hw in Hvary.
  - intros n. rewrite Hg2, Hvary, app_nil_r. repeat case_decide; subst; rewrite ?Hg; try done.
    + by destruct (expose_headers p).
    + by destruct (allow_credentials p).
  - intros n Hn. unfold cors_names in Hn. rewrite !not_elem_of_cons in Hn. destruct Hn as (N1 & N2 & N3 & N4 & _).
    rewrite Hg, !decide_False by done. destruct (_ || _); by rewrite app_nil_r.
Qed.
End Laws.

Lemma cors_grants_witness :
  let cfg := mkCorsCfg true [lit "https://App.example"] [] [] [] true (lit "600s") in
  let p := mkCorsPolicy false [lit "https://app.example"] DEFAULT_METHODS None None true (Some (lit "600")) in
  let h' := decorate_origin (fun _ => true) (fun _ => true) p (lit "https://app.example") [(VARY, lit "Accept")] in
  get_all h' ALLOW_ORIGIN = [lit "https://app.example"] /\ varies_on_origin (fun _ => true) h' = true.
Proof.
  assert (H := cors_grants (fun _ => true) (fun _ => true)
    (mkCorsCfg true [lit "https://App.example"] [] [] [] true (lit "600s"))
    (mkCorsPolicy false [lit "https://app.example"] DEFAULT_METHODS None None true (Some (lit "600")))
    (lit "https://app.example") [(VARY, lit "Accept")] ltac:(vm_compute; reflexivity) eq_refl eq_refl).
  destruct H as (_ & H & _). destruct H as (H1 & _ & _ & H2); [vm_compute; reflexivity|].
  split; [exact H1 | apply H2; vm_compute; reflexivity].
Defined.
