(* ===== verification/Waf.v ===== *)
(** * Waf: request screening ([src/src/waf.rs], [screen] of [proxy.rs])

    The rule sets, the locations a rule reads, and the evaluation of a request or of a piece of its body.
    The compiled regular expressions are parameters. *)

From S2P Require Import Prelude Text Utf8 Access Http.

Inductive WafMode : Type := WafOff | WafReport | WafBlock.

#[global] Instance WafMode_eq_dec : EqDecision WafMode.
Proof. solve_decision. Defined.

Definition WafMode_parse (s : bytes) : result WafMode :=
  let t := to_ascii_lowercase (trim s) in
  if existsb (beq t) [lit "off"; lit "disabled"; []] then Ok WafOff
  else if existsb (beq t) [lit "report"; lit "report-only"; lit "detect"] then Ok WafReport
  else if existsb (beq t) [lit "block"; lit "enforce"; lit "deny"] then Ok WafBlock
  else Err "invalid waf.mode (expected off|report|block)".

Inductive Location : Type := LPath | LHeaders | LBody.

Definition location_str (l : Location) : bytes :=
  match l with LPath => lit "path" | LHeaders => lit "headers" | LBody => lit "body" end.

Record WTarget : Type := mkWTarget { on_path : bool; on_headers : bool; on_body : bool }.

Definition ALL : WTarget := mkWTarget true true true.

Definition WTarget_parse (s : bytes) : result WTarget :=
  let t := to_ascii_lowercase (trim s) in
  if existsb (beq t) [lit "path"; []] then Ok (mkWTarget true false false)
  else if existsb (beq t) [lit "headers"; lit "header"] then Ok (mkWTarget false true false)
  else if beq t (lit "body") then Ok (mkWTarget false false true)
  else if existsb (beq t) [lit "all"; lit "any"] then Ok ALL
  else Err "invalid waf rule target (expected path|headers|body|all)".

Definition includes (t : WTarget) (l : Location) : bool :=
  match l with LPath => on_path t | LHeaders => on_headers t | LBody => on_body t end.

Record WafHit : Type := mkWafHit { rule_id : bytes; hit_class : bytes; hit_location : bytes }.

Definition SQLI : list bytes :=
  [lit "(?i)\bunion\b\s+(all\s+)?\bselect\b"; lit "(?i)\bor\b\s+\d+\s*=\s*\d+"; lit "(?i)'\s*or\s+'";
   lit "(?i)\bdrop\s+table\b"; lit "(?i)\binsert\s+into\b"; lit "(?i);\s*(drop|delete|update|insert|select)\b";
   lit "(?i)\b(sleep|benchmark|pg_sleep)\s*\("; lit "(?i)\bwaitfor\s+delay\b"; lit "(?i)\binformation_schema\b";
   lit "(?i)\bxp_cmdshell\b"].

Definition XSS : list bytes :=
  [lit "(?i)<\s*script\b"; lit "(?i)<\s*/\s*script\s*>"; lit "(?i)javascript:";
   lit "(?i)\bon(error|load|click|mouseover|focus|submit|toggle)\s*="; lit "(?i)<\s*iframe\b";
   lit "(?i)<\s*img\b[^>]*\bonerror\b"; lit "(?i)<\s*svg\b[^>]*\bonload\b"; lit "(?i)document\s*\.\s*cookie"].

Definition TRAVERSAL : list bytes :=
  [lit "\.\./"; lit "\.\.\\"; lit "(?i)%2e%2e(%2f|%5c|/|\\)"; lit "(?i)\.\.%2f"; lit "(?i)\.\.%5c";
   lit "(?i)/etc/passwd\b"; lit "(?i)/proc/self/"; lit "(?i)c:\\(?:windows|winnt)\b"].

(** [while i < bytes.len()] of [percent_decode_lossy]. *)
Fixpoint percent_decode (s : bytes) : bytes :=
  match s with
  | [] => []
  | c :: rest =>
      match rest with
      | h :: l :: more =>
          match (if c =? 37 then hex_val h else None), hex_val l with
          | Some h, Some l => (h * 16 + l) :: percent_decode more
          | _, _ => c :: percent_decode rest
          end
      | _ => c :: percent_decode rest
      end
  end.

Definition percent_decode_lossy (s : bytes) : bytes := from_utf8_lossy (percent_decode s).

Record WafRule : Type := mkWafRule { w_id : bytes; w_pattern : bytes; w_target : bytes }.

Record WafCfg : Type := mkWafCfg {
  w_mode : bytes; sqli : bool; xss : bool; path_traversal : bool;
  cfg_inspect_path : bool; cfg_inspect_headers : bool; cfg_inspect_body : bool; w_rules : list WafRule
}.

Section Engine.
Context {RegexSet : Type}.
Variable set_new : list bytes -> option RegexSet.        (** [RegexSet::new] *)
Variable set_match : RegexSet -> bytes -> bool.          (** [RegexSet::is_match] *)
Variable to_str_ok : bytes -> bool.                      (** [HeaderValue::to_str] *)

Record CompiledRule : Type := mkRule { rid : bytes; class : bytes; rtarget : WTarget; set : RegexSet }.

Record WafEngine : Type := mkWafEngine {
  waf_mode : WafMode; inspect_path : bool; inspect_headers : bool; inspect_body : bool; rules : list CompiledRule
}.

Definition hit (r : CompiledRule) (l : Location) : WafHit := mkWafHit (rid r) (class r) (location_str l).

Definition builtin (id cls : bytes) (patterns : list bytes) : result CompiledRule :=
  match set_new patterns with
  | Some s => Ok (mkRule id cls ALL s)
  | None => Err "compiling built-in ruleset"
  end.

Definition disabled : WafEngine := mkWafEngine WafOff false false false [].

Definition custom_rule (ir : nat * WafRule) : result CompiledRule :=
  let '(i, r) := ir in
  ensure (negb (beq (trim (w_pattern r)) [])) else "waf.rules.pattern must not be empty";
  let id := if beq (trim (w_id r)) [] then lit "custom-" ++ dec (Z.of_nat i) else w_id r in
  let? t := WTarget_parse (w_target r) in
  match set_new [w_pattern r] with
  | Some s => Ok (mkRule id (lit "custom") t s)
  | None => Err "compiling waf.rules pattern"
  end.

Definition waf_build (cfg : WafCfg) : result WafEngine :=
  let? md := WafMode_parse (w_mode cfg) in
  if decide (md = WafOff) then Ok disabled
  else
    let on (b : bool) (id : bytes) pats := if b then (let? r := builtin id id pats in Ok [r]) else Ok [] in
    let? a := on (sqli cfg) (lit "sqli") SQLI in
    let? b := on (xss cfg) (lit "xss") XSS in
    let? c := on (path_traversal cfg) (lit "path_traversal") TRAVERSAL in
    let? d := collect custom_rule (imap pair (w_rules cfg)) in
    Ok (mkWafEngine md (cfg_inspect_path cfg) (cfg_inspect_headers cfg) (cfg_inspect_body cfg) (a ++ b ++ c ++ d)).

Definition needs_body (w : WafEngine) : bool :=
  negb (bool_decide (waf_mode w = WafOff)) && inspect_body w
  && existsb (fun r => includes (rtarget r) LBody) (rules w).

Definition evaluate_body (w : WafEngine) (body : bytes) : option WafHit :=
  if negb (needs_body w) || is_nil body then None
  else
    let text := from_utf8_lossy body in
    match List.find (fun r => includes (rtarget r) LBody && set_match (set r) text) (rules w) with
    | Some r => Some (hit r LBody)
    | None => None
    end.

Definition join_header_values (headers : Headers) (host : option bytes) : bytes :=
  (match host with Some h => lit "host: " ++ h ++ [10] | None => [] end)
  ++ concat (map (fun e => if (match host with Some _ => true | None => false end) && named (lit "host") e then []
                           else if to_str_ok e.2 then e.1 ++ lit ": " ++ e.2 ++ [10] else []) headers).

(** The first hit of one rule: its path, then the headers, then the body. *)
Definition rule_hit (w : WafEngine) (path : bytes) (decoded header_text body_text : option bytes)
    (r : CompiledRule) : option WafHit :=
  let m t := set_match (set r) t in
  let on l o := includes (rtarget r) l && match o with Some t => m t | None => false end in
  if inspect_path w && includes (rtarget r) LPath && (m path || match decoded with Some d => m d | None => false end)
  then Some (hit r LPath)
  else if on LHeaders header_text then Some (hit r LHeaders)
  else if on LBody body_text then Some (hit r LBody)
  else None.

Fixpoint first_hit {A} (f : A -> option WafHit) (l : list A) : option WafHit :=
  match l with [] => None | a :: l => match f a with Some h => Some h | None => first_hit f l end end.

Definition evaluate (w : WafEngine) (path_and_query : bytes) (headers : Headers) (host : option bytes)
    (body : bytes) : option WafHit :=
  if bool_decide (waf_mode w = WafOff) || is_nil (rules w) then None
  else
    let decoded := if inspect_path w && existsb (Z.eqb 37) path_and_query
                   then Some (percent_decode_lossy path_and_query) else None in
    let header_text := if inspect_headers w then Some (join_header_values headers host) else None in
    let body_text := if inspect_body w && negb (is_nil body) then Some (from_utf8_lossy body) else None in
    first_hit (rule_hit w path_and_query decoded header_text body_text) (rules w).

Inductive WafVerdict : Type := VPass | VReported | VBlock.

(** [screen], and the class it counts. *)
Definition screen (w : WafEngine) (raw_path : bytes) (headers : Headers) (host : option bytes) (body : bytes)
    : WafVerdict * list bytes :=
  match evaluate w raw_path headers (Some (default [] host)) body with
  | None => (VPass, [])
  | Some h => (match waf_mode w with WafBlock => VBlock | WafReport => VReported | WafOff => VPass end, [hit_class h])
  end.
End Engine.
