(* ===== verification/Dlp.v ===== *)
(** * Dlp: detection, redaction and reversible masking ([src/src/dlp.rs], and its use in [proxy.rs])

    The engine that finds sensitive spans, the rewriting of a text, the mask map that gives a caller its
    own values back, and the scanners that do the same to a stream frame by frame.  Regular expressions,
    the Aho-Corasick automaton, the NER model, the platform logarithm, the Unicode tables and the keyed
    hash are parameters. *)

From Stdlib Require Import SpecFloat.
From S2P Require Import Prelude Text Utf8 Float Http.

Inductive RedactStyle : Type := Full | Mask | HashStyle.
Inductive DlpMode : Type := Off | Report | Block | Redact.

#[global] Instance DlpMode_eq_dec : EqDecision DlpMode.
Proof. solve_decision. Defined.

Definition RedactStyle_parse (s : bytes) : result RedactStyle :=
  let t := to_ascii_lowercase (trim s) in
  if beq t (lit "full") || beq t [] then Ok Full
  else if beq t (lit "mask") then Ok Mask
  else if beq t (lit "hash") then Ok HashStyle
  else Err "invalid llm.dlp.redact_style (expected full|mask|hash)".

Definition DlpMode_parse (s : bytes) : result DlpMode :=
  let t := to_ascii_lowercase (trim s) in
  if beq t (lit "off") || beq t [] then Ok Off
  else if beq t (lit "report") then Ok Report
  else if beq t (lit "block") then Ok Block
  else if beq t (lit "redact") then Ok Redact
  else Err "invalid llm.dlp.mode (expected off|report|block|redact)".

Definition CATEGORIES : list bytes :=
  [lit "email"; lit "credit_card"; lit "aws_key"; lit "api_key"; lit "private_key"; lit "ssn"; lit "phone";
   lit "iban"; lit "high_entropy"; lit "gazetteer"; lit "person"; lit "address"; lit "org";
   lit "prompt_injection"; lit "custom"].

(** [f32] scores. *)
Definition f32 : Type := spec_float.
Definition f32_ltb (x y : f32) : bool := SFltb x y.
Definition f32_one : f32 := binary_normalize 24 128 1 0 false.

Record Finding : Type := mkFinding { category : bytes; start : nat; end_ : nat; score : f32 }.

(** ** Merging *)

Definition key_leb (f g : Finding) : bool :=
  (start f <? start g)%nat || ((start f =? start g)%nat && (end_ f <=? end_ g)%nat).

(** The stable [sort_by_key(|f| (f.start, f.end))]. *)
Fixpoint insert_finding (f : Finding) (l : list Finding) : list Finding :=
  match l with
  | [] => [f]
  | g :: l' => if key_leb f g then f :: l else g :: insert_finding f l'
  end.
Definition sort_findings (l : list Finding) : list Finding := foldr insert_finding [] l.

(** One round of the loop; [merged] is kept last first. *)
Definition merge_one (merged : list Finding) (f : Finding) : list Finding :=
  match merged with
  | last :: older =>
      if (start f <=? end_ last)%nat then
        let e := if (end_ last <? end_ f)%nat then end_ f else end_ last in
        (if f32_ltb (score last) (score f) then mkFinding (category f) (start last) e (score f)
         else mkFinding (category last) (start last) e (score last)) :: older
      else f :: merged
  | [] => [f]
  end.

Definition merge_findings (findings : list Finding) : list Finding :=
  rev (foldl merge_one [] (sort_findings findings)).

(** ** Detectors *)

Definition luhn_term (parity i d : Z) : Z :=
  if i mod 2 =? parity then (if 9 <? d * 2 then d * 2 - 9 else d * 2) else d.

Fixpoint luhn_sum (parity i : Z) (digits : list Z) : Z :=
  match digits with [] => 0 | d :: ds => luhn_term parity i d + luhn_sum parity (i + 1) ds end.

Definition luhn_valid (s : bytes) : bool :=
  let digits := map (fun b => b - 48) (List.filter is_digit s) in
  let n := Z.of_nat (length digits) in
  if negb ((13 <=? n) && (n <=? 19)) then false
  else luhn_sum (n mod 2) 0 digits mod 10 =? 0.

Definition is_secret_char (b : Z) : bool :=
  is_alnum b || (b =? 43) || (b =? 47) || (b =? 95) || (b =? 45) || (b =? 61).

(** ** The mask map *)

Definition MASK_PREFIX : bytes := lit "<edgeguard-".
Definition MASK_SUFFIX : Z := 62.
Definition MAX_PLACEHOLDER_BYTES : nat := 96.

Record MaskMap : Type := mkMaskMap {
  to_placeholder : gmap bytes bytes; to_original : gmap bytes bytes; next_id : Z
}.

Definition MaskMap_default : MaskMap := mkMaskMap ∅ ∅ 0.

Definition is_empty (m : MaskMap) : bool := bool_decide (to_original m = ∅).

Definition placeholder (cat : bytes) (n : Z) : bytes := MASK_PREFIX ++ cat ++ [45] ++ dec n ++ [MASK_SUFFIX].

Definition placeholder_for (m : MaskMap) (cat value : bytes) : bytes * MaskMap :=
  match to_placeholder m !! value with
  | Some p => (p, m)
  | None =>
      let p := placeholder cat (next_id m) in
      (p, mkMaskMap (<[value := p]> (to_placeholder m)) (<[p := value]> (to_original m)) (wrap 64 (next_id m + 1)))
  end.

(** The loop of [unmask]; each round consumes a prefix, so [length rest] rounds are enough. *)
Fixpoint unmask_go (m : MaskMap) (fuel : nat) (rest : bytes) : bytes :=
  match fuel with
  | O => rest
  | S fuel =>
      match find_sub MASK_PREFIX rest with
      | None => rest
      | Some st =>
          let after := drop st rest in
          take st rest ++
          match find_sub [MASK_SUFFIX] after with
          | Some end_rel =>
              let token := take (S end_rel) after in
              default token (to_original m !! token) ++ unmask_go m fuel (drop (S end_rel) after)
          | None => after
          end
      end
  end.

Definition unmask (m : MaskMap) (text : bytes) : bytes :=
  if is_empty m || match find_sub MASK_PREFIX text with None => true | Some _ => false end then text
  else unmask_go m (length text) text.

(** Case 2 of [incomplete_tail]: the cuts from [cut] down to 1. *)
Fixpoint partial_prefix (text : bytes) (cut : nat) : option nat :=
  match cut with
  | O => None
  | S less =>
      if (cut <=? length text)%nat && is_char_boundary text (length text - cut)
         && starts_with MASK_PREFIX (drop (length text - cut) text)
      then Some (length text - cut)%nat
      else partial_prefix text less
  end.

Definition incomplete_tail (text : bytes) : option nat :=
  let case2 := partial_prefix text (length MASK_PREFIX - 1) in
  match rfind_sub MASK_PREFIX text with
  | Some pos =>
      if match find_sub [MASK_SUFFIX] (drop pos text) with None => true | Some _ => false end
         && (length text - pos <=? MAX_PLACEHOLDER_BYTES)%nat
      then Some pos else case2
  | None => case2
  end.

(** What to emit, and the new carry. *)
Definition unmask_stream (m : MaskMap) (carry data : bytes) : bytes * bytes :=
  let buf := carry ++ data in
  if is_empty m then (buf, [])
  else
    let text := take (valid_up_to buf) buf in
    let hold := default (length text) (incomplete_tail text) in
    (unmask m (take hold text), drop hold buf).

Definition flush_unmask (m : MaskMap) (carry : bytes) : bytes :=
  match carry with [] => [] | _ => unmask m (from_utf8_lossy carry) end.

(** A whole response body through [UnmaskStreamState]: its frames, then the flush. *)
Fixpoint unmask_frames (m : MaskMap) (carry : bytes) (frames : list bytes) : bytes :=
  match frames with
  | [] => flush_unmask m carry
  | data :: frames => let '(out, carry) := unmask_stream m carry data in out ++ unmask_frames m carry frames
  end.

(** ** Rewriting a text *)

(** The loop of [redact] and [redact_reversible]; [None] is a panic of the slicing. *)
Fixpoint rewrite_go {S} (render : S -> bytes -> bytes -> bytes * S) (st : S) (text : bytes)
    (findings : list Finding) (cursor : nat) (out : bytes) : option (bytes * S) :=
  match findings with
  | [] => match slice text cursor (length text) with Some t => Some (out ++ t, st) | None => None end
  | f :: findings =>
      if (start f <? cursor)%nat || (length text <? end_ f)%nat then rewrite_go render st text findings cursor out
      else match slice text cursor (start f), slice text (start f) (end_ f) with
           | Some kept, Some matched =>
               let '(r, st) := render st matched (category f) in
               rewrite_go render st text findings (end_ f) (out ++ kept ++ r)
           | _, _ => None
           end
  end.

Definition redact_reversible (text : bytes) (findings : list Finding) (m : MaskMap) : option (bytes * MaskMap) :=
  match findings with
  | [] => Some (text, m)
  | _ => rewrite_go (fun m matched cat => placeholder_for m cat matched) m text findings 0 []
  end.

Definition mask_keep_last4 (matched : bytes) : bytes :=
  let cs := chars matched in
  if (length cs <=? 4)%nat then replicate (length cs) 42
  else let masked := (length cs - 4)%nat in replicate masked 42 ++ concat (drop masked cs).

(** ** The engine *)

Section Engine.
Context {Regex Automaton : Type}.
Variable regex_new : bytes -> option Regex.                         (** [Regex::new] *)
Variable is_match : Regex -> bytes -> bool.
Variable find_iter : Regex -> bytes -> list (nat * nat).
Variable ac_build : list bytes -> option Automaton.                 (** leftmost-longest, ASCII case-insensitive *)
Variable ac_find_iter : Automaton -> bytes -> list (nat * nat).
Variable f64_log2 : f64 -> f64.
Variable char_alphanumeric : bytes -> bool.                         (** of one character *)
Variable char_lowercase : bytes -> bytes.
Variable hash_one : bytes -> Z.                                     (** the process-keyed SipHash *)

Record Detector : Type := mkDetector { d_category : bytes; re : Regex; validator : option (bytes -> bool) }.

Record NerSpan : Type := mkNerSpan { n_label : bytes; n_start : nat; n_end : nat; n_score : f32 }.
Record NerDetector : Type := mkNerDetector { ner_engine : bytes -> list NerSpan; threshold : f32 }.

Record DlpEngine : Type := mkDlpEngine {
  mode : DlpMode; redact_style : RedactStyle; scan_request : bool; scan_response : bool;
  stream_redact_on : bool; reversible : bool; detectors : list Detector; gazetteer : option Automaton;
  entropy : option (nat * f64); ner : option NerDetector
}.

Record DlpCfg : Type := mkDlpCfg {
  cfg_mode : bytes; cfg_redact_style : bytes; cfg_scan_request : bool; cfg_scan_response : bool;
  cfg_stream_redact : bool; cfg_reversible : bool; detect_email : bool; detect_credit_card : bool;
  luhn_validate_credit_card : bool; detect_secrets : bool; detect_ssn : bool; detect_phone : bool;
  detect_iban : bool; detect_high_entropy : bool; detect_prompt_injection : bool;
  entropy_min_len : nat; entropy_threshold : f64; gazetteer_terms : list bytes;
  custom_patterns : list bytes; ner_enabled : bool
}.

Definition PROMPT_INJECTION_PATTERNS : list bytes :=
  [lit "(?i)\b(?:ignore|disregard|forget)\b[^.\n]{0,40}\b(?:previous|prior|above|preceding|earlier|all)\b[^.\n]{0,20}\b(?:instruction|instructions|prompt|prompts|context|rules?)\b";
   lit "(?i)\b(?:reveal|print|show|repeat|output|display|leak)\b[^.\n]{0,30}\b(?:system\s+prompt|initial\s+instructions|the\s+prompt|your\s+instructions|your\s+prompt)\b";
   lit "(?i)\b(?:developer\s+mode|do\s+anything\s+now|\bDAN\b\s+mode|jailbreak(?:en|ed)?)\b";
   lit "(?i)\b(?:act\s+as|pretend\s+to\s+be|roleplay\s+as)\b[^.\n]{0,40}\b(?:unrestricted|uncensored|unfiltered|no\s+restrictions|without\s+(?:any\s+)?(?:restrictions|filters|guidelines))\b";
   lit "(?i)\b(?:ignore|bypass|override|disregard)\b[^.\n]{0,30}\b(?:safety|guidelines|content\s+policy|guardrails?|restrictions)\b"].

(** The detectors to add, in order: category, pattern, validator. *)
Definition detector_list (cfg : DlpCfg) : list (bytes * bytes * option (bytes -> bool)) :=
  let on (b : bool) (l : list (bytes * bytes * option (bytes -> bool))) := if b then l else [] in
  on (detect_email cfg) [(lit "email", lit "[A-Za-z0-9._%+\-]+@[A-Za-z0-9.\-]+\.[A-Za-z]{2,}", None)]
  ++ on (detect_credit_card cfg)
       [(lit "credit_card", lit "\b\d(?:[ \-]?\d){12,15}\b",
         if luhn_validate_credit_card cfg then Some luhn_valid else None)]
  ++ on (detect_secrets cfg)
       [(lit "aws_key", lit "\bAKIA[0-9A-Z]{16}\b", None);
        (lit "api_key", lit "\b[A-Za-z]{2}-[A-Za-z0-9_-]{20,}\b", None);
        (lit "private_key", lit "-----BEGIN (?:RSA |EC |OPENSSH )?PRIVATE KEY-----", None)]
  ++ on (detect_ssn cfg) [(lit "ssn", lit "\b\d{3}[- ]\d{2}[- ]\d{4}\b", None)]
  ++ on (detect_phone cfg)
       [(lit "phone", lit "\b(?:\+?\d{1,3}[ .\-]?)?(?:\(\d{3}\)|\d{3})[ .\-]?\d{3}[ .\-]?\d{4}\b", None)]
  ++ on (detect_iban cfg) [(lit "iban", lit "\b[A-Z]{2}\d{2}[A-Z0-9]{11,30}\b", None)]
  ++ on (detect_prompt_injection cfg) (map (fun p => (lit "prompt_injection", p, None)) PROMPT_INJECTION_PATTERNS)
  ++ map (fun p => (lit "custom", p, None)) (custom_patterns cfg).

Definition add_detector (d : bytes * bytes * option (bytes -> bool)) : result Detector :=
  let '(cat, pat, v) := d in
  match regex_new pat with
  | None => Err "compiling DLP pattern"
  | Some re =>
      ensure (negb (is_match re [])) else "DLP pattern matches the empty string; use a more specific pattern";
      Ok (mkDetector cat re v)
  end.

(** The binary built without the [ner] feature: [enabled] is refused, and no model is loaded. *)
Definition build (cfg : DlpCfg) : result (option DlpEngine) :=
  let? mode := DlpMode_parse (cfg_mode cfg) in
  if decide (mode = Off) then Ok None
  else
    let? style := RedactStyle_parse (cfg_redact_style cfg) in
    let? ds := collect add_detector (detector_list cfg) in
    let terms := List.filter (fun t => negb (beq t [])) (map trim (gazetteer_terms cfg)) in
    let? gaz := match terms with
                | [] => Ok None
                | _ => match ac_build terms with
                       | Some ac => Ok (Some ac)
                       | None => Err "building DLP gazetteer automaton"
                       end
                end in
    let? ent := if detect_high_entropy cfg then
                  ensure (0 <? entropy_min_len cfg)%nat else "llm.dlp.entropy_min_len must be > 0";
                  ensure (is_finite (entropy_threshold cfg) && f64_leb f64_zero (entropy_threshold cfg))
                    else "llm.dlp.entropy_threshold must be a finite non-negative number";
                  Ok (Some (entropy_min_len cfg, entropy_threshold cfg))
                else Ok None in
    ensure (negb (ner_enabled cfg)) else "llm.dlp.ner.enabled = true without the ner feature";
    Ok (Some (mkDlpEngine mode style (cfg_scan_request cfg) (cfg_scan_response cfg) (cfg_stream_redact cfg)
                (cfg_reversible cfg && bool_decide (mode = Redact)) ds gaz ent None)).

Definition stream_redact (e : DlpEngine) : bool :=
  bool_decide (mode e = Redact) && stream_redact_on e && negb (reversible e).

(** *** Scanning *)

Definition count_byte (b : Z) (s : bytes) : Z := wrap 32 (Z.of_nat (length (List.filter (Z.eqb b) s))).

Definition shannon_bits_per_char (s : bytes) : f64 :=
  match s with
  | [] => f64_zero
  | _ =>
      let n := f64_of_Z (len s) in
      foldl (fun h b => let c := count_byte b s in
                        if 0 <? c then
                          let p := f64_div (f64_of_Z c) n in SFsub 53 1024 h (f64_mul p (f64_log2 p))
                        else h)
        f64_zero (seqZ 0 256)
  end.

(** The end of the run of secret characters at the head of [s]. *)
Fixpoint secret_run (s : bytes) : nat :=
  match s with b :: s => if is_secret_char b then S (secret_run s) else 0%nat | [] => 0%nat end.

(** The sweep from offset [i]; each round advances, so [length text] rounds are enough. *)
Fixpoint entropy_go (min_len : nat) (thr : f64) (text : bytes) (fuel i : nat) (out : list Finding) : list Finding :=
  match fuel with
  | O => out
  | S fuel =>
      match drop i text with
      | [] => out
      | b :: _ =>
          if is_secret_char b then
            let e := (i + secret_run (drop i text))%nat in
            let covered := existsb (fun f => negb (beq (category f) (lit "high_entropy"))
                                             && (i <? end_ f)%nat && (start f <? e)%nat) out in
            let hit := negb covered && (min_len <=? e - i)%nat
                       && f64_leb thr (shannon_bits_per_char (take (e - i) (drop i text))) in
            entropy_go min_len thr text fuel e
              (if hit then out ++ [mkFinding (lit "high_entropy") i e f32_one] else out)
          else entropy_go min_len thr text fuel (S i) out
      end
  end.

Definition entropy_findings (text : bytes) (min_len : nat) (thr : f64) (out : list Finding) : list Finding :=
  entropy_go min_len thr text (length text) 0 out.

Definition map_ner_label (label : bytes) : option bytes :=
  let core := to_ascii_lowercase (match split_once 45 label with Some (_, r) => r | None => label end) in
  if existsb (beq core) [lit "per"; lit "person"; lit "name"] then Some (lit "person")
  else if existsb (beq core) [lit "loc"; lit "location"; lit "address"; lit "gpe"] then Some (lit "address")
  else if existsb (beq core) [lit "org"; lit "organization"; lit "organisation"] then Some (lit "org")
  else None.

Definition ner_finding (thr : f32) (text : bytes) (s : NerSpan) : option Finding :=
  if f32_ltb (n_score s) thr then None
  else match map_ner_label (n_label s) with
       | None => None
       | Some cat =>
           if (n_end s <=? n_start s)%nat || (length text <? n_end s)%nat
              || negb (is_char_boundary text (n_start s)) || negb (is_char_boundary text (n_end s))
           then None else Some (mkFinding cat (n_start s) (n_end s) (n_score s))
       end.

Definition ner_findings (e : DlpEngine) (text : bytes) : list Finding :=
  match ner e with None => [] | Some n => omap (ner_finding (threshold n) text) (ner_engine n text) end.

Definition detector_findings (text : bytes) (d : Detector) : list Finding :=
  omap (fun '(s, e) =>
          if match validator d with Some v => v (take (e - s) (drop s text)) | None => true end
          then Some (mkFinding (d_category d) s e f32_one) else None)
    (find_iter (re d) text).

Definition raw_findings (e : DlpEngine) (text : bytes) (run_ner : bool) : list Finding :=
  let raw := concat (map (detector_findings text) (detectors e)) in
  let raw := raw ++ match gazetteer e with
                    | Some ac => map (fun '(s, e) => mkFinding (lit "gazetteer") s e f32_one) (ac_find_iter ac text)
                    | None => []
                    end in
  let raw := match entropy e with Some (min_len, thr) => entropy_findings text min_len thr raw | None => raw end in
  if run_ner then raw ++ ner_findings e text else raw.

Definition scan_inner (e : DlpEngine) (text : bytes) (run_ner : bool) : list Finding :=
  merge_findings (raw_findings e text run_ner).
Definition scan (e : DlpEngine) (text : bytes) : list Finding := scan_inner e text true.
Definition scan_stream (e : DlpEngine) (text : bytes) : list Finding := scan_inner e text false.

(** *** Redaction *)

(** [format!(..{h:016x})]. *)
Definition hex16 (z : Z) : bytes := let h := hex z in replicate (16 - length h) 48 ++ h.

Definition stable_token (s : bytes) : bytes :=
  hex16 (hash_one (concat (map char_lowercase (List.filter char_alphanumeric (chars s))))).

Definition render_redaction (style : RedactStyle) (matched cat : bytes) : bytes :=
  match style with
  | Full => lit "[REDACTED:" ++ cat ++ lit "]"
  | Mask => mask_keep_last4 matched
  | HashStyle => lit "[REDACTED:" ++ cat ++ lit ":" ++ stable_token matched ++ lit "]"
  end.

Definition redact (e : DlpEngine) (text : bytes) (findings : list Finding) : option bytes :=
  match findings with
  | [] => Some text
  | _ => fst <$> rewrite_go (fun _ matched cat => (render_redaction (redact_style e) matched cat, tt)) tt text findings 0 []
  end.

(** ** On the request and the response *)

(** What the pipeline does with a body; [None] is a panic. *)
Inductive Inbound : Type := Refused | Forward (body : bytes) (masks : MaskMap).

(** The inbound step of the pipeline, and the categories it counts. *)
Definition dlp_inbound (dlp : option DlpEngine) (body : bytes) : option (Inbound * list bytes) :=
  let pass := Some (Forward body MaskMap_default, []) in
  match dlp with
  | None => pass
  | Some e =>
      if scan_request e then
        let text := from_utf8_lossy body in
        let fs := scan e text in
        match fs with
        | [] => pass
        | _ =>
            let counted := map category fs in
            match mode e with
            | Block => Some (Refused, counted)
            | Redact =>
                if reversible e then
                  '(out, m) ← redact_reversible text fs MaskMap_default; Some (Forward out m, counted)
                else out ← redact e text fs; Some (Forward out MaskMap_default, counted)
            | _ => Some (Forward body MaskMap_default, counted)
            end
        end
      else pass
  end.

(** A buffered response: its status, headers and body. *)
Record Resp : Type := mkResp { r_status : Z; r_headers : Headers; r_body : bytes }.

Definition withheld : bytes :=
  [123; 34] ++ lit "error" ++ [34; 58; 34] ++ lit "response withheld by DLP policy" ++ [34; 125].

Definition dlp_outbound (dlp : option DlpEngine) (m : MaskMap) (r : Resp) : option (Resp * list bytes) :=
  let pass := Some (r, []) in
  match dlp with
  | None => pass
  | Some e =>
      if reversible e then
        if is_empty m then pass
        else Some (mkResp (r_status r) (r_headers r) (unmask m (from_utf8_lossy (r_body r))), [])
      else if scan_response e then
        let text := from_utf8_lossy (r_body r) in
        let fs := scan e text in
        match fs with
        | [] => pass
        | _ =>
            let counted := map category fs in
            match mode e with
            | Block =>
                Some (mkResp 403 (insert_h (remove (r_headers r) (lit "content-type")) (lit "content-type")
                                    (lit "application/json")) withheld, counted)
            | Redact => out ← redact e text fs; Some (mkResp (r_status r) (r_headers r) out, counted)
            | _ => Some (r, counted)
            end
        end
      else pass
  end.

(** ** The streamed response *)

Definition DLP_STREAM_CARRY : nat := 256.

(** [DlpStreamScanner]: its carry, and the categories it has counted. *)
Record Scanner : Type := mkScanner { carry : bytes; counted : list bytes }.

Definition record_only (e : DlpEngine) (s : Scanner) (data : bytes) : Scanner :=
  let buf := carry s ++ data in
  let text := from_utf8_lossy buf in
  let fs := List.filter (fun f => (length (carry s) <? end_ f)%nat) (scan_stream e text) in
  let keep := Nat.min (length buf) DLP_STREAM_CARRY in
  mkScanner (drop (length buf - keep) buf) (counted s ++ map category fs).

(** [while emit_to > 0 && !text.is_char_boundary(emit_to)]. *)
Fixpoint boundary_before (text : bytes) (i : nat) : nat :=
  match i with
  | O => 0%nat
  | S less => if is_char_boundary text i then i else boundary_before text less
  end.

Definition redact_frame (e : DlpEngine) (s : Scanner) (data : bytes) : option (bytes * Scanner) :=
  let buf := carry s ++ data in
  let text := from_utf8_lossy buf in
  let fs := scan_stream e text in
  let emit_to := foldl (fun to f => if (start f <? to)%nat && (to <? end_ f)%nat then start f else to)
                   (length text - DLP_STREAM_CARRY)%nat fs in
  let emit_to := boundary_before text emit_to in
  let emit := List.filter (fun f => (end_ f <=? emit_to)%nat) fs in
  out ← redact e (take emit_to text) emit;
  Some (out, mkScanner (drop emit_to text) (counted s ++ map category emit)).

Definition scanner_flush (e : DlpEngine) (s : Scanner) : option (bytes * Scanner) :=
  match carry s with
  | [] => Some ([], s)
  | buf =>
      let text := from_utf8_lossy buf in
      let fs := scan_stream e text in
      out ← redact e text fs; Some (out, mkScanner [] (counted s ++ map category fs))
  end.
End Engine.
