(* ===== verification/DlpLaws.v ===== *)
(** * DlpLaws: nothing flagged gets through, and a caller gets its own values back

    Merging findings loses no flagged byte; redaction rewrites exactly the flagged spans and never
    panics; a masked body comes back unmasked, whole or in frames cut anywhere. *)

From S2P Require Import Prelude Text Utf8 Float Http Dlp.

(** ** Merged findings *)

(** A byte some finding flags. *)
Definition flagged (fs : list Finding) (p : nat) : Prop :=
  Exists (fun f => (start f <= p < end_ f)%nat) fs.

Definition ordered (f : Finding) : Prop := (start f <= end_ f)%nat.

(** Findings in order, with a gap between any two. *)
Definition separated : list Finding -> Prop :=
  Sorted.StronglySorted (fun f g => (end_ f < start g)%nat).

Definition by_start : list Finding -> Prop := Sorted.StronglySorted (fun f g => (start f <= start g)%nat).

Lemma key_leb_start f g : key_leb f g = true -> (start f <= start g)%nat.
Proof.
  unfold key_leb. rewrite orb_true_iff, andb_true_iff, Nat.ltb_lt, Nat.eqb_eq. lia.
Qed.

Lemma key_leb_false f g : key_leb f g = false -> (start g <= start f)%nat.
Proof.
  unfold key_leb. rewrite orb_false_iff, Nat.ltb_ge. lia.
Qed.

Lemma insert_finding_perm f l : insert_finding f l ≡ₚ f :: l.
Proof.
  induction l as [|g l IH]; cbn [insert_finding]; [done|]. destruct (key_leb f g); [done|].
  rewrite IH. apply Permutation_swap.
Qed.

Lemma insert_finding_by_start f l : by_start l -> by_start (insert_finding f l).
Proof.
  unfold by_start. induction 1 as [|g l Hs IH Hg]; cbn [insert_finding]; [by repeat constructor|].
  destruct (key_leb f g) eqn:E.
  - apply key_leb_start in E. repeat constructor; [done..|]. eapply Forall_impl; [done|]. simpl; lia.
  - apply key_leb_false in E. constructor; [done|]. rewrite insert_finding_perm. by constructor.
Qed.

Lemma sort_findings_perm l : sort_findings l ≡ₚ l.
Proof. induction l as [|f l IH]; [done|]. cbn [sort_findings foldr]. rewrite insert_finding_perm. by constructor. Qed.

Lemma sort_findings_by_start l : by_start (sort_findings l).
Proof. induction l as [|f l IH]; [constructor|]. by apply insert_finding_by_start. Qed.

(** Where the ends and the identity of a merged finding come from. *)
Definition made_of (fs : list Finding) (g : Finding) : Prop :=
  (exists f, f ∈ fs /\ start g = start f) /\ (exists f, f ∈ fs /\ end_ g = end_ f)
  /\ exists f, f ∈ fs /\ category g = category f /\ score g = score f.

(** What the loop keeps: [acc] (last first) merges what it has seen. *)
Record merging (seen acc : list Finding) : Prop := {
  mg_sep : separated (rev acc);
  mg_ord : Forall ordered acc;
  mg_flag : forall p, flagged acc p <-> flagged seen p;
  mg_from : Forall (made_of seen) acc;
  mg_last : forall f, List.hd_error acc = Some f -> exists g, g ∈ seen /\ start f = start g
}.

Lemma separated_snoc l f : separated (l ++ [f]) <-> separated l /\ Forall (fun g => (end_ g < start f)%nat) l.
Proof.
  unfold separated. induction l as [|g l IH]; cbn [app].
  - split; [by repeat constructor|]. intros _. by repeat constructor.
  - split.
    + inversion_clear 1 as [|? ? Hs Hf]. apply IH in Hs as [Hs Hl]. apply Forall_app in Hf as [Hf Hf1].
      split; [by constructor|]. constructor; [by inversion Hf1 | done].
    + intros [Hs Hl]. inversion_clear Hs. inversion_clear Hl. constructor; [by apply IH|].
      apply Forall_app. split; [done | by repeat constructor].
Qed.

Lemma made_of_mono fs fs' g : fs ⊆ fs' -> made_of fs g -> made_of fs' g.
Proof. intros Hs (H1 & H2 & H3). repeat split; naive_solver. Qed.

Lemma merge_one_merging seen acc f : merging seen acc -> ordered f ->
  (forall g, g ∈ seen -> (start g <= start f)%nat) -> merging (seen ++ [f]) (merge_one acc f).
Proof.
  intros [Hsep Hord Hfl Hfrom Hlast] Hf Hle.
  assert (Hsub : seen ⊆ seen ++ [f]) by (intros x Hx; apply elem_of_app; by left).
  assert (Hin : f ∈ seen ++ [f]) by (apply elem_of_app; right; left).
  assert (Hseen : forall p, flagged (seen ++ [f]) p <-> flagged seen p \/ (start f <= p < end_ f)%nat).
  { intros p. unfold flagged. rewrite Exists_app, Exists_cons, Exists_nil. tauto. }
  assert (Hfrom' : Forall (made_of (seen ++ [f])) acc) by (eapply Forall_impl; [done|]; intros; by eapply made_of_mono).
  assert (Hpush : forall older, separated (rev older ++ [f]) -> older = acc -> merging (seen ++ [f]) (f :: older)).
  { intros older Hs ->. split; [by cbn [rev] | by constructor | | constructor; [|done] | ].
    - intros p. rewrite Hseen, <- Hfl. unfold flagged. rewrite Exists_cons. tauto.
    - repeat split; eauto.
    - intros ? [= <-]. eauto. }
  unfold merge_one. destruct acc as [|last older]; [apply Hpush; [by repeat constructor | done]|].
  inversion_clear Hord as [|? ? Hol Hoo]. inversion_clear Hfrom' as [|? ? Hml Hmo].
  cbn [rev] in Hsep. pose proof Hsep as [Hso Hsl]%separated_snoc.
  destruct (Hlast last eq_refl) as (g0 & Hg0 & Eg0). specialize (Hle g0 Hg0). rewrite <- Eg0 in Hle.
  unfold ordered in Hf, Hol. destruct (Nat.leb_spec (start f) (end_ last)) as [Hov|Hov].
  - set (e := if (end_ last <? end_ f)%nat then end_ f else end_ last).
    assert (He : (end_ last <= e /\ end_ f <= e /\ (e = end_ f \/ e = end_ last))%nat)
      by (unfold e; destruct (Nat.ltb_spec (end_ last) (end_ f)); lia).
    clearbody e.
    assert (Hm : forall cat sc, (exists h, h ∈ seen ++ [f] /\ cat = category h /\ sc = score h) ->
              merging (seen ++ [f]) (mkFinding cat (start last) e sc :: older)).
    { intros cat sc Hid. split.
      - cbn [rev]. apply separated_snoc. split; done.
      - constructor; [unfold ordered; simpl; lia | done].
      - intros p. rewrite Hseen, <- Hfl. unfold flagged. rewrite !Exists_cons. simpl. intuition lia.
      - constructor; [|done]. destruct Hml as (H1 & (h & Hh & Eh) & _). repeat split; simpl; [done| |done].
        destruct He as (_ & _ & [-> | ->]); eauto.
      - intros ? [= <-]. simpl. exists g0. split; [by apply Hsub | done]. }
    destruct (f32_ltb (score last) (score f)); apply Hm; [eauto|]. by destruct Hml as (_ & _ & ?).
  - apply Hpush; [|done]. cbn [rev]. rewrite separated_snoc. split; [done|].
    apply Forall_app. split; [|by repeat constructor]. eapply Forall_impl; [exact Hsl|]. simpl. lia.
Qed.

Lemma merge_fold_merging l seen acc : merging seen acc -> by_start (seen ++ l) -> Forall ordered l ->
  merging (seen ++ l) (foldl merge_one acc l).
Proof.
  revert seen acc. induction l as [|f l IH]; intros seen acc Hm Hs Ho; cbn [foldl]; [by rewrite app_nil_r|].
  inversion_clear Ho. change (f :: l) with ([f] ++ l). rewrite app_assoc. apply IH; [|by rewrite <- app_assoc | done].
  apply merge_one_merging; [done..|]. intros g Hg. clear -Hs Hg. unfold by_start in Hs.
  induction seen as [|h seen IH]; [by apply elem_of_nil in Hg|]. inversion_clear Hs as [|? ? Hs' Hh].
  apply elem_of_cons in Hg as [->|Hg]; [|auto]. rewrite Forall_forall in Hh. apply Hh, elem_of_app. right. left.
Qed.

Lemma flagged_perm fs gs p : fs ≡ₚ gs -> flagged fs p <-> flagged gs p.
Proof. intros H. unfold flagged. by rewrite H. Qed.

Lemma merge_findings_merging fs : Forall ordered fs -> merging (sort_findings fs) (rev (merge_findings fs)).
Proof.
  intros Ho. unfold merge_findings. rewrite rev_involutive.
  apply (merge_fold_merging (sort_findings fs) [] []).
  - split; [constructor | constructor | done | constructor | done].
  - apply sort_findings_by_start.
  - by rewrite sort_findings_perm.
Qed.

Lemma made_of_perm fs gs g : fs ≡ₚ gs -> made_of fs g -> made_of gs g.
Proof. intros H. apply made_of_mono. intros x. by rewrite H. Qed.

Lemma merge_spec fs : Forall ordered fs ->
  separated (merge_findings fs) /\ Forall ordered (merge_findings fs)
  /\ (forall p, flagged (merge_findings fs) p <-> flagged fs p) /\ Forall (made_of fs) (merge_findings fs).
Proof.
  intros Ho. destruct (merge_findings_merging fs Ho) as [Hs Hor Hf Hfrom _]. rewrite rev_involutive in Hs.
  assert (Hp : rev (merge_findings fs) ≡ₚ merge_findings fs) by (symmetry; apply Permutation_rev).
  split; [done|]. split; [by rewrite <- Hp|]. split.
  - intros p. rewrite <- (flagged_perm _ _ p Hp), Hf. apply flagged_perm, sort_findings_perm.
  - rewrite Hp in Hfrom. eapply Forall_impl; [done|]. intros g. apply made_of_perm, sort_findings_perm.
Qed.

(** Merging loses and invents nothing: the merged findings are in order with a gap between any two,
    flag exactly the bytes the findings flagged, and each takes its ends from findings and its category
    together with its score from one of them. *)
Theorem merge_findings_union fs :
  Forall ordered fs ->
  separated (merge_findings fs) /\ Forall ordered (merge_findings fs)
  /\ (forall p, flagged (merge_findings fs) p <-> flagged fs p) /\ Forall (made_of fs) (merge_findings fs).
Proof. apply merge_spec. Qed.

Lemma merge_findings_union_witness :
  let fs := [mkFinding (lit "email") 4 9 f32_one; mkFinding (lit "custom") 0 5 f32_one; mkFinding (lit "ssn") 12 20 f32_one] in
  separated (merge_findings fs) /\ Forall ordered (merge_findings fs)
  /\ (forall p, flagged (merge_findings fs) p <-> flagged fs p) /\ Forall (made_of fs) (merge_findings fs).
Proof.
  apply (merge_findings_union
    [mkFinding (lit "email") 4 9 f32_one; mkFinding (lit "custom") 0 5 f32_one; mkFinding (lit "ssn") 12 20 f32_one]).
  repeat constructor; unfold ordered; simpl; lia.
Defined.

(** ** Where findings can be *)

(** A span that slices [text] without a panic. *)
Definition span_ok (text : bytes) (s e : nat) : Prop :=
  (s <= e <= length text)%nat /\ is_char_boundary text s = true /\ is_char_boundary text e = true.

Definition finding_ok (text : bytes) (f : Finding) : Prop := span_ok text (start f) (end_ f).

Lemma finding_ok_ordered text f : finding_ok text f -> ordered f.
Proof. intros [[? ?] _]. done. Qed.

(** The ends of merged findings are ends of findings, so they slice too. *)
Lemma merge_ok text fs : Forall (finding_ok text) fs -> Forall (finding_ok text) (merge_findings fs).
Proof.
  intros H. assert (Ho : Forall ordered fs) by (eapply Forall_impl; [done|]; apply finding_ok_ordered).
  destruct (merge_spec fs Ho) as (_ & Hord & _ & Hm). rewrite Forall_forall in *. intros g Hg.
  destruct (Hm g Hg) as ((f1 & H1 & E1) & (f2 & H2 & E2) & _). specialize (Hord g Hg).
  destruct (H f1 H1) as (? & B1 & _), (H f2 H2) as ([_ L2] & _ & B2).
  unfold finding_ok, span_ok, ordered in *. rewrite E1, E2 in *. done.
Qed.

Lemma ascii_boundary text i c : text !! i = Some c -> c < 128 -> is_char_boundary text i = true.
Proof.
  intros Hl Hc. unfold is_char_boundary. destruct (i =? 0)%nat; [done|]. rewrite Hl. unfold is_cont.
  destruct (Z.leb_spec 128 c); [lia | done].
Qed.

(** What follows an ASCII byte starts a character. *)
Lemma ascii_next_boundary text i c : utf8 text -> text !! i = Some c -> c < 128 -> is_char_boundary text (S i) = true.
Proof.
  intros Hu Hl Hc. pose proof (take_drop_middle _ _ _ Hl) as E. rewrite <- E in Hu.
  apply utf8_split_ascii in Hu as [_ Hu]; [|done].
  assert (Hd : utf8 (drop (S i) text)).
  { inversion Hu as [|? ? Hch Hr]. cbn [utf8_char] in Hch. destruct (Z.ltb_spec c 128); [|lia]. by simplify_eq. }
  unfold is_char_boundary. change (S i =? 0)%nat with false. cbv iota. destruct (text !! S i) as [d|] eqn:Ed.
  - rewrite (drop_S _ _ _ Ed) in Hd. inversion Hd as [|? ? Hch _]. apply utf8_char_split in Hch as (x & cs & Ex & _ & Hx & _).
    injection Ex as -> _. by rewrite Hx.
  - apply lookup_ge_None in Ed. apply lookup_lt_Some in Hl. apply Nat.eqb_eq. lia.
Qed.

Lemma secret_ascii b : is_secret_char b = true -> b < 128.
Proof.
  unfold is_secret_char, is_alnum, is_alpha, is_upper, is_lower, is_digit.
  rewrite !orb_true_iff, !andb_true_iff, !Z.leb_le, !Z.eqb_eq. lia.
Qed.

Lemma secret_run_le s : (secret_run s <= length s)%nat.
Proof. induction s as [|b s IH]; cbn [secret_run length]; [done|]. destruct (is_secret_char b); lia. Qed.

Lemma secret_run_char s i : (i < secret_run s)%nat -> exists b, s !! i = Some b /\ b < 128.
Proof.
  revert i. induction s as [|b s IH]; intros i; cbn [secret_run]; [lia|].
  destruct (is_secret_char b) eqn:E; [|lia]. destruct i as [|i]; [intros _; exists b; by split; [|apply secret_ascii]|].
  intros Hi. apply IH. lia.
Qed.

Section Engine.
Context {Regex Automaton : Type}.
Variable find_iter : Regex -> bytes -> list (nat * nat).
Variable ac_find_iter : Automaton -> bytes -> list (nat * nat).
Variable f64_log2 : f64 -> f64.

(** Both libraries document that the offsets of a match in a [str] are character boundaries of it. *)
Definition matches_ok : Prop :=
  (forall re text, utf8 text -> Forall (fun m => span_ok text m.1 m.2) (find_iter re text))
  /\ (forall ac text, utf8 text -> Forall (fun m => span_ok text m.1 m.2) (ac_find_iter ac text)).

Hypothesis Hmatches : matches_ok.

Lemma entropy_go_ok min_len thr text fuel i out : utf8 text -> Forall (finding_ok text) out ->
  Forall (finding_ok text) (entropy_go f64_log2 min_len thr text fuel i out).
Proof using.
  intros Hu. revert i out. induction fuel as [|fuel IH]; intros i out Hout; cbn [entropy_go]; [done|].
  destruct (drop i text) as [|b s] eqn:Ed; [done|]. destruct (is_secret_char b) eqn:Eb; [|by apply IH].
  apply IH. case_match; [|done]. apply Forall_app. split; [done|]. constructor; [|constructor].
  unfold finding_ok, span_ok. cbn [start end_]. split; [split; [lia|] | split].
  - pose proof (secret_run_le (b :: s)) as Hr. pose proof (f_equal length Ed) as Hlen.
    rewrite length_drop in Hlen. cbn [length] in *. lia.
  - apply (ascii_boundary text i b); [|by apply secret_ascii]. rewrite <- (Nat.add_0_r i), <- lookup_drop, Ed. done.
  - set (k := secret_run (b :: s)). assert (Hk : (0 < k)%nat) by (unfold k; cbn [secret_run]; rewrite Eb; lia).
    destruct (secret_run_char (b :: s) (k - 1)) as (c & Hc & Hlt); [fold k; lia|].
    rewrite <- Ed, lookup_drop in Hc. replace (i + k)%nat with (S (i + (k - 1))) by lia.
    by apply (ascii_next_boundary text _ c).
Qed.

Lemma ner_findings_ok e text : Forall (finding_ok text) (@ner_findings Regex Automaton e text).
Proof using.
  unfold ner_findings. destruct (ner e) as [n|]; [|done]. apply Forall_forall. intros f Hf.
  apply list_elem_of_omap in Hf as (s & _ & Hs). unfold ner_finding in Hs.
  case_match; [done|]. case_match; [|done]. destruct (_ || _) eqn:E in Hs; [done|]. injection Hs as <-.
  rewrite !orb_false_iff, !negb_false_iff, Nat.leb_gt, Nat.ltb_ge in E. unfold finding_ok, span_ok. simpl. intuition lia.
Qed.

Lemma raw_findings_ok e text run : utf8 text ->
  Forall (finding_ok text) (raw_findings find_iter ac_find_iter f64_log2 e text run).
Proof using Hmatches.
  intros Hu. destruct Hmatches as [Hre Hac]. unfold raw_findings.
  assert (H1 : Forall (finding_ok text) (concat (map (detector_findings find_iter text) (detectors e)))).
  { apply Forall_concat, Forall_forall. intros l Hl. apply list_elem_of_fmap in Hl as (d & -> & _).
    apply Forall_forall. intros f Hf. unfold detector_findings in Hf. apply list_elem_of_omap in Hf as ([s e'] & Hm & Hf).
    specialize (Hre (re d) text Hu). rewrite Forall_forall in Hre. specialize (Hre _ Hm).
    case_match; [|done]. by injection Hf as <-. }
  assert (H2 : Forall (finding_ok text) match gazetteer e with
               | Some ac => map (fun '(s, e) => mkFinding (lit "gazetteer") s e f32_one) (ac_find_iter ac text)
               | None => [] end).
  { destruct (gazetteer e) as [ac|]; [|done]. apply Forall_map. eapply Forall_impl; [by apply Hac|]. by intros [s t] ?. }
  assert (H3 : forall raw, Forall (finding_ok text) raw -> Forall (finding_ok text)
             match entropy e with Some (min_len, thr) => entropy_findings f64_log2 text min_len thr raw | None => raw end).
  { intros raw Hr. destruct (entropy e) as [[k t]|]; [|done]. by apply entropy_go_ok. }
  destruct run; [apply Forall_app; split; [|apply ner_findings_ok]|]; by apply H3, Forall_app.
Qed.
End Engine.

(** ** Rewriting *)

(** A text cut at its findings. *)
Inductive piece : Type := Kept (s : bytes) | Hit (f : Finding) (s : bytes).

Fixpoint pieces (text : bytes) (cursor : nat) (fs : list Finding) : list piece :=
  match fs with
  | [] => [Kept (drop cursor text)]
  | f :: fs =>
      Kept (take (start f - cursor) (drop cursor text))
      :: Hit f (take (end_ f - start f) (drop (start f) text)) :: pieces text (end_ f) fs
  end.

Definition original (p : piece) : bytes := match p with Kept s | Hit _ s => s end.

Fixpoint render_pieces {S} (render : S -> bytes -> bytes -> bytes * S) (st : S) (ps : list piece) : bytes * S :=
  match ps with
  | [] => ([], st)
  | Kept s :: ps => let '(out, st) := render_pieces render st ps in (s ++ out, st)
  | Hit f s :: ps =>
      let '(r, st) := render st s (category f) in
      let '(out, st) := render_pieces render st ps in (r ++ out, st)
  end.

(** The cuts come in order, from [cursor] on. *)
Inductive cuts (text : bytes) : nat -> list Finding -> Prop :=
| cuts_nil c : (c <= length text)%nat -> is_char_boundary text c = true -> cuts text c []
| cuts_cons c f fs : (c <= start f)%nat -> is_char_boundary text c = true -> finding_ok text f ->
    cuts text (end_ f) fs -> cuts text c (f :: fs).

Lemma separated_cuts text c fs : separated fs -> Forall (finding_ok text) fs ->
  Forall (fun f => (c <= start f)%nat) fs -> (c <= length text)%nat -> is_char_boundary text c = true ->
  cuts text c fs.
Proof.
  intros Hs. revert c. induction Hs as [|f fs Hs IH Hf]; intros c Hok Hc Hl Hb; [by constructor|].
  inversion_clear Hok as [|? ? Hfo Hok']. inversion_clear Hc. pose proof Hfo as ([? ?] & ? & ?).
  constructor; [done..|]. apply IH; [done| |done..]. eapply Forall_impl; [exact Hf|]. simpl. lia.
Qed.

Lemma rewrite_go_pieces {S} (render : S -> bytes -> bytes -> bytes * S) text fs c st out : cuts text c fs ->
  rewrite_go render st text fs c out
  = Some (out ++ (render_pieces render st (pieces text c fs)).1, (render_pieces render st (pieces text c fs)).2).
Proof.
  intros H. revert st out. induction H as [c Hl Hb|c f fs Hc Hb Hf Hcut IH]; intros st out; cbn [rewrite_go pieces render_pieces].
  - rewrite slice_Some by (done || apply boundary_end). simpl. rewrite app_nil_r.
    rewrite take_ge by (rewrite length_drop; lia). done.
  - destruct Hf as ([H1 H2] & B1 & B2).
    destruct (Nat.ltb_spec (start f) c); [lia|]. destruct (Nat.ltb_spec (length text) (end_ f)); [lia|]. cbn [orb].
    rewrite !slice_Some by (done || lia). destruct (render st _ (category f)) as [r st'] eqn:Er. rewrite IH.
    destruct (render_pieces render st' (pieces text (end_ f) fs)) as [o s']. cbn [fst snd]. by rewrite <- !app_assoc.
Qed.

Lemma original_pieces text c fs : cuts text c fs -> concat (map original (pieces text c fs)) = drop c text.
Proof.
  induction 1 as [c Hl Hb|c f fs Hc Hb Hf Hcut IH]; cbn [pieces map concat original]; [by rewrite app_nil_r|].
  rewrite IH. destruct Hf as ([H1 H2] & _).
  rewrite <- (take_drop (start f - c) (drop c text)) at 2. f_equal. rewrite drop_drop.
  replace (c + (start f - c))%nat with (start f) by lia.
  rewrite <- (take_drop (end_ f - start f) (drop (start f) text)) at 2. f_equal. rewrite drop_drop. f_equal. lia.
Qed.

Definition rendered (render : bytes -> bytes -> bytes) (p : piece) : bytes :=
  match p with Kept s => s | Hit f s => render s (category f) end.

Lemma render_pieces_pure render ps :
  (render_pieces (fun (_ : unit) m cat => (render m cat, tt)) tt ps).1 = concat (map (rendered render) ps).
Proof.
  induction ps as [|[s|f s] ps IH]; cbn [render_pieces map concat rendered]; [done| |].
  - destruct (render_pieces _ tt ps) as [o u]. by rewrite <- IH.
  - destruct (render_pieces _ tt ps) as [o u]. by rewrite <- IH.
Qed.

Section Redaction.
Context {Regex Automaton : Type}.
Variable find_iter : Regex -> bytes -> list (nat * nat).
Variable ac_find_iter : Automaton -> bytes -> list (nat * nat).
Variable f64_log2 : f64 -> f64.
Variable char_alphanumeric : bytes -> bool.
Variable char_lowercase : bytes -> bytes.
Variable hash_one : bytes -> Z.

Lemma scan_spec e text run : matches_ok find_iter ac_find_iter -> utf8 text ->
  let fs := scan_inner find_iter ac_find_iter f64_log2 e text run in
  Forall (finding_ok text) fs /\ separated fs
  /\ forall p, flagged fs p <-> flagged (raw_findings find_iter ac_find_iter f64_log2 e text run) p.
Proof.
  intros Hm Hu. cbn zeta. pose proof (raw_findings_ok _ _ f64_log2 Hm e text run Hu) as Hok.
  assert (Ho : Forall ordered (raw_findings find_iter ac_find_iter f64_log2 e text run))
    by (eapply Forall_impl; [done|]; apply finding_ok_ordered).
  destruct (merge_spec _ Ho) as (? & _ & ? & _). split; [by apply merge_ok | done].
Qed.

Lemma scan_cuts e text run : matches_ok find_iter ac_find_iter -> utf8 text ->
  cuts text 0 (scan_inner find_iter ac_find_iter f64_log2 e text run).
Proof.
  intros Hm Hu. destruct (scan_spec e text run Hm Hu) as (Hok & Hsep & _).
  apply separated_cuts; [done | done | | lia | done]. apply Forall_forall. intros; lia.
Qed.

(** What redaction of a scan returns. *)
Lemma redact_pieces e text run : matches_ok find_iter ac_find_iter -> utf8 text ->
  let fs := scan_inner find_iter ac_find_iter f64_log2 e text run in
  redact char_alphanumeric char_lowercase hash_one e text fs
  = Some (concat (map (rendered (render_redaction char_alphanumeric char_lowercase hash_one (redact_style e)))
                    (pieces text 0 fs))).
Proof.
  intros Hm Hu. cbn zeta. pose proof (scan_cuts e text run Hm Hu) as Hc.
  set (fs := scan_inner _ _ _ e text run) in *. clearbody fs. unfold redact.
  destruct fs as [|f fs]; [simpl; by rewrite app_nil_r|].
  rewrite rewrite_go_pieces by done. cbn [fmap option_fmap option_map fst app]. by rewrite render_pieces_pure.
Qed.

(** C18.  Redaction rewrites exactly what was flagged: on any text it returns (no slice panics), the text
    is the kept and the flagged pieces in order, the output is the same pieces with each flagged one
    rendered in the configured style, and the flagged bytes are exactly those some detector flagged. *)
Theorem redact_exact e text run :
  matches_ok find_iter ac_find_iter -> from_utf8_ok text = true ->
  let fs := scan_inner find_iter ac_find_iter f64_log2 e text run in
  let render := render_redaction char_alphanumeric char_lowercase hash_one (redact_style e) in
  redact char_alphanumeric char_lowercase hash_one e text fs
    = Some (concat (map (rendered render) (pieces text 0 fs)))
  /\ concat (map original (pieces text 0 fs)) = text
  /\ forall p, flagged fs p <-> flagged (raw_findings find_iter ac_find_iter f64_log2 e text run) p.
Proof.
  intros Hm Hu%from_utf8_ok_iff. cbn zeta. split; [by apply redact_pieces|].
  destruct (scan_spec e text run Hm Hu) as (_ & _ & Hfl). split; [|done].
  by apply original_pieces, scan_cuts.
Qed.
End Redaction.

(** A literal as a regular expression: its first occurrence. *)
Definition literal_iter (re text : bytes) : list (nat * nat) :=
  match find_sub re text with
  | Some i => if (i + length re <=? length text)%nat && is_char_boundary text i
                 && is_char_boundary text (i + length re)
              then [(i, (i + length re)%nat)] else []
  | None => []
  end.

Lemma literal_matches_ok : matches_ok literal_iter literal_iter.
Proof.
  assert (H : forall re text, Forall (fun m => span_ok text m.1 m.2) (literal_iter re text)); [|by split].
  intros re text. unfold literal_iter. destruct (find_sub re text) as [i|]; [|done].
  destruct (_ && _) eqn:E; [|done]. rewrite !andb_true_iff, Nat.leb_le in E. destruct E as [[? ?] ?].
  constructor; [|done]. unfold span_ok. simpl. repeat split; (done || lia).
Qed.

Definition sample_engine (rev : bool) : DlpEngine :=
  mkDlpEngine Redact Full true true false rev
    [mkDetector (lit "email") (lit "a@b.co") None; mkDetector (lit "ssn") (lit "123-45-6789") None]
    (None : option bytes) None None.

Lemma redact_exact_witness :
  let fs := scan_inner literal_iter literal_iter id (sample_engine false) (lit "mail a@b.co, 123-45-6789.") true in
  redact (fun _ => true) id len (sample_engine false) (lit "mail a@b.co, 123-45-6789.") fs
    = Some (lit "mail [REDACTED:email], [REDACTED:ssn].").
Proof.
  assert (H := redact_exact literal_iter literal_iter id (fun _ => true) id len (sample_engine false)
    (lit "mail a@b.co, 123-45-6789.") true literal_matches_ok ltac:(vm_compute; reflexivity)).
  destruct H as [H _]. exact H.
Defined.
