(* ===== verification/Alert.v ===== *)
(** * Alert: the budget alert ([src/src/alert.rs])

    [decide_budget] fires when a budget's consumed ratio enters the alert zone, once per crossing, and is
    re-armed when the ratio drops below the threshold.  Sending the webhook is left out. *)

From S2P Require Import Prelude Text Float Der CertStore Outbound.

Record AlertsCfg : Type := mkAlertsCfg {
  al_enabled : bool; al_webhook_url : bytes; al_threshold : f64; al_timeout_ms : Z; al_outbound : OutboundCfg
}.

(** Without its HTTP client. *)
Record AlertRuntime : Type := mkAlertRuntime {
  ar_enabled : bool; ar_webhook_url : bytes; budget_threshold : f64; ar_timeout_ms : Z;
  alerting : gmap bytes bool
}.

(** [AlertRuntime::build]: [client] is the outbound builder for the webhook, [http_build] what
    [reqwest::ClientBuilder::build] says. *)
Definition alert_build (client : OutboundCfg -> bytes -> bytes -> result unit) (http_build : bool)
    (cfg : AlertsCfg) : result AlertRuntime :=
  let on := al_enabled cfg && negb (is_empty (trim (al_webhook_url cfg))) in
  let? _ := (if on then client (al_outbound cfg) (lit "alerts") (trim (al_webhook_url cfg)) else Ok tt) in
  ensure http_build else "building the alert webhook's HTTP client";
  Ok (mkAlertRuntime on (trim (al_webhook_url cfg)) (al_threshold cfg) (Z.max (al_timeout_ms cfg) 1) ∅).

Definition set_alerting (a : AlertRuntime) (b : bytes) (v : bool) : AlertRuntime :=
  mkAlertRuntime (ar_enabled a) (ar_webhook_url a) (budget_threshold a) (ar_timeout_ms a) (<[b := v]> (alerting a)).

Definition decide_budget (a : AlertRuntime) (budget : bytes) (ratio : f64) : bool * AlertRuntime :=
  if negb (ar_enabled a) || negb (is_finite ratio) then (false, a)
  else
    let over := f64_leb (budget_threshold a) ratio in
    let was_over := default false (alerting a !! budget) in
    if over then
      if was_over then (false, a) else (true, set_alerting a budget true)
    else (false, set_alerting a budget false).

(** The observations of a run, in order, and which of them fire. *)
Fixpoint decisions (a : AlertRuntime) (obs : list (bytes * f64)) : list bool :=
  match obs with
  | [] => []
  | (b, r) :: obs => let '(fire, a) := decide_budget a b r in fire :: decisions a obs
  end.

(** ** Alerts fire on crossings *)

(** Whether a budget's last usable observation, newest first, was in the zone; none counts as below. *)
Fixpoint last_over (threshold : f64) (budget : bytes) (past : list (bytes * f64)) : bool :=
  match past with
  | [] => false
  | (b, r) :: past =>
      if bool_decide (b = budget) && is_finite r then f64_leb threshold r else last_over threshold budget past
  end.

Definition crossing (threshold : f64) (past : list (bytes * f64)) (o : bytes * f64) : bool :=
  is_finite o.2 && f64_leb threshold o.2 && negb (last_over threshold o.1 past).

Fixpoint crossings (threshold : f64) (past obs : list (bytes * f64)) : list bool :=
  match obs with
  | [] => []
  | o :: obs => crossing threshold past o :: crossings threshold (o :: past) obs
  end.

Definition armed (a : AlertRuntime) (past : list (bytes * f64)) : Prop :=
  forall b, default false (alerting a !! b) = last_over (budget_threshold a) b past.

Lemma decide_budget_armed a past b r : ar_enabled a = true -> armed a past ->
  let d := decide_budget a b r in
  d.1 = crossing (budget_threshold a) past (b, r) /\ armed d.2 ((b, r) :: past)
  /\ ar_enabled d.2 = true /\ budget_threshold d.2 = budget_threshold a.
Proof.
  intros He Ha. unfold decide_budget, crossing. rewrite He. cbn [fst snd negb orb].
  destruct (is_finite r) eqn:Hf; cbn [negb andb].
  - rewrite (Ha b). destruct (f64_leb (budget_threshold a) r) eqn:Hl;
      [destruct (last_over _ b past) eqn:Hw|]; cbn [fst snd negb]; split_and!; try done;
      intros b'; cbn [last_over]; rewrite Hf, andb_true_r; cbn [set_alerting alerting budget_threshold];
      case_bool_decide as E; subst; rewrite ?lookup_insert_eq, ?lookup_insert_ne by done; cbn; rewrite ?Hl; try done;
      try apply Ha. by rewrite Ha.
  - split_and!; try done. intros b'. cbn [last_over]. rewrite Hf, andb_false_r. apply Ha.
Qed.

Lemma decisions_crossings a past obs : ar_enabled a = true -> armed a past ->
  decisions a obs = crossings (budget_threshold a) past obs.
Proof.
  revert a past. induction obs as [|[b r] obs IH]; intros a past He Ha; cbn [decisions crossings]; [done|].
  destruct (decide_budget_armed a past b r He Ha) as (H1 & H2 & H3 & H4). cbn in *.
  destruct (decide_budget a b r) as [fire a']. cbn in *. by rewrite H1, (IH a' ((b, r) :: past)), H4.
Qed.

(** Over any run of observations of any budgets, a runtime that has just been built alerts on exactly those
    that take a budget from below its threshold into the zone, one alert per crossing; a ratio that is not a
    number changes nothing. *)
Theorem alerts_once_per_crossing client http_build cfg a obs : alert_build client http_build cfg = Ok a ->
  ar_enabled a = true -> decisions a obs = crossings (al_threshold cfg) [] obs.
Proof.
  unfold alert_build. intros H He. run_inv H. subst a. cbn in He.
  by apply (decisions_crossings (mkAlertRuntime _ _ _ _ _)).
Qed.

Definition sample_alerts : AlertsCfg :=
  mkAlertsCfg true (lit "https://hooks.example") (f64_of_Z 9) 2000
    (mkOutboundCfg [] [] [] [] (mkDefaults [] [] [] [] [])).

Definition sample_observations : list (bytes * f64) :=
  [(lit "a", f64_of_Z 5); (lit "a", f64_of_Z 9); (lit "b", f64_of_Z 9); (lit "a", f64_of_Z 10);
   (lit "a", f64_of_Z 3); (lit "a", f64_of_Z 12)].

Lemma alerts_once_per_crossing_witness : exists a,
  alert_build (fun _ _ _ => Ok tt) true sample_alerts = Ok a
  /\ decisions a sample_observations = [false; true; true; false; false; true].
Proof.
  eexists. split; [vm_compute; reflexivity|].
  rewrite (alerts_once_per_crossing (fun _ _ _ => Ok tt) true sample_alerts) by (vm_compute; reflexivity).
  vm_compute. reflexivity.
Defined.

(** A rebuilt runtime starts unarmed: a budget still in the zone alerts again, with no new crossing. *)
Example alert_repeats_after_rebuild :
  (let? a := alert_build (fun _ _ _ => Ok tt) true sample_alerts in
   let a1 := (decide_budget a (lit "a") (f64_of_Z 10)).2 in
   let? a2 := alert_build (fun _ _ _ => Ok tt) true sample_alerts in
   Ok ((decide_budget a1 (lit "a") (f64_of_Z 10)).1, (decide_budget a2 (lit "a") (f64_of_Z 10)).1))
  = Ok (false, true).
Proof. vm_compute. reflexivity. Qed.
