(* ===== verification/Telemetry.v ===== *)
(** * Telemetry: trace context, sampling and spans ([src/src/telemetry.rs])

    The W3C [traceparent] read from a request and written to the upstream, the sampling verdict, the
    content captured for a span ([capture_for_span] of [proxy.rs]) and the OTLP document of the server and
    LLM spans.  Random ids are arguments; sending is [Shipping]. *)

From S2P Require Import Prelude DlpLaws Text Utf8 Net Units Float Json Der CertStore Privacy Dlp Outbound Http.

(** ** Trace context *)

Record TraceContext : Type := mkTrace { trace_id : bytes; span_id : bytes; parent_span_id : option bytes }.

#[global] Instance TraceContext_eq_dec : EqDecision TraceContext.
Proof. solve_decision. Defined.

(** [hex]: two lowercase digits per byte. *)
Definition hex_bytes (bs : bytes) : bytes := concat (map hex2 bs).

Fixpoint hex_pairs (n : nat) (s : bytes) : option bytes :=
  match n with
  | O => Some []
  | S n =>
      match s with
      | a :: b :: r => hi ← hex_val a; lo ← hex_val b; rest ← hex_pairs n r; Some (hi * 16 + lo :: rest)
      | _ => None
      end
  end.

Definition hex_to_bytes (n : nat) (s : bytes) : option bytes :=
  if (length s =? n * 2)%nat then hex_pairs n s else None.

Definition parse_traceparent (s : bytes) : option (bytes * bytes) :=
  match split_on 45 (trim s) with
  | [_; trace_hex; span_hex; _] =>
      if negb (length trace_hex =? 32)%nat || negb (length span_hex =? 16)%nat then None
      else
        trace ← hex_to_bytes 16 trace_hex;
        span ← hex_to_bytes 8 span_hex;
        if beq trace (replicate 16 0) || beq span (replicate 8 0) then None else Some (trace, span)
  | _ => None
  end.

(** [rand16] and [rand8] are drawn by the caller. *)
Definition from_traceparent (rand16 rand8 : bytes) (traceparent : option bytes) : TraceContext :=
  match traceparent ≫= parse_traceparent with
  | Some (trace, parent) => mkTrace trace rand8 (Some parent)
  | None => mkTrace rand16 rand8 None
  end.

Definition traceparent_header (ctx : TraceContext) : bytes :=
  lit "00-" ++ hex_bytes (trace_id ctx) ++ lit "-" ++ hex_bytes (span_id ctx) ++ lit "-01".

(** ** Sampling *)

Definition f64_one : f64 := f64_of_Z 1.
Definition f64_clamp01 (x : f64) : f64 :=
  if f64_ltb x f64_zero then f64_zero else if f64_ltb f64_one x then f64_one else x.

Definition draw (trace : bytes) : f64 :=
  f64_div (f64_of_Z (Z.lxor (from_be_bytes (take 8 trace)) (from_be_bytes (take 8 (drop 8 trace)))))
    (f64_of_Z (2 ^ 64 - 1)).

Definition trace_sampled (sample_rate : f64) (trace : bytes) : bool :=
  if f64_leb f64_one sample_rate then true
  else if f64_leb sample_rate f64_zero then false
  else f64_ltb (draw trace) sample_rate.

Record TelemetryCfg : Type := mkTelemetryCfg {
  te_enabled : bool; te_endpoint : bytes; te_sample_rate : f64; te_service_name : bytes;
  te_capture_content : bool; te_max_content_bytes : nat; te_timeout_ms : Z; te_outbound : OutboundCfg
}.

Record TelemetryRuntime : Type := mkTelemetryRuntime {
  tr_enabled : bool; tr_endpoint : bytes; tr_sample_rate : f64; tr_service_name : bytes;
  tr_capture_content : bool; tr_max_content_bytes : nat; tr_timeout_ms : Z
}.

(** [TelemetryRuntime::build], with the outbound client as in [Alert.alert_build]. *)
Definition telemetry_build (client : OutboundCfg -> bytes -> bytes -> result unit) (http_build : bool)
    (cfg : TelemetryCfg) : result TelemetryRuntime :=
  let on := te_enabled cfg && negb (is_empty (trim (te_endpoint cfg))) in
  let? _ := (if on then client (te_outbound cfg) (lit "llm.telemetry") (trim (te_endpoint cfg)) else Ok tt) in
  ensure http_build else "building the LLM telemetry HTTP client";
  Ok (mkTelemetryRuntime on (trim (te_endpoint cfg)) (f64_clamp01 (te_sample_rate cfg))
        (if is_empty (trim (te_service_name cfg)) then lit "edgeguard" else trim (te_service_name cfg))
        (te_capture_content cfg) (te_max_content_bytes cfg) (Z.max (te_timeout_ms cfg) 1)).

(** [TelemetryRuntime::sampled] names the halves the other way round. *)
Definition sampled (t : TelemetryRuntime) (trace : bytes) : bool :=
  if f64_leb f64_one (tr_sample_rate t) then true
  else if f64_leb (tr_sample_rate t) f64_zero then false
  else
    let lo := from_be_bytes (take 8 trace) in
    let hi := from_be_bytes (take 8 (drop 8 trace)) in
    f64_ltb (f64_div (f64_of_Z (Z.lxor lo hi)) (f64_of_Z (2 ^ 64 - 1))) (tr_sample_rate t).

(** ** Captured content *)

Definition TRUNCATED : bytes := [226; 128; 166] ++ lit "[truncated]".

Definition prepare_content (b : bytes) (max_bytes : nat) : bytes :=
  let s := from_utf8_lossy b in
  if (length s <=? max_bytes)%nat then s
  else take (boundary_at_or_before s max_bytes) s ++ TRUNCATED.

(** ** Documents *)

Definition kv_str (key value : bytes) : Json :=
  JObj [(lit "key", JStr key); (lit "value", JObj [(lit "stringValue", JStr value)])].
Definition kv_int (key : bytes) (value : Z) : Json :=
  JObj [(lit "key", JStr key); (lit "value", JObj [(lit "intValue", JStr (dec value))])].
Definition kv_double (key : bytes) (value : f64) : Json :=
  JObj [(lit "key", JStr key); (lit "value", JObj [(lit "doubleValue", JDouble value)])].

Definition opt_str (key : bytes) (value : option bytes) : list Json :=
  match value with Some v => [kv_str key v] | None => [] end.

Record SpanRecord : Type := mkSpanRecord {
  sr_ctx : TraceContext; sr_name : bytes; sr_model : bytes; provider : option bytes;
  prompt_tokens : Z; completion_tokens : Z; cached_tokens : Z; reasoning_tokens : Z; cost_micros : option Z;
  sr_start : Z; sr_end : Z; ttft : option Duration; tpot : option Duration; status_ok : bool;
  input : option bytes; output : option bytes; session_id : option bytes
}.

Definition llm_attributes (r : SpanRecord) : list Json :=
  [kv_str (lit "openinference.span.kind") (lit "LLM"); kv_str (lit "llm.model_name") (sr_model r)]
  ++ opt_str (lit "llm.provider") (provider r)
  ++ [kv_int (lit "llm.token_count.prompt") (prompt_tokens r);
      kv_int (lit "llm.token_count.completion") (completion_tokens r);
      kv_int (lit "llm.token_count.total") (sat_add 64 (prompt_tokens r) (completion_tokens r))]
  ++ (if 0 <? cached_tokens r then
        [kv_int (lit "llm.token_count.prompt_details.cache_read") (cached_tokens r)] else [])
  ++ (if 0 <? reasoning_tokens r then
        [kv_int (lit "llm.token_count.completion_details.reasoning") (reasoning_tokens r)] else [])
  ++ (match cost_micros r with
      | Some m => [kv_double (lit "llm.cost.total") (f64_div (f64_of_Z m) (f64_of_Z 1000000))]
      | None => []
      end)
  ++ (match ttft r with Some d => [kv_double (lit "edgeguard.ttft_seconds") (as_secs_f64 d)] | None => [] end)
  ++ (match tpot r with Some d => [kv_double (lit "edgeguard.tpot_seconds") (as_secs_f64 d)] | None => [] end)
  ++ opt_str (lit "session.id") (session_id r) ++ opt_str (lit "input.value") (input r)
  ++ opt_str (lit "output.value") (output r).

Definition parent_member (ctx : TraceContext) : list (bytes * Json) :=
  match parent_span_id ctx with Some p => [(lit "parentSpanId", JStr (hex_bytes p))] | None => [] end.

Definition llm_span (r : SpanRecord) : Json :=
  JObj ([(lit "traceId", JStr (hex_bytes (trace_id (sr_ctx r)))); (lit "spanId", JStr (hex_bytes (span_id (sr_ctx r))));
         (lit "name", JStr (sr_name r)); (lit "kind", JInt 3);
         (lit "startTimeUnixNano", JStr (dec (sr_start r))); (lit "endTimeUnixNano", JStr (dec (sr_end r)));
         (lit "status", JObj [(lit "code", JInt (if status_ok r then 1 else 2))]);
         (lit "attributes", JArr (llm_attributes r))]
        ++ parent_member (sr_ctx r)).

(** The envelope both documents share. *)
Definition resource_spans (version service_name : bytes) (spans : list Json) : Json :=
  JObj [(lit "resourceSpans",
         JArr [JObj [(lit "resource", JObj [(lit "attributes", JArr [kv_str (lit "service.name") service_name])]);
                     (lit "scopeSpans",
                      JArr [JObj [(lit "scope", JObj [(lit "name", JStr (lit "edgeguard")); (lit "version", JStr version)]);
                                  (lit "spans", JArr spans)]])]])].

Definition build_export_json (version : bytes) (r : SpanRecord) (service_name : bytes) : Json :=
  resource_spans version service_name [llm_span r].

(** [TelemetryRuntime::emit]: the document it posts, if any. *)
Definition emit (version : bytes) (t : TelemetryRuntime) (r : SpanRecord) : option Json :=
  if negb (tr_enabled t) || negb (sampled t (trace_id (sr_ctx r))) then None
  else Some (build_export_json version r (tr_service_name t)).

Definition KNOWN : list bytes :=
  [lit "GET"; lit "HEAD"; lit "POST"; lit "PUT"; lit "DELETE"; lit "CONNECT"; lit "OPTIONS"; lit "TRACE"; lit "PATCH"].

Definition normalize_method (m : bytes) : bytes * option bytes :=
  if bool_decide (m ∈ KNOWN) then (m, None) else (lit "_OTHER", Some m).

Record ServerSpan : Type := mkServerSpan {
  ss_ctx : TraceContext; ss_method : bytes; method_original : option bytes; url_path : bytes;
  url_query : option bytes; url_scheme : bytes; status_code : Z; client_address : option bytes;
  server_address : option bytes; user_agent_original : option bytes; protocol_version : option bytes;
  ss_outcome : bytes; ss_request_id : bytes; ss_start : Z; ss_end : Z
}.

Definition server_attributes (r : ServerSpan) : list Json :=
  [kv_str (lit "http.request.method") (ss_method r); kv_str (lit "url.path") (url_path r);
   kv_str (lit "url.scheme") (url_scheme r); kv_int (lit "http.response.status_code") (status_code r)]
  ++ opt_str (lit "http.request.method_original") (method_original r)
  ++ opt_str (lit "url.query") (url_query r) ++ opt_str (lit "client.address") (client_address r)
  ++ opt_str (lit "server.address") (server_address r)
  ++ opt_str (lit "user_agent.original") (user_agent_original r)
  ++ opt_str (lit "network.protocol.version") (protocol_version r)
  ++ [kv_str (lit "edgeguard.outcome") (ss_outcome r); kv_str (lit "edgeguard.request_id") (ss_request_id r)].

Definition render_server_span (r : ServerSpan) : Json :=
  let failed := 500 <=? status_code r in
  JObj ([(lit "traceId", JStr (hex_bytes (trace_id (ss_ctx r)))); (lit "spanId", JStr (hex_bytes (span_id (ss_ctx r))));
         (lit "name", JStr (ss_method r)); (lit "kind", JInt 2);
         (lit "startTimeUnixNano", JStr (dec (ss_start r))); (lit "endTimeUnixNano", JStr (dec (ss_end r)));
         (lit "attributes", JArr (server_attributes r
            ++ if failed then [kv_str (lit "error.type") (dec (status_code r))] else []))]
        ++ (if failed then [(lit "status", JObj [(lit "code", JInt 2)])] else [])
        ++ parent_member (ss_ctx r)).

Definition build_server_spans_json (version : bytes) (spans : list ServerSpan) (service_name : bytes) : Json :=
  resource_spans version service_name (map render_server_span spans).

(** ** What a request's span records ([ServerSpanPre::capture] and [finish] of [proxy.rs]) *)

Inductive HttpVersion : Type := Http10 | Http11 | Http2 | Http3 | HttpOther.

Definition version_label (v : HttpVersion) : option bytes :=
  match v with
  | Http10 => Some (lit "1.0") | Http11 => Some (lit "1.1") | Http2 => Some (lit "2") | Http3 => Some (lit "3")
  | HttpOther => None
  end.

(** The sanitised query; [None] is the panic of [sanitize_target]. *)
Definition span_query (mode : QueryLogMode) (extra : list bytes) (q : bytes) : option bytes :=
  t ← sanitize_target (lit "/?" ++ q) mode extra;
  Some (match split_once 63 t with Some (_, v) => v | None => [] end).

(** [TracingCfg] and [LogCfg], as far as [capture] reads them. *)
Record SpanCfg : Type := mkSpanCfg {
  sc_sample_rate : f64; sc_tls : bool; sc_query : QueryLogMode; sc_redact_params : list bytes
}.

Record ServerSpanPre : Type := mkPre {
  pre_ctx : TraceContext; pre_method : bytes; pre_method_original : option bytes; pre_path : bytes;
  pre_query : option bytes; pre_scheme : bytes; pre_client : option bytes; pre_server : option bytes;
  pre_user_agent : option bytes; pre_version : option bytes; pre_start : Z; pre_sampled : bool
}.

(** A header the span reads: present, and text. *)
Definition text_header (to_str_ok : bytes -> bool) (h : Headers) (n : bytes) : option bytes :=
  v ← get h n; if to_str_ok v then Some v else None.

Definition capture (to_str_ok : bytes -> bool) (rand16 rand8 : bytes) (now : Z) (cfg : SpanCfg)
    (h : Headers) (method path : bytes) (query : option bytes) (v : HttpVersion) (client : IpAddr)
    (host : option bytes) : option ServerSpanPre :=
  let ctx := from_traceparent rand16 rand8 (text_header to_str_ok h (lit "traceparent")) in
  let '(m, orig) := normalize_method method in
  let pre q := mkPre ctx m orig path q (if sc_tls cfg then lit "https" else lit "http") (Some (show_ip client)) host
                 (text_header to_str_ok h (lit "user-agent")) (version_label v) now
                 (trace_sampled (sc_sample_rate cfg) (trace_id ctx)) in
  match query with
  | None => Some (pre None)
  | Some q => q ← span_query (sc_query cfg) (sc_redact_params cfg) q; Some (pre (Some q))
  end.

Definition pre_finish (p : ServerSpanPre) (status : Z) (outcome request_id : bytes) (elapsed : Duration) : ServerSpan :=
  mkServerSpan (pre_ctx p) (pre_method p) (pre_method_original p) (pre_path p) (pre_query p) (pre_scheme p) status
    (pre_client p) (pre_server p) (pre_user_agent p) (pre_version p) outcome request_id (pre_start p)
    (pre_start p + elapsed).

Section Capture.
Context {Regex Automaton : Type}.
Variable find_iter : Regex -> bytes -> list (nat * nat).
Variable ac_find_iter : Automaton -> bytes -> list (nat * nat).
Variable f64_log2 : f64 -> f64.
Variable char_alphanumeric : bytes -> bool.
Variable char_lowercase : bytes -> bytes.
Variable hash_one : bytes -> Z.

(** [capture_for_span] of [proxy.rs]; [None] is a panic. *)
Definition capture_for_span (dlp : option (DlpEngine (Regex := Regex) (Automaton := Automaton))) (b : bytes)
    (max : nat) : option bytes :=
  let text := prepare_content b max in
  match dlp with
  | None => Some text
  | Some e =>
      match scan find_iter ac_find_iter f64_log2 e text with
      | [] => Some text
      | findings => redact char_alphanumeric char_lowercase hash_one e text findings
      end
  end.
End Capture.

(** ** Laws: traces join up, sampling agrees, content is bounded

    The [traceparent] sent upstream reads back as the span that sent it; the LLM span and the server span
    reach the same verdict for a trace; captured content is valid, bounded, and what a scan of it leaves. *)

(** ** Hexadecimal *)

Lemma hex_val_nibble d : 0 <= d < 16 -> hex_val (hex_digit d) = Some d.
Proof. intros Hd. unfold hex_digit, hex_val, is_digit. zcase; cbn; try lia; f_equal; lia. Qed.

Lemma hex_digit_range d : 0 <= d < 16 -> 48 <= hex_digit d <= 102.
Proof. intros Hd. unfold hex_digit. zcase; lia. Qed.

Lemma byte_nibbles b : 0 <= b < 256 -> 0 <= b / 16 < 16 /\ 0 <= b mod 16 < 16.
Proof.
  intros Hb. split; [|apply Z.mod_pos_bound; lia].
  split; [apply Z.div_pos; lia | apply Z.div_lt_upper_bound; lia].
Qed.

Lemma hex_pairs_bytes bs : Forall (fun b => 0 <= b < 256) bs -> hex_pairs (length bs) (hex_bytes bs) = Some bs.
Proof.
  induction 1 as [|b bs Hb _ IH]; [done|]. destruct (byte_nibbles b Hb) as [Hhi Hlo].
  unfold hex_bytes in *. cbn [map concat hex2 length hex_pairs app].
  rewrite !hex_val_nibble by done. cbn. rewrite IH. cbn. do 2 f_equal.
  rewrite Z.mul_comm. symmetry. apply Z.div_mod. lia.
Qed.

Lemma length_hex_bytes bs : length (hex_bytes bs) = (length bs * 2)%nat.
Proof. unfold hex_bytes. induction bs as [|b bs IH]; cbn [map concat hex2 length app Nat.mul]; lia. Qed.

Lemma hex_bytes_range bs : Forall (fun b => 0 <= b < 256) bs -> Forall (fun c => 48 <= c <= 102) (hex_bytes bs).
Proof.
  unfold hex_bytes. induction 1 as [|b bs Hb _ IH]; cbn [map concat hex2 app]; [done|].
  destruct (byte_nibbles b Hb). repeat constructor; try done; by apply hex_digit_range.
Qed.

Lemma hex_to_bytes_bytes n bs : length bs = n -> Forall (fun b => 0 <= b < 256) bs ->
  hex_to_bytes n (hex_bytes bs) = Some bs.
Proof.
  intros <- H. unfold hex_to_bytes. rewrite length_hex_bytes, Nat.eqb_refl. by apply hex_pairs_bytes.
Qed.

(** ** The header *)

Definition valid_id (n : nat) (bs : bytes) : Prop :=
  length bs = n /\ Forall (fun b => 0 <= b < 256) bs /\ bs <> replicate n 0.

Lemma no_dash bs : Forall (fun b => 0 <= b < 256) bs -> 45 ∉ hex_bytes bs.
Proof. intros H%hex_bytes_range Hin. rewrite Forall_forall in H. specialize (H _ Hin). lia. Qed.

Lemma parse_traceparent_header ctx : valid_id 16 (trace_id ctx) -> valid_id 8 (span_id ctx) ->
  parse_traceparent (traceparent_header ctx) = Some (trace_id ctx, span_id ctx).
Proof.
  intros (Ht & Htb & Htz) (Hs & Hsb & Hsz). unfold parse_traceparent, traceparent_header.
  replace (trim _) with (lit "00" ++ 45 :: hex_bytes (trace_id ctx) ++ 45 :: hex_bytes (span_id ctx) ++ 45 :: lit "01").
  2:{ symmetry. change (lit "00-" ++ ?x) with (48 :: ([48; 45] ++ x)). rewrite !app_assoc.
      change (lit "-01") with ([45; 48] ++ [49]). rewrite !app_assoc. rewrite trim_graphic by done.
      by rewrite <- !app_assoc. }
  rewrite split_on_app by (apply (bool_decide_unpack _); vm_compute; exact I).
  rewrite split_on_app by by apply no_dash. rewrite split_on_app by by apply no_dash.
  rewrite split_on_none by (apply (bool_decide_unpack _); vm_compute; exact I).
  rewrite !length_hex_bytes, Ht, Hs. cbn [Nat.mul Nat.add Nat.eqb negb orb].
  rewrite !hex_to_bytes_bytes by done. cbn. unfold beq.
  by rewrite !bool_decide_eq_false_2.
Qed.

(** The [traceparent] the edge sends upstream reads back as its own span, so the upstream's spans hang
    under the edge's; and a request that brought a trace stays in it, under the span it came from. *)
Theorem traces_join_up ctx r16 r8 : valid_id 16 (trace_id ctx) -> valid_id 8 (span_id ctx) ->
  from_traceparent r16 r8 (Some (traceparent_header ctx)) = mkTrace (trace_id ctx) r8 (Some (span_id ctx)).
Proof. intros Ht Hs. unfold from_traceparent. cbn [mbind option_bind]. by rewrite parse_traceparent_header. Qed.

Lemma traces_join_up_witness :
  from_traceparent [] (replicate 8 7) (Some (lit "00-0102030405060708090a0b0c0d0e0f10-0000000000000009-01"))
  = mkTrace (map Z.of_nat (seq 1 16)) (replicate 8 7) (Some [0; 0; 0; 0; 0; 0; 0; 9]).
Proof.
  refine (traces_join_up (mkTrace (map Z.of_nat (seq 1 16)) [0; 0; 0; 0; 0; 0; 0; 9] None) [] (replicate 8 7) _ _);
    (split; [reflexivity | split; [apply (bool_decide_unpack _); vm_compute; exact I | discriminate]]).
Defined.

(** ** Sampling *)

Lemma clamp_below x : f64_ltb x f64_zero = true -> f64_leb f64_one x = false /\ f64_leb x f64_zero = true.
Proof.
  unfold f64_ltb, f64_leb, f64_zero, SpecFloat.SFltb, SpecFloat.SFleb.
  change f64_one with (SpecFloat.S754_finite false 4503599627370496 (-52)).
  destruct x as [[]|[]| |[] m e]; cbn; try discriminate; done.
Qed.

Lemma clamp_above x : f64_ltb f64_one x = true -> f64_leb f64_one x = true.
Proof.
  unfold f64_ltb, f64_leb, SpecFloat.SFltb, SpecFloat.SFleb. by destruct (SpecFloat.SFcompare f64_one x) as [[]|].
Qed.

(** The LLM span and the server span agree on every trace, whatever the configured rate, not-a-number and
    out-of-range values included: the clamp of the one is the bounds check of the other. *)
Theorem sampling_verdicts_agree client http_build cfg t trace : telemetry_build client http_build cfg = Ok t ->
  sampled t trace = trace_sampled (te_sample_rate cfg) trace.
Proof.
  unfold telemetry_build. intros H. run_inv H. subst t. unfold sampled, trace_sampled. cbn [tr_sample_rate].
  unfold f64_clamp01. destruct (f64_ltb (te_sample_rate cfg) f64_zero) eqn:Hlt.
  { destruct (clamp_below _ Hlt) as [-> ->]. done. }
  destruct (f64_ltb f64_one (te_sample_rate cfg)) eqn:Hgt; [|done]. by rewrite (clamp_above _ Hgt).
Qed.

Definition sample_telemetry (rate : f64) : TelemetryCfg :=
  mkTelemetryCfg true (lit "https://otlp.example/v1/traces") rate [] true 10 2000
    (mkOutboundCfg [] [] [] [] (mkDefaults [] [] [] [] [])).

Lemma sampling_verdicts_agree_witness : exists t,
  telemetry_build (fun _ _ _ => Ok tt) true (sample_telemetry (f64_of_Z 7)) = Ok t
  /\ sampled t (replicate 16 1) = true.
Proof.
  eexists. split; [vm_compute; reflexivity|].
  rewrite (sampling_verdicts_agree (fun _ _ _ => Ok tt) true (sample_telemetry (f64_of_Z 7)))
    by (vm_compute; reflexivity). vm_compute. reflexivity.
Defined.

(** ** Captured content *)

Lemma lossy_go_utf8 fuel b : utf8 (lossy_go fuel b).
Proof.
  revert b. induction fuel as [|fuel IH]; intros b; cbn [lossy_go]; [constructor|].
  destruct b as [|c b]; [constructor|]. destruct (utf8_char (c :: b)) as [r|] eqn:E.
  - destruct (utf8_char_split _ _ E) as (c' & cs & Heq & _ & _ & Hl). rewrite Heq, length_app.
    replace (length (c' :: cs) + length r - length r)%nat with (length (c' :: cs)) by lia.
    rewrite take_app_length. apply (utf8_cons _ (lossy_go fuel r)); [apply Hl | apply IH].
  - apply utf8_app; [by apply from_utf8_ok_iff | apply IH].
Qed.

Lemma prepare_content_ok b max : utf8 (prepare_content b max)
  /\ (length (prepare_content b max) <= max + 14)%nat.
Proof.
  unfold prepare_content. pose proof (lossy_go_utf8 (length b) b) as Hu.
  change (lossy_go (length b) b) with (from_utf8_lossy b) in Hu.
  destruct (Nat.leb_spec (length (from_utf8_lossy b)) max); [split; [done | lia]|].
  destruct (cut_at_boundary (from_utf8_lossy b) max) as [Hb Hle]. split.
  - apply utf8_app; [|by apply from_utf8_ok_iff]. eapply utf8_split_boundary; [done | lia | done].
  - rewrite length_app, length_take. change (length TRUNCATED) with 14%nat. lia.
Qed.

Section Captured.
Context {Regex Automaton : Type}.
Variable find_iter : Regex -> bytes -> list (nat * nat).
Variable ac_find_iter : Automaton -> bytes -> list (nat * nat).
Variable f64_log2 : f64 -> f64.
Variable char_alphanumeric : bytes -> bool.
Variable char_lowercase : bytes -> bytes.
Variable hash_one : bytes -> Z.

(** Capturing content for a span never panics on any body; the text that leaves is cut to the cap at a
    character, and with an engine every piece of that text a detector flags is rendered away, whatever the
    engine's mode. *)
Theorem captured_content_redacted e b max : matches_ok find_iter ac_find_iter ->
  let text := prepare_content b max in
  let fs := scan find_iter ac_find_iter f64_log2 e text in
  utf8 text /\ (length text <= max + 14)%nat
  /\ capture_for_span find_iter ac_find_iter f64_log2 char_alphanumeric char_lowercase hash_one (Some e) b max
     = Some (concat (map (rendered (render_redaction char_alphanumeric char_lowercase hash_one (redact_style e)))
                       (pieces text 0 fs)))
  /\ concat (map original (pieces text 0 fs)) = text.
Proof.
  intros Hm. cbn zeta. destruct (prepare_content_ok b max) as [Hu Hl]. split; [done|]. split; [done|].
  pose proof (redact_pieces find_iter ac_find_iter f64_log2 char_alphanumeric char_lowercase hash_one e
    (prepare_content b max) true Hm Hu) as Hr.
  pose proof (scan_cuts find_iter ac_find_iter f64_log2 e (prepare_content b max) true Hm Hu) as Hc.
  split; [|by apply original_pieces].
  unfold capture_for_span, scan in *. destruct (scan_inner _ _ _ _ _ _); done.
Qed.
End Captured.

Lemma captured_content_redacted_witness :
  capture_for_span literal_iter literal_iter id (fun _ => true) id len (Some (sample_engine false))
    (lit "mail a@b.co") 40 = Some (lit "mail [REDACTED:email]").
Proof.
  rewrite (proj1 (proj2 (proj2 (captured_content_redacted literal_iter literal_iter id (fun _ => true) id len
    (sample_engine false) (lit "mail a@b.co") 40 literal_matches_ok)))). vm_compute. reflexivity.
Defined.

(** The cut comes before the scan: a match that straddles the cap is no longer one, and what is left of it
    is captured as it is. *)
Example cut_match_is_captured :
  capture_for_span literal_iter literal_iter id (fun _ => true) id len (Some (sample_engine false))
    (lit "mail a@b.co") 10 = Some (lit "mail a@b.c" ++ TRUNCATED).
Proof. vm_compute. reflexivity. Qed.
