(* ===== verification/Shipping.v ===== *)
(** * Shipping: the queues behind the access log and the request spans ([logship.rs], [telemetry.rs])

    The request path hands a record to a bounded channel and never waits; one task takes them off, batches
    them, posts each batch and counts what it could not deliver.  Both shippers have the same shape, with
    two posts per batch for log records and one for spans.  A post takes time, in which records keep
    arriving: [step] interleaves the request path with the task at every await. *)

From S2P Require Import Prelude.

Record ShipStats : Type := mkStats {
  sent : Z; dropped_queue_full : Z; dropped_send_failed : Z; batches_sent : Z; batches_failed : Z
}.

Definition no_stats : ShipStats := mkStats 0 0 0 0 0.

Definition count_full (t : ShipStats) : ShipStats :=
  mkStats (sent t) (wrap 64 (dropped_queue_full t + 1)) (dropped_send_failed t) (batches_sent t) (batches_failed t).

(** How a batch of [n] ended. *)
Definition count_batch (ok : bool) (n : Z) (t : ShipStats) : ShipStats :=
  if ok then mkStats (wrap 64 (sent t + n)) (dropped_queue_full t) (dropped_send_failed t)
               (wrap 64 (batches_sent t + 1)) (batches_failed t)
  else mkStats (sent t) (dropped_queue_full t) (wrap 64 (dropped_send_failed t + n)) (batches_sent t)
         (wrap 64 (batches_failed t + 1)).

(** Where the task is: its select loop, the drain after it, its last flush, or returned. *)
Inductive Pc : Type := Loop | Drain | Last | Ended.

#[global] Instance Pc_eq_dec : EqDecision Pc.
Proof. solve_decision. Defined.

Section Ship.
Context {A : Type}.
(** [queue_size.max(1)], [batch.max(1)], and the posts a batch is given. *)
Variables (cap batch attempts : nat).

Record Ship : Type := mkShip {
  pc : Pc; queue : list A; buf : list A;
  posting : option (list A);                            (** the batch of a flush that is awaiting *)
  stats : ShipStats
}.

Definition spawned : Ship := mkShip Loop [] [] None no_stats.

(** [record]: a [try_send], refused by a full channel and by one whose task is gone. *)
Definition record (s : Ship) (a : A) : Ship :=
  if bool_decide (pc s = Ended) || (cap <=? length (queue s))%nat then
    mkShip (pc s) (queue s) (buf s) (posting s) (count_full (stats s))
  else mkShip (pc s) (queue s ++ [a]) (buf s) (posting s) (stats s).

(** [buf.push], and the flush of a full batch. *)
Definition push (s : Ship) (a : A) (q : list A) : Ship :=
  let b := buf s ++ [a] in
  if (batch <=? length b)%nat then mkShip (pc s) q [] (Some b) (stats s) else mkShip (pc s) q b None (stats s).

(** The body of a post: one line per record that serializes. *)
Definition flush_body (to_string : A -> option bytes) (b : list A) : bytes :=
  concat (map (fun a => match to_string a with Some l => l ++ [10] | None => [] end) b).

(** The end of a flush: [answers] says of each post whether the collector accepted it. *)
Definition posted_ok (answers : list bool) : bool := existsb (fun b => b) (take attempts answers).

Definition posted (s : Ship) (b : list A) (answers : list bool) : Ship :=
  mkShip (if bool_decide (pc s = Last) then Ended else pc s) (queue s) (buf s) None
    (count_batch (posted_ok answers) (Z.of_nat (length b)) (stats s)).

(** One arm of the select, or one round of the drain. *)
Definition recv (s : Ship) : option Ship :=
  match queue s with a :: q => Some (push s a q) | [] => None end.

(** [biased]: the timer is looked at when the queue is empty. *)
Definition tick (s : Ship) : option Ship :=
  match queue s, buf s with
  | [], [] => Some s
  | [], b => Some (mkShip (pc s) [] [] (Some b) (stats s))
  | _ :: _, _ => None
  end.

Definition stop (s : Ship) : Ship := mkShip Drain (queue s) (buf s) None (stats s).

Definition drain (s : Ship) : Ship :=
  match queue s with
  | a :: q => push s a q
  | [] => match buf s with
          | [] => mkShip Ended [] [] None (stats s)
          | b => mkShip Last [] [] (Some b) (stats s)
          end
  end.

Inductive Event : Type := ERecord (a : A) | ERecv | ETick | EStop | EDrain | EPosted (answers : list bool).

Definition step (s : Ship) (e : Event) : option Ship :=
  match e, posting s, pc s with
  | ERecord a, _, _ => Some (record s a)
  | EPosted answers, Some b, _ => Some (posted s b answers)
  | ERecv, None, Loop => recv s
  | ETick, None, Loop => tick s
  | EStop, None, Loop => Some (stop s)
  | EDrain, None, Drain => Some (drain s)
  | _, _, _ => None
  end.

(** ** Accounting *)

(** What a run has done: records accepted and refused, and the batches posted with their verdicts. *)
Record History : Type := mkHistory { accepted : list A; refused : nat; batches : list (list A * bool) }.

Definition seen (s : Ship) (e : Event) (h : History) : History :=
  match e, posting s with
  | ERecord a, _ =>
      if bool_decide (pc s = Ended) || (cap <=? length (queue s))%nat then
        mkHistory (accepted h) (S (refused h)) (batches h)
      else mkHistory (accepted h ++ [a]) (refused h) (batches h)
  | EPosted answers, Some b => mkHistory (accepted h) (refused h) (batches h ++ [(b, posted_ok answers)])
  | _, _ => h
  end.

Inductive run : Ship -> History -> Prop :=
| run_start : run spawned (mkHistory [] 0 [])
| run_step s h e s' : run s h -> step s e = Some s' -> run s' (seen s e h).

Definition total (ok : bool) (bs : list (list A * bool)) : Z :=
  fold_right (fun '(b, v) z => (if Bool.eqb v ok then Z.of_nat (length b) else 0) + z) 0 bs.

Record accounted (s : Ship) (h : History) : Prop := {
  a_order : accepted h = concat (map fst (batches h)) ++ default [] (posting s) ++ buf s ++ queue s;
  a_full : dropped_queue_full (stats s) = wrap 64 (Z.of_nat (refused h));
  a_sent : sent (stats s) = wrap 64 (total true (batches h));
  a_failed : dropped_send_failed (stats s) = wrap 64 (total false (batches h));
  a_batches : Forall (fun '(b, _) => 0 < length b <= batch)%nat (batches h);
  a_posting : match posting s with
              | Some b => (0 < length b <= batch)%nat /\ buf s = []
              | None => (length (buf s) < batch)%nat /\ pc s <> Last
              end;
  a_queue : (length (queue s) <= cap)%nat;
  a_ended : pc s = Ended -> posting s = None /\ buf s = [];
  a_last : pc s = Last -> buf s = []
}.

Lemma total_app ok bs b v : total ok (bs ++ [(b, v)]) =
  total ok bs + (if Bool.eqb v ok then Z.of_nat (length b) else 0).
Proof. unfold total. induction bs as [|[c w] bs IH]; cbn; [lia|]. rewrite IH. lia. Qed.

Lemma wrap_add a b : wrap 64 (wrap 64 a + b) = wrap 64 (a + b).
Proof. unfold wrap. apply Zplus_mod_idemp_l. Qed.

Lemma record_accounted s h a : (0 < batch)%nat -> accounted s h -> accounted (record s a) (seen s (ERecord a) h).
Proof.
  intros Hb [Ho Hf Hs Hd Hbs Hp Hq He Hl]. unfold record, seen.
  destruct (bool_decide (pc s = Ended) || (cap <=? length (queue s))%nat) eqn:Hc.
  - split; cbn; try done. rewrite Hf, wrap_add. f_equal. lia.
  - apply orb_false_iff in Hc as [_ Hc%Nat.leb_gt]. split; cbn; try done.
    + by rewrite Ho, <- !app_assoc.
    + rewrite length_app. cbn. lia.
Qed.

Lemma posted_accounted s h b answers : (0 < batch)%nat -> posting s = Some b -> accounted s h ->
  accounted (posted s b answers) (seen s (EPosted answers) h).
Proof.
  intros Hb Hpo [Ho Hf Hs Hd Hbs Hp Hq He Hl]. unfold posted, seen. rewrite Hpo in *. destruct Hp as [Hlen Hbuf].
  split; cbn [pc queue buf posting stats accepted refused batches default].
  - by rewrite Ho, map_app, concat_app, Hbuf; cbn; rewrite app_nil_r, <- app_assoc.
  - unfold count_batch. by destruct (posted_ok answers).
  - rewrite total_app. unfold count_batch. destruct (posted_ok answers); cbn; rewrite Hs, ?wrap_add; f_equal; lia.
  - rewrite total_app. unfold count_batch. destruct (posted_ok answers); cbn; rewrite Hd, ?wrap_add; f_equal; lia.
  - apply Forall_app. split; [done|]. by apply Forall_singleton.
  - rewrite Hbuf. cbn. split; [lia|]. case_bool_decide; congruence.
  - done.
  - done.
  - done.
Qed.

Lemma push_accounted s h a q : (0 < batch)%nat -> posting s = None -> queue s = a :: q ->
  pc s = Loop \/ pc s = Drain -> accounted s h -> accounted (push s a q) h.
Proof.
  intros Hb Hpo Hqu Hpc [Ho Hf Hs Hd Hbs Hp Hq He Hl]. rewrite Hpo, Hqu in *. cbn in *.
  destruct Hp as [Hlt _]. assert (pc s <> Ended /\ pc s <> Last) as [Hne Hnl] by (destruct Hpc; split; congruence).
  pose proof (length_app (buf s) [a]) as Hla. cbn in Hla.
  unfold push. destruct (Nat.leb_spec batch (length (buf s ++ [a]))); split; cbn; try done; try lia.
  - by rewrite Ho, <- app_assoc.
  - split; [lia | done].
  - by rewrite Ho, <- app_assoc.
Qed.

Lemma flush_accounted s h p : posting s = None -> queue s = [] -> buf s <> [] -> p <> Ended ->
  accounted s h -> accounted (mkShip p [] [] (Some (buf s)) (stats s)) h.
Proof.
  intros Hpo Hqu Hbu Hne [Ho Hf Hs Hd Hbs Hp Hq He Hl]. rewrite Hpo, Hqu in *. cbn in *.
  destruct Hp as [Hlt _]. split; cbn; try done; try lia.
  destruct (buf s); cbn in *; [done|]. split; [lia | done].
Qed.

Lemma step_accounted s h e s' : (0 < batch)%nat -> accounted s h -> step s e = Some s' ->
  accounted s' (seen s e h).
Proof.
  intros Hb Ha. unfold step. destruct e as [a| | | | |answers].
  - intros [= <-]. by apply record_accounted.
  - destruct (posting s) eqn:Hpo, (pc s) eqn:Hpc; try done. unfold recv, seen.
    destruct (queue s) as [|a q] eqn:Hq; intros [= <-]. apply push_accounted; auto.
  - destruct (posting s) eqn:Hpo, (pc s) eqn:Hpc; try done. unfold tick, seen.
    destruct (queue s) eqn:Hq; [|done]. destruct (buf s) as [|b bs] eqn:Hbu; intros [= <-]; [done|].
    rewrite <- Hbu. apply flush_accounted; congruence.
  - destruct (posting s) eqn:Hpo, (pc s) eqn:Hpc; try done. intros [= <-]. unfold seen.
    destruct Ha as [Ho Hf Hs Hd Hbs Hp Hq He Hl]. rewrite Hpo in *. split; cbn; try done.
    destruct Hp. by split.
  - destruct (posting s) eqn:Hpo, (pc s) eqn:Hpc; try done. intros [= <-]. unfold drain, seen.
    destruct (queue s) as [|a q] eqn:Hq; [|apply push_accounted; auto].
    destruct (buf s) as [|b bs] eqn:Hbu; [|rewrite <- Hbu; apply flush_accounted; congruence].
    destruct Ha as [Ho Hf Hs Hd Hbs Hp Hqq He Hl]. rewrite Hpo, Hq, Hbu in *. split; cbn in *; try done; lia.
  - destruct (posting s) eqn:Hpo; [|by destruct (pc s)]. intros [= <-]. by apply posted_accounted.
Qed.

(** C26.  In every run the accepted records are, in order and each once, those of the batches posted so far, then
    the batch being posted, the buffer and the queue; the counters are exactly the records refused, delivered
    and given up; no batch is empty or over its size, and the queue never outgrows its capacity. *)
Theorem records_accounted s h : (0 < batch)%nat -> run s h -> accounted s h.
Proof.
  intros Hb. induction 1 as [|s h e s' _ IH Hs]; [|by eapply step_accounted].
  split; cbn; try done; lia.
Qed.

(** The task alone, from where it is: [answers] are the collector's, flush by flush. *)
Fixpoint finish (fuel : nat) (answers : nat -> list bool) (s : Ship) : Ship :=
  match fuel with
  | O => s
  | S fuel =>
      match pc s, posting s with
      | Ended, _ => s
      | _, Some b => finish fuel (fun n => answers (S n)) (posted s b (answers 0%nat))
      | Drain, None => finish fuel answers (drain s)
      | _, None => s
      end
  end.

Lemma finish_drains fuel answers s : (0 < batch)%nat ->
  match posting s with
  | Some b => match pc s with
              | Drain => (2 * length (queue s) + 4 <= fuel)%nat
              | Last => queue s = [] /\ buf s = [] /\ (2 <= fuel)%nat
              | _ => False
              end
  | None => pc s = Drain /\ (2 * length (queue s) + 3 <= fuel)%nat
  end ->
  pc (finish fuel answers s) = Ended /\ queue (finish fuel answers s) = [] /\ posting (finish fuel answers s) = None.
Proof.
  intros Hb. revert answers s. induction fuel as [|fuel IH]; intros answers s H.
  { destruct (posting s), (pc s); try lia; naive_solver lia. }
  cbn [finish]. destruct (posting s) as [b|] eqn:Hpo.
  - destruct (pc s) eqn:Hpc; try done.
    + apply IH. cbn [posted posting pc]. rewrite Hpc. cbn. split; [done | lia].
    + destruct H as (Hq & Hbu & Hf). destruct fuel; [lia|]. cbn [finish posted pc]. rewrite Hpc, bool_decide_eq_true_2 by done.
      cbn [posted pc queue posting]. by rewrite Hpc, bool_decide_eq_true_2.
  - destruct H as [Hpc Hf]. rewrite Hpc. unfold drain.
    destruct (queue s) as [|a q] eqn:Hq; cbn in Hf.
    + destruct (buf s) eqn:Hbu; [by destruct fuel|]. apply IH. cbn [posting pc queue buf]. split_and!; try done. lia.
    + apply IH. unfold push. destruct (batch <=? _)%nat; cbn [posting pc queue]; rewrite Hpc; [lia | split; [done | lia]].
Qed.

(** Told to stop, and given no more records, the task returns after at most two steps per queued record and
    three more, whatever the collector answers, and leaves nothing queued, buffered or half posted. *)
Theorem drain_terminates s h answers : (0 < batch)%nat -> run s h -> pc s = Drain -> posting s = None ->
  let t := finish (2 * length (queue s) + 3) answers s in
  pc t = Ended /\ queue t = [] /\ posting t = None.
Proof. intros Hb _ Hpc Hpo. apply finish_drains; [done|]. rewrite Hpo. split; [done | lia]. Qed.
End Ship.
Arguments Ship : clear implicits.
Arguments History : clear implicits.
Arguments Event : clear implicits.

(** ** Runs *)

Fixpoint steps {A} (cap batch attempts : nat) (s : Ship A) (es : list (Event A)) : option (Ship A) :=
  match es with
  | [] => Some s
  | e :: es => s ← step cap batch attempts s e; steps cap batch attempts s es
  end.

Fixpoint seens {A} (cap batch attempts : nat) (s : Ship A) (h : History A) (es : list (Event A)) : History A :=
  match es with
  | [] => h
  | e :: es =>
      match step cap batch attempts s e with
      | Some s' => seens cap batch attempts s' (seen cap attempts s e h) es
      | None => h
      end
  end.

Lemma run_steps {A} cap batch attempts (s s' : Ship A) h es : run cap batch attempts s h ->
  steps cap batch attempts s es = Some s' -> run cap batch attempts s' (seens cap batch attempts s h es).
Proof.
  revert s h. induction es as [|e es IH]; intros s h Hr; cbn [steps seens]; [intros [= <-]; done|].
  destruct (step cap batch attempts s e) as [t|] eqn:E; cbn; [|done]. apply IH. by econstructor.
Qed.

(** Five records through a queue of two in batches of two: one is refused, one batch needs its second
    post. *)
Definition sample_events : list (Event nat) :=
  [ERecord 1%nat; ERecord 2%nat; ERecord 3%nat; ERecv; ERecv; ERecord 4%nat; EPosted [false; true]; ERecord 5%nat].

Definition sample_ship : Ship nat := default spawned (steps 2 2 2 spawned sample_events).
Definition sample_history : History nat := seens 2 2 2 spawned (mkHistory [] 0 []) sample_events.

Lemma records_accounted_witness :
  accepted sample_history = [1; 2; 4; 5]%nat /\ sent (stats sample_ship) = 2
  /\ dropped_queue_full (stats sample_ship) = 1 /\ accounted 2 2 sample_ship sample_history.
Proof.
  do 3 (split; [vm_compute; reflexivity|]).
  refine (records_accounted (A := nat) 2 2 2 sample_ship sample_history _ _); [lia|].
  apply (run_steps 2 2 2 spawned); [apply run_start | vm_compute; reflexivity].
Defined.

Lemma drain_terminates_witness : exists s,
  steps 2 2 1 spawned [ERecord 1%nat; ERecord 2%nat; EStop] = Some s
  /\ queue (finish 2 1 7 (fun _ => [false]) s) = [].
Proof.
  eexists. split; [vm_compute; reflexivity|].
  refine (proj1 (proj2 (drain_terminates (A := nat) 2 2 1 (mkShip Drain [1; 2]%nat [] None no_stats)
    (mkHistory [1; 2]%nat 0 []) (fun _ => [false]) _ _ _ _))); [lia | | reflexivity | reflexivity].
  apply (run_steps 2 2 1 spawned _ (mkHistory [] 0 []) [ERecord 1%nat; ERecord 2%nat; EStop]);
    [apply run_start | vm_compute; reflexivity].
Defined.

(** A record handed over while the last batch is being posted is accepted by the channel, never taken off
    it, and counted nowhere: three records, two delivered, none dropped by the counters. *)
Example record_lost_at_shutdown : exists s,
  steps 8 8 2 spawned [ERecord 1%nat; ERecord 2%nat; EStop; EDrain; EDrain; EDrain; ERecord 3%nat; EPosted [true]] = Some s
  /\ pc s = Ended /\ queue s = [3%nat] /\ stats s = mkStats 2 0 0 1 0.
Proof. eexists. split; [vm_compute; reflexivity|]. vm_compute. done. Qed.
