(* ===== verification/Metrics.v ===== *)
(** * Metrics: counters, histograms and bounded series ([src/src/metrics.rs])

    Counters are [u64] atomics, so every addition wraps.  The registry's parts are modelled one by one: the
    labelled counters, the latency histograms, the series whose labels a client chooses, which are bounded,
    the usage the control plane is told about, and the text of label values.  [render] concatenates the
    families; of it the histogram and breakdown families are modelled. *)

From Stdlib Require Import Permutation.
From S2P Require Import Prelude Text Units Float.

Definition fetch_add (c n : Z) : Z := wrap 64 (c + n).

(** ** Labelled counters *)

Definition OUTCOMES : list bytes :=
  [lit "ok"; lit "rate_limited"; lit "over_quota"; lit "over_budget"; lit "unpriced_model"; lit "limiter_error";
   lit "unauthorized"; lit "forbidden"; lit "method_not_allowed"; lit "not_found"; lit "payload_too_large";
   lit "header_too_large"; lit "bad_gateway"; lit "upstream_error"; lit "upstream_timeout";
   lit "upstream_body_too_large"; lit "upstream_body_error"; lit "no_policy"; lit "bad_request"; lit "other"].

Definition outcome_is_blocked (o : bytes) : bool :=
  bool_decide (o ∈ [lit "rate_limited"; lit "over_quota"; lit "over_budget"; lit "unpriced_model"; lit "unauthorized";
                    lit "forbidden"]).

Definition RL_SCOPES : list bytes := [lit "ip"; lit "route"; lit "key"].
Definition WAF_RULES : list bytes := [lit "sqli"; lit "xss"; lit "path_traversal"; lit "custom"].
Definition LLM_RESULTS : list bytes := [lit "metered"; lit "unpriced"; lit "no_usage"].
Definition LLM_TOKEN_KINDS : list bytes := [lit "input"; lit "output"; lit "cached"; lit "reasoning"].
Definition BUDGET_SCOPES : list bytes :=
  [lit "global"; lit "key"; lit "model"; lit "team"; lit "claim"; lit "other"].
Definition KEYVAULT_RESULTS : list bytes := [lit "swapped"; lit "denied_key"; lit "denied_model"].
Definition DLP_CATEGORIES : list bytes :=
  [lit "email"; lit "credit_card"; lit "aws_key"; lit "api_key"; lit "private_key"; lit "ssn"; lit "phone"; lit "iban";
   lit "high_entropy"; lit "gazetteer"; lit "person"; lit "address"; lit "org"; lit "prompt_injection"; lit "custom";
   lit "other"].

Definition position (labels : list bytes) (l : bytes) : option nat := fst <$> list_find (l =.) labels.

Definition bump_at (i : nat) (cs : list Z) : list Z := alter (fun c => fetch_add c 1) i cs.

(** A label that is not one of [labels] counts as the last, [other]. *)
Definition bump_or_other (labels : list bytes) (l : bytes) (cs : list Z) : list Z :=
  bump_at (default (length labels - 1)%nat (position labels l)) cs.

(** A label that is not one of [labels] is not counted. *)
Definition bump_known (labels : list bytes) (l : bytes) (cs : list Z) : list Z :=
  match position labels l with Some i => bump_at i cs | None => cs end.

Definition record_request (o : bytes) : list Z -> list Z := bump_or_other OUTCOMES o.
Definition record_budget_blocked (s : bytes) : list Z -> list Z := bump_or_other BUDGET_SCOPES s.
Definition record_dlp_finding (c : bytes) : list Z -> list Z := bump_or_other DLP_CATEGORIES c.
Definition record_ratelimit_hit (s : bytes) : list Z -> list Z := bump_known RL_SCOPES s.
Definition record_keyvault (r : bytes) : list Z -> list Z := bump_known KEYVAULT_RESULTS r.
Definition bump_llm_result (r : bytes) : list Z -> list Z := bump_known LLM_RESULTS r.

(** ** Histograms *)

Record Hist : Type := mkHist { buckets : list Z; sum_micros : Z; h_count : Z }.

Definition hist_new (bounds : list f64) : Hist := mkHist (map (fun _ => 0) bounds) 0 0.

Definition observe_hist_in (bounds : list f64) (h : Hist) (elapsed : Duration) : Hist :=
  let secs := as_secs_f64 elapsed in
  mkHist (zip_with (fun bound c => if f64_leb secs bound then fetch_add c 1 else c) bounds (buckets h))
    (fetch_add (sum_micros h) (wrap 64 (as_micros elapsed))) (fetch_add (h_count h) 1).

(** ** Routes, upstreams, consumers *)

Definition ROUTE_METHODS : list bytes :=
  [lit "GET"; lit "HEAD"; lit "POST"; lit "PUT"; lit "PATCH"; lit "DELETE"; lit "OPTIONS"; lit "OTHER"].
Definition STATUS_CLASSES : list bytes := [lit "1xx"; lit "2xx"; lit "3xx"; lit "4xx"; lit "5xx"].

Definition status_class (status : Z) : nat := (Z.to_nat (Z.min (Z.max (status / 100) 1) 5) - 1)%nat.

Record RouteStats : Type := mkRouteStats { rs_requests : list Z; rs_hist : Hist }.

Definition route_slot (method : bytes) (status : Z) : nat :=
  (default (length ROUTE_METHODS - 1) (position ROUTE_METHODS method) * length STATUS_CLASSES + status_class status)%nat.

Definition route_record (bounds : list f64) (method : bytes) (status : Z) (elapsed : Duration) (s : RouteStats)
    : RouteStats :=
  mkRouteStats (bump_at (route_slot method status) (rs_requests s)) (observe_hist_in bounds (rs_hist s) elapsed).

Record ConsumerStats : Type := mkConsumerStats { cs_requests : list Z; bytes_in : Z; bytes_out : Z }.

Definition consumer_new : ConsumerStats := mkConsumerStats (replicate 5 0) 0 0.

Definition consumer_record (status : Z) (s : ConsumerStats) : ConsumerStats :=
  mkConsumerStats (bump_at (status_class status) (cs_requests s)) (bytes_in s) (bytes_out s).

Definition consumer_add_bytes (ingress egress : Z) (s : ConsumerStats) : ConsumerStats :=
  mkConsumerStats (cs_requests s) (fetch_add (bytes_in s) ingress) (fetch_add (bytes_out s) egress).

Definition ANON_CONSUMER : bytes := lit "_anon".
Definition LLM_MODEL_OVERFLOW : bytes := lit "_over_cap".

(** The series by label.  Copies of the map share the counters, so one map stands for all of them, and the
    [Arc] a caller gets is the label it was found under. *)
Definition named (m : gmap bytes ConsumerStats) : nat :=
  size (filter (fun kv : bytes * ConsumerStats => kv.1 <> ANON_CONSUMER /\ kv.1 <> LLM_MODEL_OVERFLOW) m).

Definition entry_or_default {V} (new : V) (k : bytes) (m : gmap bytes V) : gmap bytes V :=
  match m !! k with Some _ => m | None => <[k := new]> m end.

Definition consumer_stats (cap : nat) (principal : option bytes) (m : gmap bytes ConsumerStats)
    : option bytes * gmap bytes ConsumerStats :=
  if (cap =? 0)%nat then (None, m)
  else
    let key := default ANON_CONSUMER principal in
    match m !! key with
    | Some _ => (Some key, m)
    | None =>
        if negb (beq key ANON_CONSUMER) && (cap <=? named m)%nat
           && match m !! LLM_MODEL_OVERFLOW with Some _ => true | None => false end then
          (Some LLM_MODEL_OVERFLOW, m)
        else
          let key := if beq key ANON_CONSUMER || (named m <? cap)%nat then key else LLM_MODEL_OVERFLOW in
          (Some key, entry_or_default consumer_new key m)
    end.

(** ** Token and cost breakdowns *)

Record LlmSample : Type := mkSample {
  s_tokens_in : Z; s_tokens_out : Z; s_cached : Z; s_reasoning : Z; s_cost : option Z
}.

Record PerModelCounters : Type := mkPerModel {
  m_tokens_in : Z; m_tokens_out : Z; m_cached : Z; m_reasoning : Z; m_cost : Z
}.

Definition per_model_new : PerModelCounters := mkPerModel 0 0 0 0 0.
Definition MAX_LLM_MODEL_SERIES : nat := 128.

Definition add_sample (s : LlmSample) (c : PerModelCounters) : PerModelCounters :=
  mkPerModel (sat_add 64 (m_tokens_in c) (s_tokens_in s)) (sat_add 64 (m_tokens_out c) (s_tokens_out s))
    (sat_add 64 (m_cached c) (s_cached s)) (sat_add 64 (m_reasoning c) (s_reasoning s))
    (sat_add 64 (m_cost c) (default 0 (s_cost s))).

Definition bounded_key {V} (key : bytes) (m : gmap bytes V) : bytes :=
  if match m !! key with Some _ => true | None => false end || (size m <? MAX_LLM_MODEL_SERIES)%nat then key
  else LLM_MODEL_OVERFLOW.

Definition accumulate_bounded (key : bytes) (s : LlmSample) (m : gmap bytes PerModelCounters)
    : gmap bytes PerModelCounters :=
  let k := bounded_key key m in <[k := add_sample s (default per_model_new (m !! k))]> m.

(** [record_budget_consumed]: past the cap a new name is not kept. *)
Definition record_budget_consumed (name : bytes) (ratio : f64) (m : gmap bytes f64) : gmap bytes f64 :=
  if negb (is_finite ratio) || f64_ltb ratio f64_zero then m
  else if match m !! name with Some _ => true | None => false end || (size m <? MAX_LLM_MODEL_SERIES)%nat
  then <[name := ratio]> m else m.

(** ** Usage for the control plane *)

Inductive Field : Type :=
| FRequests | FIngress | FEgress | FTokensIn | FTokensOut | FCost | FBlocked
| FWafSqli | FWafXss | FWafPath | FWafCustom.

#[global] Instance Field_eq_dec : EqDecision Field.
Proof. solve_decision. Defined.

(** The order of [drain_usage]. *)
Definition FIELDS : list Field :=
  [FRequests; FIngress; FEgress; FTokensIn; FTokensOut; FCost; FBlocked; FWafSqli; FWafXss; FWafPath; FWafCustom].

(** The accumulators, and a [DrainedUsage]. *)
Definition Usage : Type := Field -> Z.
Definition no_usage : Usage := fun _ => 0.

Definition usage_is_empty (u : Usage) : bool := forallb (fun f => u f =? 0) FIELDS.

Definition add_field (f : Field) (n : Z) (u : Usage) : Usage :=
  fun g => if bool_decide (g = f) then fetch_add (u g) n else u g.
Definition clear_field (f : Field) (u : Usage) : Usage :=
  fun g => if bool_decide (g = f) then 0 else u g.

Definition add_usage_request (outcome : bytes) (u : Usage) : Usage :=
  let u := add_field FRequests 1 u in
  if outcome_is_blocked outcome then add_field FBlocked 1 u else u.

Definition add_usage_bytes (ingress egress : Z) (u : Usage) : Usage :=
  add_field FEgress egress (add_field FIngress ingress u).

Definition waf_field (i : nat) : Field :=
  match i with O => FWafSqli | 1%nat => FWafXss | 2%nat => FWafPath | _ => FWafCustom end.

Definition record_waf_hit (class : bytes) (hits : list Z) (u : Usage) : list Z * Usage :=
  match position WAF_RULES class with
  | Some i => (bump_at i hits, add_field (waf_field i) 1 u)
  | None => (hits, u)
  end.

(** The monotonic LLM counters, with the result counts and the per-model breakdown. *)
Record LlmTotals : Type := mkTotals {
  t_in : Z; t_out : Z; t_cached : Z; t_reasoning : Z; t_cost : Z; t_results : list Z;
  per_model : gmap bytes PerModelCounters
}.

Definition record_llm_usage (model : bytes) (s : LlmSample) (t : LlmTotals) (u : Usage) : LlmTotals * Usage :=
  let u := add_field FTokensOut (s_tokens_out s) (add_field FTokensIn (s_tokens_in s) u) in
  (mkTotals (fetch_add (t_in t) (s_tokens_in s)) (fetch_add (t_out t) (s_tokens_out s))
     (fetch_add (t_cached t) (s_cached s)) (fetch_add (t_reasoning t) (s_reasoning s))
     (match s_cost s with Some c => fetch_add (t_cost t) c | None => t_cost t end)
     (bump_llm_result (match s_cost s with Some _ => lit "metered" | None => lit "unpriced" end) (t_results t))
     (accumulate_bounded model s (per_model t)),
   match s_cost s with Some c => add_field FCost c u | None => u end).

(** [drain_usage]: one [swap] for each accumulator, in order. *)
Definition drain_usage (u : Usage) : Usage * Usage :=
  fold_left (fun '(drained, u) f => (fun g => if bool_decide (g = f) then u f else drained g, clear_field f u))
    FIELDS (no_usage, u).

Definition restore_usage (d : Usage) (u : Usage) : Usage := fold_left (fun u f => add_field f (d f) u) FIELDS u.

(** ** Text *)

Definition escape_char (c : Z) : bytes :=
  if c =? 92 then [92; 92] else if c =? 34 then [92; 34] else if c =? 10 then [92; 110] else [c].

(** [metrics::escape_label]. *)
Definition escape_label (s : bytes) : bytes := concat (map escape_char s).

(** [str::replace] of one byte. *)
Definition replace_byte (c : Z) (by_ : bytes) (s : bytes) : bytes :=
  concat (map (fun x => if x =? c then by_ else [x]) s).

(** [certstore::escape_label]. *)
Definition cert_escape_label (v : bytes) : bytes :=
  replace_byte 10 [92; 110] (replace_byte 34 [92; 34] (replace_byte 92 [92; 92] v)).

Section Render.
Variable show_f64 : f64 -> bytes.                       (** [f64]'s [Display] *)

Definition render_hist_in (name help : bytes) (bounds : list f64) (h : Hist) : bytes :=
  lit "# HELP " ++ name ++ lit " " ++ help ++ [10] ++ lit "# TYPE " ++ name ++ lit " histogram" ++ [10]
  ++ concat (zip_with (fun b v => name ++ lit "_bucket{le=" ++ [34] ++ show_f64 b ++ [34] ++ lit "} " ++ dec v ++ [10])
               bounds (buckets h))
  ++ name ++ lit "_bucket{le=" ++ [34] ++ lit "+Inf" ++ [34] ++ lit "} " ++ dec (h_count h) ++ [10]
  ++ name ++ lit "_sum " ++ show_f64 (f64_div (f64_of_Z (sum_micros h)) (f64_of_Z 1000000)) ++ [10]
  ++ name ++ lit "_count " ++ dec (h_count h) ++ [10].

Definition kind_value (kind : bytes) (c : PerModelCounters) : Z :=
  if beq kind (lit "input") then m_tokens_in c
  else if beq kind (lit "output") then m_tokens_out c
  else if beq kind (lit "cached") then m_cached c
  else if beq kind (lit "reasoning") then m_reasoning c
  else 0.

(** A sample line: [name{label=VALUE,extra} v]. *)
Definition label_line (name label value extra : bytes) (v : Z) : bytes :=
  name ++ lit "{" ++ label ++ lit "=" ++ [34] ++ escape_label value ++ [34] ++ extra ++ lit "} " ++ dec v ++ [10].

(** [map]: the breakdown in the order of its labels. *)
Definition render_breakdown (prefix label_name dim : bytes) (rows : list (bytes * PerModelCounters)) : bytes :=
  lit "# HELP " ++ prefix ++ lit "_tokens_total LLM tokens metered by " ++ dim ++ lit " and kind." ++ [10]
  ++ lit "# TYPE " ++ prefix ++ lit "_tokens_total counter" ++ [10]
  ++ concat (map (fun '(k, c) =>
       concat (map (fun kind => label_line (prefix ++ lit "_tokens_total") label_name k
                                  (lit ",kind=" ++ [34] ++ kind ++ [34]) (kind_value kind c)) LLM_TOKEN_KINDS)) rows)
  ++ lit "# HELP " ++ prefix ++ lit "_cost_microdollars_total LLM cost (micro-dollars) by " ++ dim ++ lit "." ++ [10]
  ++ lit "# TYPE " ++ prefix ++ lit "_cost_microdollars_total counter" ++ [10]
  ++ concat (map (fun '(k, c) => label_line (prefix ++ lit "_cost_microdollars_total") label_name k [] (m_cost c)) rows).
End Render.

(** ** Laws: bounded series lose nothing, histograms and labels say what happened *)

(** ** Bounded breakdowns *)

Definition accumulate_all (m : gmap bytes PerModelCounters) (ss : list (bytes * LlmSample)) :=
  fold_left (fun m '(k, s) => accumulate_bounded k s m) ss m.

(** What a dimension adds up to over all series, and over the samples. *)
Definition column (f : PerModelCounters -> Z) (m : gmap bytes PerModelCounters) : Z :=
  fold_right (fun kv z => f kv.2 + z) 0 (map_to_list m).
Definition samples_total (g : LlmSample -> Z) (ss : list (bytes * LlmSample)) : Z :=
  fold_right (fun ks z => g ks.2 + z) 0 ss.

Definition column_list (f : PerModelCounters -> Z) (l : list (bytes * PerModelCounters)) : Z :=
  fold_right (fun kv z => f kv.2 + z) 0 l.
#[global] Instance column_list_perm f : Proper (Permutation ==> eq) (column_list f).
Proof. unfold column_list. induction 1; cbn; lia. Qed.

Lemma column_insert f k c m : column f (<[k := c]> m) = f c + column f (delete k m).
Proof.
  rewrite <- insert_delete_eq. unfold column.
  change (column_list f (map_to_list (<[k := c]> (delete k m))) = f c + column_list f (map_to_list (delete k m))).
  by rewrite map_to_list_insert by apply lookup_delete_eq.
Qed.

Lemma column_delete f k m : f per_model_new = 0 ->
  column f m = f (default per_model_new (m !! k)) + column f (delete k m).
Proof.
  intros Hz. destruct (m !! k) as [c|] eqn:Hk; cbn.
  - rewrite <- column_insert. by rewrite insert_id.
  - by rewrite Hz, delete_id.
Qed.

Lemma column_nonneg f m : (forall c, 0 <= f c) -> 0 <= column f m.
Proof. intros Hf. unfold column. induction (map_to_list m) as [|[k c] l IH]; cbn; [lia|]. specialize (Hf c). lia. Qed.

(** The four token dimensions and the cost: a counter and the sample's contribution to it. *)
Inductive dimension : (PerModelCounters -> Z) -> (LlmSample -> Z) -> Prop :=
| dim_in : dimension m_tokens_in s_tokens_in
| dim_out : dimension m_tokens_out s_tokens_out
| dim_cached : dimension m_cached s_cached
| dim_reasoning : dimension m_reasoning s_reasoning
| dim_cost : dimension m_cost (fun s => default 0 (s_cost s)).

Lemma add_sample_dim f g s c : dimension f g -> f (add_sample s c) = sat_add 64 (f c) (g s).
Proof. by intros []. Qed.

Definition sample_ok (s : LlmSample) : Prop :=
  0 <= s_tokens_in s /\ 0 <= s_tokens_out s /\ 0 <= s_cached s /\ 0 <= s_reasoning s /\ 0 <= default 0 (s_cost s).

Lemma sample_dim_nonneg f g s : dimension f g -> sample_ok s -> 0 <= g s.
Proof. intros []; unfold sample_ok; lia. Qed.

Definition counters_ok (c : PerModelCounters) : Prop :=
  0 <= m_tokens_in c /\ 0 <= m_tokens_out c /\ 0 <= m_cached c /\ 0 <= m_reasoning c /\ 0 <= m_cost c.

Lemma counters_dim_nonneg f g c : dimension f g -> counters_ok c -> 0 <= f c.
Proof. intros []; unfold counters_ok; lia. Qed.

Definition series_ok (m : gmap bytes PerModelCounters) : Prop :=
  (size (delete LLM_MODEL_OVERFLOW m) <= MAX_LLM_MODEL_SERIES)%nat /\ map_Forall (fun _ c => counters_ok c) m.

Lemma column_part f g k m : dimension f g -> map_Forall (fun _ c => counters_ok c) m ->
  f (default per_model_new (m !! k)) <= column f m.
Proof.
  intros Hd Hm. rewrite (column_delete f k m) by by destruct Hd.
  enough (0 <= column f (delete k m)) by lia.
  assert (Hdel : map_Forall (fun _ c => counters_ok c) (delete k m)) by by apply map_Forall_delete.
  unfold column. apply map_Forall_to_list in Hdel. induction Hdel as [|[j c] l Hc _ IH]; cbn; [lia|].
  pose proof (counters_dim_nonneg f g c Hd Hc). lia.
Qed.

Lemma add_sample_ok s c : sample_ok s -> counters_ok c -> counters_ok (add_sample s c).
Proof.
  unfold sample_ok, counters_ok, add_sample. cbn [m_tokens_in m_tokens_out m_cached m_reasoning m_cost].
  unfold sat_add. lia.
Qed.

Lemma accumulate_ok k s m : sample_ok s -> series_ok m -> series_ok (accumulate_bounded k s m).
Proof.
  intros Hs [Hsz Hm]. unfold accumulate_bounded. split.
  - set (c := add_sample _ _). clearbody c. unfold bounded_key. destruct (m !! k) eqn:Hk; cbn [orb].
    + destruct (decide (k = LLM_MODEL_OVERFLOW)) as [->|Hne]; [by rewrite delete_insert_eq|].
      rewrite delete_insert_ne by done. rewrite map_size_insert_Some; [done|].
      eexists. rewrite lookup_delete_ne; done.
    + destruct (Nat.ltb_spec (size m) MAX_LLM_MODEL_SERIES) as [Hlt|Hge].
      * destruct (decide (k = LLM_MODEL_OVERFLOW)) as [->|Hne]; [by rewrite delete_insert_eq|].
        rewrite delete_insert_ne by done. rewrite map_size_insert_None by by rewrite lookup_delete_ne.
        pose proof (map_size_delete LLM_MODEL_OVERFLOW m). destruct (m !! LLM_MODEL_OVERFLOW); unfold id in *; lia.
      * by rewrite delete_insert_eq.
  - apply map_Forall_insert_2; [|done]. apply add_sample_ok; [done|].
    destruct (m !! bounded_key k m) as [c|] eqn:Hk; cbn; [|unfold counters_ok; cbn; lia].
    exact (map_Forall_lookup_1 _ _ _ _ Hm Hk).
Qed.

Lemma accumulate_column f g k s m : dimension f g -> sample_ok s -> series_ok m ->
  column f m + g s < 2 ^ 64 -> column f (accumulate_bounded k s m) = column f m + g s.
Proof.
  intros Hd Hs [_ Hm] Hb. unfold accumulate_bounded. set (j := bounded_key k m).
  pose proof (column_part f g j m Hd Hm). rewrite column_insert, (add_sample_dim f g) by done.
  rewrite (column_delete f j m) by by destruct Hd. unfold sat_add. lia.
Qed.

Lemma samples_nonneg f g ss : dimension f g -> Forall (fun ks => sample_ok ks.2) ss -> 0 <= samples_total g ss.
Proof.
  intros Hd. induction 1 as [|[k s] ss Hs _ IH]; [done|].
  change (0 <= g s + samples_total g ss). pose proof (sample_dim_nonneg f g s Hd Hs). lia.
Qed.

Lemma accumulate_all_ok f g ss m : dimension f g -> Forall (fun ks => sample_ok ks.2) ss -> series_ok m ->
  column f m + samples_total g ss < 2 ^ 64 ->
  series_ok (accumulate_all m ss) /\ column f (accumulate_all m ss) = column f m + samples_total g ss.
Proof.
  intros Hd Hss. revert m. induction Hss as [|[k s] ss Hs Hss IH]; intros m Hm Hb.
  { split; [done|]. unfold samples_total. cbn. lia. }
  change (samples_total g ((k, s) :: ss)) with (g s + samples_total g ss) in *.
  change (accumulate_all m ((k, s) :: ss)) with (accumulate_all (accumulate_bounded k s m) ss).
  pose proof (samples_nonneg f g ss Hd Hss) as Hn.
  assert (Hc : column f (accumulate_bounded k s m) = column f m + g s).
  { apply accumulate_column; [done | done | done | lia]. }
  destruct (IH (accumulate_bounded k s m) (accumulate_ok k s m Hs Hm)) as [H1 H2]; [lia|].
  split; [done | lia].
Qed.

(** However many models, teams or keys clients name, a breakdown keeps at most [MAX_LLM_MODEL_SERIES] series
    and the overflow one, and in every dimension the series add up to exactly what was metered: past the
    cap, attribution is coarser and no usage is lost. *)
Theorem breakdown_bounded_and_complete f g ss : dimension f g -> Forall (fun ks => sample_ok ks.2) ss ->
  samples_total g ss < 2 ^ 64 ->
  (size (accumulate_all ∅ ss) <= MAX_LLM_MODEL_SERIES + 1)%nat
  /\ column f (accumulate_all ∅ ss) = samples_total g ss.
Proof.
  intros Hd Hss Hb. assert (H0 : column f ∅ = 0) by (unfold column; by rewrite map_to_list_empty).
  destruct (accumulate_all_ok f g ss ∅ Hd Hss) as [[Hsz _] Hcol].
  - split; [rewrite delete_empty, map_size_empty; lia | apply map_Forall_empty].
  - lia.
  - split; [|lia]. pose proof (map_size_delete LLM_MODEL_OVERFLOW (accumulate_all ∅ ss)) as Hd'.
    destruct (accumulate_all ∅ ss !! LLM_MODEL_OVERFLOW); unfold id in *; lia.
Qed.

Definition sample_traffic : list (bytes * LlmSample) :=
  map (fun n => (dec (Z.of_nat n), mkSample 10 1 0 0 (Some 3))) (seq 0 200).

Lemma breakdown_bounded_and_complete_witness :
  size (accumulate_all ∅ sample_traffic) = 129%nat /\ column m_cost (accumulate_all ∅ sample_traffic) = 600.
Proof.
  split; [vm_compute; reflexivity|].
  rewrite (proj2 (breakdown_bounded_and_complete m_cost (fun s => default 0 (s_cost s)) sample_traffic dim_cost
    ltac:(unfold sample_traffic; apply Forall_map, Forall_forall; intros; cbn; unfold sample_ok; cbn; lia)
    ltac:(vm_compute; reflexivity))). vm_compute. reflexivity.
Defined.

(** ** Label values *)

(** Reads a quoted value as the exposition format defines it: up to the first quote that is not escaped. *)
Fixpoint read_label (s : bytes) : option (bytes * bytes) :=
  match s with
  | [] => None
  | c :: r =>
      if c =? 34 then Some ([], r)
      else if c =? 10 then None
      else if c =? 92 then
        match r with
        | d :: r' =>
            match (if d =? 110 then Some 10 else if (d =? 92) || (d =? 34) then Some d else None) with
            | Some x => match read_label r' with Some (v, rest) => Some (x :: v, rest) | None => None end
            | None => None
            end
        | [] => None
        end
      else match read_label r with Some (v, rest) => Some (c :: v, rest) | None => None end
  end.

Lemma read_label_char c s : read_label (escape_char c ++ s)
  = match read_label s with Some (v, rest) => Some (c :: v, rest) | None => None end.
Proof.
  unfold escape_char. destruct (Z.eqb_spec c 92) as [->|H1]; [done|].
  destruct (Z.eqb_spec c 34) as [->|H2]; [done|]. destruct (Z.eqb_spec c 10) as [->|H3]; [done|].
  cbn [app read_label]. by rewrite (proj2 (Z.eqb_neq c 34)), (proj2 (Z.eqb_neq c 10)), (proj2 (Z.eqb_neq c 92)).
Qed.

Lemma read_escaped v rest : read_label (escape_label v ++ 34 :: rest) = Some (v, rest).
Proof.
  unfold escape_label. induction v as [|c v IH]; cbn [map concat app]; [done|].
  by rewrite <- app_assoc, read_label_char, IH.
Qed.

Lemma replace_byte_app c b s t : replace_byte c b (s ++ t) = replace_byte c b s ++ replace_byte c b t.
Proof. unfold replace_byte. by rewrite map_app, concat_app. Qed.

Lemma cert_escape_char c : cert_escape_label [c] = escape_char c.
Proof.
  unfold cert_escape_label, escape_char, replace_byte. cbn [map concat app].
  destruct (Z.eqb_spec c 92) as [->|]; [done|]. cbn [map concat app].
  destruct (Z.eqb_spec c 34) as [->|]; [done|]. cbn [map concat app].
  destruct (Z.eqb_spec c 10) as [->|]; done.
Qed.

Lemma cert_escape_app s t : cert_escape_label (s ++ t) = cert_escape_label s ++ cert_escape_label t.
Proof. unfold cert_escape_label. by rewrite !replace_byte_app. Qed.

Lemma escape_no_newline v : 10 ∉ escape_label v.
Proof.
  unfold escape_label. induction v as [|c v IH]; cbn [map concat]; [apply not_elem_of_nil|].
  rewrite elem_of_app. intros [H|H]; [|done]. revert H. unfold escape_char.
  repeat case_match; rewrite !elem_of_cons, elem_of_nil; repeat (match goal with H : (_ =? _) = _ |- _ => first
    [apply Z.eqb_eq in H | apply Z.eqb_neq in H] end); intuition (congruence || lia).
Qed.

(** The two escapers, three passes in [certstore.rs] and one in [metrics.rs], write the same text; a reader of
    the exposition format gets back the value a client chose and goes on right after it, so no model, team
    or key can end its label early or start a line. *)
Theorem labels_read_back v rest :
  cert_escape_label v = escape_label v /\ read_label (escape_label v ++ 34 :: rest) = Some (v, rest)
  /\ 10 ∉ escape_label v.
Proof.
  split; [|split; [apply read_escaped | apply escape_no_newline]].
  induction v as [|c v IH]; [done|]. change (c :: v) with ([c] ++ v) at 1.
  by rewrite cert_escape_app, cert_escape_char, IH.
Qed.

(** ** Consumers *)

(** A lookup gives a series that exists, a known caller its own; named series stay within the cap. *)
Definition consumers_ok (cap : nat) (m : gmap bytes ConsumerStats) : Prop := (named m <= cap)%nat.

Lemma named_insert k c m : m !! k = None ->
  named (<[k := c]> m) = if bool_decide (k <> ANON_CONSUMER /\ k <> LLM_MODEL_OVERFLOW) then S (named m) else named m.
Proof.
  intros Hk. unfold named. case_bool_decide as Hn.
  - rewrite map_filter_insert_True by done. rewrite map_size_insert_None; [done|].
    apply map_lookup_filter_None. by left.
  - rewrite map_filter_insert_False by done. by rewrite delete_id.
Qed.

Lemma consumer_stats_ok cap principal m : consumers_ok cap m ->
  let '(found, m') := consumer_stats cap principal m in
  consumers_ok cap m'
  /\ match found with
     | None => cap = 0%nat
     | Some k => is_Some (m' !! k)
                 /\ (k = default ANON_CONSUMER principal \/ k = LLM_MODEL_OVERFLOW /\ (named m = cap)%nat)
     end.
Proof.
  unfold consumers_ok, consumer_stats. intros Hm. destruct (Nat.eqb_spec cap 0) as [->|Hc]; [done|].
  set (key := default ANON_CONSUMER principal). clearbody key.
  destruct (m !! key) as [s|] eqn:Hk; [split_and!; eauto|].
  destruct (beq key ANON_CONSUMER) eqn:Ha; cbn [negb andb orb].
  - unfold entry_or_default. rewrite Hk. split; [|split; [by rewrite lookup_insert_eq; eauto | by left]].
    apply beq_true in Ha as ->. rewrite named_insert by done. by rewrite bool_decide_eq_false_2 by naive_solver.
  - destruct (Nat.leb_spec cap (named m)) as [Hfull|Hroom]; cbn [andb].
    + destruct (m !! LLM_MODEL_OVERFLOW) as [o|] eqn:Ho; [split_and!; eauto; right; split; [done | lia]|].
      destruct (Nat.ltb_spec (named m) cap); [lia|]. unfold entry_or_default. rewrite Ho.
      split; [|split; [by rewrite lookup_insert_eq; eauto | right; split; [done | lia]]].
      rewrite named_insert by done. by rewrite bool_decide_eq_false_2 by naive_solver.
    + destruct (Nat.ltb_spec (named m) cap); [|lia]. unfold entry_or_default. rewrite Hk.
      split; [|split; [by rewrite lookup_insert_eq; eauto | by left]].
      rewrite named_insert by done. case_bool_decide; lia.
Qed.

(** ** Histograms *)

Definition within (b : f64) (ds : list Duration) : Z :=
  Z.of_nat (length (List.filter (fun d => f64_leb (as_secs_f64 d) b) ds)).

(** Each bucket is the number of observations at or below its bound. *)
Lemma buckets_count bounds ds :
  let h := fold_left (observe_hist_in bounds) ds (hist_new bounds) in
  buckets h = map (fun b => wrap 64 (within b ds)) bounds /\ h_count h = wrap 64 (Z.of_nat (length ds)).
Proof.
  induction ds as [|d ds IH] using rev_ind; cbn zeta in *; [by split; [apply map_ext; intros; vm_compute|]|].
  rewrite fold_left_app. cbn [fold_left]. destruct IH as [Hb Hc].
  set (h := fold_left _ ds _) in *. clearbody h. unfold observe_hist_in. cbn [buckets h_count].
  rewrite Hb, Hc. split.
  - clear. induction bounds as [|b bounds IH]; cbn [map zip_with]; [done|]. f_equal; [|exact IH].
    unfold within, fetch_add. rewrite List.filter_app, length_app. cbn [List.filter].
    destruct (f64_leb (as_secs_f64 d) b); cbn [length]; [|by rewrite Nat.add_0_r].
    unfold wrap. rewrite Zplus_mod_idemp_l. by rewrite Nat2Z.inj_add.
  - rewrite length_app. unfold fetch_add, wrap. by rewrite Zplus_mod_idemp_l, Nat2Z.inj_add.
Qed.

(** ** Usage *)

Lemma drain_usage_spec u : (forall f, (drain_usage u).1 f = u f) /\ (forall f, (drain_usage u).2 f = 0).
Proof. split; intros []; reflexivity. Qed.

Lemma restore_usage_spec d u f : restore_usage d u f = fetch_add (u f) (d f).
Proof. by destruct f. Qed.
