(* ===== verification/CspSink.v ===== *)
(** * CspSink: the public sink for browsers' CSP reports ([src/src/csp_sink.rs])

    Anyone may post a report: each client address has a budget, a body that is not a report is dropped, and
    reports are folded by directive and blocked URI until the next flush ([flush_csp] of [cp.rs]).
    [csp_report] is the handler of [proxy.rs].  The keyed limiter is [governor]'s, an interface here. *)

From Stdlib Require Import Permutation.
From S2P Require Import Prelude Text Utf8 Net Units Float Json Privacy Http Access Forwarding.

Definition PER_CLIENT_PER_MINUTE : Z := 120.
Definition PER_CLIENT_BURST : Z := 60.
Definition MAX_PENDING : nat := 64.
Definition MAX_FIELD : nat := 256.
Definition MAX_TRACKED_CLIENTS : N := 10000.
Definition PRUNE_INTERVAL : Z := 10000.                 (** milliseconds *)
Definition HARD_CAP_CLIENTS : N := 100000.
Definition MAX_COUNT_PER_PAIR : Z := 10000.

(** ** Reading a report *)

Record CspViolation : Type := mkViolation { directive : bytes; blocked_uri : bytes; document_uri : bytes }.

(** [s.split(['?', '#']).next()]. *)
Fixpoint without_query (s : bytes) : bytes :=
  match s with
  | [] => []
  | c :: s => if (c =? 63) || (c =? 35) then [] else c :: without_query s
  end.

Definition clamp (s : bytes) : bytes :=
  if (length s <=? MAX_FIELD)%nat then s else take (boundary_at_or_before s MAX_FIELD) s.

(** [from_slice] is [serde_json]'s. *)
Definition parse_report (from_slice : bytes -> option Json) (body : bytes) : option CspViolation :=
  value ← from_slice body;
  report ← as_object (default value (member (lit "csp-report") value));
  let text key := find_member key report ≫= as_str in
  d ← match text (lit "violated-directive") with Some d => Some d | None => text (lit "effective-directive") end;
  if beq (trim d) [] then None
  else Some (mkViolation (clamp (trim d)) (clamp (without_query (default [] (text (lit "blocked-uri")))))
               (clamp (without_query (default [] (text (lit "document-uri")))))).

Inductive CspDrop : Type := RateLimited | InvalidBody | Overflowed.

#[global] Instance CspDrop_eq_dec : EqDecision CspDrop.
Proof. solve_decision. Defined.

Definition CspDrop_ALL : list CspDrop := [RateLimited; InvalidBody; Overflowed].

Definition CspDrop_label (d : CspDrop) : bytes :=
  match d with RateLimited => lit "rate_limited" | InvalidBody => lit "invalid" | Overflowed => lit "overflow" end.

Inductive Fold : Type := Added | Counted | Overflow.

#[global] Instance Fold_eq_dec : EqDecision Fold.
Proof. solve_decision. Defined.

(** ** The sink *)

(** [governor]'s keyed limiter: the addresses it tracks, a check that may add one, and the prune. *)
Class KeyedLimiter (L : Type) : Type := {
  tracked : L -> N;
  check_key : Z -> L -> IpAddr -> bool * L;
  retain_recent : Z -> L -> L
}.

Class KeyedLimiterLaws (L : Type) `{KeyedLimiter L} : Prop := {
  check_adds_one : forall now l ip, (tracked (check_key now l ip).2 <= tracked l + 1)%N;
  retain_adds_none : forall now l, (tracked (retain_recent now l) <= tracked l)%N
}.

Abbreviation Pending := (gmap (bytes * bytes) (bytes * Z)).

Section Sink.
Context {L : Type} `{KeyedLimiter L}.

Record CspSink : Type := mkSink { limiter : L; pending : Pending; last_prune_ms : Z }.

(** [now]: milliseconds since the sink was made.  Of several requests at the interval, the one whose
    [compare_exchange] wins prunes. *)
Definition maybe_prune (now : Z) (s : CspSink) : CspSink :=
  if sat_sub now (last_prune_ms s) <? PRUNE_INTERVAL then s
  else mkSink (retain_recent now (limiter s)) (pending s) now.

Definition admit_client (now : Z) (client : IpAddr) (s : CspSink) : bool * CspSink :=
  let checked s :=
    let '(ok, l) := check_key now (limiter s) client in (ok, mkSink l (pending s) (last_prune_ms s)) in
  if (MAX_TRACKED_CLIENTS <? tracked (limiter s))%N then
    let s := maybe_prune now s in
    if (HARD_CAP_CLIENTS <=? tracked (limiter s))%N then (false, s) else checked s
  else checked s.

Definition queue (v : CspViolation) (p : Pending) : Fold * Pending :=
  let key := (directive v, blocked_uri v) in
  match p !! key with
  | Some (doc, count) =>
      if MAX_COUNT_PER_PAIR <=? count then (Overflow, p) else (Counted, <[key := (doc, count + 1)]> p)
  | None =>
      if (MAX_PENDING <=? size p)%nat then (Overflow, p) else (Added, <[key := (document_uri v, 1)]> p)
  end.

(** [take]: the order is the map's. *)
Definition take_pending (p : Pending) : list (CspViolation * Z) * Pending :=
  (map (fun '((d, b), (doc, count)) => (mkViolation d b doc, count)) (map_to_list p), ∅).

(** ** The handler and the flush *)

Record CspMetrics : Type := mkCspMetrics {
  csp_reports : Z; csp_dropped : CspDrop -> Z; csp_forwarded : Z; csp_forward_failed : Z
}.

Definition record_csp_report (m : CspMetrics) : CspMetrics :=
  mkCspMetrics (wrap 64 (csp_reports m + 1)) (csp_dropped m) (csp_forwarded m) (csp_forward_failed m).
Definition record_csp_dropped (r : CspDrop) (m : CspMetrics) : CspMetrics :=
  mkCspMetrics (csp_reports m)
    (fun r' => if bool_decide (r' = r) then wrap 64 (csp_dropped m r' + 1) else csp_dropped m r')
    (csp_forwarded m) (csp_forward_failed m).
Definition record_csp_forwarded (ok : bool) (m : CspMetrics) : CspMetrics :=
  mkCspMetrics (csp_reports m) (csp_dropped m)
    (if ok then wrap 64 (csp_forwarded m + 1) else csp_forwarded m)
    (if ok then csp_forward_failed m else wrap 64 (csp_forward_failed m + 1)).

Record CspState : Type := mkCspState { sink : CspSink; csp_metrics : CspMetrics }.

Variable from_slice : bytes -> option Json.

(** [forwarding]: there is a control plane, and [control_plane.forward_csp]. *)
Definition csp_report (forwarding : bool) (f : Forwarders) (now : Z) (peer : SocketAddr) (tcp_peer : option SocketAddr)
    (h : Headers) (body : bytes) (s : CspState) : Z * CspState :=
  let m := record_csp_report (csp_metrics s) in
  let hop := sa_ip (default peer tcp_peer) in
  let '(client, _) := resolve f h peer hop in
  let '(ok, k) := admit_client now client (sink s) in
  if negb ok then (429, mkCspState k (record_csp_dropped RateLimited m))
  else match parse_report from_slice body with
  | None => (204, mkCspState k (record_csp_dropped InvalidBody m))
  | Some v =>
      if forwarding then
        let '(fold, p) := queue v (pending k) in
        (204, mkCspState (mkSink (limiter k) p (last_prune_ms k))
                (if bool_decide (fold = Overflow) then record_csp_dropped Overflowed m else m))
      else (204, mkCspState k m)
  end.

(** [flush_csp] of [cp.rs]: one request for each pair; [accepts] says which the control plane takes. *)
Definition flush_csp (accepts : CspViolation * Z -> bool) (s : CspState) : list (CspViolation * Z) * CspState :=
  let '(batch, p) := take_pending (pending (sink s)) in
  (batch, mkCspState (mkSink (limiter (sink s)) p (last_prune_ms (sink s)))
            (fold_left (fun m b => record_csp_forwarded (accepts b) m) batch (csp_metrics s))).
End Sink.
Arguments CspSink : clear implicits.
Arguments CspState : clear implicits.

(** ** Laws: whatever is posted at the sink, what leaves it is bounded and accounted for *)

(** ** What is kept of a report *)

Lemma without_query_clean s : 63 ∉ without_query s /\ 35 ∉ without_query s.
Proof.
  induction s as [|c s [IH1 IH2]]; cbn [without_query]; [set_solver|].
  destruct (Z.eqb_spec c 63), (Z.eqb_spec c 35); cbn [orb]; set_solver.
Qed.

Lemma clamp_prefix s : exists n, clamp s = take n s /\ (length (clamp s) <= MAX_FIELD)%nat.
Proof.
  unfold clamp. destruct (Nat.leb_spec (length s) MAX_FIELD) as [Hle|Hgt].
  - exists (length s). by rewrite firstn_all.
  - exists (boundary_at_or_before s MAX_FIELD). split; [done|]. rewrite length_take.
    destruct (cut_at_boundary s MAX_FIELD). lia.
Qed.

Lemma clamp_clean s c : c ∉ s -> c ∉ clamp s.
Proof. intros Hc. destruct (clamp_prefix s) as (n & -> & _). intros (i & Hi & _)%elem_of_take. apply Hc. by eapply list_elem_of_lookup_2. Qed.

(** Neither the query nor the fragment of a page is kept, and no field is over its size. *)
Lemma kept_fields from_slice body v : parse_report from_slice body = Some v ->
  63 ∉ blocked_uri v /\ 35 ∉ blocked_uri v /\ 63 ∉ document_uri v /\ 35 ∉ document_uri v
  /\ (length (directive v) <= MAX_FIELD)%nat /\ (length (blocked_uri v) <= MAX_FIELD)%nat
  /\ (length (document_uri v) <= MAX_FIELD)%nat.
Proof.
  unfold parse_report. destruct (from_slice body) as [j|]; [|done]. cbn.
  destruct (as_object _) as [ms|]; [|done]. cbn.
  destruct (match _ with Some _ => _ | None => _ end) as [d|]; [|done]. cbn.
  destruct (beq (trim d) []); [done|]. intros [= <-]. cbn.
  split_and!; try (apply clamp_clean; apply without_query_clean);
    edestruct clamp_prefix as (n & _ & Hl); exact Hl.
Qed.

(** ** Counting *)

Definition counts (l : list ((bytes * bytes) * (bytes * Z))) : Z := fold_right (fun e z => e.2.2 + z) 0 l.
Definition waiting (p : Pending) : Z := counts (map_to_list p).

#[global] Instance counts_perm : Proper (Permutation ==> eq) counts.
Proof. unfold counts. induction 1 as [|x l k _ IH|x y l|l k m _ IH1 _ IH2]; cbn; lia. Qed.

Lemma waiting_fresh k v p : p !! k = None -> waiting (<[k := v]> p) = v.2 + waiting p.
Proof. intros Hk. unfold waiting. by rewrite map_to_list_insert. Qed.

Lemma waiting_update k v w p : p !! k = Some w -> waiting (<[k := v]> p) = v.2 + waiting p - w.2.
Proof.
  intros Hk. rewrite <- insert_delete_eq, waiting_fresh by apply lookup_delete_eq.
  assert (waiting p = w.2 + waiting (delete k p)) as ->; [|lia].
  rewrite <- (waiting_fresh k) by apply lookup_delete_eq. by rewrite insert_delete_id.
Qed.

Definition folded_ok (p : Pending) : Prop :=
  (size p <= MAX_PENDING)%nat /\ map_Forall (fun _ e => 1 <= e.2 <= MAX_COUNT_PER_PAIR) p.

Lemma queue_ok v p : folded_ok p ->
  folded_ok (queue v p).2
  /\ waiting (queue v p).2 = waiting p + if bool_decide ((queue v p).1 = Overflow) then 0 else 1.
Proof.
  intros [Hs Hc]. unfold queue. destruct (p !! _) as [[doc n]|] eqn:Hk.
  - pose proof (map_Forall_lookup_1 _ _ _ _ Hc Hk) as Hn. cbn in Hn.
    destruct (Z.leb_spec MAX_COUNT_PER_PAIR n) as [Hm|Hm]; cbn [fst snd].
    + rewrite bool_decide_eq_true_2 by done. split; [done | lia].
    + rewrite bool_decide_eq_false_2 by done. split; [split|].
      * rewrite map_size_insert_Some by (by eexists). done.
      * apply map_Forall_insert_2; [cbn; lia | done].
      * rewrite (waiting_update _ _ _ _ Hk). cbn. lia.
  - destruct (Nat.leb_spec MAX_PENDING (size p)) as [Hm|Hm]; cbn [fst snd].
    + rewrite bool_decide_eq_true_2 by done. split; [done | lia].
    + rewrite bool_decide_eq_false_2 by done. split; [split|].
      * rewrite map_size_insert_None by done. lia.
      * apply map_Forall_insert_2; [unfold MAX_COUNT_PER_PAIR; cbn; lia | done].
      * rewrite waiting_fresh by done. cbn. lia.
Qed.

Lemma take_pending_counts p :
  fold_right (fun b z => b.2 + z) 0 (take_pending p).1 = waiting p
  /\ length (take_pending p).1 = size p.
Proof.
  unfold take_pending, waiting. cbn [fst]. rewrite length_map, length_map_to_list. split; [|done].
  induction (map_to_list p) as [|[[d b] [doc n]] l IH]; cbn; [done|]. by rewrite IH.
Qed.

(** ** Runs *)

Section Runs.
Context {L : Type} `{KeyedLimiterLaws L}.
Variable from_slice : bytes -> option Json.
Variable f : Forwarders.

Inductive SinkEvent : Type :=
| Report (now : Z) (peer : SocketAddr) (tcp_peer : option SocketAddr) (h : Headers) (body : bytes)
| Flush (accepts : CspViolation * Z -> bool).

(** The sink after an event, and the batches sent so far. *)
Definition sink_step (sl : CspState L * list (list (CspViolation * Z))) (e : SinkEvent) :=
  let '(s, sent) := sl in
  match e with
  | Report now peer tcp h body => ((csp_report from_slice true f now peer tcp h body s).2, sent)
  | Flush accepts => let '(batch, s) := flush_csp accepts s in (s, sent ++ [batch])
  end.

Definition run (s0 : CspState L) (es : list SinkEvent) := fold_left sink_step es (s0, []).

Definition batch_total (b : list (CspViolation * Z)) : Z := fold_right (fun e z => e.2 + z) 0 b.
Definition flushed_total (bs : list (list (CspViolation * Z))) : Z := fold_right (fun b z => batch_total b + z) 0 bs.
Definition dropped_total (m : CspMetrics) : Z :=
  csp_dropped m RateLimited + csp_dropped m InvalidBody + csp_dropped m Overflowed.

Record sink_ok (s : CspState L) (sent : list (list (CspViolation * Z))) : Prop := {
  so_pending : folded_ok (pending (sink s));
  so_tracked : (tracked (limiter (sink s)) <= HARD_CAP_CLIENTS)%N;
  so_batches : Forall (fun b => length b <= MAX_PENDING)%nat sent;
  so_total : csp_reports (csp_metrics s)
             = wrap 64 (dropped_total (csp_metrics s) + waiting (pending (sink s)) + flushed_total sent)
}.

Lemma flushed_total_app bs b : flushed_total (bs ++ [b]) = flushed_total bs + batch_total b.
Proof. unfold flushed_total. induction bs as [|c bs IH]; cbn; [lia|]. rewrite IH. lia. Qed.

Lemma admit_client_ok now ip k : (tracked (limiter k) <= HARD_CAP_CLIENTS)%N ->
  (tracked (limiter (admit_client now ip k).2) <= HARD_CAP_CLIENTS)%N
  /\ pending (admit_client now ip k).2 = pending k.
Proof.
  intros Hb. unfold admit_client, maybe_prune.
  assert (Hcheck : forall s, (tracked (limiter s) < HARD_CAP_CLIENTS)%N ->
    (tracked (check_key now (limiter s) ip).2 <= HARD_CAP_CLIENTS)%N).
  { intros s Hs. pose proof (check_adds_one now (limiter s) ip). lia. }
  destruct (N.ltb_spec MAX_TRACKED_CLIENTS (tracked (limiter k))) as [Ht|Ht].
  - destruct (sat_sub now (last_prune_ms k) <? PRUNE_INTERVAL).
    + destruct (N.leb_spec HARD_CAP_CLIENTS (tracked (limiter k))); [done|].
      specialize (Hcheck k ltac:(lia)). by destruct (check_key now (limiter k) ip).
    + cbn [limiter]. pose proof (retain_adds_none now (limiter k)) as Hr.
      destruct (N.leb_spec HARD_CAP_CLIENTS (tracked (retain_recent now (limiter k)))); cbn; [split; [lia | done]|].
      specialize (Hcheck (mkSink (retain_recent now (limiter k)) (pending k) now) ltac:(cbn; lia)). cbn in Hcheck.
      by destruct (check_key now (retain_recent now (limiter k)) ip).
  - specialize (Hcheck k). unfold MAX_TRACKED_CLIENTS, HARD_CAP_CLIENTS in *. specialize (Hcheck ltac:(lia)).
    by destruct (check_key now (limiter k) ip).
Qed.

Ltac wrap_lia := unfold wrap in *; change (2 ^ 64) with 18446744073709551616 in *; Z.div_mod_to_equations; lia.

Lemma dropped_total_record r m z :
  wrap 64 (dropped_total (record_csp_dropped r m) + z) = wrap 64 (dropped_total m + z + 1).
Proof.
  unfold dropped_total, record_csp_dropped. cbn [csp_dropped].
  destruct r; repeat case_bool_decide; try done; wrap_lia.
Qed.

Lemma csp_report_ok now peer tcp h body s sent : sink_ok s sent ->
  sink_ok (csp_report from_slice true f now peer tcp h body s).2 sent.
Proof.
  intros [Hp Ht Hb Htot]. unfold csp_report. destruct (resolve _ _ _ _) as [client ff].
  destruct (admit_client_ok now client (sink s) Ht) as [Ht' Hp'].
  destruct (admit_client now client (sink s)) as [ok k]. cbn [snd fst] in *.
  assert (Hadd : forall r, wrap 64 (csp_reports (csp_metrics s) + 1)
    = wrap 64 (dropped_total (record_csp_dropped r (record_csp_report (csp_metrics s)))
               + waiting (pending k) + flushed_total sent)).
  { intros r. rewrite <- Z.add_assoc, dropped_total_record, Hp', Htot. unfold dropped_total. cbn. wrap_lia. }
  destruct ok; cbn [negb].
  2:{ split; cbn [snd sink csp_metrics]; try done; try apply Hadd. by rewrite Hp'. }
  destruct (parse_report from_slice body) as [v|].
  2:{ split; cbn [snd sink csp_metrics]; try done; try apply Hadd. by rewrite Hp'. }
  destruct (queue_ok v (pending k)) as [Hq Hw]; [by rewrite Hp'|].
  destruct (queue v (pending k)) as [fold p]. cbn [fst snd] in *.
  split; cbn [snd sink csp_metrics pending limiter]; try done.
  case_bool_decide; rewrite Hw.
  - rewrite Z.add_0_r. apply Hadd.
  - cbn. rewrite Htot, Hp'. unfold dropped_total. cbn. wrap_lia.
Qed.

Lemma forwarded_counts (accepts : CspViolation * Z -> bool) batch m :
  let m' := fold_left (fun m b => record_csp_forwarded (accepts b) m) batch m in
  csp_reports m' = csp_reports m /\ dropped_total m' = dropped_total m.
Proof. revert m. induction batch as [|b batch IH]; intros m; [done|].
  exact (IH (record_csp_forwarded (accepts b) m)).
Qed.

Lemma flush_csp_ok accepts s sent : sink_ok s sent ->
  sink_ok (flush_csp accepts s).2 (sent ++ [(flush_csp accepts s).1]).
Proof.
  intros [[Hs Hc] Ht Hb Htot]. unfold flush_csp.
  destruct (take_pending_counts (pending (sink s))) as [Hw Hl]. unfold take_pending in *. cbn [fst snd] in *.
  set (batch := map _ (map_to_list (pending (sink s)))) in *. clearbody batch.
  destruct (forwarded_counts accepts batch (csp_metrics s)) as [Hr Hd].
  split; cbn [sink pending limiter csp_metrics].
  - split; [rewrite map_size_empty; unfold MAX_PENDING; lia | apply map_Forall_empty].
  - done.
  - apply Forall_app. split; [done|]. apply Forall_singleton. lia.
  - rewrite Hr, Hd, Htot, flushed_total_app. unfold batch_total at 1. rewrite Hw.
    unfold waiting at 2. rewrite map_to_list_empty. cbn [counts fold_right]. f_equal. lia.
Qed.

(** Whatever is posted at the sink, and however often it is flushed: at most [MAX_PENDING] requests go to the
    control plane per flush, each standing for at most [MAX_COUNT_PER_PAIR] reports, the limiter tracks at
    most [HARD_CAP_CLIENTS] addresses, and every report received is counted once, as dropped for one reason,
    waiting, or sent. *)
Theorem sink_bounded_and_counted s0 es : sink_ok s0 [] -> sink_ok (run s0 es).1 (run s0 es).2.
Proof.
  unfold run. generalize ([] : list (list (CspViolation * Z))) as sent. revert s0.
  induction es as [|e es IH]; intros s sent Hok; [done|]. cbn [fold_left].
  destruct e as [now peer tcp h body|accepts]; cbn [sink_step].
  - apply IH. by apply csp_report_ok.
  - pose proof (flush_csp_ok accepts s sent Hok) as Hf. destruct (flush_csp accepts s) as [batch s'].
    by apply IH.
Qed.
End Runs.

(** ** A run *)

#[global] Instance unlimited : KeyedLimiter N := {
  tracked n := n; check_key _ n _ := (true, (n + 1)%N); retain_recent _ _ := 0%N
}.
#[global] Instance unlimited_laws : KeyedLimiterLaws N.
Proof. split; intros; cbn; lia. Qed.

Definition sample_report (body : bytes) : option Json :=
  if beq body (lit "x") then None
  else Some (JObj [(lit "csp-report", JObj [(lit "violated-directive", JStr (lit " img-src "));
                                            (lit "blocked-uri", JStr (body ++ lit "?v=1"))])]).

Definition sample_sink : CspState N :=
  mkCspState (mkSink 0%N ∅ 0) (mkCspMetrics 0 (fun _ => 0) 0 0).

Definition sample_run :=
  run (L := N) sample_report (mkForwarders false (Count 1) []) sample_sink
    (let r b := Report 1 (mkSocketAddr (V4 1) 80) None [] b in
     [r (lit "a"); r (lit "x"); r (lit "b"); r (lit "a"); Flush (fun _ => true); r (lit "c")]).

Lemma sink_bounded_and_counted_witness :
  map (map snd) sample_run.2 = [[1; 2]] /\ csp_reports (csp_metrics sample_run.1) = 5
  /\ sink_ok sample_run.1 sample_run.2.
Proof.
  split; [vm_compute; reflexivity|]. split; [vm_compute; reflexivity|].
  apply (sink_bounded_and_counted (L := N)). split; [|vm_compute; done|constructor|vm_compute; reflexivity].
  split; [vm_compute; lia | apply map_Forall_empty].
Defined.
