(* ===== verification/MaskLaws.v ===== *)
(** * MaskLaws: reversible masking gives every caller its own values back ([src/src/dlp.rs])

    What [unmask] computes, character by character; a text body without a placeholder of its own, masked on the way in and unmasked on the way
    out, is the body; and unmasking a stream frame by frame is unmasking it whole, wherever the frames are
    cut. *)

From S2P Require Import Prelude Text Utf8 Float Http Dlp DlpLaws.

(** ** What [unmask] computes *)

Lemma prefix_no_lt : exists r, MASK_PREFIX = 60 :: r /\ 60 ∉ r /\ 62 ∉ MASK_PREFIX.
Proof. exists (lit "edgeguard-"). split; [done|]. split; apply (bool_decide_unpack _); vm_compute; exact I. Qed.

Lemma prefix_length : length MASK_PREFIX = 11%nat.
Proof. done. Qed.

#[local] Opaque MASK_PREFIX.

Lemma find_sub_le p s i : find_sub p s = Some i -> (i + length p <= length s)%nat /\ exists r, drop i s = p ++ r.
Proof.
  revert i. induction s as [|c s IH]; intros i; cbn [find_sub].
  - destruct (starts_with [] p) eqn:E; [|done]. intros [= <-]. apply starts_with_true in E as [r E].
    split; [|by exists r]. rewrite E, length_app. lia.
  - destruct (starts_with (c :: s) p) eqn:E.
    + intros [= <-]. apply starts_with_true in E as [r E]. split; [|by exists r]. rewrite E, length_app. lia.
    + destruct (find_sub p s) as [j|]; [|done]. intros [= <-]. destruct (IH j eq_refl). simpl. split; [lia | done].
Qed.

Section Unmask.
Variable m : MaskMap.

Lemma unmask_go_S fuel rest : unmask_go m (S fuel) rest =
  match find_sub MASK_PREFIX rest with
  | None => rest
  | Some st =>
      take st rest ++
      match find_sub [MASK_SUFFIX] (drop st rest) with
      | Some e =>
          default (take (S e) (drop st rest)) (to_original m !! take (S e) (drop st rest))
          ++ unmask_go m fuel (drop (S e) (drop st rest))
      | None => drop st rest
      end
  end.
Proof. done. Qed.

(** More fuel than bytes changes nothing. *)
Lemma unmask_go_fuel fuel s : (length s <= fuel)%nat -> unmask_go m fuel s = unmask_go m (length s) s.
Proof.
  assert (H : forall n s f1 f2, (length s <= n)%nat -> (length s <= f1)%nat -> (length s <= f2)%nat ->
            unmask_go m f1 s = unmask_go m f2 s); [|intros; by eapply H].
  clear. induction n as [|n IH]; intros s f1 f2 Hn H1 H2.
  - destruct s; [|simpl in Hn; lia]. by destruct f1, f2.
  - destruct s as [|c s]; [by destruct f1, f2|]. destruct f1 as [|f1]; [simpl in H1; lia|]. destruct f2 as [|f2]; [simpl in H2; lia|].
    cbn [unmask_go]. destruct (find_sub MASK_PREFIX (c :: s)) as [st|] eqn:E; [|done]. f_equal.
    destruct (find_sub [MASK_SUFFIX] (drop st (c :: s))) as [e|] eqn:Ee; [|done]. f_equal.
    apply IH; rewrite !length_drop; simpl in *; lia.
Qed.

Definition unmask_all (s : bytes) : bytes := unmask_go m (length s) s.

Lemma unmask_all_none s : find_sub MASK_PREFIX s = None -> unmask_all s = s.
Proof. intros H. unfold unmask_all. destruct (length s); cbn [unmask_go]; [done|]. by rewrite H. Qed.

(** A byte that starts no token passes. *)
Lemma unmask_all_byte c s : starts_with (c :: s) MASK_PREFIX = false -> unmask_all (c :: s) = c :: unmask_all s.
Proof.
  intros H. unfold unmask_all at 1. cbn [length]. rewrite unmask_go_S, (find_sub_cons _ _ _ H).
  destruct (find_sub MASK_PREFIX s) as [st|] eqn:E; [|by rewrite unmask_all_none].
  unfold unmask_all. destruct s as [|d s]; [apply find_sub_le in E as [E _]; rewrite prefix_length in E; simpl in E; lia|]. cbn [length].
  rewrite (unmask_go_S (length s)), E.
  cbn [take drop app]. f_equal. f_equal. destruct (find_sub [MASK_SUFFIX] _) as [e|]; [|done]. f_equal.
  rewrite unmask_go_fuel by (rewrite !length_drop; simpl; lia). symmetry.
  apply unmask_go_fuel. rewrite !length_drop. simpl. lia.
Qed.

(** A token is replaced by its original, or kept. *)
Lemma unmask_all_token body r : 62 ∉ body ->
  unmask_all (MASK_PREFIX ++ body ++ 62 :: r)
  = default (MASK_PREFIX ++ body ++ [62]) (to_original m !! (MASK_PREFIX ++ body ++ [62])) ++ unmask_all r.
Proof.
  intros Hb. destruct prefix_no_lt as (_ & _ & _ & Hp).
  assert (Hf : find_sub MASK_PREFIX (MASK_PREFIX ++ body ++ 62 :: r) = Some 0%nat)
    by (apply find_sub_starts, starts_with_true; eauto).
  assert (Hg : find_sub [MASK_SUFFIX] (MASK_PREFIX ++ body ++ 62 :: r) = Some (length (MASK_PREFIX ++ body))).
  { rewrite app_assoc. apply find_sub_byte. rewrite elem_of_app. tauto. }
  unfold unmask_all at 1. remember (MASK_PREFIX ++ body ++ 62 :: r) as s eqn:E.
  assert (Hl : length s = S (length (MASK_PREFIX ++ body) + length r)) by (rewrite E, !length_app; simpl; lia).
  rewrite Hl, unmask_go_S, Hf, drop_0, Hg.
  assert (Ht : s = (MASK_PREFIX ++ body ++ [62]) ++ r) by (by rewrite E, <- !app_assoc).
  assert (Hn : S (length (MASK_PREFIX ++ body)) = length (MASK_PREFIX ++ body ++ [62])) by (rewrite !length_app; simpl; lia).
  rewrite Hn, Ht, take_app_length, drop_app_length, unmask_go_fuel by lia. done.
Qed.

Lemma unmask_all_empty s : to_original m = ∅ -> unmask_all s = s.
Proof.
  intros He. unfold unmask_all. generalize (length s) as fuel. intros fuel. revert s.
  induction fuel as [|fuel IH]; intros s; cbn [unmask_go]; [done|].
  destruct (find_sub MASK_PREFIX s) as [st|]; [|done].
  destruct (find_sub [MASK_SUFFIX] (drop st s)) as [e|]; [|apply take_drop].
  rewrite He, lookup_empty. cbn [default from_option]. rewrite IH. by rewrite !take_drop.
Qed.

Lemma unmask_eq s : unmask m s = unmask_all s.
Proof.
  unfold unmask. destruct (is_empty m) eqn:E.
  - apply bool_decide_eq_true in E. by rewrite unmask_all_empty.
  - cbn [orb]. destruct (find_sub MASK_PREFIX s) eqn:Ef; [done|]. by rewrite unmask_all_none.
Qed.
End Unmask.

(** ** Texts whose tokens are closed *)

(** Every [<edgeguard-] of the text starts a token: it is closed by the next [>], within
    [MAX_PLACEHOLDER_BYTES], with no other [<] before. *)
Definition token_closed_at (s : bytes) : bool :=
  if starts_with s MASK_PREFIX then
    let r := drop (length MASK_PREFIX) s in
    match find_sub [MASK_SUFFIX] r with
    | Some k => negb (existsb (Z.eqb 60) (take k r)) && (length MASK_PREFIX + k <=? MAX_PLACEHOLDER_BYTES)%nat
    | None => false
    end
  else true.

Fixpoint tokens_closed (s : bytes) : bool :=
  token_closed_at s && match s with [] => true | _ :: s' => tokens_closed s' end.

Lemma find_sub_byte_Some c s k : find_sub [c] s = Some k -> exists a r, s = a ++ c :: r /\ c ∉ a /\ length a = k.
Proof.
  intros H. destruct (decide (c ∈ s)) as [Hin|Hin].
  - apply list_elem_of_split_l in Hin as (a & r & -> & Ha). rewrite find_sub_byte in H by done.
    injection H as <-. by exists a, r.
  - apply find_sub_byte_none in Hin. congruence.
Qed.

Lemma existsb_60 s : existsb (Z.eqb 60) s = false <-> 60 ∉ s.
Proof.
  rewrite <- not_true_iff_false, existsb_exists. setoid_rewrite <- list_elem_of_In. setoid_rewrite Z.eqb_eq. naive_solver.
Qed.

Lemma token_closed_at_spec s r : token_closed_at s = true -> s = MASK_PREFIX ++ r ->
  exists body rest, r = body ++ 62 :: rest /\ 60 ∉ body /\ 62 ∉ body
    /\ (length MASK_PREFIX + length body <= MAX_PLACEHOLDER_BYTES)%nat.
Proof.
  intros H ->. unfold token_closed_at in H. rewrite (proj2 (starts_with_true _ _)) in H by eauto.
  rewrite drop_app_length in H. destruct (find_sub [MASK_SUFFIX] r) as [k|] eqn:E; [|done].
  apply find_sub_byte_Some in E as (a & q & -> & Ha & <-). rewrite take_app_length in H.
  apply andb_true_iff in H as [H1%negb_true_iff H2%Nat.leb_le]. apply existsb_60 in H1. by exists a, q.
Qed.

(** The occurrences of the prefix that are in the text are tokens of it. *)
Lemma tokens_closed_at s i r : tokens_closed s = true -> drop i s = MASK_PREFIX ++ r ->
  exists body rest, r = body ++ 62 :: rest /\ 60 ∉ body /\ 62 ∉ body
    /\ (length MASK_PREFIX + length body <= MAX_PLACEHOLDER_BYTES)%nat.
Proof.
  revert i. induction s as [|c s IH]; intros i H Hd; cbn [tokens_closed] in H; apply andb_true_iff in H as [H1 H2].
  - rewrite drop_nil in Hd. by apply (token_closed_at_spec []).
  - destruct i as [|i]; [by apply (token_closed_at_spec (c :: s)) | by apply (IH i)].
Qed.

Lemma tokens_closed_intro s :
  (forall i r, (i <= length s)%nat -> drop i s = MASK_PREFIX ++ r ->
     exists body rest, r = body ++ 62 :: rest /\ 60 ∉ body /\ 62 ∉ body
       /\ (length MASK_PREFIX + length body <= MAX_PLACEHOLDER_BYTES)%nat) ->
  tokens_closed s = true.
Proof.
  assert (Hat : forall s, (forall r, s = MASK_PREFIX ++ r -> exists body rest, r = body ++ 62 :: rest /\ 60 ∉ body
            /\ 62 ∉ body /\ (length MASK_PREFIX + length body <= MAX_PLACEHOLDER_BYTES)%nat) -> token_closed_at s = true).
  { clear s. intros s H. unfold token_closed_at. destruct (starts_with s MASK_PREFIX) eqn:E; [|done].
    apply starts_with_true in E as [r E]. destruct (H r E) as (body & rest & -> & H60 & H62 & Hl). subst s.
    rewrite drop_app_length. unfold MASK_SUFFIX. rewrite find_sub_byte, take_app_length by done.
    apply existsb_60 in H60 as ->. by apply Nat.leb_le. }
  induction s as [|c s IH]; intros H; cbn [tokens_closed]; rewrite Hat.
  - done.
  - intros r Hr. apply (H 0%nat); [lia | done].
  - apply IH. intros i r Hi Hd. apply (H (S i)); [simpl; lia | done].
  - intros r Hr. apply (H 0%nat); [lia | done].
Qed.

Lemma tokens_closed_suffix a b : tokens_closed (a ++ b) = true -> tokens_closed b = true.
Proof.
  induction a as [|c a IH]; [done|]. cbn [app tokens_closed]. rewrite andb_true_iff. intros [_ H]. auto.
Qed.

(** ** Cutting a text between tokens *)

(** No token lies across the cut. *)
Definition cut_ok (a b : bytes) : Prop :=
  tokens_closed a = true
  /\ forall i r, (i < length a)%nat -> drop i (a ++ b) = MASK_PREFIX ++ r -> exists r', drop i a = MASK_PREFIX ++ r'.

Lemma cut_ok_suffix x a b : cut_ok (x ++ a) b -> cut_ok a b.
Proof.
  intros [Hc Hs]. split; [by eapply tokens_closed_suffix|]. intros i r Hi Hd.
  destruct (Hs (length x + i)%nat r) as [r' Hr'].
  - rewrite length_app. lia.
  - rewrite <- app_assoc, <- drop_drop, drop_app_length. done.
  - exists r'. by rewrite <- drop_drop, drop_app_length in Hr'.
Qed.

Lemma unmask_all_app m a b : cut_ok a b -> unmask_all m (a ++ b) = unmask_all m a ++ unmask_all m b.
Proof.
  remember (length a) as n eqn:Hn. revert a Hn. induction n as [n IH] using lt_wf_ind. intros a -> Hcut.
  destruct a as [|c a]; [done|]. destruct (starts_with ((c :: a) ++ b) MASK_PREFIX) eqn:E.
  - apply starts_with_true in E as [r E]. pose proof Hcut as [Hcl Hst].
    destruct (Hst 0%nat r) as [r' Hr']; [simpl; lia | done|]. rewrite drop_0 in Hr'.
    destruct (tokens_closed_at _ 0 r' Hcl Hr') as (body & rest & -> & _ & H62 & _).
    rewrite Hr' in *. rewrite <- !app_assoc. cbn [app]. rewrite !unmask_all_token by done. rewrite <- app_assoc. f_equal.
    apply (IH (length rest)); [rewrite !length_app, prefix_length; simpl; lia | done|].
    apply (cut_ok_suffix (MASK_PREFIX ++ body ++ [62])). by rewrite <- !app_assoc.
  - assert (E' : starts_with (c :: a) MASK_PREFIX = false).
    { destruct (starts_with (c :: a) MASK_PREFIX) eqn:E'; [|done]. apply starts_with_true in E' as [r E'].
      rewrite E', <- app_assoc in E. rewrite (proj2 (starts_with_true _ _)) in E by eauto. done. }
    cbn [app] in *. rewrite !unmask_all_byte by done. cbn [app]. f_equal.
    apply (IH (length a)); [simpl; lia | done|]. by apply (cut_ok_suffix [c]).
Qed.

(** No occurrence of the prefix lies across a [<]. *)
Lemma no_straddle_lt a c i r : (i < length a)%nat -> drop i (a ++ 60 :: c) = MASK_PREFIX ++ r ->
  exists r', drop i a = MASK_PREFIX ++ r'.
Proof.
  destruct prefix_no_lt as (p & Hp & Hp60 & _).
  intros Hi Hd. rewrite drop_app_le in Hd by lia. apply app_eq_inv in Hd as [(k & -> & _)|(k & Ek & E)]; [eauto|].
  destruct k as [|x k]; cbn [app] in E; [exists []; by rewrite !app_nil_r in *|]. injection E as <- _. exfalso.
  destruct (drop i a) as [|y d] eqn:Ed; [apply (f_equal length) in Ed; rewrite length_drop in Ed; simpl in Ed; lia|].
  rewrite Hp in Ek. injection Ek as _ ->. apply Hp60, elem_of_app. right. left.
Qed.

(** A text may be cut before a [<]. *)
Lemma cut_before_lt a c : tokens_closed (a ++ 60 :: c) = true -> cut_ok a (60 :: c).
Proof.
  intros Hcl. split.
  - apply tokens_closed_intro. intros i r Hi Hd.
    destruct (tokens_closed_at _ i (r ++ 60 :: c) Hcl) as (body & rest & E & H60 & H62 & Hl).
    { by rewrite drop_app_le, Hd, app_assoc by done. }
    apply app_eq_inv in E as [(k & -> & Ek)|(k & Ek & E)].
    + destruct k as [|x k]; cbn [app] in Ek; [by injection Ek|]. injection Ek as <- Ek. eauto 10.
    + destruct k as [|x k]; cbn [app] in E; [by injection E|]. injection E as <- _. subst body.
      exfalso. apply H60, elem_of_app. right. left.
  - intros i r. apply no_straddle_lt.
Qed.

Lemma partial_prefix_lt text n h : partial_prefix text n = Some h -> exists c, drop h text = 60 :: c.
Proof.
  destruct prefix_no_lt as (p & Hp & _). induction n as [|n IH]; cbn [partial_prefix]; [done|].
  destruct (_ && _) eqn:E; [|done]. intros [= <-]. rewrite !andb_true_iff in E. destruct E as [[E1%Nat.leb_le _] E2].
  apply starts_with_true in E2 as [r Er].
  destruct (drop (length text - S n) text) as [|x d] eqn:Ed.
  - apply (f_equal length) in Ed. rewrite length_drop in Ed. simpl in Ed. lia.
  - rewrite Hp in Er. injection Er as <- _. by exists d.
Qed.

Lemma incomplete_tail_lt text h : incomplete_tail text = Some h -> exists c, drop h text = 60 :: c.
Proof.
  destruct prefix_no_lt as (p & Hp & _). unfold incomplete_tail.
  destruct (rfind_sub MASK_PREFIX text) as [pos|] eqn:E; [|apply partial_prefix_lt].
  destruct (_ && _); [|apply partial_prefix_lt]. intros [= <-]. apply rfind_sub_Some in E as [r ->]. rewrite Hp. eauto.
Qed.

Lemma partial_prefix_none text n k : partial_prefix text n = None -> (1 <= k <= n)%nat -> (k <= length text)%nat ->
  is_char_boundary text (length text - k) = true -> starts_with MASK_PREFIX (drop (length text - k) text) = false.
Proof.
  induction n as [|n IH]; [lia|]. cbn [partial_prefix]. intros H Hk Hl Hb. destruct (decide (k = S n)) as [->|Hne].
  - rewrite (proj2 (Nat.leb_le _ _) Hl), Hb in H. cbn [andb] in H.
    destruct (starts_with MASK_PREFIX (drop (length text - S n) text)); [done | done].
  - destruct (_ && _); [done|]. apply IH; [done | lia | done | done].
Qed.

Lemma incomplete_tail_none text : incomplete_tail text = None ->
  partial_prefix text 10 = None
  /\ forall pos, rfind_sub MASK_PREFIX text = Some pos -> 62 ∉ drop pos text -> (96 < length text - pos)%nat.
Proof.
  unfold incomplete_tail. rewrite prefix_length. change (11 - 1)%nat with 10%nat.
  destruct (rfind_sub MASK_PREFIX text) as [pos|]; [|by split].
  destruct (_ && _) eqn:E; [done|]. intros H. split; [done|]. intros q [= <-] Hq.
  apply (find_sub_byte_none 62) in Hq. unfold MASK_SUFFIX in E. rewrite Hq in E. cbn [andb] in E.
  apply Nat.leb_gt in E. exact E.
Qed.

(** A token that is open at the end of the text, and short, would be held back. *)
Lemma no_open_token text i r : incomplete_tail text = None -> (i <= length text)%nat -> drop i text = MASK_PREFIX ++ r ->
  62 ∉ r -> (length MASK_PREFIX + length r <= MAX_PLACEHOLDER_BYTES)%nat -> False.
Proof.
  intros [_ Hlast]%incomplete_tail_none Hi Hd H62 Hl. destruct prefix_no_lt as (_ & _ & _ & Hp62).
  destruct (rfind_sub_last _ _ _ _ Hd Hi) as (j & Hj & Hij).
  assert (Hlen : (length text - i = 11 + length r)%nat) by (rewrite <- length_drop, Hd, length_app, prefix_length; done).
  rewrite prefix_length in Hl. unfold MAX_PLACEHOLDER_BYTES in Hl.
  assert (96 < length text - j)%nat; [|lia]. apply Hlast; [done|].
  replace j with (i + (j - i))%nat by lia. rewrite <- drop_drop, Hd. intros Hin.
  assert (Hin' : 62 ∈ MASK_PREFIX ++ r).
  { rewrite <- (take_drop (j - i) (MASK_PREFIX ++ r)). apply elem_of_app. by right. }
  apply elem_of_app in Hin'. tauto.
Qed.

(** With no incomplete tail, the end of the text is between tokens, whatever follows. *)
Lemma cut_at_end text b : incomplete_tail text = None -> tokens_closed (text ++ b) = true -> cut_ok text b.
Proof.
  intros Hnone Hcl. destruct (incomplete_tail_none text Hnone) as [Hpart _].
  destruct prefix_no_lt as (p & Hp & _ & _). split.
  - apply tokens_closed_intro. intros i r Hi Hd.
    destruct (tokens_closed_at _ i (r ++ b) Hcl) as (body & rest & E & H60 & H62 & Hl).
    { by rewrite drop_app_le, Hd, app_assoc by done. }
    apply app_eq_inv in E as [(k & -> & Ek)|(k & -> & _)].
    + destruct k as [|x k]; [|cbn [app] in Ek; injection Ek as <- Ek; eauto 10].
      rewrite app_nil_r in *. by destruct (no_open_token text i body).
    + rewrite elem_of_app in *. rewrite length_app in Hl. destruct (no_open_token text i r); [done | done | done | tauto | lia].
  - intros i r Hi Hd. rewrite drop_app_le in Hd by lia. apply app_eq_inv in Hd as [(k & -> & _)|(k & Ek & _)]; [eauto|].
    destruct k as [|x k]; [exists []; by rewrite !app_nil_r in *|]. exfalso.
    assert (Hlen : (length text - i < 11)%nat).
    { apply (f_equal length) in Ek. rewrite length_app, length_drop, prefix_length in Ek. simpl in Ek. lia. }
    assert (Hsub : (length text - (length text - i) = i)%nat) by lia.
    pose proof (partial_prefix_none text 10 (length text - i) Hpart ltac:(lia) ltac:(lia)) as Hpp. rewrite Hsub in Hpp.
    rewrite (proj2 (starts_with_true _ _)) in Hpp by eauto. discriminate Hpp.
    destruct (drop i text) as [|y d] eqn:Ed; [apply (f_equal length) in Ed; rewrite length_drop in Ed; simpl in Ed; lia|].
    rewrite Hp in Ek. injection Ek as Ey _. subst y. apply (ascii_boundary text i 60); [|lia].
    rewrite <- (Nat.add_0_r i), <- lookup_drop, Ed. done.
Qed.

(** ** The stream *)

(** One frame: what is emitted is the start of the text up to a cut between tokens and characters. *)
Lemma unmask_stream_cut m carry data rest :
  is_empty m = false -> utf8 ((carry ++ data) ++ rest) -> tokens_closed ((carry ++ data) ++ rest) = true ->
  exists a b, (carry ++ data) ++ rest = a ++ b ++ rest /\ unmask_stream m carry data = (unmask m a, b)
    /\ cut_ok a (b ++ rest) /\ utf8 (b ++ rest).
Proof.
  intros He Hu Hcl. unfold unmask_stream. rewrite He. set (buf := carry ++ data) in *. clearbody buf.
  destruct (valid_up_to_spec buf) as (_ & Hvu & _).
  remember (take (valid_up_to buf) buf) as text eqn:Et0. remember (drop (valid_up_to buf) buf) as tl eqn:El0.
  assert (Eb : buf = text ++ tl) by (subst; symmetry; apply take_drop). clear Et0 El0. subst buf.
  rewrite <- app_assoc in *. destruct (incomplete_tail text) as [h|] eqn:Et; simpl from_option.
  - destruct (incomplete_tail_lt _ _ Et) as [c Hc].
    assert (Hh : (h < length text)%nat).
    { apply (f_equal length) in Hc. rewrite length_drop in Hc. simpl in Hc. lia. }
    assert (Ht : text = take h text ++ 60 :: c) by (by rewrite <- Hc, take_drop).
    rewrite drop_app_le by lia. rewrite Hc. exists (take h text), (60 :: c ++ tl).
    assert (E : text ++ tl ++ rest = take h text ++ 60 :: (c ++ tl) ++ rest).
    { rewrite Ht at 1. by rewrite <- !app_assoc. }
    rewrite E in Hu, Hcl. split; [done|]. split; [done|].
    split; [by apply cut_before_lt | by apply utf8_split_ascii in Hu as [_ ?]].
  - rewrite firstn_all, drop_app_length. exists text, tl.
    split; [done|]. split; [done|]. split; [by apply cut_at_end | by eapply utf8_app_r].
Qed.

Lemma flush_unmask_all m carry : utf8 carry -> flush_unmask m carry = unmask m carry.
Proof.
  intros Hu. unfold flush_unmask. rewrite from_utf8_lossy_id by done. destruct carry; [|done].
  by rewrite unmask_eq.
Qed.

Lemma unmask_frames_all m frames carry :
  utf8 (carry ++ concat frames) -> tokens_closed (carry ++ concat frames) = true ->
  unmask_frames m carry frames = unmask m (carry ++ concat frames).
Proof.
  revert carry. induction frames as [|data frames IH]; intros carry Hu Hcl; cbn [unmask_frames concat] in *.
  - rewrite app_nil_r in *. by apply flush_unmask_all.
  - rewrite app_assoc in *. destruct (is_empty m) eqn:He.
    + unfold unmask_stream. rewrite He.
      assert (Hid : forall s, unmask m s = s) by (intros s; unfold unmask; by rewrite He).
      rewrite Hid. clear -He Hid. assert (H : forall frames, unmask_frames m [] frames = concat frames).
      { induction frames0 as [|d fs IHf]; [done|]. cbn [unmask_frames]. unfold unmask_stream. rewrite He. by rewrite IHf. }
      by rewrite H.
    + destruct (unmask_stream_cut m carry data (concat frames) He Hu Hcl) as (a & b & E & Hs & Hcut & Hub).
      rewrite Hs, E, unmask_eq. rewrite E in Hcl. rewrite IH by (done || by eapply tokens_closed_suffix).
      rewrite !unmask_eq. symmetry. by apply unmask_all_app.
Qed.

(** Streaming is invisible: for any way the provider's body is cut into frames, in the middle of a
    placeholder or of a character, the emitted frames and the final flush together are the unmasking of
    the whole body, when every [<edgeguard-] in it is a closed token. *)
Theorem unmask_stream_chunking m frames :
  from_utf8_ok (concat frames) = true -> tokens_closed (concat frames) = true ->
  unmask_frames m [] frames = unmask m (concat frames).
Proof. intros Hu%from_utf8_ok_iff Hcl. by apply (unmask_frames_all m frames []). Qed.

Lemma unmask_stream_chunking_witness :
  let m := (placeholder_for MaskMap_default (lit "email") (lit "a@b.co")).2 in
  unmask_frames m [] [lit "to <edgegu"; lit "ard-email-"; lit "0> and <edgeguard-x-9>"; [226; 130]; [172]]
  = lit "to a@b.co and <edgeguard-x-9>" ++ [226; 130; 172].
Proof.
  assert (H := unmask_stream_chunking (placeholder_for MaskMap_default (lit "email") (lit "a@b.co")).2
    [lit "to <edgegu"; lit "ard-email-"; lit "0> and <edgeguard-x-9>"; [226; 130]; [172]]
    ltac:(vm_compute; reflexivity) ltac:(vm_compute; reflexivity)).
  cbn zeta. rewrite H. vm_compute. reflexivity.
Defined.

(** ** The map *)

Definition cat_ok (cat : bytes) : Prop := 60 ∉ cat /\ 62 ∉ cat /\ (length cat <= 64)%nat /\ Forall (fun c => c < 128) cat.

Lemma categories_ok cat : cat ∈ CATEGORIES -> cat_ok cat.
Proof.
  revert cat. apply Forall_forall.
  assert (H : forallb (fun cat => bool_decide (60 ∉ cat) && bool_decide (62 ∉ cat) && (length cat <=? 64)%nat
                              && bool_decide (Forall (fun c => c < 128) cat)) CATEGORIES = true)
    by (vm_compute; reflexivity).
  rewrite forallb_forall in H. apply Forall_forall. intros cat Hin%list_elem_of_In. specialize (H cat Hin).
  rewrite !andb_true_iff, !bool_decide_eq_true, Nat.leb_le in H. by destruct H as [[[? ?] ?] ?].
Qed.

Definition minted (m : MaskMap) (p : bytes) : Prop :=
  exists cat n, p = placeholder cat n /\ cat_ok cat /\ 0 <= n < next_id m /\ n < 2 ^ 64.

(** The two directions of the map agree, and every token in it was minted. *)
Record mask_ok (m : MaskMap) : Prop := {
  mk_next : 0 <= next_id m;
  mk_to : forall v p, to_placeholder m !! v = Some p -> to_original m !! p = Some v /\ minted m p;
  mk_from : forall p v, to_original m !! p = Some v -> minted m p
}.

Lemma mask_ok_default : mask_ok MaskMap_default.
Proof. split; [done| |]; intros ? ? H; cbn [MaskMap_default to_placeholder to_original] in H; by rewrite lookup_empty in H. Qed.

Lemma dash_not_digit n : 45 ∉ dec n.
Proof. intros H. pose proof (dec_digits n) as Hd. rewrite Forall_forall in Hd. by specialize (Hd 45 H). Qed.

Lemma dec_inj a b : 0 <= a -> 0 <= b -> dec a = dec b -> a = b.
Proof. intros Ha Hb H. pose proof (digits_go_dec a Ha) as E. rewrite H, digits_go_dec in E by done. congruence. Qed.

Lemma placeholder_inj c1 n1 c2 n2 : 0 <= n1 -> 0 <= n2 -> placeholder c1 n1 = placeholder c2 n2 -> n1 = n2.
Proof.
  intros H1 H2. unfold placeholder. intros E%app_inv_head. rewrite !app_assoc in E. apply app_inj_tail in E as [E _].
  apply (f_equal (@rev Z)) in E. rewrite <- !app_assoc, !rev_app_distr in E. cbn [rev app] in E.
  rewrite <- !app_assoc in E. cbn [app] in E.
  assert (Hd : forall n, 45 ∉ rev (dec n)) by (intros n H; apply (dash_not_digit n), list_elem_of_In, in_rev, list_elem_of_In, H).
  assert (S1 := proj2 (split_once_Some 45 _ _ _) (conj E (Hd n2))).
  rewrite (proj2 (split_once_Some 45 _ _ _) (conj eq_refl (Hd n1))) in S1. injection S1 as S1 _.
  apply (f_equal (@rev Z)) in S1. rewrite !rev_involutive in S1. by apply dec_inj.
Qed.

Lemma placeholder_for_ok m cat v : mask_ok m -> cat_ok cat -> next_id m + 1 < 2 ^ 64 ->
  let p := placeholder_for m cat v in
  mask_ok p.2 /\ to_placeholder p.2 !! v = Some p.1 /\ to_placeholder m ⊆ to_placeholder p.2
  /\ next_id p.2 <= next_id m + 1.
Proof.
  intros [Hn Hto Hfrom] Hc Hb. unfold placeholder_for. destruct (to_placeholder m !! v) as [p|] eqn:Ev; cbn [fst snd].
  { split; [by split|]. split; [done|]. split; [done | lia]. }
  rewrite wrap_small by (unfold in_u; lia). set (q := placeholder cat (next_id m)).
  set (m' := mkMaskMap _ _ _).
  assert (Hmono : forall p, minted m p -> minted m' p) by (intros p (c & k & ? & ? & ? & ?); exists c, k; simpl; intuition lia).
  assert (Hq : minted m' q) by (exists cat, (next_id m); simpl; intuition (done || lia)).
  assert (Hfresh : to_original m !! q = None).
  { destruct (to_original m !! q) eqn:E; [|done]. apply Hfrom in E as (c & k & E & _ & Hk & _).
    apply placeholder_inj in E; lia. }
  split; [split; cbn [next_id to_placeholder to_original m']; [lia| |]|split; [by simplify_map_eq|split]].
  - intros w p Hw. unfold m' in Hw. cbn [to_placeholder] in Hw. apply lookup_insert_Some in Hw as [[-> <-]|[Hne Hw]].
    + split; [by simplify_map_eq | done].
    + destruct (Hto w p Hw) as [Ho Hm]. split; [|by apply Hmono]. rewrite lookup_insert_ne; [done|].
      intros ->. congruence.
  - intros p w Hp. apply lookup_insert_Some in Hp as [[<- _]|[_ Hp]]; [done|]. eauto.
  - cbn [to_placeholder m']. by apply insert_subseteq.
  - cbn [next_id m']. lia.
Qed.

(** ** A masked text *)

Definition masked (m : MaskMap) (p : piece) : bytes :=
  match p with Kept s => s | Hit _ s => default s (to_placeholder m !! s) end.

Definition mint (m : MaskMap) (matched cat : bytes) : bytes * MaskMap := placeholder_for m cat matched.

Definition is_hit (p : piece) : bool := match p with Hit _ _ => true | Kept _ => false end.
Definition hits (ps : list piece) : Z := Z.of_nat (length (List.filter is_hit ps)).

Lemma masked_mono m m' ps : to_placeholder m ⊆ to_placeholder m' ->
  (forall f s, Hit f s ∈ ps -> is_Some (to_placeholder m !! s)) ->
  map (masked m) ps = map (masked m') ps.
Proof.
  intros Hs H. apply map_ext_in. intros [s|f s] Hin%list_elem_of_In; [done|]. simpl.
  destruct (H f s Hin) as [p Hp]. rewrite Hp. by rewrite (lookup_weaken _ _ _ _ Hp Hs).
Qed.

Lemma render_masked ps m : mask_ok m -> next_id m + hits ps < 2 ^ 64 ->
  (forall f s, Hit f s ∈ ps -> cat_ok (category f)) ->
  let r := render_pieces mint m ps in
  mask_ok r.2 /\ to_placeholder m ⊆ to_placeholder r.2 /\ r.1 = concat (map (masked r.2) ps)
  /\ forall f s, Hit f s ∈ ps -> is_Some (to_placeholder r.2 !! s).
Proof.
  revert m. induction ps as [|[s|f s] ps IH]; intros m Hm Hb Hc; cbn [render_pieces].
  - cbn [fst snd]. split; [done|]. split; [done|]. split; [done|]. intros f s H. by apply elem_of_nil in H.
  - destruct (IH m Hm Hb) as (H1 & H2 & H3 & H4); [intros; eapply Hc; by right|].
    destruct (render_pieces mint m ps) as [out m']. cbn [fst snd] in *. split; [done|]. split; [done|].
    split; [cbn [map concat masked]; by rewrite H3|]. intros f t [H|H]%elem_of_cons; [done | eauto].
  - assert (Hh : hits (Hit f s :: ps) = hits ps + 1) by (unfold hits; simpl; lia).
    assert (0 <= hits ps) by (unfold hits; lia).
    destruct (placeholder_for_ok m (category f) s Hm) as (P1 & P2 & P3 & P4); [eapply Hc; left | lia|].
    change (mint m s (category f)) with (placeholder_for m (category f) s). destruct (placeholder_for m (category f) s) as [p m1]. cbn [fst snd] in *.
    destruct (IH m1 P1) as (H1 & H2 & H3 & H4); [lia | intros; eapply Hc; by right|].
    destruct (render_pieces mint m1 ps) as [out m']. cbn [fst snd] in *.
    pose proof (lookup_weaken _ _ _ _ P2 H2) as P2'.
    split; [done|]. split; [by transitivity (to_placeholder m1)|].
    split; [cbn [map concat masked]; by rewrite P2', H3|].
    intros g t [[= -> ->]|Ht]%elem_of_cons; eauto.
Qed.

(** ** Unmasking a masked text *)

Definition no_prefix (s : bytes) : Prop := forall i r, (i <= length s)%nat -> drop i s = MASK_PREFIX ++ r -> False.

Lemma no_prefix_find s : find_sub MASK_PREFIX s = None -> no_prefix s.
Proof. intros H i r. by apply find_sub_none. Qed.

Lemma no_prefix_slice s a b : no_prefix s -> (a <= length s)%nat -> no_prefix (take b (drop a s)).
Proof.
  intros H Ha i r Hi Hd. apply (H (a + i)%nat (r ++ drop b (drop a s))).
  - rewrite length_take, length_drop in Hi. lia.
  - rewrite <- drop_drop. rewrite <- (take_drop b (drop a s)) at 1. rewrite drop_app_le by done. by rewrite Hd, <- app_assoc.
Qed.

Lemma no_prefix_closed s : no_prefix s -> tokens_closed s = true.
Proof. intros H. apply tokens_closed_intro. intros i r Hi Hd. by destruct (H i r). Qed.

Lemma no_prefix_unmask m s : no_prefix s -> unmask_all m s = s.
Proof.
  intros H. apply unmask_all_none. destruct (find_sub MASK_PREFIX s) as [i|] eqn:E; [|done].
  apply find_sub_le in E as [Hl [r Hr]]. destruct (H i r); [lia | done].
Qed.

Lemma no_prefix_cut s c : no_prefix s -> cut_ok s (60 :: c).
Proof. intros H. split; [by apply no_prefix_closed|]. intros i r. apply no_straddle_lt. Qed.

Lemma tokens_closed_app a b : cut_ok a b -> tokens_closed b = true -> tokens_closed (a ++ b) = true.
Proof.
  intros [Ha Hs] Hb. apply tokens_closed_intro. intros i r Hi Hd. destruct (decide (i < length a)%nat) as [Hlt|Hge].
  - destruct (Hs i r Hlt Hd) as [r' Hr']. destruct (tokens_closed_at a i r' Ha Hr') as (body & rest & -> & ?).
    rewrite drop_app_le, Hr', <- !app_assoc in Hd by lia. apply app_inv_head in Hd as <-. exists body, (rest ++ b). done.
  - apply (tokens_closed_at b (i - length a)); [done|]. by rewrite drop_app_ge in Hd by lia.
Qed.

(** A minted token: its one [<] is its first byte, its one [>] its last. *)
Lemma minted_body m p : minted m p -> exists body, p = MASK_PREFIX ++ body ++ [62] /\ 60 ∉ body /\ 62 ∉ body
  /\ (length MASK_PREFIX + length body <= MAX_PLACEHOLDER_BYTES)%nat.
Proof.
  intros (cat & n & -> & (H60 & H62 & Hl & _) & Hn & Hb). exists (cat ++ [45] ++ dec n).
  assert (Hdig : forall c, c ∈ dec n -> 48 <= c <= 57).
  { intros c Hc. pose proof (dec_digits n) as Hd. rewrite Forall_forall in Hd. specialize (Hd c Hc).
    unfold is_digit in Hd. rewrite andb_true_iff, !Z.leb_le in Hd. done. }
  split; [unfold placeholder, MASK_SUFFIX; by rewrite <- !app_assoc|].
  split; [|split].
  - rewrite !elem_of_app, list_elem_of_singleton. intros [?|[?|Hc]]; [done | done | specialize (Hdig _ Hc); lia].
  - rewrite !elem_of_app, list_elem_of_singleton. intros [?|[?|Hc]]; [done | done | specialize (Hdig _ Hc); lia].
  - pose proof (length_dec n 19) as Hd. rewrite !length_app, prefix_length. unfold MAX_PLACEHOLDER_BYTES. cbn [length].
    assert (length (dec n) <= 20)%nat; [|lia]. apply Hd. change (10 ^ Z.of_nat 20) with 100000000000000000000. lia.
Qed.

Lemma minted_utf8 m p : minted m p -> utf8 p.
Proof.
  intros (cat & n & -> & (_ & _ & _ & Ha) & _). apply ascii_utf8. unfold placeholder. repeat (apply Forall_app; split).
  - apply (bool_decide_unpack _). vm_compute. exact I.
  - done.
  - by repeat constructor.
  - eapply Forall_impl; [apply dec_digits|]. intros c. unfold is_digit. rewrite andb_true_iff, !Z.leb_le. lia.
  - by repeat constructor.
Qed.

Lemma token_cut body b : 60 ∉ body -> 62 ∉ body -> (length MASK_PREFIX + length body <= MAX_PLACEHOLDER_BYTES)%nat ->
  cut_ok (MASK_PREFIX ++ body ++ [62]) b.
Proof.
  intros H60 H62 Hl. destruct prefix_no_lt as (p & Hp & Hp60 & _).
  assert (Hfirst : forall i (r k : bytes), (i < length (MASK_PREFIX ++ body ++ [62%Z]))%nat ->
            drop i ((MASK_PREFIX ++ body ++ [62]) ++ k) = MASK_PREFIX ++ r -> i = 0%nat).
  { intros i r k Hi Hd. destruct i as [|i]; [done|]. exfalso.
    assert (Hc : (((MASK_PREFIX ++ body ++ [62]) ++ k) !! S i) = Some 60).
    { rewrite <- (Nat.add_0_r (S i)), <- lookup_drop, Hd, Hp. done. }
    rewrite lookup_app_l in Hc by done. rewrite Hp in Hc. cbn [app] in Hc. rewrite lookup_cons_Some in Hc.
    destruct Hc as [[? _]|[_ Hc]]; [done|]. apply list_elem_of_lookup_2 in Hc.
    rewrite !elem_of_app, list_elem_of_singleton in Hc. naive_solver. }
  split.
  - apply tokens_closed_intro. intros i r Hi Hd. destruct (decide (i < length (MASK_PREFIX ++ body ++ [62%Z]))%nat) as [Hlt|].
    + assert (i = 0%nat) as -> by (apply (Hfirst i r []); [done | by rewrite app_nil_r]).
      rewrite drop_0 in Hd. apply app_inv_head in Hd as <-. by exists body, [].
    + rewrite drop_ge in Hd by lia. rewrite Hp in Hd. done.
  - intros i r Hi Hd. assert (i = 0%nat) as -> by (by apply (Hfirst i r b)). by exists (body ++ [62]).
Qed.

(** Pieces as [pieces] cuts them: a kept one, then a hit, then a kept one again. *)
Inductive alternating : list piece -> Prop :=
| alt_last s : no_prefix s -> alternating [Kept s]
| alt_hit s f t ps : no_prefix s -> alternating ps -> alternating (Kept s :: Hit f t :: ps).

Lemma pieces_alternating text c fs : no_prefix text -> cuts text c fs -> alternating (pieces text c fs).
Proof.
  intros Hn. induction 1 as [c Hl _|c f fs Hc _ Hf _ IH]; cbn [pieces].
  - constructor. rewrite <- (firstn_all (drop c text)). by apply no_prefix_slice.
  - destruct Hf as ([? ?] & _). constructor; [|done]. apply no_prefix_slice; [done | lia].
Qed.

Lemma unmask_alternating m ps : mask_ok m -> alternating ps ->
  (forall f s, Hit f s ∈ ps -> is_Some (to_placeholder m !! s)) ->
  unmask_all m (concat (map (masked m) ps)) = concat (map original ps)
  /\ tokens_closed (concat (map (masked m) ps)) = true.
Proof.
  intros Hm. induction 1 as [s Hs|s f t ps Hs _ IH]; intros Hin; cbn [map concat masked original].
  - rewrite app_nil_r. split; [|by apply no_prefix_closed].
    by apply no_prefix_unmask.
  - destruct IH as [IH1 IH2]; [intros; eapply Hin; do 2 right; done|].
    destruct (Hin f t) as [p Hp]; [right; left|]. rewrite Hp. change (default t (Some p)) with p.
    destruct (mk_to m Hm t p Hp) as [Ho Hmint]. destruct (minted_body m p Hmint) as (body & Ep & H60 & H62 & Hl).
    set (rest := concat (map (masked m) ps)) in *. set (orig := concat (map original ps)) in *.
    pose proof (token_cut body rest H60 H62 Hl) as Hcut. rewrite <- Ep in Hcut.
    assert (Hp1 : exists q, p ++ rest = 60 :: q).
    { destruct prefix_no_lt as (k & Hk & _). rewrite Ep, Hk. simpl. eauto. }
    destruct Hp1 as [q Hq]. pose proof (no_prefix_cut s q Hs) as Hcut2. rewrite <- Hq in Hcut2.
    split; [|by apply tokens_closed_app; [|apply tokens_closed_app]].
    rewrite (unmask_all_app m s _ Hcut2), (unmask_all_app m p _ Hcut), IH1. f_equal.
    + by apply no_prefix_unmask.
    + f_equal. rewrite Ep at 1. rewrite unmask_all_token by done. rewrite <- Ep, Ho. apply app_nil_r.
Qed.

(** ** The pipeline *)

Section Pipeline.
Context {Regex Automaton : Type}.
Variable regex_new : bytes -> option Regex.
Variable is_match : Regex -> bytes -> bool.
Variable find_iter : Regex -> bytes -> list (nat * nat).
Variable ac_build : list bytes -> option Automaton.
Variable ac_find_iter : Automaton -> bytes -> list (nat * nat).
Variable f64_log2 : f64 -> f64.
Variable char_alphanumeric : bytes -> bool.
Variable char_lowercase : bytes -> bytes.
Variable hash_one : bytes -> Z.

Lemma detector_list_categories cfg d : d ∈ detector_list cfg -> d.1.1 ∈ CATEGORIES.
Proof using.
  revert d. apply Forall_forall. unfold detector_list.
  assert (H : forall (b : bool) l, Forall (fun d : bytes * bytes * option (bytes -> bool) => d.1.1 ∈ CATEGORIES) l ->
            Forall (fun d : bytes * bytes * option (bytes -> bool) => d.1.1 ∈ CATEGORIES) (if b then l else []))
    by (intros [|] l Hl; [done | constructor]).
  repeat (apply Forall_app; split); try apply H;
    repeat (constructor; [apply (bool_decide_unpack _); vm_compute; exact I|]); try constructor.
  - apply Forall_map, Forall_forall. intros p _. apply (bool_decide_unpack _). vm_compute. exact I.
Qed.

Lemma build_spec cfg e : build regex_new is_match ac_build cfg = Ok (Some e) ->
  Forall (fun d => d_category d ∈ CATEGORIES) (detectors e) /\ ner e = None
  /\ (reversible e = true -> mode e = Redact).
Proof using.
  unfold build. intros H. apply rbind_Ok in H as (md & Hmd & H). case_decide; [done|].
  apply rbind_Ok in H as (st & _ & H). apply rbind_Ok in H as (ds & Hds & H).
  apply rbind_Ok in H as (gz & _ & H). apply rbind_Ok in H as (en & _ & H).
  destruct (ner_enabled cfg); [done|]. cbn [negb] in H. injection H as <-. cbn [detectors ner reversible mode].
  split; [|split; [done|]].
  - apply collect_Ok in Hds. apply Forall_forall. intros d Hd. destruct (Forall2_in_r _ _ _ _ Hds Hd) as (x & Hx & Hadd).
    apply detector_list_categories in Hx. unfold add_detector in Hadd. destruct x as [[cat pat] v].
    destruct (regex_new pat); [|done]. destruct (is_match _ _); [done|]. by injection Hadd as <-.
  - rewrite andb_true_iff, bool_decide_eq_true. tauto.
Qed.

Lemma raw_categories e text run : Forall (fun d => d_category d ∈ CATEGORIES) (detectors e) -> ner e = None ->
  Forall (fun f => category f ∈ CATEGORIES) (raw_findings find_iter ac_find_iter f64_log2 e text run).
Proof using.
  intros Hd Hn. unfold raw_findings, ner_findings. rewrite Hn.
  assert (Hgo : forall k t fuel i out, Forall (fun f => category f ∈ CATEGORIES) out ->
            Forall (fun f => category f ∈ CATEGORIES) (entropy_go f64_log2 k t text fuel i out)).
  { intros k t. induction fuel as [|fuel IH]; intros i out Ho; cbn [entropy_go]; [done|].
    destruct (drop i text); [done|]. destruct (is_secret_char _); [|auto]. apply IH. case_match; [|done].
    apply Forall_app. split; [done|]. constructor; [|done]. apply (bool_decide_unpack _). vm_compute. exact I. }
  match goal with |- context [?a ++ match gazetteer e with Some _ => _ | None => [] end] => set (raw := a) end.
  assert (H1 : Forall (fun f => category f ∈ CATEGORIES) raw).
  { apply Forall_concat, Forall_forall. intros l Hl. apply list_elem_of_fmap in Hl as (d & -> & Hdd).
    rewrite Forall_forall in Hd. specialize (Hd d Hdd). apply Forall_forall. intros f Hf. unfold detector_findings in Hf.
    apply list_elem_of_omap in Hf as ([a b] & _ & Hf). case_match; [|done]. by injection Hf as <-. }
  set (gz := match gazetteer e with Some _ => _ | None => [] end).
  assert (H2 : Forall (fun f => category f ∈ CATEGORIES) (raw ++ gz)).
  { apply Forall_app. split; [done|]. unfold gz. destruct (gazetteer e) as [ac|]; [|done].
    apply Forall_map, Forall_forall. intros [a b] _. apply (bool_decide_unpack _). vm_compute. exact I. }
  clearbody raw gz. destruct run; rewrite ?app_nil_r; (destruct (entropy e) as [[k t]|]; [by apply Hgo | done]).
Qed.

Lemma scan_categories e text : matches_ok find_iter ac_find_iter -> utf8 text ->
  Forall (fun d => d_category d ∈ CATEGORIES) (detectors e) -> ner e = None ->
  Forall (fun f => cat_ok (category f)) (scan find_iter ac_find_iter f64_log2 e text).
Proof using.
  intros Hm Hu Hd Hn. pose proof (raw_findings_ok _ _ f64_log2 Hm e text true Hu) as Hok.
  assert (Ho : Forall ordered (raw_findings find_iter ac_find_iter f64_log2 e text true))
    by (eapply Forall_impl; [done|]; apply finding_ok_ordered).
  destruct (merge_spec _ Ho) as (_ & _ & _ & Hmade). pose proof (raw_categories e text true Hd Hn) as Hc.
  rewrite Forall_forall in Hmade, Hc |- *. intros f Hf. destruct (Hmade f Hf) as (_ & _ & g & Hg & -> & _).
  apply categories_ok. auto.
Qed.

(** No more findings than bytes, and one. *)
Lemma separated_count text c fs : separated fs -> Forall (finding_ok text) fs ->
  Forall (fun f => (c <= start f)%nat) fs -> (c <= length text + 1)%nat -> (length fs + c <= length text + 1)%nat.
Proof using.
  intros Hs. revert c. induction Hs as [|f fs Hs IH Hgap]; intros c Hok Hc Hl; [done|].
  inversion_clear Hok as [|? ? Hf Hok']. inversion_clear Hc. destruct Hf as ([? ?] & _).
  specialize (IH (S (end_ f)) Hok'). cbn [length].
  assert (length fs + S (end_ f) <= length text + 1)%nat; [|lia]. apply IH; [|lia].
  eapply Forall_impl; [exact Hgap|]. simpl. lia.
Qed.

Lemma hits_pieces text c fs : hits (pieces text c fs) = Z.of_nat (length fs).
Proof using. revert c. induction fs as [|f fs IH]; intros c; [done|]. specialize (IH (end_ f)). unfold hits in *. simpl. lia. Qed.

Lemma hit_in_pieces text c fs f s : Hit f s ∈ pieces text c fs -> f ∈ fs.
Proof using.
  revert c. induction fs as [|g fs IH]; intros c; cbn [pieces].
  - by intros [?|?%elem_of_nil]%elem_of_cons.
  - intros [?|[[= -> _]|H]%elem_of_cons]%elem_of_cons; [done | left | right; eauto].
Qed.

Lemma masked_utf8 m ps : mask_ok m -> (forall f s, Hit f s ∈ ps -> is_Some (to_placeholder m !! s)) ->
  (forall s, Kept s ∈ ps -> utf8 s) -> utf8 (concat (map (masked m) ps)).
Proof using.
  intros Hm. induction ps as [|p ps IH]; intros Hh Hk; [constructor|]. cbn [map concat].
  apply utf8_app; [|apply IH; intros; [eapply Hh | eapply Hk]; by right]. destruct p as [s|f s]; cbn [masked].
  - apply Hk. left.
  - destruct (Hh f s) as [p Hp]; [left|]. rewrite Hp. apply (minted_utf8 m p), (mk_to m Hm s p Hp).
Qed.

Lemma kept_utf8 text c fs s : utf8 text -> cuts text c fs -> Kept s ∈ pieces text c fs -> utf8 s.
Proof using.
  intros Hu. induction 1 as [c Hl Hb|c f fs Hc Hb Hf _ IH]; cbn [pieces].
  - intros [[= ->]|H%elem_of_nil]%elem_of_cons; [|done]. by apply utf8_split_boundary.
  - destruct Hf as ([? ?] & Hb1 & _). intros [[= ->]|[?|H']%elem_of_cons]%elem_of_cons; [|done | auto].
    assert (Hc' : (c <= length text)%nat) by lia. destruct (utf8_split_boundary _ _ Hu Hc' Hb) as [_ Hd].
    apply utf8_split_boundary; [done | rewrite length_drop; lia|].
    destruct (decide (start f - c = 0)%nat) as [->|Hne]; [done|].
    unfold is_char_boundary in *. rewrite lookup_drop, length_drop. replace (c + (start f - c))%nat with (start f) by lia.
    destruct (Nat.eqb_spec (start f) 0); [lia|]. destruct (Nat.eqb_spec (start f - c) 0); [done|].
    destruct (text !! start f); [done|]. apply Nat.eqb_eq in Hb1. apply Nat.eqb_eq. lia.
Qed.

(** Masking the findings of a text that holds no token of its own. *)
Lemma masked_scan text fs : utf8 text -> no_prefix text -> separated fs -> Forall (finding_ok text) fs ->
  cuts text 0 fs -> Forall (fun f => cat_ok (category f)) fs -> Z.of_nat (length text) < 2 ^ 63 ->
  exists out m, redact_reversible text fs MaskMap_default = Some (out, m)
    /\ out = concat (map (masked m) (pieces text 0 fs))
    /\ (forall f s, Hit f s ∈ pieces text 0 fs -> exists cat n, to_placeholder m !! s = Some (placeholder cat n))
    /\ unmask m out = text /\ utf8 out /\ tokens_closed out = true.
Proof using.
  intros Hu Hnp Hsep Hok Hcuts Hcats Hlen.
  assert (Hcount : (length fs + 0 <= length text + 1)%nat).
  { apply separated_count; [done | done | | lia]. apply Forall_forall. intros; lia. }
  destruct (render_masked (pieces text 0 fs) MaskMap_default mask_ok_default) as (H1 & _ & H3 & H4).
  { rewrite hits_pieces. cbn [next_id MaskMap_default]. lia. }
  { intros f s Hin. apply hit_in_pieces in Hin. rewrite Forall_forall in Hcats. auto. }
  pose proof (rewrite_go_pieces mint text fs 0 MaskMap_default [] Hcuts) as Hr.
  destruct (render_pieces mint MaskMap_default (pieces text 0 fs)) as [out m] eqn:Er. cbn [fst snd app] in *.
  exists out, m. destruct (unmask_alternating m (pieces text 0 fs) H1) as [Hun Hcl]; [by apply pieces_alternating | done|].
  rewrite <- H3 in Hun, Hcl. rewrite original_pieces in Hun by done.
  split.
  { unfold redact_reversible. destruct fs as [|f fs]; [|exact Hr]. cbn in Er. rewrite app_nil_r in Er.
    rewrite drop_0 in Er. congruence. }
  split; [done|]. split.
  - intros f s Hin. destruct (H4 f s Hin) as [p Hp]. destruct (mk_to m H1 s p Hp) as [_ (cat & n & -> & _)]. eauto.
  - rewrite unmask_eq, Hun. split; [done|]. split; [|done]. rewrite H3. apply masked_utf8; [done | done|].
    intros s. by apply kept_utf8.
Qed.

(** C16.  The round trip of reversible masking, end to end, for a text body (UTF-8) in which the caller has not
    itself written the start of a placeholder, [<edgeguard-]: the provider is sent the text with every
    flagged span replaced by a placeholder, and a provider that echoes it gets the caller its own bytes
    back, in one buffer or in frames cut anywhere.  A caller that writes a placeholder itself is not given
    its text back: see [written_placeholder_rewritten]. *)
Theorem mask_round_trip cfg e body :
  matches_ok find_iter ac_find_iter -> build regex_new is_match ac_build cfg = Ok (Some e) ->
  reversible e = true -> scan_request e = true ->
  from_utf8_ok body = true -> find_sub MASK_PREFIX body = None -> Z.of_nat (length body) < 2 ^ 63 ->
  let fs := scan find_iter ac_find_iter f64_log2 e body in
  exists out m,
    dlp_inbound find_iter ac_find_iter f64_log2 char_alphanumeric char_lowercase hash_one (Some e) body
      = Some (Forward out m, map category fs)
    /\ out = concat (map (masked m) (pieces body 0 fs))
    /\ (forall f s, Hit f s ∈ pieces body 0 fs -> exists cat n, to_placeholder m !! s = Some (placeholder cat n))
    /\ (forall status hs, dlp_outbound find_iter ac_find_iter f64_log2 char_alphanumeric char_lowercase hash_one
          (Some e) m (mkResp status hs out) = Some (mkResp status hs body, []))
    /\ (forall frames, concat frames = out -> unmask_frames m [] frames = body).
Proof using.
  intros Hm Hb Hrev Hreq Hu Hnp Hlen. cbn zeta. apply from_utf8_ok_iff in Hu. apply no_prefix_find in Hnp.
  destruct (build_spec cfg e Hb) as (Hcat & Hner & Hmode). specialize (Hmode Hrev).
  pose proof (scan_categories e body Hm Hu Hcat Hner) as Hcats.
  pose proof (scan_cuts find_iter ac_find_iter f64_log2 e body true Hm Hu) as Hcuts.
  destruct (scan_spec find_iter ac_find_iter f64_log2 e body true Hm Hu) as (Hok & Hsep & _).
  fold (scan find_iter ac_find_iter f64_log2 e body) in Hcuts, Hok, Hsep.
  destruct (masked_scan body _ Hu Hnp Hsep Hok Hcuts Hcats Hlen) as (out & m & Hr & Hout & Hph & Hun & Huo & Hcl).
  exists out, m. split; [|split; [done|split; [done|split]]].
  - unfold dlp_inbound. rewrite Hreq, from_utf8_lossy_id by done. set (fs := scan _ _ _ e body) in *. clearbody fs.
    rewrite Hmode, Hrev. destruct fs as [|f fs]; [by injection Hr as <- <-|]. by rewrite Hr.
  - intros status hs. unfold dlp_outbound. rewrite Hrev. cbn [r_body r_status r_headers].
    destruct (is_empty m) eqn:Ee.
    + unfold unmask in Hun. rewrite Ee in Hun. cbn [orb] in Hun. by rewrite Hun.
    + by rewrite from_utf8_lossy_id, Hun.
  - intros frames <-. rewrite <- Hun. by apply (unmask_frames_all m frames []).
Qed.
End Pipeline.

(** The configuration of the examples: one custom pattern, a literal, masked reversibly. *)
Definition sample_cfg : DlpCfg :=
  mkDlpCfg (lit "redact") (lit "full") true true false true false false false false false false false false false
    0 f64_zero [] [lit "a@b.co"] false.

Definition sample_masker : DlpEngine :=
  mkDlpEngine Redact Full true true false true [mkDetector (lit "custom") (lit "a@b.co") None] (None : option bytes) None None.

Definition literal_match (re text : bytes) : bool := match find_sub re text with Some _ => true | None => false end.

Lemma mask_round_trip_witness :
  let fs := scan literal_iter literal_iter id sample_masker (lit "mail a@b.co now") in
  exists out m,
    dlp_inbound literal_iter literal_iter id (fun _ => true) id len (Some sample_masker) (lit "mail a@b.co now")
      = Some (Forward out m, map category fs)
    /\ out = concat (map (masked m) (pieces (lit "mail a@b.co now") 0 fs))
    /\ (forall f s, Hit f s ∈ pieces (lit "mail a@b.co now") 0 fs ->
          exists cat n, to_placeholder m !! s = Some (placeholder cat n))
    /\ (forall status hs, dlp_outbound literal_iter literal_iter id (fun _ => true) id len
          (Some sample_masker) m (mkResp status hs out) = Some (mkResp status hs (lit "mail a@b.co now"), []))
    /\ (forall frames, concat frames = out -> unmask_frames m [] frames = lit "mail a@b.co now").
Proof.
  apply (mask_round_trip (fun re => Some re) literal_match literal_iter (fun ts => Some (concat ts)) literal_iter id
           (fun _ => true) id len sample_cfg sample_masker (lit "mail a@b.co now") literal_matches_ok).
  - vm_compute. reflexivity.
  - reflexivity.
  - reflexivity.
  - vm_compute. reflexivity.
  - vm_compute. reflexivity.
  - vm_compute. reflexivity.
Defined.

(** ** Where the streams fall short *)

Definition sample_stream : DlpEngine :=
  mkDlpEngine Redact Full true true true false [mkDetector (lit "custom") (lit "a@b.co") None] (None : option bytes) None None.

Definition stream_twice (a b : bytes) : option bytes :=
  '(o1, s) ← redact_frame literal_iter literal_iter id (fun _ => true) id len sample_stream (mkScanner [] []) a;
  '(o2, s) ← redact_frame literal_iter literal_iter id (fun _ => true) id len sample_stream s b;
  '(o3, _) ← scanner_flush literal_iter literal_iter id (fun _ => true) id len sample_stream s;
  Some (o1 ++ o2 ++ o3).

(** Streamed redaction carries the decoded text, so a character split over two frames (here U+00E9)
    reaches the client as two replacement characters. *)
Example redact_frame_splits_char : stream_twice [195] [169] = Some (REPLACEMENT ++ REPLACEMENT).
Proof. vm_compute. reflexivity. Qed.

(** Report mode compares an offset in the decoded text with the length of the raw carry: when the carry
    starts inside a character, a finding that was counted already is counted again. *)
Example record_only_recounts :
  let frame := [195; 169] ++ replicate 249 46 ++ lit "a@b.co" in
  let s := record_only literal_iter literal_iter id sample_stream (mkScanner [] []) frame in
  let s := record_only literal_iter literal_iter id sample_stream s [46] in
  counted s = [lit "custom"; lit "custom"].
Proof. vm_compute. reflexivity. Qed.

(** After a byte that is not UTF-8, an unmasked stream emits nothing more until it ends. *)
Example unmask_stream_stalls :
  let m := (placeholder_for MaskMap_default (lit "custom") (lit "a@b.co")).2 in
  let '(o1, c1) := unmask_stream m [] [255] in
  let '(o2, c2) := unmask_stream m c1 (lit "event: done.") in
  o1 = [] /\ o2 = [] /\ c2 = [255] ++ lit "event: done.".
Proof. vm_compute. repeat split. Qed.

(** A text that already holds the placeholder its address will be given: the provider is sent two equal
    placeholders, and the echo comes back with the address in both places. *)
Example written_placeholder_rewritten :
  let body := lit "<edgeguard-custom-0> a@b.co" in
  match dlp_inbound literal_iter literal_iter id (fun _ => true) id len (Some sample_masker) body with
  | Some (Forward out m, _) =>
      out = lit "<edgeguard-custom-0> <edgeguard-custom-0>"
      /\ option_map (fun r => r_body r.1) (dlp_outbound literal_iter literal_iter id (fun _ => true) id len
           (Some sample_masker) m (mkResp 200 [] out)) = Some (lit "a@b.co a@b.co")
  | _ => False
  end.
Proof. vm_compute. split; reflexivity. Qed.
