(* ===== verification/StreamInspect.v ===== *)
(** * StreamInspect: inspecting an upload that streams ([src/src/stream_inspect.rs], [proxy.rs])

    The first bytes of an upload are read and inspected before anything is forwarded; every later frame
    is inspected with the end of the previous ones in front of it, and a block cuts the upload. *)

From S2P Require Import Prelude Text Utf8 Units Access Float Http Waf Dlp Forwarding.

Record InspectWindow : Type := mkWindow { w_prefix : bytes; window : Z; overlap : Z }.

Record StreamInspectCfg : Type := mkStreamInspectCfg { si_path : bytes; si_window : bytes; si_overlap : bytes }.

Definition window_of (c : StreamInspectCfg) : result InspectWindow :=
  ensure (starts_with (si_path c) [47]) else "validation.stream_inspect: path must start with /";
  let? w := parse_size (si_window c) in
  let? o := parse_size (si_overlap c) in
  ensure (negb (w =? 0)) else "validation.stream_inspect: window must be > 0";
  ensure (negb (w <=? o)) else "validation.stream_inspect: overlap must be smaller than window";
  Ok (mkWindow (si_path c) w o).

Definition windows_build (cfgs : list StreamInspectCfg) : result (list InspectWindow) := collect window_of cfgs.

Definition for_path (routes : list InspectWindow) (path : bytes) : option InspectWindow :=
  max_by_key (fun r => len (w_prefix r)) (List.filter (fun r => path_prefix_matches path (w_prefix r)) routes).

Definition inspects_window (enabled route_opted_in waf_reads_body dlp_scans_request dlp_rewrites llm_reads_body : bool)
    : bool :=
  enabled && route_opted_in && (waf_reads_body || dlp_scans_request) && negb dlp_rewrites && negb llm_reads_body.

Inductive Verdict : Type := Pass | BlockUpload.

(** [char_start]: [at], moved back to the start of the character it falls inside. *)
Fixpoint back_to_start (buf : bytes) (i : nat) : nat :=
  match i with
  | O => 0%nat
  | S less => match buf !! i with
              | Some c => if Z.land c 192 =? 128 then back_to_start buf less else i
              | None => i
              end
  end.
Definition char_start (buf : bytes) (i : nat) : nat := back_to_start buf (Nat.min i (length buf)).

(** What polling the client's body gives, in order; [Limited] adds [TooLong]. *)
Inductive BodyEvent : Type := Data (d : bytes) | Trailers | TooLong | BodyFailed.

Section Inspector.
Context {RegexSet Regex Automaton : Type}.
Variable set_match : RegexSet -> bytes -> bool.
Variable to_str_ok : bytes -> bool.
Variable find_iter : Regex -> bytes -> list (nat * nat).
Variable ac_find_iter : Automaton -> bytes -> list (nat * nat).
Variable f64_log2 : f64 -> f64.
Variable char_alphanumeric : bytes -> bool.
Variable char_lowercase : bytes -> bytes.
Variable hash_one : bytes -> Z.

Abbreviation Waf := (@WafEngine RegexSet).
Abbreviation DlpE := (@DlpEngine Regex Automaton).

(** The inspector; [counted_waf] and [counted_dlp] are what it has added to the metrics. *)
Record TailInspector : Type := mkTail {
  t_waf : option Waf; t_dlp : option DlpE; t_overlap : nat; t_carry : bytes; waf_reported : bool;
  counted_waf : list bytes; counted_dlp : list bytes; counted_blocked : nat
}.

Definition tail_new (waf : option Waf) (dlp : option DlpE) (overlap : nat) (window_tail : bytes) (reported : bool)
    : TailInspector :=
  mkTail waf dlp overlap (drop (length window_tail - overlap) window_tail) reported [] [] 0.

(** The WAF half of [inspect]. *)
Definition inspect_waf (t : TailInspector) (buf : bytes) : Verdict * TailInspector :=
  match t_waf t with
  | Some waf =>
      if waf_reported t then (Pass, t)
      else match evaluate_body set_match waf buf with
           | Some h =>
               let cw := counted_waf t ++ [hit_class h] in
               if decide (waf_mode waf = WafBlock)
               then (BlockUpload, mkTail (t_waf t) (t_dlp t) (t_overlap t) (t_carry t) (waf_reported t) cw (counted_dlp t) (counted_blocked t))
               else (Pass, mkTail (t_waf t) (t_dlp t) (t_overlap t) (t_carry t) true cw (counted_dlp t) (counted_blocked t))
           | None => (Pass, t)
           end
  | None => (Pass, t)
  end.

(** The DLP half. *)
Definition inspect_dlp (t : TailInspector) (buf : bytes) (carried : nat) : Verdict * TailInspector :=
  match t_dlp t with
  | Some dlp =>
      let text := from_utf8_lossy buf in
      let carried_text := length (from_utf8_lossy (take (char_start buf carried) buf)) in
      let fs := List.filter (fun f => (carried_text <? end_ f)%nat) (scan find_iter ac_find_iter f64_log2 dlp text) in
      match fs with
      | [] => (Pass, t)
      | _ =>
          let cd := counted_dlp t ++ map category fs in
          if decide (mode dlp = Block)
          then (BlockUpload, mkTail (t_waf t) (t_dlp t) (t_overlap t) (t_carry t) (waf_reported t) (counted_waf t) cd (S (counted_blocked t)))
          else (Pass, mkTail (t_waf t) (t_dlp t) (t_overlap t) (t_carry t) (waf_reported t) (counted_waf t) cd (counted_blocked t))
      end
  | None => (Pass, t)
  end.

Definition inspect (t : TailInspector) (buf : bytes) (carried : nat) : Verdict * TailInspector :=
  match inspect_waf t buf with
  | (BlockUpload, t) => (BlockUpload, t)
  | (Pass, t) => inspect_dlp t buf carried
  end.

Definition set_carry (t : TailInspector) (c : bytes) : TailInspector :=
  mkTail (t_waf t) (t_dlp t) (t_overlap t) c (waf_reported t) (counted_waf t) (counted_dlp t) (counted_blocked t).

Definition check (t : TailInspector) (data : bytes) : Verdict * TailInspector :=
  if is_nil data then (Pass, t)
  else
    let buf := t_carry t ++ data in
    let '(v, t) := inspect t buf (length (t_carry t)) in
    (v, set_carry t (drop (length buf - t_overlap t) buf)).

(** ** The upload *)

(** How the upstream sees the body end. *)
Inductive UploadEnd : Type := Complete | Blocked | Cut | Broken.

(** [StreamedRequestBody::poll_frame] until it ends: the bytes forwarded, and how it ended. *)
Fixpoint stream_tail (t : TailInspector) (events : list BodyEvent) : bytes * UploadEnd :=
  match events with
  | [] => ([], Complete)
  | Data d :: events =>
      match check t d with
      | (BlockUpload, _) => ([], Blocked)
      | (Pass, t) => let '(out, e) := stream_tail t events in (d ++ out, e)
      end
  | Trailers :: events => stream_tail t events
  | TooLong :: _ => ([], Cut)
  | BodyFailed :: _ => ([], Broken)
  end.

(** The loop that reads the window: the head, the events left, and whether the body ended. *)
Inductive WindowRead : Type := WindowTooLarge | WindowOk (head : bytes) (rest : list BodyEvent) (ended : bool).

Fixpoint read_window (win max_body : Z) (head : bytes) (events : list BodyEvent) : WindowRead :=
  if len head <? win then
    match events with
    | [] => WindowOk head [] true
    | (TooLong | BodyFailed) :: _ => WindowTooLarge
    | Data d :: events =>
        let head := head ++ d in if max_body <? len head then WindowTooLarge else read_window win max_body head events
    | Trailers :: events => if max_body <? len head then WindowTooLarge else read_window win max_body head events
    end
  else WindowOk head events (is_nil events).

Inductive Upload : Type := TooLarge413 | Forbidden403 | Forwarded (sent : bytes) (fin : UploadEnd).

(** [http_body_util::Limited]: the events of a body cut at a number of bytes. *)
Variable limited : Z -> list BodyEvent -> list BodyEvent.

(** An upload on a windowed route: the window is read, screened and scanned; what is left of the body
    streams behind it.  [None] is a panic of the DLP step. *)
Definition windowed_upload (w : InspectWindow) (waf : Waf) (dlp : option DlpE) (max_body : Z)
    (raw_path : bytes) (headers : Headers) (host : option bytes) (declared : option Z) (events : list BodyEvent)
    : option Upload :=
  if match declared with Some n => max_body <? n | None => false end then Some TooLarge413
  else match read_window (window w) max_body [] events with
  | WindowTooLarge => Some TooLarge413
  | WindowOk head rest ended =>
      match (screen set_match to_str_ok waf raw_path headers host head).1 with
      | VBlock => Some Forbidden403
      | v =>
          inb ← dlp_inbound find_iter ac_find_iter f64_log2 char_alphanumeric char_lowercase hash_one dlp head;
          match inb.1 with
          | Refused => Some Forbidden403
          | Forward body _ =>
              if ended then Some (Forwarded body Complete)
              else
                let t := tail_new (if needs_body waf then Some waf else None)
                           (match dlp with Some d => if scan_request d then Some d else None | None => None end)
                           (Z.to_nat (overlap w)) body (match v with VReported => true | _ => false end) in
                let '(out, e) := stream_tail t (limited (sat_sub max_body (len body)) rest) in
                Some (Forwarded (body ++ out) e)
          end
      end
  end.
End Inspector.

(** ** Laws: a signature never gets through a streamed upload whole

    Whatever frames an upload arrives in, what is forwarded is a prefix of the body in which no signature
    of a blocking rule occurs, as long as the signature fits in the overlap and one byte more. *)

Definition occurs (sig s : bytes) : Prop := exists x y, s = x ++ sig ++ y.

(** Text that makes a rule match wherever it stands. *)
Definition signature {RegexSet} (set_match : RegexSet -> bytes -> bool) (set : RegexSet) (sig : bytes) : Prop :=
  sig <> [] /\ Forall (fun c => c < 128) sig /\ forall x y, set_match set (x ++ sig ++ y) = true.

Fixpoint data_of (events : list BodyEvent) : bytes :=
  match events with [] => [] | Data d :: events => d ++ data_of events | _ :: events => data_of events end.

Lemma data_of_app a b : data_of (a ++ b) = data_of a ++ data_of b.
Proof. induction a as [|[d| | |] a IH]; simpl; [done| |done..]. by rewrite IH, app_assoc. Qed.

(** [Limited] passes a body through, or a start of it and then the error. *)
Definition limits (limited : Z -> list BodyEvent -> list BodyEvent) : Prop :=
  forall n events, limited n events = events \/ exists a b, events = a ++ b /\ limited n events = a ++ [TooLong].

Lemma limits_data limited n events : limits limited -> data_of (limited n events) `prefix_of` data_of events.
Proof.
  intros H. destruct (H n events) as [->|(a & b & -> & ->)]; [done|]. rewrite !data_of_app. simpl. rewrite app_nil_r.
  by exists (data_of b).
Qed.

(** The last [ov] bytes. *)
Definition last_bytes (ov : nat) (s : bytes) : bytes := drop (length s - ov) s.

Lemma last_bytes_app ov s d : last_bytes ov (last_bytes ov s ++ d) = last_bytes ov (s ++ d).
Proof.
  unfold last_bytes. rewrite !length_app, length_drop.
  destruct (decide (length s <= ov)%nat).
  - replace (length s - ov)%nat with 0%nat by lia. rewrite drop_0. f_equal. lia.
  - rewrite <- (drop_app_le s d (length s - ov)) by lia. rewrite drop_drop. f_equal. lia.
Qed.

(** An occurrence that is new with [d] is in the carry and [d]. *)
Lemma occurs_carry sig ov s d : (length sig <= ov + 1)%nat -> ~ occurs sig s -> occurs sig (s ++ d) ->
  occurs sig (last_bytes ov s ++ d).
Proof.
  intros Hl Hno (x & y & E). unfold last_bytes.
  destruct (decide (length s - ov <= length x)%nat) as [Hle|Hgt].
  - rewrite <- drop_app_le, E by lia. rewrite drop_app_le by done. by exists (drop (length s - ov) x), y.
  - exfalso. apply Hno. assert (Hin : (length x + length sig <= length s)%nat) by lia.
    exists x, (take (length s - length x - length sig) y).
    assert (Ht : take (length s) (s ++ d) = s) by apply take_app_length.
    rewrite E, app_assoc, take_app_ge in Ht by (rewrite length_app; lia).
    rewrite length_app, Nat.sub_add_distr in Ht. by rewrite <- app_assoc in Ht.
Qed.

Section Laws.
Context {RegexSet Regex Automaton : Type}.
Variable set_match : RegexSet -> bytes -> bool.
Variable to_str_ok : bytes -> bool.
Variable find_iter : Regex -> bytes -> list (nat * nat).
Variable ac_find_iter : Automaton -> bytes -> list (nat * nat).
Variable f64_log2 : f64 -> f64.
Variable char_alphanumeric : bytes -> bool.
Variable char_lowercase : bytes -> bytes.
Variable hash_one : bytes -> Z.
Variable limited : Z -> list BodyEvent -> list BodyEvent.

Variable waf : @WafEngine RegexSet.
Variable rule : @CompiledRule RegexSet.
Variable sig : bytes.

(** A rule of the engine that reads bodies, blocks, and has the signature. *)
Record guards : Prop := {
  g_block : waf_mode waf = WafBlock;
  g_body : inspect_body waf = true;
  g_rule : rule ∈ rules waf;
  g_target : includes (rtarget rule) LBody = true;
  g_sig : signature set_match (set rule) sig
}.

Hypothesis Hg : guards.

Lemma sig_matches buf : occurs sig buf -> set_match (set rule) (from_utf8_lossy buf) = true.
Proof using Hg.
  intros (x & y & ->). destruct (g_sig Hg) as (Hne & Ha & Hm). destruct (lossy_ascii_infix x sig y Hne Ha) as (a & b & ->).
  apply Hm.
Qed.

Lemma sig_nonempty buf : occurs sig buf -> is_nil buf = false.
Proof using Hg.
  intros (x & y & ->). destruct (g_sig Hg) as (Hne & _). destruct x; [|done]. by destruct sig.
Qed.

Lemma guards_needs_body : needs_body waf = true.
Proof using Hg.
  unfold needs_body. rewrite (g_body Hg), (g_block Hg). cbn [andb]. rewrite bool_decide_eq_false_2 by done. cbn [negb andb].
  apply existsb_exists. exists rule. split; [apply list_elem_of_In, (g_rule Hg) | apply (g_target Hg)].
Qed.

Lemma evaluate_body_hit buf : occurs sig buf -> evaluate_body set_match waf buf <> None.
Proof using Hg.
  intros Ho. unfold evaluate_body. rewrite guards_needs_body, (sig_nonempty _ Ho). cbn [negb orb].
  destruct (List.find _ (rules waf)) eqn:E; [done|]. intros _. pose proof (find_none _ _ E rule) as Hn.
  specialize (Hn (proj1 (list_elem_of_In _ _) (g_rule Hg))). cbv beta in Hn.
  by rewrite (g_target Hg), (sig_matches _ Ho) in Hn.
Qed.

Lemma evaluate_hit path headers host body : occurs sig body -> evaluate set_match to_str_ok waf path headers host body <> None.
Proof using Hg.
  intros Ho. unfold evaluate. rewrite (g_block Hg), (g_body Hg), (sig_nonempty _ Ho). cbn [negb andb].
  rewrite bool_decide_eq_false_2 by done. pose proof (g_rule Hg) as Hr.
  destruct (rules waf) as [|r0 rs] eqn:Er; [by apply elem_of_nil in Hr|]. cbn [is_nil orb]. rewrite <- Er in *. clear Er r0 rs.
  induction (rules waf) as [|r rs IH]; [by apply elem_of_nil in Hr|]. cbn [first_hit].
  destruct (rule_hit _ _ _ _ _ _ r) eqn:E; [done|]. apply elem_of_cons in Hr as [<-|Hr]; [|auto].
  intros _. revert E. unfold rule_hit. rewrite (g_target Hg), (sig_matches _ Ho). cbn [andb]. by repeat destruct (_ && _).
Qed.

(** *** The tail *)

(** What the inspector knows after [seen]. *)
Definition tracking (ov : nat) (seen : bytes) (t : @TailInspector RegexSet Regex Automaton) : Prop :=
  t_waf t = Some waf /\ waf_reported t = false /\ t_overlap t = ov /\ t_carry t = last_bytes ov seen.

Lemma inspect_dlp_same (t : @TailInspector RegexSet Regex Automaton) buf k v (t' : @TailInspector RegexSet Regex Automaton) :
  inspect_dlp find_iter ac_find_iter f64_log2 t buf k = (v, t') ->
  t_waf t' = t_waf t /\ waf_reported t' = waf_reported t /\ t_overlap t' = t_overlap t.
Proof using.
  unfold inspect_dlp. destruct (t_dlp t) as [dlp|]; [|by intros [= _ <-]].
  destruct (List.filter _ _); [by intros [= _ <-]|]. case_decide; by intros [= _ <-].
Qed.

Lemma check_pass ov seen t d t' : (length sig <= ov + 1)%nat -> tracking ov seen t -> ~ occurs sig seen ->
  check set_match find_iter ac_find_iter f64_log2 t d = (Pass, t') ->
  tracking ov (seen ++ d) t' /\ ~ occurs sig (seen ++ d).
Proof using Hg.
  intros Hl (Hw & Hr & Ho & Hc) Hno. unfold check. destruct d as [|b d]; cbn [is_nil].
  { intros [= <-]. rewrite app_nil_r. by repeat split. }
  unfold inspect. unfold inspect_waf. rewrite Hw, Hr.
  destruct (evaluate_body set_match waf (t_carry t ++ b :: d)) as [h|] eqn:E.
  { rewrite decide_True by apply (g_block Hg). done. }
  assert (Hno' : ~ occurs sig (seen ++ b :: d)).
  { intros Hocc. apply (occurs_carry sig ov) in Hocc; [|done | done]. rewrite <- Hc in Hocc. by apply evaluate_body_hit in Hocc. }
  destruct (inspect_dlp _ _ _ t _ _) as [v t1] eqn:Ed. intros [= -> <-]. split; [|done].
  apply inspect_dlp_same in Ed as (E1 & E2 & E3). unfold tracking, set_carry. cbn [t_waf waf_reported t_overlap t_carry].
  rewrite E1, E2, E3. repeat split; [done..|]. rewrite Hc, Ho. apply last_bytes_app.
Qed.

Lemma stream_tail_clean ov events : forall seen t out e, (length sig <= ov + 1)%nat -> tracking ov seen t ->
  ~ occurs sig seen -> stream_tail set_match find_iter ac_find_iter f64_log2 t events = (out, e) ->
  ~ occurs sig (seen ++ out) /\ out `prefix_of` data_of events.
Proof using Hg.
  induction events as [|[d| | |] events IH]; intros seen t out e Hl Ht Hno; cbn [stream_tail data_of].
  - intros [= <- <-]. by rewrite app_nil_r.
  - destruct (check set_match find_iter ac_find_iter f64_log2 t d) as [[|] t'] eqn:Ec.
    + destruct (check_pass ov seen t d t' Hl Ht Hno Ec) as [Ht' Hno'].
      destruct (stream_tail _ _ _ _ t' events) as [o f] eqn:Es. intros [= <- <-].
      destruct (IH (seen ++ d) t' o f Hl Ht' Hno' Es) as [H1 H2]. rewrite app_assoc. split; [done|].
      by apply prefix_app.
    + intros [= <- <-]. rewrite app_nil_r. split; [done | apply prefix_nil].
  - by apply IH.
  - intros [= <- <-]. rewrite app_nil_r. split; [done | apply prefix_nil].
  - intros [= <- <-]. rewrite app_nil_r. split; [done | apply prefix_nil].
Qed.

Lemma read_window_data win mx head events h rest ended : read_window win mx head events = WindowOk h rest ended ->
  head ++ data_of events = h ++ data_of rest.
Proof using.
  revert head. induction events as [|[d| | |] events IH]; intros head; cbn [read_window]; destruct (len head <? win);
    try (by intros [= <- <- _]); try done.
  - destruct (mx <? len (head ++ d)); [done|]. intros H%IH. cbn [data_of]. by rewrite app_assoc.
  - destruct (mx <? len head); [done|]. apply IH.
Qed.

Lemma dlp_inbound_body dlp body out m c :
  (forall d, dlp = Some d -> mode d <> Redact) ->
  dlp_inbound find_iter ac_find_iter f64_log2 char_alphanumeric char_lowercase hash_one dlp body = Some (Forward out m, c) ->
  out = body.
Proof using.
  intros Hd. unfold dlp_inbound. destruct dlp as [d|]; [|by intros [= <- _ _]]. specialize (Hd d eq_refl).
  destruct (scan_request d); [|by intros [= <- _ _]]. destruct (scan _ _ _ d _); [by intros [= <- _ _]|].
  destruct (mode d); [by intros [= <- _ _].. | done].
Qed.

(** C20.  A signature of a blocking body rule never reaches the upstream whole: whatever frames the upload
    arrives in, what was forwarded when it ended is a prefix of the body without an occurrence of it,
    when the signature is at most one byte longer than the overlap. *)
Theorem windowed_upload_blocks w dlp max_body path headers host declared events sent fin :
  limits limited -> (length sig <= Z.to_nat (overlap w) + 1)%nat -> (forall d, dlp = Some d -> mode d <> Redact) ->
  windowed_upload set_match to_str_ok find_iter ac_find_iter f64_log2 char_alphanumeric char_lowercase hash_one limited
    w waf dlp max_body path headers host declared events = Some (Forwarded sent fin) ->
  ~ occurs sig sent /\ sent `prefix_of` data_of events.
Proof using Hg.
  intros Hlim Hl Hd. unfold windowed_upload.
  destruct (match declared with Some _ => _ | None => _ end); [done|].
  destruct (read_window (window w) max_body [] events) as [|head rest ended] eqn:Er; [done|].
  apply read_window_data in Er as Ehead. cbn [app] in Ehead. unfold screen.
  destruct (evaluate set_match to_str_ok waf path headers (Some (default [] host)) head) as [h|] eqn:Ee; cbn [fst].
  { by rewrite (g_block Hg). }
  assert (Hno : ~ occurs sig head) by (intros Ho; by apply (evaluate_hit path headers (Some (default [] host))) in Ho).
  destruct (dlp_inbound _ _ _ _ _ _ dlp head) as [[[|body m] c]|] eqn:Ei; cbn [mbind option_bind fst]; [done| |done].
  apply dlp_inbound_body in Ei as ->; [|done]. rewrite Ehead. destruct ended.
  - intros [= <- _]. split; [done | by exists (data_of rest)].
  - rewrite guards_needs_body. set (t := tail_new _ _ _ _ _).
    destruct (stream_tail _ _ _ _ t _) as [out e] eqn:Es. intros [= <- _].
    apply (stream_tail_clean (Z.to_nat (overlap w)) _ head) in Es as [H1 H2]; [| done | by repeat split | done].
    split; [done|]. apply prefix_app. etrans; [exact H2|]. by apply limits_data.
Qed.
End Laws.

(** The limit as the crate documents it: a frame over what is left ends the body. *)
Fixpoint limit_frames (left : Z) (events : list BodyEvent) : list BodyEvent :=
  match events with
  | Data d :: events => if left <? len d then [TooLong] else Data d :: limit_frames (left - len d) events
  | e :: events => e :: limit_frames left events
  | [] => []
  end.

Lemma limit_frames_limits : limits limit_frames.
Proof.
  intros n events. revert n. induction events as [|e events IH]; intros n; [by left|].
  assert (H : forall k, limit_frames k events = events \/ (exists a b, events = a ++ b /\ limit_frames k events = a ++ [TooLong])
            -> e :: limit_frames k events = e :: events
               \/ (exists a b, e :: events = a ++ b /\ e :: limit_frames k events = a ++ [TooLong])).
  { intros k [->|(a & b & -> & ->)]; [by left|]. right. by exists (e :: a), b. }
  destruct e as [d| | |]; cbn [limit_frames]; try apply H, IH.
  destruct (n <? len d); [right; by exists [], (Data d :: events) | apply H, IH].
Qed.

(** A rule set of one literal. *)
Definition literal_set (p text : bytes) : bool := match find_sub p text with Some _ => true | None => false end.

Lemma literal_signature p : p <> [] -> Forall (fun c => c < 128) p -> signature literal_set p p.
Proof.
  intros Hne Ha. split; [done|]. split; [done|]. intros x y. unfold literal_set.
  destruct (find_sub p (x ++ p ++ y)) eqn:E; [done|]. exfalso.
  apply (find_sub_none _ _ (length x) y E); [rewrite length_app; lia | apply drop_app_length].
Qed.

Definition sample_rule : CompiledRule := mkRule (lit "xss") (lit "xss") ALL (lit "<script>").
Definition sample_waf : WafEngine := mkWafEngine WafBlock true false true [sample_rule].

Lemma sample_guards : guards literal_set sample_waf sample_rule (lit "<script>").
Proof.
  split; [done | done | left | done|]. apply literal_signature; [done|]. apply (bool_decide_unpack _). vm_compute. exact I.
Qed.

(** The upload of the witness: the signature is split over the window and two frames. *)
Definition sample_upload : option Upload :=
  windowed_upload literal_set (fun _ => true) (fun (_ : unit) _ => []) (fun (_ : unit) _ => []) id (fun _ => true) id len
    limit_frames (mkWindow (lit "/up/") 8 7) sample_waf None 1000 (lit "/up/a") [] None None
    [Data (lit "name=<sc"); Data (lit "ri"); Data (lit "pt>alert")].

Lemma windowed_upload_blocks_witness :
  sample_upload = Some (Forwarded (lit "name=<scri") Blocked)
  /\ ~ occurs (lit "<script>") (lit "name=<scri").
Proof.
  assert (E : sample_upload = Some (Forwarded (lit "name=<scri") Blocked)) by (vm_compute; reflexivity).
  split; [exact E|].
  apply (windowed_upload_blocks literal_set (fun _ => true) (fun (_ : unit) _ => []) (fun (_ : unit) _ => []) id
    (fun _ => true) id len limit_frames sample_waf sample_rule (lit "<script>") sample_guards
    (mkWindow (lit "/up/") 8 7) None 1000 (lit "/up/a") [] None None
    [Data (lit "name=<sc"); Data (lit "ri"); Data (lit "pt>alert")] (lit "name=<scri") Blocked limit_frames_limits);
    [vm_compute; lia | done | exact E].
Defined.
