(* ===== verification/Pipeline.v ===== *)
(** * Pipeline: one request through the edge ([src/src/proxy.rs], [handle], [handle_inner], [proxy_upgrade])

    The order in which the components see a request: internal paths, host, pending policy, access
    control, header size, quota, rate limit, CORS preflight, authentication, per-key limit, methods,
    upgrades, body, WAF, DLP, the LLM gateway, and what is sent upstream; then the response back to the
    client.  Metrics, logs and spans are left out; the [governor] limiters and the libraries the
    components take as parameters are parameters here too. *)

From S2P Require Import Prelude Text Net Units Float Access Limiter Budget Http Pool Failover ClientCert Auth KeyVault Llm LlmGate Forwarding Cors Waf Dlp StreamInspect.

(** ** Answers *)

Definition CONTENT_TYPE : bytes := lit "content-type".
Definition CONTENT_LENGTH : bytes := lit "content-length".
Definition RETRY_AFTER : bytes := lit "retry-after".
Definition WWW_AUTHENTICATE : bytes := lit "www-authenticate".
Definition REQUEST_ID_HEADER : bytes := lit "x-request-id".

Definition text (status : Z) (msg : bytes) : Resp :=
  mkResp status [(CONTENT_TYPE, lit "text/plain; charset=utf-8")] msg.

Definition with_header (r : Resp) (n v : bytes) : Resp :=
  mkResp (r_status r) (insert_h (r_headers r) n v) (r_body r).

(** A finished request: the outcome it is counted under, and the response. *)
Record Finished : Type := mkFinished { f_outcome : bytes; f_resp : Resp }.

(** ** Libraries *)

(** The three in-process limiters. *)
Inductive LocalLimiter : Type := LRoute (prefix : bytes) | LIp | LKey.

(** What the components take from the crates they use: header types, hashes and encodings, regular
    expressions, JSON, tokens, [http_body_util] and [governor]. *)
Record Libs {RegexSet Regex Automaton Key Phc G Date Time Verifier : Type} : Type := mkLibs {
  to_str_ok : bytes -> bool; value_ok : bytes -> bool; header_name : bytes -> option bytes;
  uri_ok : bytes -> bool;                                                  (** [Uri::try_from] *)
  b64_decode : bytes -> option bytes; phc_new : bytes -> option Phc; phc_verify : Phc -> bytes -> bool;
  hash_str : bytes -> Z; decode_header : bytes -> option (Algorithm * option bytes);
  decode : bytes -> Key -> Validation -> option Claims;
  set_match : RegexSet -> bytes -> bool; find_iter : Regex -> bytes -> list (nat * nat);
  ac_find_iter : Automaton -> bytes -> list (nat * nat); f64_log2 : f64 -> f64; f64_ln : f64 -> f64;
  char_alphanumeric : bytes -> bool; char_lowercase : bytes -> bytes; hash_one : bytes -> Z;
  parse_model_field : bytes -> option (option bytes); parse_max_tokens_field : bytes -> option MaxTokensField;
  parse_usage_field : bytes -> option (option UsageWire); parse_frame : bytes -> option Frame;
  parse_usage_value : bytes -> option (option UsageWire);
  limited : Z -> list BodyEvent -> list BodyEvent;                         (** [http_body_util::Limited] *)
  check_local : G -> LocalLimiter -> bytes -> bool * G;                    (** [governor]'s [check_key] *)
  error_chain : list ErrorLink -> bytes;
  from_calendar_date : Z -> Z -> Z -> option Date; from_hms : Z -> Z -> Z -> option Time;
  unix_timestamp : Date -> Time -> Z; b64url : bytes -> bytes; b64_engine : B64Engine -> bytes -> option bytes;
  digest : bytes -> bytes; verify_client_cert : Verifier -> bytes -> list bytes -> Z -> bool
}.
Arguments Libs : clear implicits.

(** A stage answers the request itself or lets it go on. *)
Inductive Step (A : Type) : Type := Reply (f : Finished) | Go (a : A).
Arguments Reply {A}.
Arguments Go {A}.

(** ** The request and the runtime *)

Record Request : Type := mkRequest {
  method : bytes; path : bytes; query : option bytes; headers : Headers;
  uri_host : option bytes; uri_port : option Z; uri_scheme : option bytes; version_11 : bool;
  cert : option ClientCert; body : list BodyEvent
}.

(** The path and query, as sent. *)
Definition raw_path (r : Request) : bytes :=
  path r ++ match query r with Some q => [63] ++ q | None => [] end.

Section Handler.
Context {RegexSet Regex Automaton Key Phc G Date Time Verifier St B : Type} `{Store St} `{BStore B}.

Record Runtime : Type := mkRuntime {
  access : option AccessPolicy; max_header_bytes : Z; enforce_quota : bool; ratelimit_enabled : bool;
  route_limiters : list bytes; ip_limiter : bool; key_limiter : bool;
  cors : option CorsPolicy; auth : AuthEngine (Key := Key); auth_cfg : AuthCfg; allow_methods : list bytes;
  websocket_passthrough : bool; waf : WafEngine (RegexSet := RegexSet);
  dlp : option (DlpEngine (Regex := Regex) (Automaton := Automaton)); gate : GateCfg;
  max_body : Z; stream_requests : bool; stream_inspect : list InspectWindow;
  max_response_body : Z; stream_passthrough : bool; stream_responses : bool;
  forwarders : Forwarders; tls_enabled : bool; client_cert_header : ForwardPolicy;
  upstream_routes : list (bytes * Pool); default_upstream : Pool; headers_cfg : HeadersCfg
}.

(** What requests share before they reach the gateway: the shared-store limiter when there is one, the
    in-process limiters, and the cached keys. *)
Record Shared : Type := mkShared {
  distributed : option (DistributedLimiter St); local : G; jwks : option (CachedKeys (Key := Key))
}.

(** What the control plane says, and the clocks. *)
Record Ambient : Type := mkAmbient {
  policy_pending : bool; quota_blocked : bool; quota_reset : Z; unix_now : Z; store_now : Z
}.

Context (L : Libs RegexSet Regex Automaton Key Phc G Date Time Verifier).

(** A look in the JWKS cache, with the cache after it. *)
Variable jwks_key : option (CachedKeys (Key := Key)) -> option bytes -> result Key * option (CachedKeys (Key := Key)).

Definition finish (rid : bytes) (outcome : bytes) (r : Resp) : Finished :=
  mkFinished outcome (if value_ok L rid then with_header r REQUEST_ID_HEADER rid else r).

Abbreviation reply rid outcome r := (Reply (finish rid outcome r)).

(** ** Admission: steps 0 to 4 of [handle_inner] *)

Definition longest_route (prefixes : list bytes) (path : bytes) : option bytes :=
  max_by_key len (List.filter (fun p => starts_with path p) prefixes).

(** Step 1. *)
Definition rate_limit (rt : Runtime) (e : Ambient) (ip : IpAddr) (path : bytes) (s : Shared) : Admit * Shared :=
  if negb (ratelimit_enabled rt) then (Allowed, s)
  else match distributed s with
  | Some d => let '(v, d) := check_ip_route d ip path (store_now e) in (v, mkShared (Some d) (local s) (jwks s))
  | None =>
      let chosen := match longest_route (route_limiters rt) path with
                    | Some p => Some (LRoute p, lit "route")
                    | None => if ip_limiter rt then Some (LIp, lit "ip") else None
                    end in
      match chosen with
      | None => (Allowed, s)
      | Some (l, scope) =>
          let '(ok, g) := check_local L (local s) l (show_ip ip) in
          (if ok then Allowed else Limited scope, mkShared None g (jwks s))
      end
  end.

(** Step 3. *)
Definition key_limit (rt : Runtime) (e : Ambient) (principal : option bytes) (s : Shared) : Admit * Shared :=
  match principal with
  | None => (Allowed, s)
  | Some p =>
      match distributed s with
      | Some d => let '(v, d) := check_key d p (store_now e) in (v, mkShared (Some d) (local s) (jwks s))
      | None =>
          if key_limiter rt then
            let '(ok, g) := check_local L (local s) LKey p in
            (if ok then Allowed else Limited (lit "key"), mkShared None g (jwks s))
          else (Allowed, s)
      end
  end.

Definition quota_response (e : Ambient) : Resp :=
  let r := text 429 (lit "Quota Exceeded") in
  if 0 <? quota_reset e then
    let v := dec (Z.max 0 (quota_reset e - unix_now e)) in
    if value_ok L v then with_header r RETRY_AFTER v else r
  else r.

Definition unauthorized_response (c : Challenge) : Resp :=
  let r := text 401 (lit "Unauthorized") in
  match match c with ChBasic v => Some v | ChBearer => Some (lit "Bearer") | ChNone => None end with
  | Some v => if value_ok L v then with_header r WWW_AUTHENTICATE v else r
  | None => r
  end.

Definition method_allowed (rt : Runtime) (m : bytes) : bool :=
  is_nil (allow_methods rt) || existsb (fun x => eq_ignore_ascii_case x m) (allow_methods rt).

(** A limiter that does not let the request on. *)
Definition limited_reply {A} (rid : bytes) (v : Admit) : option (Step A) :=
  match v with
  | Allowed => None
  | Limited _ => Some (reply rid (lit "rate_limited") (text 429 (lit "Too Many Requests")))
  | Limiter.Error => Some (reply rid (lit "limiter_error") (text 503 (lit "Service Unavailable")))
  end.

(** Steps 2 to 4: who is asking, that principal's own limit, and the method. *)
Definition authenticate (rt : Runtime) (e : Ambient) (rid : bytes) (r : Request) (s : Shared)
    : Step (option bytes * option Claims) * Shared :=
  let '(d, cache) := authorize_with_cert (to_str_ok L) (b64_decode L) (phc_new L) (phc_verify L) (hash_str L) (decode_header L)
                       (decode L) (auth rt) (auth_cfg rt) (headers r) (cert r) (jwks_key (jwks s)) (jwks s) in
  let s := mkShared (distributed s) (local s) cache in
  match match d with
        | Deny c => None
        | Allow p => Some (p, None)
        | AllowJwt p claims => Some (p, Some claims)
        end with
  | None => (reply rid (lit "unauthorized")
               (unauthorized_response match d with Deny c => c | _ => ChNone end), s)
  | Some (principal, claims) =>
      let '(v, s) := key_limit rt e principal s in
      match limited_reply rid v with
      | Some a => (a, s)
      | None =>
          if method_allowed rt (method r) then (Go (principal, claims), s)
          else (reply rid (lit "method_not_allowed") (text 405 (lit "Method Not Allowed")), s)
      end
  end.

(** The preflight a CORS policy answers. *)
Definition preflight (rt : Runtime) (r : Request) : option Resp :=
  if beq (method r) (lit "OPTIONS") then
    match cors rt with
    | Some p => match preflight_response (value_ok L) (to_str_ok L) p (headers r) with
                | Some (status, h) => Some (mkResp status h [])
                | None => None
                end
    | None => None
    end
  else None.

(** The whole of admission: the host it found, and the principal with its claims. *)
Definition admission (rt : Runtime) (e : Ambient) (rid : bytes) (ip : IpAddr) (host_check : result (option bytes))
    (r : Request) (s : Shared) : Step (option bytes * (option bytes * option Claims)) * Shared :=
  if starts_with (path r) (lit "/__edgeguard/") then (reply rid (lit "not_found") (text 404 (lit "Not Found")), s)
  else match host_check with
  | Err _ => (reply rid (lit "bad_request") (text 400 (lit "Bad Request")), s)
  | Ok host =>
      if policy_pending e
      then (reply rid (lit "no_policy") (with_header (text 503 (lit "Service Unavailable")) RETRY_AFTER (lit "5")), s)
      else if match access rt with Some p => negb (allowed p ip) | None => false end
      then (reply rid (lit "ip_denied") (text 403 (lit "Forbidden")), s)
      else if (0 <? max_header_bytes rt) && (max_header_bytes rt <? header_bytes (headers r))
      then (reply rid (lit "header_too_large") (text 431 (lit "Request Header Fields Too Large")), s)
      else if enforce_quota rt && quota_blocked e then (reply rid (lit "over_quota") (quota_response e), s)
      else
        let '(v, s) := rate_limit rt e ip (raw_path r) s in
        match limited_reply rid v with
        | Some a => (a, s)
        | None =>
            match preflight rt r with
            | Some resp => (reply rid (lit "cors_preflight") resp, s)
            | None =>
                match authenticate rt e rid r s with
                | (Reply f, s) => (Reply f, s)
                | (Go who, s) => (Go (host, who), s)
                end
            end
        end
  end.

(** ** Inspection: steps 4.5 to 6 *)

(** The text of an answer of the gateway. *)
Definition gate_text (a : Answer) : bytes :=
  if beq (outcome a) (lit "forbidden") then lit "Forbidden"
  else if beq (outcome a) (lit "bad_gateway") then lit "Bad Gateway"
  else if beq (outcome a) (lit "unauthorized") then lit "Unauthorized"
  else if beq (outcome a) (lit "unpriced_model") then lit "Payment Required: model not in price book"
  else if beq (outcome a) (lit "over_budget") then
    if status a =? 402 then lit "Payment Required: budget exhausted" else lit "Too Many Requests"
  else lit "Service Unavailable".

Definition gate_reply {A} (rid : bytes) (a : Answer) : Step A := reply rid (outcome a) (text (status a) (gate_text a)).

(** An upgrade: screened without a body, and its virtual key exchanged; the headers to tunnel with. *)
Definition upgrade_gate (rt : Runtime) (rid : bytes) (host : option bytes) (claims : option Claims) (r : Request)
    : Step Headers :=
  match (screen (set_match L) (to_str_ok L) (waf rt) (raw_path r) (headers r) host []).1 with
  | VBlock => reply rid (lit "forbidden") (text 403 (lit "Forbidden"))
  | _ =>
      match vault_gate (to_str_ok L) (value_ok L) (g_vault (gate rt)) (headers r) claims None with
      | VaultDenied a => gate_reply rid a
      | Swapped v => Go (insert_h (headers r) AUTHORIZATION v)
      | Skipped => Go (headers r)
      end
  end.

Definition llm_reads_body (rt : Runtime) : bool :=
  Llm.enabled (g_llm (gate rt)) || bool_decide (is_Some (g_vault (gate rt))) || bool_decide (is_Some (g_engine (gate rt))).
Definition dlp_scans_request (rt : Runtime) : bool :=
  match dlp rt with Some d => scan_request d | None => false end.

Definition stream_request (rt : Runtime) : bool :=
  streams_request (stream_requests rt) (needs_body (waf rt)) (dlp_scans_request rt) (llm_reads_body rt).

Definition inspect_window (rt : Runtime) (r : Request) : option InspectWindow :=
  if stream_request rt then None
  else match for_path (stream_inspect rt) (raw_path r) with
       | Some w =>
           if inspects_window (stream_requests rt) true (needs_body (waf rt)) (dlp_scans_request rt)
                (match dlp rt with Some d => bool_decide (Dlp.mode d = Redact) | None => false end) (llm_reads_body rt)
           then Some w else None
       | None => None
       end.

Definition declared_length (r : Request) : option Z :=
  match get (headers r) CONTENT_LENGTH with
  | Some v => if to_str_ok L v then parse_uint 64 (trim v) else None
  | None => None
  end.

(** [collect] of a body: its bytes, unless it fails. *)
Fixpoint to_bytes (events : list BodyEvent) : option bytes :=
  match events with
  | [] => Some []
  | Data d :: events => b ← to_bytes events; Some (d ++ b)
  | Trailers :: events => to_bytes events
  | (TooLong | BodyFailed) :: _ => None
  end.

(** The body as it is inspected: read whole, its window, or not read at all. *)
Inductive Inbody : Type :=
| Whole (b : bytes)
| Windowed (head : bytes) (rest : list BodyEvent) (w : InspectWindow)
| Flowing (events : list BodyEvent).

(** [None] is the answer that it is too large. *)
Definition read_body (rt : Runtime) (r : Request) : option Inbody :=
  let over := match declared_length r with Some n => max_body rt <? n | None => false end in
  match inspect_window rt r with
  | Some w =>
      if over then None
      else match read_window (window w) (max_body rt) [] (body r) with
           | WindowTooLarge => None
           | WindowOk head rest ended => Some (if ended then Whole head else Windowed head rest w)
           end
  | None =>
      if stream_request rt then if over then None else Some (Flowing (limited L (max_body rt) (body r)))
      else b ← to_bytes (limited L (max_body rt) (body r)); Some (Whole b)
  end.

Definition body_bytes (b : Inbody) : bytes :=
  match b with Whole b => b | Windowed head _ _ => head | Flowing _ => [] end.

(** What goes upstream: a buffered body, or what streams and how it ends. *)
Inductive UpBody : Type := UWhole (b : bytes) | UStream (sent : bytes) (fin : UploadEnd).

Definition no_tail : TailInspector (RegexSet := RegexSet) (Regex := Regex) (Automaton := Automaton) :=
  tail_new None None 0 [] false.

(** The upload, once its inspected part [b] passed; [reported] says the WAF has reported the request. *)
Definition up_body (rt : Runtime) (inb : Inbody) (b : bytes) (reported : bool) : UpBody :=
  let stream t events := stream_tail (set_match L) (find_iter L) (ac_find_iter L) (f64_log2 L) t events in
  match inb with
  | Whole _ => UWhole b
  | Windowed _ rest w =>
      let t := tail_new (if needs_body (waf rt) then Some (waf rt) else None)
                 (match dlp rt with Some d => if scan_request d then Some d else None | None => None end)
                 (Z.to_nat (overlap w)) b reported in
      let '(out, fin) := stream t (limited L (sat_sub (max_body rt) (len b)) rest) in UStream (b ++ out) fin
  | Flowing events => let '(out, fin) := stream no_tail events in UStream out fin
  end.

(** Steps 5 and 6: the body read, screened and scanned; the masks it left.  [None] is a panic. *)
Definition inspect_request (rt : Runtime) (rid : bytes) (host : option bytes) (r : Request)
    : option (Step (UpBody * MaskMap)) :=
  match read_body rt r with
  | None => Some (reply rid (lit "payload_too_large") (text 413 (lit "Payload Too Large")))
  | Some inb =>
      let forbidden := Some (reply rid (lit "forbidden") (text 403 (lit "Forbidden"))) in
      match (screen (set_match L) (to_str_ok L) (waf rt) (raw_path r) (headers r) host (body_bytes inb)).1 with
      | VBlock => forbidden
      | v =>
          '(d, _) ← dlp_inbound (find_iter L) (ac_find_iter L) (f64_log2 L) (char_alphanumeric L) (char_lowercase L)
                      (hash_one L) (dlp rt) (body_bytes inb);
          match d with
          | Refused => forbidden
          | Forward b m => Some (Go (up_body rt inb b (match v with VReported => true | _ => false end), m))
          end
      end
  end.

(** What the gateway reads of it. *)
Definition llm_body (u : UpBody) : bytes := match u with UWhole b => b | UStream _ _ => [] end.

(** ** The upstream request: step 7 *)

(** The headers a request goes upstream with.  [trace] is the [traceparent] of a recorded request, [auth_]
    what the vault puts in [Authorization]. *)
Definition upstream_headers (rt : Runtime) (p : Pool) (rid : bytes) (ip : IpAddr) (trusted : bool)
    (host trace auth_ : option bytes) (c : option ClientCert) (h : Headers) : Headers :=
  let fwd := strip_hop_by_hop (to_str_ok L) (header_name L) h in
  let fwd := strip_sticky_cookie (value_ok L) p fwd in
  let fwd := remove fwd CONTENT_LENGTH in
  let up := forward_headers (value_ok L) fwd [] in
  let up := set_client_cert_header (value_ok L) up (client_cert_header rt) c in
  let up := set_forwarding_headers (value_ok L) up ip (forwarded_proto (to_str_ok L) (tls_enabled rt) trusted h) host in
  let up := if value_ok L rid then insert_h up REQUEST_ID_HEADER rid else up in
  let up := match trace with
            | Some t => remove (if value_ok L t then insert_h up (lit "traceparent") t else up) (lit "tracestate")
            | None => up
            end in
  vault_headers up auth_.

(** The handshake of an upgrade ([proxy_upgrade]). *)
Definition upgrade_headers (rt : Runtime) (p : Pool) (rid : bytes) (ip : IpAddr) (trusted : bool)
    (host : option bytes) (c : option ClientCert) (h : Headers) : Headers :=
  let upgrade := get h (lit "upgrade") in
  let fwd := strip_hop_by_hop (to_str_ok L) (header_name L) h in
  let fwd := strip_sticky_cookie (value_ok L) p fwd in
  let up := forward_headers (value_ok L) fwd [] in
  let up := set_client_cert_header (value_ok L) up (client_cert_header rt) c in
  let up := insert_h up (lit "connection") (lit "upgrade") in
  let up := match upgrade with Some v => insert_h up (lit "upgrade") v | None => up end in
  let up := set_forwarding_headers (value_ok L) up ip (forwarded_proto (to_str_ok L) (tls_enabled rt) trusted h) host in
  if value_ok L rid then insert_h up REQUEST_ID_HEADER rid else up.

(** ** The response: step 8 *)

(** What the upstream answered beyond its status: its headers, its body, and whether the deadline passed
    before the body was read. *)
Record UpResponse : Type := mkUpResponse { u_headers : Headers; u_body : list BodyEvent; u_late : bool }.

(** What a streamed body is put through ([CountingBody]). *)
Inductive Filter : Type :=
| Plain
| Record_ (e : DlpEngine (Regex := Regex) (Automaton := Automaton)) (s : Scanner)
| Rewrite (e : DlpEngine (Regex := Regex) (Automaton := Automaton)) (s : Scanner)
| Unmask (m : MaskMap) (carry : bytes).

(** One data frame, and the flush before trailers and at the end. *)
Definition filter_frame (f : Filter) (d : bytes) : option (bytes * Filter) :=
  match f with
  | Plain => Some (d, Plain)
  | Record_ e s => Some (d, Record_ e (record_only (find_iter L) (ac_find_iter L) (f64_log2 L) e s d))
  | Rewrite e s =>
      '(out, s) ← redact_frame (find_iter L) (ac_find_iter L) (f64_log2 L) (char_alphanumeric L) (char_lowercase L)
                    (hash_one L) e s d;
      Some (out, Rewrite e s)
  | Unmask m carry => let '(out, carry) := unmask_stream m carry d in Some (out, Unmask m carry)
  end.

Definition filter_flush (f : Filter) : option (bytes * Filter) :=
  match f with
  | Plain | Record_ _ _ => Some ([], f)
  | Rewrite e s =>
      '(out, s) ← scanner_flush (find_iter L) (ac_find_iter L) (f64_log2 L) (char_alphanumeric L) (char_lowercase L)
                    (hash_one L) e s;
      Some (out, Rewrite e s)
  | Unmask m carry => Some (flush_unmask m carry, Unmask m [])
  end.

Definition if_any (out : bytes) : list bytes := match out with [] => [] | _ => [out] end.

(** The data frames the client receives; an error of the body ends them.  [None] is a panic. *)
Fixpoint streamed_frames (f : Filter) (events : list BodyEvent) : option (list bytes) :=
  match events with
  | [] => '(out, _) ← filter_flush f; Some (if_any out)
  | Data d :: events => '(out, f) ← filter_frame f d; rest ← streamed_frames f events; Some (out :: rest)
  | Trailers :: events =>
      '(out, f) ← filter_flush f; rest ← streamed_frames f events; Some (if_any out ++ rest)
  | (TooLong | BodyFailed) :: _ => Some []
  end.

Definition response_filter (rt : Runtime) (m : MaskMap) : Filter :=
  match dlp rt with
  | Some d =>
      if reversible d then Unmask m []
      else if scan_response d then (if stream_redact d then Rewrite else Record_) d (mkScanner [] [])
      else Plain
  | None => Plain
  end.

Definition dlp_blocks_response (rt : Runtime) : bool :=
  match dlp rt with Some d => scan_response d && bool_decide (Dlp.mode d = Block) | None => false end.

Definition sse_stream (rt : Runtime) (h : Headers) : bool :=
  stream_passthrough rt && is_event_stream (to_str_ok L) h && negb (dlp_blocks_response rt).

Definition whole_stream (rt : Runtime) (h : Headers) (model : option bytes) : bool :=
  negb (sse_stream rt h)
  && streams_any_response (stream_responses rt) (bool_decide (is_Some model))
       (match dlp rt with Some d => reversible d | None => false end)
       (match dlp rt with Some d => scan_response d | None => false end).

Definition harden (rt : Runtime) (h : Headers) : Headers :=
  harden_response (to_str_ok L) (value_ok L) (header_name L) (headers_cfg rt) h.

(** The answer to the client, and how the exchange ends for the budget.  [None] is a panic. *)
Definition respond (rt : Runtime) (rid : bytes) (p : Pool) (a : Affinity) (t : Target) (model : option bytes)
    (m : MaskMap) (status : Z) (u : UpResponse) : option (Finished * Exchange) :=
  let h := match sticky_cookie (value_ok L) p a t with
           | Some c => append (u_headers u) (lit "set-cookie") c
           | None => u_headers u
           end in
  let strip h := strip_hop_by_hop (to_str_ok L) (header_name L) h in
  if sse_stream rt h || whole_stream rt h model then
    let out := strip h in
    let out := if sse_stream rt h then remove out CONTENT_LENGTH else out in
    let events := if whole_stream rt h model && (0 <? max_response_body rt)
                  then limited L (max_response_body rt) (u_body u) else u_body u in
    frames ← streamed_frames (response_filter rt m) events;
    Some (finish rid (lit "ok") (mkResp status (harden rt out) (concat frames)), Streamed frames)
  else
    let capped := 0 <? max_response_body rt in
    let bad outcome status msg := Some (finish rid outcome (text status msg), LlmGate.Failed) in
    if u_late u then bad (lit "upstream_timeout") 504 (lit "Gateway Timeout")
    else match to_bytes (if capped then limited L (max_response_body rt) (u_body u) else u_body u) with
    | None =>
        bad (if capped then lit "upstream_body_too_large" else lit "upstream_body_error") 502 (lit "Bad Gateway")
    | Some b =>
        let out := remove (strip h) CONTENT_LENGTH in
        '(r, _) ← dlp_outbound (find_iter L) (ac_find_iter L) (f64_log2 L) (char_alphanumeric L) (char_lowercase L)
                    (hash_one L) (dlp rt) m (mkResp status out b);
        Some (finish rid (lit "ok") (mkResp (r_status r) (harden rt (r_headers r)) (r_body r)),
              Buffered (is_event_stream (to_str_ok L) out) b)
    end.

(** ** The exchange *)

(** The network as one request meets it: what each attempt comes to, the response, whether an upload was
    read to its end, and the clocks. *)
Record Net : Type := mkNet {
  n_send : nat -> Target -> Headers -> UpBody -> Attempt; n_response : Target -> UpResponse; n_body_read : bool;
  n_now : nat -> Z; n_at_secs : nat -> Z;
  n_reads : bool -> bool -> Reads                       (** the in-flight counts a least-connections pool loads *)
}.

(** What a request needs to be forwarded. *)
Record Forwardable : Type := mkForwardable {
  fw_rid : bytes; fw_ip : IpAddr; fw_trusted : bool; fw_host : option bytes; fw_trace : option bytes
}.

(** The health records and the turn of the pool chosen. *)
Record Upstreams : Type := mkUpstreams { u_heap : heap; u_turn : Z }.

(** What left for the upstream. *)
Record Outgoing : Type := mkOutgoing { og_headers : Headers; og_body : UpBody }.

Definition pool_of (rt : Runtime) (r : Request) : Pool :=
  pick_upstream (upstream_routes rt) (default_upstream rt) (raw_path r).

Definition release_in_flight (s : Sent) (hp : heap) : heap :=
  if s_in_flight s then drop_in_flight (s_target s) hp else hp.

(** Steps 7 and 8.  [None] is a panic. *)
Definition exchange (rt : Runtime) (f : Forwardable) (r : Request) (model auth_ : option bytes) (m : MaskMap)
    (up : UpBody) (net : Net) (st : Upstreams) : option (Finished * Exchange * option Outgoing * Upstreams) :=
  let p := pool_of rt r in
  let rid := fw_rid f in
  let a := affinity (to_str_ok L) p (headers r) (path r) (query r) (fw_ip f) in
  let '(tries, turn) := order_for (f64_ln L) p (u_heap st) (n_reads net) (n_now net 0) (u_turn st) a in
  let uri_of t := base t ++ raw_path r in
  tries ← tries;
  first ← head tries;
  if negb (uri_ok L (uri_of first)) then
    Some (finish rid (lit "bad_gateway") (text 502 (lit "Bad Gateway")), LlmGate.Failed, None, mkUpstreams (u_heap st) turn)
  else
    let h := upstream_headers rt p rid (fw_ip f) (fw_trusted f) (fw_host f) (fw_trace f) auth_ (cert r) (headers r) in
    let again t := match up with UWhole _ => uri_ok L (uri_of t) | UStream _ _ => false end in
    '(sent, hp, _) ← send_to_pool (fun i t => n_send net i t h up) again (n_now net) (n_at_secs net) (error_chain L)
                       p tries (u_heap st);
    let out := Some (mkOutgoing h up) in
    let st := mkUpstreams (release_in_flight sent hp) turn in
    let bad outcome status msg := Some (finish rid outcome (text status msg), LlmGate.Failed, out, st) in
    match s_result sent with
    | Elapsed => bad (lit "upstream_timeout") 504 (lit "Gateway Timeout")
    | Failover.Failed _ =>
        match up, n_body_read net with
        | UStream _ Cut, true => bad (lit "payload_too_large") 413 (lit "Payload Too Large")
        | UStream _ Blocked, true => bad (lit "forbidden") 403 (lit "Forbidden")
        | _, _ => bad (lit "upstream_error") 502 (lit "Bad Gateway")
        end
    | Answered status =>
        '(fin, x) ← respond rt rid p a (s_target sent) model m status (n_response net (s_target sent));
        Some (fin, x, out, st)
    end.

(** [proxy_upgrade], for the headers the gate gave.  A tunnel stays in flight. *)
Definition tunnel (rt : Runtime) (f : Forwardable) (r : Request) (h : Headers) (net : Net) (st : Upstreams)
    : option (Finished * option Outgoing * Upstreams) :=
  let p := pool_of rt r in
  let rid := fw_rid f in
  let a := affinity (to_str_ok L) p h (path r) (query r) (fw_ip f) in
  let '(tries, turn) := order_for (f64_ln L) p (u_heap st) (n_reads net) (n_now net 0) (u_turn st) a in
  let uri_of t := base t ++ raw_path r in
  tries ← tries;
  first ← head tries;
  if negb (uri_ok L (uri_of first)) then
    Some (finish rid (lit "bad_gateway") (text 502 (lit "Bad Gateway")), None, mkUpstreams (u_heap st) turn)
  else
    let uh := upgrade_headers rt p rid (fw_ip f) (fw_trusted f) (fw_host f) (cert r) h in
    '(sent, hp, _) ← send_to_pool (fun i t => n_send net i t uh (UWhole [])) (fun t => uri_ok L (uri_of t))
                       (n_now net) (n_at_secs net) (error_chain L) p tries (u_heap st);
    let done fin hp := Some (fin, Some (mkOutgoing uh (UWhole [])), mkUpstreams hp turn) in
    let bad outcome status msg := done (finish rid outcome (text status msg)) (release_in_flight sent hp) in
    let u := n_response net (s_target sent) in
    let stripped := remove (strip_hop_by_hop (to_str_ok L) (header_name L) (u_headers u)) CONTENT_LENGTH in
    match s_result sent with
    | Elapsed => bad (lit "upstream_timeout") 504 (lit "Gateway Timeout")
    | Failover.Failed _ => bad (lit "upstream_error") 502 (lit "Bad Gateway")
    | Answered status =>
        if status =? 101 then
          let h := insert_h stripped (lit "connection") (lit "upgrade") in
          let h := match get (u_headers u) (lit "upgrade") with Some v => insert_h h (lit "upgrade") v | None => h end in
          done (finish rid (lit "ws_upgrade") (mkResp 101 h [])) hp
        else if u_late u then bad (lit "upstream_timeout") 504 (lit "Gateway Timeout")
        else match to_bytes (if 0 <? max_response_body rt then limited L (max_response_body rt) (u_body u) else u_body u) with
             | None => bad (lit "bad_gateway") 502 (lit "Bad Gateway")
             | Some b => done (finish rid (lit "ok") (mkResp status (harden rt stripped) b)) (release_in_flight sent hp)
             end
    end.

(** ** [handle_inner] *)

Variable clk : nat -> Z.
Variable uid : nat -> bytes.

(** Everything requests share. *)
Record World : Type := mkWorld { shared : Shared; budget : B; tick : nat; upstreams : Upstreams }.

Definition set_shared (w : World) (s : Shared) : World := mkWorld s (budget w) (tick w) (upstreams w).

(** What a request comes to: the answer, what was sent upstream, and the world after. *)
Record Outcome : Type := mkOutcome { finished : Finished; sent_up : option Outgoing; after : World }.

(** The reservation is settled when the exchange ends (a client that leaves during the commit is [LlmGate.commit_cut]). *)
Definition settle (rt : Runtime) (model : option bytes) (res : option Reservation) (x : Exchange) (b : B) (n : nat)
    : B * nat :=
  match g_engine (gate rt), model, res with
  | Some e, Some m, Some r =>
      let '(_, b, n) := end_exchange (parse_usage_field L) (parse_frame L) (parse_usage_value L) clk e (g_llm (gate rt))
                          m r x b n in (b, n)
  | _, _, _ => (b, n)
  end.

(** From the LLM gateway on. *)
Definition gated_exchange (rt : Runtime) (e : Ambient) (f : Forwardable) (principal : option bytes)
    (claims : option Claims) (r : Request) (up : UpBody) (m : MaskMap) (net : Net) (w : World) : option Outcome :=
  match llm_gate (to_str_ok L) (value_ok L) (parse_model_field L) (parse_max_tokens_field L) clk uid (gate rt)
          (headers r) principal claims (llm_body up) (unix_now e) (budget w) (tick w) with
  | (Rejected a, b, n) =>
      Some (mkOutcome (finish (fw_rid f) (outcome a) (text (status a) (gate_text a))) None
              (mkWorld (shared w) b n (upstreams w)))
  | (Passed auth_ model res, b, n) =>
      '(fin, x, out, us) ← exchange rt f r model auth_ m up net (upstreams w);
      let '(b, n) := settle rt model res x b n in
      Some (mkOutcome fin out (mkWorld (shared w) b n us))
  end.

Definition handle_inner (rt : Runtime) (e : Ambient) (ip : IpAddr) (trusted : bool)
    (host_check : result (option bytes)) (trace : option bytes) (fresh : bytes) (r : Request) (net : Net) (w : World)
    : option Outcome :=
  let rid := resolve_request_id (to_str_ok L) (headers r) fresh in
  match admission rt e rid ip host_check r (shared w) with
  | (Reply fin, s) => Some (mkOutcome fin None (set_shared w s))
  | (Go (host, (principal, claims)), s) =>
      let w := set_shared w s in
      let f := mkForwardable rid ip trusted host trace in
      if websocket_passthrough rt && is_upgrade_request (to_str_ok L) (headers r) then
        match upgrade_gate rt rid host claims r with
        | Reply fin => Some (mkOutcome fin None w)
        | Go h =>
            '(fin, out, us) ← tunnel rt f r h net (upstreams w);
            Some (mkOutcome fin out (mkWorld (shared w) (budget w) (tick w) us))
        end
      else
        step ← inspect_request rt rid host r;
        match step with
        | Reply fin => Some (mkOutcome fin None w)
        | Go (up, m) => gated_exchange rt e f principal claims r up m net w
        end
  end.

(** ** [handle] *)

(** The certificate a load balancer forwards, in place of the handshake's. *)
Definition apply_cert_header (th : option (TrustedHeader (Verifier := Verifier))) (now : Z) (hop : IpAddr)
    (r : Request) : Request :=
  match th with
  | None => r
  | Some t =>
      let '(_, q, _) := ClientCert.apply (from_calendar_date L) (from_hms L) (unix_timestamp L) (b64url L) (b64_engine L)
                          (digest L) (verify_client_cert L) t 0 now hop (ClientCert.mkReq (headers r) (cert r)) in
      mkRequest (method r) (path r) (query r) (ClientCert.r_headers q) (uri_host r) (uri_port r) (uri_scheme r)
        (version_11 r) (client_cert q) (body r)
  end.

(** [peer] is the address the connection names as the client's, [hop] the TCP peer. *)
Definition handle (rt : Runtime) (th : option (TrustedHeader (Verifier := Verifier))) (e : Ambient)
    (peer : SocketAddr) (hop : IpAddr) (trace : option bytes) (fresh : bytes) (r : Request) (net : Net) (w : World)
    : option Outcome :=
  let '(ip, _) := resolve (forwarders rt) (headers r) peer hop in
  let host_check := request_host (to_str_ok L) (headers r) (uri_host r) (uri_port r) (uri_scheme r) (version_11 r) in
  let origin := match get (headers r) ORIGIN with Some o => if to_str_ok L o then Some o else None | None => None end in
  let r := apply_cert_header th (unix_now e) hop r in
  o ← handle_inner rt e ip (believes (forwarders rt) hop) host_check trace fresh r net w;
  let resp := f_resp (finished o) in
  let resp := match origin, cors rt with
              | Some og, Some c => mkResp (r_status resp) (decorate_origin (value_ok L) (to_str_ok L) c og (r_headers resp))
                                     (r_body resp)
              | _, _ => resp
              end in
  Some (mkOutcome (mkFinished (f_outcome (finished o)) resp) (sent_up o) (after o)).
End Handler.
