(* ===== verification/PipelineLaws.v ===== *)
(** * PipelineLaws: what gets through the edge, and what it costs (theorems about [Pipeline])

    Nothing reaches an upstream that every gate has not let through; the headers it arrives with are the
    edge's where the edge answers for them and the client's elsewhere; what is refused early has spent
    nothing; and a response that must not leave does not. *)

From S2P Require Import Prelude Telemetry Text Utf8 Net Units Float Access Limiter Budget Http Health Pool Failover ClientCert Auth KeyVault Llm LlmGate Forwarding ForwardingLaws Cors Waf Dlp StreamInspect Pipeline.

(** ** Headers on the way upstream *)

(** Copying headers one by one keeps every value of every name. *)
Lemma get_all_copy from : forall to n,
  get_all (foldl (fun to (e : bytes * bytes) => append to e.1 e.2) to from) n = get_all to n ++ get_all from n.
Proof.
  induction from as [|e from IH]; intros to n; cbn [foldl]; [by rewrite app_nil_r|].
  rewrite IH, get_all_append, <- app_assoc. f_equal.
  unfold get_all. cbn [List.filter]. unfold named. destruct (decide (n = e.1)) as [->|Hne].
  - by rewrite beq_refl.
  - destruct (beq e.1 n) eqn:E; [apply beq_true in E; congruence|done].
Qed.

Lemma get_all_filter f h n :
  (forall v, f (n, v) = true) -> get_all (List.filter f h) n = get_all h n.
Proof.
  intros Hf. unfold get_all. induction h as [|[m v] h IH]; [done|]. cbn [List.filter].
  unfold named in *. cbn [fst] in *. destruct (beq m n) eqn:E.
  - apply beq_true in E. subst m. rewrite Hf. cbn [List.filter fst]. rewrite beq_refl. cbn [map]. by rewrite IH.
  - destruct (f (m, v)); cbn [List.filter fst]; [rewrite E|]; exact IH.
Qed.

Lemma get_all_filter_none f h n : (forall v, f (n, v) = false) -> get_all (List.filter f h) n = [].
Proof.
  intros Hf. unfold get_all. induction h as [|[m v] h IH]; [done|]. cbn [List.filter].
  unfold named in *. destruct (f (m, v)) eqn:E; [|exact IH]. cbn [List.filter fst].
  destruct (beq m n) eqn:E2; [apply beq_true in E2; congruence|exact IH].
Qed.

Lemma get_all_forward_headers value_ok from n :
  n <> lit "cookie" ->
  get_all (forward_headers value_ok from []) n = if decide (n = lit "host") then [] else get_all from n.
Proof.
  intros Hc. unfold forward_headers.
  set (to := foldl _ _ _).
  assert (Hto : get_all to n = if decide (n = lit "host") then [] else get_all from n).
  { unfold to. rewrite get_all_copy. cbn [get_all List.filter map app]. destruct (decide (n = lit "host")) as [->|Hn].
    - by apply get_all_filter_none.
    - apply get_all_filter. intros v. unfold named. cbn [fst].
      destruct (beq n (lit "host")) eqn:E1; [by apply beq_true in E1|].
      destruct (beq n (lit "cookie")) eqn:E2; [by apply beq_true in E2|done]. }
  destruct (get_all from (lit "cookie")); [done|]. destruct (value_ok _); [|done].
  by rewrite get_all_insert, decide_False.
Qed.

Lemma get_all_strip_sticky value_ok p h n :
  n <> lit "cookie" -> get_all (strip_sticky_cookie value_ok p h) n = get_all h n.
Proof.
  intros Hn. unfold strip_sticky_cookie. destruct (sticky p) as [s|]; [|done].
  destruct (negb (s_strip s)); [done|]. destruct (negb (existsb _ _)); [done|].
  assert (Hr : get_all (remove h (lit "cookie")) n = get_all h n) by by rewrite get_all_remove, decide_False.
  destruct (List.filter _ _); [done|]. destruct (value_ok _); [|done]. by rewrite get_all_insert, decide_False.
Qed.

Lemma get_all_client_cert value_ok h p c n :
  n <> XFCC_HEADER -> get_all (set_client_cert_header value_ok h p c) n = get_all h n.
Proof.
  intros Hn. unfold set_client_cert_header.
  assert (Hr : get_all (if strip_inbound p then remove h XFCC_HEADER else h) n = get_all h n).
  { destruct (strip_inbound p); [|done]. by rewrite get_all_remove, decide_False. }
  destruct (forward p), c as [c|]; try done. destruct (value_ok _); [|done]. by rewrite get_all_insert, decide_False.
Qed.

(** Membership in a list of constants. *)
Ltac mem := apply (bool_decide_unpack _); vm_compute; exact I.

(** ** The answers of the edge itself *)

(** Given before anything is counted, given by the rest of admission, and given later. *)
Definition early_answers : list (bytes * Z) :=
  [(lit "not_found", 404); (lit "bad_request", 400); (lit "no_policy", 503); (lit "ip_denied", 403);
   (lit "header_too_large", 431); (lit "over_quota", 429)].
Definition admission_answers : list (bytes * Z) :=
  [(lit "rate_limited", 429); (lit "limiter_error", 503); (lit "cors_preflight", 204); (lit "unauthorized", 401);
   (lit "method_not_allowed", 405)].
Definition inspection_answers : list (bytes * Z) :=
  [(lit "forbidden", 403); (lit "bad_gateway", 502); (lit "unauthorized", 401); (lit "payload_too_large", 413)].
Definition gateway_answers : list (bytes * Z) :=
  [(lit "forbidden", 403); (lit "bad_gateway", 502); (lit "unauthorized", 401); (lit "unpriced_model", 402);
   (lit "over_budget", 402); (lit "over_budget", 429); (lit "limiter_error", 503)].
Definition upstream_answers : list (bytes * Z) :=
  [(lit "bad_gateway", 502); (lit "upstream_error", 502); (lit "upstream_timeout", 504); (lit "payload_too_large", 413);
   (lit "forbidden", 403); (lit "upstream_body_too_large", 502); (lit "upstream_body_error", 502)].

(** Outcomes only the first checks give, and outcomes only admission gives. *)
Definition early_only (o : bytes) : Prop := o ∈ map fst early_answers.
Definition admission_only (o : bytes) : Prop :=
  o ∈ [lit "rate_limited"; lit "cors_preflight"; lit "method_not_allowed"].

(** Outcomes of a request that never got to a budget, and of one that never got to an upstream. *)
Definition unspent (o : bytes) : Prop :=
  o ∈ map fst early_answers ++
      [lit "rate_limited"; lit "cors_preflight"; lit "method_not_allowed"; lit "unauthorized"; lit "unpriced_model"].
Definition unsent (o : bytes) : Prop := unspent o \/ o ∈ [lit "over_budget"; lit "limiter_error"].

Definition answer_of (f : Finished) : bytes * Z := (f_outcome f, r_status (f_resp f)).

(** The upstream's own answer. *)
Definition passed_on (f : Finished) : Prop := f_outcome f = lit "ok" \/ f_outcome f = lit "ws_upgrade".

Definition later_answers : list (bytes * Z) := inspection_answers ++ gateway_answers ++ upstream_answers.

(** The bodies of these answers. *)
Definition edge_texts : list bytes :=
  [[]; lit "Not Found"; lit "Bad Request"; lit "Service Unavailable"; lit "Forbidden"; lit "Request Header Fields Too Large";
   lit "Quota Exceeded"; lit "Too Many Requests"; lit "Unauthorized"; lit "Method Not Allowed"; lit "Payload Too Large";
   lit "Bad Gateway"; lit "Gateway Timeout"; lit "Payment Required: model not in price book";
   lit "Payment Required: budget exhausted"].

(** The outcomes of the stages do not overlap where it matters. *)
Lemma early_apart a : a ∈ admission_answers ++ later_answers -> ~ early_only a.1.
Proof. revert a. apply Forall_forall. mem. Qed.
Lemma admission_apart a : a ∈ early_answers ++ later_answers -> ~ admission_only a.1.
Proof. revert a. apply Forall_forall. mem. Qed.
Lemma passed_apart f : passed_on f -> ~ early_only (f_outcome f) /\ ~ admission_only (f_outcome f).
Proof. intros [-> | ->]; split; mem. Qed.

(** An outcome of the edge's own has one status, but for a budget's. *)
Lemma one_status n x y :
  (n, x) ∈ early_answers ++ admission_answers ++ later_answers ->
  (n, y) ∈ early_answers ++ admission_answers ++ later_answers -> n <> lit "over_budget" -> x = y.
Proof.
  set (l := early_answers ++ _).
  assert (H : Forall (fun a => Forall (fun b : bytes * Z => a.1 = b.1 -> a.1 <> lit "over_budget" -> a.2 = b.2) l) l)
    by (apply (bool_decide_unpack _); vm_compute; exact I).
  intros Hx Hy Hn. rewrite Forall_forall in H. specialize (H _ Hx). rewrite Forall_forall in H. by apply (H _ Hy).
Qed.

(** The two outcomes that come from a reservation, or from a limiter. *)
Definition of_reserve (o : bytes) : Prop := o = lit "over_budget" \/ o = lit "limiter_error".

Lemma unspent_not_reserve o : unspent o -> ~ of_reserve o.
Proof. revert o. unfold unspent, of_reserve. apply Forall_forall. repeat constructor; intros [?|?]; discriminate. Qed.
Lemma upstream_not_unsent a : a ∈ upstream_answers -> ~ unsent a.1.
Proof. revert a. unfold unsent, unspent. apply Forall_forall. mem. Qed.
Lemma passed_not_unsent f : passed_on f -> ~ unsent (f_outcome f).
Proof. unfold unsent, unspent. intros [-> | ->]; mem. Qed.

Section Laws.
Context {RegexSet Regex Automaton Key Phc G Date Time Verifier St B : Type} `{Store St} `{BStore B}.
Context (L : Libs RegexSet Regex Automaton Key Phc G Date Time Verifier).
Implicit Types (rt : Runtime (RegexSet := RegexSet) (Regex := Regex) (Automaton := Automaton) (Key := Key)).

(** What the edge removes on the way: the fixed hop-by-hop set, what [Connection] names, the length and
    the host. *)
Definition dropped (h : Headers) (n : bytes) : Prop :=
  n ∈ HOP_BY_HOP \/ n ∈ connection_named (to_str_ok L) (header_name L) h \/ n = CONTENT_LENGTH \/ n = lit "host".

#[local] Instance dropped_dec h n : base.Decision (dropped h n).
Proof. unfold dropped. apply _. Defined.

(** What the edge answers for itself. *)
Definition edge_owned : list bytes := identity_headers ++ [XFCC_HEADER; REQUEST_ID_HEADER; lit "cookie"].

(** No name that identifies the client is one of the others the edge sets. *)
Lemma identity_distinct n : n ∈ identity_headers ->
  n ∉ [AUTHORIZATION; lit "tracestate"; lit "traceparent"; XFCC_HEADER; lit "cookie"; REQUEST_ID_HEADER].
Proof.
  revert n. apply Forall_forall. apply (bool_decide_unpack _). vm_compute. exact I.
Qed.

(** The client's headers as they are copied, before the edge sets its own. *)
Lemma copied_headers p h n :
  n <> lit "cookie" ->
  get_all (forward_headers (value_ok L)
    (remove (strip_sticky_cookie (value_ok L) p (strip_hop_by_hop (to_str_ok L) (header_name L) h)) CONTENT_LENGTH) []) n
  = if decide (dropped h n) then [] else get_all h n.
Proof.
  intros Hc. rewrite get_all_forward_headers, get_all_remove, get_all_strip_sticky, hop_by_hop_stripped by done.
  unfold dropped. repeat case_decide; try done; tauto.
Qed.

(** The edge's own headers on top of some others, for any name. *)
Lemma own_headers rt up rid ip proto host c n :
  value_ok L (show_ip ip) = true -> value_ok L (forwarded_value ip proto) = true -> value_ok L rid = true ->
  n <> XFCC_HEADER ->
  get_all (insert_h (set_forwarding_headers (value_ok L)
             (set_client_cert_header (value_ok L) up (client_cert_header rt) c) ip proto host) REQUEST_ID_HEADER rid) n
  = if decide (n = REQUEST_ID_HEADER) then [rid]
    else if decide (n ∈ identity_headers)
    then get_all (set_forwarding_headers (value_ok L) [] ip proto host) n else get_all up n.
Proof.
  intros Hip Hfw Hrid Hx. rewrite get_all_insert. case_decide; [done|].
  destruct (forwarding_headers_owned (value_ok L) (set_client_cert_header (value_ok L) up (client_cert_header rt) c)
              ip proto host Hip Hfw) as (E1 & E2 & E3 & E4 & E5 & E6 & E7).
  destruct (forwarding_headers_owned (value_ok L) [] ip proto host Hip Hfw) as (F1 & F2 & F3 & F4 & F5 & F6 & F7).
  case_decide as Hn.
  - unfold identity_headers in Hn.
    repeat (apply elem_of_cons in Hn as [-> |Hn]; [congruence|]). by apply not_elem_of_nil in Hn.
  - rewrite (E7 n Hn). by apply get_all_client_cert.
Qed.

(** The headers composed for the upstream, name by name. *)
Lemma composed_headers rt p rid ip trusted host trace auth_ c h :
  let proto := forwarded_proto (to_str_ok L) (tls_enabled rt) trusted h in
  value_ok L (show_ip ip) = true -> value_ok L (forwarded_value ip proto) = true -> value_ok L rid = true ->
  (forall t, trace = Some t -> value_ok L t = true) ->
  let up := upstream_headers L rt p rid ip trusted host trace auth_ c h in
  get_all up XFF = [show_ip ip] /\ get_all up (lit "x-real-ip") = [show_ip ip]
  /\ get_all up (lit "forwarded") = [forwarded_value ip proto] /\ get_all up (lit "true-client-ip") = []
  /\ get_all up (lit "x-forwarded-proto") = [proto]
  /\ get_all up (lit "x-forwarded-host") = match host with Some x => if value_ok L x then [x] else [] | None => [] end
  /\ get_all up REQUEST_ID_HEADER = [rid]
  /\ (forall v, auth_ = Some v -> get_all up AUTHORIZATION = [v])
  /\ (forall t, trace = Some t -> get_all up (lit "traceparent") = [t] /\ get_all up (lit "tracestate") = [])
  /\ forall n, n ∉ edge_owned -> (n = AUTHORIZATION -> auth_ = None) ->
       (n = lit "traceparent" \/ n = lit "tracestate" -> trace = None) ->
       get_all up n = if decide (dropped h n) then [] else get_all h n.
Proof.
  intros proto Hip Hfw Hrid Ht up.
  set (own := insert_h (set_forwarding_headers (value_ok L) (set_client_cert_header (value_ok L)
                (forward_headers (value_ok L) (remove (strip_sticky_cookie (value_ok L) p
                   (strip_hop_by_hop (to_str_ok L) (header_name L) h)) CONTENT_LENGTH) [])
                (client_cert_header rt) c) ip proto host) REQUEST_ID_HEADER rid).
  assert (Hup : forall n, get_all up n
    = if decide (n = AUTHORIZATION /\ auth_ <> None) then match auth_ with Some v => [v] | None => [] end
      else if decide (n = lit "tracestate" /\ trace <> None) then []
      else if decide (n = lit "traceparent" /\ trace <> None) then match trace with Some t => [t] | None => [] end
      else get_all own n).
  { intros n. unfold up, upstream_headers. rewrite Hrid. fold proto. fold own. unfold vault_headers.
    destruct trace as [t|]; [rewrite (Ht t eq_refl)|]; destruct auth_ as [v|];
      repeat (rewrite get_all_insert || rewrite get_all_remove); repeat case_decide; naive_solver. }
  assert (Hown : forall n, n <> XFCC_HEADER -> n <> lit "cookie" -> get_all own n
    = if decide (n = REQUEST_ID_HEADER) then [rid]
      else if decide (n ∈ identity_headers) then get_all (set_forwarding_headers (value_ok L) [] ip proto host) n
      else if decide (dropped h n) then [] else get_all h n).
  { intros n H1 H2. unfold own. rewrite own_headers by done. rewrite copied_headers by done. done. }
  destruct (forwarding_headers_owned (value_ok L) [] ip proto host Hip Hfw) as (F1 & F2 & F3 & F4 & F5 & F6 & _).
  assert (Hid : forall n, n ∈ identity_headers ->
    get_all up n = get_all (set_forwarding_headers (value_ok L) [] ip proto host) n).
  { intros n Hn. pose proof (identity_distinct n Hn) as Hd. rewrite !not_elem_of_cons in Hd.
    rewrite Hup, Hown by tauto. by rewrite !(decide_False (P := _ /\ _)), decide_False, decide_True by tauto. }
  rewrite !Hid by (apply (bool_decide_unpack _); vm_compute; exact I). rewrite F1, F2, F3, F4, F5, F6.
  split_and!; try done.
  - rewrite Hup, Hown by done. by vm_compute.
  - intros v ->. rewrite Hup. by rewrite decide_True.
  - intros t ->. rewrite !Hup. split.
    + rewrite decide_False, decide_False, decide_True; naive_solver.
    + rewrite decide_False, decide_True; naive_solver.
  - intros n Hn Ha Htr. unfold edge_owned in Hn. rewrite not_elem_of_app, !not_elem_of_cons in Hn.
    destruct Hn as (Hi & Hx & Hr & Hc & _).
    rewrite Hup, (decide_False (P := _ /\ _)) by naive_solver.
    rewrite !(decide_False (P := _ /\ _)) by naive_solver.
    rewrite Hown, decide_False, decide_False by done. done.
Qed.

(** ** Nothing goes upstream past a gate *)

Variable jwks_key : option (CachedKeys (Key := Key)) -> option bytes -> result Key * option (CachedKeys (Key := Key)).

(** What authentication decides for a request, and the shared state it decides it in. *)
Definition decision rt (r : Request) (s : Shared (St := St) (G := G)) : Auth.Decision :=
  (authorize_with_cert (to_str_ok L) (b64_decode L) (phc_new L) (phc_verify L) (hash_str L) (decode_header L) (decode L)
     (auth rt) (auth_cfg rt) (headers r) (cert r) (jwks_key (jwks s)) (jwks s)).1.

Definition grants_as (d : Auth.Decision) (principal : option bytes) (claims : option Claims) : Prop :=
  match d with
  | Allow p => principal = p /\ claims = None
  | AllowJwt p c => principal = p /\ claims = Some c
  | Deny _ => False
  end.

(** Every gate of admission, open. *)
Record cleared rt (e : Ambient) (ip : IpAddr) (host_check : result (option bytes)) (r : Request)
    (s : Shared (St := St) (G := G)) (host principal : option bytes) (claims : option Claims) : Prop := mkCleared {
  not_internal : starts_with (path r) (lit "/__edgeguard/") = false;
  host_known : host_check = Ok host;
  has_policy : policy_pending e = false;
  ip_allowed : forall p, access rt = Some p -> allowed p ip = true;
  headers_fit : 0 < max_header_bytes rt -> header_bytes (headers r) <= max_header_bytes rt;
  within_quota : enforce_quota rt = true -> quota_blocked e = false;
  within_rate : (rate_limit L rt e ip (raw_path r) s).1 = Allowed;
  authenticated : grants_as (decision rt r (rate_limit L rt e ip (raw_path r) s).2) principal claims;
  within_key_rate : exists s', (key_limit L rt e principal s').1 = Allowed /\ distributed s' = distributed (rate_limit L rt e ip (raw_path r) s).2 /\ local s' = local (rate_limit L rt e ip (raw_path r) s).2;
  method_ok : method_allowed rt (method r) = true
}.

Lemma limited_reply_none {A} rid v : limited_reply (A := A) L rid v = None -> v = Allowed.
Proof. by destruct v. Qed.

Lemma authenticate_go rt e rid r s principal claims s' :
  authenticate L jwks_key rt e rid r s = (Go (principal, claims), s') ->
  grants_as (decision rt r s) principal claims /\ method_allowed rt (method r) = true
  /\ exists s1, (key_limit L rt e principal s1).1 = Allowed /\ distributed s1 = distributed s /\ local s1 = local s.
Proof.
  unfold authenticate, decision.
  destruct (authorize_with_cert _ _ _ _ _ _ _ _ _ _ _ _ _) as [d cache]. cbn [fst].
  set (s1 := mkShared _ _ _).
  assert (Hgo : forall p c, (let '(v, s2) := key_limit L rt e p s1 in
      match limited_reply L rid v with
      | Some a => (a, s2)
      | None => if method_allowed rt (method r) then (Go (p, c), s2)
                else (Reply (finish L rid (lit "method_not_allowed") (text 405 (lit "Method Not Allowed"))), s2)
      end) = (Go (principal, claims), s') ->
      principal = p /\ claims = c /\ method_allowed rt (method r) = true
      /\ exists s1, (key_limit L rt e principal s1).1 = Allowed /\ distributed s1 = distributed s /\ local s1 = local s).
  { intros p c Hk. destruct (key_limit L rt e p s1) as [v s2] eqn:Ek.
    destruct (limited_reply L rid v) as [a|] eqn:El.
    - exfalso. destruct v; cbn in El; [done|injection El as <-; discriminate..].
    - apply limited_reply_none in El. subst v. destruct (method_allowed rt (method r)); [|done].
      injection Hk as -> -> _. split_and!; try done. exists s1. by rewrite Ek. }
  destruct d as [p|p c|ch]; [intros (-> & -> & Hm & Hex)%Hgo; done..|discriminate].
Qed.

Lemma admission_go rt e rid ip hc r s host principal claims s' :
  admission L jwks_key rt e rid ip hc r s = (Go (host, (principal, claims)), s') ->
  cleared rt e ip hc r s host principal claims.
Proof.
  unfold admission. destruct (starts_with (path r) _) eqn:E1; [done|]. destruct hc as [h|]; [|done].
  destruct (policy_pending e) eqn:E2; [done|].
  destruct (match access rt with Some p => negb (allowed p ip) | None => false end) eqn:E3; [done|].
  destruct ((0 <? max_header_bytes rt) && _) eqn:E4; [done|].
  destruct (enforce_quota rt && quota_blocked e) eqn:E5; [done|].
  destruct (rate_limit L rt e ip (raw_path r) s) as [v s1] eqn:E6.
  destruct (limited_reply L rid v) as [a|] eqn:El.
  { destruct v; cbn in El; [done|injection El as <-; discriminate..]. }
  apply limited_reply_none in El. subst v. destruct (preflight L rt r); [done|].
  destruct (authenticate L jwks_key rt e rid r s1) as [[f|who] s2] eqn:Ea; [done|].
  intros [= -> -> ->]. apply authenticate_go in Ea as (Hg & Hm & s3 & Hk & Hd & Hl).
  constructor; rewrite ?E6; try done.
  - intros p Hp. rewrite Hp in E3. by apply negb_false_iff.
  - intros Hpos. apply andb_false_iff in E4 as [E4|E4]; lia.
  - intros Hq. by rewrite Hq in E5.
  - by exists s3.
Qed.

Variable clk : nat -> Z.
Variable uid : nat -> bytes.

(** The body was read within its limit, the WAF and the DLP let it pass, and this is what goes on. *)
Definition inspected rt (host : option bytes) (r : Request) (up : UpBody) (m : MaskMap) : Prop :=
  exists inb b counted,
    read_body L rt r = Some inb
    /\ (screen (set_match L) (to_str_ok L) (waf rt) (raw_path r) (headers r) host (body_bytes inb)).1 <> VBlock
    /\ dlp_inbound (find_iter L) (ac_find_iter L) (f64_log2 L) (char_alphanumeric L) (char_lowercase L) (hash_one L)
         (dlp rt) (body_bytes inb) = Some (Forward b m, counted)
    /\ exists reported, up = up_body L rt inb b reported.

Lemma inspect_request_go rt rid host r up m :
  inspect_request L rt rid host r = Some (Go (up, m)) -> inspected rt host r up m.
Proof.
  unfold inspect_request, inspected. destruct (read_body L rt r) as [inb|]; [|discriminate].
  destruct (screen _ _ _ _ _ _ _).1 eqn:Ev; [..|discriminate];
    destruct (dlp_inbound _ _ _ _ _ _ _ _) as [[[|b m'] cnt]|] eqn:Ed; cbn; try discriminate;
    intros [= <- <-]; exists inb, b, cnt; (split; [done|]); (split; [by rewrite Ev|]); (split; [done|]); by eexists.
Qed.

Lemma exchange_sent rt f r model auth_ m up net st fin x out st' :
  exchange L rt f r model auth_ m up net st = Some (fin, x, Some out, st') ->
  out = mkOutgoing (upstream_headers L rt (pool_of rt r) (fw_rid f) (fw_ip f) (fw_trusted f) (fw_host f) (fw_trace f)
                      auth_ (cert r) (headers r)) up.
Proof.
  unfold exchange. destruct (order_for _ _ _ _ _ _ _) as [[tries|] turn]; cbn; [|discriminate].
  destruct (head tries) as [first|]; cbn; [|discriminate].
  destruct (uri_ok L _); cbn; [|discriminate].
  destruct (send_to_pool _ _ _ _ _ _ _ _) as [[[sent hp] cnt]|]; cbn; [|discriminate].
  destruct (s_result sent).
  - by intros [= _ _ <- _].
  - destruct (respond _ _ _ _ _ _ _ _ _ _) as [[fin' x']|]; cbn; [|discriminate]. by intros [= _ _ <- _].
  - destruct up as [b|b []], (n_body_read net); by intros [= _ _ <- _].
Qed.

Lemma tunnel_sent rt f r h net st fin out st' :
  tunnel L rt f r h net st = Some (fin, Some out, st') ->
  out = mkOutgoing (upgrade_headers L rt (pool_of rt r) (fw_rid f) (fw_ip f) (fw_trusted f) (fw_host f) (cert r) h) (UWhole []).
Proof.
  unfold tunnel. destruct (order_for _ _ _ _ _ _ _) as [[tries|] turn]; cbn; [|discriminate].
  destruct (head tries) as [first|]; cbn; [|discriminate].
  destruct (uri_ok L _); cbn; [|discriminate].
  destruct (send_to_pool _ _ _ _ _ _ _ _) as [[[sent hp] cnt]|]; cbn; [|discriminate].
  destruct (s_result sent) as [|status|]; [by intros [= _ <- _]| |by intros [= _ <- _]].
  destruct (status =? 101); [by intros [= _ <- _]|]. destruct (u_late _); [by intros [= _ <- _]|].
  destruct (to_bytes _); by intros [= _ <- _].
Qed.

(** What was sent upstream, and every gate it passed on the way. *)
Lemma sent_cleared rt th e peer hop trace fresh r0 net w o out :
  handle L jwks_key clk uid rt th e peer hop trace fresh r0 net w = Some o -> sent_up o = Some out ->
  let ip := (resolve (forwarders rt) (headers r0) peer hop).1 in
  let hc := request_host (to_str_ok L) (headers r0) (uri_host r0) (uri_port r0) (uri_scheme r0) (version_11 r0) in
  let r := apply_cert_header L th (unix_now e) hop r0 in
  let rid := resolve_request_id (to_str_ok L) (headers r) fresh in
  let trusted := believes (forwarders rt) hop in
  exists host principal claims,
    cleared rt e ip hc r (shared w) host principal claims
    /\ ((websocket_passthrough rt && is_upgrade_request (to_str_ok L) (headers r) = true
         /\ exists h, upgrade_gate L rt rid host claims r = Go h
            /\ out = mkOutgoing (upgrade_headers L rt (pool_of rt r) rid ip trusted host (cert r) h) (UWhole []))
        \/ (exists up m auth_ model res b n,
              inspected rt host r up m
              /\ llm_gate (to_str_ok L) (value_ok L) (parse_model_field L) (parse_max_tokens_field L) clk uid (gate rt)
                   (headers r) principal claims (llm_body up) (unix_now e) (budget w) (tick w)
                 = (Passed auth_ model res, b, n)
              /\ out = mkOutgoing (upstream_headers L rt (pool_of rt r) rid ip trusted host trace auth_ (cert r) (headers r)) up)).
Proof.
  unfold handle. destruct (resolve (forwarders rt) (headers r0) peer hop) as [ip v]. cbn [fst].
  set (hc := request_host _ _ _ _ _ _). set (r := apply_cert_header L th (unix_now e) hop r0).
  set (rid := resolve_request_id _ _ _). set (trusted := believes _ _).
  destruct (handle_inner _ _ _ _ _ _ _ _ _ _ _ _ _ _) as [o1|] eqn:Hi; cbn; [|discriminate].
  intros [= <-] Hs. cbn [sent_up] in Hs. unfold handle_inner in Hi. fold rid in Hi.
  destruct (admission _ _ _ _ _ _ _ _ _) as [[fin|[host [principal claims]]] s] eqn:Ea.
  { injection Hi as <-. done. }
  exists host, principal, claims. split; [by eapply admission_go|].
  destruct (websocket_passthrough rt && _) eqn:Ew.
  - left. split; [done|]. destruct (upgrade_gate L rt rid host claims r) as [fin|h] eqn:Eg.
    { injection Hi as <-. done. }
    exists h. split; [done|].
    destruct (tunnel _ _ _ _ _ _ _) as [[[fin out'] us]|] eqn:Et; cbn in Hi; [|discriminate].
    injection Hi as <-. cbn in Hs. subst out'. by apply tunnel_sent in Et.
  - right. destruct (inspect_request L rt rid host r) as [[fin|[up m]]|] eqn:Ei; cbn in Hi; [..|discriminate].
    { injection Hi as <-. done. }
    unfold gated_exchange in Hi. cbn [set_shared budget tick upstreams fw_rid] in Hi.
    destruct (llm_gate _ _ _ _ _ _ _ _ _ _ _ _ _ _) as [[[a|auth_ model res] b] n] eqn:El.
    { injection Hi as <-. done. }
    destruct (exchange _ _ _ _ _ _ _ _ _ _) as [[[[fin x] out'] us]|] eqn:Ex; cbn in Hi; [|discriminate].
    destruct (settle _ _ _ _ _ _ _ _) as [b' n']. injection Hi as <-. cbn in Hs. subst out'.
    exists up, m, auth_, model, res, b, n. split_and!; [by eapply inspect_request_go|done|].
    by apply exchange_sent in Ex.
Qed.

(** C2.  Nothing leaves for an upstream unless every gate let it through, in a state none of the later gates
    has touched: the path is not the edge's own, the host is known, a policy is in force, the address the
    edge resolved is allowed, the headers fit, the quota, the client's rate and the principal's own admit
    it, the credentials grant it and the method is allowed.  An upgrade then passed the WAF and the vault;
    any other request had its body read within the limit, passed the WAF and the DLP, and the LLM gateway
    let it on; what left is the inspected body under the headers the edge composes. *)
Theorem forwarded_only_if_cleared rt th e peer hop trace fresh r0 net w o out :
  handle L jwks_key clk uid rt th e peer hop trace fresh r0 net w = Some o -> sent_up o = Some out ->
  let ip := (resolve (forwarders rt) (headers r0) peer hop).1 in
  let hc := request_host (to_str_ok L) (headers r0) (uri_host r0) (uri_port r0) (uri_scheme r0) (version_11 r0) in
  let r := apply_cert_header L th (unix_now e) hop r0 in
  let rid := resolve_request_id (to_str_ok L) (headers r) fresh in
  let trusted := believes (forwarders rt) hop in
  exists host principal claims,
    cleared rt e ip hc r (shared w) host principal claims
    /\ ((websocket_passthrough rt && is_upgrade_request (to_str_ok L) (headers r) = true
         /\ exists h, upgrade_gate L rt rid host claims r = Go h
            /\ out = mkOutgoing (upgrade_headers L rt (pool_of rt r) rid ip trusted host (cert r) h) (UWhole []))
        \/ (exists up m auth_ model res b n,
              inspected rt host r up m
              /\ llm_gate (to_str_ok L) (value_ok L) (parse_model_field L) (parse_max_tokens_field L) clk uid (gate rt)
                   (headers r) principal claims (llm_body up) (unix_now e) (budget w) (tick w)
                 = (Passed auth_ model res, b, n)
              /\ out = mkOutgoing (upstream_headers L rt (pool_of rt r) rid ip trusted host trace auth_ (cert r) (headers r)) up)).
Proof. apply sent_cleared. Qed.

(** The [Authorization] the gateway sends on: of the vault's entry, or none of its own. *)
Lemma llm_gate_auth g h who c body now b n au model res b' n' :
  llm_gate (to_str_ok L) (value_ok L) (parse_model_field L) (parse_max_tokens_field L) clk uid g h who c body now b n
  = (Passed au model res, b', n') ->
  match g_vault g with
  | None => au = None
  | Some es => exists en, resolve_entry (to_str_ok L) es h c = Some en /\ model_allowed en model = true
                 /\ au = Some (lit "Bearer " ++ provider_key en)
  end.
Proof.
  assert (Hsp : forall m a1, spend_gate (to_str_ok L) (parse_max_tokens_field L) clk uid g h who c body m a1 now b n
                  = (Passed au model res, b', n') -> au = a1 /\ model = m).
  { intros m a1 Hs. pose proof (spend_gate_spec (to_str_ok L) (parse_max_tokens_field L) clk uid g h who c body m a1 now b n) as Hx.
    rewrite Hs in Hx. by destruct Hx as (-> & -> & _). }
  unfold llm_gate, vault_gate. destruct (g_vault g) as [es|]; [|by intros [-> _]%Hsp].
  destruct (resolve_entry _ es h c) as [en|]; [|done]. destruct (model_allowed en _) eqn:Hm; cbn [negb]; [|done].
  destruct (value_ok L _); [|done]. intros [-> ->]%Hsp. by exists en.
Qed.

(** The trace a request is recorded under: with a span shipper, the client's trace when it sent one that
    reads, or a new one, if it is sampled. *)
Definition recorded_trace (ships : bool) (rate : f64) (rand16 rand8 : bytes) (h : Headers) : option bytes :=
  let ctx := from_traceparent rand16 rand8 (text_header (to_str_ok L) h (lit "traceparent")) in
  if ships && trace_sampled rate (trace_id ctx) then Some (traceparent_header ctx) else None.

(** A request id is the client's, when it is a short token, or the edge's. *)
Lemma request_id_source (h : Headers) fresh :
  let rid := resolve_request_id (to_str_ok L) h fresh in
  rid = fresh \/ exists v, get h REQUEST_ID_HEADER = Some v /\ rid = trim v /\ rid <> [] /\ len rid <= 128
                       /\ Forall (fun c => is_graphic c = true) rid.
Proof.
  unfold resolve_request_id. change (lit "x-request-id") with REQUEST_ID_HEADER.
  destruct (get h REQUEST_ID_HEADER) as [v|]; [|by left]. destruct (to_str_ok L v); [|by left].
  destruct (negb _ && _ && _) eqn:E; [|by left]. right. exists v.
  rewrite !andb_true_iff, negb_true_iff, beq_false, Z.leb_le, forallb_forall in E. destruct E as [[E1 E2] E3].
  split_and!; try done. apply Forall_forall. intros c Hc. by apply E3, list_elem_of_In.
Qed.


(** ** What a refusal costs *)

Lemma answer_finish rid o r : answer_of (finish L rid o r) = (o, r_status r).
Proof. unfold answer_of, finish. cbn. by destruct (value_ok L rid). Qed.

Lemma preflight_status rt r resp : preflight L rt r = Some resp -> r_status resp = 204.
Proof.
  unfold preflight. destruct (beq _ _); [|done]. destruct (cors rt) as [p|]; [|done].
  unfold preflight_response. destruct (get _ _); [|done]. destruct (negb _); [done|].
  destruct (get _ _); [|done]. by intros [= <-].
Qed.

Lemma rate_limit_jwks rt e ip path (s : Shared (St := St)) : jwks (rate_limit L rt e ip path s).2 = jwks s.
Proof.
  unfold rate_limit. destruct (negb _); [done|]. destruct (distributed s) as [d|].
  - by destruct (check_ip_route _ _ _ _).
  - destruct (match longest_route _ _ with Some _ => _ | None => _ end) as [[l sc]|]; [|done].
    by destruct (check_local _ _ _ _).
Qed.

Lemma limited_reply_answer {A} rid v (a : Step A) :
  limited_reply L rid v = Some a ->
  exists f, a = Reply f /\ answer_of f ∈ admission_answers /\ f_outcome f <> lit "cors_preflight".
Proof.
  destruct v; cbn; [done|intros [= <-]; eexists; split; [done|]; rewrite answer_finish; split; [mem|done]..].
Qed.

Lemma authenticate_reply rt e rid r s f s' :
  authenticate L jwks_key rt e rid r s = (Reply f, s') ->
  answer_of f ∈ admission_answers /\ f_outcome f <> lit "cors_preflight".
Proof.
  unfold authenticate. destruct (authorize_with_cert _ _ _ _ _ _ _ _ _ _ _ _ _) as [d cache].
  assert (Hgo : forall p (c : option Claims) s1, (let '(v, s2) := key_limit L rt e p s1 in
      match limited_reply L rid v with
      | Some a => (a, s2)
      | None => if method_allowed rt (method r) then (Go (p, c), s2)
                else (Reply (finish L rid (lit "method_not_allowed") (text 405 (lit "Method Not Allowed"))), s2)
      end) = (Reply f, s') ->
      answer_of f ∈ admission_answers /\ f_outcome f <> lit "cors_preflight").
  { intros p c s1. destruct (key_limit L rt e p s1) as [v s2].
    destruct (limited_reply L rid v) as [a|] eqn:El.
    - intros [= -> _]. by apply limited_reply_answer in El as (f' & [= ->] & ?).
    - destruct (method_allowed rt (method r)); [done|]. intros [= <- _]. rewrite answer_finish. split; [mem|done]. }
  destruct d as [p|p c|ch]; [apply Hgo|apply Hgo|].
  intros [= <- _]. rewrite answer_finish. split; [|done].
  assert (Hst : r_status (unauthorized_response L ch) = 401).
  { unfold unauthorized_response. destruct ch; [destruct (value_ok L _)..|]; done. }
  rewrite Hst. mem.
Qed.

(** Admission that answers: before anything was counted, or with an answer of its own. *)
Lemma admission_reply rt e rid ip hc r s f s' :
  admission L jwks_key rt e rid ip hc r s = (Reply f, s') ->
  answer_of f ∈ early_answers /\ s' = s
  \/ answer_of f ∈ admission_answers /\ (f_outcome f = lit "cors_preflight" -> jwks s' = jwks s).
Proof.
  assert (Hearly : forall o rp, (o, r_status rp) ∈ early_answers ->
    (Reply (A := option bytes * (option bytes * option Claims)) (finish L rid o rp), s) = (Reply f, s') ->
    answer_of f ∈ early_answers /\ s' = s).
  { intros o rp Hin [= <- <-]. by rewrite answer_finish. }
  unfold admission. destruct (starts_with (path r) _); [intros Heq; left; eapply Hearly, Heq; mem|].
  destruct hc as [h|]; [|intros Heq; left; eapply Hearly, Heq; mem].
  destruct (policy_pending e); [intros Heq; left; eapply Hearly, Heq; mem|].
  destruct (match access rt with Some p => negb (allowed p ip) | None => false end);
    [intros Heq; left; eapply Hearly, Heq; mem|].
  destruct ((0 <? max_header_bytes rt) && _); [intros Heq; left; eapply Hearly, Heq; mem|].
  destruct (enforce_quota rt && quota_blocked e).
  { intros Heq. left. eapply Hearly, Heq.
    assert (Hst : r_status (quota_response L e) = 429).
    { unfold quota_response. destruct (0 <? _); [destruct (value_ok L _)|]; done. }
    rewrite Hst. mem. }
  pose proof (rate_limit_jwks rt e ip (raw_path r) s) as Hj.
  destruct (rate_limit L rt e ip (raw_path r) s) as [v s1]. cbn [snd] in Hj. intros Heq. right.
  destruct (limited_reply L rid v) as [a|] eqn:El.
  { apply limited_reply_answer in El as (f' & -> & Ha & Hc). injection Heq as <- <-. split; [done|]. by intros. }
  destruct (preflight L rt r) as [resp|] eqn:Ep.
  { injection Heq as <- <-. rewrite answer_finish, (preflight_status _ _ _ Ep). split; [mem|done]. }
  destruct (authenticate L jwks_key rt e rid r s1) as [[f'|who] s2] eqn:Ea; [|done].
  injection Heq as <- <-. apply authenticate_reply in Ea as [Ha Hc]. split; [done|]. by intros.
Qed.

Lemma vault_gate_answer v h c model a :
  vault_gate (to_str_ok L) (value_ok L) v h c model = VaultDenied a ->
  (outcome a, status a) ∈ inspection_answers /\ (outcome a, status a) ∈ gateway_answers.
Proof.
  unfold vault_gate. destruct v as [es|]; [|done]. destruct (resolve_entry _ _ _ _) as [en|].
  - destruct (negb _); [intros [= <-]; split; mem|]. destruct (value_ok L _); [done|]. intros [= <-]; split; mem.
  - intros [= <-]; split; mem.
Qed.

Lemma spend_gate_answer g h who c body model au now b n a b' n' :
  spend_gate (to_str_ok L) (parse_max_tokens_field L) clk uid g h who c body model au now b n = (Rejected a, b', n') ->
  (outcome a, status a) ∈ gateway_answers /\ (~ of_reserve (outcome a) -> b' = b /\ n' = n).
Proof.
  unfold spend_gate. destruct (match model with Some m => _ | None => false end); [intros [= <- <- <-]; split; [mem|done]|].
  destruct (g_engine g) as [en|]; [|done]. destruct model as [m|]; [|done].
  destruct (reserve _ _ _ _ _ _ _ _) as [[[res|d|err] s1] n1]; [done| |]; intros [= <- _ _]; unfold of_reserve.
  - split; [|cbn [outcome]; tauto]. cbn [outcome status]. unfold denied_status. destruct (d_unit d); mem.
  - split; [mem|cbn [outcome]; tauto].
Qed.

Lemma llm_gate_answer g h who c body now b n a b' n' :
  llm_gate (to_str_ok L) (value_ok L) (parse_model_field L) (parse_max_tokens_field L) clk uid g h who c body now b n
  = (Rejected a, b', n') ->
  (outcome a, status a) ∈ gateway_answers /\ (~ of_reserve (outcome a) -> b' = b /\ n' = n).
Proof.
  unfold llm_gate. destruct (vault_gate _ _ _ _ _ _) as [|au|a'] eqn:Ev; [apply spend_gate_answer..|].
  intros [= <- <- <-]. by apply vault_gate_answer in Ev as [_ ?].
Qed.

Lemma upgrade_gate_answer rt rid host c r f :
  upgrade_gate L rt rid host c r = Reply f -> answer_of f ∈ inspection_answers.
Proof.
  unfold upgrade_gate.
  destruct (screen _ _ _ _ _ _ _).1; [..|intros [= <-]; rewrite answer_finish; mem];
    (destruct (vault_gate _ _ _ _ _ _) as [|au|a] eqn:Ev; [done|done|];
     unfold gate_reply; intros [= <-]; rewrite answer_finish; by apply vault_gate_answer in Ev as [? _]).
Qed.

Lemma inspect_request_answer rt rid host r f :
  inspect_request L rt rid host r = Some (Reply f) -> answer_of f ∈ inspection_answers.
Proof.
  unfold inspect_request. destruct (read_body L rt r) as [inb|]; [|intros [= <-]; rewrite answer_finish; mem].
  destruct (screen _ _ _ _ _ _ _).1; [..|intros [= <-]; rewrite answer_finish; mem];
    (destruct (dlp_inbound _ _ _ _ _ _ _ _) as [[[|b m'] cnt]|]; cbn; [|done|done];
     intros [= <-]; rewrite answer_finish; mem).
Qed.

Lemma respond_answer rt rid p a t model m status u f x :
  respond L rt rid p a t model m status u = Some (f, x) -> f_outcome f = lit "ok" \/ answer_of f ∈ upstream_answers.
Proof.
  unfold respond. set (h := match sticky_cookie _ _ _ _ with Some _ => _ | None => _ end).
  destruct (sse_stream L rt h || whole_stream L rt h model).
  - destruct (streamed_frames _ _ _) as [frames|]; cbn; [|done]. intros [= <- _]. by left.
  - destruct (u_late u); [intros [= <- _]; right; rewrite answer_finish; mem|].
    destruct (to_bytes _) as [b|].
    + destruct (dlp_outbound _ _ _ _ _ _ _ _ _) as [[r' cnt]|]; cbn; [|done]. intros [= <- _]. by left.
    + intros [= <- _]. right. rewrite answer_finish. destruct (0 <? max_response_body rt); mem.
Qed.

Lemma exchange_answer rt f r model auth_ m up net st fin x out st' :
  exchange L rt f r model auth_ m up net st = Some (fin, x, out, st') ->
  f_outcome fin = lit "ok" /\ out <> None \/ answer_of fin ∈ upstream_answers.
Proof.
  unfold exchange. destruct (order_for _ _ _ _ _ _ _) as [[tries|] turn]; cbn; [|discriminate].
  destruct (head tries) as [first|]; cbn; [|discriminate].
  destruct (uri_ok L _); cbn; [|intros [= <- _ _ _]; right; rewrite answer_finish; mem].
  destruct (send_to_pool _ _ _ _ _ _ _ _) as [[[sent hp] cnt]|]; cbn; [|discriminate].
  destruct (s_result sent).
  - intros [= <- _ _ _]; right; rewrite answer_finish; mem.
  - destruct (respond _ _ _ _ _ _ _ _ _ _) as [[fin' x']|] eqn:Er; cbn; [|discriminate]. intros [= <- _ <- _].
    apply respond_answer in Er as [Er|Er]; [by left|by right].
  - destruct up as [b|b []], (n_body_read net); intros [= <- _ _ _]; right; rewrite answer_finish; mem.
Qed.

Lemma tunnel_answer rt f r h net st fin out st' :
  tunnel L rt f r h net st = Some (fin, out, st') ->
  passed_on fin /\ out <> None \/ answer_of fin ∈ upstream_answers.
Proof.
  unfold tunnel. destruct (order_for _ _ _ _ _ _ _) as [[tries|] turn]; cbn; [|discriminate].
  destruct (head tries) as [first|]; cbn; [|discriminate].
  destruct (uri_ok L _); cbn; [|intros [= <- _ _]; right; rewrite answer_finish; mem].
  destruct (send_to_pool _ _ _ _ _ _ _ _) as [[[sent hp] cnt]|]; cbn; [|discriminate].
  destruct (s_result sent) as [|status|]; [intros [= <- _ _]; right; rewrite answer_finish; mem| |
    intros [= <- _ _]; right; rewrite answer_finish; mem].
  destruct (status =? 101); [intros [= <- <- _]; left; split; [by right|done]|].
  destruct (u_late _); [intros [= <- _ _]; right; rewrite answer_finish; mem|].
  destruct (to_bytes _); [intros [= <- <- _]; left; split; [by left|done]|].
  intros [= <- _ _]; right; rewrite answer_finish; mem.
Qed.

(** Where an answer came from, and the world it leaves. *)
Lemma handle_inner_cases rt e ip trusted hc trace fresh r net w o :
  handle_inner L jwks_key clk uid rt e ip trusted hc trace fresh r net w = Some o ->
  answer_of (finished o) ∈ early_answers /\ after o = w /\ sent_up o = None
  \/ (answer_of (finished o) ∈ admission_answers /\ sent_up o = None
      /\ exists s, after o = set_shared w s /\ (f_outcome (finished o) = lit "cors_preflight" -> jwks s = jwks (shared w)))
  \/ (answer_of (finished o) ∈ inspection_answers ++ gateway_answers /\ sent_up o = None
      /\ upstreams (after o) = upstreams w
      /\ (~ of_reserve (f_outcome (finished o)) -> budget (after o) = budget w /\ tick (after o) = tick w))
  \/ answer_of (finished o) ∈ upstream_answers
  \/ passed_on (finished o) /\ sent_up o <> None.
Proof.
  unfold handle_inner. destruct (admission _ _ _ _ _ _ _ _ _) as [[fin|[host [who claims]]] s] eqn:Ea.
  { intros [= <-]. apply admission_reply in Ea as [[Ha ->]|[Ha Hj]]; cbn.
    - left. split_and!; try done. by destruct w.
    - right. left. split_and!; try done. by exists s. }
  intros Hi. do 2 right.
  destruct (websocket_passthrough rt && _).
  - destruct (upgrade_gate _ _ _ _ _ _) as [fin|h] eqn:Eg.
    { injection Hi as <-. left. rewrite elem_of_app. split_and!; try done. left. by eapply upgrade_gate_answer. }
    right. destruct (tunnel _ _ _ _ _ _ _) as [[[fin out'] us]|] eqn:Et; cbn in Hi; [|discriminate].
    injection Hi as <-. cbn [finished sent_up]. apply tunnel_answer in Et as [Et|Et]; [by right|by left].
  - destruct (inspect_request _ _ _ _ _) as [[fin|[up m]]|] eqn:Ei; cbn in Hi; [..|discriminate].
    { injection Hi as <-. left. rewrite elem_of_app. split_and!; try done. left. by eapply inspect_request_answer. }
    unfold gated_exchange in Hi.
    destruct (llm_gate _ _ _ _ _ _ _ _ _ _ _ _ _ _) as [[[a|auth_ model res] b] n] eqn:El.
    { injection Hi as <-. left. apply llm_gate_answer in El as [El Hb]. cbn [finished sent_up after upstreams budget tick].
      rewrite answer_finish, elem_of_app. split_and!; try done. by right. }
    right. destruct (exchange _ _ _ _ _ _ _ _ _ _) as [[[[fin x] out'] us]|] eqn:Ex; cbn in Hi; [|discriminate].
    destruct (settle _ _ _ _ _ _ _ _) as [b' n']. injection Hi as <-. cbn [finished sent_up].
    apply exchange_answer in Ex as [[Ex Ho]|Ex]; [right; split; [by left|done]|by left].
Qed.


(** ** What a blocking policy lets out *)

Lemma body_finish rid o r : r_body (f_resp (finish L rid o r)) = r_body r.
Proof. unfold finish. cbn. by destruct (value_ok L rid). Qed.

Lemma gate_text_own a : gate_text a ∈ edge_texts.
Proof. unfold gate_text. repeat destruct (beq _ _); [mem..| |mem]. destruct (status a =? 402); mem. Qed.

(** What the stages before the upstream answer holds nothing of an upstream. *)
Lemma limited_reply_text {A} rid v f : limited_reply L rid v = Some (Reply (A := A) f) -> r_body (f_resp f) ∈ edge_texts.
Proof. destruct v; cbn; [done|intros [= <-]; rewrite body_finish; mem..]. Qed.

Lemma authenticate_text rt e rid r s f s' :
  authenticate L jwks_key rt e rid r s = (Reply f, s') -> r_body (f_resp f) ∈ edge_texts.
Proof.
  unfold authenticate. destruct (authorize_with_cert _ _ _ _ _ _ _ _ _ _ _ _ _) as [d cache].
  destruct (match d with Allow _ => _ | AllowJwt _ _ => _ | Deny _ => _ end) as [[p c]|].
  - destruct (key_limit L rt e p _) as [v s2]. destruct (limited_reply L rid v) as [a|] eqn:El.
    + intros [= -> _]. by apply limited_reply_text in El.
    + destruct (method_allowed rt (method r)); [done|]. intros [= <- _]. rewrite body_finish. mem.
  - intros [= <- _]. rewrite body_finish. set (ch := match d with Deny _ => _ | _ => _ end).
    assert (Hb : r_body (unauthorized_response L ch) = lit "Unauthorized").
    { unfold unauthorized_response. by destruct ch; [destruct (value_ok L _)..|]. }
    rewrite Hb. mem.
Qed.

Lemma admission_text rt e rid ip hc r s f s' :
  admission L jwks_key rt e rid ip hc r s = (Reply f, s') -> r_body (f_resp f) ∈ edge_texts.
Proof.
  unfold admission. destruct (starts_with (path r) _); [intros [= <- _]; rewrite body_finish; mem|].
  destruct hc as [h|]; [|intros [= <- _]; rewrite body_finish; mem].
  destruct (policy_pending e); [intros [= <- _]; rewrite body_finish; mem|].
  destruct (match access rt with Some p => negb (allowed p ip) | None => false end); [intros [= <- _]; rewrite body_finish; mem|].
  destruct ((0 <? max_header_bytes rt) && _); [intros [= <- _]; rewrite body_finish; mem|].
  destruct (enforce_quota rt && quota_blocked e).
  { intros [= <- _]. rewrite body_finish.
    assert (Hb : r_body (quota_response L e) = lit "Quota Exceeded").
    { unfold quota_response. by destruct (0 <? _); [destruct (value_ok L _)|]. }
    rewrite Hb. mem. }
  destruct (rate_limit L rt e ip (raw_path r) s) as [v s1].
  destruct (limited_reply L rid v) as [a|] eqn:El; [intros [= -> _]; by apply limited_reply_text in El|].
  destruct (preflight L rt r) as [resp|] eqn:Ep.
  { intros [= <- _]. rewrite body_finish. unfold preflight in Ep. destruct (beq _ _); [|done]. destruct (cors rt); [|done].
    destruct (preflight_response _ _ _ _) as [[st h']|]; [|done]. injection Ep as <-. mem. }
  destruct (authenticate L jwks_key rt e rid r s1) as [[f'|who] s2] eqn:Ea; [|done].
  intros [= <- _]. by apply authenticate_text in Ea.
Qed.

Lemma inspect_request_text rt rid host r f :
  inspect_request L rt rid host r = Some (Reply f) -> r_body (f_resp f) ∈ edge_texts.
Proof.
  unfold inspect_request. destruct (read_body L rt r) as [inb|]; [|intros [= <-]; rewrite body_finish; mem].
  destruct (screen _ _ _ _ _ _ _).1; [..|intros [= <-]; rewrite body_finish; mem];
    (destruct (dlp_inbound _ _ _ _ _ _ _ _) as [[[|b m'] cnt]|]; cbn; [|done|done];
     intros [= <-]; rewrite body_finish; mem).
Qed.

(** An answer of the edge's own: its outcome, status and body. *)
Definition own_answer (f : Finished) : Prop :=
  answer_of f ∈ early_answers ++ admission_answers ++ later_answers /\ r_body (f_resp f) ∈ edge_texts.

Lemma own_upstream rid o r : (o, r_status r) ∈ upstream_answers -> r_body r ∈ edge_texts -> own_answer (finish L rid o r).
Proof.
  intros Ha Hb. unfold own_answer, later_answers. rewrite answer_finish, body_finish, !elem_of_app. split; [tauto|done].
Qed.

(** The response of an exchange under a policy that blocks. *)
Lemma respond_withholds rt d rid p a t model m status u f x :
  dlp rt = Some d -> scan_response d = true -> Dlp.mode d = Block -> reversible d = false ->
  respond L rt rid p a t model m status u = Some (f, x) ->
  r_body (f_resp f) = withheld /\ r_status (f_resp f) = 403
  \/ own_answer f
  \/ (scan (find_iter L) (ac_find_iter L) (f64_log2 L) d (from_utf8_lossy (r_body (f_resp f))) = []
      /\ r_status (f_resp f) = status
      /\ to_bytes (if 0 <? max_response_body rt then limited L (max_response_body rt) (u_body u) else u_body u)
         = Some (r_body (f_resp f))).
Proof.
  intros Hd Hs Hm Hr. unfold respond. set (h := match sticky_cookie _ _ _ _ with Some _ => _ | None => _ end).
  assert (Hns : sse_stream L rt h || whole_stream L rt h model = false).
  { unfold whole_stream, sse_stream, dlp_blocks_response, streams_any_response.
    rewrite Hd, Hs, bool_decide_true by done. cbn [andb negb]. by rewrite !andb_false_r. }
  rewrite Hns. destruct (u_late u).
  { intros [= <- _]. right. left. apply own_upstream; mem. }
  destruct (to_bytes _) as [b|].
  2: { intros [= <- _]. right. left. destruct (0 <? max_response_body rt); apply own_upstream; mem. }
  unfold dlp_outbound. rewrite Hd, Hr, Hs. cbn [r_body r_status r_headers].
  assert (Hfin : forall o rp, r_body (f_resp (finish L rid o rp)) = r_body rp /\ r_status (f_resp (finish L rid o rp)) = r_status rp).
  { intros o rp. unfold finish. cbn. by destruct (value_ok L rid). }
  destruct (scan _ _ _ d (from_utf8_lossy b)) as [|fd fs] eqn:Ef; [|rewrite Hm];
    intros [= <- _].
  - right. right. rewrite !(proj1 (Hfin _ _)), (proj2 (Hfin _ _)). done.
  - left. by rewrite (proj1 (Hfin _ _)), (proj2 (Hfin _ _)).
Qed.

(** A request that is no upgrade is answered by the edge, or with the response of one of the targets. *)
Lemma handle_inner_responds rt e ip trusted hc trace fresh r net w o :
  handle_inner L jwks_key clk uid rt e ip trusted hc trace fresh r net w = Some o ->
  websocket_passthrough rt && is_upgrade_request (to_str_ok L) (headers r) = false ->
  own_answer (finished o)
  \/ exists rid p a t model m status x,
       respond L rt rid p a t model m status (n_response net t) = Some (finished o, x).
Proof.
  unfold handle_inner.
  destruct (admission _ _ _ _ _ _ _ _ _) as [[fin|[host [who claims]]] s] eqn:Ea.
  { intros [= <-] _. left. split; [|by apply admission_text in Ea]. rewrite !elem_of_app.
    apply admission_reply in Ea as [[Ha _]|[Ha _]]; cbn; tauto. }
  intros Hi Hup. rewrite Hup in Hi.
  destruct (inspect_request _ _ _ _ _) as [[fin|[up m]]|] eqn:Ei; cbn in Hi; [..|discriminate].
  { injection Hi as <-. left. split; [|by apply inspect_request_text in Ei]. unfold later_answers. rewrite !elem_of_app.
    apply inspect_request_answer in Ei. cbn. tauto. }
  unfold gated_exchange in Hi.
  destruct (llm_gate _ _ _ _ _ _ _ _ _ _ _ _ _ _) as [[[a|auth_ model res] b] n] eqn:El.
  { injection Hi as <-. left. unfold own_answer, later_answers. cbn [finished]. rewrite answer_finish, body_finish, !elem_of_app.
    split; [|apply gate_text_own]. apply llm_gate_answer in El as [El _]. tauto. }
  destruct (exchange _ _ _ _ _ _ _ _ _ _) as [[[[fin x] out'] us]|] eqn:Ex; cbn in Hi; [|discriminate].
  destruct (settle _ _ _ _ _ _ _ _) as [b' n']. injection Hi as <-. cbn [finished].
  unfold exchange in Ex. destruct (order_for _ _ _ _ _ _ _) as [[tries|] turn]; cbn in Ex; [|discriminate].
  destruct (head tries) as [first|]; cbn in Ex; [|discriminate].
  destruct (uri_ok L _); cbn in Ex; [|injection Ex as <- _ _ _; left; apply own_upstream; mem].
  destruct (send_to_pool _ _ _ _ _ _ _ _) as [[[sent hp] cnt]|]; cbn in Ex; [|discriminate].
  destruct (s_result sent) as [|st|].
  - injection Ex as <- _ _ _; left; apply own_upstream; mem.
  - destruct (respond _ _ _ _ _ _ _ _ _ _) as [[fin' x']|] eqn:Er; cbn in Ex; [|discriminate]. injection Ex as <- _ _ _.
    right. eauto 10.
  - destruct up as [|? []], (n_body_read net); injection Ex as <- _ _ _; left; apply own_upstream; mem.
Qed.

(** C19.  Under a DLP policy that scans and blocks responses and is not reversible, no response with a finding
    reaches the client of a request that is not tunnelled as an upgrade.  The client gets one of the edge's
    own answers, fixed text and all, or the policy's notice with [403], or the body of a target's response, read whole (a
    stream would have let its start out) and within the limit, in which the scan found nothing.  A declined
    upgrade passes unscanned: see [declined_upgrade_unscanned]. *)
Theorem blocked_response_withheld rt th e peer hop trace fresh r0 net w o d :
  dlp rt = Some d -> scan_response d = true -> Dlp.mode d = Block -> reversible d = false ->
  websocket_passthrough rt
    && is_upgrade_request (to_str_ok L) (headers (apply_cert_header L th (unix_now e) hop r0)) = false ->
  handle L jwks_key clk uid rt th e peer hop trace fresh r0 net w = Some o ->
  let resp := f_resp (finished o) in
  own_answer (finished o)
  \/ r_body resp = withheld /\ r_status resp = 403
  \/ (scan (find_iter L) (ac_find_iter L) (f64_log2 L) d (from_utf8_lossy (r_body resp)) = []
      /\ exists t, let body := u_body (n_response net t) in
           to_bytes (if 0 <? max_response_body rt then limited L (max_response_body rt) body else body)
           = Some (r_body resp)).
Proof.
  intros Hd Hs Hm Hr Hup. unfold handle. destruct (resolve _ _ _ _) as [ip v].
  destruct (handle_inner _ _ _ _ _ _ _ _ _ _ _ _ _ _) as [o1|] eqn:Hi; cbn [mbind option_bind]; [|discriminate].
  intros [= <-]. cbn [finished f_resp]. set (resp := match _ with Some _ => _ | None => _ end).
  assert (Hb : r_body resp = r_body (f_resp (finished o1)) /\ r_status resp = r_status (f_resp (finished o1))).
  { unfold resp. by destruct (match get _ _ with Some _ => _ | None => _ end), (cors rt). }
  destruct Hb as [Hb Hst].
  assert (Ha : own_answer (mkFinished (f_outcome (finished o1)) resp) <-> own_answer (finished o1)).
  { unfold own_answer, answer_of. cbn. by rewrite Hb, Hst. }
  rewrite Ha, Hb, Hst. clearbody resp. clear Ha Hb Hst.
  apply handle_inner_responds in Hi as [Hi|(rid & p & a & t & model & m & status & x & Hi)]; [by left| |done].
  apply (respond_withholds rt d) in Hi as [Hi|[Hi|(H1 & _ & H2)]]; try done.
  - right. by left.
  - by left.
  - right. right. split; [done|]. by exists t.
Qed.

(** A reversible policy restores a streamed response frame by frame, to what restoring it whole gives. *)
Lemma streamed_unmask m : forall frames carry,
  @concat Z <$> streamed_frames L (Unmask m carry) (map Data frames) = Some (unmask_frames m carry frames).
Proof.
  induction frames as [|d frames IH]; intros carry; cbn [map streamed_frames unmask_frames].
  - cbn. by destruct (flush_unmask m carry) as [|z l]; cbn; rewrite ?app_nil_r.
  - cbn [filter_frame]. destruct (unmask_stream m carry d) as [out carry'].
    specialize (IH carry'). cbn [mbind option_bind].
    destruct (streamed_frames L (Unmask m carry') (map Data frames)) as [rest|]; cbn in *; [|done].
    by injection IH as <-.
Qed.
End Laws.

(** ** A small edge *)

Module Demo.
Definition libs : Libs unit unit unit unit unit unit unit unit unit :=
  mkLibs _ _ _ _ _ _ _ _ _ (fun _ => true) (fun _ => true) (fun n => Some (to_ascii_lowercase n)) (fun _ => true)
    (fun _ => None) (fun _ => None) (fun _ _ => false) (fun _ => 0) (fun _ => None) (fun _ _ _ => None)
    (fun _ t => starts_with t (lit "attack")) (fun _ t => if starts_with t (lit "secret") then [(0%nat, 6%nat)] else [])
    (fun _ _ => []) (fun x => x) (fun x => x) (fun _ => true) (fun c => c) (fun _ => 0)
    (fun _ => None) (fun _ => None) (fun _ => None) (fun _ => None) (fun _ => None)
    (fun _ events => events) (fun g _ _ => (true, g)) (fun _ => [])
    (fun _ _ _ => None) (fun _ _ _ => None) (fun _ _ => 0) (fun b => b) (fun _ _ => None) (fun b => b) (fun _ _ _ _ => false).

Definition pool : Pool :=
  mkPool (lit "default") [mkTarget (lit "http://app:1") (lit "app") false 1 1 0 None] false Priority None 0 0 0 0 None None.
Definition waf : WafEngine (RegexSet := unit) :=
  mkWafEngine WafBlock true true true [mkRule (lit "r") (lit "custom") ALL tt].
Definition dlp : DlpEngine (Regex := unit) (Automaton := unit) :=
  mkDlpEngine Block Full true true false false [mkDetector (lit "secret") tt None] None None None.
Definition jwt : JwtCfg := mkJwtCfg [] [] [] [] 0 [] [] 0.
Definition gate : GateCfg := mkGateCfg (Llm.mkRuntime false [] Llm.Count ∅) None None 0 (lit "x-team").

(** Address control denies 10/8; the WAF and the DLP block. *)
Definition rt : Runtime (RegexSet := unit) (Regex := unit) (Automaton := unit) (Key := unit) :=
  mkRuntime (Some (mkAccessPolicy [] [CidrV4 167772160 8])) 4096 false false [] false false None Open
    (mkAuthCfg (lit "none") [] ∅ [] [] jwt []) [] false waf (Some dlp) gate 1024 false [] 0 false false
    (mkForwarders false (Count 1) []) false (mkForwardPolicy true false) [] pool
    (mkHeadersCfg [] [] [] [] [] false false [] false false []).

Definition ambient : Ambient := mkAmbient false false 0 0 0.
Definition world : World (Key := unit) (G := unit) (St := Limiter.MemoryStore) (B := Budget.MemoryStore) :=
  mkWorld (mkShared None tt None) (Budget.mkStore ∅ ∅) 0 (mkUpstreams [health_default] 0).
Definition net (answer : bytes) : Net :=
  mkNet (fun _ _ _ _ => Answered 200) (fun _ => mkUpResponse [] [Data answer] false) false (fun _ => 0) (fun _ => 0) (fun _ _ => still []).
Definition request (b : bytes) : Request :=
  mkRequest (lit "POST") (lit "/a") None [(lit "host", lit "app.test"); (XFF, lit "9.9.9.9")] None None None true None
    [Data b].

Abbreviation Served := (Outcome (Key := unit) (G := unit) (St := Limiter.MemoryStore) (B := Budget.MemoryStore)).

Definition serve (ip : Z) (b answer : bytes) : option Served :=
  handle libs (fun c _ => (Err "no keys", c)) (fun _ => 0) (fun _ => []) rt None ambient
    (mkSocketAddr (V4 ip) 4000) (V4 ip) None (lit "id-1") (request b) (net answer) world.
Definition outcome_of (o : option Served) : option (bytes * Z * bytes) :=
  match o with Some o => Some (f_outcome (finished o), r_status (f_resp (finished o)), r_body (f_resp (finished o))) | None => None end.
End Demo.

(** A clean request is served; a denied address, an attack, a leaked secret in either direction are not. *)
Example demo_served : Demo.outcome_of (Demo.serve 3405803783 (lit "hello") (lit "fine")) = Some (lit "ok", 200, lit "fine").
Proof. vm_compute. reflexivity. Qed.
Example demo_denied : Demo.outcome_of (Demo.serve 167772161 (lit "hello") (lit "fine")) = Some (lit "ip_denied", 403, lit "Forbidden").
Proof. vm_compute. reflexivity. Qed.
Example demo_attack : Demo.outcome_of (Demo.serve 3405803783 (lit "attack") (lit "fine")) = Some (lit "forbidden", 403, lit "Forbidden").
Proof. vm_compute. reflexivity. Qed.
Example demo_withheld : Demo.outcome_of (Demo.serve 3405803783 (lit "hello") (lit "secret")) = Some (lit "ok", 403, withheld).
Proof. vm_compute. reflexivity. Qed.

(** A client that names the edge's headers in [Connection], forges an address and sends two ids in one. *)
Definition forged : Headers :=
  [(lit "host", lit "app.test"); (lit "connection", lit "x-forwarded-for, x-request-id, x-api-secret"); (XFF, lit "6.6.6.6");
   (lit "x-api-secret", lit "s"); (lit "accept", lit "a"); (lit "accept", lit "b"); (REQUEST_ID_HEADER, lit "two ids");
   (AUTHORIZATION, lit "Bearer mine"); (lit "traceparent", lit "t")].
Definition forged_request : Request := mkRequest (lit "POST") (lit "/a") None forged None None None true None [Data (lit "hello")].
Definition serve_forged : option Demo.Served :=
  handle Demo.libs (fun c _ => (Err "no keys", c)) (fun _ => 0) (fun _ => []) Demo.rt None Demo.ambient
    (mkSocketAddr (V4 3405803783) 4000) (V4 3405803783) (recorded_trace Demo.libs false f64_zero [] [] forged)
    (lit "id-1") forged_request (Demo.net (lit "fine")) Demo.world.


Lemma forwarded_only_if_cleared_witness :
  (exists o out, Demo.serve 3405803783 (lit "hello") (lit "fine") = Some o /\ sent_up o = Some out)
  /\ forall p, access Demo.rt = Some p -> allowed p (V4 3405803783) = true.
Proof.
  eassert (Hs : Demo.serve 3405803783 (lit "hello") (lit "fine") = Some _) by (vm_compute; reflexivity).
  split; [do 2 eexists; split; [exact Hs|reflexivity]|].
  destruct (forwarded_only_if_cleared Demo.libs (fun c _ => (Err "no keys", c)) (fun _ => 0) (fun _ => []) Demo.rt None
              Demo.ambient (mkSocketAddr (V4 3405803783) 4000) (V4 3405803783) None (lit "id-1")
              (Demo.request (lit "hello")) (Demo.net (lit "fine")) Demo.world _ _ Hs eq_refl)
    as (host & who & claims & Hc & _).
  exact (ip_allowed _ _ _ _ _ _ _ _ _ _ _ Hc).
Defined.


Lemma blocked_response_withheld_witness :
  exists o, Demo.serve 3405803783 (lit "hello") (lit "secret key") = Some o
    /\ r_body (f_resp (finished o)) <> lit "secret key".
Proof.
  eassert (Hs : Demo.serve 3405803783 (lit "hello") (lit "secret key") = Some _) by (vm_compute; reflexivity).
  eexists. split; [exact Hs|].
  destruct (blocked_response_withheld Demo.libs (fun c _ => (Err "no keys", c)) (fun _ => 0) (fun _ => []) Demo.rt None
              Demo.ambient (mkSocketAddr (V4 3405803783) 4000) (V4 3405803783) None (lit "id-1")
              (Demo.request (lit "hello")) (Demo.net (lit "secret key")) Demo.world _ Demo.dlp
              eq_refl eq_refl eq_refl eq_refl eq_refl Hs) as [[Hin _]|[[-> _]|[Hsc _]]].
  - exfalso. revert Hin. mem.
  - discriminate.
  - intros Hb. rewrite Hb in Hsc. discriminate Hsc.
Defined.

(** The same policy and secret, in the answer to an upgrade that the upstream declines. *)
Example declined_upgrade_unscanned :
  let h := [(lit "host", lit "app.test"); (lit "connection", lit "upgrade"); (lit "upgrade", lit "websocket")] in
  let r := mkRequest (lit "GET") (lit "/a") None h None None None true None [] in
  let d := Demo.rt in
  let rt := mkRuntime (access d) (max_header_bytes d) (enforce_quota d) (ratelimit_enabled d) (route_limiters d)
    (ip_limiter d) (key_limiter d) (cors d) (auth d) (auth_cfg d) (allow_methods d) true (waf d) (dlp d) (gate d)
    (max_body d) (stream_requests d) (stream_inspect d) (max_response_body d) (stream_passthrough d) (stream_responses d)
    (forwarders d) (tls_enabled d) (client_cert_header d) (upstream_routes d) (default_upstream d) (headers_cfg d) in
  Demo.outcome_of (handle Demo.libs (fun c _ => (Err "no keys", c)) (fun _ => 0) (fun _ => []) rt None Demo.ambient
    (mkSocketAddr (V4 3405803783) 4000) (V4 3405803783) None (lit "id-1") r (Demo.net (lit "secret key")) Demo.world)
  = Some (lit "ok", 200, lit "secret key").
Proof. vm_compute. reflexivity. Qed.

(** The handshake of an upgrade is sent without a body, and with the length the client declared. *)
Example upgrade_keeps_length :
  let h := [(lit "connection", lit "upgrade"); (lit "upgrade", lit "websocket"); (CONTENT_LENGTH, lit "5")] in
  get_all (upgrade_headers Demo.libs Demo.rt Demo.pool (lit "id-1") (V4 1) false None None h) CONTENT_LENGTH = [lit "5"]
  /\ get_all (upstream_headers Demo.libs Demo.rt Demo.pool (lit "id-1") (V4 1) false None None None None h) CONTENT_LENGTH = [].
Proof. vm_compute. auto. Qed.
