(* ===== verification/Boot.v ===== *)
(** * Boot: the configuration, the policy laid over it, and the runtime built from both

    [Config] of [config.rs] section by section, as far as a runtime is built from it ([server], [tls],
    [upstreams], [auth], [ratelimit], [validation], [headers], [waf], [access], [cors], [llm], [alerts],
    [outbound]); sections nothing here reads ([log], [tracing], [metrics], the upstream TLS files) are
    carried whole.  [with_policy_from] lays a pushed policy over the edge's own file; [build_runtime] of
    [lib.rs] compiles every component, in the source's order, and fails on the first bad setting;
    [carry_health_from] keeps the health of the targets a rebuild shares with the running pools. *)

From S2P Require Import Prelude Text Net Units Float Access Limiter Budget Http Health Pool PoolConfig ClientCert Auth KeyVault Llm LlmGate Forwarding Cors Waf Dlp StreamInspect CertStore Outbound Alert Telemetry Pipeline.

(** ** The configuration *)

(** [server]: [sv_forward] is its [trust_forwarded_for], [forwarded_hops] and [trusted_forwarders]. *)
Record ServerSection : Type := mkServerSection {
  sv_forward : ServerCfg; sv_upstream : bytes; sv_app_port : Z; sv_port : Z; sv_admin_port : Z; sv_admin_addr : bytes;
  sv_header_read_timeout : bytes; sv_max_connections : Z; sv_drain_delay : bytes; sv_drain_timeout : bytes;
  sv_proxy_protocol : bool; sv_proxy_protocol_trusted : list bytes
}.

(** [tls.enabled], [tls.client_auth.mode] and [forward_client_cert], and the rest of the section. *)
Record TlsSection {TlsRest : Type} : Type := mkTlsSection {
  ts_enabled : bool; ts_client_mode : bytes; ts_forward_client_cert : bytes; ts_rest : TlsRest
}.
Arguments TlsSection : clear implicits.

Record RateSection : Type := mkRateSection {
  rs_enabled : bool; rs_store : bytes; rs_redis_url : bytes; rs_cfg : RateLimitCfg; rs_names : list bytes
}.

Record ValidationCfg : Type := mkValidationCfg {
  v_max_body : bytes; v_max_response_body : bytes; v_max_header_bytes : bytes; v_upstream_timeout : bytes;
  v_upstream_connect_timeout : bytes; v_allow_methods : list bytes; v_stream_passthrough : bool;
  v_stream_responses : bool; v_stream_requests : bool; v_stream_inspect : list StreamInspectCfg;
  v_websocket : bool; v_compress_responses : bool
}.

(** [auth], with how its JWKS endpoint is reached. *)
Record AuthSection : Type := mkAuthSection { as_cfg : AuthCfg; as_outbound : OutboundCfg }.

Record LlmSection : Type := mkLlmSection {
  ls_cfg : LlmCfg; ls_budgets : list BudgetCfg; ls_store : bytes; ls_redis_url : bytes; ls_redis_prefix : bytes;
  ls_fail_open : bool; ls_default_max_tokens : Z; ls_team_header : bytes; ls_keys : list KeyEntryCfg;
  ls_dlp : DlpCfg; ls_telemetry : TelemetryCfg
}.

Record ControlPlaneCfg : Type := mkControlPlaneCfg {
  cp_enabled : bool; cp_url : bytes; cp_tenant_id : bytes; cp_edge_token : bytes; cp_poll_interval : bytes;
  cp_report_interval : bytes; cp_forward_csp : bool; cp_enforce_quota : bool; cp_quota_poll_interval : bytes; cp_edge_id : bytes; cp_cache_path : bytes; cp_boot_without_policy : bytes;
  cp_outbound : OutboundCfg
}.

Section Config.
(** The sections a runtime is not built from. *)
Context {TlsRest UpstreamTls LogCfg TracingCfg MetricsCfg UnknownKeys : Type}.

Record Config : Type := mkConfig {
  c_server : ServerSection; c_auth : AuthSection; c_ratelimit : RateSection; c_validation : ValidationCfg;
  c_headers : HeadersCfg; c_tls : TlsSection TlsRest; c_waf : WafCfg;
  c_upstreams : list (bytes * UpstreamRoute);           (** each with its name *)
  c_upstream_tls : UpstreamTls; c_access : AccessCfg; c_cors : CorsCfg; c_control_plane : ControlPlaneCfg;
  c_llm : LlmSection; c_alerts : AlertsCfg; c_log : LogCfg; c_tracing : TracingCfg; c_metrics : MetricsCfg;
  c_cert_header : TrustedClientCertHeaderCfg; c_outbound : OutboundDefaultsCfg; c_unknown_keys : UnknownKeys
}.

(** [Config { telemetry: self.llm.telemetry, ..p.llm }]. *)
Definition llm_keep_telemetry (local pushed : LlmSection) : LlmSection :=
  mkLlmSection (ls_cfg pushed) (ls_budgets pushed) (ls_store pushed) (ls_redis_url pushed) (ls_redis_prefix pushed)
    (ls_fail_open pushed) (ls_default_max_tokens pushed) (ls_team_header pushed) (ls_keys pushed) (ls_dlp pushed)
    (ls_telemetry local).

(** The overlay, once [toml] has read the document. *)
Definition overlay (local p : Config) : Config :=
  mkConfig (c_server local) (mkAuthSection (as_cfg (c_auth p)) (as_outbound (c_auth local)))
    (c_ratelimit p) (c_validation p) (c_headers p) (c_tls local) (c_waf p) (c_upstreams local)
    (c_upstream_tls local) (c_access p) (c_cors p) (c_control_plane local)
    (llm_keep_telemetry (c_llm local) (c_llm p)) (c_alerts local) (c_log local) (c_tracing local)
    (c_metrics local) (c_cert_header local) (c_outbound local) (c_unknown_keys local).

(** [Config::with_policy_from]; [from_str] is [toml::from_str]. *)
Definition with_policy_from (from_str : bytes -> option Config) (local : Config) (policy_toml : bytes) : result Config :=
  let? p := ok_or (from_str policy_toml) "parsing control-plane policy document" in Ok (overlay local p).

Definition upstream_base (cfg : Config) : bytes :=
  if Outbound.is_empty (sv_upstream (c_server cfg)) then lit "http://127.0.0.1:" ++ dec (sv_app_port (c_server cfg))
  else trim_end_matches 47 (sv_upstream (c_server cfg)).

(** ** Building the runtime *)

(** [quota]: the time one cell takes, and the depth. *)
Definition quota (rate : bytes) (burst : Z) : result (Duration * Z) :=
  let? r := parse_rate rate in
  ensure (0 <? r.1) else "rate count must be > 0";
  ensure (0 <? burst) else "burst must be > 0";
  ensure (0 <? r.2 / r.1) else "rate too high for a usable replenish interval";
  Ok (r.2 / r.1, burst).

Context {RegexSet Regex Automaton Key St : Type}.

(** Crates, files and the process: what [build_runtime] calls outside this library. *)
Record BuildLibs : Type := mkBuildLibs {
  b_parse_uri : bytes -> option Uri; b_header_name : bytes -> option bytes; b_header_value_ok : bytes -> bool;
  b_method_of : bytes -> option bytes; b_regex_ok : bytes -> bool; b_version : bytes;
  b_from_secret : bytes -> Key; b_from_pem : Algorithm -> bytes -> option Key;
  b_set_new : list bytes -> option RegexSet; b_regex_new : bytes -> option Regex; b_is_match : Regex -> bytes -> bool;
  b_ac_build : list bytes -> option Automaton;
  b_redis_open : bytes -> bool; b_limiter_store : StoreMode -> bytes -> result St;
  b_fs : bytes -> option bytes; b_pem_certs : bytes -> option (list bytes); b_usable_ca : bytes -> bool;
  b_bundled : list bytes; b_platform : list bytes -> bool; b_url_parse : bytes -> option (bytes * bool);
  b_proxy_all : bytes -> bool; b_load_pair : bytes -> bytes -> result Live;
  b_http_build : bool                                   (** [reqwest::ClientBuilder::build] *)
}.

(** A runtime: what requests read ([Pipeline.Runtime]) and what the rest of the process does. *)
Record Built : Type := mkBuilt {
  built : Pipeline.Runtime (RegexSet := RegexSet) (Regex := Regex) (Automaton := Automaton) (Key := Key);
  b_distributed : option (DistributedLimiter St); b_quotas : list (Duration * Z);
  b_upstream_timeout : option Duration; b_route_labels : list (bytes * bytes);
  b_telemetry : TelemetryRuntime; b_alerts : AlertRuntime
}.

Variable B : BuildLibs.
(** The client certificates the process has loaded.  A client built here adds its claim to them
    ([Outbound]); only the verdict matters to the runtime. *)
Variable ids : Identities.

Definition client_verdict (o : OutboundCfg) (what url : bytes) : result unit :=
  let? _ := (builder (b_fs B) (b_pem_certs B) (b_usable_ca B) (b_bundled B) (b_platform B) (b_url_parse B)
               (b_proxy_all B) (b_load_pair B) o what url ids).1 in Ok tt.

(** The local limiters: for the address, each route, and the key; built only without a shared store. *)
Definition local_quotas (rl : RateLimitCfg) : result (list (Duration * Z)) :=
  let? g := quota (rl_rate rl) (rl_burst rl) in
  let? rs := collect (fun r =>
      ensure (negb (Outbound.is_empty (rr_path r))) else "ratelimit.routes[].path must not be empty";
      quota (rr_rate r) (rr_burst r)) (rl_routes rl) in
  let? k := (if rl_per_key_enabled rl then
               let? q := quota (rl_per_key_rate rl) (rl_per_key_burst rl) in Ok [q]
             else Ok []) in
  Ok (g :: rs ++ k).

(** [[upstreams]]: the health records of each pool are new, from location [n] on. *)
Fixpoint build_routes (n : nat) (routes : list (bytes * UpstreamRoute)) : result (list (bytes * Pool) * nat) :=
  match routes with
  | [] => Ok ([], n)
  | (name, r) :: routes =>
      ensure (negb (Outbound.is_empty (ur_path r))) else "upstreams[].path must not be empty";
      ensure (starts_with (ur_path r) [47]) else "upstreams[].path must start with /";
      let label := if Outbound.is_empty name then ur_path r else name in
      let? p := from_route (b_parse_uri B) (b_header_name B) (b_header_value_ok B) (b_method_of B) (b_regex_ok B)
                  (b_version B) n r label in
      let? rest := build_routes (n + length (targets p)) routes in
      Ok ((ur_path r, p) :: rest.1, rest.2)
  end.

(** Labels by path: the first entry for a path names it. *)
Fixpoint route_labels (acc : list (bytes * bytes)) (routes : list (bytes * bytes)) : list (bytes * bytes) :=
  match routes with
  | [] => acc
  | (path, name) :: routes =>
      if Outbound.is_empty path || existsb (fun '(p, _) => beq p path) acc then route_labels acc routes
      else route_labels (acc ++ [(path, if Outbound.is_empty name then path else name)]) routes
  end.

Definition labelled_routes (cfg : Config) : list (bytes * bytes) :=
  map (fun '(name, u) => (ur_path u, name)) (c_upstreams cfg)
  ++ zip (map rr_path (rl_routes (rs_cfg (c_ratelimit cfg)))) (rs_names (c_ratelimit cfg)).

Definition nonzero (d : Duration) : option Duration := if d =? 0 then None else Some d.

(** The shared-store limiter, when the store is one. *)
Definition shared_limiter (rl : RateSection) : result (option (DistributedLimiter St)) :=
  let? m := StoreMode_parse (rs_store rl) in
  if rs_enabled rl && is_distributed m then
    let? s := b_limiter_store B m (rs_redis_url rl) in
    let? d := limiter_build (rs_cfg rl) s in Ok (Some d)
  else Ok None.

(** [auth.mode = mtls] and [trusted_proxy_names] need a listener that asks for certificates. *)
Definition check_client_certs (cfg : Config) (fp : ForwardPolicy) : result unit :=
  let from_header := negb (Outbound.is_empty (trim (h_name (c_cert_header cfg)))) in
  ensure (negb (beq (Auth.mode (as_cfg (c_auth cfg))) (lit "mtls")) || strip_inbound fp)
    else "auth.mode = mtls needs [tls.client_auth] or [trusted_client_cert_header]";
  ensure (negb from_header || is_nil (h_proxy_names (c_cert_header cfg))
          || negb (beq (ts_client_mode (c_tls cfg)) (lit "off")))
    else "trusted_client_cert_header.trusted_proxy_names needs [tls.client_auth]";
  Ok tt.

Definition client_builds (o : OutboundCfg) (what url : bytes) : bool :=
  match client_verdict o what url with Ok _ => true | Err _ => false end.

(** [build_runtime]; [n] is the first free location for health records.  [Pipeline.Runtime] is the part
    requests read. *)
Definition build_runtime (n : nat) (cfg : Config) : result (Built * nat) :=
  let? _ := check_defaults (b_fs B) (b_pem_certs B) (b_usable_ca B) (b_bundled B) (b_url_parse B) (b_proxy_all B)
              (b_load_pair B) (c_outbound cfg) in
  let? fwd := forwarders_from_cfg (sv_forward (c_server cfg)) in
  let rl := c_ratelimit cfg in
  let? distributed := shared_limiter rl in
  let build_local := rs_enabled rl && match distributed with None => true | Some _ => false end in
  let? quotas := (if build_local then local_quotas (rs_cfg rl) else Ok []) in
  let? routes := build_routes n (c_upstreams cfg) in
  let? _ := check_url (b_parse_uri B) (upstream_base cfg) in
  let v := c_validation cfg in
  let? _ := parse_duration (v_upstream_connect_timeout v) in
  let? auth := auth_build (b_header_name B) (b_from_secret B) (b_from_pem B)
                 (client_builds (as_outbound (c_auth cfg)) (lit "auth.jwt")) (as_cfg (c_auth cfg)) in
  let from_header := negb (Outbound.is_empty (trim (h_name (c_cert_header cfg)))) in
  let? fp := forward_policy (ts_client_mode (c_tls cfg)) (ts_forward_client_cert (c_tls cfg)) from_header in
  let? _ := check_client_certs cfg fp in
  let? waf := waf_build (b_set_new B) (c_waf cfg) in
  let? cors := cors_build (b_header_value_ok B) (c_cors cfg) in
  let? access := Access.build (c_access cfg) in
  let? max_body := parse_size (v_max_body v) in
  let? max_response := parse_size (v_max_response_body v) in
  let? max_headers := parse_size (v_max_header_bytes v) in
  let? timeout := parse_duration (v_upstream_timeout v) in
  let? windows := windows_build (v_stream_inspect v) in
  let l := c_llm cfg in
  let? _ := UnpricedPolicy_parse (on_unpriced_model (ls_cfg l)) in
  let? budgets := engine_build (b_redis_open B) (ls_budgets l) (ls_store l) (ls_redis_url l) (ls_redis_prefix l)
                    (ls_fail_open l) in
  let? _ := check_claims_auth (as_cfg (c_auth cfg)) (ls_keys l) in
  let? vault := vault_build (ls_keys l) in
  let? dlp := Dlp.build (b_regex_new B) (b_is_match B) (b_ac_build B) (ls_dlp l) in
  let? telemetry := telemetry_build client_verdict (b_http_build B) (ls_telemetry l) in
  let? alerts := alert_build client_verdict (b_http_build B) (c_alerts cfg) in
  let rt := Pipeline.mkRuntime access max_headers (cp_enforce_quota (c_control_plane cfg)) (rs_enabled rl)
              (if build_local then map rr_path (rl_routes (rs_cfg rl)) else []) build_local
              (build_local && rl_per_key_enabled (rs_cfg rl)) cors auth (as_cfg (c_auth cfg)) (v_allow_methods v)
              (v_websocket v) waf dlp
              (mkGateCfg (runtime_build (ls_cfg l)) vault (fst <$> budgets) (ls_default_max_tokens l) (ls_team_header l))
              max_body (v_stream_requests v) windows max_response (v_stream_passthrough v) (v_stream_responses v)
              fwd (ts_enabled (c_tls cfg)) fp routes.1
              (single (b_parse_uri B) routes.2 (lit "default") (upstream_base cfg)) (c_headers cfg) in
  Ok (mkBuilt rt distributed quotas (nonzero timeout) (route_labels [] (labelled_routes cfg)) telemetry alerts,
      S routes.2).

(** ** Keeping health over a rebuild *)

Definition reset_verdict (h : TargetHealth) : TargetHealth := set_streak 0 (set_passing true h).

(** [Pool::carry_health_from]: a target found in the old pool takes over its record; without active checks
    a check's verdict in it is dropped. *)
Definition carry_target (checks : bool) (old : list Target) (t : Target) (hp : heap) : Target * heap :=
  match List.find (fun o => beq (base o) (base t)) old with
  | None => (t, hp)
  | Some o =>
      let t := mkTarget (base t) (t_label t) (backup t) (weight t) (id t) (health o) (check_host t) in
      (t, if checks then hp else update_health reset_verdict t hp)
  end.

Fixpoint carry_targets (checks : bool) (old ts : list Target) (hp : heap) : list Target * heap :=
  match ts with
  | [] => ([], hp)
  | t :: ts =>
      let '(t, hp) := carry_target checks old t hp in
      let '(ts, hp) := carry_targets checks old ts hp in (t :: ts, hp)
  end.

Definition with_targets (p : Pool) (ts : list Target) : Pool :=
  mkPool (route p) ts (managed p) (balance p) (health_check p) (eject_after p) (eject_for p) (eject_for_max p)
    (eject_after_5xx p) (hash_on p) (sticky p).

Definition carry_pool (p old : Pool) (hp : heap) : Pool * heap :=
  if negb (managed p && managed old) then (p, hp)
  else let '(ts, hp) := carry_targets (match health_check p with Some _ => true | None => false end) (targets old)
                          (targets p) hp in (with_targets p ts, hp).

(** [Runtime::carry_health_from]: by route prefix. *)
Fixpoint carry_routes (old rs : list (bytes * Pool)) (hp : heap) : list (bytes * Pool) * heap :=
  match rs with
  | [] => ([], hp)
  | (prefix, p) :: rs =>
      let '(p, hp) := match List.find (fun '(q, _) => beq q prefix) old with
                      | Some (_, previous) => carry_pool p previous hp
                      | None => (p, hp)
                      end in
      let '(rs, hp) := carry_routes old rs hp in ((prefix, p) :: rs, hp)
  end.
End Config.
