(* ===== verification/BootLaws.v ===== *)
(** * BootLaws: what a runtime that builds is known to be

    A pushed policy cannot change where the edge listens, forwards and whom it believes; a configuration
    that builds has passed the checks requests rely on; and a rebuild keeps the health of the targets it
    shares with the running pools. *)

From S2P Require Import Prelude Text Net Units Float Access Limiter Budget Http Health Pool PoolConfig ClientCert Auth KeyVault Llm LlmGate Forwarding Cors Waf Dlp StreamInspect CertStore Outbound Alert Telemetry Pipeline Boot.

Section Build.
Context {TlsRest UpstreamTls LogCfg TracingCfg MetricsCfg UnknownKeys RegexSet Regex Automaton Key St : Type}.
Abbreviation Config := (Config (TlsRest := TlsRest) (UpstreamTls := UpstreamTls) (LogCfg := LogCfg)
  (TracingCfg := TracingCfg) (MetricsCfg := MetricsCfg) (UnknownKeys := UnknownKeys)).
Variable B : BuildLibs (RegexSet := RegexSet) (Regex := Regex) (Automaton := Automaton) (Key := Key) (St := St).
Variable ids : Identities.

(** What the parts of a built runtime are, and the checks that were passed on the way. *)
Record build_facts (n : nat) (cfg : Config) (b : Built (RegexSet := RegexSet) (Regex := Regex)
    (Automaton := Automaton) (Key := Key) (St := St)) (n' : nat) : Prop := {
  bf_forwarders : forwarders_from_cfg (sv_forward (c_server cfg)) = Ok (forwarders (built b));
  bf_limiter : shared_limiter B (c_ratelimit cfg) = Ok (b_distributed b);
  bf_ip : ip_limiter (built b) = rs_enabled (c_ratelimit cfg)
            && match b_distributed b with None => true | Some _ => false end;
  bf_quotas : (if ip_limiter (built b) then local_quotas (rs_cfg (c_ratelimit cfg)) else Ok []) = Ok (b_quotas b);
  bf_routes : exists m, build_routes B n (c_upstreams cfg) = Ok (upstream_routes (built b), m) /\ n' = S m
                /\ default_upstream (built b) = single (b_parse_uri B) m (lit "default") (upstream_base cfg);
  bf_url : check_url (b_parse_uri B) (upstream_base cfg) = Ok tt;
  bf_certs : forward_policy (ts_client_mode (c_tls cfg)) (ts_forward_client_cert (c_tls cfg))
               (negb (Outbound.is_empty (trim (h_name (c_cert_header cfg))))) = Ok (client_cert_header (built b));
  bf_client_certs : check_client_certs cfg (client_cert_header (built b)) = Ok tt;
  bf_claims : check_claims_auth (as_cfg (c_auth cfg)) (ls_keys (c_llm cfg)) = Ok tt;
  bf_budgets : exists bs, engine_build (b_redis_open B) (ls_budgets (c_llm cfg)) (ls_store (c_llm cfg))
                 (ls_redis_url (c_llm cfg)) (ls_redis_prefix (c_llm cfg)) (ls_fail_open (c_llm cfg)) = Ok bs
                 /\ g_engine (gate (built b)) = fst <$> bs;
  bf_key : key_limiter (built b) = ip_limiter (built b) && rl_per_key_enabled (rs_cfg (c_ratelimit cfg));
  bf_limited : route_limiters (built b)
                 = if ip_limiter (built b) then map rr_path (rl_routes (rs_cfg (c_ratelimit cfg))) else [];
  bf_cors : cors_build (b_header_value_ok B) (c_cors cfg) = Ok (cors (built b));
  bf_auth : auth_cfg (built b) = as_cfg (c_auth cfg);
  bf_access : Access.build (c_access cfg) = Ok (access (built b));
  bf_waf : waf_build (b_set_new B) (c_waf cfg) = Ok (waf (built b));
  bf_dlp : Dlp.build (b_regex_new B) (b_is_match B) (b_ac_build B) (ls_dlp (c_llm cfg)) = Ok (dlp (built b));
  bf_headers : headers_cfg (built b) = c_headers cfg;
  bf_tls : tls_enabled (built b) = ts_enabled (c_tls cfg);
  bf_quota : enforce_quota (built b) = cp_enforce_quota (c_control_plane cfg);
  bf_telemetry : telemetry_build (client_verdict B ids) (b_http_build B) (ls_telemetry (c_llm cfg)) = Ok (b_telemetry b);
  bf_alerts : alert_build (client_verdict B ids) (b_http_build B) (c_alerts cfg) = Ok (b_alerts b)
}.

Lemma check_url_tt parse_uri url u : check_url parse_uri url = Ok u -> check_url parse_uri url = Ok tt.
Proof. by destruct u. Qed.

Lemma build_runtime_facts n (cfg : Config) b n' : build_runtime B ids n cfg = Ok (b, n') -> build_facts n cfg b n'.
Proof.
  intros H. unfold build_runtime in H. cbn zeta in H.
  repeat (apply rbind_Ok in H as (? & ? & H)).
  injection H as <- <-. repeat match goal with u : unit |- _ => destruct u end.
  match goal with r : (list (bytes * Pool) * nat)%type |- _ => destruct r end.
  split; cbn; try done; try (by eauto).
Qed.

(** Two runtimes built over the same file under any two pushed policies listen, forward, believe and report
    alike: the forwarders trusted, the listener's TLS and certificate headers, the upstream routes and the
    default upstream, the quota switch, the telemetry and the alerts.  No policy document reaches them. *)
Theorem pushed_policy_keeps_plumbing from_str n (local cfg1 cfg2 : Config) doc1 doc2 b1 n1 b2 n2 :
  with_policy_from from_str local doc1 = Ok cfg1 -> with_policy_from from_str local doc2 = Ok cfg2 ->
  build_runtime B ids n cfg1 = Ok (b1, n1) -> build_runtime B ids n cfg2 = Ok (b2, n2) ->
  forwarders (built b1) = forwarders (built b2) /\ tls_enabled (built b1) = tls_enabled (built b2)
  /\ client_cert_header (built b1) = client_cert_header (built b2)
  /\ upstream_routes (built b1) = upstream_routes (built b2) /\ default_upstream (built b1) = default_upstream (built b2)
  /\ enforce_quota (built b1) = enforce_quota (built b2)
  /\ b_telemetry b1 = b_telemetry b2 /\ b_alerts b1 = b_alerts b2 /\ n1 = n2.
Proof.
  unfold with_policy_from. intros Hp1 Hp2 [] % build_runtime_facts [] % build_runtime_facts.
  apply rbind_Ok in Hp1 as (p1 & _ & [= <-]). apply rbind_Ok in Hp2 as (p2 & _ & [= <-]). cbn in *.
  destruct bf_routes0 as (m1 & Hm1 & -> & Hd1), bf_routes1 as (m2 & Hm2 & -> & Hd2).
  rewrite Hm1 in Hm2. injection Hm2 as Hr <-.
  change (upstream_base (overlay local p1)) with (upstream_base local) in *.
  change (upstream_base (overlay local p2)) with (upstream_base local) in *.
  split_and!; congruence.
Qed.

(** ** What a configuration that builds has passed *)

Lemma quota_Ok rate burst q : quota rate burst = Ok q -> 0 < q.1 /\ 0 < q.2.
Proof.
  unfold quota. intros H. run_inv H. subst q. cbn.
  apply Z.ltb_lt in He0, He1. done.
Qed.

Lemma local_quotas_Ok rl qs : local_quotas rl = Ok qs -> Forall (fun q => 0 < q.1 /\ 0 < q.2) qs.
Proof.
  unfold local_quotas. intros H. run_inv H. subst qs. constructor; [by eapply quota_Ok|].
  apply Forall_app. split.
  - apply collect_Ok in Hv0. induction Hv0 as [|r q rs qs Hq _ IH]; constructor; [|done]. run_inv Hq. by eapply quota_Ok.
  - destruct (rl_per_key_enabled rl); run_inv Hv1; subst; repeat constructor; by eapply quota_Ok.
Qed.

Lemma build_routes_prefixes n routes rs m : build_routes B n routes = Ok (rs, m) ->
  Forall (fun r => exists tail, r.1 = 47 :: tail) rs.
Proof.
  revert n rs m. induction routes as [|[name r] routes IH]; intros n rs m H; cbn [build_routes] in H.
  - injection H as <- <-. constructor.
  - run_inv H. destruct v0 as [rest k]. simplify_eq/=. constructor; [|by eapply IH].
    cbn. apply starts_with_true in He0 as [tail ->]. by exists tail.
Qed.

Lemma cors_build_safe value_ok cfg p : cors_build value_ok cfg = Ok (Some p) ->
  any_origin p && Cors.allow_credentials p = false.
Proof.
  unfold cors_build. destruct (enabled cfg); cbn [negb]; [|done]. intros H. run_inv H. subst p. cbn.
  by apply negb_true_iff in He0.
Qed.

Lemma forwarders_checked scfg f : forwarders_from_cfg scfg = Ok f ->
  Forall (fun c => is_everything c = false) (list_ f) /\ (list_ f <> [] -> Forwarding.trust f = true).
Proof.
  unfold forwarders_from_cfg. intros H. run_inv H. subst f. cbn [list_ Forwarding.trust]. split.
  - apply Forall_forall. intros c Hc. apply negb_true_iff in He0. apply not_true_iff_false. intros Ht.
    apply not_true_iff_false in He0. apply He0, existsb_exists. exists c. split; [by apply list_elem_of_In|done].
  - intros Hne. by destruct v.
Qed.

Lemma local_quotas_count rl qs : local_quotas rl = Ok qs ->
  length qs = S (length (rl_routes rl) + (if rl_per_key_enabled rl then 1 else 0)).
Proof.
  unfold local_quotas. intros H. run_inv H. subst qs. cbn. rewrite length_app. apply collect_Ok, Forall2_length in Hv0.
  rewrite <- Hv0. do 2 f_equal. by destruct (rl_per_key_enabled rl); run_inv Hv1; subst.
Qed.

(** The shared limiter has a usable limit for the address, for each route and, if asked, for the key. *)
Definition limits_usable (rl : RateLimitCfg) (d : DistributedLimiter St) : Prop :=
  gcra_ok (global d)
  /\ Forall2 (fun r g => rg_prefix g = rr_path r /\ rr_path r <> [] /\ gcra_ok (rg_gcra g)) (rl_routes rl) (routes d)
  /\ (rl_per_key_enabled rl = true <-> is_Some (per_key d)) /\ (forall g, per_key d = Some g -> gcra_ok g).

Lemma limiter_build_usable rl st d : limiter_build rl st = Ok d -> limits_usable rl d.
Proof.
  unfold limiter_build. intros H. run_inv H. subst d. unfold limits_usable. cbn. split; [by eapply from_rate_ok|].
  split.
  - apply collect_Ok in Hv0. eapply Forall2_impl; [exact Hv0|]. cbn. intros r g Hg. run_inv Hg. subst g. cbn.
    split; [done|]. split; [|by eapply from_rate_ok]. intros Hp. rewrite Hp in He. discriminate.
  - destruct (rl_per_key_enabled rl); run_inv Hv1; subst.
    + split; [done|]. intros g [= <-]. by eapply from_rate_ok.
    + split; [split; [done|by intros []]|done].
Qed.

(** Certificates are asked for on the listener, or taken from a proxy's header. *)
Definition certs_asked (cfg : Config) : Prop :=
  ts_client_mode (c_tls cfg) <> lit "off" \/ trim (h_name (c_cert_header cfg)) <> [].

Lemma forward_policy_Ok mode fwd from_header fp : forward_policy mode fwd from_header = Ok fp ->
  mode ∈ [lit "off"; lit "optional"; lit "required"]
  /\ (strip_inbound fp = true <-> mode <> lit "off" \/ from_header = true)
  /\ (forward fp = true -> strip_inbound fp = true).
Proof.
  unfold forward_policy, Mode_parse. intros H. run_inv H. subst fp. cbn [strip_inbound forward].
  assert (Hm : (v = ClientCert.Off <-> mode = lit "off") /\ mode ∈ [lit "off"; lit "optional"; lit "required"]).
  { destruct (beq mode (lit "off")) eqn:E1; [apply beq_true in E1; injection Hv as <-; subst; split; [done|set_solver]|].
    apply beq_false in E1. destruct (beq mode (lit "optional")) eqn:E2;
      [apply beq_true in E2; injection Hv as <-; subst; split; [done|set_solver]|].
    destruct (beq mode (lit "required")) eqn:E3; [|done].
    apply beq_true in E3; injection Hv as <-; subst; split; [done|set_solver]. }
  destruct Hm as [Hm Hin]. split; [done|]. split.
  - rewrite orb_true_iff, negb_true_iff, bool_decide_eq_false. tauto.
  - intros ->. by rewrite orb_false_r in He.
Qed.

Lemma engine_build_Ok open cfgs st url pre fo e m : engine_build open cfgs st url pre fo = Ok (Some (e, m)) ->
  Forall (fun b => 0 < b_limit b /\ 0 < b_window_secs b) (budgets e).
Proof.
  unfold engine_build. destruct cfgs as [|c cfgs]; [done|]. intros H. run_inv H. subst e. cbn [budgets].
  apply collect_Ok in Hv1. revert Hv1. generalize (c :: cfgs). intros l Hl.
  induction Hl as [|x b xs bs Hb _ IH]; constructor; [|done].
  unfold budget_build in Hb. run_inv Hb. subst b. cbn. apply Z.ltb_lt in He0, He2. done.
Qed.

(** What requests rely on in a runtime built from [cfg]. *)
Record runtime_checked (cfg : Config) (b : Built (RegexSet := RegexSet) (Regex := Regex) (Automaton := Automaton)
    (Key := Key) (St := St)) : Prop := {
  (** Each route prefix is a path. *)
  rc_routes : Forall (fun r => exists tail, r.1 = 47 :: tail) (upstream_routes (built b));
  (** Nobody is believed about every address, and a list of forwarders is not idle. *)
  rc_everything : Forall (fun c => is_everything c = false) (list_ (forwarders (built b)));
  rc_forwarders : list_ (forwarders (built b)) <> [] -> Forwarding.trust (forwarders (built b)) = true;
  (** Rate limiting that is on has usable limits for the address, for each route and for the key, all in
      the process or all in the shared store. *)
  rc_limits : rs_enabled (c_ratelimit cfg) = true ->
    match b_distributed b with
    | None => ip_limiter (built b) = true /\ Forall (fun q => 0 < q.1 /\ 0 < q.2) (b_quotas b)
              /\ length (b_quotas b) = S (length (rl_routes (rs_cfg (c_ratelimit cfg)))
                                          + (if rl_per_key_enabled (rs_cfg (c_ratelimit cfg)) then 1 else 0))
              /\ route_limiters (built b) = map rr_path (rl_routes (rs_cfg (c_ratelimit cfg)))
              /\ key_limiter (built b) = rl_per_key_enabled (rs_cfg (c_ratelimit cfg))
    | Some d => ip_limiter (built b) = false /\ key_limiter (built b) = false /\ b_quotas b = []
                /\ limits_usable (rs_cfg (c_ratelimit cfg)) d
    end;
  (** Certificates are used only where they are asked for, and what clients claim about theirs is removed. *)
  rc_mode : ts_client_mode (c_tls cfg) ∈ [lit "off"; lit "optional"; lit "required"];
  rc_strip : strip_inbound (client_cert_header (built b)) = true <-> certs_asked cfg;
  rc_mtls : Auth.mode (as_cfg (c_auth cfg)) = lit "mtls" -> certs_asked cfg;
  rc_forward : forward (client_cert_header (built b)) = true -> certs_asked cfg;
  (** A proxy that is trusted by the name in its certificate is asked for one. *)
  rc_proxy_names : trim (h_name (c_cert_header cfg)) <> [] -> h_proxy_names (c_cert_header cfg) <> [] ->
    ts_client_mode (c_tls cfg) <> lit "off";
  (** CORS never opens credentialed responses to every origin. *)
  rc_cors : forall p, cors (built b) = Some p -> any_origin p && Cors.allow_credentials p = false;
  (** Claims choose a provider key only of a JWT checked for its issuer and its audience. *)
  rc_claims : forall k, k ∈ ls_keys (c_llm cfg) -> k_claims k <> [] ->
    Auth.mode (as_cfg (c_auth cfg)) = lit "jwt" /\ trim (issuer (jwt (as_cfg (c_auth cfg)))) <> []
    /\ trim (audience (jwt (as_cfg (c_auth cfg)))) <> [];
  (** A budget admits something, over a window. *)
  rc_budgets : forall e, g_engine (gate (built b)) = Some e ->
    Forall (fun b => 0 < b_limit b /\ 0 < b_window_secs b) (budgets e)
}.

Lemma limits_checked n (cfg : Config) b n' : build_facts n cfg b n' -> rs_enabled (c_ratelimit cfg) = true ->
  match b_distributed b with
  | None => ip_limiter (built b) = true /\ Forall (fun q => 0 < q.1 /\ 0 < q.2) (b_quotas b)
            /\ length (b_quotas b) = S (length (rl_routes (rs_cfg (c_ratelimit cfg)))
                                        + (if rl_per_key_enabled (rs_cfg (c_ratelimit cfg)) then 1 else 0))
            /\ route_limiters (built b) = map rr_path (rl_routes (rs_cfg (c_ratelimit cfg)))
            /\ key_limiter (built b) = rl_per_key_enabled (rs_cfg (c_ratelimit cfg))
  | Some d => ip_limiter (built b) = false /\ key_limiter (built b) = false /\ b_quotas b = []
              /\ limits_usable (rs_cfg (c_ratelimit cfg)) d
  end.
Proof.
  intros F Hen. pose proof (bf_ip _ _ _ _ F) as Hip. pose proof (bf_quotas _ _ _ _ F) as Hq.
  pose proof (bf_key _ _ _ _ F) as Hk. pose proof (bf_limited _ _ _ _ F) as Hl. pose proof (bf_limiter _ _ _ _ F) as Hd.
  rewrite Hen in Hip. destruct (b_distributed b) as [d|]; rewrite Hip in Hq, Hk, Hl; cbn in Hip, Hq, Hk, Hl.
  - split_and!; [done|done|by injection Hq|]. unfold shared_limiter in Hd. run_inv Hd. rewrite Hen in Hd.
    destruct (is_distributed v); cbn in Hd; [|done]. run_inv Hd. subst. by eapply limiter_build_usable.
  - split_and!; [done|by eapply local_quotas_Ok|by apply local_quotas_count|done|done].
Qed.

Lemma certs_checked n (cfg : Config) b n' : build_facts n cfg b n' ->
  ts_client_mode (c_tls cfg) ∈ [lit "off"; lit "optional"; lit "required"]
  /\ (strip_inbound (client_cert_header (built b)) = true <-> certs_asked cfg)
  /\ (Auth.mode (as_cfg (c_auth cfg)) = lit "mtls" -> certs_asked cfg)
  /\ (forward (client_cert_header (built b)) = true -> certs_asked cfg)
  /\ (trim (h_name (c_cert_header cfg)) <> [] -> h_proxy_names (c_cert_header cfg) <> [] ->
      ts_client_mode (c_tls cfg) <> lit "off").
Proof.
  intros F. destruct (forward_policy_Ok _ _ _ _ (bf_certs _ _ _ _ F)) as (Hm & Hs & Hf).
  pose proof (bf_client_certs _ _ _ _ F) as Hc. unfold check_client_certs in Hc. run_inv Hc.
  assert (Hh : negb (Outbound.is_empty (trim (h_name (c_cert_header cfg)))) = true <-> trim (h_name (c_cert_header cfg)) <> []).
  { unfold Outbound.is_empty, beq. rewrite negb_true_iff, bool_decide_eq_false. done. }
  assert (Hstrip : strip_inbound (client_cert_header (built b)) = true <-> certs_asked cfg).
  { rewrite Hs, Hh. done. }
  split; [done|]. split; [done|]. split_and!.
  - intros Hmode. apply Hstrip. by rewrite Hmode in He.
  - intros Hfw. by apply Hstrip, Hf.
  - intros Hn Hp Hoff. apply Hh in Hn. rewrite Hn, Hoff in He0. by destruct (h_proxy_names (c_cert_header cfg)).
Qed.

Lemma claims_checked auth keys k : check_claims_auth auth keys = Ok tt -> k ∈ keys -> k_claims k <> [] ->
  Auth.mode auth = lit "jwt" /\ trim (issuer (jwt auth)) <> [] /\ trim (audience (jwt auth)) <> [].
Proof.
  unfold check_claims_auth. intros H Hk Hc.
  assert (E : existsb (fun k => negb (Access.is_nil (k_claims k))) keys = true).
  { apply existsb_exists. exists k. split; [by apply list_elem_of_In|]. by destruct (k_claims k). }
  rewrite E in H. cbn [negb] in H. run_inv H. apply beq_true in He. apply andb_true_iff in He0 as [H1 H2].
  apply negb_true_iff, beq_false in H1, H2. done.
Qed.

(** C28.  A runtime that builds has passed the checks its requests rely on: route prefixes are paths; forwarders
    never name every address and are not idle; rate limiting that is on has a usable limit for the address,
    for every route and, if asked, for the key, all in the process or all in the shared store; certificates
    are relied on, forwarded or asked of trusted proxies only where the listener or the proxy's header
    supplies them, and then what a client claims of its own is removed; CORS never opens credentialed
    responses to every origin; claims choose a provider key only of a JWT checked for issuer and audience;
    and every budget admits something. *)
Theorem built_runtime_checked n (cfg : Config) b n' : build_runtime B ids n cfg = Ok (b, n') -> runtime_checked cfg b.
Proof.
  intros F % build_runtime_facts. pose proof (certs_checked _ _ _ _ F) as (C1 & C2 & C3 & C4 & C5).
  split; try done.
  - destruct (bf_routes _ _ _ _ F) as (m & Hr & _). by eapply build_routes_prefixes.
  - apply (forwarders_checked _ _ (bf_forwarders _ _ _ _ F)).
  - apply (forwarders_checked _ _ (bf_forwarders _ _ _ _ F)).
  - by eapply limits_checked.
  - intros p Hp. pose proof (bf_cors _ _ _ _ F) as Hc. rewrite Hp in Hc. by eapply cors_build_safe.
  - intros k. apply claims_checked, (bf_claims _ _ _ _ F).
  - intros e He. destruct (bf_budgets _ _ _ _ F) as (bs & Hb & Hg). rewrite Hg in He.
    destruct bs as [[e' m]|]; [|done]. injection He as <-. by eapply engine_build_Ok.
Qed.
End Build.

(** ** Health over a rebuild *)

(** Where a target of a rebuilt pool finds its record: the one its route had for the same URL, when both
    pools track health. *)
Definition carried (old : list (bytes * Pool)) (prefix : bytes) (p : Pool) (t : Target) : option nat :=
  match List.find (fun '(q, _) => beq q prefix) old with
  | Some (_, previous) =>
      if managed p && managed previous
      then health <$> List.find (fun o => beq (base o) (base t)) (targets previous) else None
  | None => None
  end.

(** A record as it was, or with a check's verdict dropped. *)
Definition kept (h h' : TargetHealth) : Prop := h' = h \/ h' = reset_verdict h.

Definition heap_kept (hp hp' : heap) : Prop :=
  length hp' = length hp
  /\ forall l h, hp !! l = Some h -> exists h', hp' !! l = Some h' /\ kept h h'.

#[global] Instance heap_kept_preorder : PreOrder heap_kept.
Proof.
  split; [intros hp; split; [done|]; intros l h Hl; exists h; by split; [|left]|].
  intros a b c [Hl1 H1] [Hl2 H2]. split; [congruence|]. intros l h Hh.
  destruct (H1 l h Hh) as (h1 & Hh1 & K1). destruct (H2 l h1 Hh1) as (h2 & Hh2 & K2).
  exists h2. split; [done|]. destruct K1 as [-> | ->], K2 as [-> | ->]; unfold kept; auto.
Qed.

Lemma carry_target_kept checks old t hp : heap_kept hp (carry_target checks old t hp).2.
Proof.
  unfold carry_target. destruct (List.find _ old) as [o|]; [|reflexivity].
  destruct checks; [reflexivity|]. cbn. split; [apply length_alter|]. intros l h Hl.
  unfold update_health. cbn. destruct (decide (l = health o)) as [->|Hne].
  - exists (reset_verdict h). rewrite list_lookup_alter_eq, Hl. split; [done | by right].
  - exists h. rewrite list_lookup_alter_ne by done. split; [done | by left].
Qed.

(** The target keeps all but its record. *)
Definition moved (loc : option nat) (t t' : Target) : Prop :=
  t' = mkTarget (base t) (t_label t) (backup t) (weight t) (id t) (default (health t) loc) (check_host t).

Lemma carry_target_moved checks old t hp :
  moved (health <$> List.find (fun o => beq (base o) (base t)) old) t (carry_target checks old t hp).1.
Proof. unfold carry_target, moved. destruct (List.find _ old), t; done. Qed.

Lemma carry_targets_kept checks old ts hp :
  heap_kept hp (carry_targets checks old ts hp).2
  /\ Forall2 (fun t t' => moved (health <$> List.find (fun o => beq (base o) (base t)) old) t t')
       ts (carry_targets checks old ts hp).1.
Proof.
  revert hp. induction ts as [|t ts IH]; intros hp; cbn [carry_targets]; [by split; [reflexivity | constructor]|].
  pose proof (carry_target_kept checks old t hp) as Hk. pose proof (carry_target_moved checks old t hp) as Hm.
  destruct (carry_target checks old t hp) as [t' hp1]. destruct (IH hp1) as [Hk' Hm'].
  destruct (carry_targets checks old ts hp1) as [ts' hp2]. cbn in *. split; [by etrans | by constructor].
Qed.

Lemma moved_none t : moved None t t.
Proof. by destruct t. Qed.

Lemma carry_pool_kept old prefix p previous hp : List.find (fun '(q, _) => beq q prefix) old = Some (prefix, previous) ->
  heap_kept hp (carry_pool p previous hp).2
  /\ Forall2 (fun t t' => moved (carried old prefix p t) t t') (targets p) (targets (carry_pool p previous hp).1)
  /\ (carry_pool p previous hp).1 = with_targets p (targets (carry_pool p previous hp).1).
Proof.
  intros Hf. unfold carry_pool, carried. rewrite Hf. destruct (managed p && managed previous); cbn [negb].
  - destruct (carry_targets_kept (match health_check p with Some _ => true | None => false end) (targets previous)
      (targets p) hp) as [Hk Hm]. destruct (carry_targets _ _ (targets p) hp) as [ts hp']. by split.
  - split; [reflexivity|]. split; [|by destruct p]. cbn. generalize (targets p) as ts.
    intros ts. induction ts; constructor; [apply moved_none | done].
Qed.

Lemma carry_routes_kept old rs hp rs' hp' : carry_routes old rs hp = (rs', hp') ->
  heap_kept hp hp'
  /\ Forall2 (fun r r' => r'.1 = r.1 /\ r'.2 = with_targets r.2 (targets r'.2)
                          /\ Forall2 (fun t t' => moved (carried old r.1 r.2 t) t t') (targets r.2) (targets r'.2)) rs rs'.
Proof.
  revert hp rs' hp'. induction rs as [|[prefix p] rs IH]; intros hp rs' hp' H; cbn [carry_routes] in H.
  { injection H as <- <-. split; [reflexivity | constructor]. }
  set (step := match List.find (fun '(q, _) => beq q prefix) old with
               | Some (_, previous) => carry_pool p previous hp | None => (p, hp) end) in H.
  assert (Hs : heap_kept hp step.2
    /\ Forall2 (fun t t' => moved (carried old prefix p t) t t') (targets p) (targets step.1)
    /\ step.1 = with_targets p (targets step.1)).
  { subst step. destruct (List.find _ old) as [[q previous]|] eqn:Hf.
    - pose proof (List.find_some _ _ Hf) as [_ Hq]. apply beq_true in Hq as ->. by apply carry_pool_kept.
    - split; [reflexivity|]. split; [|by destruct p]. cbn. unfold carried. rewrite Hf.
      generalize (targets p) as ts. intros ts. induction ts; constructor; [apply moved_none | done]. }
  clearbody step. destruct step as [p1 hp1]. destruct (carry_routes old rs hp1) as [rs1 hp2] eqn:Hr.
  injection H as <- <-. destruct (IH _ _ _ Hr) as [Hk Hrest]. destruct Hs as (Hk1 & Hm & Hp). cbn in *.
  split; [by etrans|]. constructor; [|done]. cbn. done.
Qed.

(** Rebuilding the runtime does not forget that a target is down: each target of the new pools whose route
    and URL the old ones tracked holds the same record as before, any other the new one it was built with,
    and no record loses its ejections, its failures or its requests in flight. *)
Theorem rebuild_keeps_health old rs hp rs' hp' : carry_routes old rs hp = (rs', hp') ->
  heap_kept hp hp'
  /\ Forall2 (fun r r' => r'.1 = r.1 /\ r'.2 = with_targets r.2 (targets r'.2)
                          /\ Forall2 (fun t t' => moved (carried old r.1 r.2 t) t t') (targets r.2) (targets r'.2)) rs rs'.
Proof. apply carry_routes_kept. Qed.

(** ** Witnesses *)

Definition sample_uri (u : bytes) : option Uri :=
  match strip_prefix (lit "http://") u with
  | Some host => Some (mkUri (Some (lit "http")) (Some host) (Some host) None [])
  | None => None
  end.

Definition sample_libs : BuildLibs (RegexSet := unit) (Regex := unit) (Automaton := unit) (Key := unit) (St := unit) :=
  mkBuildLibs sample_uri (fun n => Some n) (fun _ => true) (fun m => Some m) (fun _ => true) (lit "1.0")
    (fun _ => tt) (fun _ _ => None) (fun _ => Some tt) (fun _ => Some tt) (fun _ _ => true) (fun _ => Some tt)
    (fun _ => true) (fun _ _ => Ok tt) (fun _ => None) (fun _ => None) (fun _ => true) [] (fun _ => true)
    (fun _ => None) (fun _ => true) (fun _ _ => Err "none") true.

Definition no_outbound : OutboundCfg := mkOutboundCfg [] [] [] [] (mkDefaults [] [] [] [] []).

(** A pool on [/api], basic authentication, ten requests a second. *)
Definition sample_config (auth_mode rate : bytes) (trusted : bool)
    : Config (TlsRest := unit) (UpstreamTls := unit) (LogCfg := unit) (TracingCfg := unit) (MetricsCfg := unit)
        (UnknownKeys := unit) :=
  mkConfig
    (mkServerSection (mkServerCfg trusted (Forwarding.Count 1) []) [] 3000 8080 0 [] (lit "10s") 0 (lit "0") (lit "30s") false [])
    (mkAuthSection (mkAuthCfg auth_mode [] ∅ [] (lit "x-api-key") (mkJwtCfg [] [] [] [] 0 [] [] 0) []) no_outbound)
    (mkRateSection true (lit "local") [] (mkRateLimitCfg rate 5 [] false [] 0 [] false) [])
    (mkValidationCfg (lit "1MB") (lit "10MB") (lit "16KB") (lit "30s") (lit "5s") [] false false false [] false false)
    (mkHeadersCfg [] [] [] [] [] false false [] false false [])
    (mkTlsSection _ false (lit "off") (lit "off") tt)
    (mkWafCfg (lit "off") false false false false false false [])
    [(lit "api", mkUpstreamRoute (lit "/api") [] [mkTargetCfg (lit "http://a:1") None None; mkTargetCfg (lit "http://b:1") None None]
        (lit "round_robin") [] [] [] false [] HealthCheckCfg_default 3 (lit "30s") (lit "5m") 0)]
    tt (mkAccessCfg [] []) (mkCorsCfg false [] [] [] [] false [])
    (mkControlPlaneCfg false [] [] [] (lit "30s") (lit "60s") false false (lit "30s") [] [] (lit "local") no_outbound)
    (mkLlmSection (mkLlmCfg false [] ∅ (lit "count")) [] [] [] [] false 0 [] []
       (mkDlpCfg (lit "off") [] false false false false false false false false false false false false false 0
          f64_zero [] [] false)
       (mkTelemetryCfg false [] f64_zero [] false 0 2000 no_outbound))
    (mkAlertsCfg false [] f64_zero 2000 no_outbound) tt tt tt
    (mkHeaderCfg [] [] [] [] [] []) (mkDefaults [] [] [] [] []) tt.

Definition local_config := sample_config (lit "none") (lit "10/sec") false.

(** Two documents, one of which would have every peer believed, and one that does not build. *)
Definition sample_toml (doc : bytes) :=
  if beq doc (lit "strict") then Some (sample_config (lit "basic") (lit "1/sec") false)
  else if beq doc (lit "broken") then Some (sample_config (lit "none") (lit "often") false)
  else Some (sample_config (lit "none") (lit "100/sec") true).

Definition built_from (doc : bytes) :=
  let? cfg := with_policy_from sample_toml local_config doc in build_runtime sample_libs no_identities 0 cfg.

Lemma built_runtime_checked_witness : exists b n,
  build_runtime sample_libs no_identities 0 local_config = Ok (b, n)
  /\ map fst (upstream_routes (built b)) = [lit "/api"] /\ runtime_checked local_config b.
Proof.
  eexists _, _. split; [vm_compute; reflexivity|]. split; [vm_compute; reflexivity|].
  refine (built_runtime_checked sample_libs no_identities 0 local_config _ _ _).
  vm_compute. reflexivity.
Defined.

Example documents_differ :
  rok (let? b := built_from (lit "strict") in Ok (Auth.mode (auth_cfg (built b.1)))) = Some (lit "basic")
  /\ rok (let? b := built_from (lit "loose") in Ok (Auth.mode (auth_cfg (built b.1)))) = Some (lit "none").
Proof. vm_compute. done. Qed.

Lemma pushed_policy_keeps_plumbing_witness :
  match built_from (lit "strict"), built_from (lit "loose") with
  | Ok (b1, _), Ok (b2, _) => forwarders (built b1) = forwarders (built b2)
  | _, _ => False
  end.
Proof.
  unfold built_from.
  destruct (with_policy_from sample_toml local_config (lit "strict")) as [c1|] eqn:H1; [|discriminate H1].
  destruct (with_policy_from sample_toml local_config (lit "loose")) as [c2|] eqn:H2; [|discriminate H2].
  cbn [rbind]. destruct (build_runtime sample_libs no_identities 0 c1) as [[b1 n1]|] eqn:B1.
  2:{ revert B1. injection H1 as <-. vm_compute. discriminate. }
  destruct (build_runtime sample_libs no_identities 0 c2) as [[b2 n2]|] eqn:B2.
  2:{ revert B2. injection H2 as <-. vm_compute. discriminate. }
  exact (proj1 (pushed_policy_keeps_plumbing sample_libs no_identities sample_toml 0 local_config c1 c2
    (lit "strict") (lit "loose") b1 n1 b2 n2 H1 H2 B1 B2)).
Defined.

Definition sample_old_pool : Pool :=
  mkPool (lit "api") [mkTarget (lit "http://b:1") [] false 1 7 0 None] true Pool.Priority None 3 30 60 0 None None.
Definition sample_new_pool : Pool :=
  mkPool (lit "api") [mkTarget (lit "http://a:1") [] false 1 6 1 None; mkTarget (lit "http://b:1") [] false 1 7 2 None]
    true Pool.Priority None 3 30 60 0 None None.
Definition sample_down : TargetHealth := set_ejected_until 5000 health_default.

Lemma rebuild_keeps_health_witness : exists rs' hp',
  carry_routes [(lit "/api", sample_old_pool)] [(lit "/api", sample_new_pool)] [sample_down; health_default; health_default]
    = (rs', hp')
  /\ map (fun r => map health (targets r.2)) rs' = [[1; 0]]%nat
  /\ heap_kept [sample_down; health_default; health_default] hp'.
Proof.
  eexists _, _. split; [vm_compute; reflexivity|]. split; [vm_compute; reflexivity|].
  refine (proj1 (rebuild_keeps_health [(lit "/api", sample_old_pool)] [(lit "/api", sample_new_pool)] _ _ _ _)).
  vm_compute. reflexivity.
Defined.
