(* ===== verification/ControlPlane.v ===== *)
(** * ControlPlane: managed mode ([src/src/policy.rs], [src/src/cp.rs])

    An edge runs the policy its control plane pushed, laid over its own file.  [Policy] holds the two layers
    and is the one place that rebuilds the runtime; the pushed layer is kept on disk and read back at boot.
    The client's loops pull the policy and the quota verdict and report usage.  Building a runtime is an
    interface ([Builder]), which [Boot] implements. *)

From S2P Require Import Prelude Text AcmeBudget Float Http CertStore Outbound Boot Metrics.

(** ** Building a runtime *)

(** Layers of type [C], runtimes of type [R], and what they share in memory, [W]. *)
Class Builder (C R W : Type) : Type := {
  cp_of : C -> ControlPlaneCfg;
  merge : C -> bytes -> result C;                       (** [Config::with_policy_from] *)
  (** [build_runtime], then [carry_health_from] the runtime it replaces. *)
  build_over : C -> R -> W -> result (R * W);
  built_from : C -> R -> Prop                           (** a runtime compiled from these settings *)
}.

Class BuilderLaws (C R W : Type) `{Builder C R W} : Prop := {
  build_over_built : forall c old w r w', build_over c old w = Ok (r, w') -> built_from c r
}.

(** ** The policy and its copy on disk *)

Record Pushed : Type := mkPushed { etag : bytes; body : bytes }.

#[global] Instance Pushed_eq_dec : EqDecision Pushed.
Proof. solve_decision. Defined.

Record CacheFile : Type := mkCacheFile {
  cf_version : Z; cf_control_plane : bytes; cf_tenant_id : bytes; cf_etag : bytes; cf_saved_at : Z; cf_policy : bytes
}.

Definition CACHE_VERSION : Z := 1.

Record Cache : Type := mkCache { path : bytes; control_plane : bytes; tenant_id : bytes }.

(** A file system: a path may be absent, or there and not readable as text. *)
Abbreviation Disk := (gmap bytes (option bytes)).

Section Policy.
Context {C R W : Type} `{Builder C R W}.
(** [serde_json] for the cache file. *)
Variable to_json : CacheFile -> bytes.
Variable from_json : bytes -> option CacheFile.

Record Policy : Type := mkPolicy {
  local : C; pushed : option Pushed; runtime : R; shared : W; cache : option Cache; pending : bool
}.

(** [Cache::save]; [written] says whether [replace_private] succeeded. *)
Definition save (c : Cache) (p : Pushed) (now : Z) (written : bool) (d : Disk) : Disk :=
  if written then
    <[path c := Some (to_json (mkCacheFile CACHE_VERSION (control_plane c) (tenant_id c) (etag p) now (body p)))]> d
  else d.

Definition load (c : Cache) (d : Disk) : result (option (Pushed * Z)) :=
  match d !! path c with
  | None => Ok None
  | Some file =>
      let? raw := ok_or file "reading the policy cache" in
      let? f := ok_or (from_json raw) "not a policy cache file" in
      ensure (cf_version f =? CACHE_VERSION) else "written in another format version";
      ensure (beq (cf_control_plane f) (control_plane c) && beq (cf_tenant_id f) (tenant_id c))
        else "written for another control plane or tenant";
      Ok (Some (mkPushed (cf_etag f) (cf_policy f), cf_saved_at f))
  end.

(** [Policy::new]. *)
Definition policy_new (local : C) (rt : R) (w : W) : result Policy :=
  let cp := cp_of local in
  let? refuse := (if beq (cp_boot_without_policy cp) (lit "local") then Ok false
                  else if beq (cp_boot_without_policy cp) (lit "refuse") then Ok true
                  else Err "unknown control_plane.boot_without_policy (expected local|refuse)") in
  Ok (mkPolicy local None rt w
        (if cp_enabled cp && negb (is_empty (cp_cache_path cp))
         then Some (mkCache (cp_cache_path cp) (trim_end_matches 47 (cp_url cp)) (cp_tenant_id cp)) else None)
        (cp_enabled cp && refuse)).

Definition effective (local : C) (pushed : option Pushed) : result C :=
  match pushed with Some p => merge local (body p) | None => Ok local end.

Definition rebuild (pol : Policy) (local : C) (pushed : option Pushed) : result (R * W) :=
  let? cfg := effective local pushed in build_over cfg (runtime pol) (shared pol).

Definition set_local (pol : Policy) (local : C) : result Policy :=
  let? r := rebuild pol local (pushed pol) in
  Ok (mkPolicy local (pushed pol) r.1 r.2 (cache pol) (pending pol)).

Definition install (pol : Policy) (p : Pushed) : result Policy :=
  let? r := rebuild pol (local pol) (Some p) in
  Ok (mkPolicy (local pol) (Some p) r.1 r.2 (cache pol) false).

Definition apply_pushed (pol : Policy) (p : Pushed) (now : Z) (written : bool) (d : Disk) : result (Policy * Disk) :=
  let? pol := install pol p in
  Ok (pol, match cache pol with Some c => save c p now written d | None => d end).

Definition restore_cached (pol : Policy) (d : Disk) : option Pushed * Policy :=
  match cache pol with
  | None => (None, pol)
  | Some c =>
      match load c d with
      | Ok (Some (p, _)) => match install pol p with Ok pol => (Some p, pol) | Err _ => (None, pol) end
      | _ => (None, pol)
      end
  end.

(** ** The client *)

(** An HTTP exchange: no answer, or a status and the body as [serde_json] reads it. *)
Inductive Exchange (A : Type) : Type := Unreachable | Answer (status : Z) (parsed : option A).
Arguments Unreachable {A}.
Arguments Answer {A}.

Definition is_success (status : Z) : bool := (200 <=? status) && (status <? 300).
(** [error_for_status]. *)
Definition is_error (status : Z) : bool := (400 <=? status) && (status <? 600).

Inductive PullResult : Type := NotModified | PulledPolicy (body etag : bytes).

(** [pull_policy]: the policy document has [etag] and [body]. *)
Definition pull_policy (x : Exchange (bytes * bytes)) : result PullResult :=
  match x with
  | Unreachable => Err "pulling policy"
  | Answer status doc =>
      if status =? 304 then Ok NotModified
      else if is_success status then
        let? d := ok_or doc "parsing policy document" in Ok (PulledPolicy d.2 d.1)
      else Err "control plane returned another status for policy pull"
  end.

Definition pull_quota (x : Exchange (bool * option Z)) : result (bool * Z) :=
  match x with
  | Unreachable => Err "pulling quota"
  | Answer status q =>
      ensure (negb (is_error status)) else "control plane rejected quota poll";
      let? q := ok_or q "parsing quota verdict" in Ok (q.1, default 0 q.2)
  end.

Record LeaseResp : Type := mkLeaseResp {
  decision : bytes; l_lease_id : option bytes; l_bucket : option bytes; l_key : option bytes; l_retry_at : option Z
}.

Definition acme_lease (x : Exchange LeaseResp) : result LeaseVerdict :=
  match x with
  | Unreachable => Err "requesting an ACME issuance lease"
  | Answer status resp =>
      if status =? 404 then Ok Unmanaged
      else
        ensure (negb (is_error status)) else "control plane rejected the lease request";
        let? b := ok_or resp "parsing the lease decision" in
        Ok (if beq (decision b) (lit "granted") then Granted (default [] (l_lease_id b))
            else if beq (decision b) (lit "deferred") then
              LeaseDeferred (default (lit "unknown") (l_bucket b)) (default [] (l_key b)) (default 0 (l_retry_at b))
            else Unmanaged)
  end.

(** [acme_lease_outcome]: whether a report is sent. *)
Definition lease_outcome_sent (lease_id : bytes) : bool := negb (is_empty lease_id).

(** [default_edge_id]: [$HOSTNAME], [/etc/hostname], the process id. *)
Definition default_edge_id (hostname etc_hostname : option bytes) (pid : Z) : bytes :=
  let named := List.filter (fun h => negb (is_empty h)) (map trim (option_list hostname ++ option_list etc_hostname)) in
  match named with h :: _ => h | [] => lit "edge-" ++ dec pid end.

Record CpClient : Type := mkCpClient { edge_base : bytes; token : bytes; edge_id : bytes }.

(** [CpClient::from_cfg]; [client_ok] is the verdict of the outbound builder and of [reqwest]. *)
Definition from_cfg (client_ok : OutboundCfg -> bytes -> result unit) (default_id : bytes) (cfg : ControlPlaneCfg)
    : result (option CpClient) :=
  if negb (cp_enabled cfg) then Ok None
  else
    ensure (negb (is_empty (cp_url cfg))) else "control_plane.url is required when enabled";
    ensure (negb (is_empty (cp_tenant_id cfg))) else "control_plane.tenant_id is required when enabled";
    ensure (negb (is_empty (cp_edge_token cfg))) else "control_plane.edge_token is required when enabled";
    let? _ := client_ok (cp_outbound cfg) (cp_url cfg) in
    Ok (Some (mkCpClient (trim_end_matches 47 (cp_url cfg) ++ lit "/v3/edge/" ++ cp_tenant_id cfg) (cp_edge_token cfg)
                (if is_empty (trim (cp_edge_id cfg)) then default_id else trim (cp_edge_id cfg)))).

Record QuotaState : Type := mkQuotaState { over_quota : bool; reset_epoch : Z }.

(** One round of [quota_loop]: a failed poll keeps the last verdict. *)
Definition quota_poll (x : Exchange (bool * option Z)) (q : QuotaState) : QuotaState :=
  match pull_quota x with Ok (over, reset) => mkQuotaState over reset | Err _ => q end.

(** ** The edge *)

(** The process: its policy, the ETag its reports carry ([CpClient::policy_etag]), the poll loop's own
    ETag, the quota, and the disk. *)
Record Edge : Type := mkEdge {
  policy : Policy; reported : option bytes; cursor : option bytes; quota_state : QuotaState; disk : Disk
}.

(** [main]: the policy, then the copy kept on disk, before the listener binds. *)
Definition boot (local : C) (rt : R) (w : W) (d : Disk) : result Edge :=
  let? pol := policy_new local rt w in
  let '(cached, pol) := restore_cached pol d in
  let e := etag <$> cached in
  Ok (mkEdge pol (if cp_enabled (cp_of local) then e else None) e (mkQuotaState false 0) d).

(** One round of [poll_loop]. *)
Definition poll (x : Exchange (bytes * bytes)) (now : Z) (written : bool) (e : Edge) : Edge :=
  match pull_policy x with
  | Ok (PulledPolicy b new) =>
      match apply_pushed (policy e) (mkPushed new b) now written (disk e) with
      | Ok (pol, d) => mkEdge pol (Some new) (Some new) (quota_state e) d
      | Err _ => e
      end
  | _ => e
  end.

(** [reload]: the file as [Config::load] reads it. *)
Definition reload_file (cfg : result C) (e : Edge) : Edge :=
  match (let? c := cfg in set_local (policy e) c) with
  | Ok pol => mkEdge pol (reported e) (cursor e) (quota_state e) (disk e)
  | Err _ => e
  end.

Definition poll_quota (x : Exchange (bool * option Z)) (e : Edge) : Edge :=
  mkEdge (policy e) (reported e) (cursor e) (quota_poll x (quota_state e)) (disk e).

(** The tasks of a managed edge, in any order. *)
Inductive Event : Type :=
| EPoll (x : Exchange (bytes * bytes)) (now : Z) (written : bool)
| EReload (cfg : result C)
| EQuota (x : Exchange (bool * option Z)).

Definition edge_step (e : Edge) (ev : Event) : Edge :=
  match ev with
  | EPoll x now written => poll x now written e
  | EReload cfg => reload_file cfg e
  | EQuota x => poll_quota x e
  end.

(** What a usage report carries beside the usage. *)
Record Heartbeat : Type := mkHeartbeat {
  hb_edge_id : bytes; hb_policy_etag : option bytes; hb_uptime_secs : Z; hb_cert_not_after : option Z;
  hb_cert_source : option bytes; hb_cert_domains : list bytes
}.

(** [report_usage]: the served certificate's expiry, source and label, and the ACME domains. *)
Definition heartbeat (client : CpClient) (e : Edge) (uptime : Z) (tls : option (Z * CertSource * bytes * list bytes))
    : Heartbeat :=
  mkHeartbeat (edge_id client) (reported e) uptime (match tls with Some (na, _, _, _) => Some na | None => None end)
    (match tls with Some (_, _, label, _) => Some label | None => None end)
    (match tls with Some (_, Acme, _, domains) => domains | _ => [] end).
End Policy.
Arguments Policy : clear implicits.
Arguments Edge : clear implicits.
Arguments Exchange : clear implicits.
Arguments Event : clear implicits.
Arguments Unreachable {A}.
Arguments Answer {A} _ _.
Arguments EPoll {C} _ _ _.
Arguments EReload {C} _.
Arguments EQuota {C} _.
