(* ===== verification/ControlPlaneLaws.v ===== *)
(** * ControlPlaneLaws: a managed edge runs, and reports, the policy it was given

    Over any interleaving of pulls, file edits and quota polls the runtime is the one built from the two
    layers, and the ETag reported is that of the pushed layer; each event that builds takes
    effect and no other does anything; a restart resumes the policy that was last kept, if any. *)

From S2P Require Import Prelude Text Float Http CertStore Outbound Boot Metrics ControlPlane.

Section Edge.
Context {C R W : Type} `{BuilderLaws C R W}.
Variable to_json : CacheFile -> bytes.
Variable from_json : bytes -> option CacheFile.

Abbreviation step := (edge_step (C := C) (R := R) (W := W) to_json).

(** The runtime is built from the layers. *)
Definition current (pol : Policy C R W) : Prop :=
  exists cfg, effective (local pol) (pushed pol) = Ok cfg /\ built_from cfg (runtime pol).

Lemma rebuild_built pol l p r w : rebuild (W := W) pol l p = Ok (r, w) ->
  exists cfg, effective l p = Ok cfg /\ built_from cfg r.
Proof.
  unfold rebuild. intros Hr. run_inv Hr. exists v. split; [done|]. by eapply build_over_built.
Qed.

Lemma install_spec pol p pol' : install (W := W) pol p = Ok pol' ->
  current pol' /\ pushed pol' = Some p /\ local pol' = local pol /\ cache pol' = cache pol /\ pending pol' = false.
Proof.
  unfold install. intros Hi. run_inv Hi. destruct v as [r w]. subst pol'. cbn.
  split; [|done]. by apply rebuild_built in Hv.
Qed.

(** What holds of an edge between any two events. *)
Record edge_ok (e : Edge C R W) : Prop := {
  eo_current : current (policy e);
  eo_reported : reported e = etag <$> pushed (policy e);
  eo_cursor : cursor e = etag <$> pushed (policy e);
  eo_pending : pending (policy e) = true -> pushed (policy e) = None
}.

Lemma poll_ok x now written e : edge_ok e -> edge_ok (poll to_json x now written e).
Proof.
  intros He. unfold poll. destruct (pull_policy x) as [[|b new]|]; try done.
  unfold apply_pushed. destruct (install (policy e) (mkPushed new b)) as [pol|] eqn:Hi; cbn; [|done].
  apply install_spec in Hi as (Hc & Hp & _ & _ & Hpe). split; cbn; rewrite ?Hp, ?Hpe; done.
Qed.

Lemma reload_file_ok cfg e : edge_ok e -> edge_ok (reload_file cfg e).
Proof.
  intros [Hc Hr Hk Hp]. unfold reload_file. destruct cfg as [c|]; cbn; [|done].
  destruct (set_local (policy e) c) as [pol|] eqn:Hs; [|done].
  unfold set_local in Hs. run_inv Hs. destruct v as [r w]. subst pol. split; cbn; try done.
  by apply rebuild_built in Hv.
Qed.

Lemma restore_cached_spec pol d found pol' : restore_cached (W := W) from_json pol d = (found, pol') ->
  match found with
  | None => pol' = pol
  | Some p => install pol p = Ok pol'
              /\ exists c t, cache pol = Some c /\ load from_json c d = Ok (Some (p, t))
  end.
Proof.
  unfold restore_cached. destruct (cache pol) as [c|]; [|by intros [= <- <-]].
  destruct (load from_json c d) as [[[p t]|]|] eqn:Hl; try by intros [= <- <-].
  destruct (install pol p) eqn:Hi; intros [= <- <-]; [|done]. split; [done|]. by exists c, t.
Qed.

Lemma boot_ok l rt w d e : built_from l rt -> boot (W := W) from_json l rt w d = Ok e -> edge_ok e.
Proof.
  unfold boot. intros Hb Hbo. run_inv Hbo. unfold policy_new in Hv. run_inv Hv. subst v.
  set (pol := mkPolicy l None rt w _ _) in *.
  destruct (restore_cached from_json pol d) as [found pol'] eqn:Hr. run_inv Hbo. subst e.
  assert (Hun : cp_enabled (cp_of l) = false -> found = None).
  { intros Hoff. pose proof (restore_cached_spec _ _ _ _ Hr) as Hs. destruct found; [|done].
    destruct Hs as (_ & c & t & Hc & _). cbn in Hc. by rewrite Hoff in Hc. }
  pose proof (restore_cached_spec _ _ _ _ Hr) as Hs. destruct found as [p|].
  - destruct Hs as [Hi _]. apply install_spec in Hi as (Hc & Hp & _ & _ & Hpe).
    split; cbn; rewrite ?Hp, ?Hpe; try done. destruct (cp_enabled (cp_of l)); [done|]. discriminate (Hun eq_refl).
  - subst pol'. split; cbn; [|by destruct (cp_enabled (cp_of l))|done|done]. by exists l.
Qed.

Lemma boot_local l rt w d e : boot (W := W) from_json l rt w d = Ok e -> local (policy e) = l.
Proof.
  unfold boot. intros Hbo. run_inv Hbo. unfold policy_new in Hv. run_inv Hv. subst v.
  set (pol := mkPolicy l None rt w _ _) in *.
  destruct (restore_cached from_json pol d) as [found pol'] eqn:Hr. run_inv Hbo. subst e. cbn.
  pose proof (restore_cached_spec _ _ _ _ Hr) as Hs. destruct found as [p|]; [|by subst pol'].
  destruct Hs as [Hi _]. by apply install_spec in Hi as (_ & _ & -> & _).
Qed.

Lemma steps_ok evs e : edge_ok e -> edge_ok (fold_left step evs e).
Proof.
  revert e. induction evs as [|ev evs IH]; intros e He; [done|].
  apply IH. destruct ev as [x now written|cfg|x]; cbn; [by apply poll_ok | by apply reload_file_ok|].
  by destruct He.
Qed.

(** What one event does to an edge.  A pulled policy, or an edited file, takes effect exactly when the two
    layers merge and build with it; when they do not, when there is no answer or when the file does not
    load, the edge is left whole: policy, runtime, report, cursor and disk. *)
Definition event_spec (e : Edge C R W) (ev : Event C) : Prop :=
  let e' := step e ev in
  match ev with
  | EPoll x now written =>
      match pull_policy x with
      | Ok (PulledPolicy b new) =>
          match (let? cfg := merge (local (policy e)) b in build_over cfg (runtime (policy e)) (shared (policy e))) with
          | Ok r => local (policy e') = local (policy e) /\ pushed (policy e') = Some (mkPushed new b)
                    /\ runtime (policy e') = r.1 /\ reported e' = Some new /\ pending (policy e') = false
          | Err _ => e' = e
          end
      | _ => e' = e
      end
  | EReload (Ok c) =>
      match (let? cfg := effective c (pushed (policy e)) in build_over cfg (runtime (policy e)) (shared (policy e))) with
      | Ok r => local (policy e') = c /\ pushed (policy e') = pushed (policy e) /\ runtime (policy e') = r.1
                /\ reported e' = reported e /\ pending (policy e') = pending (policy e) /\ disk e' = disk e
      | Err _ => e' = e
      end
  | EReload (Err _) => e' = e
  | EQuota _ => policy e' = policy e /\ reported e' = reported e /\ cursor e' = cursor e /\ disk e' = disk e
  end.

Lemma event_exact e ev : event_spec e ev.
Proof.
  unfold event_spec. destruct ev as [x now written|[c|]|x]; cbn; [|unfold reload_file; cbn..|done]; [|..|done].
  - unfold poll. destruct (pull_policy x) as [[|b new]|]; [done| |done]. unfold apply_pushed, install, rebuild.
    cbn [effective body]. destruct (merge _ b) as [cfg|]; cbn; [|done]. by destruct (build_over _ _ _) as [[r w]|].
  - unfold set_local, rebuild. destruct (effective c _) as [cfg|]; cbn; [|done].
    by destruct (build_over _ _ _) as [[r w]|].
Qed.

(** A pushed policy that does not merge or build over the file. *)
Definition unbuildable (b : bytes) (e : Edge C R W) : bool :=
  match (let? cfg := merge (local (policy e)) b in build_over cfg (runtime (policy e)) (shared (policy e))) with
  | Ok _ => false
  | Err _ => true
  end.

Lemma event_rejected x now written b new e : event_spec e (EPoll x now written) ->
  pull_policy x = Ok (PulledPolicy b new) -> unbuildable b e = true -> step e (EPoll x now written) = e.
Proof.
  unfold event_spec, unbuildable. intros Hev Hx Hb. rewrite Hx in Hev. by destruct (let? cfg := merge _ b in _).
Qed.

(** C10.  From boot on, whatever the control plane answers, whatever becomes of the file and in whatever order: the
    runtime is the one built from the file under the pushed policy, the reported ETag is that policy's and
    no other's, and requests are held for want of a policy only while none has been applied.  Each pulled
    policy and each edit that builds takes effect; one that does not build changes nothing of the edge, and
    neither does a pull without an answer or a file that does not load. *)
Theorem edge_runs_what_it_reports l rt w d e evs : built_from l rt -> boot (W := W) from_json l rt w d = Ok e ->
  let e1 := fold_left step evs e in
  edge_ok e1 /\ forall ev, event_spec e1 ev.
Proof.
  intros Hb Hbo e1. split; [|apply event_exact]. apply steps_ok. by eapply boot_ok.
Qed.

(** *** Restarting *)

(** [serde_json] reads back what it wrote. *)
Definition json_round_trips : Prop := forall f, from_json (to_json f) = Some f.

Lemma load_saved c p now d : json_round_trips -> load from_json c (save to_json c p now true d) = Ok (Some (p, now)).
Proof.
  intros Hj. unfold load, save. rewrite lookup_insert_eq. cbn. rewrite Hj. cbn.
  rewrite !beq_refl. by destruct p.
Qed.

(** A cache is read only in this format, and only for this control plane and tenant. *)
Lemma load_own c d p t : load from_json c d = Ok (Some (p, t)) ->
  exists raw f, d !! path c = Some (Some raw) /\ from_json raw = Some f /\ cf_version f = CACHE_VERSION
    /\ cf_control_plane f = control_plane c /\ cf_tenant_id f = tenant_id c /\ p = mkPushed (cf_etag f) (cf_policy f).
Proof.
  unfold load. destruct (d !! path c) as [file|]; [|done]. intros Hl. run_inv Hl.
  destruct file as [raw|]; [|done]. injection Hv as <-. cbn in Hv0.
  destruct (from_json raw) as [f|] eqn:Hf; [|done]. injection Hv0 as <-.
  apply Z.eqb_eq in He. apply andb_true_iff in He0 as [Hcp%beq_true Hte%beq_true].
  simplify_eq. exists raw, f. done.
Qed.

Definition cache_of (cp : ControlPlaneCfg) : Cache :=
  mkCache (cp_cache_path cp) (trim_end_matches 47 (cp_url cp)) (cp_tenant_id cp).

(** The copy on disk is the policy in force. *)
Definition kept (cp : ControlPlaneCfg) (e : Edge C R W) : Prop :=
  cache (policy e) = Some (cache_of cp)
  /\ forall p, pushed (policy e) = Some p -> exists t, load from_json (cache_of cp) (disk e) = Ok (Some (p, t)).

Definition writes (ev : Event C) : Prop := match ev with EPoll _ _ written => written = true | _ => True end.

Definition keeps_copy (cp : ControlPlaneCfg) : Prop := cp_enabled cp = true /\ cp_cache_path cp <> [].

Lemma policy_new_cache l rt w pol : keeps_copy (cp_of l) -> policy_new (W := W) l rt w = Ok pol ->
  cache pol = Some (cache_of (cp_of l)) /\ pushed pol = None /\ local pol = l /\ runtime pol = rt /\ shared pol = w.
Proof.
  intros [Hen Hpa] Hn. unfold policy_new in Hn. run_inv Hn. subst pol. cbn.
  rewrite Hen. unfold is_empty, beq. by rewrite bool_decide_eq_false_2.
Qed.

Lemma boot_kept l rt w d e : keeps_copy (cp_of l) -> boot (W := W) from_json l rt w d = Ok e -> kept (cp_of l) e.
Proof.
  intros Hk Hbo. unfold boot in Hbo. run_inv Hbo. destruct (policy_new_cache _ _ _ _ Hk Hv) as (Hc & Hp & _).
  destruct (restore_cached from_json v d) as [found pol'] eqn:Hr. run_inv Hbo. subst e.
  pose proof (restore_cached_spec _ _ _ _ Hr) as Hs. unfold kept. cbn. destruct found as [p|].
  - destruct Hs as [Hi (c & t & Hc' & Hl)]. apply install_spec in Hi as (_ & Hp' & _ & Hca & _).
    rewrite Hca, Hp', Hc. split; [done|]. intros q [= <-]. exists t. congruence.
  - subst pol'. rewrite Hp. split; [done|]. discriminate.
Qed.

Lemma step_kept cp e ev : json_round_trips -> writes ev -> kept cp e -> kept cp (step e ev).
Proof.
  intros Hj Hw [Hc Hk]. destruct ev as [x now written|cfg|x]; cbn in *; [| |done].
  - unfold poll. destruct (pull_policy x) as [[|b new]|]; try done.
    unfold apply_pushed. destruct (install (policy e) (mkPushed new b)) as [pol|] eqn:Hi; cbn; [|done].
    apply install_spec in Hi as (_ & Hp & _ & Hca & _). unfold kept. cbn. rewrite Hca, Hc, Hp. split; [done|].
    intros q [= <-]. exists now. subst written. by apply load_saved.
  - unfold reload_file. destruct cfg as [c|]; cbn; [|done].
    destruct (set_local (policy e) c) as [pol|] eqn:Hs; [|done].
    unfold set_local in Hs. run_inv Hs. subst pol. done.
Qed.

Lemma restart_resumes l rt w d e evs l2 rt2 w2 p r : json_round_trips -> keeps_copy (cp_of l) ->
  boot (W := W) from_json l rt w d = Ok e -> Forall writes evs ->
  let e1 := fold_left step evs e in
  pushed (policy e1) = Some p -> cp_of l2 = cp_of l ->
  (let? cfg := effective l2 (Some p) in build_over cfg rt2 w2) = Ok r ->
  exists e2, boot (W := W) from_json l2 rt2 w2 (disk e1) = Ok e2 /\ pushed (policy e2) = Some p
    /\ local (policy e2) = l2 /\ runtime (policy e2) = r.1 /\ reported e2 = Some (etag p)
    /\ pending (policy e2) = false.
Proof.
  intros Hj Hkc Hbo Hws e1 Hp Hcp Hr.
  assert (Hk : kept (cp_of l) e1).
  { subst e1. clear Hp. pose proof (boot_kept _ _ _ _ _ Hkc Hbo) as Hk. clear Hbo. revert e Hk.
    induction Hws as [|ev evs Hw _ IH]; intros e Hk; [done|]. cbn. apply IH. by apply step_kept. }
  destruct Hk as [_ Hk]. destruct (Hk p Hp) as [t Hl].
  unfold boot in Hbo. run_inv Hbo. clear Hbo.
  unfold policy_new in Hv. run_inv Hv. clear Hv.
  assert (Hn : exists pol, policy_new (W := W) l2 rt2 w2 = Ok pol).
  { unfold policy_new. rewrite Hcp, Hv0. cbn. eauto. }
  destruct Hn as [pol Hn]. destruct (policy_new_cache l2 rt2 w2 pol) as (Hc2 & _ & Hl2 & Hrt & Hsh);
    [by rewrite Hcp | done|]. rewrite Hcp in Hc2.
  destruct r as [r1 w1].
  assert (Hi : install pol p = Ok (mkPolicy l2 (Some p) r1 w1 (cache pol) false)).
  { unfold install, rebuild. by rewrite Hl2, Hrt, Hsh, Hr. }
  unfold boot. rewrite Hn. cbn. unfold restore_cached. rewrite Hc2, Hl, Hi. cbn.
  eexists. split; [reflexivity|]. cbn. rewrite Hcp. destruct Hkc as [-> _]. done.
Qed.

(** An edge that keeps no copy starts as a new one, whatever is on the disk. *)
Lemma restart_without_copy l rt w d e l2 rt2 w2 d2 : boot (W := W) from_json l rt w d = Ok e -> cp_of l2 = cp_of l ->
  cp_enabled (cp_of l) = true -> cp_cache_path (cp_of l) = [] ->
  exists e2, boot (W := W) from_json l2 rt2 w2 d2 = Ok e2 /\ pushed (policy e2) = None
    /\ local (policy e2) = l2 /\ runtime (policy e2) = rt2 /\ reported e2 = None
    /\ pending (policy e2) = beq (cp_boot_without_policy (cp_of l)) (lit "refuse").
Proof.
  intros Hbo Hcp Hen Hpath. unfold boot in Hbo. run_inv Hbo. unfold policy_new in Hv. run_inv Hv.
  unfold boot, policy_new. rewrite Hcp, Hv0, Hen, Hpath. cbn. eexists. split; [reflexivity|]. cbn. split_and!; try done.
  change (v0 = beq (cp_boot_without_policy (cp_of l)) (lit "refuse")).
  destruct (beq (cp_boot_without_policy (cp_of l)) (lit "local")) eqn:El.
  - injection Hv0 as <-. apply beq_true in El. by rewrite El.
  - destruct (beq (cp_boot_without_policy (cp_of l)) (lit "refuse")); congruence.
Qed.

(** C24.  A managed edge is stopped at any moment, and started again while its control plane is out of reach, with
    a file that has the same [control_plane] section.  When that section names a [cache_path] and the copies
    of the policies it applied were written, the edge resumes the policy that was in force, if it builds
    over the file now found: the same pushed layer over that file, reported under its own ETag, with no
    request held and none served under the file alone.  With no [cache_path], the default, nothing is
    resumed: the edge has no pushed policy, and by [boot_without_policy] it holds every request or serves
    the file alone. *)
Theorem restart_resumes_policy l rt w d e evs l2 rt2 w2 : json_round_trips ->
  boot (W := W) from_json l rt w d = Ok e -> cp_of l2 = cp_of l -> cp_enabled (cp_of l) = true ->
  let e1 := fold_left step evs e in
  (cp_cache_path (cp_of l) <> [] -> Forall writes evs ->
   forall p r, pushed (policy e1) = Some p -> (let? cfg := effective l2 (Some p) in build_over cfg rt2 w2) = Ok r ->
   exists e2, boot (W := W) from_json l2 rt2 w2 (disk e1) = Ok e2 /\ pushed (policy e2) = Some p
     /\ local (policy e2) = l2 /\ runtime (policy e2) = r.1 /\ reported e2 = Some (etag p)
     /\ pending (policy e2) = false)
  /\ (cp_cache_path (cp_of l) = [] ->
      exists e2, boot (W := W) from_json l2 rt2 w2 (disk e1) = Ok e2 /\ pushed (policy e2) = None
        /\ local (policy e2) = l2 /\ runtime (policy e2) = rt2 /\ reported e2 = None
        /\ pending (policy e2) = beq (cp_boot_without_policy (cp_of l)) (lit "refuse")).
Proof.
  intros Hj Hbo Hcp Hen e1. split.
  - intros Hpath Hws p r Hp Hr. by eapply restart_resumes.
  - intros Hpath. by eapply restart_without_copy.
Qed.
End Edge.
