(* ===== verification/Reporting.v ===== *)
(** * Reporting: how usage reaches the control plane ([report_loop] of [src/src/cp.rs])

    Requests add to the accumulators while the reporter drains them, one atomic swap after another, sends
    the report, and on a failure adds each figure back; a last report is sent when shutdown is signalled,
    while the listeners still drain, and the process ends when they have ([main.rs]), wherever the reporter
    is.  The steps are interleaved in any order ([step]).  Beside the program's state, [Reporting] keeps
    what was recorded, what the control plane acknowledged, what it took of the reports that failed at the
    edge (their answer was lost), and what will never be reported. *)

From S2P Require Import Prelude Text Units Float Metrics.

#[local] Arguments usage_is_empty : simpl never.

Inductive Pc : Type :=
| Idle                                                  (** in [sleep_or_shutdown] *)
| Draining (final : bool) (todo : list Field) (got : Usage)
| Sending (final : bool) (got : Usage)
| Restoring (todo : list Field) (got : Usage)
| Stopped                                               (** [report_loop] has returned; requests may still run *)
| Exited.                                               (** the process has ended *)

Record Reporting : Type := mkReporting {
  pending : Usage; pc : Pc; recorded : Usage; acked : Usage; unheard : Usage; lost : Usage
}.

(** Figures put side by side, as numbers. *)
Definition plus (u v : Usage) : Usage := fun f => u f + v f.
Definition only (f : Field) (n : Z) : Usage := fun g => if bool_decide (g = f) then n else 0.
Definition set_figure (f : Field) (n : Z) (u : Usage) : Usage := fun g => if bool_decide (g = f) then n else u g.

(** What the reporter holds. *)
Definition held (p : Pc) : Usage :=
  match p with
  | Idle | Stopped | Exited => no_usage
  | Draining _ _ got | Sending _ got => got
  | Restoring todo got => fun f => if bool_decide (f ∈ todo) then got f else 0
  end.

(** What of a report that failed at the edge the control plane had [taken]. *)
Definition if_taken (taken : bool) (got : Usage) : Usage := if taken then got else no_usage.

Inductive step : Reporting -> Reporting -> Prop :=
| step_record f n a p r k h l : 0 <= n -> p <> Exited ->
    step (mkReporting a p r k h l) (mkReporting (add_field f n a) p (plus r (only f n)) k h l)
| step_wake final a r k h l :                           (** the interval is over, or shutdown is signalled *)
    step (mkReporting a Idle r k h l) (mkReporting a (Draining final FIELDS no_usage) r k h l)
| step_swap final f todo got a r k h l :
    step (mkReporting a (Draining final (f :: todo) got) r k h l)
         (mkReporting (clear_field f a) (Draining final todo (set_figure f (a f) got)) r k h l)
| step_send final got a r k h l :                       (** an empty last report is not sent *)
    step (mkReporting a (Draining final [] got) r k h l)
         (mkReporting a (if final && usage_is_empty got then Stopped else Sending final got) r k h l)
| step_accepted final got a r k h l :
    step (mkReporting a (Sending final got) r k h l)
         (mkReporting a (if final then Stopped else Idle) r (plus k got) h l)
| step_failed taken got a r k h l :
    step (mkReporting a (Sending false got) r k h l)
         (mkReporting a (if usage_is_empty got then Idle else Restoring FIELDS got) r k (plus h (if_taken taken got)) l)
| step_add_back f todo got a r k h l :
    step (mkReporting a (Restoring (f :: todo) got) r k h l)
         (mkReporting (add_field f (got f) a) (Restoring todo got) r k h l)
| step_restored got a r k h l : step (mkReporting a (Restoring [] got) r k h l) (mkReporting a Idle r k h l)
| step_last_failed taken got a r k h l :
    step (mkReporting a (Sending true got) r k h l)
         (mkReporting a Stopped r k (plus h (if_taken taken got)) (plus l got))
| step_exit a p r k h l : p <> Exited ->                (** [main] returns: the listeners have drained *)
    step (mkReporting a p r k h l) (mkReporting no_usage Exited r k h (plus l (plus a (held p)))).

Definition start : Reporting := mkReporting no_usage Idle no_usage no_usage no_usage no_usage.

(** ** Every figure is somewhere *)

Definition nonneg (u : Usage) : Prop := forall f, 0 <= u f.

Definition pc_ok (p : Pc) : Prop :=
  match p with
  | Draining _ todo got => NoDup todo /\ nonneg got /\ (forall f, f ∈ todo -> got f = 0)
  | Sending _ got => nonneg got
  | Restoring todo got => NoDup todo /\ nonneg got
  | Idle | Stopped | Exited => True
  end.

Record accounted (s : Reporting) : Prop := {
  ac_pc : pc_ok (pc s);
  ac_nonneg : nonneg (pending s) /\ nonneg (acked s) /\ nonneg (unheard s) /\ nonneg (lost s);
  ac_sum : forall f, recorded s f < 2 ^ 64 ->
             recorded s f = pending s f + held (pc s) f + acked s f + lost s f;
  ac_lost : pc s = Stopped \/ pc s = Exited \/ lost s = no_usage;
  ac_exit : pc s = Exited -> pending s = no_usage
}.

Lemma FIELDS_NoDup : NoDup FIELDS.
Proof. by apply (bool_decide_unpack _). Qed.

Lemma elem_of_FIELDS f : f ∈ FIELDS.
Proof. destruct f; by apply (bool_decide_unpack _). Qed.

Lemma usage_empty_figure u f : usage_is_empty u = true -> u f = 0.
Proof.
  unfold usage_is_empty. rewrite forallb_forall. intros H. apply Z.eqb_eq, H, list_elem_of_In, elem_of_FIELDS.
Qed.

Lemma fetch_add_nonneg c n : 0 <= fetch_add c n.
Proof. unfold fetch_add, wrap. apply Z.mod_pos_bound. lia. Qed.

Lemma add_field_nonneg f n u : nonneg u -> nonneg (add_field f n u).
Proof. intros Hu g. unfold add_field. case_bool_decide; [apply fetch_add_nonneg | apply Hu]. Qed.

Lemma clear_field_nonneg f u : nonneg u -> nonneg (clear_field f u).
Proof. intros Hu g. unfold clear_field. case_bool_decide; [done | apply Hu]. Qed.

Lemma set_figure_nonneg f n u : 0 <= n -> nonneg u -> nonneg (set_figure f n u).
Proof. intros Hn Hu g. unfold set_figure. case_bool_decide; [done | apply Hu]. Qed.

Lemma plus_nonneg u v : nonneg u -> nonneg v -> nonneg (plus u v).
Proof. intros Hu Hv f. unfold plus. specialize (Hu f). specialize (Hv f). lia. Qed.

#[local] Hint Resolve add_field_nonneg clear_field_nonneg set_figure_nonneg plus_nonneg : core.

Lemma held_nonneg p : pc_ok p -> nonneg (held p).
Proof.
  destruct p as [|final todo got|final got|todo got| |]; cbn; intros H f; try done; try by apply H.
  case_bool_decide; [by apply H | done].
Qed.

Lemma fetch_add_small a n : 0 <= a + n < 2 ^ 64 -> fetch_add a n = a + n.
Proof. intros H. unfold fetch_add, wrap. by apply Z.mod_small. Qed.

Lemma if_taken_nonneg taken u : nonneg u -> nonneg (if_taken taken u).
Proof. intros H. by destruct taken. Qed.

#[local] Hint Resolve if_taken_nonneg : core.

(** Nothing is lost while the reporter runs. *)
Lemma lost_running p l : p <> Stopped -> p <> Exited -> (p = Stopped \/ p = Exited \/ l = no_usage) -> l = no_usage.
Proof. tauto. Qed.

Lemma accounted_step s s' : step s s' -> accounted s -> accounted s'.
Proof.
  intros Hs [Hp (Ha & Hk & Hh & Hl) Hsum Hlost Hex].
  assert (Hrun : pc s <> Stopped -> pc s <> Exited -> lost s = no_usage) by (intros; by eapply lost_running).
  destruct Hs as [f n a p r k h l Hn Hne|final a r k h l|final f todo got a r k h l|final got a r k h l|final got a r k h l
                 |taken got a r k h l|f todo got a r k h l|got a r k h l|taken got a r k h l|a p r k h l Hne]; cbn in *.
  - split; cbn; [done | split_and!; auto | | done | done]. intros g. specialize (Hsum g). pose proof (held_nonneg p Hp g).
    specialize (Ha g). specialize (Hk g). specialize (Hl g).
    unfold plus, only, add_field. case_bool_decide; [|rewrite Z.add_0_r; exact Hsum].
    intros Hb. rewrite fetch_add_small; lia.
  - split; cbn; [|done|done|right; right; by apply Hrun|done]. split; [apply FIELDS_NoDup|]. done.
  - destruct Hp as (Hd & Hg & Hz). apply NoDup_cons in Hd as [Hf Hd].
    split; cbn; [|split_and!; auto| |right; right; by apply Hrun|done].
    + split; [done|]. split; [by auto|]. intros g Hgt. unfold set_figure.
      case_bool_decide as Heq; [by subst|]. apply Hz. by right.
    + intros g Hb. specialize (Hsum g Hb). unfold clear_field, set_figure. case_bool_decide as Heq; [|done].
      subst g. rewrite (Hz f) in Hsum by left. lia.
  - destruct Hp as (_ & Hg & _). split; cbn; [|done| |right; right; by apply Hrun|by destruct (final && usage_is_empty got)].
    + destruct (final && usage_is_empty got); [exact I | exact Hg].
    + intros g Hb. specialize (Hsum g Hb). destruct (final && usage_is_empty got) eqn:He; [|done].
      apply andb_true_iff in He as [_ He]. cbn. rewrite (usage_empty_figure got g He) in Hsum. done.
  - split; cbn; [by destruct final | split_and!; auto | | right; right; by apply Hrun | by destruct final].
    intros g Hb. specialize (Hsum g Hb). unfold plus. destruct final; cbn; unfold no_usage; lia.
  - split; cbn; [|split_and!; auto| |right; right; by apply Hrun|by destruct (usage_is_empty got)].
    + destruct (usage_is_empty got); cbn; [done|]. split; [apply FIELDS_NoDup | done].
    + intros g Hb. specialize (Hsum g Hb). destruct (usage_is_empty got) eqn:He; cbn.
      * by rewrite (usage_empty_figure got g He) in Hsum.
      * by rewrite bool_decide_eq_true_2 by apply elem_of_FIELDS.
  - destruct Hp as [Hd Hg]. apply NoDup_cons in Hd as [Hf Hd].
    split; cbn; [done|split_and!; auto| |right; right; by apply Hrun|done].
    intros g Hb. specialize (Hsum g Hb). specialize (Ha g). specialize (Hk g). specialize (Hl g). specialize (Hg g).
    unfold add_field. destruct (decide (g = f)) as [->|Hne].
    + rewrite (bool_decide_eq_true_2 (f = f)) by done. rewrite bool_decide_eq_true_2 in Hsum by left.
      rewrite bool_decide_eq_false_2 by done. rewrite fetch_add_small; lia.
    + rewrite (bool_decide_eq_false_2 (g = f)) by done. rewrite Hsum. do 3 f_equal.
      erewrite bool_decide_ext; [reflexivity|]. rewrite elem_of_cons. intuition congruence.
  - split; cbn; [done|done|done|right; right; by apply Hrun|done].
  - split; cbn; [done|split_and!; auto| |by left|done]. intros g Hb. specialize (Hsum g Hb). unfold plus, no_usage in *. lia.
  - pose proof (held_nonneg p Hp). split; cbn; [done|split_and!; auto| |by right; left|done].
    + by intros g.
    + intros g Hb. specialize (Hsum g Hb). unfold plus, no_usage in *. lia.
Qed.

Lemma accounted_run s : rtc step start s -> accounted s.
Proof.
  intros Hr. assert (H0 : accounted start) by by split; cbn; try done; auto.
  induction Hr as [|x y z Hxy _ IH]; [done|]. apply IH. by eapply accounted_step.
Qed.

(** C11.  Whatever requests do while a report is drained, sent or put back, and however many reports fail, each
    figure recorded is at every moment in one place only: still to be reported, in the reporter's hands,
    acknowledged, or lost.  While the reporter runs nothing is lost; once it has returned, only what its
    last report held, when that failed, is.  When the process ends, what the control plane has not
    acknowledged is lost: the figures still in the reporter's hands and those recorded after its last
    drain, for it drains at the signal and the listeners after it.  The control plane has counted what it
    acknowledged, and again the reports it took whose answer did not reach the edge. *)
Theorem usage_counted_once s f : rtc step start s -> recorded s f < 2 ^ 64 ->
  recorded s f = pending s f + held (pc s) f + acked s f + lost s f
  /\ (pc s <> Stopped -> pc s <> Exited -> lost s f = 0)
  /\ (pc s = Exited -> recorded s f = acked s f + lost s f)
  /\ (forall s', step s s' -> pc s <> Exited -> pc s' = Exited -> lost s' f = lost s f + pending s f + held (pc s) f)
  /\ (forall s', step s s' -> pc s' <> Exited ->
        lost s' f = lost s f \/ exists got, pc s = Sending true got /\ lost s' f = lost s f + got f)
  /\ (forall s', step s s' -> acked s' f + unheard s' f = acked s f + unheard s f
        \/ exists final got, pc s = Sending final got /\ acked s' f + unheard s' f = acked s f + unheard s f + got f).
Proof.
  intros Hr Hb. destruct (accounted_run s Hr) as [_ _ Hsum Hlost Hex]. split; [by apply Hsum|]. split_and!.
  - intros H1 H2. by rewrite (lost_running _ _ H1 H2 Hlost).
  - intros He. rewrite (Hsum f Hb), He, (Hex He). cbn. unfold no_usage. lia.
  - intros s' Hs Hp He. destruct Hs; cbn in *; unfold plus; repeat (case_match; try discriminate); try lia; congruence.
  - intros s' Hs He. destruct Hs; cbn in *; try (by left). right. eexists. split; [done|]. done.
  - intros s' Hs. destruct Hs as [| | | |final got a r k h l|taken got a r k h l| | |taken got a r k h l|];
      cbn in *; try (by left); unfold plus.
    + right. exists final, got. split; [done|]. lia.
    + destruct taken; cbn; [right; exists false, got; split; [done|]; lia|]. left. unfold no_usage. lia.
    + destruct taken; cbn; [right; exists true, got; split; [done|]; lia|]. left. unfold no_usage. lia.
Qed.

(** A drain without requests in between takes everything: [drain_usage]. *)
Lemma drain_run final todo got a r k h l :
  rtc step (mkReporting a (Draining final todo got) r k h l)
    (mkReporting (fold_left (fun u f => clear_field f u) todo a)
       (Draining final [] (fold_left (fun '(g, u) f => (set_figure f (u f) g, clear_field f u)) todo (got, a)).1) r k h l).
Proof.
  revert got a. induction todo as [|f todo IH]; intros got a; [reflexivity|]. eapply rtc_l; [apply step_swap | apply IH].
Qed.

Lemma restore_run todo got a r k h l :
  rtc step (mkReporting a (Restoring todo got) r k h l)
    (mkReporting (fold_left (fun u f => add_field f (got f) u) todo a) (Restoring [] got) r k h l).
Proof.
  revert a. induction todo as [|f todo IH]; intros a; [reflexivity|]. eapply rtc_l; [apply step_add_back | apply IH].
Qed.

(** Five requests; the report is taken but its answer is lost, a sixth request comes before they are put
    back, and the next report succeeds.  Shutdown is signalled; a request that was under way ends after the
    last drain, and the process exits: it is in no report. *)
Lemma usage_counted_once_witness : exists s, rtc step start s
  /\ (recorded s FRequests, acked s FRequests, unheard s FRequests, lost s FRequests) = (7, 6, 5, 1)
  /\ recorded s FRequests = acked s FRequests + lost s FRequests.
Proof.
  assert (Hrun : { s : Reporting | rtc step start s /\ pc s = Exited
    /\ (recorded s FRequests, acked s FRequests, unheard s FRequests, lost s FRequests) = (7, 6, 5, 1) }).
  { eexists. split.
    - eapply rtc_l; [apply (step_record FRequests 5); [lia|done]|]. eapply rtc_l; [apply (step_wake false)|].
      etrans; [apply drain_run|]. eapply rtc_l; [apply step_send|]. cbn [andb]. eapply rtc_l; [apply (step_failed true)|].
      match goal with |- context [if usage_is_empty ?u then _ else _] =>
        replace (usage_is_empty u) with false by (vm_compute; reflexivity) end.
      eapply rtc_l; [apply (step_record FRequests 1); [lia|done]|].
      etrans; [apply restore_run|]. eapply rtc_l; [apply step_restored|]. eapply rtc_l; [apply (step_wake false)|].
      etrans; [apply drain_run|]. eapply rtc_l; [apply step_send|]. cbn [andb].
      eapply rtc_l; [apply step_accepted|].
      eapply rtc_l; [apply (step_wake true)|]. etrans; [apply drain_run|]. eapply rtc_l; [apply step_send|].
      match goal with |- context [if true && usage_is_empty ?u then _ else _] =>
        replace (usage_is_empty u) with true by (vm_compute; reflexivity) end. cbn [andb].
      eapply rtc_l; [apply (step_record FRequests 1); [lia|done]|]. eapply rtc_l; [by apply step_exit|]. reflexivity.
    - split; vm_compute; reflexivity. }
  destruct Hrun as (s & Hr & Hpc & Hfig). exists s. split; [exact Hr|]. split; [exact Hfig|].
  apply (usage_counted_once s FRequests Hr); [|exact Hpc]. injection Hfig as -> _ _ _. reflexivity.
Defined.
