(* ===== verification/Reload.v ===== *)
(** * Reload: following the configuration file ([src/src/reload.rs])

    The file watcher's thread turns events into ticks on a channel of eight and never waits; the task takes
    a tick, sleeps while the burst goes on, empties the channel, and only then reads the file and has the
    policy rebuilt.  The two, the edits, and the edge's other tasks are interleaved in any order.  Watching
    starts after the file was loaded ([main]), so the file may already be another than the one booted; and
    an edit may raise no event (a bind mount of one file, a [..data] link that is swapped). *)

From S2P Require Import Prelude Text Float Http CertStore Outbound Boot Metrics ControlPlane ControlPlaneLaws.

Inductive EventKind : Type := KAny | KAccess | KCreate | KModify | KRemove | KOther.

(** An event of [notify]: its kind, and the file name of each path it names. *)
Record FsEvent : Type := mkFsEvent { kind : EventKind; names : list (option bytes) }.

Definition is_modifying (e : FsEvent) : bool := match kind e with KModify | KCreate => true | _ => false end.

Definition touches (e : FsEvent) (target_name : option bytes) : bool :=
  match target_name with
  | Some name => existsb (fun n => bool_decide (n = Some name)) (names e)
  | None => true
  end.

Definition CAPACITY : nat := 8.

(** [try_send] of a tick. *)
Definition try_send (ticks : nat) : nat := if (ticks <? CAPACITY)%nat then S ticks else ticks.

Section Watch.
Context {C R W F : Type} `{BuilderLaws C R W}.
Variable to_json : CacheFile -> bytes.
Variable from_json : bytes -> option CacheFile.
Variable load_config : F -> result C.                   (** [Config::load] of the file's contents *)
Variable target_name : option bytes.

Definition relevant (e : FsEvent) : bool := is_modifying e && touches e target_name.

(** The watcher's callback. *)
Definition on_event (e : FsEvent) (ticks : nat) : nat := if relevant e then try_send ticks else ticks.

(** [reload]: whether it succeeded, and the edge after it. *)
Definition reload (cfg : result C) (e : Edge C R W) : bool * Edge C R W :=
  (match (let? c := cfg in set_local (policy e) c) with Ok _ => true | Err _ => false end, reload_file cfg e).

Inductive Task : Type := Waiting | Sleeping | Draining | Reading | Rebuilding (cfg : result C).

(** [tried] and [succeeded]: the contents the last reload read, and how it went.  [announced]: since the
    file last changed, an event was raised for it or it was read. *)
Record Watch : Type := mkWatch {
  file : F; queue : list FsEvent; ticks : nat; task : Task; edge : Edge C R W; tried : F; succeeded : bool; announced : bool
}.

(** What the watcher and its task do. *)
Inductive own_step : Watch -> Watch -> Prop :=
| own_deliver f ev q n t e x ok k : own_step (mkWatch f (ev :: q) n t e x ok k) (mkWatch f q (on_event ev n) t e x ok k)
| own_recv f q n e x ok k : own_step (mkWatch f q (S n) Waiting e x ok k) (mkWatch f q n Sleeping e x ok k)
| own_wake f q n e x ok k : own_step (mkWatch f q n Sleeping e x ok k) (mkWatch f q n Draining e x ok k)
| own_drain f q n e x ok k : own_step (mkWatch f q (S n) Draining e x ok k) (mkWatch f q n Draining e x ok k)
| own_drained f q e x ok k : own_step (mkWatch f q 0 Draining e x ok k) (mkWatch f q 0 Reading e x ok k)
| own_read f q n e x ok k : own_step (mkWatch f q n Reading e x ok k) (mkWatch f q n (Rebuilding (load_config f)) e f ok true)
| own_rebuild f q n cfg e x ok k :
    own_step (mkWatch f q n (Rebuilding cfg) e x ok k) (mkWatch f q n Waiting (reload cfg e).2 x (reload cfg e).1 k).

(** What happens to them: the file is edited, which the watcher sees, or does not; other events are raised in
    its directory; the control plane's loops run. *)
Inductive env_step : Watch -> Watch -> Prop :=
| env_edit f f' ev q n t e x ok k : relevant ev = true ->
    env_step (mkWatch f q n t e x ok k) (mkWatch f' (q ++ [ev]) n t e x ok true)
| env_silent f f' q n t e x ok k : env_step (mkWatch f q n t e x ok k) (mkWatch f' q n t e x ok false)
| env_other f ev q n t e x ok k :
    env_step (mkWatch f q n t e x ok k) (mkWatch f (q ++ [ev]) n t e x ok (k || relevant ev))
| env_poll f q n t e x ok k ans now written :
    env_step (mkWatch f q n t e x ok k) (mkWatch f q n t (poll to_json ans now written e) x ok k)
| env_quota f q n t e x ok k ans : env_step (mkWatch f q n t e x ok k) (mkWatch f q n t (poll_quota ans e) x ok k).

Definition step (s s' : Watch) : Prop := own_step s s' \/ env_step s s'.

(** A reload is on its way. *)
Definition coming (s : Watch) : Prop :=
  Exists (fun ev => relevant ev = true) (queue s) \/ (0 < ticks s)%nat
  \/ match task s with Sleeping | Draining | Reading => True | _ => False end.

Record follows (s : Watch) : Prop := {
  fo_file : announced s = true -> tried s = file s \/ coming s;
  fo_rebuilding : forall cfg, task s = Rebuilding cfg -> cfg = load_config (tried s);
  fo_local : match task s with Waiting | Sleeping | Draining | Reading => True | _ => False end ->
             succeeded s = true -> load_config (tried s) = Ok (local (policy (edge s)));
  fo_edge : edge_ok (edge s)
}.

Lemma poll_local x now written (e : Edge C R W) : local (policy (poll to_json x now written e)) = local (policy e).
Proof.
  unfold poll. destruct (pull_policy x) as [[|b new]|]; try done.
  unfold apply_pushed. destruct (install (policy e) (mkPushed new b)) as [pol|] eqn:Hi; cbn; [|done].
  apply install_spec in Hi as (_ & _ & Hl & _). done.
Qed.

Lemma reload_local cfg (e : Edge C R W) : (reload cfg e).1 = true -> cfg = Ok (local (policy (reload cfg e).2)).
Proof.
  unfold reload, reload_file. destruct cfg as [c|]; cbn; [|done].
  destruct (set_local (policy e) c) as [pol|] eqn:Hs; [|done]. intros _.
  unfold set_local in Hs. run_inv Hs. by subst pol.
Qed.

Lemma try_send_pos n : (0 < try_send n)%nat.
Proof. unfold try_send, CAPACITY. destruct (Nat.ltb_spec n 8); lia. Qed.

Lemma follows_own s s' : own_step s s' -> follows s -> follows s'.
Proof.
  intros Hs [Hf Hb Hl He]. unfold coming in Hf.
  destruct Hs as [f ev q n t e x ok k|f q n e x ok k|f q n e x ok k|f q n e x ok k|f q e x ok k|f q n e x ok k|f q n cfg e x ok k];
    cbn in *; split; cbn; try done; unfold coming; cbn; auto.
  - intros Hk. destruct (Hf Hk) as [?|[Hq|[Hn|Ht]]]; [by left|right..]; [|right; left|by right; right].
    + unfold on_event. apply Exists_cons in Hq as [-> | Hq]; [right; left; apply try_send_pos | by left].
    + unfold on_event. destruct (relevant ev); [apply try_send_pos | done].
  - intros cfg0 [= <-]. done.
  - intros _ Hok. rewrite <- (Hb cfg eq_refl). by apply reload_local.
  - by apply reload_file_ok.
Qed.

Lemma follows_env s s' : env_step s s' -> follows s -> follows s'.
Proof.
  intros Hs [Hf Hb Hl He]. unfold coming in Hf.
  destruct Hs as [f f' ev q n t e x ok k Hr|f f' q n t e x ok k|f ev q n t e x ok k|f q n t e x ok k ans now written
                 |f q n t e x ok k ans]; cbn in *; split; cbn; try done; unfold coming; cbn; auto.
  - intros _. right. left. apply Exists_app. right. by constructor.
  - destruct (relevant ev) eqn:Hr; [intros _; right; left; apply Exists_app; right; by constructor|].
    rewrite orb_false_r. intros Hk.
    destruct (Hf Hk) as [?|[Hq|?]]; [by left | right; left; apply Exists_app; by left | by right; right].
  - intros Ht Hok. rewrite poll_local. auto.
  - by apply poll_ok.
  - by destruct He.
Qed.

(** Nothing is left to do. *)
Definition quiet (s : Watch) : Prop := queue s = [] /\ ticks s = 0%nat /\ task s = Waiting.

(** How much the watcher and its task can still do without another event. *)
Definition work (s : Watch) : nat :=
  6 * length (queue s) + 5 * ticks s
  + match task s with Waiting => 0 | Sleeping => 4 | Draining => 3 | Reading => 2 | Rebuilding _ => 1 end.

Lemma own_step_work s s' : own_step s s' -> (work s' < work s)%nat.
Proof.
  destruct 1 as [f ev q n t e x ok k| | | | | |]; unfold work; cbn [queue ticks task length]; try lia.
  unfold on_event, try_send. destruct (relevant ev), (n <? CAPACITY)%nat; lia.
Qed.

Lemma quiet_or_step s : quiet s \/ exists s', own_step s s'.
Proof.
  destruct s as [f [|ev q] n t e x ok k]; [|right; eexists; apply own_deliver].
  destruct t as [| | | |cfg]; [destruct n as [|n]| |destruct n as [|n]| |];
    [by left | right; eexists; constructor..].
Qed.

Lemma settles s : exists s', rtc own_step s s' /\ quiet s'.
Proof.
  induction s as [s IH] using (well_founded_ind (well_founded_ltof _ work)).
  destruct (quiet_or_step s) as [Hq|[s1 Hs]]; [by exists s|].
  destruct (IH s1 (own_step_work _ _ Hs)) as (s' & Hr & Hq). exists s'. split; [by eapply rtc_l | done].
Qed.

Lemma own_file s s' : rtc own_step s s' -> file s' = file s.
Proof. induction 1 as [|x y z Hxy _ IH]; [done|]. rewrite IH. by destruct Hxy. Qed.

Lemma own_announced s s' : rtc own_step s s' -> announced s = true -> announced s' = true.
Proof. induction 1 as [|x y z Hxy _ IH]; [done|]. intros Hk. apply IH. by destruct Hxy. Qed.

(** The watcher beside an edge that booted from contents [f0]; the file is [f] when watching starts. *)
Definition watching `{EqDecision F} (f0 f : F) (e : Edge C R W) : Watch :=
  mkWatch f [] 0 Waiting e f0 true (bool_decide (f = f0)).

Context `{EqDecision F}.

Lemma watching_follows f0 f l rt w d e : load_config f0 = Ok l -> built_from l rt ->
  boot (W := W) from_json l rt w d = Ok e -> follows (watching f0 f e).
Proof.
  intros Hf Hb Hbo. split; cbn; [|done| | by eapply boot_ok].
  - rewrite bool_decide_eq_true. intros ->. by left.
  - intros _ _. by rewrite (boot_local _ _ _ _ _ _ Hbo).
Qed.

(** An edit before watching starts is not seen by itself: the watcher is at rest beside a file it never read. *)
Lemma early_edit_unseen f0 f e : f <> f0 -> quiet (watching f0 f e) /\ tried (watching f0 f e) <> file (watching f0 f e)
  /\ forall s, ~ own_step (watching f0 f e) s.
Proof. intros Hne. split; [done|]. split; [cbn; congruence|]. intros s Hs. inversion Hs. Qed.

End Watch.
