(* ===== verification/ManagedEdge.v ===== *)
(** * ManagedEdge: a managed edge over the runtime it really builds

    [Boot] implements the [Builder] the policy layers are proved against: a rebuild compiles the merged
    configuration and carries the health of the running pools over.  With it, what the control plane pushes
    reaches the policy sections of a running edge and no other. *)

From S2P Require Import Prelude Text Net Units Float Access Limiter Budget Http Health Pool PoolConfig ClientCert Auth KeyVault Llm LlmGate Forwarding Cors Waf Dlp StreamInspect CertStore Outbound Alert Telemetry Pipeline Boot BootLaws ControlPlane ControlPlaneLaws Reload.

Section Managed.
Context {TlsRest UpstreamTls LogCfg TracingCfg MetricsCfg UnknownKeys RegexSet Regex Automaton Key St : Type}.
Abbreviation Config := (Config (TlsRest := TlsRest) (UpstreamTls := UpstreamTls) (LogCfg := LogCfg)
  (TracingCfg := TracingCfg) (MetricsCfg := MetricsCfg) (UnknownKeys := UnknownKeys)).
Abbreviation Built := (Built (RegexSet := RegexSet) (Regex := Regex) (Automaton := Automaton) (Key := Key) (St := St)).
Variable B : BuildLibs (RegexSet := RegexSet) (Regex := Regex) (Automaton := Automaton) (Key := Key) (St := St).
Variable ids : Identities.
Variable from_str : bytes -> option Config.

Definition with_routes (b : Built) (rs : list (bytes * Pool)) : Built :=
  let r := Boot.built b in
  mkBuilt
    (Pipeline.mkRuntime (access r) (max_header_bytes r) (enforce_quota r) (ratelimit_enabled r) (route_limiters r)
       (ip_limiter r) (key_limiter r) (cors r) (auth r) (auth_cfg r) (allow_methods r) (websocket_passthrough r) (waf r)
       (dlp r) (gate r) (max_body r) (stream_requests r) (stream_inspect r) (max_response_body r) (stream_passthrough r)
       (stream_responses r) (forwarders r) (tls_enabled r) (client_cert_header r) rs (default_upstream r) (headers_cfg r))
    (b_distributed b) (b_quotas b) (b_upstream_timeout b) (b_route_labels b) (b_telemetry b) (b_alerts b).

(** The middle of [Policy::rebuild]: [build_runtime], whose health records are new, then
    [carry_health_from]. *)
Definition rebuild_runtime (cfg : Config) (old : Built) (hp : heap) : result (Built * heap) :=
  let? r := build_runtime B ids (length hp) cfg in
  let hp := hp ++ replicate (r.2 - length hp) health_default in
  let '(rs, hp) := carry_routes (upstream_routes (Boot.built old)) (upstream_routes (Boot.built r.1)) hp in
  Ok (with_routes r.1 rs, hp).

(** The same route: its path, and its pool in everything but the records its targets hold. *)
Definition same_route (r r' : bytes * Pool) : Prop :=
  r'.1 = r.1 /\ r'.2 = with_targets r.2 (targets r'.2)
  /\ Forall2 (fun t t' => exists loc, moved loc t t') (targets r.2) (targets r'.2).

(** A runtime compiled from [cfg], whose targets hold their own records or the ones carried over. *)
Definition compiled_from (cfg : Config) (b : Built) : Prop :=
  exists n b0 n', build_runtime B ids n cfg = Ok (b0, n')
    /\ b = with_routes b0 (upstream_routes (Boot.built b))
    /\ Forall2 same_route (upstream_routes (Boot.built b0)) (upstream_routes (Boot.built b)).

#[global] Instance boot_builder : Builder Config Built heap := {
  cp_of := c_control_plane;
  merge := with_policy_from from_str;
  build_over := rebuild_runtime;
  built_from := compiled_from
}.

Lemma with_routes_id b : with_routes b (upstream_routes (Boot.built b)) = b.
Proof. destruct b as [r ? ? ? ? ? ?]. by destruct r. Qed.

Lemma carried_routes old rs hp rs' hp' : carry_routes old rs hp = (rs', hp') ->
  Forall2 same_route rs rs'.
Proof.
  intros [_ Hf] % carry_routes_kept. eapply Forall2_impl; [exact Hf|]. cbn. intros r r' (H1 & H3 & H2).
  split; [done|]. split; [done|]. eapply Forall2_impl; [exact H2|]. cbn. intros t t' Hm. eexists. exact Hm.
Qed.

#[global] Instance boot_builder_laws : BuilderLaws Config Built heap.
Proof.
  split. intros cfg old hp b hp' Hb. cbn in Hb. unfold rebuild_runtime in Hb. apply rbind_Ok in Hb as ([b0 n'] & Hb0 & Hb).
  cbn [fst snd] in Hb. destruct (carry_routes _ _ _) as [rs hp1] eqn:Hc. injection Hb as <- <-.
  exists (length hp), b0, n'. split; [done|]. split; [done|]. by eapply carried_routes.
Qed.

Lemma fresh_compiled n cfg b n' : build_runtime B ids n cfg = Ok (b, n') -> compiled_from cfg b.
Proof.
  intros Hb. exists n, b, n'. split; [done|]. split; [by rewrite with_routes_id|].
  generalize (upstream_routes (Boot.built b)) as rs. intros rs. induction rs as [|[q p] rs IH]; constructor; [|done].
  split; [done|]. split; [by destruct p|]. cbn. generalize (targets p) as ts. intros ts.
  induction ts; constructor; [exists None; apply moved_none | done].
Qed.

(** The sections of the layered configuration: who owns which. *)
Lemma effective_sections l p cfg : effective l p = Ok cfg ->
  c_server cfg = c_server l /\ c_tls cfg = c_tls l /\ c_upstreams cfg = c_upstreams l
  /\ c_control_plane cfg = c_control_plane l /\ c_alerts cfg = c_alerts l /\ c_cert_header cfg = c_cert_header l
  /\ ls_telemetry (c_llm cfg) = ls_telemetry (c_llm l)
  /\ exists d, (match p with Some p => from_str (body p) = Some d | None => d = l end)
       /\ as_cfg (c_auth cfg) = as_cfg (c_auth d) /\ c_ratelimit cfg = c_ratelimit d /\ c_cors cfg = c_cors d
       /\ c_access cfg = c_access d /\ c_waf cfg = c_waf d /\ c_headers cfg = c_headers d
       /\ ls_dlp (c_llm cfg) = ls_dlp (c_llm d).
Proof.
  destruct p as [p|]; cbn; [|intros [= <-]; split_and!; try done; by exists l]. unfold with_policy_from.
  destruct (from_str (body p)) as [d|]; cbn; [|done]. intros [= <-]. cbn. split_and!; try done. by exists d.
Qed.

(** The local limiters of a rate section, when no shared store holds its limits. *)
Definition local_limits (rl : RateSection) (shared : option (DistributedLimiter St)) : result (list (Duration * Z)) :=
  if rs_enabled rl && match shared with None => true | Some _ => false end then local_quotas (rs_cfg rl) else Ok [].

(** What runs of the edge's own file [l]. *)
Record runs_file (l : Config) (b : Built) : Prop := {
  rf_forwarders : forwarders_from_cfg (sv_forward (c_server l)) = Ok (forwarders (Boot.built b));
  rf_tls : tls_enabled (Boot.built b) = ts_enabled (c_tls l);
  rf_certs : forward_policy (ts_client_mode (c_tls l)) (ts_forward_client_cert (c_tls l))
               (negb (Outbound.is_empty (trim (h_name (c_cert_header l))))) = Ok (client_cert_header (Boot.built b));
  rf_quota : enforce_quota (Boot.built b) = cp_enforce_quota (c_control_plane l);
  rf_routes : exists n rs m, build_routes B n (c_upstreams l) = Ok (rs, m)
                /\ Forall2 same_route rs (upstream_routes (Boot.built b))
                /\ default_upstream (Boot.built b) = single (b_parse_uri B) m (lit "default") (upstream_base l);
  rf_telemetry : telemetry_build (client_verdict B ids) (b_http_build B) (ls_telemetry (c_llm l)) = Ok (b_telemetry b);
  rf_alerts : alert_build (client_verdict B ids) (b_http_build B) (c_alerts l) = Ok (b_alerts b)
}.

(** What runs of the policy [d]: the document last applied, or the file while there is none. *)
Record runs_policy (d : Config) (b : Built) : Prop := {
  rp_shared : shared_limiter B (c_ratelimit d) = Ok (b_distributed b);
  rp_local : local_limits (c_ratelimit d) (b_distributed b) = Ok (b_quotas b);
  rp_ip : ip_limiter (Boot.built b) = rs_enabled (c_ratelimit d) && match b_distributed b with None => true | Some _ => false end;
  rp_route : route_limiters (Boot.built b)
               = if ip_limiter (Boot.built b) then map rr_path (rl_routes (rs_cfg (c_ratelimit d))) else [];
  rp_key : key_limiter (Boot.built b) = ip_limiter (Boot.built b) && rl_per_key_enabled (rs_cfg (c_ratelimit d));
  rp_auth : auth_cfg (Boot.built b) = as_cfg (c_auth d);
  rp_access : Access.build (c_access d) = Ok (access (Boot.built b));
  rp_waf : waf_build (b_set_new B) (c_waf d) = Ok (waf (Boot.built b));
  rp_dlp : Dlp.build (b_regex_new B) (b_is_match B) (b_ac_build B) (ls_dlp (c_llm d)) = Ok (dlp (Boot.built b));
  rp_cors : cors_build (b_header_value_ok B) (c_cors d) = Ok (cors (Boot.built b));
  rp_headers : headers_cfg (Boot.built b) = c_headers d
}.

(** What the layers make of a running edge. *)
Record edge_layers (e : Edge Config Built heap) : Prop := {
  el_file : runs_file (ControlPlane.local (policy e)) (runtime (policy e));
  el_policy : exists d, match pushed (policy e) with
                        | Some p => from_str (body p) = Some d
                        | None => d = ControlPlane.local (policy e)
                        end /\ runs_policy d (runtime (policy e))
}.

Lemma upstream_base_server (l cfg : Config) : c_server cfg = c_server l -> upstream_base cfg = upstream_base l.
Proof. unfold upstream_base. by intros ->. Qed.

Lemma current_layers e : edge_ok e -> edge_layers e.
Proof.
  intros [(cfg & Heff & n & b0 & n' & Hb & Hr & Hrs) _ _ _].
  destruct (effective_sections _ _ _ Heff) as (Hs & Ht & Hu & Hc & Ha & Hh & Hte & d & Hd & Hau & Hrl & Hco & Hac & Hwa & Hhe & Hdl).
  apply build_runtime_facts in Hb as F. split.
  - split; rewrite Hr; cbn.
    + rewrite <- Hs. apply F.
    + rewrite <- Ht. apply F.
    + rewrite <- Ht, <- Hh. apply F.
    + rewrite <- Hc. apply F.
    + destruct (bf_routes _ _ _ _ _ _ F) as (m & Hm & _ & Hdef). exists n, (upstream_routes (Boot.built b0)), m.
      rewrite <- Hu, <- (upstream_base_server _ _ Hs). done.
    + rewrite <- Hte. apply F.
    + rewrite <- Ha. apply F.
  - exists d. split; [done|]. split; rewrite Hr; cbn; unfold local_limits.
    + rewrite <- Hrl. apply F.
    + rewrite <- Hrl. rewrite <- (bf_ip _ _ _ _ _ _ F). apply F.
    + rewrite <- Hrl. apply F.
    + rewrite <- Hrl. apply F.
    + rewrite <- Hrl. apply F.
    + rewrite <- Hau. apply F.
    + rewrite <- Hac. apply F.
    + rewrite <- Hwa. apply F.
    + rewrite <- Hdl. apply F.
    + rewrite <- Hco. apply F.
    + rewrite <- Hhe. apply F.
Qed.

End Managed.

(** ** Witnesses *)

(** A managed edge that keeps a copy of its policy and serves nothing without one. *)
Definition sample_cp : ControlPlaneCfg :=
  mkControlPlaneCfg true (lit "https://cp.example/") (lit "tenant") (lit "token") (lit "30s") (lit "60s") false
    true (lit "30s") [] (lit "/var/policy.json") (lit "refuse") no_outbound.

Definition managed_config :=
  let c := local_config in
  mkConfig (c_server c) (c_auth c) (c_ratelimit c) (c_validation c) (c_headers c) (c_tls c) (c_waf c) (c_upstreams c)
    (c_upstream_tls c) (c_access c) (c_cors c) sample_cp (c_llm c) (c_alerts c) (c_log c) (c_tracing c) (c_metrics c)
    (c_cert_header c) (c_outbound c) (c_unknown_keys c).

#[local] Instance sample_builder : Builder _ _ heap := boot_builder sample_libs no_identities sample_toml.
#[local] Instance sample_builder_laws : BuilderLaws _ _ heap := boot_builder_laws sample_libs no_identities sample_toml.

(** The cache file: the two numbers, the lengths, and the texts. *)
Definition sample_to_json (f : CacheFile) : bytes :=
  cf_version f :: cf_saved_at f :: Z.of_nat (length (cf_control_plane f)) :: Z.of_nat (length (cf_tenant_id f))
  :: Z.of_nat (length (cf_etag f)) :: cf_control_plane f ++ cf_tenant_id f ++ cf_etag f ++ cf_policy f.

Definition sample_from_json (s : bytes) : option CacheFile :=
  match s with
  | v :: t :: a :: b :: c :: s =>
      let (s1, s) := (take (Z.to_nat a) s, drop (Z.to_nat a) s) in
      let (s2, s) := (take (Z.to_nat b) s, drop (Z.to_nat b) s) in
      Some (mkCacheFile v s1 s2 (take (Z.to_nat c) s) t (drop (Z.to_nat c) s))
  | _ => None
  end.

Lemma sample_json_round_trips : json_round_trips sample_to_json sample_from_json.
Proof.
  intros [v cp te et t p]. unfold sample_to_json, sample_from_json.
  cbn [cf_version cf_saved_at cf_control_plane cf_tenant_id cf_etag cf_policy].
  rewrite !Nat2Z.id. by repeat (rewrite take_app_length || rewrite drop_app_length).
Qed.

Definition sample_runtime := build_runtime sample_libs no_identities 0 managed_config.

Definition sample_boot (d : Disk) :=
  let? r := sample_runtime in boot sample_from_json managed_config r.1 (replicate r.2 health_default) d.

(** The control plane answers, a broken file is saved, the control plane goes away. *)
Definition sample_events : list (Event (Config (TlsRest := unit) (UpstreamTls := unit) (LogCfg := unit)
    (TracingCfg := unit) (MetricsCfg := unit) (UnknownKeys := unit))) :=
  [EPoll (Answer 200 (Some (lit "v1", lit "strict"))) 10 true; EReload (Err "bad file");
   EPoll Unreachable 20 true; EPoll (Answer 200 (Some (lit "v2", lit "strict"))) 30 true; EQuota Unreachable].

(** What a run of the sample comes to, all of it computed. *)
Definition sample_run (f : _ -> bool) : bool :=
  match sample_boot ∅ with Ok e => f e | Err _ => false end.

Lemma sample_booted f : sample_run f = true -> exists rt n e, sample_runtime = Ok (rt, n)
  /\ boot sample_from_json managed_config rt (replicate n health_default) ∅ = Ok e /\ sample_boot ∅ = Ok e /\ f e = true.
Proof.
  unfold sample_run, sample_boot. destruct sample_runtime as [[rt n]|]; [|done]. cbn [rbind fst snd]. intros Hf.
  exists rt, n. destruct (boot _ _ _ _ _) as [e|] eqn:He; [|done]. by exists e.
Qed.


Definition sample_bad_policy : Event (Config (TlsRest := unit) (UpstreamTls := unit) (LogCfg := unit)
    (TracingCfg := unit) (MetricsCfg := unit) (UnknownKeys := unit)) :=
  EPoll (Answer 200 (Some (lit "v3", lit "broken"))) 40 true.

Lemma edge_runs_what_it_reports_witness : exists e, sample_boot ∅ = Ok e
  /\ reported (fold_left (edge_step sample_to_json) sample_events e) = Some (lit "v2")
  /\ edge_ok (fold_left (edge_step sample_to_json) sample_events e)
  /\ edge_step sample_to_json (fold_left (edge_step sample_to_json) sample_events e) sample_bad_policy
     = fold_left (edge_step sample_to_json) sample_events e.
Proof.
  destruct (sample_booted (fun e => let e1 := fold_left (edge_step sample_to_json) sample_events e in
      bool_decide (reported e1 = Some (lit "v2")) && unbuildable (lit "broken") e1))
    as (rt & n & e & Hr & He & Hs & Hv); [vm_compute; reflexivity|].
  apply andb_true_iff in Hv as [Hv Hf].
  destruct (@edge_runs_what_it_reports _ _ _ sample_builder sample_builder_laws sample_to_json sample_from_json
    managed_config rt (replicate n health_default) ∅ e sample_events (fresh_compiled _ _ _ _ _ _ Hr) He) as [Hok Hev].
  exists e. split; [exact Hs|]. split; [exact (bool_decide_eq_true_1 _ Hv)|]. split; [exact Hok|].
  exact (event_rejected _ _ _ _ _ _ _ (Hev sample_bad_policy) eq_refl Hf).
Defined.

Definition sample_policy : Pushed := mkPushed (lit "v2") (lit "strict").

Lemma restart_resumes_policy_witness : exists e1 e2,
  (let? e := sample_boot ∅ in Ok (fold_left (edge_step sample_to_json) sample_events e)) = Ok e1
  /\ sample_boot (disk e1) = Ok e2 /\ pushed (policy e2) = Some sample_policy /\ reported e2 = Some (lit "v2")
  /\ pending (policy e2) = false.
Proof.
  destruct (sample_booted (fun e => bool_decide (pushed (policy (fold_left (edge_step sample_to_json) sample_events e))
    = Some sample_policy))) as (rt & n & e & Hr & He & Hs & Hp); [vm_compute; reflexivity|].
  apply bool_decide_eq_true_1 in Hp.
  assert (Hb : match sample_runtime with
    | Ok (rt, n) => match (let? cfg := effective managed_config (Some sample_policy) in
                           build_over cfg rt (replicate n health_default)) with Ok _ => True | Err _ => False end
    | Err _ => False end) by (vm_compute; exact I).
  rewrite Hr in Hb. destruct (let? cfg := _ in build_over cfg rt _) as [r|] eqn:Hbo; [|destruct Hb].
  destruct (restart_resumes_policy sample_to_json sample_from_json managed_config rt (replicate n health_default) ∅ e
    sample_events managed_config rt (replicate n health_default) sample_json_round_trips He eq_refl eq_refl) as [Hk _].
  destruct (Hk ltac:(discriminate) ltac:(repeat constructor) sample_policy r Hp Hbo) as (e2 & H2 & H3 & _ & _ & H4 & H5).
  exists (fold_left (edge_step sample_to_json) sample_events e), e2. rewrite Hs. split; [reflexivity|].
  split; [unfold sample_boot; rewrite Hr; exact H2|]. split; [exact H3|]. split; [exact H4 | exact H5].
Defined.

(** ** The file watcher *)

(** A file that reads, and one that does not. *)
Definition sample_load (f : bytes) :=
  if beq f (lit "broken") then Err "parsing config"%string else Ok managed_config.

Definition saved : FsEvent := mkFsEvent KModify [Some (lit "edgeguard.toml")].
Abbreviation watch_step := (Reload.step sample_to_json sample_load (Some (lit "edgeguard.toml"))).
Abbreviation settle_step := (Reload.own_step sample_load (Some (lit "edgeguard.toml"))).

(** The file was edited before watching began; then two saves, the second while the first is read. *)
Lemma sample_edits (e : Edge _ _ heap) : exists s, rtc watch_step (watching (lit "first") (lit "edited") e) s
  /\ file s = lit "second" /\ tried s = lit "broken" /\ succeeded s = false /\ announced s = true.
Proof.
  eexists. split.
  - eapply rtc_l; [right; by apply (env_edit _ _ _ (lit "broken") saved)|].
    eapply rtc_l; [left; apply own_deliver|]. eapply rtc_l; [left; apply own_recv|]. eapply rtc_l; [left; apply own_wake|].
    eapply rtc_l; [left; apply own_drained|]. eapply rtc_l; [left; apply own_read|].
    eapply rtc_l; [right; by apply (env_edit _ _ _ (lit "second") saved)|].
    eapply rtc_l; [left; apply own_rebuild|]. reflexivity.
  - cbn. done.
Qed.

