(* ===== verification/Serve.v ===== *)
(** * Serve: the accept loop every listener runs ([src/src/serve.rs])

    A connection is a socket on which bytes become readable at given instants.  Its task reads a PROXY
    header, waits for the first bytes of a TLS handshake, has [rustls] do the handshake, reads enough to
    tell HTTP/1 from HTTP/2, and hands the connection to [hyper]; every wait is raced against a deadline
    and the listener's drain.  The listener counts its open connections, refuses those over its cap, and
    at shutdown waits for the rest ([Listener]). *)

From S2P Require Import Prelude Text Net Units Float Metrics Access ProxyProtocol Boot.

Definition TLS_HANDSHAKE_TIMEOUT : Duration := 10 * 1000000000.

(** The HTTP/2 connection preface. *)
Definition H2_PREFACE : bytes := lit "PRI * HTTP/2.0" ++ [13; 10; 13; 10] ++ lit "SM" ++ [13; 10; 13; 10].

Record ServeOpts : Type := mkServeOpts {
  header_read_timeout : option Duration; max_connections : Z; drain_delay : Duration; drain_timeout : Duration;
  proxy_protocol : option ProxyProtocol
}.

Definition serve_opts (cfg : ServerSection) : result ServeOpts :=
  let? header := parse_duration (sv_header_read_timeout cfg) in
  let? delay := parse_duration (sv_drain_delay cfg) in
  let? timeout := parse_duration (sv_drain_timeout cfg) in
  let? pp := ProxyProtocol.from_cfg (sv_proxy_protocol cfg) (sv_proxy_protocol_trusted cfg) in
  Ok (mkServeOpts (nonzero header) (sv_max_connections cfg) delay timeout pp).

Definition for_admin (o : ServeOpts) : ServeOpts :=
  mkServeOpts (header_read_timeout o) 0 0 (drain_timeout o) (header_optional <$> proxy_protocol o).

(** ** Reading *)

(** What a socket will give, each with the instant it is there; [Chunk []] is the end of the stream. *)
Abbreviation Socket := (list (Z * Read)).

Inductive Stream : Type :=
| Sock (s : Socket)
| Prefixed (prefix : bytes) (pos : nat) (inner : Stream).

Inductive ReadResult : Type :=
| Got (t : Z) (b : bytes) (s : Stream)
| Broke (t : Z)
| Silent.                                               (** nothing more comes *)

(** A read into a buffer of [cap] bytes, begun at [now]. *)
Fixpoint poll_read (cap : nat) (now : Z) (s : Stream) : ReadResult :=
  match s with
  | Sock [] => Silent
  | Sock ((t, Failed) :: _) => Broke (Z.max now t)
  | Sock (((t, Chunk c) :: r) as whole) =>
      Got (Z.max now t) (take cap c)
        (Sock (if is_nil c then whole else if is_nil (drop cap c) then r else (t, Chunk (drop cap c)) :: r))
  | Prefixed p pos inner =>
      if (pos <? length p)%nat then
        let n := Nat.min (length p - pos) cap in
        Got now (take n (drop pos p))
          (if (pos + n =? length p)%nat then Prefixed [] 0 inner else Prefixed p (pos + n) inner)
      else match poll_read cap now inner with
           | Got t b inner => Got t b (Prefixed p pos inner)
           | Broke t => Broke t
           | Silent => Silent
           end
  end.

(** What comes of waiting for something ([done], if it ever ends) under a deadline, with the drain signal. *)
Inductive Race : Type := Finished | TimedOut (t : Z) | Drained (t : Z).

Definition before (t : Z) (o : option Z) : bool := match o with Some u => t <=? u | None => true end.

Definition cut (now : Z) (deadline drain : option Z) : Race :=
  match deadline, drain with
  | Some d, Some x => if x <? d then Drained (Z.max now x) else TimedOut (Z.max now d)
  | Some d, None => TimedOut (Z.max now d)
  | None, Some x => Drained (Z.max now x)
  | None, None => Finished
  end.

Definition race (now : Z) (deadline drain : option Z) (done : option Z) : Race :=
  match done with
  | Some t => if before t deadline && before t drain then Finished else cut now deadline drain
  | None => cut now deadline drain
  end.

(** ** The PROXY header *)

(** A chunk as reads of at most [cap] bytes return it. *)
Fixpoint pieces (fuel cap : nat) (c : bytes) : list bytes :=
  match fuel with
  | O => [c]
  | S fuel => if (length c <=? cap)%nat then [c] else take cap c :: pieces fuel cap (drop cap c)
  end.

Definition segments (cap : nat) (s : Socket) : Socket :=
  concat (map (fun '(t, r) => match r with
                              | Chunk c => map (fun p => (t, Chunk p)) (pieces (length c) cap c)
                              | Failed => [(t, Failed)]
                              end) s).

(** The reads [pp.accept] made, up to the last of the deadline, and the instant of the last. *)
Fixpoint in_time (deadline : Z) (s : Socket) : Socket :=
  match s with
  | r :: s => if r.1 <=? deadline then r :: in_time deadline s else []
  | [] => []
  end.

(** When the first [k] reads were made, the first begun at [now]. *)
Fixpoint read_until (now : Z) (k : nat) (s : Socket) : Z :=
  match k, s with
  | S k, (t, _) :: s => read_until (Z.max now t) k s
  | _, _ => now
  end.

Inductive ProxyRead : Type := PAccepted (a : Accepted) (t : Z) (s : Socket) | PBroke (nothing_read : bool) (t : Z) | PWaits.

(** The end of the stream is read again by whoever reads next. *)
Definition reread (k : nat) (s : Socket) : Socket :=
  match k with
  | S k => match s !! k with Some (_, Chunk []) => drop k s | _ => drop (S k) s end
  | O => s
  end.

(** How many reads come before one that fails. *)
Fixpoint until_failed (s : Socket) : nat :=
  match s with
  | (_, Chunk _) :: s => S (until_failed s)
  | _ => 0
  end.

(** [pp.accept], with what is there by [horizon]. *)
Definition accept_by (pp : ProxyProtocol) (peer : SocketAddr) (now horizon : Z) (s : Socket) : ProxyRead :=
  let early := in_time horizon (segments 512 s) in
  match accept pp (map snd early) peer with
  | Accept_pending => PWaits
  | Accept_failed b => PBroke b (read_until now (S (until_failed early)) early)
  | Accept_ok a unread =>
      let k := (length early - length unread)%nat in
      PAccepted a (read_until now k early) (reread k (segments 512 s))
  end.

(** ** A connection *)

(** What a connection adds to the listener's counters. *)
Inductive Count : Type := NoClientHello | TlsFailed (reason : bytes) | TlsSucceeded | ProxySeen (o : Outcome).

Record HeadTimeouts : Type := mkHeadTimeouts { each : Duration; first : Duration }.

(** A connection handed to [hyper]: when, whose, its stream, the deadline of its first request head, and
    the timeout of each. *)
Record Handed {Tls : Type} : Type := mkHanded {
  h_at : Z; h_client : SocketAddr; h_peer : SocketAddr; h_tls : option Tls; h_stream : Stream;
  h_prefix : bytes; h_first_by : option Z; h_each : option Duration
}.
Arguments Handed : clear implicits.

Inductive Fate (Tls : Type) : Type := Closed (t : Z) | ToHyper (h : Handed Tls).
Arguments Closed {Tls} _.
Arguments ToHyper {Tls} _.

Inductive Preface : Type := PrefaceRead (t : Z) (b : bytes) (s : Stream) | PrefaceEnded (t : Z) | PrefaceWaits.

(** [read_preface]. *)
Fixpoint read_preface_go (fuel : nat) (now : Z) (buf : bytes) (s : Stream) : Preface :=
  match fuel with
  | O => PrefaceRead now buf s
  | S fuel =>
      if (length buf <? length H2_PREFACE)%nat then
        match poll_read (length H2_PREFACE - length buf) now s with
        | Silent => PrefaceWaits
        | Broke t => PrefaceEnded t
        | Got t [] _ => PrefaceEnded t
        | Got t b s =>
            if beq b (take (length b) (drop (length buf) H2_PREFACE)) then read_preface_go fuel t (buf ++ b) s
            else PrefaceRead t (buf ++ b) s
        end
      else PrefaceRead now buf s
  end.

Definition read_preface (now : Z) (s : Stream) : Preface := read_preface_go (length H2_PREFACE) now [] s.

Definition preface_time (p : Preface) : option Z :=
  match p with PrefaceRead t _ _ | PrefaceEnded t => Some t | PrefaceWaits => None end.

Section Connection.
Context {Tls : Type}.

(** [rustls]'s handshake on a stream, begun at an instant: when it ends, if it does, and how: the session and
    the stream inside it, or whether it failed for the client's certificate. *)
Abbreviation Acceptor := (Z -> Stream -> option (Z * (Tls * Stream + bool))).

(** [serve_connection], up to [hyper]. *)
Definition serve_connection (now : Z) (s : Stream) (client peer : SocketAddr) (heads : option HeadTimeouts)
    (tls : option Tls) (drain : option Z) : Fate Tls :=
  match heads with
  | None => ToHyper (mkHanded _ now client peer tls (Prefixed [] 0 s) [] None None)
  | Some h =>
      let first_by := now + first h in
      let p := read_preface now s in
      match race now (Some first_by) drain (preface_time p) with
      | TimedOut t | Drained t => Closed t
      | Finished =>
          match p with
          | PrefaceRead t b s =>
              ToHyper (mkHanded _ t client peer tls (Prefixed b 0 s) b
                         (if beq b H2_PREFACE then None else Some first_by) (Some (each h)))
          | PrefaceEnded t => Closed t
          | PrefaceWaits => Closed first_by
          end
      end
  end.

(** The first bytes of the handshake, when none came with the PROXY header. *)
Inductive Hello : Type := HelloReady (t : Z) (rest : bytes) (s : Stream) | HelloClosed (t : Z) (c : list Count).

Definition wait_hello (now : Z) (rest : bytes) (s : Socket) (deadline : Z) (drain : option Z) : Hello :=
  if negb (is_nil rest) then HelloReady now rest (Sock s)
  else
    let r := poll_read 1024 now (Sock s) in
    match race now (Some deadline) drain (match r with Got t _ _ | Broke t => Some t | Silent => None end) with
    | TimedOut t => HelloClosed t [TlsFailed (lit "timeout")]
    | Drained t => HelloClosed t []
    | Finished =>
        match r with
        | Got t (x :: b) s => HelloReady t (x :: b) s
        | Got t [] _ | Broke t => HelloClosed t [NoClientHello]
        | Silent => HelloClosed deadline []
        end
    end.

(** The task's middle: the TLS handshake, when the listener has one. *)
Definition tls_stage (acceptor : option Acceptor) (now : Z) (client peer : SocketAddr) (rest : bytes) (s : Socket)
    (heads : option HeadTimeouts) (drain : option Z) : Fate Tls * list Count :=
  match acceptor with
  | None => (serve_connection now (Prefixed rest 0 (Sock s)) client peer heads None drain, [])
  | Some accept =>
      let deadline := now + TLS_HANDSHAKE_TIMEOUT in
      match wait_hello now rest s deadline drain with
      | HelloClosed t c => (Closed t, c)
      | HelloReady t rest s =>
          let shake := accept t (Prefixed rest 0 s) in
          match race t (Some deadline) drain (fst <$> shake), shake with
          | TimedOut t, _ => (Closed t, [TlsFailed (lit "timeout")])
          | Drained t, _ => (Closed t, [])
          | Finished, Some (t, inl (tls, s)) => (serve_connection t s client peer heads (Some tls) drain, [TlsSucceeded])
          | Finished, Some (t, inr cert) => (Closed t, [TlsFailed (if cert then lit "client_cert" else lit "other")])
          | Finished, None => (Closed deadline, [])
          end
      end
  end.

Definition horizon (deadline : Z) (drain : option Z) : Z := match drain with Some x => Z.min deadline x | None => deadline end.

Definition heads_from (o : ServeOpts) (accepted_at now : Z) : option HeadTimeouts :=
  (fun limit => mkHeadTimeouts limit (Z.max 0 (limit - (now - accepted_at)))) <$> header_read_timeout o.

(** The task of one connection, accepted at [accepted_at]; [drain] is when its listener starts to drain. *)
Definition conn_task (o : ServeOpts) (acceptor : option Acceptor) (peer : SocketAddr) (accepted_at : Z)
    (drain : option Z) (s : Socket) : Fate Tls * list Count :=
  match proxy_protocol o with
  | None => tls_stage acceptor accepted_at peer peer [] s (heads_from o accepted_at accepted_at) drain
  | Some pp =>
      let deadline := accepted_at + default TLS_HANDSHAKE_TIMEOUT (header_read_timeout o) in
      match accept_by pp peer accepted_at (horizon deadline drain) s with
      | PWaits => match race accepted_at (Some deadline) drain None with
                  | Drained t => (Closed t, [])
                  | _ => (Closed deadline, [ProxySeen Timeout])
                  end
      | PBroke nothing_read t =>
          (Closed t, if match acceptor with Some _ => nothing_read | None => false end then [NoClientHello] else [])
      | PAccepted a t s =>
          if negb (serves (outcome a)) then (Closed t, [ProxySeen (outcome a)])
          else let '(f, c) := tls_stage acceptor t (client a) peer (rest a) s (heads_from o accepted_at t) drain in
               (f, ProxySeen (outcome a) :: c)
      end
  end.

(** What [hyper] does with a connection it was handed: when the first request head is complete (its service is called),
    when it ends by itself, and when it ends after a [graceful_shutdown]. *)
Record Hyper : Type := mkHyper { first_head_at : option Z; ends_at : option Z; ends_after : Z -> option Z }.

(** [first_head_late]: the first-head deadline, if no head is there by then. *)
Definition first_head_late (h : Handed Tls) (x : Hyper) : option Z :=
  match h_first_by h with
  | Some by_ => if match first_head_at x with Some t => t <=? by_ | None => false end then None else Some by_
  | None => None
  end.

(** [serve_connection], from [hyper] on: when the connection is closed, [None] for never.  Once the drain has begun only
    [hyper]'s own timeouts are left. *)
Definition hyper_stage (h : Handed Tls) (x : Hyper) (drain : option Z) : option Z :=
  match race (h_at h) (first_head_late h x) drain (ends_at x) with
  | Finished => ends_at x
  | TimedOut t => Some t
  | Drained t => ends_after x t
  end.

(** The whole task: when the connection is closed. *)
Definition closed_at (o : ServeOpts) (acceptor : option Acceptor) (hyper : Handed Tls -> Hyper) (peer : SocketAddr)
    (accepted_at : Z) (drain : option Z) (s : Socket) : option Z :=
  match (conn_task o acceptor peer accepted_at drain s).1 with
  | Closed t => Some t
  | ToHyper h => hyper_stage h (hyper h) drain
  end.
End Connection.

(** ** Counters *)

Definition TLS_FAILURE_REASONS : list bytes := [lit "client_cert"; lit "timeout"; lit "other"].

#[global] Instance Outcome_eq_dec : EqDecision Outcome.
Proof. solve_decision. Defined.

Definition Outcome_ALL : list Outcome := [Proxied; Local; Missing; Direct; Untrusted; Invalid; Timeout].

(** The handshake and PROXY counters of [ListenerStats]. *)
Record ListenerStats : Type := mkListenerStats {
  tls_failures : list Z; no_client_hello : Z; tls_handshakes : Z; proxy_protocol_outcomes : list Z
}.

Definition stats_new : ListenerStats := mkListenerStats [0; 0; 0] 0 0 [0; 0; 0; 0; 0; 0; 0].

Definition tls_failed (reason : bytes) (s : ListenerStats) : ListenerStats :=
  mkListenerStats (bump_known TLS_FAILURE_REASONS reason (tls_failures s)) (no_client_hello s)
    (fetch_add (tls_handshakes s) 1) (proxy_protocol_outcomes s).

Definition tls_succeeded (s : ListenerStats) : ListenerStats :=
  mkListenerStats (tls_failures s) (no_client_hello s) (fetch_add (tls_handshakes s) 1) (proxy_protocol_outcomes s).

Definition proxy_protocol_seen (o : Outcome) (s : ListenerStats) : ListenerStats :=
  mkListenerStats (tls_failures s) (no_client_hello s) (tls_handshakes s)
    (match list_find (o =.) Outcome_ALL with
     | Some (i, _) => bump_at i (proxy_protocol_outcomes s)
     | None => proxy_protocol_outcomes s
     end).

Definition apply_count (s : ListenerStats) (c : Count) : ListenerStats :=
  match c with
  | NoClientHello => mkListenerStats (tls_failures s) (fetch_add (no_client_hello s) 1) (tls_handshakes s)
                       (proxy_protocol_outcomes s)
  | TlsFailed reason => tls_failed reason s
  | TlsSucceeded => tls_succeeded s
  | ProxySeen o => proxy_protocol_seen o s
  end.

(** ** The listener *)

(** [AtCheck]: registered for the wake-up and about to look; [Awaiting]: looked, and waits for it. *)
Inductive Phase : Type :=
| Accepting | Stopped | Registering | AtCheck | Awaiting | Returned (drained : bool).

(** [open] and [rejected] of [ListenerStats]; [notifying]: connections that were the last and have not woken
    the waiter yet; [notified]: the waiter's wake-up has come.  [admitted] and [ended] count connections. *)
Record Listener : Type := mkListener {
  open : nat; rejected : nat; notifying : nat; phase : Phase; notified : bool; admitted : nat; ended : nat
}.

Definition listening : Listener := mkListener 0 0 0 Accepting false 0 0.

(** At [max_connections]. *)
Definition full (max open : nat) : bool := negb (max =? 0)%nat && (max <=? open)%nat.

Definition registered (p : Phase) : bool := match p with AtCheck | Awaiting => true | _ => false end.
Definition waiting (p : Phase) : bool := match p with Registering | AtCheck | Awaiting => true | _ => false end.

(** The accept loop and the drain, interleaved with the ends of connections: a slot's [drop] gives the count
    back, and wakes the waiter in a second step. *)
Inductive lstep (max : nat) : Listener -> Listener -> Prop :=
| l_admit o r n w a e : full max o = false ->
    lstep max (mkListener o r n Accepting w a e) (mkListener (S o) r n Accepting w (S a) e)
| l_reject o r n w a e : full max o = true ->
    lstep max (mkListener o r n Accepting w a e) (mkListener o (S r) n Accepting w a e)
| l_end o r n p w a e :
    lstep max (mkListener (S o) r n p w a e) (mkListener o r (if (o =? 0)%nat then S n else n) p w a (S e))
| l_notify o r n p w a e :
    lstep max (mkListener o r (S n) p w a e) (mkListener o r n p (registered p || w) a e)
| l_stop o r n w a e : lstep max (mkListener o r n Accepting w a e) (mkListener o r n Stopped w a e)
| l_first_look o r n w a e :
    lstep max (mkListener o r n Stopped w a e)
      (mkListener o r n (if (o =? 0)%nat then Returned true else Registering) w a e)
| l_register o r n w a e : lstep max (mkListener o r n Registering w a e) (mkListener o r n AtCheck false a e)
| l_look o r n w a e :
    lstep max (mkListener o r n AtCheck w a e)
      (mkListener o r n (if (o =? 0)%nat then Returned true else Awaiting) w a e)
| l_wake o r n a e : lstep max (mkListener o r n Awaiting true a e) (mkListener o r n Registering true a e)
| l_timeout o r n p w a e : waiting p = true ->
    lstep max (mkListener o r n p w a e) (mkListener o r n (Returned false) w a e).
