(* ===== verification/ServeLaws.v ===== *)
(** * ServeLaws: a connection is held no longer than its timeout, and no byte of it is lost *)

From S2P Require Import Prelude Text Net Units Float Metrics Access ProxyProtocol Boot Serve.

#[local] Arguments H2_PREFACE : simpl never.
#[local] Arguments serve_connection : simpl never.

(** ** The listener *)

Record listener_ok (max : nat) (l : Listener) : Prop := {
  lo_cap : max <> 0%nat -> (open l <= max)%nat;
  lo_count : admitted l = (open l + ended l)%nat;
  lo_drained : phase l = Returned true -> open l = 0%nat;
  lo_wake : phase l = Awaiting -> open l = 0%nat -> notified l = true \/ (0 < notifying l)%nat
}.

Lemma lstep_ok max l l' : lstep max l l' -> listener_ok max l -> listener_ok max l'.
Proof.
  intros Hs [Hc Hn Hd Hw].
  destruct Hs as [o r n w a e Hf|o r n w a e Hf|o r n p w a e|o r n p w a e|o r n w a e|o r n w a e|o r n w a e|o r n w a e
                 |o r n a e|o r n p w a e Hp]; cbn in *; split; cbn; try done; try lia.
  - unfold full in Hf. intros Hm. destruct (Nat.eqb_spec max 0); [done|]. cbn in Hf.
    apply Nat.leb_gt in Hf. lia.
  - intros ->. specialize (Hd eq_refl). lia.
  - intros -> ->. right. cbn. lia.
  - intros ->. by left.
  - destruct (Nat.eqb_spec o 0); [done|]. discriminate.
  - destruct (Nat.eqb_spec o 0); [discriminate|]. discriminate.
  - destruct (Nat.eqb_spec o 0); [done|]. discriminate.
  - destruct (Nat.eqb_spec o 0); [discriminate|]. lia.
Qed.

Lemma waiter_finishes max o r w a e p : (waiting p = true \/ p = Stopped) -> (p = Awaiting -> o = 0%nat -> w = true) ->
  o = 0%nat -> exists l, rtc (lstep max) (mkListener o r 0 p w a e) l /\ phase l = Returned true.
Proof.
  intros Hp Hw ->.
  assert (Hreg : forall w, exists l, rtc (lstep max) (mkListener 0 r 0 Registering w a e) l /\ phase l = Returned true).
  { intros w'. eexists. split; [eapply rtc_l; [apply l_register|]; eapply rtc_l; [apply l_look|]; reflexivity | done]. }
  destruct p; [by destruct Hp | | | | |by destruct Hp].
  - eexists. split; [eapply rtc_l; [apply l_first_look|]; reflexivity | done].
  - apply Hreg.
  - eexists. split; [eapply rtc_l; [apply l_look|]; reflexivity | done].
  - rewrite (Hw eq_refl eq_refl). destruct (Hreg true) as (l & Hr & Hl). exists l. split; [|done].
    eapply rtc_l; [apply l_wake | done].
Qed.

(** However connections come, end and overlap with the drain: the cap holds at every moment, every admitted
    connection is open or has ended, the drain reports success only when none is open, and it misses no
    wake-up: once all have ended and their slots are dropped, the waiter can always finish. *)
Theorem drain_waits_for_all max l : rtc (lstep max) listening l ->
  (max <> 0%nat -> (open l <= max)%nat) /\ admitted l = (open l + ended l)%nat
  /\ (phase l = Returned true -> open l = 0%nat)
  /\ (waiting (phase l) = true -> open l = 0%nat -> notifying l = 0%nat ->
      exists l', rtc (lstep max) l l' /\ phase l' = Returned true).
Proof.
  intros Hr. assert (Hok : listener_ok max l).
  { assert (H0 : listener_ok max listening) by (split; cbn; done || lia).
    induction Hr as [|x y z Hxy _ IH]; [done|]. apply IH. by eapply lstep_ok. }
  destruct Hok as [Hc Hn Hd Hw]. split_and!; [done..|]. intros Hp Ho Hno.
  destruct l as [o r n p w a e]. cbn in *. subst n. apply waiter_finishes; [by left| |done].
  intros -> _. destruct (Hw eq_refl Ho); [done | lia].
Qed.

(** The last connection ends between the waiter's look and its wait. *)
Lemma drain_waits_for_all_witness : exists l, rtc (lstep 1) listening l /\ rejected l = 1%nat /\ phase l = Awaiting
  /\ open l = 0%nat /\ exists l', rtc (lstep 1) l l' /\ phase l' = Returned true.
Proof.
  assert (Hrun : rtc (lstep 1) listening (mkListener 0 1 0 Awaiting true 1 1)).
  { eapply rtc_l; [by apply l_admit|]. eapply rtc_l; [by apply l_reject|]. eapply rtc_l; [apply l_stop|].
    eapply rtc_l; [apply l_first_look|]. eapply rtc_l; [apply l_register|]. eapply rtc_l; [apply l_look|].
    eapply rtc_l; [apply l_end|]. eapply rtc_l; [apply l_notify|]. reflexivity. }
  eexists. split; [exact Hrun|]. split; [reflexivity|]. split; [reflexivity|]. split; [reflexivity|].
  apply (drain_waits_for_all 1 _ Hrun); reflexivity.
Defined.

(** ** How long a connection is held *)

Lemma race_finished now d drain t : race now (Some d) drain t = Finished -> exists t', t = Some t' /\ t' <= d.
Proof.
  unfold race, cut. destruct t as [t|]; cbn; [|destruct drain; [by destruct (_ <? d)|done]].
  destruct (t <=? d) eqn:Ht; cbn; [intros _; exists t; split; [done | lia]|].
  destruct drain; [by destruct (_ <? d) | done].
Qed.

Lemma race_over now d drain t t' : now <= d ->
  race now (Some d) drain t = TimedOut t' \/ race now (Some d) drain t = Drained t' -> now <= t' <= d.
Proof.
  intros Hn. unfold race, cut. destruct t as [t|]; [destruct (before t (Some d) && before t drain); [by intros [?|?]|]|];
    (destruct drain as [x|]; [destruct (Z.ltb_spec x d)|]); intros [[= <-]|[= <-]]; lia.
Qed.

Lemma poll_read_later cap now s : match poll_read cap now s with Got t _ _ | Broke t => now <= t | Silent => True end.
Proof.
  induction s as [[|[t [c|]] s]|p pos s IH]; cbn [poll_read]; try lia.
  destruct (pos <? length p)%nat; [lia|]. by destruct (poll_read cap now s).
Qed.

Lemma read_preface_later fuel now buf s : match preface_time (read_preface_go fuel now buf s) with
  | Some t => now <= t | None => True end.
Proof.
  revert now buf s. induction fuel as [|fuel IH]; intros now buf s; cbn [read_preface_go]; [cbn; lia|].
  destruct (length buf <? length H2_PREFACE)%nat; [|cbn; lia].
  pose proof (poll_read_later (length H2_PREFACE - length buf) now s) as Hl.
  destruct (poll_read _ now s) as [t [|x b] s'|t|]; cbn; [done| |done|done].
  destruct (beq _ _); cbn; [|done]. specialize (IH t (buf ++ x :: b) s').
  destruct (preface_time _); [lia | done].
Qed.

Section Held.
Context {Tls : Type}.
Abbreviation Acceptor := (Z -> Stream -> option (Z * (Tls * Stream + bool))).

(** Over by [d]: closed by then, or given until then, at the latest, for its first request head, unless it
    speaks HTTP/2. *)
Definition over_by (from d : Z) (f : Fate Tls) : Prop :=
  match f with
  | Closed t => from <= t <= d
  | ToHyper h => from <= h_at h <= d /\ match h_first_by h with Some by_ => by_ <= d | None => h_prefix h = H2_PREFACE end
  end.

Lemma over_by_weaken from from' d d' f : from' <= from -> d <= d' -> over_by from d f -> over_by from' d' f.
Proof. intros H1 H2. destruct f as [t|h]; cbn; [lia|]. destruct (h_first_by h); intros [? ?]; split; (lia || done). Qed.

Lemma serve_connection_over now s client peer h (tls : option Tls) drain : 0 <= first h ->
  over_by now (now + first h) (serve_connection now s client peer (Some h) tls drain).
Proof.
  intros Hf. unfold serve_connection. pose proof (read_preface_later (length H2_PREFACE) now [] s) as Hl.
  fold (read_preface now s) in Hl. destruct (race _ _ _ _) as [|t|t] eqn:Hr; cbn [over_by].
  - apply race_finished in Hr as (t & Ht & Hle). rewrite Ht in Hl.
    destruct (read_preface now s) as [t' b s'|t'|]; cbn [preface_time over_by h_at h_first_by h_prefix] in *;
      [|injection Ht as ->; lia|done].
    injection Ht as ->. split; [lia|]. destruct (beq b H2_PREFACE) eqn:Hb; [by apply beq_true in Hb | lia].
  - apply (race_over now (now + first h) drain (preface_time (read_preface now s))); [lia | by left].
  - apply (race_over now (now + first h) drain (preface_time (read_preface now s))); [lia | by right].
Qed.

(** [rustls] does not end a handshake before it began. *)
Definition acceptor_ok (a : option Acceptor) : Prop :=
  match a with Some f => forall now s r, f now s = Some r -> now <= r.1 | None => True end.

Definition tls_time (a : option Acceptor) : Z := match a with Some _ => TLS_HANDSHAKE_TIMEOUT | None => 0 end.

Lemma wait_hello_over now rest s d drain : now <= d ->
  match wait_hello now rest s d drain with HelloReady t _ _ | HelloClosed t _ => now <= t <= d end.
Proof.
  intros Hd. unfold wait_hello. destruct (is_nil rest); cbn [negb]; [|lia].
  pose proof (poll_read_later 1024 now (Sock s)) as Hl. destruct (race _ _ _ _) as [|t|t] eqn:Hr.
  - apply race_finished in Hr as (t & Ht & Hle).
    destruct (poll_read 1024 now (Sock s)) as [t' [|x b] s'|t'|]; [..|done]; injection Ht as ->; lia.
  - exact (race_over now d drain _ t Hd (or_introl Hr)).
  - exact (race_over now d drain _ t Hd (or_intror Hr)).
Qed.

Lemma tls_stage_over (a : option Acceptor) now client peer rest s h drain : acceptor_ok a -> 0 <= first h ->
  over_by now (now + tls_time a + first h) (tls_stage a now client peer rest s (Some h) drain).1.
Proof.
  intros Ha Hf. destruct a as [f|]; cbn [tls_stage tls_time].
  2:{ cbn [fst]. eapply over_by_weaken; [..|by apply serve_connection_over]; lia. }
  set (d := now + TLS_HANDSHAKE_TIMEOUT). assert (Hd : now <= d) by (subst d; unfold TLS_HANDSHAKE_TIMEOUT; lia).
  pose proof (wait_hello_over now rest s d drain Hd) as Hw.
  destruct (wait_hello now rest s d drain) as [t r s'|t c]; cbn [fst]; [|cbn; lia].
  destruct (race t (Some d) drain _) as [|t'|t'] eqn:Hr.
  - apply race_finished in Hr as (t' & Ht & Hle). destruct (f t (Prefixed r 0 s')) as [[t1 res]|] eqn:Hs; [|done].
    pose proof (Ha _ _ _ Hs) as Hlate. cbn in Ht, Hlate. injection Ht as ->. destruct res as [[tls s1]|cert]; cbn [fst].
    + eapply over_by_weaken; [..|by apply serve_connection_over]; lia.
    + cbn. lia.
  - cbn. pose proof (race_over t d drain _ t' ltac:(lia) (or_introl Hr)). lia.
  - cbn. pose proof (race_over t d drain _ t' ltac:(lia) (or_intror Hr)). lia.
Qed.

Lemma read_until_within now k s d : now <= d -> Forall (fun r => r.1 <= d) s -> now <= read_until now k s <= d.
Proof.
  revert now s. induction k as [|k IH]; intros now s Hn Hs; [cbn; lia|].
  destruct s as [|[t r] s]; cbn; [lia|]. apply Forall_cons in Hs as [Ht Hs]. cbn in Ht.
  destruct (IH (Z.max now t) s); [lia | done | lia].
Qed.

Lemma in_time_within d s : Forall (fun r => r.1 <= d) (in_time d s).
Proof. induction s as [|r s IH]; cbn; [constructor|]. destruct (Z.leb_spec r.1 d); by constructor. Qed.

Lemma accept_by_within pp peer now d drain s : now <= d ->
  match accept_by pp peer now (horizon d drain) s with PAccepted _ t _ | PBroke _ t => now <= t <= d | PWaits => True end.
Proof.
  intros Hn. unfold accept_by. set (e := in_time _ _).
  assert (He : Forall (fun r => r.1 <= d) e).
  { eapply Forall_impl; [apply in_time_within|]. cbn. intros r. unfold horizon. destruct drain; lia. }
  destruct (accept pp (map snd e) peer); [by apply read_until_within..|done].
Qed.

(** The task up to [hyper]. *)
Lemma conn_task_over o (a : option Acceptor) peer accepted_at drain s limit :
  acceptor_ok a -> header_read_timeout o = Some limit -> 0 <= limit ->
  over_by accepted_at (accepted_at + limit + tls_time a) (conn_task o a peer accepted_at drain s).1.
Proof.
  intros Ha Ho Hl. unfold conn_task, heads_from. rewrite Ho. cbn [fmap option_fmap option_map default].
  destruct (proxy_protocol o) as [pp|].
  2:{ eapply over_by_weaken; [..|apply tls_stage_over; [done | cbn; lia]]; cbn; lia. }
  change (id limit) with limit. set (d := accepted_at + limit). pose proof (accept_by_within pp peer accepted_at d drain s ltac:(lia)) as Hb.
  assert (Ht : 0 <= tls_time a) by (destruct a; cbn; [unfold TLS_HANDSHAKE_TIMEOUT|]; lia).
  destruct (accept_by _ _ _ _ _) as [ac t s'|nr t|].
  - destruct (serves (outcome ac)); cbn [negb]; [|cbn; lia].
    pose proof (tls_stage_over a t (client ac) peer (rest ac) s'
      (mkHeadTimeouts limit (Z.max 0 (limit - (t - accepted_at)))) drain Ha ltac:(cbn; lia)) as Hst.
    destruct (tls_stage _ _ _ _ _ _ _ _) as [f c]. cbn in *. eapply over_by_weaken; [..|exact Hst]; lia.
  - cbn. lia.
  - destruct (race accepted_at (Some d) drain None) as [|t|t] eqn:Hr; cbn [fst over_by]; [subst d; lia..|].
    pose proof (race_over accepted_at d drain None t ltac:(lia) (or_intror Hr)). subst d. lia.
Qed.

(** What [hyper] documents of [header_read_timeout]: a connection on which no request head is complete is closed once
    the timeout has passed since it began to read one, also while it shuts down. *)
Definition times_out_heads (hyper : Handed Tls -> Hyper) : Prop :=
  forall h each t, h_each h = Some each -> first_head_at (hyper h) = None ->
    exists e, ends_after (hyper h) t = Some e /\ e <= Z.max t (h_at h + each).

Lemma conn_task_each o (a : option Acceptor) peer accepted_at drain s limit h : header_read_timeout o = Some limit ->
  (conn_task o a peer accepted_at drain s).1 = ToHyper h -> h_each h = Some limit.
Proof.
  intros Ho. unfold conn_task, heads_from. rewrite Ho. cbn [fmap option_fmap option_map default].
  assert (Hc : forall now st cl pr hd tls, each hd = limit -> serve_connection (Tls := Tls) now st cl pr (Some hd) tls drain = ToHyper h -> h_each h = Some limit).
  { intros now st cl pr hd tls He. unfold serve_connection. repeat (case_match; try done); intros [= <-]; cbn; by rewrite He. }
  assert (Hs : forall now cl rs st hd, each hd = limit -> (tls_stage a now cl peer rs st (Some hd) drain).1 = ToHyper h -> h_each h = Some limit).
  { intros now cl rs st hd He. unfold tls_stage. repeat (case_match; try done); cbn; by apply Hc. }
  destruct (proxy_protocol o) as [pp|]; [|by apply Hs]. change (id limit) with limit.
  destruct (accept_by _ _ _ _ _) as [ac t s'|nr t|]; [|done|by destruct (race _ _ _ _)].
  destruct (serves (outcome ac)); cbn [negb]; [|done].
  specialize (Hs t (client ac) (rest ac) s' (mkHeadTimeouts limit (Z.max 0 (limit - (t - accepted_at)))) eq_refl).
  destruct (tls_stage _ _ _ _ _ _ _ _) as [f c]. exact Hs.
Qed.

(** C6.  A client that never completes a request head, however it drips its PROXY header, its first byte or the head, is
    closed after one [header_read_timeout] from accept, and on a TLS listener at most the ten seconds of the handshake
    more.  If a drain begins after [hyper] has the connection and before that deadline, the deadline no longer runs and
    [hyper]'s own timeout closes it, at most one more [header_read_timeout] later.  Only a connection that has sent the
    whole HTTP/2 preface has no deadline. *)
Theorem slow_client_closed o (a : option Acceptor) (hyper : Handed Tls -> Hyper) peer accepted_at drain s limit :
  acceptor_ok a -> times_out_heads hyper -> header_read_timeout o = Some limit -> 0 <= limit ->
  (forall h, (conn_task o a peer accepted_at drain s).1 = ToHyper h -> h_prefix h <> H2_PREFACE /\ first_head_at (hyper h) = None) ->
  exists t, closed_at o a hyper peer accepted_at drain s = Some t
  /\ (t <= accepted_at + limit + tls_time a
      \/ exists d h, drain = Some d /\ (conn_task o a peer accepted_at drain s).1 = ToHyper h /\ d < accepted_at + limit + tls_time a
                     /\ t <= h_at h + limit).
Proof.
  intros Ha Hx Ho Hl Hhead. pose proof (conn_task_over o a peer accepted_at drain s limit Ha Ho Hl) as Hov.
  pose proof (fun h => conn_task_each o a peer accepted_at drain s limit h Ho) as Heach.
  unfold closed_at. destruct (conn_task o a peer accepted_at drain s).1 as [t|h] eqn:E; [exists t; split; [done | left; cbn in Hov; lia]|].
  destruct (Hhead h eq_refl) as [Hp Hn]. destruct Hov as [Hat Hby]. unfold hyper_stage, first_head_late.
  destruct (h_first_by h) as [by_|]; [|done]. rewrite Hn.
  destruct (race (h_at h) (Some by_) drain (ends_at (hyper h))) as [|t|t] eqn:Hr.
  - apply race_finished in Hr as (t & Ht & Hle). exists t. split; [done | left; lia].
  - exists t. split; [done|]. left. revert Hr. unfold race, cut. repeat (case_match; try done); intros [= <-]; lia.
  - destruct (Hx h limit t (Heach h eq_refl) Hn) as (e & He & Hle). exists e. split; [done|].
    assert (Hd : exists d, drain = Some d /\ d < by_ /\ t = Z.max (h_at h) d).
    { revert Hr. unfold race, cut. destruct drain as [d|]; [|by repeat (case_match; try done)]. destruct (Z.ltb_spec d by_); [|by repeat (case_match; try done)].
      intros Hr. exists d. split_and!; [done | done |]. by repeat (case_match; try done); injection Hr. }
    destruct Hd as (d & -> & Hd & ->). destruct (Z.le_gt_cases (h_at h + limit) (Z.max (h_at h) d)); [left; lia | right; exists d, h; split_and!; [done | done | lia | lia]].
Qed.
End Held.

(** ** What is read of a connection is what was sent on it *)

(** The bytes still to come, up to the end of the stream or its failure. *)
Fixpoint remaining (io : list Read) : bytes :=
  match io with
  | Chunk (x :: c) :: io => (x :: c) ++ remaining io
  | _ => []
  end.

Fixpoint contents (s : Stream) : bytes :=
  match s with
  | Sock s => remaining (map snd s)
  | Prefixed p pos s => drop pos p ++ contents s
  end.

Definition some_bytes (r : Read) : Prop := match r with Chunk (_ :: _) => True | _ => False end.

Lemma remaining_app pre io : Forall some_bytes pre -> remaining (pre ++ io) = sent pre ++ remaining io.
Proof.
  induction 1 as [|r pre Hr _ IH]; [done|]. destruct r as [[|x c]|]; try done. cbn [app remaining]. rewrite IH.
  unfold sent. cbn [map concat]. by rewrite <- !app_assoc.
Qed.

Lemma poll_read_contents cap now s t b s' : (0 < cap)%nat -> poll_read cap now s = Got t b s' ->
  contents s = b ++ contents s'.
Proof.
  intros Hc. revert t b s'. induction s as [[|[u [c|]] s]|p pos s IH]; cbn [poll_read]; intros t b s'; try done.
  - destruct c as [|x c]; [intros [= <- <- <-]; destruct cap; [lia | done]|]. intros [= <- <- <-]. cbn [is_nil].
    cbn [contents map snd remaining].
    destruct (drop cap (x :: c)) as [|y d] eqn:Hd; cbn [is_nil map snd remaining].
    + rewrite <- (take_drop cap (x :: c)) at 1. by rewrite Hd, app_nil_r.
    + rewrite app_assoc, <- Hd, take_drop. done.
  - cbn [contents]. destruct (Nat.ltb_spec pos (length p)) as [Hlt|Hge].
    + intros [= <- <- <-]. set (n := Nat.min _ cap).
      assert (Hs : drop pos p = take n (drop pos p) ++ drop (pos + n) p).
      { rewrite <- drop_drop. symmetry. apply take_drop. }
      destruct (Nat.eqb_spec (pos + n) (length p)) as [He|]; cbn [contents]; rewrite app_assoc.
      * f_equal. rewrite Hs at 1. rewrite He, drop_all, app_nil_r. by rewrite drop_nil, app_nil_r.
      * by rewrite <- Hs.
    + destruct (poll_read cap now s) as [t0 b0 s0| |]; [|done..]. intros [= <- <- <-].
      rewrite (IH t0 b0 s0 eq_refl). cbn [contents]. by rewrite drop_ge by done.
Qed.

Lemma read_preface_contents fuel now buf s t b s' : (length buf <= length H2_PREFACE)%nat ->
  read_preface_go fuel now buf s = PrefaceRead t b s' -> buf ++ contents s = b ++ contents s'.
Proof.
  revert now buf s. induction fuel as [|fuel IH]; intros now buf s Hl; cbn [read_preface_go]; [by intros [= _ <- <-]|].
  destruct (Nat.ltb_spec (length buf) (length H2_PREFACE)) as [Hlt|]; [|by intros [= _ <- <-]].
  destruct (poll_read _ now s) as [t0 [|x c] s0| |] eqn:Hp; try done.
  apply poll_read_contents in Hp; [|lia]. rewrite Hp, app_assoc. destruct (beq _ _) eqn:Hb.
  - apply beq_true in Hb. apply IH. rewrite length_app, Hb, length_take, length_drop. lia.
  - by intros [= _ <- <-].
Qed.

Section Bytes.
Context {Tls : Type}.
Abbreviation Acceptor := (Z -> Stream -> option (Z * (Tls * Stream + bool))).

Lemma serve_connection_contents now s client peer heads (tls : option Tls) drain h :
  serve_connection now s client peer heads tls drain = ToHyper h ->
  contents (h_stream h) = contents s /\ h_client h = client /\ h_peer h = peer.
Proof.
  unfold serve_connection. destruct heads as [hd|]; [|by intros [= <-]].
  destruct (race _ _ _ _); [|done..]. destruct (read_preface now s) as [t b s'| |] eqn:Hp; [|done..].
  intros [= <-]. cbn [h_stream h_client h_peer contents]. rewrite drop_0. split; [|done].
  symmetry. apply (read_preface_contents (length H2_PREFACE) now [] s t b s'); [cbn; lia | done].
Qed.

Lemma wait_hello_contents now rest s d drain t r s' : wait_hello now rest s d drain = HelloReady t r s' ->
  rest ++ remaining (map snd s) = r ++ contents s'.
Proof.
  unfold wait_hello. destruct rest as [|x rest]; cbn [is_nil negb]; [|by intros [= _ <- <-]].
  destruct (race _ _ _ _); [|done..]. destruct (poll_read 1024 now (Sock s)) as [u [|x b] s0| |] eqn:Hp; [done| |done..].
  intros [= <- <- <-]. cbn [app]. apply (poll_read_contents 1024 now (Sock s)) in Hp; [done | lia].
Qed.

(** What reads the connection after the PROXY header: [hyper], or [rustls] and [hyper] inside it. *)
Definition reads (a : option Acceptor) (h : Handed Tls) (b : bytes) : Prop :=
  match a with
  | None => contents (h_stream h) = b
  | Some f => exists now s t tls inner, f now s = Some (t, inl (tls, inner)) /\ contents s = b
                /\ contents (h_stream h) = contents inner
  end.

Lemma tls_stage_contents (a : option Acceptor) now client peer rest s heads drain h c :
  tls_stage a now client peer rest s heads drain = (ToHyper h, c) ->
  reads a h (rest ++ remaining (map snd s)) /\ h_client h = client /\ h_peer h = peer.
Proof.
  destruct a as [f|]; cbn [tls_stage reads].
  - destruct (wait_hello _ _ _ _ _) as [t r s'|] eqn:Hw; [|done]. apply wait_hello_contents in Hw.
    destruct (race _ _ _ _); [|done..]. destruct (f t (Prefixed r 0 s')) as [[t' [[tls inner]|cert]]|] eqn:Hf; [|done..].
    destruct (serve_connection _ _ _ _ _ _ _) as [|h0] eqn:Hs; [done|]. intros [= <- <-].
    apply serve_connection_contents in Hs as (Hc & Hcl & Hp). split; [|done].
    exists t, (Prefixed r 0 s'), t', tls, inner. by rewrite Hw.
  - destruct (serve_connection _ _ _ _ _ _ _) as [|h0] eqn:Hs; [done|]. intros [= <- <-].
    by apply serve_connection_contents in Hs.
Qed.
End Bytes.

(** *** Through the PROXY header *)

Lemma pieces_ok fuel cap c : (0 < cap)%nat -> c <> [] ->
  concat (pieces fuel cap c) = c /\ Forall (fun p => p <> []) (pieces fuel cap c).
Proof.
  intros Hcap. revert c. induction fuel as [|fuel IH]; intros c Hc; cbn [pieces]; [cbn; rewrite app_nil_r; by repeat constructor|].
  destruct (Nat.leb_spec (length c) cap); [cbn; rewrite app_nil_r; by repeat constructor|].
  destruct (IH (drop cap c)) as [H1 H2].
  { intros Hd%(f_equal length). rewrite length_drop in Hd. cbn in Hd. lia. }
  cbn [concat]. rewrite H1, take_drop. split; [done|]. constructor; [|done].
  intros Hd%(f_equal length). rewrite length_take in Hd. cbn in Hd. lia.
Qed.

Lemma remaining_segments cap s : (0 < cap)%nat -> remaining (map snd (segments cap s)) = remaining (map snd s).
Proof.
  intros Hcap. unfold segments. induction s as [|[t [[|x c]|]] s IH]; [done|..]; cbn [map snd concat remaining]; try done.
  destruct (pieces_ok (length (x :: c)) cap (x :: c) Hcap) as [H1 H2]; [done|].
  rewrite map_app, map_map. cbn [snd]. rewrite remaining_app.
  - rewrite IH. f_equal. unfold sent. rewrite map_map. by rewrite map_id.
  - apply Forall_map. eapply Forall_impl; [exact H2|]. by intros [|y p].
Qed.

(** What the reader of the header took: the end of an empty stream, or a header and the bytes after it. *)
Lemma read_go_split io buf h r u : read_go buf io = Read_ok h r u -> is_invalid h = false ->
  exists pre, io = pre ++ u /\
    ((buf = [] /\ pre = [Chunk []] /\ h = HNone /\ r = [])
     \/ (Forall some_bytes pre /\ exists header, buf ++ sent pre = header ++ r
           /\ (h = HNone -> header = []) /\ (h <> HNone -> parse_buf (header ++ r) = Done h (length header)))).
Proof.
  revert buf. induction io as [|rd io IH]; intros buf; cbn [read_go]; destruct (parse_buf buf) as [h' used| |] eqn:Hp;
    try (intros [= <- <- <-] Hi; exists []; split; [done|]; right; split; [constructor|];
         first [ exists (take used buf); rewrite app_nil_r, take_drop; split; [done|];
                   split; [intros ->; by apply parse_buf_never_none in Hp|]; intros _;
                   pose proof (parse_buf_used _ _ _ Hp); rewrite length_take, Nat.min_l by lia; exact Hp
               | exists []; cbn; rewrite app_nil_r; done ]); try done.
  destruct rd as [[|x c]|]; [|intros Hr Hi|done].
  - intros [= <- <- <-]. destruct buf; [|done]. intros _. exists [Chunk []]. split; [done|]. by left.
  - destruct (IH (buf ++ x :: c) Hr Hi) as (pre & -> & [(Hb & _)|(Hpre & header & Hs & H1 & H2)]).
    { by destruct buf. }
    exists (Chunk (x :: c) :: pre). split; [done|]. right. split; [by constructor|].
    exists header. split; [|done]. rewrite <- Hs. unfold sent. cbn [map concat]. by rewrite <- app_assoc.
Qed.

Lemma in_time_prefix d s : exists late, s = in_time d s ++ late.
Proof.
  induction s as [|r s [late IH]]; [by exists []|]. cbn. destruct (r.1 <=? d); [|by exists (r :: s)].
  exists late. cbn. by rewrite <- IH.
Qed.

Lemma reread_contents pre s : Forall some_bytes pre -> map snd (take (length pre) s) = pre ->
  remaining (map snd s) = sent pre ++ remaining (map snd (reread (length pre) s)).
Proof.
  intros Hpre Ht. assert (Hr : reread (length pre) s = drop (length pre) s).
  { unfold reread. destruct (length pre) as [|k] eqn:Hk; [done|]. destruct (s !! k) as [[t [[|x c]|]]|] eqn:Hl; try done.
    exfalso. assert (Hin : pre !! k = Some (Chunk [])).
    { rewrite <- Ht, list_lookup_fmap. rewrite lookup_take_lt by lia. by rewrite Hl. }
    eapply Forall_lookup_1 in Hpre; [|exact Hin]. done. }
  rewrite Hr. rewrite <- (take_drop (length pre) s) at 1. rewrite map_app, Ht. by apply remaining_app.
Qed.

(** The header a served connection began with, and what it says. *)
Definition header_of (pp : ProxyProtocol) (peer : SocketAddr) (a : Accepted) (header rest : bytes) : Prop :=
  (header = [] /\ client a = peer)
  \/ (trusts pp (sa_ip peer) = true
      /\ (parse_buf (header ++ rest) = Done (HProxy (client a)) (length header)
          \/ parse_buf (header ++ rest) = Done HLocal (length header) /\ client a = peer)).

Lemma accept_by_contents pp peer now hz s a t s' : accept_by pp peer now hz s = PAccepted a t s' ->
  serves (outcome a) = true -> exists header, remaining (map snd s) = header ++ rest a ++ remaining (map snd s')
    /\ header_of pp peer a header (rest a).
Proof.
  unfold accept_by. set (seg := segments 512 s). set (early := in_time hz seg). unfold accept, read_header.
  destruct (read_go [] (map snd early)) as [h r u| |] eqn:Hr; [|done..]. intros [= <- <- <-] Hserves.
  assert (Hi : is_invalid h = false).
  { destruct h; [done..|]. revert Hserves. by destruct (trusts pp (sa_ip peer)). }
  destruct (read_go_split _ _ _ _ _ Hr Hi) as (pre & Hmap & Hcase).
  assert (Hk : (length early - length u)%nat = length pre).
  { apply (f_equal length) in Hmap. rewrite length_map, length_app in Hmap. lia. }
  rewrite Hk. destruct (in_time_prefix hz seg) as [late Hlate]. fold early in Hlate.
  assert (Ht : map snd (take (length pre) seg) = pre).
  { rewrite Hlate, take_app_le by (apply (f_equal length) in Hmap; rewrite length_map, length_app in Hmap; lia).
    rewrite <- firstn_map, Hmap. apply take_app_length. }
  rewrite <- (remaining_segments 512 s) by lia. fold seg.
  destruct Hcase as [(_ & -> & -> & ->)|(Hpre & header & Hs & Hn & Hp)].
  - exists []. destruct seg as [|[t0 r0] seg']; [done|]. cbn in Ht. injection Ht as ->.
    cbn [length reread lookup list_lookup map snd remaining drop app].
    split; [by destruct (trusts pp (sa_ip peer) && expect_header pp)|]. left. split; [done|].
    by destruct (trusts pp (sa_ip peer) && expect_header pp).
  - exists header. rewrite (reread_contents pre seg Hpre Ht). cbn [app] in Hs. rewrite Hs.
    destruct h as [| |c|m]; [| | |done].
    + rewrite (Hn eq_refl). cbn [rest client]. split; [by rewrite <- app_assoc|]. by left.
    + destruct (trusts pp (sa_ip peer)) eqn:Htr; cbn [negb] in *; [|done]. cbn [rest client].
      split; [by rewrite <- app_assoc|]. right. split; [done|]. right. split; [by apply Hp | done].
    + destruct (trusts pp (sa_ip peer)) eqn:Htr; cbn [negb] in *; [|done]. cbn [rest client].
      split; [by rewrite <- app_assoc|]. right. split; [done|]. left. by apply Hp.
Qed.

(** C15.  Every byte a peer sends reaches the server once and in order, whatever was read early to tell a PROXY
    header, a TLS handshake or HTTP/2 apart, and however the network cuts it: what [hyper] reads (inside TLS,
    what [rustls] reads) is what the peer sent, less the PROXY header of a trusted one; and the client served
    is the peer, or the one that header names. *)
Theorem first_bytes_replayed {Tls} o (a : option (Z -> Stream -> option (Z * (Tls * Stream + bool)))) peer accepted_at
    drain s h cs : conn_task o a peer accepted_at drain s = (ToHyper h, cs) ->
  h_peer h = peer
  /\ exists header tail, remaining (map snd s) = header ++ tail /\ reads a h tail
     /\ match proxy_protocol o with
        | None => header = [] /\ h_client h = peer
        | Some pp => exists ac more, client ac = h_client h /\ tail = rest ac ++ more /\ header_of pp peer ac header (rest ac)
        end.
Proof.
  unfold conn_task. destruct (proxy_protocol o) as [pp|].
  - destruct (accept_by _ _ _ _ _) as [ac t s'| |] eqn:Ha; [|done|by destruct (race _ _ _ _)].
    destruct (serves (outcome ac)) eqn:Hs; cbn [negb]; [|done].
    destruct (tls_stage _ _ _ _ _ _ _ _) as [f c] eqn:Ht. intros [= -> <-].
    apply tls_stage_contents in Ht as (Hr & Hc & Hp). split; [done|].
    destruct (accept_by_contents _ _ _ _ _ _ _ _ Ha Hs) as (header & Hrem & Hh).
    exists header, (rest ac ++ remaining (map snd s')). split; [done|]. split; [done|]. exists ac. eexists. done.
  - intros (Hr & Hc & Hp) % tls_stage_contents. split; [done|]. exists [], (remaining (map snd s)). done.
Qed.

(** ** What is counted of a connection *)

Definition handshake_count (c : Count) : bool := match c with ProxySeen _ => false | _ => true end.

Section Counted.
Context {Tls : Type}.
Abbreviation Acceptor := (Z -> Stream -> option (Z * (Tls * Stream + bool))).

Definition served (f : Fate Tls) : bool := match f with ToHyper _ => true | Closed _ => false end.

Lemma tls_stage_counted (f : Acceptor) now client peer rest s heads :
  exists c, (tls_stage (Some f) now client peer rest s heads None).2 = [c] /\ handshake_count c = true
    /\ (served (tls_stage (Some f) now client peer rest s heads None).1 = true -> c = TlsSucceeded)
    /\ (forall reason, c = TlsFailed reason -> reason ∈ TLS_FAILURE_REASONS).
Proof.
  cbn [tls_stage].
  assert (Hin : forall b : bool, (if b then lit "client_cert" else lit "other") ∈ TLS_FAILURE_REASONS).
  { intros b. unfold TLS_FAILURE_REASONS. destruct b; set_solver. }
  assert (Hto : lit "timeout" ∈ TLS_FAILURE_REASONS) by (unfold TLS_FAILURE_REASONS; set_solver).
  destruct (wait_hello _ _ _ _ _) as [t r s'|t c] eqn:Hw.
  - destruct (race _ _ _ _) as [|t'|t'] eqn:Hr.
    + apply race_finished in Hr as (t' & Ht & _). destruct (f t (Prefixed r 0 s')) as [[t1 [[tls inner]|cert]]|]; [..|done].
      * exists TlsSucceeded. by split_and!.
      * eexists. split_and!; [done|done|done|]. intros reason [= <-]. apply Hin.
    + eexists. split_and!; [done|done|done|]. by intros reason [= <-].
    + revert Hr. unfold race, cut. destruct (fst <$> _) as [u|]; [by destruct (_ && _)|done].
  - unfold wait_hello in Hw. destruct (is_nil rest); [|done]. cbn [negb] in Hw.
    destruct (race _ _ _ _) as [|t'|t'] eqn:Hr.
    + apply race_finished in Hr as (t' & Ht & _).
      destruct (poll_read 1024 now (Sock s)) as [u [|x b] s0|u|]; [|done| |done]; injection Hw as <- <-;
        exists NoClientHello; by split_and!.
    + injection Hw as <- <-. eexists. split_and!; [done|done|done|]. by intros reason [= <-].
    + revert Hr. unfold race, cut. destruct (match poll_read _ _ _ with Got _ _ _ => _ | Broke _ => _ | Silent => _ end) as [u|];
        [by destruct (_ && _)|done].
Qed.

(** Outside a drain, a connection to a TLS listener that its PROXY header does not stop is counted once:
    as a handshake that succeeded if and only if it is served, as one that failed for a reason that has its
    counter, or as no handshake at all. *)
Theorem handshakes_counted_once o (f : Acceptor) peer accepted_at s : proxy_protocol o = None ->
  exists c, (conn_task o (Some f) peer accepted_at None s).2 = [c] /\ handshake_count c = true
    /\ (served (conn_task o (Some f) peer accepted_at None s).1 = true -> c = TlsSucceeded)
    /\ (forall reason, c = TlsFailed reason ->
         forall st, tls_failures (apply_count st c) = bump_known TLS_FAILURE_REASONS reason (tls_failures st)
                    /\ is_Some (position TLS_FAILURE_REASONS reason)).
Proof.
  intros Ho. unfold conn_task. rewrite Ho. destruct (tls_stage_counted f accepted_at peer peer [] s
    (heads_from o accepted_at accepted_at)) as (c & H1 & H2 & H3 & H4).
  exists c. split_and!; [done..|]. intros reason Hc st. split; [by subst c|].
  specialize (H4 reason Hc). unfold position. apply fmap_is_Some.
  by eapply list_find_elem_of.
Qed.
End Counted.

(** ** Witnesses *)

Definition sample_peer : SocketAddr := mkSocketAddr (V4 167772161) 40000.
Definition sample_pp : ProxyProtocol := mkProxyProtocol [] true.
Definition sample_opts (pp : option ProxyProtocol) : ServeOpts := mkServeOpts (Some 5000) 0 0 0 pp.

(** A handshake that takes as long as there are bytes to it, and decrypts to the same stream. *)
Definition sample_acceptor (now : Z) (s : Stream) : option (Z * (unit * Stream + bool)) := Some (now + 10, inl (tt, s)).

(** A byte a second of a request head that never ends. *)
Definition sample_drip : Socket := [(1000, Chunk (lit "P")); (2000, Chunk (lit "R")); (3000, Chunk (lit "I"))].

Lemma slow_client_closed_witness :
  let hyper (h : Handed unit) := mkHyper None None (fun t => Some (Z.max t (h_at h + default 0 (h_each h)))) in
  exists t, closed_at (sample_opts None) None hyper sample_peer 0 None [(10, Chunk (lit "G")); (4000, Chunk (lit "E"))] = Some t
  /\ (t <= 0 + 5000 + 0 \/ exists d h, None = Some d /\ (conn_task (Tls := unit) (sample_opts None) None sample_peer 0 None [(10, Chunk (lit "G")); (4000, Chunk (lit "E"))]).1 = ToHyper h
                           /\ d < 0 + 5000 + 0 /\ t <= h_at h + 5000).
Proof.
  intros hyper. apply (slow_client_closed (sample_opts None) None hyper sample_peer 0 None [(10, Chunk (lit "G")); (4000, Chunk (lit "E"))] 5000).
  - exact I.
  - intros h e t He _. exists (Z.max t (h_at h + e)). split; [unfold hyper; cbn; by rewrite He | lia].
  - reflexivity.
  - lia.
  - intros h Hh. split; [|reflexivity]. vm_compute in Hh. injection Hh as <-. vm_compute. discriminate.
Defined.

(** The head is still dripping when its time is up: closed at 5000, although bytes keep coming. *)
Example dripped_head_closed :
  closed_at (Tls := unit) (sample_opts None) None (fun h => mkHyper None None (fun t => Some t)) sample_peer 0 None [(10, Chunk (lit "G")); (4000, Chunk (lit "E")); (8000, Chunk (lit "T"))]
  = Some 5000.
Proof. vm_compute. reflexivity. Qed.

(** A request that arrives in pieces smaller and larger than what is read of it at first. *)
Definition sample_request : Socket :=
  [(10, Chunk (lit "PRI")); (20, Chunk (lit "SM HTTP/1.1 and then much more than a preface")); (30, Chunk [])].

Lemma first_bytes_replayed_witness : exists h cs,
  conn_task (Tls := unit) (sample_opts (Some sample_pp)) None sample_peer 0 None sample_request = (ToHyper h, cs)
  /\ h_client h = sample_peer
  /\ exists header tail, remaining (map snd sample_request) = header ++ tail /\ contents (h_stream h) = tail.
Proof.
  destruct (conn_task (Tls := unit) (sample_opts (Some sample_pp)) None sample_peer 0 None sample_request) as [[t|h] cs] eqn:Hc;
    [vm_compute in Hc; discriminate Hc|].
  exists h, cs. split; [reflexivity|]. split; [vm_compute in Hc; injection Hc as <- <-; reflexivity|].
  destruct (first_bytes_replayed (sample_opts (Some sample_pp)) None sample_peer 0 None sample_request h cs Hc)
    as (_ & header & tail & Hr & Ht & _).
  exists header, tail. split; [exact Hr | exact Ht].
Defined.

Lemma handshakes_counted_once_witness : exists c,
  (conn_task (Tls := unit) (sample_opts None) (Some sample_acceptor) sample_peer 0 None [(5, Chunk [])]).2 = [c] /\ c = NoClientHello.
Proof.
  destruct (handshakes_counted_once (sample_opts None) sample_acceptor sample_peer 0 [(5, Chunk [])] eq_refl)
    as (c & Hc & _). exists c. split; [exact Hc|]. vm_compute in Hc. injection Hc as <-. reflexivity.
Defined.
