(* ===== verification/UnknownKeys.v ===== *)
(** * UnknownKeys: misspelt configuration keys ([src/src/unknown_keys.rs])

    Which keys of a file the parser ignores is found by replaying the parser ([walk], of [serde]'s derived
    code, is a parameter) and asking for each whether it was read with its type; this file is what is made
    of its report, and the suggestions: an edit distance by a table, and the neighbours one edit away.
    Strings here are lists of characters. *)

From S2P Require Import Prelude Text Net.

(** ** Edit distance *)

Definition cell (d : list (list nat)) (i j : nat) : nat := default 0%nat (d !! i ≫= (.!! j)).
Definition set_cell (i j v : nat) (d : list (list nat)) : list (list nat) := alter (<[j := v]>) i d.

(** [a[i]] within bounds. *)
Definition char_at (a : list Z) (i : nat) : Z := nth i a 0.

(** The body of the inner loop. *)
Definition fill (a b : list Z) (i : nat) (d : list (list nat)) (j : nat) : list (list nat) :=
  let cost := if char_at a (i - 1) =? char_at b (j - 1) then 0%nat else 1%nat in
  let d := set_cell i j (Nat.min (Nat.min (cell d (i - 1) j + 1) (cell d i (j - 1) + 1)) (cell d (i - 1) (j - 1) + cost)) d in
  if (1 <? i)%nat && (1 <? j)%nat && (char_at a (i - 1) =? char_at b (j - 2)) && (char_at a (i - 2) =? char_at b (j - 1))
  then set_cell i j (Nat.min (cell d i j) (cell d (i - 2) (j - 2) + 1)) d else d.

Definition fill_row (a b : list Z) (d : list (list nat)) (i : nat) : list (list nat) :=
  foldl (fill a b i) d (seq 1 (length b)).

(** The table before the loops: the first column, then the first row. *)
Definition table_new (a b : list Z) : list (list nat) :=
  let d := replicate (length a + 1) (replicate (length b + 1) 0%nat) in
  let d := imap (fun i row => <[0%nat := i]> row) d in
  alter (imap (fun j _ => j)) 0%nat d.

Definition distance (a b : list Z) : nat :=
  cell (foldl (fill_row a b) (table_new a b) (seq 1 (length a))) (length a) (length b).

(** The candidate closest to [key] within a typo's distance. *)
Definition limit (key : list Z) : nat :=
  if (length key <=? 4)%nat then 1%nat else if (length key <=? 8)%nat then 2%nat else 3%nat.

(** [Iterator::min_by_key]: the first of the least. *)
Fixpoint min_by_distance (best : nat * list Z) (cs : list (nat * list Z)) : nat * list Z :=
  match cs with
  | [] => best
  | c :: cs => min_by_distance (if (c.1 <? best.1)%nat then c else best) cs
  end.

Definition closest (key : list Z) (candidates : list (list Z)) : option (list Z) :=
  match List.filter (fun c => (c.1 <=? limit key)%nat) (map (fun c => (distance key c, c)) candidates) with
  | [] => None
  | c :: cs => Some (min_by_distance c cs).2
  end.

(** ** Neighbours *)

Definition ALPHABET : list Z := lit "abcdefghijklmnopqrstuvwxyz0123456789_".

Definition remove_at (i : nat) (c : list Z) : list Z := take i c ++ drop (S i) c.
Definition insert_at (i : nat) (x : Z) (c : list Z) : list Z := take i c ++ x :: drop i c.
Definition swap_at (i : nat) (c : list Z) : list Z :=
  take i c ++ char_at c (S i) :: char_at c i :: drop (i + 2) c.

Definition edits1 (key : list Z) : list (list Z) :=
  let n := length key in
  let out := map (fun i => remove_at i key) (seq 0 n)
    ++ map (fun i => swap_at i key) (seq 0 (n - 1))
    ++ concat (map (fun i => map (fun a => <[i := a]> key) ALPHABET) (seq 0 n))
    ++ concat (map (fun i => map (fun a => insert_at i a key) ALPHABET) (seq 0 (n + 1))) in
  dedup (List.filter (fun s => negb (bool_decide (s = [])) && negb (bool_decide (s = key))) out).

(** ** The report *)

(** A TOML value; a table's keys are in order. *)
Inductive Value : Type :=
| VScalar (s : bytes)                                   (** a string, number, boolean or date *)
| VArray (items : list Value)
| VTable (entries : list (bytes * Value)).

Inductive Seg : Type := SKey (k : bytes) | SIndex (i : nat).

#[global] Instance Seg_eq_dec : EqDecision Seg.
Proof. solve_decision. Defined.

Abbreviation Path := (list Seg).

(** [join], from what is written so far. *)
Fixpoint join_go (s : bytes) (table : Path) (key : bytes) : bytes :=
  match table with
  | SKey k :: table => join_go ((if bool_decide (s = []) then s else s ++ [46]) ++ k) table key
  | SIndex i :: table => join_go (s ++ [91] ++ dec (Z.of_nat i) ++ [93]) table key
  | [] => (if bool_decide (s = []) then s else s ++ [46]) ++ key
  end.

Definition join (table : Path) (key : bytes) : bytes := join_go [] table key.

Inductive Used : Type := UNo | UTyped | UUntyped.

#[global] Instance Used_eq_dec : EqDecision Used.
Proof. solve_decision. Defined.

(** Struct tables: where, the field names, the keys of the file; entries of flattening tables, with how each
    was read. *)
Record Report : Type := mkReport {
  structs : list (Path * list bytes * list bytes); maps : list (Path * bytes * Used)
}.

Definition get_key (k : bytes) (t : list (bytes * Value)) : option Value :=
  snd <$> List.find (fun '(q, _) => bool_decide (q = k)) t.

(** [lookup]: the table at a path. *)
Fixpoint lookup_table (v : Value) (path : Path) : option (list (bytes * Value)) :=
  match path, v with
  | [], VTable t => Some t
  | SKey k :: path, VTable t => v ← get_key k t; lookup_table v path
  | SIndex i :: path, VArray items => v ← items !! i; lookup_table v path
  | _, _ => None
  end.

(** [lookup_mut], with what is then done to the table. *)
Fixpoint update_table (f : list (bytes * Value) -> option (list (bytes * Value))) (v : Value) (path : Path) : option Value :=
  match path, v with
  | [], VTable t => VTable <$> f t
  | SKey k :: path, VTable t =>
      v ← get_key k t; w ← update_table f v path;
      Some (VTable (map (fun '(q, u) => if bool_decide (q = k) then (q, w) else (q, u)) t))
  | SIndex i :: path, VArray items =>
      v ← items !! i; w ← update_table f v path; Some (VArray (<[i := w]> items))
  | _, _ => None
  end.

(** Keys are compared as bytes are. *)
Fixpoint key_ltb (a b : bytes) : bool :=
  match a, b with
  | x :: a, y :: b => (x <? y) || ((x =? y) && key_ltb a b)
  | [], _ :: _ => true
  | _, [] => false
  end.

Fixpoint table_insert (k : bytes) (v : Value) (t : list (bytes * Value)) : list (bytes * Value) :=
  match t with
  | (q, u) :: t => if bool_decide (q = k) then (k, v) :: t
                   else if key_ltb k q then (k, v) :: (q, u) :: t else (q, u) :: table_insert k v t
  | [] => [(k, v)]
  end.

Definition table_remove (k : bytes) (t : list (bytes * Value)) : list (bytes * Value) :=
  List.filter (fun '(q, _) => negb (bool_decide (q = k))) t.

Section Check.
(** [serde]'s derived code replayed over a value; [None] when it refuses it. *)
Variable walk : Value -> option Report.
(** [toml]'s parser, the real parse of the file, and [OutboundCfg]'s fields as [serde] names them. *)
Variables (parse : bytes -> option Value) (accepts : bytes -> bool) (outbound : list bytes).
(** A key's characters. *)
Variables (chars : bytes -> list Z) (string : list Z -> bytes).

Definition SUGGESTION_REPLAYS : nat := 2000.
Definition SUGGESTION_SEARCHES : nat := 10.

Definition reads_typed (r : Report) (table : Path) (name : bytes) : bool :=
  existsb (fun '(t, k, u) => bool_decide (t = table) && bool_decide (k = name) && bool_decide (u = UTyped)) (maps r).

(** [typed_among], with the replays left. *)
Definition typed_among (root : Value) (table : Path) (key : bytes) (names : list bytes) (replays : nat)
    : option (list bytes) * nat :=
  match replays with
  | O => (None, O)
  | S replays =>
      (renamed ← update_table (fun t => value ← get_key key t;
           Some (foldl (fun t name => table_insert name value t) (table_remove key t) names)) root table;
       report ← walk renamed;
       Some (List.filter (reads_typed report table) names), replays)
  end.

(** [candidates.into_iter().find(..)]. *)
Fixpoint find_typed (root : Value) (table : Path) (key : bytes) (cs : list bytes) (replays : nat) : option bytes * nat :=
  match cs with
  | [] => (None, replays)
  | c :: cs =>
      let '(typed, replays) := typed_among root table key [c] replays in
      match typed with
      | Some (_ :: _) => (Some c, replays)
      | _ => find_typed root table key cs replays
      end
  end.

Definition candidates (root : Value) (table : Path) (key : bytes) : list bytes :=
  let taken := map fst (default [] (lookup_table root table)) in
  List.filter (fun c => negb (bool_decide (c ∈ taken))) (map string (edits1 (chars key))).

Definition known_neighbour (root : Value) (table : Path) (key : bytes) (replays : nat) : option bytes * nat :=
  let cs := candidates root table key in
  let '(typed, replays) := typed_among root table key cs replays in
  match typed with
  | Some typed => (head typed, replays)
  | None => find_typed root table key cs replays
  end.

Record UnknownKey : Type := mkUnknownKey { uk_path : bytes; suggestion : option bytes }.

Definition closest_key (key : bytes) (known : list bytes) : option bytes := string <$> closest (chars key) (map chars known).

Definition struct_unknown '((table, fields, keys) : Path * list bytes * list bytes) : list UnknownKey :=
  map (fun key => mkUnknownKey (join table key) (join table <$> closest_key key fields))
    (List.filter (fun k => negb (bool_decide (k ∈ fields))) keys).

(** The keys a flattening table is known to have. *)
Definition known_keys (r : Report) (table : Path) : list bytes :=
  map (fun '(_, k, _) => k) (List.filter (fun '(t, _, u) => bool_decide (t = table) && bool_decide (u = UTyped)) (maps r))
  ++ outbound.

Fixpoint maps_unknown (root : Value) (r : Report) (es : list (Path * bytes * Used)) (searches replays : nat) : list UnknownKey :=
  match es with
  | [] => []
  | (table, key, used) :: es =>
      if bool_decide (used = UTyped) || bool_decide (key ∈ outbound) then maps_unknown root r es searches replays
      else
        let report s searches replays :=
          mkUnknownKey (join table key) (join table <$> s) :: maps_unknown root r es searches replays in
        match closest_key key (known_keys r table) with
        | Some s => report (Some s) searches replays
        | None =>
            match searches with
            | O => report None O replays
            | S searches => let '(s, replays) := known_neighbour root table key replays in report s searches replays
            end
        end
  end.

(** [unknown_keys_as]. *)
Definition unknown_keys_as (raw : bytes) : option (list UnknownKey) :=
  match parse raw with
  | None => Some []
  | Some root =>
      match walk root with
      | None => if accepts raw then None else Some []
      | Some r => Some (concat (map struct_unknown (structs r))
                          ++ maps_unknown root r (maps r) SUGGESTION_SEARCHES SUGGESTION_REPLAYS)
      end
  end.

(** [unknown_keys]. *)
Definition unknown_keys (raw : bytes) : list UnknownKey := default [] (unknown_keys_as raw).
End Check.

(** ** Laws: the table computes the least number of typos *)

(** ** The edit distance *)

(** Turning one string into another with [n] typos: a character wrong, missing or added, or two neighbours
    swapped; no character is edited twice. *)
Inductive typos : list Z -> list Z -> nat -> Prop :=
| ty_nil : typos [] [] 0
| ty_keep a b x n : typos a b n -> typos (a ++ [x]) (b ++ [x]) n
| ty_wrong a b x y n : typos a b n -> typos (a ++ [x]) (b ++ [y]) (S n)
| ty_added a b x n : typos a b n -> typos (a ++ [x]) b (S n)
| ty_missing a b y n : typos a b n -> typos a (b ++ [y]) (S n)
| ty_swapped a b x y n : typos a b n -> typos (a ++ [x; y]) (b ++ [y; x]) (S n).

Definition least (a b : list Z) (n : nat) : Prop := typos a b n /\ forall m, typos a b m -> (n <= m)%nat.

Lemma typos_lengths a b n : typos a b n -> (length a <= length b + n /\ length b <= length a + n)%nat.
Proof. induction 1; rewrite ?length_app in *; cbn [length] in *; lia. Qed.

Lemma typos_add_all a : typos a [] (length a).
Proof.
  induction a as [|x a IH] using rev_ind; [constructor|]. rewrite length_app, Nat.add_1_r. by constructor.
Qed.

Lemma typos_miss_all b : typos [] b (length b).
Proof.
  induction b as [|x b IH] using rev_ind; [constructor|]. rewrite length_app, Nat.add_1_r. by constructor.
Qed.

Lemma least_nil_r a : least a [] (length a).
Proof. split; [apply typos_add_all|]. intros m Hm % typos_lengths. cbn in Hm. lia. Qed.

Lemma least_nil_l b : least [] b (length b).
Proof. split; [apply typos_miss_all|]. intros m Hm % typos_lengths. cbn in Hm. lia. Qed.

(** The last step of a least sequence of typos. *)
Lemma typos_last p q x y m : typos (p ++ [x]) (q ++ [y]) m ->
  (x = y /\ typos p q m) \/ (exists n, m = S n /\ (typos p q n \/ typos p (q ++ [y]) n \/ typos (p ++ [x]) q n))
  \/ (exists n p' q', m = S n /\ p = p' ++ [y] /\ q = q' ++ [x] /\ typos p' q' n).
Proof.
  intros H. remember (p ++ [x]) as a eqn:Ha. remember (q ++ [y]) as b eqn:Hb.
  destruct H as [|a b z n H|a b z w n H|a b z n H|a b w n H|a b z w n H].
  - by destruct p.
  - apply app_inj_tail in Ha as [-> ->], Hb as [-> ->]. by left.
  - apply app_inj_tail in Ha as [-> ->], Hb as [-> ->]. right. left. eauto.
  - apply app_inj_tail in Ha as [-> ->]. subst b. right. left. eauto.
  - apply app_inj_tail in Hb as [-> ->]. subst a. right. left. eauto.
  - change [z; w] with ([z] ++ [w]) in Ha. change [w; z] with ([w] ++ [z]) in Hb. rewrite app_assoc in Ha, Hb.
    apply app_inj_tail in Ha as [<- ->], Hb as [<- ->]. right. right. exists n, a, b. done.
Qed.

Lemma least_step p q x y n1 n2 n3 : least p (q ++ [y]) n1 -> least (p ++ [x]) q n2 -> least p q n3 ->
  let r := Nat.min (Nat.min (n1 + 1) (n2 + 1)) (n3 + (if x =? y then 0%nat else 1%nat)) in
  (forall p' q' n4, p = p' ++ [y] -> q = q' ++ [x] -> least p' q' n4 ->
     least (p ++ [x]) (q ++ [y]) (Nat.min r (n4 + 1)))
  /\ ((forall p' q', p = p' ++ [y] -> q = q' ++ [x] -> False) -> least (p ++ [x]) (q ++ [y]) r).
Proof.
  intros [E1 L1] [E2 L2] [E3 L3] r.
  assert (Er : typos (p ++ [x]) (q ++ [y]) r).
  { subst r. rewrite !Nat.add_1_r.
    assert (E3' : typos (p ++ [x]) (q ++ [y]) (n3 + (if x =? y then 0%nat else 1%nat))).
    { destruct (Z.eqb_spec x y) as [->|]; [rewrite Nat.add_0_r | rewrite Nat.add_1_r]; by constructor. }
    destruct (Nat.min_spec (Nat.min (S n1) (S n2)) (n3 + (if x =? y then 0%nat else 1%nat))) as [[_ ->]|[_ ->]]; [|done].
    destruct (Nat.min_spec (S n1) (S n2)) as [[_ ->]|[_ ->]]; by constructor. }
  assert (Lr : forall m, typos (p ++ [x]) (q ++ [y]) m ->
     (r <= m)%nat \/ exists n p' q', m = S n /\ p = p' ++ [y] /\ q = q' ++ [x] /\ typos p' q' n).
  { intros m [(-> & Hm)|[(n & -> & Hn)|Hs]] % typos_last; [| |by right]; left; subst r.
    - rewrite Z.eqb_refl. specialize (L3 _ Hm). lia.
    - destruct (x =? y); destruct Hn as [Hn|[Hn|Hn]];
        [specialize (L3 _ Hn)|specialize (L1 _ Hn)|specialize (L2 _ Hn)|specialize (L3 _ Hn)|specialize (L1 _ Hn)|specialize (L2 _ Hn)]; lia. }
  split.
  - intros p' q' n4 -> -> [E4 L4]. split.
    + destruct (Nat.min_spec r (n4 + 1)) as [[_ ->]|[_ ->]]; [done|]. rewrite Nat.add_1_r, <- !app_assoc. by constructor.
    + intros m Hm. destruct (Lr m Hm) as [?|(n & p0 & q0 & -> & Hp & Hq & Hn)]; [lia|].
      apply app_inj_tail in Hp as [-> _], Hq as [-> _]. specialize (L4 _ Hn). lia.
  - intros Hno. split; [done|]. intros m Hm. destruct (Lr m Hm) as [?|(n & p0 & q0 & _ & Hp & Hq & _)]; [done|].
    destruct (Hno _ _ Hp Hq).
Qed.

(** *** The table *)

Definition shape (la lb : nat) (d : list (list nat)) : Prop :=
  length d = S la /\ Forall (fun row => length row = S lb) d.

Lemma cell_set la lb d i j v i' j' : shape la lb d -> (i <= la)%nat -> (j <= lb)%nat ->
  cell (set_cell i j v d) i' j' = if bool_decide (i' = i /\ j' = j) then v else cell d i' j'.
Proof.
  intros [Hl Hr] Hi Hj. unfold cell, set_cell. destruct (decide (i' = i)) as [->|Hne].
  - rewrite list_lookup_alter_eq. destruct (lookup_lt_is_Some_2 d i) as [row Hrow]; [lia|]. rewrite Hrow. cbn.
    pose proof (Forall_lookup_1 _ _ _ _ Hr Hrow) as Hlen. cbn in Hlen. destruct (decide (j' = j)) as [->|Hne].
    + rewrite list_lookup_insert_eq by lia. by rewrite bool_decide_eq_true_2.
    + rewrite list_lookup_insert_ne by done. rewrite bool_decide_eq_false_2 by naive_solver. done.
  - rewrite list_lookup_alter_ne by done. rewrite bool_decide_eq_false_2 by naive_solver. done.
Qed.

Lemma shape_set la lb d i j v : shape la lb d -> shape la lb (set_cell i j v d).
Proof.
  intros [Hl Hr]. unfold set_cell. split; [by rewrite length_alter|].
  apply Forall_alter; [done|]. intros row _ Hrow. by rewrite length_insert.
Qed.

Lemma shape_new a b : shape (length a) (length b) (table_new a b).
Proof.
  unfold table_new. split; [rewrite length_alter, length_imap, length_replicate; lia|].
  apply Forall_alter; [|intros row _ Hrow; by rewrite length_imap].
  apply Forall_lookup_2. intros i row. rewrite list_lookup_imap. intros (r & Hr & ->) % fmap_Some.
  apply lookup_replicate in Hr as [-> _]. rewrite length_insert, length_replicate. lia.
Qed.

Lemma cell_new a b i j : (i <= length a)%nat -> (j <= length b)%nat -> i = 0%nat \/ j = 0%nat ->
  cell (table_new a b) i j = (i + j)%nat.
Proof.
  intros Hi Hj H0. unfold cell, table_new. set (d := imap _ _).
  assert (Hrow : d !! i = Some (<[0%nat := i]> (replicate (length b + 1) 0%nat))).
  { subst d. rewrite list_lookup_imap, lookup_replicate_2 by lia. done. }
  destruct (decide (i = 0%nat)) as [->|Hne].
  - rewrite list_lookup_alter_eq, Hrow. cbn [fmap option_fmap option_map mbind option_bind].
    rewrite list_lookup_imap. set (row := <[_:=_]> _).
    destruct (lookup_lt_is_Some_2 row j) as [x ->]; [|done].
    subst row. rewrite length_insert, length_replicate. lia.
  - rewrite list_lookup_alter_ne by done. rewrite Hrow. cbn [mbind option_bind].
    destruct H0 as [?| ->]; [done|]. rewrite list_lookup_insert_eq by (rewrite length_replicate; lia). cbn. lia.
Qed.

(** Row by row, the cells before [(i, j)] and those of the first row and column are right. *)
Record filled (a b : list Z) (i j : nat) (d : list (list nat)) : Prop := {
  fi_shape : shape (length a) (length b) d;
  fi_cells : forall i' j', (i' <= length a)%nat -> (j' <= length b)%nat ->
    (i' < i \/ (i' = i /\ j' < j) \/ i' = 0 \/ j' = 0)%nat -> least (take i' a) (take j' b) (cell d i' j')
}.

Lemma take_last (a : list Z) i : (0 < i <= length a)%nat -> take i a = take (i - 1) a ++ [char_at a (i - 1)].
Proof.
  intros Hi. replace i with (S (i - 1)) at 1 by lia. apply take_S_r. unfold char_at.
  destruct (lookup_lt_is_Some_2 a (i - 1)) as [x Hx]; [lia|]. by rewrite Hx, (nth_lookup_Some _ _ _ _ Hx).
Qed.

Lemma fill_filled a b i j d : (1 <= i <= length a)%nat -> (1 <= j <= length b)%nat ->
  filled a b i j d -> filled a b i (S j) (fill a b i d j).
Proof.
  intros Hi Hj [Hs Hc]. unfold fill. set (cost := if _ =? _ then 0%nat else 1%nat).
  set (r := Nat.min (Nat.min (cell d (i - 1) j + 1) (cell d i (j - 1) + 1)) (cell d (i - 1) (j - 1) + cost)).
  set (d1 := set_cell i j r d).
  assert (Hs1 : shape (length a) (length b) d1) by by apply shape_set.
  assert (Hc1 : forall i' j', cell d1 i' j' = if bool_decide (i' = i /\ j' = j) then r else cell d i' j').
  { intros i' j'. apply (cell_set (length a) (length b)); [done | lia | lia]. }
  pose proof (Hc (i - 1) j ltac:(lia) ltac:(lia) ltac:(lia))%nat as L1.
  pose proof (Hc i (j - 1) ltac:(lia) ltac:(lia) ltac:(lia))%nat as L2.
  pose proof (Hc (i - 1) (j - 1) ltac:(lia) ltac:(lia) ltac:(lia))%nat as L3.
  rewrite (take_last b j) in L1 by lia. rewrite (take_last a i) in L2 by lia.
  destruct (least_step _ _ _ _ _ _ _ L1 L2 L3) as [Hswap Hplain].
  assert (Hset : forall v e, least (take i a) (take j b) v -> shape (length a) (length b) e ->
     (forall i' j', cell e i' j' = if bool_decide (i' = i /\ j' = j) then v else cell d i' j') -> filled a b i (S j) e).
  { intros v e Hv He Hce. split; [done|]. intros i' j' Hi' Hj' Hb. rewrite Hce. case_bool_decide as Heq.
    - by destruct Heq as [-> ->].
    - apply Hc; [done..|]. destruct (decide (i' = i /\ j' = j)); [done | lia]. }
  rewrite <- (take_last b j), <- (take_last a i) in Hswap, Hplain by lia. fold cost r in Hswap, Hplain.
  destruct ((1 <? i)%nat && (1 <? j)%nat && (char_at a (i - 1) =? char_at b (j - 2)) && (char_at a (i - 2) =? char_at b (j - 1)))
    eqn:Hcond.
  - rewrite !andb_true_iff, !Nat.ltb_lt, !Z.eqb_eq in Hcond. destruct Hcond as [[[Hi1 Hj1] E1] E2].
    pose proof (Hc (i - 2) (j - 2) ltac:(lia) ltac:(lia) ltac:(lia))%nat as L4.
    apply (Hset (Nat.min r (cell d (i - 2) (j - 2) + 1))).
    + eapply Hswap; [| |exact L4].
      * rewrite (take_last a (i - 1)) by lia. by replace (i - 1 - 1)%nat with (i - 2)%nat by lia; rewrite E2.
      * rewrite (take_last b (j - 1)) by lia. by replace (j - 1 - 1)%nat with (j - 2)%nat by lia; rewrite E1.
    + by apply shape_set.
    + intros i' j'. rewrite (cell_set (length a) (length b)) by (done || lia). rewrite !Hc1.
      rewrite (bool_decide_eq_true_2 (i = i /\ j = j)) by done.
      rewrite (bool_decide_eq_false_2 (i - 2 = i /\ j - 2 = j)%nat) by lia. by case_bool_decide.
  - apply (Hset r); [|done|done]. apply Hplain. intros p' q' Hp Hq.
    destruct (decide (i = 1%nat)) as [->|]; [cbn in Hp; by destruct p'|].
    destruct (decide (j = 1%nat)) as [->|]; [cbn in Hq; by destruct q'|].
    rewrite (take_last a (i - 1)) in Hp by lia. rewrite (take_last b (j - 1)) in Hq by lia.
    replace (i - 1 - 1)%nat with (i - 2)%nat in Hp by lia. replace (j - 1 - 1)%nat with (j - 2)%nat in Hq by lia.
    apply app_inj_tail in Hp as [_ E2], Hq as [_ E1]. revert Hcond. rewrite E1, E2, !Z.eqb_refl.
    destruct (Nat.ltb_spec 1 i), (Nat.ltb_spec 1 j); (done || lia).
Qed.

Lemma fill_row_filled a b i d : (1 <= i <= length a)%nat -> filled a b i 1 d -> filled a b (S i) 1 (fill_row a b d i).
Proof.
  intros Hi Hf. unfold fill_row.
  assert (Hrow : forall n j e, (1 <= j)%nat -> (j + n = length b + 1)%nat -> filled a b i j e ->
     filled a b i (length b + 1) (foldl (fill a b i) e (seq j n))).
  { induction n as [|n IH]; intros j e Hj Hn He; cbn [seq foldl]; [by replace (length b + 1)%nat with j by lia|].
    apply IH; [lia | lia|]. apply fill_filled; [done | lia | done]. }
  destruct (Hrow (length b) 1%nat d) as [Hs Hc]; [lia | lia | done|]. split; [done|].
  intros i' j' Hi' Hj' Hb. apply Hc; lia.
Qed.

(** C17.  The table computes the fewest typos that turn one key into the other: there is such a sequence, and none
    is shorter. *)
Theorem distance_least a b : typos a b (distance a b) /\ forall n, typos a b n -> (distance a b <= n)%nat.
Proof.
  unfold distance.
  assert (Hrows : forall n i e, (1 <= i)%nat -> (i + n = length a + 1)%nat -> filled a b i 1 e ->
     filled a b (length a + 1) 1 (foldl (fill_row a b) e (seq i n))).
  { induction n as [|n IH]; intros i e Hi Hn He; cbn [seq foldl]; [by replace (length a + 1)%nat with i by lia|].
    apply IH; [lia | lia|]. apply fill_row_filled; [lia | done]. }
  destruct (Hrows (length a) 1%nat (table_new a b)) as [_ Hc]; [lia | lia| |].
  - split; [apply shape_new|]. intros i j Hi Hj Hb. rewrite cell_new by lia.
    destruct (decide (i = 0%nat)) as [->|].
    + rewrite take_0. replace (0 + j)%nat with (length (take j b)) by (rewrite length_take; lia). apply least_nil_l.
    + replace j with 0%nat by lia. rewrite take_0. replace (i + 0)%nat with (length (take i a)) by (rewrite length_take; lia).
      apply least_nil_r.
  - specialize (Hc (length a) (length b) ltac:(lia) ltac:(lia) ltac:(lia)). by rewrite !firstn_all in Hc.
Qed.

Lemma typos_same a b s n : typos a b n -> typos (a ++ s) (b ++ s) n.
Proof.
  intros H. induction s as [|x s IH] using rev_ind; [by rewrite !app_nil_r|]. rewrite !app_assoc. by constructor.
Qed.

Lemma typos_refl a : typos a a 0.
Proof. apply (typos_same [] [] a 0). constructor. Qed.

Lemma typos_zero a b : typos a b 0 -> a = b.
Proof.
  intros H. remember 0%nat as n eqn:Hn. induction H; try done. by rewrite IHtypos.
Qed.

Lemma distance_pos a b : a <> b -> (0 < distance a b)%nat.
Proof.
  intros Hne. destruct (distance_least a b) as [Ht _]. destruct (distance a b); [|lia]. by apply typos_zero in Ht.
Qed.

(** ** The closest key *)

Lemma min_by_distance_least best cs : let r := min_by_distance best cs in
  (r = best \/ r ∈ cs) /\ (r.1 <= best.1)%nat /\ Forall (fun c => (r.1 <= c.1)%nat) cs.
Proof.
  revert best. induction cs as [|c cs IH]; intros best; cbn [min_by_distance]; [by split_and!; auto|].
  specialize (IH (if (c.1 <? best.1)%nat then c else best)). cbn zeta in *.
  set (r := min_by_distance _ cs) in *. clearbody r. destruct IH as (Hin & Hle & Hall).
  rewrite elem_of_cons. destruct (Nat.ltb_spec c.1 best.1); split_and!; try (by constructor; [lia|]); try lia; naive_solver.
Qed.

(** A suggestion is one of the known keys, within a typo's distance of what was written, and none is closer; there
    is one whenever some key is that close. *)
Lemma closest_best key cs : match closest key cs with
  | Some c => c ∈ cs /\ (distance key c <= limit key)%nat /\ forall c', c' ∈ cs -> (distance key c <= distance key c')%nat
  | None => forall c', c' ∈ cs -> (limit key < distance key c')%nat
  end.
Proof.
  unfold closest. set (ds := map _ cs). set (near := List.filter _ ds).
  assert (Hnear : forall c, c ∈ cs -> (distance key c <= limit key)%nat -> (distance key c, c) ∈ near).
  { intros c Hc Hd. subst near ds. apply list_elem_of_In, filter_In. split; [|by apply Nat.leb_le].
    apply in_map_iff. exists c. split; [done|]. by apply list_elem_of_In. }
  assert (Hin : forall d, d ∈ near -> d.2 ∈ cs /\ d.1 = distance key d.2 /\ (d.1 <= limit key)%nat).
  { intros d. rewrite list_elem_of_In. subst near ds. rewrite filter_In, in_map_iff. intros [(c & <- & Hc) Hd].
    cbn in *. split; [by apply list_elem_of_In|]. split; [done|]. by apply Nat.leb_le. }
  destruct near as [|d ds'].
  - intros c Hc. destruct (le_lt_dec (distance key c) (limit key)) as [Hle|]; [|done].
    specialize (Hnear c Hc Hle). by apply not_elem_of_nil in Hnear.
  - destruct (min_by_distance_least d ds') as (Hr & Hle & Hall). set (r := min_by_distance d ds') in *. clearbody r.
    assert (Hrn : r ∈ d :: ds') by (rewrite elem_of_cons; naive_solver).
    destruct (Hin r Hrn) as (Hrc & Hrd & Hrl). rewrite <- Hrd. split_and!; [done..|]. intros c Hc.
    destruct (le_lt_dec (distance key c) (limit key)) as [Hlc|]; [|lia].
    specialize (Hnear c Hc Hlc). rewrite elem_of_cons in Hnear. destruct Hnear as [<-|Hn]; [done|].
    rewrite Forall_forall in Hall. apply (Hall _ Hn).
Qed.

(** ** Neighbours *)

(** One typo, and where. *)
Definition one_typo (a b : list Z) : Prop := exists p s,
  (exists x, a = p ++ x :: s /\ b = p ++ s) \/ (exists y, a = p ++ s /\ b = p ++ y :: s)
  \/ (exists x y, a = p ++ x :: s /\ b = p ++ y :: s) \/ (exists x y, a = p ++ x :: y :: s /\ b = p ++ y :: x :: s).

Lemma one_typo_snoc a b x : one_typo a b -> one_typo (a ++ [x]) (b ++ [x]).
Proof.
  intros (p & s & H). exists p, (s ++ [x]).
  destruct H as [(z & -> & ->)|[(z & -> & ->)|[(z & w & -> & ->)|(z & w & -> & ->)]]];
    [left; exists z | right; left; exists z | right; right; left; exists z, w | right; right; right; exists z, w];
    by rewrite <- !app_assoc.
Qed.

Lemma typos_one a b : typos a b 1 -> one_typo a b.
Proof.
  intros H. remember 1%nat as n eqn:Hn.
  induction H as [|a b x n H IH|a b x y n H IH|a b x n H IH|a b y n H IH|a b x y n H IH]; [done|by apply one_typo_snoc, IH|..];
    injection Hn as ->; apply typos_zero in H as ->; exists b, [].
  - right. right. left. by exists x, y.
  - left. exists x. by rewrite app_nil_r.
  - right. left. exists y. by rewrite app_nil_r.
  - right. right. right. by exists x, y.
Qed.

Lemma one_typo_typos a b : one_typo a b -> typos a b 1.
Proof.
  intros (p & s & H). pose proof (typos_refl p) as Hp.
  destruct H as [(x & -> & ->)|[(y & -> & ->)|[(x & y & -> & ->)|(x & y & -> & ->)]]].
  - change (p ++ x :: s) with (p ++ [x] ++ s). rewrite app_assoc. apply typos_same. by constructor.
  - change (p ++ y :: s) with (p ++ [y] ++ s). rewrite app_assoc. apply typos_same. by constructor.
  - change (p ++ x :: s) with (p ++ [x] ++ s). change (p ++ y :: s) with (p ++ [y] ++ s). rewrite !app_assoc.
    apply typos_same. by constructor.
  - change (p ++ x :: y :: s) with (p ++ [x; y] ++ s). change (p ++ y :: x :: s) with (p ++ [y; x] ++ s).
    rewrite !app_assoc. apply typos_same. by constructor.
Qed.

Lemma split_at (key : list Z) i : (i < length key)%nat -> key = take i key ++ char_at key i :: drop (S i) key.
Proof.
  intros Hi. destruct (lookup_lt_is_Some_2 key i Hi) as [x Hx]. unfold char_at. rewrite (nth_lookup_Some _ _ _ _ Hx).
  symmetry. by apply take_drop_middle.
Qed.

(** The four kinds of neighbour, by where they are. *)
Lemma elem_of_edits1 key c : c ∈ edits1 key <-> c <> [] /\ c <> key
  /\ ((exists i, (i < length key)%nat /\ c = remove_at i key)
      \/ (exists i, (S i < length key)%nat /\ c = swap_at i key)
      \/ (exists i a, (i < length key)%nat /\ a ∈ ALPHABET /\ c = <[i := a]> key)
      \/ (exists i a, (i <= length key)%nat /\ a ∈ ALPHABET /\ c = insert_at i a key)).
Proof.
  unfold edits1. rewrite elem_of_dedup, list_elem_of_In, filter_In, !in_app_iff, !in_map_iff, !in_concat.
  rewrite andb_true_iff, !negb_true_iff, !bool_decide_eq_false. setoid_rewrite in_seq. split.
  - intros [Hin [H1 H2]]. split; [done|]. split; [done|].
    destruct Hin as [(i & <- & Hi)|[(i & <- & Hi)|[(l & Hl & Hc)|(l & Hl & Hc)]]].
    + left. exists i. split; [lia | done].
    + right. left. exists i. split; [lia | done].
    + apply in_map_iff in Hl as (i & <- & Hi % in_seq). apply in_map_iff in Hc as (a & <- & Ha).
      right. right. left. exists i, a. rewrite list_elem_of_In. split_and!; [lia | done | done].
    + apply in_map_iff in Hl as (i & <- & Hi % in_seq). apply in_map_iff in Hc as (a & <- & Ha).
      right. right. right. exists i, a. rewrite list_elem_of_In. split_and!; [lia | done | done].
  - intros (H1 & H2 & H). split; [|done]. destruct H as [(i & Hi & ->)|[(i & Hi & ->)|[(i & a & Hi & Ha & ->)|(i & a & Hi & Ha & ->)]]].
    + left. exists i. split; [done | lia].
    + right. left. exists i. split; [done | lia].
    + right. right. left. exists (map (fun a => <[i := a]> key) ALPHABET). rewrite !in_map_iff. split; [exists i | exists a].
      * split; [done|]. apply in_seq. lia.
      * split; [done|]. by apply list_elem_of_In.
    + right. right. right. exists (map (fun a => insert_at i a key) ALPHABET). rewrite !in_map_iff. split; [exists i | exists a].
      * split; [done|]. apply in_seq. lia.
      * split; [done|]. by apply list_elem_of_In.
Qed.

Lemma neighbour_typo key c : c ∈ edits1 key -> one_typo key c.
Proof.
  intros (_ & _ & H) % elem_of_edits1.
  destruct H as [(i & Hi & ->)|[(i & Hi & ->)|[(i & a & Hi & _ & ->)|(i & a & Hi & _ & ->)]]].
  - exists (take i key), (drop (S i) key). left. exists (char_at key i). split; [by apply split_at | done].
  - exists (take i key), (drop (i + 2) key). right. right. right. exists (char_at key i), (char_at key (S i)).
    split; [|done]. rewrite (split_at key i) at 1 by lia. do 2 f_equal.
    destruct (lookup_lt_is_Some_2 key (S i)) as [x Hx]; [lia|]. unfold char_at. rewrite (nth_lookup_Some _ _ _ _ Hx).
    replace (i + 2)%nat with (S (S i)) by lia. by apply drop_S.
  - exists (take i key), (drop (S i) key). right. right. left. exists (char_at key i), a. split; [by apply split_at|].
    by rewrite insert_take_drop.
  - exists (take i key), (drop i key). right. left. exists a. split; [by rewrite take_drop | done].
Qed.

(** The neighbours tried are the words exactly one typo away: each is at distance one, and none made of the
    characters keys are made of is left out. *)
Lemma edits1_exact key c : (c ∈ edits1 key -> distance key c = 1%nat)
  /\ (distance key c = 1%nat -> c <> [] -> Forall (.∈ ALPHABET) c -> c ∈ edits1 key).
Proof.
  split.
  - intros Hc. pose proof Hc as (_ & Hne & _) % elem_of_edits1. apply neighbour_typo, one_typo_typos in Hc.
    pose proof (proj2 (distance_least key c) _ Hc). pose proof (distance_pos key c ltac:(congruence)). lia.
  - intros Hd Hc Ha. apply elem_of_edits1. split; [done|].
    assert (Hne : c <> key).
    { intros ->. pose proof (proj2 (distance_least key key) _ (typos_refl key)). lia. }
    split; [done|]. destruct (distance_least key c) as [Ht _]. rewrite Hd in Ht. apply typos_one in Ht as (p & s & H).
    destruct H as [(x & -> & ->)|[(y & -> & ->)|[(x & y & -> & ->)|(x & y & -> & ->)]]].
    + left. exists (length p). split; [rewrite length_app; cbn; lia|]. unfold remove_at.
      rewrite take_app_length. by rewrite drop_app_ge, Nat.sub_succ_l, Nat.sub_diag by lia.
    + apply Forall_app in Ha as [_ Ha]. apply Forall_cons in Ha as [Hy _]. right. right. right. exists (length p), y.
      split; [rewrite length_app; lia|]. split; [done|]. unfold insert_at. by rewrite take_app_length, drop_app_length.
    + apply Forall_app in Ha as [_ Ha]. apply Forall_cons in Ha as [Hy _]. right. right. left. exists (length p), y.
      split; [rewrite length_app; cbn; lia|]. split; [done|].
      rewrite insert_app_r_alt by lia. by rewrite Nat.sub_diag.
    + right. left. exists (length p). split; [rewrite length_app; cbn; lia|]. unfold swap_at, char_at.
      rewrite take_app_length, drop_app_ge by lia. rewrite !app_nth2 by lia.
      replace (S (length p) - length p)%nat with 1%nat by lia. replace (length p + 2 - length p)%nat with 2%nat by lia.
      by rewrite Nat.sub_diag.
Qed.

(** ** The report *)

Section Check.
Variable walk : Value -> option Report.
Variables (parse : bytes -> option Value) (accepts : bytes -> bool) (outbound : list bytes).
Variables (chars : bytes -> list Z) (string : list Z -> bytes).

(** What the parser ignores: a struct's key that is no field, and an entry of a flattening table that is read
    without its type and is none of the flattened struct's. *)
Definition ignored (r : Report) : list (Path * bytes) :=
  concat (map (fun '(table, fields, keys) => map (pair table) (List.filter (fun k => negb (bool_decide (k ∈ fields))) keys))
    (structs r))
  ++ map fst (List.filter (fun '(_, key, used) => negb (bool_decide (used = UTyped) || bool_decide (key ∈ outbound))) (maps r)).

(** A suggestion is a key the table is known to take, or one that the parser, given the file with the key
    renamed to it, reads with its type. *)
Definition takes (r : Report) (table : Path) (key s : bytes) : Prop :=
  (exists fields keys, (table, fields, keys) ∈ structs r /\ exists f, f ∈ fields /\ s = string (chars f))
  \/ (exists k, k ∈ known_keys outbound r table /\ s = string (chars k))
  \/ (exists renamed r', walk renamed = Some r' /\ reads_typed r' table s = true).

Lemma closest_key_known key known s : closest_key chars string key known = Some s -> exists k, k ∈ known /\ s = string (chars k).
Proof.
  unfold closest_key. pose proof (closest_best (chars key) (map chars known)) as Hb.
  destruct (closest (chars key) (map chars known)) as [c|]; [|done]. intros [= <-]. destruct Hb as [Hc _].
  apply list_elem_of_In, in_map_iff in Hc as (k & <- & Hk). exists k. split; [by apply list_elem_of_In | done].
Qed.

Lemma typed_among_read root table key names n l n' s : typed_among walk root table key names n = (Some l, n') -> s ∈ l ->
  exists renamed r', walk renamed = Some r' /\ reads_typed r' table s = true.
Proof.
  unfold typed_among. destruct n as [|n]; [done|]. destruct (update_table _ root table) as [renamed|]; cbn; [|done].
  destruct (walk renamed) as [r'|] eqn:Hw; cbn; [|done]. intros [= <- <-] Hs.
  apply list_elem_of_In, filter_In in Hs as [_ Hs]. by exists renamed, r'.
Qed.

Lemma find_typed_read root table key cs n s n' : find_typed walk root table key cs n = (Some s, n') ->
  exists renamed r', walk renamed = Some r' /\ reads_typed r' table s = true.
Proof.
  revert n. induction cs as [|c cs IH]; intros n; cbn [find_typed]; [done|].
  destruct (typed_among walk root table key [c] n) as [[[|x l]|] m] eqn:Ht; try apply IH.
  intros [= <- <-]. eapply (typed_among_read _ _ _ _ _ _ _ c); [exact Ht|].
  unfold typed_among in Ht. destruct n as [|n0]; [done|]. destruct (update_table _ root table) as [renamed|]; cbn in Ht; [|done].
  destruct (walk renamed) as [r'|]; cbn in Ht; [|done]. destruct (reads_typed r' table c); [|done].
  injection Ht as <- <- <-. by left.
Qed.

Lemma known_neighbour_read root table key n s n' : known_neighbour walk chars string root table key n = (Some s, n') ->
  exists renamed r', walk renamed = Some r' /\ reads_typed r' table s = true.
Proof.
  unfold known_neighbour. destruct (typed_among walk root table key _ n) as [[l|] m] eqn:Ht; [|apply find_typed_read].
  destruct l as [|x l]; [done|]. intros [= <- <-]. eapply typed_among_read; [exact Ht|]. by left.
Qed.

(** Each reported key, in order, with what its suggestion is. *)
Definition reported (r : Report) (where_ : Path * bytes) (u : UnknownKey) : Prop :=
  uk_path u = join where_.1 where_.2
  /\ forall t, suggestion u = Some t -> exists s, t = join where_.1 s /\ takes r where_.1 where_.2 s.

Lemma maps_reported root r es searches replays :
  Forall2 (reported r)
    (map fst (List.filter (fun '(_, key, used) => negb (bool_decide (used = UTyped) || bool_decide (key ∈ outbound))) es))
    (maps_unknown walk outbound chars string root r es searches replays).
Proof.
  revert searches replays. induction es as [|[[table key] used] es IH]; intros searches replays; [constructor|].
  cbn [maps_unknown List.filter]. destruct (bool_decide (used = UTyped) || bool_decide (key ∈ outbound)); cbn [negb]; [apply IH|].
  cbn [map fst]. destruct (closest_key chars string key (known_keys outbound r table)) as [s|] eqn:Hs.
  - constructor; [|apply IH]. split; [done|]. intros t [= <-]. exists s. split; [done|]. right. left.
    by eapply closest_key_known.
  - destruct searches as [|searches]; [constructor; [by split | apply IH]|].
    destruct (known_neighbour walk chars string root table key replays) as [[s|] m] eqn:Hk.
    + constructor; [|apply IH]. split; [done|]. intros t [= <-]. exists s. split; [done|]. right. right.
      by eapply known_neighbour_read.
    + constructor; [by split | apply IH].
Qed.

(** The keys reported are those the parser ignores, each once, where it is in the file; a suggestion is always a
    key the parser would have read there. *)
Theorem unknown_keys_exact raw root r : parse raw = Some root -> walk root = Some r ->
  Forall2 (reported r) (ignored r) (unknown_keys walk parse accepts outbound chars string raw).
Proof.
  intros Hp Hw. unfold unknown_keys, unknown_keys_as. rewrite Hp, Hw. cbn [default from_option id]. unfold ignored.
  apply Forall2_app; [|apply maps_reported].
  assert (Hsub : forall ss, ss ⊆ structs r -> Forall2 (reported r)
    (concat (map (fun '(table, fields, keys) => map (pair table) (List.filter (fun k => negb (bool_decide (k ∈ fields))) keys)) ss))
    (concat (map (struct_unknown chars string) ss))).
  { induction ss as [|[[table fields] keys] ss IH]; intros Hin; [constructor|]. cbn [map concat]. apply Forall2_app; [|apply IH; set_solver].
    unfold struct_unknown. generalize (List.filter (fun k => negb (bool_decide (k ∈ fields))) keys) as ks. intros ks.
    induction ks as [|k ks IHk]; constructor; [|done]. split; [done|]. cbn [suggestion fst snd]. intros t Ht.
    destruct (closest_key chars string k fields) as [s|] eqn:Hs; [|done]. injection Ht as <-. exists s. split; [done|].
    left. exists fields, keys. split; [set_solver|]. by eapply closest_key_known. }
  by apply Hsub.
Qed.
End Check.

(** ** Witnesses *)

Example mdoe_is_one_typo : distance (lit "mdoe") (lit "mode") = 1%nat
  /\ closest (lit "mdoe") [lit "realm"; lit "mode"; lit "users"] = Some (lit "mode").
Proof. vm_compute. done. Qed.

(** One struct [auth] and one flattening table [log.ship]. *)
Definition sample_value : Value :=
  VTable [(lit "auth", VTable [(lit "mdoe", VScalar (lit "jwt"))]);
          (lit "log", VTable [(lit "ship", VTable [(lit "ulr", VScalar (lit "5")); (lit "proxy", VScalar [])])])].

Definition sample_walk (v : Value) : option Report :=
  let auth := map fst (default [] (lookup_table v [SKey (lit "auth")])) in
  let ship := map fst (default [] (lookup_table v [SKey (lit "log"); SKey (lit "ship")])) in
  Some (mkReport [([SKey (lit "auth")], [lit "mode"; lit "realm"], auth)]
          (map (fun k => ([SKey (lit "log"); SKey (lit "ship")], k,
                          if bool_decide (k ∈ [lit "url"; lit "batch"]) then UTyped else UUntyped)) ship)).

Lemma unknown_keys_exact_witness : exists r, sample_walk sample_value = Some r
  /\ unknown_keys sample_walk (fun _ => Some sample_value) (fun _ => true) [lit "proxy"] (fun b => b) (fun c => c) []
     = [mkUnknownKey (lit "auth.mdoe") (Some (lit "auth.mode"));
        mkUnknownKey (lit "log.ship.ulr") (Some (lit "log.ship.url"))]
  /\ Forall2 (reported sample_walk [lit "proxy"] (fun b => b) (fun c => c) r) (ignored [lit "proxy"] r)
       (unknown_keys sample_walk (fun _ => Some sample_value) (fun _ => true) [lit "proxy"] (fun b => b) (fun c => c) []).
Proof.
  eexists. split; [reflexivity|]. split; [vm_compute; reflexivity|].
  apply (unknown_keys_exact sample_walk (fun _ => Some sample_value) (fun _ => true) [lit "proxy"] (fun b => b) (fun c => c)
    [] sample_value); reflexivity.
Defined.
