(* ===== verification/Redirect.v ===== *)
(** * Redirect: the plain-HTTP listener that sends browsers to HTTPS ([src/src/tls.rs])

    It answers ACME challenges, and redirects everything else to the host the request names, which whoever
    sends the request chooses. *)

From S2P Require Import Prelude Text Utf8 Net Units Float Http Access Privacy Forwarding.

Definition ACME_CHALLENGE_PREFIX : bytes := lit "/.well-known/acme-challenge/".

Definition host_char (c : Z) : bool := is_alnum c || (c =? 45) || (c =? 46).

(** The character is neither a dot nor a hyphen. *)
Definition edge_char_ok (c : option Z) : bool := match c with Some c => negb ((c =? 46) || (c =? 45)) | None => true end.

Definition is_valid_host (host : bytes) : bool :=
  if is_nil host || (253 <? length host)%nat then false
  else match (h ← strip_prefix [91] host; strip_suffix [93] h) with
       | Some inner => negb (is_nil inner) && match read_ipv6_addr inner with Some (_, []) => true | _ => false end
       | None => edge_char_ok (head host) && edge_char_ok (last host) && forallb host_char host
       end.

Definition split_authority (host : bytes) : option bytes :=
  '(bare, port) ← match rfind_sub [93] host with
                  | Some close =>
                      let rest := drop (close + 1) host in
                      match strip_prefix [58] rest with
                      | Some p => Some (take (close + 1) host, Some p)
                      | None => if is_nil rest then Some (take (close + 1) host, None) else None
                      end
                  | None => match split_once 58 host with
                            | Some (h, p) => Some (h, Some p)
                            | None => Some (host, None)
                            end
                  end;
  if match port with Some digits => is_nil digits || negb (forallb is_digit digits) | None => false end then None
  else if is_valid_host bare then Some bare else None.

Definition redirect_location (host_header : option bytes) (path_and_query : bytes) (tls_port : Z) (allowed : list bytes)
    : option bytes :=
  host ← host_header;
  bare ← split_authority host;
  if negb (is_nil allowed) && negb (existsb (fun a => eq_ignore_ascii_case a bare) allowed) then None
  else Some (lit "https://" ++ bare ++ (if tls_port =? 443 then [] else 58 :: dec tls_port) ++ path_and_query).

(** [parse_redirect_status]. *)
Definition parse_redirect_status (status : Z) : result Z :=
  ensure ((100 <=? status) && (status <? 1000)) else "invalid tls.redirect_status";
  ensure (bool_decide (status ∈ [301; 302; 303; 307; 308])) else "tls.redirect_status must be 301, 302, 303, 307 or 308";
  Ok status.

Inductive RedirectReply : Type := RAnswer (status : Z) (body : bytes) | RRedirect (status : Z) (location : bytes).

(** The router; [challenges] are the tokens of the orders under way, if this listener has them. *)
Definition redirect_handler (to_str_ok value_ok : bytes -> bool) (tls_port status : Z) (allowed : list bytes)
    (challenges : option (gmap bytes bytes)) (headers : Headers) (uri_host : option bytes) (uri_port : option Z)
    (uri_scheme : option bytes) (path : bytes) (path_and_query : option bytes) : RedirectReply :=
  match strip_prefix ACME_CHALLENGE_PREFIX path with
  | Some token =>
      match (m ← challenges; m !! token) with
      | Some key_auth => RAnswer 200 key_auth
      | None => RAnswer 404 (lit "not found" ++ [10])
      end
  | None =>
      match effective_host to_str_ok headers uri_host uri_port uri_scheme with
      | Err why => RAnswer 400 (lit why ++ [10])
      | Ok host =>
          match redirect_location host (default [47] path_and_query) tls_port allowed with
          | Some location => if value_ok location then RRedirect status location else RAnswer 400 (lit "bad host" ++ [10])
          | None => RAnswer 400 (lit "this port serves only an HTTPS redirect; send a valid Host header" ++ [10])
          end
      end
  end.

(** ** Where a redirect leads *)

(** The authority of a URL, as its readers split it off: up to the path, the query or the fragment. *)
Fixpoint authority (s : bytes) : bytes :=
  match s with
  | [] => []
  | c :: s => if (c =? 47) || (c =? 63) || (c =? 35) then [] else c :: authority s
  end.

Definition url_authority (url : bytes) : option bytes := authority <$> strip_prefix (lit "https://") url.

(** A character that cannot end the host of a URL or start another one. *)
Definition safe (c : Z) : bool := is_alnum c || (c =? 45) || (c =? 46) || (c =? 58) || (c =? 91) || (c =? 93).

(** Readers of addresses read such characters only. *)
Definition reads_safely {A} (p : bytes -> option (A * bytes)) : Prop :=
  forall s x r, p s = Some (x, r) -> exists c, s = c ++ r /\ Forall (fun x => safe x = true) c.

Lemma hex_safe c v : hex_val c = Some v -> safe c = true.
Proof. unfold hex_val, safe, is_alnum, is_alpha, is_digit, is_upper, is_lower. zcase; cbn; done || lia. Qed.

Lemma digit_safe c v : digit_val c = Some v -> safe c = true.
Proof. unfold digit_val, safe, is_alnum. destruct (is_digit c); [|done]. by rewrite orb_true_r. Qed.

Lemma read_digits_safe value r s acc n m k rest : (forall c v, value c = Some v -> safe c = true) ->
  read_digits value r s acc n = (m, k, rest) -> exists c, s = c ++ rest /\ Forall (fun x => safe x = true) c.
Proof.
  intros Hv. revert acc n. induction s as [|x s IH]; intros acc n; cbn [read_digits]; [intros [= _ _ <-]; by exists []|].
  destruct (value x) as [d|] eqn:Hd; [|intros [= _ _ <-]; by exists []]. intros (c & -> & Hc) % IH.
  exists (x :: c). split; [done|]. constructor; [by eapply Hv | done].
Qed.

Lemma read_number_safe value r mx az bound : (forall c v, value c = Some v -> safe c = true) ->
  reads_safely (read_number value r mx az bound).
Proof.
  intros Hv s x rest. unfold read_number. destruct (read_digits value r s 0 0) as [[m k] rest'] eqn:Hd.
  repeat (match goal with |- context [if ?b then _ else _] => destruct b end; try done). intros [= _ <-].
  by eapply read_digits_safe.
Qed.

Lemma read_given_char_safe c s r : safe c = true -> read_given_char c s = Some r ->
  exists p, s = p ++ r /\ Forall (fun x => safe x = true) p.
Proof.
  intros Hc. unfold read_given_char. destruct s as [|x s]; [done|]. destruct (Z.eqb_spec x c) as [->|]; [|done].
  intros [= <-]. exists [c]. split; [done|]. by repeat constructor.
Qed.

(** What two readers read one after the other. *)
Lemma safe_join (s r t c d : bytes) : s = c ++ r -> Forall (fun x => safe x = true) c -> r = d ++ t ->
  Forall (fun x => safe x = true) d -> exists p, s = p ++ t /\ Forall (fun x => safe x = true) p.
Proof. intros -> Hc -> Hd. exists (c ++ d). rewrite app_assoc. split; [done|]. by apply Forall_app. Qed.

Lemma read_separator_safe {A} sep i (p : bytes -> option (A * bytes)) : safe sep = true -> reads_safely p ->
  reads_safely (read_separator sep i p).
Proof.
  intros Hsep Hp s x r. unfold read_separator. destruct i as [|i]; [apply Hp|].
  destruct (read_given_char sep s) as [s'|] eqn:Hg; [|done]. apply read_given_char_safe in Hg as (c & Hs & Hc); [|done].
  intros (d & Hs' & Hd) % Hp. by eapply safe_join.
Qed.

Lemma read_octet_safe : reads_safely read_octet.
Proof. apply read_number_safe. apply digit_safe. Qed.

Lemma read_group_safe : reads_safely read_group.
Proof. apply read_number_safe. apply hex_safe. Qed.

Lemma read_ipv4_safe : reads_safely read_ipv4_addr.
Proof.
  intros s x r. unfold read_ipv4_addr.
  destruct (read_separator 46 0 read_octet s) as [[a s1]|] eqn:H1; [|done].
  destruct (read_separator 46 1 read_octet s1) as [[b s2]|] eqn:H2; [|done].
  destruct (read_separator 46 2 read_octet s2) as [[c s3]|] eqn:H3; [|done].
  destruct (read_separator 46 3 read_octet s3) as [[d s4]|] eqn:H4; [|done]. intros [= _ <-].
  assert (Hs : forall i, reads_safely (read_separator 46 i read_octet)).
  { intros i. apply read_separator_safe; [done | apply read_octet_safe]. }
  apply Hs in H1 as (p1 & E1 & F1), H2 as (p2 & E2 & F2), H3 as (p3 & E3 & F3), H4 as (p4 & E4 & F4).
  destruct (safe_join _ _ _ _ _ E1 F1 E2 F2) as (q1 & G1 & K1).
  destruct (safe_join _ _ _ _ _ G1 K1 E3 F3) as (q2 & G2 & K2). by eapply safe_join.
Qed.

Lemma read_groups_safe left i s gs e r : read_groups left i s = (gs, e, r) ->
  exists c, s = c ++ r /\ Forall (fun x => safe x = true) c.
Proof.
  revert i s gs e. induction left as [|left IH]; intros i s gs e; cbn [read_groups]; [intros [= _ _ <-]; by exists []|].
  destruct (match left with O => None | S _ => read_separator 58 i read_ipv4_addr s end) as [[a r1]|] eqn:H4.
  - intros [= _ _ <-]. destruct left; [done|].
    apply (read_separator_safe 58 i read_ipv4_addr) in H4; [done | done | apply read_ipv4_safe].
  - destruct (read_separator 58 i read_group s) as [[g r1]|] eqn:Hg; [|intros [= _ _ <-]; by exists []].
    apply (read_separator_safe 58 i read_group) in Hg as (c & Hs & Hc); [|done | apply read_group_safe].
    destruct (read_groups left (S i) r1) as [[gs' e'] r'] eqn:Hr. intros [= _ _ <-].
    apply IH in Hr as (d & Hs' & Hd). by eapply safe_join.
Qed.

Lemma read_ipv6_safe : reads_safely read_ipv6_addr.
Proof.
  intros s x r. unfold read_ipv6_addr. destruct (read_groups 8 0 s) as [[hd v4] s1] eqn:Hg.
  apply read_groups_safe in Hg as (c & Hs & Hc). destruct (length hd =? 8)%nat; [intros [= _ <-]; by exists c|].
  destruct v4; [done|]. destruct (read_given_char 58 s1) as [s2|] eqn:H1; [|done].
  destruct (read_given_char 58 s2) as [s3|] eqn:H2; [|done].
  destruct (read_groups (8 - (length hd + 1)) 0 s3) as [[tl v4'] s4] eqn:Ht. intros [= _ <-].
  apply read_given_char_safe in H1 as (c1 & E1 & F1), H2 as (c2 & E2 & F2); [|done..].
  apply read_groups_safe in Ht as (c3 & E3 & F3).
  destruct (safe_join _ _ _ _ _ Hs Hc E1 F1) as (q1 & G1 & K1).
  destruct (safe_join _ _ _ _ _ G1 K1 E2 F2) as (q2 & G2 & K2). by eapply safe_join.
Qed.

Lemma valid_host_safe host : is_valid_host host = true -> host <> [] /\ Forall (fun c => safe c = true) host.
Proof.
  unfold is_valid_host. destruct host as [|x host]; [done|]. cbn [is_nil orb]. destruct (253 <? _)%nat; [done|].
  intros H. split; [done|].
  destruct (h ← strip_prefix [91] (x :: host); strip_suffix [93] h) as [inner|] eqn:Hi.
  - apply andb_true_iff in H as [_ H]. destruct (strip_prefix [91] (x :: host)) as [h|] eqn:Hp; cbn in Hi; [|done].
    apply strip_prefix_Some in Hp as ->. apply strip_suffix_Some in Hi as ->.
    destruct (read_ipv6_addr inner) as [[z [|y t]]|] eqn:H6; [|done..].
    apply read_ipv6_safe in H6 as (c & Hc & Hs). rewrite app_nil_r in Hc. subst c.
    apply Forall_app. split; [by repeat constructor|]. apply Forall_app. split; [done | by repeat constructor].
  - apply andb_true_iff in H as [_ H]. apply Forall_forall. intros c Hc. rewrite forallb_forall in H.
    specialize (H c (proj1 (list_elem_of_In _ _) Hc)). unfold host_char in H. unfold safe. by rewrite H.
Qed.

Lemma authority_safe h rest : Forall (fun c => safe c = true) h ->
  match rest with [] => True | c :: _ => c = 47 \/ c = 63 end -> authority (h ++ rest) = h.
Proof.
  intros Hh Hr. induction Hh as [|c h Hc _ IH]; cbn [app authority].
  - destruct rest as [|c rest]; [done|]. by destruct Hr as [-> | ->].
  - rewrite IH. destruct ((c =? 47) || (c =? 63) || (c =? 35)) eqn:He; [|done]. exfalso. revert Hc.
    rewrite !orb_true_iff, !Z.eqb_eq in He. by destruct He as [[-> | ->]| ->].
Qed.

Lemma split_authority_Some host bare : split_authority host = Some bare ->
  is_valid_host bare = true /\ exists port, host = bare ++ port
    /\ (port = [] \/ exists digits, port = 58 :: digits /\ digits <> [] /\ Forall (fun c => is_digit c = true) digits).
Proof.
  unfold split_authority. intros H. apply bind_Some in H as ([b port] & Hcut & H).
  assert (Hhost : host = b ++ match port with Some p => 58 :: p | None => [] end).
  { destruct (rfind_sub [93] host) as [close|].
    - destruct (strip_prefix [58] (drop (close + 1) host)) as [p|] eqn:Hp.
      + injection Hcut as <- <-. apply strip_prefix_Some in Hp. rewrite <- (take_drop (close + 1) host) at 1. by rewrite Hp.
      + destruct (drop (close + 1) host) as [|y t] eqn:Hd; [|done]. injection Hcut as <- <-. rewrite <- Hd. by rewrite take_drop.
    - destruct (split_once 58 host) as [[h p]|] eqn:Hs; injection Hcut as <- <-; [|by rewrite app_nil_r].
      by apply split_once_Some in Hs as [-> _]. }
  destruct (match port with Some d => is_nil d || negb (forallb is_digit d) | None => false end) eqn:Hport; [done|].
  destruct (is_valid_host b) eqn:Hv; [|done]. injection H as <-. split; [done|]. eexists. split; [exact Hhost|].
  destruct port as [d|]; [|by left]. right. apply orb_false_iff in Hport as [Hn Hd]. apply negb_false_iff in Hd.
  exists d. split; [done|]. split; [by destruct d|]. apply Forall_forall. intros c Hc. rewrite forallb_forall in Hd.
  by apply Hd, list_elem_of_In.
Qed.

(** A redirect leads to the host the request itself named, on the TLS port, and nowhere else: whatever stands
    in the [Host] header, a reader of the URL finds as its authority exactly that host (one of the allowed
    ones, if there are any) and that port, with no user name before it and no other host after it. *)
Theorem redirect_stays_home host pq port allowed location :
  match pq with c :: _ => c = 47 \/ c = 63 | [] => True end ->
  redirect_location host pq port allowed = Some location ->
  exists h bare, host = Some h /\ split_authority h = Some bare
    /\ url_authority location = Some (bare ++ (if port =? 443 then [] else 58 :: dec port))
    /\ Forall (fun c => safe c = true) bare /\ (64 ∉ bare)
    /\ (allowed <> [] -> exists a, a ∈ allowed /\ eq_ignore_ascii_case a bare = true).
Proof.
  intros Hpq H. unfold redirect_location in H. apply bind_Some in H as (h & -> & H).
  apply bind_Some in H as (bare & Hs & H). destruct (negb (is_nil allowed) && _) eqn:Ha; [done|]. injection H as <-.
  exists h, bare. destruct (split_authority_Some h bare Hs) as [Hv _]. apply valid_host_safe in Hv as [_ Hb].
  split_and!; [done|done| |done| |].
  - assert (Hp : forall x, url_authority (lit "https://" ++ x) = Some (authority x)).
    { intros x. unfold url_authority. by rewrite (proj2 (strip_prefix_Some (lit "https://") _ x) eq_refl). }
    etrans; [exact (Hp (bare ++ (if port =? 443 then [] else 58 :: dec port) ++ pq))|]. f_equal.
    rewrite app_assoc, authority_safe; [done| |done]. apply Forall_app. split; [done|].
    destruct (port =? 443); constructor; [done|]. eapply Forall_impl; [apply dec_digits|]. cbn.
    intros c Hc. unfold safe, is_alnum. by rewrite Hc, orb_true_r.
  - intros Hin. rewrite Forall_forall in Hb. specialize (Hb _ Hin). discriminate.
  - intros Hne. destruct allowed as [|a0 allowed]; [done|]. cbn [is_nil negb andb] in Ha. apply negb_false_iff in Ha.
    apply existsb_exists in Ha as (a & Hin & He). exists a. split; [by apply list_elem_of_In | done].
Qed.

Lemma redirect_stays_home_witness :
  redirect_location (Some (lit "[2001:db8::1]:80")) (lit "/@evil.example") 8443 [] = Some (lit "https://[2001:db8::1]:8443/@evil.example")
  /\ redirect_location (Some (lit "evil.example:443@victim.example")) (lit "/") 443 [] = None
  /\ exists h bare, Some (lit "[2001:db8::1]:80") = Some h /\ split_authority h = Some bare
       /\ url_authority (lit "https://[2001:db8::1]:8443/@evil.example") = Some (bare ++ lit ":8443").
Proof.
  split; [vm_compute; reflexivity|]. split; [vm_compute; reflexivity|].
  destruct (redirect_stays_home (Some (lit "[2001:db8::1]:80")) (lit "/@evil.example") 8443 []
    (lit "https://[2001:db8::1]:8443/@evil.example") ltac:(left; reflexivity) ltac:(vm_compute; reflexivity))
    as (h & bare & H1 & H2 & H3 & _).
  exists h, bare. split; [exact H1|]. split; [exact H2 | exact H3].
Defined.
