(* ===== verification/UpstreamTls.v ===== *)
(** * UpstreamTls: how each https upstream is reached ([src/src/upstream.rs])

    [[upstream_tls]] gives every upstream its CAs, a client certificate and a name to verify, and
    [[upstream_tls.targets]] overrides them for one host and port; the connector looks them up by where it
    dials, or, for a health check, by the target it checks.  [rustls] and the TCP connector are outside. *)

From S2P Require Import Prelude Text Net Units Float Http CertStore Outbound OutboundLaws PoolConfig.

Record UpstreamTlsTarget : Type := mkUpstreamTlsTarget {
  ut_target : bytes; ut_ca_path : bytes; ut_cert_path : bytes; ut_key_path : bytes; ut_server_name : bytes
}.

Record UpstreamTlsCfg : Type := mkUpstreamTlsCfg {
  uc_ca_path : bytes; uc_cert_path : bytes; uc_key_path : bytes; uc_server_name : bytes; uc_targets : list UpstreamTlsTarget
}.

Record Profile : Type := mkProfile { p_config : TlsConfig; p_server_name : option bytes }.

(** [identities]: the pairs presented, each with its store. *)
Record UpstreamTls : Type := mkUpstreamTls {
  default_profile : Profile; targets : gmap (bytes * Z) Profile; identities : gmap (bytes * bytes) nat
}.

Section UpstreamTls.
Variable parse_uri : bytes -> option Uri.
Variables (fs : bytes -> option bytes) (pem_certs : bytes -> option (list bytes)) (usable_ca : bytes -> bool).
Variable bundled : list bytes.
Variable load_pair : bytes -> bytes -> result Live.
Variable server_name_ok : bytes -> bool.                (** [ServerName::try_from] *)

Definition target_key (target : bytes) : result (bytes * Z) :=
  let? uri := ok_or (parse_uri target) "not a URL" in
  ensure (bool_decide (u_scheme uri = Some (lit "https"))) else "must be an https:// URL: TLS settings only apply to https upstreams";
  let? host := ok_or (u_host uri) "no host" in
  Ok (to_ascii_lowercase host, default 443 (u_port uri)).

(** The registry and the pairs listed so far; a failure ends the start of the process. *)
Abbreviation Acc := (Identities * gmap (bytes * bytes) nat)%type.

Definition build_profile (ca_path cert_path key_path server_name used_by : bytes) (acc : Acc) : result (Profile * Acc) :=
  let? rs := roots fs pem_certs usable_ca bundled ca_path in
  let '(ri, st) := identity load_pair cert_path key_path used_by acc.1 in
  let? i := ri in
  let listed := match i with
                | Some i => match acc.2 !! (cert_path, key_path) with
                            | Some _ => acc.2
                            | None => <[(cert_path, key_path) := ci_store i]> acc.2
                            end
                | None => acc.2
                end in
  let? name := (if Outbound.is_empty server_name then Ok None
                else ensure (server_name_ok server_name) else "server_name is not a DNS name or IP"; Ok (Some server_name)) in
  Ok (mkProfile (client_config_verifying (Roots rs) i) name, (st, listed)).

Definition inherit (own global : bytes) : bytes := if Outbound.is_empty own then global else own.

(** The effective settings of an entry: a certificate and its key are inherited together. *)
Definition pair_of (cfg : UpstreamTlsCfg) (t : UpstreamTlsTarget) : bytes * bytes :=
  if Outbound.is_empty (ut_cert_path t) && Outbound.is_empty (ut_key_path t) then (uc_cert_path cfg, uc_key_path cfg)
  else (ut_cert_path t, ut_key_path t).

Fixpoint build_targets (cfg : UpstreamTlsCfg) (ts : list UpstreamTlsTarget) (m : gmap (bytes * Z) Profile) (acc : Acc)
    : result (gmap (bytes * Z) Profile * Acc) :=
  match ts with
  | [] => Ok (m, acc)
  | t :: ts =>
      let? key := target_key (ut_target t) in
      let '(cert, key_file) := pair_of cfg t in
      let? r := build_profile (inherit (ut_ca_path t) (uc_ca_path cfg)) cert key_file
                  (inherit (ut_server_name t) (uc_server_name cfg)) (lit "upstream:" ++ ut_target t) acc in
      ensure (match m !! key with Some _ => false | None => true end) else "upstream_tls.targets lists a target more than once";
      build_targets cfg ts (<[key := r.1]> m) r.2
  end.

(** [UpstreamTls::from_cfg]. *)
Definition upstream_tls (cfg : UpstreamTlsCfg) (st : Identities) : result (UpstreamTls * Identities) :=
  let? d := build_profile (uc_ca_path cfg) (uc_cert_path cfg) (uc_key_path cfg) (uc_server_name cfg) (lit "upstream") (st, ∅) in
  let? ts := build_targets cfg (uc_targets cfg) ∅ d.2 in
  Ok (mkUpstreamTls d.1 ts.1 ts.2.2, ts.2.1).

Definition profile (u : UpstreamTls) (host : bytes) (port : Z) : Profile :=
  default (default_profile u) (targets u !! (to_ascii_lowercase host, port)).

(** ** Connecting *)

Definition url_server_name (host : bytes) : result bytes :=
  let bare := default host (h ← strip_prefix [91] host; strip_suffix [93] h) in
  ensure (server_name_ok bare) else "invalid server name"; Ok bare.

(** What a connection is opened with: nothing but TCP, or a TLS handshake and the name it verifies. *)
Inductive Plan : Type := Plain | Tls (c : TlsConfig) (name : bytes).

(** [UpstreamConnector::call]; [tls_as] is set by [with_tls_of]. *)
Definition connect (u : UpstreamTls) (tls_as : option (bytes * Z)) (uri : Uri) : result Plan :=
  if bool_decide (u_scheme uri = Some (lit "http")) then Ok Plain
  else if bool_decide (u_scheme uri = Some (lit "https")) then
    let? host := ok_or (u_host uri) "upstream URL has no host" in
    let p := match tls_as with
             | Some (h, port) => profile u h port
             | None => profile u host (default 443 (u_port uri))
             end in
    let name_of := match tls_as with Some (h, _) => h | None => host end in
    let? name := match p_server_name p with Some n => Ok n | None => url_server_name name_of end in
    Ok (Tls (p_config p) name)
  else Err "unsupported upstream scheme".

Definition with_tls_of (target : bytes) : option (bytes * Z) := rok (target_key target).

(** ** Laws *)

(** A profile with these settings, given the stores of the pairs. *)
Definition has_settings (p : Profile) (ca cert key name : bytes) (st : gmap (bytes * bytes) nat) : Prop :=
  (exists rs, roots fs pem_certs usable_ca bundled ca = Ok rs /\ tc_verify (p_config p) = Roots rs)
  /\ p_server_name p = (if Outbound.is_empty name then None else Some name)
  /\ (Outbound.is_empty cert = Outbound.is_empty key)
  /\ match tc_identity (p_config p) with
     | Some i => Outbound.is_empty cert = false /\ st !! (cert, key) = Some (ci_store i)
     | None => Outbound.is_empty cert = true
     end.

Lemma identity_stores cert key by_ st i st' : identity load_pair cert key by_ st = (Ok i, st') ->
  Outbound.is_empty cert = Outbound.is_empty key /\ stores st ⊆ stores st'
  /\ match i with
     | Some i => Outbound.is_empty cert = false /\ stores st' !! (cert, key) = Some (ci_store i)
     | None => Outbound.is_empty cert = true
     end.
Proof.
  unfold identity. destruct (Outbound.is_empty cert) eqn:Hc, (Outbound.is_empty key) eqn:Hk; cbn [Bool.eqb negb]; try done.
  - by intros [= <- <-].
  - unfold store_for. destruct (stores st !! (cert, key)) as [s|] eqn:Hs.
    + intros [= <- <-]. by split_and!.
    + destruct (store_load (load_pair cert key)) as [s|]; cbn; [|done]. intros [= <- <-]. cbn. split_and!; try done.
      * by apply insert_subseteq.
      * by rewrite lookup_insert_eq.
Qed.

Lemma build_profile_ok ca cert key name by_ acc p acc' : build_profile ca cert key name by_ acc = Ok (p, acc') ->
  has_settings p ca cert key name (stores acc'.1) /\ stores acc.1 ⊆ stores acc'.1.
Proof.
  unfold build_profile. intros H. apply rbind_Ok in H as (rs & Hrs & H).
  destruct (identity load_pair cert key by_ acc.1) as [ri st] eqn:Hi. apply rbind_Ok in H as (i & -> & H).
  apply rbind_Ok in H as (nm & Hn & H). injection H as <- <-. apply identity_stores in Hi as (He & Hsub & Hid).
  split; [|done]. unfold has_settings. cbn. split_and!; [by exists rs| |done|done].
  destruct (Outbound.is_empty name); [by injection Hn as <-|]. run_inv Hn. by subst nm.
Qed.

Lemma has_settings_mono p ca cert key name st st' : st ⊆ st' -> has_settings p ca cert key name st ->
  has_settings p ca cert key name st'.
Proof.
  intros Hs (H1 & H2 & H3 & H4). split_and!; [done..|]. destruct (tc_identity (p_config p)) as [i|]; [|done].
  destruct H4 as [? H4]. split; [done|]. by eapply lookup_weaken.
Qed.

Definition entry_ok (cfg : UpstreamTlsCfg) (t : UpstreamTlsTarget) (p : Profile) (st : gmap (bytes * bytes) nat) : Prop :=
  has_settings p (inherit (ut_ca_path t) (uc_ca_path cfg)) (pair_of cfg t).1 (pair_of cfg t).2
    (inherit (ut_server_name t) (uc_server_name cfg)) st.

Lemma build_targets_ok cfg ts m acc m' acc' : build_targets cfg ts m acc = Ok (m', acc') ->
  stores acc.1 ⊆ stores acc'.1 /\ m ⊆ m'
  /\ (forall t, t ∈ ts -> exists key p, target_key (ut_target t) = Ok key /\ m' !! key = Some p /\ entry_ok cfg t p (stores acc'.1))
  /\ (forall key p, m' !! key = Some p -> m !! key = Some p \/ exists t, t ∈ ts /\ target_key (ut_target t) = Ok key).
Proof.
  revert m acc. induction ts as [|t ts IH]; intros m acc H; cbn [build_targets] in H.
  { injection H as <- <-. split_and!; [done|done| |auto]. intros t Ht. by apply not_elem_of_nil in Ht. }
  apply rbind_Ok in H as (key & Hk & H). destruct (pair_of cfg t) as [cert kf] eqn:Hp.
  apply rbind_Ok in H as ([p acc1] & Hb & H). cbn [fst snd] in H.
  destruct (m !! key) as [q|] eqn:Hm; [done|]. apply build_profile_ok in Hb as [Hset Hsub].
  destruct (IH _ _ H) as (Hs & Hmm & Hts & Hdom).
  assert (Hkey : m' !! key = Some p) by (eapply lookup_weaken; [apply lookup_insert_eq | exact Hmm]).
  split_and!.
  - by etrans.
  - etrans; [|exact Hmm]. by apply insert_subseteq.
  - intros t' Ht. apply elem_of_cons in Ht as [->|Ht]; [|by apply Hts].
    exists key, p. split_and!; [done|done|]. unfold entry_ok. rewrite Hp. by eapply has_settings_mono.
  - intros key' p' Hl. destruct (Hdom key' p' Hl) as [Hi|(t' & Ht & Hk')]; [|right; exists t'; split; [by right | done]].
    destruct (decide (key' = key)) as [->|Hne]; [right; exists t; split; [by left | done]|].
    rewrite lookup_insert_ne in Hi by done. by left.
Qed.

(** A connector with the TLS settings of [target] opens any https connection as one to that target. *)
Lemma connect_with_tls_of u target uri dialled : parse_uri target = Some uri -> u_scheme uri = Some (lit "https") ->
  u_host uri = to_ascii_lowercase <$> u_host uri -> u_scheme dialled = Some (lit "https") -> u_host dialled <> None ->
  u_host uri <> None -> connect u (with_tls_of target) dialled = connect u None uri.
Proof.
  intros Hp Hsch Hlow Hds Hdh Hh. unfold with_tls_of, target_key. rewrite Hp. cbn.
  rewrite bool_decide_eq_true_2 by done. destruct (u_host uri) as [host|] eqn:Huh; [|done]. cbn in Hlow. injection Hlow as Hlow.
  cbn. unfold connect. rewrite Hds, Hsch, Huh. destruct (u_host dialled) as [dh|]; [|done]. cbn.
  unfold profile. rewrite <- !Hlow. done.
Qed.

(** Every upstream is reached with its own settings: a dial to a listed host and port, in any spelling of its
    case, verifies against the CAs, presents the certificate and expects the name of its own entry (or what
    the entry leaves to the section; a certificate only ever with its key), any other upstream with the
    section's; and a health check that dials elsewhere verifies and presents as requests to its target do. *)
Theorem upstream_tls_exact cfg st u st' : upstream_tls cfg st = Ok (u, st') ->
  (forall t, t ∈ uc_targets cfg -> exists host port, target_key (ut_target t) = Ok (host, port)
     /\ forall h, to_ascii_lowercase h = host -> entry_ok cfg t (profile u h port) (stores st'))
  /\ (forall h port, (forall t, t ∈ uc_targets cfg -> target_key (ut_target t) <> Ok (to_ascii_lowercase h, port)) ->
      has_settings (profile u h port) (uc_ca_path cfg) (uc_cert_path cfg) (uc_key_path cfg) (uc_server_name cfg) (stores st'))
  /\ (forall target uri dialled, parse_uri target = Some uri -> u_scheme uri = Some (lit "https") ->
      u_host uri = to_ascii_lowercase <$> u_host uri -> u_scheme dialled = Some (lit "https") -> u_host dialled <> None ->
      u_host uri <> None -> connect u (with_tls_of target) dialled = connect u None uri).
Proof.
  intros H. unfold upstream_tls in H. apply rbind_Ok in H as ([d acc] & Hd & H). apply rbind_Ok in H as ([m acc'] & Ht & H).
  cbn [fst snd] in *. injection H as <- <-. apply build_profile_ok in Hd as [Hset Hsub].
  destruct (build_targets_ok _ _ _ _ _ _ Ht) as (Hs & _ & Hts & Hdom). split_and!.
  - intros t Hin. destruct (Hts t Hin) as ([host port] & p & Hk & Hm & He). exists host, port. split; [done|].
    intros h <-. unfold profile. cbn [targets]. by rewrite Hm.
  - intros h port Hno. unfold profile. cbn [targets default_profile].
    destruct (m !! (to_ascii_lowercase h, port)) as [p|] eqn:Hm; cbn; [|by eapply has_settings_mono].
    destruct (Hdom _ _ Hm) as [Hi|(t & Hin & Hk)]; [by rewrite lookup_empty in Hi|]. destruct (Hno t Hin Hk).
  - apply connect_with_tls_of.
Qed.
End UpstreamTls.

(** ** A witness *)

Definition sample_uri (t : bytes) : option Uri :=
  if beq t (lit "https://billing:8443") then
    Some (mkUri (Some (lit "https")) (Some (lit "billing:8443")) (Some (lit "billing")) (Some 8443) (lit "/"))
  else None.

Definition sample_cfg : UpstreamTlsCfg :=
  mkUpstreamTlsCfg [] (lit "/c.pem") (lit "/k.pem") []
    [mkUpstreamTlsTarget (lit "https://billing:8443") [] [] [] (lit "billing.internal")].

(** The entry names what is verified and inherits the pair of the section. *)
Lemma upstream_tls_exact_witness : exists u st',
  upstream_tls sample_uri (fun _ => None) (fun _ => None) (fun _ => true) [lit "root"] sample_pair (fun _ => true)
    sample_cfg no_identities = Ok (u, st')
  /\ p_server_name (profile u (lit "BILLING") 8443) = Some (lit "billing.internal")
  /\ entry_ok (fun _ => None) (fun _ => None) (fun _ => true) [lit "root"] sample_cfg
       (mkUpstreamTlsTarget (lit "https://billing:8443") [] [] [] (lit "billing.internal"))
       (profile u (lit "BILLING") 8443) (stores st').
Proof.
  eexists _, _. split; [vm_compute; reflexivity|]. split; [vm_compute; reflexivity|].
  edestruct (upstream_tls_exact sample_uri (fun _ => None) (fun _ => None) (fun _ => true) [lit "root"] sample_pair
    (fun _ => true) sample_cfg no_identities) as [H _]; [vm_compute; reflexivity|].
  destruct (H (mkUpstreamTlsTarget (lit "https://billing:8443") [] [] [] (lit "billing.internal"))) as (h & p & Hk & He);
    [left|]. vm_compute in Hk. injection Hk as <- <-. apply He. vm_compute. reflexivity.
Defined.
