(* ===== verification/Worker.v ===== *)
(** * Worker: the Cloudflare Worker build ([src/worker/src/lib.rs])

    The part of EdgeGuard that runs on an edge host: an authentication gate, the fetch of the origin and the
    hardening of its response, written again against the Workers API.  The [Headers] of that API is an interface
    ([JsHeaders]) with the behaviour the Fetch standard documents ([JsHeadersLaws]); [base64] and the runtime's
    [fetch] are parameters. *)

From S2P Require Import Prelude Text Access Http Der Forwarding ForwardingLaws Auth.

(** ** The interface of [worker::Headers] *)

(** [None] is a thrown [TypeError]. *)
Class JsHeaders (H : Type) : Type := {
  js_get : H -> bytes -> option (option bytes);
  js_get_all : H -> bytes -> option (list bytes);
  js_set : H -> bytes -> bytes -> option H;
  js_append : H -> bytes -> bytes -> option H;
  js_delete : H -> bytes -> option H;
  js_values : H -> bytes -> list bytes             (** what is sent under a name, in lower case *)
}.

(** What the Fetch standard says of them: names are matched without case, [set] replaces, [append] adds,
    [delete] removes; a name that is no token or a value with a control character is refused. *)
Class JsHeadersLaws (H : Type) `{JsHeaders H} (name_ok value_ok : bytes -> bool) : Prop := {
  js_set_ok h n v : name_ok n = true -> value_ok v = true -> exists h', js_set h n v = Some h'
    /\ forall m, js_values h' m = if decide (m = to_ascii_lowercase n) then [v] else js_values h m;
  js_append_ok h n v : name_ok n = true -> value_ok v = true -> exists h', js_append h n v = Some h'
    /\ forall m, js_values h' m = js_values h m ++ (if decide (m = to_ascii_lowercase n) then [v] else []);
  js_delete_ok h n : name_ok n = true -> exists h', js_delete h n = Some h'
    /\ forall m, js_values h' m = if decide (m = to_ascii_lowercase n) then [] else js_values h m;
  js_delete_bad h n : name_ok n = false -> js_delete h n = None;
  js_get_all_cookies h : js_get_all h (lit "set-cookie") = Some (js_values h (lit "set-cookie"))
}.

(** ** Hardening *)

Record Hardening : Type := mkHardening {
  w_hsts : bool; w_csp : bytes; w_csp_report_only : bool; w_csp_report_uri : bytes; w_referrer_policy : bytes;
  w_permissions_policy : bytes; w_frame_options : bytes; w_force_secure_cookies : bool; w_strip : list bytes
}.

Definition default_hardening : Hardening :=
  mkHardening true (lit "default-src 'self'") false [] (lit "no-referrer")
    (lit "geolocation=(), microphone=(), camera=()") (lit "DENY") true [lit "Server"; lit "X-Powered-By"].

Definition W_HSTS_VALUE : bytes := lit "max-age=63072000; includeSubDomains".

Definition push_unless_empty (name v : bytes) (out : list (bytes * bytes)) : list (bytes * bytes) :=
  if negb (is_nil v) then out ++ [(name, v)] else out.

Definition worker_security_headers (h : Hardening) : list (bytes * bytes) :=
  let out := [(lit "X-Content-Type-Options", lit "nosniff")] in
  let out := push_unless_empty (lit "X-Frame-Options") (w_frame_options h) out in
  let out := push_unless_empty (lit "Referrer-Policy") (w_referrer_policy h) out in
  let out := push_unless_empty (lit "Permissions-Policy") (w_permissions_policy h) out in
  let out := if negb (is_nil (w_csp h)) then
               let value := if negb (is_nil (w_csp_report_uri h)) then w_csp h ++ lit "; report-uri " ++ w_csp_report_uri h
                            else w_csp h in
               let name := if w_csp_report_only h then lit "Content-Security-Policy-Report-Only"
                           else lit "Content-Security-Policy" in
               out ++ [(name, value)]
             else out in
  if w_hsts h then out ++ [(lit "Strict-Transport-Security", W_HSTS_VALUE)] else out.

Definition worker_harden_cookie (cookie : bytes) : bytes :=
  let attrs := map (fun p => to_ascii_lowercase (trim (hd [] (split_on 61 (trim p))))) (drop 1 (split_on 59 cookie)) in
  let has a := existsb (beq a) attrs in
  let out := trim_end_matches 59 cookie in
  let out := if negb (has (lit "secure")) then out ++ lit "; Secure" else out in
  let out := if negb (has (lit "httponly")) then out ++ lit "; HttpOnly" else out in
  if negb (has (lit "samesite")) then out ++ lit "; SameSite=Lax" else out.

(** ** The gate *)

Inductive AuthMode : Type := AuthNone | AuthBasic | AuthApiKey.
#[global] Instance AuthMode_eq_dec : EqDecision AuthMode.
Proof. solve_decision. Defined.

Definition parse_mode (s : bytes) : AuthMode :=
  let s := to_ascii_lowercase (trim s) in
  if beq s (lit "basic") then AuthBasic else if beq s (lit "apikey") then AuthApiKey else AuthNone.

Inductive AuthOutcome : Type := Allowed | Denied (www_authenticate : option bytes).

(** The worker's own copy of the comparison in [auth.rs]. *)
Definition worker_constant_time_eq (a b : bytes) : bool :=
  fold_left (fun diff i => Z.lor diff (Z.lxor (default 0 (a !! i)) (default 0 (b !! i))))
    (seq 0 (Nat.max (length a) (length b))) (Z.lxor (len a) (len b)) =? 0.

Definition worker_bearer_token (h : bytes) : option bytes := trim <$> strip_prefix (lit "Bearer ") h.

Definition match_api_key (keys : list bytes) (presented : option bytes) : bool :=
  match trim <$> presented with
  | None => false
  | Some p => if is_nil p then false else fold_left (fun matched k => matched || worker_constant_time_eq k p) keys false
  end.

(** ** Settings *)

Record Settings : Type := mkSettings {
  origin : bytes; auth_mode : AuthMode; w_realm : bytes; basic_user : bytes; basic_pass : bytes;
  w_api_keys : list bytes; w_api_key_header : bytes; hardening : Hardening
}.

Definition parse_bool (s : bytes) (default : bool) : bool :=
  let s := to_ascii_lowercase (trim s) in
  if existsb (beq s) [lit "1"; lit "true"; lit "yes"; lit "on"] then true
  else if existsb (beq s) [lit "0"; lit "false"; lit "no"; lit "off"] then false
  else default.

Definition split_csv (s : bytes) : list bytes := List.filter (fun x => negb (is_nil x)) (map trim (split_on 44 s)).

Definition from_env (get : bytes -> option bytes) : Settings :=
  let d := default_hardening in
  let flag name d := default d ((fun v => parse_bool v d) <$> get name) in
  let hardening := mkHardening (flag (lit "EDGEGUARD_HSTS") (w_hsts d)) (default (w_csp d) (get (lit "EDGEGUARD_CSP")))
    (flag (lit "EDGEGUARD_CSP_REPORT_ONLY") (w_csp_report_only d))
    (default (w_csp_report_uri d) (get (lit "EDGEGUARD_CSP_REPORT_URI")))
    (default (w_referrer_policy d) (get (lit "EDGEGUARD_REFERRER_POLICY")))
    (default (w_permissions_policy d) (get (lit "EDGEGUARD_PERMISSIONS_POLICY")))
    (default (w_frame_options d) (get (lit "EDGEGUARD_FRAME_OPTIONS")))
    (flag (lit "EDGEGUARD_FORCE_SECURE_COOKIES") (w_force_secure_cookies d))
    (default (w_strip d) (split_csv <$> get (lit "EDGEGUARD_STRIP"))) in
  mkSettings (default [] (get (lit "EDGEGUARD_ORIGIN"))) (default AuthNone (parse_mode <$> get (lit "EDGEGUARD_AUTH_MODE")))
    (default (lit "EdgeGuard") (get (lit "EDGEGUARD_REALM"))) (default [] (get (lit "EDGEGUARD_BASIC_USER")))
    (default [] (get (lit "EDGEGUARD_BASIC_PASS"))) (default [] (split_csv <$> get (lit "EDGEGUARD_API_KEYS")))
    (default (lit "X-API-Key") (get (lit "EDGEGUARD_API_KEY_HEADER"))) hardening.

Definition join_origin (origin path_and_query : bytes) : bytes :=
  let base := trim_end_matches 47 origin in
  if is_nil path_and_query then base
  else if starts_with path_and_query [47] then base ++ path_and_query
  else base ++ 47 :: path_and_query.

Section Gate.
Variable b64_decode : bytes -> option bytes.                  (** [STANDARD.decode] *)

Definition check_basic (user pass : bytes) (header : option bytes) : bool :=
  if is_nil user && is_nil pass then false
  else match header with
  | None => false
  | Some h =>
      match strip_prefix (lit "Basic ") h with
      | None => false
      | Some b64 =>
          match b64_decode (trim b64) with
          | None => false
          | Some creds =>
              if negb (from_utf8_ok creds) then false
              else match split_once 58 creds with
                   | None => false
                   | Some (u, p) => worker_constant_time_eq u user && worker_constant_time_eq p pass
                   end
          end
      end
  end.

Definition authorize (s : Settings) (auth_header api_key_value : option bytes) : AuthOutcome :=
  match auth_mode s with
  | AuthNone => Allowed
  | AuthBasic =>
      if check_basic (basic_user s) (basic_pass s) auth_header then Allowed
      else Denied (Some (lit "Basic realm=" ++ 34 :: w_realm s ++ [34]))
  | AuthApiKey =>
      let presented := match trim <$> api_key_value with
                       | Some p => Some p
                       | None => auth_header ≫= worker_bearer_token
                       end in
      if match_api_key (w_api_keys s) presented then Allowed else Denied None
  end.

(** ** The worker *)

Context {H : Type} `{JsHeaders H}.

Inductive Method : Type := Post | Put | Patch | Delete | OtherMethod (name : bytes).

Definition has_body (m : Method) : bool := match m with Post | Put | Patch | Delete => true | OtherMethod _ => false end.

(** [req_url] and [req_body] may throw. *)
Record Request : Type := mkRequest {
  req_method : Method; req_headers : H; req_url : result (bytes * option bytes); req_body : result bytes
}.

(** What is sent to the origin. *)
Record Outgoing : Type := mkOutgoing { o_method : Method; o_url : bytes; o_headers : H; o_body : option bytes }.

Record Response : Type := mkResponse { status : Z; r_headers : H; r_body : result bytes }.

Variable response_error : bytes -> Z -> result Response.      (** [Response::error] *)
Variable request_ok : Outgoing -> bool.                       (** whether [Request::new_with_init] succeeds *)
Variable send : Outgoing -> result Response.                  (** [Fetch::send] *)

(** [headers.op(..).ok()]. *)
Definition ignore (h : H) (o : option H) : H := default h o.

Definition harden_headers (headers : H) (h : Hardening) : H :=
  let headers := fold_left (fun hs e => ignore hs (js_set hs e.1 e.2)) (worker_security_headers h) headers in
  let headers := fold_left (fun hs name => ignore hs (js_delete hs name)) (w_strip h) headers in
  if w_force_secure_cookies h then
    match js_get_all headers (lit "set-cookie") with
    | Some ((_ :: _) as cookies) =>
        fold_left (fun hs c => ignore hs (js_append hs (lit "set-cookie") (worker_harden_cookie c))) cookies
          (ignore headers (js_delete headers (lit "set-cookie")))
    | _ => headers
    end
  else headers.

(** What the origin is asked, if anything, and the answer. *)
Definition fetch (get_env : bytes -> option bytes) (req : Request) : result Response * option Outgoing :=
  let s := from_env get_env in
  if is_nil (origin s) then (response_error (lit "EdgeGuard worker: EDGEGUARD_ORIGIN is not configured") 500, None)
  else
  match authorize s (default None (js_get (req_headers req) (lit "authorization")))
          (default None (js_get (req_headers req) (w_api_key_header s))) with
  | Denied challenge =>
      (let? resp := response_error (lit "Unauthorized") 401 in
       match challenge with
       | None => Ok resp
       | Some c => let? hs := ok_or (js_set (r_headers resp) (lit "WWW-Authenticate") c) "TypeError" in
                   Ok (mkResponse (status resp) hs (r_body resp))
       end, None)
  | Allowed =>
      let out := (let? url := req_url req in
        let path_and_query := match url.2 with Some q => url.1 ++ 63 :: q | None => url.1 end in
        let target := join_origin (origin s) path_and_query in
        let fwd := req_headers req in
        let fwd := ignore fwd (js_delete fwd (lit "host")) in
        let fwd := ignore fwd (js_set fwd (lit "x-forwarded-proto") (lit "https")) in
        let? body := (if has_body (req_method req) then let? b := req_body req in Ok (if is_nil b then None else Some b)
                      else Ok None) in
        let out := mkOutgoing (req_method req) target fwd body in
        ensure (request_ok out) else "TypeError"; Ok out) in
      match out with
      | Err e => (Err e, None)
      | Ok out =>
          (let? resp := send out in
           let? body := r_body resp in
           Ok (mkResponse (status resp) (harden_headers (r_headers resp) (hardening s)) (Ok body)), Some out)
      end
  end.
End Gate.

(** ** The proxy's settings a worker mirrors *)

(** [HeadersCfg::default] of [config.rs]. *)
Definition default_headers_cfg : HeadersCfg :=
  mkHeadersCfg (lit "DENY") (lit "no-referrer") (lit "geolocation=(), microphone=(), camera=()") (lit "default-src 'self'")
    [] false true [lit "Server"; lit "X-Powered-By"] true true [].

Definition proxy_cfg (h : Hardening) : HeadersCfg :=
  mkHeadersCfg (w_frame_options h) (w_referrer_policy h) (w_permissions_policy h) (w_csp h) (w_csp_report_uri h)
    (w_csp_report_only h) (w_hsts h) (w_strip h) (w_force_secure_cookies h) true [].

(** ** Laws: the worker does what the proxy does

    The worker's code is a second writing of parts of [proxy.rs] and [auth.rs]; these theorems are against the
    models of those files. *)

(** ** Hardening *)

Lemma security_headers_same h : worker_security_headers h = security_headers (proxy_cfg h).
Proof.
  unfold worker_security_headers, security_headers, proxy_cfg, push_unless_empty. cbn [frame_options referrer_policy
    permissions_policy csp csp_report_uri csp_report_only hsts].
  destruct (w_frame_options h), (w_referrer_policy h), (w_permissions_policy h), (w_csp h), (w_csp_report_uri h), (w_hsts h);
    cbn [is_nil negb beq app]; by rewrite ?app_nil_r, <- ?app_assoc.
Qed.

Lemma harden_cookie_same c : worker_harden_cookie c = harden_cookie c true.
Proof.
  unfold worker_harden_cookie, harden_cookie. replace (drop 1 (split_on 59 c)) with (tl (split_on 59 c)) by (by destruct (split_on 59 c)).
  change (map _ (tl (split_on 59 c))) with (cookie_attrs c).
  destruct (existsb _ _), (existsb _ _), (existsb _ _); cbn [negb andb]; by rewrite ?app_nil_r, <- ?app_assoc.
Qed.

Lemma default_hardening_same : proxy_cfg default_hardening = default_headers_cfg.
Proof. reflexivity. Qed.

Section Mirror.
Context {H : Type} `{JsHeaders H}.
Variables name_ok js_value_ok : bytes -> bool.
Context `{!JsHeadersLaws H name_ok js_value_ok}.
Variables to_str_ok value_ok : bytes -> bool.
Variable header_name : bytes -> option bytes.

(** The two header maps send the same. *)
Definition same (h : H) (m : Headers) : Prop := forall n, js_values h n = get_all m n.

(** Both check a name against the token grammar and fold its case. *)
Definition same_names : Prop := forall n, header_name n = if name_ok n then Some (to_ascii_lowercase n) else None.

Lemma same_set h m n v : same h m -> name_ok n = true -> js_value_ok v = true ->
  same (ignore h (js_set h n v)) (insert_h m (to_ascii_lowercase n) v).
Proof.
  intros Hs Hn Hv k. destruct (js_set_ok h n v Hn Hv) as (h' & -> & Hh). cbn. by rewrite Hh, get_all_insert, Hs.
Qed.

Lemma same_append h m n v : same h m -> name_ok n = true -> js_value_ok v = true ->
  same (ignore h (js_append h n v)) (append m (to_ascii_lowercase n) v).
Proof.
  intros Hs Hn Hv k. destruct (js_append_ok h n v Hn Hv) as (h' & -> & Hh). cbn. by rewrite Hh, get_all_append, Hs.
Qed.

Lemma same_delete h m n : same h m -> same_names ->
  same (ignore h (js_delete h n)) (match header_name n with Some n => remove m n | None => m end).
Proof.
  intros Hs Hnames. rewrite Hnames. destruct (name_ok n) eqn:Hn; [|by rewrite js_delete_bad].
  intros k. destruct (js_delete_ok h n Hn) as (h' & -> & Hh). cbn. by rewrite Hh, get_all_remove, Hs.
Qed.

Lemma same_sets es h m : same h m -> same_names ->
  (forall e, e ∈ es -> name_ok e.1 = true /\ value_ok e.2 = true /\ js_value_ok e.2 = true) ->
  same (fold_left (fun hs e => ignore hs (js_set hs e.1 e.2)) es h)
    (foldl (fun h e => match header_name e.1 with Some n => if value_ok e.2 then insert_h h n e.2 else h | None => h end) m es).
Proof.
  intros Hs Hnames. revert h m Hs. induction es as [|e es IH]; intros h m Hs Hok; [done|]. cbn.
  destruct (Hok e) as (Hn & Hv & Hj); [by left|]. apply IH; [|by intros; apply Hok; right].
  rewrite Hnames, Hn, Hv. by apply same_set.
Qed.

Lemma same_deletes ns h m : same h m -> same_names ->
  same (fold_left (fun hs n => ignore hs (js_delete hs n)) ns h)
    (foldl (fun h name => match header_name name with Some n => remove h n | None => h end) m ns).
Proof.
  intros Hs Hnames. revert h m Hs. induction ns as [|n ns IH]; intros h m Hs; [done|]. cbn. apply IH. by apply same_delete.
Qed.

(** A cookie as the worker sends it, and as the proxy does: the proxy leaves one that is not text alone. *)
Definition worker_cookie (hd : Hardening) (c : bytes) : bytes := if w_force_secure_cookies hd then harden_cookie c true else c.
Definition proxy_cookie (hd : Hardening) (c : bytes) : bytes :=
  if w_force_secure_cookies hd && to_str_ok c then harden_cookie c true else c.

Lemma worker_cookies cs (h : H) n : name_ok (lit "set-cookie") = true ->
  (forall c, c ∈ cs -> js_value_ok (harden_cookie c true) = true) ->
  js_values (fold_left (fun hs c => ignore hs (js_append hs (lit "set-cookie") (worker_harden_cookie c))) cs h) n
  = js_values h n ++ (if decide (n = lit "set-cookie") then map (fun c => harden_cookie c true) cs else []).
Proof.
  intros Hn. revert h. induction cs as [|c cs IH]; intros h Hok; cbn [fold_left map]; [case_decide; by rewrite app_nil_r|].
  rewrite IH by (intros; apply Hok; by right). rewrite harden_cookie_same.
  destruct (js_append_ok h (lit "set-cookie") (harden_cookie c true) Hn (Hok c ltac:(by left))) as (h' & -> & Hh).
  cbn [ignore]. unfold ignore. cbn [default from_option]. unfold id. rewrite Hh.
  change (to_ascii_lowercase (lit "set-cookie")) with (lit "set-cookie"). case_decide; [by rewrite <- app_assoc | by rewrite !app_nil_r].
Qed.

Lemma proxy_cookies cfg cs (m : Headers) n : httponly_cookies cfg = true -> httponly_cookie_exempt cfg = [] ->
  (forall c, c ∈ cs -> to_str_ok c = true -> value_ok (harden_cookie c true) = true) ->
  get_all (foldl (harden_one to_str_ok value_ok cfg) m cs) n
  = get_all m n ++ (if decide (n = lit "set-cookie")
                    then map (fun c => if to_str_ok c then harden_cookie c true else c) cs else []).
Proof.
  intros Ho He. revert m. induction cs as [|c cs IH]; intros m Hok; cbn [foldl map]; [case_decide; by rewrite app_nil_r|].
  rewrite IH by (intros; apply Hok; [by right|done]). unfold harden_one. rewrite Ho, He. cbn [cookie_name_exempt existsb negb andb].
  specialize (Hok c ltac:(by left)). destruct (to_str_ok c); [rewrite Hok by done|]; rewrite get_all_append;
    case_decide; by rewrite ?app_nil_r, <- ?app_assoc.
Qed.

Lemma stripped_exact ns (m : Headers) n :
  get_all (foldl (fun h name => match header_name name with Some n => remove h n | None => h end) m ns) n
  = if decide (n ∈ omap header_name ns) then [] else get_all m n.
Proof.
  revert m. induction ns as [|a ns IH]; intros m; cbn [foldl omap list_omap]; [by rewrite decide_False by apply not_elem_of_nil|].
  rewrite IH. destruct (header_name a) as [k|]; [|done]. rewrite get_all_remove.
  destruct (decide (n = k)) as [->|Hne]; [rewrite (decide_True (P := k ∈ k :: _)) by left; by case_decide|].
  destruct (decide (n ∈ omap header_name ns)); [by rewrite decide_True by by right|].
  by rewrite decide_False by (rewrite elem_of_cons; tauto).
Qed.

Lemma inserted_others es (m : Headers) n : same_names -> (forall e, e ∈ es -> to_ascii_lowercase e.1 <> n) ->
  get_all (foldl (fun h e => match header_name e.1 with Some n => if value_ok e.2 then insert_h h n e.2 else h | None => h end) m es) n
  = get_all m n.
Proof.
  intros Hnames. revert m. induction es as [|e es IH]; intros m He; [done|]. cbn [foldl]. rewrite IH by (intros; apply He; by right).
  rewrite Hnames. destruct (name_ok e.1); [|done]. destruct (value_ok e.2); [|done]. rewrite get_all_insert.
  rewrite decide_False; [done|]. intros ->. by apply (He e); [left|].
Qed.

Lemma security_names cfg e : e ∈ security_headers cfg -> to_ascii_lowercase e.1 <> lit "set-cookie".
Proof.
  unfold security_headers. intros He.
  repeat (apply elem_of_app in He as [He|He]); repeat case_match; try (by apply elem_of_nil in He);
    apply list_elem_of_singleton in He as ->; vm_compute; discriminate.
Qed.

(** C31.  A worker hardens a response as the proxy with the same settings and no cookie exempt from [HttpOnly] does:
    whatever the origin sent, the two send the same values under every name but [Set-Cookie], and there the
    same cookies in the same order, each hardened alike, but that the proxy sends a cookie that is not text
    as it came, which the worker hardens too.  So the two agree on every response whose cookies are text.  By
    default both have those settings. *)
Theorem worker_mirrors_proxy hd h m : same h m -> same_names -> name_ok (lit "set-cookie") = true ->
  (forall e, e ∈ security_headers (proxy_cfg hd) -> name_ok e.1 = true /\ value_ok e.2 = true /\ js_value_ok e.2 = true) ->
  (forall c, c ∈ get_all m (lit "set-cookie") -> js_value_ok (harden_cookie c true) = true
     /\ (to_str_ok c = true -> value_ok (harden_cookie c true) = true)) ->
  let w := harden_headers h hd in
  let p := harden_response to_str_ok value_ok header_name (proxy_cfg hd) m in
  proxy_cfg default_hardening = default_headers_cfg
  /\ (forall n, n <> lit "set-cookie" -> js_values w n = get_all p n)
  /\ (let cs := if decide (lit "set-cookie" ∈ omap header_name (w_strip hd)) then [] else get_all m (lit "set-cookie") in
      js_values w (lit "set-cookie") = map (worker_cookie hd) cs /\ get_all p (lit "set-cookie") = map (proxy_cookie hd) cs)
  /\ ((forall c, c ∈ get_all m (lit "set-cookie") -> to_str_ok c = true) -> same w p).
Proof.
  intros Hs Hnames Hsc Hsec Hck w p. split; [done|].
  set (cs := if decide _ then [] else get_all m (lit "set-cookie")).
  assert (Hin : forall c, c ∈ cs -> c ∈ get_all m (lit "set-cookie")).
  { intros c. unfold cs. case_decide; [by intros ?%not_elem_of_nil | done]. }
  enough (Hmain : (forall n, n <> lit "set-cookie" -> js_values w n = get_all p n)
    /\ js_values w (lit "set-cookie") = map (worker_cookie hd) cs /\ get_all p (lit "set-cookie") = map (proxy_cookie hd) cs).
  { destruct Hmain as (Ho & Hw & Hp). split; [done|]. split; [done|]. intros Htext n.
    destruct (decide (n = lit "set-cookie")) as [->|Hne]; [|by apply Ho]. rewrite Hw, Hp. apply map_ext_in. intros c Hc.
    unfold worker_cookie, proxy_cookie. rewrite Htext; [by rewrite andb_true_r|]. by apply Hin, list_elem_of_In. }
  unfold w, p, harden_headers, harden_response. rewrite security_headers_same.
  pose proof (same_sets _ _ _ Hs Hnames Hsec) as H1. pose proof (same_deletes (w_strip hd) _ _ H1 Hnames) as H2.
  change (strip (proxy_cfg hd)) with (w_strip hd). change (force_secure_cookies (proxy_cfg hd)) with (w_force_secure_cookies hd).
  pose proof (stripped_exact (w_strip hd) (foldl (fun h e => match header_name e.1 with
    | Some n => if value_ok e.2 then insert_h h n e.2 else h | None => h end) m (security_headers (proxy_cfg hd))) (lit "set-cookie")) as Hcs.
  rewrite inserted_others in Hcs by (done || intros e; apply security_names). fold cs in Hcs.
  revert H2 Hcs. set (h2 := fold_left _ (w_strip hd) _). set (m2 := foldl _ _ (w_strip hd)). intros H2 Hcs.
  unfold worker_cookie, proxy_cookie. destruct (w_force_secure_cookies hd); cbn [andb].
  2: { split; [by intros|]. rewrite !map_id. by rewrite (H2 _). }
  rewrite js_get_all_cookies, (H2 (lit "set-cookie")), Hcs. destruct cs as [|c cs'] eqn:Hc.
  { split; [by intros|]. by rewrite (H2 _), Hcs. }
  pose proof (same_delete h2 m2 (lit "set-cookie") H2 Hnames) as Hd. rewrite Hnames, Hsc in Hd.
  change (to_ascii_lowercase (lit "set-cookie")) with (lit "set-cookie") in Hd.
  assert (Hok : forall x, x ∈ c :: cs' -> js_value_ok (harden_cookie x true) = true
                  /\ (to_str_ok x = true -> value_ok (harden_cookie x true) = true)) by (intros x Hx; apply Hck, Hin, Hx).
  split.
  - intros n Hne. rewrite worker_cookies, proxy_cookies by (done || intros; by apply Hok).
    rewrite !decide_False, !app_nil_r by done. apply Hd.
  - rewrite worker_cookies, proxy_cookies by (done || intros; by apply Hok).
    rewrite !decide_True by done. rewrite (Hd _), get_all_remove, decide_True by done. done.
Qed.
End Mirror.

(** ** The gate *)

Lemma worker_constant_time_eq_true a b : worker_constant_time_eq a b = true <-> a = b.
Proof. apply (constant_time_eq_true a b). Qed.

Lemma any_key keys p m : fold_left (fun matched k => matched || worker_constant_time_eq k p) keys m = true <-> m = true \/ p ∈ keys.
Proof.
  revert m. induction keys as [|k keys IH]; intros m; cbn; [rewrite elem_of_nil; tauto|].
  rewrite IH, orb_true_iff, worker_constant_time_eq_true, elem_of_cons. intuition congruence.
Qed.

Section Gate.
Variable b64_decode : bytes -> option bytes.

(** What lets a request through to the origin. *)
Definition granted (s : Settings) (auth key : option bytes) : Prop :=
  match auth_mode s with
  | AuthNone => True
  | AuthBasic =>
      (basic_user s, basic_pass s) <> ([], []) /\ 58 ∉ basic_user s /\
      exists b64 creds, auth = Some (lit "Basic " ++ b64) /\ b64_decode (trim b64) = Some creds
        /\ from_utf8_ok creds = true /\ creds = basic_user s ++ 58 :: basic_pass s
  | AuthApiKey =>
      exists k, k ∈ w_api_keys s /\ k <> []
        /\ match key with Some v => trim v = k | None => exists t, auth = Some (lit "Bearer " ++ t) /\ trim t = k end
  end.

Lemma check_basic_granted user pass auth : check_basic b64_decode user pass auth = true <->
  (user, pass) <> ([], []) /\ 58 ∉ user /\
  exists b64 creds, auth = Some (lit "Basic " ++ b64) /\ b64_decode (trim b64) = Some creds
    /\ from_utf8_ok creds = true /\ creds = user ++ 58 :: pass.
Proof.
  unfold check_basic. split.
  - destruct (is_nil user && is_nil pass) eqn:Hn; [done|]. destruct auth as [h|]; [|done].
    destruct (strip_prefix (lit "Basic ") h) as [b|] eqn:Hb; [|done]. destruct (b64_decode (trim b)) as [c|] eqn:Hc; [|done].
    destruct (from_utf8_ok c) eqn:Hu; cbn [negb]; [|done]. destruct (split_once 58 c) as [[u p]|] eqn:Hsp; [|done].
    rewrite andb_true_iff, !worker_constant_time_eq_true. intros [-> ->]. apply split_once_Some in Hsp as [-> Hno].
    apply strip_prefix_Some in Hb as ->. split_and!; [by intros [= -> ->] | done | by exists b, (user ++ 58 :: pass)].
  - intros (Hne & Hno & b & c & -> & Hc & Hu & ->).
    assert (is_nil user && is_nil pass = false) as -> by (by destruct user, pass).
    rewrite (proj2 (strip_prefix_Some _ _ b) eq_refl), Hc, Hu. cbn [negb].
    rewrite (proj2 (split_once_Some 58 _ user pass) (conj eq_refl Hno)).
    by rewrite andb_true_iff, !worker_constant_time_eq_true.
Qed.

Lemma match_api_key_granted keys p : match_api_key keys p = true <-> exists v, p = Some v /\ trim v ∈ keys /\ trim v <> [].
Proof.
  unfold match_api_key. destruct p as [v|]; cbn; [|by split; [|intros (v & ? & _)]].
  destruct (trim v) as [|c t] eqn:Ht; cbn [is_nil].
  - split; [done|]. intros (w & [= <-] & _ & Hn). congruence.
  - rewrite any_key. split; [intros [?|Hin]; [done|]; exists v; by rewrite Ht|]. intros (w & [= <-] & Hin & _). right. by rewrite <- Ht.
Qed.

Lemma authorize_granted s auth key : authorize b64_decode s auth key = Allowed <-> granted s auth key.
Proof.
  unfold authorize, granted. destruct (auth_mode s); [done| |].
  - rewrite <- check_basic_granted. by destruct (check_basic _ _ _ _).
  - match goal with |- context [match_api_key ?ks ?p] => pose proof (match_api_key_granted ks p) as Hm; destruct (match_api_key ks p) end.
    + split; [intros _|intros _; reflexivity]. destruct (proj1 Hm eq_refl) as (v & Hv & Hin & Hne). exists (trim v). split_and!; [done|done|].
      destruct key as [k|]; cbn [fmap option_fmap option_map] in Hv; [injection Hv as <-; by rewrite trim_idem|].
      destruct auth as [a|]; [|done]. cbn [mbind option_bind] in Hv. unfold worker_bearer_token in Hv.
      destruct (strip_prefix (lit "Bearer ") a) as [t|] eqn:Ht; [|done]. injection Hv as <-. apply strip_prefix_Some in Ht as ->.
      exists t. by rewrite trim_idem.
    + split; [discriminate|]. intros (k & Hin & Hne & Hk). exfalso. enough (false = true) by done. apply Hm.
      destruct key as [v|]; cbn; [subst k; exists (trim v); by rewrite trim_idem|]. destruct Hk as (t & -> & <-). cbn [mbind option_bind].
      unfold worker_bearer_token. rewrite (proj2 (strip_prefix_Some _ _ t) eq_refl). exists (trim t). by rewrite trim_idem.
Qed.
End Gate.

(** ** The whole worker *)

Lemma join_origin_base o p : join_origin o p = trim_end_matches 47 o \/ exists r, join_origin o p = trim_end_matches 47 o ++ 47 :: r.
Proof.
  unfold join_origin. destruct p as [|c p]; cbn [is_nil]; [by left|]. right.
  destruct (starts_with (c :: p) [47]) eqn:Hs; [|by eexists]. exists p. f_equal.
  unfold starts_with in Hs. destruct (strip_prefix [47] (c :: p)) as [q|] eqn:Hq; [|done].
  apply strip_prefix_Some in Hq. by injection Hq as -> ->.
Qed.

Section Worker.
Variable b64_decode : bytes -> option bytes.
Context {H : Type} `{JsHeaders H}.
Variables name_ok js_value_ok : bytes -> bool.
Context `{!JsHeadersLaws H name_ok js_value_ok}.
Variable response_error : bytes -> Z -> result (@Response H).
Variable request_ok : @Outgoing H -> bool.
Variable send : @Outgoing H -> result (@Response H).

(** The worker asks the origin nothing unless the request carries what its settings grant: the credential sent
    to it decodes to the configured user and password, or is one of the non-empty keys.  What it then fetches
    is below its origin, without the client's [Host] and marked [https]; and a request that is refused is
    answered 401 without a fetch. *)
Theorem worker_gate get_env req r sent :
  name_ok (lit "host") = true -> name_ok (lit "x-forwarded-proto") = true -> js_value_ok (lit "https") = true ->
  (forall m st resp, response_error m st = Ok resp -> status resp = st) ->
  fetch b64_decode response_error request_ok send get_env req = (r, sent) ->
  let s := from_env get_env in
  let auth := default None (js_get (req_headers req) (lit "authorization")) in
  let key := default None (js_get (req_headers req) (w_api_key_header s)) in
  (forall out, sent = Some out -> origin s <> [] /\ granted b64_decode s auth key
     /\ (o_url out = trim_end_matches 47 (origin s) \/ exists p, o_url out = trim_end_matches 47 (origin s) ++ 47 :: p)
     /\ js_values (o_headers out) (lit "host") = [] /\ js_values (o_headers out) (lit "x-forwarded-proto") = [lit "https"])
  /\ (origin s <> [] -> ~ granted b64_decode s auth key -> sent = None /\ forall resp, r = Ok resp -> status resp = 401).
Proof.
  intros Hhost Hxfp Hhttps Herr Hf s auth key. unfold fetch in Hf. fold s in Hf. fold auth key in Hf.
  destruct (origin s) as [|c o] eqn:Ho; cbn [is_nil] in Hf; [by injection Hf as <- <-|].
  pose proof (authorize_granted b64_decode s auth key) as Hg.
  destruct (authorize b64_decode s auth key) as [|challenge] eqn:Ha.
  - split; [|by intros _ []; apply Hg].
    match type of Hf with match ?o with _ => _ end = _ => destruct o as [out|] eqn:Hout end; injection Hf as <- <-; [|done].
    intros ? [= <-]. split_and!; [done | by apply Hg | ..]; run_inv Hout; subst out; cbn [o_url o_headers];
      [apply join_origin_base|..]; destruct (js_delete_ok (req_headers req) (lit "host") Hhost) as (h1 & -> & H1);
      cbn [ignore]; unfold ignore; cbn [default from_option]; unfold id;
      destruct (js_set_ok h1 (lit "x-forwarded-proto") (lit "https") Hxfp Hhttps) as (h2 & -> & H2); cbn; rewrite H2.
    + rewrite H1. done.
    + done.
  - injection Hf as <- <-. split; [done|]. intros _ _. split; [done|]. intros resp Hr.
    apply rbind_Ok in Hr as (e & He & Hr). apply Herr in He. destruct challenge as [ch|]; [|by injection Hr as <-].
    apply rbind_Ok in Hr as (hs & _ & Hr). by injection Hr as <-.
Qed.
End Worker.

(** ** The same credentials as the proxy *)

(** A worker with one user, or with keys, lets in exactly the credentials that the proxy configured with the same
    user (its password not a hash) or keys lets in. *)
Theorem worker_auth_mirrors_proxy {Phc} to_str_ok b64_decode (phc_new : bytes -> option Phc) phc_verify hash_str
    (cfg : AuthCfg) user pass keys header h :
  users cfg = {[ user := pass ]} -> starts_with pass (lit "$argon2") = false -> (user, pass) <> ([], []) -> [] ∉ keys ->
  check_basic b64_decode user pass (get h AUTHORIZATION ≫= to_str to_str_ok)
    = check_basic_auth to_str_ok b64_decode phc_new phc_verify cfg h
  /\ match_api_key keys (presented_key to_str_ok header h)
    = match verify_api_key to_str_ok hash_str keys header h with Some _ => true | None => false end.
Proof.
  intros Hu Ha Hne Hk. split.
  - unfold check_basic_auth, check_basic, basic_credentials.
    assert (is_nil user && is_nil pass = false) as -> by (by destruct user, pass).
    destruct (get h AUTHORIZATION) as [v|]; [|done]. cbn [mbind option_bind]. destruct (to_str to_str_ok v) as [a|]; [|done].
    cbn [mbind option_bind]. destruct (strip_prefix (lit "Basic ") a) as [b|]; [|done]. cbn [mbind option_bind].
    destruct (b64_decode (trim b)) as [d|]; [|done]. cbn [mbind option_bind]. destruct (from_utf8_ok d); [|done]. cbn [negb].
    destruct (split_once 58 d) as [[u p]|]; [|done]. rewrite Hu. destruct (decide (u = user)) as [->|Hn].
    + rewrite lookup_singleton_eq, Ha. rewrite (proj2 (worker_constant_time_eq_true user user) eq_refl). cbn [andb].
      apply eq_bool_prop_intro. rewrite !Is_true_true, worker_constant_time_eq_true, constant_time_eq_true. naive_solver.
    + rewrite lookup_singleton_ne by done. destruct (worker_constant_time_eq u user) eqn:E; [|done].
      by apply worker_constant_time_eq_true in E.
  - unfold verify_api_key. assert (Ht : forall v, presented_key to_str_ok header h = Some v -> trim v = v).
    { unfold presented_key, bearer_token. intros v.
      destruct (get h header ≫= to_str to_str_ok) as [w|]; [intros [= <-]; apply trim_idem|].
      destruct (get h AUTHORIZATION ≫= _) as [w|] eqn:E; [|done]. intros [= <-]. revert E.
      destruct (get h AUTHORIZATION) as [x|]; [|done]. cbn [mbind option_bind]. destruct (to_str to_str_ok x) as [y|]; [|done].
      cbn [mbind option_bind]. destruct (strip_prefix (lit "Bearer ") y) as [t|]; [|done]. intros [= <-]. apply trim_idem. }
    destruct (presented_key to_str_ok header h) as [v|]; [|done]. cbn [mbind option_bind]. rewrite last_match_key.
    apply eq_bool_prop_intro. rewrite !Is_true_true, match_api_key_granted. specialize (Ht v eq_refl). split.
    + intros (w & [= <-] & Hin & _). rewrite Ht in Hin. by rewrite decide_True.
    + case_decide as Hin; [|done]. intros _. exists v. rewrite Ht. split_and!; [done|done|]. by intros ->.
Qed.

(** ** Witnesses: the header map of [Http] has the laws *)

#[export] Instance list_headers : JsHeaders Headers := {
  js_get h n := Some (get h (to_ascii_lowercase n));
  js_get_all h n := Some (get_all h (to_ascii_lowercase n));
  js_set h n v := Some (insert_h h (to_ascii_lowercase n) v);
  js_append h n v := Some (append h (to_ascii_lowercase n) v);
  js_delete h n := Some (remove h (to_ascii_lowercase n));
  js_values := get_all
}.

#[export] Instance list_headers_laws : JsHeadersLaws Headers (fun _ => true) (fun _ => true).
Proof.
  constructor; try done.
  - intros h n v _ _. eexists. split; [reflexivity|]. apply get_all_insert.
  - intros h n v _ _. eexists. split; [reflexivity|]. apply get_all_append.
  - intros h n _. eexists. split; [reflexivity|]. apply get_all_remove.
Qed.

(** An answer with a cookie that is not text. *)
Definition sample_response : Headers :=
  [(lit "server", lit "nginx"); (lit "set-cookie", lit "sid=1; Secure"); (lit "set-cookie", lit "n=" ++ [195; 169])].

Lemma worker_mirrors_proxy_witness :
  let text c := forallb (fun b => b <? 128) c in
  let w := harden_headers sample_response default_hardening in
  let p := harden_response text (fun _ => true) (fun n => Some (to_ascii_lowercase n)) (proxy_cfg default_hardening)
             sample_response in
  get_all w (lit "set-cookie")
    = [lit "sid=1; Secure; HttpOnly; SameSite=Lax"; lit "n=" ++ [195; 169] ++ lit "; Secure; HttpOnly; SameSite=Lax"]
  /\ get_all p (lit "set-cookie") = [lit "sid=1; Secure; HttpOnly; SameSite=Lax"; lit "n=" ++ [195; 169]]
  /\ forall n, n <> lit "set-cookie" -> js_values w n = get_all p n.
Proof.
  intros text w p. split; [vm_compute; reflexivity|]. split; [vm_compute; reflexivity|].
  apply (worker_mirrors_proxy (fun _ => true) (fun _ => true) text (fun _ => true)
    (fun n => Some (to_ascii_lowercase n)) default_hardening sample_response sample_response); done.
Defined.

Definition sample_env (k : bytes) : option bytes :=
  if beq k (lit "EDGEGUARD_ORIGIN") then Some (lit "https://o.example/")
  else if beq k (lit "EDGEGUARD_AUTH_MODE") then Some (lit "APIKEY")
  else if beq k (lit "EDGEGUARD_API_KEYS") then Some (lit "k1, k2") else None.

Definition sample_request (key : bytes) : @Request Headers :=
  mkRequest (OtherMethod (lit "GET")) [(lit "host", lit "edge.example"); (lit "x-api-key", key)] (Ok (lit "/a", Some (lit "b=1"))) (Ok []).

Definition sample_error (m : bytes) (st : Z) : result (@Response Headers) := Ok (mkResponse st [] (Ok m)).

Definition sample_send (o : @Outgoing Headers) : result (@Response Headers) := Ok (mkResponse 200 sample_response (Ok [])).

Lemma worker_gate_witness :
  o_url <$> (fetch (fun _ => None) sample_error (fun _ => true) sample_send sample_env (sample_request (lit "k2"))).2
    = Some (lit "https://o.example/a?b=1")
  /\ (fetch (fun _ => None) sample_error (fun _ => true) sample_send sample_env (sample_request (lit "k3"))).2 = None
  /\ granted (fun _ => None) (from_env sample_env) None (Some (lit "k2")).
Proof.
  split; [vm_compute; reflexivity|]. split; [vm_compute; reflexivity|].
  edestruct (worker_gate (fun _ => None) (fun _ => true) (fun _ => true) sample_error (fun _ => true) sample_send sample_env
    (sample_request (lit "k2"))) as [Hs _]; [reflexivity | reflexivity | reflexivity | by intros m st resp [= <-] |
    apply surjective_pairing |]. eassert (Hg := Hs _ _). exact (proj1 (proj2 Hg)). Unshelve. 2: vm_compute; reflexivity.
Defined.

Definition sample_auth : AuthCfg :=
  mkAuthCfg [] [] {[ lit "admin" := lit "s3cret" ]} [] [] (mkJwtCfg [] [] [] [] 0 [] [] 0) [].

Lemma worker_auth_mirrors_proxy_witness :
  match_api_key [lit "k1"] (presented_key (fun _ => true) (lit "x-api-key") [(lit "x-api-key", lit " k1")]) = true
  /\ match_api_key [lit "k1"] (presented_key (fun _ => true) (lit "x-api-key") [(lit "x-api-key", lit " k1")])
     = match verify_api_key (fun _ => true) (fun _ => 0) [lit "k1"] (lit "x-api-key") [(lit "x-api-key", lit " k1")] with
       | Some _ => true | None => false end.
Proof.
  split; [vm_compute; reflexivity|].
  apply (worker_auth_mirrors_proxy (Phc := unit) (fun _ => true) (fun _ => None) (fun _ => None) (fun _ _ => false) (fun _ => 0)
    sample_auth (lit "admin") (lit "s3cret") [lit "k1"] (lit "x-api-key") [(lit "x-api-key", lit " k1")]);
    [reflexivity | reflexivity | discriminate |]. intros Hin%list_elem_of_singleton. discriminate.
Defined.
