(* ===== verification/Accounting.v ===== *)
(** * Accounting: what a request leaves behind ([src/src/proxy.rs], [handle], [finish], [CountingBody])

    The counters, the access line and the settlement of a request, for an answer of the edge, a buffered
    response and a streamed one, whose body counts what the client reads of it and settles when it is dropped.
    Effects on the rest of the process (metrics, log lines, spans, budget calls) are recorded in order. *)

From S2P Require Import Prelude Text Net Units Float Http Budget ClientCert Telemetry Metrics Privacy Dlp Llm LlmGate Forwarding Pipeline.

(** ** The access line *)

Definition ACCESS_RECORD_SCHEMA : Z := 2.

Record AccessRecord : Type := mkAccessRecord {
  ar_schema : Z; ar_ts : bytes; ar_request_id : bytes; ar_method : bytes; ar_target : bytes; ar_client_ip : bytes;
  ar_status : Z; ar_outcome : bytes; ar_latency_ms : Z; ar_duration_ms : Z; ar_edge_id : bytes; ar_route : bytes;
  ar_principal : option bytes; ar_user_agent : option bytes; ar_upstream : option bytes; ar_upstream_ms : option Z;
  ar_bytes_in : option Z; ar_bytes_out : option Z; ar_tls_version : option bytes; ar_client_cert : option bytes
}.

Record AccessLine : Type := mkAccessLine { al_started : Z; al_record : AccessRecord }.

Record FinishInfo : Type := mkFinishInfo {
  fi_outcome : bytes; fi_status : Z; fi_elapsed : Duration; fi_request_id : bytes; fi_target : bytes; fi_client_ip : IpAddr
}.

(** A consumer's series, by its label. *)
Definition Consumer : Type := bytes.

(** [OnceLock]s that are set at most once, the flag and the waiting line. *)
Record RequestCtx : Type := mkRequestCtx {
  cx_consumer : option Consumer; cx_principal : option bytes; cx_upstream : option bytes; cx_upstream_ms : option Z;
  cx_upstream_busy : option Duration; cx_bytes : option (Z * Z); cx_streamed : bool; cx_pending : option AccessLine
}.

Definition set_bytes (c : RequestCtx) (b : Z * Z) : RequestCtx :=
  mkRequestCtx (cx_consumer c) (cx_principal c) (cx_upstream c) (cx_upstream_ms c) (cx_upstream_busy c)
    (match cx_bytes c with Some b => Some b | None => Some b end) (cx_streamed c) (cx_pending c).

Definition set_streamed (c : RequestCtx) : RequestCtx :=
  mkRequestCtx (cx_consumer c) (cx_principal c) (cx_upstream c) (cx_upstream_ms c) (cx_upstream_busy c) (cx_bytes c) true (cx_pending c).

Definition set_pending (c : RequestCtx) (l : option AccessLine) : RequestCtx :=
  mkRequestCtx (cx_consumer c) (cx_principal c) (cx_upstream c) (cx_upstream_ms c) (cx_upstream_busy c) (cx_bytes c) (cx_streamed c) l.

(** ** Effects *)

Inductive Effect : Type :=
| RequestCounted (outcome : bytes) | LatencyObserved (d : Duration) | UsageRequest (outcome : bytes)
| UsageBytes (ingress egress : Z) | ConsumerBytes (c : Consumer) (ingress egress : Z)
| RouteCounted (route method : bytes) (status : Z) (d : Duration) | EdgeOverhead (d : Duration)
| ConsumerCounted (c : Consumer) (status : Z)
| Line (r : AccessRecord) | LineShipped (r : AccessRecord)
| LlmUsage (model : bytes) (s : LlmSample) | LlmTeamUsage (team : bytes) (s : LlmSample) | LlmKeyUsage (key : bytes) (s : LlmSample)
| LlmLatency (ttft : Duration) (tpot : option Duration) | LlmNoUsage
| SpanEmitted (s : SpanRecord) | SpanRecorded (s : ServerSpan) | Reconciled (r : Reservation) (actual : Spend).

Definition ms (d : Duration) : Z := d / 1000000.

(** The record with what the shipper stamps: when, and which edge. *)
Definition stamped (r : AccessRecord) (ts edge : bytes) : AccessRecord :=
  mkAccessRecord (ar_schema r) ts (ar_request_id r) (ar_method r) (ar_target r) (ar_client_ip r) (ar_status r) (ar_outcome r)
    (ar_latency_ms r) (ar_duration_ms r) edge (ar_route r) (ar_principal r) (ar_user_agent r) (ar_upstream r)
    (ar_upstream_ms r) (ar_bytes_in r) (ar_bytes_out r) (ar_tls_version r) (ar_client_cert r).

Definition with_duration (r : AccessRecord) (d : Z) : AccessRecord :=
  mkAccessRecord (ar_schema r) (ar_ts r) (ar_request_id r) (ar_method r) (ar_target r) (ar_client_ip r) (ar_status r)
    (ar_outcome r) (ar_latency_ms r) d (ar_edge_id r) (ar_route r) (ar_principal r) (ar_user_agent r) (ar_upstream r)
    (ar_upstream_ms r) (ar_bytes_in r) (ar_bytes_out r) (ar_tls_version r) (ar_client_cert r).

Definition with_bytes (r : AccessRecord) (i o : Z) : AccessRecord :=
  mkAccessRecord (ar_schema r) (ar_ts r) (ar_request_id r) (ar_method r) (ar_target r) (ar_client_ip r) (ar_status r)
    (ar_outcome r) (ar_latency_ms r) (ar_duration_ms r) (ar_edge_id r) (ar_route r) (ar_principal r) (ar_user_agent r)
    (ar_upstream r) (ar_upstream_ms r) (Some i) (Some o) (ar_tls_version r) (ar_client_cert r).

(** [now] on the monotonic clock, [unix] in seconds; [shipper] is the edge id of the configured one. *)
Definition write_access_line (shipper : option bytes) (now unix : Z) (l : AccessLine) : list Effect :=
  let r := with_duration (al_record l) (ms (now - al_started l)) in
  Line r :: match shipper with Some edge => [LineShipped (stamped r (rfc3339 unix) edge)] | None => [] end.

(** The counters of [proxy::finish]; its response is [Pipeline.finish]. *)
Definition finish_counts (outcome : bytes) (elapsed : Duration) : list Effect :=
  [RequestCounted outcome; LatencyObserved elapsed; UsageRequest outcome].

(** ** LLM usage *)

Definition sample_of (u : Usage) (cost : option Z) : LlmSample :=
  mkSample (Llm.prompt_tokens u) (Llm.completion_tokens u) (Llm.cached_tokens u) (Llm.reasoning_tokens u) cost.

Definition usage_records (model : bytes) (team key : option bytes) (u : Usage) (cost : option Z) : list Effect :=
  [LlmUsage model (sample_of u cost); LlmTeamUsage (default (lit "_none") team) (sample_of u cost);
   LlmKeyUsage (default (lit "_anon") key) (sample_of u cost)].

(** [wall_clock_span]: the end is now, the start as long before as the request has taken. *)
Definition wall_clock_span (started now unix_nanos : Z) : Z * Z := (sat_sub unix_nanos (now - started), unix_nanos).

Definition llm_span (ctx : TraceContext) (model : bytes) (u : Usage) (cost : option Z) (span : Z * Z)
    (ttft tpot : option Duration) (ok : bool) (input output : option bytes) : SpanRecord :=
  mkSpanRecord ctx (lit "llm.chat") model None (Llm.prompt_tokens u) (Llm.completion_tokens u) (Llm.cached_tokens u)
    (Llm.reasoning_tokens u) cost span.1 span.2 ttft tpot ok input output None.

(** [LlmStreamMeter]; [mt_telemetry] says that spans are on. *)
Record Meter : Type := mkMeter {
  mt_model : bytes; mt_llm : LlmRuntime; mt_usage : StreamUsage; mt_reservation : option Reservation; mt_started : Z;
  first_at : option Z; last_at : option Z; mt_telemetry : bool; mt_ctx : TraceContext; mt_input : option bytes;
  mt_team : option bytes; mt_key : option bytes
}.

(** Server-side time to the first token, and between tokens when there are several. *)
Definition token_times (m : Meter) (u : Usage) : option Duration * option Duration :=
  match first_at m with
  | None => (None, None)
  | Some first =>
      (Some (sat_sub first (mt_started m)),
       match last_at m with
       | Some last => if 1 <? Llm.completion_tokens u
                      then Some (sat_sub last first / Z.min (Llm.completion_tokens u - 1) (2 ^ 32 - 1)) else None
       | None => None
       end)
  end.

(** What the buffered path knows of an LLM request: its model, price list, team, key and held budget. *)
Record LlmBuffered : Type := mkLlmBuffered {
  lb_model : bytes; lb_llm : LlmRuntime; lb_reservation : option Reservation; lb_telemetry : bool; lb_ctx : TraceContext;
  lb_input : option bytes; lb_output : option bytes; lb_team : option bytes; lb_key : option bytes
}.

Section Accounting.
Context {RegexSet Regex Automaton Key Phc G Date Time Verifier : Type}.
Context (L : Libs RegexSet Regex Automaton Key Phc G Date Time Verifier).
Variable sha256 : bytes -> bytes.

Definition settled (r : option Reservation) (actual : Spend) : list Effect :=
  match r with Some r => [Reconciled r actual] | None => [] end.

(** The usage a buffered response reports, and the spend its reservation is settled to. *)
Definition buffered_usage (sse : bool) (body : bytes) : option Usage :=
  exchange_usage (parse_usage_field L) (parse_frame L) (parse_usage_value L) (Buffered sse body).

Definition buffered_spend (l : LlmBuffered) (sse : bool) (body : bytes) : Spend :=
  spend_of (lb_llm l) (lb_model l) (buffered_usage sse body).

(** The metering of a buffered response, up to the commit of its reservation; [sse] says that it is an
    event stream. *)
Definition buffered_llm (l : LlmBuffered) (sse : bool) (status : Z) (body : bytes) (started now unix_nanos : Z) : list Effect :=
  match buffered_usage sse body with
  | Some u =>
      let cost := Llm.cost_micros (lb_llm l) (lb_model l) u in
      usage_records (lb_model l) (lb_team l) (lb_key l) u cost
      ++ (if lb_telemetry l then [SpanEmitted (llm_span (lb_ctx l) (lb_model l) u cost (wall_clock_span started now unix_nanos)
            None None ((200 <=? status) && (status <? 300)) (lb_input l) (lb_output l))] else [])
  | None => [LlmNoUsage]
  end.

(** The metering of a streamed response, when its body is dropped. *)
Definition drop_llm (m : Meter) (now unix_nanos : Z) : list Effect :=
  let usage := Llm.finish (parse_frame L) (parse_usage_value L) (mt_usage m) in
  (match usage with
   | Some u =>
       let cost := Llm.cost_micros (mt_llm m) (mt_model m) u in
       let '(ttft, tpot) := token_times m u in
       usage_records (mt_model m) (mt_team m) (mt_key m) u cost
       ++ match ttft with Some t => [LlmLatency t tpot] | None => [] end
       ++ (if mt_telemetry m then [SpanEmitted (llm_span (mt_ctx m) (mt_model m) u cost
             (wall_clock_span (mt_started m) now unix_nanos) ttft tpot true (mt_input m) None)] else [])
   | None => [LlmNoUsage]
   end) ++ settled (mt_reservation m) (spend_of (mt_llm m) (mt_model m) usage).

(** ** A streamed body *)

Inductive OutFrame : Type := FData (d : bytes) | FTrailers.
Inductive Inner : Type := IData (d : bytes) | ITrailers | IEnd | IError | IPending.
Inductive Polled : Type := PFrame (f : OutFrame) | PEnd | PError | PPending.

Record CountingBody : Type := mkCountingBody {
  egress : Z; b_llm : option Meter; b_filter : Filter (Regex := Regex) (Automaton := Automaton); b_pending : option OutFrame
}.

Definition counting_new (header_egress : Z) (llm : option Meter) (f : Filter) : CountingBody := mkCountingBody header_egress llm f None.

(** [push_meter] on a meter. *)
Definition push_meter (now : Z) (data : bytes) (m : Meter) : Meter :=
  let stamped := match data with [] => false | _ => true end in
  mkMeter (mt_model m) (mt_llm m) (feed (parse_frame L) (parse_usage_value L) (mt_usage m) data) (mt_reservation m) (mt_started m)
    (if stamped then Some (default now (first_at m)) else first_at m) (if stamped then Some now else last_at m)
    (mt_telemetry m) (mt_ctx m) (mt_input m) (mt_team m) (mt_key m).

(** A data frame on its way out is counted and metered. *)
Definition count_out (now : Z) (out : bytes) (f : Filter) (pending : option OutFrame) (b : CountingBody) : CountingBody :=
  mkCountingBody (sat_add 64 (egress b) (len out)) (push_meter now out <$> b_llm b) f pending.

(** [poll_frame], with what the inner body gives when it is polled; [None] is a panic. *)
Definition poll_frame (now : Z) (b : CountingBody) (inner : Inner) : option (Polled * CountingBody) :=
  match b_pending b with
  | Some frame => Some (PFrame frame, mkCountingBody (egress b) (b_llm b) (b_filter b) None)
  | None =>
      match inner with
      | IData data =>
          '(out, f) ← filter_frame L (b_filter b) data;
          Some (PFrame (FData out), count_out now out f None b)
      | ITrailers =>
          '(out, f) ← filter_flush L (b_filter b);
          match out with
          | [] => Some (PFrame FTrailers, mkCountingBody (egress b) (b_llm b) f None)
          | _ => Some (PFrame (FData out), count_out now out f (Some FTrailers) b)
          end
      | IEnd =>
          '(out, f) ← filter_flush L (b_filter b);
          match out with
          | [] => Some (PEnd, mkCountingBody (egress b) (b_llm b) f None)
          | _ => Some (PFrame (FData out), count_out now out f None b)
          end
      | IError => Some (PError, b)
      | IPending => Some (PPending, b)
      end
  end.

(** What a filter holds back. *)
Definition holds (f : Filter (Regex := Regex) (Automaton := Automaton)) : bool :=
  match f with
  | Rewrite _ s => negb (beq (carry s) [])
  | Unmask _ c => negb (beq c [])
  | Plain | Record_ _ _ => false
  end.

Definition is_end_stream (b : CountingBody) (inner_end : bool) : bool :=
  match b_pending b with Some _ => false | None => negb (holds (b_filter b)) && inner_end end.

(** [Drop], on the request's context. *)
Definition drop_body (shipper : option bytes) (now unix_nanos ingress : Z) (b : CountingBody) (cx : RequestCtx) : list Effect * RequestCtx :=
  ([UsageBytes ingress (egress b)]
   ++ match cx_consumer cx with Some c => [ConsumerBytes c ingress (egress b)] | None => [] end
   ++ match cx_pending cx with
      | Some l => write_access_line shipper now (unix_nanos / 1000000000)
                    (mkAccessLine (al_started l) (with_bytes (al_record l) ingress (egress b)))
      | None => []
      end
   ++ match b_llm b with Some m => drop_llm m now unix_nanos | None => [] end,
   set_pending cx None).

(** ** [handle], once the pipeline has answered *)

(** What [handle] took from the request before. *)
Record Request0 : Type := mkRequest0 {
  q_started : Z; q_method : bytes; q_route : bytes; q_user_agent : option bytes; q_tls : option bytes;
  q_cert : option ClientCert; q_principal_log : PrincipalLogMode; q_anon : option Consumer; q_span : option ServerSpanPre
}.

Definition access_line (q : Request0) (info : FinishInfo) (cx : RequestCtx) (status : Z) : AccessLine :=
  mkAccessLine (q_started q)
    (mkAccessRecord ACCESS_RECORD_SCHEMA [] (fi_request_id info) (q_method q) (fi_target info) (show_ip (fi_client_ip info)) status
       (fi_outcome info) (ms (fi_elapsed info)) 0 [] (q_route q)
       (cx_principal cx ≫= principal_apply sha256 (q_principal_log q)) (q_user_agent q) (cx_upstream cx) (cx_upstream_ms cx)
       (fst <$> cx_bytes cx) (snd <$> cx_bytes cx) (q_tls q)
       (c ← q_cert q; principal_apply sha256 (q_principal_log q) (default (lit "sha256:" ++ ClientCert.sha256 c) (head (identities c))))).

(** [status] is the response's own; a response without [FinishInfo] leaves no line. *)
Definition handle_end (shipper : option bytes) (q : Request0) (now unix : Z) (status : Z) (info : option FinishInfo)
    (cx : RequestCtx) : list Effect * RequestCtx :=
  let elapsed := now - q_started q in
  let counts := [RouteCounted (q_route q) (q_method q) status elapsed]
    ++ match cx_upstream_busy cx with Some busy => [EdgeOverhead (sat_sub elapsed busy)] | None => [] end
    ++ match (match cx_consumer cx with Some c => Some c | None => q_anon q end) with
       | Some c => [ConsumerCounted c status]
       | None => []
       end in
  let span := match q_span q with
              | Some pre => if pre_sampled pre then
                              match info with
                              | Some i => [SpanRecorded (pre_finish pre (fi_status i) (fi_outcome i) (fi_request_id i) (fi_elapsed i))]
                              | None => []
                              end
                            else []
              | None => []
              end in
  match info with
  | None => (counts ++ span, cx)
  | Some i =>
      let line := access_line q i cx status in
      if cx_streamed cx then (counts ++ span, set_pending cx (Some line))
      else (counts ++ write_access_line shipper now unix line ++ span, cx)
  end.

(** ** The exchange *)

(** How the pipeline answered: at the edge, with a buffered response as the upstream sent it (its headers with
    the hop-by-hop ones and the length gone), or with a body to stream, under the headers the upstream sent
    (the hop-by-hop ones gone); [sse] says that it is an event stream. *)
Inductive Answer : Type :=
| AEdge
| ABuffered (up_headers : Headers) (up_body : bytes) (sse : bool) (llm : option LlmBuffered)
| AStream (up_headers : Headers) (sse : bool) (llm : option Meter) (f : Filter (Regex := Regex) (Automaton := Automaton)).

(** What a streamed response counts before its first frame: its headers, an event stream's without length. *)
Definition header_egress (up_headers : Headers) (sse : bool) : Z :=
  header_bytes (if sse then remove up_headers CONTENT_LENGTH else up_headers).

(** The counting of a buffered exchange. *)
Definition buffered_counts (cx : RequestCtx) (ingress : Z) (h : Headers) (body : bytes) : list Effect * RequestCtx :=
  let bytes_out := sat_add 64 (header_bytes h) (len body) in
  ([UsageBytes ingress bytes_out]
   ++ match cx_consumer cx with Some c => [ConsumerBytes c ingress bytes_out] | None => [] end,
   set_bytes cx (ingress, bytes_out)).

(** [Committing]: the handler awaits [guard.commit(actual)]. *)
Inductive Phase : Type := Handling | Committing (info : FinishInfo) (r : Reservation) (actual : Spend) | Returned | Over (answered : bool).

Record Exch : Type := mkExch {
  x_cx : RequestCtx; x_ingress : Z; x_body : option CountingBody; x_sent : list OutFrame; x_phase : Phase; x_log : list Effect
}.

(** The reservation a buffered answer commits, and to what. *)
Definition commit_of (a : Answer) : option (Reservation * Spend) :=
  match a with
  | ABuffered _ b sse (Some l) => r ← lb_reservation l; Some (r, buffered_spend l sse b)
  | _ => None
  end.

(** [finish], and the rest of [handle]: no [await] lies between them. *)
Definition finished (shipper : option bytes) (q : Request0) (now unix_nanos : Z) (info : FinishInfo) (cx : RequestCtx)
    (body : option CountingBody) (log : list Effect) (x : Exch) : Exch :=
  let '(tail, cx) := handle_end shipper q now (unix_nanos / 1000000000) (fi_status info) (Some info) cx in
  mkExch cx (x_ingress x) body (x_sent x) Returned (x_log x ++ log ++ finish_counts (fi_outcome info) (fi_elapsed info) ++ tail).

(** The pipeline's end: a buffered response is counted and metered, and its reservation, if it holds one,
    is committed before anything else. *)
Definition answer (shipper : option bytes) (q : Request0) (a : Answer) (now unix_nanos up_status : Z) (info : FinishInfo) (x : Exch) : Exch :=
  let '(log, cx, body) :=
    match a with
    | AEdge => ([], x_cx x, None)
    | ABuffered h b sse llm =>
        let '(log, cx) := buffered_counts (x_cx x) (x_ingress x) h b in
        (log ++ match llm with Some l => buffered_llm l sse up_status b (q_started q) now unix_nanos | None => [] end, cx, None)
    | AStream h sse llm f => ([], set_streamed (x_cx x), Some (counting_new (header_egress h sse) llm f))
    end in
  match commit_of a with
  | Some (r, actual) => mkExch cx (x_ingress x) None (x_sent x) (Committing info r actual) (x_log x ++ log)
  | None => finished shipper q now unix_nanos info cx body log x
  end.

(** A frame of a streamed upload may pass at any time; the commit ends; [hyper] polls the body after [handle]
    returned it, and drops it at its end or when the client is gone; a client that goes before that cancels
    [handle] where it waits, be it in the pipeline or in the commit. *)
Inductive xstep (shipper : option bytes) (q : Request0) : Exch -> Exch -> Prop :=
| x_upload n x : 0 <= n ->
    xstep shipper q x (mkExch (x_cx x) (wrap 64 (x_ingress x + n)) (x_body x) (x_sent x) (x_phase x) (x_log x))
| x_answer a now unix st info x : x_phase x = Handling -> xstep shipper q x (answer shipper q a now unix st info x)
| x_committed now unix info r actual x : x_phase x = Committing info r actual ->
    xstep shipper q x (finished shipper q now unix info (x_cx x) None [Reconciled r actual] x)
| x_cancel x : x_phase x = Handling \/ (exists info r actual, x_phase x = Committing info r actual) ->
    xstep shipper q x (mkExch (x_cx x) (x_ingress x) None (x_sent x) (Over false) (x_log x))
| x_poll now x b inner p b' : x_phase x = Returned -> x_body x = Some b -> poll_frame now b inner = Some (p, b') ->
    xstep shipper q x (mkExch (x_cx x) (x_ingress x) (Some b') (x_sent x ++ match p with PFrame f => [f] | _ => [] end) Returned (x_log x))
| x_drop now unix x : x_phase x = Returned ->
    xstep shipper q x
      (let '(log, cx) := match x_body x with
                         | Some b => drop_body shipper now unix (x_ingress x) b (x_cx x)
                         | None => ([], x_cx x)
                         end in
       mkExch cx (x_ingress x) None (x_sent x) (Over true) (x_log x ++ log)).

Definition fresh_ctx (c p u : option bytes) (ums : option Z) (busy : option Duration) : RequestCtx :=
  mkRequestCtx c p u ums busy None false None.
End Accounting.
