(* ===== verification/AccountingLaws.v ===== *)
(** * AccountingLaws: every request that is answered is counted once, with what really passed *)

From S2P Require Import Prelude Text Net Units Float Http Budget ClientCert Telemetry Metrics Privacy Dlp Llm LlmGate Forwarding Pipeline PipelineLaws Accounting.

(** ** Reading the effects *)

Definition line_of (e : Effect) : option AccessRecord := match e with Line r => Some r | _ => None end.
Definition usage_of (e : Effect) : option (Z * Z) := match e with UsageBytes i o => Some (i, o) | _ => None end.
Definition consumer_of (e : Effect) : option (Consumer * (Z * Z)) := match e with ConsumerBytes c i o => Some (c, (i, o)) | _ => None end.
Definition settle_of (e : Effect) : option (Reservation * Spend) := match e with Reconciled r s => Some (r, s) | _ => None end.
Definition request_of (e : Effect) : option bytes := match e with UsageRequest o => Some o | _ => None end.

Definition lines (log : list Effect) : list AccessRecord := omap line_of log.
Definition usages (log : list Effect) : list (Z * Z) := omap usage_of log.
Definition consumed (log : list Effect) : list (Consumer * (Z * Z)) := omap consumer_of log.
Definition settles (log : list Effect) : list (Reservation * Spend) := omap settle_of log.
Definition requests (log : list Effect) : list bytes := omap request_of log.

(** All five at once: the lines, the usage bytes, the consumer's bytes, the settlements and the requests. *)
Definition reads (log : list Effect) : list AccessRecord * list (Z * Z) * list (Consumer * (Z * Z)) * list (Reservation * Spend) * list bytes :=
  (lines log, usages log, consumed log, settles log, requests log).

Abbreviation Reads := (list AccessRecord * list (Z * Z) * list (Consumer * (Z * Z)) * list (Reservation * Spend) * list bytes)%type.

Definition join_reads (a b : Reads) : Reads :=
  (a.1.1.1.1 ++ b.1.1.1.1, a.1.1.1.2 ++ b.1.1.1.2, a.1.1.2 ++ b.1.1.2, a.1.2 ++ b.1.2, a.2 ++ b.2).

Lemma reads_app a b : reads (a ++ b) = join_reads (reads a) (reads b).
Proof. unfold reads, join_reads, lines, usages, consumed, settles, requests. by rewrite !omap_app. Qed.

Definition opt {A} (o : option A) : list A := match o with Some a => [a] | None => [] end.

(** The data of the frames sent. *)
Definition data_of (f : OutFrame) : option bytes := match f with FData d => Some d | FTrailers => None end.
Definition datas (fs : list OutFrame) : list bytes := omap data_of fs.

(** The egress of a body after these frames. *)
Definition counted (he : Z) (ds : list bytes) : Z := fold_left (fun e d => sat_add 64 e (len d)) ds he.

Lemma counted_fits he ds : he + len (concat ds) < 2 ^ 64 -> counted he ds = he + len (concat ds).
Proof.
  revert he. induction ds as [|d ds IH]; intros he Hb; cbn [counted fold_left concat]; [change (len []) with 0; lia|].
  cbn [concat] in Hb. rewrite len_app in Hb |- *. pose proof (len_nonneg d). pose proof (len_nonneg (concat ds)).
  fold (counted (sat_add 64 he (len d)) ds). unfold sat_add. rewrite Z.min_r by lia. rewrite IH; lia.
Qed.

Section Laws.
Context {RegexSet Regex Automaton Key Phc G Date Time Verifier : Type}.
Context (L : Libs RegexSet Regex Automaton Key Phc G Date Time Verifier).
Variable sha256 : bytes -> bytes.
Variable shipper : option bytes.

Lemma reads_write_line now unix l :
  reads (write_access_line shipper now unix l) = ([with_duration (al_record l) (ms (now - al_started l))], [], [], [], []).
Proof. unfold write_access_line. by destruct shipper. Qed.

Lemma reads_usage_records model team key u cost : reads (usage_records model team key u cost) = ([], [], [], [], []).
Proof. done. Qed.

Lemma reads_settled r a : reads (settled r a) = ([], [], [], opt ((fun r => (r, a)) <$> r), []).
Proof. by destruct r. Qed.

(** What metering leaves: nothing that is read. *)
Lemma reads_buffered_llm l sse st b s n u : reads (buffered_llm L l sse st b s n u) = ([], [], [], [], []).
Proof. unfold buffered_llm. destruct (buffered_usage L sse b) as [us|]; [|done]. by destruct (lb_telemetry l). Qed.

Lemma reads_drop_llm m now unix : reads (drop_llm L m now unix) =
  ([], [], [], opt ((fun r => (r, spend_of (mt_llm m) (mt_model m) (Llm.finish (parse_frame L) (parse_usage_value L) (mt_usage m)))) <$> mt_reservation m), []).
Proof.
  unfold drop_llm. destruct (Llm.finish _ _ _) as [us|].
  - destruct (token_times m us) as [[t|] tp]; destruct (mt_telemetry m); destruct (mt_reservation m); reflexivity.
  - destruct (mt_reservation m); reflexivity.
Qed.

(** ** The streamed body *)

(** A body that sent these frames has counted their data, and its meter has read it. *)
Definition meter_ok (m m' : Meter) (ds : list bytes) : Prop :=
  mt_usage m' = fold_left (feed (parse_frame L) (parse_usage_value L)) ds (mt_usage m) /\ mt_model m' = mt_model m
  /\ mt_llm m' = mt_llm m /\ mt_reservation m' = mt_reservation m.

Definition body_ok (he : Z) (llm : option Meter) (b : CountingBody (Regex := Regex) (Automaton := Automaton)) (sent : list OutFrame) : Prop :=
  egress b = counted he (datas sent)
  /\ match llm, b_llm b with
     | Some m, Some m' => meter_ok m m' (datas sent)
     | None, None => True
     | _, _ => False
     end
  /\ (forall f, b_pending b = Some f -> f = FTrailers).

Lemma datas_app a b : datas (a ++ b) = datas a ++ datas b.
Proof. apply omap_app. Qed.

Lemma count_out_ok he llm b sent now out f p : body_ok he llm b sent -> (forall g, p = Some g -> g = FTrailers) ->
  body_ok he llm (count_out L now out f p b) (sent ++ [FData out]).
Proof.
  intros (He & Hm & _) Hp. split_and!; [| |done].
  - cbn [count_out egress]. rewrite datas_app. unfold counted. rewrite fold_left_app. cbn. by rewrite He.
  - cbn [count_out b_llm]. destruct llm as [m|], (b_llm b) as [m'|]; try done. cbn.
    destruct Hm as (Hu & H1 & H2 & H3). rewrite datas_app. split_and!; try done.
    rewrite fold_left_app. cbn. by rewrite Hu.
Qed.

Lemma poll_frame_ok he llm b sent now inner p b' : body_ok he llm b sent -> poll_frame L now b inner = Some (p, b') ->
  body_ok he llm b' (sent ++ match p with PFrame f => [f] | _ => [] end).
Proof.
  intros Hok. unfold poll_frame. pose proof Hok as (He & Hm & Hp).
  assert (Hsame : forall b2 fs, datas fs = [] -> egress b2 = egress b -> b_llm b2 = b_llm b -> b_pending b2 = None -> body_ok he llm b2 (sent ++ fs)).
  { intros b2 fs Hd H1 H2 H3. unfold body_ok. rewrite datas_app, Hd, app_nil_r, H1, H2, H3. by split_and!. }
  destruct (b_pending b) as [fr|] eqn:Hb.
  - intros [= <- <-]. rewrite (Hp fr eq_refl). by apply Hsame.
  - destruct inner as [d| | | |].
    + destruct (filter_frame L (b_filter b) d) as [[out f]|]; [|done]. intros [= <- <-]. by apply count_out_ok.
    + destruct (filter_flush L (b_filter b)) as [[[|c out] f]|]; [| |done]; intros [= <- <-]; [by apply Hsame|].
      apply count_out_ok; [done|]. by intros g [= <-].
    + destruct (filter_flush L (b_filter b)) as [[[|c out] f]|]; [| |done]; intros [= <- <-]; [by apply Hsame|].
      by apply count_out_ok.
    + intros [= <- <-]. rewrite app_nil_r. done.
    + intros [= <- <-]. rewrite app_nil_r. done.
Qed.

(** ** The exchange *)

(** The line of an answer, with the bytes it names. *)
Definition line_ok (info : FinishInfo) (bytes_ : option (Z * Z)) (r : AccessRecord) : Prop :=
  ar_outcome r = fi_outcome info /\ ar_status r = fi_status info /\ ar_request_id r = fi_request_id info
  /\ ar_target r = fi_target info /\ ar_bytes_in r = fst <$> bytes_ /\ ar_bytes_out r = snd <$> bytes_.

Definition stream_settles (llm : option Meter) (ds : list bytes) : list (Reservation * Spend) :=
  match llm with
  | Some m => opt ((fun r => (r, spend_of (mt_llm m) (mt_model m) (Llm.finish (parse_frame L) (parse_usage_value L)
                (fold_left (feed (parse_frame L) (parse_usage_value L)) ds (mt_usage m))))) <$> mt_reservation m)
  | None => []
  end.

Definition buffered_settles (llm : option LlmBuffered) (sse : bool) (b : bytes) : list (Reservation * Spend) :=
  match llm with
  | Some l => opt ((fun r => (r, buffered_spend L l sse b)) <$> lb_reservation l)
  | None => []
  end.

Definition by_consumer (cx : RequestCtx) (io : Z * Z) : list (Consumer * (Z * Z)) := opt ((fun c => (c, io)) <$> cx_consumer cx).

(** The accounts of a request that was answered. *)
Definition accounts (cx : RequestCtx) (a : Answer (Regex := Regex) (Automaton := Automaton)) (info : FinishInfo) (log : list Effect) (sent : list OutFrame) : Prop :=
  match a with
  | AEdge => exists r, reads log = ([r], [], [], [], [fi_outcome info]) /\ line_ok info None r
  | ABuffered h b sse llm =>
      exists r ingress, let io := (ingress, sat_add 64 (header_bytes h) (len b)) in
      reads log = ([r], [io], by_consumer cx io, buffered_settles llm sse b, [fi_outcome info]) /\ line_ok info (Some io) r
  | AStream h sse llm f =>
      exists r ingress, let io := (ingress, counted (header_egress h sse) (datas sent)) in
      reads log = ([r], [io], by_consumer cx io, stream_settles llm (datas sent), [fi_outcome info]) /\ line_ok info (Some io) r
  end.

Definition streams (a : Answer (Regex := Regex) (Automaton := Automaton)) : bool := match a with AStream _ _ _ _ => true | _ => false end.

Definition fresh (cx : RequestCtx) : Prop := cx_bytes cx = None /\ cx_streamed cx = false /\ cx_pending cx = None.

(** Counted and metered, and nothing else: no line, no request, no settlement. *)
Definition counted_only (cx0 : RequestCtx) (log : list Effect) : Prop :=
  exists io, reads log = ([], [io], by_consumer cx0 io, [], []).

(** Before the answer, nothing is counted. *)
Definition unanswered (cx0 : RequestCtx) (x : Exch (Regex := Regex) (Automaton := Automaton)) : Prop :=
  match x_phase x with
  | Handling => x_log x = [] /\ x_body x = None /\ x_sent x = [] /\ x_cx x = cx0
  | _ => True
  end.

(** A buffered answer whose commit is under way. *)
Definition committing (cx0 : RequestCtx) (a : Answer (Regex := Regex) (Automaton := Automaton)) (r : Reservation) (actual : Spend)
    (x : Exch (Regex := Regex) (Automaton := Automaton)) : Prop :=
  exists h b sse l ingress, a = ABuffered h b sse (Some l) /\ lb_reservation l = Some r /\ actual = buffered_spend L l sse b
    /\ let io := (ingress, sat_add 64 (header_bytes h) (len b)) in
       reads (x_log x) = ([], [io], by_consumer cx0 io, [], [])
       /\ cx_bytes (x_cx x) = Some io /\ cx_streamed (x_cx x) = false /\ x_sent x = [].

(** After it: a streamed response owes its line, its bytes and its settlement until its body is dropped; a
    buffered one its request, its line and its settlement until its commit is stored. *)
Definition answered (cx0 : RequestCtx) (a : Answer) (info : FinishInfo) (x : Exch) : Prop :=
  match x_phase x with
  | Handling => False
  | Committing info' r actual => info' = info /\ x_body x = None /\ committing cx0 a r actual x
  | Over false => commit_of L a <> None /\ counted_only cx0 (x_log x)
  | Over true => accounts cx0 a info (x_log x) (x_sent x)
  | Returned =>
      match a with
      | AStream h sse llm f =>
          reads (x_log x) = ([], [], [], [], [fi_outcome info]) /\ cx_consumer (x_cx x) = cx_consumer cx0
          /\ (exists b, x_body x = Some b /\ body_ok (header_egress h sse) llm b (x_sent x))
          /\ exists l, cx_pending (x_cx x) = Some l /\ line_ok info None (al_record l)
      | _ => x_body x = None /\ accounts cx0 a info (x_log x) (x_sent x)
      end
  end.

Lemma reads_handle_end q now unix st info cx log cx' : handle_end sha256 shipper q now unix st (Some info) cx = (log, cx') ->
  let l := access_line sha256 q info cx st in
  if cx_streamed cx then reads log = ([], [], [], [], []) /\ cx' = set_pending cx (Some l)
  else reads log = ([with_duration (al_record l) (ms (now - al_started l))], [], [], [], []) /\ cx' = cx.
Proof.
  unfold handle_end. cbv zeta. destruct (cx_streamed cx); intros [= <- <-]; (split; [|done]); unfold write_access_line;
    destruct (cx_upstream_busy cx), (cx_consumer cx), (q_anon q), (q_span q) as [pre|]; try destruct (pre_sampled pre);
    try destruct shipper; reflexivity.
Qed.

Lemma access_line_ok q info cx : line_ok info (cx_bytes cx) (al_record (access_line sha256 q info cx (fi_status info))).
Proof. by split_and!. Qed.

Lemma line_ok_duration info b r d : line_ok info b r -> line_ok info b (with_duration r d).
Proof. by intros (? & ? & ? & ? & ? & ?). Qed.

(** A response that is not streamed leaves its line when [handle] ends. *)
Lemma handle_end_line q now unix info cx tail cx' : handle_end sha256 shipper q now unix (fi_status info) (Some info) cx = (tail, cx') ->
  cx_streamed cx = false -> exists r, reads tail = ([r], [], [], [], []) /\ line_ok info (cx_bytes cx) r.
Proof.
  intros He Hs. apply reads_handle_end in He. cbv zeta in He. rewrite Hs in He. destruct He as [Hr _].
  eexists. split; [exact Hr|]. apply line_ok_duration, access_line_ok.
Qed.

Lemma buffered_log_reads cx0 ingress h b llm sse st s n u : let io := (ingress, sat_add 64 (header_bytes h) (len b)) in
  reads ((buffered_counts cx0 ingress h b).1 ++ match llm with Some l => buffered_llm L l sse st b s n u | None => [] end)
  = ([], [io], by_consumer cx0 io, [], []).
Proof.
  intros io. rewrite reads_app. destruct llm as [l|]; [rewrite reads_buffered_llm|]; unfold by_consumer; cbn;
    by destruct (cx_consumer cx0).
Qed.

Lemma answer_ok q a now unix st info cx0 x : fresh cx0 -> unanswered cx0 x -> x_phase x = Handling ->
  answered cx0 a info (answer L sha256 shipper q a now unix st info x).
Proof.
  intros (Hb & Hs & Hp) Hinv Hph. unfold unanswered in Hinv. rewrite Hph in Hinv. destruct Hinv as (Hlog & Hbody & Hsent & Hcx).
  unfold answer. rewrite Hcx. destruct a as [|h b sse llm|h sse llm f].
  - cbn [commit_of]. unfold finished. rewrite Hlog, Hsent.
    destruct (handle_end _ _ _ _ _ _ _ _) as [tail cx] eqn:He. destruct (handle_end_line _ _ _ _ _ _ _ He Hs) as (r & Hr & Hl).
    rewrite Hb in Hl. unfold answered. cbn [x_phase x_log x_body x_sent x_cx]. split; [done|]. exists r. split; [|done].
    by rewrite !reads_app, Hr.
  - set (io := (x_ingress x, sat_add 64 (header_bytes h) (len b))).
    pose proof (buffered_log_reads cx0 (x_ingress x) h b llm sse st (q_started q) now unix) as Hrl. cbv zeta in Hrl.
    destruct (buffered_counts cx0 (x_ingress x) h b) as [log cx] eqn:Hbc. injection Hbc as Hlg Hcx1. cbn [fst] in Hrl.
    set (log1 := log ++ _) in *. clearbody log1. fold io in Hrl.
    assert (Hcx2 : cx_bytes cx = Some io /\ cx_streamed cx = false) by (subst cx; cbn; by rewrite Hb).
    destruct Hcx2 as [Hcb Hcs]. destruct (commit_of L (ABuffered h b sse llm)) as [[r actual]|] eqn:Hc.
    + destruct llm as [l|]; [|done]. cbn [commit_of] in Hc. destruct (lb_reservation l) as [r'|] eqn:Hlr; [|done].
      injection Hc as <- <-. unfold answered. cbn [x_phase x_body x_log x_cx x_sent]. split; [done|]. split; [done|].
      exists h, b, sse, l, (x_ingress x). cbn zeta. rewrite Hlog. done.
    + unfold finished. rewrite Hlog, Hsent.
      destruct (handle_end _ _ _ _ _ _ _ _) as [tail cx2] eqn:He. destruct (handle_end_line _ _ _ _ _ _ _ He Hcs) as (r & Hr & Hl).
      rewrite Hcb in Hl. unfold answered. cbn [x_phase x_log x_body x_sent x_cx]. split; [done|].
      exists r, (x_ingress x). split; [|done]. fold io. rewrite !reads_app, Hr, Hrl. unfold buffered_settles.
      destruct llm as [l|]; [cbn [commit_of] in Hc; destruct (lb_reservation l); [done|]|]; unfold join_reads; cbn; by rewrite ?app_nil_r.
  - cbn [commit_of]. unfold finished. rewrite Hlog, Hsent.
    destruct (handle_end _ _ _ _ _ _ _ _) as [tail cx] eqn:He. apply reads_handle_end in He. cbv zeta in He.
    cbn [cx_streamed set_streamed] in He. destruct He as [Hr ->].
    unfold answered. cbn [x_phase x_log x_body x_sent x_cx]. split_and!.
    + by rewrite !reads_app, Hr.
    + done.
    + exists (counting_new (header_egress h sse) llm f). split; [done|]. split_and!; [done| |done]. by destruct llm.
    + eexists. split; [done|]. rewrite <- Hb. apply (access_line_ok q info (set_streamed cx0)).
Qed.

(** The commit is stored: the request is counted, its line written, its budget settled. *)
Lemma committed_ok q now unix cx0 a info r actual x : x_phase x = Committing info r actual -> answered cx0 a info x ->
  answered cx0 a info (finished sha256 shipper q now unix info (x_cx x) None [Reconciled r actual] x).
Proof.
  intros Hph Ha. unfold answered in Ha. rewrite Hph in Ha.
  destruct Ha as (_ & _ & h & b & sse & l & ingress & -> & Hlr & -> & Hlog & Hcb & Hcs & Hsent).
  unfold finished. destruct (handle_end _ _ _ _ _ _ _ _) as [tail cx2] eqn:He.
  destruct (handle_end_line _ _ _ _ _ _ _ He Hcs) as (rc & Hr & Hl). rewrite Hcb in Hl.
  unfold answered. cbn [x_phase x_log x_body x_sent x_cx]. split; [done|]. exists rc, ingress. split; [|done].
  cbv zeta. rewrite !reads_app, Hlog, Hr. unfold buffered_settles. rewrite Hlr. unfold join_reads. cbn. by rewrite ?app_nil_r.
Qed.

Lemma drop_ok now unix cx0 a info x : answered cx0 a info x -> x_phase x = Returned ->
  answered cx0 a info (let '(log, cx) := match x_body x with
                                 | Some b => drop_body L shipper now unix (x_ingress x) b (x_cx x)
                                 | None => ([], x_cx x)
                                 end in
               mkExch cx (x_ingress x) None (x_sent x) (Over true) (x_log x ++ log)).
Proof.
  intros Ha Hph. unfold answered in Ha. rewrite Hph in Ha.
  destruct a as [|h b sse llm|h sse llm f]; [destruct Ha as [-> Ha]; unfold answered; cbn [x_phase x_log x_sent]; by rewrite app_nil_r ..|].
  destruct Ha as (Hlog & Hcons & (b & -> & He & Hm & _) & l & Hpend & Hline). unfold drop_body, answered. cbn [x_phase x_log x_sent].
  unfold accounts. eexists _, (x_ingress x). cbv zeta. rewrite Hpend, Hcons. split.
  - rewrite reads_app, Hlog, !reads_app, reads_write_line.
    assert (Hd : reads (match b_llm b with Some m => drop_llm L m now unix | None => [] end)
                 = ([], [], [], stream_settles llm (datas (x_sent x)), [])).
    { destruct llm as [m|], (b_llm b) as [m'|]; try done. rewrite reads_drop_llm. destruct Hm as (-> & -> & -> & ->). done. }
    rewrite Hd, <- He. unfold by_consumer, join_reads. destruct (cx_consumer cx0); cbn; by rewrite ?app_nil_r.
  - apply line_ok_duration. destruct Hline as (? & ? & ? & ? & ? & ?). rewrite <- He. by split_and!.
Qed.

Lemma xstep_answered q cx0 a info x y : xstep L sha256 shipper q x y -> answered cx0 a info x -> answered cx0 a info y.
Proof.
  intros [n x' Hn|a' now unix st info' x' Hp|now unix info' r actual x' Hp|x' Hp|now x' b inner p b' Hp Hb Hpoll|now unix x' Hp] Hinv.
  - done.
  - unfold answered in Hinv. by rewrite Hp in Hinv.
  - assert (info' = info) as -> by (unfold answered in Hinv; rewrite Hp in Hinv; apply Hinv). by apply committed_ok.
  - unfold answered in *. cbn. destruct Hp as [Hp|(info' & r & actual & Hp)]; rewrite Hp in Hinv; [done|].
    destruct Hinv as (_ & _ & h & b & sse & l & ingress & -> & Hlr & _ & Hlog & _).
    split; [cbn; by rewrite Hlr|]. by eexists.
  - unfold answered in *. cbn. rewrite Hp in Hinv.
    destruct a as [| |h sse llm f]; [destruct Hinv; congruence ..|]. destruct Hinv as (H1 & H2 & (b0 & Hb0 & Hok) & H4).
    split_and!; [done|done| |done]. exists b'. split; [done|]. assert (b0 = b) as -> by congruence. by eapply poll_frame_ok.
  - by apply drop_ok.
Qed.

Lemma xstep_unanswered q cx0 x y : xstep L sha256 shipper q x y -> unanswered cx0 x -> unanswered cx0 y.
Proof.
  intros [n x' Hn|a' now unix st info' x' Hp|now unix info' r actual x' Hp|x' Hp|now x' b inner p b' Hp Hb Hpoll|now unix x' Hp] Hinv;
    try done.
  - unfold answer, finished. by repeat case_match.
  - unfold finished. by repeat case_match.
  - unfold unanswered. by destruct (match x_body x' with Some _ => _ | None => _ end).
Qed.

(** A request as [handle] starts it. *)
Definition start (cx : RequestCtx) (ingress : Z) : Exch (Regex := Regex) (Automaton := Automaton) := mkExch cx ingress None [] Handling [].

(** C22.  A request whose answer runs to its end is counted once, under its outcome, and leaves one access line,
    however its body, its client and its upload interleave.  A buffered response's bytes are those the
    upstream sent; a streamed one's are the headers it was given and exactly the data the client was given,
    read when its body is dropped, the same for usage reporting, the consumer and the line; and its budget is
    settled, once, for the usage reported in that data.  Until then a streamed response owes all of these but
    the request count.  A request cancelled before its answer leaves nothing; one cancelled while it waits
    for the commit of its reservation leaves its bytes counted, and no request, no line and no settlement made good. *)
Theorem exchange_accounted_once q cx ingress x0 : fresh cx -> rtc (xstep L sha256 shipper q) (start cx ingress) x0 ->
  x_phase x0 = Handling ->
  x_log x0 = []
  /\ (forall x, xstep L sha256 shipper q x0 x -> x_phase x = Over false -> x_log x = [])
  /\ (forall a now unix st info x,
      rtc (xstep L sha256 shipper q) (answer L sha256 shipper q a now unix st info x0) x ->
      match x_phase x with
      | Handling => False
      | Committing _ _ _ | Over false => commit_of L a <> None /\ counted_only cx (x_log x)
      | Returned => if streams a then reads (x_log x) = ([], [], [], [], [fi_outcome info])
                    else accounts cx a info (x_log x) (x_sent x)
      | Over true => accounts cx a info (x_log x) (x_sent x)
      end)
  /\ forall he ds, he + len (concat ds) < 2 ^ 64 -> counted he ds = he + len (concat ds).
Proof.
  intros Hf Hr Hp.
  assert (Hu : unanswered cx x0).
  { revert Hr. generalize (start cx ingress), (conj eq_refl (conj eq_refl (conj eq_refl eq_refl)) : unanswered cx (start cx ingress)).
    intros s Hs Hr. induction Hr as [|x y z Hxy _ IH]; [done|]. apply IH; [done|]. by eapply xstep_unanswered. }
  assert (Hlog : x_log x0 = []) by (unfold unanswered in Hu; rewrite Hp in Hu; apply Hu).
  split; [done|]. split; [|split; [|apply counted_fits]].
  { intros x Hx. destruct Hx; cbn in *; try congruence. unfold answer, finished. by repeat case_match. }
  intros a now unix st info x Hx. pose proof (answer_ok q a now unix st info cx x0 Hf Hu Hp) as Ha.
  assert (Hx' : answered cx a info x).
  { revert Ha. induction Hx as [|y z w Hyz _ IH]; [done|]. intros Ha. apply IH. by eapply xstep_answered. }
  unfold answered in Hx'. destruct (x_phase x) as [|info' r actual| |[]]; try done.
  - destruct Hx' as (_ & _ & h & b & sse & l & ing & -> & Hlr & _ & Hlg & _). split; [cbn; by rewrite Hlr|]. by eexists.
  - destruct a; cbn [streams]; apply Hx'.
Qed.
End Laws.

(** ** Witnesses *)

(** A streamed response of two frames, its client gone before the end; and a buffered one with a held budget,
    its client gone while the commit is being stored. *)
Module Sample.
Definition ctx : RequestCtx := mkRequestCtx (Some (lit "app")) (Some (lit "alice")) None None None None false None.
Definition req : Request0 := mkRequest0 0 (lit "GET") (lit "/") None None None PFull None None.
Definition info : FinishInfo := mkFinishInfo (lit "ok") 200 5000000 (lit "r1") (lit "/a") (V4 1).
Definition up_headers : Headers := [(lit "content-type", lit "text/event-stream"); (CONTENT_LENGTH, lit "5")].
Definition response : Answer (Regex := unit) (Automaton := unit) := AStream up_headers true None Plain.

Definition streamed : Exch (Regex := unit) (Automaton := unit) := answer Demo.libs (fun b => b) None req response 6000000 0 200 info (start ctx 25).

Definition ended : Exch (Regex := unit) (Automaton := unit) :=
  let '(log, cx) := drop_body Demo.libs None 9000000 0 25 (mkCountingBody 34 None Plain None) (x_cx streamed) in
  mkExch cx 25 None [FData (lit "abc"); FData (lit "de")] (Over true) (x_log streamed ++ log).

Lemma polls : rtc (xstep Demo.libs (fun b => b) None req) streamed ended.
Proof.
  eapply rtc_l; [eapply (x_poll _ _ _ _ 7000000 _ _ (IData (lit "abc"))); reflexivity|].
  eapply rtc_l; [eapply (x_poll _ _ _ _ 8000000 _ _ (IData (lit "de"))); reflexivity|].
  eapply rtc_l; [eapply (x_drop _ _ _ _ 9000000 0); reflexivity|]. apply rtc_refl.
Qed.

Definition held : Reservation := mkReservation (lit "res") [] [] 0.
Definition llm : LlmBuffered :=
  mkLlmBuffered (lit "m") (Llm.mkRuntime false [] Llm.Count ∅) (Some held) false (mkTrace [] [] None) None None None None.
Definition left_at_commit : Exch (Regex := unit) (Automaton := unit) :=
  let x := answer Demo.libs (fun b => b) None req (ABuffered [] (lit "body") false (Some llm)) 6000000 0 200 info (start ctx 25) in
  mkExch (x_cx x) 25 None [] (Over false) (x_log x).
End Sample.

Lemma exchange_accounted_once_witness :
  x_phase Sample.ended = Over true
  /\ accounts Demo.libs Sample.ctx Sample.response Sample.info (x_log Sample.ended) (x_sent Sample.ended)
  /\ usages (x_log Sample.ended) = [(25, 34)].
Proof.
  split; [reflexivity|]. split; [|vm_compute; reflexivity].
  destruct (exchange_accounted_once Demo.libs (fun b => b) None Sample.req Sample.ctx 25 (start Sample.ctx 25)) as (_ & _ & Ha & _);
    [by split_and! | apply rtc_refl | reflexivity |].
  exact (Ha Sample.response 6000000 0 200 Sample.info Sample.ended Sample.polls).
Defined.

(** The bytes and the usage of a request that has no line, no request count and no settlement. *)
Example left_at_commit_counted : reads (x_log Sample.left_at_commit) = ([], [(25, 4)], [(lit "app", (25, 4))], [], []).
Proof. vm_compute. reflexivity. Qed.
