(* ===== verification/Checking.v ===== *)
(** * Checking: the active health checks of the pools ([src/src/pool.rs])

    Where and how a target is checked ([base_for], [rebase], [host_header_for], the connector it takes), the
    check itself, and the loop that claims and starts the checks that are due ([spawn_health_checks]), as a
    timed machine.  The network is an argument. *)

From Stdlib Require Import Sorting.Sorted.
From S2P Require Import Prelude Text Net Units Http Health Pool PoolConfig CertStore Outbound UpstreamTls.

Section Checking.
Variable parse_uri : bytes -> option Uri.
Variable value_ok : bytes -> bool.                     (** [HeaderValue::from_str] *)
Variable is_match : bytes -> bytes -> bool.            (** [regex::bytes::Regex::is_match] *)

(** ** Where a target is checked *)

Definition default_port (scheme : option bytes) : Z := if bool_decide (scheme = Some (lit "https")) then 443 else 80.

Definition rebase (base : bytes) (scheme : option bytes) (port : option Z) (host : option bytes) : result bytes :=
  let? uri := ok_or (parse_uri base) "not a valid URL" in
  let? own := ok_or (u_scheme uri) "no scheme" in
  let? authority := ok_or (u_authority uri) "no host" in
  let userinfo := match rsplit_once 64 authority with Some (user, _) => user ++ [64] | None => [] end in
  let? host := match host with Some h => Ok h | None => ok_or (u_host uri) "no host" end in
  let port := default (default_port (Some own)) (match port with Some p => Some p | None => u_port uri end) in
  let scheme := default own scheme in
  let path := trim_end_matches 47 (u_path uri) in
  Ok (scheme ++ lit "://" ++ userinfo ++ host ++ 58 :: dec port ++ path).

Definition base_for (hc : HealthCheck) (t : Target) : bytes :=
  match hc_port hc, hc_scheme hc, check_host t with
  | None, None, None => base t
  | _, _, _ => match rebase (base t) (hc_scheme hc) (hc_port hc) (check_host t) with Ok b => b | Err _ => base t end
  end.

Definition host_header_for (hc : HealthCheck) (t : Target) (at_ : bytes) : option bytes :=
  _ ← check_host t;
  own ← parse_uri (base t);
  u ← parse_uri at_;
  port ← u_port u;
  h ← u_host own;
  let v := h ++ 58 :: dec port in
  if value_ok v then Some v else None.

Definition host_port (b : bytes) : result (bytes * Z) :=
  let? uri := ok_or (parse_uri b) "not a valid URL" in
  let? host := ok_or (u_host uri) "no host" in
  Ok (trim_end_matches 93 (trim_start_matches 91 host), default (default_port (u_scheme uri)) (u_port uri)).

(** The label of a check, for the logs. *)
Definition check_label (hc : HealthCheck) : bytes :=
  let port := match hc_port hc with Some p => 58 :: dec p | None => [] end in
  let over := match hc_scheme hc with Some s => lit " over " ++ s | None => [] end in
  match hc_kind hc with
  | CheckHttp => hc_method hc ++ 32 :: port ++ hc_path hc ++ over
  | CheckTcp => if PoolConfig.is_empty port then lit "tcp" else lit "tcp " ++ port
  end.

(** The connector of a check: the shared client's, or one with the TLS settings of the target. *)
Definition check_connector (hc : HealthCheck) (t : Target) : option (bytes * Z) :=
  let checked_at := base_for hc t in
  if negb (beq checked_at (base t)) && starts_with (base t) (lit "https://") && starts_with checked_at (lit "https://")
  then with_tls_of parse_uri (base t) else None.

(** ** One check *)

(** The request of an HTTP check: what the URL does not say comes from [headers], and the host of a
    [check_host] only where they name none. *)
Record CheckRequest : Type := mkCheckRequest { cr_method : bytes; cr_url : bytes; cr_headers : Headers }.

Definition check_request (hc : HealthCheck) (t : Target) : CheckRequest :=
  let b := base_for hc t in
  mkCheckRequest (hc_method hc) (b ++ hc_path hc)
    (match host_header_for hc t b with
     | Some v => if contains_key (hc_headers hc) (lit "host") then hc_headers hc else append (hc_headers hc) (lit "host") v
     | None => hc_headers hc
     end).

(** What the network gives within the check's timeout: an HTTP answer or none, a TCP connection or none. *)
Record CheckNet : Type := mkCheckNet {
  cn_request_ok : CheckRequest -> bool; cn_answer : CheckRequest -> option (Z * list Frame); cn_connects : bytes * Z -> bool
}.

(** [check] up to its result; [late] when [timeout] passed first. *)
Definition check_result (hc : HealthCheck) (t : Target) (net : CheckNet) (late : bool) : bool :=
  if late then false
  else match hc_kind hc with
  | CheckHttp => let r := check_request hc t in cn_request_ok net r && check_http is_match hc (cn_answer net r)
  | CheckTcp => match host_port (base_for hc t) with Ok a => cn_connects net a | Err _ => false end
  end.

(** ** The loop *)

(** One round over the targets of the pools that are checked: the heap, the checks started, the next wake. *)
Definition round_target (now : Z) (hc : HealthCheck) (acc : heap * list (Target * HealthCheck) * Z) (t : Target)
    : heap * list (Target * HealthCheck) * Z :=
  let '(hp, started, next) := acc in
  let '(claim, h) := claim_check (health_of hp t) now (hc_interval hc) in
  let hp := <[health t := h]> hp in
  match claim with
  | Run => (hp, started ++ [(t, hc)], Z.min next (wrap 64 (now + millis (hc_interval hc))))
  | DueAt due => (hp, started, Z.min next due)
  | Busy => (hp, started, next)
  end.

Definition round_pool (now : Z) (acc : heap * list (Target * HealthCheck) * Z) (p : Pool) : heap * list (Target * HealthCheck) * Z :=
  match health_check p with
  | None => acc
  | Some hc => fold_left (round_target now hc) (Pool.targets p) acc
  end.

Definition round (now : Z) (pools : list Pool) (hp : heap) : heap * list (Target * HealthCheck) * Z :=
  fold_left (round_pool now) pools (hp, [], now + 1000).

(** A check under way: of whom, with what, since when. *)
Record Running : Type := mkRunning { rn_target : Target; rn_check : HealthCheck; rn_since : Z }.

(** [ck_starts]: every check started, in order. *)
Record Checks : Type := mkChecks {
  ck_now : Z; ck_wake : Z; ck_heap : heap; ck_running : list Running; ck_starts : list Running
}.

(** Time passes, but not past a wake or a check's timeout by more than [d], the delay of the scheduler (and
    stays below 2^63 milliseconds); a round runs on the pools [P] allows, those of the runtime of that moment;
    a check ends; and requests and reloads change the records, but not what the checks keep in them. *)
Inductive cstep (d : Z) (P : list Pool -> Prop) : Checks -> Checks -> Prop :=
| c_tick dt s : 0 <= dt -> ck_now s + dt <= ck_wake s + d -> ck_now s + dt < 2 ^ 63 ->
    (forall r, r ∈ ck_running s -> ck_now s + dt <= rn_since r + millis (hc_timeout (rn_check r)) + d) ->
    cstep d P s (mkChecks (ck_now s + dt) (ck_wake s) (ck_heap s) (ck_running s) (ck_starts s))
| c_round pools s hp started next : P pools -> ck_wake s <= ck_now s -> round (ck_now s) pools (ck_heap s) = (hp, started, next) ->
    let new := map (fun c => mkRunning c.1 c.2 (ck_now s)) started in
    cstep d P s (mkChecks (ck_now s) next hp (ck_running s ++ new) (ck_starts s ++ new))
| c_end r a b at_ ok detail s : ck_running s = a ++ r :: b ->
    cstep d P s (mkChecks (ck_now s) (ck_wake s)
      (<[health (rn_target r) := (check_done (health_of (ck_heap s) (rn_target r)) at_ ok detail
           (healthy_after (rn_check r)) (unhealthy_after (rn_check r))).2]> (ck_heap s)) (a ++ b) (ck_starts s))
| c_others hp s : (length (ck_heap s) <= length hp)%nat ->
    (forall t, next_check (health_of hp t) = next_check (health_of (ck_heap s) t)
               /\ checking (health_of hp t) = checking (health_of (ck_heap s) t)) ->
    cstep d P s (mkChecks (ck_now s) (ck_wake s) hp (ck_running s) (ck_starts s)).
End Checking.

(** ** Laws: every target of a checked pool keeps being checked, one check at a time *)

(** ** A round *)

(** The targets a round visits, with their checks. *)
Definition visits (pools : list Pool) : list (Target * HealthCheck) :=
  concat (map (fun p => match health_check p with Some hc => map (fun t => (t, hc)) (Pool.targets p) | None => [] end) pools).

Lemma round_visits now pools hp :
  round now pools hp = fold_left (fun acc c => round_target now c.2 acc c.1) (visits pools) (hp, [], now + 1000).
Proof.
  unfold round. generalize (hp, @nil (Target * HealthCheck), now + 1000). induction pools as [|p ps IH]; intros acc; [done|].
  cbn [fold_left visits map concat]. rewrite fold_left_app, IH. fold (visits ps). f_equal. unfold round_pool.
  destruct (health_check p) as [hc|]; [|done]. revert acc. induction (Pool.targets p) as [|t ts IHt]; intros acc; [done|].
  cbn. apply IHt.
Qed.

(** What the checks keep of the record at [i]. *)
Definition rec_at (hp : heap) (i : nat) : Z * bool := let h := default health_default (hp !! i) in (next_check h, checking h).

Definition of_target (i : nat) (c : Target * HealthCheck) : bool := Nat.eqb (health c.1) i.

Definition claimable (hp : heap) (i : nat) (now : Z) : bool := ((rec_at hp i).1 <=? now) && negb (rec_at hp i).2.

Lemma rec_at_insert hp i j h : (i < length hp)%nat ->
  rec_at (<[j := h]> hp) i = if decide (j = i) then (next_check h, checking h) else rec_at hp i.
Proof.
  intros Hi. unfold rec_at. destruct (decide (j = i)) as [->|Hne].
  - by rewrite list_lookup_insert_eq.
  - by rewrite list_lookup_insert_ne.
Qed.

Lemma round_target_one now hc i hp st next t : (i < length hp)%nat ->
  exists hp' next', round_target now hc (hp, st, next) t
    = (hp', st ++ (if claimable hp (health t) now then [(t, hc)] else []), next')
  /\ length hp' = length hp /\ next' <= next
  /\ rec_at hp' i = if (Nat.eqb (health t) i && claimable hp i now) then (wrap 64 (now + millis (hc_interval hc)), true) else rec_at hp i.
Proof.
  intros Hi. unfold round_target, claim_check, claimable. fold (health_of hp t).
  change (rec_at hp (health t)) with (next_check (health_of hp t), checking (health_of hp t)). cbn [fst snd].
  set (h := health_of hp t).
  assert (Hsame : forall h', next_check h' = next_check h -> checking h' = checking h -> rec_at (<[health t := h']> hp) i = rec_at hp i).
  { intros h' H1 H2. rewrite rec_at_insert by done. destruct (decide (health t = i)) as [<-|]; [|done].
    unfold rec_at. fold (health_of hp t). fold h. by rewrite H1, H2. }
  assert (Hclaim : health t = i -> rec_at hp i = (next_check h, checking h)) by (by intros <-).
  destruct (Z.ltb_spec now (next_check h)) as [Hlt|Hge].
  - eexists _, _. assert ((next_check h <=? now) = false) as E by (apply Z.leb_gt; lia). rewrite E. cbn [andb]. rewrite app_nil_r.
    split; [reflexivity|]. rewrite length_insert, Hsame by done. split_and!; [done|lia|].
    destruct (Nat.eqb_spec (health t) i) as [He|]; [|done]. rewrite (Hclaim He). cbn [fst snd]. by rewrite E.
  - assert ((next_check h <=? now) = true) as E by (apply Z.leb_le; lia). rewrite E. destruct (checking h) eqn:Hc; cbn [andb negb].
    + eexists _, _. rewrite app_nil_r. split; [reflexivity|]. rewrite length_insert, Hsame by done. split_and!; [done|lia|].
      destruct (Nat.eqb_spec (health t) i) as [He|]; [|done]. rewrite (Hclaim He). cbn [fst snd]. by rewrite andb_false_r.
    + eexists _, _. split; [reflexivity|]. rewrite length_insert. split_and!; [done|lia|]. rewrite rec_at_insert by done.
      destruct (Nat.eqb_spec (health t) i) as [He|Hne].
      * rewrite decide_True by done. rewrite (Hclaim He). cbn [fst snd]. rewrite E. done.
      * by rewrite decide_False.
Qed.

(** A round claims the target at [i] once if it is due and not being checked, and otherwise leaves it. *)
Lemma round_visits_one now i hc l : (forall c, c ∈ l -> health c.1 = i -> c.2 = hc) ->
  forall hp st next, (i < length hp)%nat -> exists hp' new next',
    fold_left (fun acc c => round_target now c.2 acc c.1) l (hp, st, next) = (hp', st ++ new, next')
    /\ length hp' = length hp /\ next' <= next /\ (forall c, c ∈ new -> c ∈ l)
    /\ if claimable hp i now && existsb (of_target i) l
       then (exists c, List.filter (of_target i) new = [c]) /\ rec_at hp' i = (wrap 64 (now + millis (hc_interval hc)), true)
       else List.filter (of_target i) new = [] /\ rec_at hp' i = rec_at hp i.
Proof.
  induction l as [|c l IH]; intros Hl hp st next Hi.
  { exists hp, [], next. rewrite app_nil_r, andb_false_r. split_and!; done || lia. }
  destruct (round_target_one now c.2 i hp st next c.1 Hi) as (hp1 & n1 & Heq & Hlen & Hn & Hrec).
  cbn [fold_left]. rewrite Heq.
  destruct (IH ltac:(intros; apply Hl; [by right|done]) hp1 (st ++ (if claimable hp (health c.1) now then [(c.1, c.2)] else [])) n1 ltac:(lia))
    as (hp2 & new & n2 & Heq2 & Hlen2 & Hn2 & Hnew & Hcase).
  rewrite Heq2. set (mine := if claimable hp (health c.1) now then [(c.1, c.2)] else []) in *.
  exists hp2, (mine ++ new), n2. rewrite app_assoc. split_and!; [done|lia|lia| |].
  { intros x Hx. apply elem_of_app in Hx as [Hx|Hx]; [|right; by apply Hnew]. unfold mine in Hx.
    destruct (claimable _ _ _); [|by apply elem_of_nil in Hx]. apply list_elem_of_singleton in Hx as ->. destruct c. left. }
  rewrite List.filter_app. cbn [existsb]. unfold of_target at 1.
  destruct (Nat.eqb_spec (health c.1) i) as [He|Hne].
  - cbn [orb]. assert (Hmine : mine = if claimable hp i now then [(c.1, c.2)] else []) by (unfold mine; by rewrite He). assert (Hc2 : c.2 = hc) by (apply Hl; [left | done]).
    destruct (claimable hp i now) eqn:Hcl; cbn [andb] in *.
    + assert (claimable hp1 i now = false) as Hcl1 by (unfold claimable; rewrite Hrec; apply andb_false_r). rewrite Hcl1 in Hcase.
      cbn [andb] in Hcase. destruct Hcase as [-> ->]. rewrite Hmine. cbn [List.filter]. unfold of_target. cbn [fst]. rewrite He, Nat.eqb_refl.
      split; [by eexists|]. rewrite Hrec, Hc2. done.
    + assert (claimable hp1 i now = false) as Hcl1 by (unfold claimable in *; by rewrite Hrec). rewrite Hcl1 in Hcase.
      cbn [andb] in Hcase. destruct Hcase as [-> ->]. rewrite Hmine. cbn. by rewrite Hrec.
  - cbn [orb andb] in *. assert (claimable hp1 i now = claimable hp i now) as Hcl1 by (unfold claimable; by rewrite Hrec).
    rewrite Hcl1 in Hcase.
    assert (List.filter (of_target i) mine = []) as ->.
    { unfold mine. destruct (claimable hp (health c.1) now); [|done]. cbn [List.filter]. unfold of_target. cbn [fst].
      by rewrite (proj2 (Nat.eqb_neq _ _) Hne). }
    cbn [app]. rewrite Hrec in Hcase. exact Hcase.
Qed.

(** ** One target over time *)

Lemma millis_nonneg x : 0 <= millis x.
Proof. apply wrap_range. lia. Qed.

Section Tracked.
Variables (d : Z) (i : nat) (hc : HealthCheck).
Hypothesis Hd : 0 <= d.
Let I := millis (hc_interval hc).
Let T := millis (hc_timeout hc).
Hypothesis HI : I < 2 ^ 63.

(** The runtime has the target, checked this way. *)
Definition tracks (pools : list Pool) : Prop :=
  existsb (of_target i) (visits pools) = true /\ forall c, c ∈ visits pools -> health c.1 = i -> c.2 = hc.

Definition of_run (r : Running) : bool := Nat.eqb (health (rn_target r)) i.

(** The instants at which its checks started, and its checks under way. *)
Definition starts_of (s : Checks) : list Z := map rn_since (List.filter of_run (ck_starts s)).
Definition running_of (s : Checks) : list Running := List.filter of_run (ck_running s).

(** A check or the beginning was at [last], a round at [lr]. *)
Record tracked (t0 : Z) (s : Checks) (last lr : Z) : Prop := {
  tk_heap : (i < length (ck_heap s))%nat;
  tk_last : last = t0 \/ last ∈ starts_of s;
  tk_since : 0 <= t0 <= last /\ last <= ck_now s < 2 ^ 63;
  tk_due : (rec_at (ck_heap s) i).1 <= last + I;
  tk_running : if (rec_at (ck_heap s) i).2
               then exists r, running_of s = [r] /\ rn_check r = hc /\ rn_since r = last /\ ck_now s <= last + T + d
               else running_of s = [];
  tk_round : lr <= ck_now s /\ ck_wake s <= lr + 1000 /\ lr <= last + Z.max I (T + d);
  tk_awake : ck_now s <= ck_wake s + d \/ ck_now s = lr;
  tk_spaced : StronglySorted (fun a b => a + I <= b) (starts_of s);
  tk_past : Forall (fun a => a + I <= (rec_at (ck_heap s) i).1) (starts_of s)
}.

Lemma filter_map_started now new : List.filter of_run (map (fun c => mkRunning c.1 c.2 now) new)
  = map (fun c => mkRunning c.1 c.2 now) (List.filter (of_target i) new).
Proof.
  induction new as [|c new IH]; [done|]. cbn. unfold of_run at 1, of_target at 1. cbn [rn_target].
  destruct (Nat.eqb (health c.1) i); cbn; by rewrite IH.
Qed.

Lemma sorted_snoc (R : Z -> Z -> Prop) l x : StronglySorted R l -> Forall (fun a => R a x) l -> StronglySorted R (l ++ [x]).
Proof.
  induction 1 as [|a l _ IH Ha]; intros Hx; cbn; [repeat constructor|]. apply Forall_cons in Hx as [Hax Hx].
  constructor; [by apply IH|]. apply Forall_app. by split; [|constructor].
Qed.

Lemma tracked_tick t0 dt s last lr : tracked t0 s last lr -> 0 <= dt -> ck_now s + dt <= ck_wake s + d -> ck_now s + dt < 2 ^ 63 ->
  (forall r, r ∈ ck_running s -> ck_now s + dt <= rn_since r + millis (hc_timeout (rn_check r)) + d) ->
  tracked t0 (mkChecks (ck_now s + dt) (ck_wake s) (ck_heap s) (ck_running s) (ck_starts s)) last lr.
Proof.
  intros [] Hdt Hw Hb Hr. constructor; cbn [ck_now ck_wake ck_heap ck_running ck_starts]; try done; try lia.
  destruct (rec_at (ck_heap s) i).2; [|done]. destruct tk_running0 as (r & Hrun & Hck & Hsi & _). exists r. split_and!; try done.
  specialize (Hr r). rewrite Hck, Hsi in Hr. apply Hr. assert (r ∈ running_of s) as Hin by (rewrite Hrun; left).
  apply list_elem_of_In, filter_In in Hin as [Hin _]. by apply list_elem_of_In.
Qed.

Lemma tracked_round t0 pools s hp started next last lr : tracked t0 s last lr -> tracks pools -> ck_wake s <= ck_now s ->
  round (ck_now s) pools (ck_heap s) = (hp, started, next) ->
  let new := map (fun c => mkRunning c.1 c.2 (ck_now s)) started in
  exists last', tracked t0 (mkChecks (ck_now s) next hp (ck_running s ++ new) (ck_starts s ++ new)) last' (ck_now s).
Proof.
  intros [] [Hex Hhc] Hw Hr. cbv zeta. rewrite round_visits in Hr.
  destruct (round_visits_one (ck_now s) i hc (visits pools) Hhc (ck_heap s) [] (ck_now s + 1000) tk_heap0)
    as (hp' & new & next' & Heq & Hlen & Hn & Hnew & Hcase).
  rewrite Heq in Hr. injection Hr as <- <- <-. rewrite Hex, andb_true_r in Hcase. cbn [app].
  assert (Hrun : forall x, List.filter of_run (x ++ map (fun c => mkRunning c.1 c.2 (ck_now s)) new)
    = List.filter of_run x ++ map (fun c => mkRunning c.1 c.2 (ck_now s)) (List.filter (of_target i) new))
    by (intros x; by rewrite List.filter_app, filter_map_started).
  pose proof (millis_nonneg (hc_timeout hc)) as HT. fold T in HT. pose proof (millis_nonneg (hc_interval hc)) as HI0. fold I in HI0.
  unfold claimable in Hcase. destruct (rec_at (ck_heap s) i) as [nc ck] eqn:Hrec. cbn [fst snd] in *.
  destruct ((nc <=? ck_now s) && negb ck) eqn:Hcl.
  - apply andb_true_iff in Hcl as [Hnc%Z.leb_le Hck%negb_true_iff]. subst ck. destruct Hcase as [(c & Hc) Hrec'].
    assert (Hwr : wrap 64 (ck_now s + I) = ck_now s + I) by (apply wrap_small; unfold in_u; lia).
    fold I in Hrec'. rewrite Hwr in Hrec'.
    assert (Hc2 : of_target i c = true /\ c.2 = hc).
    { assert (c ∈ List.filter (of_target i) new) as Hin by (rewrite Hc; left). apply list_elem_of_In, filter_In in Hin as [Hin Hof].
      split; [done|]. apply Hhc; [by apply Hnew, list_elem_of_In | by apply Nat.eqb_eq]. }
    assert (Hst : map rn_since (List.filter of_run (ck_starts s ++ map (fun c => mkRunning c.1 c.2 (ck_now s)) new)) = starts_of s ++ [ck_now s]).
    { rewrite Hrun, Hc, map_app. done. }
    exists (ck_now s). constructor; unfold starts_of, running_of in *; cbn [ck_now ck_wake ck_heap ck_running ck_starts];
      rewrite ?Hst, ?Hrun, ?Hrec', ?Hc; cbn [fst snd map]; try done; try lia.
    + right. apply elem_of_app. right. left.
    + rewrite tk_running0. cbn [app]. eexists. split_and!; [done|apply Hc2|done|lia].
    + apply sorted_snoc; [done|]. eapply Forall_impl; [exact tk_past0|]. cbn. lia.
    + apply Forall_app. split; [eapply Forall_impl; [exact tk_past0|]; cbn; lia|]. by constructor.
  - destruct Hcase as [Hno Hrec'].
    exists last. constructor; unfold starts_of, running_of in *; cbn [ck_now ck_wake ck_heap ck_running ck_starts];
      rewrite ?Hrun, ?Hrec', ?Hno; cbn [map]; rewrite ?app_nil_r; cbn [fst snd]; try done; try lia.
    split_and!; [lia|lia|]. apply andb_false_iff in Hcl as [Hnc%Z.leb_gt|Hck%negb_false_iff]; [lia|]. subst ck.
    destruct tk_running0 as (r & _ & _ & _ & Hb). lia.
Qed.

Lemma check_done_rec h at_ ok detail ha ua : let h' := (check_done h at_ ok detail ha ua).2 in next_check h' = next_check h /\ checking h' = false.
Proof. unfold check_done, checked. destruct ok; cbn; destruct (Bool.eqb _ _); cbn; try done; by destruct (_ <? _). Qed.

Lemma tracked_end t0 r a b at_ ok detail s last lr : tracked t0 s last lr -> ck_running s = a ++ r :: b ->
  tracked t0 (mkChecks (ck_now s) (ck_wake s)
    (<[health (rn_target r) := (check_done (health_of (ck_heap s) (rn_target r)) at_ ok detail
         (healthy_after (rn_check r)) (unhealthy_after (rn_check r))).2]> (ck_heap s)) (a ++ b) (ck_starts s)) last lr.
Proof.
  intros [] Hr. destruct (check_done_rec (health_of (ck_heap s) (rn_target r)) at_ ok detail (healthy_after (rn_check r)) (unhealthy_after (rn_check r))) as [Hn Hc].
  set (h' := (check_done _ _ _ _ _ _).2) in *. unfold running_of in tk_running0. rewrite Hr, List.filter_app in tk_running0.
  cbn [List.filter] in tk_running0. change (of_run r) with (Nat.eqb (health (rn_target r)) i) in tk_running0.
  assert (Hrec : rec_at (<[health (rn_target r) := h']> (ck_heap s)) i
    = ((rec_at (ck_heap s) i).1, if Nat.eqb (health (rn_target r)) i then false else (rec_at (ck_heap s) i).2)).
  { rewrite rec_at_insert by done. destruct (decide (health (rn_target r) = i)) as [He|He].
    - rewrite Hn, Hc, He, Nat.eqb_refl. unfold health_of. by rewrite He.
    - rewrite (proj2 (Nat.eqb_neq _ _) He). by destruct (rec_at (ck_heap s) i). }
  constructor; unfold starts_of, running_of in *; cbn [ck_now ck_wake ck_heap ck_running ck_starts]; rewrite ?Hrec, ?length_insert; cbn [fst snd]; try done.
  rewrite List.filter_app. revert tk_running0. destruct (Nat.eqb (health (rn_target r)) i); intros tk_running0; [|done].
  destruct (rec_at (ck_heap s) i).2.
  - destruct tk_running0 as (r' & Hl & _). destruct (List.filter of_run a) as [|x la]; [by injection Hl as _ ->|].
    injection Hl as _ Hl. by destruct la.
  - by destruct (List.filter of_run a).
Qed.

Lemma tracked_step t0 s s' : cstep d tracks s s' -> (exists last lr, tracked t0 s last lr) -> exists last lr, tracked t0 s' last lr.
Proof.
  intros Hstep (last & lr & Ht). destruct Hstep as [dt s Hdt Hw Hb Hr|pools s hp started next HP Hw Hr new|r a b at_ ok detail s Hr|hp s Hlen Hsame].
  - exists last, lr. by apply tracked_tick.
  - destruct (tracked_round t0 pools s hp started next last lr Ht HP Hw Hr) as [last' Ht']. by exists last', (ck_now s).
  - exists last, lr. by eapply tracked_end.
  - assert (Hrec : rec_at hp i = rec_at (ck_heap s) i).
    { unfold rec_at. destruct (Hsame (mkTarget [] [] false 0 0 i None)) as [H1 H2]. unfold health_of in *. cbn [health] in *. by rewrite H1, H2. }
    destruct Ht. exists last, lr. constructor; unfold starts_of, running_of in *; cbn [ck_now ck_wake ck_heap ck_running ck_starts];
      rewrite ?Hrec; try done; lia.
Qed.
End Tracked.

(** The loop as it starts, at [t0]. *)
Definition begun (t0 : Z) (hp : heap) : Checks := mkChecks t0 t0 hp [] [].

(** C36.  Every target of a checked pool keeps being checked: whatever rounds, reloads and requests come between, as
    long as the runtime has it, its next check starts within its interval (or the time its last check may take,
    if longer) and one second of the last, scheduler delays aside; there is never more than one of its checks
    under way, and they start at least an interval apart. *)
Theorem checks_keep_coming d i hc t0 hp s : 0 <= d -> millis (hc_interval hc) < 2 ^ 63 -> 0 <= t0 < 2 ^ 63 ->
  (i < length hp)%nat -> (rec_at hp i).1 <= t0 -> (rec_at hp i).2 = false ->
  rtc (cstep d (tracks i hc)) (begun t0 hp) s ->
  (exists last, (last = t0 \/ last ∈ starts_of i s)
     /\ ck_now s <= last + Z.max (millis (hc_interval hc)) (millis (hc_timeout hc) + d) + 1000 + d)
  /\ (length (running_of i s) <= 1)%nat
  /\ StronglySorted (fun a b => a + millis (hc_interval hc) <= b) (starts_of i s).
Proof.
  intros Hd HI Ht0 Hi Hdue Hck Hr.
  assert (Ht : exists last lr, tracked d i hc t0 s last lr).
  { assert (exists last lr, tracked d i hc t0 (begun t0 hp) last lr) as H0.
    { pose proof (millis_nonneg (hc_interval hc)). pose proof (millis_nonneg (hc_timeout hc)). exists t0, t0.
      constructor; unfold begun, starts_of, running_of; cbn [ck_now ck_wake ck_heap ck_running ck_starts]; rewrite ?Hck; cbn; try done; try lia; first [by left | apply SSorted_nil | idtac]. cbn in Hdue. lia. }
    revert H0. induction Hr as [|x y z Hxy _ IH]; [done|]. intros H0. apply IH. by eapply tracked_step. }
  destruct Ht as (last & lr & []). split_and!; [|  | done].
  - exists last. split; [done|]. lia.
  - destruct (rec_at (ck_heap s) i).2; [destruct tk_running0 as (r & -> & _); cbn; lia|]. rewrite tk_running0. cbn. lia.
Qed.

(** ** Over TLS *)

(** A check of an https target over https, wherever it is sent ([port], [scheme], [check_host]), presents the
    certificate and verifies the name that requests to the target do. *)
Theorem check_verifies_as_requests parse_uri server_name_ok u hc t uri dialled :
  parse_uri (base t) = Some uri -> parse_uri (base_for parse_uri hc t) = Some dialled ->
  (forall b v, parse_uri b = Some v -> starts_with b (lit "https://") = bool_decide (u_scheme v = Some (lit "https"))) ->
  u_scheme uri = Some (lit "https") -> u_scheme dialled = Some (lit "https") ->
  u_host uri = to_ascii_lowercase <$> u_host uri -> u_host uri <> None -> u_host dialled <> None ->
  connect server_name_ok u (check_connector parse_uri hc t) dialled = connect server_name_ok u None uri.
Proof.
  intros Hu Hd Hs Hus Hds Hlow Huh Hdh. unfold check_connector. rewrite (Hs _ _ Hu), (Hs _ _ Hd), Hus, Hds.
  rewrite !bool_decide_eq_true_2 by done. destruct (beq (base_for parse_uri hc t) (base t)) eqn:He; cbn [negb andb].
  - apply beq_true in He. rewrite He in Hd. by assert (dialled = uri) as -> by congruence.
  - by apply connect_with_tls_of.
Qed.

(** ** Witnesses *)

Module SampleChecks.
Definition hc : HealthCheck :=
  mkHealthCheck CheckHttp (lit "/healthz") 5000000000 2000000000 2 2 (lit "200") [(200, 200)] [] [] None (lit "GET") [] [] (Some 8081) None.
Definition target : Target := mkTarget (lit "https://app:8443") (lit "app") false 1 1 0 None.
Definition pool : Pool := mkPool (lit "default") [target] true Priority (Some hc) 0 0 0 0 None None.

(** One round, then a second later. *)
Definition after_round : Checks :=
  let '(hp, started, next) := round 0 [pool] [health_default] in
  let new := map (fun c => mkRunning c.1 c.2 0) started in mkChecks 0 next hp new new.
Definition later : Checks :=
  mkChecks 1000 (ck_wake after_round) (ck_heap after_round) (ck_running after_round) (ck_starts after_round).

Lemma run : rtc (cstep 10 (tracks 0 hc)) (begun 0 [health_default]) later.
Proof.
  eapply rtc_l; [eapply (c_round _ _ [pool]); [|vm_compute; discriminate|reflexivity]|].
  { split; [reflexivity|]. intros c Hc _. apply list_elem_of_singleton in Hc as ->. reflexivity. }
  eapply rtc_l; [apply (c_tick _ _ 1000)|]; [lia | vm_compute; discriminate | vm_compute; reflexivity | | apply rtc_refl].
  intros r Hr. apply list_elem_of_singleton in Hr as ->. vm_compute. discriminate.
Qed.

Definition uri_of (b : bytes) : option Uri :=
  if beq b (lit "https://app:8443") then Some (mkUri (Some (lit "https")) (Some (lit "app:8443")) (Some (lit "app")) (Some 8443) (lit "/"))
  else if beq b (lit "https://app:8081") then Some (mkUri (Some (lit "https")) (Some (lit "app:8081")) (Some (lit "app")) (Some 8081) (lit "/"))
  else None.

(** One entry, for the port of the target. *)
Definition tls : UpstreamTls :=
  mkUpstreamTls (mkProfile (mkTls (Roots []) None true) None)
    {[ (lit "app", 8443) := mkProfile (mkTls (Roots [lit "ca"]) None true) (Some (lit "app.internal")) ]} ∅.
End SampleChecks.

Lemma checks_keep_coming_witness :
  starts_of 0 SampleChecks.later = [0]
  /\ exists last, (last = 0 \/ last ∈ starts_of 0 SampleChecks.later)
       /\ ck_now SampleChecks.later <= last + Z.max 5000 (2000 + 10) + 1000 + 10.
Proof.
  split; [reflexivity|].
  apply (checks_keep_coming 10 0 SampleChecks.hc 0 [health_default] SampleChecks.later);
    [lia | vm_compute; reflexivity | lia | cbn; lia | vm_compute; discriminate | reflexivity | apply SampleChecks.run].
Defined.

Lemma check_verifies_as_requests_witness :
  base_for SampleChecks.uri_of SampleChecks.hc SampleChecks.target = lit "https://app:8081"
  /\ connect (fun _ => true) SampleChecks.tls (check_connector SampleChecks.uri_of SampleChecks.hc SampleChecks.target)
       (mkUri (Some (lit "https")) (Some (lit "app:8081")) (Some (lit "app")) (Some 8081) (lit "/"))
     = Ok (UpstreamTls.Tls (mkTls (Roots [lit "ca"]) None true) (lit "app.internal")).
Proof.
  split; [vm_compute; reflexivity|].
  rewrite (check_verifies_as_requests SampleChecks.uri_of (fun _ => true) SampleChecks.tls SampleChecks.hc SampleChecks.target
    (mkUri (Some (lit "https")) (Some (lit "app:8443")) (Some (lit "app")) (Some 8443) (lit "/")));
    [vm_compute; reflexivity | vm_compute; reflexivity | vm_compute; reflexivity | | reflexivity | reflexivity | reflexivity | discriminate | discriminate].
  intros b v. unfold SampleChecks.uri_of. destruct (beq b (lit "https://app:8443")) eqn:E1; [apply beq_true in E1 as ->; by intros [= <-]|].
  destruct (beq b (lit "https://app:8081")) eqn:E2; [apply beq_true in E2 as ->; by intros [= <-]|]. done.
Defined.
