(* ===== verification/Disk.v ===== *)
(** * Disk: the calls of [std::fs] the sources make, with their failures

    A file system is its files by path, each with its contents and whether only its owner reads it.  Every call
    may fail; which do is given by an oracle, so a theorem about a sequence of calls is about every way it can
    go wrong, and the states passed through are kept, so that it is about a crash at any point too.  Paths are
    names: two names are two files, and directories are not modelled beyond their creation, which may fail. *)

From S2P Require Import Prelude Text.

Record File : Type := mkFile { contents : bytes; private : bool }.
#[global] Instance File_eq_dec : EqDecision File.
Proof. solve_decision. Defined.

Abbreviation Fs := (gmap bytes File).

(** [io::ErrorKind], as far as the sources look. *)
Inductive IoError : Type := NotFound | OtherError.

(** The files now, how many calls were made, and the states left behind. *)
Record Disk : Type := mkDisk { fs : Fs; calls : nat; seen : list Fs }.

Definition disk_of (f : Fs) : Disk := mkDisk f 0 [].

(** A computation on a disk. *)
Definition io (A : Type) : Type := Disk -> A * Disk.

Definition ret {A} (a : A) : io A := fun d => (a, d).
Definition bind {A B} (m : io A) (k : A -> io B) : io B := fun d => let '(a, d) := m d in k a d.
Definition tryio {A B E} (m : io (A + E)) (k : A -> io (B + E)) : io (B + E) :=
  bind m (fun r => match r with inl a => k a | inr e => ret (inr e) end).

Notation "'let!' x := m 'in' k" := (bind m (fun x => k)) (at level 10, x name, m at level 100, k at level 200) : edge_scope.
Notation "'let?!' x := m 'in' k" := (tryio m (fun x => k)) (at level 10, x name, m at level 100, k at level 200) : edge_scope.
(** [let _ = m;] *)
Notation "'drop!' m ';' k" := (bind m (fun _ => k)) (at level 10, m at level 100, k at level 200) : edge_scope.

Section Calls.
(** Which calls fail, by their number; how much a failed write leaves; whether a name is there but cannot be seen
    as a file (a dangling link, a directory one may not read). *)
Variable fails : nat -> bool.
Variable torn : nat -> nat.

(** One call: an error and nothing done, or what [f] makes of the files. *)
Definition call {A} (f : Fs -> (A + IoError) * Fs) : io (A + IoError) := fun d =>
  if fails (calls d) then (inr OtherError, mkDisk (fs d) (S (calls d)) (seen d))
  else let '(r, new) := f (fs d) in (r, mkDisk new (S (calls d)) (seen d ++ [fs d])).

Definition remove_file (p : bytes) : io (unit + IoError) :=
  call (fun f => match f !! p with Some _ => (inl tt, delete p f) | None => (inr NotFound, f) end).

Definition rename (a b : bytes) : io (unit + IoError) :=
  call (fun f => match f !! a with Some x => (inl tt, <[b := x]> (delete a f)) | None => (inr NotFound, f) end).

(** [create_new]: fails where there is a file. *)
Definition create_new (p : bytes) (private : bool) : io (unit + IoError) :=
  call (fun f => match f !! p with Some _ => (inr OtherError, f) | None => (inl tt, <[p := mkFile [] private]> f) end).

Definition set_private (p : bytes) : io (unit + IoError) :=
  call (fun f => (inl tt, alter (fun x => mkFile (contents x) true) p f)).

(** A failed write leaves part of what was to be written. *)
Definition write_all (p : bytes) (data : bytes) : io (unit + IoError) := fun d =>
  let put b := alter (fun x => mkFile b (private x)) p (fs d) in
  if fails (calls d)
  then (inr OtherError, mkDisk (put (take (torn (calls d)) data)) (S (calls d)) (seen d ++ [fs d]))
  else (inl tt, mkDisk (put data) (S (calls d)) (seen d ++ [fs d])).

Definition sync_all : io (unit + IoError) := call (fun f => (inl tt, f)).

Definition create_dir_all : io (unit + IoError) := call (fun f => (inl tt, f)).

(** [std::fs::write]: a failure finds the file as it was, or cut short. *)
Definition write (p : bytes) (data : bytes) : io (unit + IoError) := fun d =>
  let put b := <[p := mkFile b (default false (private <$> fs d !! p))]> (fs d) in
  if fails (calls d)
  then (inr OtherError, mkDisk (match torn (calls d) with O => fs d | S n => put (take n data) end) (S (calls d)) (seen d ++ [fs d]))
  else (inl tt, mkDisk (put data) (S (calls d)) (seen d ++ [fs d])).

Definition read_to_string (p : bytes) : io (bytes + IoError) :=
  call (fun f => match f !! p with Some x => (inl (contents x), f) | None => (inr NotFound, f) end).

(** [Path::exists]: no error to see. *)
Definition exists_ (p : bytes) : io bool := fun d => (bool_decide (is_Some (fs d !! p)), d).

(** [symlink_metadata]: anything but a clear absence is a presence. *)
Definition path_present (p : bytes) : io bool :=
  bind (call (fun f => match f !! p with Some _ => (inl tt, f) | None => (inr NotFound, f) end))
    (fun r => ret (match r with inr NotFound => false | _ => true end)).
End Calls.

(** ** What a computation may touch *)

Implicit Types (X : list bytes) (p : bytes) (fails : nat -> bool) (torn : nat -> nat).

(** The files outside [X] are as they were, in the end and in every state on the way. *)
Definition only (X : list bytes) (f g : Fs) : Prop := forall p, p ∉ X -> g !! p = f !! p.

#[global] Instance only_refl X : Reflexive (only X).
Proof. by intros f p _. Qed.
#[global] Instance only_trans X : Transitive (only X).
Proof. intros f g h H1 H2 p Hp. by rewrite H2, H1. Qed.

Definition touches {A} (X : list bytes) (m : io A) : Prop := forall d,
  only X (fs d) (fs (m d).2) /\ exists new, seen (m d).2 = seen d ++ new /\ Forall (only X (fs d)) new.

Lemma touches_ret {A} X (a : A) : touches X (ret a).
Proof. intros d. split; [done|]. exists []. by rewrite app_nil_r. Qed.

Lemma touches_bind {A B} X (m : io A) (k : A -> io B) : touches X m -> (forall a, touches X (k a)) -> touches X (bind m k).
Proof.
  intros Hm Hk d. unfold bind. destruct (Hm d) as [H1 (n1 & Hs1 & Hf1)]. destruct (m d) as [a d1]. cbn [fst snd] in *.
  destruct (Hk a d1) as [H2 (n2 & Hs2 & Hf2)]. split; [by etrans|]. exists (n1 ++ n2).
  rewrite Hs2, Hs1, app_assoc. split; [done|]. apply Forall_app. split; [done|].
  eapply Forall_impl; [exact Hf2|]. cbn. intros f Hf. by etrans.
Qed.

Lemma touches_call {A} X fails (f : Fs -> (A + IoError) * Fs) : (forall s, only X s (f s).2) -> touches X (call fails f).
Proof.
  intros Hf d. unfold call. destruct (fails (calls d)); cbn [fst snd fs seen]; [split; [done|]; exists []; by rewrite app_nil_r|].
  specialize (Hf (fs d)). destruct (f (fs d)) as [r new]. split; [done|]. exists [fs d]. split; [done|]. by constructor.
Qed.

Lemma only_alter X p (g : File -> File) (f : Fs) : p ∈ X -> only X f (alter g p f).
Proof. intros Hp q Hq. apply lookup_alter_ne. intros ->. done. Qed.

Lemma only_insert X p (x : File) (f : Fs) : p ∈ X -> only X f (<[p := x]> f).
Proof. intros Hp q Hq. apply lookup_insert_ne. intros ->. done. Qed.

Lemma only_delete X p (f : Fs) : p ∈ X -> only X f (delete p f).
Proof. intros Hp q Hq. apply lookup_delete_ne. intros ->. done. Qed.

Lemma touches_remove X fails p : p ∈ X -> touches X (remove_file fails p).
Proof. intros Hp. apply touches_call. intros s. destruct (s !! p); [by apply only_delete | done]. Qed.

Lemma touches_rename X fails a b : a ∈ X -> b ∈ X -> touches X (rename fails a b).
Proof. intros Ha Hb. apply touches_call. intros s. destruct (s !! a); [|done]. etrans; [by apply (only_delete X a) | by apply only_insert]. Qed.

Lemma touches_create X fails p b : p ∈ X -> touches X (create_new fails p b).
Proof. intros Hp. apply touches_call. intros s. destruct (s !! p); [done | by apply only_insert]. Qed.

Lemma touches_private X fails p : p ∈ X -> touches X (set_private fails p).
Proof. intros Hp. apply touches_call. intros s. by apply only_alter. Qed.

Lemma touches_write X fails torn p data : p ∈ X -> touches X (write_all fails torn p data).
Proof.
  intros Hp d. unfold write_all. destruct (fails (calls d)); cbn [fst snd fs seen];
    (split; [by apply only_alter|]; exists [fs d]; split; [done|]; by constructor).
Qed.

Lemma touches_sync X fails : touches X (sync_all fails).
Proof. by apply touches_call. Qed.

Lemma touches_exists X p : touches X (exists_ p).
Proof. intros d. split; [done|]. exists []. by rewrite app_nil_r. Qed.

Lemma touches_dir X fails : touches X (create_dir_all fails).
Proof. by apply touches_call. Qed.

Lemma touches_read X fails p : touches X (read_to_string fails p).
Proof. apply touches_call. intros s. by destruct (s !! p). Qed.

Lemma touches_put X fails torn p data : p ∈ X -> touches X (write fails torn p data).
Proof.
  intros Hp d. unfold write. destruct (fails (calls d)); cbn [fst snd fs seen];
    (split; [|exists [fs d]; split; [done|]; by constructor]); [destruct (torn _); [done|]|]; by apply only_insert.
Qed.

Create HintDb disk.
#[export] Hint Resolve touches_ret touches_bind touches_remove touches_rename touches_create touches_private touches_write
  touches_sync touches_exists touches_dir touches_read touches_put list_elem_of_here : disk.

(** ** What holds when a computation ends *)

Definition wp {A} (m : io A) (Q : A -> Disk -> Prop) (d : Disk) : Prop := Q (m d).1 (m d).2.

Lemma wp_ret {A} (a : A) Q d : Q a d -> wp (ret a) Q d.
Proof. done. Qed.

Lemma wp_bind {A B} (m : io A) (k : A -> io B) Q d : wp m (fun a d => wp (k a) Q d) d -> wp (bind m k) Q d.
Proof. unfold wp, bind. by destruct (m d). Qed.

Lemma wp_tryio {A B E} (m : io (A + E)) (k : A -> io (B + E)) Q d :
  wp m (fun r d => match r with inl a => wp (k a) Q d | inr e => Q (inr e) d end) d -> wp (tryio m k) Q d.
Proof. intros H. apply wp_bind. unfold wp in *. by destruct (m d) as [[a|e] d']. Qed.

Lemma wp_mono {A} (m : io A) (Q R : A -> Disk -> Prop) d : wp m Q d -> (forall a d, Q a d -> R a d) -> wp m R d.
Proof. intros H HQ. by apply HQ. Qed.

(** The disk after a call that failed, and after one that made the files [f]. *)
Definition failed (d : Disk) : Disk := mkDisk (fs d) (S (calls d)) (seen d).
Definition became (d : Disk) (f : Fs) : Disk := mkDisk f (S (calls d)) (seen d ++ [fs d]).

Lemma wp_call {A} fails (f : Fs -> (A + IoError) * Fs) Q d :
  (fails (calls d) = true -> Q (inr OtherError) (failed d)) ->
  (fails (calls d) = false -> Q (f (fs d)).1 (became d (f (fs d)).2)) -> wp (call fails f) Q d.
Proof. intros H1 H2. unfold wp, call. destruct (fails (calls d)); [by apply H1|]. specialize (H2 eq_refl). by destruct (f (fs d)). Qed.

Lemma wp_rename fails a b Q d x : fs d !! a = Some x -> (fails (calls d) = true -> Q (inr OtherError) (failed d)) ->
  (fails (calls d) = false -> Q (inl tt) (became d (<[b := x]> (delete a (fs d))))) -> wp (rename fails a b) Q d.
Proof. intros Hx H1 H2. apply wp_call; rewrite ?Hx; auto. Qed.

Lemma wp_rename_absent fails a b Q d : fs d !! a = None -> (fails (calls d) = true -> Q (inr OtherError) (failed d)) ->
  (fails (calls d) = false -> Q (inr NotFound) (became d (fs d))) -> wp (rename fails a b) Q d.
Proof. intros Hx H1 H2. apply wp_call; rewrite ?Hx; auto. Qed.

(** A removal whose outcome is not looked at. *)
Lemma wp_remove fails p Q d : (fails (calls d) = true -> Q (inr OtherError) (failed d)) ->
  (fails (calls d) = false -> forall r, Q r (became d (delete p (fs d)))) -> wp (remove_file fails p) Q d.
Proof.
  intros H1 H2. apply wp_call; [done|]. intros Hf. destruct (fs d !! p) eqn:Hp; [by apply H2|].
  specialize (H2 Hf (inr NotFound)). assert (delete p (fs d) = fs d) as E by (by apply delete_id). by rewrite E in H2.
Qed.

Lemma wp_create fails p b Q d : (fails (calls d) = true -> Q (inr OtherError) (failed d)) ->
  (fails (calls d) = false -> match fs d !! p with
                              | Some _ => Q (inr OtherError) (became d (fs d))
                              | None => Q (inl tt) (became d (<[p := mkFile [] b]> (fs d)))
                              end) -> wp (create_new fails p b) Q d.
Proof. intros H1 H2. apply wp_call; [done|]. intros Hf. specialize (H2 Hf). by destruct (fs d !! p). Qed.

Lemma wp_write fails torn p data Q d x : fs d !! p = Some x ->
  (fails (calls d) = true -> forall t, Q (inr OtherError) (became d (<[p := mkFile t (private x)]> (fs d)))) ->
  (fails (calls d) = false -> Q (inl tt) (became d (<[p := mkFile data (private x)]> (fs d)))) -> wp (write_all fails torn p data) Q d.
Proof.
  intros Hx H1 H2. unfold wp, write_all.
  assert (Ha : forall t, alter (fun y => mkFile t (private y)) p (fs d) = <[p := mkFile t (private x)]> (fs d)).
  { intros t. apply map_eq. intros q. destruct (decide (p = q)) as [<-|Hne].
    - by rewrite lookup_alter_eq, Hx, lookup_insert_eq.
    - by rewrite lookup_alter_ne, lookup_insert_ne. }
  rewrite !Ha. destruct (fails (calls d)); [by apply H1 | by apply H2].
Qed.
