(* ===== verification/SelfSigned.v ===== *)
(** * SelfSigned: generating a certificate, and writing a pair to disk ([src/src/selfsigned.rs])

    [publish_pair] is the one way a certificate and its key reach the disk, from self-signed generation, its
    renewal and ACME.  [rcgen] (key pairs, signing, PEM) is a parameter, as is the process id. *)

From S2P Require Import Prelude Text Net Disk.

Definition DEFAULT_HOSTS : list bytes := [lit "localhost"; lit "127.0.0.1"; lit "::1"].

Inductive SanType : Type := SanIp (ip : IpAddr) | SanDns (name : bytes).

(** What [generate_with_key] asks [rcgen] to sign. *)
Record CertificateParams : Type := mkParams {
  subject_alt_names : list SanType; common_name : bytes; organization : bytes; p_not_before : Z; p_not_after : Z
}.

Record SelfSigned : Type := mkSelfSigned { cert_pem : bytes; key_pem : bytes }.

Section SelfSigned.
Context {KeyPair : Type}.
Variable generate_key : option KeyPair.                             (** [KeyPair::generate] *)
Variable from_pem : bytes -> option KeyPair.
Variable serialize_pem : KeyPair -> bytes.
Variable self_sign : CertificateParams -> KeyPair -> option bytes.  (** [self_signed(..).pem()] *)
Variable date_ok : Z -> bool.                                       (** the dates [time] represents, in unix seconds *)
Variable pid : bytes.
Variable fails : nat -> bool.
Variable torn : nat -> nat.

Definition san_of (h : bytes) : result SanType :=
  match parse_ip h with
  | Some ip => Ok (SanIp ip)
  | None => ensure (forallb (fun c => c <? 128) h) else "is neither an IP address nor an ASCII hostname"; Ok (SanDns h)
  end.

Definition generate_with_key (hosts : list bytes) (days : Z) (key : KeyPair) (now : Z) : result SelfSigned :=
  match hosts with
  | [] => Err "no hosts to put in the certificate"
  | first :: _ =>
      ensure (0 <? days) else "certificate validity must be at least one day";
      let? sans := collect san_of hosts in
      ensure (date_ok (now + days * 86400)) else "certificate validity exceeds the supported date range";
      let params := mkParams sans first (lit "EdgeGuard self-signed") (now - 3600) (now + days * 86400) in
      let? pem := ok_or (self_sign params key) "self-signing the certificate" in
      Ok (mkSelfSigned pem (serialize_pem key))
  end.

Definition generate (hosts : list bytes) (days : Z) (now : Z) : result SelfSigned :=
  let? key := ok_or generate_key "generating the certificate key pair" in generate_with_key hosts days key now.

(** ** Writing *)

Definition tmp_path (path : bytes) : bytes := path ++ lit ".tmp." ++ pid.
Definition backup_path (path : bytes) : bytes := path ++ lit ".bak." ++ pid.

Definition stage (path : bytes) (data : bytes) (private : bool) : io (bytes + IoError) :=
  let tmp := tmp_path path in
  let! there := exists_ tmp in
  drop! (if there then bind (remove_file fails tmp) (fun _ => ret tt) else ret tt);
  let! result :=
    (let?! _ := create_new fails tmp private in
     let?! _ := (if private then set_private fails tmp else ret (inl tt)) in
     let?! _ := write_all fails torn tmp data in
     sync_all fails) in
  match result with
  | inl _ => ret (inl tmp)
  | inr e => drop! (remove_file fails tmp); ret (inr e)
  end.

Definition publish (tmp path : bytes) : io (unit + IoError) := rename fails tmp path.

(** [Path::parent] is not empty: a separator before the last component. *)
Definition has_parent (path : bytes) : bool := existsb (Z.eqb 47) (trim_end_matches 47 path).

(** The parents of the two paths are made first; a failure there ends it. *)
Definition make_parents (cert_path key_path : bytes) : io (unit + IoError) :=
  let?! _ := (if has_parent cert_path then create_dir_all fails else ret (inl tt)) in
  (if has_parent key_path then create_dir_all fails else ret (inl tt)).

Definition publish_pair (cert_pem key_pem cert_path key_path : bytes) : io (result unit) :=
  if beq cert_path key_path then ret (Err "tls.cert_path and tls.key_path must be different files")
  else
  let! made := make_parents cert_path key_path in
  match made with
  | inr _ => ret (Err "creating directory")
  | inl _ =>
  let! cert_tmp := stage cert_path cert_pem false in
  match cert_tmp with
  | inr _ => ret (Err "staging certificate")
  | inl cert_tmp =>
  let! key_tmp := stage key_path key_pem true in
  match key_tmp with
  | inr _ => drop! (remove_file fails cert_tmp); ret (Err "staging private key")
  | inl key_tmp =>
  let backup := backup_path cert_path in
  let! aside := rename fails cert_path backup in
  let go (had_cert : bool) :=
    (let! published := (let?! _ := publish cert_tmp cert_path in publish key_tmp key_path) in
     match published with
     | inl _ => if had_cert then drop! (remove_file fails backup); ret (Ok tt) else ret (Ok tt)
     | inr _ =>
         drop! (remove_file fails cert_path);
         drop! (if had_cert then bind (rename fails backup cert_path) (fun _ => ret tt) else ret tt);
         drop! (remove_file fails cert_tmp);
         drop! (remove_file fails key_tmp);
         ret (Err "publishing the certificate pair")
     end) in
  match aside with
  | inl _ => go true
  | inr NotFound => go false
  | inr OtherError =>
      drop! (remove_file fails cert_tmp);
      drop! (remove_file fails key_tmp);
      ret (Err "setting aside the existing certificate")
  end
  end end end.

Definition replace_private (path data : bytes) : io (result unit) :=
  let! tmp := stage path data true in
  match tmp with
  | inr _ => ret (Err "writing")
  | inl tmp =>
      let! r := rename fails tmp path in
      match r with
      | inl _ => ret (Ok tt)
      | inr _ => drop! (remove_file fails tmp); ret (Err "replacing")
      end
  end.

Definition write_to (hosts : list bytes) (days now : Z) (cert_path key_path : bytes) : io (result SelfSigned) :=
  if beq cert_path key_path then ret (Err "tls.cert_path and tls.key_path must be different files")
  else match generate hosts days now with
  | Err e => ret (Err e)
  | Ok g =>
      let! r := publish_pair (cert_pem g) (key_pem g) cert_path key_path in
      match r with Ok _ => ret (Ok g) | Err e => ret (Err e) end
  end.

(** The key on disk is kept where it can be read. *)
Definition renew (hosts : list bytes) (days now : Z) (cert_path key_path : bytes) (keep_key : bool) : io (result unit) :=
  let! existing := (if keep_key then bind (read_to_string fails key_path)
                      (fun r => ret (match r with inl pem => from_pem pem | inr _ => None end))
                    else ret None) in
  match (match existing with Some k => Some k | None => generate_key end) with
  | None => ret (Err "generating the certificate key pair")
  | Some key =>
      match generate_with_key hosts days key now with
      | Err e => ret (Err e)
      | Ok g => publish_pair (cert_pem g) (key_pem g) cert_path key_path
      end
  end.

Definition ensure_pair (hosts : list bytes) (days now : Z) (cert_path key_path : bytes) : io (result bool) :=
  if beq cert_path [] || beq key_path [] then ret (Err "tls.self_signed needs tls.cert_path and tls.key_path set")
  else
  let! have_cert := path_present fails cert_path in
  let! have_key := path_present fails key_path in
  if have_cert && have_key then ret (Ok false)
  else
    let! r := write_to hosts days now cert_path key_path in
    match r with Ok _ => ret (Ok true) | Err e => ret (Err e) end.
End SelfSigned.

(** ** Laws: a pair reaches the disk whole or not at all *)

Section Laws.
Variable pid : bytes.
Variable fails : nat -> bool.
Variable torn : nat -> nat.

Abbreviation stage := (stage pid fails torn).
Abbreviation publish_pair := (publish_pair pid fails torn).

(** ** Staging *)

Lemma touches_stage p data b : touches [tmp_path pid p] (stage p data b).
Proof.
  unfold SelfSigned.stage, tryio.
  repeat (first [ apply touches_bind | apply touches_ret | apply touches_exists | apply touches_sync
                | apply touches_remove; left | apply touches_create; left | apply touches_private; left | apply touches_write; left
                | progress intros | match goal with |- touches _ (match ?x with _ => _ end) => destruct x end ]).
Qed.

(** From here on nothing fails. *)
Definition quiet (n : nat) : Prop := forall k, (n <= k)%nat -> fails k = false.

(** At most one call fails. *)
Definition once : Prop := forall n k, fails n = true -> fails k = true -> n = k.

Lemma once_quiet n : once -> fails n = true -> quiet (S n).
Proof. intros H1 Hn k Hk. destruct (fails k) eqn:E; [|done]. specialize (H1 _ _ Hn E). lia. Qed.

Lemma quiet_mono n k : (n <= k)%nat -> quiet n -> quiet k.
Proof. intros Hle Hq j Hj. apply Hq. lia. Qed.
Lemma quiet_after n k : once -> fails n = true -> (n < k)%nat -> quiet k.
Proof. intros Ho Hn Hk. eapply quiet_mono; [|by apply once_quiet]. lia. Qed.

(** What staging came to, for a start at call [n]. *)
Definition staged (p data : bytes) (b : bool) (n : nat) (r : bytes + IoError) (d : Disk) : Prop :=
  (n <= calls d)%nat
  /\ match r with
     | inl tmp => tmp = tmp_path pid p /\ fs d !! tmp = Some (mkFile data b)
     | inr _ => once -> quiet (calls d)
     end.

(** Cleaning up after a failure at call [n]. *)
Lemma wp_give_up p data b n m e d : (n <= calls d)%nat -> (once -> quiet m) -> (m <= calls d)%nat ->
  wp (bind (remove_file fails (tmp_path pid p)) (fun _ => ret (inr e))) (staged p data b n) d.
Proof.
  intros Hn Hq Hm. apply wp_bind, wp_remove; intros; apply wp_ret; (split; [cbn; lia|]); intros Ho; (eapply quiet_mono; [|by apply Hq]); cbn; lia.
Qed.

Lemma wp_stage p data b d : wp (stage p data b) (staged p data b (calls d)) d.
Proof.
  unfold SelfSigned.stage. set (tmp := tmp_path pid p). apply wp_bind. unfold exists_, wp at 1. cbn [fst snd].
  (* the leftover, if any, is gone, or its removal was the one failure *)
  apply wp_bind. set (R := fun (_ : unit) d' => (calls d <= calls d')%nat /\ (fs d' !! tmp = None \/ (once -> quiet (calls d')))).
  apply wp_mono with R.
  { case_bool_decide as Ht.
    - apply wp_bind, wp_remove; intros Hf; [|intros r]; apply wp_ret; (split; [cbn; lia|]); [right; intros Ho; by eapply quiet_after; eauto; cbn; lia|].
      left. cbn. apply lookup_delete_eq.
    - apply wp_ret. split; [lia|]. left. by apply eq_None_not_Some. }
  intros _ d1 [Hc1 Hd1]. apply wp_bind, wp_tryio, wp_create; intros Hf1.
  { apply (wp_give_up _ _ _ _ (S (calls d1))); [cbn; lia| |cbn; lia]. intros Ho. by apply once_quiet. }
  destruct (fs d1 !! tmp) as [x|] eqn:Hx.
  { destruct Hd1 as [Hd1|Hd1]; [congruence|]. apply (wp_give_up _ _ _ _ (calls d1)); [cbn; lia|done|cbn; lia]. }
  apply wp_tryio. set (d2 := became d1 _).
  apply wp_mono with (fun r d3 => (calls d2 <= calls d3)%nat /\ match r with
    | inl _ => fs d3 !! tmp = Some (mkFile [] b) | inr _ => once -> quiet (calls d3) end).
  { destruct b; [|apply wp_ret; split; [lia | apply lookup_insert_eq]].
    apply wp_call; intros Hf2; cbn; (split; [lia|]); [intros Ho; by apply once_quiet|].
    by rewrite lookup_alter_eq, lookup_insert_eq. }
  intros [[]|e] d3 [Hc3 Hd3]; cbn in Hc3; [|apply (wp_give_up _ _ _ _ (calls d3)); [lia|done|lia]].
  eapply wp_tryio, wp_write; [exact Hd3|intros Hf4 t|intros Hf4].
  { apply (wp_give_up _ _ _ _ (S (calls d3))); [cbn; lia| |cbn; lia]. intros Ho. by apply once_quiet. }
  apply wp_call; intros Hf5.
  { apply (wp_give_up _ _ _ _ (S (S (calls d3)))); [cbn; lia| |cbn; lia]. intros Ho. by apply once_quiet. }
  apply wp_ret. split; [cbn; lia|]. split; [done|]. cbn. apply lookup_insert_eq.
Qed.

(** The same, with what it touched. *)
Lemma wp_stage_only p data b d : wp (stage p data b) (fun r d' => staged p data b (calls d) r d'
  /\ only [tmp_path pid p] (fs d) (fs d') /\ exists new, seen d' = seen d ++ new /\ Forall (only [tmp_path pid p] (fs d)) new) d.
Proof. split; [apply wp_stage|]. apply touches_stage. Qed.

(** ** Publishing *)

Section Pair.
Variables (cert key cpem kpem : bytes) (c0 k0 : option File).
Let ctmp := tmp_path pid cert.
Let ktmp := tmp_path pid key.
Let bak := backup_path pid cert.
Let newc := mkFile cpem false.
Let newk := mkFile kpem true.
Hypothesis Hpaths : NoDup [cert; key; ctmp; ktmp; bak].

(** At no time is a file half written, and there is always a whole pair to be had: the old certificate in its
    place or set aside, with the old key, or both new. *)
Definition safe (f : Fs) : Prop :=
  (f !! key = k0 \/ f !! key = Some newk)
  /\ (f !! cert = c0 \/ f !! cert = None \/ f !! cert = Some newc)
  /\ ((f !! cert = c0 /\ f !! key = k0) \/ (f !! bak = c0 /\ f !! key = k0) \/ (c0 = None /\ f !! key = k0)
      \/ (f !! cert = Some newc /\ f !! key = Some newk)).

Definition all_or_nothing (r : result unit) (d : Disk) : Prop :=
  Forall safe (seen d) /\ safe (fs d)
  /\ match r with
     | Ok _ => fs d !! cert = Some newc /\ fs d !! key = Some newk
     | Err _ => once -> fs d !! cert = c0 /\ fs d !! key = k0
     end.

Lemma paths_differ : cert <> key /\ cert <> ctmp /\ cert <> ktmp /\ cert <> bak /\ key <> ctmp /\ key <> ktmp /\ key <> bak
  /\ ctmp <> ktmp /\ ctmp <> bak /\ ktmp <> bak.
Proof. rewrite !NoDup_cons, !not_elem_of_cons in Hpaths. tauto. Qed.

(** The pair untouched. *)
Definition kept (f : Fs) : Prop := f !! cert = c0 /\ f !! key = k0.

Lemma kept_safe f : kept f -> safe f.
Proof. intros [H1 H2]. unfold safe. tauto. Qed.

(** The state a failure may leave: safe, and untouched if it was the only one. *)
Definition undone (f : Fs) : Prop := safe f /\ (once -> kept f).

Lemma kept_undone f : kept f -> undone f.
Proof. intros Hk. split; [by apply kept_safe | done]. Qed.

Lemma undone_only X f g : cert ∉ X -> key ∉ X -> bak ∉ X -> only X f g -> undone f -> undone g.
Proof.
  intros H1 H2 H3 Ho [Hs Hk]. unfold undone, safe, kept in *. by rewrite !Ho.
Qed.

(** A removal of a file beside the pair, its outcome ignored. *)
Lemma wp_clean {A} p (k : io A) Q d : p ∈ [ctmp; ktmp] -> undone (fs d) -> Forall safe (seen d) ->
  (forall d', undone (fs d') -> Forall safe (seen d') -> wp k Q d') -> wp (bind (remove_file fails p) (fun _ => k)) Q d.
Proof.
  intros Hp Hu Hs HQ. destruct paths_differ as (? & ? & ? & ? & ? & ? & ? & ? & ? & ?).
  apply wp_bind, wp_remove; intros; [by apply HQ|]. apply HQ; cbn.
  - eapply (undone_only [p]); [..|by apply only_delete, list_elem_of_here|done]; set_solver.
  - apply Forall_app. split; [done|]. constructor; [by destruct Hu | done].
Qed.

Lemma wp_undone e d : undone (fs d) -> Forall safe (seen d) -> wp (ret (Err e)) all_or_nothing d.
Proof. intros [Hk Ho] Hs. apply wp_ret. by split_and!. Qed.

(** Undoing: from a state whose old certificate is set aside and whose key is the old one. *)
Lemma wp_undo (had : bool) e d : Forall safe (seen d) -> safe (fs d) -> fs d !! key = k0 ->
  (if had then fs d !! bak = c0 /\ is_Some c0 else c0 = None) -> (once -> quiet (calls d)) ->
  wp (bind (remove_file fails cert) (fun _ => bind (if had then bind (rename fails bak cert) (fun _ => ret tt) else ret tt)
       (fun _ => bind (remove_file fails ctmp) (fun _ => bind (remove_file fails ktmp) (fun _ => ret (Err e)))))) all_or_nothing d.
Proof.
  intros Hs Hf Hk Hhad Hq. destruct paths_differ as (? & ? & ? & ? & ? & ? & ? & ? & ? & ?).
  assert (Hclean : forall d', undone (fs d') -> Forall safe (seen d') ->
    wp (bind (remove_file fails ctmp) (fun _ => bind (remove_file fails ktmp) (fun _ => ret (Err e)))) all_or_nothing d').
  { intros d1 Hu1 Hs1. apply wp_clean; [left|done|done|]. intros d2 Hu2 Hs2. apply wp_clean; [right; left|done|done|].
    intros d3 Hu3 Hs3. by apply wp_undone. }
  assert (Hrest : forall d', Forall safe (seen d') -> safe (fs d') -> fs d' !! key = k0 -> (once -> quiet (calls d') /\ fs d' !! cert = None) ->
    (if had then fs d' !! bak = c0 /\ is_Some c0 else c0 = None) ->
    wp (bind (if had then bind (rename fails bak cert) (fun _ => ret tt) else ret tt)
       (fun _ => bind (remove_file fails ctmp) (fun _ => bind (remove_file fails ktmp) (fun _ => ret (Err e))))) all_or_nothing d').
  { intros d1 Hs1 Hf1 Hk1 Hq1 Hh1. apply wp_bind. destruct had.
    - destruct Hh1 as [Hb [x Hx]]. apply wp_bind. apply (wp_rename fails bak cert _ d1 x); [by rewrite Hb| |]; intros Hfl; apply wp_ret.
      + apply Hclean; [|done]. split; [done|]. intros Ho. destruct (Hq1 Ho) as [Hq' _]. by rewrite (Hq' (calls d1)) in Hfl.
      + apply Hclean; [|cbn; apply Forall_app; by split; [|constructor]]. apply kept_undone. split; cbn; simplify_map_eq; done.
    - apply wp_ret, Hclean; [|done]. split; [done|]. intros Ho. split; [|done]. destruct (Hq1 Ho) as [_ ->]. done. }
  apply wp_bind, wp_remove; intros Hfl.
  - apply Hrest; cbn; try done. intros Ho. specialize (Hq Ho). by rewrite (Hq (calls d)) in Hfl.
  - intros r. apply Hrest; cbn.
    + apply Forall_app. split; [done|]. by constructor.
    + unfold safe. rewrite lookup_delete_eq, !lookup_delete_ne by done. split; [by left|]. split; [tauto|].
      destruct had; tauto.
    + by rewrite lookup_delete_ne.
    + intros Ho. split; [eapply quiet_mono; [|by apply Hq]; lia | apply lookup_delete_eq].
    + destruct had; [by rewrite lookup_delete_ne | done].
Qed.

(** The two renames, from a state with both files staged. *)
Lemma wp_go (had : bool) e d : Forall safe (seen d) -> fs d !! cert = None -> fs d !! key = k0 ->
  fs d !! ctmp = Some newc -> fs d !! ktmp = Some newk -> (if had then fs d !! bak = c0 /\ is_Some c0 else c0 = None) ->
  wp (bind (tryio (publish fails ctmp cert) (fun _ => publish fails ktmp key)) (fun published =>
      match published with
      | inl _ => if had then bind (remove_file fails bak) (fun _ => ret (Ok tt)) else ret (Ok tt)
      | inr _ => bind (remove_file fails cert) (fun _ => bind (if had then bind (rename fails bak cert) (fun _ => ret tt) else ret tt)
          (fun _ => bind (remove_file fails ctmp) (fun _ => bind (remove_file fails ktmp) (fun _ => ret (Err e)))))
      end)) all_or_nothing d.
Proof.
  intros Hs Hc Hk Hct Hkt Hh. destruct paths_differ as (? & ? & ? & ? & ? & ? & ? & ? & ? & ?).
  assert (Hf : safe (fs d)) by (unfold safe; destruct had; tauto).
  apply wp_bind, wp_tryio. apply (wp_rename fails ctmp cert _ d newc); [done| |]; intros Hfl.
  { apply (wp_undo had); try done. intros Ho. by apply once_quiet. }
  set (d1 := became d _).
  assert (Hs1 : Forall safe (seen d1)) by (cbn; apply Forall_app; by split; [|constructor]).
  assert (Hf1 : safe (fs d1)) by (unfold safe; cbn; simplify_map_eq; destruct had; tauto).
  apply (wp_rename fails ktmp key _ d1 newk); [cbn; by simplify_map_eq| |]; intros Hfl2.
  { apply (wp_undo had); try done; [cbn; by simplify_map_eq | cbn; destruct had; by simplify_map_eq | intros Ho; by apply once_quiet]. }
  set (d2 := became d1 _).
  assert (Hs2 : Forall safe (seen d2)) by (apply Forall_app; by split; [|constructor]).
  assert (Hn2 : fs d2 !! cert = Some newc /\ fs d2 !! key = Some newk) by (cbn; by simplify_map_eq).
  assert (Hdone : forall d', Forall safe (seen d') -> fs d' !! cert = Some newc /\ fs d' !! key = Some newk -> wp (ret (Ok tt)) all_or_nothing d').
  { intros d' Hs' Hn'. apply wp_ret. split; [done|]. split; [unfold safe; tauto | done]. }
  destruct had; [|by apply Hdone].
  apply wp_bind, wp_remove; intros; [by apply Hdone|]. apply Hdone; cbn.
  - apply Forall_app. split; [done|]. constructor; [unfold safe; tauto | done].
  - by simplify_map_eq.
Qed.

Lemma wp_publish_pair d : Forall safe (seen d) -> fs d !! cert = c0 -> fs d !! key = k0 ->
  wp (publish_pair cpem kpem cert key) all_or_nothing d.
Proof.
  intros Hs Hc Hk. destruct paths_differ as (Hck & ? & ? & ? & ? & ? & ? & ? & ? & ?). assert (Hkept : kept (fs d)) by done.
  unfold SelfSigned.publish_pair. destruct (beq cert key) eqn:Hb; [by apply beq_true in Hb|].
  apply wp_bind. apply wp_mono with (fun _ d' => kept (fs d') /\ Forall safe (seen d')).
  { assert (Hd : forall p d', kept (fs d') /\ Forall safe (seen d') ->
      wp (if has_parent p then create_dir_all fails else ret (inl tt)) (fun _ d' => kept (fs d') /\ Forall safe (seen d')) d').
    { intros p d' [Hk' Hs']. destruct (has_parent p); [|done]. apply wp_call; intros; (split; [done|]); [done|]. cbn.
      apply Forall_app. split; [done|]. constructor; [by apply kept_safe | done]. }
    apply wp_tryio. eapply wp_mono; [by apply (Hd cert d)|]. intros [[]|] d' Hd'; [by apply Hd | done]. }
  intros [[]|err] d1 [Hk1 Hs1]; [|by apply wp_undone; [apply kept_undone|]].
  apply wp_bind. eapply wp_mono; [apply wp_stage_only|].
  intros r1 d2 ((Hn2 & Hr2) & Ho2 & new2 & Hseen2 & Hnew2).
  assert (Hk2 : kept (fs d2)) by (split; rewrite Ho2 by set_solver; apply Hk1).
  assert (Hs2 : Forall safe (seen d2)).
  { rewrite Hseen2. apply Forall_app. split; [done|]. eapply Forall_impl; [exact Hnew2|]. intros f Hf. apply kept_safe.
    split; rewrite Hf by set_solver; apply Hk1. }
  destruct r1 as [t1|]; [|by apply wp_undone; [apply kept_undone|]]. destruct Hr2 as [-> Hct]. fold ctmp in Hct |- *.
  apply wp_bind. eapply wp_mono; [apply wp_stage_only|].
  intros r2 d3 ((Hn3 & Hr3) & Ho3 & new3 & Hseen3 & Hnew3). fold ktmp in Ho3, Hnew3.
  assert (Hk3 : kept (fs d3)) by (split; rewrite Ho3 by set_solver; apply Hk2).
  assert (Hs3 : Forall safe (seen d3)).
  { rewrite Hseen3. apply Forall_app. split; [done|]. eapply Forall_impl; [exact Hnew3|]. intros f Hf. apply kept_safe.
    split; rewrite Hf by set_solver; apply Hk2. }
  destruct r2 as [t2|].
  2:{ apply wp_clean; [left|by apply kept_undone|done|]. intros d4 Hu4 Hs4. by apply wp_undone. }
  destruct Hr3 as [-> Hkt]. fold ktmp in Hkt |- *. assert (Hct3 : fs d3 !! ctmp = Some newc) by (rewrite Ho3 by set_solver; done).
  assert (Herr : forall d', undone (fs d') -> Forall safe (seen d') -> forall e,
    wp (bind (remove_file fails ctmp) (fun _ => bind (remove_file fails ktmp) (fun _ => ret (Err e)))) all_or_nothing d').
  { intros d4 Hu4 Hs4 e. apply wp_clean; [left|done|done|]. intros d5 Hu5 Hs5. apply wp_clean; [right; left|done|done|].
    intros d6 Hu6 Hs6. by apply wp_undone. }
  assert (Hu3 : undone (fs d3)) by (by apply kept_undone).
  assert (Hs4 : Forall safe (seen d3 ++ [fs d3])) by (apply Forall_app; by split; [|constructor; [apply Hu3|]]).
  destruct Hk3 as [Hc3 Hkk3]. apply wp_bind. fold bak. destruct (fs d3 !! cert) as [x|] eqn:Hx.
  - apply (wp_rename fails cert bak _ d3 x); [done| |]; intros Hfl; [by apply Herr|].
    apply (wp_go true); cbn; try done; try (by simplify_map_eq).
  - apply wp_rename_absent; [done| |]; intros Hfl; [by apply Herr|]. by apply (wp_go false).
Qed.
End Pair.

(** ** The whole of it *)

(** C35.  Whatever calls fail and wherever the process is killed, a certificate and its key are written whole or not at
    all: the key at its path is the old one or the new one, complete, and a whole pair is always on disk, the old
    certificate set aside at worst.  On success both are the new ones and the key is its owner's alone; when only
    one call failed, a failure leaves the pair exactly as it was. *)
Theorem publish_pair_atomic (cert key cpem kpem : bytes) (f : Fs) :
  NoDup [cert; key; tmp_path pid cert; tmp_path pid key; backup_path pid cert] ->
  all_or_nothing cert key cpem kpem (f !! cert) (f !! key) (publish_pair cpem kpem cert key (disk_of f)).1
    (publish_pair cpem kpem cert key (disk_of f)).2.
Proof. intros Hp. by apply (wp_publish_pair cert key cpem kpem (f !! cert) (f !! key) Hp (disk_of f)). Qed.
End Laws.

(** ** Renewal *)

Section Renewal.
Context {KeyPair : Type}.
Variables (generate_key : option KeyPair) (from_pem : bytes -> option KeyPair) (serialize_pem : KeyPair -> bytes).
Variable self_sign : CertificateParams -> KeyPair -> option bytes.
Variable date_ok : Z -> bool.
Variables (pid : bytes) (fails : nat -> bool) (torn : nat -> nat).

Lemma generated hosts days key now g : generate_with_key serialize_pem self_sign date_ok hosts days key now = Ok g ->
  key_pem g = serialize_pem key
  /\ exists ps, self_sign ps key = Some (cert_pem g) /\ Forall2 (fun h a => san_of h = Ok a) hosts (subject_alt_names ps)
       /\ p_not_before ps = now - 3600 /\ p_not_after ps = now + days * 86400 /\ 0 < days.
Proof.
  unfold generate_with_key. destruct hosts as [|h hs]; [done|]. intros H. run_inv H. subst g. cbn [key_pem cert_pem]. split; [done|].
  apply collect_Ok in Hv. apply Z.ltb_lt in He. exists (mkParams v h (lit "EdgeGuard self-signed") (now - 3600) (now + days * 86400)).
  destruct (self_sign _ key) as [pem|]; cbn in Hv0; [|done]. injection Hv0 as ->.
  by split_and!.
Qed.

(** A renewal that keeps the key keeps it: when the key on disk can be read, the certificate that replaces the old
    one is for every configured host and signed with that key, valid from an hour ago for the configured days,
    and the key file holds the same key, for its owner only. *)
Theorem renewal_keeps_key (hosts : list bytes) (days now : Z) (cert key : bytes) (f : Fs) (x : File) (k : KeyPair) (d : Disk) :
  NoDup [cert; key; tmp_path pid cert; tmp_path pid key; backup_path pid cert] ->
  renew generate_key from_pem serialize_pem self_sign date_ok pid fails torn hosts days now cert key true (disk_of f) = (Ok tt, d) ->
  fails 0%nat = false -> f !! key = Some x -> from_pem (contents x) = Some k ->
  fs d !! key = Some (mkFile (serialize_pem k) true)
  /\ exists c ps, fs d !! cert = Some (mkFile c false) /\ self_sign ps k = Some c
       /\ Forall2 (fun h a => san_of h = Ok a) hosts (subject_alt_names ps)
       /\ p_not_before ps = now - 3600 /\ p_not_after ps = now + days * 86400.
Proof.
  intros Hp Hr Hf Hx Hk. unfold renew, bind, read_to_string, call, ret in Hr. cbn [calls disk_of fs] in Hr. rewrite Hf, Hx in Hr.
  cbn in Hr. rewrite Hk in Hr. destruct (generate_with_key _ _ _ hosts days k now) as [g|] eqn:Hg; [|done].
  apply generated in Hg as (Hkey & ps & Hsign & Hsan & Hnb & Hna & _).
  pose proof (wp_publish_pair pid fails torn cert key (cert_pem g) (key_pem g) (f !! cert) (f !! key) Hp (mkDisk f 1 [f])) as H.
  unfold wp in H. rewrite Hr in H. cbn [fst snd] in H. destruct H as (_ & _ & Hc & Hkk); [|done|done|].
  { constructor; [by apply kept_safe | done]. }
  rewrite Hkk, Hkey. split; [done|]. exists (cert_pem g), ps. by split_and!.
Qed.
End Renewal.

(** ** A witness: the second rename fails *)

Definition sample_disk : Fs := {[ lit "c.pem" := mkFile (lit "old cert") false; lit "k.pem" := mkFile (lit "old key") true ]}.

(** The call that fails is the rename of the key. *)
Definition ninth (n : nat) : bool := Nat.eqb n 9.

Lemma publish_pair_atomic_witness :
  let '(r, d) := publish_pair (lit "7") ninth (fun _ => 0%nat) (lit "cert") (lit "key") (lit "c.pem") (lit "k.pem") (disk_of sample_disk) in
  r = Err "publishing the certificate pair" /\ fs d !! lit "c.pem" = Some (mkFile (lit "old cert") false)
  /\ fs d !! lit "k.pem" = Some (mkFile (lit "old key") true).
Proof.
  pose proof (publish_pair_atomic (lit "7") ninth (fun _ => 0%nat) (lit "c.pem") (lit "k.pem") (lit "cert") (lit "key") sample_disk) as H.
  destruct (publish_pair _ _ _ _ _ _ _ _) as [r d] eqn:E. cbn [fst snd] in H.
  assert (Hr : r = Err "publishing the certificate pair") by (vm_compute in E; by injection E as <- _).
  split; [done|]. destruct H as (_ & _ & H).
  { apply (bool_decide_eq_true_1 (NoDup _)). vm_compute. reflexivity. }
  rewrite Hr in H. apply H. intros n k Hn Hk. unfold ninth in *. apply Nat.eqb_eq in Hn, Hk. congruence.
Defined.

(** A key that signs by naming itself. *)
Definition sample_sign (ps : CertificateParams) (k : bytes) : option bytes := Some (lit "signed by " ++ k).

Lemma renewal_keeps_key_witness : exists d,
  renew (Some (lit "fresh")) Some (fun k => k) sample_sign (fun _ => true) (lit "7") (fun _ => false) (fun _ => 0%nat)
    [lit "localhost"] 30 1000000 (lit "c.pem") (lit "k.pem") true (disk_of sample_disk) = (Ok tt, d)
  /\ fs d !! lit "k.pem" = Some (mkFile (lit "old key") true).
Proof.
  eexists. split; [vm_compute; reflexivity|].
  refine (proj1 (renewal_keeps_key (Some (lit "fresh")) Some (fun k => k) sample_sign (fun _ => true) (lit "7") (fun _ => false)
    (fun _ => 0%nat) [lit "localhost"] 30 1000000 (lit "c.pem") (lit "k.pem") sample_disk (mkFile (lit "old key") true) (lit "old key") _ _ _ _ _ _));
    [apply (bool_decide_eq_true_1 (NoDup _)); vm_compute; reflexivity | vm_compute; reflexivity ..].
Defined.
