(* ===== verification/Cli.v ===== *)
(** * Cli: the command line ([src/src/main.rs]) and what it runs beside the proxy

    [parse_args] with each subcommand's loop; [edgeguard generate] with its renderers ([src/src/generate.rs]),
    [edgeguard init] with the runtime it detects and the files it renders ([src/src/scaffold.rs]), [edgeguard cert] and
    [--hash].  What is printed for a person to read is left out. *)

From S2P Require Import Prelude Text Net Json Access Http Pool Forwarding Disk SelfSigned.

(** ** Arguments *)

Inductive Cmd : Type :=
| Serve (wrap config : option bytes)
| Hash
| Generate (config : option bytes) (target : bytes) (out : option bytes)
| Doctor (config : option bytes)
| Init (force : bool)
| Cert (hosts : list bytes) (days : Z) (cert_out key_out : bytes) (force : bool).

(** Help and version are printed and the process ends, with status 0. *)
Inductive Exit : Type := HelpShown | VersionShown | Refused (e : String.string) (arg : bytes).

(** An arm of a loop over the arguments: a switch, a flag with a value (and the name the complaint has), an end. *)
Inductive Arm (A : Type) : Type :=
| Switch (f : A -> A)
| Value (flag : bytes) (f : A -> bytes -> result A)
| Ends (e : Exit)
| Unknown (e : String.string).
Arguments Switch {A}.
Arguments Value {A}.
Arguments Ends {A}.
Arguments Unknown {A}.

(** [while let Some(arg) = it.next()], with [require_value]. *)
Fixpoint loop {A} (arms : bytes -> Arm A) (args : list bytes) (acc : A) : A + Exit :=
  match args with
  | [] => inl acc
  | arg :: rest =>
      match arms arg with
      | Switch f => loop arms rest (f acc)
      | Value flag f =>
          match rest with
          | [] => inr (Refused "requires a value" flag)
          | v :: rest => match f acc v with Ok acc => loop arms rest acc | Err e => inr (Refused e v) end
          end
      | Ends e => inr e
      | Unknown e => inr (Refused e arg)
      end
  end.

(** The arms every loop ends with. *)
Definition common {A} (unknown : String.string) (arg : bytes) : Arm A :=
  if beq arg (lit "-h") || beq arg (lit "--help") then Ends HelpShown
  else if beq arg (lit "-V") || beq arg (lit "--version") then Ends VersionShown
  else Unknown unknown.

Definition generate_arms (arg : bytes) : Arm (option bytes * bytes * option bytes) :=
  if beq arg (lit "--config") then Value arg (fun '(c, t, o) v => Ok (Some v, t, o))
  else if beq arg (lit "--target") then Value arg (fun '(c, t, o) v => Ok (c, v, o))
  else if beq arg (lit "--out") || beq arg (lit "-o") then Value (lit "--out") (fun '(c, t, o) v => Ok (c, t, Some v))
  else common "unknown argument for `edgeguard generate`" arg.

Definition doctor_arms (arg : bytes) : Arm (option bytes) :=
  if beq arg (lit "--config") then Value arg (fun _ v => Ok (Some v))
  else common "unknown argument for `edgeguard doctor`" arg.

Definition host_list (v : bytes) : list bytes := List.filter (fun h => negb (beq h [])) (map trim (split_on 44 v)).

Record CertArgs : Type := mkCertArgs { ca_hosts : list bytes; ca_days : Z; ca_cert_out : bytes; ca_key_out : bytes; ca_force : bool }.

Definition cert_arms (arg : bytes) : Arm CertArgs :=
  if beq arg (lit "--host") then Value arg (fun a v => Ok (mkCertArgs (ca_hosts a ++ host_list v) (ca_days a) (ca_cert_out a) (ca_key_out a) (ca_force a)))
  else if beq arg (lit "--days") then
    Value arg (fun a v => let? days := ok_or (parse_uint 32 v) "--days expects a number of days" in
                          Ok (mkCertArgs (ca_hosts a) days (ca_cert_out a) (ca_key_out a) (ca_force a)))
  else if beq arg (lit "--cert-out") then Value arg (fun a v => Ok (mkCertArgs (ca_hosts a) (ca_days a) v (ca_key_out a) (ca_force a)))
  else if beq arg (lit "--key-out") then Value arg (fun a v => Ok (mkCertArgs (ca_hosts a) (ca_days a) (ca_cert_out a) v (ca_force a)))
  else if beq arg (lit "--force") || beq arg (lit "-f") then Switch (fun a => mkCertArgs (ca_hosts a) (ca_days a) (ca_cert_out a) (ca_key_out a) true)
  else common "unknown argument for `edgeguard cert`" arg.

Definition init_arms (arg : bytes) : Arm bool :=
  if beq arg (lit "--force") || beq arg (lit "-f") then Switch (fun _ => true)
  else common "unknown argument for `edgeguard init`" arg.

Definition serve_arms (arg : bytes) : Arm (option bytes * option bytes * bool) :=
  if beq arg (lit "--wrap") then Value arg (fun '(w, c, h) v => Ok (Some v, c, h))
  else if beq arg (lit "--config") then Value arg (fun '(w, c, h) v => Ok (w, Some v, h))
  else if beq arg (lit "--hash") then Switch (fun '(w, c, h) => (w, c, true))
  else common "unknown argument" arg.

Definition finish {A} (r : A + Exit) (k : A -> Cmd) : Cmd + Exit := match r with inl a => inl (k a) | inr e => inr e end.

Definition nonempty (o : option bytes) : option bytes := match o with Some [] => None | o => o end.

(** [WRAP_CMD], [EDGEGUARD_CONFIG] and the arguments after the program's name. *)
Definition parse_args (wrap_cmd edgeguard_config : option bytes) (argv : list bytes) : Cmd + Exit :=
  let wrap := nonempty wrap_cmd in
  let config := nonempty edgeguard_config in
  match argv with
  | word :: args =>
      if beq word (lit "generate") then finish (loop generate_arms args (config, lit "_headers", None)) (fun '(c, t, o) => Generate c t o)
      else if beq word (lit "doctor") then finish (loop doctor_arms args config) Doctor
      else if beq word (lit "cert") then
        finish (loop cert_arms args (mkCertArgs [] 90 (lit "./tls/cert.pem") (lit "./tls/key.pem") false))
          (fun a => Cert (match ca_hosts a with [] => DEFAULT_HOSTS | hosts => hosts end) (ca_days a) (ca_cert_out a) (ca_key_out a) (ca_force a))
      else if beq word (lit "init") then finish (loop init_arms args false) Init
      else finish (loop serve_arms argv (wrap, config, false)) (fun '(w, c, h) => if h : bool then Hash else Serve w c)
  | [] => inl (Serve wrap config)
  end.

(** ** What a command line says *)

Inductive Item : Type :=
| IConfig (v : bytes) | ITarget (v : bytes) | IOut (short : bool) (v : bytes)
| IHost (v : bytes) | IDays (v : bytes) | ICertOut (v : bytes) | IKeyOut (v : bytes) | IForce (short : bool)
| IWrap (v : bytes) | IHash.

Definition words (i : Item) : list bytes :=
  match i with
  | IConfig v => [lit "--config"; v] | ITarget v => [lit "--target"; v] | IOut short v => [if short then lit "-o" else lit "--out"; v]
  | IHost v => [lit "--host"; v] | IDays v => [lit "--days"; v] | ICertOut v => [lit "--cert-out"; v] | IKeyOut v => [lit "--key-out"; v]
  | IForce short => [if short then lit "-f" else lit "--force"] | IWrap v => [lit "--wrap"; v] | IHash => [lit "--hash"]
  end.

Inductive Sub : Type := SServe | SGenerate | SDoctor | SCert | SInit.

Definition sub_word (s : Sub) : list bytes :=
  match s with SServe => [] | SGenerate => [lit "generate"] | SDoctor => [lit "doctor"] | SCert => [lit "cert"] | SInit => [lit "init"] end.

Definition allowed_in (s : Sub) (i : Item) : bool :=
  match s, i with
  | SServe, (IWrap _ | IConfig _ | IHash) => true
  | SGenerate, (IConfig _ | ITarget _ | IOut _ _) => true
  | SDoctor, IConfig _ => true
  | SCert, (IHost _ | ICertOut _ | IKeyOut _ | IForce _) => true
  | SCert, IDays v => bool_decide (is_Some (parse_uint 32 v))
  | SInit, IForce _ => true
  | _, _ => false
  end.

(** The last item that says something, and what stands if none does. *)
Definition last_of {A} (f : Item -> option A) (d : A) (l : list Item) : A := default d (last (omap f l)).

Definition i_config (i : Item) : option (option bytes) := match i with IConfig v => Some (Some v) | _ => None end.
Definition i_wrap (i : Item) : option (option bytes) := match i with IWrap v => Some (Some v) | _ => None end.
Definition i_target (i : Item) : option bytes := match i with ITarget v => Some v | _ => None end.
Definition i_out (i : Item) : option (option bytes) := match i with IOut _ v => Some (Some v) | _ => None end.
Definition i_days (i : Item) : option Z := match i with IDays v => parse_uint 32 v | _ => None end.
Definition i_cert_out (i : Item) : option bytes := match i with ICertOut v => Some v | _ => None end.
Definition i_key_out (i : Item) : option bytes := match i with IKeyOut v => Some v | _ => None end.
Definition i_force (i : Item) : option bool := match i with IForce _ => Some true | _ => None end.
Definition i_hash (i : Item) : option bool := match i with IHash => Some true | _ => None end.
Definition i_hosts (i : Item) : list bytes := match i with IHost v => host_list v | _ => [] end.

Definition meaning (wrap config : option bytes) (s : Sub) (l : list Item) : Cmd :=
  let config := last_of i_config config l in
  match s with
  | SServe => if last_of i_hash false l then Hash else Serve (last_of i_wrap wrap l) config
  | SGenerate => Generate config (last_of i_target (lit "_headers") l) (last_of i_out None l)
  | SDoctor => Doctor config
  | SCert => Cert (match flat_map i_hosts l with [] => DEFAULT_HOSTS | hosts => hosts end) (last_of i_days 90 l)
               (last_of i_cert_out (lit "./tls/cert.pem") l) (last_of i_key_out (lit "./tls/key.pem") l) (last_of i_force false l)
  | SInit => Init (last_of i_force false l)
  end.

Lemma last_of_cons {A} (f : Item -> option A) d i l : last_of f d (i :: l) = last_of f (default d (f i)) l.
Proof.
  unfold last_of. cbn. destruct (f i) as [a|]; [|done]. rewrite last_cons. by destruct (last (omap f l)).
Qed.

(** *** A loop reads items *)

Section Reads.
Context {A : Type} (arms : bytes -> Arm A) (ok : Item -> bool) (app : A -> Item -> A).
Hypothesis arms_item : forall i rest acc, ok i = true -> loop arms (words i ++ rest) acc = loop arms rest (app acc i).
Hypothesis arms_switch : forall arg f, arms arg = Switch f -> exists i, ok i = true /\ words i = [arg] /\ forall acc, f acc = app acc i.
Hypothesis arms_value : forall arg flag f v acc r, arms arg = Value flag f -> f acc v = Ok r -> exists i, ok i = true /\ words i = [arg; v] /\ r = app acc i.

Lemma loop_reads args acc r : loop arms args acc = inl r <-> exists l, args = flat_map words l /\ Forall (fun i => ok i = true) l /\ r = foldl app acc l.
Proof using arms_item arms_switch arms_value.
  split.
  - revert acc. induction args as [[|arg rest] IH] using (induction_ltof1 _ (@length _)); unfold ltof in IH; cbn [length] in IH; intros acc; cbn [loop].
    { intros [= <-]. by exists []. }
    destruct (arms arg) as [f | flag f | |] eqn:E; [| | done..].
    + intros H. destruct (IH rest ltac:(lia) _ H) as (l & -> & Hl & ->). destruct (arms_switch _ _ E) as (i & Hi & Hw & Hf).
      exists (i :: l). cbn [flat_map foldl]. rewrite Hw, Hf. split_and!; [done | by constructor | done].
    + destruct rest as [|v rest]; [done|]. cbn [length] in IH. destruct (f acc v) as [acc'|] eqn:Ef; [|done]. intros H.
      destruct (IH rest ltac:(lia) _ H) as (l & -> & Hl & ->). destruct (arms_value _ _ _ _ _ _ E Ef) as (i & Hi & Hw & Hf).
      exists (i :: l). cbn [flat_map foldl]. rewrite Hw, Hf. split_and!; [done | by constructor | done].
  - intros (l & -> & Hl & ->). revert acc. induction Hl as [|i l Hi _ IH]; intros acc; [done|]. cbn [flat_map foldl]. by rewrite arms_item, IH.
Qed.
End Reads.


(** The arms an argument can be. *)
Ltac arm_cases := repeat (case_match; simplify_eq; try done);
  repeat match goal with
  | H : beq _ _ = true |- _ => apply beq_true in H
  | H : beq _ _ || beq _ _ = true |- _ => apply orb_true_iff in H as [H | H]
  end; subst.

Definition app_generate '(c, t, o) (i : Item) : option bytes * bytes * option bytes :=
  (default c (i_config i), default t (i_target i), default o (i_out i)).

Lemma generate_reads args acc r : loop generate_arms args acc = inl r
  <-> exists l, args = flat_map words l /\ Forall (fun i => allowed_in SGenerate i = true) l /\ r = foldl app_generate acc l.
Proof.
  apply loop_reads.
  - intros [] rest [[c t] o] Hi; try done. by destruct short.
  - intros arg f E. unfold generate_arms, common in E. arm_cases.
  - intros arg flag f v [[c t] o] r' E Ef. unfold generate_arms, common in E. arm_cases.
    all: [> exists (IConfig v) | exists (ITarget v) | exists (IOut false v) | exists (IOut true v)]; done.
Qed.

Definition app_config (c : option bytes) (i : Item) : option bytes := default c (i_config i).

Lemma doctor_reads args acc r : loop doctor_arms args acc = inl r
  <-> exists l, args = flat_map words l /\ Forall (fun i => allowed_in SDoctor i = true) l /\ r = foldl app_config acc l.
Proof.
  apply loop_reads.
  - by intros [] rest c Hi.
  - intros arg f E. unfold doctor_arms, common in E. arm_cases.
  - intros arg flag f v c r' E Ef. unfold doctor_arms, common in E. arm_cases. by exists (IConfig v).
Qed.

Definition app_cert (a : CertArgs) (i : Item) : CertArgs :=
  mkCertArgs (ca_hosts a ++ i_hosts i) (default (ca_days a) (i_days i)) (default (ca_cert_out a) (i_cert_out i)) (default (ca_key_out a) (i_key_out i))
    (default (ca_force a) (i_force i)).

Lemma cert_reads args acc r : loop cert_arms args acc = inl r
  <-> exists l, args = flat_map words l /\ Forall (fun i => allowed_in SCert i = true) l /\ r = foldl app_cert acc l.
Proof.
  apply loop_reads.
  - assert (Hd : cert_arms (lit "--days") = Value (lit "--days") (fun a v => let? days := ok_or (parse_uint 32 v) "--days expects a number of days" in
      Ok (mkCertArgs (ca_hosts a) days (ca_cert_out a) (ca_key_out a) (ca_force a)))) by done.
    intros [] rest a Hi; try discriminate Hi; unfold app_cert; cbn [i_hosts i_days i_cert_out i_key_out i_force default]; rewrite ?app_nil_r; [done | | done | done | by destruct short].
    cbn in Hi. apply bool_decide_eq_true in Hi as [n Hn]. cbn [words Datatypes.app loop]. by rewrite Hd, Hn.
  - intros arg f E. unfold cert_arms, common in E. arm_cases; [exists (IForce false) | exists (IForce true)]; split_and!; try done; intros [];
      unfold app_cert; cbn; by rewrite app_nil_r.
  - intros arg flag f v a r' E Ef. unfold cert_arms, common in E. arm_cases.
    all: try (destruct (parse_uint 32 v) as [n|] eqn:En; cbn in Ef; simplify_eq).
    all: [> exists (IHost v) | exists (IDays v) | exists (ICertOut v) | exists (IKeyOut v)]; unfold app_cert; cbn; rewrite ?app_nil_r, ?En; split_and!; try done.
    all: by apply bool_decide_eq_true.
Qed.

Definition app_force (b : bool) (i : Item) : bool := default b (i_force i).

Lemma init_reads args acc r : loop init_arms args acc = inl r
  <-> exists l, args = flat_map words l /\ Forall (fun i => allowed_in SInit i = true) l /\ r = foldl app_force acc l.
Proof.
  apply loop_reads.
  - intros [] rest c Hi; try done. by destruct short.
  - intros arg f E. unfold init_arms, common in E. arm_cases; [by exists (IForce false) | by exists (IForce true)].
  - intros arg flag f v c r' E Ef. unfold init_arms, common in E. arm_cases.
Qed.

Definition app_serve '(w, c, h) (i : Item) : option bytes * option bytes * bool := (default w (i_wrap i), default c (i_config i), default h (i_hash i)).

Lemma serve_reads args acc r : loop serve_arms args acc = inl r
  <-> exists l, args = flat_map words l /\ Forall (fun i => allowed_in SServe i = true) l /\ r = foldl app_serve acc l.
Proof.
  apply loop_reads.
  - by intros [] rest [[w c] h] Hi.
  - intros arg f E. unfold serve_arms, common in E. arm_cases. exists IHash. split_and!; [done.. | by intros [[w c] h]].
  - intros arg flag f v [[w c] h] r' E Ef. unfold serve_arms, common in E. arm_cases; [by exists (IWrap v) | by exists (IConfig v)].
Qed.

Ltac fold_items l := induction l as [|i l IH]; intros; [done | cbn [foldl flat_map app_generate app_serve]; rewrite IH, !last_of_cons].

Lemma fold_generate l c t o : foldl app_generate (c, t, o) l = (last_of i_config c l, last_of i_target t l, last_of i_out o l).
Proof. revert c t o. by fold_items l. Qed.
Lemma fold_config l c : foldl app_config c l = last_of i_config c l.
Proof. revert c. by fold_items l. Qed.
Lemma fold_force l b : foldl app_force b l = last_of i_force b l.
Proof. revert b. by fold_items l. Qed.
Lemma fold_serve l w c h : foldl app_serve (w, c, h) l = (last_of i_wrap w l, last_of i_config c l, last_of i_hash h l).
Proof. revert w c h. by fold_items l. Qed.
Lemma fold_cert l a : foldl app_cert a l
  = mkCertArgs (ca_hosts a ++ flat_map i_hosts l) (last_of i_days (ca_days a) l) (last_of i_cert_out (ca_cert_out a) l) (last_of i_key_out (ca_key_out a) l)
      (last_of i_force (ca_force a) l).
Proof. revert a. induction l as [|i l IH]; intros [hs d co ko f]; [cbn; by rewrite app_nil_r | cbn [foldl flat_map]; rewrite IH, !last_of_cons; cbn; by rewrite app_assoc]. Qed.

Lemma finish_inl {A} (r : A + Exit) k c : finish r k = inl c <-> exists a, r = inl a /\ c = k a.
Proof. destruct r; cbn; naive_solver. Qed.

(** What a subcommand's loop makes of the arguments after its word. *)
Definition read_as (wrap config : option bytes) (s : Sub) (args : list bytes) : Cmd + Exit :=
  match s with
  | SServe => finish (loop serve_arms args (wrap, config, false)) (fun '(w, c, h) => if h : bool then Hash else Serve w c)
  | SGenerate => finish (loop generate_arms args (config, lit "_headers", None)) (fun '(c, t, o) => Generate c t o)
  | SDoctor => finish (loop doctor_arms args config) Doctor
  | SCert => finish (loop cert_arms args (mkCertArgs [] 90 (lit "./tls/cert.pem") (lit "./tls/key.pem") false))
               (fun a => Cert (match ca_hosts a with [] => DEFAULT_HOSTS | hosts => hosts end) (ca_days a) (ca_cert_out a) (ca_key_out a) (ca_force a))
  | SInit => finish (loop init_arms args false) Init
  end.

Lemma read_as_exact wrap config s args c : read_as wrap config s args = inl c
  <-> exists l, args = flat_map words l /\ Forall (fun i => allowed_in s i = true) l /\ c = meaning wrap config s l.
Proof.
  unfold read_as, meaning.
  destruct s; rewrite finish_inl; [setoid_rewrite serve_reads | setoid_rewrite generate_reads | setoid_rewrite doctor_reads | setoid_rewrite cert_reads | setoid_rewrite init_reads];
    (split; [intros (a & (l & Ha & Hl & ->) & ->); exists l | intros (l & Ha & Hl & ->); eexists; split; [exists l; done|]]);
    by rewrite ?fold_serve, ?fold_generate, ?fold_config, ?fold_cert, ?fold_force.
Qed.

(** The subcommand an argument list is for. *)
Definition sub_of (argv : list bytes) : Sub :=
  match argv with
  | word :: _ => if beq word (lit "generate") then SGenerate else if beq word (lit "doctor") then SDoctor
                 else if beq word (lit "cert") then SCert else if beq word (lit "init") then SInit else SServe
  | [] => SServe
  end.

Lemma sub_of_word argv : sub_word (sub_of argv) ++ drop (length (sub_word (sub_of argv))) argv = argv.
Proof. unfold sub_of. destruct argv as [|word args]; [done|]. repeat case_match; try done; by match goal with H : beq _ _ = true |- _ => apply beq_true in H as -> end. Qed.

Lemma sub_of_items s l : Forall (fun i => allowed_in s i = true) l -> sub_of (sub_word s ++ flat_map words l) = s.
Proof. intros Hl. destruct s; try done. destruct Hl as [|i l Hi _]; [done|]. by destruct i. Qed.

(** The arguments a command is read from are exactly its subcommand's word and a sequence of its own flags, each with
    its value: whatever else is there, wherever it stands, is refused and nothing is started.  The command is the one
    the flags spell, the last of each kind counting, over [WRAP_CMD] and [EDGEGUARD_CONFIG]. *)
Theorem args_exact (wrap_cmd edgeguard_config : option bytes) (argv : list bytes) (c : Cmd) :
  parse_args wrap_cmd edgeguard_config argv = inl c
  <-> exists s l, argv = sub_word s ++ flat_map words l /\ Forall (fun i => allowed_in s i = true) l
                  /\ c = meaning (nonempty wrap_cmd) (nonempty edgeguard_config) s l.
Proof.
  assert (Hp : parse_args wrap_cmd edgeguard_config argv = read_as (nonempty wrap_cmd) (nonempty edgeguard_config) (sub_of argv) (drop (length (sub_word (sub_of argv))) argv)).
  { unfold parse_args, sub_of. destruct argv as [|word args]; [done|]. by repeat case_match. }
  rewrite Hp, read_as_exact. split.
  - intros (l & He & Hl & ->). exists (sub_of argv), l. split; [|done]. rewrite <- He. symmetry. apply sub_of_word.
  - intros (s & l & -> & Hl & ->). rewrite (sub_of_items s l Hl). exists l. by rewrite drop_app_length.
Qed.

(** ** [edgeguard generate] *)

Inductive HostTarget : Type := THeaders | TVercel | TVercelMiddleware | TNetlifyEdge.

(** [Target::parse]. *)
Definition target_parse (s : bytes) : result HostTarget :=
  let s := to_ascii_lowercase (trim s) in
  if existsb (beq s) [lit "_headers"; lit "headers"; lit "netlify"; lit "cloudflare-pages"; lit "cf-pages"] then Ok THeaders
  else if existsb (beq s) [lit "vercel"; lit "vercel.json"] then Ok TVercel
  else if existsb (beq s) [lit "vercel-middleware"; lit "middleware"] then Ok TVercelMiddleware
  else if existsb (beq s) [lit "netlify-edge"; lit "edge"] then Ok TNetlifyEdge
  else Err "unknown generate target".

Definition target_filename (t : HostTarget) : bytes :=
  match t with
  | THeaders => lit "_headers" | TVercel => lit "vercel.json" | TVercelMiddleware => lit "middleware.ts" | TNetlifyEdge => lit "edgeguard.ts"
  end.

Definition ln (s : bytes) : bytes := s ++ [10].
Definition quoted (s : bytes) : bytes := [34] ++ s ++ [34].

Definition headers_preamble : list bytes :=
  [lit "# Generated by `edgeguard generate --target _headers`.";
   lit "# Response-hardening headers for Netlify and Cloudflare Pages (shared `_headers` format).";
   lit "# NOTE: a static `_headers` file can only ADD headers. EdgeGuard's cookie hardening,";
   lit "# leaky-header stripping (Server / X-Powered-By), auth, and rate limiting need a live";
   lit "# proxy or the Cloudflare Worker (see EdgeGuard's worker/). Review before committing."].

Definition header_line (h : bytes * bytes) : bytes := ln (lit "  " ++ h.1 ++ lit ": " ++ h.2).

Definition render_headers_file (headers : list (bytes * bytes)) : bytes :=
  flat_map ln headers_preamble ++ ln (lit "/*") ++ flat_map header_line headers.

Section Generate.
Variable js_string : bytes -> bytes.                    (** [serde_json::to_string] of a string *)
Variable pretty : Json -> bytes.                        (** [serde_json::to_string_pretty] *)

Definition js_object_entries (headers : list (bytes * bytes)) (indent : bytes) : bytes :=
  flat_map (fun h => indent ++ js_string h.1 ++ lit ": " ++ js_string h.2 ++ lit "," ++ [10]) headers.

Definition vercel_doc (headers : list (bytes * bytes)) : Json :=
  JObj [(lit "headers", JArr [JObj [(lit "source", JStr (lit "/(.*)"));
    (lit "headers", JArr (map (fun h => JObj [(lit "key", JStr h.1); (lit "value", JStr h.2)]) headers))]])].

Definition render_vercel_json (headers : list (bytes * bytes)) : bytes := ln (pretty (vercel_doc headers)).

Definition render_vercel_middleware (headers : list (bytes * bytes)) : bytes :=
  flat_map ln
    [lit "// Generated by `edgeguard generate --target vercel-middleware`.";
     lit "// Vercel Edge Middleware: applies EdgeGuard's response-hardening headers to every response.";
     lit "// Cookie hardening, leaky-header stripping, auth, and rate limiting need the full proxy";
     lit "// or EdgeGuard's Cloudflare Worker (worker/). Review before committing.";
     lit "import { NextResponse } from " ++ quoted (lit "next/server") ++ lit ";"; [];
     lit "export const config = { matcher: " ++ quoted (lit "/:path*") ++ lit " };"; [];
     lit "const SECURITY_HEADERS: Record<string, string> = {"]
  ++ js_object_entries headers (lit "  ")
  ++ flat_map ln
    [lit "};"; [];
     lit "export function middleware() {";
     lit "  const res = NextResponse.next();";
     lit "  for (const [name, value] of Object.entries(SECURITY_HEADERS)) {";
     lit "    res.headers.set(name, value);";
     lit "  }";
     lit "  return res;";
     lit "}"].

Definition render_netlify_edge (headers : list (bytes * bytes)) : bytes :=
  flat_map ln
    [lit "// Generated by `edgeguard generate --target netlify-edge`.";
     lit "// Netlify Edge Function: adds EdgeGuard's response-hardening headers to every response.";
     lit "// Wire it up in netlify.toml:";
     lit "//   [[edge_functions]]";
     lit "//   path = " ++ quoted (lit "/*");
     lit "//   function = " ++ quoted (lit "edgeguard");
     lit "// Cookie hardening, leaky-header stripping, auth, and rate limiting need the full proxy";
     lit "// or EdgeGuard's Cloudflare Worker (worker/). Review before committing.";
     lit "import type { Context } from " ++ quoted (lit "https://edge.netlify.com") ++ lit ";"; [];
     lit "const SECURITY_HEADERS: Record<string, string> = {"]
  ++ js_object_entries headers (lit "  ")
  ++ flat_map ln
    [lit "};"; [];
     lit "export default async (_request: Request, context: Context): Promise<Response> => {";
     lit "  const response = await context.next();";
     lit "  for (const [name, value] of Object.entries(SECURITY_HEADERS)) {";
     lit "    response.headers.set(name, value);";
     lit "  }";
     lit "  return response;";
     lit "};"].

Definition generate (cfg : HeadersCfg) (t : HostTarget) : bytes :=
  let headers := security_headers cfg in
  match t with
  | THeaders => render_headers_file headers
  | TVercel => render_vercel_json headers
  | TVercelMiddleware => render_vercel_middleware headers
  | TNetlifyEdge => render_netlify_edge headers
  end.

(** [load]: [Config::load]; without an output file the text is printed. *)
Definition run_generate (load : option bytes -> result HeadersCfg) (fails : nat -> bool) (torn : nat -> nat)
    (config : option bytes) (target : bytes) (out : option bytes) : io (result (option bytes)) :=
  match load config with
  | Err e => ret (Err e)
  | Ok cfg =>
      match target_parse target with
      | Err e => ret (Err e)
      | Ok t =>
          let content := generate cfg t in
          match out with
          | Some path =>
              let! r := write fails torn path content in
              match r with inl _ => ret (Ok None) | inr _ => ret (Err "writing") end
          | None => ret (Ok (Some content))
          end
      end
  end.
End Generate.

(** *** What the hosts read *)

(** A [_headers] file: comments and blank lines apart, a line at the margin is a path, an indented line a header of the
    last path, its name up to the first colon. *)
Fixpoint read_headers (lines : list bytes) (acc : list (bytes * list (bytes * bytes))) : option (list (bytes * list (bytes * bytes))) :=
  match lines with
  | [] => Some (rev acc)
  | line :: lines =>
      match line with
      | [] => read_headers lines acc
      | 35 :: _ => read_headers lines acc
      | 32 :: _ =>
          match split_once 58 line, acc with
          | Some (name, value), (path, hs) :: acc => read_headers lines ((path, hs ++ [(trim name, trim value)]) :: acc)
          | _, _ => None
          end
      | _ => read_headers lines ((line, []) :: acc)
      end
  end.

Definition read_headers_file (text : bytes) : option (list (bytes * list (bytes * bytes))) := read_headers (split_on 10 text) [].

(** A header one line can hold. *)
Definition one_line (h : bytes * bytes) : Prop := 10 ∉ h.1 /\ 58 ∉ h.1 /\ trim h.1 = h.1 /\ 10 ∉ h.2 /\ trim h.2 = h.2.

Lemma trim_space s : trim (32 :: s) = trim s.
Proof. done. Qed.

Lemma read_header_lines hs path done_ : Forall one_line hs ->
  read_headers (map (fun h => lit "  " ++ h.1 ++ lit ": " ++ h.2) hs ++ [[]]) [(path, done_)] = Some [(path, done_ ++ hs)].
Proof.
  revert done_. induction hs as [|[n v] hs IH]; intros done_ Hf; [cbn; by rewrite app_nil_r|].
  apply Forall_cons in Hf as [(H1 & H2 & H3 & H4 & H5) Hf]. cbn [fst snd] in H1, H2, H3, H4, H5.
  assert (Hs : split_once 58 (32 :: 32 :: n ++ lit ": " ++ v) = Some (32 :: 32 :: n, 32 :: v)).
  { apply split_once_Some. split; [done|]. rewrite !elem_of_cons. by intros [? | [? | ?]]. }
  change (read_headers ((32 :: 32 :: n ++ lit ": " ++ v) :: map (fun h => lit "  " ++ h.1 ++ lit ": " ++ h.2) hs ++ [[]]) [(path, done_)] = Some [(path, done_ ++ (n, v) :: hs)]).
  cbn [read_headers]. rewrite Hs, !trim_space, H3, H5, IH by done. by rewrite <- app_assoc.
Qed.

(** The [_headers] file a configuration generates tells the host to add, on every path, exactly the headers the proxy
    adds under the same configuration, as long as no value spans lines or is padded with blanks. *)
Theorem headers_file_exact js pretty (cfg : HeadersCfg) :
  Forall one_line (security_headers cfg) -> read_headers_file (generate js pretty cfg THeaders) = Some [(lit "/*", security_headers cfg)].
Proof.
  intros Hf. unfold read_headers_file, generate, render_headers_file.
  set (lines := map (fun h => lit "  " ++ h.1 ++ lit ": " ++ h.2) (security_headers cfg)).
  assert (He : flat_map ln headers_preamble ++ ln (lit "/*") ++ flat_map header_line (security_headers cfg)
    = concat (map (fun l => l ++ [10]) (headers_preamble ++ lit "/*" :: lines))).
  { rewrite map_app, concat_app. cbn [map concat]. rewrite !flat_map_concat_map. f_equal. f_equal. unfold lines. by rewrite map_map. }
  rewrite He, split_lines.
  - rewrite <- app_assoc. change (read_headers (lines ++ [[]]) [(lit "/*", [])] = Some [(lit "/*", security_headers cfg)]). by apply read_header_lines.
  - apply Forall_app. split; [apply (bool_decide_unpack _); vm_compute; exact I|]. constructor; [apply (bool_decide_unpack _); vm_compute; exact I|].
    apply Forall_map. eapply Forall_impl; [exact Hf|]. intros [n v] (H1 & _ & _ & H4 & _). cbn [fst snd] in *. rewrite !elem_of_app.
    intros [H | [H | [H | H]]]; [| done | | done]; revert H; apply (bool_decide_unpack (10 ∉ _)); vm_compute; exact I.
Qed.

(** With the defaults' values, and with a value over two lines, which the proxy leaves out (it is no header value) and
    the file breaks on. *)
Lemma headers_file_exact_witness :
  let cfg := mkHeadersCfg (lit "DENY") (lit "no-referrer") [] (lit "default-src 'self'") [] false true [] true true [] in
  read_headers_file (generate (fun s => s) (fun _ => []) cfg THeaders)
  = Some [(lit "/*", [(lit "X-Content-Type-Options", lit "nosniff"); (lit "X-Frame-Options", lit "DENY"); (lit "Referrer-Policy", lit "no-referrer");
                      (lit "Content-Security-Policy", lit "default-src 'self'"); (lit "Strict-Transport-Security", lit "max-age=63072000; includeSubDomains")])].
Proof. intros cfg. apply (headers_file_exact (fun s => s) (fun _ => []) cfg). repeat (constructor; [split_and!; (apply (bool_decide_unpack _); vm_compute; exact I)|]). constructor. Defined.

Example two_line_value_breaks :
  read_headers_file (generate (fun s => s) (fun _ => []) (mkHeadersCfg [] [] [] (lit "default-src 'self';" ++ [10] ++ lit "img-src *") [] false false [] true true []) THeaders)
  = Some [(lit "/*", [(lit "X-Content-Type-Options", lit "nosniff"); (lit "Content-Security-Policy", lit "default-src 'self';")]); (lit "img-src *", [])].
Proof. by vm_compute. Qed.

(** ** [edgeguard init] *)

Inductive Runtime : Type := Node | Python | Go | Rust | UnknownRuntime.

Definition detect (entries : list bytes) : Runtime :=
  let has name := existsb (fun e => beq e name) entries in
  if has (lit "package.json") then Node
  else if has (lit "requirements.txt") || has (lit "pyproject.toml") || has (lit "Pipfile") then Python
  else if has (lit "go.mod") then Go
  else if has (lit "Cargo.toml") then Rust
  else UnknownRuntime.

Definition runtime_label (r : Runtime) : bytes :=
  match r with Node => lit "Node.js" | Python => lit "Python" | Go => lit "Go" | Rust => lit "Rust" | UnknownRuntime => lit "unknown" end.

Definition default_app_port (r : Runtime) : Z := match r with Python => 8000 | _ => 3000 end.

Definition default_start_cmd (r : Runtime) : bytes :=
  match r with
  | Node => lit "npm start" | Python => lit "python app.py" | Go => lit "./app" | Rust => lit "./app" | UnknownRuntime => lit "<your app start command>"
  end.

Definition base_image (r : Runtime) : bytes :=
  match r with Node => lit "node:22-slim" | Python => lit "python:3.12-slim" | _ => lit "debian:bookworm-slim" end.

Definition build_notes (r : Runtime) : list bytes :=
  match r with
  | Node => [lit "# Install deps and copy your app source:"; lit "# COPY package*.json ./"; lit "# RUN npm ci --omit=dev"; lit "# COPY . ."]
  | Python => [lit "# Install deps and copy your app source:"; lit "# COPY requirements.txt ./";
               lit "# RUN pip install --no-cache-dir -r requirements.txt"; lit "# COPY . ."]
  | Go => [lit "# Copy your prebuilt binary (or add a Go build stage):"; lit "# COPY ./app ./app"]
  | Rust => [lit "# Copy your prebuilt binary (or add a Rust build stage):"; lit "# COPY ./app ./app"]
  | UnknownRuntime => [lit "# Install deps and copy your app source here."]
  end.

Definition dockerfile (r : Runtime) : bytes :=
  flat_map ln
    ([lit "# Generated by `edgeguard init` (" ++ runtime_label r ++ lit " app).";
      lit "# EdgeGuard is the entrypoint: it binds the platform's $PORT and runs your app on";
      lit "# APP_PORT (localhost only), adding auth + rate-limit + hardened headers with no app";
      lit "# code changes. Review the TODOs below and wire in your real build steps.";
      lit "FROM " ++ base_image r;
      lit "WORKDIR /app";
      [];
      lit "# --- the EdgeGuard binary (static musl, distroless-built) ---";
      lit "COPY --from=mancube/eggrd:latest /usr/local/bin/edgeguard /usr/local/bin/edgeguard";
      lit "COPY edgeguard.toml /app/edgeguard.toml";
      []]
     ++ build_notes r
     ++ [[];
      lit "# EdgeGuard listens on $PORT (default 8080) and runs your app on APP_PORT.";
      lit "ENV PORT=8080 APP_PORT=" ++ dec (default_app_port r);
      lit "EXPOSE 8080";
      lit "ENTRYPOINT [" ++ quoted (lit "/usr/local/bin/edgeguard") ++ lit ", " ++ quoted (lit "--config") ++ lit ", " ++ quoted (lit "/app/edgeguard.toml")
        ++ lit ", " ++ quoted (lit "--wrap") ++ lit ", " ++ quoted (default_start_cmd r) ++ lit "]"]).

(** The arguments of an [ENTRYPOINT] line in exec form: every other piece between quotes. *)
Definition entrypoint (text : bytes) : option (list bytes) :=
  let fix odd (l : list bytes) : list bytes := match l with _ :: x :: l => x :: odd l | _ => [] end in
  line ← last (List.filter (fun l => starts_with l (lit "ENTRYPOINT [")) (split_on 10 text));
  Some (odd (split_on 34 line)).

(** The image that [init] writes starts the proxy around the application, with the configuration the image has. *)
Theorem scaffold_starts_proxy (r : Runtime) :
  exists binary args, entrypoint (dockerfile r) = Some (binary :: args)
  /\ parse_args None None args = inl (Serve (Some (default_start_cmd r)) (Some (lit "/app/edgeguard.toml"))).
Proof. destruct r; do 2 eexists; (split; [vm_compute; reflexivity | vm_compute; reflexivity]). Qed.

Section Standalone.
Variable EDGEGUARD_TOML : bytes.                        (** [edgeguard.toml] of the repository, embedded *)
Variable fails : nat -> bool.
Variable torn : nat -> nat.

Definition TOML : bytes := lit "edgeguard.toml".
Definition DOCKERFILE : bytes := lit "Dockerfile.edgeguard".

(** [run_init], with the names in the working directory; [inl false]: it refuses and exits with status 1. *)
Definition run_init (entries : list bytes) (force : bool) : io (result bool) :=
  let runtime := detect entries in
  let write_both :=
    (let! r := write fails torn TOML EDGEGUARD_TOML in
     match r with
     | inr _ => ret (Err "writing edgeguard.toml")
     | inl _ =>
         let! r := write fails torn DOCKERFILE (dockerfile runtime) in
         match r with inr _ => ret (Err "writing Dockerfile.edgeguard") | inl _ => ret (Ok true) end
     end) in
  if force then write_both
  else
  let! there := exists_ TOML in
  if there then ret (Ok false)
  else
  let! there := exists_ DOCKERFILE in
  if there then ret (Ok false) else write_both.

Context {KeyPair : Type}.
Variable generate_key : option KeyPair.
Variable serialize_pem : KeyPair -> bytes.
Variable self_sign : CertificateParams -> KeyPair -> option bytes.
Variable date_ok : Z -> bool.
Variable pid : bytes.

Definition run_cert (hosts : list bytes) (days now : Z) (cert_out key_out : bytes) (force : bool) : io (result unit) :=
  let go := (let! r := write_to generate_key serialize_pem self_sign date_ok pid fails torn hosts days now cert_out key_out in
             match r with Ok _ => ret (Ok tt) | Err e => ret (Err e) end) in
  if force then go
  else
  let! there := path_present fails cert_out in
  if there then ret (Err "already exists (pass --force to overwrite it)")
  else
  let! there := path_present fails key_out in
  if there then ret (Err "already exists (pass --force to overwrite it)") else go.
End Standalone.

(** [run_hash]: the line read from standard input; [hash_password] prints an Argon2 hash. *)
Definition run_hash (hash_password : bytes -> result bytes) (read_line : option bytes) : result bytes :=
  let? input := ok_or read_line "reading password from stdin" in
  let password := rev (drop_while (fun c => (c =? 10) || (c =? 13)) (rev input)) in
  ensure (negb (beq password [])) else "no password supplied on stdin";
  hash_password password.

(** *** Nothing is overwritten *)

(** Looking for a file leaves the files as they are, and finds one that is there. *)
Lemma path_present_spec fails p d : let '(b, d') := path_present fails p d in
  fs d' = fs d /\ (exists new, seen d' = seen d ++ new /\ Forall (fun f => f = fs d) new) /\ (is_Some (fs d !! p) -> b = true).
Proof.
  unfold path_present, bind, call, ret. destruct (fails (calls d)); cbn.
  - split_and!; [done | exists []; by rewrite app_nil_r | done].
  - destruct (fs d !! p) as [f|]; cbn; (split_and!; [done | exists [fs d]; split; [done | by constructor] | try done; by intros [? ?]]).
Qed.

(** Without [--force], [init] and [cert] write over nothing: a file they would write that is there already, or may be,
    stops them before anything is changed, whatever calls fail; and [init] never touches any file but its two. *)
Theorem standalone_never_overwrites {KeyPair : Type} (toml : bytes) (fails : nat -> bool) (torn : nat -> nat) (generate_key : option KeyPair)
    (serialize_pem : KeyPair -> bytes) (self_sign : CertificateParams -> KeyPair -> option bytes) (date_ok : Z -> bool) (pid : bytes)
    (entries hosts : list bytes) (days now : Z) (cert_out key_out p : bytes) (d : Disk) :
  is_Some (fs d !! p) ->
  (p ∈ [TOML; DOCKERFILE] -> run_init toml fails torn entries false d = (Ok false, d))
  /\ (p ∈ [cert_out; key_out] ->
      let '(r, d') := run_cert fails torn generate_key serialize_pem self_sign date_ok pid hosts days now cert_out key_out false d in
      (exists e, r = Err e) /\ fs d' = fs d /\ exists new, seen d' = seen d ++ new /\ Forall (fun f => f = fs d) new)
  /\ forall force, touches [TOML; DOCKERFILE] (run_init toml fails torn entries force).
Proof.
  intros Hp. split; [|split].
  - rewrite !list_elem_of_In. cbn [In]. unfold run_init, bind, exists_, ret. intros [<- | [<- | []]].
    + by rewrite bool_decide_true.
    + destruct (bool_decide (is_Some (fs d !! TOML))); [done|]. by rewrite bool_decide_true.
  - intros Hin. unfold run_cert, bind. pose proof (path_present_spec fails cert_out d) as H1. destruct (path_present fails cert_out d) as [b1 d1].
    destruct H1 as (Hf1 & (n1 & Hs1 & Hn1) & Hb1). destruct b1; [split_and!; [by eexists | done | by exists n1]|].
    pose proof (path_present_spec fails key_out d1) as H2. destruct (path_present fails key_out d1) as [b2 d2].
    destruct H2 as (Hf2 & (n2 & Hs2 & Hn2) & Hb2). rewrite Hf1 in Hf2, Hb2, Hn2. rewrite Hs1 in Hs2.
    assert (b2 = true) as -> by (apply Hb2; set_unfold in Hin; destruct Hin as [-> | [-> | []]]; [by specialize (Hb1 Hp) | done]).
    split_and!; [by eexists | done |]. exists (n1 ++ n2). rewrite Hs2, app_assoc. split; [done | by apply Forall_app].
  - intros force. unfold run_init.
    assert (Hw : forall q data, q ∈ [TOML; DOCKERFILE] -> touches [TOML; DOCKERFILE] (write fails torn q data)) by (intros; by apply touches_put).
    assert (Hb : touches [TOML; DOCKERFILE] (let! r := write fails torn TOML toml in
      match r with
      | inr _ => ret (Err "writing edgeguard.toml")
      | inl _ => let! r := write fails torn DOCKERFILE (dockerfile (detect entries)) in
                 match r with inr _ => ret (Err "writing Dockerfile.edgeguard") | inl _ => ret (Ok true) end
      end)).
    { apply touches_bind; [apply Hw; set_solver|]. intros [?|?]; [|apply touches_ret]. apply touches_bind; [apply Hw; set_solver|]. intros [?|?]; apply touches_ret. }
    destruct force; [done|]. apply touches_bind; [apply touches_exists|]. intros []; [apply touches_ret|]. apply touches_bind; [apply touches_exists|]. intros []; [apply touches_ret | done].
Qed.

Lemma standalone_never_overwrites_witness :
  run_init (lit "# config") (fun _ => false) (fun _ => 0%nat) [lit "Cargo.toml"] false (disk_of {[ TOML := mkFile (lit "mine") false ]})
  = (Ok false, disk_of {[ TOML := mkFile (lit "mine") false ]}).
Proof.
  refine (proj1 (standalone_never_overwrites (KeyPair := unit) (lit "# config") (fun _ => false) (fun _ => 0%nat) None (fun _ => []) (fun _ _ => None) (fun _ => true) []
            [lit "Cargo.toml"] [] 90 0 [] [] TOML (disk_of {[ TOML := mkFile (lit "mine") false ]}) _) _); [by eexists | set_solver].
Defined.

(** The port of a runtime in what [init] writes and says. *)
Example init_python : detect [lit "src"; lit "pyproject.toml"; lit "Cargo.toml"] = Python /\ default_app_port Python = 8000.
Proof. by vm_compute. Qed.

Example args_read :
  parse_args (Some (lit "npm start")) None (map lit ["--config"; "a.toml"; "--config"; "b.toml"]%string) = inl (Serve (Some (lit "npm start")) (Some (lit "b.toml")))
  /\ parse_args None None (map lit ["--wrpa"; "npm start"]%string) = inr (Refused "unknown argument" (lit "--wrpa"))
  /\ parse_args None None (map lit ["doctor"; "--config"]%string) = inr (Refused "requires a value" (lit "--config"))
  /\ parse_args None None (map lit ["cert"; "--host"; "a.test, b.test"; "-f"]%string)
     = inl (Cert [lit "a.test"; lit "b.test"] 90 (lit "./tls/cert.pem") (lit "./tls/key.pem") true).
Proof. by vm_compute. Qed.
