(* ===== verification/Acme.v ===== *)
(** * Acme: obtaining a certificate ([src/src/acme.rs], [src/src/acme_dns.rs])

    An order is a conversation with the CA, with a DNS provider or whoever looks at port 80, and with the control
    plane.  What they answer is a parameter and may depend on everything said before; and the future that runs the
    order may be dropped wherever it waits.  Every call is logged with what could be seen from outside when it was
    made, so that the theorems are about what the CA finds when it looks. *)

From S2P Require Import Prelude Text Net Access Units Float Json Http Der Outbound ControlPlane AcmeBudget Disk SelfSigned.

(** ** Configuration *)

Record AcmeDnsCfg : Type := mkAcmeDnsCfg {
  provider : bytes; cfg_zone_id : bytes; api_token_env : bytes; api_base : bytes; cfg_url : bytes;
  propagation_secs : Z; dns_outbound : OutboundCfg
}.

(** [AcmeCfg]: what the budget reads, and the rest. *)
Record AcmeSection : Type := mkAcmeSection {
  order_cfg : AcmeCfg; email : bytes; cache_dir : bytes; accept_tos : bool; challenge : bytes; dns_cfg : AcmeDnsCfg;
  acme_outbound : OutboundCfg
}.

Record TlsPaths : Type := mkTlsPaths { cert_path : bytes; key_path : bytes }.

(** ** DNS providers *)

Definition challenge_record_name (domain : bytes) : bytes :=
  let base := trim_end_matches 46 (trim domain) in
  let base := default base (strip_prefix (lit "*.") base) in
  lit "_acme-challenge." ++ to_ascii_lowercase base.

Inductive DnsProvider : Type :=
| Cloudflare (base zone_id token : bytes)
| ChallTestSrv (url : bytes).

Record TxtRecord : Type := mkTxtRecord { rec_name : bytes; rec_id : option bytes }.

Record CfError : Type := mkCfError { cf_code : Z; cf_message : bytes }.

(** [CfResponse]: [result] down to the id of its record. *)
Record CfResponse : Type := mkCfResponse { cf_success : bool; cf_errs : list CfError; cf_result : option bytes }.

(** A request to the provider's API. *)
Record DnsRequest : Type := mkDnsRequest { dr_method : bytes; dr_url : bytes; dr_bearer : option bytes; dr_json : option Json }.

Definition publish_request (p : DnsProvider) (name value : bytes) : DnsRequest :=
  match p with
  | Cloudflare base zone token =>
      mkDnsRequest (lit "POST") (base ++ lit "/zones/" ++ zone ++ lit "/dns_records") (Some token)
        (Some (JObj [(lit "type", JStr (lit "TXT")); (lit "name", JStr name); (lit "content", JStr value); (lit "ttl", JInt 60)]))
  | ChallTestSrv url =>
      mkDnsRequest (lit "POST") (url ++ lit "/set-txt") None
        (Some (JObj [(lit "host", JStr (name ++ [46])); (lit "value", JStr value)]))
  end.

(** What [publish] makes of the answer. *)
Definition publish_verdict (p : DnsProvider) (name : bytes) (x : Exchange CfResponse) : result TxtRecord :=
  match p, x with
  | Cloudflare _ _ _, Unreachable => Err "calling the Cloudflare API"
  | Cloudflare _ _ _, Answer _ r =>
      let? r := ok_or r "reading the Cloudflare API response" in
      ensure (cf_success r) else "Cloudflare refused the TXT record";
      let? id := ok_or (cf_result r) "Cloudflare returned no record id" in
      Ok (mkTxtRecord name (Some id))
  | ChallTestSrv _, Unreachable => Err "setting the TXT record on challtestsrv"
  | ChallTestSrv _, Answer status _ =>
      ensure (negb (is_error status)) else "setting the TXT record on challtestsrv"; Ok (mkTxtRecord name None)
  end.

(** [None]: no id to delete by, and no request. *)
Definition remove_request (p : DnsProvider) (r : TxtRecord) : option DnsRequest :=
  match p with
  | Cloudflare base zone token =>
      id ← rec_id r;
      Some (mkDnsRequest (lit "DELETE") (base ++ lit "/zones/" ++ zone ++ lit "/dns_records/" ++ id) (Some token) None)
  | ChallTestSrv url =>
      Some (mkDnsRequest (lit "POST") (url ++ lit "/clear-txt") None (Some (JObj [(lit "host", JStr (rec_name r ++ [46]))])))
  end.

(** ** The CA *)

Record Challenge : Type := mkChallenge { ch_token : bytes; ch_key_auth : bytes; ch_dns_value : bytes }.
Inductive AuthorizationStatus : Type := APending | AValid | AInvalid | ARevoked | AExpired | ADeactivated.
Inductive Identifier : Type := IdDns (name : bytes) | IdOther.
Record Authorization : Type := mkAuthorization {
  az_status : AuthorizationStatus; az_identifier : Identifier; az_http01 : option Challenge; az_dns01 : option Challenge
}.
Inductive OrderStatus : Type := OPending | OReady | OProcessing | OValid | OInvalid.
#[global] Instance OrderStatus_eq_dec : EqDecision OrderStatus.
Proof. solve_decision. Defined.

Inductive ChallengeKind : Type := Http01 | Dns01 (provider : DnsProvider) (domain : bytes).

Inductive CaCall : Type :=
| CaRestore | CaRegister (contact : list bytes) (tos : bool) (directory : bytes)
| CaOrder (names : list bytes) (replaces : option AriId) | CaAuthorization | CaReady (kind : ChallengeKind) (c : Challenge)
| CaPollReady | CaFinalize | CaPollCertificate | CaRenewalInfo (id : AriId).

(** What the order does that can be waited on. *)
Inductive Event : Type :=
| LeaseAsked (directory : bytes) (names : list bytes) | LeaseReported (lease_id outcome : bytes)
| Ca (c : CaCall) | DnsPublish (name value : bytes) (r : DnsRequest) | DnsRemove (record : TxtRecord) (r : DnsRequest) | Slept (secs : Z) | Bind80 | Stop80.

(** An event, and what it finds: the tokens answered for, whether the order's own listener runs, the files, the ledger
    of orders. *)
Record Moment : Type := mkMoment {
  what : Event; answered : gmap bytes bytes; listening : bool; files : Fs; booked : option (gmap bytes Z)
}.

Inductive RenewalAnswer : Type :=
| RenewalInfo (start end_ retry_after : Z) (explanation_url : option bytes) | RenewalUnsupported | RenewalError.
Record RenewalWindow : Type := mkRenewalWindow {
  rw_start : Z; rw_end : Z; rw_retry_after : Z; rw_explanation_url : option bytes
}.

(** The environment, answering by everything logged so far, the question last. *)
Record Env : Type := mkEnv {
  dropped : list Moment -> bool;
  lease_reply : list Moment -> Exchange LeaseResp;
  budget_clock : list Moment -> Z * Z * bool;                 (** at the check, at the debit; can the ledger be written *)
  restore_reply : list Moment -> result unit;
  register_reply : list Moment -> result (option bytes);      (** the credentials, as JSON *)
  order_reply : list Moment -> result nat;                    (** how many authorizations the order lists *)
  authorization_reply : list Moment -> result Authorization;
  ready_reply : list Moment -> result unit;
  status_reply : list Moment -> result OrderStatus;
  finalize_reply : list Moment -> result bytes;
  certificate_reply : list Moment -> result bytes;
  renewal_reply : list Moment -> RenewalAnswer;
  dns_reply : list Moment -> Exchange CfResponse;
  bind_reply : list Moment -> result unit
}.

(** [w_tokens] and [w_records] are the order's own: the tokens it has published, the records it has made. *)
Record World : Type := mkWorld {
  w_disk : Disk; w_ledger : option (gmap bytes Z); w_map : gmap bytes bytes; w_listening : bool;
  w_tokens : list bytes; w_records : list TxtRecord; w_log : list Moment
}.

(** A value, an error ([?]), or the future dropped at an await. *)
Inductive out (A : Type) : Type := Done (a : A) | Failed (e : String.string) | Dropped.
Arguments Done {A} a.
Arguments Failed {A} e%_string.
Arguments Dropped {A}.

Definition act (A : Type) : Type := World -> out A * World.
Definition pure {A} (a : A) : act A := fun w => (Done a, w).
Definition fail {A} (e : String.string) : act A := fun w => (Failed e, w).
Arguments fail {A} e%_string.
Definition andthen {A B} (m : act A) (k : A -> act B) : act B := fun w =>
  match m w with (Done a, w) => k a w | (Failed e, w) => (Failed e, w) | (Dropped, w) => (Dropped, w) end.
Definition of_result {A} (r : result A) : act A := match r with Ok a => pure a | Err e => fail e end.
(** Files are read and written without waiting. *)
Definition on_disk {A} (m : io A) : act A := fun w =>
  let '(a, d) := m (w_disk w) in
  (Done a, mkWorld d (w_ledger w) (w_map w) (w_listening w) (w_tokens w) (w_records w) (w_log w)).

Notation "'act!' x := m 'in' k" := (andthen m (fun x => k)) (at level 10, x name, m at level 100, k at level 200) : edge_scope.

Definition set_map (m : gmap bytes bytes) (w : World) : World :=
  mkWorld (w_disk w) (w_ledger w) m (w_listening w) (w_tokens w) (w_records w) (w_log w).
Definition set_listening (b : bool) (w : World) : World :=
  mkWorld (w_disk w) (w_ledger w) (w_map w) b (w_tokens w) (w_records w) (w_log w).
Definition set_tokens (ts : list bytes) (w : World) : World :=
  mkWorld (w_disk w) (w_ledger w) (w_map w) (w_listening w) ts (w_records w) (w_log w).
Definition set_records (rs : list TxtRecord) (w : World) : World :=
  mkWorld (w_disk w) (w_ledger w) (w_map w) (w_listening w) (w_tokens w) rs (w_log w).
Definition set_ledger (l : option (gmap bytes Z)) (w : World) : World :=
  mkWorld (w_disk w) l (w_map w) (w_listening w) (w_tokens w) (w_records w) (w_log w).
Definition log (e : Event) (w : World) : World :=
  mkWorld (w_disk w) (w_ledger w) (w_map w) (w_listening w) (w_tokens w) (w_records w)
    (w_log w ++ [mkMoment e (w_map w) (w_listening w) (fs (w_disk w)) (w_ledger w)]).
Definition change (f : World -> World) : act unit := fun w => (Done tt, f w).

(** ** Who answers a challenge *)

Definition HTTP01_PORT : Z := 80.

Definition shared_challenges (redirect_port : Z) : option (gmap bytes bytes) :=
  if redirect_port =? HTTP01_PORT then Some ∅ else None.

Definition challenge_response (map : gmap bytes bytes) (token : bytes) : option bytes := map !! token.

Definition challenge_handler (responses : gmap bytes bytes) (token : bytes) : Z * bytes :=
  match challenge_response responses token with Some key_auth => (200, key_auth) | None => (404, []) end.

Section Acme.
Variable env : Env.
(** The verdict of [Outbound.builder_trusting] and of [reqwest], by section, URL and roots. *)
Variable client_builds : OutboundCfg -> bytes -> bytes -> PublicRoots -> result unit.
Variable getenv : bytes -> option bytes.
Variable credentials_ok : bytes -> bool.          (** [serde_json] reads [AccountCredentials] from it *)
Variable pid : bytes.
Variable fails : nat -> bool.
Variable torn : nat -> nat.

(** A call that is waited for. *)
Definition await {A} (e : Event) (reply : list Moment -> A) : act A := fun w =>
  let w := log e w in if dropped env (w_log w) then (Dropped, w) else (Done (reply (w_log w)), w).

(** [.await.context(..)?]. *)
Definition call_ {A} (e : Event) (reply : list Moment -> result A) : act A :=
  act! r := await e reply in of_result r.

Definition from_cfg (cfg : AcmeDnsCfg) : result DnsProvider :=
  let api := if beq (provider cfg) (lit "challtestsrv") then cfg_url cfg else api_base cfg in
  let? _ := client_builds (dns_outbound cfg) (lit "tls.acme.dns") api Bundled in
  if beq (provider cfg) (lit "cloudflare") then
    ensure (negb (beq (trim (cfg_zone_id cfg)) [])) else "tls.acme.dns.zone_id is required for the cloudflare provider";
    let? token := ok_or (t ← getenv (api_token_env cfg); if beq (trim t) [] then None else Some t)
                    "the cloudflare DNS provider needs an API token" in
    Ok (Cloudflare (trim_end_matches 47 (api_base cfg)) (trim (cfg_zone_id cfg)) token)
  else if beq (provider cfg) (lit "challtestsrv") then
    ensure (negb (beq (trim (cfg_url cfg)) [])) else "tls.acme.dns.url is required for the challtestsrv provider";
    Ok (ChallTestSrv (trim_end_matches 47 (cfg_url cfg)))
  else if beq (provider cfg) [] then Err "needs tls.acme.dns.provider"
  else Err "unknown tls.acme.dns.provider".

Definition dns_publish (p : DnsProvider) (name value : bytes) : act TxtRecord :=
  act! x := await (DnsPublish name value (publish_request p name value)) (dns_reply env) in of_result (publish_verdict p name x).

(** What [remove] comes to is only logged. *)
Definition dns_remove (p : DnsProvider) (r : TxtRecord) : act unit :=
  match remove_request p r with
  | None => pure tt
  | Some q => act! _ := await (DnsRemove r q) (dns_reply env) in pure tt
  end.

(** ** The account *)

Definition http_client (acme : AcmeSection) : result unit :=
  let url := directory_url (order_cfg acme) in
  ensure (starts_with (trim url) (lit "https://")) else "tls.acme.directory_url is not https://";
  client_builds (acme_outbound acme) (lit "tls.acme") url System.

(** [Path::join]. *)
Definition creds_path (acme : AcmeSection) : bytes :=
  let dir := cache_dir acme in
  (if beq dir [] || ends_with dir [47] then dir else dir ++ [47]) ++ lit "account.json".

Definition cached_account (acme : AcmeSection) : act bool :=
  act! there := on_disk (exists_ (creds_path acme)) in
  if negb there then pure false
  else
  act! raw := on_disk (read_to_string fails (creds_path acme)) in
  match raw with
  | inr _ => fail "reading cached ACME account"
  | inl raw =>
      if negb (credentials_ok raw) then fail "parsing cached ACME account credentials"
      else
      act! _ := of_result (http_client acme) in
      act! _ := call_ (Ca CaRestore) (restore_reply env) in
      pure true
  end.

Definition account (acme : AcmeSection) : act unit :=
  act! cached := cached_account acme in
  if (cached : bool) then pure tt
  else
  let contact := if beq (email acme) [] then [] else [lit "mailto:" ++ email acme] in
  act! _ := of_result (http_client acme) in
  act! credentials := call_ (Ca (CaRegister contact (accept_tos acme) (directory_url (order_cfg acme)))) (register_reply env) in
  act! made := on_disk (create_dir_all fails) in
  match made, credentials with
  | inl _, Some json => act! _ := on_disk (write fails torn (creds_path acme) json) in pure tt
  | _, _ => pure tt
  end.

(** ** An order *)

Definition new_order (names : list bytes) (replaces : option AriId) : act nat :=
  match replaces with
  | None => call_ (Ca (CaOrder names None)) (order_reply env)
  | Some id =>
      act! r := await (Ca (CaOrder names (Some id))) (order_reply env) in
      match r with Ok n => pure n | Err _ => call_ (Ca (CaOrder names None)) (order_reply env) end
  end.

(** One authorization of the order. *)
Definition authorize (acme : AcmeSection) (dns : option DnsProvider) (az : Authorization) : act unit :=
  match az_status az with
  | AValid => pure tt
  | APending =>
      match dns with
      | Some provider =>
          match az_identifier az with
          | IdOther => fail "DNS-01 can only prove DNS names"
          | IdDns name =>
              match az_dns01 az with
              | None => fail "CA offered no dns-01 challenge"
              | Some c =>
                  act! record := dns_publish provider (challenge_record_name name) (ch_dns_value c) in
                  act! _ := change (fun w => set_records (w_records w ++ [record]) w) in
                  act! _ := await (Slept (propagation_secs (dns_cfg acme))) (fun _ => tt) in
                  call_ (Ca (CaReady (Dns01 provider name) c)) (ready_reply env)
              end
          end
      | None =>
          match az_http01 az with
          | None => fail "CA offered no http-01 challenge"
          | Some c =>
              act! _ := change (fun w => set_tokens (w_tokens w ++ [ch_token c]) (set_map (<[ch_token c := ch_key_auth c]> (w_map w)) w)) in
              call_ (Ca (CaReady Http01 c)) (ready_reply env)
          end
      end
  | _ => fail "unexpected authorization status"
  end.

Fixpoint authorizations (acme : AcmeSection) (dns : option DnsProvider) (n : nat) : act unit :=
  match n with
  | O => pure tt
  | S n =>
      act! az := call_ (Ca CaAuthorization) (authorization_reply env) in
      act! _ := authorize acme dns az in
      authorizations acme dns n
  end.

(** The block whose result [run_order] returns. *)
Definition order_body (acme : AcmeSection) (tls : TlsPaths) (dns : option DnsProvider) (n : nat) : act unit :=
  act! _ := authorizations acme dns n in
  act! status := call_ (Ca CaPollReady) (status_reply env) in
  if negb (bool_decide (status = OReady)) then fail "ACME order did not become ready"
  else
  act! key_pem := call_ (Ca CaFinalize) (finalize_reply env) in
  act! chain := call_ (Ca CaPollCertificate) (certificate_reply env) in
  act! stored := on_disk (publish_pair pid fails torn chain key_pem (cert_path tls) (key_path tls)) in
  of_result stored.

(** [ClearTokens], dropped. *)
Definition clear_tokens (w : World) : World := set_map (foldr delete (w_map w) (w_tokens w)) w.

(** [spawn_challenge_server]. *)
Definition spawn_challenge_server : act unit :=
  act! _ := call_ Bind80 (bind_reply env) in change (set_listening true).

(** [AbortOnDrop::stop] aborts, then waits. *)
Definition stop_server : act unit :=
  act! _ := change (set_listening false) in await Stop80 (fun _ => tt).

Fixpoint remove_all (p : DnsProvider) (rs : list TxtRecord) : act unit :=
  match rs with
  | [] => pure tt
  | r :: rs => act! _ := dns_remove p r in remove_all p rs
  end.

(** [shared]: the redirect listener answers from the map on port 80; otherwise the order has one of its own. *)
Definition serves_itself (dns : option DnsProvider) (shared : bool) : bool :=
  match dns with Some _ => false | None => negb shared end.

(** The order from its authorizations on, and what is released whatever it came to. *)
Definition order_and_release (acme : AcmeSection) (tls : TlsPaths) (shared : bool) (dns : option DnsProvider) (n : nat) : act unit :=
  fun w =>
    let '(result, w) := order_body acme tls dns n w in
    let w := clear_tokens w in
    match result with
    | Dropped => (Dropped, set_listening false w)
    | _ =>
        (act! _ := (if serves_itself dns shared then stop_server else pure tt) in
         act! _ := (match dns with Some p => (fun w => remove_all p (w_records w) w) | None => pure tt end) in
         (fun w => (result, w))) w
    end.

Definition run_order (acme : AcmeSection) (tls : TlsPaths) (shared : bool) (dns : option DnsProvider) (replaces : option AriId)
    : act unit :=
  act! _ := change (fun w => set_tokens [] (set_records [] (if shared then w else set_map ∅ w))) in
  act! _ := account acme in
  act! n := new_order (domains (order_cfg acme)) replaces in
  act! _ := (if serves_itself dns shared then spawn_challenge_server else pure tt) in
  order_and_release acme tls shared dns n.

(** ** Obtaining a certificate *)

(** What must hold of the settings before anything is spent, and the provider they name. *)
Definition preflight (acme : AcmeSection) (tls : TlsPaths) : result (option DnsProvider) :=
  ensure (negb (is_nil (domains (order_cfg acme)))) else "tls.acme.domains must list at least one domain";
  ensure (accept_tos acme) else "set tls.acme.accept_tos = true to accept the ACME provider's Terms of Service";
  ensure (negb (beq (cert_path tls) []) && negb (beq (key_path tls) [])) else "tls.cert_path and tls.key_path must be set";
  let? dns01 := (if beq (challenge acme) (lit "http-01") || beq (challenge acme) [] then Ok false
                 else if beq (challenge acme) (lit "dns-01") then Ok true else Err "unknown tls.acme.challenge") in
  ensure (dns01 || negb (existsb (fun d => starts_with (trim d) (lit "*.")) (domains (order_cfg acme))))
    else "wildcards need tls.acme.challenge = dns-01";
  if (dns01 : bool) then let? p := from_cfg (dns_cfg acme) in Ok (Some p) else Ok None.

(** [CpClient::acme_lease], then the decision. *)
Definition ask_budget (acme : AcmeSection) (cp : bool) : act BudgetVerdict :=
  act! verdict := (if cp then act! x := await (LeaseAsked (directory_url (order_cfg acme)) (domains (order_cfg acme))) (lease_reply env) in
                              pure (Some (acme_lease x))
                   else pure None) in
  fun w =>
    let '(now, now', persist_ok) := budget_clock env (w_log w) in
    let '(v, ledger) := check_budget (order_cfg acme) verdict now now' persist_ok (w_ledger w) in
    (Done v, set_ledger ledger w).

Definition acme_lease_outcome (lease_id outcome : bytes) : act unit :=
  if beq lease_id [] then pure tt else await (LeaseReported lease_id outcome) (fun _ => tt).

Definition obtain_certificate_replacing (acme : AcmeSection) (tls : TlsPaths) (cp shared : bool) (replaces : option AriId)
    : act Issuance :=
  act! dns := of_result (preflight acme tls) in
  act! verdict := ask_budget acme cp in
  match verdict with
  | Refuse deferred => pure deferred
  | SendOrder lease =>
      fun w =>
        match run_order acme tls shared dns replaces w with
        | (Dropped, w) => (Dropped, w)
        | (result, w) =>
            (act! _ := (match lease with
                        | Some id => if cp then acme_lease_outcome id (match result with Done _ => lit "issued" | _ => lit "failed" end)
                                     else pure tt
                        | None => pure tt
                        end) in
             act! _ := (fun w => (result, w)) in
             pure Issued) w
        end
  end.

Definition obtain_certificate (acme : AcmeSection) (tls : TlsPaths) (cp : bool) : act Issuance :=
  obtain_certificate_replacing acme tls cp false None.

(** ** The CA's renewal window *)

Definition renewal_window (acme : AcmeSection) (id : AriId) : act (option RenewalWindow) :=
  act! cached := cached_account acme in
  if negb cached then pure None
  else
  act! answer := await (Ca (CaRenewalInfo id)) (renewal_reply env) in
  match answer with
  | RenewalInfo start end_ retry url => pure (Some (mkRenewalWindow start end_ retry url))
  | RenewalUnsupported => pure None
  | RenewalError => fail "fetching ACME renewal information"
  end.
End Acme.
