(* ===== verification/AcmeLaws.v ===== *)
(** * AcmeLaws: what an order does, whatever the CA, the network and the disk do

    An order asks before it spends, is answerable for every challenge it calls ready, stores exactly what the CA
    issued, and leaves nothing behind. *)

From S2P Require Import Prelude Text Net Access Units Float Json Http Der Outbound ControlPlane Redirect AcmeBudget Disk SelfSigned Acme.

Implicit Types (w : World) (l pre : list Moment).

(** ** Computations that keep an invariant *)

Definition keeps {A} (I : World -> Prop) (m : act A) : Prop := forall w, I w -> I (m w).2.

Lemma keeps_pure {A} I (a : A) : keeps I (pure a).
Proof. by intros w. Qed.
Lemma keeps_fail {A} I e : keeps I (fail (A := A) e).
Proof. by intros w. Qed.
Lemma keeps_of_result {A} I (r : result A) : keeps I (of_result r).
Proof. destruct r; [apply keeps_pure | apply keeps_fail]. Qed.
Lemma keeps_change I f : (forall w, I w -> I (f w)) -> keeps I (change f).
Proof. intros H w. apply H. Qed.
Lemma keeps_andthen {A B} I (m : act A) (k : A -> act B) : keeps I m -> (forall a, keeps I (k a)) -> keeps I (andthen m k).
Proof. intros Hm Hk w Hw. specialize (Hm w Hw). unfold andthen. destruct (m w) as [[a|e|] w1]; [by apply Hk | done..]. Qed.
Lemma keeps_await {A} env I e (reply : list Moment -> A) : (forall w, I w -> I (log e w)) -> keeps I (await env e reply).
Proof. intros H w Hw. unfold await. destruct (dropped env _); by apply H. Qed.
Lemma keeps_call {A} env I e (reply : list Moment -> result A) : (forall w, I w -> I (log e w)) -> keeps I (call_ env e reply).
Proof. intros H. apply keeps_andthen; [by apply keeps_await | intros; apply keeps_of_result]. Qed.
Lemma keeps_disk {A} I (m : io A) :
  (forall w, I w -> I (mkWorld (m (w_disk w)).2 (w_ledger w) (w_map w) (w_listening w) (w_tokens w) (w_records w) (w_log w))) ->
  keeps I (on_disk m).
Proof. intros H w Hw. specialize (H w Hw). unfold on_disk. by destruct (m (w_disk w)). Qed.

Create HintDb acme.
#[export] Hint Resolve keeps_pure keeps_fail keeps_of_result keeps_andthen keeps_call keeps_await : acme.

(** Opens [andthen]. *)
Lemma andthen_done {A B} (m : act A) (k : A -> act B) w a w1 : m w = (Done a, w1) -> andthen m k w = k a w1.
Proof. unfold andthen. by intros ->. Qed.

(** ** Reading a log *)

Definition token_of (m : Moment) : option bytes :=
  match what m with Ca (CaReady Http01 c) => Some (ch_token c) | _ => None end.
Definition removal_of (m : Moment) : option (TxtRecord * DnsRequest) :=
  match what m with DnsRemove r q => Some (r, q) | _ => None end.
Definition report_of (m : Moment) : option (bytes * bytes) :=
  match what m with LeaseReported id o => Some (id, o) | _ => None end.

(** The http-01 challenges called ready, by token; the removals asked for; the outcomes reported. *)
Definition tokens_of l : list bytes := omap token_of l.
Definition removals l : list (TxtRecord * DnsRequest) := omap removal_of l.
Definition reports l : list (bytes * bytes) := omap report_of l.

Definition is_ca (m : Moment) : bool := match what m with Ca _ => true | _ => false end.

(** Neither asks the CA anything nor publishes. *)
Definition idle (e : Event) : bool := match e with Ca _ | DnsPublish _ _ _ => false | _ => true end.

(** A question in the log was answered so. *)
Definition said {A} (l : list Moment) (e : Event) (reply : list Moment -> result A) (a : A) : Prop :=
  exists pre m post, l = pre ++ m :: post /\ what m = e /\ reply (pre ++ [m]) = Ok a.

Lemma said_app {A} l l' e (reply : list Moment -> result A) a : said l e reply a -> said (l ++ l') e reply a.
Proof. intros (pre & m & post & -> & H). exists pre, m, (post ++ l'). by rewrite <- app_assoc. Qed.

Lemma said_last {A} l m (reply : list Moment -> result A) a : reply (l ++ [m]) = Ok a -> said (l ++ [m]) (what m) reply a.
Proof. intros H. by exists l, m, []. Qed.

Section Laws.
Variable env : Env.
Variable client_builds : OutboundCfg -> bytes -> bytes -> PublicRoots -> result unit.
Variable credentials_ok : bytes -> bool.
Variable pid : bytes.
Variable fails : nat -> bool.
Variable torn : nat -> nat.

Variables (acme : AcmeSection) (tls : TlsPaths) (shared : bool) (dns : option DnsProvider).

(** The records made: those whose publication was answered well. *)
Definition made_by (dns : option DnsProvider) pre (m : Moment) : list TxtRecord :=
  match what m, dns with
  | DnsPublish name _ _, Some p =>
      if dropped env (pre ++ [m]) then []
      else match publish_verdict p name (dns_reply env (pre ++ [m])) with Ok r => [r] | Err _ => [] end
  | _, _ => []
  end.

Fixpoint made (dns : option DnsProvider) pre l : list TxtRecord :=
  match l with [] => [] | m :: l => made_by dns pre m ++ made dns (pre ++ [m]) l end.

Lemma made_app pre l l' : made dns pre (l ++ l') = made dns pre l ++ made dns (pre ++ l) l'.
Proof.
  revert pre. induction l as [|m l IH]; intros pre; cbn; [by cbn; rewrite ?app_nil_r|]. by rewrite IH, <- (app_assoc pre [m] l), app_assoc.
Qed.

(** ** What every moment must satisfy *)

Variables (c0 k0 : option File) (map0 : gmap bytes bytes).
Let held (f : Fs) : Prop := f !! cert_path tls = c0 /\ f !! key_path tls = k0.

(** Whoever asks port 80 for the challenge is told the key authorization, by the redirect listener or by the
    order's own. *)
Definition answerable (m : Moment) (c : Challenge) : Prop :=
  if shared then
    forall to_str_ok value_ok tls_port status allowed headers host port scheme pq,
      redirect_handler to_str_ok value_ok tls_port status allowed (Some (answered m)) headers host port scheme
        (ACME_CHALLENGE_PREFIX ++ ch_token c) pq = RAnswer 200 (ch_key_auth c)
  else listening m = true /\ challenge_handler (answered m) (ch_token c) = (200, ch_key_auth c).

Definition ready_ok pre (m : Moment) (kind : ChallengeKind) (c : Challenge) : Prop :=
  match kind with
  | Http01 => dns = None /\ answerable m c
  | Dns01 p domain =>
      dns = Some p /\ exists pre' mp ms r,
        pre = pre' ++ [mp; ms] /\ what ms = Slept (propagation_secs (dns_cfg acme))
        /\ what mp = DnsPublish (challenge_record_name domain) (ch_dns_value c)
                       (publish_request p (challenge_record_name domain) (ch_dns_value c))
        /\ publish_verdict p (challenge_record_name domain) (dns_reply env (pre' ++ [mp])) = Ok r
  end.

Definition moment_ok pre (m : Moment) : Prop :=
  match what m with
  | Ca c => held (files m) /\ match c with CaReady kind c => ready_ok pre m kind c | _ => True end
  | _ => True
  end.

Definition log_ok l : Prop := forall pre m post, l = pre ++ m :: post -> moment_ok pre m.

Lemma log_ok_snoc l m : log_ok l -> moment_ok l m -> log_ok (l ++ [m]).
Proof.
  intros Hl Hm pre m' post E. destruct post as [|x post _] using rev_ind.
  - apply app_inj_tail in E as [-> ->]. done.
  - change (pre ++ m' :: post ++ [x]) with (pre ++ (m' :: post) ++ [x]) in E. rewrite app_assoc in E.
    apply app_inj_tail in E as [-> _]. by apply (Hl pre m' post).
Qed.

(** ** The order under way *)

Record Inv w : Prop := mkInv {
  inv_log : log_ok (w_log w);
  inv_map : forall t, t ∉ w_tokens w -> w_map w !! t = map0 !! t;
  inv_tokens : w_tokens w = tokens_of (w_log w);
  inv_made : w_records w = made dns [] (w_log w);
  inv_removed : removals (w_log w) = [];
  inv_reported : reports (w_log w) = []
}.

Definition untouched (d : Disk) : Prop := held (fs d) /\ Forall held (seen d).

(** Before the pair is written. *)
Definition Pre (b : bool) w : Prop := Inv w /\ untouched (w_disk w) /\ w_listening w = b.

(** Events that neither call a challenge ready nor touch the records. *)
Definition plain (e : Event) : bool :=
  match e with Ca (CaReady _ _) | DnsPublish _ _ _ | DnsRemove _ _ | LeaseReported _ _ => false | _ => true end.

(** One more moment. *)
Lemma Inv_snoc w m d g map b ts rs : Inv w -> moment_ok (w_log w) m -> ts = w_tokens w ++ option_list (token_of m) ->
  rs = w_records w ++ made_by dns (w_log w) m -> removal_of m = None -> report_of m = None ->
  (forall t, t ∉ ts -> map !! t = map0 !! t) -> Inv (mkWorld d g map b ts rs (w_log w ++ [m])).
Proof.
  intros [H1 H2 H3 H4 H5 H6] Hm -> -> Hr Hp Hmap. unfold tokens_of, removals, reports in *.
  constructor; cbn [w_log w_tokens w_map w_records]; unfold tokens_of, removals, reports; rewrite ?omap_app, ?made_app.
  - by apply log_ok_snoc.
  - done.
  - rewrite H3. cbn. by destruct (token_of m).
  - rewrite H4. cbn. by cbn; rewrite ?app_nil_r.
  - rewrite H5. cbn. by rewrite Hr.
  - rewrite H6. cbn. by rewrite Hp.
Qed.

Lemma Inv_log_plain e w : plain e = true -> held (fs (w_disk w)) -> Inv w -> Inv (log e w).
Proof.
  intros He Hh Hi. apply Inv_snoc; try done; try (by destruct e as [| |[]| | | | |]; cbn; rewrite ?app_nil_r); apply Hi.
Qed.

Lemma Pre_log b e w : plain e = true -> Pre b w -> Pre b (log e w).
Proof. intros He (Hi & [Hh Hs] & Hl). split_and!; [by apply Inv_log_plain | done..]. Qed.

Hint Resolve Pre_log : acme.

(** Files beside the pair may change. *)
Lemma keeps_beside {A} b X (m : io A) : touches X m -> cert_path tls ∉ X -> key_path tls ∉ X -> keeps (Pre b) (on_disk m).
Proof.
  intros Hm Hc Hk. apply keeps_disk. intros w ([] & [[H1 H2] Hs] & Hl). destruct (Hm (w_disk w)) as [Ho (new & Hn & Hf)].
  split_and!; [done| |done]. cbn. split; [by split; rewrite Ho|]. rewrite Hn. apply Forall_app. split; [done|].
  eapply Forall_impl; [exact Hf|]. intros f Hf'. by split; rewrite Hf'.
Qed.

Hypothesis Hcreds : creds_path acme <> cert_path tls /\ creds_path acme <> key_path tls.

(** What an order needs before it walks its authorizations keeps whatever plain events and files beside the pair
    keep. *)
Section Early.
Variable I : World -> Prop.
Hypothesis Ilog : forall e w, plain e = true -> I w -> I (log e w).
Hypothesis Idisk : forall A (m : io A), touches [creds_path acme] m -> keeps I (on_disk m).
Hint Resolve Ilog Idisk : acme.

Lemma keeps_account : keeps I (account env client_builds credentials_ok fails torn acme).
Proof.
  assert (Hcached : keeps I (cached_account env client_builds credentials_ok fails acme)).
  { apply keeps_andthen; [apply Idisk; eauto with disk|]. intros []; [|apply keeps_pure].
    apply keeps_andthen; [apply Idisk; eauto with disk|]. intros [raw|]; [|apply keeps_fail].
    destruct (credentials_ok raw); cbn [negb]; eauto 10 with acme. }
  apply keeps_andthen; [done|]. intros []; [apply keeps_pure|].
  apply keeps_andthen; [apply keeps_of_result|]. intros _. apply keeps_andthen; [eauto with acme|]. intros creds.
  apply keeps_andthen; [apply Idisk; eauto with disk|]. intros [[]|]; [|destruct creds; apply keeps_pure].
  destruct creds; [|apply keeps_pure]. apply keeps_andthen; [apply Idisk; eauto with disk | intros; apply keeps_pure].
Qed.

Lemma keeps_new_order names replaces : keeps I (new_order env names replaces).
Proof.
  destruct replaces as [id|]; [|by eauto with acme]. apply keeps_andthen; [by eauto with acme|]. intros []; eauto with acme.
Qed.
End Early.

Let serving := serves_itself dns shared.

Lemma Pre_ready_http b c w : dns = None -> b = serving -> Pre b w ->
  Pre b (log (Ca (CaReady Http01 c)) (set_tokens (w_tokens w ++ [ch_token c]) (set_map (<[ch_token c := ch_key_auth c]> (w_map w)) w))).
Proof.
  intros Hd -> (Hi & [Hh Hs] & Hl). split_and!; [|done|done]. apply (Inv_snoc w); try done; [|by cbn; rewrite app_nil_r|].
  - cbn. split; [done|]. split; [done|]. unfold answerable, challenge_handler, challenge_response. cbn [answered listening].
    unfold serving, serves_itself in Hl. rewrite Hd in Hl. destruct shared; cbn in Hl.
    + intros. unfold redirect_handler. rewrite (proj2 (strip_prefix_Some _ _ _) eq_refl). cbn. by rewrite lookup_insert_eq.
    + by rewrite lookup_insert_eq.
  - intros t Ht. cbn in Ht |- *. rewrite not_elem_of_app, list_elem_of_singleton in Ht. rewrite lookup_insert_ne by naive_solver.
    apply Hi. tauto.
Qed.

Lemma Pre_ready_dns b p name c w : Pre b w -> (forall m, ready_ok (w_log w) m (Dns01 p name) c) ->
  Pre b (log (Ca (CaReady (Dns01 p name) c)) w).
Proof.
  intros (Hi & [Hh Hs] & Hl) Hr. split_and!; [|done|done].
  apply (Inv_snoc w); [done | by split | cbn; by rewrite app_nil_r | cbn; by rewrite app_nil_r | done | done | apply Hi].
Qed.

(** Publishing a record, keeping it, waiting and calling the challenge ready. *)
Lemma keeps_authorize_dns b p name c : dns = Some p -> keeps (Pre b)
  (andthen (dns_publish env p (challenge_record_name name) (ch_dns_value c)) (fun record =>
   andthen (change (fun w => set_records (w_records w ++ [record]) w)) (fun _ =>
   andthen (await env (Slept (propagation_secs (dns_cfg acme))) (fun _ => tt)) (fun _ =>
   call_ env (Ca (CaReady (Dns01 p name) c)) (ready_reply env))))).
Proof.
  intros Hd w (Hi & [Hh Hs] & Hl). set (n := challenge_record_name name). set (v := ch_dns_value c).
  set (mp := mkMoment (DnsPublish n v (publish_request p n v)) (w_map w) (w_listening w) (fs (w_disk w)) (w_ledger w)).
  assert (Hpub : forall rs, rs = w_records w ++ made_by dns (w_log w) mp ->
            Pre b (set_records rs (log (DnsPublish n v (publish_request p n v)) w))).
  { intros rs ->. split_and!; [|done|done]. apply (Inv_snoc w); try done; [by cbn; rewrite app_nil_r | apply Hi]. }
  unfold made_by, mp in Hpub. cbn [what] in Hpub. rewrite Hd in Hpub. fold mp in Hpub.
  assert (Hsame : forall w', set_records (w_records w') w' = w') by (by intros []).
  unfold dns_publish, andthen at 1, andthen at 1, await at 1. cbn [log w_log]. fold mp.
  destruct (dropped env (w_log w ++ [mp])); [cbn [snd]; specialize (Hpub (w_records w)); rewrite app_nil_r in Hpub; by apply Hpub|].
  destruct (publish_verdict p n (dns_reply env (w_log w ++ [mp]))) as [r|e] eqn:Hv; cbn [of_result pure fail];
    [|cbn [snd]; specialize (Hpub (w_records w)); rewrite app_nil_r in Hpub; by apply Hpub].
  specialize (Hpub _ eq_refl). unfold andthen at 1, change at 1. cbn [w_records] in Hpub |- *.
  set (w1 := set_records _ _) in Hpub |- *.
  assert (Hw1 : w_log w1 = w_log w ++ [mp]) by done.
  unfold andthen at 1, await at 1. assert (Hsl : Pre b (log (Slept (propagation_secs (dns_cfg acme))) w1)) by (by apply Pre_log).
  destruct (dropped env _); [done|]. revert Hsl. set (w2 := log _ w1). intros Hsl.
  assert (Hr : Pre b (log (Ca (CaReady (Dns01 p name) c)) w2)).
  { apply Pre_ready_dns; [done|]. split; [done|]. exists (w_log w), mp. eexists _, r. split_and!; [unfold w2; cbn [w_log log]; by rewrite Hw1, <- app_assoc | done..]. }
  unfold call_, andthen, await. destruct (dropped env _); [done|]. by destruct (ready_reply env _).
Qed.

Lemma keeps_authorize d az : dns = d -> keeps (Pre serving) (authorize env acme d az).
Proof.
  intros Hd. unfold authorize. destruct (az_status az); try apply keeps_fail; [|apply keeps_pure]. destruct d as [p|].
  - destruct (az_identifier az) as [name|]; [|apply keeps_fail]. destruct (az_dns01 az) as [c|]; [|apply keeps_fail].
    by apply keeps_authorize_dns.
  - destruct (az_http01 az) as [c|]; [|apply keeps_fail]. intros w Hw. unfold andthen at 1, change.
    assert (Hr := Pre_ready_http serving c w Hd eq_refl Hw). unfold call_, andthen, await.
    destruct (dropped env _); [done|]. by destruct (ready_reply env _).
Qed.

Lemma keeps_authorizations n : keeps (Pre serving) (authorizations env acme dns n).
Proof.
  induction n as [|n IH]; [apply keeps_pure|]. apply keeps_andthen; [by eauto with acme|]. intros az.
  apply keeps_andthen; [by apply keeps_authorize | done].
Qed.

(** ** Storing what was issued *)

Hypothesis Hpaths : NoDup [cert_path tls; key_path tls; tmp_path pid (cert_path tls); tmp_path pid (key_path tls);
                           backup_path pid (cert_path tls)].

(** The files hold the chain and the key the CA gave for an order it called ready. *)
Definition issued w : Prop := exists chain key_pem,
  said (w_log w) (Ca CaPollReady) (status_reply env) OReady
  /\ said (w_log w) (Ca CaFinalize) (finalize_reply env) key_pem
  /\ said (w_log w) (Ca CaPollCertificate) (certificate_reply env) chain
  /\ fs (w_disk w) !! cert_path tls = Some (mkFile chain false) /\ fs (w_disk w) !! key_path tls = Some (mkFile key_pem true).

(** The pair is the one issued, or, disk faults beyond one aside, the one there was. *)
Definition stored {A} (r : out A) w : Prop :=
  match r with
  | Done _ => issued w
  | Failed _ => once fails -> held (fs (w_disk w))
  | Dropped => once fails -> held (fs (w_disk w)) \/ issued w
  end.

Definition Post {A} (r : out A) w : Prop := Inv w /\ w_listening w = serving /\ stored r w.

Lemma Pre_Post {A} (r : out A) w : Pre serving w -> match r with Done _ => False | _ => True end -> Post r w.
Proof. intros (Hi & [Hh _] & Hl) Hr. split_and!; [done..|]. destruct r; [done | by intros _ | by intros _; left]. Qed.

Lemma call_case {A} e (reply : list Moment -> result A) w : exists r,
  call_ env e reply w = (r, log e w) /\ match r with Done a => reply (w_log (log e w)) = Ok a | _ => True end.
Proof.
  unfold call_, andthen, await. destruct (dropped env _); [by exists Dropped|].
  destruct (reply (w_log (log e w))) as [a|m]; [by exists (Done a) | by exists (Failed m)].
Qed.

(** One question on the way: what goes wrong ends the order with the pair untouched. *)
Lemma Post_call {A B} e (reply : list Moment -> result A) (k : A -> act B) w : plain e = true -> Pre serving w ->
  (forall a, Pre serving (log e w) -> reply (w_log (log e w)) = Ok a -> Post (k a (log e w)).1 (k a (log e w)).2) ->
  Post (andthen (call_ env e reply) k w).1 (andthen (call_ env e reply) k w).2.
Proof.
  intros He Hw Hk. destruct (call_case e reply w) as (r & E & Hr). unfold andthen at 1 2. rewrite E.
  pose proof (Pre_log serving e w He Hw) as Hw'. destruct r as [a|m|]; [by apply Hk | by apply Pre_Post..].
Qed.

Lemma Post_then {A B} (m : act A) (k : A -> act B) w : keeps (Pre serving) m -> Pre serving w ->
  (forall a w1, Pre serving w1 -> Post (k a w1).1 (k a w1).2) -> Post (andthen m k w).1 (andthen m k w).2.
Proof.
  intros Hm Hw Hk. specialize (Hm w Hw). unfold andthen. destruct (m w) as [[a|e|] w1]; cbn [snd] in Hm; [by apply Hk | by apply Pre_Post..].
Qed.

Lemma order_body_ok n w : Pre serving w ->
  Post (order_body env pid fails torn acme tls dns n w).1 (order_body env pid fails torn acme tls dns n w).2.
Proof.
  intros Hw. apply Post_then; [apply keeps_authorizations | done |]. intros _ w1 H1.
  apply Post_call; [done..|]. intros status H2 Hstatus. case_bool_decide as Hst; cbn [negb]; [|by apply Pre_Post]. subst status.
  apply Post_call; [done..|]. intros key_pem H3 Hkey. apply Post_call; [done..|]. intros chain (Hi & [[Hc Hk] Hs] & Hl) Hchain.
  revert Hi Hc Hk Hs Hl Hchain. set (w4 := log (Ca CaPollCertificate) _). intros Hi Hc Hk Hs Hl Hchain.
  unfold andthen, on_disk.
  pose proof (wp_publish_pair pid fails torn (cert_path tls) (key_path tls) chain key_pem c0 k0 Hpaths (w_disk w4)) as Hp.
  destruct Hp as (_ & _ & Hp); [|done..|]. { eapply Forall_impl; [exact Hs|]. intros f. apply kept_safe. }
  destruct (publish_pair _ _ _ _ _ _ _ (w_disk w4)) as [r d]. cbn [fst snd] in Hp.
  split_and!; [destruct r; by destruct Hi | by destruct r |]. destruct r as [[]|e]; cbn [of_result pure fail fst snd stored]; [|done].
  exists chain, key_pem. cbn [w_log w_disk]. split_and!; [| | |by destruct Hp..].
  - do 2 apply said_app. by apply (said_last (w_log w1)).
  - apply said_app. by eapply said_last in Hkey.
  - by eapply said_last in Hchain.
Qed.

(** ** Cleaning up *)

(** The removals due for the records made. *)
Definition removals_due (rs : list TxtRecord) : list (TxtRecord * DnsRequest) :=
  match dns with Some p => omap (fun r => pair r <$> remove_request p r) rs | None => [] end.

Definition over {A} (r : out A) : bool := match r with Dropped => false | _ => true end.

(** How an order leaves the world: nobody answers for its tokens any more, its listener is gone, the records it made
    are asked away, unless it was dropped. *)
Record Ended {A} (r : out A) w : Prop := mkEnded {
  end_log : log_ok (w_log w);
  end_map : forall t, w_map w !! t = if bool_decide (t ∈ tokens_of (w_log w)) then None else map0 !! t;
  end_port : w_listening w = false;
  end_records : over r = true -> removals (w_log w) = removals_due (made dns [] (w_log w));
  end_stored : stored r w
}.

(** A log extended by events of no consequence. *)
Definition later w w' (new : list Moment) : Prop :=
  w_log w' = w_log w ++ new /\ Forall (fun m => idle (what m) = true) new /\ w_map w' = w_map w /\ w_disk w' = w_disk w.

Lemma log_ok_idle l new : Forall (fun m => idle (what m) = true) new -> log_ok l -> log_ok (l ++ new).
Proof.
  intros Hn. revert l. induction Hn as [|m new Hm Hn IH]; intros l Hl; [by rewrite app_nil_r|].
  rewrite cons_middle, app_assoc. apply IH, log_ok_snoc; [done|]. unfold moment_ok. by destruct (what m).
Qed.

Lemma tokens_idle l new : Forall (fun m => idle (what m) = true) new -> tokens_of (l ++ new) = tokens_of l.
Proof.
  intros Hn. unfold tokens_of. rewrite omap_app. assert (omap token_of new = []) as ->; [|apply app_nil_r].
  induction Hn as [|m new Hm Hn IH]; [done|]. cbn. rewrite IH. unfold token_of. by destruct (what m).
Qed.

Lemma made_idle l new : Forall (fun m => idle (what m) = true) new -> made dns [] (l ++ new) = made dns [] l.
Proof.
  intros Hn. rewrite made_app. cbn [app]. assert (forall pre, made dns pre new = []) as ->; [|apply app_nil_r].
  induction Hn as [|m new Hm Hn IH]; intros pre; [done|]. cbn. rewrite IH. unfold made_by. by destruct (what m).
Qed.

Lemma issued_later w w' new : later w w' new -> issued w -> issued w'.
Proof.
  intros (Hl & _ & _ & Hd) (chain & key & H1 & H2 & H3 & H4). exists chain, key. rewrite Hl, Hd.
  split_and!; [by apply said_app..|apply H4|apply H4].
Qed.

Lemma later_refl w : later w w [].
Proof. split_and!; [by rewrite app_nil_r | constructor | done..]. Qed.

Lemma later_log e w : idle e = true -> later w (log e w) [mkMoment e (w_map w) (w_listening w) (fs (w_disk w)) (w_ledger w)].
Proof. intros He. by split_and!; [|repeat constructor|..]. Qed.

Lemma later_trans w1 w2 w3 n1 n2 : later w1 w2 n1 -> later w2 w3 n2 -> later w1 w3 (n1 ++ n2).
Proof.
  intros (H1 & H2 & H3 & H4) (H5 & H6 & H7 & H8).
  split_and!; [by rewrite H5, H1, app_assoc | by apply Forall_app | congruence..].
Qed.

Lemma remove_all_ok p rs w : exists r w' new, remove_all env p rs w = (r, w') /\ later w w' new /\ w_listening w' = w_listening w
  /\ match r with Done _ => removals new = omap (fun r => pair r <$> remove_request p r) rs | Failed _ => False | Dropped => True end
  /\ reports new = [].
Proof.
  revert w. induction rs as [|x rs IH]; intros w; [exists (Done tt), w, []; by split_and!; [|apply later_refl|..]|].
  cbn [remove_all omap list_omap]. unfold dns_remove, andthen at 1. destruct (remove_request p x) as [q|] eqn:Hq; cbn [fmap option_fmap option_map].
  2:{ destruct (IH w) as (r & w' & new & H). by exists r, w', new. }
  unfold andthen, await. pose proof (later_log (DnsRemove x q) w eq_refl) as Hw1.
  destruct (dropped env _); [by eexists Dropped, _, _; split_and!; [done|exact Hw1|..]|]. cbn [pure].
  destruct (IH (log (DnsRemove x q) w)) as (r & w' & new & -> & Hlt & Hp & Hr & Hrep). exists r, w'. eexists. split_and!; [done | by eapply later_trans | done | |].
  - destruct r; [|done..]. cbn. by f_equal.
  - done.
Qed.

Lemma foldr_delete_lookup (ts : list bytes) (m : gmap bytes bytes) t :
  foldr delete m ts !! t = if bool_decide (t ∈ ts) then None else m !! t.
Proof.
  induction ts as [|x ts IH]; cbn [foldr]; [done|]. destruct (decide (x = t)) as [->|Hne].
  - rewrite lookup_delete_eq, bool_decide_true by set_solver. done.
  - rewrite lookup_delete_ne, IH by done. do 2 case_bool_decide; set_solver.
Qed.

Lemma stored_later {A B} (r : out A) (r' : out B) w w' new : later w w' new -> stored r w ->
  match r, r' with Done _, Done _ | Failed _, Failed _ | _, Dropped => True | _, _ => False end -> stored r' w'.
Proof.
  intros Hl Hs Hr. pose proof (issued_later w w' new Hl) as Hi. destruct Hl as (_ & _ & _ & Hd).
  destruct r, r'; try done; cbn in *; rewrite ?Hd; naive_solver.
Qed.

(** The order's block is over, its tokens are cleared, and what is left has been done. *)
Lemma Ended_after {A B} (r : out A) (r' : out B) w w' new : Post r w -> later (clear_tokens w) w' new -> w_listening w' = false ->
  (over r' = true -> removals new = removals_due (w_records w)) -> reports new = [] ->
  match r, r' with Done _, Done _ | Failed _, Failed _ | _, Dropped => True | _, _ => False end ->
  Ended r' w' /\ reports (w_log w') = [].
Proof.
  intros ([H1 H2 H3 H4 H5 H6] & _ & Hs) Hlt Hp Hrm Hrep Hr.
  assert (Hst : stored r' w') by (eapply stored_later; [exact Hlt | exact Hs | exact Hr]).
  destruct Hlt as (Hl & Hf & Hm & _). cbn [clear_tokens set_map w_log w_map] in Hl, Hm. unfold removals, reports in *. split; [constructor|]; rewrite ?Hl.
  - by apply log_ok_idle.
  - intros t. rewrite Hm, foldr_delete_lookup, tokens_idle, <- H3 by done. case_bool_decide; [done|]. by apply H2.
  - done.
  - intros Ho. unfold removals. by rewrite omap_app, H5, made_idle, <- H4, Hrm.
  - done.
  - by rewrite omap_app, H6, Hrep.
Qed.

(** The world an order starts from: nothing of it has happened yet. *)
Record Fresh w : Prop := mkFresh {
  fresh_log : log_ok (w_log w);
  fresh_tokens : tokens_of (w_log w) = [];
  fresh_made : made dns [] (w_log w) = [];
  fresh_removals : removals (w_log w) = [];
  fresh_reports : reports (w_log w) = [];
  fresh_disk : untouched (w_disk w);
  fresh_port : w_listening w = false;
  fresh_map : map0 = if shared then w_map w else ∅
}.

Definition Early w : Prop := Pre false w /\ w_tokens w = [] /\ w_records w = [].

Lemma Early_log e w : plain e = true -> Early w -> Early (log e w).
Proof. intros He (Hp & H). split; [by apply Pre_log | done]. Qed.

Lemma Early_disk A (m : io A) : touches [creds_path acme] m -> keeps Early (on_disk m).
Proof.
  intros Hm w (Hp & H). split.
  - eapply (keeps_beside false [creds_path acme]); [done| | |done]; destruct Hcreds as [Hc1 Hc2]; intros Hin%list_elem_of_singleton; congruence.
  - unfold on_disk. by destruct (m (w_disk w)).
Qed.

Lemma Early_Ended {A} (r : out A) w : Early w -> match r with Done _ => False | _ => True end -> Ended r w /\ reports (w_log w) = [].
Proof.
  intros (([H1 H2 H3 H4 H5 H6] & [Hh _] & Hl) & Ht & Hrec) Hr. rewrite Ht in H2, H3. rewrite Hrec in H4. split; [constructor|done]; try done.
  - intros t. rewrite <- H3. case_bool_decide; [set_solver|]. apply H2. set_solver.
  - intros _. rewrite H5, <- H4. unfold removals_due. by destruct dns.
  - destruct r; [done | by intros _ | by intros _; left].
Qed.

(** A step before the block that fails ends the order. *)
Lemma early_then {A B} (m : act A) (k : A -> act B) w : keeps Early m -> Early w ->
  (forall a w1, Early w1 -> m w = (Done a, w1) -> Ended (k a w1).1 (k a w1).2 /\ reports (w_log (k a w1).2) = []) ->
  Ended (andthen m k w).1 (andthen m k w).2 /\ reports (w_log (andthen m k w).2) = [].
Proof.
  intros Hm Hw Hk. specialize (Hm w Hw). unfold andthen. destruct (m w) as [[a|e|] w1] eqn:E; cbn [snd] in Hm;
    [by apply Hk | by apply Early_Ended..].
Qed.

Lemma stop_ok w : w_listening w = serving -> exists r w' new,
  (if serving then stop_server env else pure tt) w = (r, w') /\ later w w' new /\ w_listening w' = false
  /\ match r with Failed _ => False | _ => True end /\ removals new = [] /\ reports new = [] /\ w_records w' = w_records w.
Proof.
  intros Hl. destruct serving.
  - unfold stop_server, andthen, change, await. pose proof (later_log Stop80 (set_listening false w) eq_refl) as H.
    destruct (dropped env _); eexists _, _, _; by split_and!; [|exact H|..].
  - exists (Done tt), w, []. by split_and!; [|apply later_refl|..].
Qed.

Lemma order_release_ok d n w : dns = d -> Pre serving w ->
  let '(r, w') := order_and_release env pid fails torn acme tls shared d n w in Ended r w' /\ reports (w_log w') = [].
Proof.
  intros Hd Hw. pose proof (order_body_ok n w Hw) as Hb. unfold order_and_release. rewrite Hd in Hb.
  destruct (order_body env pid fails torn acme tls d n w) as [r w1]. cbn [fst snd] in Hb.
  assert (Hgo : over r = true -> let '(r', w') := andthen (if serving then stop_server env else pure tt) (fun _ =>
     andthen (match d with Some p => fun w => remove_all env p (w_records w) w | None => pure tt end) (fun _ w => (r, w))) (clear_tokens w1) in
     Ended r' w' /\ reports (w_log w') = []).
  { intros Ho. assert (Hl : w_listening (clear_tokens w1) = serving) by apply Hb.
    destruct (stop_ok _ Hl) as (r2 & w2 & n2 & E2 & Hlt & Hp & Hr2 & Hrm & Hrep & Hrecs). unfold andthen at 1. rewrite E2.
    assert (Hdrop : Ended (A := unit) Dropped w2 /\ reports (w_log w2) = []) by (eapply Ended_after; try done; by destruct r).
    destruct r2 as [[]| |]; [|done..]. unfold andthen. destruct d as [p|].
    - destruct (remove_all_ok p (w_records w2) w2) as (r3 & w3 & n3 & E3 & Hlt3 & Hp3 & Hr3 & Hrep3). rewrite E3.
      assert (Hlt13 := later_trans _ _ _ _ _ Hlt Hlt3). destruct r3 as [[]| |]; [|done|].
      + eapply Ended_after; [exact Hb | exact Hlt13 | congruence | | | by destruct r].
        * intros _. unfold removals in *. rewrite omap_app, Hrm, Hr3, Hrecs. unfold removals_due. by rewrite Hd.
        * unfold reports in *. by rewrite omap_app, Hrep, Hrep3.
      + eapply Ended_after; [exact Hb | exact Hlt13 | congruence | done | | by destruct r].
        unfold reports in *. by rewrite omap_app, Hrep, Hrep3.
    - cbn [pure]. eapply Ended_after; [exact Hb | exact Hlt | done | | done | by destruct r].
      intros _. rewrite Hrm. unfold removals_due. by rewrite Hd. }
  assert (Hs : serves_itself d shared = serving) by (unfold serving; by rewrite Hd). rewrite Hs.
  destruct r; [by apply Hgo | by apply Hgo|]. eapply (Ended_after _ _ _ _ []); [exact Hb | | done..].
  split_and!; [by rewrite app_nil_r | constructor | done..].
Qed.

Lemma run_order_ok replaces w : Fresh w ->
  let '(r, w') := run_order env client_builds credentials_ok pid fails torn acme tls shared dns replaces w in
  Ended r w' /\ reports (w_log w') = [].
Proof.
  intros [H1 H2 H3 H4 H5 H6 H7 H8]. unfold run_order, andthen at 1, change. set (w0 := set_tokens [] _).
  assert (Hw0 : Early w0).
  { split; [|done]. split_and!; [constructor| |]; cbn; try (by destruct shared). intros t _. rewrite H8. by destruct shared. }
  match goal with |- let '(_, _) := ?x in _ => enough (Ended x.1 x.2 /\ reports (w_log x.2) = []) by (by destruct x) end.
  apply early_then; [apply keeps_account; [apply Early_log | apply Early_disk] | done |]. intros _ w1 Hw1 _.
  apply early_then; [apply keeps_new_order, Early_log | done |]. intros n w2 Hw2 _.
  assert (Hgo : forall w, Pre serving w -> let x := order_and_release env pid fails torn acme tls shared dns n w in
            Ended x.1 x.2 /\ reports (w_log x.2) = []).
  { intros w3 Hw3. pose proof (order_release_ok dns n w3 eq_refl Hw3) as H. cbv zeta. by destruct (order_and_release _ _ _ _ _ _ _ _ _ _). }
  fold serving. revert Hgo. destruct serving; intros Hgo; [|by apply Hgo, Hw2].
  unfold spawn_challenge_server, andthen at 1 3 5. destruct (call_case Bind80 (bind_reply env) w2) as (r & E & Hr).
  unfold andthen. rewrite E. pose proof (Early_log Bind80 w2 eq_refl Hw2) as Hw3. destruct r as [[]|e|]; [|by apply Early_Ended..].
  apply Hgo. destruct Hw3 as ((Hi & Hd & _) & _). split_and!; [|apply Hd..|done]. destruct Hi. by constructor.
Qed.

(** The report of a lease changes nothing. *)
Lemma Ended_report {A B} (r : out A) (r' : out B) w id o : Ended r w -> match r, r' with Done _, Done _ | Failed _, Failed _ | _, Dropped => True | _, _ => False end ->
  Ended r' (log (LeaseReported id o) w).
Proof.
  intros [H1 H2 H3 H4 H5] Hr. pose proof (later_log (LeaseReported id o) w eq_refl) as Hlt.
  assert (Hst : stored r' (log (LeaseReported id o) w)) by (eapply stored_later; [exact Hlt | exact H5 | exact Hr]).
  destruct Hlt as (Hl & Hf & Hm & _). constructor; rewrite ?Hl; [by apply log_ok_idle| |done| |done].
  - intros t. by rewrite Hm, tokens_idle.
  - intros Ho. rewrite made_idle by done. unfold removals in *. rewrite omap_app, H4 by (by destruct r, r'). by rewrite app_nil_r.
Qed.
End Laws.

(** ** What an order never touches *)

(** An order adds to the log and leaves the ledger alone. *)
Section Frame.
Variable env : Env.
Variable client_builds : OutboundCfg -> bytes -> bytes -> PublicRoots -> result unit.
Variable credentials_ok : bytes -> bool.
Variable pid : bytes.
Variable fails : nat -> bool.
Variable torn : nat -> nat.
Variable I : World -> Prop.
Hypothesis Ilog : forall e w, I w -> I (log e w).
Hypothesis Iset : forall w w', w_log w' = w_log w -> w_ledger w' = w_ledger w -> I w -> I w'.
Hint Resolve Ilog : acme.

Lemma frame_disk {A} (m : io A) : keeps I (on_disk m).
Proof. apply keeps_disk. intros w. by apply Iset. Qed.

Lemma frame_change g : (forall w, w_log (g w) = w_log w /\ w_ledger (g w) = w_ledger w) -> keeps I (change g).
Proof. intros H. apply keeps_change. intros w. by apply Iset; apply H. Qed.

Lemma frame_authorize acme dns az : keeps I (authorize env acme dns az).
Proof.
  unfold authorize, dns_publish. repeat case_match;
    repeat (first [apply keeps_pure | apply keeps_fail | apply keeps_of_result | apply keeps_call; by auto | apply keeps_await; by auto
                  | by apply frame_change | apply keeps_andthen; [|intros ?]]).
Qed.

Lemma frame_order_body acme tls dns n : keeps I (order_body env pid fails torn acme tls dns n).
Proof.
  apply keeps_andthen.
  - induction n as [|n IH]; [apply keeps_pure|]. apply keeps_andthen; [by eauto with acme|]. intros az.
    apply keeps_andthen; [apply frame_authorize | done].
  - intros _. apply keeps_andthen; [by eauto with acme|]. intros status. destruct (negb _); [apply keeps_fail|].
    do 2 (apply keeps_andthen; [by eauto with acme|]; intros ?). apply keeps_andthen; [apply frame_disk | intros; apply keeps_of_result].
Qed.

Lemma frame_remove_all p rs : keeps I (remove_all env p rs).
Proof.
  induction rs as [|r rs IH]; [apply keeps_pure|]. apply keeps_andthen; [|done]. unfold dns_remove.
  destruct (remove_request p r); eauto with acme.
Qed.

Lemma frame_run_order acme tls shared dns replaces : keeps I (run_order env client_builds credentials_ok pid fails torn acme tls shared dns replaces).
Proof.
  apply keeps_andthen; [apply frame_change; by destruct shared|]. intros _.
  apply keeps_andthen; [apply keeps_account; [by auto | intros; apply frame_disk]|]. intros _.
  apply keeps_andthen; [apply keeps_new_order; by auto|]. intros n. apply keeps_andthen.
  { destruct (serves_itself dns shared); [|apply keeps_pure]. apply keeps_andthen; [by eauto with acme|]. intros _. by apply frame_change. }
  intros _ w Hw. unfold order_and_release. pose proof (frame_order_body acme tls dns n w Hw) as H1.
  destruct (order_body _ _ _ _ _ _ _ _ w) as [r w1]. cbn [snd] in H1.
  assert (H2 : I (clear_tokens w1)) by (by apply (Iset w1)).
  assert (Hrel : forall r : out unit, keeps I (andthen (if serves_itself dns shared then stop_server env else pure tt) (fun _ =>
    andthen (match dns with Some p => fun w => remove_all env p (w_records w) w | None => pure tt end) (fun _ w => (r, w))))).
  { intros r0. apply keeps_andthen; [|intros _; apply keeps_andthen; [|by intros _ w' Hw']].
    - destruct (serves_itself dns shared); [|apply keeps_pure]. apply keeps_andthen; [by apply frame_change|]. eauto with acme.
    - destruct dns as [p|]; [|apply keeps_pure]. intros w'. apply frame_remove_all. }
  destruct r; [by apply Hrel | by apply Hrel | by apply (Iset (clear_tokens w1))].
Qed.
End Frame.

(** ** The decision, and the whole of it *)

Section Obtain.
Variable env : Env.
Variable client_builds : OutboundCfg -> bytes -> bytes -> PublicRoots -> result unit.
Variable getenv : bytes -> option bytes.
Variable credentials_ok : bytes -> bool.
Variable pid : bytes.
Variable fails : nat -> bool.
Variable torn : nat -> nat.
Variables (acme : AcmeSection) (tls : TlsPaths) (cp shared : bool) (replaces : option AriId).

Abbreviation obtain := (obtain_certificate_replacing env client_builds getenv credentials_ok pid fails torn acme tls cp shared replaces).
Abbreviation run := (run_order env client_builds credentials_ok pid fails torn acme tls shared).

(** A lease is asked for in managed mode, before anything else. *)
Definition asked w : World := if cp then log (LeaseAsked (directory_url (order_cfg acme)) (domains (order_cfg acme))) w else w.

(** The verdict there, and the ledger after it. *)
Definition verdict_at w : BudgetVerdict * option (gmap bytes Z) :=
  let '(now, now', persist_ok) := budget_clock env (w_log w) in
  check_budget (order_cfg acme) (if cp then Some (acme_lease (lease_reply env (w_log w))) else None) now now' persist_ok (w_ledger w).

Lemma ask_budget_eq w : ask_budget env acme cp w =
  if cp && dropped env (w_log (asked w)) then (Dropped, asked w) else (Done (verdict_at (asked w)).1, set_ledger (verdict_at (asked w)).2 (asked w)).
Proof.
  unfold ask_budget, asked, verdict_at, andthen, await, pure. destruct cp; cbn [andb].
  - destruct (dropped env _); [done|]. destruct (budget_clock env _) as [[now now'] ok]. by destruct (check_budget _ _ _ _ _ _).
  - destruct (budget_clock env _) as [[now now'] ok]. by destruct (check_budget _ _ _ _ _ _).
Qed.

(** What is reported of a lease. *)
Definition reports_due {A} (lease : option bytes) (r : out A) : list (bytes * bytes) :=
  match lease with
  | Some id => if cp && negb (beq id []) then [(id, match r with Done _ => lit "issued" | _ => lit "failed" end)] else []
  | None => []
  end.

Lemma obtain_eq dns w : preflight client_builds getenv acme tls = Ok dns ->
  obtain w =
    if cp && dropped env (w_log (asked w)) then (Dropped, asked w)
    else match (verdict_at (asked w)).1 with
         | Refuse i => (Done i, set_ledger (verdict_at (asked w)).2 (asked w))
         | SendOrder lease =>
             match run dns replaces (set_ledger (verdict_at (asked w)).2 (asked w)) with
             | (Dropped, w) => (Dropped, w)
             | (r, w) =>
                 let r' := match r with Done _ => Done Issued | Failed e => Failed e | Dropped => Dropped end in
                 match reports_due lease r with
                 | [(id, o)] => let w := log (LeaseReported id o) w in if dropped env (w_log w) then (Dropped, w) else (r', w)
                 | _ => (r', w)
                 end
             end
         end.
Proof.
  intros Hp. unfold obtain_certificate_replacing, andthen at 1. rewrite Hp. cbn [of_result pure]. unfold andthen at 1. rewrite ask_budget_eq.
  destruct (cp && dropped env (w_log (asked w))); [done|]. destruct (verdict_at (asked w)).1 as [lease|i]; [|done].
  destruct (run dns replaces _) as [[[]|e|] w1]; [| |done]; (destruct lease as [id|]; [|done]); unfold reports_due, acme_lease_outcome, await, andthen;
    (destruct cp; [|done]); (destruct (beq id []); cbn [andb negb]; [done|]); by destruct (dropped env _).
Qed.

(** ** From the start *)

Variables (f : Fs) (ledger : option (gmap bytes Z)) (map : gmap bytes bytes) (dns : option DnsProvider).

(** The pair and what may lie beside it. *)
Definition paths_apart : Prop :=
  NoDup [cert_path tls; key_path tls; tmp_path pid (cert_path tls); tmp_path pid (key_path tls); backup_path pid (cert_path tls)]
  /\ creds_path acme <> cert_path tls /\ creds_path acme <> key_path tls.

(** An order that does not share the map of the redirect listener starts with an empty one. *)
Definition start : World := mkWorld (disk_of f) ledger (if shared then map else ∅) false [] [] [].

Abbreviation c0 := (f !! cert_path tls).
Abbreviation k0 := (f !! key_path tls).
Abbreviation map0 := (if shared then map else ∅).
Abbreviation Ended := (Ended env fails acme tls shared dns c0 k0 map0).

(** The files, by how it ended. *)
Definition files_after (r : out Issuance) w : Prop :=
  match r with
  | Done Issued => issued env tls w
  | Done (Deferred _ _ _ _) => fs (w_disk w) = f
  | Failed _ => once fails -> fs (w_disk w) !! cert_path tls = c0 /\ fs (w_disk w) !! key_path tls = k0
  | Dropped => once fails -> (fs (w_disk w) !! cert_path tls = c0 /\ fs (w_disk w) !! key_path tls = k0) \/ issued env tls w
  end.

Lemma asked_fresh g : Fresh env acme tls shared dns c0 k0 map0 (set_ledger g (asked start)).
Proof.
  unfold asked. destruct cp; constructor; cbn; try done; try (by destruct shared);
    intros pre m post E; [|by destruct pre]. destruct pre as [|x [|]]; [|by destruct post..]. by injection E as <-.
Qed.

Lemma asked_ended {A} g (r : out A) : match r with Done _ => False | _ => True end ->
  Ended r (set_ledger g (asked start)) /\ reports (w_log (set_ledger g (asked start))) = [].
Proof.
  intros Hr. destruct (asked_fresh g) as [H1 H2 H3 H4 H5 H6 H7 H8]. split; [constructor|done]; try done.
  - intros t. rewrite H2, bool_decide_false by set_solver. unfold asked. by destruct cp.
  - intros _. rewrite H3, H4. unfold removals_due. by destruct dns.
  - unfold asked. destruct cp, r; try done; cbn; tauto.
Qed.

Lemma reports_due_cases {A} lease (r : out A) : reports_due lease r = [] \/ exists id o, reports_due lease r = [(id, o)].
Proof. unfold reports_due. destruct lease as [id|]; [|by left]. destruct (cp && _); [right; by eexists _, _ | by left]. Qed.

Lemma verdict_at_refuse w i : (verdict_at w).1 = Refuse i -> exists b k t src, i = Deferred b k t src.
Proof.
  unfold verdict_at, check_budget. intros H. repeat case_match; cbn [fst] in H; simplify_eq; eauto.
Qed.

(** Everything, by how it ended. *)
Definition all_of (r : out Issuance) w : Prop :=
  log_ok env acme tls shared dns c0 k0 (w_log w) /\ files_after r w
  /\ (forall t, w_map w !! t = if bool_decide (t ∈ tokens_of (w_log w)) then None else map0 !! t)
  /\ w_listening w = false
  /\ (over r = true -> removals (w_log w) = removals_due dns (made env dns [] (w_log w))
        /\ reports (w_log w) = match (verdict_at (asked start)).1 with SendOrder lease => reports_due lease r | Refuse _ => [] end).

Lemma obtain_all : paths_apart -> preflight client_builds getenv acme tls = Ok dns -> all_of (obtain start).1 (obtain start).2.
Proof.
  intros [Hp Hc] Hpre. rewrite (obtain_eq dns start Hpre).
  destruct (cp && dropped env (w_log (asked start))) eqn:Hdrop.
  { destruct (asked_ended (A := unit) (w_ledger (asked start)) Dropped) as [[H1 H2 H3 H4 H5] H6]; [done|]. unfold all_of.
    assert (set_ledger (w_ledger (asked start)) (asked start) = asked start) as Eq by (by destruct (asked start)). rewrite Eq in *. by split_and!. }
  destruct (verdict_at (asked start)).1 as [lease|i] eqn:Hv.
  - pose proof (run_order_ok env client_builds credentials_ok pid fails torn acme tls shared dns c0 k0 map0 Hc Hp replaces _
      (asked_fresh (verdict_at (asked start)).2)) as Hrun.
    destruct (run dns replaces _) as [r w]. destruct Hrun as [He Hrep].
    pose proof (fun A B => Ended_report env credentials_ok pid fails acme tls shared dns c0 k0 map0 Hc (A := A) (B := B)) as Her.
    assert (Hall : forall (r0 : out Issuance) w', Ended r0 w' -> match r0 with Done (Deferred _ _ _ _) => False | _ => True end ->
              (over r0 = true -> reports (w_log w') = reports_due lease r0) -> all_of r0 w').
    { intros r0 w' [H1 H2 H3 H4 H5] Hr0 Hrep'. unfold all_of. rewrite Hv. split_and!; try done; [|by intros Ho; auto].
      by destruct r0 as [[]| |]. }
    assert (Hgo : over r = true -> let r' := match r with Done _ => Done Issued | Failed e => Failed e | Dropped => Dropped end in
      let x := match reports_due lease r with
               | [(id, o)] => if dropped env (w_log (log (LeaseReported id o) w)) then (Dropped, log (LeaseReported id o) w)
                              else (r', log (LeaseReported id o) w)
               | _ => (r', w)
               end in all_of x.1 x.2).
    { intros Ho r'. assert (Hdue : reports_due lease r = reports_due lease r') by (by destruct r, lease).
      assert (Hnd : match r' with Done (Deferred _ _ _ _) => False | _ => True end) by (by destruct r).
      assert (Hpl : match r, r' with Done _, Done _ | Failed _, Failed _ | _, Dropped => True | _, _ => False end) by (by destruct r).
      destruct (reports_due_cases lease r) as [E|(id & o & E)]; rewrite E; cbv zeta.
      - apply Hall; [|done|intros _; cbn [fst snd]; by rewrite Hrep, <- E, Hdue]. destruct He as [E1 E2 E3 E4 E5]. constructor; try done; [by intros _; apply E4 | by destruct r].
      - assert (He' : Ended r' (log (LeaseReported id o) w)) by (eapply Her; [exact He | exact Hpl]).
        destruct (dropped env (w_log (log (LeaseReported id o) w))).
        + apply Hall; [|exact I|done]. eapply Her; [exact He | by destruct r].
        + apply Hall; [exact He' | exact Hnd |]. intros _. cbn [w_log log snd]. unfold reports in *. rewrite omap_app, Hrep. cbn [fst]. by rewrite <- Hdue, E. }
    destruct r as [[]|e|]; [by apply Hgo | by apply Hgo |]. apply Hall; [|done|done]. destruct He. by constructor.
  - unfold all_of. rewrite Hv. destruct (asked_fresh (verdict_at (asked start)).2) as [H1 H2 H3 H4 H5 H6 H7 H8].
    split_and!; [done| | |done|].
    + cbn [fst snd files_after]. pose proof (verdict_at_refuse _ _ Hv) as (b & k & t & src & ->). cbn. unfold asked. by destruct cp.
    + intros t. cbn [snd]. rewrite H2, bool_decide_false by set_solver. unfold asked. by destruct cp.
    + intros _. split; [|done]. cbn [snd]. rewrite H3, H4. unfold removals_due. by destruct dns.
Qed.

(** ** The theorems *)

(** C27.  Whenever the CA is told that a challenge is ready, it finds it answered: over HTTP, whoever asks port 80 for the
    token is told the key authorization, by the order's own listener or the redirect listener; over DNS, the record
    was published for that name, the provider confirmed it, and the configured time has passed.  The pair on disk is
    the old one at every call to the CA; an order that ends well leaves exactly the chain and the key the CA gave for
    an order it called ready, the key its owner's alone; a failed one leaves the pair as it was, two disk faults aside. *)
Theorem acme_answers_challenges : paths_apart -> preflight client_builds getenv acme tls = Ok dns ->
  log_ok env acme tls shared dns c0 k0 (w_log (obtain start).2) /\ files_after (obtain start).1 (obtain start).2.
Proof. intros Hp Hd. by destruct (obtain_all Hp Hd) as (H1 & H2 & _). Qed.

(** C38.  However an order ends, dropped where it waits included, nobody answers for its tokens any more, the tokens of
    others are as they were, and its listener on port 80 is gone; unless it was dropped, the removal of every record
    whose publication the provider confirmed has been asked for, once, and the control plane has been told once how the
    leased order ended.  A record whose publication was not confirmed, made though it may have been, is not asked away. *)
Theorem acme_leaves_nothing : paths_apart -> preflight client_builds getenv acme tls = Ok dns ->
  let r := (obtain start).1 in let w := (obtain start).2 in
  (forall t, w_map w !! t = if bool_decide (t ∈ tokens_of (w_log w)) then None else map0 !! t)
  /\ w_listening w = false
  /\ (over r = true -> removals (w_log w) = removals_due dns (made env dns [] (w_log w))
        /\ reports (w_log w) = match (verdict_at (asked start)).1 with SendOrder lease => reports_due lease r | Refuse _ => [] end).
Proof. intros Hp Hd. by destruct (obtain_all Hp Hd) as (_ & _ & H). Qed.

Lemma refused_ledger w i : (verdict_at w).1 = Refuse i -> (verdict_at w).2 = w_ledger w.
Proof. unfold verdict_at, check_budget. intros H. repeat case_match; cbn [fst snd] in *; by simplify_eq. Qed.

(** Nothing is asked of the CA before it may be: settings that cannot work, a wildcard without DNS among them, end it
    with nothing sent, written or spent; a refusal sends nothing but the question for the lease and spends nothing;
    and at every later moment of an order that is sent, the ledger on disk is the one the order has been debited in. *)
Theorem acme_asks_first :
  match preflight client_builds getenv acme tls with
  | Err e => obtain start = (Failed e, start)
  | Ok d =>
      (existsb (fun x => starts_with (trim x) (lit "*.")) (domains (order_cfg acme)) = true -> is_Some d)
      /\ match (verdict_at (asked start)).1 with
         | Refuse i => (obtain start).2 = asked start /\ (obtain start).1 = (if cp && dropped env (w_log (asked start)) then Dropped else Done i)
         | SendOrder _ => exists new, w_log (obtain start).2 = w_log (asked start) ++ new
                          /\ Forall (fun m => booked m = (verdict_at (asked start)).2) new
         end
  end.
Proof.
  destruct (preflight client_builds getenv acme tls) as [d|e] eqn:Hp.
  2:{ unfold obtain_certificate_replacing, andthen. by rewrite Hp. }
  split.
  { unfold preflight in Hp. intros Hw. run_inv Hp. rewrite Hw, orb_false_r in He2. subst v. run_inv Hp. subst d. by eexists. }
  rewrite (obtain_eq d start Hp). destruct (verdict_at (asked start)).1 as [lease|i] eqn:Hv.
  - destruct (cp && dropped env (w_log (asked start))); [exists []; by rewrite app_nil_r|].
    set (I w := w_ledger w = (verdict_at (asked start)).2
       /\ exists new, w_log w = w_log (asked start) ++ new /\ Forall (fun m => booked m = (verdict_at (asked start)).2) new).
    assert (Ilog : forall e w, I w -> I (log e w)).
    { intros e w (H1 & new & H2 & H3). split; [done|]. eexists. cbn [w_log log]. rewrite H2, <- app_assoc. split; [done|].
      apply Forall_app. split; [done|]. by constructor. }
    assert (Hrun : I (run d replaces (set_ledger (verdict_at (asked start)).2 (asked start))).2).
    { apply (frame_run_order env client_builds credentials_ok pid fails torn I); [done| |].
      - intros w w' H1 H2 (H3 & H4). unfold I. by rewrite H1, H2.
      - split; [done|]. exists []. by rewrite app_nil_r. }
    destruct (run d replaces _) as [r w]. cbn [snd] in Hrun.
    assert (Hend : forall r0 : out Issuance, I (match reports_due lease r with
       | [(id, o)] => if dropped env (w_log (log (LeaseReported id o) w)) then (Dropped, log (LeaseReported id o) w) else (r0, log (LeaseReported id o) w)
       | _ => (r0, w)
       end).2).
    { intros r0. destruct (reports_due lease r) as [|[id o] [|]]; [done| |done]. destruct (dropped env _); by apply Ilog. }
    destruct r; [by apply (Hend (Done Issued)) | by apply (Hend (Failed e)) | apply Hrun].
  - rewrite (refused_ledger _ _ Hv). assert (set_ledger (w_ledger (asked start)) (asked start) = asked start) as -> by (by destruct (asked start)).
    by destruct (cp && dropped env _).
Qed.
End Obtain.

(** ** Two orders *)

Definition sample_challenge : Challenge := mkChallenge (lit "tok") (lit "tok.thumb") (lit "digest").
Definition sample_acme (kind : bytes) : AcmeSection :=
  mkAcmeSection (mkAcmeCfg (lit "https://ca.example/dir") [lit "a.example"] true) [] (lit "acme") true kind
    (mkAcmeDnsCfg (lit "challtestsrv") [] [] [] (lit "http://dns.example/") 30 (mkOutboundCfg [] [] [] [] (mkDefaults [] [] [] [] [])))
    (mkOutboundCfg [] [] [] [] (mkDefaults [] [] [] [] [])).
Definition sample_tls : TlsPaths := mkTlsPaths (lit "c.pem") (lit "k.pem").

(** A CA that issues, and a control plane that grants. *)
Definition sample_env : Env :=
  mkEnv (fun _ => false) (fun _ => Answer 200 (Some (mkLeaseResp (lit "granted") (Some (lit "L1")) None None None))) (fun _ => (1000000, 1000000, true))
    (fun _ => Ok tt) (fun _ => Ok (Some (lit "{}"))) (fun _ => Ok 1%nat)
    (fun _ => Ok (mkAuthorization APending (IdDns (lit "a.example")) (Some sample_challenge) (Some sample_challenge)))
    (fun _ => Ok tt) (fun _ => Ok OReady) (fun _ => Ok (lit "KEY")) (fun _ => Ok (lit "CHAIN")) (fun _ => RenewalUnsupported)
    (fun _ => Answer 200 None) (fun _ => Ok tt).

Definition sample_obtain (kind : bytes) (w : World) : out Issuance * World :=
  obtain_certificate_replacing sample_env (fun _ _ _ _ => Ok tt) (fun _ => None) (fun _ => true) (lit "7") (fun _ => false) (fun _ => 0%nat)
    (sample_acme kind) sample_tls true false None w.
Definition sample_start : World := start false ∅ None ∅.

Lemma sample_paths kind : paths_apart (lit "7") (sample_acme kind) sample_tls.
Proof. split; [apply (bool_decide_eq_true_1 (NoDup _)); vm_compute; reflexivity | by vm_compute]. Qed.

(** Issued over HTTP: the one challenge was answered while the order's own listener ran. *)
Lemma acme_answers_challenges_witness :
  (sample_obtain (lit "http-01") sample_start).1 = Done Issued
  /\ fs (w_disk (sample_obtain (lit "http-01") sample_start).2) !! lit "c.pem" = Some (mkFile (lit "CHAIN") false)
  /\ log_ok sample_env (sample_acme (lit "http-01")) sample_tls false None None None (w_log (sample_obtain (lit "http-01") sample_start).2).
Proof.
  split; [vm_compute; reflexivity|]. split; [vm_compute; reflexivity|].
  exact (proj1 (acme_answers_challenges sample_env (fun _ _ _ _ => Ok tt) (fun _ => None) (fun _ => true) (lit "7") (fun _ => false) (fun _ => 0%nat)
    (sample_acme (lit "http-01")) sample_tls true false None ∅ None ∅ None (sample_paths _) eq_refl)).
Defined.

(** Issued over DNS: the record is taken out again, and the lease reported. *)
Lemma acme_leaves_nothing_witness :
  removals (w_log (sample_obtain (lit "dns-01") sample_start).2)
  = [(mkTxtRecord (lit "_acme-challenge.a.example") None,
      mkDnsRequest (lit "POST") (lit "http://dns.example/clear-txt") None (Some (JObj [(lit "host", JStr (lit "_acme-challenge.a.example."))])))]
  /\ reports (w_log (sample_obtain (lit "dns-01") sample_start).2) = [(lit "L1", lit "issued")].
Proof.
  destruct (proj2 (proj2 (acme_leaves_nothing sample_env (fun _ _ _ _ => Ok tt) (fun _ => None) (fun _ => true) (lit "7") (fun _ => false)
    (fun _ => 0%nat) (sample_acme (lit "dns-01")) sample_tls true false None ∅ None ∅ (Some (ChallTestSrv (lit "http://dns.example")))
    (sample_paths _) eq_refl))) as [H1 H2]; [vm_compute; reflexivity|].
  split; [etransitivity; [exact H1 | vm_compute; reflexivity] | etransitivity; [exact H2 | vm_compute; reflexivity]].
Defined.
