(* ===== verification/Supervisor.v ===== *)
(** * Supervisor: running the wrapped application ([src/src/supervisor.rs])

    The supervisor starts the application, restarts it when it exits, and ends it on shutdown.  It is a machine of
    the steps between its awaits; the application (a process that may fork, exit, leave children behind, some of
    them in sessions of their own), the clock and the request to shut down move between them as they like.  On
    Unix: the application is the leader of its own process group, which a negative pid signals as a whole;
    whoever left the group is not reached, and whoever is killed dies in its own time.  The
    application runs as the supervisor's own user, whom it may signal, and its exit is waited for without error. *)

From S2P Require Import Prelude Text.

Definition INITIAL_BACKOFF : Z := 500.
Definition MAX_BACKOFF : Z := 10000.
Definition GRACE : Z := 10000.

Definition next_backoff (b : Z) : Z := Z.min (b * 2) MAX_BACKOFF.

(** What [build_command] runs, and the environment it adds. *)
Definition build_command (cmd : bytes) (app_port : Z) : list bytes * list (bytes * bytes) :=
  ([lit "sh"; lit "-c"; cmd], [(lit "PORT", dec app_port); (lit "HOST", lit "127.0.0.1")]).

(** A run of the application: whether the leader of its group lives, and how many others of the group do; whether
    the group was sent [SIGKILL], which its processes cannot survive, fork or leave under; and how many of its
    processes have left the group ([setsid]). *)
Record Group : Type := mkGroup { leader : bool; others : nat; doomed : bool; escaped : nat }.
Definition doom (g : Group) : Group := mkGroup (leader g) (others g) true (escaped g).

Inductive Signal : Type := SIGTERM | SIGKILL.

(** Where the supervisor is: about to look at the request, waiting to restart, waiting for the application to exit,
    waiting for it to end after the signal, having killed it, or done. *)
Inductive Phase : Type :=
| Top | Waiting (until : Z) | Running (pid : nat) | Terminating (pid : nat) (until : Z) | Killed (pid : nat) | Stopped.

(** Milliseconds; groups by pid, a pid never used twice; [sent]: every signal so far. *)
Record Sup : Type := mkSup {
  now : Z; requested : bool; phase : Phase; backoff : Z; groups : list Group; sent : list (nat * Signal); starts : list Z
}.

Definition init : Sup := mkSup 0 false Top INITIAL_BACKOFF [] [] [].

(** [libc::kill(-pid, SIGKILL)], to all that are in the group now. *)
Definition kill_group (pid : nat) (s : Sup) : Sup :=
  mkSup (now s) (requested s) (phase s) (backoff s) (alter doom pid (groups s)) (sent s ++ [(pid, SIGKILL)]) (starts s).
(** [libc::kill(-pid, SIGTERM)]: what it makes of the group is the application's affair. *)
Definition term_group (pid : nat) (s : Sup) : Sup :=
  mkSup (now s) (requested s) (phase s) (backoff s) (groups s) (sent s ++ [(pid, SIGTERM)]) (starts s).
Definition go (p : Phase) (s : Sup) : Sup :=
  mkSup (now s) (requested s) p (backoff s) (groups s) (sent s) (starts s).
Definition grow (s : Sup) : Sup :=
  mkSup (now s) (requested s) (phase s) (next_backoff (backoff s)) (groups s) (sent s) (starts s).

(** [Command::spawn] worked: a new group with its leader. *)
Definition spawned (s : Sup) : Sup :=
  mkSup (now s) (requested s) (Running (length (groups s))) (backoff s) (groups s ++ [mkGroup true 0 false 0]) (sent s) (starts s ++ [now s]).

Definition leads (s : Sup) (pid : nat) : bool := match groups s !! pid with Some g => leader g | None => false end.

(** The supervisor's own steps; [ok] says whether the next spawn works. *)
Inductive own : Sup -> Sup -> Prop :=
| own_top_stop s : phase s = Top -> requested s = true -> own s (go Stopped s)
| own_top_spawn s : phase s = Top -> requested s = false -> own s (spawned s)
| own_top_fail s : phase s = Top -> requested s = false -> own s (go (Waiting (now s + backoff s)) s)
| own_wait_over s t : phase s = Waiting t -> t <= now s -> requested s = false -> own s (grow (go Top s))
| own_wait_stop s t : phase s = Waiting t -> requested s = true -> own s (go Stopped s)
| own_exit_stop s pid : phase s = Running pid -> leads s pid = false -> requested s = true -> own s (go Stopped s)
| own_exit s pid : phase s = Running pid -> leads s pid = false -> requested s = false ->
    own s (go (Waiting (now s + backoff s)) (kill_group pid s))
| own_terminate s pid : phase s = Running pid -> requested s = true -> own s (go (Terminating pid (now s + GRACE)) (term_group pid s))
| own_ended s pid t : phase s = Terminating pid t -> leads s pid = false -> own s (go Stopped s)
| own_overdue s pid t : phase s = Terminating pid t -> t <= now s -> own s (go (Killed pid) (kill_group pid s))
| own_reaped s pid : phase s = Killed pid -> leads s pid = false -> own s (go Stopped s).

(** When the supervisor has to act, if ever, without anything else happening. *)
Definition due (s : Sup) : option Z :=
  match phase s with
  | Top => Some (now s)
  | Killed pid => if leads s pid then None else Some (now s)
  | Waiting t => Some (if requested s then now s else t)
  | Running pid => if requested s || negb (leads s pid) then Some (now s) else None
  | Terminating pid t => Some (if leads s pid then t else now s)
  | Stopped => None
  end.

(** What becomes of a run's processes: they exit; somebody of the group forks, or leaves it, unless the group was
    killed; those that left come and go. *)
Inductive changes : Group -> Group -> Prop :=
| ch_leader l o d x : changes (mkGroup l o d x) (mkGroup false o d x)
| ch_exit l o d x : changes (mkGroup l (S o) d x) (mkGroup l o d x)
| ch_fork l o x : l = true \/ o <> 0%nat -> changes (mkGroup l o false x) (mkGroup l (S o) false x)
| ch_leave l o x : changes (mkGroup l (S o) false x) (mkGroup l o false (S x))
| ch_escaped l o d x x' : (x = 0%nat -> x' = 0%nat) -> changes (mkGroup l o d x) (mkGroup l o d x').

(** Everything else: a request, time (never past the moment the supervisor must act), and processes. *)
Inductive world : Sup -> Sup -> Prop :=
| w_request s : world s (mkSup (now s) true (phase s) (backoff s) (groups s) (sent s) (starts s))
| w_tick s dt : 0 <= dt -> (forall t, due s = Some t -> now s + dt <= Z.max t (now s)) ->
    world s (mkSup (now s + dt) (requested s) (phase s) (backoff s) (groups s) (sent s) (starts s))
| w_process s pid g g' : groups s !! pid = Some g -> changes g g' ->
    world s (mkSup (now s) (requested s) (phase s) (backoff s) (<[pid := g']> (groups s)) (sent s) (starts s)).

Definition step (s s' : Sup) : Prop := own s s' \/ world s s'.

(** ** One application at a time *)

(** The group the supervisor is busy with. *)
Definition current (s : Sup) : option nat :=
  match phase s with Running pid | Terminating pid _ | Killed pid => Some pid | Top | Waiting _ | Stopped => None end.

(** A run that is over: its leader has exited and what is left of its group has been killed. *)
Definition over (g : Group) : Prop := leader g = false /\ doomed g = true.

(** Every run but the current one is over (until the supervisor stops), no leader outlives it. *)
Record alone (s : Sup) : Prop := mkAlone {
  al_over : phase s <> Stopped -> forall pid g, groups s !! pid = Some g -> current s <> Some pid -> over g;
  al_leader : phase s = Stopped -> forall pid g, groups s !! pid = Some g -> leader g = false;
  al_killed : forall pid g, phase s = Killed pid -> groups s !! pid = Some g -> doomed g = true;
  al_sent : forall pid g, groups s !! pid = Some g -> doomed g = true -> (pid, SIGKILL) ∈ sent s;
  al_current : forall pid, current s = Some pid -> (pid < length (groups s))%nat;
  al_backoff : INITIAL_BACKOFF <= backoff s <= MAX_BACKOFF
}.

Lemma alone_init : alone init.
Proof. by constructor; cbn; try (intros; lia); intros; rewrite ?lookup_nil in *. Qed.

Lemma next_backoff_ok b : INITIAL_BACKOFF <= b <= MAX_BACKOFF -> INITIAL_BACKOFF <= next_backoff b <= MAX_BACKOFF.
Proof. unfold next_backoff, INITIAL_BACKOFF, MAX_BACKOFF. lia. Qed.

Lemma leads_false s pid g : leads s pid = false -> groups s !! pid = Some g -> leader g = false.
Proof. unfold leads. intros H Hg. by rewrite Hg in H. Qed.

(** The dead stay dead, and a killed group only shrinks. *)
Lemma changes_kept g g' : changes g g' ->
  (leader g = false -> leader g' = false) /\ doomed g' = doomed g /\ (doomed g = true -> (others g' <= others g)%nat).
Proof. destruct 1; cbn; repeat split; try done; lia. Qed.

(** Stopping with the current group's leader dead. *)
Lemma alone_stop s : alone s -> (forall pid, current s = Some pid -> leads s pid = false) -> phase s <> Stopped -> alone (go Stopped s).
Proof.
  intros [H1 H2 H3 H4 H5 H6] Hl Hp. constructor; try done. intros _ pid g Hg. cbn [groups go] in Hg.
  destruct (decide (current s = Some pid)) as [E|E]; [by eapply leads_false; [apply Hl|]|]. by apply (H1 Hp pid g Hg E).
Qed.

Lemma alter_doom pid (l : list Group) q g : alter doom pid l !! q = Some g ->
  (q <> pid /\ l !! q = Some g) \/ (q = pid /\ exists g0, l !! pid = Some g0 /\ g = doom g0).
Proof.
  destruct (decide (q = pid)) as [->|Hne]; [|rewrite list_lookup_alter_ne by done; by left].
  rewrite list_lookup_alter_eq. intros (g0 & Hg & ->)%fmap_Some. right. eauto.
Qed.

Lemma alone_kill s pid p : alone s -> phase s <> Stopped -> current s = Some pid ->
  p = Killed pid \/ ((exists t, p = Waiting t) /\ leads s pid = false) -> alone (go p (kill_group pid s)).
Proof.
  intros [H1 H2 H3 H4 H5 H6] Hs Hc Hp. assert (Hlen := H5 pid Hc).
  constructor; cbn [phase groups go kill_group current backoff sent]; try done.
  - intros _ q g Hq Hne. apply alter_doom in Hq as [[Hqp Hq]|(-> & g0 & Hg & ->)]; [apply (H1 Hs q g Hq); congruence|].
    destruct Hp as [->|[[t ->] Hl]]; [done|]. split; [|done]. cbn. by eapply leads_false.
  - intros Hst. by destruct Hp as [->|[[t ->] _]].
  - intros q g Hq Hg. apply alter_doom in Hg as [[Hqp Hg]|(-> & g0 & Hg & ->)]; [|done].
    destruct Hp as [->|[[t ->] _]]; [|done]. by injection Hq as ->.
  - intros q g Hq Hd. rewrite elem_of_app, list_elem_of_singleton. apply alter_doom in Hq as [[Hqp Hq]|(-> & _)]; [|by right].
    left. by eapply H4.
  - intros q Hq. rewrite length_alter. destruct Hp as [->|[[t ->] _]]; [|done]. by injection Hq as <-.
Qed.

Lemma alone_own s s' : alone s -> own s s' -> alone s'.
Proof.
  intros Ha Ho. pose proof Ha as [H1 H2 H3 H4 H5 H6]. destruct Ho as [s Hp Hr|s Hp Hr|s Hp Hr|s t Hp Ht Hr|s t Hp Hr|s pid Hp Hl Hr|s pid Hp Hl Hr|s pid Hp Hr|s pid t Hp Hl|s pid t Hp Ht|s pid Hp Hl].
  - apply alone_stop; [done| |by rewrite Hp]. unfold current. by rewrite Hp.
  - unfold current in H1. rewrite Hp in H1. constructor; cbn [phase groups spawned current backoff sent]; try done.
    + intros _ pid g Hg Hne. apply lookup_app_Some in Hg as [Hg|[Hle Hg]]; [by eapply H1|].
      apply list_lookup_singleton_Some in Hg as [Hz _]. destruct Hne. f_equal. lia.
    + intros pid g Hg Hd. apply lookup_app_Some in Hg as [Hg|[Hle Hg]]; [by eapply H4|].
      apply list_lookup_singleton_Some in Hg as [_ <-]. done.
    + intros pid [= <-]. rewrite length_app. cbn. lia.
  - unfold current in H1. rewrite Hp in H1. constructor; try done. intros _ pid g Hg _. by eapply H1.
  - unfold current in H1. rewrite Hp in H1. constructor; try done; [intros _ pid g Hg _; by eapply H1 | by apply next_backoff_ok].
  - apply alone_stop; [done| |by rewrite Hp]. unfold current. by rewrite Hp.
  - apply alone_stop; [done| |by rewrite Hp]. unfold current. rewrite Hp. by intros ? [= <-].
  - apply alone_kill; [done|by rewrite Hp|unfold current; by rewrite Hp|right; split; [by eexists|done]].
  - unfold current in H1, H5. rewrite Hp in H1, H5. constructor; try done.
    + intros _ q g Hg Hne. by apply (H1 ltac:(done) q g).
    + intros q g Hg Hd. cbn. rewrite elem_of_app. left. by eapply H4.
  - apply alone_stop; [done| |by rewrite Hp]. unfold current. rewrite Hp. by intros ? [= <-].
  - apply alone_kill; [done|by rewrite Hp|unfold current; by rewrite Hp|by left].
  - apply alone_stop; [done| |by rewrite Hp]. unfold current. rewrite Hp. by intros ? [= <-].
Qed.

Lemma changed_lookup pid (l : list Group) g g' q x : l !! pid = Some g -> <[pid := g']> l !! q = Some x ->
  (q <> pid /\ l !! q = Some x) \/ (q = pid /\ x = g').
Proof.
  intros Hg. destruct (decide (q = pid)) as [->|Hne].
  - rewrite list_lookup_insert_eq by (by eapply lookup_lt_Some). intros [= <-]. by right.
  - rewrite list_lookup_insert_ne by done. by left.
Qed.

Lemma alone_world s s' : alone s -> world s s' -> alone s'.
Proof.
  intros [H1 H2 H3 H4 H5 H6] Hw. destruct Hw as [s|s dt Hdt Hd|s pid g g' Hg Hg']; [by constructor..|].
  apply changes_kept in Hg' as (Hk1 & Hk2 & _).
  constructor; cbn [phase groups current backoff sent]; try done.
  - intros Hs q x Hq Hne. destruct (changed_lookup _ _ _ _ _ _ Hg Hq) as [[? Hx]|[-> ->]]; [by eapply H1|].
    destruct (H1 Hs pid g Hg Hne) as [Ho1 Ho2]. split; [by apply Hk1 | congruence].
  - intros Hs q x Hq. destruct (changed_lookup _ _ _ _ _ _ Hg Hq) as [[? Hx]|[-> ->]]; [by eapply H2|]. by eapply Hk1, H2.
  - intros q x Hp Hq. destruct (changed_lookup _ _ _ _ _ _ Hg Hq) as [[? Hx]|[-> ->]]; [by eapply H3|].
    rewrite Hk2. by eapply H3.
  - intros q x Hq Hd. destruct (changed_lookup _ _ _ _ _ _ Hg Hq) as [[? Hx]|[-> ->]]; [by eapply H4|].
    eapply H4; [exact Hg|]. congruence.
  - intros q Hq. rewrite length_insert. by apply H5.
Qed.

(** ** Stopping *)

(** What is left to do once the shutdown is requested. *)
Definition to_stop (s : Sup) : nat :=
  match phase s with Stopped => 0 | Top | Waiting _ | Killed _ => 1 | Terminating _ _ => 2 | Running _ => 3 end.

Lemma own_requested s s' : requested s = true -> own s s' -> requested s' = true /\ (to_stop s' < to_stop s)%nat /\ starts s' = starts s.
Proof.
  intros Hr Ho. unfold to_stop. destruct Ho; cbn [requested go kill_group term_group phase starts]; try congruence; by repeat match goal with H : phase _ = _ |- _ => rewrite H end; split_and!; [|lia|].
Qed.

(** At the moment it is due the supervisor can move. *)
Lemma due_moves s t : alone s -> due s = Some t -> t <= now s -> exists s', own s s'.
Proof.
  intros Ha. unfold due. destruct (phase s) as [|u|pid|pid u|pid|] eqn:Hp; intros Hd Ht.
  - destruct (requested s) eqn:Hr; eexists; [by apply own_top_stop | by apply own_top_spawn].
  - injection Hd as <-. destruct (requested s) eqn:Hr; eexists; [by eapply own_wait_stop | by eapply own_wait_over].
  - destruct (requested s) eqn:Hr; cbn [orb] in *; [eexists; by eapply own_terminate|].
    destruct (leads s pid) eqn:Hl; cbn [negb] in *; [done|]. eexists. by eapply own_exit.
  - injection Hd as <-. destruct (leads s pid) eqn:Hl; eexists; [by eapply own_overdue | by eapply own_ended].
  - destruct (leads s pid) eqn:Hl; [done|]. eexists. by eapply own_reaped.
  - done.
Qed.

(** ** Over any run *)

Inductive reach : Sup -> Prop :=
| reach_init : reach init
| reach_step s s' : reach s -> step s s' -> reach s'.

Lemma reach_alone s : reach s -> alone s.
Proof. induction 1 as [|s s' _ IH [Ho|Hw]]; [apply alone_init | by eapply alone_own | by eapply alone_world]. Qed.

(** Signals: nobody is killed on shutdown without having been asked first, a whole grace period before. *)
Definition asked_first (s : Sup) : Prop :=
  match phase s with
  | Terminating pid t => (pid, SIGTERM) ∈ sent s /\ requested s = true
  | Killed pid => (pid, SIGTERM) ∈ sent s /\ (pid, SIGKILL) ∈ sent s /\ requested s = true
  | Stopped => requested s = true
  | _ => True
  end.

Lemma reach_asked s : reach s -> asked_first s.
Proof.
  induction 1 as [|s s' Hs IH [Ho|Hw]]; [done| |].
  - unfold asked_first in *. destruct Ho; cbn [phase go kill_group term_group sent requested grow spawned]; try done;
      repeat match goal with H : phase _ = _ |- _ => rewrite H in IH end; try (by destruct IH as (? & ?)); try (by destruct IH as (? & ? & ?));
      rewrite ?elem_of_app, ?list_elem_of_singleton; naive_solver.
  - unfold asked_first in *. destruct Hw; cbn [phase sent requested]; destruct (phase s); naive_solver.
Qed.

(** A restart comes when the last wait is over. *)
Definition on_time (s : Sup) : Prop := match phase s with Waiting t => now s <= t \/ requested s = true | Terminating pid t => now s <= t | _ => True end
  /\ match phase s with Waiting t => t <= now s + MAX_BACKOFF | Terminating _ t => t <= now s + GRACE | _ => True end.

Lemma reach_on_time s : reach s -> on_time s.
Proof.
  induction 1 as [|s s' Hs IH [Ho|Hw]]; [done| |].
  - pose proof (al_backoff s (reach_alone s Hs)) as Hb. unfold on_time in *.
    destruct Ho; cbn [phase go kill_group term_group now requested grow spawned backoff]; try done; unfold MAX_BACKOFF, GRACE, INITIAL_BACKOFF in *; lia.
  - unfold on_time in *. destruct Hw as [s|s dt Hdt Hd|s pid g g' Hg Hg']; cbn [phase now requested]; [by destruct (phase s); naive_solver| |done].
    unfold due in Hd. destruct (phase s); try done; specialize (Hd _ eq_refl).
    + destruct (requested s); [|lia]. split; [by right | lia].
    + destruct (leads s pid); lia.
Qed.

Lemma own_groups s s' pid g g' : own s s' -> groups s !! pid = Some g -> groups s' !! pid = Some g' ->
  leader g' = leader g /\ others g' = others g /\ escaped g' = escaped g /\ (doomed g = true -> doomed g' = true).
Proof.
  intros Ho Hg. assert (Hlt : (pid < length (groups s))%nat) by (by eapply lookup_lt_Some).
  destruct Ho; cbn [groups go spawned grow kill_group term_group]; try (intros Hg'; rewrite Hg in Hg'; by injection Hg' as <-).
  - rewrite lookup_app_l by done. rewrite Hg. by intros [= <-].
  - intros [[_ Hx]|(-> & g0 & Hx & ->)]%alter_doom; rewrite Hg in Hx; by injection Hx as <-.
  - intros [[_ Hx]|(-> & g0 & Hx & ->)]%alter_doom; rewrite Hg in Hx; by injection Hx as <-.
Qed.

(** C37. The wrapped application is run once at a time: it is started only when no shutdown was requested and every
    earlier run is over, that is, the process started for it has exited and every process still in its group has
    been sent [SIGKILL].  Until the supervisor stops, so is every run but the current one, and a group that was
    killed only shrinks: nobody in it forks or leaves it any more.  The pause before a restart is never longer than
    ten seconds.  When the supervisor has stopped, the process it started for each run has exited.  Processes that
    left their group are not reached, and after a stop the rest of the last group may remain. *)
Theorem one_app_at_a_time s s' : reach s -> step s s' ->
  (starts s' <> starts s -> requested s = false
     /\ forall pid g, groups s !! pid = Some g -> over g /\ (pid, SIGKILL) ∈ sent s)
  /\ (forall pid g, phase s <> Stopped -> groups s !! pid = Some g -> current s <> Some pid -> over g)
  /\ (forall pid g g', groups s !! pid = Some g -> over g -> groups s' !! pid = Some g' -> over g' /\ (others g' <= others g)%nat)
  /\ (phase s = Stopped -> forall pid g, groups s !! pid = Some g -> leader g = false)
  /\ (forall t, phase s = Waiting t -> requested s = false -> now s <= t <= now s + MAX_BACKOFF).
Proof.
  intros Hr Hst. pose proof (reach_alone s Hr) as [H1 H2 H3 H4 H5 H6]. pose proof (reach_on_time s Hr) as [Ht1 Ht2]. split_and!.
  - intros Hne. destruct Hst as [Ho|Hw]; [|by destruct Hw]. destruct Ho as [| s Hp Hq| | | | | | | | |]; cbn in Hne; try done.
    split; [done|]. intros pid g Hg. unfold current in H1. rewrite Hp in H1.
    assert (Ho : over g) by by eapply H1. split; [done|]. eapply H4; [exact Hg | apply Ho].
  - intros pid g Hs Hg Hc. by eapply H1.
  - intros pid g g' Hg [Hl Hd] Hg'. destruct Hst as [Ho|Hw].
    + destruct (own_groups _ _ _ _ _ Ho Hg Hg') as (E1 & E2 & _ & E3). split; [split; [congruence | by apply E3] | lia].
    + destruct Hw as [s|s dt Hdt Hdue|s q g1 g2 Hg1 Hc]; cbn [groups] in Hg'; [by assert (g' = g) as -> by congruence..|].
      destruct (changed_lookup _ _ _ _ _ _ Hg1 Hg') as [[_ Hx]|[-> ->]]; [by assert (g' = g) as -> by congruence|].
      assert (g1 = g) as -> by congruence. apply changes_kept in Hc as (Hk1 & Hk2 & Hk3).
      split; [split; [by apply Hk1 | congruence] | by apply Hk3].
  - done.
  - intros t Hp Hq. rewrite Hp in Ht1, Ht2. rewrite Hq in Ht1. naive_solver.
Qed.

(** Once the shutdown is requested, nothing is started any more; the supervisor is done within three steps of its own,
    each of which it can take at the latest when its time has come, ten seconds after the request to end at the
    latest, or, once it has killed the group, when the leader is dead; and the application is killed only after it was
    asked to end. *)
Theorem shutdown_ends s s' : reach s -> requested s = true -> step s s' ->
  starts s' = starts s /\ requested s' = true
  /\ (own s s' -> (to_stop s' < to_stop s <= 3)%nat)
  /\ (phase s <> Stopped -> (exists t, due s = Some t /\ t <= now s + GRACE /\ (t <= now s -> exists s1, own s s1))
      \/ exists pid g, phase s = Killed pid /\ groups s !! pid = Some g /\ doomed g = true /\ leader g = true)
  /\ (forall pid, phase s = Killed pid -> (pid, SIGTERM) ∈ sent s).
Proof.
  intros Hr Hq Hst. pose proof (reach_alone s Hr) as Ha. pose proof (reach_on_time s Hr) as [Ht1 Ht2]. split_and!.
  - destruct Hst as [Ho|Hw]; [by apply own_requested | by destruct Hw].
  - destruct Hst as [Ho|Hw]; [by apply (own_requested s) | by destruct Hw].
  - intros Ho. split; [by apply own_requested|]. unfold to_stop. destruct (phase s); lia.
  - intros Hs. destruct (due s) as [t|] eqn:Hd.
    + left. exists t. split_and!; [done| |by apply due_moves]. unfold due, GRACE in *. rewrite Hq in Hd.
      destruct (phase s); try done; repeat case_match; simplify_eq; cbn in *; simplify_eq; lia.
    + right. unfold due in Hd. rewrite Hq in Hd. destruct (phase s) as [|t|pid|pid t|pid|] eqn:Hp; try done.
      destruct (leads s pid) eqn:Hl; [|done]. unfold leads in Hl.
      destruct (groups s !! pid) as [g|] eqn:Hg; [|done]. exists pid, g. split_and!; try done. by eapply (al_killed s Ha).
  - intros pid Hp. pose proof (reach_asked s Hr) as H. unfold asked_first in H. rewrite Hp in H. apply H.
Qed.

(** ** Runs *)

(** The first run forked, one child left the group, and the leader exited: the other child is killed, and still
    dying when the application is started again. *)
Definition sample_restart : Sup :=
  mkSup 500 false Top 1000 [mkGroup false 1 true 1] [(0%nat, SIGKILL)] [0].

Lemma sample_restart_reach : reach sample_restart.
Proof.
  set (at_ n r p l o d x k := mkSup n false p r [mkGroup l o d x] k [0]).
  eapply (reach_step (at_ 500 500 (Waiting 500) false 1%nat true 1%nat [(0%nat, SIGKILL)]));
    [|left; by apply (own_wait_over (at_ 500 500 (Waiting 500) false 1%nat true 1%nat [(0%nat, SIGKILL)]) 500)].
  eapply (reach_step (at_ 0 500 (Waiting 500) false 1%nat true 1%nat [(0%nat, SIGKILL)]));
    [|right; apply (w_tick (at_ 0 500 (Waiting 500) false 1%nat true 1%nat [(0%nat, SIGKILL)]) 500); [lia | by intros t [= <-]]].
  eapply (reach_step (at_ 0 500 (Running 0) false 1%nat false 1%nat []));
    [|left; by apply (own_exit (at_ 0 500 (Running 0) false 1%nat false 1%nat []) 0)].
  eapply (reach_step (at_ 0 500 (Running 0) true 1%nat false 1%nat []));
    [|right; by eapply (w_process (at_ 0 500 (Running 0) true 1%nat false 1%nat []) 0); [|apply ch_leader]].
  eapply (reach_step (at_ 0 500 (Running 0) true 2%nat false 0%nat []));
    [|right; by eapply (w_process (at_ 0 500 (Running 0) true 2%nat false 0%nat []) 0); [|apply ch_leave]].
  eapply (reach_step (at_ 0 500 (Running 0) true 1%nat false 0%nat []));
    [|right; by eapply (w_process (at_ 0 500 (Running 0) true 1%nat false 0%nat []) 0); [|apply ch_fork; left]].
  eapply (reach_step (at_ 0 500 (Running 0) true 0%nat false 0%nat []));
    [|right; by eapply (w_process (at_ 0 500 (Running 0) true 0%nat false 0%nat []) 0); [|apply ch_fork; left]].
  eapply reach_step; [apply reach_init|left; by apply own_top_spawn].
Qed.

Lemma one_app_at_a_time_witness : starts (spawned sample_restart) = [0; 500] /\ requested sample_restart = false
  /\ forall pid g, groups sample_restart !! pid = Some g -> over g /\ (pid, SIGKILL) ∈ sent sample_restart.
Proof.
  split; [reflexivity|].
  apply (one_app_at_a_time sample_restart (spawned sample_restart) sample_restart_reach); [left; by apply own_top_spawn | done].
Defined.

(** The shutdown is requested while the application runs. *)
Definition sample_requested : Sup := mkSup 0 true (Running 0) INITIAL_BACKOFF [mkGroup true 0 false 0] [] [0].
Lemma sample_reach : reach sample_requested.
Proof.
  eapply reach_step; [|right; exact (w_request (spawned init))]. eapply reach_step; [apply reach_init|left; by apply own_top_spawn].
Qed.

Lemma shutdown_ends_witness : starts (go (Terminating 0 10000) (term_group 0 sample_requested)) = [0].
Proof.
  refine (proj1 (shutdown_ends sample_requested _ sample_reach eq_refl (or_introl (own_terminate sample_requested 0 eq_refl eq_refl)))).
Defined.

(** An application that exits by itself as the shutdown arrives leaves the rest of its group unsignalled. *)
Lemma stragglers_unsignalled : exists s g, reach s /\ phase s = Stopped /\ sent s = [] /\ groups s !! 0%nat = Some g /\ others g = 1%nat.
Proof.
  exists (go Stopped (mkSup 0 true (Running 0) INITIAL_BACKOFF [mkGroup false 1 false 0] [] [0])), (mkGroup false 1 false 0). split; [|done].
  set (forked := mkSup 0 true (Running 0) INITIAL_BACKOFF [mkGroup true 1 false 0] [] [0]).
  assert (Hf : reach forked).
  { eapply reach_step; [apply sample_reach|right]. apply (w_process sample_requested 0 (mkGroup true 0 false 0) (mkGroup true 1 false 0)); [done | apply ch_fork; by left]. }
  eapply reach_step; [|left; by eapply own_exit_stop].
  eapply reach_step; [exact Hf|right]. apply (w_process forked 0 (mkGroup true 1 false 0) (mkGroup false 1 false 0)); [done | apply ch_leader].
Qed.
