(* ===== verification/Exposition.v ===== *)
(** * Exposition: the text of [/__edgeguard/metrics] ([src/src/metrics.rs], with the series of
    [src/src/certstore.rs] and [src/src/pool.rs])

    Every [# HELP], [# TYPE] and sample line [Metrics::render] writes, in its order.  A block of the source that
    writes one metric is one [Family] here; [family_text] is the text its [push_str] calls append. *)

From S2P Require Import Prelude Text Units Float Der CertStore Health Pool Failover CspSink ProxyProtocol Serve Metrics.

(** ** Families and their text *)

Inductive Num : Type := NInt (z : Z) | NFloat (x : f64).
Inductive MKind : Type := MCounter | MGauge | MHistogram.
#[global] Instance MKind_eq_dec : EqDecision MKind.
Proof. solve_decision. Defined.

(** One sample: what follows the family's name, the labels with their values unescaped, the number. *)
Record Series : Type := mkSeries { se_suffix : bytes; se_labels : list (bytes * bytes); se_value : Num }.
Record Family : Type := mkFamily { fa_name : bytes; fa_help : bytes; fa_kind : MKind; fa_series : list Series }.

Definition kind_text (k : MKind) : bytes :=
  match k with MCounter => lit "counter" | MGauge => lit "gauge" | MHistogram => lit "histogram" end.

(** An [i64]'s [Display]. *)
Definition int_text (z : Z) : bytes := if z <? 0 then 45 :: dec (- z) else dec z.

Section Text.
Variable show_f64 : f64 -> bytes.                       (** [f64]'s [Display] *)

Definition num_text (n : Num) : bytes := match n with NInt z => int_text z | NFloat x => show_f64 x end.

Definition label_text (l : bytes * bytes) : bytes := l.1 ++ [61; 34] ++ escape_label l.2 ++ [34].
Definition labels_text (ls : list (bytes * bytes)) : bytes :=
  match ls with [] => [] | _ => [123] ++ join [44] (map label_text ls) ++ [125] end.

Definition series_text (name : bytes) (s : Series) : bytes :=
  name ++ se_suffix s ++ labels_text (se_labels s) ++ [32] ++ num_text (se_value s) ++ [10].

Definition family_text (f : Family) : bytes :=
  lit "# HELP " ++ fa_name f ++ [32] ++ fa_help f ++ [10] ++ lit "# TYPE " ++ fa_name f ++ [32] ++ kind_text (fa_kind f) ++ [10]
  ++ concat (map (series_text (fa_name f)) (fa_series f)).

Definition exposition (fs : list Family) : bytes := concat (map family_text fs).

(** ** The shapes the source repeats *)

Definition sample (ls : list (bytes * bytes)) (v : Z) : Series := mkSeries [] ls (NInt v).
Definition single (v : Z) : list Series := [sample [] v].
(** A fixed set of label values, each with its counter. *)
Definition by_label (label : bytes) (values : list bytes) (cs : list Z) : list Series :=
  zip_with (fun v c => sample [(label, v)] c) values cs.

Definition le_label (b : f64) : bytes * bytes := (lit "le", show_f64 b).

(** A histogram under the labels [ls]. *)
Definition hist_series (ls : list (bytes * bytes)) (bounds : list f64) (h : Hist) : list Series :=
  zip_with (fun b v => mkSeries (lit "_bucket") (ls ++ [le_label b]) (NInt v)) bounds (buckets h)
  ++ [mkSeries (lit "_bucket") (ls ++ [(lit "le", lit "+Inf")]) (NInt (h_count h));
      mkSeries (lit "_sum") ls (NFloat (f64_div (f64_of_Z (sum_micros h)) (f64_of_Z 1000000)));
      mkSeries (lit "_count") ls (NInt (h_count h))].

Definition literal (n d : Z) : f64 := f64_div (f64_of_Z n) (f64_of_Z d).

Definition LATENCY_BUCKETS : list f64 :=
  [literal 5 1000; literal 1 100; literal 25 1000; literal 5 100; literal 1 10; literal 25 100; literal 5 10; literal 1 1;
   literal 25 10; literal 5 1; literal 10 1].

Definition OVERHEAD_BUCKETS : list f64 :=
  [literal 1 10000; literal 25 100000; literal 5 10000; literal 1 1000; literal 25 10000; literal 5 1000; literal 1 100;
   literal 25 1000; literal 5 100; literal 1 10; literal 25 100; literal 1 1].

(** [render_breakdown]. *)
Definition breakdown (prefix label_name dim : bytes) (rows : list (bytes * PerModelCounters)) : list Family :=
  [mkFamily (prefix ++ lit "_tokens_total") (lit "LLM tokens metered by " ++ dim ++ lit " and kind.") MCounter
     (flat_map (fun '(k, c) => map (fun kind => sample [(label_name, k); (lit "kind", kind)] (kind_value kind c)) LLM_TOKEN_KINDS) rows);
   mkFamily (prefix ++ lit "_cost_microdollars_total") (lit "LLM cost (micro-dollars) by " ++ dim ++ lit ".") MCounter
     (map (fun '(k, c) => sample [(label_name, k)] (m_cost c)) rows)].

(** ** What is rendered *)

(** A listener and its counters; [li_tls], [li_proxy]: whether it terminates TLS, reads PROXY headers. *)
Record Listener : Type := mkListenerView {
  li_name : bytes; li_open : Z; li_rejected : Z; li_in_flight : Z; li_max : Z; li_tls : bool; li_proxy : bool; li_stats : ListenerStats
}.

Record UpstreamStats : Type := mkUpstreamStats { us_results : list Z; us_hist : Hist }.

Definition upstream_record (r : UpstreamResult) (s : UpstreamStats) : UpstreamStats :=
  mkUpstreamStats (bump_known (map upstream_label [UOk; UHttp5xx; UConnectError; UTlsError; UTimeout; UReset; UError]) (upstream_label r)
                     (us_results s)) (us_hist s).
Definition observe_headers (elapsed : Duration) (s : UpstreamStats) : UpstreamStats :=
  mkUpstreamStats (us_results s) (observe_hist_in LATENCY_BUCKETS (us_hist s) elapsed).

(** A certificate store under its source, and the certificates shown beside the listener's own. *)
Record CertView : Type := mkCertView {
  cv_listener : option (CertSource * CertStore); cv_sni : list (bytes * (CertSource * CertStore));
  cv_clients : list (bytes * (CertSource * CertStore)); cv_cas : list (bytes * CertInfo); cv_crls : list (bytes * option Z)
}.

(** The registry: the maps in the order of their keys, the cells that are set once as options. *)
Record Registry : Type := mkRegistry {
  g_requests : list Z; g_ratelimit : list Z; g_waf : list Z;
  g_csp_reports : Z; g_csp_dropped : list Z; g_csp_forwarded : Z; g_csp_failed : Z;
  g_listeners : list Listener;
  g_log_shipper : option (Z * Z * Z * Z * Z);           (** sent, queue full, send failed, batches, failed *)
  g_span_shipper : option (Z * Z * Z);
  g_latency : Hist; g_ttft : Hist; g_tpot : Hist;
  g_tokens_in : Z; g_tokens_out : Z; g_cached : Z; g_reasoning : Z; g_cost : Z;
  g_model : list (bytes * PerModelCounters); g_team : list (bytes * PerModelCounters); g_key : list (bytes * PerModelCounters);
  g_budget_blocked : list Z; g_budget_consumed : list (bytes * f64); g_reconcile_failures : Z;
  g_llm_results : list Z; g_keyvault : list Z; g_dlp_findings : list Z; g_dlp_blocked : Z;
  g_certs : CertView;
  g_cert_header : option (list Z);                      (** with [trusted_client_cert_header] only *)
  g_trusts_xff : bool; g_forwarded_for : list Z;
  g_routes : list (bytes * RouteStats); g_consumers : list (bytes * ConsumerStats); g_upstreams : list (bytes * UpstreamStats);
  g_pools : option (heap * Z * list Pool);              (** the runtime's, with the clock in milliseconds *)
  g_overhead : Hist
}.

Variable g : Registry.

(** A family that is written only when there is something to say. *)
Definition when (b : bool) (fs : list Family) : list Family := if b then fs else [].

(** ** Requests, CSP, listeners *)

Definition request_families : list Family :=
  [mkFamily (lit "edgeguard_requests_total") (lit "Total proxied requests by outcome.") MCounter (by_label (lit "outcome") OUTCOMES (g_requests g));
   mkFamily (lit "edgeguard_ratelimit_hits_total") (lit "Requests rejected by a rate limiter, by scope.") MCounter
     (by_label (lit "scope") RL_SCOPES (g_ratelimit g));
   mkFamily (lit "edgeguard_waf_hits_total") (lit "WAF rule matches by class (report-only + blocked).") MCounter
     (by_label (lit "rule") WAF_RULES (g_waf g));
   mkFamily (lit "edgeguard_csp_reports_total") (lit "CSP violation reports received.") MCounter (single (g_csp_reports g));
   mkFamily (lit "edgeguard_csp_reports_dropped_total") (lit "CSP reports the sink did not keep, by reason.") MCounter
     (by_label (lit "reason") (map CspDrop_label CspDrop_ALL) (g_csp_dropped g));
   mkFamily (lit "edgeguard_csp_forward_requests_total") (lit "Folded CSP report requests sent to the control plane, by result.") MCounter
     [sample [(lit "result", lit "ok")] (g_csp_forwarded g); sample [(lit "result", lit "error")] (g_csp_failed g)]].

Definition per_listener (ls : list Listener) (pick : Listener -> Z) : list Series :=
  map (fun l => sample [(lit "listener", li_name l)] (pick l)) ls.

Definition tls_families (ls : list Listener) : list Family :=
  let tls := List.filter li_tls ls in
  when (negb (match tls with [] => true | _ => false end))
    [mkFamily (lit "edgeguard_tls_handshakes_total")
       (lit "TLS handshakes that ended, successful or not, by listener. Failures are also in edgeguard_tls_handshake_failures_total. A connection that closed before its ClientHello is not a handshake (edgeguard_tls_no_client_hello_total).")
       MCounter (per_listener tls (fun l => tls_handshakes (li_stats l)));
     mkFamily (lit "edgeguard_tls_handshake_failures_total")
       (lit "Failed TLS handshakes, by listener and reason (client_cert = refused for its client certificate).") MCounter
       (flat_map (fun l => zip_with (fun r v => sample [(lit "listener", li_name l); (lit "reason", r)] v) TLS_FAILURE_REASONS (tls_failures (li_stats l))) tls);
     mkFamily (lit "edgeguard_tls_no_client_hello_total")
       (lit "Connections to a TLS listener that closed before sending a ClientHello (TCP and PROXY protocol health checks, scans), by listener. Not handshakes: in neither edgeguard_tls_handshakes_total nor edgeguard_tls_handshake_failures_total.")
       MCounter (per_listener tls (fun l => no_client_hello (li_stats l)))].

Definition proxy_families (ls : list Listener) : list Family :=
  let pp := List.filter li_proxy ls in
  when (negb (match pp with [] => true | _ => false end))
    [mkFamily (lit "edgeguard_proxy_protocol_total")
       (lit "Connections by their PROXY protocol header, by listener and result (proxied: the header named the client; untrusted, invalid and timeout: closed).")
       MCounter (flat_map (fun l => zip_with (fun o v => sample [(lit "listener", li_name l); (lit "result", outcome_label o)] v) Outcome_ALL
                                      (proxy_protocol_outcomes (li_stats l))) pp)].

Definition listener_families : list Family :=
  let ls := g_listeners g in
  when (negb (match ls with [] => true | _ => false end))
    ([mkFamily (lit "edgeguard_connections_open") (lit "Client connections open now, by listener.") MGauge (per_listener ls li_open);
      mkFamily (lit "edgeguard_connections_rejected_total") (lit "Connections closed at accept because the listener was at server.max_connections.")
        MCounter (per_listener ls li_rejected);
      mkFamily (lit "edgeguard_requests_in_flight")
        (lit "Requests still being answered, from the request head until the end of the response body, by listener.") MGauge (per_listener ls li_in_flight)]
     ++ (let capped := List.filter (fun l => 0 <? li_max l) ls in
         when (negb (match capped with [] => true | _ => false end))
           [mkFamily (lit "edgeguard_connections_max") (lit "server.max_connections, for listeners that have a cap.") MGauge (per_listener capped li_max)])
     ++ tls_families ls ++ proxy_families ls).

(** ** Shipping *)

Definition logship_families : list Family :=
  match g_log_shipper g with
  | None => []
  | Some (sent, dropped_q, dropped_send, batches, failed) =>
      [mkFamily (lit "edgeguard_logship_sent_total") (lit "Access-log records delivered to the collector.") MCounter (single sent);
       mkFamily (lit "edgeguard_logship_dropped_total") (lit "Access-log records dropped, by reason.") MCounter
         [sample [(lit "reason", lit "queue_full")] dropped_q; sample [(lit "reason", lit "send_failed")] dropped_send];
       mkFamily (lit "edgeguard_logship_batches_total") (lit "Access-log batches POSTed, by outcome.") MCounter
         [sample [(lit "outcome", lit "sent")] batches; sample [(lit "outcome", lit "failed")] failed]]
  end.

Definition span_families : list Family :=
  match g_span_shipper g with
  | None => []
  | Some (sent, dq, df) =>
      [mkFamily (lit "edgeguard_spans_sent_total") (lit "Request spans delivered to the trace collector.") MCounter (single sent);
       mkFamily (lit "edgeguard_spans_dropped_total") (lit "Request spans dropped, by reason.") MCounter
         [sample [(lit "reason", lit "queue_full")] dq; sample [(lit "reason", lit "send_failed")] df]]
  end.

(** ** Latency and the LLM gateway *)

(** [render_hist]. *)
Definition hist_family (name help : bytes) (bounds : list f64) (h : Hist) : Family := mkFamily name help MHistogram (hist_series [] bounds h).

Definition latency_families : list Family :=
  [hist_family (lit "edgeguard_request_duration_seconds") (lit "Request handling latency in seconds.") LATENCY_BUCKETS (g_latency g);
   hist_family (lit "edgeguard_llm_ttft_seconds") (lit "Server-side time-to-first-token for streamed LLM responses, in seconds.") LATENCY_BUCKETS (g_ttft g);
   hist_family (lit "edgeguard_llm_tpot_seconds") (lit "Mean time-per-output-token for streamed LLM responses (>1 output token), in seconds.")
     LATENCY_BUCKETS (g_tpot g)].

Definition llm_families : list Family :=
  [mkFamily (lit "edgeguard_llm_tokens_total") (lit "LLM tokens metered, by direction.") MCounter
     [sample [(lit "direction", lit "input")] (g_tokens_in g); sample [(lit "direction", lit "output")] (g_tokens_out g)];
   mkFamily (lit "edgeguard_llm_cached_tokens_total") (lit "Cached prompt tokens metered (subset of input).") MCounter (single (g_cached g));
   mkFamily (lit "edgeguard_llm_reasoning_tokens_total") (lit "Reasoning completion tokens metered (subset of output).") MCounter (single (g_reasoning g));
   mkFamily (lit "edgeguard_llm_cost_microdollars_total") (lit "Accumulated LLM cost in micro-dollars (1e-6 USD).") MCounter (single (g_cost g))]
  ++ breakdown (lit "edgeguard_llm_model") (lit "model") (lit "model") (g_model g)
  ++ breakdown (lit "edgeguard_llm_team") (lit "team") (lit "team") (g_team g)
  ++ breakdown (lit "edgeguard_llm_key") (lit "key") (lit "authenticated key/principal") (g_key g).

Definition policy_families : list Family :=
  [mkFamily (lit "edgeguard_llm_budget_blocked_total") (lit "Requests blocked by a hard LLM budget, by scope.") MCounter
     (by_label (lit "scope") BUDGET_SCOPES (g_budget_blocked g));
   mkFamily (lit "edgeguard_llm_budget_consumed_ratio") (lit "Latest consumed ratio (used/limit) per budget.") MGauge
     (map (fun '(name, ratio) => mkSeries [] [(lit "budget", name)] (NFloat ratio)) (g_budget_consumed g));
   mkFamily (lit "edgeguard_llm_budget_reconcile_failures_total")
     (lit "Budget reserve->settle reconciles that failed against the shared store (counter drift).") MCounter (single (g_reconcile_failures g));
   mkFamily (lit "edgeguard_llm_requests_total") (lit "LLM requests metered, by result.") MCounter (by_label (lit "result") LLM_RESULTS (g_llm_results g));
   mkFamily (lit "edgeguard_llm_keyvault_total") (lit "Key-vault decisions by result (swap / egress denial).") MCounter
     (by_label (lit "result") KEYVAULT_RESULTS (g_keyvault g));
   mkFamily (lit "edgeguard_llm_dlp_findings_total") (lit "DLP findings (PII / secrets) by category.") MCounter
     (by_label (lit "category") DLP_CATEGORIES (g_dlp_findings g));
   mkFamily (lit "edgeguard_llm_dlp_blocked_total") (lit "Requests blocked by DLP block mode.") MCounter (single (g_dlp_blocked g))].

(** ** Certificates ([render_certs], [certstore::render_cert_series]) *)

Definition source_label (s : CertSource) : bytes :=
  match s with Acme => lit "acme" | SelfSigned => lit "self_signed" | File => lit "file" end.

Definition store_info (s : CertSource * CertStore) : CertInfo := live_info (live s.2).

Definition cert_series (v : CertView) : list Family :=
  if (match cv_listener v with None => true | _ => false end) && (match cv_clients v with [] => true | _ => false end)
     && (match cv_cas v with [] => true | _ => false end) then []
  else
  let sni := match cv_listener v with Some _ => cv_sni v | None => [] end in
  let stores := sni ++ cv_clients v in
  let gauge pick :=
    (match cv_listener v with Some l => [sample [(lit "source", source_label l.1)] (pick (store_info l))] | None => [] end)
    ++ map (fun '(label, s) => sample [(lit "source", source_label s.1); (lit "cert", label)] (pick (store_info s))) stores
    ++ map (fun '(label, i) => sample [(lit "source", lit "file"); (lit "cert", label)] (pick i)) (cv_cas v) in
  let reloads outcome pick :=
    (match cv_listener v with Some l => [sample [(lit "outcome", outcome)] (pick l.2)] | None => [] end)
    ++ map (fun '(label, s) => sample [(lit "outcome", outcome); (lit "cert", label)] (pick s.2)) stores in
  [mkFamily (lit "edgeguard_tls_cert_not_after_seconds")
     (lit "Expiry (unix seconds) of each certificate the edge serves, presents or trusts for client certificates. The listener's own has no cert label; the others carry a [[tls.certs]] host, client:<path> or client-ca:<name>.")
     MGauge (gauge not_after);
   mkFamily (lit "edgeguard_tls_cert_not_before_seconds") (lit "Start of validity (unix seconds) of the same certificates.") MGauge (gauge not_before);
   mkFamily (lit "edgeguard_tls_cert_reloads_total") (lit "Certificate reloads from disk, by outcome.") MCounter
     (reloads (lit "swapped") reloads_swapped ++ reloads (lit "rejected") reloads_rejected)]
  ++ match cv_listener v with
     | Some l =>
         [mkFamily (lit "edgeguard_tls_cert_renewals_total") (lit "Certificate renewal attempts, by source and outcome.") MCounter
            (flat_map (fun '(src, s) => map (fun '(o, outcome) => sample [(lit "source", s); (lit "outcome", outcome)] (renewals l.2 (src, o)))
               [(ROk, lit "ok"); (RFailed, lit "failed"); (RDeferred, lit "deferred")]) [(RAcme, lit "acme"); (RSelfSigned, lit "self_signed")])]
     | None => []
     end.

(** [sort] and [dedup_by] the name: the CRLs that say when the next is due, one per file. *)
Fixpoint dedup_by_name (l : list (bytes * Z)) : list (bytes * Z) :=
  match l with
  | [] => []
  | a :: r => a :: match r with b :: _ => if beq a.1 b.1 then drop 1 (dedup_by_name r) else dedup_by_name r | [] => [] end
  end.

Definition crl_leb (a b : bytes * Z) : bool := if beq a.1 b.1 then a.2 <=? b.2 else bytes_leb a.1 b.1.
Fixpoint crl_insert (x : bytes * Z) (l : list (bytes * Z)) : list (bytes * Z) :=
  match l with [] => [x] | y :: r => if crl_leb x y then x :: l else y :: crl_insert x r end.
Definition crls_due (v : CertView) : list (bytes * Z) :=
  dedup_by_name (foldr crl_insert [] (omap (fun '(name, next) => (fun n => (name, n)) <$> next) (cv_crls v))).

Definition cert_families : list Family :=
  cert_series (g_certs g)
  ++ when (negb (match crls_due (g_certs g) with [] => true | _ => false end))
       [mkFamily (lit "edgeguard_tls_crl_next_update_seconds")
          (lit "When each CRL in tls.client_auth.crl_paths says the next one is due (unix seconds).") MGauge
          (map (fun '(name, next) => sample [(lit "crl", name)] next) (crls_due (g_certs g)))].

(** ** Who the client is *)

Definition HEADER_RESULTS : list bytes := [lit "accepted"; lit "untrusted_peer"; lit "invalid"; lit "unverified"].
Definition FORWARDED_FOR : list bytes := [lit "used"; lit "absent"; lit "short"; lit "invalid"; lit "untrusted_peer"].

Definition client_families : list Family :=
  match g_cert_header g with
  | Some cs =>
      [mkFamily (lit "edgeguard_client_cert_header_total")
         (lit "Requests carrying [trusted_client_cert_header], by what became of it: accepted, untrusted_peer (dropped: not from trusted_proxies or trusted_proxy_names), invalid, unverified (refused by its ca_path).")
         MCounter (by_label (lit "result") HEADER_RESULTS cs)]
  | None => []
  end
  ++ when (g_trusts_xff g || existsb (fun c => 0 <? c) (g_forwarded_for g))
       [mkFamily (lit "edgeguard_forwarded_for_total")
          (lit "Requests by how X-Forwarded-For named the client, with server.trust_forwarded_for: used (the entry server.forwarded_hops from the right), or the TCP peer instead: absent, short (fewer entries than forwarded_hops), invalid (the entry is not an address), untrusted_peer (from a peer outside server.trusted_forwarders: ignored).")
          MCounter (by_label (lit "result") FORWARDED_FOR (g_forwarded_for g))].

(** ** Routes, consumers, upstreams, pools *)

Definition route_families : list Family :=
  when (negb (match g_routes g with [] => true | _ => false end))
    [mkFamily (lit "edgeguard_route_requests_total")
       (lit "Proxied requests by route (its configured name or prefix, `default` for the rest), method and status class.") MCounter
       (flat_map (fun '(route, s) => flat_map (fun '(m, method) => flat_map (fun '(k, class) =>
            let v := default 0 (rs_requests s !! (m * length STATUS_CLASSES + k)%nat) in
            if 0 <? v then [sample [(lit "route", route); (lit "method", method); (lit "status_class", class)] v] else [])
          (imap pair STATUS_CLASSES)) (imap pair ROUTE_METHODS)) (g_routes g));
     mkFamily (lit "edgeguard_route_request_duration_seconds") (lit "Time to response headers, by route.") MHistogram
       (flat_map (fun '(route, s) => hist_series [(lit "route", route)] LATENCY_BUCKETS (rs_hist s)) (g_routes g))].

Definition consumer_families : list Family :=
  when (negb (match g_consumers g with [] => true | _ => false end))
    [mkFamily (lit "edgeguard_consumer_requests_total") (lit "Requests by consumer (the authenticated principal; _anon without one) and status class.")
       MCounter (flat_map (fun '(c, s) => flat_map (fun '(class, v) =>
          if 0 <? v then [sample [(lit "consumer", c); (lit "status_class", class)] v] else []) (zip STATUS_CLASSES (cs_requests s))) (g_consumers g));
     mkFamily (lit "edgeguard_consumer_bytes_total") (lit "Bytes proxied by consumer: in = request, out = response, headers included.") MCounter
       (flat_map (fun '(c, s) => [sample [(lit "consumer", c); (lit "direction", lit "in")] (bytes_in s);
                                  sample [(lit "consumer", c); (lit "direction", lit "out")] (bytes_out s)]) (g_consumers g))].

Definition UPSTREAM_RESULTS : list UpstreamResult := [UOk; UHttp5xx; UConnectError; UTlsError; UTimeout; UReset; UError].

(** The run of blanks in the help is the source's: its line is continued without a backslash. *)
Definition upstream_families : list Family :=
  when (negb (match g_upstreams g with [] => true | _ => false end))
    [mkFamily (lit "edgeguard_upstream_requests_total")
       (lit "Requests forwarded to each upstream              (scheme://host:port), by how the exchange ended: ok, http_5xx, connect_error,              tls_error, timeout, reset or error.")
       MCounter (flat_map (fun '(u, s) => zip_with (fun r v => sample [(lit "upstream", u); (lit "result", upstream_label r)] v) UPSTREAM_RESULTS
                                            (us_results s)) (g_upstreams g));
     mkFamily (lit "edgeguard_upstream_duration_seconds")
       (lit "Time from sending the request to the upstream's response headers, for exchanges that got them.") MHistogram
       (flat_map (fun '(u, s) => hist_series [(lit "upstream", u)] LATENCY_BUCKETS (us_hist s)) (g_upstreams g))].

(** [pool::render], for the pools that are managed. *)
Definition pool_families (hp : heap) (now : Z) (pools : list Pool) : list Family :=
  let managed_ := List.filter managed pools in
  let per_target ps (f : bytes * bytes -> bytes * bytes -> TargetHealth -> list Series) :=
    flat_map (fun p => flat_map (fun t => f (lit "route", route p) (lit "upstream", t_label t) (health_of hp t)) (targets p)) ps in
  when (negb (match managed_ with [] => true | _ => false end))
    ([mkFamily (lit "edgeguard_upstream_in_rotation")
        (lit "Whether a pool's target takes requests (1), or is out (0): failing its health check, or ejected after failed connections or 5xx answers.")
        MGauge (per_target managed_ (fun r u h => [sample [r; u] (if in_rotation h now then 1 else 0)]))]
     ++ (let least := List.filter (fun p => bool_decide (balance p = LeastConn)) managed_ in
         when (negb (match least with [] => true | _ => false end))
           [mkFamily (lit "edgeguard_upstream_in_flight")
              (lit "Requests in flight to each target of a least_conn pool, which sends the next to the least loaded.") MGauge
              (per_target least (fun r u h => [sample [r; u] (Health.in_flight h)]))])
     ++ [mkFamily (lit "edgeguard_upstream_ejections_total")
           (lit "Times a pool's target was taken out of rotation by requests, by reason: connect_error (eject_after) or http_5xx (eject_after_5xx).")
           MCounter (per_target managed_ (fun r u h => map (fun e => sample [r; u; (lit "reason", ejection_label e)] (ejections h e)) [ConnectError; Http5xx]))]
     ++ (let checked := List.filter (fun p => match health_check p with Some _ => true | None => false end) managed_ in
         when (negb (match checked with [] => true | _ => false end))
           [mkFamily (lit "edgeguard_upstream_health_checks_total") (lit "Active health checks of a pool's targets, by result.") MCounter
              (per_target checked (fun r u h => [sample [r; u; (lit "result", lit "pass")] (checks_passed h);
                                                 sample [r; u; (lit "result", lit "fail")] (checks_failed h)]))])).

Definition overhead_family : Family :=
  hist_family (lit "edgeguard_edge_overhead_seconds")
    (lit "Time the edge added to a proxied request the upstream answered: from receiving it to sending the response headers, less the time spent waiting on the upstream (its headers and, for a buffered response, its body).")
    OVERHEAD_BUCKETS (g_overhead g).

Definition families : list Family :=
  request_families ++ listener_families ++ logship_families ++ span_families ++ latency_families ++ llm_families ++ policy_families
  ++ cert_families ++ client_families ++ route_families ++ consumer_families ++ upstream_families
  ++ match g_pools g with Some (hp, now, pools) => pool_families hp now pools | None => [] end
  ++ [overhead_family].

Definition render : bytes := exposition families.
End Text.
