(* ===== verification/OtlpMetrics.v ===== *)
(** * OtlpMetrics: the registry pushed to a collector ([src/src/otlp_metrics.rs])

    The exporter reads the Prometheus text back and writes it as OTLP JSON.  [str::parse] of a number is a
    parameter. *)

From S2P Require Import Prelude Text Utf8 Float Json Exposition.

(** ** Text *)

(** [str::lines]: a carriage return goes with its newline only. *)
Definition strip_cr (l : bytes) : bytes := default l (strip_suffix [13] l).
Definition str_lines (s : bytes) : list bytes :=
  let ls := split_on 10 s in
  map strip_cr (removelast ls) ++ (match List.last ls [] with [] => [] | l => [l] end).

(** The first of [split_whitespace], and what follows it. *)
Fixpoint word (s : bytes) : bytes * bytes :=
  match strip_any ws_encodings s with
  | Some _ => ([], s)
  | None => match s with [] => ([], []) | c :: r => let '(w, rest) := word r in (c :: w, rest) end
  end.
Definition next_word (s : bytes) : option (bytes * bytes) :=
  match word (trim_start s) with ([], _) => None | p => Some p end.

(** ** One sample *)

Record Sample : Type := mkOSample { sm_name : bytes; sm_labels : list (bytes * bytes); sm_value : f64 }.

(** The quoted value of a label, once its quote is open. *)
Fixpoint label_value (s : bytes) : option (bytes * bytes) :=
  match s with
  | [] => None
  | 92 :: r =>
      match r with
      | [] => None
      | c :: r => '(v, rest) ← label_value r; Some ((if c =? 110 then 10 else c) :: v, rest)
      end
  | 34 :: r => Some ([], r)
  | c :: r => '(v, rest) ← label_value r; Some (c :: v, rest)
  end.

(** Up to the equals sign, which is dropped. *)
Fixpoint label_key (s : bytes) : bytes * bytes :=
  match s with [] => ([], []) | c :: r => if c =? 61 then ([], r) else let '(k, rest) := label_key r in (c :: k, rest) end.

(** The label set after its brace, up to the closing one; every round takes a character, so [length s] rounds are
    enough. *)
Fixpoint label_set (fuel : nat) (s : bytes) : option (list (bytes * bytes) * bytes) :=
  match fuel with
  | O => None
  | S fuel =>
      match drop_while (fun c => (c =? 44) || (c =? 32)) s with
      | [] => None
      | 125 :: rest => Some ([], rest)
      | body =>
          let '(key, r) := label_key body in
          match r with
          | 34 :: r =>
              '(v, r) ← label_value r;
              '(ls, rest) ← label_set fuel r;
              Some ((trim key, v) :: ls, rest)
          | _ => None
          end
      end
  end.

(** [split_at] the first brace or blank. *)
Fixpoint split_name (s : bytes) : option (bytes * bytes) :=
  match s with
  | [] => None
  | c :: r => if (c =? 123) || (c =? 32) then Some ([], s) else '(n, rest) ← split_name r; Some (c :: n, rest)
  end.

Definition INFINITY : f64 := SpecFloat.S754_infinity false.
Definition NEG_INFINITY : f64 := SpecFloat.S754_infinity true.
Definition NAN : f64 := SpecFloat.S754_nan.

Section Otlp.
Variable parse_f64 : bytes -> option f64.

Definition number (v : bytes) : option f64 :=
  if beq v (lit "+Inf") then Some INFINITY
  else if beq v (lit "-Inf") then Some NEG_INFINITY
  else if beq v (lit "NaN") then Some NAN
  else parse_f64 v.

Definition parse_sample (line : bytes) : option Sample :=
  let line := trim line in
  match line with
  | [] => None
  | c :: _ =>
      if c =? 35 then None
      else
      '(name, rest) ← split_name line;
      '(labels, rest) ← match strip_prefix [123] rest with
                        | Some body => label_set (S (length body)) body
                        | None => Some ([], rest)
                        end;
      '(value, _) ← next_word rest;
      v ← number value;
      Some (mkOSample name labels v)
  end.

(** ** Families *)

Definition type_of_word (k : bytes) : MKind :=
  if beq k (lit "counter") then MCounter else if beq k (lit "histogram") then MHistogram else MGauge.

Definition type_line (types : gmap bytes MKind) (line : bytes) : gmap bytes MKind :=
  match strip_prefix (lit "# TYPE ") line with
  | Some rest =>
      match next_word rest with
      | Some (name, r) => match next_word r with Some (kind, _) => <[name := type_of_word kind]> types | None => types end
      | None => types
      end
  | None => types
  end.

Definition family_of (types : gmap bytes MKind) (name : bytes) : bytes :=
  let base suffix := b ← strip_suffix suffix name; if bool_decide (types !! b = Some MHistogram) then Some b else None in
  match base (lit "_bucket"), base (lit "_sum"), base (lit "_count") with
  | Some b, _, _ => b
  | None, Some b, _ => b
  | None, None, Some b => b
  | None, None, None => name
  end.

(** The samples by family, the families in the order they first appear. *)
Fixpoint group_add (fam : bytes) (s : Sample) (groups : list (bytes * list Sample)) : list (bytes * list Sample) :=
  match groups with
  | [] => [(fam, [s])]
  | (f, ss) :: r => if beq f fam then (f, ss ++ [s]) :: r else (f, ss) :: group_add fam s r
  end.

Definition group (types : gmap bytes MKind) (samples : list Sample) : list (bytes * list Sample) :=
  fold_left (fun gs s => group_add (family_of types (sm_name s)) s gs) samples [].

(** ** JSON *)

(** A number [serde_json] can write, or [null]. *)
Definition json_f64 (x : f64) : Json := if is_finite x then JDouble x else JNull.

Definition attributes (labels : list (bytes * bytes)) : Json :=
  JArr (map (fun '(k, v) => JObj [(lit "key", JStr k); (lit "value", JObj [(lit "stringValue", JStr v)])]) labels).

(** [f64::total_cmp] is not greater. *)
Definition total_leb (x y : f64) : bool :=
  match x, y with
  | _, SpecFloat.S754_nan => true
  | SpecFloat.S754_nan, _ => false
  | SpecFloat.S754_zero a, SpecFloat.S754_zero b => a || negb b
  | _, _ => f64_leb x y
  end.

Fixpoint bucket_insert (x : f64 * f64) (l : list (f64 * f64)) : list (f64 * f64) :=
  match l with [] => [x] | y :: r => if total_leb x.1 y.1 then x :: l else y :: bucket_insert x r end.
Definition bucket_sort (l : list (f64 * f64)) : list (f64 * f64) := foldr bucket_insert [] l.

Definition f64_sub (x y : f64) : f64 := SpecFloat.SFsub 53 1024 x y.
(** [f64::max] with zero. *)
Definition max_zero (x : f64) : f64 := if f64_ltb f64_zero x then x else f64_zero.
(** [as u64]: truncated, saturated. *)
Definition as_u64 (x : f64) : Z :=
  match x with
  | SpecFloat.S754_finite false m e => Z.min (2 ^ 64 - 1) (if 0 <=? e then Zpos m * 2 ^ e else Zpos m / 2 ^ (- e))
  | SpecFloat.S754_infinity false => 2 ^ 64 - 1
  | _ => 0
  end.

Record Acc : Type := mkAcc { ac_buckets : list (f64 * f64); ac_sum : f64; ac_count : f64 }.

(** The labels without the first [le], and its value. *)
Fixpoint take_le (labels : list (bytes * bytes)) : option bytes * list (bytes * bytes) :=
  match labels with
  | [] => (None, [])
  | (k, v) :: r => if beq k (lit "le") then (Some v, r) else let '(le, r) := take_le r in (le, (k, v) :: r)
  end.

Definition bound_of (le : option bytes) : f64 :=
  match le with
  | None => INFINITY
  | Some b => if beq b (lit "+Inf") then INFINITY else default INFINITY (parse_f64 b)
  end.

Definition acc_add (le : option bytes) (s : Sample) (a : Acc) : Acc :=
  if ends_with (sm_name s) (lit "_bucket") then mkAcc (ac_buckets a ++ [(bound_of le, sm_value s)]) (ac_sum a) (ac_count a)
  else if ends_with (sm_name s) (lit "_sum") then mkAcc (ac_buckets a) (sm_value s) (ac_count a)
  else if ends_with (sm_name s) (lit "_count") then mkAcc (ac_buckets a) (ac_sum a) (sm_value s)
  else a.

Fixpoint hist_add (labels : list (bytes * bytes)) (le : option bytes) (s : Sample) (gs : list (list (bytes * bytes) * Acc))
    : list (list (bytes * bytes) * Acc) :=
  match gs with
  | [] => [(labels, acc_add le s (mkAcc [] f64_zero f64_zero))]
  | (l, a) :: r => if bool_decide (l = labels) then (l, acc_add le s a) :: r else (l, a) :: hist_add labels le s r
  end.

(** From cumulative to per-bucket counts. *)
Fixpoint bucket_counts (prev : f64) (bs : list (f64 * f64)) : list Json :=
  match bs with
  | [] => []
  | (_, c) :: r => JStr (dec (as_u64 (max_zero (f64_sub c prev)))) :: bucket_counts c r
  end.

Definition hist_point (start now : bytes) (g : list (bytes * bytes) * Acc) : Json :=
  let bs := bucket_sort (ac_buckets g.2) in
  JObj [(lit "attributes", attributes g.1); (lit "startTimeUnixNano", JStr start); (lit "timeUnixNano", JStr now);
        (lit "count", JStr (dec (as_u64 (ac_count g.2)))); (lit "sum", json_f64 (ac_sum g.2));
        (lit "bucketCounts", JArr (bucket_counts f64_zero bs));
        (lit "explicitBounds", JArr (map json_f64 (List.filter is_finite (map fst bs))))].

Definition hist_groups (samples : list Sample) : list (list (bytes * bytes) * Acc) :=
  fold_left (fun gs s => let '(le, labels) := take_le (sm_labels s) in hist_add labels le s gs) samples [].

(** One metric of the request. *)
Definition metric_json (start now : bytes) (kind : MKind) (fam : bytes) (samples : list Sample) : Json :=
  match kind with
  | MCounter =>
      JObj [(lit "name", JStr fam);
            (lit "sum", JObj [(lit "aggregationTemporality", JInt 2); (lit "isMonotonic", JBool true);
               (lit "dataPoints", JArr (map (fun s => JObj [(lit "attributes", attributes (sm_labels s)); (lit "startTimeUnixNano", JStr start);
                                                           (lit "timeUnixNano", JStr now); (lit "asDouble", json_f64 (sm_value s))]) samples))])]
  | MGauge =>
      JObj [(lit "name", JStr fam);
            (lit "gauge", JObj [(lit "dataPoints", JArr (map (fun s => JObj [(lit "attributes", attributes (sm_labels s));
                                                           (lit "timeUnixNano", JStr now); (lit "asDouble", json_f64 (sm_value s))]) samples))])]
  | MHistogram =>
      JObj [(lit "name", JStr fam);
            (lit "histogram", JObj [(lit "aggregationTemporality", JInt 2); (lit "dataPoints", JArr (map (hist_point start now) (hist_groups samples)))])]
  end.

Definition envelope (service version : bytes) (metrics : list Json) : Json :=
  JObj [(lit "resourceMetrics", JArr [JObj [
    (lit "resource", JObj [(lit "attributes", JArr [JObj [(lit "key", JStr (lit "service.name")); (lit "value", JObj [(lit "stringValue", JStr service)])]])]);
    (lit "scopeMetrics", JArr [JObj [(lit "scope", JObj [(lit "name", JStr (lit "edgeguard")); (lit "version", JStr version)]);
                                     (lit "metrics", JArr metrics)]])]])].

Definition to_otlp_json (version text service : bytes) (start_unix_nano now_unix_nano : Z) : Json :=
  let types := fold_left type_line (str_lines text) ∅ in
  let groups := group types (omap parse_sample (str_lines text)) in
  let start := dec start_unix_nano in let now := dec now_unix_nano in
  envelope service version (map (fun '(fam, ss) => metric_json start now (default MGauge (types !! fam)) fam ss) groups).
End Otlp.
