(* ===== verification/OtlpLaws.v ===== *)
(** * OtlpLaws: what is pushed is what is scraped

    The text the registry renders, read back line by line, gives every sample again, under its family and with its
    labels and number; so the OTLP request holds exactly the registry's families. *)

From S2P Require Import Prelude Text Utf8 Float Json Metrics Exposition OtlpMetrics.

(** ** Lines *)

(** A line that ends in a visible character. *)
Definition ends_visibly (l : bytes) : Prop := exists m d, l = m ++ [d] /\ is_graphic d = true.

Lemma strip_cr_id l : ends_visibly l -> strip_cr l = l.
Proof.
  intros (m & d & -> & Hd). unfold strip_cr, strip_suffix. rewrite rev_app_distr. cbn [rev app strip_prefix].
  destruct (Z.eqb_spec 13 d) as [<-|]; [done|]. done.
Qed.

Lemma str_lines_text ls : Forall (fun l => 10 ∉ l) ls -> Forall ends_visibly ls -> str_lines (concat (map (fun l => l ++ [10]) ls)) = ls.
Proof.
  intros H1 H2. unfold str_lines. rewrite split_lines by done. rewrite List.last_last, removelast_last, app_nil_r.
  induction H2 as [|l ls Hl _ IH]; [done|]. cbn [map]. rewrite strip_cr_id, IH; [done | by inversion H1 | done].
Qed.

(** ** Labels *)

Definition name_char (c : Z) : bool := is_alnum c || (c =? 95).
Definition name_ok (s : bytes) : bool := negb (beq s []) && forallb name_char s.

Lemma name_char_graphic c : name_char c = true -> is_graphic c = true.
Proof.
  unfold name_char, is_alnum, is_alpha, is_upper, is_lower, is_digit, is_graphic.
  rewrite !orb_true_iff, !andb_true_iff, !Z.leb_le, Z.eqb_eq. lia.
Qed.

Lemma name_char_ne c d : name_char c = true -> name_char d = false -> c <> d.
Proof. intros H1 H2 ->. congruence. Qed.

Lemma name_ok_cons s : name_ok s = true -> exists c r, s = c :: r /\ name_char c = true /\ forallb name_char r = true.
Proof.
  unfold name_ok. destruct s as [|c r]; [done|]. cbn [forallb]. rewrite !andb_true_iff. intros (_ & H1 & H2). by exists c, r.
Qed.

Lemma trim_name s : name_ok s = true -> trim s = s.
Proof.
  intros (c & r & -> & Hc & Hr)%name_ok_cons. destruct r as [|d r _] using rev_ind.
  - unfold trim, trim_start. rewrite trim_go_graphic by (by apply ws_not_graphic, name_char_graphic).
    unfold trim_end. cbn [rev app]. by rewrite trim_go_graphic by (by apply ws_not_graphic, name_char_graphic).
  - rewrite forallb_app in Hr. cbn [forallb] in Hr. apply andb_true_iff in Hr as [_ Hd]. rewrite andb_true_r in Hd.
    by apply trim_graphic; apply name_char_graphic.
Qed.

Lemma label_key_name k r : forallb name_char k = true -> label_key (k ++ 61 :: r) = (k, r).
Proof.
  induction k as [|c k IH]; cbn [forallb app label_key]; [done|]. rewrite andb_true_iff. intros [Hc Hk].
  destruct (Z.eqb_spec c 61) as [->|]; [done|]. by rewrite IH.
Qed.

Lemma label_value_char c s : label_value (escape_char c ++ s) = ('(v, rest) ← label_value s; Some (c :: v, rest)).
Proof.
  unfold escape_char. destruct (Z.eqb_spec c 92) as [->|H1]; [done|]. destruct (Z.eqb_spec c 34) as [->|H2]; [done|].
  destruct (Z.eqb_spec c 10) as [->|H3]; [done|]. cbn [app label_value].
  repeat (case_match; try done; try lia).
Qed.

Lemma label_value_escaped v rest : label_value (escape_label v ++ 34 :: rest) = Some (v, rest).
Proof.
  unfold escape_label. induction v as [|c v IH]; cbn [map concat app]; [done|]. by rewrite <- app_assoc, label_value_char, IH.
Qed.

Definition keys_ok (ls : list (bytes * bytes)) : Prop := Forall (fun l => name_ok l.1 = true) ls.

(** One label, from its first character on. *)
Lemma label_set_one fuel k v s : name_ok k = true ->
  label_set (S fuel) (label_text (k, v) ++ s) = ('(ls, rest) ← label_set fuel s; Some ((k, v) :: ls, rest)).
Proof.
  intros Hk. pose proof (name_ok_cons k Hk) as (c & r & -> & Hc & Hr). cbn [label_set].
  assert (Hskip : drop_while (fun c => (c =? 44) || (c =? 32)) (label_text (c :: r, v) ++ s) = label_text (c :: r, v) ++ s).
  { unfold label_text. cbn [fst app drop_while]. destruct (Z.eqb_spec c 44) as [->|]; [done|]. by destruct (Z.eqb_spec c 32) as [->|]. }
  rewrite Hskip. unfold label_text. cbn [fst snd]. rewrite <- !app_assoc. cbn [app].
  assert (Hkey : label_key (c :: r ++ 61 :: 34 :: escape_label v ++ 34 :: s) = (c :: r, 34 :: escape_label v ++ 34 :: s)).
  { apply (label_key_name (c :: r)). cbn [forallb]. by rewrite Hc. }
  destruct (decide (c = 125)) as [->|Hne]; [done|].
  transitivity (let '(key, r0) := label_key (c :: r ++ 61 :: 34 :: escape_label v ++ 34 :: s) in
    match r0 with 34 :: r1 => '(v, r) ← label_value r1; '(ls, rest) ← label_set fuel r; Some ((trim key, v) :: ls, rest) | _ => None end).
  { repeat (case_match; try done; try lia). }
  rewrite Hkey. cbv beta iota. by rewrite label_value_escaped, trim_name.
Qed.

Lemma label_set_comma fuel s : label_set fuel (44 :: s) = label_set fuel s.
Proof. by destruct fuel. Qed.

Lemma label_set_all ls rest fuel : keys_ok ls -> (length ls < fuel)%nat ->
  label_set fuel (join [44] (map label_text ls) ++ 125 :: rest) = Some (ls, rest).
Proof.
  intros Hk. revert fuel. induction Hk as [|[k v] ls Hl Hk IH]; intros fuel Hf.
  - destruct fuel; [cbn in Hf; lia|]. done.
  - cbn [length] in Hf. destruct fuel as [|fuel]; [lia|]. destruct ls as [|l ls].
    + cbn [map join]. rewrite label_set_one by done. destruct fuel; [lia|]. done.
    + change (join [44] (map label_text ((k, v) :: l :: ls))) with (label_text (k, v) ++ [44] ++ join [44] (map label_text (l :: ls))).
      rewrite <- !app_assoc, label_set_one by done. cbn [app]. rewrite label_set_comma, IH by (cbn in *; lia). done.
Qed.

(** ** Numbers *)

Lemma beq_ne a b : a <> b -> beq a b = false.
Proof. intros H. destruct (beq a b) eqn:E; [by apply beq_true in E | done]. Qed.

(** A value of the type: mantissa and exponent in binary64's range. *)
Definition valid_f64 (x : f64) : bool := SpecFloat.valid_binary 53 1024 x.

(** What [f64]'s [Display] and [FromStr] promise each other and the readers of the text. *)
Class FloatText (show : f64 -> bytes) (parse : bytes -> option f64) : Prop := {
  shows_back : forall x, valid_f64 x = true -> parse (show x) = Some x;
  reads_int : forall z, parse (int_text z) = Some (f64_of_Z z);
  shows_visibly : forall x, valid_f64 x = true -> show x <> [] /\ forallb is_graphic (show x) = true;
  shows_nan : forall x, valid_f64 x = true -> show x = lit "NaN" -> x = NAN;
  shows_inf : forall x, valid_f64 x = true -> show x <> lit "+Inf" /\ show x <> lit "-Inf"
}.

Definition num_ok (n : Num) : bool := match n with NInt _ => true | NFloat x => valid_f64 x end.

Definition num_value (n : Num) : f64 := match n with NInt z => f64_of_Z z | NFloat x => x end.

Lemma digit_graphic c : is_digit c = true -> is_graphic c = true.
Proof. unfold is_digit, is_graphic. rewrite !andb_true_iff, !Z.leb_le. lia. Qed.

Lemma int_text_chars z : exists s, dec (Z.abs z) = s /\ s <> [] /\ Forall (fun c => is_digit c = true) s /\ (int_text z = s \/ int_text z = 45 :: s).
Proof.
  exists (dec (Z.abs z)). split_and!; [done | apply radix_go_nonempty | apply dec_digits |]. unfold int_text.
  destruct (Z.ltb_spec z 0); [right; by rewrite Z.abs_neq by lia | left; by rewrite Z.abs_eq].
Qed.

Lemma int_text_visible z : int_text z <> [] /\ forallb is_graphic (int_text z) = true.
Proof.
  destruct (int_text_chars z) as (s & _ & Hne & Hd & Hz). assert (forallb is_graphic s = true).
  { apply forallb_forall. intros c Hc. rewrite Forall_forall in Hd. apply digit_graphic, Hd. by apply list_elem_of_In. }
  destruct Hz as [-> | ->]; by split.
Qed.

Lemma int_text_plain z : int_text z <> lit "+Inf" /\ int_text z <> lit "-Inf" /\ int_text z <> lit "NaN".
Proof.
  destruct (int_text_chars z) as (s & _ & Hne & Hd & [-> | ->]); destruct Hd as [|c s Hc Hd]; try done; split_and!; intros [=]; subst; done.
Qed.

Section Reading.
Variable show : f64 -> bytes.
Variable parse : bytes -> option f64.
Context {FT : FloatText show parse}.

Lemma num_visible n : num_ok n = true -> num_text show n <> [] /\ forallb is_graphic (num_text show n) = true.
Proof. destruct n as [z|x]; cbn [num_text num_ok]; [intros _; apply int_text_visible | apply (shows_visibly (parse := parse) x)]. Qed.

Lemma number_back n : num_ok n = true -> number parse (num_text show n) = Some (num_value n).
Proof.
  unfold number. destruct n as [z|x]; cbn [num_text num_value num_ok]; intros Hv.
  - destruct (int_text_plain z) as (H1 & H2 & H3). rewrite !beq_ne by done. apply reads_int.
  - destruct (shows_inf x Hv) as [H1 H2]. rewrite (beq_ne _ _ H1), (beq_ne _ _ H2).
    destruct (beq (show x) (lit "NaN")) eqn:E; [|by apply shows_back]. apply beq_true in E. by rewrite (shows_nan x Hv E).
Qed.

(** ** A sample line *)

Lemma word_visible w : forallb is_graphic w = true -> word w = (w, []).
Proof.
  induction w as [|c w IH]; [done|]. cbn [forallb]. rewrite andb_true_iff. intros [Hc Hw]. cbn [word].
  rewrite strip_any_graphic by (by apply ws_not_graphic). by rewrite (IH Hw).
Qed.

Lemma trim_start_blank c s : is_graphic c = true -> trim_start (32 :: c :: s) = c :: s.
Proof.
  intros Hc. unfold trim_start. cbn [length trim_go]. change (strip_any ws_encodings (32 :: c :: s)) with (Some (c :: s)).
  by apply (trim_go_graphic ws_encodings (S _)), ws_not_graphic.
Qed.

Lemma next_word_number n : num_ok n = true -> next_word (32 :: num_text show n) = Some (num_text show n, []).
Proof.
  intros Hv. destruct (num_visible n Hv) as [Hne Hg]. destruct (num_text show n) as [|c r]; [done|]. unfold next_word.
  assert (Hc : is_graphic c = true) by (cbn [forallb] in Hg; by apply andb_true_iff in Hg as [Hc _]). by rewrite trim_start_blank, word_visible.
Qed.

Lemma split_name_at name c rest : forallb name_char name = true -> (c =? 123) || (c =? 32) = true ->
  split_name (name ++ c :: rest) = Some (name, c :: rest).
Proof.
  intros Hn Hc. induction name as [|d name IH]; cbn [app split_name]; [by rewrite Hc|]. cbn [forallb] in Hn.
  apply andb_true_iff in Hn as [Hd Hn]. destruct (Z.eqb_spec d 123) as [->|]; [done|]. destruct (Z.eqb_spec d 32) as [->|]; [done|].
  cbn [orb]. by rewrite IH.
Qed.

(** The line of a series, without its newline. *)
Definition series_line (name : bytes) (s : Series) : bytes :=
  name ++ se_suffix s ++ labels_text (se_labels s) ++ [32] ++ num_text show (se_value s).

Definition sample_of_series (name : bytes) (s : Series) : Sample := mkOSample (name ++ se_suffix s) (se_labels s) (num_value (se_value s)).

Definition series_ok (s : Series) : Prop := forallb name_char (se_suffix s) = true /\ keys_ok (se_labels s).

Lemma series_line_visible name s : num_ok (se_value s) = true -> ends_visibly (series_line name s).
Proof.
  intros Hv. destruct (num_visible (se_value s) Hv) as [Hne Hg]. destruct (num_text show (se_value s)) as [|d r _] eqn:E using rev_ind; [done|].
  rewrite forallb_app in Hg. cbn [forallb] in Hg. apply andb_true_iff in Hg as [_ Hd]. rewrite andb_true_r in Hd.
  exists (name ++ se_suffix s ++ labels_text (se_labels s) ++ [32] ++ r), d. split; [|done]. unfold series_line. rewrite E. by rewrite <- !app_assoc.
Qed.

Lemma parse_series name s : name_ok name = true -> series_ok s -> num_ok (se_value s) = true -> parse_sample parse (series_line name s) = Some (sample_of_series name s).
Proof.
  intros Hn [Hs Hk] Hv. unfold parse_sample.
  pose proof (name_ok_cons name Hn) as (c & r & Hname & Hc & Hr).
  assert (Htrim : trim (series_line name s) = series_line name s).
  { destruct (series_line_visible name s Hv) as (m & d & E & Hd). rewrite E. unfold series_line in E. rewrite Hname in E.
    destruct m as [|c' m].
    - apply (f_equal length) in E. cbn [app length] in E. rewrite !length_app in E. cbn [length] in E. lia.
    - cbn in E. injection E as <- E. apply trim_graphic; [by apply name_char_graphic | done]. }
  rewrite Htrim. assert (Hline : series_line name s = c :: r ++ se_suffix s ++ labels_text (se_labels s) ++ [32] ++ num_text show (se_value s)).
  { unfold series_line. by rewrite Hname. }
  rewrite Hline. destruct (Z.eqb_spec c 35) as [->|]; [done|]. rewrite <- Hline.
  assert (Hsplit : split_name (series_line name s) = Some (name ++ se_suffix s, labels_text (se_labels s) ++ [32] ++ num_text show (se_value s))).
  { unfold series_line. rewrite app_assoc.
    assert (Hnn : forallb name_char (name ++ se_suffix s) = true).
    { rewrite forallb_app, Hs, andb_true_r. rewrite Hname. cbn [forallb]. by rewrite Hc, Hr. }
    unfold labels_text. destruct (se_labels s) as [|l ls]; [by apply split_name_at|]. cbn [app]. by apply split_name_at. }
  rewrite Hsplit. cbn [mbind option_bind]. unfold labels_text. destruct (se_labels s) as [|l ls] eqn:El.
  - cbn [app strip_prefix]. change (123 =? 32) with false. cbv iota. cbn [mbind option_bind]. rewrite next_word_number by done. cbn [mbind option_bind].
    rewrite number_back by done. cbn. unfold sample_of_series. by rewrite El.
  - cbn [app strip_prefix]. rewrite Z.eqb_refl, <- app_assoc. cbn [app]. rewrite label_set_all; [|done|].
    + cbn [mbind option_bind]. rewrite next_word_number by done. cbn [mbind option_bind]. rewrite number_back by done. cbn. unfold sample_of_series. by rewrite El.
    + rewrite length_app. enough (length (l :: ls) <= length (join [44%Z] (map label_text (l :: ls))))%nat by lia.
      clear. induction (l :: ls) as [|x xs IH]; [cbn; lia|]. destruct xs as [|x' xs].
      * cbn [map join length]. unfold label_text. rewrite !length_app. cbn. lia.
      * change (join [44] (map label_text (x :: x' :: xs))) with (label_text x ++ [44] ++ join [44] (map label_text (x' :: xs))).
        rewrite !length_app. cbn [length] in *. lia.
Qed.
End Reading.

(** ** A whole text *)

Definition SUFFIXES : list bytes := [lit "_bucket"; lit "_sum"; lit "_count"].

(** The suffixes a family's samples carry. *)
Definition suffixes (k : MKind) : list bytes := if bool_decide (k = MHistogram) then SUFFIXES else [[]].

Definition help_ok (h : bytes) : bool :=
  forallb (fun c => negb (c =? 10)) h && match rev h with c :: _ => is_graphic c | [] => false end.

Record family_ok (f : Family) : Prop := mkFamilyOk {
  fo_name : name_ok (fa_name f) = true;
  fo_help : help_ok (fa_help f) = true;
  fo_series : Forall series_ok (fa_series f);
  fo_numbers : Forall (fun s => num_ok (se_value s) = true) (fa_series f);
  fo_suffix : Forall (fun s => se_suffix s ∈ suffixes (fa_kind f)) (fa_series f)
}.

(** No name, with a suffix a histogram would add, reads as a series of another histogram. *)
Definition sane (nk : list (bytes * MKind)) : bool :=
  forallb (fun '(n, k) => forallb (fun sfx => forallb (fun strip =>
      match strip_suffix strip (n ++ sfx) with
      | Some b => beq b n || negb (existsb (fun '(m, k') => beq m b && bool_decide (k' = MHistogram)) nk)
      | None => true
      end) SUFFIXES) (suffixes k)) nk.

Definition name_kind (f : Family) : bytes * MKind := (fa_name f, fa_kind f).

Lemma name_no_newline n : forallb name_char n = true -> 10 ∉ n.
Proof. intros Hn Hin. rewrite forallb_forall in Hn. apply list_elem_of_In, Hn in Hin. done. Qed.

Lemma visible_no_newline n : forallb is_graphic n = true -> 10 ∉ n.
Proof. intros Hn Hin. rewrite forallb_forall in Hn. apply list_elem_of_In, Hn in Hin. done. Qed.

Lemma name_ok_all n : name_ok n = true -> forallb name_char n = true.
Proof. unfold name_ok. rewrite andb_true_iff. tauto. Qed.

Lemma labels_no_newline ls : keys_ok ls -> 10 ∉ labels_text ls.
Proof.
  intros Hk. assert (Hj : 10 ∉ join [44] (map label_text ls)).
  { induction Hk as [|[k v] ls Hl Hk IH]; [apply not_elem_of_nil|].
    assert (Hl' : 10 ∉ label_text (k, v)).
    { unfold label_text. cbn [fst snd] in *. rewrite !not_elem_of_app. split_and!; [by apply name_no_newline, name_ok_all | set_solver by lia | apply escape_no_newline | set_solver by lia]. }
    destruct ls as [|l ls]; [done|].
    change (join [44] (map label_text ((k, v) :: l :: ls))) with (label_text (k, v) ++ [44] ++ join [44] (map label_text (l :: ls))).
    rewrite !not_elem_of_app. split_and!; [done | set_solver by lia | done]. }
  unfold labels_text. destruct ls; [apply not_elem_of_nil|]. rewrite !not_elem_of_app. split_and!; [set_solver by lia | done | set_solver by lia].
Qed.

Lemma visible_starts c s : ends_visibly (c :: s) -> is_graphic c = true -> trim (c :: s) = c :: s.
Proof.
  intros (m & d & E & Hd) Hc. destruct m as [|x m].
  - injection E as -> ->. unfold trim, trim_start. rewrite trim_go_graphic by (by apply ws_not_graphic). unfold trim_end. cbn [rev app].
    by rewrite trim_go_graphic by (by apply ws_not_graphic).
  - injection E as -> ->. by apply trim_graphic.
Qed.

Lemma comment_no_sample parse s : ends_visibly (35 :: s) -> parse_sample parse (35 :: s) = None.
Proof. intros H. unfold parse_sample. by rewrite (visible_starts 35 s H eq_refl). Qed.

Lemma word_until_blank w rest : forallb is_graphic w = true -> word (w ++ 32 :: rest) = (w, 32 :: rest).
Proof.
  induction w as [|c w IH]; [done|]. cbn [forallb app word]. rewrite andb_true_iff. intros [Hc Hw].
  rewrite strip_any_graphic by (by apply ws_not_graphic). by rewrite (IH Hw).
Qed.

Lemma name_graphic n : forallb name_char n = true -> forallb is_graphic n = true.
Proof. rewrite !forallb_forall. intros H c Hc. by apply name_char_graphic, H. Qed.

Section Text.
Variable show : f64 -> bytes.
Variable parse : bytes -> option f64.
Context {FT : FloatText show parse}.

Definition help_line (f : Family) : bytes := lit "# HELP " ++ fa_name f ++ [32] ++ fa_help f.
Definition kind_line (f : Family) : bytes := lit "# TYPE " ++ fa_name f ++ [32] ++ kind_text (fa_kind f).
Definition family_lines (f : Family) : list bytes := help_line f :: kind_line f :: map (series_line show (fa_name f)) (fa_series f).

Lemma family_text_lines f : family_text show f = concat (map (fun l => l ++ [10]) (family_lines f)).
Proof.
  unfold family_text, family_lines, help_line, kind_line. cbn [map concat]. rewrite <- !app_assoc.
  assert (Hs : concat (map (series_text show (fa_name f)) (fa_series f)) =
               concat (map (fun l => l ++ [10]) (map (series_line show (fa_name f)) (fa_series f)))); [|by rewrite Hs].
  induction (fa_series f) as [|s ss IH]; [done|]. cbn [map concat]. rewrite <- IH. unfold series_text, series_line. by rewrite <- !app_assoc.
Qed.

Lemma exposition_lines fs : exposition show fs = concat (map (fun l => l ++ [10]) (concat (map family_lines fs))).
Proof.
  unfold exposition. induction fs as [|f fs IH]; [done|]. cbn [map concat]. by rewrite map_app, concat_app, IH, family_text_lines.
Qed.

Lemma help_line_ok f : family_ok f -> 10 ∉ help_line f /\ ends_visibly (help_line f).
Proof.
  intros [Hn Hh _ _ _]. unfold help_ok in Hh. apply andb_true_iff in Hh as [Hh1 Hh2]. split.
  - unfold help_line. rewrite !not_elem_of_app. split_and!; [vm_compute; set_solver by lia | by apply name_no_newline, name_ok_all | set_solver by lia |].
    intros Hin. rewrite forallb_forall in Hh1. apply list_elem_of_In, Hh1 in Hin. done.
  - destruct (rev (fa_help f)) as [|d r] eqn:E; [done|]. apply (f_equal (@rev Z)) in E. rewrite rev_involutive in E. cbn in E.
    eexists _, d. split; [|done]. unfold help_line. rewrite E, !app_assoc. reflexivity.
Qed.

Lemma kind_line_ok f : family_ok f -> 10 ∉ kind_line f /\ ends_visibly (kind_line f).
Proof.
  intros [Hn _ _ _ _]. split.
  - unfold kind_line. rewrite !not_elem_of_app. split_and!; [vm_compute; set_solver by lia | by apply name_no_newline, name_ok_all | set_solver by lia |].
    destruct (fa_kind f); vm_compute; set_solver by lia.
  - unfold kind_line, ends_visibly. destruct (fa_kind f).
    + exists (lit "# TYPE " ++ fa_name f ++ [32] ++ lit "counte"), 114. by rewrite <- !app_assoc.
    + exists (lit "# TYPE " ++ fa_name f ++ [32] ++ lit "gaug"), 101. by rewrite <- !app_assoc.
    + exists (lit "# TYPE " ++ fa_name f ++ [32] ++ lit "histogra"), 109. by rewrite <- !app_assoc.
Qed.

Lemma series_line_ok f s : family_ok f -> series_ok s -> num_ok (se_value s) = true -> 10 ∉ series_line show (fa_name f) s.
Proof.
  intros [Hn _ _ _ _] [Hs Hk] Hv. unfold series_line. rewrite !not_elem_of_app.
  split_and!; [by apply name_no_newline, name_ok_all | by apply name_no_newline | by apply labels_no_newline | set_solver by lia |].
  by apply visible_no_newline, (num_visible show parse).
Qed.

Lemma exposition_read fs : Forall family_ok fs -> str_lines (exposition show fs) = concat (map family_lines fs).
Proof.
  intros Hf. rewrite exposition_lines. apply str_lines_text.
  - apply Forall_concat, Forall_map. eapply Forall_impl; [exact Hf|]. intros f Hok. cbn. constructor; [by apply help_line_ok|].
    constructor; [by apply kind_line_ok|]. apply Forall_map. eapply Forall_impl; [apply (proj2 (Forall_and _ _) (conj (fo_series f Hok) (fo_numbers f Hok)))|].
    intros s [Hs Hv]. by apply series_line_ok.
  - apply Forall_concat, Forall_map. eapply Forall_impl; [exact Hf|]. intros f Hok. cbn. constructor; [by apply help_line_ok|].
    constructor; [by apply kind_line_ok|]. apply Forall_map. eapply Forall_impl; [apply (fo_numbers f Hok)|]. intros s Hs.
    by apply (series_line_visible show parse).
Qed.

(** ** Samples and types *)

Definition samples_of (f : Family) : list Sample := map (sample_of_series (fa_name f)) (fa_series f).

Lemma samples_read fs : Forall family_ok fs -> omap (parse_sample parse) (concat (map family_lines fs)) = concat (map samples_of fs).
Proof.
  induction 1 as [|f fs Hok _ IH]; [done|]. cbn [map concat]. rewrite omap_app, IH. f_equal. unfold family_lines, samples_of.
  assert (H1 : parse_sample parse (help_line f) = None) by (apply comment_no_sample, (help_line_ok f Hok)).
  assert (H2 : parse_sample parse (kind_line f) = None) by (apply comment_no_sample, (kind_line_ok f Hok)).
  cbn [omap list_omap]. rewrite H1, H2.
  destruct Hok as [Hn _ Hs Hv _]. induction Hs as [|s ss Hs _ IHs]; [done|]. apply Forall_cons in Hv as [Hv1 Hv2]. specialize (IHs Hv2).
  cbn [map omap list_omap]. rewrite (parse_series show parse) by done. f_equal. exact IHs.
Qed.

Lemma type_line_skip types l : strip_prefix (lit "# TYPE ") l = None -> type_line types l = types.
Proof. intros H. unfold type_line. by rewrite H. Qed.

Lemma next_word_text w rest : w <> [] -> forallb is_graphic w = true -> next_word (w ++ 32 :: rest) = Some (w, 32 :: rest).
Proof.
  intros Hne Hg. unfold next_word. destruct w as [|c w]; [done|]. unfold trim_start. cbn [app].
  assert (Hc : is_graphic c = true) by (cbn [forallb] in Hg; by apply andb_true_iff in Hg as [Hc _]).
  rewrite trim_go_graphic by (by apply ws_not_graphic). change (c :: w ++ 32 :: rest) with ((c :: w) ++ 32 :: rest). by rewrite word_until_blank.
Qed.

Lemma next_word_last w : w <> [] -> forallb is_graphic w = true -> next_word (32 :: w) = Some (w, []).
Proof.
  intros Hne Hg. destruct w as [|c w]; [done|]. unfold next_word.
  assert (Hc : is_graphic c = true) by (cbn [forallb] in Hg; by apply andb_true_iff in Hg as [Hc _]). by rewrite trim_start_blank, word_visible.
Qed.

Lemma kind_line_type types f : family_ok f -> type_line types (kind_line f) = <[fa_name f := fa_kind f]> types.
Proof.
  intros [Hn _ _ _ _]. unfold type_line, kind_line.
  rewrite (proj2 (strip_prefix_Some (lit "# TYPE ") _ (fa_name f ++ [32] ++ kind_text (fa_kind f))) eq_refl).
  pose proof (name_ok_cons _ Hn) as (c & r & Hname & _ & _). cbn [app].
  rewrite next_word_text; [| by rewrite Hname | by apply name_graphic, name_ok_all].
  by destruct (fa_kind f).
Qed.

Lemma series_no_type types name s : name_ok name = true -> type_line types (series_line show name s) = types.
Proof.
  intros (c & r & -> & Hc & _)%name_ok_cons. apply type_line_skip. unfold series_line. cbn [app].
  assert (Hne : 35 =? c = false) by (apply Z.eqb_neq; intros <-; done).
  change (lit "# TYPE ") with (35 :: lit " TYPE "). cbn [strip_prefix]. by rewrite Hne.
Qed.

Definition types_of (fs : list Family) (types : gmap bytes MKind) : gmap bytes MKind :=
  fold_left (fun m f => <[fa_name f := fa_kind f]> m) fs types.

Lemma types_read fs types : Forall family_ok fs -> fold_left type_line (concat (map family_lines fs)) types = types_of fs types.
Proof.
  intros Hf. revert types. induction Hf as [|f fs Hok _ IH]; intros types; [done|]. cbn [map concat]. rewrite fold_left_app, IH.
  unfold types_of at 2. cbn [fold_left]. f_equal. unfold family_lines. cbn [fold_left].
  rewrite (type_line_skip types (help_line f)) by done. rewrite kind_line_type by done.
  generalize (<[fa_name f:=fa_kind f]> types). intros m. induction (fa_series f) as [|s ss IHs]; [done|]. cbn [map fold_left].
  rewrite series_no_type; [done | apply Hok].
Qed.
End Text.

Lemma types_of_other fs types n : n ∉ map fa_name fs -> types_of fs types !! n = types !! n.
Proof.
  revert types. induction fs as [|f fs IH]; intros types Hn; [done|]. cbn in Hn. apply not_elem_of_cons in Hn as [H1 H2].
  change (types_of (f :: fs) types) with (types_of fs (<[fa_name f := fa_kind f]> types)). rewrite IH by done. by rewrite lookup_insert_ne.
Qed.

(** Each family under its kind, and no other. *)
Lemma types_of_in fs types f : NoDup (map fa_name fs) -> f ∈ fs -> types_of fs types !! fa_name f = Some (fa_kind f).
Proof.
  revert types. induction fs as [|g fs IH]; intros types Hnd Hin; [by apply elem_of_nil in Hin|]. cbn in Hnd. apply NoDup_cons in Hnd as [Hg Hnd].
  change (types_of (g :: fs) types) with (types_of fs (<[fa_name g := fa_kind g]> types)).
  apply elem_of_cons in Hin as [-> | Hin]; [|by apply IH]. rewrite types_of_other by done. by rewrite lookup_insert_eq.
Qed.

Lemma types_of_only fs n k : types_of fs ∅ !! n = Some k -> exists f, f ∈ fs /\ fa_name f = n /\ fa_kind f = k.
Proof.
  assert (H : forall types, types_of fs types !! n = Some k -> (exists f, f ∈ fs /\ fa_name f = n /\ fa_kind f = k) \/ types !! n = Some k).
  { induction fs as [|g fs IH]; intros types Hl; [by right|].
    apply (IH (<[fa_name g := fa_kind g]> types)) in Hl as [(f & Hf & E) | Hl]; [left; exists f; split; [by right | done]|].
    apply lookup_insert_Some in Hl as [[<- <-] | [_ Hl]]; [left; exists g; split; [by left | done] | by right]. }
  intros Hl. by destruct (H _ Hl) as [?|?%lookup_empty_Some].
Qed.


(** ** Families again *)

Section Grouping.
Variable fs : list Family.
Hypothesis Hnd : NoDup (map fa_name fs).
Hypothesis Hsane : sane (map name_kind fs) = true.

Lemma sane_strip f sfx strip b : f ∈ fs -> sfx ∈ suffixes (fa_kind f) -> strip ∈ SUFFIXES ->
  strip_suffix strip (fa_name f ++ sfx) = Some b -> types_of fs ∅ !! b = Some MHistogram -> b = fa_name f.
Proof.
  intros Hf Hs Ht Hb Hty. pose proof Hsane as HS. unfold sane in HS. rewrite forallb_forall in HS.
  assert (Hin : In (name_kind f) (map name_kind fs)) by (apply in_map; by apply list_elem_of_In).
  specialize (HS _ Hin). unfold name_kind at 1 in HS. rewrite forallb_forall in HS. apply list_elem_of_In in Hs, Ht. specialize (HS sfx Hs).
  rewrite forallb_forall in HS. specialize (HS strip Ht). rewrite Hb in HS. apply orb_true_iff in HS as [H | H]; [by apply beq_true|].
  exfalso. apply negb_true_iff in H. apply types_of_only in Hty as (g & Hg & <- & Hk). enough (existsb (fun '(m, k') => beq m (fa_name g) && bool_decide (k' = MHistogram)) (map name_kind fs) = true) by congruence.
  apply existsb_exists. exists (name_kind g). split; [apply in_map; by apply list_elem_of_In|]. cbn. by rewrite beq_refl, Hk.
Qed.

Lemma suffix_stripped n sfx : strip_suffix sfx (n ++ sfx) = Some n.
Proof. by apply strip_suffix_Some. Qed.

Lemma family_found f sfx : f ∈ fs -> sfx ∈ suffixes (fa_kind f) -> family_of (types_of fs ∅) (fa_name f ++ sfx) = fa_name f.
Proof.
  intros Hf Hs. unfold family_of.
  set (base := fun suffix => b ← strip_suffix suffix (fa_name f ++ sfx); if bool_decide (types_of fs ∅ !! b = Some MHistogram) then Some b else None).
  assert (Hb : forall t, t ∈ SUFFIXES -> base t = None \/ base t = Some (fa_name f)).
  { intros t Ht. unfold base. destruct (strip_suffix t (fa_name f ++ sfx)) as [b|] eqn:E; [|by left]. cbn.
    case_bool_decide as Hty; [|by left]. right. by rewrite (sane_strip f sfx t b). }
  assert (Hx : fa_kind f <> MHistogram -> fa_name f ++ sfx = fa_name f).
  { intros Hk. unfold suffixes in Hs. rewrite bool_decide_eq_false_2 in Hs by done. apply list_elem_of_singleton in Hs as ->. apply app_nil_r. }
  assert (Hy : fa_kind f = MHistogram -> sfx ∈ SUFFIXES /\ base sfx = Some (fa_name f)).
  { intros Hk. unfold suffixes in Hs. rewrite bool_decide_eq_true_2 in Hs by done. split; [done|]. unfold base. rewrite suffix_stripped. cbn.
    by rewrite (types_of_in fs ∅ f Hnd Hf), Hk. }
  fold (base (lit "_bucket")) (base (lit "_sum")) (base (lit "_count")).
  destruct (Hb (lit "_bucket")) as [E1 | E1]; [unfold SUFFIXES; set_solver | | by rewrite E1].
  destruct (Hb (lit "_sum")) as [E2 | E2]; [unfold SUFFIXES; set_solver | | by rewrite E1, E2].
  destruct (Hb (lit "_count")) as [E3 | E3]; [unfold SUFFIXES; set_solver | | by rewrite E1, E2, E3].
  rewrite E1, E2, E3. destruct (decide (fa_kind f = MHistogram)) as [Hk | Hk]; [|by apply Hx].
  destruct (Hy Hk) as [Hin E]. unfold SUFFIXES in Hin. rewrite !elem_of_cons, elem_of_nil in Hin. destruct Hin as [-> | [-> | [-> | []]]]; congruence.
Qed.
End Grouping.

Lemma group_add_new fam s gs : fam ∉ map fst gs -> group_add fam s gs = gs ++ [(fam, [s])].
Proof.
  induction gs as [|[f ss] gs IH]; [done|]. cbn [map fst group_add app]. intros [H1 H2]%not_elem_of_cons. rewrite beq_ne by congruence. by rewrite IH.
Qed.

Lemma group_add_last fam s gs ss : fam ∉ map fst gs -> group_add fam s (gs ++ [(fam, ss)]) = gs ++ [(fam, ss ++ [s])].
Proof.
  induction gs as [|[f ss'] gs IH]; cbn [map fst group_add app]; [by rewrite beq_refl|]. intros [H1 H2]%not_elem_of_cons.
  rewrite beq_ne by congruence. by rewrite IH.
Qed.

Definition adds (types : gmap bytes MKind) (samples : list Sample) (gs : list (bytes * list Sample)) : list (bytes * list Sample) :=
  fold_left (fun gs s => group_add (family_of types (sm_name s)) s gs) samples gs.

Lemma adds_app types ss ts gs : adds types (ss ++ ts) gs = adds types ts (adds types ss gs).
Proof. apply fold_left_app. Qed.

Lemma group_run types fam samples gs : fam ∉ map fst gs -> Forall (fun s => family_of types (sm_name s) = fam) samples ->
  adds types samples gs = gs ++ (match samples with [] => [] | _ => [(fam, samples)] end).
Proof.
  intros Hn Hs. unfold adds. destruct Hs as [|s ss Hs Hss]; [by rewrite app_nil_r|]. cbn [fold_left]. rewrite Hs, group_add_new by done.
  change (s :: ss) with ([s] ++ ss). generalize ([s] : list Sample). induction Hss as [|t ts Ht _ IH]; intros acc; [by rewrite app_nil_r|].
  cbn [fold_left]. rewrite Ht, group_add_last by done. rewrite IH. by rewrite <- app_assoc.
Qed.

(** The families with a sample, each with its samples. *)
Definition grouped (fs : list Family) : list (bytes * list Sample) :=
  omap (fun f => match samples_of f with [] => None | ss => Some (fa_name f, ss) end) fs.

Lemma groups_read types fs gs : NoDup (map fst gs ++ map fa_name fs) ->
  Forall (fun f => Forall (fun s => family_of types (sm_name s) = fa_name f) (samples_of f)) fs ->
  adds types (concat (map samples_of fs)) gs = gs ++ grouped fs.
Proof.
  revert gs. induction fs as [|f fs IH]; intros gs Hnd Hf; [by rewrite app_nil_r|]. apply Forall_cons in Hf as [Hf1 Hf2]. cbn [map concat].
  rewrite adds_app. cbn [map] in Hnd.
  assert (Hn : fa_name f ∉ map fst gs) by (apply NoDup_app in Hnd as (_ & H & _); intros Hin; apply (H _ Hin); by left).
  rewrite (group_run types (fa_name f) (samples_of f) gs) by done.
  unfold grouped at 1. cbn [omap list_omap]. fold (grouped fs). destruct (samples_of f) as [|s ss].
  - rewrite app_nil_r. apply IH; [|done]. eapply sublist_NoDup; [exact Hnd|]. apply sublist_app; [done|]. by constructor.
  - rewrite IH; [by rewrite <- app_assoc | | done]. rewrite map_app, <- app_assoc. exact Hnd.
Qed.

(** The request made from a list of families directly. *)
Definition otlp_of_families (parse : bytes -> option f64) (version service : bytes) (start now : Z) (fs : list Family) : Json :=
  envelope service version
    (omap (fun f => match fa_series f with
                    | [] => None
                    | _ => Some (metric_json parse (dec start) (dec now) (fa_kind f) (fa_name f) (samples_of f))
                    end) fs).

Lemma otlp_reads show parse `{!FloatText show parse} version service start now fs :
  Forall family_ok fs -> NoDup (map fa_name fs) -> sane (map name_kind fs) = true ->
  to_otlp_json parse version (exposition show fs) service start now = otlp_of_families parse version service start now fs.
Proof.
  intros Hok Hnd Hsane. unfold to_otlp_json, otlp_of_families. rewrite (exposition_read show parse) by done.
  rewrite (types_read show), (samples_read show parse) by done. f_equal.
  change (group ?t ?s) with (adds t s []). rewrite groups_read; [|done|].
  - cbn [app]. unfold grouped. assert (Hsub : forall f, f ∈ fs -> types_of fs ∅ !! fa_name f = Some (fa_kind f)) by (intros; by apply types_of_in).
    clear Hok Hnd Hsane. revert Hsub. generalize (types_of fs ∅). intros types Hsub. induction fs as [|f fs IH]; [done|].
    cbn [omap list_omap]. unfold samples_of at 1. specialize (IH ltac:(intros g Hg; apply Hsub; by right)).
    specialize (Hsub f ltac:(by left)). destruct (fa_series f) as [|s ss] eqn:E; cbn [map]; [exact IH|].
    rewrite IH, Hsub. unfold samples_of. by rewrite E.
  - apply Forall_forall. intros f Hf. rewrite Forall_forall in Hok. destruct (Hok f Hf) as [_ _ _ _ Hsx]. unfold samples_of.
    apply Forall_map. eapply Forall_impl; [exact Hsx|]. intros s Hs. cbn. by apply family_found.
Qed.
