(* ===== verification/OtlpRegistry.v ===== *)
(** * OtlpRegistry: the registry through the exporter

    Every family [Metrics::render] writes has the shape the exporter reads and a name of its own, so the OTLP request
    made from the text is the one made from the registry directly. *)

From S2P Require Import Prelude Text Utf8 Float Json Metrics Serve Exposition OtlpMetrics OtlpLaws.

(** ** The registry's families *)

(** What a series of a family of kind [k] looks like, its number aside. *)
Definition fits (k : MKind) (s : Series) : Prop := series_ok s /\ se_suffix s ∈ suffixes k.

Record family_shape (f : Family) : Prop := mkShape {
  fs_name : name_ok (fa_name f) = true;
  fs_help : help_ok (fa_help f) = true;
  fs_series : Forall (fits (fa_kind f)) (fa_series f)
}.

Definition numbers_ok (fs : list Family) : bool := forallb (fun f => forallb (fun s => num_ok (se_value s)) (fa_series f)) fs.

Lemma shapes_ok fs : Forall family_shape fs -> numbers_ok fs = true -> Forall family_ok fs.
Proof.
  unfold numbers_ok. induction 1 as [|f fs [H1 H2 H3] _ IH]; [by constructor|]. cbn [forallb]. rewrite andb_true_iff. intros [Hv Hr].
  constructor; [|by apply IH]. apply Forall_and in H3 as [H3 H4]. constructor; try done.
  apply Forall_forall. intros s Hs. rewrite forallb_forall in Hv. apply Hv. by apply list_elem_of_In.
Qed.

Lemma keys_dec ls : forallb (fun l => name_ok l.1) ls = true -> keys_ok ls.
Proof. intros H. apply Forall_forall. intros l Hl. rewrite forallb_forall in H. apply H. by apply list_elem_of_In. Qed.

Lemma sample_fits k ls v : k <> MHistogram -> forallb (fun l => name_ok l.1) ls = true -> fits k (mkSeries [] ls v).
Proof.
  intros Hk Hl. split; [split; [done | by apply keys_dec]|]. unfold suffixes. rewrite bool_decide_eq_false_2 by done. by left.
Qed.

Lemma bucket_fits sfx ls v : sfx ∈ SUFFIXES -> forallb (fun l => name_ok l.1) ls = true -> fits MHistogram (mkSeries sfx ls v).
Proof.
  intros Hs Hl. split; [|exact Hs]. split; [|by apply keys_dec]. unfold SUFFIXES in Hs. rewrite !elem_of_cons, elem_of_nil in Hs.
  by destruct Hs as [-> | [-> | [-> | []]]].
Qed.

Lemma Forall_flat {A B} (P : B -> Prop) (f : A -> list B) l : (forall x, Forall P (f x)) -> Forall P (flat_map f l).
Proof. intros H. apply Forall_flat_map. by apply Forall_true. Qed.

Lemma Forall_zip {A B C} (P : C -> Prop) (f : A -> B -> C) l k : (forall x y, P (f x y)) -> Forall P (zip_with f l k).
Proof. intros H. revert k. induction l as [|x l IH]; intros [|y k]; cbn; constructor; auto. Qed.

Lemma Forall_mapped {A B} (P : B -> Prop) (f : A -> B) l : (forall x, P (f x)) -> Forall P (map f l).
Proof. intros H. apply Forall_map. by apply Forall_true. Qed.

Lemma Forall_when b fs : Forall family_shape fs -> Forall family_shape (when b fs).
Proof. intros H. by destruct b. Qed.

Lemma hist_fits show l bounds h : forallb (fun l => name_ok l.1) l = true -> Forall (fits MHistogram) (hist_series show l bounds h).
Proof.
  intros Hl. assert (Hle : forall v, forallb (fun l => name_ok l.1) (l ++ [(lit "le", v)]) = true) by (intros v; by rewrite forallb_app, Hl).
  unfold hist_series. apply Forall_app. split; [apply Forall_zip; intros b v; apply bucket_fits; [by left | apply Hle]|].
  repeat constructor; apply bucket_fits; try apply Hle; try done; unfold SUFFIXES; set_solver.
Qed.

(** The shape of a block the source writes: its text is fixed, its rows vary. *)
Ltac rows :=
  repeat first
    [ apply Forall_nil_2 | apply Forall_when | apply hist_fits; reflexivity | apply sample_fits; [discriminate | reflexivity]
    | apply Forall_app; split | apply Forall_flat; intros ? | apply Forall_zip; intros ? ? | apply Forall_mapped; intros ?
    | apply Forall_cons_2 | match goal with |- context [match ?x with _ => _ end] => destruct x end
    | apply mkShape; [reflexivity | reflexivity |] ].

(** The names and kinds the registry can write, in its order. *)
Definition REQUEST_NAMES : list (bytes * MKind) :=
  [(lit "edgeguard_requests_total", MCounter);
   (lit "edgeguard_ratelimit_hits_total", MCounter);
   (lit "edgeguard_waf_hits_total", MCounter);
   (lit "edgeguard_csp_reports_total", MCounter);
   (lit "edgeguard_csp_reports_dropped_total", MCounter);
   (lit "edgeguard_csp_forward_requests_total", MCounter)].

Definition LISTENER_NAMES : list (bytes * MKind) :=
  [(lit "edgeguard_connections_open", MGauge);
   (lit "edgeguard_connections_rejected_total", MCounter);
   (lit "edgeguard_requests_in_flight", MGauge);
   (lit "edgeguard_connections_max", MGauge);
   (lit "edgeguard_tls_handshakes_total", MCounter);
   (lit "edgeguard_tls_handshake_failures_total", MCounter);
   (lit "edgeguard_tls_no_client_hello_total", MCounter);
   (lit "edgeguard_proxy_protocol_total", MCounter)].

Definition SHIPPING_NAMES : list (bytes * MKind) :=
  [(lit "edgeguard_logship_sent_total", MCounter);
   (lit "edgeguard_logship_dropped_total", MCounter);
   (lit "edgeguard_logship_batches_total", MCounter);
   (lit "edgeguard_spans_sent_total", MCounter);
   (lit "edgeguard_spans_dropped_total", MCounter)].

Definition LATENCY_NAMES : list (bytes * MKind) :=
  [(lit "edgeguard_request_duration_seconds", MHistogram);
   (lit "edgeguard_llm_ttft_seconds", MHistogram);
   (lit "edgeguard_llm_tpot_seconds", MHistogram)].

Definition LLM_NAMES : list (bytes * MKind) :=
  [(lit "edgeguard_llm_tokens_total", MCounter);
   (lit "edgeguard_llm_cached_tokens_total", MCounter);
   (lit "edgeguard_llm_reasoning_tokens_total", MCounter);
   (lit "edgeguard_llm_cost_microdollars_total", MCounter);
   (lit "edgeguard_llm_model_tokens_total", MCounter);
   (lit "edgeguard_llm_model_cost_microdollars_total", MCounter);
   (lit "edgeguard_llm_team_tokens_total", MCounter);
   (lit "edgeguard_llm_team_cost_microdollars_total", MCounter);
   (lit "edgeguard_llm_key_tokens_total", MCounter);
   (lit "edgeguard_llm_key_cost_microdollars_total", MCounter)].

Definition POLICY_NAMES : list (bytes * MKind) :=
  [(lit "edgeguard_llm_budget_blocked_total", MCounter);
   (lit "edgeguard_llm_budget_consumed_ratio", MGauge);
   (lit "edgeguard_llm_budget_reconcile_failures_total", MCounter);
   (lit "edgeguard_llm_requests_total", MCounter);
   (lit "edgeguard_llm_keyvault_total", MCounter);
   (lit "edgeguard_llm_dlp_findings_total", MCounter);
   (lit "edgeguard_llm_dlp_blocked_total", MCounter)].

Definition CERT_NAMES : list (bytes * MKind) :=
  [(lit "edgeguard_tls_cert_not_after_seconds", MGauge);
   (lit "edgeguard_tls_cert_not_before_seconds", MGauge);
   (lit "edgeguard_tls_cert_reloads_total", MCounter);
   (lit "edgeguard_tls_cert_renewals_total", MCounter);
   (lit "edgeguard_tls_crl_next_update_seconds", MGauge)].

Definition CLIENT_NAMES : list (bytes * MKind) :=
  [(lit "edgeguard_client_cert_header_total", MCounter);
   (lit "edgeguard_forwarded_for_total", MCounter)].

Definition TRAFFIC_NAMES : list (bytes * MKind) :=
  [(lit "edgeguard_route_requests_total", MCounter);
   (lit "edgeguard_route_request_duration_seconds", MHistogram);
   (lit "edgeguard_consumer_requests_total", MCounter);
   (lit "edgeguard_consumer_bytes_total", MCounter);
   (lit "edgeguard_upstream_requests_total", MCounter);
   (lit "edgeguard_upstream_duration_seconds", MHistogram)].

Definition POOL_NAMES : list (bytes * MKind) :=
  [(lit "edgeguard_upstream_in_rotation", MGauge);
   (lit "edgeguard_upstream_in_flight", MGauge);
   (lit "edgeguard_upstream_ejections_total", MCounter);
   (lit "edgeguard_upstream_health_checks_total", MCounter)].

Definition CATALOG : list (bytes * MKind) :=
  REQUEST_NAMES ++ LISTENER_NAMES ++ SHIPPING_NAMES ++ LATENCY_NAMES ++ LLM_NAMES ++ POLICY_NAMES ++ CERT_NAMES ++ CLIENT_NAMES ++ TRAFFIC_NAMES
  ++ POOL_NAMES ++ [(lit "edgeguard_edge_overhead_seconds", MHistogram)].

Lemma CATALOG_distinct : NoDup (map fst CATALOG).
Proof. apply (bool_decide_unpack _). vm_compute. exact I. Qed.

Lemma CATALOG_sane : sane CATALOG = true.
Proof. vm_compute. reflexivity. Qed.

Lemma sublist_In {A} (l k : list A) x : sublist l k -> In x l -> In x k.
Proof. rewrite <- !list_elem_of_In. intros H1 H2. by eapply elem_of_sublist. Qed.

Lemma sane_sublist nk nk' : sublist nk nk' -> sane nk' = true -> sane nk = true.
Proof.
  intros Hsub. unfold sane. rewrite !forallb_forall. intros H [n k] Hin. pose proof (sublist_In _ _ _ Hsub Hin) as Hin'. specialize (H _ Hin').
  cbn beta iota in *. rewrite forallb_forall in *. intros sfx Hs. specialize (H sfx Hs). rewrite forallb_forall in *. intros t Ht. specialize (H t Ht).
  destruct (strip_suffix t (n ++ sfx)) as [b|]; [|done]. apply orb_true_iff in H as [-> | H]; [done|]. apply orb_true_iff. right.
  apply negb_true_iff in H. apply negb_true_iff. apply not_true_is_false. intros (x & Hx & E)%existsb_exists. revert H.
  apply not_false_iff_true, existsb_exists. exists x. split; [by eapply sublist_In | done].
Qed.

Section Registry.
Variable show : f64 -> bytes.
Variable g : Registry.

Lemma request_shapes : Forall family_shape (request_families g).
Proof. unfold request_families, by_label, single, sample. rows. Qed.

Lemma listener_shapes : Forall family_shape (listener_families g).
Proof. unfold listener_families, tls_families, proxy_families, per_listener, sample. rows. Qed.

Lemma shipping_shapes : Forall family_shape (logship_families g ++ span_families g).
Proof. unfold logship_families, span_families, single, sample. rows. Qed.

Lemma latency_shapes : Forall family_shape (latency_families show g).
Proof. unfold latency_families, hist_family. rows. Qed.

Lemma llm_shapes : Forall family_shape (llm_families g).
Proof. unfold llm_families, breakdown, single, sample. rows. Qed.

Lemma policy_shapes : Forall family_shape (policy_families g).
Proof. unfold policy_families, by_label, single, sample. rows. Qed.

Lemma cert_shapes : Forall family_shape (cert_families g).
Proof. unfold cert_families, cert_series, sample. rows. Qed.

Lemma client_shapes : Forall family_shape (client_families g).
Proof. unfold client_families, by_label, sample. rows. Qed.

Lemma traffic_shapes : Forall family_shape (route_families show g ++ consumer_families g ++ upstream_families show g).
Proof. unfold route_families, consumer_families, upstream_families, sample. rows. Qed.

Lemma pool_shapes hp now pools : Forall family_shape (pool_families hp now pools).
Proof. unfold pool_families, sample. rows. Qed.

Lemma sub_when b fs nk : sublist (map name_kind fs) nk -> sublist (map name_kind (when b fs)) nk.
Proof. destruct b; [done|]. intros _. apply sublist_nil_l. Qed.

Lemma listener_names : sublist (map name_kind (listener_families g)) LISTENER_NAMES.
Proof.
  unfold listener_families, tls_families, proxy_families. apply sub_when. rewrite !map_app.
  apply (sublist_app _ (take 3 LISTENER_NAMES) _ (drop 3 LISTENER_NAMES)); [reflexivity|].
  apply (sublist_app _ (take 1 (drop 3 LISTENER_NAMES)) _ (drop 4 LISTENER_NAMES)); [by apply sub_when|].
  apply (sublist_app _ (take 3 (drop 4 LISTENER_NAMES)) _ (drop 7 LISTENER_NAMES)); by apply sub_when.
Qed.

Lemma shipping_names : sublist (map name_kind (logship_families g ++ span_families g)) SHIPPING_NAMES.
Proof.
  rewrite map_app. apply (sublist_app _ (take 3 SHIPPING_NAMES) _ (drop 3 SHIPPING_NAMES)); unfold logship_families, span_families;
    repeat case_match; first [reflexivity | apply sublist_nil_l].
Qed.

Lemma cert_names : sublist (map name_kind (cert_families g)) CERT_NAMES.
Proof.
  unfold cert_families. rewrite map_app. apply (sublist_app _ (take 4 CERT_NAMES) _ (drop 4 CERT_NAMES)); [|by apply sub_when].
  unfold cert_series. destruct (_ && _); [apply sublist_nil_l|]. rewrite map_app.
  apply (sublist_app _ (take 3 CERT_NAMES) _ (take 1 (drop 3 CERT_NAMES))); [reflexivity|]. destruct (cv_listener _); [reflexivity | apply sublist_nil_l].
Qed.

Lemma client_names : sublist (map name_kind (client_families g)) CLIENT_NAMES.
Proof.
  unfold client_families. rewrite map_app. apply (sublist_app _ (take 1 CLIENT_NAMES) _ (drop 1 CLIENT_NAMES)); [|by apply sub_when].
  case_match; [reflexivity | apply sublist_nil_l].
Qed.

Lemma traffic_names : sublist (map name_kind (route_families show g ++ consumer_families g ++ upstream_families show g)) TRAFFIC_NAMES.
Proof.
  rewrite !map_app. apply (sublist_app _ (take 2 TRAFFIC_NAMES) _ (drop 2 TRAFFIC_NAMES)); [by apply sub_when|].
  apply (sublist_app _ (take 2 (drop 2 TRAFFIC_NAMES)) _ (drop 4 TRAFFIC_NAMES)); by apply sub_when.
Qed.

Lemma pool_names hp now pools : sublist (map name_kind (pool_families hp now pools)) POOL_NAMES.
Proof.
  unfold pool_families. apply sub_when. rewrite !map_app.
  apply (sublist_app _ (take 1 POOL_NAMES) _ (drop 1 POOL_NAMES)); [reflexivity|].
  apply (sublist_app _ (take 1 (drop 1 POOL_NAMES)) _ (drop 2 POOL_NAMES)); [by apply sub_when|].
  apply (sublist_app _ (take 1 (drop 2 POOL_NAMES)) _ (drop 3 POOL_NAMES)); [reflexivity | by apply sub_when].
Qed.

Lemma families_named : sublist (map name_kind (families show g)) CATALOG.
Proof.
  unfold families, CATALOG. rewrite (app_assoc (logship_families g)), (app_assoc (route_families show g)), (app_assoc (_ ++ _) (upstream_families show g)).
  rewrite <- (app_assoc (route_families show g)), !(map_app name_kind).
  repeat apply sublist_app; try reflexivity.
  - apply listener_names.
  - rewrite <- map_app. apply shipping_names.
  - apply cert_names.
  - apply client_names.
  - rewrite <- !map_app. apply traffic_names.
  - destruct (g_pools g) as [[[hp now] pools]|]; [apply pool_names | apply sublist_nil_l].
Qed.

Lemma families_shaped : Forall family_shape (families show g).
Proof.
  pose proof shipping_shapes as Hs. pose proof traffic_shapes as Ht. unfold families. rewrite !Forall_app in *.
  split_and!; try tauto.
  - apply request_shapes.
  - apply listener_shapes.
  - apply latency_shapes.
  - apply llm_shapes.
  - apply policy_shapes.
  - apply cert_shapes.
  - apply client_shapes.
  - destruct (g_pools g) as [[[hp now] pools]|]; [apply pool_shapes | constructor].
  - unfold overhead_family, hist_family. rows.
Qed.
End Registry.

(** ** A float's text, for the witness *)

Definition int_parse (s : bytes) : option Z :=
  match s with 45 :: r => Z.opp <$> digits_go 0 r | _ => digits_go 0 s end.

Lemma int_parse_text z : int_parse (int_text z) = Some z.
Proof.
  unfold int_text, int_parse. destruct (Z.ltb_spec z 0) as [Hz | Hz].
  - rewrite digits_go_dec by lia. cbn. f_equal. lia.
  - pose proof (dec_digits z) as Hd. rewrite <- (digits_go_dec z Hz). destruct Hd as [|c r Hc _]; [done|].
    repeat (case_match; try done).
Qed.

(** Mantissa and exponent in decimal, the sign as a letter. *)
Definition raw_show (x : f64) : bytes :=
  match x with
  | SpecFloat.S754_zero s => if s then lit "y" else lit "z"
  | SpecFloat.S754_infinity s => if s then lit "j" else lit "i"
  | SpecFloat.S754_nan => lit "NaN"
  | SpecFloat.S754_finite s m e => (if s then 109 else 112) :: int_text (Zpos m) ++ 101 :: int_text e
  end.

Definition raw_finite (sign : bool) (s : bytes) : option f64 :=
  '(m, e) ← split_once 101 s; m ← int_parse m; e ← int_parse e; Some (SpecFloat.S754_finite sign (Z.to_pos m) e).

Definition raw_parse (s : bytes) : option f64 :=
  match s with
  | 121 :: _ => Some (SpecFloat.S754_zero true)
  | 122 :: _ => Some (SpecFloat.S754_zero false)
  | 106 :: _ => Some (SpecFloat.S754_infinity true)
  | 105 :: _ => Some (SpecFloat.S754_infinity false)
  | 78 :: _ => Some SpecFloat.S754_nan
  | 109 :: r => raw_finite true r
  | 112 :: r => raw_finite false r
  | _ => f64_of_Z <$> int_parse s
  end.

Lemma int_text_no_e z : 101 ∉ int_text z.
Proof.
  destruct (int_text_chars z) as (s & _ & _ & Hd & Hz). assert (101 ∉ s) by (intros Hin; rewrite Forall_forall in Hd; by apply Hd in Hin).
  destruct Hz as [-> | ->]; [done|]. by apply not_elem_of_cons.
Qed.

Lemma raw_finite_back sign m e : raw_finite sign (int_text (Zpos m) ++ 101 :: int_text e) = Some (SpecFloat.S754_finite sign m e).
Proof.
  unfold raw_finite. rewrite (proj2 (split_once_Some 101 _ (int_text (Zpos m)) (int_text e))) by (split; [done | apply int_text_no_e]).
  cbn [mbind option_bind]. rewrite !int_parse_text. done.
Qed.

#[global] Instance raw_float_text : FloatText raw_show raw_parse.
Proof.
  split.
  - intros [[|]|[|]| |[|] m e] _; try done; apply raw_finite_back.
  - intros z. pose proof (int_parse_text z) as Hp. destruct (int_text_chars z) as (s & _ & Hne & Hd & [Hz | Hz]); rewrite Hz in *.
    + destruct Hd as [|c r Hc _]; [done|]. transitivity (f64_of_Z <$> int_parse (c :: r)); [|by rewrite Hp].
      unfold raw_parse. repeat (case_match; try done).
    + transitivity (f64_of_Z <$> int_parse (45 :: s)); [done | by rewrite Hp].
  - intros [[|]|[|]| |s m e] _; try done. split; [done|]. cbn [raw_show forallb]. rewrite forallb_app. cbn [forallb].
    rewrite (proj2 (int_text_visible (Zpos m))), (proj2 (int_text_visible e)). by destruct s.
  - intros [[|]|[|]| |[|] m e] _ H; done.
  - intros [[|]|[|]| |[|] m e] _; done.
Qed.

(** A registry with a listener, a route and a budget whose names need escaping. *)
Definition odd_name : bytes := [97; 34; 92; 10; 125; 32; 44; 98].
Definition zeros (n : nat) : list Z := repeat 0 n.
Definition a_hist : Hist := mkHist (repeat 1 11) 1500000 2.

Lemma names_of_kinds fs : map fa_name fs = map fst (map name_kind fs).
Proof. by rewrite map_map. Qed.

(** C30. What is pushed is what is scraped: for every registry, the OTLP request the exporter makes by reading the
    Prometheus text is the one made from the families themselves -- each family that has a sample once, under its
    kind, with all its samples, their labels unescaped and their numbers -- whatever the labels hold: quotes,
    backslashes, newlines, braces. *)
Theorem otlp_agrees show parse (FT : FloatText show parse) (g : Registry) version service start now :
  numbers_ok (families show g) = true ->
  to_otlp_json parse version (render show g) service start now = otlp_of_families parse version service start now (families show g).
Proof.
  intros Hnum. pose proof (families_named show g) as Hn. apply (otlp_reads show parse).
  - apply shapes_ok; [apply families_shaped | done].
  - rewrite names_of_kinds. eapply sublist_NoDup; [apply CATALOG_distinct | by apply (fmap_sublist fst)].
  - eapply sane_sublist; [exact Hn | apply CATALOG_sane].
Qed.

Definition odd_registry : Registry :=
  mkRegistry [1; 2; 3] [4] [5] 6 [7; 8] 9 10
    [mkListenerView odd_name 1 2 3 100 true true stats_new] (Some (1, 2, 3, 4, 5)) None a_hist a_hist a_hist 1 2 3 4 5
    [(odd_name, mkPerModel 1 2 3 4 5)] [] [] [1; 2] [(odd_name, f64_div (f64_of_Z 1) (f64_of_Z 3))] 0 [1] [2] [3] 4
    (mkCertView None [] [] [] []) None true [1; 2; 3; 4; 5]
    [(odd_name, mkRouteStats (repeat 7 50) a_hist)] [(odd_name, mkConsumerStats [1; 2; 3; 4; 5] 6 7)] [] None (mkHist (repeat 1 12) 1500000 2).

Lemma otlp_agrees_witness :
  numbers_ok (families raw_show odd_registry) = true /\
  to_otlp_json raw_parse (lit "1") (render raw_show odd_registry) (lit "edge") 1 2
  = otlp_of_families raw_parse (lit "1") (lit "edge") 1 2 (families raw_show odd_registry).
Proof. split; [vm_compute; reflexivity|]. apply (otlp_agrees raw_show raw_parse raw_float_text). vm_compute. reflexivity. Defined.
