(* ===== verification/Doctor.v ===== *)
(** * Doctor: the configuration lint ([src/src/doctor.rs])

    Every check of [lint], in its order, over the configuration of [Boot] with the sections the runtime is not built
    from filled in.  A message is a constructor with what the message interpolates; its wording is not modelled.
    What [lint] builds to see whether it builds -- the listener's settings, verifiers, clients -- are the definitions
    the proxy itself starts with. *)

From S2P Require Import Prelude Text Net Units Float Access Limiter Http Der Health Pool PoolConfig Checking ClientCert Auth Forwarding Cors CertStore Outbound Alert Telemetry ProxyProtocol Boot Serve UpstreamTls AcmeBudget Acme.

(** ** The rest of the configuration *)

Record SniCertCfg : Type := mkSniCertCfg { sc_hosts : list bytes; sc_cert_path : bytes; sc_key_path : bytes }.

(** What [tls] has beside its switch and the client certificates' mode. *)
Record TlsFiles : Type := mkTlsFiles {
  tf_cert_path : bytes; tf_key_path : bytes; tf_self_signed : bool; tf_self_signed_days : Z; tf_self_signed_renew : bool;
  tf_redirect_port : Z; tf_redirect_status : Z; tf_redirect_hosts : list bytes;
  tf_acme_enabled : bool; tf_acme_renew : bool; tf_acme : AcmeSection; tf_certs : list SniCertCfg;
  tf_ca_path : bytes; tf_crl_paths : list bytes         (** of [tls.client_auth] *)
}.

(** [log.ship], [tracing], [metrics.otlp]. *)
Record Collector : Type := mkCollector { co_enabled : bool; co_url : bytes; co_outbound : OutboundCfg }.

Abbreviation FullConfig := (@Config TlsFiles UpstreamTlsCfg Collector Collector Collector (list bytes)).

(** ** Findings *)

Inductive Level : Type := Error | Warn | Info.
#[global] Instance Level_eq_dec : EqDecision Level.
Proof. solve_decision. Defined.

Inductive Notice : Type :=
| AuthNone | BasicNoUsers | BadHash (user : bytes) | PlaintextPassword (user : bytes) | NoApiKeys | JwtNoKey
| NoRateLimit | RedisNoUrl
| RefusesToStart (e : String.string)
| BadChallenge (c : bytes) | WildcardOverHttp (d : bytes) | DnsProviderFails (e : String.string) | TestDnsServer
| PlainHttp | HstsWithoutTls | SelfSignedTls | SelfSignedTooLong | NoCertificate | SelfSignedNoPaths
| NoRedirect | RedirectIsPublicPort (p : Z) | RedirectIsAdminPort (p : Z) | BadRedirectStatus (s : Z) | RedirectAnyHost | RedirectWithAcme
| SniNoHosts (path : bytes) | SniBadHost (e : String.string) | SniUnreadable (path : bytes) | AcmeNotRenewed
| Expired (path : bytes) (renews : bool) | ExpiresIn (path : bytes) (days : Z) (renews : bool)
| ExpiresUnrenewed (path : bytes) (days : Z) | RenewsNext (path : bytes) (days : Z)
| CaExpired (what name : bytes) | CaExpiresIn (what name : bytes) (days : Z) | CrlStale (what name : bytes)
| OfClient (what : bytes) (n : Notice)
| CorsCredentials | CorsWildcard
| NoHeaderTimeout | DrainTooLong (secs : Z)
| HeaderUnused | HeaderBypassed | HeaderBypassedByAllowed | OptionalUnused
| TargetUnmatched (target : bytes)
| NoConnectTimeout | SameBackend (path bare : bytes) (times : nat) | NeverEjected (path : bytes)
| InClear (section url : bytes) | OutboundUnused | OutboundUsedBy (users : list (bytes * list bytes))
| UnknownKey (key : bytes)
| ForwardedFromAnyone | OnlyCertHeaderListed | WalksForwarders | CountsHops (hops : Z) (direct chain : bool) | HopsUnread (hops : Z)
| ProxyTrustedUnused | ForwardedWithProxy | SharedForwarders (l : list bytes) | SharedProxies (l : list bytes)
| SecretInFile (name : bytes)
| QuotaUnpolled | BadBootMode (m : bytes) | ControlPlaneInClear (url : bytes) | NoPolicyCache | NoCacheDir (path dir : bytes).

Record Finding : Type := mkFinding { level : Level; message : Notice }.

Definition error (n : Notice) : Finding := mkFinding Error n.
Definition warn (n : Notice) : Finding := mkFinding Warn n.
Definition info (n : Notice) : Finding := mkFinding Info n.

Definition on (b : bool) (fs : list Finding) : list Finding := if b then fs else [].

Definition is_loopback (ip : IpAddr) : bool :=
  match ip with V4 a => a / 2 ^ 24 =? 127 | V6 a => a =? 1 end.

(** [Path::parent], [.] for none: the directory a file is in, its separators written once. *)
Definition parent_dir (path : bytes) : bytes :=
  let comps := List.filter (fun c => negb (beq c []) && negb (beq c (lit "."))) (split_on 47 path) in
  let dir := join [47] (removelast comps) in
  match comps with
  | [] => lit "."
  | _ => if starts_with path [47] then 47 :: dir else if beq dir [] then lit "." else dir
  end.

(** The largest [Duration]; adding past it panics. *)
Definition DURATION_MAX : Duration := 2 ^ 64 * 1000000000 - 1.

(** ** Certificates that run out *)

Definition cert_expiry_findings (path : bytes) (i : CertInfo) (plan : RenewPlan) (now : Z) : list Finding :=
  let days := days_left i now in
  let renews := negb (bool_decide (plan = PNone)) in
  if not_after i <=? now then [error (Expired path renews)]
  else if days <? 7 then [error (ExpiresIn path days renews)]
  else if (days <? 21) && negb renews then [warn (ExpiresUnrenewed path days)]
  else if renewal_due (not_before i) (not_after i) now && renews then [info (RenewsNext path days)]
  else [].

Definition trust_findings (what : bytes) (t : TrustInfo) (now : Z) : list Finding :=
  flat_map (fun ca =>
      let days := days_left (ca_info ca) now in
      if not_after (ca_info ca) <=? now then [error (CaExpired what (ca_name ca))]
      else if days <? 21 then [warn (CaExpiresIn what (ca_name ca) days)] else []) (cas t)
  ++ flat_map (fun c => on (stale (crl_info c) now) [warn (CrlStale what (crl_name c))]) (crls t).

(** ** The client list of [Config] *)

Section OutboundClients.
Variable cfg : FullConfig.

(** [Config::outbound_clients]. *)
Definition outbound_clients : list OutboundClient :=
  let tls := ts_rest (c_tls cfg) in
  let dns := dns_cfg (tf_acme tls) in
  let client section on_ url o := mkOutboundClient section on_ (trim url) o in
  [client (lit "control_plane") (cp_enabled (c_control_plane cfg)) (cp_url (c_control_plane cfg)) (cp_outbound (c_control_plane cfg));
   client (lit "log.ship") (co_enabled (c_log cfg)) (co_url (c_log cfg)) (co_outbound (c_log cfg));
   client (lit "tracing") (co_enabled (c_tracing cfg)) (co_url (c_tracing cfg)) (co_outbound (c_tracing cfg));
   client (lit "metrics.otlp") (co_enabled (c_metrics cfg)) (co_url (c_metrics cfg)) (co_outbound (c_metrics cfg));
   client (lit "auth.jwt") (negb (beq (trim (jwks_url (jwt (as_cfg (c_auth cfg))))) [])) (jwks_url (jwt (as_cfg (c_auth cfg)))) (as_outbound (c_auth cfg));
   client (lit "alerts") (al_enabled (c_alerts cfg)) (al_webhook_url (c_alerts cfg)) (al_outbound (c_alerts cfg));
   client (lit "llm.telemetry") (te_enabled (ls_telemetry (c_llm cfg))) (te_endpoint (ls_telemetry (c_llm cfg))) (te_outbound (ls_telemetry (c_llm cfg)));
   client (lit "tls.acme") (tf_acme_enabled tls) (directory_url (order_cfg (tf_acme tls))) (acme_outbound (tf_acme tls));
   client (lit "tls.acme.dns") (tf_acme_enabled tls && beq (challenge (tf_acme tls)) (lit "dns-01"))
     (if beq (provider dns) (lit "challtestsrv") then cfg_url dns else api_base dns) (dns_outbound dns)].
End OutboundClients.

(** ** The checks *)

Section Lint.
Context {RegexSet Regex Automaton Key St Date Time Verifier : Type}.
Variable B : BuildLibs (RegexSet := RegexSet) (Regex := Regex) (Automaton := Automaton) (Key := Key) (St := St).
Variable ids : Identities.
Variable from_calendar_date : Z -> Z -> Z -> option Date.
Variable from_hms : Z -> Z -> Z -> option Time.
Variable unix_timestamp : Date -> Time -> Z.
Variable b64url : bytes -> bytes.
Variable pem_crls : bytes -> option (list bytes).
Variable build_verifier : list bytes -> list bytes -> bool -> option Verifier.
Variable server_name_ok : bytes -> bool.                (** [ServerName::try_from] *)
Variable env : bytes -> option bytes.                   (** [std::env::var] *)
Variable phc_ok : bytes -> bool.                        (** [PasswordHash::new] *)
Variable url_host : bytes -> option (bytes * bytes).    (** [reqwest::Url::parse]: the scheme and [host_str] *)
Variable is_dir : bytes -> bool.
Variable now : Z.                                       (** unix seconds *)

Definition cert_of (path : bytes) : option CertInfo :=
  match load_certs (b_fs B) (b_pem_certs B) path with
  | Ok (c :: _) => rok (Der.parse from_calendar_date from_hms unix_timestamp b64url c)
  | _ => None
  end.

(** [outbound::builder_trusting]: whether the client builds. *)
Definition client_trusting (o : OutboundCfg) (what url : bytes) (public : PublicRoots) : result unit :=
  let? _ := (builder_trusting (b_fs B) (b_pem_certs B) (b_usable_ca B) (b_bundled B) (b_platform B) (b_url_parse B)
               (b_proxy_all B) (b_load_pair B) o what url public ids).1 in Ok tt.

Variable cfg : FullConfig.
Let tls : TlsFiles := ts_rest (c_tls cfg).
Let auth_mode : bytes := Auth.mode (as_cfg (c_auth cfg)).

Definition client_auth_verdict : result (option (ClientAuth (Verifier := Verifier))) :=
  client_auth_from_cfg from_calendar_date from_hms unix_timestamp b64url (b_pem_certs B) pem_crls (b_usable_ca B) build_verifier
    (b_fs B) (ts_enabled (c_tls cfg)) (ts_client_mode (c_tls cfg)) (tf_ca_path tls) (tf_crl_paths tls).

Definition header_verdict : result (option (TrustedHeader (Verifier := Verifier))) :=
  header_from_cfg from_calendar_date from_hms unix_timestamp b64url (b_header_name B) (b_pem_certs B) pem_crls (b_usable_ca B) build_verifier
    (b_fs B) (c_cert_header cfg).

Definition upstream_tls_verdict : result unit :=
  let? _ := upstream_tls (b_parse_uri B) (b_fs B) (b_pem_certs B) (b_usable_ca B) (b_bundled B) (b_load_pair B) server_name_ok
              (c_upstream_tls cfg) ids in Ok tt.

Definition lint_auth : list Finding :=
  let a := as_cfg (c_auth cfg) in
  if beq auth_mode (lit "none") then [warn AuthNone]
  else if beq auth_mode (lit "basic") then
    on (bool_decide (users a = ∅)) [error BasicNoUsers]
    ++ flat_map (fun '(user, value) =>
         if starts_with value (lit "$argon2") then on (negb (phc_ok value)) [error (BadHash user)]
         else [warn (PlaintextPassword user)]) (map_to_list (users a))
  else if beq auth_mode (lit "apikey") then on (is_nil (api_keys a)) [error NoApiKeys]
  else if beq auth_mode (lit "jwt") then
    on (beq (secret (jwt a)) [] && beq (public_key_pem (jwt a)) [] && beq (jwks_url (jwt a)) []) [error JwtNoKey]
  else [].

Definition lint_ratelimit : list Finding :=
  let rl := c_ratelimit cfg in
  if negb (rs_enabled rl) then [warn NoRateLimit]
  else on (beq (rs_store rl) (lit "redis") && beq (trim (rs_redis_url rl)) []) [error RedisNoUrl].

Definition lint_acme_challenge : list Finding :=
  let acme := tf_acme tls in
  if negb (tf_acme_enabled tls) then []
  else
  (match http_client client_trusting acme with Err e => [error (RefusesToStart e)] | Ok _ => [] end)
  ++ (let http := beq (challenge acme) (lit "http-01") || beq (challenge acme) [] in
      let dns01 := beq (challenge acme) (lit "dns-01") in
      if negb http && negb dns01 then [error (BadChallenge (challenge acme))]
      else
      on (negb dns01) (map (fun d => error (WildcardOverHttp d))
        (List.filter (fun d => starts_with (trim d) (lit "*.")) (domains (order_cfg acme))))
      ++ on dns01
           ((match Acme.from_cfg client_trusting env (dns_cfg acme) with Err e => [error (DnsProviderFails e)] | Ok _ => [] end)
            ++ on (beq (provider (dns_cfg acme)) (lit "challtestsrv")) [warn TestDnsServer])).

Definition lint_redirect : list Finding :=
  let p := tf_redirect_port tls in
  if p =? 0 then [info NoRedirect]
  else if p =? sv_port (c_server cfg) then [error (RedirectIsPublicPort p)]
  else if p =? sv_admin_port (c_server cfg) then [error (RedirectIsAdminPort p)]
  else
    on (negb ((300 <=? tf_redirect_status tls) && (tf_redirect_status tls <? 400))) [error (BadRedirectStatus (tf_redirect_status tls))]
    ++ on (is_nil (tf_redirect_hosts tls)) [info RedirectAnyHost]
    ++ on ((p =? 80) && tf_acme_enabled tls) [info RedirectWithAcme].

Definition lint_tls : list Finding :=
  let no_paths := beq (tf_cert_path tls) [] || beq (tf_key_path tls) [] in
  lint_acme_challenge
  ++ (if negb (ts_enabled (c_tls cfg)) then info PlainHttp :: on (hsts (c_headers cfg)) [warn HstsWithoutTls]
      else
      on (tf_self_signed tls) (warn SelfSignedTls :: on (825 <? tf_self_signed_days tls) [warn SelfSignedTooLong])
      ++ on (negb (tf_self_signed tls) && negb (tf_acme_enabled tls) && no_paths) [error NoCertificate]
      ++ on (tf_self_signed tls && no_paths) [error SelfSignedNoPaths]
      ++ lint_redirect).

(** Of one [[tls.certs]] entry. *)
Definition lint_sni_cert (c : SniCertCfg) : list Finding :=
  on (is_nil (sc_hosts c)) [error (SniNoHosts (sc_cert_path c))]
  ++ flat_map (fun h => match parse_sni_host h with Err e => [error (SniBadHost e)] | Ok _ => [] end) (sc_hosts c)
  ++ match load_certs (b_fs B) (b_pem_certs B) (sc_cert_path c) with
     | Err _ => [error (SniUnreadable (sc_cert_path c))]
     | Ok _ => match cert_of (sc_cert_path c) with
               | Some i => cert_expiry_findings (sc_cert_path c) i PNone now
               | None => []
               end
     end.

(** Nothing of it runs unless the listener's own certificate reads. *)
Definition lint_cert_expiry : list Finding :=
  if negb (ts_enabled (c_tls cfg)) || beq (tf_cert_path tls) [] then []
  else
  match cert_of (tf_cert_path tls) with
  | None => []
  | Some i =>
      cert_expiry_findings (tf_cert_path tls) i
        (RenewPlan_from_cfg (tf_acme_enabled tls) (tf_acme_renew tls) (tf_self_signed tls) (tf_self_signed_renew tls)) now
      ++ flat_map lint_sni_cert (tf_certs tls)
      ++ on (tf_acme_enabled tls && negb (tf_acme_renew tls)) [warn AcmeNotRenewed]
  end.

(** The client certificates the config presents, by the section that configures them. *)
Definition client_cert_paths : list (bytes * bytes) :=
  List.filter (fun '(_, path) => negb (beq path []))
    ((lit "upstream_tls", uc_cert_path (c_upstream_tls cfg))
     :: map (fun t => (lit "[[upstream_tls.targets]]", ut_cert_path t)) (uc_targets (c_upstream_tls cfg))
     ++ omap (fun c => '(cert, _, origin) ← identity_files (settings_of (oc_outbound c) (oc_url c));
                       Some (match origin with OSection => oc_section c | OOutbound => lit "outbound" end, cert))
          (List.filter oc_enabled (outbound_clients cfg))).

(** Each path once, under the first section that names it. *)
Fixpoint first_seen (seen : list bytes) (ps : list (bytes * bytes)) : list (bytes * bytes) :=
  match ps with
  | [] => []
  | (what, path) :: ps => if existsb (beq path) seen then first_seen seen ps else (what, path) :: first_seen (path :: seen) ps
  end.

Definition lint_client_cert_expiry : list Finding :=
  flat_map (fun '(what, path) =>
      match cert_of path with
      | Some i => map (fun f => mkFinding (level f) (OfClient what (message f))) (cert_expiry_findings path i PNone now)
      | None => []
      end) (first_seen [] client_cert_paths)
  ++ match client_auth_verdict with Ok (Some a) => trust_findings (lit "tls.client_auth") (trust_info a) now | _ => [] end
  ++ match header_verdict with
     | Ok (Some h) => match verifier h with
                      | Some v => trust_findings (lit "trusted_client_cert_header") (trust_info v) now
                      | None => []
                      end
     | _ => []
     end.

Definition lint_cors : list Finding :=
  let c := c_cors cfg in
  let wildcard := existsb (fun o => beq (trim o) (lit "*")) (allow_origins c) in
  if negb (Cors.enabled c) then []
  else if wildcard && cfg_allow_credentials c then [error CorsCredentials]
  else on wildcard [warn Doctor.CorsWildcard].

(** [None]: the sum of the two durations panics. *)
Definition lint_listener : option (list Finding) :=
  match serve_opts (c_server cfg) with
  | Err e => Some [error (RefusesToStart e)]
  | Ok o =>
      let drain := drain_delay o + drain_timeout o in
      if DURATION_MAX <? drain then None
      else Some (on (bool_decide (header_read_timeout o = None)) [warn NoHeaderTimeout]
                 ++ on (30 * 1000000000 <=? drain) [warn (DrainTooLong (drain / 1000000000))])
  end.

Definition lint_trusted_header : list Finding :=
  match header_verdict with
  | Err e => [error (RefusesToStart e)]
  | Ok None => []
  | Ok (Some _) =>
      if negb (beq auth_mode (lit "mtls")) && beq (ts_forward_client_cert (c_tls cfg)) (lit "off") then [warn HeaderUnused]
      else if negb (is_nil (h_proxy_names (c_cert_header cfg))) && beq auth_mode (lit "mtls") then
        (if is_nil (mtls_allowed (as_cfg (c_auth cfg))) then [warn HeaderBypassed] else [info HeaderBypassedByAllowed])
      else []
  end.

Definition lint_client_auth : list Finding :=
  match client_auth_verdict with
  | Err e => [error (RefusesToStart e)]
  | Ok (Some a) =>
      on (bool_decide (ca_mode a = Optional) && negb (beq auth_mode (lit "mtls")) && beq (ts_forward_client_cert (c_tls cfg)) (lit "off"))
        [warn OptionalUnused]
  | Ok None => []
  end.

(** Where each upstream, and each HTTP check that goes over TLS of its own accord, is dialled. *)
Definition upstream_urls : list bytes :=
  upstream_base cfg :: map (fun u => ur_target u.2) (c_upstreams cfg)
  ++ flat_map (fun u => map tc_url (ur_targets u.2 ++ ur_backup u.2)) (c_upstreams cfg)
  ++ flat_map (fun u =>
       match from_route (b_parse_uri B) (b_header_name B) (b_header_value_ok B) (b_method_of B) (b_regex_ok B) (b_version B) 0 u.2 [] with
       | Ok p => match health_check p with
                 | Some hc =>
                     match hc_kind hc with
                     | CheckHttp => map (base_for (b_parse_uri B) hc)
                                      (List.filter (fun t => negb (starts_with (base t) (lit "https://"))) (Pool.targets p))
                     | CheckTcp => []
                     end
                 | None => []
                 end
       | Err _ => []
       end) (c_upstreams cfg).

Definition lint_upstream_tls : list Finding :=
  match upstream_tls_verdict with
  | Err e => [error (RefusesToStart e)]
  | Ok _ =>
      let upstreams := omap (fun url => rok (target_key (b_parse_uri B) url)) upstream_urls in
      flat_map (fun t => match target_key (b_parse_uri B) (ut_target t) with
                         | Ok key => on (negb (bool_decide (key ∈ upstreams))) [warn (TargetUnmatched (ut_target t))]
                         | Err _ => []
                         end) (uc_targets (c_upstream_tls cfg))
  end.

(** The backends of a pool, each with the ways it is written. *)
Fixpoint note_backend (bare configured : bytes) (bs : list (bytes * list bytes)) : list (bytes * list bytes) :=
  match bs with
  | [] => [(bare, [configured])]
  | (b, seen) :: bs =>
      if beq b bare then (b, if existsb (beq configured) seen then seen else seen ++ [configured]) :: bs
      else (b, seen) :: note_backend bare configured bs
  end.

Definition lint_pool (u : UpstreamRoute) : list Finding :=
  let backends := fold_left (fun bs t => let '(configured, bare) := target_urls (b_parse_uri B) (tc_url t) in note_backend bare configured bs)
                    (ur_targets u ++ ur_backup u) [] in
  map (fun '(bare, seen) => warn (SameBackend (ur_path u) bare (length seen))) (List.filter (fun '(_, seen) => Nat.ltb 1 (length seen)) backends)
  ++ on (beq (hk_path (ur_health_check u)) [] && negb (beq (hk_kind (ur_health_check u)) (lit "tcp")) && (ur_eject_after u =? 0))
       [warn (NeverEjected (ur_path u))].

Definition lint_pools : list Finding :=
  let pools := List.filter (fun u => negb (is_nil (ur_targets u))) (map snd (c_upstreams cfg)) in
  if is_nil pools then []
  else
  on (match parse_duration (v_upstream_connect_timeout (c_validation cfg)) with Ok d => d =? 0 | Err _ => false end) [warn NoConnectTimeout]
  ++ flat_map lint_pool pools.

Definition is_remote_http (url : bytes) : bool :=
  match url_host url with
  | None => false
  | Some (scheme, host) =>
      let host := trim_end_matches 93 (trim_start_matches 91 host) in
      let local := beq host (lit "localhost") || match parse_ip host with Some ip => is_loopback ip | None => false end in
      beq scheme (lit "http") && negb local
  end.

Definition lint_collector (c : Collector) (what : bytes) : list Finding :=
  if negb (co_enabled c) || beq (trim (co_url c)) [] then []
  else match client_verdict B ids (co_outbound c) what (trim (co_url c)) with Err e => [error (RefusesToStart e)] | Ok _ => [] end.

Definition lint_outbound : list Finding :=
  lint_collector (c_log cfg) (lit "log.ship") ++ lint_collector (c_tracing cfg) (lit "tracing")
  ++ lint_collector (c_metrics cfg) (lit "metrics.otlp")
  ++ flat_map (fun c => on (oc_enabled c && negb (beq (oc_section c) (lit "control_plane")) && is_remote_http (oc_url c)
                            && would_inherit_tls (oc_outbound c)) [warn (InClear (oc_section c) (oc_url c))]) (outbound_clients cfg)
  ++ on (negb (defaults_is_empty (c_outbound cfg)))
       (let users := inheritors (outbound_clients cfg) in [info (if is_nil users then OutboundUnused else OutboundUsedBy users)]).

Definition lint_unknown_keys : list Finding := map (fun k => error (UnknownKey k)) (c_unknown_keys cfg).

Definition lint_forwarded : list Finding :=
  let s := sv_forward (c_server cfg) in
  let listed := negb (is_nil (trusted_forwarders s)) in
  let h := c_cert_header cfg in
  on (trust_forwarded_for s && negb listed)
    (warn ForwardedFromAnyone :: on (negb (beq (h_name h) []) && negb (is_nil (h_proxies h))) [warn OnlyCertHeaderListed])
  ++ match forwarded_hops s with
     | Forwarding.Auto => on (trust_forwarded_for s) [info WalksForwarders]
     | Forwarding.Count hops =>
         if trust_forwarded_for s then [info (CountsHops hops (negb listed) (1 <? hops))]
         else on (1 <? hops) [warn (HopsUnread hops)]
     end.

(** The entries of [l] that share an address with one of [balancers]. *)
Definition shared_with (balancers l : list bytes) : list bytes :=
  let bs := omap (fun t => rok (Access.parse t)) balancers in
  List.filter (fun t => match Access.parse t with Ok c => existsb (fun b => overlaps b c) bs | Err _ => false end) l.

Definition lint_proxy_protocol : list Finding :=
  let s := c_server cfg in
  let xff := trust_forwarded_for (sv_forward s) in
  if negb (sv_proxy_protocol s) then on (negb (is_nil (sv_proxy_protocol_trusted s))) [info ProxyTrustedUnused]
  else
  on xff [warn ForwardedWithProxy]
  ++ on xff (let shared := shared_with (sv_proxy_protocol_trusted s) (trusted_forwarders (sv_forward s)) in
             on (negb (is_nil shared)) [error (SharedForwarders shared)])
  ++ on (negb (beq (h_name (c_cert_header cfg)) []))
       (let shared := shared_with (sv_proxy_protocol_trusted s) (h_proxies (c_cert_header cfg)) in
        on (negb (is_nil shared)) [warn (SharedProxies shared)]).

Definition env_sourced (name : bytes) : bool :=
  let nonempty k := match env k with Some v => negb (beq v []) | None => false end in
  nonempty name || nonempty (name ++ lit "_FILE").

Definition lint_secrets : list Finding :=
  let a := as_cfg (c_auth cfg) in
  let secret_ (there : bool) (var name : bytes) := on (there && negb (env_sourced var)) [info (SecretInFile name)] in
  secret_ (negb (beq (secret (jwt a)) [])) (lit "EDGEGUARD_JWT_SECRET") (lit "auth.jwt.secret")
  ++ secret_ (negb (is_nil (api_keys a))) (lit "EDGEGUARD_API_KEYS") (lit "auth.api_keys")
  ++ secret_ (negb (beq (cp_edge_token (c_control_plane cfg)) [])) (lit "EDGEGUARD_CP_EDGE_TOKEN") (lit "control_plane.edge_token").

Definition lint_control_plane : list Finding :=
  let cp := c_control_plane cfg in
  on (cp_enforce_quota cp && negb (cp_enabled cp)) [error QuotaUnpolled]
  ++ on (negb (beq (cp_boot_without_policy cp) (lit "local") || beq (cp_boot_without_policy cp) (lit "refuse")))
       [error (BadBootMode (cp_boot_without_policy cp))]
  ++ (if negb (cp_enabled cp) then []
      else
      on (is_remote_http (cp_url cp)) [warn (ControlPlaneInClear (cp_url cp))]
      ++ (if beq (cp_cache_path cp) [] then [warn NoPolicyCache]
          else on (negb (is_dir (parent_dir (cp_cache_path cp)))) [warn (NoCacheDir (cp_cache_path cp) (parent_dir (cp_cache_path cp)))])).

Definition lint : option (list Finding) :=
  listener ← lint_listener;
  Some (listener ++ lint_upstream_tls ++ lint_pools ++ lint_auth ++ lint_ratelimit ++ lint_tls ++ lint_client_auth ++ lint_cert_expiry
        ++ lint_trusted_header ++ lint_client_cert_expiry ++ lint_cors ++ lint_unknown_keys ++ lint_forwarded ++ lint_proxy_protocol
        ++ lint_secrets ++ lint_control_plane ++ lint_outbound).
End Lint.
