(* ===== verification/Load.v ===== *)
(** * Load: the configuration a process starts with ([Config::load] of [src/src/config.rs])

    The defaults of every section, the file read over them, the environment over the file, and [outbound] copied into
    each section that opens a client.  [toml] with the derived [Deserialize], the replay that finds unknown keys, the
    environment and the file system are parameters. *)

From S2P Require Import Prelude Text Net Units Float Access Limiter Budget Http Health Pool PoolConfig ClientCert Auth KeyVault Llm Forwarding Cors Waf Dlp StreamInspect CertStore Outbound Alert Telemetry Boot UpstreamTls AcmeBudget Disk SelfSigned Acme Doctor.

(** ** Defaults *)

Definition outbound_defaults_default : OutboundDefaultsCfg := mkDefaults [] [] [] [] [].
Definition outbound_default : OutboundCfg := mkOutboundCfg [] [] [] [] outbound_defaults_default.

Definition server_default : ServerSection :=
  mkServerSection (mkServerCfg false (Forwarding.Count 1) []) [] 3000 8080 0 (lit "127.0.0.1") (lit "30s") 0 (lit "0s") (lit "25s") false [].

Definition jwt_default : JwtCfg := mkJwtCfg (lit "HS256") [] [] [] 300 [] [] 60.

Definition auth_default : AuthSection :=
  mkAuthSection (mkAuthCfg (lit "none") (lit "EdgeGuard") ∅ [] (lit "X-API-Key") jwt_default []) outbound_default.

(** With [per_key]'s. *)
Definition ratelimit_default : RateSection :=
  mkRateSection true (lit "local") (lit "redis://127.0.0.1:6379")
    (mkRateLimitCfg (lit "60/min") 20 [] false (lit "1000/hour") 100 (lit "edgeguard") false) [].

Definition validation_default : ValidationCfg :=
  mkValidationCfg (lit "2MiB") (lit "0") (lit "0") (lit "30s") (lit "5s") [] false false false [] false false.

Definition headers_default : HeadersCfg :=
  mkHeadersCfg (lit "DENY") (lit "no-referrer") (lit "geolocation=(), microphone=(), camera=()") (lit "default-src 'self'")
    [] false true [lit "Server"; lit "X-Powered-By"] true true [].

Definition acme_dns_default : AcmeDnsCfg :=
  mkAcmeDnsCfg [] [] (lit "CLOUDFLARE_API_TOKEN") (lit "https://api.cloudflare.com/client/v4") [] 30 outbound_default.

Definition acme_default : AcmeSection :=
  mkAcmeSection (mkAcmeCfg (lit "https://acme-staging-v02.api.letsencrypt.org/directory") [] true) [] (lit "./acme") false (lit "http-01")
    acme_dns_default outbound_default.

(** With [acme]'s switches and [client_auth]'s. *)
Definition tls_default : TlsSection TlsFiles :=
  mkTlsSection _ false (lit "off") (lit "off")
    (mkTlsFiles [] [] false 90 true 0 308 [] false true acme_default [] [] []).

Definition waf_default : WafCfg := mkWafCfg (lit "off") true true true true false false [].

Definition cors_default : CorsCfg := mkCorsCfg false [] [] [] [] false (lit "600s").

Definition control_plane_default : ControlPlaneCfg :=
  mkControlPlaneCfg false [] [] [] (lit "30s") (lit "60s") true false (lit "30s") [] [] (lit "local") outbound_default.

Definition dlp_default : DlpCfg :=
  mkDlpCfg (lit "off") (lit "full") true true false false true true true true true false false false false 24 (f64_of_Z 4) [] [] false.

Definition telemetry_default : TelemetryCfg :=
  mkTelemetryCfg false [] (f64_of_Z 1) (lit "edgeguard") false 8192 2000 outbound_default.

Definition llm_default : LlmSection :=
  mkLlmSection (mkLlmCfg false (lit "openai") ∅ (lit "count")) [] (lit "memory") [] (lit "edgeguard") false 1024 (lit "x-edgeguard-team") []
    dlp_default telemetry_default.

Definition alerts_default : AlertsCfg := mkAlertsCfg false [] (f64_div (f64_of_Z 9) (f64_of_Z 10)) 2000 outbound_default.

(** [log.ship], [tracing] and [metrics.otlp], as far as a client is built from them. *)
Definition collector_default : Collector := mkCollector false [] outbound_default.

Definition cert_header_default : TrustedClientCertHeaderCfg := mkHeaderCfg [] (lit "pem") [] [] [] [].

(** [Config::default]. *)
Definition config_default : FullConfig :=
  mkConfig server_default auth_default ratelimit_default validation_default headers_default tls_default waf_default []
    (mkUpstreamTlsCfg [] [] [] [] []) (mkAccessCfg [] []) cors_default control_plane_default llm_default alerts_default
    collector_default collector_default collector_default cert_header_default outbound_defaults_default [].

(** Defaults of the entries of a list, which a file writes in part. *)
Definition upstream_route_default : UpstreamRoute :=
  mkUpstreamRoute [] [] [] (lit "priority") [] [] [] false [] HealthCheckCfg_default 1 (lit "30s") [] 0.
Definition route_rate_default : RouteRateLimit := mkRouteRateLimit [] (lit "60/min") 20.
Definition budget_default : BudgetCfg := mkBudgetCfg [] (lit "global") (lit "tokens") f64_zero (lit "24h").
Definition stream_inspect_default : StreamInspectCfg := mkStreamInspectCfg [] (lit "64KiB") (lit "4KiB").
Definition waf_rule_default : WafRule := mkWafRule [] [] (lit "path").

(** [From<&str> for TargetCfg]. *)
Definition target_of_url (url : bytes) : TargetCfg := mkTargetCfg url None None.

(** ** [forwarded_hops] in a file *)

Inductive HopsValue : Type := HopsU64 (v : Z) | HopsI64 (v : Z) | HopsStr (v : bytes).

(** The visitor of [ForwardedHops]; [usize] has 64 bits. *)
Definition hops_of_value (v : HopsValue) : result ForwardedHops :=
  match v with
  | HopsU64 v => Ok (Forwarding.Count v)
  | HopsI64 v => Ok (Forwarding.Count (if v <? 0 then 0 else v))
  | HopsStr s => if eq_ignore_ascii_case (trim s) (lit "auto") then Ok Forwarding.Auto else Err "a count of proxies from 1 to 10, or auto"
  end.

(** ** Parts of a configuration, replaced *)

Section Set_.
Implicit Type c : FullConfig.

Definition set_server (s : ServerSection) c : FullConfig :=
  mkConfig s (c_auth c) (c_ratelimit c) (c_validation c) (c_headers c) (c_tls c) (c_waf c) (c_upstreams c) (c_upstream_tls c) (c_access c) (c_cors c)
    (c_control_plane c) (c_llm c) (c_alerts c) (c_log c) (c_tracing c) (c_metrics c) (c_cert_header c) (c_outbound c) (c_unknown_keys c).
Definition set_auth (a : AuthSection) c : FullConfig :=
  mkConfig (c_server c) a (c_ratelimit c) (c_validation c) (c_headers c) (c_tls c) (c_waf c) (c_upstreams c) (c_upstream_tls c) (c_access c) (c_cors c)
    (c_control_plane c) (c_llm c) (c_alerts c) (c_log c) (c_tracing c) (c_metrics c) (c_cert_header c) (c_outbound c) (c_unknown_keys c).
Definition set_tls (t : TlsSection TlsFiles) c : FullConfig :=
  mkConfig (c_server c) (c_auth c) (c_ratelimit c) (c_validation c) (c_headers c) t (c_waf c) (c_upstreams c) (c_upstream_tls c) (c_access c) (c_cors c)
    (c_control_plane c) (c_llm c) (c_alerts c) (c_log c) (c_tracing c) (c_metrics c) (c_cert_header c) (c_outbound c) (c_unknown_keys c).
Definition set_control_plane (p : ControlPlaneCfg) c : FullConfig :=
  mkConfig (c_server c) (c_auth c) (c_ratelimit c) (c_validation c) (c_headers c) (c_tls c) (c_waf c) (c_upstreams c) (c_upstream_tls c) (c_access c) (c_cors c)
    p (c_llm c) (c_alerts c) (c_log c) (c_tracing c) (c_metrics c) (c_cert_header c) (c_outbound c) (c_unknown_keys c).

Definition set_redirect_port (port : Z) c : FullConfig :=
  let t := c_tls c in let f := ts_rest t in
  set_tls (mkTlsSection _ (ts_enabled t) (ts_client_mode t) (ts_forward_client_cert t)
    (mkTlsFiles (tf_cert_path f) (tf_key_path f) (tf_self_signed f) (tf_self_signed_days f) (tf_self_signed_renew f) port (tf_redirect_status f)
       (tf_redirect_hosts f) (tf_acme_enabled f) (tf_acme_renew f) (tf_acme f) (tf_certs f) (tf_ca_path f) (tf_crl_paths f))) c.

Definition set_jwt_secret (s : bytes) c : FullConfig :=
  let a := c_auth c in let g := as_cfg a in let j := jwt g in
  set_auth (mkAuthSection (mkAuthCfg (Auth.mode g) (realm g) (users g) (Auth.api_keys g) (api_key_header g)
    (mkJwtCfg (algorithm j) s (public_key_pem j) (jwks_url j) (jwks_cache_secs j) (issuer j) (audience j) (leeway_secs j)) (mtls_allowed g)) (as_outbound a)) c.

Definition set_api_keys (keys : list bytes) c : FullConfig :=
  let a := c_auth c in let g := as_cfg a in
  set_auth (mkAuthSection (mkAuthCfg (Auth.mode g) (realm g) (users g) keys (api_key_header g) (jwt g) (mtls_allowed g)) (as_outbound a)) c.

Definition set_redis_url (u : bytes) c : FullConfig :=
  let r := c_ratelimit c in
  mkConfig (c_server c) (c_auth c) (mkRateSection (rs_enabled r) (rs_store r) u (rs_cfg r) (rs_names r)) (c_validation c) (c_headers c) (c_tls c) (c_waf c)
    (c_upstreams c) (c_upstream_tls c) (c_access c) (c_cors c) (c_control_plane c) (c_llm c) (c_alerts c) (c_log c) (c_tracing c) (c_metrics c)
    (c_cert_header c) (c_outbound c) (c_unknown_keys c).

Definition set_cp (url token : bytes) (enforce_quota : bool) c : FullConfig :=
  let p := c_control_plane c in
  set_control_plane (mkControlPlaneCfg (cp_enabled p) url (cp_tenant_id p) token (cp_poll_interval p) (cp_report_interval p) (cp_forward_csp p)
    enforce_quota (cp_quota_poll_interval p) (cp_edge_id p) (cp_cache_path p) (cp_boot_without_policy p) (cp_outbound p)) c.
Definition set_cp_token (t : bytes) c : FullConfig := set_cp (cp_url (c_control_plane c)) t (cp_enforce_quota (c_control_plane c)) c.
Definition set_cp_url (u : bytes) c : FullConfig := set_cp u (cp_edge_token (c_control_plane c)) (cp_enforce_quota (c_control_plane c)) c.
Definition set_enforce_quota (b : bool) c : FullConfig := set_cp (cp_url (c_control_plane c)) (cp_edge_token (c_control_plane c)) b c.

Definition set_unknown_keys (k : list bytes) c : FullConfig :=
  mkConfig (c_server c) (c_auth c) (c_ratelimit c) (c_validation c) (c_headers c) (c_tls c) (c_waf c) (c_upstreams c) (c_upstream_tls c) (c_access c) (c_cors c)
    (c_control_plane c) (c_llm c) (c_alerts c) (c_log c) (c_tracing c) (c_metrics c) (c_cert_header c) (c_outbound c) k.
End Set_.

(** ** [inherit_outbound] *)

Definition with_defaults (d : OutboundDefaultsCfg) (o : OutboundCfg) : OutboundCfg :=
  mkOutboundCfg (o_ca_path o) (o_client_cert_path o) (o_client_key_path o) (o_proxy o) d.

Definition inherit_outbound (c : FullConfig) : FullConfig :=
  let w := with_defaults (c_outbound c) in
  let a := c_auth c in let p := c_control_plane c in let l := c_llm c in let te := ls_telemetry l in let al := c_alerts c in
  let t := c_tls c in let f := ts_rest t in let ac := tf_acme f in let dn := dns_cfg ac in
  let ship (x : Collector) := mkCollector (co_enabled x) (co_url x) (w (co_outbound x)) in
  mkConfig (c_server c) (mkAuthSection (as_cfg a) (w (as_outbound a))) (c_ratelimit c) (c_validation c) (c_headers c)
    (mkTlsSection _ (ts_enabled t) (ts_client_mode t) (ts_forward_client_cert t)
       (mkTlsFiles (tf_cert_path f) (tf_key_path f) (tf_self_signed f) (tf_self_signed_days f) (tf_self_signed_renew f) (tf_redirect_port f)
          (tf_redirect_status f) (tf_redirect_hosts f) (tf_acme_enabled f) (tf_acme_renew f)
          (mkAcmeSection (order_cfg ac) (email ac) (cache_dir ac) (accept_tos ac) (challenge ac)
             (mkAcmeDnsCfg (provider dn) (cfg_zone_id dn) (api_token_env dn) (api_base dn) (cfg_url dn) (propagation_secs dn) (w (dns_outbound dn)))
             (w (acme_outbound ac)))
          (tf_certs f) (tf_ca_path f) (tf_crl_paths f)))
    (c_waf c) (c_upstreams c) (c_upstream_tls c) (c_access c) (c_cors c)
    (mkControlPlaneCfg (cp_enabled p) (cp_url p) (cp_tenant_id p) (cp_edge_token p) (cp_poll_interval p) (cp_report_interval p) (cp_forward_csp p)
       (cp_enforce_quota p) (cp_quota_poll_interval p) (cp_edge_id p) (cp_cache_path p) (cp_boot_without_policy p) (w (cp_outbound p)))
    (mkLlmSection (ls_cfg l) (ls_budgets l) (ls_store l) (ls_redis_url l) (ls_redis_prefix l) (ls_fail_open l) (ls_default_max_tokens l)
       (ls_team_header l) (ls_keys l) (ls_dlp l)
       (mkTelemetryCfg (te_enabled te) (te_endpoint te) (te_sample_rate te) (te_service_name te) (te_capture_content te) (te_max_content_bytes te)
          (te_timeout_ms te) (w (te_outbound te))))
    (mkAlertsCfg (al_enabled al) (al_webhook_url al) (al_threshold al) (al_timeout_ms al) (w (al_outbound al)))
    (ship (c_log c)) (ship (c_tracing c)) (ship (c_metrics c)) (c_cert_header c) (c_outbound c) (c_unknown_keys c).

(** ** [Config::load] *)

(** [trim_end_matches(['\n', '\r'])]. *)
Definition trim_end_lines (s : bytes) : bytes := rev (drop_while (fun c => (c =? 10) || (c =? 13)) (rev s)).

Section Load.
Variable env : bytes -> option bytes.                   (** [env::var(..).ok()] *)
Variable read : bytes -> option bytes.                  (** [std::fs::read_to_string] *)
Variable from_str : bytes -> option FullConfig.         (** [toml::from_str] *)
Variable unknown_keys : bytes -> list bytes.

Definition env_or_file (name : bytes) : result (option bytes) :=
  let from_file :=
    match env (name ++ lit "_FILE") with
    | Some path =>
        if beq path [] then Ok None
        else
        let? content := ok_or (read path) "reading the secret file" in
        let trimmed := trim_end_lines content in
        Ok (if beq trimmed [] then None else Some trimmed)
    | None => Ok None
    end in
  match env name with
  | Some v => if beq v [] then from_file else Ok (Some v)
  | None => from_file
  end.

(** A port of the environment that parses. *)
Definition env_port (name : bytes) (port : Z) : Z :=
  match env name with Some p => default port (parse_uint 16 p) | None => port end.

Definition env_server (s : ServerSection) : ServerSection :=
  mkServerSection (sv_forward s)
    (match env (lit "UPSTREAM") with Some u => if beq u [] then sv_upstream s else u | None => sv_upstream s end)
    (env_port (lit "APP_PORT") (sv_app_port s)) (env_port (lit "PORT") (sv_port s)) (env_port (lit "ADMIN_PORT") (sv_admin_port s)) (sv_admin_addr s)
    (sv_header_read_timeout s) (sv_max_connections s) (sv_drain_delay s) (sv_drain_timeout s) (sv_proxy_protocol s) (sv_proxy_protocol_trusted s).

Definition split_keys (keys : bytes) : list bytes := List.filter (fun k => negb (beq k [])) (map trim (split_on 44 keys)).

Definition set_env_keys (keys : bytes) (c : FullConfig) : FullConfig :=
  match split_keys keys with [] => c | keys => set_api_keys keys c end.

Definition set_opt {A} (set : A -> FullConfig -> FullConfig) (v : option A) (c : FullConfig) : FullConfig :=
  match v with Some v => set v c | None => c end.

(** [EDGEGUARD_CP_QUOTA_ENFORCE]: what it says, [None] for nothing. *)
Definition quota_switch : result (option bool) :=
  match env (lit "EDGEGUARD_CP_QUOTA_ENFORCE") with
  | None => Ok None
  | Some v =>
      let v := to_ascii_lowercase (trim v) in
      if beq v [] then Ok None
      else if existsb (beq v) [lit "1"; lit "true"; lit "yes"; lit "on"] then Ok (Some true)
      else if existsb (beq v) [lit "0"; lit "false"; lit "no"; lit "off"] then Ok (Some false)
      else Err "invalid EDGEGUARD_CP_QUOTA_ENFORCE value"
  end.

(** The file, or the defaults. *)
Definition load_file (path : option bytes) : result FullConfig :=
  match path with
  | Some p =>
      let? raw := ok_or (read p) "reading config file" in
      let? cfg := ok_or (from_str raw) "parsing config file" in
      Ok (set_unknown_keys (unknown_keys raw) cfg)
  | None => Ok config_default
  end.

Definition load (path : option bytes) : result FullConfig :=
  let? cfg := load_file path in
  let cfg := set_server (env_server (c_server cfg)) cfg in
  let cfg := set_redirect_port (env_port (lit "REDIRECT_PORT") (tf_redirect_port (ts_rest (c_tls cfg)))) cfg in
  let? s := env_or_file (lit "EDGEGUARD_JWT_SECRET") in let cfg := set_opt set_jwt_secret s cfg in
  let? u := env_or_file (lit "EDGEGUARD_REDIS_URL") in let cfg := set_opt set_redis_url u cfg in
  let? keys := env_or_file (lit "EDGEGUARD_API_KEYS") in
  let cfg := set_opt set_env_keys keys cfg in
  let? t := env_or_file (lit "EDGEGUARD_CP_EDGE_TOKEN") in let cfg := set_opt set_cp_token t cfg in
  let? u := env_or_file (lit "EDGEGUARD_CP_URL") in let cfg := set_opt set_cp_url u cfg in
  let? q := quota_switch in let cfg := set_opt set_enforce_quota q cfg in
  Ok (inherit_outbound cfg).

(** ** The layers *)

(** A secret mount that is named and cannot be read, with nothing said directly. *)
Definition broken_mount (name : bytes) : Prop :=
  default [] (env name) = [] /\ exists path, env (name ++ lit "_FILE") = Some path /\ path <> [] /\ read path = None.

(** What the environment supplies under a name. *)
Definition supplied (name : bytes) : option bytes :=
  let nonempty o := match o with Some [] => None | o => o end in
  match nonempty (env name) with
  | Some v => Some v
  | None => nonempty (path ← nonempty (env (name ++ lit "_FILE")); content ← read path; Some (trim_end_lines content))
  end.

Lemma env_or_file_spec name : (broken_mount name /\ exists e, env_or_file name = Err e) \/ (~ broken_mount name /\ env_or_file name = Ok (supplied name)).
Proof.
  unfold env_or_file, broken_mount, supplied, ok_or. generalize (env (name ++ lit "_FILE")). intros file.
  destruct (env name) as [[|b v]|]; cbn; [| right; split; [by intros [? _] | done] |];
    (destruct file as [[|p path]|]; cbn;
     [right; split; [intros (_ & x & ? & ? & ?); by simplify_eq | done] | | right; split; [by intros (_ & x & ? & _) | done]];
     destruct (read (p :: path)) as [content|] eqn:R; cbn;
     [right; split; [intros (_ & x & ? & ? & ?); simplify_eq; congruence | by destruct (trim_end_lines content)] | left; split; [split; [done|]; by exists (p :: path) | by eexists]]).
Qed.

Definition SECRETS : list bytes :=
  map lit ["EDGEGUARD_JWT_SECRET"; "EDGEGUARD_REDIS_URL"; "EDGEGUARD_API_KEYS"; "EDGEGUARD_CP_EDGE_TOKEN"; "EDGEGUARD_CP_URL"]%string.

(** What stops a load. *)
Definition load_broken (path : option bytes) : Prop :=
  (exists e, load_file path = Err e) \/ (exists name, name ∈ SECRETS /\ broken_mount name) \/ (exists e, quota_switch = Err e).

(** The layers over a file, with what the environment supplies. *)
Definition layered (base : FullConfig) (q : option bool) : FullConfig :=
  let cfg := set_server (env_server (c_server base)) base in
  let cfg := set_redirect_port (env_port (lit "REDIRECT_PORT") (tf_redirect_port (ts_rest (c_tls cfg)))) cfg in
  let cfg := set_opt set_jwt_secret (supplied (lit "EDGEGUARD_JWT_SECRET")) cfg in
  let cfg := set_opt set_redis_url (supplied (lit "EDGEGUARD_REDIS_URL")) cfg in
  let cfg := set_opt set_env_keys (supplied (lit "EDGEGUARD_API_KEYS")) cfg in
  let cfg := set_opt set_cp_token (supplied (lit "EDGEGUARD_CP_EDGE_TOKEN")) cfg in
  let cfg := set_opt set_cp_url (supplied (lit "EDGEGUARD_CP_URL")) cfg in
  inherit_outbound (set_opt set_enforce_quota q cfg).

Lemma secret_step {A} name (k : option bytes -> result A) (bad : Prop) (good : result A -> Prop) :
  (broken_mount name -> bad) -> ((~ broken_mount name) -> (bad /\ exists e, k (supplied name) = Err e) \/ (~ bad /\ good (k (supplied name)))) ->
  (bad /\ exists e, rbind (env_or_file name) k = Err e) \/ (~ bad /\ good (rbind (env_or_file name) k)).
Proof. intros Hb Hk. destruct (env_or_file_spec name) as [[Hm [e ->]] | [Hm ->]]; [left; split; [by apply Hb | by exists e] | by apply Hk]. Qed.

Lemma load_decides path : (load_broken path /\ exists e, load path = Err e)
  \/ (~ load_broken path /\ exists base q, load_file path = Ok base /\ quota_switch = Ok q /\ load path = Ok (layered base q)).
Proof.
  unfold load. destruct (load_file path) as [base|e] eqn:Ef; cbn [rbind]; [|left; split; [left | ]; by exists e].
  assert (Hm : forall name, name ∈ SECRETS -> broken_mount name -> load_broken path) by (intros name ? ?; right; left; by exists name).
  do 5 (apply (secret_step _ _ _ (fun r => exists b q, Ok base = Ok b /\ quota_switch = Ok q /\ r = Ok (layered b q))); [apply Hm; set_solver | intros ?]). destruct quota_switch as [q|e] eqn:Eq; cbn [rbind]; [right | left; split; [right; right; by exists e | by exists e]].
  split; [|by exists base, q]. intros [[e He] | [(name & Hin & Hb) | [e He]]]; [congruence | | congruence]. unfold SECRETS in Hin. cbn [map] in Hin. set_solver.
Qed.

(** A configuration loads exactly when its file does, every secret mount that is consulted can be read and the quota
    switch is one of its words: nothing the environment asks for is dropped in silence.  Then the server section, the
    redirect port, the secrets and the quota switch are the environment's where it supplies them and the file's where
    not, every client inherits [outbound], and the rest of the file stands. *)
Theorem load_layers (path : option bytes) :
  ((exists e, load path = Err e) <-> load_broken path)
  /\ forall cfg, load path = Ok cfg -> exists base, load_file path = Ok base
     /\ c_server cfg = env_server (c_server base)
     /\ tf_redirect_port (ts_rest (c_tls cfg)) = env_port (lit "REDIRECT_PORT") (tf_redirect_port (ts_rest (c_tls base)))
     /\ secret (jwt (as_cfg (c_auth cfg))) = default (secret (jwt (as_cfg (c_auth base)))) (supplied (lit "EDGEGUARD_JWT_SECRET"))
     /\ rs_redis_url (c_ratelimit cfg) = default (rs_redis_url (c_ratelimit base)) (supplied (lit "EDGEGUARD_REDIS_URL"))
     /\ Auth.api_keys (as_cfg (c_auth cfg))
        = match supplied (lit "EDGEGUARD_API_KEYS") with
          | Some s => match split_keys s with [] => Auth.api_keys (as_cfg (c_auth base)) | keys => keys end
          | None => Auth.api_keys (as_cfg (c_auth base))
          end
     /\ cp_edge_token (c_control_plane cfg) = default (cp_edge_token (c_control_plane base)) (supplied (lit "EDGEGUARD_CP_EDGE_TOKEN"))
     /\ cp_url (c_control_plane cfg) = default (cp_url (c_control_plane base)) (supplied (lit "EDGEGUARD_CP_URL"))
     /\ (forall q, quota_switch = Ok q -> cp_enforce_quota (c_control_plane cfg) = default (cp_enforce_quota (c_control_plane base)) q)
     /\ Forall (fun o => o_defaults o = c_outbound base)
          [cp_outbound (c_control_plane cfg); co_outbound (c_log cfg); co_outbound (c_tracing cfg); co_outbound (c_metrics cfg); as_outbound (c_auth cfg);
           al_outbound (c_alerts cfg); te_outbound (ls_telemetry (c_llm cfg)); acme_outbound (tf_acme (ts_rest (c_tls cfg)));
           dns_outbound (dns_cfg (tf_acme (ts_rest (c_tls cfg))))]
     /\ c_validation cfg = c_validation base /\ c_headers cfg = c_headers base /\ c_waf cfg = c_waf base /\ c_upstreams cfg = c_upstreams base
     /\ c_access cfg = c_access base /\ c_cors cfg = c_cors base /\ Auth.mode (as_cfg (c_auth cfg)) = Auth.mode (as_cfg (c_auth base))
     /\ ts_enabled (c_tls cfg) = ts_enabled (c_tls base) /\ c_unknown_keys cfg = c_unknown_keys base.
Proof.
  destruct (load_decides path) as [[Hb [e He]] | (Hb & base & q & Hf & Hq & He)].
  - split; [split; [done | intros _; by exists e] | intros cfg; by rewrite He].
  - split; [split; [intros [e' He']; congruence | done]|]. rewrite He. intros cfg [= <-]. exists base. split; [done|]. rewrite Hq. unfold layered, set_opt, set_env_keys.
    destruct (supplied (lit "EDGEGUARD_JWT_SECRET")), (supplied (lit "EDGEGUARD_REDIS_URL")), (supplied (lit "EDGEGUARD_CP_EDGE_TOKEN")), (supplied (lit "EDGEGUARD_CP_URL")), q;
      (destruct (supplied (lit "EDGEGUARD_API_KEYS")) as [keys|]; cbv beta iota zeta; [destruct (split_keys keys)|]);
      (split_and!; first [reflexivity | by intros ? [= <-] | by repeat constructor]).
Qed.
End Load.

(** A secret from a mounted file loses its final newline, a direct variable wins over a file, a port that does not parse
    is passed over. *)
Example load_environment :
  let env n := if beq n (lit "PORT") then Some (lit "9090") else if beq n (lit "APP_PORT") then Some (lit "http")
               else if beq n (lit "EDGEGUARD_JWT_SECRET_FILE") then Some (lit "/run/jwt")
               else if beq n (lit "EDGEGUARD_API_KEYS") then Some (lit "a, ,b")
               else if beq n (lit "EDGEGUARD_CP_QUOTA_ENFORCE") then Some (lit " On ") else None in
  let read p := if beq p (lit "/run/jwt") then Some (lit "s3cret" ++ [10]) else None in
  match load env read (fun _ => None) (fun _ => []) None with
  | Ok c => (sv_port (c_server c), sv_app_port (c_server c), secret (jwt (as_cfg (c_auth c))), Auth.api_keys (as_cfg (c_auth c)), cp_enforce_quota (c_control_plane c))
            = (9090, 3000, lit "s3cret", [lit "a"; lit "b"], true)
  | Err _ => False
  end.
Proof. by vm_compute. Qed.

Example load_broken_mount :
  load (fun n => if beq n (lit "EDGEGUARD_CP_EDGE_TOKEN_FILE") then Some (lit "/run/token") else None) (fun _ => None) (fun _ => None) (fun _ => []) None
  = Err "reading the secret file".
Proof. by vm_compute. Qed.
