(* ===== verification/Startup.v ===== *)
(** * Startup: what the process does before it serves ([run] of [src/src/main.rs], [build_state] of [src/src/lib.rs]),
    and what [edgeguard doctor] says of it ([run_doctor])

    [startup] is every step of [run] that can end it, in its order, up to the public listener; tasks that are spawned
    and what is only logged are left out.  Sockets, issuing a certificate, generating one and the files as they are by
    then are the [World]. *)

From S2P Require Import Prelude Text Net Units Float Access Limiter Http Der Health Pool PoolConfig Checking ClientCert Auth Forwarding Cors CertStore Outbound Alert Telemetry ProxyProtocol Boot Serve UpstreamTls AcmeBudget Acme Redirect ControlPlane Doctor.

(** A setting that is refused. *)
Inductive Setting : Type :=
| SListener | SClientAuth | SControlPlane | SUpstreamTls | SConnectTimeout | SRuntime | SCertHeader | SBootMode | SQuota | SAdminAddr
| SCollector (what : bytes) | SRedirectStatus | SAcmeClient | SSniHosts.

Inductive Listener : Type := AdminListener | RedirectListener | PublicListener.

(** Why a start fails: a setting, or something about the machine. *)
Inductive Failure : Type :=
| Refused (s : Setting) (e : String.string)
| NotBound (l : Listener)
| NoHttpClient (what : bytes)
| NotIssued (e : String.string) | BudgetSpent (bucket key : bytes) (retry_at : Z) (source : DeferSource)
| NotGenerated (e : String.string)
| NotLoaded (cert_path : bytes) (e : String.string)
| NoTlsConfig (e : String.string).

Definition outcome (A : Type) : Type := A + Failure.
Definition obind {A B} (x : outcome A) (f : A -> outcome B) : outcome B := match x with inl a => f a | inr e => inr e end.
Notation "'start!' x := e1 'in' e2" := (obind e1 (fun x => e2)) (at level 10, x name, e1 at level 100, e2 at level 200).

Definition setting {A} (s : Setting) (r : result A) : outcome A := match r with Ok a => inl a | Err e => inr (Refused s e) end.
Definition needs (b : bool) (f : Failure) : outcome unit := if b then inl tt else inr f.

Record World : Type := mkWorld {
  bind_ : Listener -> bool;                             (** [TcpListener::bind] *)
  pair_present : bool;                                  (** both of the listener's files, before anything is issued *)
  obtain : result Issuance;                             (** [acme::obtain_certificate] *)
  generate : result unit;                               (** [selfsigned::ensure] *)
  load_now : bytes -> bytes -> result Live;             (** the files by the time they are loaded *)
  tls_config : result unit                              (** [server_config_with_client_auth] *)
}.

Section Startup.
Context {RegexSet Regex Automaton Key St Date Time Verifier : Type}.
Variable B : BuildLibs (RegexSet := RegexSet) (Regex := Regex) (Automaton := Automaton) (Key := Key) (St := St).
Variable ids : Identities.
Variable from_calendar_date : Z -> Z -> Z -> option Date.
Variable from_hms : Z -> Z -> Z -> option Time.
Variable unix_timestamp : Date -> Time -> Z.
Variable b64url : bytes -> bytes.
Variable pem_crls : bytes -> option (list bytes).
Variable build_verifier : list bytes -> list bytes -> bool -> option Verifier.
Variable server_name_ok : bytes -> bool.
Variable env : bytes -> option bytes.
Variable phc_ok : bytes -> bool.
Variable url_host : bytes -> option (bytes * bytes).
Variable is_dir : bytes -> bool.
Variable now : Z.
Variable default_id : bytes.                            (** the edge's id when the config has none *)
Variable cfg : FullConfig.
Let tls : TlsFiles := ts_rest (c_tls cfg).

Let client_auth := client_auth_verdict B from_calendar_date from_hms unix_timestamp b64url pem_crls build_verifier cfg.
Let header := header_verdict B from_calendar_date from_hms unix_timestamp b64url pem_crls build_verifier cfg.
Let upstreams := upstream_tls_verdict B ids server_name_ok cfg.

(** [CpClient::from_cfg]: the builder, then [reqwest]. *)
Definition cp_client : result (option CpClient) :=
  ControlPlane.from_cfg (fun o url => let? _ := client_verdict B ids o (lit "control_plane") url in
                                      ensure (b_http_build B) else "building control-plane HTTP client"; Ok tt)
    default_id (c_control_plane cfg).

(** [build_state]: the control plane's client and the first runtime. *)
Definition build_state : outcome (option CpClient) :=
  start! cp := setting SControlPlane cp_client in
  start! _ := setting SUpstreamTls upstreams in
  start! _ := setting SConnectTimeout (parse_duration (v_upstream_connect_timeout (c_validation cfg))) in
  start! _ := setting SRuntime (build_runtime B ids 0 cfg) in
  start! _ := setting SCertHeader header in
  inl cp.

(** [Policy::new], as far as it can fail. *)
Definition boot_mode : result unit :=
  ensure (beq (cp_boot_without_policy (c_control_plane cfg)) (lit "local") || beq (cp_boot_without_policy (c_control_plane cfg)) (lit "refuse"))
    else "unknown control_plane.boot_without_policy (expected local|refuse)";
  Ok tt.

(** A quota that nothing would poll. *)
Definition quota_check (cp : option CpClient) : outcome unit :=
  needs (negb (cp_enforce_quota (c_control_plane cfg) && bool_decide (cp = None)))
    (Refused SQuota "control_plane.enforce_quota requires control_plane.enabled = true").

(** A collector's client; [blank]: whether its task is not started for want of a URL, [url] as it is used. *)
Definition collector (c : Collector) (what : bytes) (blank : bool) (url : bytes) : outcome unit :=
  if negb (co_enabled c) || blank then inl tt
  else
  start! _ := setting (SCollector what) (client_verdict B ids (co_outbound c) what url) in
  needs (b_http_build B) (NoHttpClient what).

(** [logship::spawn] tests the URL as it is written, the other two trim it. *)
Definition collectors : outcome unit :=
  start! _ := collector (c_log cfg) (lit "log.ship") (beq (co_url (c_log cfg)) []) (co_url (c_log cfg)) in
  start! _ := collector (c_tracing cfg) (lit "tracing") (beq (trim (co_url (c_tracing cfg))) []) (trim (co_url (c_tracing cfg))) in
  collector (c_metrics cfg) (lit "metrics.otlp") (beq (trim (co_url (c_metrics cfg))) []) (trim (co_url (c_metrics cfg))).

Definition admin (w : World) : outcome unit :=
  if sv_admin_port (c_server cfg) =? 0 then inl tt
  else
  start! _ := setting SAdminAddr (ok_or (parse_ip (sv_admin_addr (c_server cfg))) "invalid server.admin_addr") in
  needs (bind_ w AdminListener) (NotBound AdminListener).

(** The certificate comes from ACME first, and only then from the generator. *)
Definition provision (w : World) : outcome unit :=
  start! _ := (if tf_acme_enabled tls then
                 start! _ := setting SAcmeClient (http_client (client_trusting B ids) (tf_acme tls)) in
                 if pair_present w then inl tt
                 else match obtain w with
                      | Err e => inr (NotIssued e)
                      | Ok Issued => inl tt
                      | Ok (Deferred bucket key retry_at source) => inr (BudgetSpent bucket key retry_at source)
                      end
               else inl tt) in
  if tf_self_signed tls then match generate w with Ok _ => inl tt | Err e => inr (NotGenerated e) end else inl tt.

Definition load (w : World) (cert key : bytes) : outcome CertStore :=
  match store_load (load_now w cert key) with Ok s => inl s | Err e => inr (NotLoaded cert e) end.

Fixpoint load_sni (w : World) (cs : list SniCertCfg) : outcome (list (SniCert (Store := CertStore))) :=
  match cs with
  | [] => inl []
  | c :: cs =>
      start! s := load w (sc_cert_path c) (sc_key_path c) in
      start! rest := load_sni w cs in
      inl (mkSniCert (sc_hosts c) s :: rest)
  end.

Definition start_tls (w : World) : outcome unit :=
  start! _ := (if tf_redirect_port tls =? 0 then inl tt
               else start! _ := setting SRedirectStatus (parse_redirect_status (tf_redirect_status tls)) in inl tt) in
  start! _ := provision w in
  start! dflt := load w (tf_cert_path tls) (tf_key_path tls) in
  start! sni := load_sni w (tf_certs tls) in
  start! _ := (match sni with [] => inl tt | _ => start! _ := setting SSniHosts (sni_new dflt sni) in inl tt end) in
  start! _ := (match tls_config w with Ok _ => inl tt | Err e => inr (NoTlsConfig e) end) in
  start! _ := (if tf_redirect_port tls =? 0 then inl tt else needs (bind_ w RedirectListener) (NotBound RedirectListener)) in
  needs (bind_ w PublicListener) (NotBound PublicListener).

Definition startup (w : World) : outcome unit :=
  start! _ := setting SListener (serve_opts (c_server cfg)) in
  start! _ := setting SClientAuth client_auth in
  start! cp := build_state in
  start! _ := setting SBootMode boot_mode in
  start! _ := quota_check cp in
  start! _ := admin w in
  start! _ := collectors in
  if ts_enabled (c_tls cfg) then start_tls w else needs (bind_ w PublicListener) (NotBound PublicListener).

(** ** [run_doctor] *)

Definition findings : option (list Finding) :=
  lint B ids from_calendar_date from_hms unix_timestamp b64url pem_crls build_verifier server_name_ok env phc_ok url_host is_dir now cfg.

(** How many errors it counts; [None]: it panics. *)
Definition errors : option nat :=
  fs ← findings;
  Some (length (List.filter (fun f => bool_decide (level f = Error)) fs)
        + (match cp_client with Err _ => 1 | Ok _ => 0 end)
        + (match build_runtime B ids 0 cfg with Err _ => 1 | Ok _ => 0 end))%nat.

(** It exits with status 0. *)
Definition run_doctor : bool := match errors with Some 0%nat => true | _ => false end.
End Startup.
