(* ===== verification/DoctorLaws.v ===== *)
(** * DoctorLaws: what a clean bill of health is worth

    [edgeguard doctor] against [edgeguard] itself: which failures of a start it rules out, that what it says will
    refuse to start does, and what a configuration without errors guarantees. *)

From S2P Require Import Prelude Text Net Units Float Access Limiter Http Der Health Pool PoolConfig Checking ClientCert Auth Forwarding Cors CertStore Outbound Alert Telemetry ProxyProtocol Boot Serve UpstreamTls AcmeBudget Acme Redirect ControlPlane BootLaws Doctor Load Startup.

(** ** Findings without errors *)

Definition clean (fs : list Finding) : Prop := Forall (fun f => level f <> Error) fs.

Lemma clean_app a b : clean (a ++ b) <-> clean a /\ clean b.
Proof. apply Forall_app. Qed.

Lemma clean_on b fs : clean (on b fs) -> b = true -> clean fs.
Proof. by intros H ->. Qed.

Lemma clean_error n fs : ~ clean (error n :: fs).
Proof. intros H. by inversion H. Qed.

Lemma clean_guard b n : clean (on b [error n]) -> b = false.
Proof. destruct b; [|done]. intros H. by apply clean_error in H. Qed.

Lemma clean_verdict {A} (r : result A) (f : String.string -> Notice) :
  clean (match r with Err e => [error (f e)] | Ok _ => [] end) -> exists a, r = Ok a.
Proof. destruct r as [a|e]; [by exists a|]. intros H. by apply clean_error in H. Qed.

Lemma counted_clean fs : length (List.filter (fun f => bool_decide (level f = Error)) fs) = 0%nat -> clean fs.
Proof.
  induction fs as [|f fs IH]; [by constructor|]. cbn. case_bool_decide as H; [done|]. intros Hl. constructor; [done | by apply IH].
Qed.

(** ** Starting *)

Lemma setting_inl {A} s (r : result A) a : setting s r = inl a -> r = Ok a.
Proof. destruct r; [by intros [= ->] | done]. Qed.

Lemma obind_inl {A B} (x : outcome A) (f : A -> outcome B) b : obind x f = inl b -> exists a, x = inl a /\ f a = inl b.
Proof. destruct x as [a|e]; [by exists a | done]. Qed.

Lemma obind_inr {A B} (x : outcome A) (f : A -> outcome B) e : obind x f = inr e -> x = inr e \/ exists a, x = inl a /\ f a = inr e.
Proof. destruct x as [a|e']; [right; by exists a | intros [= ->]; by left]. Qed.

(** A step of a start that can only fail for reasons in [P]. *)
Definition only {A} (P : Failure -> Prop) (x : outcome A) : Prop := forall e, x = inr e -> P e.

Lemma only_bind {A B} P (x : outcome A) (f : A -> outcome B) : only P x -> (forall a, x = inl a -> only P (f a)) -> only P (obind x f).
Proof. intros H1 H2 e [He | (a & Ha & He)]%obind_inr; [by apply H1 | by eapply H2]. Qed.

Lemma only_ok {A} P (a : A) : only P (inl a).
Proof. by intros e. Qed.

Lemma only_inr {A} (P : Failure -> Prop) e : P e -> only P (inr e : outcome A).
Proof. by intros H e' [= <-]. Qed.

Lemma only_needs (P : Failure -> Prop) b f : (b = false -> P f) -> only P (needs b f).
Proof. intros H. destruct b; [apply only_ok | by apply only_inr, H]. Qed.

Lemma only_setting {A} (P : Failure -> Prop) s (r : result A) : (forall e, r = Err e -> P (Refused s e)) -> only P (setting s r).
Proof. intros H. destruct r as [a|e]; [apply only_ok | by apply only_inr, H]. Qed.

Lemma only_setting_ok {A} (P : Failure -> Prop) s (r : result A) : (exists a, r = Ok a) -> only P (setting s r).
Proof. intros [a ->]. apply only_ok. Qed.

(** ** URLs *)

Lemma is_https_trim url : is_https (trim url) = is_https url.
Proof. unfold is_https. by rewrite trim_idem. Qed.

(** ** Names of certificates *)

Definition host_parses (h : bytes) : Prop := exists s, parse_sni_host h = Ok s.

Definition TWICE : String.string := "host is claimed by two certificates".

Lemma add_hosts_only i hs st e : Forall host_parses hs -> add_hosts i hs st = Err e -> e = TWICE.
Proof.
  intros Hh. revert st. induction Hh as [|h hs [s Hs] _ IH]; intros st; [done|]. cbn [add_hosts]. unfold add_host. destruct st as [ex wi].
  rewrite Hs. cbn. destruct s as [h'|sfx]; cbn.
  - destruct (ex !! h'); cbn; [by intros [= <-] | apply IH].
  - destruct (existsb _ wi); cbn; [by intros [= <-] | apply IH].
Qed.

Lemma add_certs_only {S} i (cs : list (SniCert (Store := S))) st e :
  Forall (fun c => hosts c <> [] /\ Forall host_parses (hosts c)) cs -> add_certs i cs st = Err e -> e = TWICE.
Proof.
  intros Hc. revert i st. induction Hc as [|c cs [Hne Hh] _ IH]; intros i st; [done|]. cbn [add_certs]. destruct (hosts c) as [|h hs] eqn:E; [done|].
  rewrite <- E. destruct (add_hosts i (hosts c) st) as [st'|e'] eqn:Ha; cbn.
  - apply IH.
  - intros [= <-]. rewrite E in Ha. by eapply add_hosts_only.
Qed.

(** ** A clean configuration *)

Section Laws.
Context {RegexSet Regex Automaton Key St Date Time Verifier : Type}.
Variable B : BuildLibs (RegexSet := RegexSet) (Regex := Regex) (Automaton := Automaton) (Key := Key) (St := St).
Variable ids : Identities.
Variable from_calendar_date : Z -> Z -> Z -> option Date.
Variable from_hms : Z -> Z -> Z -> option Time.
Variable unix_timestamp : Date -> Time -> Z.
Variable b64url : bytes -> bytes.
Variable pem_crls : bytes -> option (list bytes).
Variable build_verifier : list bytes -> list bytes -> bool -> option Verifier.
Variable server_name_ok : bytes -> bool.
Variable env : bytes -> option bytes.
Variable phc_ok : bytes -> bool.
Variable url_host : bytes -> option (bytes * bytes).
Variable is_dir : bytes -> bool.
Variable now : Z.
Variable default_id : bytes.
Variable cfg : FullConfig.

Local Abbreviation tls := (ts_rest (c_tls cfg)).
Local Abbreviation client_auth := (client_auth_verdict B from_calendar_date from_hms unix_timestamp b64url pem_crls build_verifier cfg).
Local Abbreviation header := (header_verdict B from_calendar_date from_hms unix_timestamp b64url pem_crls build_verifier cfg).
Local Abbreviation upstreams := (upstream_tls_verdict B ids server_name_ok cfg).
Local Abbreviation doctor := (run_doctor B ids from_calendar_date from_hms unix_timestamp b64url pem_crls build_verifier server_name_ok env phc_ok url_host is_dir now default_id cfg).
Local Abbreviation said := (findings B ids from_calendar_date from_hms unix_timestamp b64url pem_crls build_verifier server_name_ok env phc_ok url_host is_dir now cfg).
Local Abbreviation starts := (startup B ids from_calendar_date from_hms unix_timestamp b64url pem_crls build_verifier server_name_ok default_id cfg).
Local Abbreviation cert_at := (cert_of B from_calendar_date from_hms unix_timestamp b64url).

Lemma verdict_trim o what url : client_verdict B ids o what (trim url) = client_verdict B ids o what url.
Proof.
  unfold client_verdict, builder, builder_trusting, check_own, settings_of. by rewrite is_https_trim.
Qed.

Lemma collector_clean c what : clean (lint_collector B ids c what) -> co_enabled c = true -> trim (co_url c) <> [] ->
  exists u, client_verdict B ids (co_outbound c) what (co_url c) = Ok u.
Proof.
  unfold lint_collector. intros H He Hne. rewrite He in H. cbn [negb orb] in H. destruct (beq (trim (co_url c)) []) eqn:E; [by apply beq_true in E|].
  rewrite verdict_trim in H. by apply clean_verdict in H.
Qed.

(** Everything the proxy's start reads that the lint has looked at. *)
Record checked : Prop := mkChecked {
  ck_listener : exists o, serve_opts (c_server cfg) = Ok o;
  ck_client_auth : exists a, client_auth = Ok a;
  ck_header : exists h, header = Ok h;
  ck_upstreams : exists u, upstreams = Ok u;
  ck_boot : beq (cp_boot_without_policy (c_control_plane cfg)) (lit "local") || beq (cp_boot_without_policy (c_control_plane cfg)) (lit "refuse") = true;
  ck_quota : cp_enforce_quota (c_control_plane cfg) = true -> cp_enabled (c_control_plane cfg) = true;
  ck_log : clean (lint_collector B ids (c_log cfg) (lit "log.ship"));
  ck_tracing : clean (lint_collector B ids (c_tracing cfg) (lit "tracing"));
  ck_metrics : clean (lint_collector B ids (c_metrics cfg) (lit "metrics.otlp"));
  ck_tls : clean (lint_tls B ids env cfg);
  ck_expiry : clean (lint_cert_expiry B from_calendar_date from_hms unix_timestamp b64url now cfg);
  ck_proxy : clean (lint_proxy_protocol cfg)
}.

Lemma clean_checked fs : said = Some fs -> clean fs -> checked.
Proof.
  unfold findings, lint. destruct (lint_listener cfg) as [l|] eqn:El; [|done]. cbn [mbind option_bind]. intros E. apply (inj Some) in E. subst fs.
  unfold lint_outbound. rewrite !clean_app.
  intros (Hl & Hu & _ & _ & _ & Ht & Hca & Hex & Hh & _ & _ & _ & _ & Hpp & _ & Hcp & Hlog & Htr & Hme & _).
  constructor; try done.
  - unfold lint_listener in El. destruct (serve_opts (c_server cfg)) as [o|e]; [by exists o|]. injection El as <-. by apply clean_error in Hl.
  - unfold lint_client_auth in Hca. destruct client_auth as [a|e]; [by exists a|]. by apply clean_error in Hca.
  - unfold lint_trusted_header in Hh. destruct header as [h|e]; [by exists h|]. by apply clean_error in Hh.
  - unfold lint_upstream_tls in Hu. destruct upstreams as [u|e]; [by exists u|]. by apply clean_error in Hu.
  - unfold lint_control_plane in Hcp. rewrite !clean_app in Hcp. destruct Hcp as (_ & H & _). apply clean_guard in H. by apply negb_false_iff.
  - unfold lint_control_plane in Hcp. rewrite !clean_app in Hcp. destruct Hcp as (H & _). apply clean_guard in H. intros Hq. rewrite Hq in H.
    cbn in H. by apply negb_false_iff.
Qed.

Lemma doctor_facts : doctor = true ->
  checked /\ (exists cp, cp_client B ids default_id cfg = Ok cp) /\ exists r, build_runtime B ids 0 cfg = Ok r.
Proof.
  unfold run_doctor, errors. destruct said as [fs|] eqn:Ef; [|done]. cbn [mbind option_bind].
  destruct (length _) eqn:El; [|done]. destruct (cp_client _ _ _ _) as [cp|]; [|done]. destruct (build_runtime _ _ _ _) as [r|]; [|done].
  intros _. split_and!; [|by exists cp | by exists r]. apply (clean_checked fs Ef). by apply counted_clean.
Qed.

Lemma runtime_timeout r : build_runtime B ids 0 cfg = Ok r -> exists d, parse_duration (v_upstream_connect_timeout (c_validation cfg)) = Ok d.
Proof. unfold build_runtime. intros H. destruct r. run_inv H. eexists. eassumption. Qed.

Lemma cp_present cp : cp_client B ids default_id cfg = Ok cp -> cp_enabled (c_control_plane cfg) = true -> cp <> None.
Proof.
  unfold cp_client, ControlPlane.from_cfg. intros H He. rewrite He in H. cbn [negb] in H. cbv iota in H.
  run_inv H. by rewrite <- H.
Qed.

(** ** What doctor rules out *)

(** The failures a clean report leaves: the machine's, and four settings it reads less strictly than the start. *)
Definition left_open (f : Failure) : Prop :=
  match f with
  | Refused SAdminAddr _ => sv_admin_port (c_server cfg) <> 0 /\ parse_ip (sv_admin_addr (c_server cfg)) = None
  | Refused SRedirectStatus _ =>
      300 <= tf_redirect_status tls < 400 /\ tf_redirect_status tls ∉ [301; 302; 303; 307; 308]
  | Refused SSniHosts e => e = TWICE \/ tf_cert_path tls = [] \/ cert_at (tf_cert_path tls) = None
  | Refused (SCollector what) _ => what = lit "log.ship" /\ co_url (c_log cfg) <> [] /\ trim (co_url (c_log cfg)) = []
  | Refused _ _ => False
  | _ => True
  end.

Lemma collector_only c what blank url :
  (co_enabled c = true -> blank = false -> (exists u, client_verdict B ids (co_outbound c) what url = Ok u) \/
     (what = lit "log.ship" /\ co_url (c_log cfg) <> [] /\ trim (co_url (c_log cfg)) = [])) ->
  only left_open (collector B ids c what blank url).
Proof.
  intros H. unfold collector. destruct (co_enabled c); [|apply only_ok]. destruct blank; [apply only_ok|]. cbn [negb orb].
  apply only_bind; [|intros _ _; by apply only_needs]. apply only_setting. intros e He. destruct (H eq_refl eq_refl) as [[u Hu] | Hb]; [congruence | done].
Qed.

Lemma collectors_only : checked -> only left_open (collectors B ids cfg).
Proof.
  intros Hc. unfold collectors. apply only_bind; [|intros _ _; apply only_bind; [|intros _ _]].
  - apply collector_only. intros He Hb. destruct (decide (trim (co_url (c_log cfg)) = [])) as [Ht | Ht]; [right; split_and!; [done | | done]|left].
    + intros E. by rewrite E, beq_refl in Hb.
    + by apply (collector_clean _ _ (ck_log Hc)).
  - apply collector_only. intros He Hb. left. rewrite verdict_trim. apply (collector_clean _ _ (ck_tracing Hc)); [done|]. intros E. by rewrite E, beq_refl in Hb.
  - apply collector_only. intros He Hb. left. rewrite verdict_trim. apply (collector_clean _ _ (ck_metrics Hc)); [done|]. intros E. by rewrite E, beq_refl in Hb.
Qed.

Lemma admin_only w : only left_open (admin cfg w).
Proof.
  unfold admin. destruct (Z.eqb_spec (sv_admin_port (c_server cfg)) 0) as [|Hp]; [apply only_ok|].
  apply only_bind; [|intros _ _; by apply only_needs]. apply only_setting. intros e He. split; [done|].
  by destruct (parse_ip (sv_admin_addr (c_server cfg))).
Qed.

Lemma provision_only w : checked -> only left_open (provision B ids cfg w).
Proof.
  intros Hc. unfold provision. apply only_bind; [|intros _ _; destruct (tf_self_signed tls); [|apply only_ok]; destruct (generate w); [apply only_ok | by apply only_inr]].
  destruct (tf_acme_enabled tls) eqn:Ha; [|apply only_ok]. apply only_bind.
  - apply only_setting_ok. pose proof (ck_tls Hc) as H. unfold lint_tls, lint_acme_challenge in H. rewrite Ha in H. cbn [negb] in H.
    cbv iota in H. rewrite !clean_app in H. destruct H as [[H _] _]. by apply clean_verdict in H.
  - intros _ _. destruct (pair_present w); [apply only_ok|]. destruct (obtain w) as [[|]|e]; [apply only_ok | by apply only_inr | by apply only_inr].
Qed.

Lemma load_only w cert key : only left_open (load w cert key).
Proof. unfold load. destruct (store_load _); [apply only_ok | by apply only_inr]. Qed.

Lemma load_sni_only w cs : only left_open (load_sni w cs).
Proof.
  induction cs as [|c cs IH]; [apply only_ok|]. cbn [load_sni]. apply only_bind; [apply load_only|]. intros s _. apply only_bind; [done|].
  intros rest _. apply only_ok.
Qed.

Lemma load_sni_hosts w cs sni : load_sni w cs = inl sni -> map hosts sni = map sc_hosts cs.
Proof.
  revert sni. induction cs as [|c cs IH]; intros sni; [by intros [= <-]|]. cbn [load_sni].
  intros (s & _ & (rest & Hr & [= <-])%obind_inl)%obind_inl. cbn. by rewrite (IH rest).
Qed.

(** The lint of the extra certificates, when it gets to them. *)
Lemma sni_clean : checked -> ts_enabled (c_tls cfg) = true -> tf_cert_path tls <> [] -> cert_at (tf_cert_path tls) <> None ->
  Forall (fun c => sc_hosts c <> [] /\ Forall host_parses (sc_hosts c)) (tf_certs tls).
Proof.
  intros Hc Hon Hp Hr. pose proof (ck_expiry Hc) as H. unfold lint_cert_expiry in H. rewrite Hon in H. cbn [negb orb] in H.
  destruct (beq (tf_cert_path tls) []) eqn:E; [by apply beq_true in E|]. destruct (cert_at (tf_cert_path tls)) as [i|]; [|done].
  rewrite !clean_app in H. destruct H as (_ & H & _). apply Forall_flat_map in H. eapply Forall_impl; [exact H|]. intros c Hcc.
  change (clean (lint_sni_cert B from_calendar_date from_hms unix_timestamp b64url now c)) in Hcc.
  unfold lint_sni_cert in Hcc. rewrite !clean_app in Hcc. destruct Hcc as (H1 & H2 & _). split.
  - apply clean_guard in H1. by destruct (sc_hosts c).
  - apply Forall_flat_map in H2. eapply Forall_impl; [exact H2|]. intros h Hh. by apply clean_verdict in Hh.
Qed.

Lemma redirect_only : checked -> ts_enabled (c_tls cfg) = true -> tf_redirect_port tls <> 0 ->
  only left_open (setting SRedirectStatus (parse_redirect_status (tf_redirect_status tls))).
Proof.
  intros Hc Hon Hp. apply only_setting. intros e He. cbn [left_open]. pose proof (ck_tls Hc) as H. unfold lint_tls in H. rewrite Hon in H.
  cbn [negb] in H. cbv iota in H. rewrite !clean_app in H. destruct H as (_ & _ & _ & _ & H). unfold lint_redirect in H.
  destruct (Z.eqb_spec (tf_redirect_port tls) 0); [done|]. destruct (_ =? sv_port _); [by apply clean_error in H|].
  destruct (_ =? sv_admin_port _); [by apply clean_error in H|]. rewrite !clean_app in H. destruct H as (H & _). apply clean_guard in H.
  apply negb_false_iff, andb_true_iff in H as [H1%Z.leb_le H2%Z.ltb_lt]. split; [lia|].
  unfold parse_redirect_status in He. replace ((100 <=? _) && _) with true in He by (symmetry; apply andb_true_iff; lia).
  by case_bool_decide.
Qed.

Lemma start_tls_only w : checked -> ts_enabled (c_tls cfg) = true -> only left_open (start_tls B ids cfg w).
Proof.
  intros Hc Hon. unfold start_tls. apply only_bind.
  { destruct (Z.eqb_spec (tf_redirect_port tls) 0); [apply only_ok|]. apply only_bind; [by apply redirect_only | intros _ _; apply only_ok]. }
  intros _ _. apply only_bind; [by apply provision_only|]. intros _ _. apply only_bind; [apply load_only|]. intros dflt _.
  apply only_bind; [apply load_sni_only|]. intros sni Hsni. apply load_sni_hosts in Hsni. apply only_bind.
  { destruct sni as [|c cs] eqn:E; [apply only_ok|]. apply only_bind; [|intros _ _; apply only_ok]. apply only_setting. intros e He. cbn [left_open].
    destruct (decide (tf_cert_path tls = [])) as [|Hp]; [by right; left|]. destruct (cert_at (tf_cert_path tls)) as [i|] eqn:Er; [|by right; right].
    left. unfold sni_new in He. destruct (add_certs 0 (c :: cs) (∅, [])) as [st|e'] eqn:Ea; [done|]. injection He as <-.
    eapply add_certs_only; [|exact Ea]. apply (Forall_map hosts (fun hs => hs <> [] /\ Forall host_parses hs)). rewrite Hsni. apply Forall_map.
    apply sni_clean; [done.. | congruence]. }
  intros _ _. apply only_bind; [destruct (tls_config w); [apply only_ok | by apply only_inr]|]. intros _ _.
  apply only_bind; [destruct (_ =? 0); [apply only_ok | by apply only_needs] | intros _ _; by apply only_needs].
Qed.

(** A start that fails though doctor passed. *)
Lemma doctor_vouches w f : doctor = true -> starts w = inr f -> left_open f.
Proof.
  intros (Hc & [cp Hcp] & [r Hr])%doctor_facts. revert f. change (only left_open (starts w)). unfold startup.
  apply only_bind; [apply only_setting_ok, (ck_listener Hc)|]. intros _ _. apply only_bind; [apply only_setting_ok, (ck_client_auth Hc)|]. intros _ _.
  apply only_bind.
  { unfold build_state. rewrite Hcp, Hr. destruct (runtime_timeout r Hr) as [d Hd]. rewrite Hd.
    destruct (ck_upstreams Hc) as [u Hu]. rewrite Hu. destruct (ck_header Hc) as [h Hh]. rewrite Hh. apply only_ok. }
  intros cp' Hst. apply only_bind.
  { apply only_setting_ok. unfold boot_mode. rewrite (ck_boot Hc). by exists tt. }
  intros _ _. apply only_bind.
  { apply only_needs. intros [Hq Hn]%negb_false_iff%andb_true_iff. apply bool_decide_eq_true in Hn as ->.
    apply obind_inl in Hst as (cp2 & Hcp2%setting_inl & Hst). repeat (apply obind_inl in Hst as (? & _ & Hst)). injection Hst as ->.
    by apply (cp_present None Hcp2 (ck_quota Hc Hq)). }
  intros _ _. apply only_bind; [apply admin_only|]. intros _ _. apply only_bind; [by apply collectors_only|]. intros _ _.
  destruct (ts_enabled (c_tls cfg)) eqn:Hon; [by apply start_tls_only | by apply only_needs].
Qed.

Lemma shared_none bs l s t c d : is_nil (shared_with bs l) = true -> s ∈ l -> Access.parse s = Ok c -> t ∈ bs -> Access.parse t = Ok d -> overlaps d c = false.
Proof.
  intros H Hs Hc Ht Hd. apply not_true_is_false. intros Ho. unfold shared_with in H. set (bs' := omap _ bs) in H.
  assert (Hd' : d ∈ bs') by (apply list_elem_of_omap; exists t; split; [done | by rewrite Hd]).
  assert (Hin : In s (List.filter (fun t => match Access.parse t with Ok c => existsb (fun b => overlaps b c) bs' | Err _ => false end) l)).
  { apply filter_In. split; [by apply list_elem_of_In|]. rewrite Hc. apply existsb_exists. exists d. split; [by apply list_elem_of_In | done]. }
  by destruct (List.filter _ l).
Qed.

Lemma no_shared bs l cs ds c d ip : is_nil (shared_with bs l) = true -> collect Access.parse l = Ok cs -> collect Access.parse bs = Ok ds ->
  c ∈ cs -> d ∈ ds -> ip_ok ip -> contains c ip = true -> contains d ip = true -> False.
Proof.
  intros H Hl%collect_Ok Hb%collect_Ok Hc Hd Hip H1 H2. destruct (Forall2_in_r _ _ _ _ Hl Hc) as (s & Hs & Hsc). destruct (Forall2_in_r _ _ _ _ Hb Hd) as (t & Ht & Htd).
  pose proof (shared_none bs l s t c d H Hs Hsc Ht Htd) as Hn. assert (overlaps d c = true); [|congruence].
  apply (cidr_overlaps_correct t s d c Htd Hsc). by exists ip.
Qed.

(** A balancer is never believed twice: when doctor finds no error in a configuration that reads PROXY headers and
    X-Forwarded-For, no address is both one PROXY headers are believed from and one X-Forwarded-For is believed from. *)
Theorem doctor_separates_balancers f p ip : doctor = true -> trust_forwarded_for (sv_forward (c_server cfg)) = true ->
  forwarders_from_cfg (sv_forward (c_server cfg)) = Ok f ->
  ProxyProtocol.from_cfg (sv_proxy_protocol (c_server cfg)) (sv_proxy_protocol_trusted (c_server cfg)) = Ok (Some p) ->
  ip_ok ip -> listed f ip && ProxyProtocol.trusts p ip = false.
Proof.
  intros (Hc & _)%doctor_facts Hx Hf Hp Hip. apply not_true_is_false. intros [Hl Ht]%andb_true_iff.
  pose proof (ck_proxy Hc) as H. unfold lint_proxy_protocol in H. unfold ProxyProtocol.from_cfg in Hp.
  destruct (sv_proxy_protocol (c_server cfg)); [|done]. cbn [negb] in H, Hp. cbv iota in H, Hp. rewrite Hx in H. rewrite !clean_app in H.
  destruct H as (_ & H & _). cbn [on] in H. apply clean_guard, negb_false_iff in H.
  run_inv Hp. unfold forwarders_from_cfg in Hf. run_inv Hf. subst p f. unfold listed, ProxyProtocol.trusts in *. cbn in Hl, Ht.
  apply existsb_exists in Hl as (c & Hc1%list_elem_of_In & Hc2). apply existsb_exists in Ht as (d & Hd1%list_elem_of_In & Hd2).
  eapply (no_shared _ _ _ _ c d (to_canonical ip) H); try eassumption. by apply to_canonical_ok.
Qed.

(** ** What doctor says refuses to start *)

Definition mild (f : Finding) : Prop := match message f with RefusesToStart _ => False | _ => True end.

Lemma mild_on b fs : Forall mild fs -> Forall mild (on b fs).
Proof. intros H. by destruct b. Qed.

Lemma mild_flat {A} (f : A -> list Finding) l : (forall x, Forall mild (f x)) -> Forall mild (flat_map f l).
Proof. intros H. apply Forall_flat_map. by apply Forall_true. Qed.

Lemma mild_map {A} (f : A -> Finding) l : (forall x, mild (f x)) -> Forall mild (map f l).
Proof. intros H. apply Forall_map. by apply Forall_true. Qed.

(** Lists of fixed findings. *)
Ltac mildly :=
  repeat first
    [ exact I | apply Forall_nil_2 | apply mild_on | apply Forall_app; split | apply mild_flat; intros ? | apply mild_map; intros ?
    | apply Forall_cons_2 | match goal with |- context [match ?x with _ => _ end] => destruct x end ].

Lemma expiry_mild path i plan t : Forall mild (cert_expiry_findings path i plan t).
Proof. unfold cert_expiry_findings. mildly. Qed.

Lemma trust_mild what t n : Forall mild (trust_findings what t n).
Proof. unfold trust_findings. mildly. Qed.

Lemma others_mild : Forall mild (lint_pools B cfg ++ lint_auth phc_ok cfg ++ lint_ratelimit cfg ++ lint_cors cfg ++ lint_unknown_keys cfg
  ++ lint_forwarded cfg ++ lint_proxy_protocol cfg ++ lint_secrets env cfg ++ lint_control_plane url_host is_dir cfg).
Proof.
  unfold lint_pools, lint_pool, lint_auth, lint_ratelimit, lint_cors, lint_unknown_keys, lint_forwarded, lint_proxy_protocol, lint_secrets, lint_control_plane.
  mildly.
Qed.

Lemma cert_expiry_mild : Forall mild (lint_cert_expiry B from_calendar_date from_hms unix_timestamp b64url now cfg).
Proof.
  unfold lint_cert_expiry. destruct (_ || _); [constructor|]. destruct (cert_at (tf_cert_path tls)) as [i|]; [|constructor].
  rewrite !Forall_app. split_and!; [apply expiry_mild | | mildly]. apply mild_flat. intros c. unfold lint_sni_cert.
  rewrite !Forall_app. split_and!; [mildly | mildly |]. destruct (load_certs _ _ _); [|mildly]. destruct (cert_at _); [apply expiry_mild | constructor].
Qed.

Lemma client_expiry_mild : Forall mild (lint_client_cert_expiry B from_calendar_date from_hms unix_timestamp b64url pem_crls build_verifier now cfg).
Proof.
  unfold lint_client_cert_expiry. rewrite !Forall_app. split_and!.
  - apply mild_flat. intros [what path]. destruct (cert_at path); [|constructor]. apply mild_map. intros f. exact I.
  - destruct client_auth as [[a|]|]; try constructor. apply trust_mild.
  - destruct header as [[h|]|]; try constructor. destruct (ClientCert.verifier h); [apply trust_mild | constructor].
Qed.

Lemma acme_mild : (tf_acme_enabled tls = true -> exists u, http_client (client_trusting B ids) (tf_acme tls) = Ok u) ->
  Forall mild (lint_tls B ids env cfg).
Proof.
  intros H. unfold lint_tls. apply Forall_app. split; [|unfold lint_redirect; mildly].
  unfold lint_acme_challenge. destruct (tf_acme_enabled tls); [|constructor]. destruct (H eq_refl) as [u ->]. cbn [negb app]. mildly.
Qed.

Lemma collector_mild c what blank url u : collector B ids c what blank url = inl u ->
  (blank = true -> trim (co_url c) = []) -> client_verdict B ids (co_outbound c) what url = client_verdict B ids (co_outbound c) what (co_url c) ->
  Forall mild (lint_collector B ids c what).
Proof.
  intros Hok Hb Hv. unfold lint_collector, collector in *. destruct (co_enabled c); [|constructor]. cbn [negb orb] in *.
  destruct (beq (trim (co_url c)) []) eqn:E; [constructor|]. destruct blank; [by rewrite Hb, beq_refl in E|]. rewrite verdict_trim, <- Hv.
  apply obind_inl in Hok as (v & Hv1%setting_inl & _). rewrite Hv1. constructor.
Qed.

(** A start doctor said would fail. *)
Lemma doctor_refusals_true fs e w : said = Some fs -> mkFinding Error (RefusesToStart e) ∈ fs ->
  (ts_enabled (c_tls cfg) = true \/ tf_acme_enabled tls = false) -> exists f, starts w = inr f.
Proof.
  intros Hs Hin Htls. destruct (starts w) as [[]|f] eqn:Hw; [exfalso | by exists f]. enough (Hm : Forall mild fs) by (rewrite Forall_forall in Hm; by apply Hm in Hin).
  clear Hin e. unfold startup in Hw. apply obind_inl in Hw as (o & Ho%setting_inl & Hw). apply obind_inl in Hw as (a & Ha%setting_inl & Hw).
  apply obind_inl in Hw as (cp & Hcp & Hw). apply obind_inl in Hw as (? & _ & Hw). apply obind_inl in Hw as (? & _ & Hw). apply obind_inl in Hw as (? & _ & Hw).
  apply obind_inl in Hw as (? & Hcol & Hw). unfold build_state in Hcp. apply obind_inl in Hcp as (? & _ & Hcp). apply obind_inl in Hcp as (u & Hu%setting_inl & Hcp).
  apply obind_inl in Hcp as (? & _ & Hcp). apply obind_inl in Hcp as (? & _ & Hcp). apply obind_inl in Hcp as (h & Hh%setting_inl & _).
  unfold findings, lint in Hs. destruct (lint_listener cfg) as [l|] eqn:El; [|done]. cbn [mbind option_bind] in Hs. apply (inj Some) in Hs. subst fs.
  pose proof others_mild as Hoth. rewrite !Forall_app in *. destruct Hoth as (H1 & H2 & H3 & H4 & H5 & H6 & H7 & H8 & H9).
  split_and!; try done.
  - unfold lint_listener in El. rewrite Ho in El. destruct (DURATION_MAX <? _); [done|]. apply (inj Some) in El. subst l. mildly.
  - unfold lint_upstream_tls. rewrite Hu. apply mild_flat. intros t. mildly.
  - apply acme_mild. intros Hacme. destruct Htls as [Hon | Hoff]; [|congruence]. rewrite Hon in Hw. unfold start_tls in Hw.
    apply obind_inl in Hw as (? & _ & Hw). apply obind_inl in Hw as (? & Hp & _). unfold provision in Hp. rewrite Hacme in Hp.
    apply obind_inl in Hp as (? & Hp & _). apply obind_inl in Hp as (v & Hv%setting_inl & _). by exists v.
  - unfold lint_client_auth. rewrite Ha. destruct a; mildly.
  - apply cert_expiry_mild.
  - unfold lint_trusted_header. rewrite Hh. destruct h; mildly.
  - apply client_expiry_mild.
  - unfold collectors in Hcol. apply obind_inl in Hcol as (? & Hc1 & Hcol). apply obind_inl in Hcol as (? & Hc2 & Hc3).
    unfold lint_outbound. rewrite !Forall_app. split_and!.
    + eapply collector_mild; [exact Hc1 | by intros ->%beq_true | done].
    + eapply collector_mild; [exact Hc2 | by intros ?%beq_true | apply verdict_trim].
    + eapply collector_mild; [exact Hc3 | by intros ?%beq_true | apply verdict_trim].
    + apply mild_flat. intros c. mildly.
    + mildly.
Qed.

(** C32.  Doctor and the proxy agree, on the same files and configuration.  When [edgeguard doctor] exits with success,
    [edgeguard] either reaches its listener, or fails for the machine's sake -- a port taken, a certificate that is not
    issued, generated or loaded, an HTTP client that does not build -- or for one of four settings doctor reads less
    strictly: an admin address that is no address, a redirect status that is a 3xx but none of the five the listener
    takes, a host name of the extra certificates when two claim it or the listener's own certificate could not be read,
    and a log URL of nothing but blanks.  Every other setting a start refuses, doctor refuses.  And on a
    configuration that has TLS enabled or ACME off, what doctor says will refuse to start does, whatever the machine;
    with ACME on and TLS off doctor also builds the ACME client, which the start does not. *)
Theorem doctor_matches_startup w :
  (doctor = true -> forall f, starts w = inr f -> left_open f)
  /\ (forall fs e, said = Some fs -> mkFinding Error (RefusesToStart e) ∈ fs -> ts_enabled (c_tls cfg) = true \/ tf_acme_enabled tls = false ->
      exists f, starts w = inr f).
Proof. split; [intros Hd f; by apply doctor_vouches | intros fs e; by apply doctor_refusals_true]. Qed.

(** ** Certificates in time *)

Lemma clean_week path i plan : clean (cert_expiry_findings path i plan now) -> now + 7 * 86400 <= not_after i.
Proof.
  unfold cert_expiry_findings, days_left. destruct (Z.leb_spec (not_after i) now); [by intros ?%clean_error|].
  destruct (Z.ltb_spec ((not_after i - now) / 86400) 7) as [|Hd]; [by intros ?%clean_error|]. intros _.
  pose proof (Z.mul_div_le (not_after i - now) 86400 ltac:(lia)). lia.
Qed.

(** When doctor passed, the listener's certificate and the extra ones, those it could read, have a week left. *)
Theorem doctor_week_left i : doctor = true -> ts_enabled (c_tls cfg) = true -> tf_cert_path tls <> [] -> cert_at (tf_cert_path tls) = Some i ->
  now + 7 * 86400 <= not_after i
  /\ forall c, c ∈ tf_certs tls -> (exists cs, load_certs (b_fs B) (b_pem_certs B) (sc_cert_path c) = Ok cs)
       /\ forall j, cert_at (sc_cert_path c) = Some j -> now + 7 * 86400 <= not_after j.
Proof.
  intros (Hc & _)%doctor_facts Hon Hp Hi. pose proof (ck_expiry Hc) as H. unfold lint_cert_expiry in H. rewrite Hon, Hi in H. cbn [negb orb] in H.
  destruct (beq (tf_cert_path tls) []) eqn:E; [by apply beq_true in E|]. rewrite !clean_app in H. destruct H as (H & Hs & _). split; [by eapply clean_week|].
  intros c Hin. apply Forall_flat_map in Hs. rewrite Forall_forall in Hs. specialize (Hs c Hin).
  change (clean (lint_sni_cert B from_calendar_date from_hms unix_timestamp b64url now c)) in Hs. unfold lint_sni_cert in Hs. rewrite !clean_app in Hs.
  destruct Hs as (_ & _ & Hs). destruct (load_certs _ _ (sc_cert_path c)) as [cs|] eqn:El; [|by apply clean_error in Hs].
  split; [by exists cs|]. intros j Hj. rewrite Hj in Hs. by eapply clean_week.
Qed.
End Laws.

(** ** Without a configuration file *)

Section Defaults.
Context {RegexSet Regex Automaton Key St Date Time Verifier : Type}.
Variable B : BuildLibs (RegexSet := RegexSet) (Regex := Regex) (Automaton := Automaton) (Key := Key) (St := St).
Variables (ids : Identities) (from_calendar_date : Z -> Z -> Z -> option Date) (from_hms : Z -> Z -> Z -> option Time) (unix_timestamp : Date -> Time -> Z).
Variables (b64url : bytes -> bytes) (pem_crls : bytes -> option (list bytes)) (build_verifier : list bytes -> list bytes -> bool -> option Verifier).
Variables (server_name_ok : bytes -> bool) (env : bytes -> option bytes) (phc_ok : bytes -> bool) (url_host : bytes -> option (bytes * bytes)) (is_dir : bytes -> bool).
Variables (now : Z) (default_id : bytes).

(** With no file and nothing in the environment the defaults are loaded as they are; doctor passes them with two
    warnings and a remark, and a start on any machine fails only if the public port cannot be bound. *)
Theorem defaults_start (read : bytes -> option bytes) (from_str : bytes -> option FullConfig) (unknown : bytes -> list bytes) (authority host path : bytes) (port : option Z) (w : World) :
  b_parse_uri B (lit "http://127.0.0.1:3000") = Some (mkUri (Some (lit "http")) (Some authority) (Some host) port path) -> b_http_build B = true ->
  exists cfg, Load.load (fun _ => None) read from_str unknown None = Ok cfg
  /\ startup B ids from_calendar_date from_hms unix_timestamp b64url pem_crls build_verifier server_name_ok default_id cfg w
     = needs (bind_ w PublicListener) (NotBound PublicListener)
  /\ findings B ids from_calendar_date from_hms unix_timestamp b64url pem_crls build_verifier server_name_ok env phc_ok url_host is_dir now cfg
     = Some [warn AuthNone; info PlainHttp; warn HstsWithoutTls]
  /\ run_doctor B ids from_calendar_date from_hms unix_timestamp b64url pem_crls build_verifier server_name_ok env phc_ok url_host is_dir now default_id cfg = true.
Proof.
  destruct B. intros Hu Hb. vm_compute in Hu, Hb. subst. exists config_default.
  split; [vm_compute; reflexivity|]. split; [vm_compute; rewrite Hu; vm_compute; reflexivity|]. split; [vm_compute; rewrite ?Hu; vm_compute; reflexivity|]. vm_compute. rewrite Hu. vm_compute. reflexivity.
Qed.
End Defaults.

(** ** Examples *)

Definition no_acme : AcmeSection :=
  mkAcmeSection (mkAcmeCfg [] [] false) [] [] false [] (mkAcmeDnsCfg [] [] [] [] [] 0 no_outbound) no_outbound.
Definition no_collector : Collector := mkCollector false [] no_outbound.

(** [local_config] with a listener and a server section of its own. *)
Definition sample_full (server : ServerSection) (tls_on : bool) (redirect_port redirect_status : Z) : FullConfig :=
  let c := local_config in
  mkConfig server (c_auth c) (c_ratelimit c) (c_validation c) (c_headers c)
    (mkTlsSection _ tls_on (lit "off") (lit "off")
       (mkTlsFiles (lit "cert.pem") (lit "key.pem") true 90 true redirect_port redirect_status [] false false no_acme [] [] []))
    (c_waf c) (c_upstreams c) (mkUpstreamTlsCfg [] [] [] [] []) (c_access c) (c_cors c) (c_control_plane c) (c_llm c) (c_alerts c)
    no_collector no_collector no_collector (c_cert_header c) (c_outbound c) [].

Definition sample_world : World := mkWorld (fun _ => true) true (Ok Issued) (Ok tt) (fun _ _ => Err "none") (Ok tt).

(** Doctor passes a redirect status of 304, which the start refuses. *)
Definition redirect_304 : FullConfig := sample_full (c_server local_config) true 80 304.

Definition no_date : Z -> Z -> Z -> option unit := fun _ _ _ => None.
Definition no_stamp : unit -> unit -> Z := fun _ _ => 0.
Definition same : bytes -> bytes := fun s => s.
Definition no_crls : bytes -> option (list bytes) := fun _ => None.
Definition no_verifier : list bytes -> list bytes -> bool -> option unit := fun _ _ _ => None.
Definition any : bytes -> bool := fun _ => true.
Definition unset : bytes -> option bytes := fun _ => None.
Definition no_url : bytes -> option (bytes * bytes) := fun _ => None.

Local Abbreviation sample_doctor := (run_doctor sample_libs no_identities no_date no_date no_stamp same no_crls no_verifier any unset any no_url any 0 []).
Local Abbreviation sample_start := (startup sample_libs no_identities no_date no_date no_stamp same no_crls no_verifier any []).

Definition refused_304 : Failure := Refused SRedirectStatus "tls.redirect_status must be 301, 302, 303, 307 or 308".

Lemma passes_304 : sample_doctor redirect_304 = true.
Proof. vm_compute. reflexivity. Qed.
Lemma refuses_304 : sample_start redirect_304 sample_world = inr refused_304.
Proof. vm_compute. reflexivity. Qed.

Lemma doctor_matches_startup_witness :
  sample_doctor redirect_304 = true /\ sample_start redirect_304 sample_world = inr refused_304
  /\ 300 <= tf_redirect_status (ts_rest (c_tls redirect_304)) < 400 /\ tf_redirect_status (ts_rest (c_tls redirect_304)) ∉ [301; 302; 303; 307; 308].
Proof.
  split; [exact passes_304|]. split; [exact refuses_304|].
  exact (proj1 (doctor_matches_startup sample_libs no_identities no_date no_date no_stamp same no_crls no_verifier any unset any no_url any 0 [] redirect_304 sample_world)
           passes_304 refused_304 refuses_304).
Defined.

(** PROXY headers from one network, X-Forwarded-For from another. *)
Definition two_balancers : FullConfig :=
  sample_full (mkServerSection (mkServerCfg true (Forwarding.Count 1) [lit "192.168.0.0/16"]) [] 3000 8080 0 [] (lit "10s") 0 (lit "0") (lit "10s") true [lit "10.0.0.0/8"])
    false 0 308.

Lemma doctor_separates_balancers_witness :
  listed (mkForwarders true (Forwarding.Count 1) [CidrV4 3232235520 16]) (V4 167772161)
  && ProxyProtocol.trusts (mkProxyProtocol [CidrV4 167772160 8] true) (V4 167772161) = false.
Proof.
  refine (doctor_separates_balancers sample_libs no_identities no_date no_date no_stamp same no_crls no_verifier any unset any no_url any 0 [] two_balancers
            _ _ _ _ eq_refl _ _ _); [vm_compute; reflexivity.. | split; [lia | reflexivity]].
Defined.

Lemma defaults_start_witness :
  exists cfg, Load.load unset unset (fun _ => None) (fun _ => []) None = Ok cfg /\ sample_start cfg sample_world = inl tt /\ sample_doctor cfg = true.
Proof.
  destruct (defaults_start sample_libs no_identities no_date no_date no_stamp same no_crls no_verifier any unset any no_url any 0 []
              unset (fun _ => None) (fun _ => []) (lit "127.0.0.1:3000") (lit "127.0.0.1:3000") [] None sample_world) as (cfg & Hl & Hs & _ & Hd); [by vm_compute..|].
  exists cfg. split; [exact Hl | split; [exact Hs | exact Hd]].
Defined.
