(* ===== verification/Ner.v ===== *)
(** * Ner: entity spans from a token classifier ([src/edgeguard-ner/src/lib.rs])

    [try_scan] of the [onnx] build: the tokenizer, the model and [f32::exp] are parameters; truncation, the class of
    each token and its probability, and the assembly of spans are here.  [scan] turns every failure into no spans. *)

From Stdlib Require Import SpecFloat Sorting.Sorted.
From S2P Require Import Prelude Text Float.

(** ** [f32] *)

Definition f32 : Type := spec_float.
Definition f32_sub (x y : f32) : f32 := SFsub 24 128 x y.
Definition f32_add (x y : f32) : f32 := SFadd 24 128 x y.
Definition f32_div (x y : f32) : f32 := SFdiv 24 128 x y.
Definition f32_zero : f32 := S754_zero false.
Definition f32_one : f32 := binary_normalize 24 128 1 0 false.
(** [f32::min]: the other one when one is not a number. *)
Definition f32_min (x y : f32) : f32 :=
  match x, y with
  | S754_nan, _ => y
  | _, S754_nan => x
  | _, _ => if SFltb y x then y else x
  end.

(** ** Data *)

Record NerSpan : Type := mkNerSpan { label : bytes; start : Z; end_ : Z; score : f32 }.

(** [tokenizers::Encoding]. *)
Record Encoding : Type := mkEncoding { en_ids : list Z; en_mask : list Z; en_offsets : list (Z * Z); en_special : list Z }.

(** The first output as an array: its shape, and a token's row of logits ([as_slice], empty when it is not one). *)
Record Logits : Type := mkLogits { shape : list nat; row : nat -> list f32 }.

(** [NerEngine::load], its two files read; the number of inputs is the model's. *)
Definition load (tokenizer_ok : bool) (model : option nat) (labels : list bytes) (max_seq_len : Z) : result nat :=
  ensure tokenizer_ok else "loading tokenizer";
  let? num_inputs := ok_or model "loading ONNX model" in
  ensure (2 <? max_seq_len) else "max_seq_len must leave room for special tokens (> 2)";
  ensure (match labels with [] => false | _ => true end) else "labels must be non-empty";
  Ok num_inputs.

Section Ner.
Variable exp : f32 -> f32.
Variable encode : bytes -> option Encoding.             (** [Tokenizer::encode] *)
Variable run : list (list Z) -> option (option Logits). (** [SimplePlan::run], and its first output read as [f32] *)
Variable labels : list bytes.
Variable max_seq_len : nat.
Variable num_inputs : nat.

(** ** The class of a token *)

(** The first index with the greatest value. *)
Fixpoint argmax (i : nat) (l : list f32) (best : nat) (max : f32) : nat * f32 :=
  match l with
  | [] => (best, max)
  | v :: l => if SFltb max v then argmax (S i) l i v else argmax (S i) l best max
  end.

Definition argmax_softmax (r : list f32) (num_labels : nat) : nat * f32 :=
  let r := take (Nat.min (length r) num_labels) r in
  match r with
  | [] => (0%nat, f32_zero)
  | v :: _ =>
      let '(best, max) := argmax 0 r 0 v in
      let denom := fold_left (fun s v => f32_add s (exp (f32_sub v max))) r f32_zero in
      (best, if SFltb f32_zero denom then f32_div f32_one denom else f32_zero)
  end.

Definition entity_core (l : bytes) : option bytes :=
  let core := match split_once 45 l with Some (_, r) => r | None => l end in
  if eq_ignore_ascii_case core (lit "o") || beq core [] then None else Some core.

Definition begins_new (l : bytes) : bool := match strip_prefix (lit "B-") l with Some _ => true | None => false end.

(** ** Spans *)

(** What a token says: nothing (special, no width, outside), or an entity. *)
Record Entity : Type := mkEntity { en_kind : bytes; en_begins : bool; en_start : Z; en_end : Z; en_score : f32 }.

Definition flush (st : option NerSpan * list NerSpan) : option NerSpan * list NerSpan :=
  match st with (Some s, out) => (None, out ++ [s]) | (None, out) => (None, out) end.

(** One round of the loop. *)
Definition add_token (st : option NerSpan * list NerSpan) (t : option Entity) : option NerSpan * list NerSpan :=
  match t with
  | None => flush st
  | Some e =>
      let new := (Some (mkNerSpan (en_kind e) (en_start e) (en_end e) (en_score e)), (flush st).2) in
      match st.1 with
      | Some c =>
          if negb (en_begins e) && bool_decide (entity_core (label c) = Some (en_kind e))
          then (Some (mkNerSpan (label c) (start c) (en_end e) (f32_min (score c) (en_score e))), st.2)
          else new
      | None => new
      end
  end.

Definition token (enc : Encoding) (lg : Logits) (num_labels t : nat) : option Entity :=
  if default 0 (en_special enc !! t) =? 1 then None
  else
  let '(s, e) := default (0, 0) (en_offsets enc !! t) in
  if s =? e then None
  else
  let '(best, sc) := argmax_softmax (row lg t) num_labels in
  let l := default (lit "O") (labels !! best) in
  kind ← entity_core l;
  Some (mkEntity kind (begins_new l) s e sc).

Definition assemble (ts : list (option Entity)) : list NerSpan := (flush (fold_left add_token ts (None, []))).2.

Definition try_scan (text : bytes) : result (list NerSpan) :=
  if beq (trim text) [] then Ok []
  else
  let? enc := ok_or (encode text) "tokenizing" in
  let len := Nat.min (length (en_ids enc)) max_seq_len in
  if Nat.eqb len 0 then Ok []
  else
  let inputs := [take len (en_ids enc); take len (en_mask enc)] ++ (if Nat.leb 3 num_inputs then [replicate len 0] else []) in
  let? out := ok_or (run inputs) "running ONNX model" in
  let? lg := ok_or out "NER model returned no outputs" in
  match shape lg with
  | [b; seq; num_labels] =>
      ensure (Nat.eqb b 1) else "unexpected NER output shape";
      Ok (assemble (map (token enc lg num_labels) (List.seq 0 (Nat.min seq len))))
  | _ => Err "unexpected NER output shape"
  end.

Definition scan (text : bytes) : list NerSpan := match try_scan text with Ok s => s | Err _ => [] end.
End Ner.

(** ** What the spans are *)

(** [f] goes on with an entity of kind [k]. *)
Definition continues (k : bytes) (f : Entity) : bool := negb (en_begins f) && beq (en_kind f) k.

(** The group [g], of kind [k], in front of the groups that follow. *)
Definition join_group (k : bytes) (g : list Entity) (gs : list (list Entity)) : list (list Entity) :=
  match gs with
  | (f :: h) :: gs' => if continues k f then (g ++ f :: h) :: gs' else g :: gs
  | _ => g :: gs
  end.

(** The tokens of each entity: runs of tokens of one kind, cut where a token begins an entity or says nothing. *)
Fixpoint segments (ts : list (option Entity)) : list (list Entity) :=
  match ts with
  | [] => []
  | None :: ts => [] :: segments ts
  | Some e :: ts => join_group (en_kind e) [e] (segments ts)
  end.

Definition entities (ts : list (option Entity)) : list (list Entity) := List.filter (fun g => match g with [] => false | _ => true end) (segments ts).

(** From the first token to the last, with the least of the scores. *)
Definition span_of (g : list Entity) : NerSpan :=
  match g with
  | [] => mkNerSpan [] 0 0 f32_zero
  | e :: r => mkNerSpan (en_kind e) (en_start e) (List.last (map en_end g) 0) (fold_left (fun s f => f32_min s (en_score f)) r (en_score e))
  end.

(** The kind does not look like a tag itself. *)
Definition plain_kind (e : Entity) : Prop := entity_core (en_kind e) = Some (en_kind e).

Lemma span_of_snoc e r f : span_of ((e :: r) ++ [f]) =
  mkNerSpan (label (span_of (e :: r))) (start (span_of (e :: r))) (en_end f) (f32_min (score (span_of (e :: r))) (en_score f)).
Proof.
  cbn [span_of app label start score]. f_equal.
  - change (map en_end (e :: r ++ [f])) with (map en_end ((e :: r) ++ [f])). rewrite map_app. apply List.last_last.
  - by rewrite fold_left_app.
Qed.

Lemma join_snoc k g e gs : en_kind e = k -> continues k e = true -> join_group k (g ++ [e]) gs = join_group k g (join_group k [e] gs).
Proof.
  intros Hk Hc. destruct gs as [|[|f h] gs]; cbn; try by rewrite Hc.
  destruct (continues k f); cbn; rewrite Hc; [by rewrite <- app_assoc | done].
Qed.

Definition spans (gs : list (list Entity)) : list NerSpan := map span_of (List.filter (fun g => match g with [] => false | _ => true end) gs).

Definition plain (ts : list (option Entity)) : Prop := Forall (fun o => match o with Some f => plain_kind f | None => True end) ts.

(** With an entity open, and with none. *)
Lemma assemble_from ts : plain ts ->
  (forall e r out, plain_kind e ->
     (flush (fold_left add_token ts (Some (span_of (e :: r)), out))).2 = out ++ spans (join_group (en_kind e) (e :: r) (segments ts)))
  /\ (forall out, (flush (fold_left add_token ts (None, out))).2 = out ++ spans (segments ts)).
Proof.
  induction 1 as [|[f|] ts Hf _ [IHo IHc]].
  - split; [done|]. intros out. cbn. by rewrite app_nil_r.
  - split.
    + intros e r out He. cbn [fold_left]. unfold add_token at 2. cbn [fst snd flush].
      assert (Hl : label (span_of (e :: r)) = en_kind e) by done. rewrite Hl, He.
      destruct (continues (en_kind e) f) eqn:Hc.
      * pose proof Hc as [Hb Hk%beq_true]%andb_true_iff. rewrite Hb. cbn [andb]. rewrite bool_decide_eq_true_2 by congruence.
        pose proof (span_of_snoc e r f) as Hs. rewrite Hl in Hs. rewrite <- Hs. cbn [app]. rewrite (IHo e (r ++ [f]) out He).
        change (e :: r ++ [f]) with ((e :: r) ++ [f]). rewrite (join_snoc (en_kind e) (e :: r) f) by done. cbn [segments]. by rewrite Hk.
      * assert (Hn : negb (en_begins f) && bool_decide (Some (en_kind e) = Some (en_kind f)) = false).
        { unfold continues in Hc. destruct (en_begins f); [done|]. cbn in *. apply bool_decide_eq_false_2. intros [= E]. by rewrite E, beq_refl in Hc. }
        rewrite Hn. change (mkNerSpan (en_kind f) (en_start f) (en_end f) (en_score f)) with (span_of [f]).
        rewrite (IHo f [] (out ++ [span_of (e :: r)]) Hf). rewrite <- app_assoc. f_equal. cbn [segments].
        assert (Hj : join_group (en_kind e) (e :: r) (join_group (en_kind f) [f] (segments ts)) = (e :: r) :: join_group (en_kind f) [f] (segments ts)).
        { unfold join_group at 1. destruct (segments ts) as [|[|x h] gs]; cbn; try by rewrite Hc. destruct (continues (en_kind f) x); cbn; by rewrite Hc. }
        by rewrite Hj.
    + intros out. cbn [fold_left]. unfold add_token at 2. cbn [fst snd flush].
      change (mkNerSpan (en_kind f) (en_start f) (en_end f) (en_score f)) with (span_of [f]). by rewrite (IHo f [] out Hf).
  - split.
    + intros e r out He. cbn [fold_left]. unfold add_token at 2. cbn [flush]. rewrite IHc, <- app_assoc. done.
    + intros out. cbn [fold_left]. unfold add_token at 2. cbn [flush]. by rewrite IHc.
Qed.

(** Every entity token is in one group, in its order. *)
Lemma join_concat k g gs : concat (join_group k g gs) = g ++ concat gs.
Proof. destruct gs as [|[|f h] gs]; cbn; try done. destruct (continues k f); cbn; [by rewrite <- app_assoc | done]. Qed.

Lemma segments_concat ts : concat (segments ts) = omap id ts.
Proof. induction ts as [|[e|] ts IH]; [done | | done]. cbn [segments]. rewrite join_concat, IH. done. Qed.

Lemma filter_concat (gs : list (list Entity)) : concat (List.filter (fun g => match g with [] => false | _ => true end) gs) = concat gs.
Proof. induction gs as [|[|e g] gs IH]; [done | done|]. cbn. by rewrite IH. Qed.

(** One kind in a group, and only its first token may begin an entity. *)
Definition one_entity (g : list Entity) : Prop := exists e r, g = e :: r /\ Forall (fun f => continues (en_kind e) f = true) r.

Lemma join_entities e gs : Forall one_entity (List.filter (fun g => match g with [] => false | _ => true end) gs) ->
  Forall one_entity (List.filter (fun g => match g with [] => false | _ => true end) (join_group (en_kind e) [e] gs)).
Proof.
  intros H. assert (He : one_entity [e]) by (by exists e, []). destruct gs as [|[|f h] gs]; cbn [join_group]; [by constructor | cbn; by constructor|].
  destruct (continues (en_kind e) f) eqn:Hc; [|cbn; by constructor]. cbn in H |- *. apply Forall_cons in H as [(f' & r & [= <- <-] & Hr) Hgs].
  constructor; [|done]. exists e, (f :: h). split; [done|]. constructor; [done|]. pose proof Hc as [_ Hk%beq_true]%andb_true_iff. by rewrite <- Hk.
Qed.

Lemma entities_one ts : Forall one_entity (entities ts).
Proof. unfold entities. induction ts as [|[e|] ts IH]; cbn [segments]; [constructor | by apply join_entities | done]. Qed.

Lemma last_end e r : exists x, x ∈ e :: r /\ List.last (map en_end (e :: r)) 0 = en_end x.
Proof.
  revert e. induction r as [|f r IH]; intros e; [exists e; split; [by left | done]|]. destruct (IH f) as (x & Hx & Hl). exists x. split; [by right | exact Hl].
Qed.

(** Tokens in the order of the text, each of some width. *)
Definition in_order (es : list Entity) : Prop :=
  StronglySorted (fun e f => en_end e <= en_start f) es /\ Forall (fun e => en_start e < en_end e) es.

Lemma in_order_app es fs : in_order (es ++ fs) -> in_order es /\ in_order fs /\ (forall e f, e ∈ es -> f ∈ fs -> en_end e <= en_start f).
Proof.
  unfold in_order. rewrite Forall_app. intros [Hs [H1 H2]]. induction es as [|e es IH]; [split_and!; try done; [constructor | intros ? ? []%elem_of_nil]|].
  cbn in Hs. apply StronglySorted_inv in Hs as [Hs He]. apply Forall_cons in H1 as [H0 H1]. destruct (IH Hs H1) as ([I1 I2] & [I3 I5] & I4).
  apply Forall_app in He as [He1 He2]. split_and!; try done; [by constructor | by constructor |]. intros x f Hx Hf.
  apply elem_of_cons in Hx as [-> | Hx]; [rewrite Forall_forall in He2; by apply He2 | by apply I4].
Qed.

Lemma span_bounds g : g <> [] -> in_order g ->
  start (span_of g) < end_ (span_of g) /\ (exists x, x ∈ g /\ end_ (span_of g) = en_end x) /\ exists x, x ∈ g /\ start (span_of g) = en_start x.
Proof.
  destruct g as [|e r]; [done|]. intros _ [Hs Hw]. destruct (last_end e r) as (x & Hx & Hl). cbn [span_of start end_].
  split_and!; [| by exists x | exists e; split; [by left | done]]. rewrite Hl. apply Forall_cons in Hw as [Hw1 Hw2]. apply elem_of_cons in Hx as [-> | Hx]; [done|].
  apply StronglySorted_inv in Hs as [_ Hs]. rewrite Forall_forall in Hs, Hw2. specialize (Hs x Hx). specialize (Hw2 x Hx). lia.
Qed.

(** The classifier's spans are the entities of its tokens: one span for every maximal run of tokens of one kind, cut where
    a token begins an entity or says nothing; every token that names an entity is in exactly one, in order; a span is labelled
    with the kind, goes from the start of its first token to the end of its last and is scored with its least certain
    token; and when the tokenizer's offsets go through the text in order, so do the spans: none is empty, no two overlap. *)
Theorem ner_spans_exact ts : plain ts ->
  assemble ts = map span_of (entities ts)
  /\ concat (entities ts) = omap id ts /\ Forall one_entity (entities ts)
  /\ (in_order (omap id ts) -> Forall (fun s => start s < end_ s) (assemble ts) /\ StronglySorted (fun a b => end_ a <= start b) (assemble ts)).
Proof.
  intros Hp. assert (Ha : assemble ts = map span_of (entities ts)) by (apply (proj2 (assemble_from ts Hp) [])).
  assert (Hc : concat (entities ts) = omap id ts) by (unfold entities; by rewrite filter_concat, segments_concat).
  pose proof (entities_one ts) as Ho. split_and!; try done. rewrite Ha, <- Hc. clear Ha Hc Hp. induction Ho as [|g gs (e & r & -> & _) Hog IH]; [by repeat constructor|].
  cbn [concat map]. intros (Hg & Hgs & Hx)%in_order_app. destruct (IH Hgs) as [I1 I2]. destruct (span_bounds (e :: r) ltac:(done) Hg) as (B1 & (x & Hx1 & B2) & _).
  split; [by constructor|]. constructor; [done|]. apply Forall_map, Forall_forall. intros g Hin.
  change (end_ (span_of (e :: r)) <= start (span_of g)). rewrite B2.
  rewrite Forall_forall in Hog. destruct (Hog g Hin) as (e' & r' & -> & _). cbn [span_of start]. apply Hx; [done|].
  apply list_elem_of_In, in_concat. exists (e' :: r'). split; [by apply list_elem_of_In | by left].
Qed.

(** Two people side by side, the first of two tokens, and a place. *)
Definition half : f32 := f32_div f32_one (f32_add f32_one f32_one).
Definition sample_tokens : list (option Entity) :=
  [None; Some (mkEntity (lit "PER") true 0 4 f32_one); Some (mkEntity (lit "PER") false 5 9 half); Some (mkEntity (lit "PER") true 10 14 f32_one); None;
   Some (mkEntity (lit "LOC") false 18 24 half)].

Lemma ner_spans_exact_witness :
  plain sample_tokens /\ assemble sample_tokens = [mkNerSpan (lit "PER") 0 9 half; mkNerSpan (lit "PER") 10 14 f32_one; mkNerSpan (lit "LOC") 18 24 half].
Proof.
  assert (Hp : plain sample_tokens) by (repeat constructor; vm_compute; reflexivity).
  split; [exact Hp|]. rewrite (proj1 (ner_spans_exact sample_tokens Hp)). vm_compute. reflexivity.
Defined.

(** A kind with a hyphen of its own is cut at every token. *)
Example hyphened_kind_split :
  assemble [Some (mkEntity (lit "ID-CARD") true 0 4 f32_one); Some (mkEntity (lit "ID-CARD") false 4 9 f32_one)]
  = [mkNerSpan (lit "ID-CARD") 0 4 f32_one; mkNerSpan (lit "ID-CARD") 4 9 f32_one].
Proof. vm_compute. reflexivity. Qed.
